(* ===== verification/_CoqProject ===== *)
-Q . S2P
Prelude.v
Text.v
Names.v
Framing.v
Streams.v
Credit.v
Shutdown.v
Assignment.v
AddressWorker.v
AddressController.v
Sse.v
Http.v
ControlLink.v
Follower.v
EventStream.v
TunnelServer.v
Withdrawal.v
Capacity.v
Admission.v
Authorization.v
Pool.v
Registry.v
Continuity.v
ManagedInput.v
Session.v
ManagedServer.v
ConfigPrep.v
Checks.v
Config.v
Materials.v
Disk.v
CertStore.v
CertController.v
Relay.v
ClientStreams.v
Visitors.v
EndToEnd.v
ServerLoop.v
ClientRun.v
Supervision.v
Readiness.v
Startup.v
MaterialFiles.v
TlsMaterial.v
RuntimeLog.v
Process.v
ClientAcme.v
ManagedClient.v
ServerAcme.v
ClientConnect.v
