(* ===== verification/Prelude.v ===== *)
(** * Runewarp: a verification library

    Runewarp publishes services through a tunnel.  A Server accepts Visitors over TCP,
    reads their TLS ClientHello, and forwards each one over a QUIC Tunnel connection
    that a Client opened; the Client connects the stream to a local backend.  Both
    roles can be managed: a Managed session follows Control over Server-Sent Events,
    applies the newest input and reports what was applied.  This library models the
    decisions of the program in [src/src/] as executable functions and transition
    systems and proves what they promise.

    ** How the files correspond to the program

    Foundations:
    - [Prelude] (this file): results, [?] as monadic bind, bytes, machines and the shared
      lemmas; nothing here models the program's own code.
    - [Text]: the parts of Rust's [std] the parsers call: integer parsing and printing,
      UTF-8 validation, IP literals.
    - [Names]: [hostname.rs], [server_address.rs], [control_address.rs],
      [opaque_control_token.rs], [tunnel_id.rs] and the textual [ClientIdentity] of
      [identity.rs].
    - [Framing]: [proxy_protocol.rs] ([Proxy]), [client_hello.rs] ([Hello]) and
      [tunnel_framing.rs] ([Tunnel]) over [Reader], a byte stream that hands out its
      content in arbitrary chunks.
    - [Sse]: the incremental parser of [sse.rs] ([Parser]) and the Tunnel event
      snapshots of [tunnel/events.rs] ([Events]).
    - [Capacity]: descriptor sizing of [fd_capacity.rs] ([Fd]) and retry pacing of
      [reconnect_policy.rs] ([Retry]).
    - [Shutdown]: [shutdown.rs], the orderly shutdown that both roles share.

    The Tunnel connection:
    - [Streams], [Credit]: [tunnel/stream.rs] and [tunnel/credit.rs], the two halves of a
      Visitor stream and the permits that back a Client's credit.
    - [Http]: the request routing of [tunnel/server.rs] and the HTTP of the Managed
      session ([managed_session/status.rs], [role.rs], [state.rs]).
    - [TunnelServer], [EventStream]: [tunnel/server.rs], the Server's side of a connection
      and its event streams.
    - [Follower], [Withdrawal]: [tunnel/client.rs], the Client's side: the subscription
      to events and the withdrawal, the latter composed with the Server's side.

    The Server:
    - [Admission], [Authorization], [Pool], [Registry], [Continuity]:
      [server/admission.rs], [server/authorization.rs], [server/active_client.rs] and
      [server/tunnel_registry.rs].
    - [Visitors], [Relay]: [server/visitor_stream.rs] and [proxy.rs], a Visitor from
      accept to the end of its relay.
    - [ServerLoop], [Readiness]: [server/mod.rs], [server_connection_log.rs] and
      [server/readiness.rs], binding, the accept loop and its teardown.
    - [Disk], [CertStore], [CertController]: [server_certificate.rs] and
      [server_certificate/], the store over a disk that fails, and the controller.

    The Client:
    - [Assignment], [AddressWorker], [AddressController]: [client/service.rs],
      [client/assignment_convergence.rs], [client/address_worker.rs] and
      [client/address_controller.rs].
    - [ClientRun], [ClientConnect], [ClientStreams]: [client/tunnel_attempt.rs],
      [client/mod.rs], [client/tunnel_stream.rs], [client/stream_limits.rs],
      [client/termination_tls.rs].
    - [ClientAcme]: [acme.rs].

    Control:
    - [ManagedInput]: [managed_session/limits.rs], [snapshot.rs] and [input.rs].
    - [ControlLink], [Session]: [managed_session/connection.rs], and [lifecycle.rs],
      [reconcile.rs], [timing.rs], [session.rs].
    - [ManagedServer], [ManagedClient]: [server/managed_adapter.rs] with [drain.rs], and
      [client/managed_adapter.rs]: an accepted input applied to the running role.

    The process:
    - [ConfigPrep], [Checks], [Config], [Materials]: [config/] and [paths.rs], from parsed
      TOML and the command line to validated settings.
    - [MaterialFiles], [TlsMaterial]: [cert_file_ops.rs], [server_cert.rs],
      [client_public_cert.rs], [identity.rs], [server_identity.rs] and their commands;
      [tls_material.rs], [quic.rs], [tunnel/config.rs], [managed_session/tls.rs].
    - [Startup], [ServerAcme], [Supervision]: [startup.rs], [server_runtime.rs],
      [client_runtime.rs].
    - [RuntimeLog], [Process]: [runtime_log.rs]; [commands/], [error_handling.rs],
      [config_hints.rs].

    ** How they compose

    [Registry] is built from [Pool], [Authorization] and [Admission]; [ManagedServer]
    instantiates the role interface of [Session] ([Lifecycle.RoleAdapter]) with the parser
    of [ManagedInput] and drives [Registry].  [ManagedClient] instantiates it for the
    Client and runs the whole [Session] beside [AddressController], whose workers are
    those of [AddressWorker].  [EventStream] joins the Server's frames to [Follower],
    [Withdrawal] the two ends of a withdrawal, [EndToEnd] the relays and handlers of both
    roles for one Visitor, [Supervision] the loop of [ServerLoop] and the session,
    [ServerAcme] that loop and the certificate manager, [ClientConnect] an attempt and its log.
    [TlsMaterial] discharges the parameters of [Config] and [Startup] with the code that
    reads the files, and [Process] refines the signals of a process to [Shutdown].

    ** Modelling conventions

    - Bytes are [ascii], strings lists of bytes, lengths, ports, counters and instants
      [Z].  Arithmetic that Rust checks or saturates is written out where it can
      matter; a panic is a value ([None], [Panic], [Panics]), so that its absence is a
      theorem.
    - Sequential code is a function, with [result] for fallible code.
    - Concurrent code is a transition system whose actions are the critical sections of
      the source: what runs under one lock, or between two suspension points.  A
      suspended task is a value in the state that a later action resumes, so every
      interleaving the scheduler may choose is a sequence of actions.  Where the code
      can drop or abort a suspended task, that is an action too (a replacement in
      [Registry], an apply in [ManagedServer], a Visitor's task in [Visitors]).  An
      [Arc] that is shared or compared by pointer is a name into a store of the state.
    - Code that writes files is a program over a file system; a list of faults decides
      what fails, is cut short or dies, reads included, and the specifications quantify
      over it.
    - In [ServerLoop] and [Supervision] a timed wait is a deadline in the state and time an
      action of its own; elsewhere a timeout is an action that may come at any time.
      Termination of their tasks is a bound on the task's own steps in every run, and
      that one of them is possible unless the task has returned or its deadline is ahead.
    - Code outside the repository is a parameter: TLS, QUIC, HTTP, [serde_json], [toml],
      [uuid], X.509 and the random generator are class members or section variables, with
      their documented behaviour as class laws or named hypotheses.  The modules named
      [Toy...] or [...Toy] instantiate them, so that no theorem is vacuous.
    - A [HashMap] is a [gmap], a [HashSet] a [gset]; where the iteration order of a
      [HashMap] is observable it is an argument of the action.
    - Identifiers drawn from 64-bit counters are [Z] and do not wrap, except the
      connection identifiers, whose exhaustion the code handles.  A resumption of the
      Managed session reads the clock once.  The certificate store is opened by one
      handle at a time, and two generations never have the same SHA-256 digest.

    ** Bounds and fuel

    - The settle loop of the session ([Session.Lifecycle.settle_loop]) has fuel 3: the
      session proofs show that it always suspends within it.
    - [Framing.Hello.hello_loop] has fuel for one byte more than the buffer limit, and
      every turn of the loop reads a byte or ends.
    - [CertStore.split_blocks] and [MaterialFiles.strip] have the length of their text,
      which every turn shortens; [Text.show_digits] has 20 digits, enough for 64 bits, and
      [RuntimeLog.show_hex_digits] 4, enough for 16 bits.
    - [ServerLoop.first_ready] tries each of its listeners once; replacing a file tries
      the 16 temporary names that the code tries.
    - Everything else recurses on its data.

    ** What the theorems show

    - Routing and authorization: Visitors run only on connections whose identity the
      snapshot they were admitted under authorizes; registered connections are
      authorized or told to close, unless a replacement overlapped their registration or
      was dropped; handshakes admit exactly the Clients that have a Tunnel; permits,
      counters and pools agree exactly; no interleaving panics ([Registry],
      [Continuity], [Admission], [Visitors], [TunnelServer], [TlsMaterial]).
    - Bytes: a Visitor's bytes reach the backend and come back unchanged, behind the
      header the Service asks for ([Framing], [Relay], [ClientStreams], [EndToEnd]).
    - Ends: a sealed registry drains, a begun replacement that is not dropped completes,
      a report of quiescence and a confirmed withdrawal are final, loops return within a
      bounded number of their own steps and within the durations they wait for, and
      signals decide the mode of both roles alike ([Registry], [ManagedServer],
      [Withdrawal], [ServerLoop], [Supervision], [Process]).
    - Control: the accepted inputs are characterised exactly; an apply is acknowledged
      after its effects; documents report only what was applied; a Managed Client works
      to the revision it reports unless a connection was lost in the middle of an apply
      ([ManagedInput], [Session], [ManagedServer], [ManagedClient]).
    - The Client: one worker for an address, the tracker follows the workers, the
      streams admitted on issued credit are backed by permits, an event stream brings
      the last snapshot ([AddressController], [Credit], [EventStream]).
    - Files: the certificate store keeps the acknowledged generation across faults and
      power failures unless a read failed, and opens again; the commands that write
      certificates touch only their own files, keep keys private and can be repeated; a
      rotation of an identity ends in one of three states ([CertStore],
      [MaterialFiles]).
    - Configuration: accepted settings are well-formed, and a Server or Client that
      validation accepted starts, or fails only where the environment does ([Config],
      [Startup], [TlsMaterial]).
    - Text: the grammars of names and addresses, round trips of encodings, SSE parsing
      equal to what the lines of the stream say however it is cut, a log that shows no
      more than summaries at the level [info] ([Names], [Sse], [RuntimeLog]).
    - Some theorems record behaviour that departs from the documentation or the intent:
      [stale_registration_survives_revocation], [interrupted_revocation_acknowledged],
      [adopted_member_unwatched], [full_hello_refused], [readoption_lost],
      [interrupted_apply_reported], [stale_snapshot_applied], [supersession_missed],
      [late_route_loss_stops_owner], [read_error_discards_generation],
      [readiness_lost_on_accept_error], [empty_acme_email_panics] and
      [server_init_repeats].

    ** What is not modelled

    - Third-party protocols and formats: QUIC, HTTP/2, HTTP/3, TLS, X.509, PEM, TOML and
      JSON texts, the ACME protocol, and the generation of keys and certificates.
    - Argument parsing ([cli.rs], by clap), the texts that commands print, and the
      timestamps and output of the log (tracing).
    - System calls on the process limit ([fd_capacity.rs]) and the sockets below the
      calls whose answers are inputs of the machines.
    - The library's single-shot entry points of [startup.rs], accessors, tests and the
      benchmark of [capacity_benchmark.rs]. *)

From Stdlib Require Import Ascii ZArith Lia.
From stdpp Require Import base strings numbers gmap sorting list.

(** ** Results

    [Result<A, E>] of the source.  The error type comes first so that
    [result E] is a monad in stdpp's sense and the notation [x ← c; k]
    renders the [?] operator. *)

Inductive result (E A : Type) : Type :=
| Ok (a : A)
| Err (e : E).
Arguments Ok {E A} a.
Arguments Err {E A} e.

#[export] Instance result_eq_dec {E A} `{EqDecision E} `{EqDecision A} :
  EqDecision (result E A).
Proof. solve_decision. Defined.

#[export] Instance result_ret {E} : MRet (result E) := λ A a, Ok a.
#[export] Instance result_bind {E} : MBind (result E) := λ A B f r,
  match r with Ok a => f a | Err e => Err e end.
#[export] Instance result_fmap {E} : FMap (result E) := λ A B f r,
  match r with Ok a => Ok (f a) | Err e => Err e end.

Definition map_err {E F A} (f : E → F) (r : result E A) : result F A :=
  match r with Ok a => Ok a | Err e => Err (f e) end.

Definition ok_or {E A} (e : E) (o : option A) : result E A :=
  match o with Some a => Ok a | None => Err e end.

(** [if condition { return Err(e) }]. *)
Definition reject_if {E} (b : bool) (e : E) : result E unit :=
  if b then Err e else Ok tt.

Definition is_ok {E A} (r : result E A) : bool :=
  match r with Ok _ => true | Err _ => false end.

(** A [for] loop whose body may return early with an error: the accumulator is
    the loop's mutable state. *)
Fixpoint try_fold {E A B} (f : A → B → result E A) (a : A) (bs : list B) : result E A :=
  match bs with
  | [] => Ok a
  | b :: bs' => a' ← f a b; try_fold f a' bs'
  end.

(** A [for] loop that pushes one converted element per iteration. *)
Fixpoint try_map {E A B} (f : A → result E B) (l : list A) : result E (list B) :=
  match l with
  | [] => Ok []
  | a :: l' => b ← f a; bs ← try_map f l'; Ok (b :: bs)
  end.

(** ** Machine integers

    Integers are [Z]; a w-bit unsigned value is one in [0, 2^w).  Every
    operation that can leave the range is written with the wrap-around,
    saturation or panic of the source. *)

Definition umax (w : Z) : Z := 2 ^ w - 1.
Definition in_width (w z : Z) : Prop := (0 ≤ z ≤ umax w)%Z.
Definition saturating_add (w a b : Z) : Z := Z.min (umax w) (a + b).
Definition saturating_sub (a b : Z) : Z := Z.max 0 (a - b).
Definition saturating_mul (w a b : Z) : Z := Z.min (umax w) (a * b).
Definition wrapping_add (w a b : Z) : Z := (a + b) mod 2 ^ w.
Definition div_ceil (a b : Z) : Z := (a + b - 1) / b.

(** [usize] is 64 bits wide on the supported targets. *)
Definition usize_bits : Z := 64.

Definition len {A} (l : list A) : Z := Z.of_nat (length l).

(** ** Bytes and strings

    A byte is an [ascii].  [Vec<u8>], [&str] and [String] are all byte lists: a
    Rust string is its UTF-8 encoding, so [len] is [str::len]. *)

Abbreviation u8 := ascii.
Abbreviation bytes := (list ascii).

Definition bs (s : string) : bytes := String.list_ascii_of_string s.

Definition u8_val (b : u8) : Z := Z.of_N (N_of_ascii b).
Definition u8_of (z : Z) : u8 := ascii_of_N (Z.to_N (z mod 256)).

(** Big-endian byte strings, [to_be_bytes] and [from_be_bytes]. *)
Fixpoint be_val (l : bytes) : Z :=
  match l with
  | [] => 0
  | b :: l' => u8_val b * 256 ^ len l' + be_val l'
  end.

Fixpoint be_bytes (n : nat) (z : Z) : bytes :=
  match n with
  | O => []
  | S n' => u8_of (z / 256 ^ Z.of_nat n') :: be_bytes n' z
  end.

(** Byte classes of [u8::is_ascii_*]. *)
Definition between (lo hi : Z) (b : u8) : bool :=
  ((lo <=? u8_val b) && (u8_val b <=? hi))%Z.
Definition is_ascii (b : u8) : bool := (u8_val b <? 128)%Z.
Definition is_ascii_lowercase (b : u8) : bool := between 97 122 b.
Definition is_ascii_uppercase (b : u8) : bool := between 65 90 b.
Definition is_ascii_digit (b : u8) : bool := between 48 57 b.
Definition is_ascii_alphanumeric (b : u8) : bool :=
  is_ascii_lowercase b || is_ascii_uppercase b || is_ascii_digit b.
Definition is_ascii_hexdigit (b : u8) : bool :=
  is_ascii_digit b || between 97 102 b || between 65 70 b.
Definition is_ascii_whitespace (b : u8) : bool :=
  ((u8_val b =? 32) || (u8_val b =? 9) || (u8_val b =? 10) ||
   (u8_val b =? 12) || (u8_val b =? 13))%Z.
Definition is_ascii_control (b : u8) : bool :=
  ((u8_val b <? 32) || (u8_val b =? 127))%Z.
Definition to_ascii_lowercase (b : u8) : u8 :=
  if is_ascii_uppercase b then u8_of (u8_val b + 32) else b.

(** [str::trim_end_matches], [split], [split_once], [rsplit_once] and
    [contains] for an ASCII pattern character. *)
Definition byte_eqb (a b : u8) : bool := bool_decide (a = b).

Fixpoint trim_start_matches (c : u8) (s : bytes) : bytes :=
  match s with
  | [] => []
  | b :: s' => if byte_eqb b c then trim_start_matches c s' else s
  end.
Definition trim_end_matches (c : u8) (s : bytes) : bytes :=
  rev (trim_start_matches c (rev s)).

Definition contains_byte (c : u8) (s : bytes) : bool := existsb (byte_eqb c) s.

Fixpoint split_once (c : u8) (s : bytes) : option (bytes * bytes) :=
  match s with
  | [] => None
  | b :: s' =>
      if byte_eqb b c then Some ([], s')
      else '(x, y) ← split_once c s'; Some (b :: x, y)
  end.
Definition rsplit_once (c : u8) (s : bytes) : option (bytes * bytes) :=
  '(x, y) ← split_once c (rev s); Some (rev y, rev x).

Fixpoint split_on (c : u8) (s : bytes) : list bytes :=
  match s with
  | [] => [[]]
  | b :: s' =>
      if byte_eqb b c then [] :: split_on c s'
      else match split_on c s' with
           | [] => [[b]]
           | w :: ws => (b :: w) :: ws
           end
  end.

(** [slice::join] with a one-byte separator. *)
Fixpoint join (sep : bytes) (ws : list bytes) : bytes :=
  match ws with
  | [] => []
  | [w] => w
  | w :: ws' => w ++ sep ++ join sep ws'
  end.

(** ** Automation *)

Create HintDb runewarp.
Create Rewrite HintDb runewarp.

(** Inverts a hypothesis [c = Ok a] (or [Some a]) where [c] is a chain of binds,
    matches and conditionals, leaving one hypothesis per successful step. *)
Ltac invert_step H :=
  lazymatch type of H with
  | Ok _ = Ok _ => injection H as H
  | Err _ = Err _ => injection H as H
  | Ok _ = Err _ => discriminate H
  | Err _ = Ok _ => discriminate H
  | Some _ = Some _ => injection H as H
  | Some _ = None => discriminate H
  | None = Some _ => discriminate H
  | (match ?c with _ => _ end) = _ =>
      let E := fresh "E" in destruct c eqn:E
  | mbind _ ?c = _ =>
      let E := fresh "E" in destruct c eqn:E; cbn [mbind result_bind option_bind] in H
  | fmap _ ?c = _ =>
      let E := fresh "E" in destruct c eqn:E; cbn [fmap result_fmap option_fmap option_map] in H
  end.
Ltac step := cbn [mbind result_bind option_bind fmap result_fmap map_err ok_or reject_if negb].
Ltac step_in H :=
  cbn [mbind result_bind option_bind fmap result_fmap map_err ok_or reject_if negb] in H.
Ltac invert H := repeat (invert_step H); simplify_eq/=.

(** ** Machines

    The result of an action of a transition system: the next state, an action that is
    not enabled, or a panic of the source. *)
Inductive next (S : Type) : Type :=
| Steps (s : S)
| Disabled
| Panics.
Arguments Steps {S} s.
Arguments Disabled {S}.
Arguments Panics {S}.

Definition steps_or_panics {A S} (o : option A) (k : A → next S) : next S :=
  match o with Some a => k a | None => Panics end.

(** Runs a list of actions. *)
Fixpoint run_actions {S A} (exec : S → A → next S) (s : S) (acts : list A) : option S :=
  match acts with
  | [] => Some s
  | a :: acts' => match exec s a with Steps s' => run_actions exec s' acts' | _ => None end
  end.

(** The sum of [f] over the values of a map. *)
Definition sum_map {K} `{Countable K} {A} (f : A → Z) (m : gmap K A) : Z :=
  map_fold (λ _ a z, f a + z)%Z 0%Z m.

(** ** Lemmas on results *)

Lemma reject_if_Ok {E} b (e : E) u : reject_if b e = Ok u → b = false.
Proof. by destruct b. Qed.

Lemma try_map_Ok_iff {E A B} (f : A → result E B) l k :
  try_map f l = Ok k ↔ Forall2 (λ a b, f a = Ok b) l k.
Proof.
  revert k. induction l as [|a l IH]; intros k; simpl.
  - split; [intros [= <-]; constructor | by inversion 1].
  - split.
    + intros H. destruct (f a) as [b|] eqn:Ea; simpl in H; [|done].
      destruct (try_map f l) as [ks|] eqn:El; simpl in H; [|done].
      injection H as <-. constructor; [done|]. by apply IH.
    + inversion 1 as [|? b ? ks Ha Hl]; subst. rewrite Ha. simpl.
      apply IH in Hl. by rewrite Hl.
Qed.

Lemma try_fold_app {E A B} (f : A → B → result E A) a l k :
  try_fold f a (l ++ k) = (a' ← try_fold f a l; try_fold f a' k).
Proof.
  revert a. induction l as [|b l IH]; intros a; simpl; [done|].
  destruct (f a b); simpl; [apply IH | done].
Qed.

(** Loop invariants for [try_fold]. *)
Lemma try_fold_invariant {E A B} (f : A → B → result E A) (P : list B → A → Prop) l :
  ∀ a a', P [] a → try_fold f a l = Ok a' →
  (∀ done b rest x y, l = done ++ b :: rest → P done x → f x b = Ok y → P (done ++ [b]) y) →
  P l a'.
Proof.
  induction l as [|b l IH] using rev_ind; intros a a' H0 H Hstep.
  - by injection H as <-.
  - rewrite try_fold_app in H.
    destruct (try_fold f a l) as [x|] eqn:E1; simpl in H; [|done].
    destruct (f x b) as [y|] eqn:E2; simpl in H; [|done]. injection H as <-.
    eapply (Hstep l b []); eauto.
    eapply IH; eauto. intros d c r x' y' -> Hd Hf.
    eapply (Hstep d c (r ++ [b])); eauto. by rewrite <- app_assoc.
Qed.

(** ** Lemmas on bytes *)

Lemma len_nonneg {A} (l : list A) : (0 ≤ len l)%Z.
Proof. unfold len. lia. Qed.
Lemma len_app {A} (l k : list A) : len (l ++ k) = (len l + len k)%Z.
Proof. unfold len. rewrite length_app. lia. Qed.
Lemma len_cons {A} (a : A) l : len (a :: l) = (1 + len l)%Z.
Proof. unfold len. simpl. lia. Qed.
Lemma len_nil {A} : len (@nil A) = 0%Z.
Proof. done. Qed.
#[export] Hint Rewrite @len_app @len_cons @len_nil : runewarp.
#[export] Hint Resolve len_nonneg : runewarp.

Lemma u8_val_range b : (0 ≤ u8_val b < 256)%Z.
Proof.
  unfold u8_val. assert (N_of_ascii b < 256)%N by apply N_ascii_bounded. lia.
Qed.

Lemma u8_val_of z : (0 ≤ z < 256)%Z → u8_val (u8_of z) = z.
Proof.
  intros H. unfold u8_val, u8_of. rewrite Z.mod_small by lia.
  rewrite N_ascii_embedding by lia. lia.
Qed.

Lemma u8_of_val b : u8_of (u8_val b) = b.
Proof.
  unfold u8_of. rewrite Z.mod_small by apply u8_val_range.
  unfold u8_val. rewrite N2Z.id. apply ascii_N_embedding.
Qed.

Lemma u8_val_inj a b : u8_val a = u8_val b → a = b.
Proof. intros H. by rewrite <- (u8_of_val a), <- (u8_of_val b), H. Qed.

Lemma u8_of_mod z : u8_of z = u8_of (z mod 256).
Proof. unfold u8_of. by rewrite Z.mod_mod by lia. Qed.

Lemma length_be_bytes n z : length (be_bytes n z) = n.
Proof. induction n; simpl; auto. Qed.

Lemma be_val_range l : (0 ≤ be_val l < 256 ^ len l)%Z.
Proof.
  induction l as [|b l IH]; simpl; [done|].
  rewrite len_cons, Z.pow_add_r by (pose proof (len_nonneg l); lia).
  pose proof (u8_val_range b). nia.
Qed.

Lemma be_val_bytes n z :
  be_val (be_bytes n z) = (z mod 256 ^ Z.of_nat n)%Z.
Proof.
  induction n as [|n IH]; simpl; [by rewrite Z.mod_1_r|].
  unfold len. rewrite length_be_bytes, IH.
  rewrite Nat2Z.inj_succ, Z.pow_succ_r by lia.
  assert (0 < 256 ^ Z.of_nat n)%Z as Hp by (apply Z.pow_pos_nonneg; lia).
  rewrite (Z.mul_comm 256), Z.rem_mul_r by lia.
  rewrite u8_of_mod, u8_val_of by (apply Z.mod_pos_bound; lia). lia.
Qed.

Lemma be_bytes_val l : be_bytes (length l) (be_val l) = l.
Proof.
  induction l as [|b l IH]; [done|].
  assert (∀ n h z, be_bytes n (h * 256 ^ Z.of_nat n + z) = be_bytes n z) as Hhigh.
  { intros n. induction n as [|n IHn]; intros h z; simpl; [done|].
    rewrite Nat2Z.inj_succ, Z.pow_succ_r by lia.
    rewrite Z.mul_assoc, (IHn (h * 256)%Z). f_equal.
    assert (0 < 256 ^ Z.of_nat n)%Z by (apply Z.pow_pos_nonneg; lia).
    rewrite Z.div_add_l by lia.
    rewrite u8_of_mod, (u8_of_mod (z / _)). f_equal.
    rewrite Z.add_comm. by rewrite Z.mod_add by lia. }
  simpl. fold (len l). f_equal.
  - unfold len at 2. pose proof (be_val_range l) as Hr. unfold len in *.
    rewrite Z.div_add_l by lia. rewrite Z.div_small, Z.add_0_r by done.
    apply u8_of_val.
  - unfold len. rewrite Hhigh. apply IH.
Qed.

Lemma byte_eqb_true a b : byte_eqb a b = true ↔ a = b.
Proof. apply bool_decide_eq_true. Qed.
Lemma byte_eqb_false a b : byte_eqb a b = false ↔ a ≠ b.
Proof. apply bool_decide_eq_false. Qed.
Lemma byte_eqb_refl a : byte_eqb a a = true.
Proof. by apply byte_eqb_true. Qed.

Lemma contains_byte_false c s : contains_byte c s = false ↔ c ∉ s.
Proof.
  unfold contains_byte. induction s as [|b s IH]; simpl.
  - split; [intros _; apply not_elem_of_nil | done].
  - rewrite orb_false_iff, byte_eqb_false, IH, not_elem_of_cons. done.
Qed.

(** Finite facts about bytes are decided by evaluating all 256 of them. *)
Lemma all_bytes (P : u8 → bool) :
  forallb P (List.map (λ n, ascii_of_nat n) (seq 0 256)) = true → ∀ b, P b = true.
Proof.
  intros H b. rewrite forallb_forall in H. apply H.
  apply in_map_iff. exists (nat_of_ascii b).
  split; [apply ascii_nat_embedding|]. apply in_seq.
  pose proof (nat_ascii_bounded b). lia.
Qed.

Lemma join_cons sep w ws : ws ≠ [] → join sep (w :: ws) = w ++ sep ++ join sep ws.
Proof. by destruct ws. Qed.

Lemma join_snoc sep ws w :
  ws ≠ [] → join sep (ws ++ [w]) = join sep ws ++ sep ++ w.
Proof.
  induction ws as [|v ws IH]; intros Hne; [done|]. destruct ws as [|v' ws]; [done|].
  change ((v :: v' :: ws) ++ [w]) with (v :: ((v' :: ws) ++ [w])).
  rewrite !join_cons, IH by (done || by destruct ws). by rewrite <- !app_assoc.
Qed.

(** ** Lemmas on sums over maps *)

Section SumMap.
Context {K : Type} `{Countable K} {A : Type} (f : A → Z).
Implicit Types (m : gmap K A).

Lemma sum_map_empty : sum_map f (∅ : gmap K A) = 0%Z.
Proof. done. Qed.

Lemma sum_map_insert_fresh m k a :
  m !! k = None → sum_map f (<[k := a]> m) = (f a + sum_map f m)%Z.
Proof.
  intros Hk. unfold sum_map. rewrite map_fold_insert_L; [done| |done]. intros. lia.
Qed.

Lemma sum_map_delete m k a :
  m !! k = Some a → sum_map f (delete k m) = (sum_map f m - f a)%Z.
Proof.
  intros Hk. rewrite <- (insert_delete_id m k a Hk) at 2.
  rewrite sum_map_insert_fresh by apply lookup_delete_eq. lia.
Qed.

Lemma sum_map_update m k a b :
  m !! k = Some a → sum_map f (<[k := b]> m) = (sum_map f m - f a + f b)%Z.
Proof.
  intros Hk. rewrite <- insert_delete_eq, sum_map_insert_fresh by apply lookup_delete_eq.
  rewrite (sum_map_delete _ _ _ Hk). lia.
Qed.

Lemma sum_map_nonneg m : (∀ k a, m !! k = Some a → 0 ≤ f a)%Z → (0 ≤ sum_map f m)%Z.
Proof.
  induction m as [|k a m Hk IH] using map_ind; intros Hf; [done|].
  rewrite sum_map_insert_fresh by done.
  assert (0 ≤ f a)%Z by (eapply Hf; apply lookup_insert_eq).
  assert (0 ≤ sum_map f m)%Z; [|lia].
  apply IH. intros k' a' Hk'. apply (Hf k'). rewrite lookup_insert_ne; [done|]. congruence.
Qed.

Lemma sum_map_lookup_le m k a :
  m !! k = Some a → (∀ k a, m !! k = Some a → 0 ≤ f a)%Z → (f a ≤ sum_map f m)%Z.
Proof.
  intros Hk Hf. pose proof (sum_map_delete m k a Hk) as Hd.
  assert (0 ≤ sum_map f (delete k m))%Z; [|lia].
  apply sum_map_nonneg. intros k' a' [_ Hk']%lookup_delete_Some. by eapply Hf.
Qed.

Lemma sum_map_all_zero m : (∀ k a, m !! k = Some a → f a = 0%Z) → sum_map f m = 0%Z.
Proof.
  induction m as [|k a m Hk IH] using map_ind; [intros _; apply sum_map_empty|]. intros Hf.
  rewrite sum_map_insert_fresh by done. rewrite (Hf k a) by apply lookup_insert_eq.
  rewrite IH; [done|]. intros k' a' Hk'. apply (Hf k').
  rewrite lookup_insert_ne; [done|]. intros ->. congruence.
Qed.

Lemma sum_map_zero m :
  (∀ k a, m !! k = Some a → 0 ≤ f a)%Z → sum_map f m = 0%Z → ∀ k a, m !! k = Some a → f a = 0%Z.
Proof.
  intros Hf Hz k a Hk. pose proof (sum_map_lookup_le m k a Hk Hf). specialize (Hf k a Hk). lia.
Qed.

End SumMap.

Lemma sum_map_le {K} `{Countable K} {A} (f g : A → Z) (m : gmap K A) :
  (∀ k a, m !! k = Some a → f a ≤ g a)%Z → (sum_map f m ≤ sum_map g m)%Z.
Proof.
  induction m as [|k a m Hk IH] using map_ind; intros Hf; [done|].
  rewrite !sum_map_insert_fresh by done.
  assert (f a ≤ g a)%Z by (eapply Hf; apply lookup_insert_eq).
  assert (sum_map f m ≤ sum_map g m)%Z; [|lia].
  apply IH. intros k' a' Hk'. apply (Hf k'). rewrite lookup_insert_ne; [done|]. congruence.
Qed.

Lemma sum_map_size {K} `{Countable K} {A} (m : gmap K A) : sum_map (λ _, 1%Z) m = Z.of_nat (size m).
Proof.
  induction m as [|k a m Hk IH] using map_ind; [done|].
  rewrite sum_map_insert_fresh, map_size_insert_None by done. lia.
Qed.

(** An invariant of every action holds along every run. *)
Lemma run_actions_invariant {S A} (exec : S → A → next S) (P : S → Prop) acts s s' :
  (∀ s a s', P s → exec s a = Steps s' → P s') → P s → run_actions exec s acts = Some s' → P s'.
Proof.
  intros Hstep. revert s. induction acts as [|a acts IH]; intros s Hs Hr; simpl in Hr.
  - by simplify_eq.
  - destruct (exec s a) as [s1| |] eqn:E; [|done..]. eapply IH; [|done]. by eapply Hstep.
Qed.

Lemma run_actions_app {S A} (exec : S → A → next S) s acts acts' :
  run_actions exec s (acts ++ acts') = s' ← run_actions exec s acts; run_actions exec s' acts'.
Proof.
  revert s. induction acts as [|a acts IH]; intros s; simpl; [done|]. destruct (exec s a); simpl; auto.
Qed.
