(* ===== verification/Text.v ===== *)
(** * Text: the parts of Rust's [std] that the parsers rely on

    Integer parsing and printing, UTF-8 validation and IP-literal parsing, as
    [core::num], [core::str] and [core::net::parser] define them.  The parsers
    of the program ([Names], [Framing], [Sse], [ManagedInput]) call these. *)

From Stdlib Require Import Ascii ZArith Lia.
From stdpp Require Import base strings numbers gmap list.
From S2P Require Import Prelude.

Local Open Scope Z_scope.

(** ** Unsigned integers: [uN::from_str_radix], [str::parse] and [Display] *)

(** [char::to_digit]. *)
Definition to_digit (radix : Z) (b : u8) : option Z :=
  let v :=
    if is_ascii_digit b then Some (u8_val b - 48)
    else if between 97 122 b then Some (u8_val b - 87)
    else if between 65 90 b then Some (u8_val b - 55)
    else None in
  match v with
  | Some d => if d <? radix then Some d else None
  | None => None
  end.

(** The digit loop, with the overflow check of every iteration. *)
Fixpoint parse_digits (radix max acc : Z) (s : bytes) : option Z :=
  match s with
  | [] => Some acc
  | b :: s' =>
      match to_digit radix b with
      | Some d =>
          let acc' := acc * radix + d in
          if acc' <=? max then parse_digits radix max acc' s' else None
      | None => None
      end
  end.

(** A leading [+] is accepted before at least one digit. *)
Definition from_str_radix (radix max : Z) (s : bytes) : option Z :=
  match s with
  | [] => None
  | b :: s' =>
      if byte_eqb b "+"%char then
        match s' with [] => None | _ => parse_digits radix max 0 s' end
      else parse_digits radix max 0 s
  end.

Definition parse_uint (max : Z) (s : bytes) : option Z := from_str_radix 10 max s.

Definition digit_byte (d : Z) : u8 := u8_of (48 + d).

(** Decimal printing of a number below [10 ^ fuel]. *)
Fixpoint show_digits (fuel : nat) (z : Z) : bytes :=
  match fuel with
  | O => []
  | S f => if z <? 10 then [digit_byte z] else show_digits f (z / 10) ++ [digit_byte (z mod 10)]
  end.

(** Twenty digits print every [u64]. *)
Definition show_uint (z : Z) : bytes := show_digits 20 z.

(** ** UTF-8: [core::str::from_utf8] *)

Definition is_continuation (b : u8) : bool := between 128 191 b.

(** The second byte of a three-byte sequence: no overlong forms after [E0], no
    surrogates after [ED]. *)
Definition second_of_three (v0 : Z) (b : u8) : bool :=
  if v0 =? 224 then between 160 191 b
  else if v0 =? 237 then between 128 159 b
  else is_continuation b.

Definition second_of_four (v0 : Z) (b : u8) : bool :=
  if v0 =? 240 then between 144 191 b
  else if v0 =? 244 then between 128 143 b
  else is_continuation b.

Fixpoint utf8_valid (s : bytes) : bool :=
  match s with
  | [] => true
  | b0 :: s1 =>
      let v0 := u8_val b0 in
      if v0 <? 128 then utf8_valid s1
      else if between 194 223 b0 then
        match s1 with
        | b1 :: s2 => is_continuation b1 && utf8_valid s2
        | _ => false
        end
      else if between 224 239 b0 then
        match s1 with
        | b1 :: b2 :: s3 => second_of_three v0 b1 && is_continuation b2 && utf8_valid s3
        | _ => false
        end
      else if between 240 244 b0 then
        match s1 with
        | b1 :: b2 :: b3 :: s4 =>
            second_of_four v0 b1 && is_continuation b2 && is_continuation b3 && utf8_valid s4
        | _ => false
        end
      else false
  end.

(** [str::chars().count()]: every scalar has exactly one byte that is not a
    continuation byte. *)
Definition chars_count (s : bytes) : Z := len (List.filter (λ b, negb (is_continuation b)) s).

(** ** IP literals: [core::net::parser] *)

(** An address is its integer value: [u32] for IPv4, [u128] for IPv6. *)
Inductive IpAddr : Type :=
| IpV4 (bits : Z)
| IpV6 (bits : Z).

#[export] Instance IpAddr_eq_dec : EqDecision IpAddr.
Proof. solve_decision. Defined.
#[export] Instance IpAddr_countable : Countable IpAddr.
Proof.
  refine (inj_countable' (λ a, match a with IpV4 z => inl z | IpV6 z => inr z end)
            (λ s, match s with inl z => IpV4 z | inr z => IpV6 z end) _).
  by intros [].
Defined.

Abbreviation parser A := (bytes → option (A * bytes)).

Definition read_given_char (c : u8) : parser unit := λ s,
  match s with
  | b :: s' => if byte_eqb b c then Some (tt, s') else None
  | [] => None
  end.

(** Reads the separator unless this is the first group. *)
Definition read_separator {A} (sep : u8) (index : nat) (inner : parser A) : parser A := λ s,
  match index with
  | O => inner s
  | S _ => '(_, s') ← read_given_char sep s; inner s'
  end.

Fixpoint read_digits (radix max_digits acc count : Z) (s : bytes) : option (Z * Z * bytes) :=
  match s with
  | [] => Some (acc, count, s)
  | b :: s' =>
      match to_digit radix b with
      | None => Some (acc, count, s)
      | Some d =>
          if max_digits <? count + 1 then None
          else read_digits radix max_digits (acc * radix + d) (count + 1) s'
      end
  end.

Definition read_number (radix max_digits : Z) (allow_zero_prefix : bool) (max : Z) : parser Z := λ s,
  let has_leading_zero := match s with b :: _ => byte_eqb b "0"%char | [] => false end in
  match read_digits radix max_digits 0 0 s with
  | None => None
  | Some (value, count, s') =>
      if count =? 0 then None
      else if negb allow_zero_prefix && has_leading_zero && (1 <? count) then None
      else if value <=? max then Some (value, s') else None
  end.

Definition read_octet (i : nat) : parser Z :=
  read_separator "."%char i (read_number 10 3 false 255).

Definition read_ipv4_addr : parser Z := λ s,
  '(a, s) ← read_octet 0 s;
  '(b, s) ← read_octet 1 s;
  '(c, s) ← read_octet 2 s;
  '(d, s) ← read_octet 3 s;
  Some (((a * 256 + b) * 256 + c) * 256 + d, s).

(** Up to [left] colon-separated groups starting at position [i]; a trailing
    embedded IPv4 address counts as two groups and ends the chunk. *)
Fixpoint read_groups (left i : nat) (s : bytes) : list Z * bool * bytes :=
  match left with
  | O => ([], false, s)
  | S left' =>
      let ipv4 :=
        match left' with O => None | S _ => read_separator ":"%char i read_ipv4_addr s end in
      match ipv4 with
      | Some (v4, s') => ([v4 / 65536; v4 mod 65536], true, s')
      | None =>
          match read_separator ":"%char i (read_number 16 4 true 65535) s with
          | Some (g, s') =>
              let '(gs, v4, s'') := read_groups left' (S i) s' in (g :: gs, v4, s'')
          | None => ([], false, s)
          end
      end
  end.

Definition groups_value (gs : list Z) : Z := foldl (λ acc g, acc * 65536 + g) 0 gs.

Definition read_ipv6_addr : parser Z := λ s,
  let '(head, head_ipv4, s) := read_groups 8 0 s in
  if Nat.eqb (length head) 8 then Some (groups_value head, s)
  else if head_ipv4 then None
  else
    '(_, s) ← read_given_char ":"%char s;
    '(_, s) ← read_given_char ":"%char s;
    let '(tail, _, s) := read_groups (8 - (length head + 1)) 0 s in
    Some (groups_value (head ++ replicate (8 - length head - length tail) 0 ++ tail), s).

Definition read_ip_addr : parser IpAddr := λ s,
  match read_ipv4_addr s with
  | Some (v, s') => Some (IpV4 v, s')
  | None => '(v, s') ← read_ipv6_addr s; Some (IpV6 v, s')
  end.

(** [str::parse::<IpAddr>]: the whole input must be consumed. *)
Definition parse_ip (s : bytes) : option IpAddr :=
  match read_ip_addr s with
  | Some (ip, []) => Some ip
  | _ => None
  end.

Example parse_ip_v4 : parse_ip (bs "127.0.0.1") = Some (IpV4 2130706433).
Proof. reflexivity. Qed.
Example parse_ip_v4_zero_prefix : parse_ip (bs "127.0.0.01") = None.
Proof. reflexivity. Qed.
Example parse_ip_v6_loopback : parse_ip (bs "::1") = Some (IpV6 1).
Proof. reflexivity. Qed.
Example parse_ip_v6_embedded : parse_ip (bs "::ffff:1.2.3.4") = Some (IpV6 281470698652420).
Proof. reflexivity. Qed.
Example parse_ip_v6_full : parse_ip (bs "1:2:3:4:5:6:7:8") =
  Some (IpV6 5192455318486707404433266433261576).
Proof. reflexivity. Qed.
Example parse_ip_hostname : parse_ip (bs "app.example.test") = None.
Proof. reflexivity. Qed.

(** ** Printing then parsing a number *)

Lemma digit_byte_val d : 0 ≤ d < 10 → u8_val (digit_byte d) = 48 + d.
Proof. intros H. unfold digit_byte. apply u8_val_of. lia. Qed.

Lemma digit_byte_is_digit d : 0 ≤ d < 10 → is_ascii_digit (digit_byte d) = true.
Proof.
  intros H. unfold is_ascii_digit, between. rewrite digit_byte_val by done.
  apply andb_true_intro. split; apply Z.leb_le; lia.
Qed.

Lemma to_digit_digit_byte d : 0 ≤ d < 10 → to_digit 10 (digit_byte d) = Some d.
Proof.
  intros H. unfold to_digit. rewrite digit_byte_is_digit, digit_byte_val by done.
  replace (48 + d - 48) with d by lia. by destruct (Z.ltb_spec d 10); [|lia].
Qed.

Lemma parse_digits_app radix max acc s t :
  parse_digits radix max acc (s ++ t) =
  (v ← parse_digits radix max acc s; parse_digits radix max v t).
Proof.
  revert acc. induction s as [|b s IH]; intros acc; simpl; [done|].
  destruct (to_digit radix b); [|done]. destruct (_ <=? max); [apply IH | done].
Qed.

Lemma show_digits_nonempty fuel z : (0 < fuel)%nat → show_digits fuel z ≠ [].
Proof.
  destruct fuel; [lia|]. intros _. simpl. destruct (z <? 10); [done|].
  by destruct (show_digits fuel (z / 10)).
Qed.

Lemma show_digits_all_digits fuel z :
  0 ≤ z → Forall (λ b, is_ascii_digit b = true) (show_digits fuel z).
Proof.
  revert z. induction fuel as [|f IH]; intros z Hz; simpl; [constructor|].
  destruct (Z.ltb_spec z 10).
  - constructor; [apply digit_byte_is_digit; lia | constructor].
  - apply Forall_app. split; [apply IH; apply Z.div_pos; lia|].
    constructor; [|constructor]. apply digit_byte_is_digit, Z.mod_pos_bound. lia.
Qed.

Lemma parse_show_digits max fuel z :
  0 ≤ z ≤ max → z < 10 ^ Z.of_nat fuel → (0 < fuel)%nat →
  parse_digits 10 max 0 (show_digits fuel z) = Some z.
Proof.
  revert z. induction fuel as [|f IH]; intros z Hz Hlt Hf; [lia|].
  cbn [show_digits]. destruct (Z.ltb_spec z 10) as [Hs|Hs].
  - cbn [parse_digits]. rewrite to_digit_digit_byte by lia.
    destruct (Z.leb_spec (0 * 10 + z) max); [f_equal; lia | lia].
  - rewrite parse_digits_app.
    rewrite Nat2Z.inj_succ, Z.pow_succ_r in Hlt by lia.
    destruct f as [|f]; [simpl in Hlt; lia|].
    pose proof (Z.mod_pos_bound z 10 ltac:(lia)) as Hm.
    pose proof (Z.div_mod z 10 ltac:(lia)) as Hd.
    pose proof (Z.div_pos z 10 ltac:(lia) ltac:(lia)) as Hp.
    rewrite IH by lia. cbn [mbind option_bind parse_digits].
    rewrite to_digit_digit_byte by lia.
    destruct (Z.leb_spec (z / 10 * 10 + z mod 10) max); [f_equal; lia | lia].
Qed.

Lemma parse_show_uint max z :
  0 ≤ z ≤ max → z < 10 ^ 20 → parse_uint max (show_uint z) = Some z.
Proof.
  intros Hz Hlt. pose proof (parse_show_digits max 20 z Hz Hlt ltac:(lia)) as Hp.
  unfold show_uint, parse_uint, from_str_radix.
  pose proof (show_digits_all_digits 20 z ltac:(lia)) as Hall.
  destruct (show_digits 20 z) as [|b s] eqn:E.
  - exfalso. by apply (show_digits_nonempty 20 z); [lia|].
  - destruct (byte_eqb b "+"%char) eqn:Eb; [|done].
    apply byte_eqb_true in Eb. subst. by inversion Hall.
Qed.

Lemma parse_digits_range radix max acc s v :
  0 ≤ acc ≤ max → parse_digits radix max acc s = Some v → 0 < radix → 0 ≤ v ≤ max.
Proof.
  revert acc. induction s as [|b s IH]; intros acc Hacc H Hr; simpl in H.
  - by injection H as <-.
  - destruct (to_digit radix b) as [d|] eqn:Ed; [|done].
    assert (0 ≤ d) as Hd.
    { unfold to_digit, is_ascii_digit, between in Ed. pose proof (u8_val_range b).
      repeat case_match; simplify_eq; repeat match goal with
      | H : (_ && _)%bool = true |- _ => apply andb_prop in H as [?%Z.leb_le ?%Z.leb_le]
      end; lia. }
    destruct (Z.leb_spec (acc * radix + d) max); [|done]. apply IH in H; [done| nia | done].
Qed.

Lemma parse_uint_range max s v : 0 ≤ max → parse_uint max s = Some v → 0 ≤ v ≤ max.
Proof.
  unfold parse_uint, from_str_radix. intros Hm H.
  repeat case_match; simplify_eq; eapply parse_digits_range; eauto; lia.
Qed.

(** ** Parsed IP literals are in range *)

Lemma to_digit_nonneg radix b d : to_digit radix b = Some d → 0 ≤ d < radix.
Proof.
  unfold to_digit, is_ascii_digit, between. pose proof (u8_val_range b). intros Hd.
  repeat case_match; simplify_eq; repeat match goal with
  | H : (_ && _)%bool = true |- _ => apply andb_prop in H as [?%Z.leb_le ?%Z.leb_le]
  | H : (_ <? _) = true |- _ => apply Z.ltb_lt in H
  end; lia.
Qed.

Lemma read_digits_nonneg radix m acc count s v c s' :
  0 ≤ radix → 0 ≤ acc → read_digits radix m acc count s = Some (v, c, s') → 0 ≤ v.
Proof.
  revert acc count. induction s as [|b s IH]; intros acc count Hr Ha H; simpl in H.
  - by simplify_eq.
  - destruct (to_digit radix b) as [d|] eqn:Ed; [|by simplify_eq].
    apply to_digit_nonneg in Ed. destruct (m <? count + 1); [done|].
    apply IH in H; [done | done | nia].
Qed.

Lemma read_number_range radix m z max s v s' :
  0 ≤ radix → read_number radix m z max s = Some (v, s') → 0 ≤ v ≤ max.
Proof.
  unfold read_number. intros Hr H.
  destruct (read_digits radix m 0 0 s) as [[[v' c] s'']|] eqn:E; [|done].
  apply read_digits_nonneg in E; [|done..].
  repeat case_match; simplify_eq; (split; [done | by apply Z.leb_le]).
Qed.

Lemma read_separator_inv {A} sep i (inner : parser A) s x :
  read_separator sep i inner s = Some x → ∃ s', inner s' = Some x.
Proof.
  unfold read_separator. destruct i; [eauto|].
  destruct (read_given_char sep s) as [[? ?]|]; [|done]. eauto.
Qed.

Lemma read_ipv4_range s v s' : read_ipv4_addr s = Some (v, s') → 0 ≤ v < 2 ^ 32.
Proof.
  unfold read_ipv4_addr, read_octet. intros H.
  do 4 (invert_step H; [|done]; case_match; subst;
    match goal with E : read_separator _ _ _ _ = _ |- _ =>
      apply read_separator_inv in E as [? E]; apply read_number_range in E; [|done] end).
  simplify_eq. lia.
Qed.

Lemma read_groups_range left i s gs v4 s' :
  read_groups left i s = (gs, v4, s') →
  (length gs ≤ left)%nat ∧ Forall (λ g, 0 ≤ g < 65536) gs.
Proof.
  revert i s gs v4 s'. induction left as [|left IH]; intros i s gs v4 s' H; simpl in H.
  { simplify_eq. split; [done | constructor]. }
  destruct (match left with O => None | S _ => _ end) as [[v s1]|] eqn:E4.
  - destruct left as [|left]; [done|].
    apply read_separator_inv in E4 as [? E4]. apply read_ipv4_range in E4. simplify_eq.
    split; [simpl; lia|]. apply Forall_cons; split.
    { split; [apply Z.div_pos | apply Z.div_lt_upper_bound]; lia. }
    apply Forall_singleton, Z.mod_pos_bound. lia.
  - destruct (read_separator ":"%char i (read_number 16 4 true 65535) s) as [[g s1]|] eqn:Eg.
    2: { simplify_eq. split; [simpl; lia | constructor]. }
    destruct (read_groups left (S i) s1) as [[gs' v4'] s''] eqn:Er. simplify_eq.
    apply IH in Er as [? ?]. apply read_separator_inv in Eg as [? Eg].
    apply read_number_range in Eg; [|done].
    split; [simpl; lia | constructor; [lia | done]].
Qed.

Lemma groups_value_range gs :
  Forall (λ g, 0 ≤ g < 65536) gs → 0 ≤ groups_value gs < 65536 ^ len gs.
Proof.
  unfold groups_value. induction gs as [|g gs IH] using rev_ind; intros H; [done|].
  apply Forall_app in H as [Hgs Hg]. inversion Hg; subst. specialize (IH Hgs).
  rewrite foldl_snoc, len_app, Z.pow_add_r by apply len_nonneg.
  change (65536 ^ len [g]) with 65536. lia.
Qed.

Definition ip_in_range (ip : IpAddr) : Prop :=
  match ip with IpV4 v => 0 ≤ v < 2 ^ 32 | IpV6 v => 0 ≤ v < 2 ^ 128 end.

Lemma read_ipv6_range s v s' : read_ipv6_addr s = Some (v, s') → 0 ≤ v < 2 ^ 128.
Proof.
  assert (∀ gs, Forall (λ g, 0 ≤ g < 65536) gs → length gs = 8%nat →
    0 ≤ groups_value gs < 2 ^ 128) as H8.
  { intros gs Hgs Hl. pose proof (groups_value_range gs Hgs) as Hr. unfold len in Hr.
    rewrite Hl in Hr. done. }
  unfold read_ipv6_addr. intros H.
  destruct (read_groups 8 0 s) as [[head v4] s1] eqn:Eh.
  apply read_groups_range in Eh as [Hlen Hhead].
  destruct (Nat.eqb_spec (length head) 8); [simplify_eq; auto|].
  destruct v4; [done|].
  destruct (read_given_char _ s1) as [[? s2]|]; [|done]. simpl in H.
  destruct (read_given_char _ s2) as [[? s3]|]; [|done]. cbn [mbind option_bind] in H.
  destruct (read_groups _ 0 s3) as [[tail v4'] s4] eqn:Et. simplify_eq.
  apply read_groups_range in Et as [Htl Htail]. apply H8.
  - rewrite !Forall_app. split_and!; [done| |done]. by apply Forall_replicate.
  - rewrite !length_app, length_replicate. lia.
Qed.

Lemma parse_ip_range s ip : parse_ip s = Some ip → ip_in_range ip.
Proof.
  unfold parse_ip, read_ip_addr. intros H.
  destruct (read_ipv4_addr s) as [[v s']|] eqn:E4.
  - apply read_ipv4_range in E4. destruct s'; by simplify_eq.
  - destruct (read_ipv6_addr s) as [[v s']|] eqn:E6; [|done].
    apply read_ipv6_range in E6. simpl in H. destruct s'; by simplify_eq.
Qed.

(** Printable ASCII is UTF-8. *)
Lemma utf8_valid_ascii l :
  Forall (λ b, (32 <=? u8_val b) && (u8_val b <? 128) = true) l → utf8_valid l = true.
Proof.
  induction 1 as [|b l Hb Hl IH]; [done|]. cbn [utf8_valid].
  apply andb_prop in Hb as [_ ->]. done.
Qed.
