(* ===== verification/Names.v ===== *)
(** * Names: hostnames, addresses, tokens and identities

    The validated text types at the edge of the program: [PublicHostname] and
    [ServerHostname] ([src/hostname.rs]), [ServerAddress]
    ([src/server_address.rs]), [ControlAddress] ([src/control_address.rs]), the
    opaque Control tokens ([src/opaque_control_token.rs], [src/tunnel_id.rs]) and
    the hexadecimal [ClientIdentity] ([src/identity.rs]). *)

From Stdlib Require Import Ascii ZArith Lia.
From stdpp Require Import base strings numbers gmap list.
From S2P Require Import Prelude Text.

Local Open Scope Z_scope.

(** ** Hostnames *)
Module Hostname.

Inductive PublicHostnameError : Type :=
| Empty | TooLong | EmptyLabel | LabelTooLong | InvalidCharacter
| LeadingOrTrailingHyphen | Wildcard | IpLiteral | RawUnicode.

#[export] Instance PublicHostnameError_eq_dec : EqDecision PublicHostnameError.
Proof. solve_decision. Defined.

Definition normalize_public_hostname (hostname : bytes) : bytes :=
  List.map to_ascii_lowercase (trim_end_matches "."%char hostname).

Definition starts_with (c : u8) (s : bytes) : bool :=
  match s with b :: _ => byte_eqb b c | [] => false end.
Definition ends_with (c : u8) (s : bytes) : bool := starts_with c (rev s).

Definition hostname_byte (b : u8) : bool :=
  is_ascii_lowercase b || is_ascii_digit b || byte_eqb b "-"%char.

(** The body of the loop over the labels. *)
Definition validate_label (label : bytes) : result PublicHostnameError unit :=
  _ ← reject_if (bool_decide (label = [])) EmptyLabel;
  _ ← reject_if (63 <? len label) LabelTooLong;
  _ ← reject_if (starts_with "-"%char label || ends_with "-"%char label) LeadingOrTrailingHyphen;
  reject_if (negb (forallb hostname_byte label)) InvalidCharacter.

Definition validate_public_hostname (hostname : bytes) : result PublicHostnameError bytes :=
  let normalized := normalize_public_hostname hostname in
  _ ← reject_if (bool_decide (normalized = [])) Empty;
  _ ← reject_if (negb (forallb is_ascii normalized)) RawUnicode;
  _ ← reject_if (contains_byte "*"%char normalized) Wildcard;
  _ ← reject_if (bool_decide (is_Some (parse_ip normalized))) IpLiteral;
  _ ← reject_if (253 <? len normalized) TooLong;
  _ ← try_fold (λ _ label, validate_label label) tt (split_on "."%char normalized);
  Ok normalized.

(** [PublicHostname] and [ServerHostname] are the strings that this constructor
    returns; both run the same validation. *)
Definition ServerHostname_try_from (value : bytes) : result PublicHostnameError bytes :=
  validate_public_hostname value.
Definition PublicHostname_try_from (value : bytes) : result PublicHostnameError bytes :=
  validate_public_hostname value.

(** The grammar of a canonical hostname: dot-joined labels of 1 to 63 lowercase
    letters, digits and inner hyphens, at most 253 bytes in all, not an IP
    literal. *)
Definition canonical_label (l : bytes) : Prop :=
  1 ≤ len l ≤ 63 ∧ Forall (λ b, hostname_byte b = true) l ∧
  hd_error l ≠ Some "-"%char ∧ last l ≠ Some "-"%char.

Definition canonical_hostname (n : bytes) : Prop :=
  ∃ labels, labels ≠ [] ∧ n = join (bs ".") labels ∧ Forall canonical_label labels ∧
    len n ≤ 253 ∧ parse_ip n = None.

Lemma hostname_byte_facts b :
  hostname_byte b = true →
  is_ascii b = true ∧ b ≠ "*"%char ∧ b ≠ "."%char ∧ b ≠ ":"%char ∧ b ≠ "/"%char ∧
  to_ascii_lowercase b = b.
Proof.
  intros H.
  assert (implb (hostname_byte b)
    (is_ascii b && negb (byte_eqb b "*"%char) && negb (byte_eqb b "."%char) &&
     negb (byte_eqb b ":"%char) && negb (byte_eqb b "/"%char) &&
     byte_eqb (to_ascii_lowercase b) b)%bool = true) as Hb.
  { revert b H. intros b _. revert b. apply all_bytes. by vm_compute. }
  rewrite H in Hb. simpl in Hb.
  repeat rewrite andb_true_iff in Hb. repeat rewrite negb_true_iff in Hb.
  destruct Hb as [[[[[? ?%byte_eqb_false] ?%byte_eqb_false] ?%byte_eqb_false]
    ?%byte_eqb_false] ?%byte_eqb_true]. auto 10.
Qed.

Lemma starts_with_false c s : starts_with c s = false ↔ hd_error s ≠ Some c.
Proof.
  destruct s as [|b s]; simpl; [by split|].
  rewrite byte_eqb_false. split; [intros ? [= ->]; done | intros ? ->; done].
Qed.

Lemma ends_with_false c s : ends_with c s = false ↔ last s ≠ Some c.
Proof.
  unfold ends_with. rewrite starts_with_false.
  induction s as [|b s _] using rev_ind; simpl; [done|].
  by rewrite rev_app_distr, last_snoc.
Qed.

Lemma forallb_Forall_true {A} (f : A → bool) l :
  forallb f l = true ↔ Forall (λ a, f a = true) l.
Proof.
  rewrite forallb_forall, Forall_forall.
  split; intros H a Ha; apply H; by apply list_elem_of_In.
Qed.

Lemma validate_label_spec l : validate_label l = Ok tt ↔ canonical_label l.
Proof.
  unfold validate_label, canonical_label, reject_if.
  rewrite <- starts_with_false, <- ends_with_false, <- forallb_Forall_true.
  destruct (bool_decide_reflect (l = [])) as [->|Hne]; simpl.
  { split; [done | intros [? _]; rewrite len_nil in *; lia]. }
  assert (1 ≤ len l) as Hl by (destruct l; [done | rewrite len_cons; pose proof (len_nonneg l); lia]).
  destruct (Z.ltb_spec 63 (len l)); simpl; [split; [done | lia]|].
  destruct (starts_with _ l), (ends_with _ l), (forallb hostname_byte l); simpl;
    (split; [first [done | intros _; by repeat split; try lia] |
             by intros (_ & ? & ? & ?)]).
Qed.

Lemma validate_labels_spec ls u :
  try_fold (λ _ label, validate_label label) u ls = Ok tt ↔ Forall canonical_label ls.
Proof.
  revert u. induction ls as [|l ls IH]; intros []; simpl; [by split|].
  rewrite Forall_cons, <- validate_label_spec.
  destruct (validate_label l) as [[]|] eqn:E; simpl; [|by split; [|intros [??]]].
  rewrite IH. by split; [|intros [_ ?]].
Qed.

(** *** Splitting and joining *)

Lemma split_on_nonempty c s : split_on c s ≠ [].
Proof. destruct s as [|b s]; simpl; [done|]. by repeat case_match. Qed.

Lemma join_split c s : join [c] (split_on c s) = s.
Proof.
  induction s as [|b s IH]; simpl; [done|].
  pose proof (split_on_nonempty c s) as Hne.
  destruct (byte_eqb b c) eqn:Eb.
  - apply byte_eqb_true in Eb as ->. rewrite join_cons by done. by rewrite IH.
  - destruct (split_on c s) as [|w [|w' ws]]; [done|..]; simpl in *; by rewrite <- IH.
Qed.

Lemma split_on_app_sep c w s : c ∉ w → split_on c (w ++ c :: s) = w :: split_on c s.
Proof.
  induction w as [|b w IH]; simpl; intros Hc; [by rewrite byte_eqb_refl|].
  apply not_elem_of_cons in Hc as [Hb Hc].
  rewrite (proj2 (byte_eqb_false b c)) by done. by rewrite IH.
Qed.

Lemma split_on_none c w : c ∉ w → split_on c w = [w].
Proof.
  induction w as [|b w IH]; simpl; intros Hc; [done|].
  apply not_elem_of_cons in Hc as [Hb Hc].
  rewrite (proj2 (byte_eqb_false b c)) by done. by rewrite IH.
Qed.

Lemma split_join c ws : ws ≠ [] → Forall (λ w, c ∉ w) ws → split_on c (join [c] ws) = ws.
Proof.
  induction ws as [|w ws IH]; intros Hne Hall; [done|].
  inversion Hall; subst. destruct ws as [|w' ws]; [by apply split_on_none|].
  rewrite join_cons by done. change ([c] ++ join [c] (w' :: ws)) with (c :: join [c] (w' :: ws)).
  by rewrite split_on_app_sep, IH.
Qed.

(** *** Canonical hostnames *)

Lemma canonical_label_no_dot l : canonical_label l → "."%char ∉ l.
Proof.
  intros (_ & Hall & _) Hin. rewrite Forall_forall in Hall.
  by apply Hall, hostname_byte_facts in Hin as (_ & _ & ? & _).
Qed.

Lemma canonical_hostname_labels n :
  canonical_hostname n ↔
  Forall canonical_label (split_on "."%char n) ∧ len n ≤ 253 ∧ parse_ip n = None.
Proof.
  split.
  - intros (ls & Hne & -> & Hall & ?). rewrite split_join; [done|done|].
    eapply Forall_impl; [exact Hall | apply canonical_label_no_dot].
  - intros (Hall & ?). exists (split_on "."%char n).
    split_and!; [apply split_on_nonempty | symmetry; apply join_split | tauto..].
Qed.

(** Every byte of a canonical hostname is a hostname byte or a dot. *)
Lemma canonical_hostname_bytes n :
  canonical_hostname n → Forall (λ b, hostname_byte b = true ∨ b = "."%char) n.
Proof.
  intros (ls & _ & -> & Hall & _). induction Hall as [|l ls Hl Hls IH]; [constructor|].
  assert (Forall (λ b, hostname_byte b = true ∨ b = "."%char) l) as Hb.
  { destruct Hl as (_ & Hl & _). eapply Forall_impl; [exact Hl|]. by left. }
  destruct ls as [|l' ls]; [done|]. rewrite join_cons by done.
  apply Forall_app. split; [done|]. apply Forall_app. split; [|done]. by repeat constructor; right.
Qed.

Lemma canonical_hostname_last n :
  canonical_hostname n → ∃ s b, n = s ++ [b] ∧ hostname_byte b = true.
Proof.
  intros (ls & Hne & -> & Hall & _).
  induction Hall as [|l ls Hl Hls IH]; [done|]. destruct ls as [|l' ls].
  - destruct Hl as (Hlen & Hl & _). simpl.
    destruct l as [|b s _] using rev_ind; [rewrite len_nil in Hlen; lia|].
    apply Forall_app in Hl as [_ Hb]. inversion Hb; subst. eauto.
  - destruct IH as (s & b & Heq & Hb); [done|]. rewrite join_cons, Heq by done.
    exists (l ++ bs "." ++ s), b. by rewrite <- !app_assoc.
Qed.

Lemma canonical_hostname_no_byte n c :
  canonical_hostname n → hostname_byte c = false → c ≠ "."%char → c ∉ n.
Proof.
  intros Hn Hc Hdot Hin. apply canonical_hostname_bytes in Hn.
  rewrite Forall_forall in Hn. destruct (Hn _ Hin); congruence.
Qed.

Lemma trim_end_id c s b : b ≠ c → trim_end_matches c (s ++ [b]) = s ++ [b].
Proof.
  intros Hb. unfold trim_end_matches. rewrite rev_app_distr. simpl.
  rewrite (proj2 (byte_eqb_false b c)) by done. simpl. by rewrite rev_involutive.
Qed.

Lemma normalize_canonical n : canonical_hostname n → normalize_public_hostname n = n.
Proof.
  intros Hn. unfold normalize_public_hostname.
  destruct (canonical_hostname_last n Hn) as (s & b & -> & Hb).
  rewrite trim_end_id by (by apply hostname_byte_facts in Hb as (?&?&?&_)).
  apply canonical_hostname_bytes in Hn. revert Hn. generalize (s ++ [b]). clear.
  induction 1 as [|c l Hc Hl IH]; simpl; [done|]. rewrite IH. f_equal.
  destruct Hc as [Hc| ->]; [by apply hostname_byte_facts in Hc as (_&_&_&_&_&?) | done].
Qed.

Lemma validate_spec h n :
  validate_public_hostname h = Ok n ↔ n = normalize_public_hostname h ∧ canonical_hostname n.
Proof.
  unfold validate_public_hostname. generalize (normalize_public_hostname h) as m. clear h.
  intros m. split.
  - intros H. invert H.
    repeat match goal with E : reject_if _ _ = Ok _ |- _ => apply reject_if_Ok in E end.
    split; [done|]. apply canonical_hostname_labels. destruct a4.
    rewrite validate_labels_spec in E4. apply Z.ltb_ge in E3.
    split_and!; [done..|]. apply bool_decide_eq_false in E2. by apply eq_None_not_Some.
  - intros [-> Hm]. pose proof (canonical_hostname_bytes m Hm) as Hb.
    destruct (canonical_hostname_last m Hm) as (s & b & Heq & _).
    assert (forallb is_ascii m = true) as Hascii.
    { apply forallb_Forall_true. eapply Forall_impl; [exact Hb|].
      intros c [Hc| ->]; [by apply hostname_byte_facts in Hc as [? _] | done]. }
    assert (contains_byte "*"%char m = false) as Hstar.
    { apply contains_byte_false, canonical_hostname_no_byte; done. }
    apply canonical_hostname_labels in Hm as (Hl & Hlen & Hip).
    rewrite Hascii, Hstar, Hip. rewrite (bool_decide_false (is_Some None)) by apply is_Some_None.
    rewrite bool_decide_false by (subst; by destruct s).
    rewrite (proj2 (Z.ltb_ge _ _)) by done.
    rewrite (proj2 (validate_labels_spec _ tt)) by done. done.
Qed.

End Hostname.

(** ** Server and Control addresses *)
Module Address.
Import Hostname.

Definition u16_max : Z := 65535.
Definition DEFAULT_SERVER_PORT : Z := 443.
Definition DEFAULT_CONTROL_PORT : Z := 443.
Definition MAX_CLIENT_SERVER_ADDRESSES : Z := 256.

Record ServerAddress : Type := mkServerAddress { sa_hostname : bytes; sa_port : Z }.

#[export] Instance ServerAddress_eq_dec : EqDecision ServerAddress.
Proof. solve_decision. Defined.
#[export] Instance ServerAddress_countable : Countable ServerAddress.
Proof.
  refine (inj_countable' (λ a, (sa_hostname a, sa_port a)) (λ p, mkServerAddress p.1 p.2) _).
  by intros [].
Defined.

Inductive ServerAddressError : Type :=
| SaMissingHostname
| SaInvalidPort
| SaInvalidHostname (e : PublicHostnameError).

Definition ServerAddress_parse (value : bytes) : result ServerAddressError ServerAddress :=
  '(raw_hostname, port) ←
    match rsplit_once ":"%char value with
    | Some (hostname, raw_port) =>
        port ← ok_or SaInvalidPort (parse_uint u16_max raw_port);
        Ok (hostname, port)
    | None => Ok (value, DEFAULT_SERVER_PORT)
    end;
  _ ← reject_if (bool_decide (raw_hostname = [])) SaMissingHostname;
  hostname ← map_err SaInvalidHostname (ServerHostname_try_from raw_hostname);
  Ok (mkServerAddress hostname port).

Record ControlAddress : Type := mkControlAddress { ca_hostname : bytes; ca_port : Z }.

Inductive ControlAddressError : Type :=
| CaMissingHostname
| CaInvalidPort
| CaScheme
| CaPath
| CaInvalidHostname (e : PublicHostnameError).

(** [str::contains] for a string pattern. *)
Fixpoint contains_str (pattern s : bytes) : bool :=
  bool_decide (firstn (length pattern) s = pattern) ||
  match s with [] => false | _ :: s' => contains_str pattern s' end.

Definition ControlAddress_parse (value : bytes) : result ControlAddressError ControlAddress :=
  _ ← reject_if (contains_str (bs "://") value) CaScheme;
  _ ← reject_if (contains_byte "/"%char value) CaPath;
  '(raw_hostname, port) ←
    match rsplit_once ":"%char value with
    | Some (hostname, raw_port) =>
        port ← ok_or CaInvalidPort (parse_uint u16_max raw_port);
        Ok (hostname, port)
    | None => Ok (value, DEFAULT_CONTROL_PORT)
    end;
  _ ← reject_if (bool_decide (raw_hostname = [])) CaMissingHostname;
  hostname ← map_err CaInvalidHostname (ServerHostname_try_from raw_hostname);
  _ ← reject_if (port =? 0) CaInvalidPort;
  Ok (mkControlAddress hostname port).

Definition ControlAddress_display (a : ControlAddress) : bytes :=
  if ca_port a =? DEFAULT_CONTROL_PORT then ca_hostname a
  else ca_hostname a ++ bs ":" ++ show_uint (ca_port a).

Lemma split_once_app c x y : c ∉ x → split_once c (x ++ c :: y) = Some (x, y).
Proof.
  induction x as [|b x IH]; simpl; intros Hc; [by rewrite byte_eqb_refl|].
  apply not_elem_of_cons in Hc as [Hb Hc].
  rewrite (proj2 (byte_eqb_false b c)) by done. by rewrite IH.
Qed.

Lemma split_once_none c s : c ∉ s → split_once c s = None.
Proof.
  induction s as [|b s IH]; simpl; intros Hc; [done|].
  apply not_elem_of_cons in Hc as [Hb Hc].
  rewrite (proj2 (byte_eqb_false b c)) by done. by rewrite IH.
Qed.

Lemma not_elem_of_rev {A} (a : A) l : a ∉ l → a ∉ rev l.
Proof. rewrite !list_elem_of_In, <- in_rev. done. Qed.

Lemma rsplit_once_app c x y : c ∉ y → rsplit_once c (x ++ c :: y) = Some (x, y).
Proof.
  intros Hc. unfold rsplit_once. rewrite rev_app_distr. simpl. rewrite <- app_assoc. simpl.
  rewrite split_once_app by by apply not_elem_of_rev. simpl. by rewrite !rev_involutive.
Qed.

Lemma rsplit_once_none c s : c ∉ s → rsplit_once c s = None.
Proof.
  intros Hc. unfold rsplit_once. by rewrite split_once_none by by apply not_elem_of_rev.
Qed.

(** A pattern with a byte that the text lacks does not occur in it. *)
Lemma contains_str_lacks c pattern s :
  c ∈ pattern → c ∉ s → contains_str pattern s = false.
Proof.
  intros Hp. induction s as [|b s IH]; intros Hs; cbn [contains_str];
    (rewrite bool_decide_false; [simpl |
       intros Heq; apply Hs; rewrite <- Heq in Hp; by apply subseteq_take in Hp]).
  - done.
  - apply IH. by apply not_elem_of_cons in Hs as [_ ?].
Qed.

Lemma show_uint_no_byte c z :
  0 ≤ z → is_ascii_digit c = false → c ∉ show_uint z.
Proof.
  intros Hz Hc Hin. pose proof (show_digits_all_digits 20 z Hz) as Hall.
  rewrite Forall_forall in Hall. by rewrite (Hall _ Hin) in Hc.
Qed.

Lemma ControlAddress_parse_display a :
  canonical_hostname (ca_hostname a) → 1 ≤ ca_port a ≤ u16_max →
  ControlAddress_parse (ControlAddress_display a) = Ok a.
Proof.
  destruct a as [h p]. simpl. intros Hh Hp. unfold u16_max in *.
  assert (validate_public_hostname h = Ok h) as Hv.
  { apply validate_spec. by rewrite normalize_canonical. }
  assert (h ≠ []) as Hne.
  { destruct (canonical_hostname_last h Hh) as (s & b & -> & _). by destruct s. }
  assert ("/"%char ∉ h) by by apply canonical_hostname_no_byte.
  assert (":"%char ∉ h) by by apply canonical_hostname_no_byte.
  assert ("/"%char ∉ ControlAddress_display (mkControlAddress h p)) as Hslash.
  { unfold ControlAddress_display. simpl. destruct (p =? _); [done|].
    rewrite not_elem_of_app, not_elem_of_cons.
    split_and!; [done..|]. by apply show_uint_no_byte; [lia|]. }
  unfold ControlAddress_parse.
  rewrite (contains_str_lacks "/"%char) by (done || by right; left).
  rewrite (proj2 (contains_byte_false _ _)) by done. simpl.
  unfold ControlAddress_display in *. simpl in *. unfold DEFAULT_CONTROL_PORT in *.
  destruct (Z.eqb_spec p 443) as [->|Hp443].
  - rewrite rsplit_once_none by done. simpl. rewrite bool_decide_false by done. simpl.
    unfold ServerHostname_try_from. by rewrite Hv.
  - rewrite rsplit_once_app by (apply show_uint_no_byte; [lia | done]). simpl.
    rewrite parse_show_uint by (unfold u16_max; lia). simpl. rewrite bool_decide_false by done. simpl.
    unfold ServerHostname_try_from. rewrite Hv. simpl. by destruct (Z.eqb_spec p 0); [lia|].
Qed.

Lemma ControlAddress_parse_sound v a :
  ControlAddress_parse v = Ok a → canonical_hostname (ca_hostname a) ∧ 1 ≤ ca_port a ≤ u16_max.
Proof.
  unfold ControlAddress_parse. intros H. invert H.
  apply reject_if_Ok, Z.eqb_neq in E5.
  destruct (ServerHostname_try_from l) eqn:Ev; simplify_eq/=.
  apply validate_spec in Ev as [_ ?]. split; [done|].
  invert E1; [|done]. destruct (parse_uint _ _) as [p|] eqn:Ep; simplify_eq/=.
  apply parse_uint_range in Ep; [lia | done].
Qed.

(** The [host:port] rendering by which Server addresses are compared. *)
Definition ServerAddress_render (a : ServerAddress) : bytes :=
  sa_hostname a ++ bs ":" ++ show_uint (sa_port a).

Lemma ServerAddress_parse_sound v a :
  ServerAddress_parse v = Ok a → canonical_hostname (sa_hostname a) ∧ 0 ≤ sa_port a ≤ u16_max.
Proof.
  unfold ServerAddress_parse. intros H. invert H.
  destruct (ServerHostname_try_from l) eqn:Ev; simplify_eq/=.
  apply validate_spec in Ev as [_ ?]. split; [done|].
  invert E; [|done]. destruct (parse_uint _ _) as [p|] eqn:Ep; simplify_eq/=.
  apply parse_uint_range in Ep; [lia | done].
Qed.

Lemma ServerAddress_render_inj a b :
  0 ≤ sa_port a ≤ u16_max → 0 ≤ sa_port b ≤ u16_max →
  ServerAddress_render a = ServerAddress_render b → a = b.
Proof.
  destruct a as [h p], b as [h' p']. simpl. unfold u16_max. intros Hp Hp' Heq.
  apply (f_equal (rsplit_once ":"%char)) in Heq. unfold ServerAddress_render in Heq. simpl in Heq.
  rewrite !rsplit_once_app in Heq by (apply show_uint_no_byte; [lia|done]).
  injection Heq as -> Hshow. f_equal. apply (f_equal (parse_uint 65535)) in Hshow.
  rewrite !parse_show_uint in Hshow by lia. by injection Hshow.
Qed.

End Address.

(** ** Opaque Control tokens *)
Module Token.

Definition OPAQUE_CONTROL_TOKEN_MAX_CHARS : Z := 128.

Inductive OpaqueControlTokenError : Type :=
| TokenEmpty
| TokenTooLong (len : Z)
| TokenForbiddenCharacter.

Definition validate_opaque_control_token (value : bytes) : result OpaqueControlTokenError unit :=
  _ ← reject_if (bool_decide (value = [])) TokenEmpty;
  let n := chars_count value in
  _ ← reject_if (OPAQUE_CONTROL_TOKEN_MAX_CHARS <? n) (TokenTooLong n);
  reject_if (existsb (λ b, is_ascii_whitespace b || is_ascii_control b) value)
    TokenForbiddenCharacter.

(** [TunnelId::parse] keeps the text as it is. *)
Definition TunnelId_parse (value : bytes) : result OpaqueControlTokenError bytes :=
  _ ← validate_opaque_control_token value; Ok value.

End Token.

(** ** Client identities *)
Module Identity.

(** The SHA-256 fingerprint of the client's public key: 32 bytes. *)
Abbreviation ClientIdentity := (list ascii) (only parsing).
Definition identity_wf (i : ClientIdentity) : Prop := length i = 32%nat.

Inductive ParseClientIdentityError : Type := WrongLength | InvalidHex.

Definition hex_byte (d : Z) : u8 := if d <? 10 then u8_of (48 + d) else u8_of (87 + d).

(** [write!("{byte:02x}")] for every byte. *)
Definition ClientIdentity_display (i : ClientIdentity) : bytes :=
  List.flat_map (λ b, [hex_byte (u8_val b / 16); hex_byte (u8_val b mod 16)]) i.

Definition parse_pair (pair : bytes) : result ParseClientIdentityError u8 :=
  _ ← reject_if (negb (utf8_valid pair)) InvalidHex;
  _ ← reject_if (existsb (λ c, negb (is_ascii_hexdigit c) || is_ascii_uppercase c) pair) InvalidHex;
  v ← ok_or InvalidHex (from_str_radix 16 255 pair);
  Ok (u8_of v).

(** [as_chunks::<2>().0]: the complete pairs. *)
Fixpoint chunks2 (s : bytes) : list bytes :=
  match s with
  | a :: b :: s' => [a; b] :: chunks2 s'
  | _ => []
  end.

Definition ClientIdentity_from_str (value : bytes) : result ParseClientIdentityError ClientIdentity :=
  _ ← reject_if (negb (len value =? 64)) WrongLength;
  try_map parse_pair (chunks2 value).

(** A lowercase hexadecimal digit is the printed form of its value. *)
Lemma hex_digit_value c :
  is_ascii_hexdigit c = true → is_ascii_uppercase c = false →
  ∃ d, to_digit 16 c = Some d ∧ 0 ≤ d < 16 ∧ hex_byte d = c ∧ byte_eqb c "+"%char = false.
Proof.
  assert (implb (is_ascii_hexdigit c && negb (is_ascii_uppercase c))
    match to_digit 16 c with
    | Some d => (0 <=? d) && (d <? 16) && byte_eqb (hex_byte d) c && negb (byte_eqb c "+"%char)
    | None => false
    end = true) as H by (revert c; apply all_bytes; by vm_compute).
  intros H1 H2. rewrite H1, H2 in H. simpl in H.
  destruct (to_digit 16 c) as [d|]; [|done]. exists d.
  rewrite !andb_true_iff, negb_true_iff, byte_eqb_true, Z.leb_le, Z.ltb_lt in H.
  destruct H as [[[? ?] ?] ?]. done.
Qed.

Lemma hex_byte_digit d :
  0 ≤ d < 16 →
  is_ascii_hexdigit (hex_byte d) = true ∧ is_ascii_uppercase (hex_byte d) = false ∧
  to_digit 16 (hex_byte d) = Some d ∧ byte_eqb (hex_byte d) "+"%char = false ∧
  (u8_val (hex_byte d) <? 128) = true.
Proof.
  intros Hd. assert (Forall (λ d : Z, is_ascii_hexdigit (hex_byte d) = true ∧
    is_ascii_uppercase (hex_byte d) = false ∧ to_digit 16 (hex_byte d) = Some d ∧
    byte_eqb (hex_byte d) "+"%char = false ∧
    (u8_val (hex_byte d) <? 128) = true) (seqZ 0 16)) as H by (repeat constructor).
  rewrite Forall_forall in H. apply H, elem_of_seqZ. lia.
Qed.

Lemma parse_pair_sound a b v :
  parse_pair [a; b] = Ok v → [hex_byte (u8_val v / 16); hex_byte (u8_val v mod 16)] = [a; b].
Proof.
  unfold parse_pair. intros H. invert H. apply reject_if_Ok in E0. simpl in E0.
  rewrite !orb_false_iff, !negb_false_iff in E0. destruct E0 as [[? ?] [[? ?] _]].
  destruct (hex_digit_value a) as (d & Hd & ? & Ha & Hpa); [done..|].
  destruct (hex_digit_value b) as (e & He & ? & Hb & _); [done..|].
  unfold from_str_radix in E1. rewrite Hpa in E1. cbn [parse_digits] in E1.
  rewrite Hd, He in E1.
  destruct (Z.leb_spec (0 * 16 + d) 255); [|lia].
  destruct (Z.leb_spec ((0 * 16 + d) * 16 + e) 255); [|lia]. injection E1 as <-.
  rewrite u8_val_of by lia. replace ((0 * 16 + d) * 16 + e) with (d * 16 + e) by lia.
  rewrite Z.div_add_l, (Z.div_small e), Z.add_0_r by lia.
  rewrite Z.add_comm, Z.mod_add, Z.mod_small by lia. by rewrite Ha, Hb.
Qed.

Lemma parse_pair_complete v :
  parse_pair [hex_byte (u8_val v / 16); hex_byte (u8_val v mod 16)] = Ok v.
Proof.
  pose proof (u8_val_range v) as Hv. unfold parse_pair.
  pose proof (Z.mod_pos_bound (u8_val v) 16 ltac:(lia)) as Hm.
  assert (0 ≤ u8_val v / 16 < 16) as Hq by
    (split; [apply Z.div_pos; lia | apply Z.div_lt_upper_bound; lia]).
  destruct (hex_byte_digit _ Hq) as (Ha1 & Ha2 & Ha3 & Ha4 & Ha5).
  destruct (hex_byte_digit _ Hm) as (Hb1 & Hb2 & Hb3 & _ & Hb5).
  cbn [utf8_valid]. rewrite Ha5, Hb5. simpl. rewrite Ha1, Ha2, Hb1, Hb2. simpl.
  rewrite Ha4, Ha3. simpl. pose proof (Z.div_mod (u8_val v) 16 ltac:(lia)) as Hd.
  rewrite Hb3. destruct (Z.leb_spec (0 * 16 + u8_val v / 16) 255); [|lia].
  destruct (Z.leb_spec ((0 * 16 + u8_val v / 16) * 16 + u8_val v mod 16) 255); [|lia].
  cbn. f_equal. transitivity (u8_of (u8_val v)); [f_equal; lia | apply u8_of_val].
Qed.

Lemma length_display i : length (ClientIdentity_display i) = (2 * length i)%nat.
Proof. induction i as [|b i IH]; simpl in *; lia. Qed.

Lemma parse_chunks_iff (n : nat) s i :
  length s = (2 * n)%nat →
  try_map parse_pair (chunks2 s) = Ok i ↔ s = ClientIdentity_display i ∧ length i = n.
Proof.
  revert s i. induction n as [|n IH]; intros s i Hs.
  - destruct s; [|done]. simpl. split; [by intros [= <-] | by intros [_ ?%nil_length_inv]; subst].
  - destruct s as [|a [|b s]]; simpl in Hs; [lia..|]. cbn [chunks2 try_map].
    assert (length s = 2 * n)%nat as Hs' by lia. split.
    + intros H. invert H. apply parse_pair_sound in E. apply IH in E0 as [-> ?]; [|done].
      injection E as <- <-. simpl. auto.
    + destruct i as [|v i]; [by intros [_ ?]|]. simpl. intros [Heq Hi].
      injection Heq as -> -> ->. rewrite parse_pair_complete. simpl.
      rewrite (proj2 (IH _ i Hs')); [done|]. auto.
Qed.

Lemma identity_from_str_iff s i :
  ClientIdentity_from_str s = Ok i ↔ s = ClientIdentity_display i ∧ identity_wf i.
Proof.
  unfold ClientIdentity_from_str, identity_wf.
  destruct (Z.eqb_spec (len s) 64) as [Hs|Hs]; simpl.
  - apply parse_chunks_iff. unfold len in Hs. lia.
  - split; [done|]. intros [-> Hi]. destruct Hs. unfold len. rewrite length_display. lia.
Qed.

End Identity.

(** ** Properties *)

Import Hostname Address Identity.

(** Hostname validation accepts exactly the inputs whose normal form
    (lowercase, trailing dots removed) is in the canonical hostname grammar, and
    returns that normal form; the accepted strings are its fixed points, so a
    validated hostname survives being validated again. *)
Theorem validate_public_hostname_canonical h n :
  (validate_public_hostname h = Ok n ↔
     n = normalize_public_hostname h ∧ canonical_hostname n) ∧
  (validate_public_hostname n = Ok n ↔ canonical_hostname n).
Proof.
  split; [apply validate_spec|]. rewrite validate_spec. split; [by intros [_ ?]|].
  intros Hn. by rewrite normalize_canonical.
Qed.

(** A Control address that parses has a canonical hostname and a port in
    1..=65535, and its displayed form parses back to the same address. *)
Theorem control_address_display_roundtrip v a :
  ControlAddress_parse v = Ok a →
  canonical_hostname (ca_hostname a) ∧ 1 ≤ ca_port a ≤ u16_max ∧
  ControlAddress_parse (ControlAddress_display a) = Ok a.
Proof.
  intros H. apply ControlAddress_parse_sound in H as [Hh Hp].
  split_and!; [done | tauto | tauto | by apply ControlAddress_parse_display].
Qed.

Lemma control_address_display_roundtrip_witness :
  let a := mkControlAddress (bs "control.example.test") 8443 in
  ControlAddress_parse (bs "Control.Example.TEST.:+08443") = Ok a ∧
  ControlAddress_parse (ControlAddress_display a) = Ok a.
Proof.
  split; [by vm_compute|].
  by apply (control_address_display_roundtrip (bs "Control.Example.TEST.:+08443")); vm_compute.
Defined.

(** Parsing a Client identity accepts exactly the displayed form of a
    32-byte fingerprint: each identity has one accepted spelling. *)
Theorem client_identity_from_str_display s i :
  ClientIdentity_from_str s = Ok i ↔ s = ClientIdentity_display i ∧ identity_wf i.
Proof. apply identity_from_str_iff. Qed.
