(* ===== verification/Framing.v ===== *)
(** * Framing: what crosses a byte stream before traffic is forwarded

    [Reader] models [tokio::io::AsyncRead] as the code uses it; [Proxy] the PROXY
    protocol v2 codec and the trusted-network filter ([src/proxy_protocol.rs]);
    [Hello] the buffering ClientHello reader ([src/client_hello.rs]) over an
    abstract TLS acceptor; [Tunnel] the framing of a tunnel stream
    ([src/tunnel_framing.rs]). *)

From Stdlib Require Import Ascii ZArith Lia.
From stdpp Require Import base strings numbers gmap list.
From S2P Require Import Prelude Text Names.

Local Open Scope Z_scope.

(** ** Readers *)
Module Reader.

Inductive IoError : Type :=
| UnexpectedEof
| OtherIo (code : Z).

(** What successive polls of the stream produce; the end of the list is the end
    of the stream, and so is an empty read. *)
Inductive event : Type :=
| Data (d : bytes)
| Fault (e : IoError).
Abbreviation reader := (list event).

(** Bytes that did not fit the caller's buffer stay in front of the stream. *)
Definition push_back (d : bytes) (r : reader) : reader :=
  match d with [] => r | _ => Data d :: r end.

(** [AsyncReadExt::read] into a buffer of [cap] bytes. *)
Definition read (cap : nat) (r : reader) : result IoError (bytes * reader) :=
  match r with
  | [] => Ok ([], [])
  | Fault e :: _ => Err e
  | Data d :: r' => Ok (take cap d, push_back (drop cap d) r')
  end.

(** [AsyncReadExt::read_exact] for [n] bytes. *)
Fixpoint read_exact (n : nat) (r : reader) : result IoError (bytes * reader) :=
  match n with
  | O => Ok ([], r)
  | S _ =>
      match r with
      | [] => Err UnexpectedEof
      | Fault e :: _ => Err e
      | Data d :: r' =>
          match d with
          | [] => Err UnexpectedEof
          | _ =>
              if Nat.leb n (length d) then Ok (take n d, push_back (drop n d) r')
              else '(rest, r'') ← read_exact (n - length d) r'; Ok (d ++ rest, r'')
          end
      end
  end.

(** [delivers r b]: the stream delivers exactly [b], in fragments of any size. *)
Definition delivers (r : reader) (b : bytes) : Prop :=
  ∃ ds, r = Data <$> ds ∧ Forall (λ d, d ≠ []) ds ∧ concat ds = b.

Lemma delivers_nil : delivers [] [].
Proof. by exists []. Qed.

Lemma delivers_cons d r b : d ≠ [] → delivers r b → delivers (Data d :: r) (d ++ b).
Proof. intros Hd (ds & -> & Hall & <-). exists (d :: ds). by repeat constructor. Qed.

Lemma delivers_push_back d r b : delivers r b → delivers (push_back d r) (d ++ b).
Proof. intros H. destruct d; [done|]. by apply delivers_cons. Qed.

Lemma delivers_inv r b :
  delivers r b →
  (r = [] ∧ b = []) ∨ ∃ d r' b', r = Data d :: r' ∧ d ≠ [] ∧ b = d ++ b' ∧ delivers r' b'.
Proof.
  intros (ds & -> & Hall & <-). destruct Hall as [|d ds Hd Hall]; [by left|right].
  exists d, (Data <$> ds), (concat ds). split_and!; [done..|]. by exists ds.
Qed.

Lemma delivers_iff_nil r b : delivers r b → r = [] ↔ b = [].
Proof.
  intros H. destruct (delivers_inv r b H) as [[-> ->]|(d & r' & b' & -> & Hd & -> & _)]; [done|].
  split; [done | by destruct d].
Qed.

Lemma read_delivers cap r b :
  delivers r b → (0 < cap)%nat → b ≠ [] →
  ∃ c r' b', read cap r = Ok (c, r') ∧ b = c ++ b' ∧ c ≠ [] ∧ (length c ≤ cap)%nat ∧ delivers r' b'.
Proof.
  intros H Hcap Hb.
  destruct (delivers_inv r b H) as [[_ ->]|(d & r' & b' & -> & Hd & -> & Hr')]; [done|].
  exists (take cap d), (push_back (drop cap d) r'), (drop cap d ++ b').
  split_and!; [done | by rewrite app_assoc, take_drop | | | by apply delivers_push_back].
  - destruct d, cap; [done..|lia|done].
  - rewrite length_take. lia.
Qed.

Lemma read_exact_delivers n r b :
  delivers r b → (n ≤ length b)%nat →
  ∃ r', read_exact n r = Ok (take n b, r') ∧ delivers r' (drop n b).
Proof.
  revert n b. induction r as [|e r IH]; intros n b H Hn.
  - apply delivers_inv in H as [[_ ->]|(?&?&?&?&_)]; [|done].
    destruct n; [|simpl in Hn; lia]. exists []. split; [done | apply delivers_nil].
  - pose proof H as Hinv.
    apply delivers_inv in Hinv as [[? _]|(d & r' & b' & Heq & Hd & -> & Hr')]; [done|].
    injection Heq as -> <-. destruct n as [|n]; [eauto|].
    cbn [read_exact]. destruct d as [|c d]; [done|]. set (dd := c :: d) in *.
    destruct (Nat.leb_spec (S n) (length dd)) as [Hle|Hgt].
    + exists (push_back (drop (S n) dd) r). rewrite take_app_le, drop_app_le by done.
      split; [done | by apply delivers_push_back].
    + rewrite length_app in Hn.
      destruct (IH (S n - length dd)%nat b' Hr') as (r'' & Hread & Hdel); [lia|].
      exists r''. rewrite Hread, take_app_ge, drop_app_ge by lia. done.
Qed.

Lemma read_exact_short n r b :
  delivers r b → (length b < n)%nat → read_exact n r = Err UnexpectedEof.
Proof.
  revert n b. induction r as [|e r IH]; intros n b H Hn.
  - by destruct n; [lia|].
  - apply delivers_inv in H as [[? _]|(d & r' & b' & Heq & Hd & -> & Hr')]; [done|].
    injection Heq as -> <-. rewrite length_app in Hn. destruct n as [|n]; [lia|].
    cbn [read_exact]. destruct d as [|c d]; [done|].
    destruct (Nat.leb_spec (S n) (length (c :: d))) as [Hle|Hgt]; [lia|].
    rewrite (IH _ b') by (done || lia). done.
Qed.

End Reader.

(** ** The PROXY protocol v2 codec and trusted networks *)
Module Proxy.
Import Reader.

Definition MAX_PROXY_V2_HEADER_LEN : Z := 16 * 1024.
Definition SIGNATURE : bytes :=
  List.map u8_of [13; 10; 13; 10; 0; 13; 10; 81; 85; 73; 84; 10].

(** [std::net::SocketAddr]; [SocketAddr::new] leaves an IPv6 flow label and scope
    at zero. *)
Inductive SocketAddr : Type :=
| SockV4 (ip port : Z)
| SockV6 (ip port flowinfo scope_id : Z).

Definition SocketAddr_new (ip : IpAddr) (port : Z) : SocketAddr :=
  match ip with
  | IpV4 bits => SockV4 bits port
  | IpV6 bits => SockV6 bits port 0 0
  end.

Record VisitorTcpAddresses : Type := mkAddresses { source : SocketAddr; destination : SocketAddr }.

(** [None] is the [unreachable!] panic on mixed address families. *)
Definition encode_proxy_v2 (a : VisitorTcpAddresses) : option bytes :=
  match source a, destination a with
  | SockV4 sip sport, SockV4 dip dport =>
      Some (SIGNATURE ++ [u8_of 33] ++ [u8_of 17] ++ be_bytes 2 12 ++
            be_bytes 4 sip ++ be_bytes 4 dip ++ be_bytes 2 sport ++ be_bytes 2 dport)
  | SockV6 sip sport _ _, SockV6 dip dport _ _ =>
      Some (SIGNATURE ++ [u8_of 33] ++ [u8_of 33] ++ be_bytes 2 36 ++
            be_bytes 16 sip ++ be_bytes 16 dip ++ be_bytes 2 sport ++ be_bytes 2 dport)
  | _, _ => None
  end.

Inductive ProxyV2Error : Type :=
| ProxyIo (e : IoError)
| ProxyInvalid (reason : string).

(** [&bytes[from..from + n]] as a big-endian number. *)
Definition be_slice (from n : nat) (b : bytes) : Z := be_val (take n (drop from b)).
Definition byte_at (i : nat) (b : bytes) : Z := be_slice i 1 b.

Definition decode_addresses (family : Z) (payload : bytes) : VisitorTcpAddresses :=
  if family =? 17 then
    mkAddresses (SocketAddr_new (IpV4 (be_slice 0 4 payload)) (be_slice 8 2 payload))
                (SocketAddr_new (IpV4 (be_slice 4 4 payload)) (be_slice 10 2 payload))
  else
    mkAddresses (SocketAddr_new (IpV6 (be_slice 0 16 payload)) (be_slice 32 2 payload))
                (SocketAddr_new (IpV6 (be_slice 16 16 payload)) (be_slice 34 2 payload)).

Definition read_proxy_v2 (r : reader) : result ProxyV2Error (VisitorTcpAddresses * reader) :=
  '(fixed, r) ← map_err ProxyIo (read_exact 16 r);
  _ ← reject_if (bool_decide (take 12 fixed ≠ SIGNATURE)) (ProxyInvalid "signature mismatch");
  _ ← reject_if (negb (byte_at 12 fixed =? 33))
        (ProxyInvalid "only the PROXY command is supported");
  let payload_len := be_slice 14 2 fixed in
  _ ← reject_if (MAX_PROXY_V2_HEADER_LEN <? 16 + payload_len)
        (ProxyInvalid "header exceeds the 16 KiB limit");
  let family := byte_at 13 fixed in
  required ←
    (if family =? 17 then Ok 12
     else if family =? 33 then Ok 36
     else Err (ProxyInvalid "only TCP over IPv4 or IPv6 is supported"));
  _ ← reject_if (payload_len <? required) (ProxyInvalid "address payload is truncated");
  '(payload, r) ← map_err ProxyIo (read_exact (Z.to_nat payload_len) r);
  Ok (decode_addresses family payload, r).

Record TrustedNetwork : Type := mkTrustedNetwork { network : IpAddr; prefix : Z }.

(** [if prefix == 0 { 0 } else { uN::MAX << (N - prefix) }]. *)
Definition prefix_mask (w p : Z) : Z :=
  if p =? 0 then 0 else Z.shiftl (umax w) (w - p) mod 2 ^ w.

Definition TrustedNetwork_contains (t : TrustedNetwork) (address : IpAddr) : bool :=
  match network t, address with
  | IpV4 n, IpV4 a =>
      let mask := prefix_mask 32 (prefix t) in Z.land n mask =? Z.land a mask
  | IpV6 n, IpV6 a =>
      let mask := prefix_mask 128 (prefix t) in Z.land n mask =? Z.land a mask
  | _, _ => false
  end.

Definition ip_width (ip : IpAddr) : Z := match ip with IpV4 _ => 32 | IpV6 _ => 128 end.
Definition ip_bits (ip : IpAddr) : Z := match ip with IpV4 b => b | IpV6 b => b end.

Definition TrustedNetwork_from_str (value : bytes) : result string TrustedNetwork :=
  '(address, prefix) ← ok_or "must use CIDR notation"%string (split_once "/"%char value);
  net ← ok_or "contains an invalid IP address"%string (parse_ip address);
  prefix ← ok_or "contains an invalid prefix"%string (parse_uint 255 prefix);
  let maximum := match net with IpV4 _ => 32 | IpV6 _ => 128 end in
  _ ← reject_if (maximum <? prefix) "contains an invalid prefix"%string;
  let is_canonical :=
    match net with
    | IpV4 n => Z.land n (prefix_mask 32 prefix) =? n
    | IpV6 n => Z.land n (prefix_mask 128 prefix) =? n
    end in
  _ ← reject_if (negb is_canonical) "must use a canonical network address"%string;
  Ok (mkTrustedNetwork net prefix).

(** *** The header grammar *)

(** The sixteen fixed bytes for a family byte and a payload length. *)
Definition header_prefix (family payload_len : Z) : bytes :=
  SIGNATURE ++ [u8_of 33; u8_of family] ++ be_bytes 2 payload_len.

(** [addresses_of family block a]: the address block of [a] in that family. *)
Inductive addresses_of : Z → bytes → VisitorTcpAddresses → Prop :=
| addresses_v4 sip sport dip dport :
    in_width 32 sip → in_width 32 dip → in_width 16 sport → in_width 16 dport →
    addresses_of 17 (be_bytes 4 sip ++ be_bytes 4 dip ++ be_bytes 2 sport ++ be_bytes 2 dport)
      (mkAddresses (SockV4 sip sport) (SockV4 dip dport))
| addresses_v6 sip sport dip dport :
    in_width 128 sip → in_width 128 dip → in_width 16 sport → in_width 16 dport →
    addresses_of 33 (be_bytes 16 sip ++ be_bytes 16 dip ++ be_bytes 2 sport ++ be_bytes 2 dport)
      (mkAddresses (SockV6 sip sport 0 0) (SockV6 dip dport 0 0)).

Definition block_len (family : Z) : Z := if family =? 17 then 12 else 36.

Lemma addresses_of_family family block a :
  addresses_of family block a →
  (family = 17 ∨ family = 33) ∧ len block = block_len family ∧
  encode_proxy_v2 a = Some (header_prefix family (len block) ++ block).
Proof.
  destruct 1; split_and!; auto; unfold len; rewrite !length_app, !length_be_bytes; done.
Qed.

Lemma be_slice_app_skip k n l m :
  (length l ≤ k)%nat → be_slice k n (l ++ m) = be_slice (k - length l) n m.
Proof. intros H. unfold be_slice. by rewrite drop_app_ge. Qed.

Lemma be_slice_be_bytes n z m :
  0 ≤ z < 256 ^ Z.of_nat n → be_slice 0 n (be_bytes n z ++ m) = z.
Proof.
  intros H. unfold be_slice. rewrite drop_0, take_app_length' by (symmetry; apply length_be_bytes).
  rewrite be_val_bytes. by apply Z.mod_small.
Qed.

Ltac slice_tac :=
  repeat first
    [ rewrite be_slice_be_bytes by (unfold in_width, umax in *; lia)
    | rewrite be_slice_app_skip by (rewrite length_be_bytes; lia);
      rewrite length_be_bytes; simpl Nat.sub ].

Lemma decode_addresses_of family block tlvs a :
  addresses_of family block a → decode_addresses family (block ++ tlvs) = a.
Proof.
  destruct 1; unfold decode_addresses; simpl Z.eqb; cbn iota; unfold SocketAddr_new;
    rewrite <- !app_assoc; slice_tac; try done.
Qed.

Lemma be_slice_bytes from n b :
  (from + n ≤ length b)%nat → be_bytes n (be_slice from n b) = take n (drop from b).
Proof.
  intros H. unfold be_slice. pose proof (be_bytes_val (take n (drop from b))) as Hb.
  by rewrite length_take, length_drop, Nat.min_l in Hb by lia.
Qed.

Lemma be_slice_width w from n b : w = 8 * Z.of_nat n → in_width w (be_slice from n b).
Proof.
  intros ->. unfold be_slice, in_width, umax.
  pose proof (be_val_range (take n (drop from b))) as H.
  assert (256 ^ len (take n (drop from b)) ≤ 256 ^ Z.of_nat n) as Hle.
  { apply Z.pow_le_mono_r; [lia|]. unfold len. rewrite length_take. lia. }
  replace (2 ^ (8 * Z.of_nat n)) with (256 ^ Z.of_nat n)
    by (rewrite Z.pow_mul_r by lia; done). lia.
Qed.

Lemma decode_addresses_sound family payload :
  family = 17 ∨ family = 33 → block_len family ≤ len payload →
  addresses_of family (take (Z.to_nat (block_len family)) payload)
    (decode_addresses family payload).
Proof.
  intros Hf Hlen. unfold len in Hlen.
  assert (∀ a b c d : nat, (a + b + c + d ≤ length payload)%nat →
    take (a + b + c + d) payload = take a (drop 0 payload) ++ take b (drop a payload) ++
      take c (drop (a + b) payload) ++ take d (drop (a + b + c) payload)) as Hsplit.
  { intros a b c d H. rewrite drop_0.
    rewrite <- !take_take_drop. by rewrite <- !app_assoc. }
  destruct Hf as [-> | ->]; unfold decode_addresses, block_len in *; simpl Z.eqb in *;
    cbn iota in *; cbn [SocketAddr_new].
  - change (Z.to_nat 12) with (4 + 4 + 2 + 2)%nat. rewrite Hsplit by lia.
    rewrite <- !be_slice_bytes by lia. constructor; by apply be_slice_width.
  - change (Z.to_nat 36) with (16 + 16 + 2 + 2)%nat. rewrite Hsplit by lia.
    rewrite <- !be_slice_bytes by lia. constructor; by apply be_slice_width.
Qed.

Lemma be_bytes_1 z : be_bytes 1 z = [u8_of z].
Proof. simpl. by rewrite Z.div_1_r. Qed.

Lemma fixed_header fixed :
  length fixed = 16%nat → take 12 fixed = SIGNATURE → byte_at 12 fixed = 33 →
  fixed = header_prefix (byte_at 13 fixed) (be_slice 14 2 fixed).
Proof.
  intros Hlen Hsig Hcmd. unfold header_prefix. rewrite <- Hsig, <- Hcmd. unfold byte_at.
  change [?a; ?b] with ([a] ++ [b]). rewrite <- !be_bytes_1, !be_slice_bytes by lia.
  rewrite <- (take_drop 16 fixed) at 1. rewrite (drop_ge fixed 16) by lia.
  change 16%nat with (12 + 1 + 1 + 2)%nat at 1. rewrite <- !take_take_drop.
  by rewrite app_nil_r, <- !app_assoc.
Qed.

Lemma header_prefix_fields family n :
  0 ≤ family < 256 → 0 ≤ n < 65536 →
  length (header_prefix family n) = 16%nat ∧ take 12 (header_prefix family n) = SIGNATURE ∧
  byte_at 12 (header_prefix family n) = 33 ∧ byte_at 13 (header_prefix family n) = family ∧
  be_slice 14 2 (header_prefix family n) = n.
Proof.
  intros Hf Hn. unfold header_prefix.
  change [u8_of 33; u8_of family] with ([u8_of 33] ++ [u8_of family]).
  rewrite <- !be_bytes_1, <- app_assoc.
  split_and!.
  - by rewrite !length_app, !length_be_bytes.
  - by rewrite take_app_length'.
  - unfold byte_at. rewrite be_slice_app_skip by done. by apply be_slice_be_bytes.
  - unfold byte_at. rewrite be_slice_app_skip by (simpl; lia).
    rewrite be_slice_app_skip by (rewrite length_be_bytes; simpl; lia).
    apply be_slice_be_bytes. simpl. lia.
  - rewrite be_slice_app_skip by (simpl; lia).
    do 2 rewrite be_slice_app_skip by (rewrite ?length_be_bytes; simpl; lia).
    rewrite <- (app_nil_r (be_bytes 2 n)). apply be_slice_be_bytes. simpl. lia.
Qed.

Lemma read_proxy_v2_complete family block tlvs rest a r :
  addresses_of family block a → 16 + len (block ++ tlvs) ≤ MAX_PROXY_V2_HEADER_LEN →
  delivers r (header_prefix family (len (block ++ tlvs)) ++ (block ++ tlvs) ++ rest) →
  ∃ r', read_proxy_v2 r = Ok (a, r') ∧ delivers r' rest.
Proof.
  intros Ha Hmax Hr. destruct (addresses_of_family _ _ _ Ha) as (Hfam & Hblock & _).
  set (n := len (block ++ tlvs)) in *. unfold MAX_PROXY_V2_HEADER_LEN in Hmax.
  assert (block_len family ≤ n < 65536) as Hn.
  { unfold n. rewrite len_app. pose proof (len_nonneg tlvs). unfold n in Hmax.
    rewrite len_app in Hmax. lia. }
  assert (0 ≤ block_len family ∧ 0 ≤ family < 256) as [Hb Hf8] by (destruct Hfam; subst; done).
  destruct (header_prefix_fields family n Hf8 ltac:(lia)) as (Hl & Hsig & H12 & H13 & H14).
  destruct (read_exact_delivers 16 r _ Hr) as (r1 & Hread & Hr1).
  { rewrite length_app. lia. }
  rewrite take_app_length' in Hread by done. rewrite drop_app_length' in Hr1 by done.
  destruct (read_exact_delivers (Z.to_nat n) r1 _ Hr1) as (r2 & Hread2 & Hr2).
  { rewrite length_app. unfold n, len. lia. }
  assert (length (block ++ tlvs) = Z.to_nat n) as Hnat by (unfold n, len; lia).
  rewrite take_app_length' in Hread2 by done. rewrite drop_app_length' in Hr2 by done.
  exists r2. split; [|done]. unfold read_proxy_v2. rewrite Hread. step.
  rewrite Hsig, H12, H13, H14. rewrite bool_decide_false by auto. step.
  unfold MAX_PROXY_V2_HEADER_LEN. rewrite (proj2 (Z.ltb_ge _ _)) by lia. step.
  destruct Hfam; subst family; simpl Z.eqb; step; unfold block_len in Hn; simpl in Hn;
    rewrite (proj2 (Z.ltb_ge _ _)) by lia; step; rewrite Hread2; step;
    by erewrite decode_addresses_of.
Qed.

Lemma read_exact_inv n r b x r' :
  delivers r b → read_exact n r = Ok (x, r') →
  ∃ b', b = x ++ b' ∧ length x = n ∧ delivers r' b'.
Proof.
  intros Hr H. destruct (decide (n ≤ length b)%nat) as [Hle|Hgt].
  - destruct (read_exact_delivers n r b Hr Hle) as (r1 & Hread & Hr1).
    rewrite H in Hread. injection Hread as -> ->. exists (drop n b).
    rewrite take_drop, length_take. split_and!; [done | lia | done].
  - rewrite (read_exact_short n r b) in H by (done || lia). done.
Qed.

Lemma read_proxy_v2_sound r b a r' :
  delivers r b → read_proxy_v2 r = Ok (a, r') →
  ∃ family block tlvs rest,
    addresses_of family block a ∧ 16 + len (block ++ tlvs) ≤ MAX_PROXY_V2_HEADER_LEN ∧
    b = header_prefix family (len (block ++ tlvs)) ++ (block ++ tlvs) ++ rest ∧
    delivers r' rest.
Proof.
  intros Hr H. unfold read_proxy_v2 in H.
  destruct (read_exact 16 r) as [[fixed r1]|] eqn:E1; [|done]. step_in H.
  apply read_exact_inv with (b := b) in E1 as (b1 & -> & Hfixed & Hr1); [|done].
  invert_step H; [|done]. apply reject_if_Ok, bool_decide_eq_false, dec_stable in E.
  invert_step H; [|done]. apply reject_if_Ok, negb_false_iff, Z.eqb_eq in E0.
  invert_step H; [|done]. apply reject_if_Ok, Z.ltb_ge in E1.
  pose proof (fixed_header fixed Hfixed E E0) as Hhdr.
  set (family := byte_at 13 fixed) in *. set (n := be_slice 14 2 fixed) in *.
  assert (0 ≤ n) as Hn0 by (apply (be_slice_width 16); done).
  invert_step H; [|done]. invert_step H; [|done]. apply reject_if_Ok, Z.ltb_ge in E3.
  assert ((family = 17 ∨ family = 33) ∧ a3 = block_len family) as [Hfam ->].
  { unfold block_len. destruct (Z.eqb_spec family 17); [injection E2; auto|].
    destruct (Z.eqb_spec family 33); [injection E2; auto | done]. }
  destruct (read_exact (Z.to_nat n) r1) as [[payload r2]|] eqn:E4; [|done]. step_in H.
  apply read_exact_inv with (b := b1) in E4 as (b2 & -> & Hpayload & Hr2); [|done].
  injection H as <- <-. set (k := Z.to_nat (block_len family)).
  assert (len payload = n) as Hplen by (unfold len; lia).
  exists family, (take k payload), (drop k payload), b2. rewrite take_drop, Hplen.
  split_and!; [|done|by rewrite <- Hhdr|done]. apply decode_addresses_sound; [done|lia].
Qed.

(** *** Prefix masks *)

(** Masking keeps the leading [p] bits: the low [w - p] bits become zero. *)
Lemma land_prefix_mask w p x :
  0 ≤ p ≤ w → 0 ≤ x < 2 ^ w →
  Z.land x (prefix_mask w p) = x / 2 ^ (w - p) * 2 ^ (w - p).
Proof.
  intros Hp Hx. unfold prefix_mask. destruct (Z.eqb_spec p 0) as [->|Hp0].
  { rewrite Z.land_0_r, Z.sub_0_r, Z.div_small by done. done. }
  replace (umax w) with (Z.ones w) by (rewrite Z.ones_equiv; unfold umax; lia).
  rewrite <- Z.shiftr_div_pow2, <- Z.shiftl_mul_pow2 by lia.
  apply Z.bits_inj'. intros n Hn.
  rewrite Z.land_spec, Z.shiftl_spec by done.
  destruct (Z.ltb_spec n w) as [Hnw|Hnw].
  - rewrite Z.mod_pow2_bits_low, Z.shiftl_spec by done.
    destruct (Z.ltb_spec n (w - p)) as [Hlo|Hhi].
    + rewrite !(Z.testbit_neg_r _ (n - (w - p))) by lia. apply andb_false_r.
    + rewrite Z.ones_spec_low, Z.shiftr_spec by lia.
      rewrite andb_true_r. f_equal. lia.
  - rewrite Z.mod_pow2_bits_high by lia. rewrite andb_false_r. symmetry.
    rewrite Z.shiftr_spec by lia. replace (n - (w - p) + (w - p)) with n by lia.
    destruct (decide (x = 0)) as [->|Hx0]; [apply Z.bits_0|].
    apply Z.bits_above_log2; [lia|].
    assert (Z.log2 x < w) by (apply Z.log2_lt_pow2; lia). lia.
Qed.

Lemma masked_eq_range w p n x :
  0 ≤ p ≤ w → 0 ≤ n < 2 ^ w → 0 ≤ x < 2 ^ w → Z.land n (prefix_mask w p) = n →
  Z.land n (prefix_mask w p) = Z.land x (prefix_mask w p) ↔ n ≤ x < n + 2 ^ (w - p).
Proof.
  intros Hp Hn Hx Hcanon. rewrite Hcanon.
  rewrite land_prefix_mask in Hcanon by done. rewrite land_prefix_mask by done.
  assert (0 < 2 ^ (w - p)) as Hpow by (apply Z.pow_pos_nonneg; lia).
  pose proof (Z.div_mod x (2 ^ (w - p)) ltac:(lia)) as Hd.
  pose proof (Z.mod_pos_bound x (2 ^ (w - p)) Hpow) as Hm.
  split; [lia|]. intros Hr. rewrite <- Hcanon in *. f_equal.
  set (q := n / 2 ^ (w - p)) in *. set (q' := x / 2 ^ (w - p)) in *. nia.
Qed.

(** [same_family]: both addresses are IPv4 or both are IPv6. *)
Definition same_family (a b : IpAddr) : Prop := ip_width a = ip_width b.

Lemma TrustedNetwork_from_str_wf v t :
  TrustedNetwork_from_str v = Ok t →
  ip_in_range (network t) ∧ 0 ≤ prefix t ≤ ip_width (network t) ∧
  Z.land (ip_bits (network t)) (prefix_mask (ip_width (network t)) (prefix t)) =
    ip_bits (network t).
Proof.
  unfold TrustedNetwork_from_str. intros H. repeat (invert_step H; [|done]; try case_match).
  all: simplify_eq; repeat match goal with
  | E : ok_or _ ?o = Ok _ |- _ => destruct o eqn:?; simplify_eq/=
  | E : reject_if _ _ = Ok _ |- _ => apply reject_if_Ok in E
  | E : parse_uint _ _ = Some _ |- _ => apply parse_uint_range in E; [|done]
  | E : parse_ip _ = Some _ |- _ => apply parse_ip_range in E
  | E : negb _ = false |- _ => apply negb_false_iff in E
  | E : (_ <? _) = false |- _ => apply Z.ltb_ge in E
  | E : (_ =? _) = true |- _ => apply Z.eqb_eq in E
  end.
  all: simpl in *; split_and!; done || lia.
Qed.

Lemma TrustedNetwork_contains_range t a :
  ip_in_range (network t) → ip_in_range a → 0 ≤ prefix t ≤ ip_width (network t) →
  Z.land (ip_bits (network t)) (prefix_mask (ip_width (network t)) (prefix t)) =
    ip_bits (network t) →
  TrustedNetwork_contains t a = true ↔
    same_family (network t) a ∧
    ip_bits (network t) ≤ ip_bits a < ip_bits (network t) + 2 ^ (ip_width a - prefix t).
Proof.
  unfold TrustedNetwork_contains, same_family. destruct (network t) as [n|n], a as [x|x];
    simpl; intros Hn Hx Hp Hc; try (split; [done | by intros [? _]]).
  all: rewrite Z.eqb_eq, masked_eq_range by done; tauto.
Qed.

End Proxy.

(** ** Reading a ClientHello *)
Module Hello.
Import Reader Hostname.

Definition CLIENT_HELLO_BUFFER_LIMIT : Z := 16 * 1024.

(** The size of the [read_buffer]. *)
Definition read_buffer_len : nat := Z.to_nat 4096.

Record ParsedClientHello : Type := mkParsed {
  buffered_bytes : bytes;
  public_hostname : bytes;
  alpn_protocols : list bytes
}.

Definition offers_alpn_protocol (h : ParsedClientHello) (protocol : bytes) : bool :=
  existsb (λ offered, bool_decide (offered = protocol)) (alpn_protocols h).

Inductive ClientHelloError : Type :=
| HelloIo (e : IoError)
| InvalidTls
| InvalidSni
| MissingSni
| TimedOut (timeout : Z)
| HelloTooLong (limit : Z)
| HelloUnexpectedEof.

(** The interface of [rustls::server::Acceptor] that the reader uses.  [read_tls]
    hands it a chunk; [accept] reports a complete ClientHello, asks for more bytes
    or fails. *)
Record Accepted : Type := mkAccepted { server_name : option bytes; alpn : option (list bytes) }.
Inductive accept_outcome : Type :=
| AcceptReady (accepted : Accepted)
| AcceptNeedMore
| AcceptFailed.

Class TlsAcceptor (A : Type) : Type := {
  acceptor_default : A;
  read_tls : A → bytes → result IoError A;
  accept : A → accept_outcome * A
}.

(** What rustls documents of it: the outcome is a function [hello_of] of the bytes
    supplied so far, however they were cut into chunks; a complete ClientHello
    stays complete when more bytes follow, and no proper prefix of it is rejected. *)
Class TlsAcceptorLaws (A : Type) `{TlsAcceptor A} : Type := {
  hello_of : bytes → accept_outcome;
  fed : A → bytes → Prop;
  fed_default : fed acceptor_default [];
  fed_step : ∀ a b c, fed a b → c ≠ [] → (length c ≤ read_buffer_len)%nat →
    ∃ a' a'', read_tls a c = Ok a' ∧ accept a' = (hello_of (b ++ c), a'') ∧
      (hello_of (b ++ c) = AcceptNeedMore → fed a'' (b ++ c));
  hello_stable : ∀ p q x, hello_of p = AcceptReady x → hello_of (p ++ q) = AcceptReady x;
  hello_prefix : ∀ p q x, hello_of (p ++ q) = AcceptReady x →
    hello_of p = AcceptReady x ∨ hello_of p = AcceptNeedMore
}.

Section Read.
Context {A : Type} `{TlsAcceptor A}.

(** The branch of the loop that has a complete ClientHello. *)
Definition finish_hello (accepted : Accepted) (buffered : bytes) :
    result ClientHelloError ParsedClientHello :=
  name ← ok_or MissingSni (server_name accepted);
  hostname ← map_err (λ _, InvalidSni) (PublicHostname_try_from name);
  Ok (mkParsed buffered hostname (default [] (alpn accepted))).

(** [None] means that the iteration bound ran out; [read_client_hello_terminates]
    shows that it never does. *)
Fixpoint hello_loop (fuel : nat) (acceptor : A) (buffered : bytes) (r : reader) :
    option (result ClientHelloError (ParsedClientHello * reader)) :=
  match fuel with
  | O => None
  | S fuel' =>
      match read read_buffer_len r with
      | Err e => Some (Err (HelloIo e))
      | Ok (chunk, r') =>
          if bool_decide (chunk = []) then Some (Err HelloUnexpectedEof)
          else
            let buffered' := buffered ++ chunk in
            if CLIENT_HELLO_BUFFER_LIMIT <? len buffered'
            then Some (Err (HelloTooLong CLIENT_HELLO_BUFFER_LIMIT))
            else
              match read_tls acceptor chunk with
              | Err e => Some (Err (HelloIo e))
              | Ok acceptor' =>
                  match accept acceptor' with
                  | (AcceptReady accepted, _) =>
                      Some (h ← finish_hello accepted buffered'; Ok (h, r'))
                  | (AcceptNeedMore, acceptor'') => hello_loop fuel' acceptor'' buffered' r'
                  | (AcceptFailed, _) => Some (Err InvalidTls)
                  end
              end
      end
  end.

(** Every iteration but the last buffers at least one byte, so one more iteration
    than the limit is enough. *)
Definition hello_fuel : nat := Z.to_nat (CLIENT_HELLO_BUFFER_LIMIT + 1).

Definition read_client_hello (r : reader) :
    option (result ClientHelloError (ParsedClientHello * reader)) :=
  hello_loop hello_fuel acceptor_default [] r.

Lemma read_buffer_len_pos : (0 < read_buffer_len)%nat.
Proof. unfold read_buffer_len. lia. Qed.

Lemma hello_loop_terminates fuel acceptor buffered r :
  CLIENT_HELLO_BUFFER_LIMIT - len buffered < Z.of_nat fuel →
  len buffered ≤ CLIENT_HELLO_BUFFER_LIMIT →
  is_Some (hello_loop fuel acceptor buffered r).
Proof.
  revert acceptor buffered r. induction fuel as [|fuel IH]; intros acceptor buffered r Hf Hb;
    [lia|]. cbn [hello_loop].
  destruct (read read_buffer_len r) as [[chunk r']|e]; [|eauto].
  destruct (bool_decide_reflect (chunk = [])) as [|Hne]; [eauto|].
  destruct (Z.ltb_spec CLIENT_HELLO_BUFFER_LIMIT (len (buffered ++ chunk))); [eauto|].
  destruct (read_tls acceptor chunk) as [acceptor'|]; [|eauto].
  destruct (accept acceptor') as [[] acceptor'']; [eauto| |eauto].
  apply IH; [|done]. rewrite len_app. destruct chunk as [|c chunk]; [done|].
  rewrite len_cons. pose proof (len_nonneg chunk). lia.
Qed.

Lemma finish_hello_inv accepted buffered h :
  finish_hello accepted buffered = Ok h →
  buffered_bytes h = buffered ∧ canonical_hostname (public_hostname h) ∧
  alpn_protocols h = default [] (alpn accepted) ∧
  ∃ name, server_name accepted = Some name ∧
    PublicHostname_try_from name = Ok (public_hostname h).
Proof.
  unfold finish_hello. intros Hh.
  destruct (server_name accepted) as [name|] eqn:En; [|done]. step_in Hh.
  destruct (PublicHostname_try_from name) as [hostname|] eqn:Ev; [|done]. step_in Hh.
  injection Hh as <-. simpl. split_and!; [done| |done|eauto].
  by apply validate_spec in Ev as [_ ?].
Qed.

Lemma hello_loop_conserves fuel acceptor buffered r b h r' :
  delivers r b → hello_loop fuel acceptor buffered r = Some (Ok (h, r')) →
  ∃ rest, buffered ++ b = buffered_bytes h ++ rest ∧ delivers r' rest ∧
    len (buffered_bytes h) ≤ CLIENT_HELLO_BUFFER_LIMIT ∧ canonical_hostname (public_hostname h).
Proof.
  revert acceptor buffered r b. induction fuel as [|fuel IH];
    intros acceptor buffered r b Hr Hl; [done|]. cbn [hello_loop] in Hl.
  destruct (decide (b = [])) as [->|Hb].
  { apply delivers_iff_nil in Hr as Hnil. rewrite (proj2 Hnil eq_refl) in Hl. done. }
  destruct (read_delivers read_buffer_len r b Hr read_buffer_len_pos Hb) as (c & r1 & b1 & Hread & -> & Hc & _ & Hr1).
  rewrite Hread in Hl. rewrite bool_decide_false in Hl by done.
  destruct (Z.ltb_spec CLIENT_HELLO_BUFFER_LIMIT (len (buffered ++ c))); [done|].
  destruct (read_tls acceptor c) as [acceptor'|]; [|done].
  destruct (accept acceptor') as [[accepted| |] acceptor'']; [| |done].
  - destruct (finish_hello accepted (buffered ++ c)) as [h'|] eqn:Ef; [|done].
    step_in Hl. injection Hl as -> ->. apply finish_hello_inv in Ef as (Hbuf & Hcan & _).
    exists b1. rewrite Hbuf, app_assoc. done.
  - apply IH with (b := b1) in Hl; [|done]. by rewrite <- app_assoc in Hl.
Qed.

Section Laws.
Context `{!TlsAcceptorLaws A}.

(** A successful read saw a complete ClientHello in exactly the buffered bytes. *)
Lemma hello_loop_ready fuel acceptor buffered r h r' :
  fed acceptor buffered → hello_loop fuel acceptor buffered r = Some (Ok (h, r')) →
  len buffered < len (buffered_bytes h) ∧
  ∃ x, hello_of (buffered_bytes h) = AcceptReady x ∧ finish_hello x (buffered_bytes h) = Ok h.
Proof.
  revert acceptor buffered r. induction fuel as [|fuel IH];
    intros acceptor buffered r Hfed Hl; [done|]. cbn [hello_loop] in Hl.
  destruct (read read_buffer_len r) as [[c r1]|] eqn:Hread; [|done].
  destruct (bool_decide_reflect (c = [])) as [|Hc]; [done|].
  destruct (_ <? _); [done|].
  assert (length c ≤ read_buffer_len)%nat as Hlen.
  { destruct r as [|[d|e] r]; simplify_eq/=; rewrite length_take; lia. }
  assert (len buffered < len (buffered ++ c)) as Hlt.
  { rewrite len_app. destruct c as [|? c]; [done|]. rewrite len_cons.
    pose proof (len_nonneg c). lia. }
  destruct (fed_step acceptor buffered c Hfed Hc Hlen) as (a' & a'' & Hrt & Hacc & Hmore).
  rewrite Hrt, Hacc in Hl. destruct (hello_of (buffered ++ c)) as [x| |] eqn:Eo; [| |done].
  - destruct (finish_hello x (buffered ++ c)) as [h'|] eqn:Ef; [|done].
    step_in Hl. injection Hl as -> ->.
    destruct (finish_hello_inv _ _ _ Ef) as (-> & _). eauto.
  - apply IH in Hl as [? ?]; [|auto]. split; [lia | done].
Qed.

Lemma hello_of_between p q c b tail x :
  hello_of p = AcceptReady x → p ++ tail = q ++ c ++ b →
  hello_of (q ++ c) = AcceptReady x ∨
  (hello_of (q ++ c) = AcceptNeedMore ∧ len (q ++ c) < len p).
Proof.
  intros Hp Heq. rewrite app_assoc in Heq. apply app_eq_inv in Heq as [(k & -> & _)|(k & Hk & _)].
  - destruct (hello_prefix _ _ _ Hp) as [Hr|Hm]; [by left|right].
    split; [done|]. destruct k as [|? k]; [rewrite app_nil_r in Hp; congruence|].
    rewrite (len_app (q ++ c)), len_cons. pose proof (len_nonneg k). lia.
  - left. rewrite Hk. by apply hello_stable.
Qed.

(** The last read may overshoot the ClientHello [hello] by what follows it, up to the size
    of the read buffer; the bytes buffered then may pass the limit. *)
Definition overruns (hello after : bytes) : Prop :=
  CLIENT_HELLO_BUFFER_LIMIT < Z.min (len (hello ++ after)) (len hello + 4095).

(** However the bytes are fragmented, the reader finds the ClientHello [p] that the
    stream starts with, unless the overshoot of the last read passes the limit. *)
Lemma hello_loop_outcome fuel acceptor buffered r b p tail x :
  fed acceptor buffered → delivers r b → hello_of p = AcceptReady x →
  p ++ tail = buffered ++ b → len buffered < len p → len buffered ≤ CLIENT_HELLO_BUFFER_LIMIT →
  CLIENT_HELLO_BUFFER_LIMIT - len buffered < Z.of_nat fuel →
  overruns p tail ∧ hello_loop fuel acceptor buffered r = Some (Err (HelloTooLong CLIENT_HELLO_BUFFER_LIMIT)) ∨
  ∃ q rest r', hello_loop fuel acceptor buffered r =
      Some (h ← finish_hello x q; Ok (h, r')) ∧
    p ++ tail = q ++ rest ∧ delivers r' rest.
Proof.
  revert acceptor buffered r b. induction fuel as [|fuel IH];
    intros acceptor buffered r b Hfed Hr Hp Heq Hlt Hle Hfuel; [lia|].
  assert (b ≠ []) as Hb.
  { intros ->. rewrite app_nil_r in Heq. subst buffered. rewrite len_app in Hlt.
    pose proof (len_nonneg tail). lia. }
  destruct (read_delivers read_buffer_len r b Hr read_buffer_len_pos Hb) as (c & r1 & b1 & Hread & -> & Hc & Hlc & Hr1).
  cbn [hello_loop]. rewrite Hread, bool_decide_false by done.
  destruct (Z.ltb_spec CLIENT_HELLO_BUFFER_LIMIT (len (buffered ++ c))) as [Hover|Hfit].
  { left. split; [|done]. unfold overruns.
    assert (len (p ++ tail) = len (buffered ++ c ++ b1)) as Hl by by rewrite Heq.
    rewrite Hl. rewrite !len_app in *. pose proof (len_nonneg b1).
    unfold read_buffer_len in Hlc. unfold len in *. lia. }
  destruct (fed_step acceptor buffered c Hfed Hc Hlc) as (a' & a'' & -> & -> & Hmore).
  destruct (hello_of_between p buffered c b1 tail x Hp Heq) as [-> | [Hm Hlt']].
  - right. exists (buffered ++ c), b1, r1. rewrite <- app_assoc. done.
  - rewrite Hm. apply (IH _ _ _ b1); [by auto | done | done | by rewrite <- app_assoc | done | done |].
    rewrite len_app. destruct c as [|? c]; [done|]. rewrite len_cons.
    pose proof (len_nonneg c). lia.
Qed.

End Laws.
End Read.
End Hello.

(** ** Tunnel streams *)
Module Tunnel.
Import Reader Proxy Hello.

Record DecodedTunnelStream : Type := mkDecoded {
  addresses : VisitorTcpAddresses;
  client_hello : ParsedClientHello
}.

Definition encode_tunnel_stream (a : VisitorTcpAddresses) (buffered_client_hello : bytes) :
    option bytes :=
  encoded ← encode_proxy_v2 a; Some (encoded ++ buffered_client_hello).

(** [io::Error::other] around the error of either reader. *)
Inductive TunnelStreamError : Type :=
| OtherProxy (e : ProxyV2Error)
| OtherHello (e : ClientHelloError).

Definition read_tunnel_stream {A} `{TlsAcceptor A} (r : reader) :
    option (result TunnelStreamError (DecodedTunnelStream * reader)) :=
  match read_proxy_v2 r with
  | Err e => Some (Err (OtherProxy e))
  | Ok (addresses, r) =>
      hello ← read_client_hello r;
      Some ('(client_hello, r) ← map_err OtherHello hello;
            Ok (mkDecoded addresses client_hello, r))
  end.

End Tunnel.

(** ** A concrete acceptor

    A length byte followed by the server name: enough of a TLS front end to run
    the readers and to show that the acceptor laws can hold. *)
Module ToyAcceptor.
Import Reader Hello.

Definition toy_hello (b : bytes) : accept_outcome :=
  match b with
  | [] => AcceptNeedMore
  | n :: rest =>
      if Z.to_nat (u8_val n) <=? length rest
      then AcceptReady (mkAccepted (Some (take (Z.to_nat (u8_val n)) rest)) None)
      else AcceptNeedMore
  end%nat.

#[export] Instance toy_acceptor : TlsAcceptor bytes := {
  acceptor_default := [];
  read_tls a c := Ok (a ++ c);
  accept a := (toy_hello a, a)
}.

#[export] Instance toy_acceptor_laws : TlsAcceptorLaws bytes.
Proof.
  refine {| hello_of := toy_hello; fed := λ a b, a = b |}.
  - done.
  - intros a b c -> _ _. exists (b ++ c), (b ++ c). done.
  - intros [|n p] q x Hp; [done|]. simpl in *.
    destruct (Nat.leb_spec (Z.to_nat (u8_val n)) (length p)); [|done].
    rewrite length_app. destruct (Nat.leb_spec (Z.to_nat (u8_val n)) (length p + length q)); [|lia].
    by rewrite take_app_le.
  - intros [|n p] q x Hp; [by right|]. simpl in *.
    destruct (Nat.leb_spec (Z.to_nat (u8_val n)) (length p)); [left|by right].
    rewrite length_app, take_app_le in Hp by done.
    by destruct (Nat.leb_spec (Z.to_nat (u8_val n)) (length p + length q)).
Defined.

End ToyAcceptor.

(** ** Properties *)

Import Reader Proxy Hello Tunnel Hostname ToyAcceptor.

(** On a stream that delivers [b] in fragments of any size, the PROXY v2 reader
    succeeds exactly when [b] starts with a well-formed header (signature, PROXY
    command, TCP family, an address block, optional trailing TLVs, at most 16 KiB),
    and then it returns the block's addresses and leaves exactly the bytes after the
    header in the stream. *)
Theorem read_proxy_v2_grammar r b a :
  delivers r b →
  (∃ r' rest, read_proxy_v2 r = Ok (a, r') ∧ delivers r' rest) ↔
  (∃ family block tlvs rest,
     addresses_of family block a ∧ 16 + len (block ++ tlvs) ≤ MAX_PROXY_V2_HEADER_LEN ∧
     b = header_prefix family (len (block ++ tlvs)) ++ (block ++ tlvs) ++ rest).
Proof.
  intros Hr. split.
  - intros (r' & rest & Hread & _). destruct (read_proxy_v2_sound _ _ _ _ Hr Hread)
      as (family & block & tlvs & rest' & ? & ? & ? & _). by exists family, block, tlvs, rest'.
  - intros (family & block & tlvs & rest & Ha & Hmax & ->).
    destruct (read_proxy_v2_complete _ _ _ _ _ _ Ha Hmax Hr) as (r' & ? & ?). eauto.
Qed.

Lemma read_proxy_v2_grammar_witness :
  let a := mkAddresses (SockV4 3232235777 4242) (SockV4 2130706433 443) in
  ∃ family block tlvs rest,
    addresses_of family block a ∧ 16 + len (block ++ tlvs) ≤ MAX_PROXY_V2_HEADER_LEN ∧
    SIGNATURE ++ List.map u8_of [33; 17; 0; 15; 192; 168; 1; 1; 127; 0; 0; 1; 16; 146; 1; 187;
      1; 2; 3; 99] = header_prefix family (len (block ++ tlvs)) ++ (block ++ tlvs) ++ rest.
Proof.
  intros a. set (b := SIGNATURE ++ _).
  apply (read_proxy_v2_grammar [Data (take 5 b); Data (drop 5 b)] b a).
  - exists [take 5 b; drop 5 b]. split_and!; [done | by repeat constructor | done].
  - exists [Data [u8_of 99]], [u8_of 99]. split; [by vm_compute|].
    exists [[u8_of 99]]. by repeat constructor.
Defined.

(** Reading a ClientHello terminates on every stream, whatever the TLS acceptor
    answers; when it succeeds, the bytes buffered for replay followed by the bytes
    left in the stream are exactly the bytes the peer sent, at most 16 KiB are
    buffered, and the hostname is canonical. *)
Theorem read_client_hello_conserves `{TlsAcceptor A} r b :
  delivers r b →
  ∃ res, read_client_hello r = Some res ∧
    ∀ h r', res = Ok (h, r') →
      ∃ rest, b = buffered_bytes h ++ rest ∧ delivers r' rest ∧
        len (buffered_bytes h) ≤ CLIENT_HELLO_BUFFER_LIMIT ∧
        canonical_hostname (public_hostname h).
Proof.
  intros Hr. unfold read_client_hello.
  destruct (hello_loop_terminates hello_fuel acceptor_default [] r) as [res Hres];
    [unfold hello_fuel, CLIENT_HELLO_BUFFER_LIMIT; rewrite len_nil; lia | by vm_compute |].
  exists res. split; [done|]. intros h r' ->.
  by apply hello_loop_conserves with (b := b) in Hres.
Qed.

Lemma read_client_hello_conserves_witness :
  let b := u8_of 8 :: bs "APP.testmore" in
  ∃ res, read_client_hello (A := bytes) [Data (take 3 b); Data (drop 3 b)] = Some res ∧
    ∀ h r', res = Ok (h, r') →
      ∃ rest, b = buffered_bytes h ++ rest ∧ delivers r' rest ∧
        len (buffered_bytes h) ≤ CLIENT_HELLO_BUFFER_LIMIT ∧
        canonical_hostname (public_hostname h).
Proof.
  intros b. apply (read_client_hello_conserves (A := bytes)).
  exists [take 3 b; drop 3 b]. split_and!; [done | by repeat constructor | done].
Defined.

Lemma read_client_hello_total `{TlsAcceptor A} r : is_Some (read_client_hello r).
Proof.
  apply hello_loop_terminates; [|by vm_compute].
  unfold hello_fuel, CLIENT_HELLO_BUFFER_LIMIT; rewrite len_nil; lia.
Qed.

(** Whatever header was read, its addresses can be written again. *)
Lemma read_proxy_v2_encodes r a r' : read_proxy_v2 r = Ok (a, r') → is_Some (encode_proxy_v2 a).
Proof.
  unfold read_proxy_v2. intros E.
  destruct (read_exact 16 r) as [[fixed r1]|]; [|done]. step_in E.
  do 3 (invert_step E; [|done]). invert_step E; [|done]. invert_step E; [|done].
  destruct (read_exact _ r1) as [[payload r2]|]; [|done]. step_in E. injection E as <- <-.
  unfold decode_addresses. by destruct (_ =? 17).
Qed.

(** What the Client makes of a stream that the Server framed: the same, or it refuses a
    ClientHello that overruns its buffer. *)
Lemma tunnel_streams_outcome `{TlsAcceptorLaws A} visitor h visitor' a frame tail tunnel
    family block :
  read_client_hello visitor = Some (Ok (h, visitor')) →
  addresses_of family block a →
  encode_tunnel_stream a (buffered_bytes h) = Some frame →
  delivers tunnel (frame ++ tail) →
  overruns (buffered_bytes h) tail ∧
    read_tunnel_stream tunnel = Some (Err (OtherHello (HelloTooLong CLIENT_HELLO_BUFFER_LIMIT))) ∨
  ∃ d tunnel' rest,
    read_tunnel_stream tunnel = Some (Ok (d, tunnel')) ∧
    addresses d = a ∧
    public_hostname (client_hello d) = public_hostname h ∧
    alpn_protocols (client_hello d) = alpn_protocols h ∧
    buffered_bytes h ++ tail = buffered_bytes (client_hello d) ++ rest ∧
    delivers tunnel' rest.
Proof.
  intros Hvisitor Ha Henc Htunnel.
  apply hello_loop_ready in Hvisitor as (Hlt & x & Hx & Hfin); [|apply fed_default].
  destruct (addresses_of_family _ _ _ Ha) as (_ & Hblock & Hencode).
  unfold encode_tunnel_stream in Henc. rewrite Hencode in Henc. injection Henc as <-.
  assert (16 + len (block ++ []) ≤ MAX_PROXY_V2_HEADER_LEN) as Hmax.
  { rewrite app_nil_r, Hblock. unfold block_len. by destruct (family =? 17). }
  destruct (read_proxy_v2_complete family block [] (buffered_bytes h ++ tail) a tunnel Ha Hmax)
    as (r1 & Hread & Hr1). { by rewrite app_nil_r, !app_assoc in *. }
  unfold read_tunnel_stream, read_client_hello. rewrite Hread.
  destruct (hello_loop_outcome hello_fuel acceptor_default [] r1 _ _ tail x
    fed_default Hr1 Hx eq_refl Hlt) as [[Hover Hloop]|(q & rest & r2 & Hloop & Hq & Hr2)].
  { done. }
  { unfold hello_fuel, CLIENT_HELLO_BUFFER_LIMIT. rewrite len_nil. lia. }
  { left. by rewrite Hloop. }
  right. rewrite Hloop.
  destruct (finish_hello_inv _ _ _ Hfin) as (_ & _ & Halpn & name & Hname & Hhost).
  unfold finish_hello. rewrite Hname. step. rewrite Hhost. step.
  eexists _, _, _. split; [done|]. simpl. by rewrite Halpn.
Qed.

(** The Server and the Client agree on a forwarded stream.  If the Server read
    the ClientHello [h] from a Visitor and sends the framed addresses and buffered
    bytes followed by the Visitor's further bytes [tail], then however the tunnel
    fragments them the Client decodes the same addresses (IPv6 flow labels aside),
    the same hostname and the same ALPN list, and what it replays followed by what
    is left in its stream is exactly what the Visitor sent.  The size condition says
    that the reader's overshoot past the ClientHello cannot reach the limit. *)
Theorem tunnel_stream_agreement `{TlsAcceptorLaws A} visitor h visitor' a frame tail tunnel
    family block :
  read_client_hello visitor = Some (Ok (h, visitor')) →
  addresses_of family block a →
  encode_tunnel_stream a (buffered_bytes h) = Some frame →
  delivers tunnel (frame ++ tail) → ¬ overruns (buffered_bytes h) tail →
  ∃ d tunnel' rest,
    read_tunnel_stream tunnel = Some (Ok (d, tunnel')) ∧
    addresses d = a ∧
    public_hostname (client_hello d) = public_hostname h ∧
    alpn_protocols (client_hello d) = alpn_protocols h ∧
    buffered_bytes h ++ tail = buffered_bytes (client_hello d) ++ rest ∧
    delivers tunnel' rest.
Proof.
  intros Hv Ha He Ht Hover.
  by destruct (tunnel_streams_outcome visitor h visitor' a frame tail tunnel family block Hv Ha He Ht) as [[? _]|?].
Qed.

Lemma tunnel_stream_agreement_witness :
  let hello := u8_of 8 :: bs "APP.test" in
  let a := mkAddresses (SockV4 3232235777 4242) (SockV4 2130706433 443) in
  let frame := default [] (encode_tunnel_stream a hello) in
  ∃ d tunnel' rest,
    read_tunnel_stream (A := bytes) [Data (take 20 frame); Data (drop 20 frame ++ bs "more")] =
      Some (Ok (d, tunnel')) ∧
    addresses d = a ∧ public_hostname (client_hello d) = bs "app.test" ∧
    alpn_protocols (client_hello d) = [] ∧
    hello ++ bs "more" = buffered_bytes (client_hello d) ++ rest ∧ delivers tunnel' rest.
Proof.
  intros hello a frame.
  apply (tunnel_stream_agreement (A := bytes) [Data hello] (mkParsed hello (bs "app.test") []) []
    a frame (bs "more") _ 17 (be_bytes 4 3232235777 ++ be_bytes 4 2130706433 ++
      be_bytes 2 4242 ++ be_bytes 2 443)).
  - by vm_compute.
  - by constructor; vm_compute.
  - by vm_compute.
  - exists [take 20 frame; drop 20 frame ++ bs "more"].
    split_and!; [done | by repeat constructor | by vm_compute].
  - intros Hover. by vm_compute in Hover.
Defined.

(** A trusted network that parses from CIDR text contains exactly the addresses
    of its own family in the block that starts at the network address and has
    2^(width - prefix) addresses. *)
Theorem trusted_network_block v t a :
  TrustedNetwork_from_str v = Ok t → ip_in_range a →
  TrustedNetwork_contains t a = true ↔
    same_family (network t) a ∧
    ip_bits (network t) ≤ ip_bits a < ip_bits (network t) + 2 ^ (ip_width a - prefix t).
Proof.
  intros Ht Ha. apply TrustedNetwork_from_str_wf in Ht as (? & ? & ?).
  by apply TrustedNetwork_contains_range.
Qed.

Lemma trusted_network_block_witness :
  let t := mkTrustedNetwork (IpV4 167772160) 8 in
  TrustedNetwork_contains t (IpV4 167837953) = true ↔
    same_family (IpV4 167772160) (IpV4 167837953) ∧
    167772160 ≤ 167837953 < 167772160 + 2 ^ (32 - 8).
Proof.
  intros t. apply (trusted_network_block (bs "10.0.0.0/8") t (IpV4 167837953)).
  - by vm_compute.
  - by vm_compute.
Defined.
