(* ===== verification/Streams.v ===== *)
(** * Streams: the byte-stream adapters over one Visitor stream

    The write and read halves of [src/tunnel/stream.rs].  The WebTransport stream below
    them is third-party code: what it answers to each poll is an argument, a finite list
    of answers that stands for [Pending] once it is exhausted. *)

From Stdlib Require Import Ascii ZArith Lia.
From stdpp Require Import base strings numbers list.
From S2P Require Import Prelude.

Inductive Poll (A : Type) : Type :=
| Pending
| Ready (a : A).
Arguments Pending {A}.
Arguments Ready {A} a.

(** [io::ErrorKind] of the errors the halves return. *)
Inductive IoErrorKind := BrokenPipe | ConnectionReset.

#[export] Instance Poll_eq_dec {A} `{EqDecision A} : EqDecision (Poll A).
Proof. solve_decision. Defined.
#[export] Instance IoErrorKind_eq_dec : EqDecision IoErrorKind.
Proof. solve_decision. Defined.

(** ** The write half *)

Module Write.

Definition MAX_WRITE_CHUNK : nat := 64 * 1024.

(** What the peer sees of the send direction: the bytes the transport took, whether FIN
    completed, and whether the stream was reset. *)
Record Transport := mkTransport { wire : bytes; fin : bool; was_reset : bool }.

(** One answer of [poll_send]: it took [n] bytes of the chunk, or failed. *)
Inductive SendAnswer := Took (n : nat) | SendFails.
(** The answer of [poll_finish]. *)
Inductive FinishAnswer := FinishPending | FinishOk | FinishFails.

(** [ResetOnDrop]: the send half and whether its FIN completed. *)
Record ResetOnDrop := mkResetOnDrop { half : Transport; finished : bool }.

Inductive WriteState :=
| Idle (h : ResetOnDrop)
| Writing (h : ResetOnDrop) (rest : bytes)
| Finishing (h : ResetOnDrop)
| Finished (h : ResetOnDrop)
| Failed (h : option ResetOnDrop).

(** One poll of the future [send_data(data)]: [while data.has_remaining()]. *)
Fixpoint send_data (answers : list SendAnswer) (t : Transport) (data : bytes) :
    Poll (result unit unit) * Transport * bytes :=
  match data with
  | [] => (Ready (Ok tt), t, [])
  | _ =>
      match answers with
      | [] => (Pending, t, data)
      | Took n :: answers' =>
          send_data answers' (mkTransport (wire t ++ take n data) (fin t) (was_reset t)) (drop n data)
      | SendFails :: _ => (Ready (Err tt), t, data)
      end
  end.

(** One poll of the future [finish()]. *)
Definition finish (answer : FinishAnswer) (t : Transport) : Poll (result unit unit) * Transport :=
  match answer with
  | FinishPending => (Pending, t)
  | FinishOk => (Ready (Ok tt), mkTransport (wire t) true (was_reset t))
  | FinishFails => (Ready (Err tt), t)
  end.

Definition reset (t : Transport) : Transport := mkTransport (wire t) (fin t) true.

Definition disarm (h : ResetOnDrop) : ResetOnDrop := mkResetOnDrop (half h) true.

(** [Drop for ResetOnDrop]. *)
Definition drop_half (h : ResetOnDrop) : Transport :=
  if finished h then half h else reset (half h).

(** Dropping the write half drops the send half its state owns. *)
Definition drop_write (st : WriteState) : option Transport :=
  match st with
  | Idle h | Writing h _ | Finishing h | Finished h => Some (drop_half h)
  | Failed h => drop_half <$> h
  end.

Definition new_write (t : Transport) : WriteState := Idle (mkResetOnDrop t false).

Definition poll_pending_write (answers : list SendAnswer) (st : WriteState) :
    Poll (result IoErrorKind unit) * WriteState :=
  match st with
  | Writing h rest =>
      let '(p, t, rest') := send_data answers (half h) rest in
      let h' := mkResetOnDrop t (finished h) in
      match p with
      | Pending => (Pending, Writing h' rest')
      | Ready (Ok _) => (Ready (Ok tt), Idle h')
      | Ready (Err _) => (Ready (Err ConnectionReset), Failed (Some h'))
      end
  | _ => (Ready (Ok tt), st)
  end.

(** [answers] serve a write still in flight, [answers'] the first poll of the new one. *)
Definition poll_write (answers answers' : list SendAnswer) (buffer : bytes) (st : WriteState) :
    Poll (result IoErrorKind nat) * WriteState :=
  match poll_pending_write answers st with
  | (Pending, st) => (Pending, st)
  | (Ready (Err e), st) => (Ready (Err e), st)
  | (Ready (Ok _), Idle h) =>
      let length := Nat.min (length buffer) MAX_WRITE_CHUNK in
      let data := take length buffer in
      match poll_pending_write answers' (Writing h data) with
      | (Ready (Err e), st) => (Ready (Err e), st)
      | (_, st) => (Ready (Ok length), st)
      end
  | (Ready (Ok _), st) => (Ready (Err BrokenPipe), st)
  end.

Definition poll_flush (answers : list SendAnswer) (st : WriteState) :
    Poll (result IoErrorKind unit) * WriteState :=
  poll_pending_write answers st.

(** The [Finishing] arm of the loop of [poll_shutdown]: the future finishes the half and
    disarms it on success. *)
Definition poll_finishing (answer : FinishAnswer) (h : ResetOnDrop) :
    Poll (result IoErrorKind unit) * WriteState :=
  let '(p, t) := finish answer (half h) in
  let h' := mkResetOnDrop t (finished h) in
  match p with
  | Pending => (Pending, Finishing h')
  | Ready (Ok _) => (Ready (Ok tt), Finished (disarm h'))
  | Ready (Err _) => (Ready (Err ConnectionReset), Failed (Some h'))
  end.

Definition poll_shutdown (answers : list SendAnswer) (answer : FinishAnswer) (st : WriteState) :
    Poll (result IoErrorKind unit) * WriteState :=
  match poll_pending_write answers st with
  | (Pending, st) => (Pending, st)
  | (Ready (Err e), st) => (Ready (Err e), st)
  | (Ready (Ok _), st) =>
      match st with
      | Idle h | Finishing h => poll_finishing answer h
      | Finished h => (Ready (Ok tt), Finished h)
      | Writing _ _ | Failed _ => (Ready (Err BrokenPipe), st)
      end
  end.

(** *** Callers

    A caller polls in any order.  [accepted] collects the bytes that [poll_write]
    reported as written. *)

Inductive Call :=
| PollWrite (answers answers' : list SendAnswer) (buffer : bytes)
| PollFlush (answers : list SendAnswer)
| PollShutdown (answers : list SendAnswer) (answer : FinishAnswer).

Record Run := mkRun { accepted : bytes; state : WriteState }.

Definition call (r : Run) (c : Call) : Run :=
  match c with
  | PollWrite a a' buffer =>
      match poll_write a a' buffer (state r) with
      | (Ready (Ok n), st) => mkRun (accepted r ++ take n buffer) st
      | (_, st) => mkRun (accepted r) st
      end
  | PollFlush a => mkRun (accepted r) (poll_flush a (state r)).2
  | PollShutdown a f => mkRun (accepted r) (poll_shutdown a f (state r)).2
  end.

Definition calls (cs : list Call) : Run :=
  foldl call (mkRun [] (new_write (mkTransport [] false false))) cs.

(** *** Invariant *)

(** An open half: nothing ended its stream yet. *)
Definition open (h : ResetOnDrop) : Prop :=
  finished h = false ∧ fin (half h) = false ∧ was_reset (half h) = false.

Definition write_inv (r : Run) : Prop :=
  match state r with
  | Idle h | Finishing h => open h ∧ wire (half h) = accepted r
  | Writing h rest => open h ∧ wire (half h) ++ rest = accepted r
  | Finished h => half h = mkTransport (accepted r) true false ∧ finished h = true
  | Failed (Some h) =>
      open h ∧ (wire (half h) `prefix_of` accepted r ∨ accepted r `prefix_of` wire (half h))
  | Failed None => False
  end.

Lemma send_data_conserves answers t data p t' data' :
  send_data answers t data = (p, t', data') →
  wire t' ++ data' = wire t ++ data ∧ fin t' = fin t ∧ was_reset t' = was_reset t ∧
  wire t `prefix_of` wire t' ∧ (p = Ready (Ok tt) → data' = []).
Proof.
  revert t data. induction answers as [|[n|] answers IH]; intros t data Hs; destruct data as [|b data];
    cbn [send_data] in Hs; try (simplify_eq; by split_and!).
  apply IH in Hs as (Hw & Hf & Hr & Hp & Hd). cbn [wire fin was_reset] in *.
  split_and!; [|done..| |done].
  - rewrite Hw, <- app_assoc. by rewrite take_drop.
  - etrans; [|done]. by apply prefix_app_r.
Qed.

Lemma prefix_comparable {A} (l k m n : list A) :
  l ++ k = m ++ n → l `prefix_of` m ∨ m `prefix_of` l.
Proof.
  revert m. induction l as [|a l IH]; intros m Heq; [left; apply prefix_nil|].
  destruct m as [|b m]; [right; apply prefix_nil|]. injection Heq as -> Heq.
  destruct (IH m Heq); [left|right]; by apply prefix_cons.
Qed.

(** Polling the write in flight keeps the invariant for what has been accepted. *)
Lemma pending_write_inv acc answers st p st' :
  poll_pending_write answers st = (p, st') → write_inv (mkRun acc st) →
  write_inv (mkRun acc st') ∧
  (p = Ready (Ok tt) → match st' with Writing _ _ => False | _ => True end) ∧
  match p with Pending => ∃ h rest, st' = Writing h rest | Ready (Err _) => ∃ h, st' = Failed (Some h) | _ => True end.
Proof.
  unfold poll_pending_write. destruct st as [h|h rest|h|h|h]; intros Hp Hinv; try (simplify_eq; by split_and!).
  destruct (send_data answers (half h) rest) as [[p0 t] rest'] eqn:Hs.
  apply send_data_conserves in Hs as (Hw & Hf & Hr & _ & Hd).
  destruct Hinv as ((Ho1 & Ho2 & Ho3) & Hacc).
  assert (open (mkResetOnDrop t (finished h))) as Hopen.
  { unfold open. simpl. by rewrite Hf, Hr. }
  destruct p0 as [|[[]|[]]]; simplify_eq/=; unfold write_inv; simpl in *.
  - split_and!; [done| |done|eauto]. by rewrite Hw.
  - split_and!; [done| |done|done]. rewrite Hd, app_nil_r in Hw by done. by rewrite Hw.
  - split_and!; [done| |done|eauto]. left. rewrite <- Hw. by exists rest'.
Qed.

Lemma finishing_inv acc f h :
  open h → wire (half h) = acc → write_inv (mkRun acc (poll_finishing f h).2).
Proof.
  intros (? & ? & ?) Hw. destruct h as [[w fi re] fd]. simplify_eq/=.
  destruct f; unfold write_inv, open; simpl; auto.
Qed.

Lemma call_inv r c : write_inv r → write_inv (call r c).
Proof.
  destruct r as [acc st]. intros Hinv. destruct c as [a a' buffer|a|a f]; cbn [call accepted state].
  - unfold poll_write. destruct (poll_pending_write a st) as [p st1] eqn:E1.
    destruct (pending_write_inv acc _ _ _ _ E1 Hinv) as (Hinv1 & Hidle & _).
    destruct p as [|[[]|e]]; [done| |done].
    destruct st1 as [h|h rest|h|h|h]; try done.
    set (n := Nat.min (length buffer) MAX_WRITE_CHUNK).
    destruct (poll_pending_write a' (Writing h (take n buffer))) as [p2 st2] eqn:E2.
    destruct Hinv1 as (Hopen & Hw).
    assert (write_inv (mkRun (acc ++ take n buffer) (Writing h (take n buffer)))) as HW.
    { split; [done|]. simpl in *. by rewrite Hw. }
    destruct (pending_write_inv _ _ _ _ _ E2 HW) as (Hinv2 & _ & Hsh).
    destruct p2 as [|[[]|e]]; [done|done|]. destruct Hsh as (h' & ->). destruct Hinv2 as (Ho & [Hpre|Hpre]).
    + split; [done|]. simpl in *. destruct Hpre as (k & Hk). symmetry in Hk. by eapply prefix_comparable.
    + split; [done|]. right. simpl in *. etrans; [|done]. by apply prefix_app_r.
  - unfold poll_flush. destruct (poll_pending_write a st) as [p st1] eqn:E1.
    by destruct (pending_write_inv acc _ _ _ _ E1 Hinv).
  - unfold poll_shutdown. destruct (poll_pending_write a st) as [p st1] eqn:E1.
    destruct (pending_write_inv acc _ _ _ _ E1 Hinv) as (Hinv1 & _ & _).
    destruct p as [|[[]|e]]; [done| |done].
    destruct st1 as [h|h rest|h|h|h]; try done; destruct Hinv1; by apply finishing_inv.
Qed.

Lemma calls_inv cs : write_inv (calls cs).
Proof.
  unfold calls. induction cs as [|c cs IH] using rev_ind; [done|].
  rewrite foldl_snoc. by apply call_inv.
Qed.

(** A completed [poll_flush] has put every accepted byte on the wire. *)
Lemma flushed cs answers st h :
  poll_flush answers (state (calls cs)) = (Ready (Ok tt), st) → st = Idle h →
  wire (half h) = accepted (calls cs).
Proof.
  intros Hp ->. pose proof (calls_inv cs) as Hinv. destruct (calls cs) as [acc st0].
  by destruct (pending_write_inv acc _ _ _ _ Hp Hinv) as ((_ & Hw) & _).
Qed.

End Write.

(** ** The read half *)

Module Read.

(** One answer of [poll_recv]. *)
Inductive RecvAnswer := RecvPending | Chunk (data : bytes) | End_of_stream | RecvFails.

Record ReadHalf := mkReadHalf { buffered : bytes; ended : bool }.

Definition new_read : ReadHalf := mkReadHalf [] false.

(** [while buffered.is_empty() && !ended]: the answers still to come are threaded. *)
Fixpoint fill (source : list RecvAnswer) (st : ReadHalf) :
    Poll (result IoErrorKind unit) * ReadHalf * list RecvAnswer :=
  match buffered st, ended st with
  | [], false =>
      match source with
      | [] => (Pending, st, [])
      | RecvPending :: source' => (Pending, st, source')
      | Chunk data :: source' => fill source' (mkReadHalf data (ended st))
      | End_of_stream :: source' => (Ready (Ok tt), mkReadHalf (buffered st) true, source')
      | RecvFails :: source' => (Ready (Err ConnectionReset), st, source')
      end
  | _, _ => (Ready (Ok tt), st, source)
  end.

(** The bytes put into a buffer with room for [remaining] more. *)
Definition poll_read (remaining : nat) (source : list RecvAnswer) (st : ReadHalf) :
    Poll (result IoErrorKind bytes) * ReadHalf * list RecvAnswer :=
  let '(p, st, source) := fill source st in
  match p with
  | Pending => (Pending, st, source)
  | Ready (Err e) => (Ready (Err e), st, source)
  | Ready (Ok _) =>
      let length := Nat.min (length (buffered st)) remaining in
      (Ready (Ok (take length (buffered st))), mkReadHalf (drop length (buffered st)) (ended st), source)
  end.

(** A reader polls with the room it likes; [got] is what it has read. *)
Record Run := mkRun { got : bytes; state : ReadHalf; source : list RecvAnswer }.

Definition read (r : Run) (remaining : nat) : Run :=
  match poll_read remaining (source r) (state r) with
  | (Ready (Ok data), st, src) => mkRun (got r ++ data) st src
  | (_, st, src) => mkRun (got r) st src
  end.

Definition reads (src : list RecvAnswer) (rooms : list nat) : Run :=
  foldl read (mkRun [] new_read src) rooms.

(** The bytes the peer sent before its FIN, as the answers carry them. *)
Fixpoint sent (src : list RecvAnswer) : bytes :=
  match src with
  | [] => []
  | Chunk data :: src' => data ++ sent src'
  | End_of_stream :: _ => []
  | _ :: src' => sent src'
  end.

(** What a run has still to deliver. *)
Definition outstanding (st : ReadHalf) (src : list RecvAnswer) : bytes :=
  buffered st ++ (if ended st then [] else sent src).

Lemma fill_conserves src st p st' src' :
  fill src st = (p, st', src') →
  outstanding st' src' = outstanding st src ∧
  (p = Ready (Ok tt) → buffered st' ≠ [] ∨ ended st' = true).
Proof.
  revert st. induction src as [|a src IH]; intros [buf e] Hf; destruct buf as [|b buf], e; cbn in Hf;
    try (simplify_eq/=; split; [done|by auto]).
  destruct a as [|data| |]; try (simplify_eq/=; split; [done|by auto]).
  apply IH in Hf as (-> & Hr). split; [|done]. done.
Qed.

Lemma poll_read_conserves n src st p st' src' :
  poll_read n src st = (p, st', src') →
  outstanding st src =
    match p with Ready (Ok data) => data | _ => [] end ++ outstanding st' src'.
Proof.
  unfold poll_read. destruct (fill src st) as [[p0 st0] src0] eqn:E. apply fill_conserves in E as (<- & _).
  destruct p0 as [|[[]|e]]; intros Hp; simplify_eq; [done| |done].
  unfold outstanding. simpl. by rewrite app_assoc, take_drop.
Qed.

Lemma reads_conserve src rooms :
  got (reads src rooms) ++ outstanding (state (reads src rooms)) (source (reads src rooms)) = sent src.
Proof.
  unfold reads. induction rooms as [|n rooms IH] using rev_ind; [done|]. rewrite foldl_snoc.
  destruct (foldl read _ rooms) as [g st src0]. simpl in *. unfold read. simpl.
  destruct (poll_read n src0 st) as [[p st'] src'] eqn:E.
  rewrite (poll_read_conserves _ _ _ _ _ _ E) in IH. destruct p as [|[d|e]]; simpl in *; [done| |done].
  by rewrite <- app_assoc.
Qed.

End Read.

(** ** Properties *)

(** C23: a Visitor's stream never ends dishonestly.  However the halves are polled and
    however the transport answers, once the write half is dropped the peer has either seen
    a FIN after exactly the bytes that were accepted, or a reset; a FIN is seen exactly
    when a shutdown completed. *)
Theorem visitor_stream_ends_honestly cs :
  let r := Write.calls cs in
  ∃ t, Write.drop_write (Write.state r) = Some t ∧ Write.fin t = negb (Write.was_reset t) ∧
    (Write.fin t = true ↔ ∃ h, Write.state r = Write.Finished h) ∧
    (Write.fin t = true → Write.wire t = Write.accepted r) ∧
    (Write.wire t `prefix_of` Write.accepted r ∨ Write.accepted r `prefix_of` Write.wire t).
Proof.
  intros r. pose proof (Write.calls_inv cs) as Hinv. fold r in Hinv. unfold Write.write_inv in Hinv.
  destruct (Write.state r) as [h|h rest|h|h|[h|]]; [..|done]; simpl; eexists; (split; [done|]).
  4: { destruct Hinv as (Hh & Hd). unfold Write.drop_half. rewrite Hd, Hh. simpl. split_and!; [done|by split; eauto|done|by left]. }
  all: destruct Hinv as ((Hd & Hf & Hr) & Hw); unfold Write.drop_half; rewrite Hd; simpl; rewrite Hf;
    (split; [done|]); (split; [by split; [|intros [? ?]]|]); (split; [done|]); try done.
  1,3: left; by rewrite Hw.
  left. rewrite <- Hw. by apply prefix_app_r.
Qed.

(** Reading conserves the stream: what was read, followed by what is buffered or still
    to come, is exactly what the peer sent; and a read that returns no bytes into a buffer
    with room means that everything the peer sent before its FIN has been read. *)
Theorem read_half_conserves src rooms :
  let r := Read.reads src rooms in
  Read.got r ++ Read.outstanding (Read.state r) (Read.source r) = Read.sent src ∧
  ∀ n st' src', Read.poll_read (S n) (Read.source r) (Read.state r) = (Ready (Ok []), st', src') →
    Read.got r = Read.sent src ∧ Read.ended st' = true.
Proof.
  intros r. pose proof (Read.reads_conserve src rooms) as Hc. fold r in Hc. split; [done|].
  intros n st' src' Hp. pose proof (Read.poll_read_conserves _ _ _ _ _ _ Hp) as Ho. simpl in Ho.
  unfold Read.poll_read in Hp. destruct (Read.fill (Read.source r) (Read.state r)) as [[p st0] src0] eqn:E.
  apply Read.fill_conserves in E as (_ & He). destruct p as [|[[]|e]]; try done.
  destruct (He eq_refl) as [Hne|Hend]; [by destruct (Read.buffered st0)|].
  destruct (Read.buffered st0) as [|b buf] eqn:Eb; [|done]. simplify_eq/=.
  rewrite Ho in Hc. unfold Read.outstanding in Hc. simpl in Hc. rewrite Hend, !app_nil_r in Hc. done.
Qed.
