(* ===== verification/Credit.v ===== *)
(** * Credit: permit-backed Visitor credit on the Client's connections

    A Client shares one budget of stream permits between its Tunnel connections.  Each
    connection reserves idle permits and offers them to the Server as QUIC stream
    credit ([src/tunnel/credit.rs]); the session task of the connection
    ([src/tunnel/client.rs]) replenishes them and hands one to each arriving Visitor
    stream, whose two halves give it back when both are dropped ([StreamLease],
    [src/tunnel/stream.rs]).

    The machine interleaves, in any order, the session tasks of any number of
    connections, withdrawals, the handlers that drop their halves, and the semaphore
    that grants queued acquisitions.  Permits are indistinguishable, so a vector of
    them is its length.  Credit that Quinn has sent is irrevocable, so the machine lets a
    stream arrive whatever limit is set. *)

From Stdlib Require Import ZArith Lia.
From stdpp Require Import base numbers gmap list.
From S2P Require Import Prelude.

Open Scope Z_scope.

Definition MAX_IDLE_VISITOR_CREDIT : Z := 256.
(** [quinn::VarInt::MAX]. *)
Definition VARINT_MAX : Z := 2 ^ 62 - 1.

(** ** One connection's credit *)

(** [VisitorCredits] with its [State]; [limits] records the calls of
    [set_max_concurrent_bi_streams], newest first. *)
Record VisitorCredits := mkCredits {
  idle : Z;
  held : Z;
  maintaining : bool;
  closed : bool;
  active : Z;
  idle_stopped : bool;
  limits : list Z
}.

Definition new : VisitorCredits := mkCredits 0 0 true false 0 false [].

Definition set_limit (c : VisitorCredits) : option VisitorCredits :=
  if (held c <=? VARINT_MAX)
  then Some (mkCredits (idle c) (held c) (maintaining c) (closed c) (active c) (idle_stopped c)
               (held c :: 0 :: held c :: limits c))
  else None.

Definition needs_idle (c : VisitorCredits) : bool :=
  maintaining c && (idle c <? MAX_IDLE_VISITOR_CREDIT).

(** Also tells whether the permit was kept; a permit that is not kept is dropped. *)
Definition offer (c : VisitorCredits) : option (VisitorCredits * bool) :=
  if maintaining c then
    c' ← set_limit (mkCredits (idle c + 1) (held c + 1) (maintaining c) (closed c) (active c)
                      (idle_stopped c) (limits c));
    Some (c', true)
  else Some (c, false).

Definition count_active (c : VisitorCredits) : VisitorCredits :=
  mkCredits (idle c) (held c) (maintaining c) (closed c) (active c + 1) (idle_stopped c) (limits c).

(** [available] is the budget before and after [try_acquire_owned]; the boolean tells
    whether the stream got a permit. *)
Definition assign (available : Z) (c : VisitorCredits) : option (VisitorCredits * Z * bool) :=
  if closed c then Some (c, available, false)
  else if 0 <? idle c then
    Some (count_active (mkCredits (idle c - 1) (held c) (maintaining c) (closed c) (active c)
                          (idle_stopped c) (limits c)), available, true)
  else if 0 <? available then
    c' ← set_limit (mkCredits (idle c) (held c + 1) (maintaining c) (closed c) (active c)
                      (idle_stopped c) (limits c));
    Some (count_active c', available - 1, true)
  else Some (c, available, false).

Definition stop_replenishing (c : VisitorCredits) : VisitorCredits :=
  mkCredits (idle c) (held c) false (closed c) (active c) true (limits c).

(** Also returns the number of permits given back to the budget. *)
Definition release_idle (c : VisitorCredits) : option (VisitorCredits * Z) :=
  if held c <? idle c then None
  else
    c' ← set_limit (mkCredits (idle c) (held c - idle c) false (closed c) (active c)
                      (idle_stopped c) (limits c));
    Some (mkCredits 0 (held c') (maintaining c') (closed c') (active c') true (limits c'), idle c').

Definition stop_idle (c : VisitorCredits) : option (VisitorCredits * Z) := release_idle c.

Definition close (c : VisitorCredits) : option (VisitorCredits * Z) :=
  release_idle (mkCredits (idle c) (held c) (maintaining c) true (active c) (idle_stopped c) (limits c)).

(** [VisitorPermit::before_drop]. *)
Definition before_drop (c : VisitorCredits) : option VisitorCredits :=
  if held c <? 1 then None
  else set_limit (mkCredits (idle c) (held c - 1) (maintaining c) (closed c) (active c)
                    (idle_stopped c) (limits c)).

(** [Drop for VisitorPermit]; the semaphore permit is released after it. *)
Definition drop_permit (c : VisitorCredits) : option VisitorCredits :=
  if active c <? 1 then None
  else Some (mkCredits (idle c) (held c) (maintaining c) (closed c) (active c - 1)
               (idle_stopped c) (limits c)).

(** ** The Client's connections *)

(** A stream that owns a permit: [halves] of it are alive; the last one is about to call
    [before_drop]; the limit has been lowered; the permit's [drop] has run. *)
Inductive Handler := Leased (halves : Z) | LastHalf | Lowered | Dropped.

(** The acquisition the session task keeps across iterations; a granted one holds a
    permit that was not taken yet. *)
Inductive Acquisition := NoAcquisition | Queued | Granted.

(** Where the session task is: a candidate waiting to be released, at the top of its
    loop, in [select!], closing a drained session, past the loop, its acquisition
    dropped, ended. *)
Inductive Task :=
| AwaitingRelease
| LoopTop
| Selecting (needs : bool)
| ClosingSession
| Broken
| Unwinding
| Ended.

Record Connection := mkConn {
  credits : VisitorCredits;
  task : Task;
  draining : bool;
  saw_idle_stopped : bool;
  acquisition : Acquisition;
  handlers : gmap Z Handler
}.

(** The budget of the Client instance and its connections. *)
Record System := mkSystem { available : Z; conns : gmap Z Connection }.

Definition init (capacity : Z) : System := mkSystem capacity ∅.

Definition with_credits (c : VisitorCredits) (k : Connection) : Connection :=
  mkConn c (task k) (draining k) (saw_idle_stopped k) (acquisition k) (handlers k).
Definition with_task (t : Task) (k : Connection) : Connection :=
  mkConn (credits k) t (draining k) (saw_idle_stopped k) (acquisition k) (handlers k).
Definition with_handlers (h : gmap Z Handler) (k : Connection) : Connection :=
  mkConn (credits k) (task k) (draining k) (saw_idle_stopped k) (acquisition k) h.
Definition with_acquisition (a : Acquisition) (k : Connection) : Connection :=
  mkConn (credits k) (task k) (draining k) (saw_idle_stopped k) a (handlers k).

(** The permits a dropped acquisition gives back. *)
Definition acquired (a : Acquisition) : Z := match a with Granted => 1 | _ => 0 end.

Inductive action :=
(* the connection is established, as a candidate or as a primary *)
| Connect (k : Z) (candidate : bool)
| ReleaseCredit (k : Z)
(* the semaphore grants a queued acquisition *)
| Grant (k : Z)
(* the session task *)
| Top (k : Z)
| TakePermit (k : Z)
| AcceptStream (k h : Z)
| SessionDraining (k : Z)
| SawIdleStopped (k : Z)
| SessionDrained (k : Z)
| Break (k : Z)
| DropAcquisition (k : Z)
| DropMaintenance (k : Z)
(* withdrawal: started, and confirmed *)
| Withdraw (k : Z)
| WithdrawConfirmed (k : Z)
(* a handler *)
| DropHalf (k h : Z)
| BeforeDrop (k h : Z)
| DropPermit (k h : Z)
| ReleasePermit (k h : Z).

Definition set_conn (k : Z) (c : Connection) (s : System) : System :=
  mkSystem (available s) (<[k := c]> (conns s)).
Definition give_back (n : Z) (s : System) : System := mkSystem (available s + n) (conns s).

Definition take_permit (k : Z) (c : Connection) (s : System) : next System :=
  match task c, acquisition c with
  | Selecting true, Granted =>
      steps_or_panics (offer (credits c)) (λ '(c', kept),
        Steps (give_back (if kept then 0 else 1)
          (set_conn k (with_task LoopTop (with_acquisition Queued (with_credits c' c))) s)))
  | Selecting true, NoAcquisition => Panics  (* expect("idle maintenance owns an acquisition") *)
  | _, _ => Disabled
  end.

Definition accept_stream (k h : Z) (c : Connection) (s : System) : next System :=
  match task c, handlers c !! h with
  | Selecting _, None =>
      steps_or_panics (assign (available s) (credits c)) (λ '(c', available', assigned),
        let c1 := with_task LoopTop (with_credits c' c) in
        Steps (mkSystem available' (<[k := if assigned : bool
                                          then with_handlers (<[h := Leased 2]> (handlers c)) c1
                                          else c1]> (conns s))))
  | _, _ => Disabled
  end.

Definition session_draining (k : Z) (c : Connection) (s : System) : next System :=
  match task c with
  | Selecting _ =>
      if draining c then Disabled
      else steps_or_panics (stop_idle (credits c)) (λ '(c', released),
        Steps (give_back (acquired (acquisition c) + released)
          (set_conn k (mkConn c' LoopTop true (saw_idle_stopped c) NoAcquisition (handlers c)) s)))
  | _ => Disabled
  end.

Definition saw_stopped (k : Z) (c : Connection) (s : System) : next System :=
  match task c with
  | Selecting _ =>
      if idle_stopped (credits c) && negb (saw_idle_stopped c) then
        Steps (give_back (acquired (acquisition c))
          (set_conn k (mkConn (credits c) LoopTop (draining c) true NoAcquisition (handlers c)) s))
      else Disabled
  | _ => Disabled
  end.

Definition drop_half (k h : Z) (c : Connection) (s : System) : next System :=
  match handlers c !! h with
  | Some (Leased n) =>
      Steps (set_conn k (with_handlers (<[h := if n =? 1 then LastHalf else Leased (n - 1)]> (handlers c)) c) s)
  | _ => Disabled
  end.

Definition handler_step (k h : Z) (c : Connection) (s : System) (from to : Handler)
    (f : VisitorCredits → option VisitorCredits) : next System :=
  match handlers c !! h, from with
  | Some LastHalf, LastHalf | Some Lowered, Lowered =>
      steps_or_panics (f (credits c)) (λ c',
        Steps (set_conn k (with_handlers (<[h := to]> (handlers c)) (with_credits c' c)) s))
  | _, _ => Disabled
  end.

(** The actions of an established connection. *)
Definition exec_conn (s : System) (k : Z) (c : Connection) (a : action) : next System :=
  match a with
  | Connect _ _ => Disabled
  | ReleaseCredit _ =>
      match task c with
      | AwaitingRelease => Steps (set_conn k (with_task LoopTop (with_acquisition Queued c)) s)
      | _ => Disabled
      end
  | Grant _ =>
      match acquisition c with
      | Queued =>
          if 0 <? available s
          then Steps (give_back (-1) (set_conn k (with_acquisition Granted c) s))
          else Disabled
      | _ => Disabled
      end
  | Top _ =>
      match task c with
      | LoopTop => Steps (set_conn k (with_task (Selecting (needs_idle (credits c))) c) s)
      | _ => Disabled
      end
  | TakePermit _ => take_permit k c s
  | AcceptStream _ h => accept_stream k h c s
  | SessionDraining _ => session_draining k c s
  | SawIdleStopped _ => saw_stopped k c s
  | SessionDrained _ =>
      match task c with
      | Selecting _ =>
          if draining c && (active (credits c) =? 0)
          then Steps (set_conn k (with_task ClosingSession c) s) else Disabled
      | _ => Disabled
      end
  | Break _ =>
      match task c with
      | Broken | Unwinding | Ended => Disabled
      | _ => Steps (set_conn k (with_task Broken c) s)
      end
  | DropAcquisition _ =>
      match task c with
      | Broken =>
          Steps (give_back (acquired (acquisition c))
            (set_conn k (with_task Unwinding (with_acquisition NoAcquisition c)) s))
      | _ => Disabled
      end
  | DropMaintenance _ =>
      match task c with
      | Unwinding =>
          steps_or_panics (close (credits c)) (λ '(c', released),
            Steps (give_back released (set_conn k (with_task Ended (with_credits c' c)) s)))
      | _ => Disabled
      end
  | Withdraw _ => Steps (set_conn k (with_credits (stop_replenishing (credits c)) c) s)
  | WithdrawConfirmed _ =>
      steps_or_panics (stop_idle (credits c)) (λ '(c', released),
        Steps (give_back released (set_conn k (with_credits c' c) s)))
  | DropHalf _ h => drop_half k h c s
  | BeforeDrop _ h => handler_step k h c s LastHalf Lowered before_drop
  | DropPermit _ h => handler_step k h c s Lowered Dropped drop_permit
  | ReleasePermit _ h =>
      match handlers c !! h with
      | Some Dropped =>
          Steps (give_back 1 (set_conn k (with_handlers (delete h (handlers c)) c) s))
      | _ => Disabled
      end
  end.

Definition conn_of (a : action) : Z :=
  match a with
  | Connect k _ | ReleaseCredit k | Grant k | Top k | TakePermit k | AcceptStream k _
  | SessionDraining k | SawIdleStopped k | SessionDrained k | Break k | DropAcquisition k
  | DropMaintenance k | Withdraw k | WithdrawConfirmed k | DropHalf k _ | BeforeDrop k _
  | DropPermit k _ | ReleasePermit k _ => k
  end.

(** A primary starts with its acquisition; a candidate waits for [release_credit]. *)
Definition connect (candidate : bool) : Connection :=
  mkConn new (if candidate then AwaitingRelease else LoopTop) false false
    (if candidate then NoAcquisition else Queued) ∅.

Definition exec (s : System) (a : action) : next System :=
  match conns s !! conn_of a, a with
  | None, Connect k candidate => Steps (set_conn k (connect candidate) s)
  | Some c, _ => exec_conn s (conn_of a) c a
  | None, _ => Disabled
  end.

(** ** Invariant *)

(** The handlers whose permit is part of [held], and those counted as active. *)
Definition in_held (h : Handler) : Z := match h with Leased _ | LastHalf => 1 | _ => 0 end.
Definition in_active (h : Handler) : Z := match h with Dropped => 0 | _ => 1 end.

(** The permits of the budget that a connection keeps. *)
Definition reserved (c : Connection) : Z :=
  idle (credits c) + acquired (acquisition c) + sum_map (λ _, 1) (handlers c).

(** The configured stream target: the newest limit.  Credit that Quinn has sent under earlier
    limits is not revoked by a lower one, so more streams than this may arrive. *)
Definition target (c : VisitorCredits) : Z := default 0 (head (limits c)).

Definition in_loop (t : Task) : bool :=
  match t with LoopTop | Selecting _ | ClosingSession => true | _ => false end.
Definition past_acquisition (t : Task) : bool :=
  match t with AwaitingRelease | Unwinding | Ended => true | _ => false end.

Record credits_inv (v : VisitorCredits) (hs : gmap Z Handler) : Prop := {
  ci_idle : 0 ≤ idle v ≤ MAX_IDLE_VISITOR_CREDIT;
  ci_held : held v = idle v + sum_map in_held hs;
  ci_active : active v = sum_map in_active hs;
  ci_limit : target v = held v;
  ci_stopped : idle_stopped v = negb (maintaining v);
  ci_closed : closed v = true → maintaining v = false ∧ idle v = 0
}.

Record conn_inv (c : Connection) : Prop := {
  ci_credits : credits_inv (credits c) (handlers c);
  ci_ended : closed (credits c) = true ↔ task c = Ended;
  ci_acquisition : in_loop (task c) = true → acquisition c = NoAcquisition → maintaining (credits c) = false;
  ci_selecting : task c = Selecting true → idle (credits c) < MAX_IDLE_VISITOR_CREDIT ∧ acquisition c ≠ NoAcquisition;
  ci_candidate : task c = AwaitingRelease → held (credits c) = 0 ∧ handlers c = ∅;
  ci_past : past_acquisition (task c) = true → acquisition c = NoAcquisition
}.

Record sys_inv (capacity : Z) (s : System) : Prop := {
  si_available : 0 ≤ available s;
  si_conserved : available s + sum_map reserved (conns s) = capacity;
  si_conns : map_Forall (λ _, conn_inv) (conns s)
}.

(** An action of connection [k] changes that connection only, and moves permits between
    it and the budget. *)
Definition local_ok (s : System) (k : Z) (c : Connection) (o : next System) : Prop :=
  match o with
  | Panics => False
  | Disabled => True
  | Steps s' =>
      ∃ c', conns s' = <[k := c']> (conns s) ∧ 0 ≤ available s' ∧
        available s' + reserved c' = available s + reserved c ∧ conn_inv c'
  end.

Lemma set_limit_ok v : held v ≤ VARINT_MAX →
  set_limit v = Some (mkCredits (idle v) (held v) (maintaining v) (closed v) (active v) (idle_stopped v)
                        (held v :: 0 :: held v :: limits v)).
Proof. intros Hv. unfold set_limit. by destruct (Z.leb_spec (held v) VARINT_MAX); [|lia]. Qed.

Lemma in_held_nonneg (hs : gmap Z Handler) : 0 ≤ sum_map in_held hs.
Proof. apply sum_map_nonneg. intros k []; simpl; lia. Qed.
Lemma in_active_nonneg (hs : gmap Z Handler) : 0 ≤ sum_map in_active hs.
Proof. apply sum_map_nonneg. intros k []; simpl; lia. Qed.
Lemma in_held_le (hs : gmap Z Handler) : sum_map in_held hs ≤ sum_map (λ _, 1) hs.
Proof. apply sum_map_le. intros k []; simpl; lia. Qed.
#[export] Hint Resolve in_held_nonneg in_active_nonneg in_held_le : runewarp.

Lemma reserved_nonneg c : conn_inv c → 0 ≤ reserved c.
Proof.
  intros [[] _ _ _ _ _]. unfold reserved.
  assert (0 ≤ sum_map (λ _, 1) (handlers c)) by (apply sum_map_nonneg; lia).
  unfold acquired. destruct (acquisition c); lia.
Qed.

Lemma held_le_reserved c : conn_inv c → held (credits c) ≤ reserved c.
Proof.
  intros [[] _ _ _ _ _]. unfold reserved. pose proof (in_held_le (handlers c)).
  unfold acquired. destruct (acquisition c); lia.
Qed.

(** Releasing the idle permits. *)
Lemma release_idle_ok v hs :
  credits_inv v hs → held v ≤ VARINT_MAX →
  ∃ ls, release_idle v = Some (mkCredits 0 (held v - idle v) false (closed v) (active v) true ls, idle v) ∧
    head ls = Some (held v - idle v).
Proof.
  intros [] Hv. unfold release_idle. pose proof (in_held_nonneg hs).
  destruct (Z.ltb_spec (held v) (idle v)); [lia|]. rewrite set_limit_ok by (simpl; lia). simpl. eauto.
Qed.

Lemma released_inv v hs ls cl :
  credits_inv v hs → head ls = Some (held v - idle v) →
  credits_inv (mkCredits 0 (held v - idle v) false cl (active v) true ls) hs.
Proof.
  intros [] Hl. split; simpl; try done.
  - lia.
  - unfold target. simpl. by rewrite Hl.
Qed.

(** *** Each action is local and conserves permits *)

Section Local.
Context (s : System) (k : Z) (c : Connection).
Hypothesis Hinv : conn_inv c.
Hypothesis Havail : 0 ≤ available s.
Hypothesis Hmax : available s + reserved c ≤ VARINT_MAX.

Lemma held_fits : held (credits c) + available s ≤ VARINT_MAX.
Proof. pose proof (held_le_reserved c Hinv). lia. Qed.

Lemma take_permit_ok : local_ok s k c (take_permit k c s).
Proof.
  pose proof held_fits as Hh. unfold take_permit. destruct (task c) eqn:Et; try done. destruct needs; [|done].
  pose proof Hinv as [Hc He Ha Hs Hca Hp]. destruct (Hs Et) as [Hlt Hacq]. destruct (acquisition c) eqn:Eq; [done..|].
  pose proof Hc as [Hi Hhe Hact Hli Hst Hcl]. unfold offer. destruct (maintaining (credits c)) eqn:Em; simpl.
  - assert (held (credits c) + 1 ≤ VARINT_MAX) as Hfit.
    { unfold reserved in Hmax. rewrite Eq in Hmax. simpl in Hmax. pose proof (in_held_le (handlers c)). lia. }
    rewrite set_limit_ok by done. simpl. eexists. split; [done|].
    split; [simpl; lia|]. split; [unfold reserved; simpl; rewrite Eq; simpl; lia|].
    split; simpl; try done; [|split; [|done]; intros Hx; by destruct (Hcl Hx)].
    split; simpl; rewrite ?Em; try done; [lia|lia|]. intros Hx. by destruct (Hcl Hx).
  - eexists. split; [done|]. split; [simpl; lia|]. split; [unfold reserved; simpl; rewrite Eq; simpl; lia|].
    split; simpl; try done. split; [|done]. intros Hx. apply He in Hx. congruence.
Qed.

Lemma accept_stream_ok h : local_ok s k c (accept_stream k h c s).
Proof.
  pose proof held_fits as Hh. unfold accept_stream. destruct (task c) eqn:Et; try done.
  destruct (handlers c !! h) eqn:Eh; [done|].
  pose proof Hinv as [Hc He Ha Hs Hca Hp]. pose proof Hc as [Hi Hhe Hact Hli Hst Hcl].
  assert (closed (credits c) = false) as Hopen.
  { apply not_true_iff_false. intros Hx%He. congruence. }
  unfold assign. rewrite Hopen. destruct (Z.ltb_spec 0 (idle (credits c))) as [Hpos|Hzero]; simpl.
  - eexists. split; [done|]. split; [simpl; lia|].
    split; [unfold reserved; simpl; rewrite sum_map_insert_fresh by done; lia|].
    split; simpl; try done; [|intros _; apply Ha; by rewrite Et].
    split; simpl; rewrite ?sum_map_insert_fresh by done; simpl; try done; lia.
  - destruct (Z.ltb_spec 0 (available s)); simpl.
    + rewrite set_limit_ok by (simpl; lia). simpl. eexists. split; [done|]. split; [simpl; lia|].
      split; [unfold reserved; simpl; rewrite sum_map_insert_fresh by done; lia|].
      split; simpl; try done; [|intros _; apply Ha; by rewrite Et].
      split; simpl; rewrite ?sum_map_insert_fresh by done; simpl; try done; lia.
    + eexists. split; [done|]. split; [simpl; lia|]. split; [unfold reserved; simpl; lia|].
      split; simpl; try done; [by rewrite Hopen|intros _; apply Ha; by rewrite Et].
Qed.

(** Stopping idle maintenance, wherever the task is and whatever its next state. *)
Lemma stop_idle_ok t d sw aq :
  (closed (credits c) = true ↔ t = Ended) → (∀ b, t ≠ Selecting b) ∨ (t = task c ∧ aq = acquisition c) →
  (t = AwaitingRelease → task c = AwaitingRelease) → (past_acquisition t = true → aq = NoAcquisition) →
  aq = NoAcquisition ∨ aq = acquisition c →
  local_ok s k c (steps_or_panics (stop_idle (credits c)) (λ '(c', released),
    Steps (give_back (acquired (acquisition c) - acquired aq + released)
      (set_conn k (mkConn c' t d sw aq (handlers c)) s)))).
Proof.
  intros Hend Hsel Hcand Hpast Haq. pose proof Hinv as [Hc He Ha Hs Hca Hp]. pose proof Hc as [Hi Hhe Hact Hli Hst Hcl].
  destruct (release_idle_ok _ _ Hc) as (ls & Hr & Hls); [pose proof held_fits; lia|].
  unfold stop_idle. rewrite Hr. simpl. eexists. split; [done|].
  split; [simpl; unfold acquired; destruct (acquisition c), Haq as [-> | ->]; lia|].
  split; [unfold reserved; simpl; lia|].
  split; simpl; try done.
  - by apply released_inv.
  - intros ->. destruct Hsel as [Hsel|[Ht ->]]; [by destruct (Hsel true)|].
    symmetry in Ht. destruct (Hs Ht) as [_ ?]. split; [|done]. unfold MAX_IDLE_VISITOR_CREDIT. lia.
  - intros Ht. destruct (Hca (Hcand Ht)) as [Hh0 Hhs]. split; [|done]. rewrite Hhs in Hhe.
    rewrite sum_map_empty in Hhe. lia.
Qed.

Lemma session_draining_ok : local_ok s k c (session_draining k c s).
Proof.
  unfold session_draining. destruct (task c) eqn:Et; try done. destruct (draining c); [done|].
  pose proof (stop_idle_ok LoopTop true (saw_idle_stopped c) NoAcquisition) as Hok. simpl in Hok.
  rewrite Z.sub_0_r in Hok. apply Hok; try done; [|by left|by left].
  pose proof Hinv as [_ He _ _ _ _]. rewrite He, Et. done.
Qed.

Lemma saw_stopped_ok : local_ok s k c (saw_stopped k c s).
Proof.
  unfold saw_stopped. destruct (task c) eqn:Et; try done.
  destruct (idle_stopped (credits c)) eqn:Es; [|done]. destruct (saw_idle_stopped c); [done|]. simpl.
  pose proof Hinv as [Hc He Ha Hs Hca Hp]. eexists. split; [done|].
  split; [simpl; unfold acquired; destruct (acquisition c); lia|]. split; [unfold reserved; simpl; lia|].
  split; simpl; try done.
  - rewrite He, Et. done.
  - intros _ _. destruct Hc. rewrite ci_stopped0 in Es. by destruct (maintaining (credits c)).
Qed.

Lemma drop_maintenance_ok :
  task c = Unwinding →
  local_ok s k c (steps_or_panics (close (credits c)) (λ '(c', released),
    Steps (give_back released (set_conn k (with_task Ended (with_credits c' c)) s)))).
Proof.
  intros Et. pose proof Hinv as [Hc He Ha Hs Hca Hp]. pose proof Hc as [Hi Hhe Hact Hli Hst Hcl].
  assert (credits_inv (mkCredits (idle (credits c)) (held (credits c)) (maintaining (credits c)) false
            (active (credits c)) (idle_stopped (credits c)) (limits (credits c))) (handlers c)) as Hc' by by split.
  destruct (release_idle_ok _ _ Hc') as (ls & Hr & Hls); [pose proof held_fits; simpl; lia|].
  unfold close, release_idle, set_limit in *. simpl in *.
  destruct (held (credits c) <? idle (credits c)); [done|].
  destruct (held (credits c) - idle (credits c) <=? VARINT_MAX); [|done]. simpl in *. injection Hr as Hr. subst ls.
  eexists. split; [done|]. split; [simpl; lia|]. split; [unfold reserved; simpl; lia|].
  split; simpl; try done; [by apply (released_inv (credits c))|]. intros _. apply Hp. by rewrite Et.
Qed.

(** The other actions of the session task change the task only. *)
Lemma retask_ok t aq :
  (t = Ended ↔ task c = Ended) →
  (in_loop t = true → aq = NoAcquisition → maintaining (credits c) = false) →
  (t = Selecting true → idle (credits c) < MAX_IDLE_VISITOR_CREDIT ∧ aq ≠ NoAcquisition) →
  (t = AwaitingRelease → task c = AwaitingRelease) → (past_acquisition t = true → aq = NoAcquisition) →
  0 ≤ available s + (acquired (acquisition c) - acquired aq) →
  local_ok s k c (Steps (give_back (acquired (acquisition c) - acquired aq)
    (set_conn k (with_task t (with_acquisition aq c)) s))).
Proof.
  intros Hend Hl Hsel Hcand Hpast Hav. pose proof Hinv as [Hc He Ha Hs Hca Hp].
  eexists. split; [done|]. split; [done|]. split; [unfold reserved; simpl; lia|].
  split; simpl; try done; [by rewrite He, Hend|]. intros Ht. auto.
Qed.

Lemma drop_half_ok h : local_ok s k c (drop_half k h c s).
Proof.
  unfold drop_half. destruct (handlers c !! h) as [[n| | |]|] eqn:Eh; try done.
  pose proof Hinv as [Hc He Ha Hs Hca Hp]. pose proof Hc as [Hi Hhe Hact Hli Hst Hcl].
  set (h' := if n =? 1 then LastHalf else Leased (n - 1)).
  assert (in_held h' = 1 ∧ in_active h' = 1) as [H1 H2] by (unfold h'; by destruct (n =? 1)).
  eexists. split; [done|]. split; [simpl; lia|].
  split; [unfold reserved; simpl; rewrite (sum_map_update _ _ _ _ _ Eh); lia|].
  split; simpl; try done.
  - split; simpl; rewrite ?(sum_map_update _ _ _ _ _ Eh), ?H1, ?H2; simpl; try done; lia.
  - intros Ht. destruct (Hca Ht) as [_ Hhs]. rewrite Hhs in Eh. done.
Qed.

Lemma before_drop_ok h : local_ok s k c (handler_step k h c s LastHalf Lowered before_drop).
Proof.
  unfold handler_step. destruct (handlers c !! h) as [[n| | |]|] eqn:Eh; try done.
  pose proof Hinv as [Hc He Ha Hs Hca Hp]. pose proof Hc as [Hi Hhe Hact Hli Hst Hcl].
  assert (1 ≤ sum_map in_held (handlers c)).
  { apply (sum_map_lookup_le in_held _ _ _ Eh). intros k' []; simpl; lia. }
  unfold before_drop. destruct (Z.ltb_spec (held (credits c)) 1); [lia|].
  rewrite set_limit_ok by (pose proof held_fits; simpl; lia). simpl. eexists. split; [done|].
  split; [simpl; lia|]. split; [unfold reserved; simpl; rewrite (sum_map_update _ _ _ _ _ Eh); lia|].
  split; simpl; try done.
  - split; simpl; rewrite ?(sum_map_update _ _ _ _ _ Eh); simpl; try done; lia.
  - intros Ht. destruct (Hca Ht) as [_ Hhs]. rewrite Hhs in Eh. done.
Qed.

Lemma drop_permit_ok h : local_ok s k c (handler_step k h c s Lowered Dropped drop_permit).
Proof.
  unfold handler_step. destruct (handlers c !! h) as [[n| | |]|] eqn:Eh; try done.
  pose proof Hinv as [Hc He Ha Hs Hca Hp]. pose proof Hc as [Hi Hhe Hact Hli Hst Hcl].
  assert (1 ≤ sum_map in_active (handlers c)).
  { apply (sum_map_lookup_le in_active _ _ _ Eh). intros k' []; simpl; lia. }
  unfold drop_permit. destruct (Z.ltb_spec (active (credits c)) 1); [lia|]. simpl. eexists. split; [done|].
  split; [simpl; lia|]. split; [unfold reserved; simpl; rewrite (sum_map_update _ _ _ _ _ Eh); lia|].
  split; simpl; try done.
  - split; simpl; rewrite ?(sum_map_update _ _ _ _ _ Eh); simpl; try done; lia.
  - intros Ht. destruct (Hca Ht) as [_ Hhs]. rewrite Hhs in Eh. done.
Qed.

Lemma release_permit_ok h :
  handlers c !! h = Some Dropped →
  local_ok s k c (Steps (give_back 1 (set_conn k (with_handlers (delete h (handlers c)) c) s))).
Proof.
  intros Eh. pose proof Hinv as [Hc He Ha Hs Hca Hp]. pose proof Hc as [Hi Hhe Hact Hli Hst Hcl].
  eexists. split; [done|]. split; [simpl; lia|].
  split; [unfold reserved; simpl; rewrite (sum_map_delete _ _ _ _ Eh); lia|].
  split; simpl; try done.
  - split; simpl; rewrite ?(sum_map_delete _ _ _ _ Eh); simpl; try done; lia.
  - intros Ht. destruct (Hca Ht) as [_ Hhs]. rewrite Hhs in Eh. done.
Qed.

End Local.

Lemma exec_conn_ok s k c a :
  conn_inv c → 0 ≤ available s → available s + reserved c ≤ VARINT_MAX →
  local_ok s k c (exec_conn s k c a).
Proof.
  intros Hinv Hav Hmax. pose proof Hinv as [Hc He Ha Hs Hca Hp]. pose proof Hc as [Hi Hhe Hact Hli Hst Hcl].
  assert (acquired (acquisition c) - acquired (acquisition c) = 0) as Hz by lia.
  assert (∀ t, with_task t (with_acquisition (acquisition c) c) = with_task t c) as Hw by (intros; by destruct c).
  assert (∀ x, give_back 0 x = x) as Hg by (intros []; unfold give_back; simpl; f_equal; lia).
  destruct a; cbn [exec_conn]; try done.
  - destruct (task c) eqn:Et; try done. specialize (Hp eq_refl).
    pose proof (retask_ok s k c Hinv LoopTop Queued) as Hok. rewrite Hp, Hg in Hok.
    apply Hok; try done; [by rewrite Et|simpl; lia].
  - destruct (acquisition c) eqn:Eq; try done. destruct (Z.ltb_spec 0 (available s)); [|done].
    pose proof (retask_ok s k c Hinv (task c) Granted) as Hok. rewrite Eq in Hok.
    destruct c; simpl in *; subst. apply Hok; try done; simpl; [|by intros ?%Hp|lia].
    intros ->. destruct (Hs eq_refl). done.
  - destruct (task c) eqn:Et; try done.
    pose proof (retask_ok s k c Hinv (Selecting (needs_idle (credits c))) (acquisition c)) as Hok.
    rewrite Hz, Hg, Hw in Hok. apply Hok; try done; [by rewrite Et| |lia].
    unfold needs_idle. destruct (maintaining (credits c)) eqn:Em; [|done]. simpl.
    destruct (Z.ltb_spec (idle (credits c)) MAX_IDLE_VISITOR_CREDIT); [|done]. intros _. split; [done|].
    intros Hq. by specialize (Ha eq_refl Hq).
  - by apply take_permit_ok.
  - by apply accept_stream_ok.
  - by apply session_draining_ok.
  - by apply saw_stopped_ok.
  - destruct (task c) eqn:Et; try done. destruct (draining c && (active (credits c) =? 0)); [|done].
    pose proof (retask_ok s k c Hinv ClosingSession (acquisition c)) as Hok.
    rewrite Hz, Hg, Hw in Hok. apply Hok; try done; [by rewrite Et|lia].
  - pose proof (retask_ok s k c Hinv Broken (acquisition c)) as Hok. rewrite Hz, Hg, Hw in Hok.
    destruct (task c) eqn:Et; try done; apply Hok; try done; try (by rewrite Et); lia.
  - destruct (task c) eqn:Et; try done.
    pose proof (retask_ok s k c Hinv Unwinding NoAcquisition) as Hok. simpl in Hok. rewrite Z.sub_0_r in Hok.
    apply Hok; try done; [by rewrite Et|unfold acquired; destruct (acquisition c); lia].
  - destruct (task c) eqn:Et; try done. by apply drop_maintenance_ok.
  - eexists. split; [done|]. split; [done|]. split; [done|]. split; simpl; try done.
    split; simpl; try done. intros Hx. split; [done|]. by destruct (Hcl Hx).
  - pose proof (stop_idle_ok s k c Hinv Hav Hmax (task c) (draining c) (saw_idle_stopped c) (acquisition c)) as Hok.
    rewrite Hz in Hok. destruct c; simpl in *. apply Hok; by auto.
  - by apply drop_half_ok.
  - by apply before_drop_ok.
  - by apply drop_permit_ok.
  - destruct (handlers c !! h) as [[]|] eqn:Eh; try done. by apply release_permit_ok.
Qed.

Section Reachable.
Context (capacity : Z).
Hypothesis Hcap : 0 ≤ capacity ≤ VARINT_MAX.

Lemma sys_inv_fits s k c :
  sys_inv capacity s → conns s !! k = Some c → available s + reserved c ≤ VARINT_MAX.
Proof.
  intros [Hav Hcons Hc] Hk. assert (reserved c ≤ sum_map reserved (conns s)); [|lia].
  apply (sum_map_lookup_le reserved _ k); [done|]. intros k' c' Hk'. apply reserved_nonneg. by apply (Hc k').
Qed.

Lemma connect_inv candidate : conn_inv (connect candidate).
Proof. destruct candidate; split; done || by split. Qed.

(** No action panics, and every enabled one keeps the invariant. *)
Lemma credit_exec_ok s a :
  sys_inv capacity s → match exec s a with Steps s' => sys_inv capacity s' | Disabled => True | Panics => False end.
Proof.
  intros Hinv. pose proof Hinv as [Hav Hcons Hc]. unfold exec. destruct (conns s !! conn_of a) as [c|] eqn:Ek.
  - assert (local_ok s (conn_of a) c (exec_conn s (conn_of a) c a)) as Hl.
    { apply exec_conn_ok; [by apply (Hc (conn_of a))|done|by eapply sys_inv_fits]. }
    destruct (exec_conn s (conn_of a) c a) as [s'| |]; [|done|done].
    destruct Hl as (c' & Heq & Hav' & Hmove & Hc'). split; rewrite ?Heq; [done| |].
    + rewrite (sum_map_update _ _ _ _ _ Ek). lia.
    + by apply map_Forall_insert_2.
  - destruct a; try done. split; simpl; [done| |].
    + rewrite sum_map_insert_fresh by done. by destruct candidate.
    + apply map_Forall_insert_2; [apply connect_inv|done].
Qed.

Lemma credit_reachable_inv acts s : run_actions exec (init capacity) acts = Some s → sys_inv capacity s.
Proof.
  apply (run_actions_invariant exec (sys_inv capacity)).
  - intros s0 a s' Hinv Hx. pose proof (credit_exec_ok s0 a Hinv) as Hok. by rewrite Hx in Hok.
  - split; simpl; [lia|by rewrite sum_map_empty; lia|apply map_Forall_empty].
Qed.

(** An arriving stream gets a permit whenever there is one. *)
Lemma arrival_decided s k h c needs :
  sys_inv capacity s → conns s !! k = Some c → task c = Selecting needs → handlers c !! h = None →
  ∃ s' c', exec s (AcceptStream k h) = Steps s' ∧ conns s' !! k = Some c' ∧
    if (0 <? idle (credits c)) || (0 <? available s)
    then handlers c' = <[h := Leased 2]> (handlers c)
    else handlers c' = handlers c ∧ credits c' = credits c ∧ available s' = available s.
Proof.
  intros Hinv Hk Ht Hh. pose proof Hinv as [Hav _ Hc]. pose proof (Hc k c Hk) as Hci. pose proof Hci as [_ He _ _ _ _].
  assert (closed (credits c) = false) as Hopen by (apply not_true_iff_false; intros Hx%He; congruence).
  pose proof (sys_inv_fits s k c Hinv Hk). pose proof (held_le_reserved c Hci).
  unfold exec. cbn [conn_of]. rewrite Hk. cbn [exec_conn]. unfold accept_stream, assign. rewrite Ht, Hh, Hopen.
  destruct (Z.ltb_spec 0 (idle (credits c))); simpl; [|destruct (Z.ltb_spec 0 (available s)); simpl].
  - eexists _, _. split; [done|]. split; [apply lookup_insert_eq|done].
  - rewrite set_limit_ok by (simpl; lia). eexists _, _. split; [done|]. split; [apply lookup_insert_eq|done].
  - eexists _, _. split; [done|]. split; [apply lookup_insert_eq|done].
Qed.

End Reachable.

(** A Client with a budget of two permits, a primary that serves two Visitors and a
    candidate that takes over its credit. *)
Definition demo_actions : list action :=
  [Connect 0 false; Connect 1 true; Grant 0; Top 0; TakePermit 0; Grant 0; Top 0; TakePermit 0;
   Top 0; AcceptStream 0 7; Top 0; AcceptStream 0 8; Withdraw 0; DropHalf 0 7; DropHalf 0 7;
   BeforeDrop 0 7; DropPermit 0 7; ReleasePermit 0 7; ReleaseCredit 1; Grant 1; Top 1; TakePermit 1].
Definition demo : System := default (init 2) (run_actions exec (init 2) demo_actions).

(** ** Properties *)

(** C22: Streams are backed by permits.  In every interleaving no permit is lost or invented:
    the budget's free permits and those kept by connections add up to its capacity.  The
    target configured on a connection is exactly its idle permits and the streams that still
    hold one, so all targets together never exceed the capacity.  Credit sent under an earlier
    target is irrevocable, so a stream may arrive at any time: it gets a handler exactly when
    an idle permit or a free one of the budget is there, and is refused with nothing changed
    otherwise; all streams with a handler never exceed the capacity.  Nothing panics. *)
Theorem visitor_credit_backed capacity acts s :
  0 ≤ capacity ≤ VARINT_MAX → run_actions exec (init capacity) acts = Some s →
  0 ≤ available s ∧ available s + sum_map reserved (conns s) = capacity ∧
  (∀ k c, conns s !! k = Some c →
     target (credits c) = idle (credits c) + sum_map in_held (handlers c) ∧
     0 ≤ idle (credits c) ≤ MAX_IDLE_VISITOR_CREDIT) ∧
  sum_map (λ c, target (credits c)) (conns s) ≤ capacity ∧
  sum_map (λ c, sum_map (λ _, 1) (handlers c)) (conns s) ≤ capacity ∧
  (∀ k h c needs, conns s !! k = Some c → task c = Selecting needs → handlers c !! h = None →
     ∃ s' c', exec s (AcceptStream k h) = Steps s' ∧ conns s' !! k = Some c' ∧
       if (0 <? idle (credits c)) || (0 <? available s)
       then handlers c' = <[h := Leased 2]> (handlers c)
       else handlers c' = handlers c ∧ credits c' = credits c ∧ available s' = available s) ∧
  ∀ a, exec s a ≠ Panics.
Proof.
  intros Hcap Hr. pose proof (credit_reachable_inv capacity Hcap acts s Hr) as Hinv. pose proof Hinv as [Hav Hcons Hc].
  assert (∀ f, (∀ c, conn_inv c → f c ≤ reserved c) → sum_map f (conns s) ≤ capacity) as Hsum.
  { intros f Hf. assert (sum_map f (conns s) ≤ sum_map reserved (conns s)); [|lia].
    apply sum_map_le. intros k c Hk. by apply Hf, (Hc k). }
  split_and!; [done|done| | | | |].
  - intros k c Hk. destruct (Hc k c Hk) as [[] _ _ _ _ _]. split; [lia|done].
  - apply Hsum. intros c Hci. pose proof (held_le_reserved c Hci). destruct Hci as [[] _ _ _ _ _]. lia.
  - apply Hsum. intros c [[] _ _ _ _ _]. unfold reserved, acquired. destruct (acquisition c); lia.
  - intros k h c needs Hk Ht Hh. apply (arrival_decided capacity Hcap s k h c needs Hinv Hk Ht Hh).
  - intros a Ha. pose proof (credit_exec_ok capacity Hcap s a Hinv) as Hok. by rewrite Ha in Hok.
Qed.

Lemma visitor_credit_backed_witness :
  available demo = 0 ∧ sum_map reserved (conns demo) = 2 ∧
  sum_map (λ c, target (credits c)) (conns demo) = 2.
Proof.
  destruct (visitor_credit_backed 2 demo_actions demo) as (Ha & Hs & _); [by vm_compute|by vm_compute|].
  split; [by vm_compute|]. split; [|by vm_compute]. assert (available demo = 0) as Hz by by vm_compute. lia.
Defined.

(** Credit is given back.  A connection counts as drained exactly when the permit of
    every stream it served has been dropped; a candidate that was not released keeps no
    permit; and a connection whose session task has ended keeps only the permits of
    streams still held by handlers, refuses new ones, and keeps nothing once they are
    released. *)
Theorem visitor_credit_returned capacity acts s k c :
  0 ≤ capacity ≤ VARINT_MAX → run_actions exec (init capacity) acts = Some s → conns s !! k = Some c →
  (active (credits c) = 0 ↔ ∀ h x, handlers c !! h = Some x → x = Dropped) ∧
  (task c = AwaitingRelease → reserved c = 0) ∧
  (task c = Ended → reserved c = sum_map (λ _, 1) (handlers c) ∧
     assign (available s) (credits c) = Some (credits c, available s, false) ∧
     (handlers c = ∅ → reserved c = 0)).
Proof.
  intros Hcap Hr Hk. destruct (credit_reachable_inv capacity Hcap acts s Hr) as [_ _ Hc].
  destruct (Hc k c Hk) as [Hcr He Ha Hs Hca Hp]. pose proof Hcr as [Hi Hhe Hact Hli Hst Hcl].
  split_and!.
  - rewrite Hact. split.
    + intros Hz h x Hx. assert (in_active x = 0) as Hx0; [|by destruct x].
      apply (sum_map_zero in_active (handlers c)) with h; [|done|done]. intros k' []; simpl; lia.
    + intros Hall. assert (sum_map in_active (handlers c) ≤ sum_map (λ _, 0) (handlers c)) as Hle.
      { apply sum_map_le. intros h x Hx. by rewrite (Hall h x Hx). }
      assert (∀ m : gmap Z Handler, sum_map (λ _, 0) m = 0) as Hz.
      { intros m. induction m as [|h x m Hh IH] using map_ind; [done|]. by rewrite sum_map_insert_fresh. }
      rewrite Hz in Hle. pose proof (in_active_nonneg (handlers c)). lia.
  - intros Ht. destruct (Hca Ht) as [Hh0 Hhs]. unfold reserved. rewrite Hp by by rewrite Ht.
    rewrite Hhs in *. rewrite sum_map_empty in *. simpl. lia.
  - intros Ht. assert (closed (credits c) = true) as Hclosed by by apply He. destruct (Hcl Hclosed) as [_ Hz].
    assert (reserved c = sum_map (λ _, 1) (handlers c)) as Hres.
    { unfold reserved. rewrite Hp by by rewrite Ht. simpl. lia. }
    split_and!; [done|unfold assign; by rewrite Hclosed|]. intros Hem. by rewrite Hres, Hem.
Qed.

Definition demo_ended : System :=
  default (init 2) (run_actions exec (init 2)
    (demo_actions ++ [Break 0; DropAcquisition 0; DropMaintenance 0])).

Definition demo_conn : Connection := default (connect true) (conns demo_ended !! 0).

Lemma visitor_credit_returned_witness : reserved demo_conn = 1.
Proof.
  assert (conns demo_ended !! 0 = Some demo_conn) as Hk by (vm_compute; reflexivity).
  assert (run_actions exec (init 2) (demo_actions ++ [Break 0; DropAcquisition 0; DropMaintenance 0])
            = Some demo_ended) as Hr by (vm_compute; reflexivity).
  assert (0 ≤ 2 ≤ VARINT_MAX) as Hcap by (vm_compute; split; discriminate).
  assert (task demo_conn = Ended) as Ht by (vm_compute; reflexivity).
  destruct (visitor_credit_returned 2 _ demo_ended 0 demo_conn Hcap Hr Hk) as (_ & _ & He).
  destruct (He Ht) as (Hres & _). rewrite Hres. vm_compute. reflexivity.
Defined.
