(* ===== verification/Shutdown.v ===== *)
(** * Shutdown: one orderly shutdown per process

    [OrderlyShutdown] of [src/shutdown.rs]: an atomic mode that only rises, the instant
    at which it first rose, and the tasks that wait for it.  The machine interleaves the
    atomic operations of any number of callers of [begin_graceful] and [begin_fast] with
    the polls of [wait_started] and [wait_for_fast].  [Notify::notify_waiters] wakes every
    [notified()] future that exists when it is called. *)

From Stdlib Require Import ZArith Lia.
From stdpp Require Import base numbers gmap list.
From S2P Require Import Prelude.

Open Scope Z_scope.

Inductive ShutdownMode := Graceful | Fast.
Inductive ShutdownTransition :=
| Started (mode : ShutdownMode)
| EscalatedToFast
| AlreadyStarted (mode : ShutdownMode).

#[export] Instance ShutdownMode_eq_dec : EqDecision ShutdownMode.
Proof. solve_decision. Defined.
#[export] Instance ShutdownTransition_eq_dec : EqDecision ShutdownTransition.
Proof. solve_decision. Defined.

(** A call of [transition_to(target)]: at the top of its loop; the state it loaded; the start
    recorded if it was the first; the exchange done and the waiters not notified yet. *)
Inductive Caller :=
| AtTop (target : Z)
| Loaded (target current : Z)
| Recorded (target current : Z)
| Exchanged (target current : Z).

(** A call of [wait_started] or, with [fast], [wait_for_fast]: at the top of its loop; its
    [notified()] future created; suspended on it; returned.  [notified] tells whether the
    future has been woken. *)
Inductive Waiter :=
| WaitTop (fast : bool)
| WaitEnrolled (fast notified : bool)
| WaitSuspended (fast notified : bool)
| WaitDone (fast : bool).

Record Shutdown := mkShutdown {
  state : Z;
  started_at : option Z;
  callers : gmap Z Caller;
  waiters : gmap Z Waiter;
  returned : list ShutdownTransition
}.

Definition init : Shutdown := mkShutdown 0 None ∅ ∅ [].

Definition mode_of (state : Z) : option ShutdownMode :=
  if state =? 1 then Some Graceful else if state =? 2 then Some Fast else None.

Definition mode (s : Shutdown) : option ShutdownMode := mode_of (state s).

(** [mode_from_state], which panics before shutdown started. *)
Definition mode_from_state (state : Z) : option ShutdownMode := mode_of state.

Definition graceful_deadline (graceful_shutdown_duration : Z) (s : Shutdown) : option Z :=
  (λ started_at, started_at + graceful_shutdown_duration) <$> started_at s.

(** The value [transition_to] returns after a successful exchange; [None] is its
    [unreachable!]. *)
Definition exchanged (current target : Z) : option ShutdownTransition :=
  if (current =? 0) && (target =? 1) then Some (Started Graceful)
  else if (current =? 0) && (target =? 2) then Some (Started Fast)
  else if (current =? 1) && (target =? 2) then Some EscalatedToFast
  else None.

(** Whether a waiter's condition holds. *)
Definition satisfied (fast : bool) (state : Z) : bool :=
  match mode_of state with
  | Some Fast => true
  | Some Graceful => negb fast
  | None => false
  end.

Definition notify (w : Waiter) : Waiter :=
  match w with
  | WaitEnrolled fast _ => WaitEnrolled fast true
  | WaitSuspended fast _ => WaitSuspended fast true
  | w => w
  end.

Inductive action :=
| Begin (i : Z) (requested : ShutdownMode)
| LoadState (i : Z)
| RecordStart (i : Z) (now : Z)
| Exchange (i : Z)
| NotifyWaiters (i : Z)
| Wait (i : Z) (fast : bool)
| Enroll (i : Z)
| CheckMode (i : Z)
| Wake (i : Z).

Definition set_caller (i : Z) (c : Caller) (s : Shutdown) : Shutdown :=
  mkShutdown (state s) (started_at s) (<[i := c]> (callers s)) (waiters s) (returned s).
Definition finish (i : Z) (t : ShutdownTransition) (s : Shutdown) : Shutdown :=
  mkShutdown (state s) (started_at s) (delete i (callers s)) (waiters s) (t :: returned s).
Definition set_waiter (i : Z) (w : Waiter) (s : Shutdown) : Shutdown :=
  mkShutdown (state s) (started_at s) (callers s) (<[i := w]> (waiters s)) (returned s).

(** [begin_graceful] and [begin_fast]. *)
Definition target_of (requested : ShutdownMode) : Z := match requested with Graceful => 1 | Fast => 2 end.

(** The loop of [transition_to], one atomic operation at a time. *)
Definition load_state (i : Z) (target : Z) (s : Shutdown) : next Shutdown :=
  if target <=? state s
  then steps_or_panics (mode_from_state (state s)) (λ m, Steps (finish i (AlreadyStarted m) s))
  else Steps (set_caller i (if state s =? 0 then Loaded target (state s) else Recorded target (state s)) s).

(** [OnceLock::set] keeps the first value. *)
Definition record_start (i now target current : Z) (s : Shutdown) : Shutdown :=
  set_caller i (Recorded target current)
    (mkShutdown (state s) (match started_at s with Some t => Some t | None => Some now end)
       (callers s) (waiters s) (returned s)).

Definition exchange (i target current : Z) (s : Shutdown) : Shutdown :=
  if state s =? current
  then set_caller i (Exchanged target current)
         (mkShutdown target (started_at s) (callers s) (waiters s) (returned s))
  else set_caller i (AtTop target) s.

Definition notify_waiters (i target current : Z) (s : Shutdown) : next Shutdown :=
  steps_or_panics (exchanged current target) (λ t,
    Steps (finish i t (mkShutdown (state s) (started_at s) (callers s) (notify <$> waiters s) (returned s)))).

Definition exec (s : Shutdown) (a : action) : next Shutdown :=
  match a with
  | Begin i requested =>
      match callers s !! i with None => Steps (set_caller i (AtTop (target_of requested)) s) | _ => Disabled end
  | LoadState i =>
      match callers s !! i with Some (AtTop target) => load_state i target s | _ => Disabled end
  | RecordStart i now =>
      match callers s !! i with
      | Some (Loaded target current) => Steps (record_start i now target current s)
      | _ => Disabled
      end
  | Exchange i =>
      match callers s !! i with
      | Some (Recorded target current) => Steps (exchange i target current s)
      | _ => Disabled
      end
  | NotifyWaiters i =>
      match callers s !! i with
      | Some (Exchanged target current) => notify_waiters i target current s
      | _ => Disabled
      end
  | Wait i fast =>
      match waiters s !! i with None => Steps (set_waiter i (WaitTop fast) s) | _ => Disabled end
  | Enroll i =>
      match waiters s !! i with
      | Some (WaitTop fast) => Steps (set_waiter i (WaitEnrolled fast false) s)
      | _ => Disabled
      end
  | CheckMode i =>
      match waiters s !! i with
      | Some (WaitEnrolled fast notified) =>
          Steps (set_waiter i (if satisfied fast (state s) then WaitDone fast
                               else WaitSuspended fast notified) s)
      | _ => Disabled
      end
  | Wake i =>
      match waiters s !! i with
      | Some (WaitSuspended fast true) => Steps (set_waiter i (WaitTop fast) s)
      | _ => Disabled
      end
  end.

(** ** Invariant *)

(** The transitions taken so far, in the calls that returned them or are about to. *)
Definition pending (t : ShutdownTransition) (c : Caller) : Z :=
  match c with
  | Exchanged target current => if bool_decide (exchanged current target = Some t) then 1 else 0
  | _ => 0
  end.
Definition taken (t : ShutdownTransition) (s : Shutdown) : Z :=
  Z.of_nat (length (filter (λ x, x = t) (returned s))) + sum_map (pending t) (callers s).

Definition caller_ok (s : Shutdown) (c : Caller) : Prop :=
  match c with
  | AtTop target => 1 ≤ target ≤ 2
  | Loaded target current => 1 ≤ target ≤ 2 ∧ current = 0
  | Recorded target current => 1 ≤ target ≤ 2 ∧ 0 ≤ current < target ∧ is_Some (started_at s)
  | Exchanged target current => is_Some (exchanged current target)
  end.

(** Who still has to wake the waiters. *)
Definition notifying (s : Shutdown) : Prop :=
  ∃ i target current, callers s !! i = Some (Exchanged target current).

Definition waiter_ok (s : Shutdown) (w : Waiter) : Prop :=
  match w with
  | WaitSuspended fast false => satisfied fast (state s) = true → notifying s
  | WaitDone fast => satisfied fast (state s) = true
  | _ => True
  end.

(** How the mode came about. *)
Definition history (s : Shutdown) : Prop :=
  taken (Started Graceful) s + taken (Started Fast) s = (if state s =? 0 then 0 else 1) ∧
  taken EscalatedToFast s = (if (state s =? 2) then taken (Started Graceful) s else 0) ∧
  (state s = 1 → taken (Started Fast) s = 0).

Record shutdown_inv (s : Shutdown) : Prop := {
  sh_state : 0 ≤ state s ≤ 2;
  sh_started : state s ≠ 0 → is_Some (started_at s);
  sh_callers : map_Forall (λ _, caller_ok s) (callers s);
  sh_waiters : map_Forall (λ _, waiter_ok s) (waiters s);
  sh_history : history s
}.

Lemma taken_set_caller t i c s :
  taken t (set_caller i c s) =
  taken t s - match callers s !! i with Some c0 => pending t c0 | None => 0 end + pending t c.
Proof.
  unfold taken. simpl. destruct (callers s !! i) as [c0|] eqn:E.
  - rewrite (sum_map_update _ _ _ _ _ E). lia.
  - rewrite sum_map_insert_fresh by done. lia.
Qed.

Lemma taken_finish t i c x s :
  callers s !! i = Some c → taken t (finish i x s) = taken t s - pending t c + (if bool_decide (x = t) then 1 else 0).
Proof.
  intros Hi. unfold taken. simpl. rewrite (sum_map_delete _ _ _ _ Hi), filter_cons.
  case_decide as Hx; [rewrite bool_decide_true by done|rewrite bool_decide_false by done]; simpl; lia.
Qed.

Lemma taken_nonneg t s : 0 ≤ taken t s.
Proof.
  unfold taken. assert (0 ≤ sum_map (pending t) (callers s)); [|lia].
  apply sum_map_nonneg. intros ? []; simpl; try case_bool_decide; lia.
Qed.

Lemma notifying_set_caller i c s :
  notifying s → (∀ target current, callers s !! i ≠ Some (Exchanged target current)) →
  notifying (set_caller i c s).
Proof.
  intros (j & t & cur & Hj) Hne. exists j, t, cur. simpl. rewrite lookup_insert_ne; [done|]. intros ->. by eapply Hne.
Qed.

Lemma exchanged_Some current target : 1 ≤ target ≤ 2 → 0 ≤ current < target → is_Some (exchanged current target).
Proof.
  intros Ht Hc. assert ((current = 0 ∧ target = 1) ∨ (current = 0 ∧ target = 2) ∨ (current = 1 ∧ target = 2))
    as [[-> ->]|[[-> ->]|[-> ->]]] by lia; by eexists.
Qed.

(** A step that only moves caller [i], to a place where it has taken no transition. *)
Lemma move_caller_inv i c c0 s :
  shutdown_inv s → callers s !! i = c0 → (∀ target current, c0 ≠ Some (Exchanged target current)) →
  (∀ t, pending t c = 0) → caller_ok s c → shutdown_inv (set_caller i c s).
Proof.
  intros [Hst Hsa Hc Hw Hh] Hi Hne Hp Hok. split; [done|done| | |].
  - by apply map_Forall_insert_2.
  - intros j w Hj. pose proof (Hw j w Hj) as Hwj. destruct w as [|? []|? []|]; try done.
    intros Hs. apply notifying_set_caller; [by apply Hwj|]. by rewrite Hi.
  - unfold history. rewrite !taken_set_caller, !Hp. simpl.
    assert (∀ t, match callers s !! i with Some c1 => pending t c1 | None => 0 end = 0) as Hz.
    { intros t. rewrite Hi. destruct c0 as [[]|]; try done. by destruct (Hne target current). }
    rewrite !Hz, !Z.sub_0_r, !Z.add_0_r. done.
Qed.

Lemma caller_ok_started now s c :
  caller_ok s c → caller_ok (mkShutdown (state s) (match started_at s with Some t => Some t | None => Some now end)
    (callers s) (waiters s) (returned s)) c.
Proof. destruct c; simpl; try done. intros (? & ? & t & ->). eauto. Qed.

Lemma exchange_inv i target current s :
  shutdown_inv s → callers s !! i = Some (Recorded target current) → shutdown_inv (exchange i target current s).
Proof.
  intros Hinv Hi. pose proof Hinv as [Hst Hsa Hc Hw Hh]. destruct (Hc i _ Hi) as (Ht & Hcur & Hstart). unfold exchange.
  destruct (Z.eqb_spec (state s) current) as [Heq|Hne]; [|by eapply move_caller_inv].
  split; simpl; [lia|done| | |].
  - apply map_Forall_insert_2; [by apply exchanged_Some|]. intros j c Hj. pose proof (Hc j c Hj) as Hcj. by destruct c.
  - intros j w Hj. pose proof (Hw j w Hj) as Hwj. destruct w as [|? []|? []|fast]; try done.
    + intros _. exists i, target, current. apply lookup_insert_eq.
    + simpl in *. unfold satisfied, mode_of in *. rewrite Heq in Hwj.
      assert ((current = 0 ∧ target = 1) ∨ (current = 0 ∧ target = 2) ∨ (current = 1 ∧ target = 2))
        as [[-> ->]|[[-> ->]|[-> ->]]] by lia; done.
  - unfold history in *. rewrite !taken_set_caller. cbn [callers state]. rewrite Hi.
    set (s1 := mkShutdown target _ _ _ _). assert (∀ t, taken t s1 = taken t s) as Hsame by done. rewrite !Hsame.
    pose proof (taken_nonneg (Started Graceful) s). pose proof (taken_nonneg (Started Fast) s).
    assert ((current = 0 ∧ target = 1) ∨ (current = 0 ∧ target = 2) ∨ (current = 1 ∧ target = 2))
      as [[-> ->]|[[-> ->]|[-> ->]]] by lia; rewrite Heq in Hh; simpl in Hh; destruct Hh as (H1 & H2 & H3);
      cbn [pending exchanged]; simpl;
      repeat (rewrite bool_decide_true by done || rewrite bool_decide_false by done); lia.
Qed.

Lemma notify_waiters_ok i target current s :
  shutdown_inv s → callers s !! i = Some (Exchanged target current) →
  ∃ s', notify_waiters i target current s = Steps s' ∧ shutdown_inv s'.
Proof.
  intros [Hst Hsa Hc Hw Hh] Hi. destruct (Hc i _ Hi) as [t Ht]. unfold notify_waiters. rewrite Ht. simpl.
  eexists. split; [done|]. split; simpl; [done|done| | |].
  - apply map_Forall_delete. intros j c Hj. pose proof (Hc j c Hj) as Hcj. by destruct c.
  - intros j w Hj. apply lookup_fmap_Some in Hj as (w0 & <- & Hj). pose proof (Hw j w0 Hj) as Hwj. by destruct w0.
  - unfold history in *. set (s1 := mkShutdown (state s) (started_at s) (callers s) (notify <$> waiters s) (returned s)).
    assert (∀ u, taken u (finish i t s1) = taken u s) as Hsame.
    { intros u. rewrite (taken_finish _ i (Exchanged target current)) by done. unfold pending. rewrite Ht.
      change (taken u s1) with (taken u s). destruct (decide (t = u)) as [->|Hne].
      - rewrite !bool_decide_true by done. lia.
      - rewrite !bool_decide_false by congruence. lia. }
    rewrite !Hsame. done.
Qed.

Lemma set_waiter_inv i w s :
  shutdown_inv s → waiter_ok s w → shutdown_inv (set_waiter i w s).
Proof.
  intros [Hst Hsa Hc Hw Hh] Hok. split; try done. by apply map_Forall_insert_2.
Qed.

Lemma shutdown_exec_ok s a :
  shutdown_inv s → match exec s a with Steps s' => shutdown_inv s' | Disabled => True | Panics => False end.
Proof.
  intros Hinv. pose proof Hinv as [Hst Hsa Hc Hw Hh]. destruct a as [i m|i|i now|i|i|i fast|i|i|i]; cbn [exec].
  all: lazymatch goal with
       | |- context [callers ?x !! ?j] => destruct (callers x !! j) as [c|] eqn:Hi
       | |- context [waiters ?x !! ?j] => destruct (waiters x !! j) as [w|] eqn:Hi
       end; try done.
  - eapply move_caller_inv; try done. by destruct m.
  - destruct c as [target|target current|target current|target current]; try done. pose proof (Hc i _ Hi) as Ht. simpl in Ht.
    unfold load_state. destruct (Z.leb_spec target (state s)).
    + assert (∃ m, mode_from_state (state s) = Some m) as [m ->].
      { assert (state s = 1 ∨ state s = 2) as [-> | ->] by lia; by eexists. }
      simpl. split; simpl; [done|done|by apply map_Forall_delete| |].
      * intros j w Hj. pose proof (Hw j w Hj) as Hwj. destruct w as [|? []|? []|]; try done.
        intros Hs. destruct (Hwj Hs) as (k & t & cur & Hk). exists k, t, cur. simpl.
        rewrite lookup_delete_ne; [done|]. congruence.
      * unfold history. rewrite !(taken_finish _ i (AtTop target)) by done. simpl.
        rewrite !Z.sub_0_r, !Z.add_0_r. done.
    + eapply move_caller_inv; [done|done|done|by destruct (state s =? 0)|].
      destruct (Z.eqb_spec (state s) 0); simpl; [lia|]. split_and!; [lia..|by apply Hsa].
  - destruct c as [target|target current|target current|target current]; try done. destruct (Hc i _ Hi) as [Ht ->].
    eapply (move_caller_inv _ _ _ (mkShutdown (state s) _ (callers s) (waiters s) (returned s))); try done.
    + split; simpl; try done; [by destruct (started_at s)|].
      intros j c Hj. apply caller_ok_started. by eapply Hc.
    + simpl. split_and!; [lia..|]. by destruct (started_at s).
  - destruct c as [target|target current|target current|target current]; try done. by apply exchange_inv.
  - destruct c as [target|target current|target current|target current]; try done.
    by destruct (notify_waiters_ok _ _ _ _ Hinv Hi) as (s' & -> & ?).
  - by apply set_waiter_inv.
  - destruct w; try done. by apply set_waiter_inv.
  - destruct w as [|fast notified| |]; try done. apply set_waiter_inv; [done|].
    destruct (satisfied fast (state s)) eqn:Es; [done|]. destruct notified; [done|]. simpl. by rewrite Es.
  - destruct w as [| |fast []|]; try done. by apply set_waiter_inv.
Qed.

Lemma shutdown_reachable_inv acts s : run_actions exec init acts = Some s → shutdown_inv s.
Proof.
  apply (run_actions_invariant exec shutdown_inv).
  - intros s0 a s' Hinv Hx. pose proof (shutdown_exec_ok s0 a Hinv) as Hok. by rewrite Hx in Hok.
  - by split; try apply map_Forall_empty.
Qed.

(** ** Properties of interleavings *)

(** The mode only rises and the start, once recorded, stands. *)
Definition later (s s' : Shutdown) : Prop :=
  state s ≤ state s' ∧ ∀ t, started_at s = Some t → started_at s' = Some t.

Lemma exec_later s a s' : shutdown_inv s → exec s a = Steps s' → later s s'.
Proof.
  intros [Hst Hsa Hc Hw Hh] Hx. destruct a as [i m|i|i now|i|i|i fast|i|i|i]; cbn [exec] in Hx;
    (lazymatch type of Hx with
     | context [callers ?x !! ?j] => destruct (callers x !! j) as [[]|] eqn:Hi
     | context [waiters ?x !! ?j] => destruct (waiters x !! j) as [[]|] eqn:Hi
     end; try done; simplify_eq/=; try done).
  - unfold load_state in Hx. destruct (target <=? state s); [|by simplify_eq/=].
    destruct (mode_from_state (state s)); by simplify_eq/=.
  - split; simpl; [done|]. by intros t ->.
  - destruct (Hc i _ Hi) as (? & ? & ?). unfold exchange. destruct (Z.eqb_spec (state s) current); [|done].
    split; simpl; [lia|done].
  - unfold notify_waiters in Hx. by destruct (exchanged current target); simplify_eq/=.
  - by destruct notified; simplify_eq/=.
Qed.

Lemma run_later acts s s' :
  shutdown_inv s → run_actions exec s acts = Some s' → later s s' ∧ shutdown_inv s'.
Proof.
  intros Hinv. apply (run_actions_invariant exec (λ x, later s x ∧ shutdown_inv x)); [|done].
  intros x a y [[Hl1 Hl2] Hix] Hx. pose proof (exec_later x a y Hix Hx) as [Hl3 Hl4].
  pose proof (shutdown_exec_ok x a Hix) as Hok. rewrite Hx in Hok. split; [|done]. split; [lia|auto].
Qed.

(** Two callers race to start, a waiter suspends in between. *)
Definition demo_actions : list action :=
  [Wait 9 true; Begin 0 Graceful; LoadState 0; Begin 1 Fast; LoadState 1; RecordStart 1 50;
   RecordStart 0 70; Exchange 0; NotifyWaiters 0; Enroll 9; CheckMode 9; Exchange 1; LoadState 1;
   Exchange 1; NotifyWaiters 1; Wake 9].
Definition demo : Shutdown := default init (run_actions exec init demo_actions).

(** ** Properties *)

(** Shutdown starts once.  However callers race, no [unreachable!] is reached; exactly
    one call is told that it started the shutdown, at most one that it escalated it; the
    start is recorded before a mode is visible; and afterwards the mode never falls and the
    graceful deadline never moves. *)
Theorem shutdown_starts_once acts s d :
  run_actions exec init acts = Some s →
  (∀ a, exec s a ≠ Panics) ∧
  taken (Started Graceful) s + taken (Started Fast) s = match mode s with Some _ => 1 | None => 0 end ∧
  0 ≤ taken EscalatedToFast s ≤ taken (Started Graceful) s ∧
  (mode s ≠ None → is_Some (graceful_deadline d s)) ∧
  ∀ acts' s', run_actions exec s acts' = Some s' →
    state s ≤ state s' ∧ ∀ t, graceful_deadline d s = Some t → graceful_deadline d s' = Some t.
Proof.
  intros Hr. pose proof (shutdown_reachable_inv acts s Hr) as Hinv. pose proof Hinv as [Hst Hsa Hc Hw (H1 & H2 & H3)].
  split_and!.
  - intros a Ha. pose proof (shutdown_exec_ok s a Hinv) as Hok. by rewrite Ha in Hok.
  - rewrite H1. unfold mode, mode_of. destruct (Z.eqb_spec (state s) 0) as [->|]; [done|].
    assert (state s = 1 ∨ state s = 2) as [-> | ->] by lia; done.
  - apply taken_nonneg.
  - rewrite H2. pose proof (taken_nonneg (Started Graceful) s). destruct (state s =? 2); lia.
  - intros Hm. unfold graceful_deadline. assert (state s ≠ 0) as Hne by (intros Hz; apply Hm; unfold mode; by rewrite Hz).
    destruct (Hsa Hne) as [t ->]. by eexists.
  - intros acts' s' Hr'. destruct (run_later acts' s s' Hinv Hr') as [[Hl1 Hl2] _]. split; [done|].
    intros t. unfold graceful_deadline. destruct (started_at s) as [t0|] eqn:E; [|done]. by rewrite (Hl2 t0).
Qed.

Lemma shutdown_starts_once_witness :
  taken (Started Graceful) demo + taken (Started Fast) demo = 1 ∧ graceful_deadline 10 demo = Some 60.
Proof.
  assert (run_actions exec init demo_actions = Some demo) as Hr by (vm_compute; reflexivity).
  destruct (shutdown_starts_once demo_actions demo 10 Hr) as (_ & -> & _). split; vm_compute; reflexivity.
Defined.

(** No shutdown is missed.  A task suspended in [wait_started] or [wait_for_fast] whose
    condition holds has been woken, or a caller is about to wake it; a task that returned
    saw its condition, which still holds. *)
Theorem shutdown_wakes_waiters acts s i w :
  run_actions exec init acts = Some s → waiters s !! i = Some w →
  match w with
  | WaitSuspended fast notified =>
      satisfied fast (state s) = true → notified = true ∨
      ∃ j target current, callers s !! j = Some (Exchanged target current)
  | WaitDone fast => satisfied fast (state s) = true
  | _ => True
  end.
Proof.
  intros Hr Hw. destruct (shutdown_reachable_inv acts s Hr) as [_ _ _ Hws _]. specialize (Hws i w Hw).
  destruct w as [|? []|? []|]; try done; [by left|]. intros Hs. right. by apply Hws.
Qed.

Lemma shutdown_wakes_waiters_witness :
  ∃ w, waiters (default init (run_actions exec init (take 14 demo_actions))) !! 9 = Some w ∧
    w = WaitSuspended true false ∧ (false = true ∨
    ∃ j target current, callers (default init (run_actions exec init (take 14 demo_actions))) !! j
      = Some (Exchanged target current)).
Proof.
  exists (WaitSuspended true false). split; [vm_compute; reflexivity|]. split; [reflexivity|].
  pose proof (shutdown_wakes_waiters (take 14 demo_actions)
                (default init (run_actions exec init (take 14 demo_actions))) 9 (WaitSuspended true false)) as Hw.
  apply Hw; vm_compute; reflexivity.
Defined.
