(* ===== verification/Assignment.v ===== *)
(** * Assignment: the Client's services and the convergence of its assignment

    [Service] models the selection of the backend service for a hostname
    ([src/client/service.rs]); [Convergence] the tracker of assigned, connected and
    credit-carrying Server addresses ([src/client/assignment_convergence.rs]). *)

From Stdlib Require Import Ascii ZArith Lia.
From stdpp Require Import base strings numbers gmap sorting list.
From S2P Require Import Prelude Names.
Import Address.

Open Scope Z_scope.

(** ** Services *)

Module Service.

Inductive ClientTlsMode := Passthrough | Terminate.
Inductive ProxyProtocolVersion := V2.

Record ServiceConfig := mkService {
  public_hostnames : option (list bytes);
  backend_address : bytes;
  tls_mode : ClientTlsMode;
  proxy_protocol : option ProxyProtocolVersion
}.

Inductive ClientServiceValidationError :=
| CatchAllRequiresSingleService
| EmptyPublicHostnameList
| DuplicatePublicHostname (hostname : bytes).

(** [hostnames.iter().any(|hostname| hostname == public_hostname)]. *)
Definition lists (public_hostname : bytes) (service : ServiceConfig) : bool :=
  match public_hostnames service with
  | Some hostnames => existsb (λ h, bool_decide (h = public_hostname)) hostnames
  | None => false
  end.

Definition select (services : list ServiceConfig) (public_hostname : bytes) : option ServiceConfig :=
  match services with
  | [service] =>
      match public_hostnames service with
      | None => Some service
      | Some _ => List.find (lists public_hostname) services
      end
  | _ => List.find (lists public_hostname) services
  end.

(** The inner loop: the hostnames seen so far and the copy being built. *)
Definition validate_hostname (acc : gset bytes * list bytes) (hostname : bytes) :
    result ClientServiceValidationError (gset bytes * list bytes) :=
  let '(seen, normalized) := acc in
  if bool_decide (hostname ∈ seen) then Err (DuplicatePublicHostname hostname)
  else Ok ({[hostname]} ∪ seen, normalized ++ [hostname]).

Definition validate_service (multiple_services : bool) (acc : gset bytes * list ServiceConfig)
    (service : ServiceConfig) : result ClientServiceValidationError (gset bytes * list ServiceConfig) :=
  let '(seen, validated) := acc in
  '(seen, hostnames) ←
    match public_hostnames service with
    | Some hostnames =>
        if bool_decide (hostnames = []) then Err EmptyPublicHostnameList
        else '(seen, normalized) ← try_fold validate_hostname (seen, []) hostnames; Ok (seen, Some normalized)
    | None => if multiple_services then Err CatchAllRequiresSingleService else Ok (seen, None)
    end;
  Ok (seen, validated ++ [mkService hostnames (backend_address service) (tls_mode service) (proxy_protocol service)]).

Definition validate_services (services : list ServiceConfig) :
    result ClientServiceValidationError (list ServiceConfig) :=
  let multiple_services := 1 <? len services in
  '(_, validated) ← try_fold (validate_service multiple_services) (∅, []) services;
  Ok validated.

Ltac sets := rewrite ?list_to_set_cons, ?list_to_set_app_L, ?list_to_set_nil; try apply set_eq; intros;
  repeat (rewrite elem_of_union in * || rewrite elem_of_singleton in * || rewrite elem_of_empty in * ||
          rewrite elem_of_list_to_set in *); tauto.

(** *** Specification: which service serves a hostname *)

Definition serves (hostname : bytes) (service : ServiceConfig) : Prop :=
  match public_hostnames service with Some hostnames => hostname ∈ hostnames | None => True end.

Definition hostnames_of (service : ServiceConfig) : list bytes := default [] (public_hostnames service).

Lemma lists_true h s : lists h s = true ↔ ∃ hs, public_hostnames s = Some hs ∧ h ∈ hs.
Proof.
  unfold lists. destruct (public_hostnames s) as [hs|].
  - rewrite existsb_exists. split.
    + intros (x & Hx & ->%bool_decide_eq_true). exists hs. by rewrite list_elem_of_In.
    + intros (? & [= <-] & Hin). exists h. rewrite <- list_elem_of_In. by rewrite bool_decide_true.
  - split; [done|by intros (? & ? & ?)].
Qed.

Lemma validate_hostnames_Ok hs seen acc seen' acc' :
  try_fold validate_hostname (seen, acc) hs = Ok (seen', acc') ↔
  NoDup hs ∧ (∀ h, h ∈ hs → h ∉ seen) ∧ seen' = list_to_set hs ∪ seen ∧ acc' = acc ++ hs.
Proof.
  revert seen acc. induction hs as [|h hs IH]; intros seen acc; cbn [try_fold validate_hostname].
  - split.
    + intros [= -> ->]. split_and!; [constructor|by intros ? ?%elem_of_nil|sets|by rewrite app_nil_r].
    + intros (_ & _ & -> & ->). rewrite app_nil_r. do 2 f_equal. sets.
  - case_bool_decide as Hin; cbn [mbind result_bind].
    + split; [done|]. intros (_ & Hs & _). destruct (Hs h); [by left|done].
    + rewrite IH, NoDup_cons. rewrite <- app_assoc. simpl. split.
      * intros (Hnd & Hs & -> & ->). split_and!; [|done| |sets|done].
        -- intros Hh. specialize (Hs h Hh). sets.
        -- intros x [->|Hx]%elem_of_cons; [done|]. specialize (Hs x Hx). sets.
      * intros ([Hnh Hnd] & Hs & -> & ->). split_and!; [done| |sets|done].
        intros x Hx. assert (x ≠ h) by congruence. assert (x ∉ seen) by (apply Hs; by right). sets.
Qed.

(** What one iteration of the outer loop requires of a service. *)
Definition acceptable (multiple : bool) (s : ServiceConfig) : Prop :=
  match public_hostnames s with Some hs => hs ≠ [] | None => multiple = false end.

Lemma validate_service_Ok multiple seen acc s seen' acc' :
  validate_service multiple (seen, acc) s = Ok (seen', acc') ↔
  acceptable multiple s ∧ NoDup (hostnames_of s) ∧ (∀ h, h ∈ hostnames_of s → h ∉ seen) ∧
  seen' = list_to_set (hostnames_of s) ∪ seen ∧ acc' = acc ++ [s].
Proof.
  destruct s as [[hs|] b t p]; unfold validate_service, acceptable, hostnames_of; simpl.
  - case_bool_decide as Hne; simpl; [split; [done|by intros (? & _)]|].
    destruct (try_fold validate_hostname (seen, []) hs) as [[seen1 n]|e] eqn:E; simpl.
    + apply validate_hostnames_Ok in E as (Hnd & Hs & -> & ->). split; [intros [= <- <-]; by split_and!|].
      by intros (_ & _ & _ & -> & ->).
    + split; [done|]. intros (_ & Hnd & Hs & _).
      assert (try_fold validate_hostname (seen, []) hs = Ok (list_to_set hs ∪ seen, hs)) as Hx.
      { apply validate_hostnames_Ok. by split_and!. }
      congruence.
  - destruct multiple; simpl; [split; [done|by intros (? & _)]|]. split.
    + intros [= <- <-]. split_and!; [done|constructor|by intros ? ?%elem_of_nil|sets|done].
    + intros (_ & _ & _ & -> & ->). do 2 f_equal. sets.
Qed.

Lemma validate_loop_Ok multiple ss seen acc r :
  try_fold (validate_service multiple) (seen, acc) ss = Ok r ↔
  Forall (acceptable multiple) ss ∧ NoDup (ss ≫= hostnames_of) ∧ (∀ h, h ∈ ss ≫= hostnames_of → h ∉ seen) ∧
  r = (list_to_set (ss ≫= hostnames_of) ∪ seen, acc ++ ss).
Proof.
  revert seen acc. induction ss as [|s ss IH]; intros seen acc; cbn [try_fold].
  - rewrite app_nil_r. simpl. split.
    + intros [= <-]. split_and!; [constructor|constructor|by intros ? ?%elem_of_nil|f_equal; sets].
    + intros (_ & _ & _ & ->). do 2 f_equal. sets.
  - rewrite Forall_cons, bind_cons, NoDup_app. split.
    + intros H. destruct (validate_service multiple (seen, acc) s) as [[seen1 acc1]|e] eqn:E;
        cbn [mbind result_bind] in H; [|done].
      apply validate_service_Ok in E as (Ha & Hnd & Hs & -> & ->).
      apply IH in H as (Hf & Hnd' & Hs' & ->). split; [done|]. split; [split_and!; [done| |done]|split].
      * intros h Hh Hh'. specialize (Hs' h Hh'). sets.
      * intros h [Hh|Hh]%elem_of_app; [by apply Hs|]. specialize (Hs' h Hh). sets.
      * rewrite <- app_assoc. f_equal. sets.
    + intros ([Ha Hf] & (Hnd & Hdis & Hnd') & Hs & ->).
      rewrite (proj2 (validate_service_Ok multiple seen acc s (list_to_set (hostnames_of s) ∪ seen) (acc ++ [s]))).
      2: { split_and!; [done|done| |done|done]. intros h Hh. apply Hs. apply elem_of_app. by left. }
      cbn [mbind result_bind]. apply IH. split_and!; [done|done| |].
      * intros h Hh. assert (h ∉ seen) by (apply Hs; apply elem_of_app; by right).
        assert (h ∉ hostnames_of s) by (intros ?; by eapply Hdis). sets.
      * rewrite <- app_assoc. f_equal. sets.
Qed.

Lemma validate_services_Ok services v :
  validate_services services = Ok v ↔
  Forall (acceptable (1 <? len services)) services ∧ NoDup (services ≫= hostnames_of) ∧ v = services.
Proof.
  unfold validate_services.
  destruct (try_fold (validate_service (1 <? len services)) (∅, []) services) as [r|e] eqn:E.
  - apply validate_loop_Ok in E as (Hf & Hnd & _ & ->). cbn [mbind result_bind].
    split; [intros [= <-]; by split_and!|by intros (_ & _ & ->)].
  - split; [done|]. intros (Hf & Hnd & _). exfalso.
    rewrite (proj2 (validate_loop_Ok _ _ _ _ (list_to_set (services ≫= hostnames_of) ∪ ∅, [] ++ services))) in E;
      [done|].
    split_and!; [done|done| |done]. intros h _. apply not_elem_of_empty.
Qed.

Lemma find_lists ss h s :
  NoDup (ss ≫= hostnames_of) → (List.find (lists h) ss = Some s ↔ s ∈ ss ∧ lists h s = true).
Proof.
  induction ss as [|s0 ss IH]; intros Hnd; simpl; [split; [done|by intros [?%elem_of_nil ?]]|].
  rewrite bind_cons in Hnd. apply NoDup_app in Hnd as (_ & Hdis & Hnd). destruct (lists h s0) eqn:E0.
  - split; [intros [= <-]; split; [by left|done]|]. intros [[->|Hin]%elem_of_cons Hl]; [done|].
    apply lists_true in E0 as (hs0 & E0 & Hh0). apply lists_true in Hl as (hs & E & Hh).
    exfalso. apply (Hdis h); [unfold hostnames_of; by rewrite E0|].
    apply list_elem_of_bind. exists s. split; [unfold hostnames_of; by rewrite E|done].
  - rewrite IH by done. rewrite elem_of_cons. split; [tauto|]. intros [[->|?] ?]; [congruence|done].
Qed.

End Service.

(** ** Assignment convergence *)

Module Convergence.

Inductive AssignmentConvergence := Unconverged | PartiallyConverged | Converged.

#[export] Instance AssignmentConvergence_eq_dec : EqDecision AssignmentConvergence.
Proof. solve_decision. Defined.

Definition from_counts (assigned connected : nat) : AssignmentConvergence :=
  if (assigned =? 0)%nat then Converged
  else if (connected =? 0)%nat then Unconverged
  else if (assigned <=? connected)%nat then Converged
  else PartiallyConverged.

(** [Ord] for [String]: lexicographic by bytes. *)
Fixpoint string_leb (a b : bytes) : bool :=
  match a, b with
  | [], _ => true
  | _ :: _, [] => false
  | x :: a', y :: b' =>
      if u8_val x <? u8_val y then true else if u8_val y <? u8_val x then false else string_leb a' b'
  end.
Definition string_le (a b : bytes) : Prop := string_leb a b = true.

#[export] Instance string_le_dec : RelDecision string_le.
Proof. unfold RelDecision, string_le. intros. apply _. Defined.

Section Tracker.
Context {G : Type} (display : G → bytes).

Record ConvergenceState := mkConvergence {
  assigned : gset ServerAddress;
  connected : gset ServerAddress;
  carrying_credit : gmap ServerAddress (list (Z * G));
  next_connection : Z
}.

Definition new : ConvergenceState := mkConvergence ∅ ∅ ∅ 0.

Definition assigned_connected_count (s : ConvergenceState) : nat :=
  length (List.filter (λ a, bool_decide (a ∈ assigned s)) (elements (connected s))).

Definition current (s : ConvergenceState) : AssignmentConvergence :=
  from_counts (size (assigned s)) (assigned_connected_count s).

(** [(next != previous).then_some(next)]. *)
Definition changed (previous next : AssignmentConvergence) : option AssignmentConvergence :=
  if bool_decide (next ≠ previous) then Some next else None.

Definition set_assigned (addresses : list ServerAddress) (s : ConvergenceState) :
    ConvergenceState * option AssignmentConvergence :=
  let s' := mkConvergence (list_to_set addresses) (connected s) (carrying_credit s) (next_connection s) in
  (s', changed (current s) (current s')).

Definition mark_connected (address : ServerAddress) (s : ConvergenceState) :
    ConvergenceState * option AssignmentConvergence :=
  let s' := mkConvergence (assigned s) ({[address]} ∪ connected s) (carrying_credit s) (next_connection s) in
  (s', changed (current s) (current s')).

Definition mark_disconnected (address : ServerAddress) (s : ConvergenceState) :
    ConvergenceState * option AssignmentConvergence :=
  if bool_decide (address ∈ connected s) then
    let s' := mkConvergence (assigned s) (connected s ∖ {[address]}) (carrying_credit s) (next_connection s) in
    (s', changed (current s) (current s'))
  else (s, None).

(** Returns the token of the guard. *)
Definition start_carrying (address : ServerAddress) (generation : G) (s : ConvergenceState) :
    ConvergenceState * Z :=
  let token := next_connection s in
  (mkConvergence (assigned s) (connected s)
     (<[address := default [] (carrying_credit s !! address) ++ [(token, generation)]]> (carrying_credit s))
     (wrapping_add 64 token 1), token).

(** [Drop for CarryingCredit]. *)
Definition drop_carrying (address : ServerAddress) (token : Z) (s : ConvergenceState) : ConvergenceState :=
  match carrying_credit s !! address with
  | Some connections =>
      let connections := List.filter (λ c, negb (c.1 =? token)) connections in
      mkConvergence (assigned s) (connected s)
        (if bool_decide (connections = []) then delete address (carrying_credit s)
         else <[address := connections]> (carrying_credit s))
        (next_connection s)
  | None => s
  end.

Definition reported_servers (s : ConvergenceState) : gmap bytes (list bytes) :=
  list_to_map ((λ address,
    (ServerAddress_render address,
     merge_sort string_le (display ∘ snd <$> default [] (carrying_credit s !! address)))) <$> elements (assigned s)).

End Tracker.
Arguments ConvergenceState : clear implicits.

(** *** Lemmas *)

#[export] Instance string_le_trans : Transitive string_le.
Proof.
  unfold string_le. intros a. induction a as [|x a IH]; intros [|y b] [|z c]; simpl; try done.
  destruct (Z.ltb_spec (u8_val x) (u8_val y)), (Z.ltb_spec (u8_val y) (u8_val x)),
    (Z.ltb_spec (u8_val y) (u8_val z)), (Z.ltb_spec (u8_val z) (u8_val y)),
    (Z.ltb_spec (u8_val x) (u8_val z)), (Z.ltb_spec (u8_val z) (u8_val x)); try done; try lia. apply IH.
Qed.

#[export] Instance string_le_total : Total string_le.
Proof.
  unfold Total, string_le. intros a. induction a as [|x a IH]; intros [|y b]; simpl; auto.
  destruct (Z.ltb_spec (u8_val x) (u8_val y)), (Z.ltb_spec (u8_val y) (u8_val x)); auto.
Qed.

Lemma assigned_connected_size {G} (s : ConvergenceState G) :
  assigned_connected_count s = size (assigned s ∩ connected s).
Proof.
  unfold assigned_connected_count. set (l := List.filter _ _).
  assert (NoDup l) as Hnd.
  { unfold l. apply NoDup_ListNoDup, List.NoDup_filter, NoDup_ListNoDup, NoDup_elements. }
  rewrite <- (size_list_to_set (C := gset ServerAddress) l Hnd). f_equal. apply set_eq. intros a.
  rewrite elem_of_list_to_set, elem_of_intersection. unfold l.
  rewrite list_elem_of_In, filter_In, <- list_elem_of_In, elem_of_elements, bool_decide_eq_true. tauto.
Qed.

(** The aggregate, in terms of the sets. *)
Lemma current_spec {G} (s : ConvergenceState G) :
  (current s = Converged ↔ assigned s ⊆ connected s) ∧
  (current s = Unconverged ↔ assigned s ≠ ∅ ∧ assigned s ∩ connected s = ∅).
Proof.
  unfold current, from_counts. rewrite assigned_connected_size.
  assert (assigned s ∩ connected s ⊆ assigned s) as Hsub by (intros x; rewrite elem_of_intersection; tauto).
  pose proof (subseteq_size _ _ Hsub) as Hle.
  destruct (Nat.eqb_spec (size (assigned s)) 0) as [H0|H0].
  { apply size_empty_inv, leibniz_equiv_iff in H0. rewrite H0. split.
    - split; [|done]. intros _ x Hx. by apply elem_of_empty in Hx.
    - split; [done|]. by intros [? _]. }
  assert (assigned s ≠ ∅) as Hne by (intros Hz; apply H0; by rewrite Hz).
  assert (assigned s ⊆ connected s ↔ size (assigned s) ≤ size (assigned s ∩ connected s))%nat as Hiff.
  { split.
    - intros Hs. apply subseteq_size. intros x Hx. apply elem_of_intersection. auto.
    - intros Hge x Hx. assert (assigned s ∩ connected s = assigned s) as Heq.
      { apply leibniz_equiv. by apply set_subseteq_size_equiv. }
      rewrite <- Heq in Hx. by apply elem_of_intersection in Hx as [_ ?]. }
  rewrite Hiff. destruct (Nat.eqb_spec (size (assigned s ∩ connected s)) 0) as [H1|H1].
  { split; [split; [done|lia]|]. split; [|done]. intros _. split; [done|].
    by apply size_empty_inv, leibniz_equiv_iff in H1. }
  assert (assigned s ∩ connected s ≠ ∅) as Hne' by (intros Hz; apply H1; by rewrite Hz).
  destruct (Nat.leb_spec (size (assigned s)) (size (assigned s ∩ connected s))) as [H2|H2].
  - split; [done|]. split; [done|]. by intros [_ ?].
  - split; [split; [done|lia]|]. split; [done|]. by intros [_ ?].
Qed.

End Convergence.
Import Convergence.

(** ** Properties *)

(** Services are selected without ambiguity.  A list of services is accepted exactly
    when catch-all services are alone, no hostname list is empty and no hostname is listed
    twice; it is kept as it is; and the service selected for a hostname is then the one
    service that serves it. *)
Theorem service_selection_exact services :
  (Service.validate_services services = Ok services ↔
     Forall (Service.acceptable (1 <? len services)) services ∧ NoDup (services ≫= Service.hostnames_of)) ∧
  (∀ validated, Service.validate_services services = Ok validated →
     validated = services ∧
     ∀ h s, Service.select validated h = Some s ↔ s ∈ validated ∧ Service.serves h s).
Proof.
  split; [rewrite Service.validate_services_Ok; tauto|].
  intros validated (Hf & Hnd & ->)%Service.validate_services_Ok. split; [done|]. intros h s.
  assert (∀ x, x ∈ services → Service.serves h x →
    Service.lists h x = true ∨ services = [x] ∧ Service.public_hostnames x = None) as Hserve.
  { intros x Hx Hs. rewrite Forall_forall in Hf. specialize (Hf x Hx). unfold Service.serves, Service.acceptable in *.
    destruct (Service.public_hostnames x) as [hs|] eqn:E; [left; apply Service.lists_true; eauto|]. right. split; [|done].
    destruct services as [|y [|z services]]; [by apply elem_of_nil in Hx|by apply list_elem_of_singleton in Hx as ->|].
    rewrite !len_cons in Hf. pose proof (len_nonneg services). destruct (Z.ltb_spec 1 (1 + (1 + len services))); [done|lia]. }
  assert (∀ x, Service.lists h x = true → Service.serves h x) as Hlist.
  { intros x (hs & E & Hh)%Service.lists_true. unfold Service.serves. by rewrite E. }
  assert ((∃ x, services = [x] ∧ Service.public_hostnames x = None) ∨
    Service.select services h = List.find (Service.lists h) services ∧
    ∀ x, services = [x] → Service.public_hostnames x ≠ None) as [(x & -> & Hx)|[-> Hno]].
  { destruct services as [|x [|y services]]; [by right|simpl|by right].
    destruct (Service.public_hostnames x) eqn:E; [right|by left; eauto]. split; [done|]. intros ? [= <-]. congruence. }
  - simpl. rewrite Hx, list_elem_of_singleton. unfold Service.serves.
    split; [intros [= <-]; by rewrite Hx|by intros [-> _]].
  - rewrite Service.find_lists by done. split; intros [Hin Hs]; (split; [done|]); [auto|].
    destruct (Hserve s Hin Hs) as [?|[? ?]]; [done|]. by destruct (Hno s).
Qed.

Lemma service_selection_exact_witness :
  Service.select [Service.mkService None (bs "127.0.0.1:80") Service.Passthrough None] (bs "a.example") =
  Some (Service.mkService None (bs "127.0.0.1:80") Service.Passthrough None).
Proof.
  destruct (service_selection_exact [Service.mkService None (bs "127.0.0.1:80") Service.Passthrough None])
    as (_ & Hsel).
  destruct (Hsel [Service.mkService None (bs "127.0.0.1:80") Service.Passthrough None]) as (_ & Hs);
    [vm_compute; reflexivity|]. apply Hs. split; [by left|done].
Defined.

Lemma reported_servers_lookup {G} (display : G → bytes) (s : Convergence.ConvergenceState G) key generations :
  (∀ a, a ∈ Convergence.assigned s → 0 ≤ sa_port a ≤ u16_max) →
  Convergence.reported_servers display s !! key = Some generations ↔
  ∃ a, a ∈ Convergence.assigned s ∧ key = ServerAddress_render a ∧
    generations = merge_sort Convergence.string_le (display ∘ snd <$> default [] (Convergence.carrying_credit s !! a)).
Proof.
  intros Hport. unfold Convergence.reported_servers. rewrite <- elem_of_list_to_map.
  - rewrite list_elem_of_fmap. split.
    + intros (a & [= -> ->] & Ha). apply elem_of_elements in Ha. by exists a.
    + intros (a & Ha & -> & ->). exists a. split; [done|]. by apply elem_of_elements.
  - rewrite <- list_fmap_compose. apply NoDup_fmap_2_strong; [|apply NoDup_elements].
    intros a b Ha%elem_of_elements Hb%elem_of_elements. simpl. by apply ServerAddress_render_inj; apply Hport.
Qed.

(** The Managed state document of a Client lists exactly the assigned addresses, each
    with the sorted generations of the connections that carry credit for it, and nothing of
    retiring addresses. *)
Theorem reported_servers_exact {G} (display : G → bytes) (s : Convergence.ConvergenceState G) key generations :
  (∀ a, a ∈ Convergence.assigned s → 0 ≤ sa_port a ≤ u16_max) →
  Convergence.reported_servers display s !! key = Some generations ↔
  ∃ a, a ∈ Convergence.assigned s ∧ key = ServerAddress_render a ∧
    generations ≡ₚ (display ∘ snd <$> default [] (Convergence.carrying_credit s !! a)) ∧
    Sorted Convergence.string_le generations ∧
    generations = merge_sort Convergence.string_le (display ∘ snd <$> default [] (Convergence.carrying_credit s !! a)).
Proof.
  intros Hport. rewrite reported_servers_lookup by done. split.
  - intros (a & Ha & -> & ->). exists a. split_and!; [done|done|apply merge_sort_Permutation| |done].
    apply Sorted_merge_sort. apply _.
  - intros (a & Ha & -> & _ & _ & ->). by exists a.
Qed.

Lemma reported_servers_exact_witness :
  Convergence.reported_servers (λ g : bytes, g)
    (Convergence.mkConvergence {[mkServerAddress (bs "a.example") 443]} ∅
       {[mkServerAddress (bs "a.example") 443 := [(0, bs "zz"); (1, bs "aa")]]} 2) !! bs "a.example:443"
  = Some [bs "aa"; bs "zz"].
Proof.
  apply (reported_servers_exact (λ g : bytes, g)).
  - intros a Ha. simpl in Ha. apply elem_of_singleton in Ha as ->. vm_compute. split; discriminate.
  - exists (mkServerAddress (bs "a.example") 443). split; [by apply elem_of_singleton|]. split; [by vm_compute|].
    assert (default [] (({[mkServerAddress (bs "a.example") 443 := [(0, bs "zz"); (1, bs "aa")]]} :
      gmap ServerAddress (list (Z * bytes))) !! mkServerAddress (bs "a.example") 443)
      = [(0, bs "zz"); (1, bs "aa")]) as E by (vm_compute; reflexivity).
    cbn [Convergence.carrying_credit]. rewrite E. split; [apply Permutation_swap|].
    split; [by repeat constructor|]. vm_compute. reflexivity.
Defined.
