(* ===== verification/AddressWorker.v ===== *)
(** * AddressWorker: the life of one Server address

    The address worker of the Client ([src/client/address_worker.rs]): dial, reconnect and
    retire one Server address, and while it is connected follow the Server's replacement
    hints with at most one candidate connection.

    A worker is a task that suspends in [select!]; its actions are the stretches between
    the points where it reads state that other tasks write: the controller's intent and
    shutdown flag, and the hint channels of its connections.  What it reads is an argument
    of each action.  Dialing, sleeping and the connections' runs are the environment's:
    their results arrive as events.  A backoff is the number of delays drawn since its
    last reset. *)

From Stdlib Require Import ZArith Lia.
From stdpp Require Import base strings numbers gmap list.
From S2P Require Import Prelude Names Assignment.
Import Address Convergence.

Open Scope Z_scope.

Inductive MaintenanceIntent := Maintain | Retire.

#[export] Instance MaintenanceIntent_eq_dec : EqDecision MaintenanceIntent.
Proof. solve_decision. Defined.

(** How an authenticated connection ended. *)
Inductive ConnectionEndKind := EndClean | EndUnauthorized | EndTransport | WithdrawalProtocolFailure | EndUnclassified.
Record TunnelConnectionEnd := mkEnd { end_kind : ConnectionEndKind; end_message : option bytes }.

Definition withdrawal_protocol_failure_message (e : TunnelConnectionEnd) : option bytes :=
  match end_kind e with WithdrawalProtocolFailure => end_message e | _ => None end.

Section Worker.
Context {G : Type} `{EqDecision G}.

(** [ReplacementHint] of [src/tunnel/client.rs]. *)
Record ReplacementHint := mkHint { hint_generation : option G; interruptions : Z; paused : bool }.

(** A [watch] channel as its receivers see it: the value, its version, and whether the
    sender is alive. *)
Record HintChannel := mkHints { hint : ReplacementHint; hint_version : Z; hint_sender : bool }.

(** What a worker reads of its [AddressWorkerControl]. *)
Record Control := mkControl {
  maintenance_intent : MaintenanceIntent;
  maintenance_version : Z;
  maintenance_sender : bool;
  shutdown_requested : bool;
  orderly_started : bool
}.

(** What workers share: the convergence tracker of Managed mode, and the one-shot
    Client-ready log. *)
Record Shared := mkShared {
  convergence : option (ConvergenceState G);
  ready_logged : bool;
  client_ready_enabled : bool
}.

(** A live connection is named; its hint channel is found under that name, and [seen] is
    the version its receiver has seen. *)
Inductive TunnelAttemptOutcome :=
| AttemptConnected (connection : Z) (generation : G) (seen : Z)
| AttemptRetryable
| FatalLocalMaterial (message : bytes).

Record Active := mkActive {
  connection : Z;
  generation : G;
  carrying : option Z;
  hints_seen : Z;
  hints_live : bool;
  hints_interruptions : Z
}.

Inductive Candidate :=
| CandidateIdle
| CandidateWaiting (target : G) (started : bool)
| CandidateWarming (target : G).

(** The locals of [ConnectedAddress::run]. *)
Record Connected := mkConnected {
  primary : Active;
  joined : option Active;
  protocol_failure : option TunnelConnectionEnd;
  candidate : Candidate;
  run_maintenance_seen : Z;
  maintenance_live : bool;
  shutdown_started : bool;
  logged_retiring : bool
}.

(** Where [run_address_worker] is.  [Returning] has decided its result and not dropped its
    control yet. *)
Inductive WorkerState :=
| Spawned
| AtLoopTop
| Establishing
| Established (outcome : TunnelAttemptOutcome)
| NewConnection (connection : Z) (generation : G) (seen : Z)
| Observed (connection : Z) (generation : G) (seen : Z)
| Running (c : Connected)
| RunEnded (result : result TunnelConnectionEnd unit)
| Disconnected (result : result TunnelConnectionEnd unit)
| RetryWait (seen : Z)
| Returning (result : result bytes unit).

Record Worker := mkWorker {
  address : ServerAddress;
  worker_state : WorkerState;
  connected_once : bool;
  maintenance_seen : Z;
  backoff : nat;
  candidate_backoff : nat
}.

Definition goto (st : WorkerState) (w : Worker) : Worker :=
  mkWorker (address w) st (connected_once w) (maintenance_seen w) (backoff w) (candidate_backoff w).

(** [tokio::spawn] of the worker. *)
Definition spawn (address : ServerAddress) : Worker := mkWorker address Spawned false 0 0 0.

(** [changed()] of a watch receiver that has seen [seen]: a newer version, or an error once
    the sender is gone; [None] while it is pending. *)
Definition changed_channel (version seen : Z) (sender : bool) : option (result unit unit) :=
  if negb (version =? seen) then Some (Ok tt) else if sender then None else Some (Err tt).

(** *** Tracker calls of [AddressWorkerControl] *)

Definition observe_connected (a : ServerAddress) (sh : Shared) : Shared :=
  mkShared ((λ t, (mark_connected a t).1) <$> convergence sh) (ready_logged sh) (client_ready_enabled sh).
Definition observe_disconnected (a : ServerAddress) (sh : Shared) : Shared :=
  mkShared ((λ t, (mark_disconnected a t).1) <$> convergence sh) (ready_logged sh) (client_ready_enabled sh).
Definition carry (a : ServerAddress) (g : G) (sh : Shared) : Shared * option Z :=
  match convergence sh with
  | Some t =>
      let '(t', token) := start_carrying a g t in
      (mkShared (Some t') (ready_logged sh) (client_ready_enabled sh), Some token)
  | None => (sh, None)
  end.
Definition drop_carry (a : ServerAddress) (token : option Z) (sh : Shared) : Shared :=
  match token, convergence sh with
  | Some token, Some t =>
      mkShared (Some (drop_carrying a token t)) (ready_logged sh) (client_ready_enabled sh)
  | _, _ => sh
  end.

(** [client_ready_enabled && !ready_logged.swap(true)]. *)
Definition claim_client_ready_log (sh : Shared) : Shared * bool :=
  if client_ready_enabled sh
  then (mkShared (convergence sh) true true, negb (ready_logged sh))
  else (sh, false).

(** *** Candidates *)

Definition target_of (c : Candidate) : option G :=
  match c with
  | CandidateIdle => None
  | CandidateWaiting target _ | CandidateWarming target => Some target
  end.

Definition allows_candidates (c : Control) (shutdown_started : bool) : bool :=
  negb shutdown_started && negb (shutdown_requested c) && bool_decide (maintenance_intent c = Maintain).

(** [Active::start]. *)
Definition start_active (a : ServerAddress) (connection : Z) (g : G) (seen : Z) (h : HintChannel) (sh : Shared) :
    Active * Shared :=
  let '(sh, token) := carry a g sh in
  (mkActive connection g token seen true (interruptions (hint h)), sh).

Definition still_hints (target : G) (h : HintChannel) (a : Active) : bool :=
  bool_decide (hint_generation (hint h) = Some target) && negb (paused (hint h)) &&
  (interruptions (hint h) =? hints_interruptions a).

(** Also returns the candidate backoff. *)
Definition reconcile (ctl : Control) (h : HintChannel) (cand : Candidate) (has_joined shutdown_started : bool)
    (candidate_backoff : nat) : Candidate * nat :=
  let allowed := allows_candidates ctl shutdown_started in
  let hint := if allowed then hint_generation (hint h) else None in
  match target_of cand, hint with
  | None, None => (cand, candidate_backoff)
  | Some _, None => (CandidateIdle, candidate_backoff)
  | current, Some hint =>
      if bool_decide (current = Some hint) then (cand, candidate_backoff)
      else if has_joined then (match current with Some _ => CandidateIdle | None => cand end, candidate_backoff)
      else (CandidateWaiting hint false, 1%nat)
  end.

Definition keep_protocol_failure (failure : option TunnelConnectionEnd)
    (r : result TunnelConnectionEnd unit) : option TunnelConnectionEnd :=
  match failure, r with
  | None, Err e => match withdrawal_protocol_failure_message e with Some _ => Some e | None => None end
  | _, _ => failure
  end.

(** [settle]: the candidate, its backoff, and the connection that joins. *)
Definition settle (ctl : Control) (h hnew : HintChannel) (a : ServerAddress) (c : Connected)
    (outcome : TunnelAttemptOutcome) (candidate_backoff : nat) (sh : Shared) :
    Candidate * nat * option Active * Shared :=
  match target_of (candidate c) with
  | None => (candidate c, candidate_backoff, None, sh)
  | Some target =>
      match outcome with
      | AttemptConnected conn g seen =>
          if negb (allows_candidates ctl (shutdown_started c)) then (CandidateIdle, candidate_backoff, None, sh)
          else if negb (still_hints target h (primary c))
          then (CandidateWaiting target true, S candidate_backoff, None, sh)
          else let '(active, sh) := start_active a conn g seen hnew sh in
               (CandidateIdle, O, Some active, sh)
      | AttemptRetryable | FatalLocalMaterial _ =>
          (CandidateWaiting target true, S candidate_backoff, None, sh)
      end
  end.

(** A candidate that reached a runtime other than the expected one is closed before it has
    a session, and its attempt is a retryable failure. *)
Definition generation_gate (expected : G) (outcome : TunnelAttemptOutcome) : TunnelAttemptOutcome :=
  match outcome with
  | AttemptConnected _ initial _ => if bool_decide (expected ≠ initial) then AttemptRetryable else outcome
  | _ => outcome
  end.

(** *** The connected stretch *)

Inductive RunEvent :=
| PrimaryEnded (r : result TunnelConnectionEnd unit)
| JoinedEnded (r : result TunnelConnectionEnd unit)
| ShutdownStarted
| MaintenanceChanged
| HintsChanged
| DelayElapsed
(* what the dial reached, before the generation check *)
| Attempted (reached : TunnelAttemptOutcome).

Definition with_candidate (cand : Candidate) (c : Connected) : Connected :=
  mkConnected (primary c) (joined c) (protocol_failure c) cand (run_maintenance_seen c) (maintenance_live c)
    (shutdown_started c) (logged_retiring c).
Definition with_connections (p : Active) (j : option Active) (f : option TunnelConnectionEnd) (c : Connected) :
    Connected :=
  mkConnected p j f (candidate c) (run_maintenance_seen c) (maintenance_live c) (shutdown_started c) (logged_retiring c).

(** The prologue of [run]. *)
Definition start_run (ctl : Control) (h : HintChannel) (conn : Z) (g : G) (seen : Z) (w : Worker) (sh : Shared) :
    Worker * Shared :=
  let '(active, sh) := start_active (address w) conn g seen h sh in
  let c := mkConnected active None None CandidateIdle (maintenance_version ctl) true (orderly_started ctl)
             (bool_decide (maintenance_intent ctl = Retire)) in
  let '(cand, cb) := reconcile ctl h CandidateIdle false (shutdown_started c) (candidate_backoff w) in
  (mkWorker (address w) (Running (with_candidate cand c)) (connected_once w) (maintenance_seen w) (backoff w) cb, sh).

(** [self.reconcile(&mut candidate, &primary, ..)] after the connections changed. *)
Definition reconciled (ctl : Control) (hints : Z → HintChannel) (c : Connected) (w : Worker) : Worker :=
  let '(cand, cb) := reconcile ctl (hints (connection (primary c))) (candidate c)
                       (match joined c with Some _ => true | None => false end) (shutdown_started c)
                       (candidate_backoff w) in
  mkWorker (address w) (Running (with_candidate cand c)) (connected_once w) (maintenance_seen w) (backoff w) cb.

Definition primary_ended (ctl : Control) (hints : Z → HintChannel) (c : Connected)
    (r : result TunnelConnectionEnd unit) (w : Worker) (sh : Shared) : Worker * Shared :=
  let sh := drop_carry (address w) (carrying (primary c)) sh in
  match joined c with
  | None => (goto (RunEnded (match protocol_failure c with Some e => Err e | None => r end)) w, sh)
  | Some next =>
      (reconciled ctl hints (with_connections next None (keep_protocol_failure (protocol_failure c) r) c) w, sh)
  end.

Definition joined_ended (ctl : Control) (hints : Z → HintChannel) (c : Connected) (a : Active)
    (r : result TunnelConnectionEnd unit) (w : Worker) (sh : Shared) : Worker * Shared :=
  (reconciled ctl hints (with_connections (primary c) None (keep_protocol_failure (protocol_failure c) r) c) w,
   drop_carry (address w) (carrying a) sh).

Definition maintenance_changed (ctl : Control) (hints : Z → HintChannel) (c : Connected) (w : Worker) :
    option Worker :=
  if negb (maintenance_live c) then None else
  ch ← changed_channel (maintenance_version ctl) (run_maintenance_seen c) (maintenance_sender ctl);
  let set seen live logged cand := mkConnected (primary c) (joined c) (protocol_failure c) cand seen live
                                     (shutdown_started c) logged in
  Some (match ch with
        | Err _ => goto (Running (set (run_maintenance_seen c) false (logged_retiring c) (candidate c))) w
        | Ok _ =>
            if bool_decide (maintenance_intent ctl = Retire)
            then goto (Running (set (maintenance_version ctl) true true CandidateIdle)) w
            else reconciled ctl hints (set (maintenance_version ctl) true false (candidate c)) w
        end).

Definition hints_changed (ctl : Control) (hints : Z → HintChannel) (c : Connected) (w : Worker) : option Worker :=
  let p := primary c in let h := hints (connection p) in
  if negb (hints_live p) then None else
  ch ← changed_channel (hint_version h) (hints_seen p) (hint_sender h);
  Some (match ch with
        | Err _ =>
            goto (Running (with_connections (mkActive (connection p) (generation p) (carrying p) (hints_seen p) false
                                               (hints_interruptions p)) (joined c) (protocol_failure c) c)) w
        | Ok _ =>
            let p' := mkActive (connection p) (generation p) (carrying p) (hint_version h) true
                        (interruptions (hint h)) in
            let c' := with_connections p' (joined c) (protocol_failure c) c in
            reconciled ctl hints (if interruptions (hint h) =? hints_interruptions p then c'
                                  else with_candidate CandidateIdle c') w
        end).

Definition exec_run (ctl : Control) (hints : Z → HintChannel) (c : Connected) (w : Worker) (sh : Shared)
    (e : RunEvent) : next (Worker * Shared) :=
  match e with
  | PrimaryEnded r => Steps (primary_ended ctl hints c r w sh)
  | JoinedEnded r =>
      match joined c with Some a => Steps (joined_ended ctl hints c a r w sh) | None => Disabled end
  | ShutdownStarted =>
      if negb (shutdown_started c) && orderly_started ctl
      then Steps (goto (Running (mkConnected (primary c) (joined c) (protocol_failure c) CandidateIdle
                    (run_maintenance_seen c) (maintenance_live c) true (logged_retiring c))) w, sh)
      else Disabled
  | MaintenanceChanged =>
      match maintenance_changed ctl hints c w with Some w' => Steps (w', sh) | None => Disabled end
  | HintsChanged =>
      match hints_changed ctl hints c w with Some w' => Steps (w', sh) | None => Disabled end
  | DelayElapsed =>
      match candidate c with
      | CandidateWaiting target _ => Steps (goto (Running (with_candidate (CandidateWarming target) c)) w, sh)
      | _ => Disabled
      end
  | Attempted reached =>
      match candidate c with
      | CandidateWarming target =>
          let outcome := generation_gate target reached in
          let hnew := match outcome with AttemptConnected conn _ _ => hints conn | _ => hints 0 end in
          let '(cand, cb, next, sh) :=
            settle ctl (hints (connection (primary c))) hnew (address w) c outcome (candidate_backoff w) sh in
          let c' := with_candidate cand c in
          let c'' := match next with Some a => with_connections (primary c) (Some a) (protocol_failure c) c'
                                | None => c' end in
          Steps (mkWorker (address w) (Running c'') (connected_once w) (maintenance_seen w) (backoff w) cb, sh)
      | _ => Disabled
      end
  end.

(** *** The worker *)

Inductive WorkerEvent :=
| Start
| CheckTop
| EstablishShutdown
| EstablishMaintenance
| EstablishDone (outcome : TunnelAttemptOutcome)
| CheckEstablished
| ObserveConnected
| StartRun
| Run (e : RunEvent)
| ObserveDisconnected
| Decide
| RetryShutdown
| RetryMaintenance
| RetryElapsed.

Definition stopping (c : Control) : bool :=
  shutdown_requested c || bool_decide (maintenance_intent c = Retire).

Definition retry_wait (ctl : Control) (w : Worker) : Worker :=
  mkWorker (address w) (RetryWait (maintenance_version ctl)) (connected_once w) (maintenance_seen w)
    (S (backoff w)) (candidate_backoff w).

Definition exec_worker (ctl : Control) (hints : Z → HintChannel) (w : Worker) (sh : Shared) (e : WorkerEvent) :
    next (Worker * Shared) :=
  match e, worker_state w with
  | Start, Spawned =>
      Steps (mkWorker (address w) AtLoopTop (connected_once w) (maintenance_version ctl) (backoff w)
               (candidate_backoff w), sh)
  | CheckTop, AtLoopTop =>
      Steps (goto (if stopping ctl then Returning (Ok tt) else Establishing) w, sh)
  | EstablishShutdown, Establishing | RetryShutdown, RetryWait _ =>
      if shutdown_requested ctl then Steps (goto (Returning (Ok tt)) w, sh) else Disabled
  | EstablishMaintenance, Establishing =>
      match changed_channel (maintenance_version ctl) (maintenance_seen w) (maintenance_sender ctl) with
      | None => Disabled
      | Some (Err _) => Steps (goto (Returning (Ok tt)) w, sh)
      | Some (Ok _) =>
          Steps (mkWorker (address w)
                   (if bool_decide (maintenance_intent ctl = Retire) then Returning (Ok tt) else AtLoopTop)
                   (connected_once w) (maintenance_version ctl) (backoff w) (candidate_backoff w), sh)
      end
  | EstablishDone outcome, Establishing => Steps (goto (Established outcome) w, sh)
  | CheckEstablished, Established outcome =>
      if bool_decide (maintenance_intent ctl = Retire) then Steps (goto (Returning (Ok tt)) w, sh)
      else match outcome with
           | AttemptConnected conn g seen => Steps (goto (NewConnection conn g seen) w, sh)
           | AttemptRetryable => Steps (retry_wait ctl w, sh)
           | FatalLocalMaterial message => Steps (goto (Returning (Err message)) w, sh)
           end
  | ObserveConnected, NewConnection conn g seen =>
      let retiring := bool_decide (maintenance_intent ctl = Retire) in
      let sh := if connected_once w then sh else (claim_client_ready_log sh).1 in
      Steps (mkWorker (address w) (Observed conn g seen) true (maintenance_seen w)
               (if retiring then backoff w else O) (candidate_backoff w),
             observe_connected (address w) sh)
  | StartRun, Observed conn g seen => Steps (start_run ctl (hints conn) conn g seen w sh)
  | Run e, Running c => exec_run ctl hints c w sh e
  | ObserveDisconnected, RunEnded r => Steps (goto (Disconnected r) w, observe_disconnected (address w) sh)
  | Decide, Disconnected r =>
      match r with
      | Err e =>
          match withdrawal_protocol_failure_message e with
          | Some message => Steps (goto (Returning (Err message)) w, sh)
          | None => Steps (if stopping ctl then goto (Returning (Ok tt)) w else retry_wait ctl w, sh)
          end
      | Ok _ => Steps (goto (Returning (Ok tt)) w, sh)
      end
  | RetryMaintenance, RetryWait seen =>
      match changed_channel (maintenance_version ctl) seen (maintenance_sender ctl) with
      | None => Disabled
      | Some (Err _) => Steps (goto (Returning (Ok tt)) w, sh)
      | Some (Ok _) => Steps (goto (if stopping ctl then Returning (Ok tt) else AtLoopTop) w, sh)
      end
  | RetryElapsed, RetryWait _ =>
      Steps (goto (if stopping ctl then Returning (Ok tt) else AtLoopTop) w, sh)
  | _, _ => Disabled
  end.

(** ** Invariant *)

(** A second connection and a candidate exclude each other. *)
Definition worker_inv (w : Worker) : Prop :=
  match worker_state w with
  | Running c => candidate c ≠ CandidateIdle → joined c = None
  | _ => True
  end.

(** Workers under any behaviour of the controller, the tracker and the connections. *)
Inductive worker_reachable : Worker → Prop :=
| worker_spawned a : worker_reachable (spawn a)
| worker_steps ctl hints sh e w w' sh' :
    worker_reachable w → exec_worker ctl hints w sh e = Steps (w', sh') → worker_reachable w'.

Lemma reconcile_joined ctl h cand ss cb :
  cand = CandidateIdle → (reconcile ctl h cand true ss cb).1 = CandidateIdle.
Proof.
  intros ->. unfold reconcile. simpl. by destruct (if allows_candidates ctl ss then _ else None).
Qed.

Lemma reconciled_inv ctl hints c w :
  (candidate c ≠ CandidateIdle → joined c = None) → worker_inv (reconciled ctl hints c w).
Proof.
  intros Hc. unfold reconciled. destruct (joined c) as [a|] eqn:Ej.
  - assert (candidate c = CandidateIdle) as Hi by (destruct (candidate c); [done|by discriminate Hc..]).
    pose proof (reconcile_joined ctl (hints (connection (primary c))) (candidate c) (shutdown_started c)
                  (candidate_backoff w) Hi) as Hr.
    destruct (reconcile _ _ _ true _ _) as [cand cb]. simpl in *. unfold worker_inv. simpl. by rewrite Hr.
  - destruct (reconcile _ _ _ false _ _) as [cand cb]. unfold worker_inv. simpl. done.
Qed.

Lemma reconciled_running ctl hints c w :
  ∃ cand, worker_state (reconciled ctl hints c w) = Running (with_candidate cand c).
Proof. unfold reconciled. destruct (reconcile _ _ _ _ _ _) as [cand cb]. by exists cand. Qed.

Lemma maintenance_changed_inv ctl hints c w w' :
  (candidate c ≠ CandidateIdle → joined c = None) → maintenance_changed ctl hints c w = Some w' → worker_inv w'.
Proof.
  intros Hc. unfold maintenance_changed. destruct (negb (maintenance_live c)); [done|].
  destruct (changed_channel _ _ _) as [[?|?]|]; intros [= <-]; [|exact Hc]. case_bool_decide; [by unfold worker_inv; simpl|]. by apply reconciled_inv.
Qed.

Lemma hints_changed_inv ctl hints c w w' :
  (candidate c ≠ CandidateIdle → joined c = None) → hints_changed ctl hints c w = Some w' → worker_inv w'.
Proof.
  intros Hc. unfold hints_changed. destruct (negb (hints_live (primary c))); [done|].
  destruct (changed_channel _ _ _) as [[?|?]|]; intros [= <-]; [|exact Hc]. apply reconciled_inv.
  by destruct (interruptions _ =? _).
Qed.

Lemma exec_run_inv ctl hints c w sh e w' sh' :
  (candidate c ≠ CandidateIdle → joined c = None) → exec_run ctl hints c w sh e = Steps (w', sh') → worker_inv w'.
Proof.
  intros Hc Hx. destruct e as [r|r| | | | |reached]; cbn [exec_run] in Hx.
  - unfold primary_ended in Hx. destruct (joined c) as [a|] eqn:Ej; simplify_eq/=; [|done]. apply reconciled_inv. done.
  - destruct (joined c) as [a|] eqn:Ej; simplify_eq/=. by apply reconciled_inv.
  - destruct (negb (shutdown_started c) && orderly_started ctl); simplify_eq/=. by unfold worker_inv; simpl.
  - destruct (maintenance_changed ctl hints c w) eqn:Em; simplify_eq/=. by eapply maintenance_changed_inv.
  - destruct (hints_changed ctl hints c w) eqn:Em; simplify_eq/=. by eapply hints_changed_inv.
  - destruct (candidate c) eqn:Ec; simplify_eq/=. unfold worker_inv. simpl. intros _. by apply Hc.
  - destruct (candidate c) eqn:Ec; try done. assert (joined c = None) as Hj by by apply Hc.
    unfold settle in Hx. rewrite Ec in Hx. simpl in Hx.
    destruct (generation_gate target reached) as [conn g seen| |m]; simplify_eq/=;
      unfold worker_inv; simpl; try done.
    destruct (negb (allows_candidates ctl (shutdown_started c))); simplify_eq/=; [done|].
    destruct (negb (still_hints target (hints (connection (primary c))) (primary c))); simplify_eq/=; [done|].
    destruct (start_active _ _ _ _ _ _) as [a sh1]. by simplify_eq/=.
Qed.

Lemma exec_worker_inv ctl hints w sh e w' sh' :
  worker_inv w → exec_worker ctl hints w sh e = Steps (w', sh') → worker_inv w'.
Proof.
  intros Hinv Hx. unfold exec_worker in Hx. destruct e, (worker_state w) as [| | |o|k g n|k g n|c|r|r|n|r] eqn:Es; try done;
    repeat case_match; simplify_eq/=; try done; unfold worker_inv in *; rewrite ?Es in Hinv; simpl; try done.
  - unfold start_run in Hx. destruct (start_active _ _ _ _ _ _) as [a sh1].
    destruct (reconcile _ _ _ _ _ _) as [cand cb]. by simplify_eq/=.
  - by eapply exec_run_inv in Hx.
Qed.

Lemma worker_reachable_inv w : worker_reachable w → worker_inv w.
Proof. induction 1; [done|]. by eapply exec_worker_inv. Qed.

End Worker.

(** ** Properties *)

Lemma settle_joins {G} `{EqDecision G} ctl (h hn : HintChannel (G := G)) a c o cb sh cand cb' x sh' :
  settle ctl h hn a c o cb sh = (cand, cb', Some x, sh') →
  ∃ t k n, target_of (candidate c) = Some t ∧ o = AttemptConnected k (generation x) n ∧
    allows_candidates ctl (shutdown_started c) = true ∧ still_hints t h (primary c) = true ∧ cand = CandidateIdle.
Proof.
  unfold settle. destruct (target_of (candidate c)) as [t|]; [|done]. destruct o as [k g n| |]; [|done..].
  destruct (allows_candidates ctl (shutdown_started c)); [|done]. destruct (still_hints t h (primary c)) eqn:Es; [|done]. simpl.
  unfold start_active. destruct (carry a g sh) as [sh1 tok]. intros [= <- <- <- <-].
  exists t, k, n. by split_and!.
Qed.

Lemma reconciled_connections {G} `{EqDecision G} ctl hints (c : Connected (G := G)) w c' :
  worker_state (reconciled ctl hints c w) = Running c' → joined c' = joined c ∧ primary c' = primary c ∧
  protocol_failure c' = protocol_failure c.
Proof. destruct (reconciled_running ctl hints c w) as [cand ->]. by intros [= <-]. Qed.

(** What one event does to the connections of a connected address. *)
Lemma exec_run_connections {G} `{EqDecision G} ctl hints c (w w' : Worker (G := G)) sh sh' e c' :
  exec_run ctl hints c w sh e = Steps (w', sh') → worker_state w' = Running c' →
  match e with
  | PrimaryEnded r => joined c = Some (primary c') ∧ joined c' = None ∧
      protocol_failure c' = keep_protocol_failure (protocol_failure c) r
  | JoinedEnded r => joined c' = None ∧ protocol_failure c' = keep_protocol_failure (protocol_failure c) r
  | Attempted _ => protocol_failure c' = protocol_failure c
  | _ => joined c' = joined c ∧ protocol_failure c' = protocol_failure c
  end.
Proof.
  intros Hx Hw. destruct e as [r|r| | | | |reached]; cbn [exec_run] in Hx.
  - unfold primary_ended in Hx. destruct (joined c) as [a|] eqn:Ej; simplify_eq/=.
    by apply reconciled_connections in Hw as (-> & -> & ->).
  - destruct (joined c) as [a|] eqn:Ej; simplify_eq/=. by apply reconciled_connections in Hw as (-> & _ & ->).
  - destruct (negb (shutdown_started c) && orderly_started ctl); by simplify_eq/=.
  - destruct (maintenance_changed ctl hints c w) as [w1|] eqn:Em; simplify_eq/=. unfold maintenance_changed in Em.
    destruct (negb (maintenance_live c)); [done|]. destruct (changed_channel _ _ _) as [[?|?]|]; simplify_eq/=; [|done].
    case_bool_decide; [by simplify_eq/=|]. by apply reconciled_connections in Hw as (-> & _ & ->).
  - destruct (hints_changed ctl hints c w) as [w1|] eqn:Em; simplify_eq/=. unfold hints_changed in Em.
    destruct (negb (hints_live (primary c))); [done|]. destruct (changed_channel _ _ _) as [[?|?]|]; simplify_eq/=; [|done].
    apply reconciled_connections in Hw as (-> & _ & ->). by destruct (interruptions _ =? _).
  - destruct (candidate c); by simplify_eq/=.
  - destruct (candidate c) eqn:Ec; try done. destruct (settle _ _ _ _ _ _ _ _) as [[[cand cb] [x|]] sh1]; by simplify_eq/=.
Qed.

Lemma start_run_running {G} `{EqDecision G} ctl h k g n (w : Worker (G := G)) sh w' sh' :
  start_run ctl h k g n w sh = (w', sh') → ∃ c, worker_state w' = Running c.
Proof.
  unfold start_run. destruct (start_active _ _ _ _ _ _), (reconcile _ _ _ _ _ _). intros [= <- <-]. by eexists.
Qed.

(** A connected stretch goes on until the primary ends with no other connection. *)
Lemma exec_run_state {G} `{EqDecision G} ctl hints c (w w' : Worker (G := G)) sh sh' e :
  exec_run ctl hints c w sh e = Steps (w', sh') →
  (∃ c', worker_state w' = Running c') ∨
  ∃ r, e = PrimaryEnded r ∧
    worker_state w' = RunEnded (match protocol_failure c with Some x => Err x | None => r end).
Proof.
  intros Hx. destruct e as [r|r| | | | |reached]; cbn [exec_run] in Hx.
  - unfold primary_ended in Hx. destruct (joined c); simplify_eq/=; [|right; by eexists].
    left. destruct (reconciled_running ctl hints (with_connections a None (keep_protocol_failure (protocol_failure c) r) c) w)
      as [cand ->]. by eexists.
  - destruct (joined c) as [a|]; simplify_eq/=. left.
    destruct (reconciled_running ctl hints
      (with_connections (primary c) None (keep_protocol_failure (protocol_failure c) r) c) w) as [cand ->]. by eexists.
  - destruct (negb (shutdown_started c) && orderly_started ctl); simplify_eq/=. left. by eexists.
  - destruct (maintenance_changed ctl hints c w) as [w1|] eqn:Em; simplify_eq/=. left. unfold maintenance_changed in Em.
    destruct (negb (maintenance_live c)); [done|]. destruct (changed_channel _ _ _) as [[?|?]|]; simplify_eq/=; [|by eexists].
    case_bool_decide; [by eexists|]. unfold reconciled. destruct (reconcile _ _ _ _ _ _). by eexists.
  - destruct (hints_changed ctl hints c w) as [w1|] eqn:Em; simplify_eq/=. left. unfold hints_changed in Em.
    destruct (negb (hints_live (primary c))); [done|]. destruct (changed_channel _ _ _) as [[?|?]|]; simplify_eq/=; [|by eexists].
    unfold reconciled. destruct (reconcile _ _ _ _ _ _). by eexists.
  - destruct (candidate c); simplify_eq/=. left. by eexists.
  - destruct (candidate c); try done. destruct (settle _ _ _ _ _ _ _ _) as [[[? ?] ?] ?]. simplify_eq/=. left. by eexists.
Qed.

(** Replacement is deliberate.  A second connection joins an address only when it
    reached the very generation that the primary's current hint names, the hint is not
    paused and comes from the subscription the worker last saw, the address is maintained
    and no shutdown has begun; at most one candidate exists, and none while two connections
    are active. *)
Theorem candidate_joins_hinted {G} `{EqDecision G} ctl hints sh e (w w' : Worker (G := G)) sh' :
  worker_reachable w → exec_worker ctl hints w sh e = Steps (w', sh') →
  (∀ c, worker_state w' = Running c → joined c ≠ None → candidate c = CandidateIdle) ∧
  ∀ c c' a, worker_state w = Running c → worker_state w' = Running c' → joined c' = Some a → joined c ≠ Some a →
    let h := hint (hints (connection (primary c))) in
    joined c = None ∧ hint_generation h = Some (generation a) ∧ paused h = false ∧
    interruptions h = hints_interruptions (primary c) ∧ maintenance_intent ctl = Maintain ∧
    shutdown_requested ctl = false ∧ shutdown_started c = false.
Proof.
  intros Hr Hx. pose proof (worker_reachable_inv w Hr) as Hinv. split.
  - intros c Hc Hj. pose proof (exec_worker_inv _ _ _ _ _ _ _ Hinv Hx) as Hinv'. unfold worker_inv in Hinv'.
    rewrite Hc in Hinv'. destruct (candidate c); [done|by destruct Hj; apply Hinv'..].
  - intros c c' a Hc Hc' Ha Hna. unfold exec_worker in Hx. rewrite Hc in Hx. destruct e as [| | | | | | | |e| | | | |]; try done.
    pose proof (exec_run_connections _ _ _ _ _ _ _ _ _ Hx Hc') as Hconn.
    destruct e as [r|r| | | | |reached]; try (exfalso; destruct_and?; congruence).
    cbn [exec_run] in Hx. destruct (candidate c) as [| |t] eqn:Ec; try done.
    unfold worker_inv in Hinv. rewrite Hc in Hinv. assert (joined c = None) as Hj by (apply Hinv; by rewrite Ec).
    destruct (settle _ _ _ _ _ _ _ _) as [[[cand cb] [x|]] sh1] eqn:Es; simplify_eq/=.
    apply settle_joins in Es as (t' & k & n & Ht & Ho & Hal & Hst & ->). rewrite Ec in Ht. injection Ht as <-.
    unfold generation_gate in Ho. destruct reached as [k' g' n'| |]; try done. case_bool_decide as Hg; [done|].
    injection Ho as -> Hg2 ->. rewrite <- Hg2, <- Hg.
    unfold allows_candidates in Hal. unfold still_hints in Hst.
    rewrite !andb_true_iff, !negb_true_iff, !bool_decide_eq_true, ?Z.eqb_eq in *. destruct Hal as [[? ?] ?], Hst as [[? ?] ?].
    by split_and!.
Qed.

(** A worker leaves for a cause and no withdrawal failure is lost.  It returns an error
    only for local material that cannot work or for a withdrawal that broke the protocol;
    it returns cleanly only if shutdown was requested, the address was retired, the
    controller let go of it, or its last connection's run ended cleanly.  A withdrawal failure
    of any of its connections is remembered, ends the stretch as its result, and becomes
    the worker's error. *)
Theorem worker_exits_for_cause {G} `{EqDecision G} ctl hints sh e (w w' : Worker (G := G)) sh' :
  exec_worker ctl hints w sh e = Steps (w', sh') →
  (∀ m, worker_state w' = Returning (Err m) →
     worker_state w = Established (FatalLocalMaterial m) ∨
     ∃ x, worker_state w = Disconnected (Err x) ∧ withdrawal_protocol_failure_message x = Some m) ∧
  (worker_state w' = Returning (Ok tt) →
     shutdown_requested ctl = true ∨ maintenance_intent ctl = Retire ∨ maintenance_sender ctl = false ∨
     worker_state w = Disconnected (Ok tt)) ∧
  (∀ c c' x, worker_state w = Running c → worker_state w' = Running c' →
     (protocol_failure c = Some x → protocol_failure c' = Some x) ∧
     (protocol_failure c = None → withdrawal_protocol_failure_message x ≠ None →
      e = Run (PrimaryEnded (Err x)) ∨ e = Run (JoinedEnded (Err x)) → protocol_failure c' = Some x)) ∧
  (∀ c r, worker_state w = Running c → worker_state w' = RunEnded r →
     ∃ r0, e = Run (PrimaryEnded r0) ∧ r = match protocol_failure c with Some x => Err x | None => r0 end) ∧
  (∀ x m, worker_state w = Disconnected (Err x) → withdrawal_protocol_failure_message x = Some m →
     worker_state w' = Returning (Err m)).
Proof.
  intros Hx. split_and!.
  - intros m Hm. unfold exec_worker in Hx. destruct e, (worker_state w) eqn:Es; try done;
      repeat case_match; simplify_eq/=; try congruence; eauto.
    + apply start_run_running in Hx as [c Hc]. congruence.
    + apply exec_run_state in Hx as [[c' Hc]|(r & _ & Hr)]; congruence.
  - intros Hm. unfold exec_worker, stopping, changed_channel in Hx. destruct e, (worker_state w) eqn:Es; try done;
      repeat case_match; simplify_eq/=; try congruence; rewrite ?orb_true_iff, ?bool_decide_eq_true in *; try tauto.
    + apply start_run_running in Hx as [c Hc]. congruence.
    + apply exec_run_state in Hx as [[c' Hc]|(r & _ & Hr)]; congruence.
    + destruct a. auto.
  - intros c c' x Hc Hc'. unfold exec_worker in Hx. rewrite Hc in Hx. destruct e as [| | | | | | | |e| | | | |]; try done.
    apply exec_run_connections with (c' := c') in Hx; [|done]. split.
    + intros Hp. destruct e; destruct_and?; congruence || (unfold keep_protocol_failure in *; by rewrite Hp in *).
    + intros Hp Hm [[= ->]|[= ->]]; destruct_and?; unfold keep_protocol_failure in *; rewrite Hp in *;
        destruct (withdrawal_protocol_failure_message x); congruence.
  - intros c r Hc Hr. unfold exec_worker in Hx. rewrite Hc in Hx. destruct e as [| | | | | | | |e| | | | |]; try done.
    apply exec_run_state in Hx as [[c' Hc']|(r0 & -> & Hr0)]; [congruence|]. exists r0. split; [done|]. congruence.
  - intros x m Hd Hm. unfold exec_worker in Hx. rewrite Hd in Hx. destruct e; try done. rewrite Hm in Hx. by simplify_eq/=.
Qed.

(** *** A worker that replaces its connection *)

Module ToyWorker.

Definition toy_address : ServerAddress := mkServerAddress (bs "a.example") 443.
Definition toy_control : Control := mkControl Maintain 0 true false false.
Definition toy_hints (_ : Z) : HintChannel (G := Z) := mkHints (mkHint (Some 7) 0 false) 1 true.
Definition toy_shared : Shared (G := Z) := mkShared None false true.

Definition toy_exec (s : Worker (G := Z) * Shared) (e : WorkerEvent) : next (Worker * Shared) :=
  exec_worker toy_control toy_hints s.1 s.2 e.

Definition toy_events : list (WorkerEvent (G := Z)) :=
  [Start; CheckTop; EstablishDone (AttemptConnected 1 5 1); CheckEstablished; ObserveConnected; StartRun;
   Run DelayElapsed].
Definition toy_warming : Worker (G := Z) * Shared :=
  default (spawn toy_address, toy_shared) (run_actions toy_exec (spawn toy_address, toy_shared) toy_events).

Lemma toy_reachable : worker_reachable toy_warming.1.
Proof.
  assert (run_actions toy_exec (spawn toy_address, toy_shared) toy_events = Some toy_warming) as Hr by by vm_compute.
  revert Hr. apply (run_actions_invariant toy_exec (λ s, worker_reachable s.1)); [|constructor].
  intros [w sh] e [w' sh'] Hw Hx. by eapply worker_steps.
Qed.

Definition toy_join : WorkerEvent (G := Z) := Run (Attempted (AttemptConnected 2 7 1)).
Definition toy_joined : Worker (G := Z) * Shared :=
  match toy_exec toy_warming toy_join with Steps s => s | _ => toy_warming end.

Definition toy_failure : TunnelConnectionEnd := mkEnd WithdrawalProtocolFailure (Some (bs "withdrawal")).
Definition toy_failed : Worker (G := Z) := goto (Disconnected (Err toy_failure)) (spawn toy_address).
Definition toy_returned : Worker (G := Z) := goto (Returning (Err (bs "withdrawal"))) (spawn toy_address).

End ToyWorker.
Import ToyWorker.

Lemma candidate_joins_hinted_witness :
  ∃ c c' a, worker_state toy_warming.1 = Running c ∧ worker_state toy_joined.1 = Running c' ∧ joined c' = Some a ∧
    hint_generation (hint (toy_hints (connection (primary c)))) = Some (generation a).
Proof.
  assert (exec_worker toy_control toy_hints toy_warming.1 toy_warming.2 toy_join
            = Steps (toy_joined.1, toy_joined.2)) as Hx by (vm_compute; reflexivity).
  destruct (candidate_joins_hinted _ _ _ _ _ _ _ toy_reachable Hx) as [_ Hj].
  eexists _, _, _. split; [vm_compute; reflexivity|]. split; [vm_compute; reflexivity|].
  split; [reflexivity|]. eapply Hj; [vm_compute; reflexivity|vm_compute; reflexivity|reflexivity|discriminate].
Defined.

Lemma worker_exits_for_cause_witness : worker_state toy_returned = Returning (Err (bs "withdrawal")).
Proof.
  assert (exec_worker toy_control toy_hints toy_failed toy_shared Decide
            = Steps (toy_returned, toy_shared)) as Hx by (vm_compute; reflexivity).
  destruct (worker_exits_for_cause _ _ _ _ _ _ _ Hx) as (_ & _ & _ & _ & Hf).
  apply (Hf toy_failure); reflexivity.
Defined.
