(* ===== verification/AddressController.v ===== *)
(** * AddressController: which Server addresses the Client maintains

    The Address controller of the Client ([src/client/address_controller.rs]) owns one
    worker per Server address: it starts, retires and re-adopts workers as assignments
    change, reaps their completions, and drains them at shutdown.

    The machine composes the controller's task with the worker tasks of [AddressWorker].
    The controller's loops are cut after every address, since workers run in parallel with
    it; a worker that has decided to return first drops its control, and only then does its
    task complete.  The maintenance channel of a worker is named by the worker's
    generation. *)

From Stdlib Require Import ZArith Lia.
From stdpp Require Import base strings numbers gmap list sorting.
From S2P Require Import Prelude Names Assignment AddressWorker.
Import Address Convergence.

Open Scope Z_scope.

Section Controller.
Context {G : Type} `{EqDecision G}.

(** The [watch] channel behind a slot's [maintenance_tx]; it is live while the worker
    holds a receiver. *)
Record Channel := mkChannel { intent : MaintenanceIntent; version : Z; live : bool }.

(** Where the controller's task is: seeding a static configuration; in the [select!] of
    [run]; in the first and in the second loop of [replace_intent]; in
    [drain_workers_preserving]; returned. *)
Inductive Phase :=
| Seeding (todo : list ServerAddress)
| Selecting
| Reviewing (desired existing : list ServerAddress)
| Adding (todo : list ServerAddress)
| Draining (first_error : option bytes)
| Returned (r : result bytes unit).

Record System := mkSystem {
  workers : gmap ServerAddress Z;
  running : list (ServerAddress * Z);
  channels : gmap Z Channel;
  tasks : gmap Z (Worker (G := G));
  results : gmap Z (result bytes unit);
  next_generation : Z;
  shared_worker_count : Z;
  shutdown : bool;
  orderly : bool;
  shared : Shared (G := G);
  hints : gmap Z (HintChannel (G := G));
  phase : Phase
}.

(** [AddressController::for_static] with [seed_configured], and [for_managed]. *)
Definition for_static (addresses : list ServerAddress) : System :=
  mkSystem ∅ [] ∅ ∅ ∅ 1 0 false false (mkShared None false true) ∅ (Seeding addresses).
Definition for_managed : System :=
  mkSystem ∅ [] ∅ ∅ ∅ 1 0 false false (mkShared (Some Convergence.new) false false) ∅ Selecting.

Definition set_phase (p : Phase) (s : System) : System :=
  mkSystem (workers s) (running s) (channels s) (tasks s) (results s) (next_generation s)
    (shared_worker_count s) (shutdown s) (orderly s) (shared s) (hints s) p.
Definition set_channels (cs : gmap Z Channel) (s : System) : System :=
  mkSystem (workers s) (running s) cs (tasks s) (results s) (next_generation s)
    (shared_worker_count s) (shutdown s) (orderly s) (shared s) (hints s) (phase s).
Definition set_shared (sh : Shared) (s : System) : System :=
  mkSystem (workers s) (running s) (channels s) (tasks s) (results s) (next_generation s)
    (shared_worker_count s) (shutdown s) (orderly s) sh (hints s) (phase s).
Definition set_tasks (ts : gmap Z Worker) (s : System) : System :=
  mkSystem (workers s) (running s) (channels s) ts (results s) (next_generation s)
    (shared_worker_count s) (shutdown s) (orderly s) (shared s) (hints s) (phase s).
Definition set_hints (hs : gmap Z HintChannel) (s : System) : System :=
  mkSystem (workers s) (running s) (channels s) (tasks s) (results s) (next_generation s)
    (shared_worker_count s) (shutdown s) (orderly s) (shared s) hs (phase s).

(** ** Slots *)

(** [WorkerSlot::is_live]. *)
Definition is_live (s : System) (generation : Z) : bool :=
  match channels s !! generation with Some ch => live ch | None => false end.

Definition worker_is_live (s : System) (a : ServerAddress) : bool :=
  match workers s !! a with Some g => is_live s g | None => false end.

Definition maintenance_intent (s : System) (a : ServerAddress) : option MaintenanceIntent :=
  g ← workers s !! a; intent <$> channels s !! g.

(** [maintenance_tx.send], which fails without effect when no receiver is left. *)
Definition send_intent (g : Z) (i : MaintenanceIntent) (s : System) : System :=
  match channels s !! g with
  | Some ch =>
      if live ch then set_channels (<[g := mkChannel i (version ch + 1) true]> (channels s)) s else s
  | None => s
  end.

(** [workers.remove] with [decrement_shared_worker_count]. *)
Definition drop_slot (a : ServerAddress) (s : System) : System :=
  mkSystem (delete a (workers s)) (running s) (channels s) (tasks s) (results s) (next_generation s)
    (shared_worker_count s - 1) (shutdown s) (orderly s) (shared s) (hints s) (phase s).

Definition spawn_worker (a : ServerAddress) (s : System) : System :=
  let generation := next_generation s in
  mkSystem (<[a := generation]> (workers s)) (running s ++ [(a, generation)])
    (<[generation := mkChannel Maintain 0 true]> (channels s)) (<[generation := spawn a]> (tasks s)) (results s)
    (generation + 1) (shared_worker_count s + 1) (shutdown s) (orderly s) (shared s) (hints s) (phase s).

Definition add (a : ServerAddress) (s : System) : System * bool :=
  match workers s !! a with
  | Some g =>
      if is_live s g then
        if bool_decide (maintenance_intent s a = Some Maintain) then (s, false)
        else (send_intent g Maintain s, true)
      else (spawn_worker a (drop_slot a s), true)
  | None => (spawn_worker a s, true)
  end.

Definition remove (a : ServerAddress) (s : System) : System * bool :=
  match workers s !! a with
  | Some g => if is_live s g then (send_intent g Retire s, true) else (s, false)
  | None => (s, false)
  end.

Definition re_adopt (a : ServerAddress) (s : System) : System * bool :=
  match workers s !! a with
  | Some g =>
      if negb (is_live s g) || bool_decide (maintenance_intent s a ≠ Some Retire) then (s, false)
      else (send_intent g Maintain s, true)
  | None => (s, false)
  end.

(** ** [replace_intent] *)

(** One iteration of its first loop, over the existing slots. *)
Definition review (desired : list ServerAddress) (a : ServerAddress) (s : System) : System :=
  if bool_decide (a ∈ desired) then
    if bool_decide (maintenance_intent s a = Some Retire) then
      let '(s', adopted) := re_adopt a s in if adopted then s' else drop_slot a s'
    else s
  else if bool_decide (maintenance_intent s a = Some Maintain) then (remove a s).1
  else s.

(** One iteration of its second loop, over the desired addresses. *)
Definition add_missing (a : ServerAddress) (s : System) : System :=
  match workers s !! a with
  | Some g => if is_live s g then s else (add a s).1
  | None => (add a s).1
  end.

(** [replace_intent] with no worker moving meanwhile; [existing] are the keys of the slots
    in the order of the [HashMap]. *)
Definition replace_intent (existing desired : list ServerAddress) (s : System) : System :=
  foldl (λ s a, add_missing a s) (foldl (λ s a, review desired a s) s existing) desired.

(** ** Shutdown and completions *)

Definition request_shutdown (s : System) : System :=
  mkSystem (workers s) (running s) (channels s) (tasks s) (results s) (next_generation s)
    (shared_worker_count s) true true (shared s) (hints s) (phase s).

(** [self.running.next()] yields the completion of generation [g]. *)
Definition take_completion (g : Z) (s : System) : option (ServerAddress * result bytes unit * System) :=
  r ← results s !! g;
  a ← fst <$> List.find (λ x, x.2 =? g) (running s);
  Some (a, r, mkSystem (workers s) (List.filter (λ x, negb (x.2 =? g)) (running s)) (channels s) (tasks s)
                (results s) (next_generation s) (shared_worker_count s) (shutdown s) (orderly s) (shared s)
                (hints s) (phase s)).

(** One turn of the loop of [next_completion]: a stale completion is skipped. *)
Definition next_completion (g : Z) (s : System) : option (option (result bytes unit) * System) :=
  '(a, r, s') ← take_completion g s;
  if bool_decide (workers s' !! a = Some g) then Some (Some r, drop_slot a s') else Some (None, s').

(** The completion arms of [run] and of [drain_workers_preserving]. *)
Definition completed (r : result bytes unit) (s : System) : System :=
  match phase s, r with
  | Selecting, Err error => set_phase (Draining (Some error)) (request_shutdown s)
  | Draining None, Err error => set_phase (Draining (Some error)) (request_shutdown s)
  | _, _ => s
  end.

(** ** The machine *)

Inductive action :=
(* the controller *)
| SeedStep
| Apply (addresses existing : list ServerAddress)
| ReviewStep
| AddStep
| Complete (generation : Z)
| AdapterClosed
| ShutdownSeen
| DrainDone
(* the worker of a generation *)
| WorkerStep (generation : Z) (e : WorkerEvent (G := G))
| WorkerDrops (generation : Z)
| WorkerJoins (generation : Z)
(* the process and the connections *)
| BeginOrderly
| RequestShutdown
| PublishHint (connection : Z) (h : ReplacementHint (G := G))
| DropHints (connection : Z).

Definition control (s : System) (g : Z) (w : Worker (G := G)) (ch : Channel) : Control :=
  mkControl (intent ch) (version ch) (bool_decide (workers s !! address w = Some g)) (shutdown s) (orderly s).

(** A connection whose hints were never published has the default hint. *)
Definition no_hints : HintChannel (G := G) := mkHints (mkHint None 0 false) 0 true.
Definition hints_of (s : System) (c : Z) : HintChannel := default no_hints (hints s !! c).

Definition worker_step (g : Z) (e : WorkerEvent) (s : System) : next System :=
  match tasks s !! g, channels s !! g with
  | Some w, Some ch =>
      if live ch then
        match exec_worker (control s g w ch) (hints_of s) w (shared s) e with
        | Steps (w', sh') => Steps (set_tasks (<[g := w']> (tasks s)) (set_shared sh' s))
        | Disabled => Disabled
        | Panics => Panics
        end
      else Disabled
  | _, _ => Disabled
  end.

Definition exec (s : System) (a : action) : next System :=
  match a with
  | SeedStep =>
      match phase s with
      | Seeding (a :: todo) => Steps (set_phase (Seeding todo) (add a s).1)
      | Seeding [] => Steps (set_phase (Draining None) s)
      | _ => Disabled
      end
  | Apply addresses existing =>
      match phase s, convergence (shared s) with
      | Selecting, Some t =>
          if bool_decide (NoDup existing) && bool_decide (list_to_set existing = dom (workers s))
          then Steps (set_phase (Reviewing addresses existing)
                 (set_shared (mkShared (Some (set_assigned addresses t).1) (ready_logged (shared s))
                                (client_ready_enabled (shared s))) s))
          else Disabled
      | _, _ => Disabled
      end
  | ReviewStep =>
      match phase s with
      | Reviewing desired (a :: existing) => Steps (set_phase (Reviewing desired existing) (review desired a s))
      | Reviewing desired [] => Steps (set_phase (Adding desired) s)
      | _ => Disabled
      end
  | AddStep =>
      match phase s with
      | Adding (a :: todo) => Steps (set_phase (Adding todo) (add_missing a s))
      | Adding [] => Steps (set_phase Selecting s)
      | _ => Disabled
      end
  | Complete g =>
      match phase s, next_completion g s with
      | (Selecting | Draining _), Some (r, s') =>
          Steps (match r with Some r => completed r s' | None => s' end)
      | _, _ => Disabled
      end
  | AdapterClosed =>
      match phase s with Selecting => Steps (set_phase (Draining None) (request_shutdown s)) | _ => Disabled end
  | ShutdownSeen =>
      match phase s with
      | Selecting => if shutdown s then Steps (set_phase (Draining None) s) else Disabled
      | _ => Disabled
      end
  | DrainDone =>
      match phase s, running s with
      | Draining first_error, [] =>
          Steps (set_phase (Returned (match first_error with Some e => Err e | None => Ok tt end)) s)
      | _, _ => Disabled
      end
  | WorkerStep g e => worker_step g e s
  | WorkerDrops g =>
      match worker_state <$> tasks s !! g, channels s !! g with
      | Some (Returning _), Some ch =>
          if live ch then Steps (set_channels (<[g := mkChannel (intent ch) (version ch) false]> (channels s)) s)
          else Disabled
      | _, _ => Disabled
      end
  | WorkerJoins g =>
      match worker_state <$> tasks s !! g with
      | Some (Returning r) =>
          if is_live s g then Disabled
          else Steps (mkSystem (workers s) (running s) (channels s) (delete g (tasks s)) (<[g := r]> (results s))
                        (next_generation s) (shared_worker_count s) (shutdown s) (orderly s) (shared s) (hints s)
                        (phase s))
      | _ => Disabled
      end
  | BeginOrderly =>
      Steps (mkSystem (workers s) (running s) (channels s) (tasks s) (results s) (next_generation s)
               (shared_worker_count s) (shutdown s) true (shared s) (hints s) (phase s))
  | RequestShutdown => if orderly s then Steps (request_shutdown s) else Disabled
  | PublishHint c h =>
      let ch := hints_of s c in
      if hint_sender ch then Steps (set_hints (<[c := mkHints h (hint_version ch + 1) true]> (hints s)) s)
      else Disabled
  | DropHints c =>
      let ch := hints_of s c in
      Steps (set_hints (<[c := mkHints (hint ch) (hint_version ch) false]> (hints s)) s)
  end.

(** ** Invariant *)

Record ctl_inv (s : System) : Prop := {
  ci_count : shared_worker_count s = Z.of_nat (size (workers s));
  ci_slots : ∀ a g, workers s !! a = Some g → (a, g) ∈ running s;
  ci_nodup : NoDup (running s).*2;
  ci_fresh : ∀ g, next_generation s ≤ g →
    channels s !! g = None ∧ tasks s !! g = None ∧ results s !! g = None ∧ g ∉ (running s).*2;
  ci_task : ∀ g w, tasks s !! g = Some w →
    (address w, g) ∈ running s ∧ results s !! g = None ∧ is_Some (channels s !! g);
  ci_pending : ∀ a g, (a, g) ∈ running s → is_Some (tasks s !! g) ∨ is_Some (results s !! g);
  ci_live : ∀ g ch, channels s !! g = Some ch → live ch = true →
    ∃ w, tasks s !! g = Some w ∧ workers s !! address w = Some g;
  ci_dead : ∀ g w ch, tasks s !! g = Some w → channels s !! g = Some ch → live ch = false →
    ∃ r, worker_state w = Returning r
}.

(** The invariant does not read the other fields. *)
Lemma ctl_inv_ext s s' :
  workers s' = workers s → running s' = running s → channels s' = channels s → tasks s' = tasks s →
  results s' = results s → next_generation s' = next_generation s →
  shared_worker_count s' = shared_worker_count s → ctl_inv s → ctl_inv s'.
Proof.
  intros Hw Hr Hc Ht Hre Hn Hk []. split; rewrite ?Hw, ?Hr, ?Hc, ?Ht, ?Hre, ?Hn, ?Hk; done.
Qed.

Lemma ctl_inv_phase p s : ctl_inv s → ctl_inv (set_phase p s).
Proof. by apply ctl_inv_ext. Qed.
Lemma ctl_inv_shutdown s : ctl_inv s → ctl_inv (request_shutdown s).
Proof. by apply ctl_inv_ext. Qed.
#[local] Hint Resolve ctl_inv_phase ctl_inv_shutdown : runewarp.

(** A channel that keeps its receivers, whatever it carries. *)
Lemma ctl_inv_channel g ch ch' s :
  channels s !! g = Some ch → live ch' = live ch → ctl_inv s → ctl_inv (set_channels (<[g := ch']> (channels s)) s).
Proof.
  intros Hg Hl []. split; simpl; try done.
  - intros g' Hg'. destruct (ci_fresh0 g' Hg') as (Hn & ?). rewrite lookup_insert_ne; [done|]. congruence.
  - intros g' w Hw. destruct (ci_task0 g' w Hw) as (? & ? & ?). split_and!; [done|done|].
    destruct (decide (g = g')) as [->|Hne]; [rewrite lookup_insert_eq; by eexists|by rewrite lookup_insert_ne].
  - intros g' c [[-> <-]|[Hne Hc]]%lookup_insert_Some Hlive; [|by eapply ci_live0]. eapply ci_live0; [done|congruence].
  - intros g' w c Hw [[-> <-]|[Hne Hc]]%lookup_insert_Some Hdead; [|by eapply ci_dead0]. eapply ci_dead0; [done|done|congruence].
Qed.

Lemma ctl_inv_send g i s : ctl_inv s → ctl_inv (send_intent g i s).
Proof.
  intros Hs. unfold send_intent. destruct (channels s !! g) as [ch|] eqn:Hg; [|done].
  destruct (live ch) eqn:Hl; [|done]. eapply ctl_inv_channel; [done| |done]. by rewrite Hl.
Qed.

Lemma ctl_inv_drop a g s :
  workers s !! a = Some g → is_live s g = false → ctl_inv s → ctl_inv (drop_slot a s).
Proof.
  intros Ha Hl []. split; simpl; try done.
  - rewrite map_size_delete_Some by by eexists.
    assert (size (workers s) ≠ O) by (apply (map_size_ne_0_lookup_2 _ a); by eexists). lia.
  - intros b g' [_ ?]%lookup_delete_Some. auto.
  - intros g' ch Hg Hlive. destruct (ci_live0 g' ch Hg Hlive) as (w & Hw & Hs). exists w. split; [done|].
    apply lookup_delete_Some. split; [|done]. intros ->. unfold is_live in Hl.
    assert (g' = g) as -> by congruence. rewrite Hg in Hl. congruence.
Qed.

Lemma ctl_inv_spawn a s : workers s !! a = None → ctl_inv s → ctl_inv (spawn_worker a s).
Proof.
  intros Ha []. destruct (ci_fresh0 (next_generation s)) as (Hc & Ht & Hr & Hn); [lia|].
  assert (∀ g w, tasks s !! g = Some w → g ≠ next_generation s) as Hne by (intros; congruence).
  split; simpl.
  - rewrite map_size_insert_None by done. lia.
  - intros b g [[-> <-]|[? Hb]]%lookup_insert_Some; apply elem_of_app; [right; by left|left; auto].
  - rewrite fmap_app. simpl. apply NoDup_app. split_and!; [done| |apply NoDup_singleton].
    intros x Hx ->%list_elem_of_singleton. done.
  - intros g Hg. destruct (ci_fresh0 g) as (? & ? & ? & ?); [lia|]. rewrite !lookup_insert_ne by lia.
    split_and!; [done..|]. rewrite fmap_app, elem_of_app. simpl. rewrite list_elem_of_singleton. intros [?|?]; [done|lia].
  - intros g w [[<- <-]|[Hg Hw]]%lookup_insert_Some.
    + split_and!; [apply elem_of_app; right; by left|done|rewrite lookup_insert_eq; by eexists].
    + destruct (ci_task0 g w Hw) as (? & ? & ?). rewrite lookup_insert_ne by done.
      split_and!; [apply elem_of_app; by left|done|done].
  - intros b g [Hin|[= -> ->]%list_elem_of_singleton]%elem_of_app; [|left; rewrite lookup_insert_eq; by eexists].
    destruct (ci_pending0 b g Hin) as [[w Hw]|?]; [left|by right].
    rewrite lookup_insert_ne by congruence. by eexists.
  - intros g ch [[<- <-]|[Hg Hch]]%lookup_insert_Some Hl.
    + exists (spawn a). rewrite !lookup_insert_eq. done.
    + destruct (ci_live0 g ch Hch Hl) as (w & Hw & Hs). exists w. rewrite lookup_insert_ne by done. split; [done|].
      rewrite lookup_insert_ne; [done|]. congruence.
  - intros g w ch [[<- <-]|[Hg Hw]]%lookup_insert_Some.
    + rewrite lookup_insert_eq. by intros [= <-].
    + rewrite lookup_insert_ne by done. by apply ci_dead0.
Qed.

Lemma ctl_inv_add a s : ctl_inv s → ctl_inv (add a s).1.
Proof.
  intros Hs. unfold add. destruct (workers s !! a) as [g|] eqn:Ha; [|by apply ctl_inv_spawn].
  destruct (is_live s g) eqn:Hl; [case_bool_decide; [done|by apply ctl_inv_send]|].
  apply ctl_inv_spawn; [apply lookup_delete_eq|]. by eapply ctl_inv_drop.
Qed.

Lemma ctl_inv_review desired a s : ctl_inv s → ctl_inv (review desired a s).
Proof.
  intros Hs. unfold review. case_bool_decide.
  - case_bool_decide as Hr; [|done]. unfold re_adopt, maintenance_intent in *.
    destruct (workers s !! a) as [g|] eqn:Ha; [|done]. simpl in *. rewrite Hr.
    rewrite (bool_decide_false (Some Retire ≠ Some Retire)) by (intros Hx; by apply Hx).
    destruct (is_live s g) eqn:Hl; simpl; [by apply ctl_inv_send|by eapply ctl_inv_drop].
  - case_bool_decide; [|done]. unfold remove. destruct (workers s !! a) as [g|]; [|done].
    destruct (is_live s g); [by apply ctl_inv_send|done].
Qed.

Lemma ctl_inv_add_missing a s : ctl_inv s → ctl_inv (add_missing a s).
Proof.
  intros Hs. unfold add_missing. destruct (workers s !! a) as [g|]; [destruct (is_live s g); [done|]|]; by apply ctl_inv_add.
Qed.

(** *** Worker steps *)

Lemma exec_run_address ctl hs c (w w' : Worker (G := G)) sh sh' e :
  exec_run ctl hs c w sh e = Steps (w', sh') → address w' = address w.
Proof.
  assert (∀ c, address (reconciled ctl hs c w) = address w) as Hrec.
  { intros c0. unfold reconciled. by destruct (reconcile _ _ _ _ _ _). }
  intros Hx. destruct e as [r|r| | | | |reached]; cbn [exec_run] in Hx.
  - unfold primary_ended in Hx. destruct (joined c); by simplify_eq/=.
  - destruct (joined c); by simplify_eq/=.
  - destruct (negb (shutdown_started c) && orderly_started ctl); by simplify_eq/=.
  - destruct (maintenance_changed ctl hs c w) as [w1|] eqn:Em; simplify_eq/=. unfold maintenance_changed in Em.
    destruct (negb (maintenance_live c)); [done|]. destruct (changed_channel _ _ _) as [[?|?]|]; simplify_eq/=; [|done].
    by case_bool_decide.
  - destruct (hints_changed ctl hs c w) as [w1|] eqn:Em; simplify_eq/=. unfold hints_changed in Em.
    destruct (negb (hints_live (primary c))); [done|]. by destruct (changed_channel _ _ _) as [[?|?]|]; simplify_eq/=.
  - destruct (candidate c); by simplify_eq/=.
  - destruct (candidate c); try done. destruct (settle _ _ _ _ _ _ _ _) as [[[? ?] ?] ?]. by simplify_eq/=.
Qed.

Lemma exec_worker_address ctl hs (w w' : Worker (G := G)) sh sh' e :
  exec_worker ctl hs w sh e = Steps (w', sh') → address w' = address w.
Proof.
  intros Hx. unfold exec_worker in Hx. destruct e, (worker_state w); try done; repeat case_match; simplify_eq/=; try done.
  - unfold start_run in Hx. destruct (start_active _ _ _ _ _ _), (reconcile _ _ _ _ _ _). by simplify_eq/=.
  - by eapply exec_run_address.
Qed.

Lemma exec_worker_never_panics ctl hs (w : Worker (G := G)) sh e : exec_worker ctl hs w sh e ≠ Panics.
Proof.
  unfold exec_worker. destruct e, (worker_state w); try done; repeat case_match; try done.
  unfold exec_run. repeat case_match; done.
Qed.

(** A worker that moves while it holds its control. *)
Lemma ctl_inv_task g w w' ch s :
  tasks s !! g = Some w → channels s !! g = Some ch → live ch = true → address w' = address w →
  ctl_inv s → ctl_inv (set_tasks (<[g := w']> (tasks s)) s).
Proof.
  intros Hw Hch Hl Ha []. split; simpl; try done.
  - intros g' Hg'. destruct (ci_fresh0 g' Hg') as (? & Hn & ?). rewrite lookup_insert_ne by congruence. done.
  - intros g' w0 [[<- <-]|[Hne Hw0]]%lookup_insert_Some; [rewrite Ha|]; by apply ci_task0.
  - intros a g' Hin. destruct (ci_pending0 a g' Hin) as [Hs|]; [left|by right].
    destruct (decide (g = g')) as [->|]; [rewrite lookup_insert_eq; by eexists|by rewrite lookup_insert_ne].
  - intros g' c Hc Hlc. destruct (ci_live0 g' c Hc Hlc) as (w0 & Hw0 & Hs).
    destruct (decide (g = g')) as [->|]; [|exists w0; by rewrite lookup_insert_ne].
    exists w'. rewrite lookup_insert_eq, Ha. split; [done|]. congruence.
  - intros g' w0 c [[<- <-]|[Hne Hw0]]%lookup_insert_Some Hc Hd; [congruence|by eapply ci_dead0].
Qed.

Lemma ctl_inv_worker_step g e s s' : ctl_inv s → worker_step g e s = Steps s' → ctl_inv s'.
Proof.
  intros Hs Hx. unfold worker_step in Hx. destruct (tasks s !! g) as [w|] eqn:Hw; [|done].
  destruct (channels s !! g) as [ch|] eqn:Hch; [|done]. destruct (live ch) eqn:Hl; [|done].
  destruct (exec_worker _ _ w _ e) as [[w' sh']| |] eqn:Hx'; simplify_eq.
  apply exec_worker_address in Hx'. eapply (ctl_inv_task g w w' ch (set_shared sh' s)); try done.
  by apply (ctl_inv_ext s).
Qed.

Lemma find_running g l a :
  NoDup l.*2 → fst <$> List.find (λ x : ServerAddress * Z, x.2 =? g) l = Some a → (a, g) ∈ l.
Proof.
  intros Hnd Hf. destruct (List.find _ l) as [[b g']|] eqn:E; simplify_eq/=.
  apply find_some in E as [Hin Heq%Z.eqb_eq]. simpl in Heq. subst. by apply list_elem_of_In.
Qed.

Lemma running_unique (l : list (ServerAddress * Z)) a b g : NoDup l.*2 → (a, g) ∈ l → (b, g) ∈ l → a = b.
Proof.
  induction l as [|[c h] l IH]; intros Hnd Ha Hb; [by apply elem_of_nil in Ha|]. simpl in Hnd.
  apply NoDup_cons in Hnd as [Hn Hnd].
  apply elem_of_cons in Ha as [[= -> ->]|Ha]; apply elem_of_cons in Hb as [[= ->]|Hb]; try done; [| |by apply IH].
  - destruct Hn. apply list_elem_of_fmap. by exists (b, h).
  - simplify_eq. destruct Hn. apply list_elem_of_fmap. by exists (a, h).
Qed.

Lemma elem_of_filter_gen (l : list (ServerAddress * Z)) g x :
  x ∈ List.filter (λ x, negb (x.2 =? g)) l ↔ x ∈ l ∧ x.2 ≠ g.
Proof. by rewrite !list_elem_of_In, filter_In, negb_true_iff, Z.eqb_neq. Qed.

Lemma NoDup_filter_gen (l : list (ServerAddress * Z)) g :
  NoDup l.*2 → NoDup (List.filter (λ x, negb (x.2 =? g)) l).*2.
Proof.
  induction l as [|[a h] l IH]; simpl; [done|]. intros [Hn Hnd]%NoDup_cons.
  destruct (negb (h =? g)); simpl; [|by apply IH]. apply NoDup_cons. split; [|by apply IH].
  intros ([b h'] & -> & [Hin _]%elem_of_filter_gen)%list_elem_of_fmap. destruct Hn. apply list_elem_of_fmap. by exists (b, h').
Qed.

(** Reaping a completion: the slot, if it is this worker's, goes with the future. *)
Lemma ctl_inv_completion g s r s' : ctl_inv s → next_completion g s = Some (r, s') → ctl_inv s'.
Proof.
  intros Hs Hx. unfold next_completion, take_completion in Hx. pose proof Hs as [].
  destruct (results s !! g) as [r0|] eqn:Hr; [|done].
  destruct (fst <$> List.find (λ x, x.2 =? g) (running s)) as [a|] eqn:Hf; [|done]. cbn in Hx.
  apply find_running in Hf as Hin; [|done].
  assert (tasks s !! g = None) as Hnt.
  { destruct (tasks s !! g) as [w|] eqn:Hw; [|done]. destruct (ci_task0 g w Hw) as (_ & ? & _). congruence. }
  assert (∀ g' ch, channels s !! g' = Some ch → live ch = true → g' ≠ g) as Hlive.
  { intros g' ch Hc Hl ->. destruct (ci_live0 g ch Hc Hl) as (w & Hw & _). congruence. }
  assert (∀ b, (b, g) ∈ running s → b = a) as Huniq by (intros b Hb; by eapply running_unique).
  assert (∀ ws n, n = Z.of_nat (size ws) → (∀ b h, ws !! b = Some h → workers s !! b = Some h ∧ h ≠ g) →
    (∀ b h, workers s !! b = Some h → h ≠ g → ws !! b = Some h) →
    ctl_inv (mkSystem ws (List.filter (λ x, negb (x.2 =? g)) (running s)) (channels s) (tasks s) (results s)
      (next_generation s) n (shutdown s) (orderly s) (shared s) (hints s) (phase s))) as Hkey.
  { intros ws n Hn Hws Hws'. split; simpl; try done.
    - intros b h [Hb Hne]%Hws. apply elem_of_filter_gen. auto.
    - by apply NoDup_filter_gen.
    - intros h Hh. destruct (ci_fresh0 h Hh) as (? & ? & ? & Hnr). split_and!; [done..|].
      intros ([b h'] & -> & [Hb _]%elem_of_filter_gen)%list_elem_of_fmap. apply Hnr, list_elem_of_fmap. by exists (b, h').
    - intros h w Hw. destruct (ci_task0 h w Hw) as (? & ? & ?). split_and!; [|done|done].
      apply elem_of_filter_gen. split; [done|]. simpl. congruence.
    - intros b h [Hb _]%elem_of_filter_gen. by eapply ci_pending0.
    - intros h ch Hc Hl. destruct (ci_live0 h ch Hc Hl) as (w & Hw & Hsl). exists w. split; [done|].
      apply Hws'; [done|]. by eapply Hlive. }
  case_bool_decide as Hcur; simpl in Hcur; simplify_eq; apply Hkey; simpl.
  - rewrite map_size_delete_Some by by eexists.
    assert (size (workers s) ≠ O) by (apply (map_size_ne_0_lookup_2 _ a); by eexists). lia.
  - intros b h [Hne Hb]%lookup_delete_Some. split; [done|]. intros ->. apply Hne. symmetry. auto.
  - intros b h Hb Hne. apply lookup_delete_Some. split; [|done]. congruence.
  - done.
  - intros b h Hb. split; [done|]. intros ->. assert (b = a) by auto. congruence.
  - done.
Qed.

(** A worker that has decided to return drops its control, then completes. *)
Lemma ctl_inv_kill g w ch r s :
  tasks s !! g = Some w → worker_state w = Returning r → channels s !! g = Some ch →
  ctl_inv s → ctl_inv (set_channels (<[g := mkChannel (intent ch) (version ch) false]> (channels s)) s).
Proof.
  intros Hw Hst Hch []. split; simpl; try done.
  - intros g' Hg'. destruct (ci_fresh0 g' Hg') as (Hn & ?). rewrite lookup_insert_ne; [done|]. congruence.
  - intros g' w' Hw'. destruct (ci_task0 g' w' Hw') as (? & ? & ?). split_and!; [done|done|].
    destruct (decide (g = g')) as [->|Hne]; [rewrite lookup_insert_eq; by eexists|by rewrite lookup_insert_ne].
  - intros g' c [[-> <-]|[Hne Hc]]%lookup_insert_Some Hlive; [done|by eapply ci_live0].
  - intros g' w' c Hw' [[-> <-]|[Hne Hc]]%lookup_insert_Some Hdead; [|by eapply ci_dead0]. exists r. congruence.
Qed.

Lemma ctl_inv_join g w r s :
  tasks s !! g = Some w → is_live s g = false → ctl_inv s →
  ctl_inv (mkSystem (workers s) (running s) (channels s) (delete g (tasks s)) (<[g := r]> (results s))
             (next_generation s) (shared_worker_count s) (shutdown s) (orderly s) (shared s) (hints s) (phase s)).
Proof.
  intros Hw Hl []. split; simpl; try done.
  - intros g' Hg'. destruct (ci_fresh0 g' Hg') as (? & Ht & Hr & ?). rewrite lookup_insert_ne by congruence.
    split_and!; [done| |done|done]. apply lookup_delete_None. by right.
  - intros g' w' [Hne Hw']%lookup_delete_Some. destruct (ci_task0 g' w' Hw') as (? & ? & ?).
    rewrite lookup_insert_ne by done. done.
  - intros a g' Hin. destruct (decide (g = g')) as [->|Hne]; [right; rewrite lookup_insert_eq; by eexists|].
    rewrite lookup_delete_ne, lookup_insert_ne by done. by eapply ci_pending0.
  - intros g' ch Hc Hlc. destruct (ci_live0 g' ch Hc Hlc) as (w' & Hw' & Hs). exists w'. split; [|done].
    apply lookup_delete_Some. split; [|done]. intros ->. unfold is_live in Hl. rewrite Hc in Hl. congruence.
  - intros g' w' ch [Hne Hw']%lookup_delete_Some. by apply ci_dead0.
Qed.

Lemma completed_inv r s : ctl_inv s → ctl_inv (completed r s).
Proof. intros Hs. unfold completed. destruct (phase s) as [| | | |[]|], r; auto with runewarp. Qed.

Lemma ctl_inv_exec s a s' : ctl_inv s → exec s a = Steps s' → ctl_inv s'.
Proof.
  intros Hs Hx. destruct a; cbn [exec] in Hx.
  - destruct (phase s) as [[|b todo]| | | | |]; simplify_eq; apply ctl_inv_phase; [done|by apply ctl_inv_add].
  - destruct (phase s), (convergence (shared s)); try done.
    destruct (_ && _); simplify_eq. apply ctl_inv_phase. by apply (ctl_inv_ext s).
  - destruct (phase s) as [| |desired [|b existing]| | |]; simplify_eq; apply ctl_inv_phase; [done|by apply ctl_inv_review].
  - destruct (phase s) as [| | |[|b todo]| |]; simplify_eq; apply ctl_inv_phase; [done|by apply ctl_inv_add_missing].
  - destruct (next_completion generation s) as [[r s1]|] eqn:Hc; [|by destruct (phase s)].
    apply ctl_inv_completion in Hc; [|done]. destruct (phase s); simplify_eq; destruct r; try done; by apply completed_inv.
  - destruct (phase s); simplify_eq. auto with runewarp.
  - destruct (phase s); try done. destruct (shutdown s); simplify_eq. auto with runewarp.
  - destruct (phase s); try done. destruct (running s); simplify_eq. auto with runewarp.
  - by eapply ctl_inv_worker_step.
  - destruct (tasks s !! generation) as [w|] eqn:Hw; [|done]. simpl in Hx.
    destruct (worker_state w) eqn:Hst; try done.
    destruct (channels s !! generation) as [ch|] eqn:Hch; [|done]. destruct (live ch) eqn:Hl; simplify_eq.
    by eapply ctl_inv_kill.
  - destruct (tasks s !! generation) as [w|] eqn:Hw; [|done]. simpl in Hx.
    destruct (worker_state w) eqn:Hst; try done. destruct (is_live s generation) eqn:Hl; simplify_eq.
    by eapply ctl_inv_join.
  - simplify_eq. by apply (ctl_inv_ext s).
  - destruct (orderly s); simplify_eq. auto with runewarp.
  - destruct (hint_sender _); simplify_eq. by apply (ctl_inv_ext s).
  - simplify_eq. by apply (ctl_inv_ext s).
Qed.

(** ** Intents follow the assignment *)

Definition assigned_in (sh : Shared (G := G)) : gset ServerAddress :=
  match convergence sh with Some t => assigned t | None => ∅ end.

(** The live workers outside [except] have the intent that [desired] gives them. *)
Definition agrees (s : System) (desired : gset ServerAddress) (except : list ServerAddress) : Prop :=
  ∀ a g ch, workers s !! a = Some g → channels s !! g = Some ch → live ch = true → a ∉ except →
    intent ch = Maintain ↔ a ∈ desired.

Definition intent_inv (s : System) : Prop :=
  match phase s with
  | Selecting => agrees s (assigned_in (shared s)) []
  | Reviewing desired existing =>
      assigned_in (shared s) = list_to_set desired ∧ agrees s (assigned_in (shared s)) existing
  | Adding todo =>
      agrees s (assigned_in (shared s)) [] ∧
      (∀ a, a ∈ todo → a ∈ assigned_in (shared s)) ∧
      ∀ a, a ∈ assigned_in (shared s) → a ∈ todo ∨ is_Some (workers s !! a)
  | _ => True
  end.

(** Fewer slots, fewer receivers: less to agree on. *)
Lemma agrees_mono s s' desired except :
  agrees s desired except →
  (∀ a g ch, workers s' !! a = Some g → channels s' !! g = Some ch → live ch = true →
     ∃ ch0, workers s !! a = Some g ∧ channels s !! g = Some ch0 ∧ live ch0 = true ∧ intent ch0 = intent ch) →
  agrees s' desired except.
Proof.
  intros Ha Hm a g ch Hw Hc Hl Hn. destruct (Hm a g ch Hw Hc Hl) as (ch0 & Hw0 & Hc0 & Hl0 & <-). by eapply Ha.
Qed.

Lemma exec_worker_assigned ctl hs (w w' : Worker (G := G)) sh sh' e :
  exec_worker ctl hs w sh e = Steps (w', sh') →
  assigned_in sh' = assigned_in sh ∧ (convergence sh' = None ↔ convergence sh = None).
Proof.
  assert (∀ a tok sh, assigned_in (drop_carry a tok sh) = assigned_in sh ∧
    (convergence (drop_carry a tok sh) = None ↔ convergence sh = None)) as Hdrop.
  { intros a [tok|] [[t|] r c]; unfold drop_carry, assigned_in; simpl; try done. unfold drop_carrying.
    by destruct (carrying_credit t !! a). }
  assert (∀ a k g n h sh x sh', start_active a k g n h sh = (x, sh') → assigned_in sh' = assigned_in sh ∧
    (convergence sh' = None ↔ convergence sh = None)) as Hstart.
  { intros a k g n h [[t|] r c] x sh1; unfold start_active, carry, assigned_in; simpl; by intros [= <- <-]. }
  intros Hx. unfold exec_worker in Hx.
  destruct e, (worker_state w) as [| | |o|k g n|k g n|c|r|r|n|r]; try done.
  all: try (repeat case_match; simplify_eq/=; done).
  - simplify_eq/=. destruct sh as [[t|] r c], (connected_once w); unfold claim_client_ready_log, assigned_in; simpl; by destruct c.
  - unfold start_run in Hx. destruct (start_active _ _ _ _ _ _) as [x sh1] eqn:Hs, (reconcile _ _ _ _ _ _). simplify_eq/=. by eapply Hstart.
  - destruct e as [r|r| | | | |reached]; cbn [exec_run] in Hx.
    + unfold primary_ended in Hx. destruct (joined c); simplify_eq/=; apply Hdrop.
    + destruct (joined c); simplify_eq/=. apply Hdrop.
    + by destruct (negb (shutdown_started c) && orderly_started ctl); simplify_eq/=.
    + by destruct (maintenance_changed ctl hs c w); simplify_eq/=.
    + by destruct (hints_changed ctl hs c w); simplify_eq/=.
    + by destruct (candidate c); simplify_eq/=.
    + destruct (candidate c) as [| |t] eqn:Ec; try done. unfold settle in Hx. rewrite Ec in Hx. simpl in Hx.
      destruct (generation_gate t reached) as [k g n| |m]; simplify_eq/=; try done.
      destruct (negb (allows_candidates ctl (shutdown_started c))); simplify_eq/=; [done|].
      destruct (negb (still_hints t (hs (connection (primary c))) (primary c))); simplify_eq/=; [done|].
      destruct (start_active _ _ _ _ _ _) as [x sh1] eqn:Hs. simplify_eq/=. by eapply Hstart.
  - simplify_eq/=. destruct sh as [[t|] r0 c]; unfold observe_disconnected, assigned_in; simpl; [|done].
    unfold mark_disconnected. by case_bool_decide.
Qed.

(** A slot whose worker is live is the only one with its generation. *)
Lemma live_slot s a g ch b :
  ctl_inv s → channels s !! g = Some ch → live ch = true → workers s !! a = Some g → workers s !! b = Some g → a = b.
Proof. intros [] Hc Hl Ha Hb. eapply running_unique; [done|by apply ci_slots0..]. Qed.

Lemma agrees_send s a g ch i desired except except' :
  ctl_inv s → agrees s desired except → workers s !! a = Some g → channels s !! g = Some ch → live ch = true →
  (i = Maintain ↔ a ∈ desired) → (∀ b, b ∉ except' → b ∉ except ∨ b = a) →
  agrees (send_intent g i s) desired except'.
Proof.
  intros Hs Hag Ha Hc Hl Hi Hex b g' c Hb Hc' Hlc Hn. unfold send_intent in *. rewrite Hc, Hl in *. simpl in *.
  apply lookup_insert_Some in Hc' as [[<- <-]|[Hne Hc']].
  - simpl. assert (b = a) as -> by by eapply live_slot. done.
  - destruct (Hex b Hn) as [Hn'| ->]; [by eapply Hag|]. congruence.
Qed.

Lemma agrees_review desired a existing s :
  ctl_inv s → agrees s (list_to_set desired) (a :: existing) →
  agrees (review desired a s) (list_to_set desired) existing.
Proof.
  intros Hs Hag.
  assert (∀ b, b ∉ existing → b ∉ a :: existing ∨ b = a) as Hex.
  { intros b Hb. destruct (decide (b = a)); [by right|left]. rewrite not_elem_of_cons. done. }
  assert ((∀ g ch, workers s !! a = Some g → channels s !! g = Some ch → live ch = true →
    intent ch = Maintain ↔ a ∈ desired) → agrees s (list_to_set desired) existing) as Hsame.
  { intros Ha b g ch Hb Hc Hl Hn. destruct (Hex b Hn) as [Hn'| ->]; [by eapply Hag|].
    rewrite elem_of_list_to_set. by eapply Ha. }
  unfold review, re_adopt, remove, maintenance_intent in *.
  destruct (workers s !! a) as [g|] eqn:Ha; simpl.
  2: { repeat case_bool_decide; try (by apply Hsame); done. }
  unfold is_live. destruct (channels s !! g) as [ch|] eqn:Hc; simpl.
  2: { repeat case_bool_decide; try done; apply Hsame; congruence. }
  assert (∀ i, live ch = true → (i = Maintain ↔ a ∈ desired) → agrees (send_intent g i s) (list_to_set desired) existing) as Hsend.
  { intros i Hl Hi. eapply agrees_send; try done. by rewrite elem_of_list_to_set. }
  assert (agrees (drop_slot a s) (list_to_set desired) existing) as Hdrop.
  { intros b g' c Hb Hc' Hl Hn. simpl in Hb. apply lookup_delete_Some in Hb as [Hne Hb]. destruct (Hex b Hn) as [Hn'| ->]; [|done]. by eapply Hag. }
  destruct (bool_decide_reflect (a ∈ desired)) as [Hd|Hd].
  - case_bool_decide as Hr.
    + injection Hr as Hr. rewrite Hr. rewrite (bool_decide_false (Some Retire ≠ Some Retire)) by (intros Hx; by apply Hx).
      destruct (live ch) eqn:Hl; simpl; [by apply Hsend|done].
    + apply Hsame. intros g' c [= <-] Hc' _. assert (c = ch) as -> by congruence. destruct (intent ch); [done|congruence].
  - case_bool_decide as Hm.
    + destruct (live ch) eqn:Hl; simpl; [by apply Hsend|]. apply Hsame. intros g' c [= <-] Hc' Hl'. congruence.
    + apply Hsame. intros g' c [= <-] Hc' _. assert (c = ch) as -> by congruence. split; [congruence|done].
Qed.

Lemma agrees_spawn a s desired :
  ctl_inv s → workers s !! a = None → a ∈ desired → agrees s desired [] → agrees (spawn_worker a s) desired [].
Proof.
  intros Hs Ha Hd Hag b g ch Hb Hc Hl Hn. simpl in Hb, Hc. apply lookup_insert_Some in Hb as [[<- <-]|[Hne Hb]].
  - rewrite lookup_insert_eq in Hc. by injection Hc as <-.
  - apply lookup_insert_Some in Hc as [[<- <-]|[Hne' Hc]]; [|by eapply Hag].
    destruct Hs. apply ci_slots0 in Hb. destruct (ci_fresh0 (next_generation s)) as (_ & _ & _ & Hnr); [lia|].
    destruct Hnr. apply list_elem_of_fmap. by exists (b, next_generation s).
Qed.

Lemma agrees_add_missing a s desired :
  ctl_inv s → a ∈ desired → agrees s desired [] →
  agrees (add_missing a s) desired [] ∧ is_Some (workers (add_missing a s) !! a) ∧
  (∀ b, is_Some (workers s !! b) → is_Some (workers (add_missing a s) !! b)).
Proof.
  intros Hs Hd Hag. unfold add_missing, add. destruct (workers s !! a) as [g|] eqn:Ha.
  - destruct (is_live s g) eqn:Hl; [by rewrite Ha|]. simpl. split_and!.
    + apply agrees_spawn; [by eapply ctl_inv_drop|apply lookup_delete_eq|done|].
      eapply agrees_mono; [done|]. intros b g' ch Hb Hc Hlc. simpl in Hb.
      apply lookup_delete_Some in Hb as [_ Hb]. by exists ch.
    + rewrite lookup_insert_eq. by eexists.
    + intros b Hb. destruct (decide (a = b)) as [->|]; [rewrite lookup_insert_eq; by eexists|].
      by rewrite lookup_insert_ne, lookup_delete_ne.
  - simpl. split_and!.
    + by apply agrees_spawn.
    + rewrite lookup_insert_eq. by eexists.
    + intros b Hb. destruct (decide (a = b)) as [->|]; [rewrite lookup_insert_eq; by eexists|by rewrite lookup_insert_ne].
Qed.

Lemma intent_inv_ext s s' :
  phase s' = phase s → assigned_in (shared s') = assigned_in (shared s) →
  (∀ a, workers s' !! a = workers s !! a) →
  (∀ g ch, channels s' !! g = Some ch → live ch = true →
     ∃ ch0, channels s !! g = Some ch0 ∧ live ch0 = true ∧ intent ch0 = intent ch) →
  intent_inv s → intent_inv s'.
Proof.
  intros Hp Ha Hw Hc. unfold intent_inv. rewrite Hp, Ha.
  assert (∀ D ex, agrees s D ex → agrees s' D ex) as Hm.
  { intros D ex Hag. eapply agrees_mono; [done|]. intros a g ch Hwa Hca Hl. rewrite Hw in Hwa.
    destruct (Hc g ch Hca Hl) as (ch0 & ? & ? & ?). by exists ch0. }
  destruct (phase s); try done; [by apply Hm|..].
  - intros [? ?]. auto.
  - intros (? & ? & ?). split_and!; auto. intros a. rewrite Hw. auto.
Qed.

Lemma next_completion_frame g s r s' :
  next_completion g s = Some (r, s') →
  phase s' = phase s ∧ shared s' = shared s ∧ channels s' = channels s ∧ tasks s' = tasks s ∧
  shutdown s' = shutdown s ∧ (∀ a h, workers s' !! a = Some h → workers s !! a = Some h) ∧
  (∀ x, x ∈ running s' → x ∈ running s).
Proof.
  unfold next_completion, take_completion. destruct (results s !! g); [|done].
  destruct (fst <$> List.find (λ x, x.2 =? g) (running s)) as [a|]; [|done]. cbn.
  assert (∀ x, x ∈ List.filter (λ x, negb (x.2 =? g)) (running s) → x ∈ running s) as Hsub.
  { by intros x [? _]%elem_of_filter_gen. }
  case_bool_decide; intros [= <- <-]; simpl; split_and!; try done. by intros b h [_ ?]%lookup_delete_Some.
Qed.

Lemma intent_inv_exec s a s' : ctl_inv s → intent_inv s → exec s a = Steps s' → intent_inv s'.
Proof.
  intros Hs Hi Hx. destruct a; cbn [exec] in Hx.
  - by destruct (phase s) as [[|b todo]| | | | |]; simplify_eq.
  - unfold intent_inv in Hi. destruct (phase s), (convergence (shared s)) as [t|] eqn:Ht; try done.
    destruct (bool_decide (NoDup existing)), (bool_decide_reflect (list_to_set existing = dom (workers s))) as [Hdom|];
      simplify_eq/=. split; [done|].
    intros b g ch Hb _ _ Hn. destruct Hn. simpl in Hb. apply (elem_of_list_to_set (C := gset ServerAddress)).
    rewrite Hdom. by apply elem_of_dom_2 in Hb.
  - unfold intent_inv in Hi. destruct (phase s) as [| |desired [|b existing]| | |]; simplify_eq; destruct Hi as [Has Hag].
    + unfold intent_inv. simpl. rewrite Has in *. split_and!; [done| |]; intros b; rewrite elem_of_list_to_set; auto.
    + unfold intent_inv. simpl. assert (shared (review desired b s) = shared s) as Hsh.
      { unfold review, re_adopt, remove, send_intent. repeat case_match; by simplify_eq. }
      rewrite Hsh, Has in *. split; [done|]. by apply agrees_review.
  - unfold intent_inv in Hi. destruct (phase s) as [| | |[|b todo]| |]; simplify_eq; destruct Hi as (Hag & Hin & Hall).
    + done.
    + unfold intent_inv. simpl. assert (shared (add_missing b s) = shared s) as Hsh.
      { unfold add_missing, add, send_intent. repeat case_match; by simplify_eq. }
      rewrite Hsh. destruct (agrees_add_missing b s (assigned_in (shared s)) Hs) as (Hag' & Hb & Hkeep);
        [apply Hin; by left|done|]. split_and!; [done| |].
      * intros c Hc. apply Hin. by right.
      * intros c Hc. destruct (Hall c Hc) as [[-> |Ht]%elem_of_cons|Hw]; auto.
  - destruct (next_completion generation s) as [[r s1]|] eqn:Hc; [|by destruct (phase s)].
    apply next_completion_frame in Hc as (Hp & Hsh & Hch & _ & _ & Hw & _).
    assert (phase s = Selecting → agrees s1 (assigned_in (shared s1)) []) as Hag.
    { intros Hsel. unfold intent_inv in Hi. rewrite Hsel in Hi. rewrite Hsh. eapply agrees_mono; [done|].
      intros b g ch Hb Hcb Hl. rewrite Hch in Hcb. exists ch. auto. }
    destruct (phase s) eqn:Ep; simplify_eq; unfold intent_inv.
    + destruct r as [[?|?]|]; unfold completed; rewrite ?Hp; simpl; rewrite ?Hp; auto.
    + destruct r as [[?|?]|]; unfold completed; rewrite ?Hp; [..|done]; destruct first_error; simpl; by rewrite ?Hp.
  - by destruct (phase s); simplify_eq.
  - destruct (phase s); try done. by destruct (shutdown s); simplify_eq.
  - destruct (phase s); try done. by destruct (running s); simplify_eq.
  - unfold worker_step in Hx. destruct (tasks s !! generation) as [w|]; [|done].
    destruct (channels s !! generation) as [ch|]; [|done]. destruct (live ch); [|done].
    destruct (exec_worker _ _ w _ e) as [[w' sh']| |] eqn:Hx'; simplify_eq.
    apply exec_worker_assigned in Hx' as [Has _]. revert Hi. apply intent_inv_ext; try done. simpl. by eauto.
  - destruct (worker_state <$> tasks s !! generation) as [[]|]; try done.
    destruct (channels s !! generation) as [ch|] eqn:Hch; [|done]. destruct (live ch) eqn:Hl; simplify_eq.
    revert Hi. apply intent_inv_ext; try done. simpl.
    intros g c [[<- <-]|[Hne Hc]]%lookup_insert_Some Hlc; [done|by exists c].
  - destruct (worker_state <$> tasks s !! generation) as [[]|]; try done. destruct (is_live s generation); simplify_eq.
    revert Hi. apply intent_inv_ext; try done. simpl. by eauto.
  - simplify_eq. revert Hi. apply intent_inv_ext; try done. simpl. by eauto.
  - destruct (orderly s); simplify_eq. revert Hi. apply intent_inv_ext; try done. simpl. by eauto.
  - destruct (hint_sender _); simplify_eq. revert Hi. apply intent_inv_ext; try done. simpl. by eauto.
  - simplify_eq. revert Hi. apply intent_inv_ext; try done. simpl. by eauto.
Qed.

(** ** The tracker follows the workers *)

(** Between [observe_connected] and [observe_disconnected]. *)
Definition in_connected (st : WorkerState (G := G)) : bool :=
  match st with Observed _ _ _ | Running _ | RunEnded _ => true | _ => false end.

Definition tracker_inv (s : System) : Prop :=
  ∀ t, convergence (shared s) = Some t → ∀ a,
    a ∈ connected t ↔ ∃ g w, tasks s !! g = Some w ∧ address w = a ∧ in_connected (worker_state w) = true.

(** How a step of a worker moves the connected set. *)
Lemma exec_worker_connected ctl hs (w w' : Worker (G := G)) sh sh' e t t' :
  exec_worker ctl hs w sh e = Steps (w', sh') → convergence sh = Some t → convergence sh' = Some t' →
  (connected t' = connected t ∧ in_connected (worker_state w') = in_connected (worker_state w)) ∨
  (connected t' = {[address w]} ∪ connected t ∧ in_connected (worker_state w') = true) ∨
  (connected t' = connected t ∖ {[address w]} ∧ in_connected (worker_state w') = false).
Proof.
  assert (∀ a tok (sh : Shared (G := G)) t t', convergence sh = Some t → convergence (drop_carry a tok sh) = Some t' →
    connected t' = connected t) as Hdrop.
  { intros a [tok|] [[t1|] r c] t2 t3; unfold drop_carry; simpl; intros [= <-] [= <-]; try done.
    unfold drop_carrying. by destruct (carrying_credit t1 !! a). }
  assert (∀ a k g n h (sh : Shared (G := G)) x sh' t t', start_active a k g n h sh = (x, sh') → convergence sh = Some t →
    convergence sh' = Some t' → connected t' = connected t) as Hstart.
  { intros a k g n h [[t1|] r c] x sh1 t2 t3; unfold start_active, carry; simpl; by intros [= <- <-] [= <-] [= <-]. }
  intros Hx Ht Ht'. unfold exec_worker in Hx.
  destruct e, (worker_state w) as [| | |o|k g n|k g n|c|r|r|n|r] eqn:Es; try done.
  all: try (left; repeat case_match; simplify_eq/=; (split; [congruence|done])).
  - right. left. simplify_eq/=. destruct sh as [[t1|] r c], (connected_once w); simplify_eq/=; try done.
    unfold claim_client_ready_log in Ht'. by destruct c; simplify_eq/=.
  - left. unfold start_run in Hx. destruct (start_active _ _ _ _ _ _) as [x sh1] eqn:Hs, (reconcile _ _ _ _ _ _).
    simplify_eq/=. split; [by eapply Hstart|done].
  - left. pose proof (exec_run_state _ _ _ _ _ _ _ _ Hx) as Hst.
    assert (in_connected (worker_state w') = true) as ->.
    { by destruct Hst as [[c' ->]|(r & _ & ->)]. }
    split; [|done]. destruct e as [r|r| | | | |reached]; cbn [exec_run] in Hx.
    + unfold primary_ended in Hx. destruct (joined c); simplify_eq/=; by eapply Hdrop.
    + destruct (joined c); simplify_eq/=. by eapply Hdrop.
    + destruct (negb (shutdown_started c) && orderly_started ctl); simplify_eq/=. congruence.
    + destruct (maintenance_changed ctl hs c w); simplify_eq/=. congruence.
    + destruct (hints_changed ctl hs c w); simplify_eq/=. congruence.
    + destruct (candidate c); simplify_eq/=. congruence.
    + destruct (candidate c) as [| |t0] eqn:Ec; try done. unfold settle in Hx. rewrite Ec in Hx. simpl in Hx.
      destruct (generation_gate t0 reached) as [k g n| |m]; simplify_eq/=; try congruence.
      destruct (negb (allows_candidates ctl (shutdown_started c))); simplify_eq/=; [congruence|].
      destruct (negb (still_hints t0 (hs (connection (primary c))) (primary c))); simplify_eq/=; [congruence|].
      destruct (start_active _ _ _ _ _ _) as [x sh1] eqn:Hs. simplify_eq/=. by eapply Hstart.
  - right. right. simplify_eq/=. rewrite Ht in Ht'. simpl in Ht'. injection Ht' as <-. split; [|done].
    unfold mark_disconnected. case_bool_decide as Hin; [done|]. simpl. apply set_eq. intros x.
    rewrite elem_of_difference, elem_of_singleton. split; [|tauto]. intros Hx. split; [done|]. intros ->. done.
Qed.

(** The other workers of an address have decided to return. *)
Lemma other_worker_returning s g w ch g' w' :
  ctl_inv s → tasks s !! g = Some w → channels s !! g = Some ch → live ch = true →
  tasks s !! g' = Some w' → address w' = address w → g' ≠ g → ∃ r, worker_state w' = Returning r.
Proof.
  intros [] Hw Hc Hl Hw' Ha Hne. destruct (ci_task0 g' w' Hw') as (_ & _ & ch' & Hc').
  destruct (live ch') eqn:Hl'; [|by eapply ci_dead0]. exfalso.
  destruct (ci_live0 g ch Hc Hl) as (w1 & Hw1 & Hs1), (ci_live0 g' ch' Hc' Hl') as (w2 & Hw2 & Hs2).
  simplify_eq. rewrite Ha in Hs2. congruence.
Qed.

Lemma tracker_inv_worker s g e s' : ctl_inv s → tracker_inv s → worker_step g e s = Steps s' → tracker_inv s'.
Proof.
  intros Hs Hi Hx. unfold worker_step in Hx. destruct (tasks s !! g) as [w|] eqn:Hw; [|done].
  destruct (channels s !! g) as [ch|] eqn:Hc; [|done]. destruct (live ch) eqn:Hl; [|done].
  destruct (exec_worker _ _ w _ e) as [[w' sh']| |] eqn:Hx'; simplify_eq. intros t' Ht' a. simpl in *.
  pose proof (exec_worker_address _ _ _ _ _ _ _ Hx') as Haddr. pose proof (exec_worker_assigned _ _ _ _ _ _ _ Hx') as [_ Hnone].
  destruct (convergence (shared s)) as [t|] eqn:Ht; [|rewrite (proj2 Hnone) in Ht' by done; done].
  assert (∀ b, b ≠ address w → (∃ g0 w0, <[g:=w']> (tasks s) !! g0 = Some w0 ∧ address w0 = b ∧ in_connected (worker_state w0) = true)
    ↔ b ∈ connected t) as Hother.
  { intros b Hb. rewrite (Hi t Ht b). split; intros (g0 & w0 & Hg0 & Ha0 & Hc0); exists g0, w0.
    - apply lookup_insert_Some in Hg0 as [[<- <-]|[Hne Hg0]]; [congruence|done].
    - rewrite lookup_insert_ne; [done|]. intros <-. congruence. }
  assert ((∃ g0 w0, <[g:=w']> (tasks s) !! g0 = Some w0 ∧ address w0 = address w ∧ in_connected (worker_state w0) = true)
    ↔ in_connected (worker_state w') = true) as Hself.
  { split.
    - intros (g0 & w0 & Hg0 & Ha0 & Hc0). apply lookup_insert_Some in Hg0 as [[<- <-]|[Hne Hg0]]; [done|].
      destruct (other_worker_returning s g w ch g0 w0) as [r Hr]; try done. by rewrite Hr in Hc0.
    - intros Hc0. exists g, w'. by rewrite lookup_insert_eq. }
  assert (address w ∈ connected t ↔ in_connected (worker_state w) = true) as Hold.
  { rewrite (Hi t Ht). split; [|by eauto]. intros (g0 & w0 & Hg0 & Ha0 & Hc0).
    destruct (decide (g0 = g)) as [->|Hne]; [congruence|].
    destruct (other_worker_returning s g w ch g0 w0) as [r Hr]; try done. by rewrite Hr in Hc0. }
  pose proof (exec_worker_connected _ _ _ _ _ _ _ _ _ Hx' Ht Ht') as Hmove.
  destruct (decide (a = address w)) as [->|Hne].
  - rewrite Hself. destruct Hmove as [[-> ->]|[[-> ->]|[-> ->]]]; [done| |].
    + rewrite elem_of_union, elem_of_singleton. tauto.
    + rewrite elem_of_difference, elem_of_singleton. split; [tauto|done].
  - rewrite (Hother a Hne). destruct Hmove as [[-> _]|[[-> _]|[-> _]]]; [done| |].
    + rewrite elem_of_union, elem_of_singleton. tauto.
    + rewrite elem_of_difference, elem_of_singleton. tauto.
Qed.

(** A step outside the workers: the connected ones stay as they are. *)
Definition keeps_connected (s s' : System) : Prop :=
  (∀ t', convergence (shared s') = Some t' → ∃ t, convergence (shared s) = Some t ∧ connected t' = connected t) ∧
  ∀ g w, in_connected (worker_state w) = true → tasks s' !! g = Some w ↔ tasks s !! g = Some w.

Lemma tracker_inv_keeps s s' : keeps_connected s s' → tracker_inv s → tracker_inv s'.
Proof.
  intros [Hc Ht] Hi t' Ht' a. destruct (Hc t' Ht') as (t & Hconv & ->). rewrite (Hi t Hconv a).
  split; intros (g & w & Hw & Ha & Hcon); exists g, w; by rewrite Ht in * || rewrite <- Ht in *.
Qed.

Lemma keeps_connected_same s s' : shared s' = shared s → tasks s' = tasks s → keeps_connected s s'.
Proof. intros Hs Ht. split; rewrite ?Hs, ?Ht; [by eauto|done]. Qed.

Lemma keeps_connected_spawn a s : ctl_inv s → keeps_connected s (spawn_worker a s).
Proof.
  intros [] . split; [by eauto|]. intros g w Hc. simpl. rewrite lookup_insert_Some.
  destruct (ci_fresh0 (next_generation s)) as (_ & Hn & _); [lia|]. split.
  - intros [[<- <-]|[_ ?]]; done.
  - intros Hw. right. split; [congruence|done].
Qed.

Lemma keeps_connected_trans s1 s2 s3 : keeps_connected s1 s2 → keeps_connected s2 s3 → keeps_connected s1 s3.
Proof.
  intros [Hc1 Ht1] [Hc2 Ht2]. split.
  - intros t3 H3. destruct (Hc2 t3 H3) as (t2 & H2 & ->). auto.
  - intros g w Hw. by rewrite Ht2, Ht1.
Qed.

Lemma keeps_connected_add a s : ctl_inv s → keeps_connected s (add a s).1.
Proof.
  intros Hs. unfold add. destruct (workers s !! a) as [g|] eqn:Ha; [|by apply keeps_connected_spawn].
  destruct (is_live s g) eqn:Hl.
  - case_bool_decide; simpl; [by apply keeps_connected_same|]. unfold send_intent.
    repeat case_match; by apply keeps_connected_same.
  - simpl. apply (keeps_connected_trans _ (drop_slot a s)); [by apply keeps_connected_same|].
    apply keeps_connected_spawn. by eapply ctl_inv_drop.
Qed.

Lemma keeps_connected_exec s a s' :
  ctl_inv s → (∀ g e, a ≠ WorkerStep g e) → exec s a = Steps s' → keeps_connected s s'.
Proof.
  intros Hs Ha Hx. destruct a; cbn [exec] in Hx.
  - destruct (phase s) as [[|b todo]| | | | |]; simplify_eq; [by apply keeps_connected_same|].
    by apply (keeps_connected_add b).
  - destruct (phase s), (convergence (shared s)) as [t|] eqn:Ht; try done. destruct (_ && _); simplify_eq.
    split; [|done]. simpl. intros t' [= <-]. by exists t.
  - destruct (phase s) as [| |desired [|b existing]| | |]; simplify_eq; [by apply keeps_connected_same|].
    unfold review, re_adopt, remove, send_intent. repeat case_match; simplify_eq/=; by apply keeps_connected_same.
  - destruct (phase s) as [| | |[|b todo]| |]; simplify_eq; [by apply keeps_connected_same|].
    unfold add_missing. destruct (workers s !! b) as [g|]; [destruct (is_live s g); [by apply keeps_connected_same|]|];
      by apply (keeps_connected_add b).
  - destruct (next_completion generation s) as [[r s1]|] eqn:Hc; [|by destruct (phase s)].
    apply next_completion_frame in Hc as (_ & Hsh & _ & Ht & _).
    destruct (phase s); simplify_eq; destruct r as [[?|?]|]; unfold completed; repeat case_match; by apply keeps_connected_same.
  - destruct (phase s); simplify_eq. by apply keeps_connected_same.
  - destruct (phase s); try done. destruct (shutdown s); simplify_eq. by apply keeps_connected_same.
  - destruct (phase s); try done. destruct (running s); simplify_eq. by apply keeps_connected_same.
  - by destruct (Ha generation e).
  - destruct (worker_state <$> tasks s !! generation) as [[]|]; try done.
    destruct (channels s !! generation) as [ch|]; [|done]. destruct (live ch); simplify_eq. by apply keeps_connected_same.
  - destruct (tasks s !! generation) as [w|] eqn:Hw; [|done]. simpl in Hx. destruct (worker_state w) eqn:Hst; try done.
    destruct (is_live s generation); simplify_eq. split; [by eauto|]. intros g w' Hc. simpl. rewrite lookup_delete_Some.
    split; [tauto|]. intros Hw'. split; [|done]. intros <-. assert (w' = w) as -> by congruence. by rewrite Hst in Hc.
  - simplify_eq. by apply keeps_connected_same.
  - destruct (orderly s); simplify_eq. by apply keeps_connected_same.
  - destruct (hint_sender _); simplify_eq. by apply keeps_connected_same.
  - simplify_eq. by apply keeps_connected_same.
Qed.

Lemma tracker_inv_exec s a s' : ctl_inv s → tracker_inv s → exec s a = Steps s' → tracker_inv s'.
Proof.
  intros Hs Hi Hx. assert ((∃ g e, a = WorkerStep g e) ∨ ∀ g e, a ≠ WorkerStep g e) as [(g & e & ->)|Hne]
    by (destruct a; (by right) || (left; by eauto)).
  - by eapply tracker_inv_worker.
  - eapply tracker_inv_keeps; [by eapply keeps_connected_exec|done].
Qed.

(** ** Credit guards *)

(** The connections an address worker runs, and the guards they hold. *)
Definition actives (w : Worker (G := G)) : list Active :=
  match worker_state w with Running c => primary c :: option_list (joined c) | _ => [] end.
Definition guard (a : Active (G := G)) : option (Z * G) := (λ token, (token, generation a)) <$> carrying a.
Definition guards (w : Worker (G := G)) : list (Z * G) := omap guard (actives w).
Definition carried (w : Worker (G := G)) : Prop := Forall (λ a, is_Some (carrying a)) (actives w).

(** How a step of a worker moves the guards. *)
Definition moves_guards (w w' : Worker (G := G)) (t t' : ConvergenceState G) : Prop :=
  (carrying_credit t' = carrying_credit t ∧ next_connection t' = next_connection t ∧ guards w' = guards w) ∨
  (∃ gen, carrying_credit t' = carrying_credit (start_carrying (address w) gen t).1 ∧
     next_connection t' = wrapping_add 64 (next_connection t) 1 ∧
     guards w' ≡ₚ (next_connection t, gen) :: guards w) ∨
  (∃ token gen, carrying_credit t' = carrying_credit (drop_carrying (address w) token t) ∧
     next_connection t' = next_connection t ∧ guards w ≡ₚ (token, gen) :: guards w').

Lemma actives_reconciled ctl hs c (w : Worker (G := G)) :
  actives (reconciled ctl hs c w) = primary c :: option_list (joined c).
Proof. unfold actives. by destruct (reconciled_running ctl hs c w) as [cand ->]. Qed.

Lemma drop_guard a token (sh : Shared (G := G)) t :
  convergence sh = Some t → ∃ t', convergence (drop_carry a (Some token) sh) = Some t' ∧
    carrying_credit t' = carrying_credit (drop_carrying a token t) ∧ next_connection t' = next_connection t.
Proof.
  intros Ht. unfold drop_carry. rewrite Ht. simpl. eexists. split; [done|]. split; [done|].
  unfold drop_carrying. by destruct (carrying_credit t !! a).
Qed.

Lemma start_guard a k g n h (sh : Shared (G := G)) x sh' t :
  start_active a k g n h sh = (x, sh') → convergence sh = Some t →
  ∃ t', convergence sh' = Some t' ∧ carrying_credit t' = carrying_credit (start_carrying a g t).1 ∧
    next_connection t' = wrapping_add 64 (next_connection t) 1 ∧ generation x = g ∧
    carrying x = Some (next_connection t).
Proof.
  unfold start_active, carry. intros Hs Ht. rewrite Ht in Hs. simpl in Hs. injection Hs as <- <-. simpl. by eexists.
Qed.

Lemma exec_run_guards ctl hs c (w w' : Worker (G := G)) sh sh' e t :
  worker_state w = Running c → (candidate c ≠ CandidateIdle → joined c = None) →
  exec_run ctl hs c w sh e = Steps (w', sh') → convergence sh = Some t → carried w →
  ∃ t', convergence sh' = Some t' ∧ carried w' ∧ moves_guards w w' t t'.
Proof.
  intros Hw Hexcl Hx Ht Hc. unfold moves_guards, guards, carried in *.
  assert (actives w = primary c :: option_list (joined c)) as Hact by (unfold actives; by rewrite Hw).
  rewrite Hact in *. apply Forall_cons in Hc as [[tok Htok] Hj].
  assert (guard (primary c) = Some (tok, generation (primary c))) as Hg by (unfold guard; by rewrite Htok).
  destruct e as [r|r| | | | |reached]; cbn [exec_run] in Hx.
  - unfold primary_ended in Hx. rewrite Htok in Hx.
    destruct (drop_guard (address w) tok sh t Ht) as (t' & Hcv & Hcc & Hnx).
    destruct (joined c) as [a|] eqn:Ej; simplify_eq/=; exists t'; (split; [done|]).
    + rewrite actives_reconciled. simpl. split; [done|]. right. right. exists tok, (generation (primary c)).
      by rewrite Hg.
    + split; [constructor|]. right. right. exists tok, (generation (primary c)). by rewrite Hg.
  - destruct (joined c) as [a|] eqn:Ej; simplify_eq/=. apply Forall_singleton in Hj as [tok' Htok'].
    assert (guard a = Some (tok', generation a)) as Hga by (unfold guard; by rewrite Htok').
    rewrite Htok'. destruct (drop_guard (address w) tok' sh t Ht) as (t' & Hcv & Hcc & Hnx). exists t'. split; [done|].
    rewrite actives_reconciled. simpl. split; [by repeat constructor|]. right. right. exists tok', (generation a).
    rewrite Hg, Hga. split_and!; [done|done|]. apply Permutation_swap.
  - destruct (negb (shutdown_started c) && orderly_started ctl); simplify_eq/=. exists t. unfold actives. simpl.
    split_and!; [done|constructor; [by eexists|done]|by left].
  - destruct (maintenance_changed ctl hs c w) as [w1|] eqn:Em; simplify_eq/=. exists t. unfold maintenance_changed in Em.
    assert (actives w' = primary c :: option_list (joined c)) as ->.
    { destruct (negb (maintenance_live c)); [done|].
      destruct (changed_channel _ _ _) as [[?|?]|]; simplify_eq/=; [|done]. case_bool_decide; [done|by rewrite actives_reconciled]. }
    split_and!; [done|constructor; [by eexists|done]|by left].
  - destruct (hints_changed ctl hs c w) as [w1|] eqn:Em; simplify_eq/=. exists t. unfold hints_changed in Em.
    assert (∃ p, actives w' = p :: option_list (joined c) ∧ carrying p = carrying (primary c) ∧
      generation p = generation (primary c)) as (p & -> & Hcp & Hgp).
    { destruct (negb (hints_live (primary c))); [done|].
      destruct (changed_channel _ _ _) as [[?|?]|]; simplify_eq/=; [|by eexists]. rewrite actives_reconciled.
      destruct (interruptions _ =? _); by eexists. }
    split_and!; [done|constructor; [rewrite Hcp; by eexists|done]|]. left. split_and!; [done..|]. simpl.
    assert (guard p = guard (primary c)) as -> by (unfold guard; by rewrite Hcp, Hgp). done.
  - destruct (candidate c); simplify_eq/=. exists t. unfold actives. simpl.
    split_and!; [done|constructor; [by eexists|done]|by left].
  - destruct (candidate c) as [| |t0] eqn:Ec; try done. assert (joined c = None) as Hjn by by apply Hexcl.
    assert (∀ w1 c1, worker_state w1 = Running c1 → primary c1 = primary c → joined c1 = None →
      Forall (λ a, is_Some (carrying a)) (actives w1) ∧
      ((carrying_credit t = carrying_credit t ∧ next_connection t = next_connection t ∧
        omap guard (actives w1) = omap guard (primary c :: option_list (joined c))))) as Hkeep.
    { intros w1 c1 Hw1 Hp1 Hj1. unfold actives. rewrite Hw1, Hp1, Hj1, Hjn. split; [constructor; [by eexists|done]|done]. }
    unfold settle in Hx. rewrite Ec in Hx. simpl in Hx.
    destruct (generation_gate t0 reached) as [k g n| |m]; simplify_eq/=.
    2,3: exists t; edestruct Hkeep as [? ?]; [..|split; [done|split; [done|by left]]]; done.
    destruct (negb (allows_candidates ctl (shutdown_started c))); simplify_eq/=;
      [exists t; edestruct Hkeep as [? ?]; [..|split; [done|split; [done|by left]]]; done|].
    destruct (negb (still_hints t0 (hs (connection (primary c))) (primary c))); simplify_eq/=;
      [exists t; edestruct Hkeep as [? ?]; [..|split; [done|split; [done|by left]]]; done|].
    destruct (start_active _ _ _ _ _ _) as [x sh1] eqn:Hs. simplify_eq/=.
    destruct (start_guard _ _ _ _ _ _ _ _ _ Hs Ht) as (t' & Hcv & Hcc & Hnx & Hgx & Hcx). exists t'.
    unfold actives. simpl. split_and!; [done|constructor; [by eexists|constructor; [by eexists|done]]|].
    right. left. exists g. split_and!; [done|done|]. rewrite Hjn. simpl. rewrite Hg. unfold guard. rewrite Hcx, Hgx.
    apply Permutation_swap.
Qed.

Lemma exec_worker_guards ctl hs (w w' : Worker (G := G)) sh sh' e t :
  worker_inv w → exec_worker ctl hs w sh e = Steps (w', sh') → convergence sh = Some t → carried w →
  ∃ t', convergence sh' = Some t' ∧ carried w' ∧ moves_guards w w' t t'.
Proof.
  intros Hinv Hx Ht Hc.
  assert (∀ w1 t1, (∀ c, worker_state w1 ≠ Running c) → (∀ c, worker_state w ≠ Running c) →
    carrying_credit t1 = carrying_credit t → next_connection t1 = next_connection t →
    carried w1 ∧ moves_guards w w1 t t1) as Hkeep.
  { intros w1 t1 H1 H2 Hcc Hnx. unfold carried, moves_guards, guards.
    assert (∀ v : Worker (G := G), (∀ c, worker_state v ≠ Running c) → actives v = []) as Hno.
    { intros v Hv. unfold actives. destruct (worker_state v); try done. by destruct (Hv c). }
    rewrite !Hno by done. split; [apply Forall_nil_2|by left]. }
  unfold exec_worker in Hx.
  destruct e, (worker_state w) as [| | |o|k g n|k g n|c|r|r|n|r] eqn:Es; try done.
  all: try (exists t; repeat case_match; simplify_eq/=; (split; [done|]); apply Hkeep; simpl; congruence).
  - simplify_eq/=. destruct sh as [[t1|] r c]; [|done]. simpl in Ht. injection Ht as ->. unfold observe_connected.
    destruct (connected_once w); unfold claim_client_ready_log; [|destruct c]; simpl; eexists; (split; [done|]);
      apply Hkeep; simpl; congruence.
  - unfold start_run in Hx. destruct (start_active _ _ _ _ _ _) as [x sh1] eqn:Hs, (reconcile _ _ _ _ _ _). simplify_eq/=.
    destruct (start_guard _ _ _ _ _ _ _ _ _ Hs Ht) as (t' & Hcv & Hcc & Hnx & Hgx & Hcx). exists t'. split; [done|].
    unfold carried, moves_guards, guards, actives. rewrite Es. simpl. split; [constructor; [by eexists|done]|].
    right. left. exists g. split_and!; [done|done|]. unfold guard. by rewrite Hcx, Hgx.
  - unfold worker_inv in Hinv. rewrite Es in Hinv. by eapply exec_run_guards.
  - simplify_eq/=. destruct sh as [[t1|] r0 c]; [|done]. simpl in *. injection Ht as ->. eexists. split; [done|].
    apply Hkeep; simpl; [congruence|congruence|..]; unfold mark_disconnected; by case_bool_decide.
Qed.

Definition carrying_at (t : ConvergenceState G) (a : ServerAddress) : list (Z * G) :=
  default [] (carrying_credit t !! a).

Lemma start_carrying_at a gen t b :
  default [] (carrying_credit (start_carrying a gen t).1 !! b) =
  if bool_decide (b = a) then carrying_at t a ++ [(next_connection t, gen)] else carrying_at t b.
Proof.
  simpl. case_bool_decide as Hb; [subst; by rewrite lookup_insert_eq|by rewrite lookup_insert_ne].
Qed.

Lemma drop_carrying_at a token t b :
  default [] (carrying_credit (drop_carrying a token t) !! b) =
  if bool_decide (b = a) then List.filter (λ c, negb (c.1 =? token)) (carrying_at t a) else carrying_at t b.
Proof.
  unfold drop_carrying, carrying_at. destruct (carrying_credit t !! a) as [l|] eqn:Ha.
  - simpl. case_bool_decide as Hl; case_bool_decide as Hb; subst.
    + rewrite lookup_delete_eq. by rewrite Hl.
    + by rewrite lookup_delete_ne.
    + by rewrite lookup_insert_eq.
    + by rewrite lookup_insert_ne.
  - case_bool_decide as Hb; [subst; by rewrite Ha|done].
Qed.

(** A worker that still holds its control. *)
Definition live_task (s : System) (g : Z) (w : Worker (G := G)) : Prop :=
  tasks s !! g = Some w ∧ is_live s g = true.

(** The guards at an address are those of its live worker, and every token is fresh. *)
Record carry_inv (n : Z) (s : System) : Prop := {
  cv_workers : ∀ g w, tasks s !! g = Some w → worker_inv w;
  cv_next : ∀ t, convergence (shared s) = Some t → 0 ≤ next_connection t ≤ n;
  cv_tokens : ∀ t a x, convergence (shared s) = Some t → x ∈ carrying_at t a → x.1 < next_connection t;
  cv_nodup : ∀ t a, convergence (shared s) = Some t → NoDup (carrying_at t a).*1;
  cv_live : ∀ t g w, convergence (shared s) = Some t → live_task s g w →
    carried w ∧ carrying_at t (address w) ≡ₚ guards w;
  cv_none : ∀ t a, convergence (shared s) = Some t → (∀ g w, live_task s g w → address w ≠ a) →
    carrying_at t a = []
}.

Lemma list_filter_perm {A} (f : A → bool) (l k : list A) : l ≡ₚ k → List.filter f l ≡ₚ List.filter f k.
Proof.
  induction 1; simpl; repeat case_match; eauto using Permutation_trans, perm_swap, perm_skip.
Qed.

Lemma filter_token_perm token gen (l k : list (Z * G)) :
  l ≡ₚ (token, gen) :: k → NoDup l.*1 → List.filter (λ c, negb (c.1 =? token)) l ≡ₚ k.
Proof.
  intros Hl Hnd. rewrite Hl in Hnd. rewrite (list_filter_perm _ _ _ Hl). simpl in *. rewrite Z.eqb_refl. simpl.
  apply NoDup_cons in Hnd as [Hn Hnd]. clear Hl l. induction k as [|[tk gn] k IH]; simpl; [done|]. simpl in Hn. rewrite not_elem_of_cons in Hn.
  destruct Hn as [Hne Hn]. destruct (Z.eqb_spec tk token) as [->|]; [done|]. simpl. apply NoDup_cons in Hnd as [_ Hnd].
  by rewrite IH.
Qed.

(** What a move of the guards of one worker means for the lists of all addresses. *)
Lemma moves_guards_at n (w w' : Worker (G := G)) t t' :
  0 ≤ n < 2 ^ 64 - 1 → 0 ≤ next_connection t ≤ n →
  (∀ a x, x ∈ carrying_at t a → x.1 < next_connection t) → (∀ a, NoDup (carrying_at t a).*1) →
  carrying_at t (address w) ≡ₚ guards w → moves_guards w w' t t' →
  0 ≤ next_connection t' ≤ n + 1 ∧ (∀ a x, x ∈ carrying_at t' a → x.1 < next_connection t') ∧
  (∀ a, NoDup (carrying_at t' a).*1) ∧ carrying_at t' (address w) ≡ₚ guards w' ∧
  ∀ a, a ≠ address w → carrying_at t' a = carrying_at t a.
Proof.
  intros Hn Hnx Htok Hnd Hg Hm.
  destruct Hm as [(Hcc & Hnx' & Hgs)|[(gen & Hcc & Hnx' & Hgs)|(token & gen & Hcc & Hnx' & Hgs)]].
  - unfold carrying_at in *. rewrite Hcc, Hnx', Hgs. split_and!; try done; lia.
  - assert (∀ b, carrying_at t' b = if bool_decide (b = address w)
      then carrying_at t (address w) ++ [(next_connection t, gen)] else carrying_at t b) as Hat.
    { intros b. unfold carrying_at at 1. rewrite Hcc. apply start_carrying_at. }
    assert (next_connection t' = next_connection t + 1) as Hn1.
    { rewrite Hnx'. unfold wrapping_add. apply Z.mod_small. lia. }
    rewrite Hn1. split_and!; [lia|lia| | | |].
    + intros a x. rewrite Hat. case_bool_decide; [|intros ?%Htok; lia].
      intros [?%Htok|Hx%list_elem_of_singleton]%elem_of_app; [lia|]. subst. simpl. lia.
    + intros a. rewrite Hat. case_bool_decide; [|done]. rewrite fmap_app. apply NoDup_app. split_and!; [done| |apply NoDup_singleton].
      intros k (x & -> & Hx)%list_elem_of_fmap Hk. simpl in Hk. apply list_elem_of_singleton in Hk. apply Htok in Hx. lia.
    + rewrite Hat, bool_decide_true by done. rewrite Hgs, Hg. apply Permutation_app_comm.
    + intros a Ha. by rewrite Hat, bool_decide_false.
  - assert (∀ b, carrying_at t' b = if bool_decide (b = address w)
      then List.filter (λ c, negb (c.1 =? token)) (carrying_at t (address w)) else carrying_at t b) as Hat.
    { intros b. unfold carrying_at at 1. rewrite Hcc. apply drop_carrying_at. }
    rewrite Hnx'. split_and!; [lia|lia| | | |].
    + intros a x. rewrite Hat. case_bool_decide; [|by apply Htok]. rewrite list_elem_of_In, filter_In, <- list_elem_of_In.
      intros [? _]. by eapply Htok.
    + intros a. rewrite Hat. case_bool_decide; [|done]. specialize (Hnd (address w)). revert Hnd.
      generalize (carrying_at t (address w)). intros l. induction l as [|[k gn] l IH]; simpl; [done|].
      intros [Hk Hl]%NoDup_cons. destruct (negb (k =? token)); simpl; [|auto]. apply NoDup_cons. split; [|auto].
      intros ([k' gn'] & -> & Hx)%list_elem_of_fmap. rewrite list_elem_of_In, filter_In, <- list_elem_of_In in Hx.
      destruct Hx as [Hx _]. destruct Hk. apply list_elem_of_fmap. by exists (k', gn').
    + rewrite Hat, bool_decide_true by done. eapply filter_token_perm; [by rewrite Hg|done].
    + intros a Ha. by rewrite Hat, bool_decide_false.
Qed.

Lemma carry_inv_worker n s g e s' :
  0 ≤ n < 2 ^ 64 - 1 → ctl_inv s → carry_inv n s → worker_step g e s = Steps s' → carry_inv (n + 1) s'.
Proof.
  intros Hn Hs [] Hx. unfold worker_step in Hx. destruct (tasks s !! g) as [w|] eqn:Hw; [|done].
  destruct (channels s !! g) as [ch|] eqn:Hc; [|done]. destruct (live ch) eqn:Hl; [|done].
  destruct (exec_worker _ _ w _ e) as [[w' sh']| |] eqn:Hx'; simplify_eq.
  pose proof (exec_worker_address _ _ _ _ _ _ _ Hx') as Haddr.
  pose proof (exec_worker_assigned _ _ _ _ _ _ _ Hx') as [_ Hnone].
  pose proof (exec_worker_inv _ _ _ _ _ _ _ (cv_workers0 g w Hw) Hx') as Hwi.
  assert (∀ g0 w0, <[g:=w']> (tasks s) !! g0 = Some w0 → worker_inv w0) as Hws.
  { intros g0 w0 [[<- <-]|[Hne Hw0]]%lookup_insert_Some; [done|by eapply cv_workers0]. }
  destruct (convergence (shared s)) as [t|] eqn:Ht.
  2: { assert (convergence sh' = None) as Hnn by by apply Hnone. split; simpl; try (intros; congruence). done. }
  assert (is_live s g = true) as Hlg by (unfold is_live; by rewrite Hc).
  destruct (cv_live0 t g w eq_refl (conj Hw Hlg)) as [Hcar Hg].
  destruct (exec_worker_guards _ _ _ _ _ _ _ _ (cv_workers0 g w Hw) Hx' Ht Hcar) as (t' & Ht' & Hcar' & Hmv).
  destruct (moves_guards_at n w w' t t') as (Hnx & Htok & Hnd & Hg' & Hoth); try done; auto.
  { intros a x. by apply cv_tokens0. }
  split; simpl; try done; rewrite Ht'.
  - by intros t1 [= <-].
  - intros t1 a x [= <-]. apply Htok.
  - intros t1 a [= <-]. apply Hnd.
  - intros t1 g0 w0 [= <-] [Hw0 Hl0]. simpl in Hw0.
    apply lookup_insert_Some in Hw0 as [[<- <-]|[Hne Hw0]]; [by rewrite Haddr|].
    assert (address w0 ≠ address w) as Hna.
    { intros Ha. assert (is_live s g0 = true) as Hl1 by done. unfold is_live in Hl1.
      destruct (channels s !! g0) as [c|] eqn:Hc0; [|done].
      destruct (other_worker_returning s g0 w0 c g w) as [r Hr]; try done.
      unfold exec_worker in Hx'. rewrite Hr in Hx'. by destruct e. }
    rewrite Hoth by done. by eapply cv_live0.
  - intros t1 a [= <-] Hno. assert (a ≠ address w) as Hna.
    { intros ->. apply (Hno g w'); [|done]. split; [apply lookup_insert_eq|done]. }
    rewrite Hoth by done. apply cv_none0; [done|]. intros g0 w0 [Hw0 Hl0] Ha0.
    destruct (decide (g = g0)) as [<-|Hne]; [congruence|]. apply (Hno g0 w0); [|done].
    split; [|done]. simpl. by rewrite lookup_insert_ne.
Qed.

(** *** Steps outside the workers *)

Definition keeps_carrying (s s' : System) : Prop :=
  (∀ t', convergence (shared s') = Some t' → ∃ t, convergence (shared s) = Some t ∧
     carrying_credit t' = carrying_credit t ∧ next_connection t' = next_connection t) ∧
  (∀ g w, tasks s' !! g = Some w → tasks s !! g = Some w ∨ w = spawn (address w)) ∧
  (∀ g w, live_task s' g w → live_task s g w ∨ (actives w = [] ∧ ∀ g0 w0, live_task s g0 w0 → address w0 ≠ address w)) ∧
  ∀ g w, live_task s g w → live_task s' g w ∨ actives w = [].

Lemma carry_inv_keeps n s s' : carry_inv n s → keeps_carrying s s' → carry_inv n s'.
Proof.
  intros [] (Hc & Ht & Hnew & Hold).
  assert (∀ t' a, convergence (shared s') = Some t' → ∃ t, convergence (shared s) = Some t ∧
    next_connection t' = next_connection t ∧ carrying_at t' a = carrying_at t a) as Hat.
  { intros t' a H'. destruct (Hc t' H') as (t & Hs & Hcc & Hnx). exists t. split_and!; [done..|].
    unfold carrying_at. by rewrite Hcc. }
  split.
  - intros g w Hw. destruct (Ht g w Hw) as [Hw0| ->]; [by eapply cv_workers0|done].
  - intros t' H'. destruct (Hc t' H') as (t & Hs & _ & ->). auto.
  - intros t' a x H'. destruct (Hat t' a H') as (t & Hs & -> & ->). by apply cv_tokens0.
  - intros t' a H'. destruct (Hat t' a H') as (t & Hs & _ & ->). by apply cv_nodup0.
  - intros t' g w H' Hl. destruct (Hat t' (address w) H') as (t & Hs & _ & ->).
    destruct (Hnew g w Hl) as [?|[Hno Hother]]; [by eapply cv_live0|].
    unfold carried, guards. rewrite Hno. split; [done|]. by rewrite (cv_none0 t (address w)).
  - intros t' a H' Hno. destruct (Hat t' a H') as (t & Hs & _ & ->).
    destruct (decide (carrying_at t a = [])) as [|Hne]; [done|]. exfalso. apply Hne, cv_none0; [done|].
    intros g w Hl <-. destruct (Hold g w Hl) as [Hl'|Hact]; [by apply (Hno g w)|].
    destruct (cv_live0 t g w Hs Hl) as [_ Hp]. unfold guards in Hp. rewrite Hact in Hp.
    symmetry in Hp. by apply Permutation_nil in Hp.
Qed.

Lemma keeps_carrying_same s s' :
  shared s' = shared s → tasks s' = tasks s → (∀ g, is_live s' g = is_live s g) → keeps_carrying s s'.
Proof.
  intros Hs Ht Hl. unfold keeps_carrying, live_task. rewrite Hs, Ht. split_and!; [by eauto|by eauto|..];
    intros g w [Hw Hlg]; left; (split; [done|]); congruence.
Qed.

Lemma is_live_send g i s h : is_live (send_intent g i s) h = is_live s h.
Proof.
  unfold is_live, send_intent. destruct (channels s !! g) as [ch|] eqn:Hg; [|done]. destruct (live ch) eqn:Hl; [|done].
  simpl. destruct (decide (g = h)) as [<-|Hne]; [by rewrite lookup_insert_eq, Hg, Hl|by rewrite lookup_insert_ne].
Qed.

Lemma keeps_carrying_send g i s : keeps_carrying s (send_intent g i s).
Proof.
  apply keeps_carrying_same; [..|apply is_live_send]; unfold send_intent; by repeat case_match.
Qed.

Lemma keeps_carrying_spawn a s :
  ctl_inv s → (∀ g, workers s !! a = Some g → is_live s g = false) → keeps_carrying s (spawn_worker a s).
Proof.
  intros [] Ha. destruct (ci_fresh0 (next_generation s)) as (Hc & Hn & _); [lia|].
  unfold keeps_carrying, live_task, is_live in *.
  split_and!; simpl.
  - by eauto.
  - intros g w [[<- <-]|[_ ?]]%lookup_insert_Some; [by right|by left].
  - intros g w [[[<- <-]|[Hne Hw]]%lookup_insert_Some Hl].
    + right. split; [done|]. intros g0 w0 [Hw0 Hl0] Ha0. simpl in Ha0. destruct (channels s !! g0) as [ch|] eqn:Hg0; [|done].
      destruct (ci_live0 g0 ch Hg0 Hl0) as (w1 & Hw1 & Hs). simplify_eq. apply Ha in Hs. rewrite Hg0 in Hs. congruence.
    + left. by rewrite lookup_insert_ne in Hl.
  - intros g w [Hw Hl]. left. assert (next_generation s ≠ g) by congruence. by rewrite !lookup_insert_ne.
Qed.

Lemma keeps_carrying_add a s : ctl_inv s → keeps_carrying s (add a s).1.
Proof.
  intros Hs. unfold add. destruct (workers s !! a) as [g|] eqn:Ha; [|apply keeps_carrying_spawn; [done|congruence]].
  destruct (is_live s g) eqn:Hl.
  - case_bool_decide; simpl; [by apply keeps_carrying_same|apply keeps_carrying_send].
  - apply (keeps_carrying_spawn a (drop_slot a s)); [by eapply ctl_inv_drop|]. simpl. by rewrite lookup_delete_eq.
Qed.

Lemma keeps_carrying_review desired a s : keeps_carrying s (review desired a s).
Proof.
  unfold review, re_adopt, remove. repeat case_match; simplify_eq/=; first [apply keeps_carrying_send|by apply keeps_carrying_same].
Qed.

Lemma keeps_carrying_exec s a s' :
  ctl_inv s → (∀ g e, a ≠ WorkerStep g e) → exec s a = Steps s' → keeps_carrying s s'.
Proof.
  intros Hs Ha Hx. destruct a; cbn [exec] in Hx.
  - destruct (phase s) as [[|b todo]| | | | |]; simplify_eq; [by apply keeps_carrying_same|].
    by apply (keeps_carrying_add b).
  - destruct (phase s), (convergence (shared s)) as [t|] eqn:Ht; try done. destruct (_ && _); simplify_eq.
    unfold keeps_carrying. split_and!; [|by eauto..]. simpl. intros t' [= <-]. by exists t.
  - destruct (phase s) as [| |desired [|b existing]| | |]; simplify_eq; [by apply keeps_carrying_same|].
    apply (keeps_carrying_review desired b).
  - destruct (phase s) as [| | |[|b todo]| |]; simplify_eq; [by apply keeps_carrying_same|].
    unfold add_missing. destruct (workers s !! b) as [g|]; [destruct (is_live s g); [by apply keeps_carrying_same|]|];
      by apply (keeps_carrying_add b).
  - destruct (next_completion generation s) as [[r s1]|] eqn:Hc; [|by destruct (phase s)].
    apply next_completion_frame in Hc as (_ & Hsh & Hch & Ht & _).
    assert (∀ g, is_live s1 g = is_live s g) as Hl by (intros g; unfold is_live; by rewrite Hch).
    destruct (phase s); simplify_eq; destruct r as [[?|?]|]; unfold completed; repeat case_match; by apply keeps_carrying_same.
  - destruct (phase s); simplify_eq. by apply keeps_carrying_same.
  - destruct (phase s); try done. destruct (shutdown s); simplify_eq. by apply keeps_carrying_same.
  - destruct (phase s); try done. destruct (running s); simplify_eq. by apply keeps_carrying_same.
  - by destruct (Ha generation e).
  - destruct (tasks s !! generation) as [w|] eqn:Hw; [|done]. simpl in Hx. destruct (worker_state w) eqn:Hst; try done.
    destruct (channels s !! generation) as [ch|] eqn:Hc; [|done]. destruct (live ch) eqn:Hl; simplify_eq.
    unfold keeps_carrying, live_task, is_live. simpl. split_and!; [by eauto|by eauto|..]; intros g w' [Hw' Hl'];
      destruct (decide (generation = g)) as [->|Hne].
    + by rewrite lookup_insert_eq in Hl'.
    + rewrite lookup_insert_ne in Hl' by done. by left.
    + right. unfold actives. assert (w' = w) as -> by congruence. by rewrite Hst.
    + left. by rewrite lookup_insert_ne.
  - destruct (tasks s !! generation) as [w|] eqn:Hw; [|done]. simpl in Hx. destruct (worker_state w) eqn:Hst; try done.
    destruct (is_live s generation) eqn:Hl; simplify_eq. unfold keeps_carrying, live_task. simpl. split_and!; [by eauto|..].
    + intros g w' [_ ?]%lookup_delete_Some. by left.
    + intros g w' [[_ Hw']%lookup_delete_Some Hl']. by left.
    + intros g w' [Hw' Hl']. left. split; [|done]. apply lookup_delete_Some. split; [congruence|done].
  - simplify_eq. by apply keeps_carrying_same.
  - destruct (orderly s); simplify_eq. by apply keeps_carrying_same.
  - destruct (hint_sender _); simplify_eq. by apply keeps_carrying_same.
  - simplify_eq. by apply keeps_carrying_same.
Qed.

Lemma carry_inv_exec n s a s' :
  0 ≤ n < 2 ^ 64 - 1 → ctl_inv s → carry_inv n s → exec s a = Steps s' → carry_inv (n + 1) s'.
Proof.
  intros Hn Hs Hi Hx. assert ((∃ g e, a = WorkerStep g e) ∨ ∀ g e, a ≠ WorkerStep g e) as [(g & e & ->)|Hne]
    by (destruct a; (by right) || (left; by eauto)).
  - by eapply carry_inv_worker.
  - destruct (carry_inv_keeps n s s' Hi) as []; [by eapply keeps_carrying_exec|]. split; try done.
    intros t Ht. specialize (cv_next0 t Ht). lia.
Qed.

(** ** Reachable states *)

Definition returned_inv (s : System) : Prop := ∀ r, phase s = Returned r → running s = [].

Lemma returned_inv_exec s a s' : returned_inv s → exec s a = Steps s' → returned_inv s'.
Proof.
  intros Hi Hx. unfold returned_inv in *. destruct a; cbn [exec] in Hx.
  - by destruct (phase s) as [[|b todo]| | | | |]; simplify_eq.
  - destruct (phase s), (convergence (shared s)) as [t|]; try done. by destruct (_ && _); simplify_eq.
  - by destruct (phase s) as [| |desired [|b existing]| | |]; simplify_eq.
  - by destruct (phase s) as [| | |[|b todo]| |]; simplify_eq.
  - destruct (next_completion generation s) as [[r s1]|] eqn:Hc; [|by destruct (phase s)].
    apply next_completion_frame in Hc as (Hp & _). intros r0 Hr0.
    destruct (phase s) eqn:Ep; simplify_eq; exfalso; destruct r as [[?|?]|]; unfold completed in Hr0; rewrite Hp in Hr0;
      try done; try congruence; simpl in Hr0; destruct first_error; simpl in Hr0; congruence.
  - by destruct (phase s); simplify_eq.
  - destruct (phase s); try done. by destruct (shutdown s); simplify_eq.
  - destruct (phase s); try done. by destruct (running s) eqn:Hr; simplify_eq.
  - unfold worker_step in Hx. repeat case_match; by simplify_eq.
  - repeat case_match; by simplify_eq.
  - repeat case_match; by simplify_eq.
  - by simplify_eq.
  - by destruct (orderly s); simplify_eq.
  - by destruct (hint_sender _); simplify_eq.
  - by simplify_eq.
Qed.

(** The states of the controllers that [for_static] and [for_managed] make, after [n] steps. *)
Inductive reachable : nat → System → Prop :=
| reach_static addresses : reachable 0 (for_static addresses)
| reach_managed : reachable 0 for_managed
| reach_step n s a s' : reachable n s → exec s a = Steps s' → reachable (S n) s'.

Lemma ctl_inv_empty s :
  workers s = ∅ → running s = [] → channels s = ∅ → tasks s = ∅ → results s = ∅ → shared_worker_count s = 0 → ctl_inv s.
Proof.
  intros Hw Hr Hc Ht Hre Hk. split; rewrite ?Hw, ?Hr, ?Hc, ?Ht, ?Hre, ?Hk.
  - done.
  - intros a g Ha. by rewrite lookup_empty in Ha.
  - apply NoDup_nil_2.
  - intros g _. rewrite !lookup_empty. split_and!; [done..|]. apply not_elem_of_nil.
  - intros g w Hg. by rewrite lookup_empty in Hg.
  - intros a g Ha. by apply elem_of_nil in Ha.
  - intros g ch Hg. by rewrite lookup_empty in Hg.
  - intros g w ch Hg. by rewrite lookup_empty in Hg.
Qed.

Lemma reachable_ctl n s : reachable n s → ctl_inv s ∧ intent_inv s ∧ tracker_inv s ∧ returned_inv s.
Proof.
  induction 1 as [addresses| |n s a s' _ (Hc & Hi & Ht & Hr) Hx].
  - split_and!; [by apply ctl_inv_empty|done..].
  - split_and!; [by apply ctl_inv_empty| | |done].
    + intros a g ch Ha. simpl in Ha. by rewrite lookup_empty in Ha.
    + intros t [= <-] a. simpl. rewrite elem_of_empty. split; [done|]. intros (g & w & Hw & _). by rewrite lookup_empty in Hw.
  - split_and!; eauto using ctl_inv_exec, intent_inv_exec, tracker_inv_exec, returned_inv_exec.
Qed.

Lemma reachable_carry n s : reachable n s → Z.of_nat n < 2 ^ 64 → carry_inv (Z.of_nat n) s.
Proof.
  induction 1 as [addresses| |n s a s' Hr IH Hx]; intros Hn.
  - by split; simpl; intros; simplify_eq.
  - split; try (by intros t [= <-]).
    + done.
    + intros t a x [= <-] Hx%elem_of_nil. done.
    + intros t a [= <-]. apply NoDup_nil_2.
    + intros t g w _ [Hw _]. done.
    + by intros t a [= <-] _.
  - replace (Z.of_nat (S n)) with (Z.of_nat n + 1) by lia. eapply carry_inv_exec; [lia| |apply IH; lia|done].
    by apply (reachable_ctl n).
Qed.

(** ** [replace_intent] with no worker moving *)

Lemma review_frame desired a s :
  next_generation (review desired a s) = next_generation s ∧
  (∀ g, is_live (review desired a s) g = is_live s g) ∧
  ∀ b, workers (review desired a s) !! b = workers s !! b ∨
       (workers (review desired a s) !! b = None ∧ worker_is_live s b = false).
Proof.
  assert (∀ g i, next_generation (send_intent g i s) = next_generation s ∧
    (∀ h, is_live (send_intent g i s) h = is_live s h) ∧ workers (send_intent g i s) = workers s) as Hsend.
  { intros g i. split_and!; [|apply is_live_send|]; unfold send_intent; by repeat case_match. }
  unfold review, re_adopt, remove, maintenance_intent.
  destruct (workers s !! a) as [g|] eqn:Ha; simpl; [|repeat case_bool_decide; simplify_eq/=; split_and!; auto].
  destruct (is_live s g) eqn:Hl; simpl.
  - repeat case_bool_decide; simplify_eq/=; try (split_and!; by auto); try (by intuition congruence);
      destruct (Hsend g Maintain) as (? & ? & Hw), (Hsend g Retire) as (? & ? & Hw'); rewrite ?Hw, ?Hw'; split_and!; auto.
  - repeat case_bool_decide; simplify_eq/=; split_and!; auto. intros b.
    destruct (decide (a = b)) as [<-|Hne]; [|left; by apply lookup_delete_ne].
    right. split; [apply lookup_delete_eq|]. unfold worker_is_live. by rewrite Ha.
Qed.

Lemma slot_not_fresh s a g : ctl_inv s → workers s !! a = Some g → g < next_generation s.
Proof.
  intros [] Ha%ci_slots0. destruct (decide (next_generation s ≤ g)) as [Hg|]; [|lia].
  destruct (ci_fresh0 g Hg) as (_ & _ & _ & Hn). destruct Hn. apply list_elem_of_fmap. by exists (a, g).
Qed.

Lemma add_missing_frame a s :
  ctl_inv s → next_generation s ≤ next_generation (add_missing a s) ∧
  (∀ g, g < next_generation s → is_live (add_missing a s) g = is_live s g) ∧
  worker_is_live (add_missing a s) a = true ∧
  (∀ b, b ≠ a ∨ worker_is_live s b = true → workers (add_missing a s) !! b = workers s !! b) ∧
  (worker_is_live s a = false → workers (add_missing a s) !! a = Some (next_generation s)).
Proof.
  intros Hs. unfold add_missing, add, worker_is_live at 2 3.
  assert (∀ s0, ctl_inv s0 → is_live (spawn_worker a s0) (next_generation s0) = true ∧
    ∀ g, g < next_generation s0 → is_live (spawn_worker a s0) g = is_live s0 g) as Hspawn.
  { intros s0 []. unfold is_live. simpl. rewrite lookup_insert_eq. split; [done|]. intros g Hg.
    rewrite lookup_insert_ne; [done|lia]. }
  destruct (workers s !! a) as [g|] eqn:Ha.
  - destruct (is_live s g) eqn:Hl; simpl.
    + unfold worker_is_live. rewrite Ha. by split_and!.
    + destruct (Hspawn (drop_slot a s)) as [Hnew Hold]; [by eapply ctl_inv_drop|]. simpl in *.
      unfold worker_is_live. simpl. rewrite lookup_insert_eq. split_and!; [lia|done|done| |done].
      intros b Hb. assert (a ≠ b) as Hne by (intros <-; destruct Hb as [|Hb]; [done|by rewrite Ha, Hl in Hb]).
      by rewrite lookup_insert_ne, lookup_delete_ne.
  - destruct (Hspawn s Hs) as [Hnew Hold]. simpl. unfold worker_is_live. simpl. rewrite lookup_insert_eq.
    split_and!; [lia|done|done| |done].
    intros b Hb. assert (a ≠ b) as Hne by (intros <-; destruct Hb as [|Hb]; [done|by rewrite Ha in Hb]).
    by rewrite lookup_insert_ne.
Qed.

Lemma reviews_spec desired existing s :
  ctl_inv s → agrees s (list_to_set desired) existing →
  let s1 := foldl (λ s a, review desired a s) s existing in
  ctl_inv s1 ∧ agrees s1 (list_to_set desired) [] ∧ next_generation s1 = next_generation s ∧
  (∀ g, is_live s1 g = is_live s g) ∧
  ∀ b, workers s1 !! b = workers s !! b ∨ (workers s1 !! b = None ∧ worker_is_live s b = false).
Proof.
  revert s. induction existing as [|a existing IH]; intros s Hs Hag; simpl; [by split_and!; auto|].
  destruct (review_frame desired a s) as (Hn & Hl & Hw).
  destruct (IH (review desired a s)) as (Hs' & Hag' & Hn' & Hl' & Hw'); [by apply ctl_inv_review|by apply agrees_review|].
  split_and!; [done|done|congruence|intros g; by rewrite Hl', Hl|]. intros b.
  destruct (Hw' b) as [Hb|[Hb Hd]]; destruct (Hw b) as [Hb0|[Hb0 Hd0]]; rewrite Hb.
  - by left.
  - right. by rewrite Hb0.
  - right. split; [done|]. unfold worker_is_live in *. rewrite Hb0 in Hd. destruct (workers s !! b); [by rewrite <- Hl|done].
  - by right.
Qed.

Lemma adds_spec desired todo s :
  ctl_inv s → (∀ a, a ∈ todo → a ∈ desired) → agrees s desired [] →
  let s2 := foldl (λ s a, add_missing a s) s todo in
  ctl_inv s2 ∧ agrees s2 desired [] ∧ next_generation s ≤ next_generation s2 ∧
  (∀ g, g < next_generation s → is_live s2 g = is_live s g) ∧
  (∀ a, a ∈ todo → worker_is_live s2 a = true) ∧
  (∀ b, b ∉ todo ∨ worker_is_live s b = true → workers s2 !! b = workers s !! b) ∧
  (∀ a, a ∈ todo → worker_is_live s a = false → ∃ g, next_generation s ≤ g ∧ workers s2 !! a = Some g).
Proof.
  revert s. induction todo as [|a todo IH]; intros s Hs Hin Hag; simpl.
  { split_and!; auto; [lia|..]; intros a Ha; by apply elem_of_nil in Ha. }
  destruct (add_missing_frame a s Hs) as (Hn & Hl & Ha & Hw & Hnew).
  destruct (agrees_add_missing a s desired Hs) as (Hag' & _); [apply Hin; by left|done|].
  destruct (IH (add_missing a s)) as (Hs2 & Hag2 & Hn2 & Hl2 & Hlive2 & Hw2 & Hnew2);
    [by apply ctl_inv_add_missing|intros b Hb; apply Hin; by right|done|].
  assert (∀ b, worker_is_live s b = true → worker_is_live (add_missing a s) b = true) as Hmono.
  { intros b Hb. unfold worker_is_live. rewrite Hw by by right. unfold worker_is_live in Hb.
    destruct (workers s !! b) as [g|] eqn:Eb; [|done]. rewrite Hl; [done|]. by eapply slot_not_fresh. }
  set (s2 := foldl _ _ _) in *.
  assert (workers s2 !! a = workers (add_missing a s) !! a) as Hkeep by (apply Hw2; by right).
  split_and!; [done|done|lia|intros g Hg; rewrite Hl2 by lia; by apply Hl|..].
  - intros b [-> |Hb]%elem_of_cons; [|by apply Hlive2]. unfold worker_is_live in *. rewrite Hkeep.
    destruct (workers (add_missing a s) !! a) as [g|] eqn:Eg; [|done]. rewrite Hl2; [done|].
    eapply slot_not_fresh; [|done]. by apply ctl_inv_add_missing.
  - intros b Hb. rewrite Hw2; [apply Hw|]; destruct Hb as [[Hne Hb]%not_elem_of_cons|Hb]; auto.
  - intros b Hb Hd. destruct (decide (b = a)) as [->|Hne].
    + exists (next_generation s). split; [lia|]. rewrite Hkeep. auto.
    + apply elem_of_cons in Hb as [|Hb]; [done|]. destruct (Hnew2 b Hb) as (g & Hg & Hsl).
      * unfold worker_is_live in *. rewrite Hw by by left. destruct (workers s !! b) as [g|] eqn:Eb; [|done].
        rewrite Hl; [done|]. by eapply slot_not_fresh.
      * exists g. split; [lia|done].
Qed.

Lemma replace_intent_spec existing desired s :
  ctl_inv s → list_to_set existing = dom (workers s) →
  let s' := replace_intent existing desired s in
  (∀ a, a ∈ desired → worker_is_live s' a = true ∧ maintenance_intent s' a = Some Maintain) ∧
  (∀ a, a ∉ desired → worker_is_live s' a = true → maintenance_intent s' a = Some Retire) ∧
  (∀ a, worker_is_live s a = true → worker_is_live s' a = true ∧ workers s' !! a = workers s !! a) ∧
  (∀ a, a ∈ desired → worker_is_live s a = false → ∃ g, next_generation s ≤ g ∧ workers s' !! a = Some g).
Proof.
  intros Hs Hdom. unfold replace_intent.
  destruct (reviews_spec desired existing s Hs) as (Hs1 & Hag1 & Hn1 & Hl1 & Hw1).
  { intros a g ch Ha _ _ Hn. destruct Hn. apply (elem_of_list_to_set (C := gset ServerAddress)).
    rewrite Hdom. by apply elem_of_dom_2 in Ha. }
  set (s1 := foldl _ s existing) in *.
  destruct (adds_spec (list_to_set desired) desired s1 Hs1) as (Hs2 & Hag2 & Hn2 & Hl2 & Hlive2 & Hw2 & Hnew2);
    [intros a; by rewrite elem_of_list_to_set|done|]. set (s2 := foldl _ s1 desired) in *.
  assert (∀ a, worker_is_live s a = true → workers s1 !! a = workers s !! a ∧ worker_is_live s1 a = true) as Hkeep1.
  { intros a Ha. destruct (Hw1 a) as [Hsame|[_ Hd]]; [|congruence]. split; [done|].
    unfold worker_is_live in *. rewrite Hsame. destruct (workers s !! a); [by rewrite Hl1|done]. }
  assert (∀ a, worker_is_live s2 a = true → ∃ g ch, workers s2 !! a = Some g ∧ channels s2 !! g = Some ch ∧
    live ch = true ∧ maintenance_intent s2 a = Some (intent ch)) as Hchan.
  { intros a Ha. unfold worker_is_live, is_live in Ha. unfold maintenance_intent.
    destruct (workers s2 !! a) as [g|]; [|done]. simpl. destruct (channels s2 !! g) as [ch|] eqn:Hc; [|done].
    exists g, ch. rewrite Hc. split_and!; try done. }
  split_and!.
  - intros a Ha. split; [by apply Hlive2|]. destruct (Hchan a (Hlive2 a Ha)) as (g & ch & Hg & Hc & Hl & ->).
    f_equal. apply (Hag2 a g ch); [done..|apply not_elem_of_nil|]. by apply elem_of_list_to_set.
  - intros a Ha Hlive. destruct (Hchan a Hlive) as (g & ch & Hg & Hc & Hl & ->). f_equal.
    destruct (intent ch) eqn:Hi; [|done]. exfalso. apply Ha, (elem_of_list_to_set (C := gset ServerAddress)).
    apply (Hag2 a g ch); [done..|apply not_elem_of_nil|done].
  - intros a Ha. destruct (Hkeep1 a Ha) as [Hsame Hl]. rewrite Hw2 by by right. split; [|done].
    unfold worker_is_live in *. rewrite Hw2 by (right; done). destruct (workers s1 !! a) as [g|] eqn:Eg; [|done].
    rewrite Hl2; [done|]. by eapply slot_not_fresh.
  - intros a Ha Hd. rewrite <- Hn1. apply Hnew2; [done|]. unfold worker_is_live in *.
    destruct (Hw1 a) as [Hsame|[Hno _]]; [|by rewrite Hno]. rewrite Hsame.
    destruct (workers s !! a); [by rewrite Hl1|done].
Qed.

(** The steps of the two loops, run without a pause, are [replace_intent]. *)
Lemma review_steps desired existing s :
  phase s = Reviewing desired existing →
  run_actions exec s (replicate (S (length existing)) ReviewStep) =
  Some (set_phase (Adding desired) (foldl (λ s a, review desired a s) s existing)).
Proof.
  assert (∀ p a s, review desired a (set_phase p s) = set_phase p (review desired a s)) as Hc.
  { intros p a s0. unfold review, re_adopt, remove, send_intent, maintenance_intent, is_live. simpl.
    repeat case_match; by simplify_eq/=. }
  assert (∀ p l s, foldl (λ s a, review desired a s) (set_phase p s) l = set_phase p (foldl (λ s a, review desired a s) s l)) as Hf.
  { intros p l. induction l as [|a l IH]; intros s0; simpl; [done|]. by rewrite Hc, IH. }
  revert s. induction existing as [|a existing IH]; intros s Hp; [simpl; by rewrite Hp|].
  change (replicate (S (length (a :: existing))) ReviewStep) with (ReviewStep :: replicate (S (length existing)) ReviewStep).
  cbn [run_actions exec]. rewrite Hp, IH by done. cbn [foldl].
  f_equal. by rewrite Hf.
Qed.

Lemma adds_phase p todo s :
  foldl (λ s a, add_missing a s) (set_phase p s) todo = set_phase p (foldl (λ s a, add_missing a s) s todo).
Proof.
  assert (∀ a s, add_missing a (set_phase p s) = set_phase p (add_missing a s)) as Hc.
  { intros a s0. unfold add_missing, add, send_intent, maintenance_intent, is_live. simpl.
    repeat case_match; by simplify_eq/=. }
  revert s. induction todo as [|a todo IH]; intros s; simpl; [done|]. by rewrite Hc, IH.
Qed.

Lemma add_steps todo s :
  phase s = Adding todo →
  run_actions exec s (replicate (S (length todo)) AddStep) =
  Some (set_phase Selecting (foldl (λ s a, add_missing a s) s todo)).
Proof.
  revert s. induction todo as [|a todo IH]; intros s Hp; [simpl; by rewrite Hp|].
  change (replicate (S (length (a :: todo))) AddStep) with (AddStep :: replicate (S (length todo)) AddStep).
  cbn [run_actions exec]. rewrite Hp, IH by done. cbn [foldl].
  f_equal. by rewrite adds_phase.
Qed.

(** ** Draining *)

(** The completion of a generation, if the slot is still its own. *)
Definition current_completion (s : System) (g : Z) : option (result bytes unit) :=
  a ← fst <$> List.find (λ x, x.2 =? g) (running s);
  if bool_decide (workers s !! a = Some g) then results s !! g else None.

Fixpoint first_failure (l : list (option (result bytes unit))) : option bytes :=
  match l with
  | [] => None
  | Some (Err error) :: _ => Some error
  | _ :: l => first_failure l
  end.

Lemma find_filter_ne g h (l : list (ServerAddress * Z)) :
  g ≠ h → List.find (λ x, x.2 =? h) (List.filter (λ x, negb (x.2 =? g)) l) = List.find (λ x, x.2 =? h) l.
Proof.
  intros Hne. induction l as [|[a k] l IH]; simpl; [done|]. destruct (Z.eqb_spec k g) as [->|]; simpl.
  - rewrite IH. by destruct (Z.eqb_spec g h).
  - by rewrite IH.
Qed.

Lemma find_in_running g (l : list (ServerAddress * Z)) : g ∈ l.*2 → ∃ a, fst <$> List.find (λ x, x.2 =? g) l = Some a.
Proof.
  induction l as [|[a k] l IH]; simpl; [by intros ?%elem_of_nil|]. intros Hg.
  destruct (Z.eqb_spec k g) as [->|Hne]; [by eexists|]. apply elem_of_cons in Hg as [|Hg]; [done|by apply IH].
Qed.

(** Reaping one completion while draining. *)
Lemma drain_step g first_error s :
  ctl_inv s → tasks s = ∅ → phase s = Draining first_error → g ∈ (running s).*2 →
  ∃ s', exec s (Complete g) = Steps s' ∧ tasks s' = ∅ ∧
    running s' = List.filter (λ x, negb (x.2 =? g)) (running s) ∧
    phase s' = Draining (match first_error with
                         | Some e => Some e
                         | None => first_failure [current_completion s g] end) ∧
    (first_error = None → first_failure [current_completion s g] ≠ None → shutdown s' = true) ∧
    ∀ h, h ≠ g → current_completion s' h = current_completion s h.
Proof.
  intros Hs Ht Hp Hg. destruct (find_in_running g (running s) Hg) as [a Ha].
  assert ((a, g) ∈ running s) as Hin by (apply find_running; [by destruct Hs|done]).
  destruct (ci_pending s Hs a g Hin) as [[w Hw]|[r Hr]]; [rewrite Ht, lookup_empty in Hw; done|].
  assert (∀ h b, (b, h) ∈ running s → h ≠ g → workers s !! b = Some h → a ≠ b ∨ workers s !! a ≠ Some g) as Hdiff.
  { intros h b _ Hne Hb. destruct (decide (a = b)) as [->|]; [right; congruence|by left]. }
  cbn [exec]. rewrite Hp. unfold next_completion, take_completion, current_completion at 1 2. rewrite Hr, Ha. cbn.
  case_bool_decide as Hcur.
  - unfold completed. cbn [phase drop_slot]. rewrite Hp.
    assert (∀ s', running s' = List.filter (λ x, negb (x.2 =? g)) (running s) → workers s' = delete a (workers s) →
      results s' = results s → ∀ h, h ≠ g → current_completion s' h = current_completion s h) as Hothers.
    { intros s' Hrun Hwk Hres h Hne. unfold current_completion. rewrite Hrun, find_filter_ne, Hwk, Hres by done.
      destruct (fst <$> List.find (λ x, x.2 =? h) (running s)) as [b|]; [|done]. simpl.
      destruct (decide (a = b)) as [<-|Hnb]; [|by rewrite lookup_delete_ne].
      rewrite lookup_delete_eq, !bool_decide_false; congruence. }
    destruct first_error as [e|]; [|destruct r as [?|error]]; (eexists; split; [reflexivity|]); simpl; rewrite ?Hr;
      split_and!; try done; by apply Hothers.
  - eexists. split; [reflexivity|]. simpl. rewrite Hp. split_and!; try done; [by destruct first_error|].
    intros h Hne. unfold current_completion. simpl. by rewrite find_filter_ne by done.
Qed.

Lemma filter_gen_perm g gs (l : list (ServerAddress * Z)) :
  l.*2 ≡ₚ g :: gs → g ∉ gs → (List.filter (λ x, negb (x.2 =? g)) l).*2 ≡ₚ gs.
Proof.
  intros Hl Hg.
  assert ((List.filter (λ x, negb (x.2 =? g)) l).*2 = List.filter (λ k, negb (k =? g)) l.*2) as ->.
  { clear. induction l as [|[a k] l IH]; simpl; [done|]. destruct (negb (k =? g)); simpl; [by f_equal|done]. }
  rewrite (list_filter_perm _ _ _ Hl). simpl. rewrite Z.eqb_refl. simpl. clear Hl.
  induction gs as [|k gs IH]; simpl; [done|]. apply not_elem_of_cons in Hg as [Hne Hg].
  destruct (Z.eqb_spec k g) as [->|]; [done|]. simpl. by rewrite IH.
Qed.

Lemma drain_steps gs first_error s :
  ctl_inv s → tasks s = ∅ → phase s = Draining first_error → (running s).*2 ≡ₚ gs →
  ∃ s', run_actions exec s (Complete <$> gs) = Some s' ∧ running s' = [] ∧
    phase s' = Draining (match first_error with
                         | Some e => Some e
                         | None => first_failure (current_completion s <$> gs) end).
Proof.
  revert s first_error. induction gs as [|g gs IH]; intros s fe Hs Ht Hp Hgs.
  - symmetry in Hgs. apply Permutation_nil in Hgs. exists s. split_and!; [done|by apply fmap_nil_inv in Hgs|].
    rewrite Hp. by destruct fe.
  - destruct (drain_step g fe s Hs Ht Hp) as (s1 & Hx & Ht1 & Hrun & Hp1 & _ & Hcur); [rewrite Hgs; by left|].
    assert (NoDup (g :: gs)) as [Hng Hnd]%NoDup_cons by (rewrite <- Hgs; by destruct Hs).
    destruct (IH s1 _ (ctl_inv_exec _ _ _ Hs Hx) Ht1 Hp1) as (s2 & Hr2 & Hrun2 & Hp2).
    { rewrite Hrun. by apply filter_gen_perm. }
    exists s2. cbn [fmap list_fmap run_actions]. rewrite Hx. split_and!; [done|done|]. rewrite Hp2. f_equal.
    assert (current_completion s1 <$> gs = current_completion s <$> gs) as ->.
    { apply list_fmap_ext. intros i h Hh. apply Hcur. intros ->. apply Hng. by eapply list_elem_of_lookup_2. }
    destruct fe as [e|]; [done|]. simpl. by destruct (current_completion s g) as [[?|?]|].
Qed.

(** ** Claims *)

Lemma exec_never_panics s a : exec s a ≠ Panics.
Proof.
  destruct a; simpl; unfold worker_step; try (by repeat case_match).
  repeat case_match; try done. by edestruct exec_worker_never_panics.
Qed.

(** C20: the Client never dials an address twice: of two workers for one address, in any
    reachable state, one has decided to return and holds nothing; the worker that still
    holds its control is the one in the address's slot; the shared count is the number of
    slots; and the controller returns only when no worker is left. *)
Theorem one_worker_per_address n s :
  reachable n s →
  (∀ a, exec s a ≠ Panics) ∧ shared_worker_count s = Z.of_nat (size (workers s)) ∧
  (∀ g w g' w', tasks s !! g = Some w → tasks s !! g' = Some w' → address w = address w' → g ≠ g' →
     ∃ r, worker_state w = Returning r ∨ worker_state w' = Returning r) ∧
  (∀ g w, live_task s g w → workers s !! address w = Some g) ∧
  (∀ r, phase s = Returned r → running s = [] ∧ tasks s = ∅ ∧ workers s = ∅).
Proof.
  intros (Hs & _ & _ & Hr)%reachable_ctl. split_and!.
  - apply exec_never_panics.
  - by destruct Hs.
  - intros g w g' w' Hw Hw' Ha Hne. destruct (ci_task s Hs g w Hw) as (_ & _ & ch & Hc).
    destruct (live ch) eqn:Hl.
    + destruct (other_worker_returning s g w ch g' w') as [r Hst]; try done. exists r. by right.
    + destruct (ci_dead s Hs g w ch Hw Hc Hl) as [r Hst]. exists r. by left.
  - intros g w [Hw Hl]. unfold is_live in Hl. destruct (channels s !! g) as [ch|] eqn:Hc; [|done].
    destruct (ci_live s Hs g ch Hc Hl) as (w' & Hw' & Hslot). congruence.
  - intros r Hp. apply Hr in Hp. split_and!; [done|..]; apply map_eq; intros x; rewrite lookup_empty.
    + destruct (tasks s !! x) as [w|] eqn:Hw; [|done]. destruct (ci_task s Hs x w Hw) as [Hin _].
      rewrite Hp in Hin. by apply elem_of_nil in Hin.
    + destruct (workers s !! x) as [g|] eqn:Hx; [|done]. apply (ci_slots s Hs) in Hx.
      rewrite Hp in Hx. by apply elem_of_nil in Hx.
Qed.

(** An assignment is acknowledged only when it is in force: whatever the workers do
    while the controller applies it, at the acknowledgment every assigned address has a
    slot, and from then to the next assignment every worker that still holds its control
    maintains exactly when its address is assigned. *)
Theorem assignment_applied_before_ack n s t :
  reachable n s → convergence (shared s) = Some t → phase s = Selecting ∨ phase s = Adding [] →
  (∀ a g, workers s !! a = Some g → is_live s g = true →
     maintenance_intent s a = Some Maintain ↔ a ∈ assigned t) ∧
  (phase s = Adding [] → ∀ a, a ∈ assigned t → is_Some (workers s !! a)).
Proof.
  intros (Hs & Hi & _ & _)%reachable_ctl Ht Hp. unfold intent_inv, assigned_in in Hi. rewrite Ht in Hi.
  assert (agrees s (assigned t) []) as Hag by (destruct Hp as [Hp|Hp]; rewrite Hp in Hi; [done|by destruct Hi]).
  split.
  - intros a g Ha Hl. unfold is_live, maintenance_intent in *. rewrite Ha. simpl.
    destruct (channels s !! g) as [ch|] eqn:Hc; [|done]. simpl.
    rewrite <- (Hag a g ch) by (done || apply not_elem_of_nil). split; congruence.
  - intros Hpa a Ha. rewrite Hpa in Hi. destruct Hi as (_ & _ & Hall).
    destruct (Hall a Ha) as [Hn|?]; [by apply elem_of_nil in Hn|done].
Qed.

(** Applying an assignment takes a bounded number of steps, and when no worker exits
    meanwhile it leaves every assigned address with a live, maintained worker, retires the
    live workers of the other addresses, replaces no live worker and starts one only where
    none was live. *)
Theorem apply_replaces_assignment n s t existing desired :
  reachable n s → phase s = Selecting → convergence (shared s) = Some t →
  NoDup existing → list_to_set existing = dom (workers s) →
  ∃ s', run_actions exec s (Apply desired existing :: replicate (S (length existing)) ReviewStep
                              ++ replicate (S (length desired)) AddStep) = Some s' ∧
    phase s' = Selecting ∧
    (∀ a, a ∈ desired → worker_is_live s' a = true ∧ maintenance_intent s' a = Some Maintain) ∧
    (∀ a, a ∉ desired → worker_is_live s' a = true → maintenance_intent s' a = Some Retire) ∧
    (∀ a, worker_is_live s a = true → worker_is_live s' a = true ∧ workers s' !! a = workers s !! a) ∧
    (∀ a, a ∈ desired → worker_is_live s a = false → ∃ g, next_generation s ≤ g ∧ workers s' !! a = Some g).
Proof.
  intros (Hs & _)%reachable_ctl Hp Ht Hnd Hdom. cbn [run_actions exec]. rewrite Hp, Ht, !bool_decide_true by done.
  cbn [andb]. set (s0 := set_phase _ _). rewrite run_actions_app, (review_steps desired existing) by done. cbn [mbind option_bind].
  rewrite (add_steps desired) by done. eexists. split; [done|]. split; [done|].
  set (s1 := foldl _ s0 existing).
  rewrite adds_phase. apply (replace_intent_spec existing desired s0); [|done]. by apply (ctl_inv_ext s).
Qed.

(** The connections of the live worker of an address. *)
Definition carrying_connections (s : System) (a : ServerAddress) : list Active :=
  match workers s !! a with
  | Some g => if is_live s g then match tasks s !! g with Some w => actives w | None => [] end else []
  | None => []
  end.

Lemma guards_generations (w : Worker (G := G)) : carried w → snd <$> guards w = generation <$> actives w.
Proof.
  unfold carried, guards. induction 1 as [|a l [tok Ha] _ IH]; [done|]. simpl. unfold guard at 1.
  rewrite Ha. simpl. by f_equal.
Qed.

(** C21: the Managed state document follows the workers: an address counts as connected
    exactly while its worker has a connection up, and the generations reported for an
    assigned address are exactly those of the connections its worker runs. *)
Theorem tracker_follows_workers display n s t a :
  reachable n s → Z.of_nat n < 2 ^ 64 → convergence (shared s) = Some t →
  (a ∈ connected t ↔ ∃ g w, tasks s !! g = Some w ∧ address w = a ∧ in_connected (worker_state w) = true) ∧
  ((∀ b, b ∈ assigned t → 0 ≤ sa_port b ≤ u16_max) → a ∈ assigned t →
   ∃ generations, reported_servers display t !! ServerAddress_render a = Some generations ∧
     Sorted string_le generations ∧ generations ≡ₚ (display ∘ generation <$> carrying_connections s a)).
Proof.
  intros Hr Hn Ht. pose proof (reachable_carry n s Hr Hn) as Hc. apply reachable_ctl in Hr as (Hs & _ & Htr & _).
  split; [by apply Htr|]. intros Hport Ha. eexists. split_and!.
  - apply reported_servers_lookup; [done|]. by exists a.
  - apply Sorted_merge_sort. apply _.
  - rewrite merge_sort_Permutation. change (default [] (carrying_credit t !! a)) with (carrying_at t a).
    unfold carrying_connections.
    assert ((∀ g w, live_task s g w → address w ≠ a) → display ∘ snd <$> carrying_at t a = []) as Hnone.
    { intros Hno. by rewrite (cv_none _ s Hc t a Ht Hno). }
    assert (∀ g w, live_task s g w → address w = a → workers s !! a = Some g) as Hslot.
    { intros g w [Hw Hl] <-. unfold is_live in Hl. destruct (channels s !! g) as [ch|] eqn:Hch; [|done].
      destruct (ci_live s Hs g ch Hch Hl) as (w' & Hw' & Hx). congruence. }
    destruct (workers s !! a) as [g|] eqn:Hg.
    2: { rewrite Hnone; [done|]. intros g w Hl He. by specialize (Hslot g w Hl He). }
    destruct (is_live s g) eqn:Hl.
    2: { rewrite Hnone; [done|]. intros g' w Hl' He. specialize (Hslot g' w Hl' He). simplify_eq. destruct Hl'. congruence. }
    assert (∃ w, tasks s !! g = Some w ∧ address w = a) as (w & Hw & <-).
    { unfold is_live in Hl. destruct (channels s !! g) as [ch|] eqn:Hch; [|done].
      destruct (ci_live s Hs g ch Hch Hl) as (w & Hw & Hx). exists w. split; [done|].
      eapply running_unique; [by destruct Hs|by apply (ci_slots s Hs)..]. }
    rewrite Hw. destruct (cv_live _ s Hc t g w Ht (conj Hw Hl)) as [Hcar Hp].
    rewrite !list_fmap_compose, Hp. by rewrite guards_generations.
Qed.

(** Shutdown preserves the first failure: once every worker task has completed, the
    drain ends however the completions arrive, with the failure it already held, or else
    the first one in that order from a worker that was not replaced, or else success. *)
Theorem drain_returns_first_failure n s first_error gs :
  reachable n s → phase s = Draining first_error → tasks s = ∅ → (running s).*2 ≡ₚ gs →
  ∃ s', run_actions exec s ((Complete <$> gs) ++ [DrainDone]) = Some s' ∧
    phase s' = Returned (match first_error with
                         | Some e => Err e
                         | None => match first_failure (current_completion s <$> gs) with
                                   | Some e => Err e | None => Ok tt end
                         end).
Proof.
  intros (Hs & _)%reachable_ctl Hp Ht Hgs. destruct (drain_steps gs first_error s Hs Ht Hp Hgs) as (s1 & Hr & Hrun & Hp1).
  rewrite run_actions_app, Hr. simpl. rewrite Hp1, Hrun. eexists. split; [done|]. by destruct first_error.
Qed.

(** Without a new assignment the controller starts no worker. *)
Definition is_settled (p : Phase) : bool :=
  match p with Selecting | Draining _ | Returned _ => true | _ => false end.

Lemma settled_step (a : ServerAddress) act s s' :
  (∀ addresses existing, act ≠ Apply addresses existing) → exec s act = Steps s' →
  is_settled (phase s) = true → workers s !! a = None → is_settled (phase s') = true ∧ workers s' !! a = None.
Proof.
  intros Hno Hx Hp Ha. destruct act; cbn [exec] in Hx; try (by edestruct Hno).
  - by destruct (phase s).
  - by destruct (phase s).
  - by destruct (phase s).
  - destruct (next_completion generation s) as [[r s1]|] eqn:Hc; [|by destruct (phase s)].
    apply next_completion_frame in Hc as (Hp1 & _ & _ & _ & _ & Hw & _).
    assert (workers s1 !! a = None) as Ha1 by (destruct (workers s1 !! a) eqn:E; [apply Hw in E; congruence|done]).
    rewrite <- Hp1 in Hp. destruct (phase s) eqn:Ep; simplify_eq; destruct r as [r|]; try done; unfold completed;
      repeat case_match; simplify_eq; split; simpl; try done; congruence.
  - by destruct (phase s); simplify_eq.
  - destruct (phase s); try done. by destruct (shutdown s); simplify_eq.
  - destruct (phase s); try done. by destruct (running s); simplify_eq.
  - unfold worker_step in Hx. repeat case_match; by simplify_eq.
  - repeat case_match; by simplify_eq.
  - repeat case_match; by simplify_eq.
  - by simplify_eq.
  - by destruct (orderly s); simplify_eq.
  - by destruct (hint_sender _); simplify_eq.
  - by simplify_eq.
Qed.

Lemma no_apply_no_slot (a : ServerAddress) acts s s' :
  is_settled (phase s) = true → workers s !! a = None →
  (∀ addresses existing, Apply addresses existing ∉ acts) → run_actions exec s acts = Some s' → workers s' !! a = None.
Proof.
  revert s. induction acts as [|act acts IH]; intros s Hp Ha Hno Hr; simpl in Hr; [by simplify_eq|].
  destruct (exec s act) as [s1| |] eqn:Hx; try done. destruct (settled_step a act s s1) as [Hp1 Ha1]; try done.
  - intros ads ex ->. apply (Hno ads ex). by left.
  - apply (IH s1); try done. intros ads ex Hin. apply (Hno ads ex). by right.
Qed.

End Controller.
Arguments System : clear implicits.
Arguments action : clear implicits.

(** ** A small Managed Client *)

Module ToyController.

Definition toy_a : ServerAddress := mkServerAddress (bs "a") 1.

(** Assigns one address. *)
Definition assign_a : list (action Z) := [Apply [toy_a] []; ReviewStep; AddStep; AddStep].

(** Its worker connects. *)
Definition connect_a : list (action Z) :=
  [WorkerStep 1 Start; WorkerStep 1 CheckTop; WorkerStep 1 (EstablishDone (AttemptConnected 1 5 1));
   WorkerStep 1 CheckEstablished; WorkerStep 1 ObserveConnected; WorkerStep 1 StartRun].

(** The address is withdrawn, its worker sees that, and the address comes back before the
    worker has dropped its control. *)
Definition readopt_a : list (action Z) :=
  [WorkerStep 1 Start; Apply [] [toy_a]; ReviewStep; ReviewStep; AddStep; WorkerStep 1 CheckTop;
   Apply [toy_a] [toy_a]; ReviewStep; ReviewStep; AddStep; AddStep].

(** The worker returns. *)
Definition return_a : list (action Z) := [WorkerDrops 1; WorkerJoins 1; Complete 1].

(** A shutdown with the worker still in backoff. *)
Definition shutdown_a : list (action Z) :=
  [WorkerStep 1 Start; BeginOrderly; RequestShutdown; ShutdownSeen; WorkerStep 1 CheckTop; WorkerDrops 1; WorkerJoins 1].

Definition after (acts : list (action Z)) : System Z := default for_managed (run_actions exec for_managed acts).

Lemma after_reachable acts : is_Some (run_actions exec for_managed acts) → reachable (length acts) (after acts).
Proof.
  unfold after. intros [s Hs]. rewrite Hs. simpl.
  assert (∀ n s0, reachable n s0 → run_actions exec s0 acts = Some s → reachable (n + length acts)%nat s) as Hgen.
  { clear Hs. induction acts as [|act acts IH]; intros n s0 H0 Hr; simpl in *; [simplify_eq; by rewrite Nat.add_0_r|].
    destruct (exec s0 act) as [s1| |] eqn:Hx; try done. rewrite <- Nat.add_succ_comm. apply (IH (S n) s1); [|done].
    by eapply reach_step. }
  apply (Hgen O _ reach_managed Hs).
Qed.

Lemma toy_ran acts s : run_actions exec for_managed acts = Some s → reachable (length acts) (after acts).
Proof. intros Hs. apply after_reachable. by exists s. Qed.

End ToyController.
Import ToyController.

(** C40: a Managed Client can acknowledge an assignment and then leave an assigned address
    without a worker until the next assignment: a worker that has seen its retirement, but
    still holds its control, counts as live, so the address is re-adopted instead of
    restarted; the worker returns all the same, and its clean completion only clears the
    slot. *)
Theorem readoption_lost :
  ∃ s, run_actions exec for_managed (assign_a ++ readopt_a) = Some s ∧ phase s = Selecting ∧
    worker_is_live s toy_a = true ∧ maintenance_intent s toy_a = Some Maintain ∧
  ∃ s', run_actions exec s return_a = Some s' ∧ phase s' = Selecting ∧
    (∃ t, convergence (shared s') = Some t ∧ toy_a ∈ assigned t) ∧ workers s' = ∅ ∧ tasks s' = ∅ ∧
    ∀ acts s'', (∀ addresses existing, Apply addresses existing ∉ acts) → run_actions exec s' acts = Some s'' →
      workers s'' !! toy_a = None.
Proof.
  eexists. split; [vm_compute; reflexivity|]. split; [vm_compute; reflexivity|]. split; [vm_compute; reflexivity|].
  split; [vm_compute; reflexivity|]. eexists. split; [vm_compute; reflexivity|]. split; [vm_compute; reflexivity|].
  split; [eexists; split; vm_compute; reflexivity|].
  split; [vm_compute; reflexivity|]. split; [vm_compute; reflexivity|].
  intros acts s'' Hno Hr. refine (no_apply_no_slot toy_a acts _ s'' _ _ Hno Hr); vm_compute; reflexivity.
Qed.

Definition toy_connected : list (action Z) := assign_a ++ connect_a.

Lemma toy_connected_reachable : reachable (length toy_connected) (after toy_connected).
Proof. apply after_reachable. vm_compute. eexists. reflexivity. Qed.

Lemma one_worker_per_address_witness :
  shared_worker_count (after toy_connected) = 1 ∧ workers (after toy_connected) !! toy_a = Some 1.
Proof.
  destruct (one_worker_per_address _ _ toy_connected_reachable) as (_ & Hcount & _ & Hlive & _). split.
  - rewrite Hcount. vm_compute. reflexivity.
  - assert (∃ w, tasks (after toy_connected) !! 1 = Some w) as [w Hw] by (eexists; vm_compute; reflexivity).
    assert (address w = toy_a) as <-.
    { assert (address <$> tasks (after toy_connected) !! 1 = Some toy_a) as H by (vm_compute; reflexivity).
      rewrite Hw in H. by injection H. }
    apply Hlive. split; [done|vm_compute; reflexivity].
Defined.

Lemma assignment_applied_before_ack_witness :
  maintenance_intent (after toy_connected) toy_a = Some Maintain.
Proof.
  assert (∃ t, convergence (shared (after toy_connected)) = Some t ∧ toy_a ∈ assigned t) as (t & Ht & Ha)
    by (eexists; split; vm_compute; reflexivity).
  apply (assignment_applied_before_ack _ _ t toy_connected_reachable Ht) with (g := 1);
    [left; vm_compute; reflexivity|vm_compute; reflexivity|vm_compute; reflexivity|done].
Defined.

Lemma apply_replaces_assignment_witness :
  ∃ s', run_actions exec (after toy_connected) [Apply [] [toy_a]; ReviewStep; ReviewStep; AddStep] = Some s' ∧
    worker_is_live s' toy_a = true ∧ maintenance_intent s' toy_a = Some Retire.
Proof.
  assert (∃ t, convergence (shared (after toy_connected)) = Some t) as [t Ht] by (eexists; vm_compute; reflexivity).
  destruct (apply_replaces_assignment _ _ t [toy_a] [] toy_connected_reachable) as (s' & Hr & _ & _ & Hret & Hkeep & _).
  - vm_compute. reflexivity.
  - done.
  - apply NoDup_singleton.
  - vm_compute. reflexivity.
  - exists s'. split; [exact Hr|]. destruct (Hkeep toy_a) as [Hl _]; [vm_compute; reflexivity|]. split; [done|].
    apply Hret; [apply not_elem_of_nil|done].
Defined.

Lemma tracker_follows_workers_witness :
  ∃ t generations, convergence (shared (after toy_connected)) = Some t ∧ toy_a ∈ connected t ∧
    reported_servers (λ _, bs "g") t !! ServerAddress_render toy_a = Some generations ∧ length generations = 1%nat.
Proof.
  assert (∃ t, convergence (shared (after toy_connected)) = Some t ∧ assigned t = {[toy_a]}) as (t & Ht & Ha)
    by (eexists; split; vm_compute; reflexivity).
  destruct (tracker_follows_workers (λ _, bs "g") _ _ t toy_a toy_connected_reachable) as [Hc Hrep]; [vm_compute; reflexivity|done|].
  destruct Hrep as (gens & Hg & _ & Hp).
  - intros b. rewrite Ha, elem_of_singleton. intros ->. vm_compute. split; discriminate.
  - rewrite Ha. by apply elem_of_singleton.
  - exists t, gens. split_and!; [done| |done|].
    + apply Hc. eexists 1, _. split_and!; vm_compute; reflexivity.
    + rewrite Hp. vm_compute. reflexivity.
Defined.

Lemma drain_returns_first_failure_witness :
  ∃ s', run_actions exec (after (assign_a ++ shutdown_a)) [Complete 1; DrainDone] = Some s' ∧ phase s' = Returned (Ok tt).
Proof.
  assert (reachable (length (assign_a ++ shutdown_a)) (after (assign_a ++ shutdown_a))) as Hr
    by (apply after_reachable; vm_compute; eexists; reflexivity).
  destruct (drain_returns_first_failure _ _ None [1] Hr) as (s' & Hrun & Hp);
    [vm_compute; reflexivity|vm_compute; reflexivity|vm_compute; reflexivity|].
  exists s'. split; [exact Hrun|]. rewrite Hp. vm_compute. reflexivity.
Defined.
