(* ===== verification/Sse.v ===== *)
(** * Sse: Server-Sent Events framing and the Tunnel event snapshots

    [Parser] models the incremental parser of [src/sse.rs]; [Events] the snapshot
    encoding and the published replacement hint of [src/tunnel/events.rs], over
    abstract JSON and UUID libraries.  The parser is compared with a reference that
    reads the text line by line and block by block. *)

From Stdlib Require Import Ascii ZArith Lia.
From stdpp Require Import base strings numbers gmap list.
From S2P Require Import Prelude Text.

Local Open Scope Z_scope.

Definition LF : u8 := "010"%char.
Definition CR : u8 := "013"%char.

(** ** The parser *)
Module Parser.

Record SseLimits : Type := mkLimits {
  max_line_bytes : Z;
  max_event_type_bytes : Z;
  max_event_data_bytes : Z
}.

Inductive SseLimitKind : Type := LimitLine | LimitEventType | LimitEventData.

Record SseEvent : Type := mkEvent { ev_type : option bytes; ev_data : bytes }.

Inductive SseParseItem : Type :=
| Comment
| Event (e : SseEvent).

Inductive SseParseError : Type :=
| InvalidUtf8
| LimitExceeded (limit : SseLimitKind) (value max : Z).

Record SseParser : Type := mkParser {
  limits : SseLimits;
  pending : bytes;
  event_type : option bytes;
  data_lines : list bytes;
  data_bytes : Z;
  saw_cr : bool
}.

Definition new (l : SseLimits) : SseParser := mkParser l [] None [] 0 false.

Definition set_pending (x : bytes) (p : SseParser) : SseParser :=
  mkParser (limits p) x (event_type p) (data_lines p) (data_bytes p) (saw_cr p).
Definition set_saw_cr (x : bool) (p : SseParser) : SseParser :=
  mkParser (limits p) (pending p) (event_type p) (data_lines p) (data_bytes p) x.
Definition set_event_type (x : option bytes) (p : SseParser) : SseParser :=
  mkParser (limits p) (pending p) x (data_lines p) (data_bytes p) (saw_cr p).
Definition set_data (lines : list bytes) (n : Z) (p : SseParser) : SseParser :=
  mkParser (limits p) (pending p) (event_type p) lines n (saw_cr p).

Definition dispatch_event (p : SseParser) : SseParser * SseEvent :=
  let e := mkEvent (event_type p) (join [LF] (data_lines p)) in
  (set_data [] 0 (set_event_type None p), e).

(** [rest.strip_prefix(' ').unwrap_or(rest)]. *)
Definition strip_space (rest : bytes) : bytes :=
  match rest with b :: rest' => if byte_eqb b " "%char then rest' else rest | [] => rest end.

Definition split_field (line : bytes) : bytes * bytes :=
  match split_once ":"%char line with
  | Some (field, rest) => (field, strip_space rest)
  | None => (line, [])
  end.

(** The match on the field name. *)
Definition apply_field (p : SseParser) (field value : bytes) : result SseParseError SseParser :=
  if bool_decide (field = bs "event") then
    _ ← reject_if (max_event_type_bytes (limits p) <? len value)
          (LimitExceeded LimitEventType (len value) (max_event_type_bytes (limits p)));
    Ok (set_event_type (Some value) p)
  else if bool_decide (field = bs "data") then
    let added := match data_lines p with
                 | [] => len value
                 | _ => saturating_add usize_bits (len value) 1
                 end in
    let next := saturating_add usize_bits (data_bytes p) added in
    _ ← reject_if (max_event_data_bytes (limits p) <? next)
          (LimitExceeded LimitEventData next (max_event_data_bytes (limits p)));
    Ok (set_data (data_lines p ++ [value]) next p)
  else Ok p.

(** Returns the parser and the items pushed by this line. *)
Definition finish_line (p : SseParser) : result SseParseError (SseParser * list SseParseItem) :=
  let line := pending p in
  let p := set_pending [] p in
  match line with
  | [] => let '(p, e) := dispatch_event p in Ok (p, [Event e])
  | first :: _ =>
      _ ← reject_if (negb (utf8_valid line)) InvalidUtf8;
      if byte_eqb first ":"%char then Ok (p, [Comment])
      else
        let '(field, value) := split_field line in
        p ← apply_field p field value; Ok (p, [])
  end.

(** The match on a byte that does not complete a CRLF. *)
Definition push_plain (p : SseParser) (byte : u8) : result SseParseError (SseParser * list SseParseItem) :=
  if byte_eqb byte LF then finish_line p
  else if byte_eqb byte CR then Ok (set_saw_cr true p, [])
  else
    _ ← reject_if (max_line_bytes (limits p) <=? len (pending p))
          (LimitExceeded LimitLine (saturating_add usize_bits (len (pending p)) 1)
             (max_line_bytes (limits p)));
    Ok (set_pending (pending p ++ [byte]) p, []).

(** One iteration of the loop over the chunk. *)
Definition push_byte (p : SseParser) (byte : u8) : result SseParseError (SseParser * list SseParseItem) :=
  if saw_cr p then
    let p := set_saw_cr false p in
    if byte_eqb byte LF then finish_line p
    else
      '(p, items) ← finish_line p;
      '(p, items') ← push_plain p byte;
      Ok (p, items ++ items')
  else push_plain p byte.

Definition push_step (acc : SseParser * list SseParseItem) (byte : u8) :
    result SseParseError (SseParser * list SseParseItem) :=
  '(p, items) ← push_byte acc.1 byte; Ok (p, acc.2 ++ items).

(** On an error the caller drops the parser. *)
Definition push (p : SseParser) (chunk : bytes) : result SseParseError (SseParser * list SseParseItem) :=
  try_fold push_step (p, []) chunk.

(** Feeding the chunks of a stream one after the other. *)
Definition push_chunks (p : SseParser) (chunks : list bytes) :
    result SseParseError (SseParser * list SseParseItem) :=
  try_fold (λ acc chunk, '(p, items) ← push acc.1 chunk; Ok (p, acc.2 ++ items)) (p, []) chunks.

Example push_crlf :
  push (new (mkLimits 16 16 16)) (bs "event: a" ++ [CR; LF] ++ bs "data:b" ++ [CR; LF; CR; LF]) =
  Ok (new (mkLimits 16 16 16), [Event (mkEvent (Some (bs "a")) (bs "b"))]).
Proof. reflexivity. Qed.

Example push_keepalive :
  push (new (mkLimits 16 16 16)) (bs ": keepalive" ++ [LF; LF]) =
  Ok (new (mkLimits 16 16 16), [Comment; Event (mkEvent None [])]).
Proof. reflexivity. Qed.

(** *** Chunks do not matter *)

Lemma push_acc p items chunk :
  try_fold push_step (p, items) chunk =
  ('(p', items') ← push p chunk; Ok (p', items ++ items')).
Proof.
  unfold push. revert p items. induction chunk as [|b chunk IH]; intros p items; simpl.
  - by rewrite app_nil_r.
  - unfold push_step at 2 4. simpl. destruct (push_byte p b) as [[p' its]|]; simpl; [|done].
    rewrite IH, (IH p' its). destruct (try_fold push_step (p', []) chunk) as [[]|]; simpl; [|done].
    by rewrite app_assoc.
Qed.

Lemma push_app p c1 c2 :
  push p (c1 ++ c2) =
  ('(p1, i1) ← push p c1; '(p2, i2) ← push p1 c2; Ok (p2, i1 ++ i2)).
Proof.
  unfold push at 1. rewrite try_fold_app. fold (push p c1).
  destruct (push p c1) as [[p1 i1]|]; simpl; [|done]. apply push_acc.
Qed.

Lemma push_chunks_acc p items chunks :
  try_fold (λ acc chunk, '(p, items) ← push acc.1 chunk; Ok (p, acc.2 ++ items)) (p, items) chunks =
  ('(p', items') ← push p (concat chunks); Ok (p', items ++ items')).
Proof.
  revert p items. induction chunks as [|c chunks IH]; intros p items; simpl.
  - by rewrite app_nil_r.
  - rewrite push_app. destruct (push p c) as [[p1 i1]|]; simpl; [|done].
    rewrite IH. destruct (push p1 (concat chunks)) as [[]|]; simpl; [|done].
    by rewrite app_assoc.
Qed.

Lemma push_chunks_concat p chunks : push_chunks p chunks = push p (concat chunks).
Proof.
  unfold push_chunks. rewrite push_chunks_acc. simpl.
  by destruct (push p (concat chunks)) as [[]|].
Qed.

(** *** Sizes stay within the limits *)

(** Limits below [usize::MAX], so that a saturated count always exceeds them. *)
Definition limits_ok (l : SseLimits) : Prop :=
  0 ≤ max_line_bytes l < umax usize_bits ∧ 0 ≤ max_event_type_bytes l < umax usize_bits ∧
  0 ≤ max_event_data_bytes l < umax usize_bits.

Definition type_within (l : SseLimits) (t : option bytes) : Prop :=
  ∀ v, t = Some v → len v ≤ max_event_type_bytes l.

Record parser_inv (p : SseParser) : Prop := {
  inv_limits : limits_ok (limits p);
  inv_pending : len (pending p) ≤ max_line_bytes (limits p);
  inv_type : type_within (limits p) (event_type p);
  inv_data : data_bytes p = len (join [LF] (data_lines p));
  inv_data_max : data_bytes p ≤ max_event_data_bytes (limits p);
  inv_count : len (data_lines p) ≤ data_bytes p + 1
}.

Definition item_within (l : SseLimits) (i : SseParseItem) : Prop :=
  match i with
  | Comment => True
  | Event e => type_within l (ev_type e) ∧ len (ev_data e) ≤ max_event_data_bytes l
  end.

Lemma parser_inv_set_pending x p :
  parser_inv p → len x ≤ max_line_bytes (limits p) → parser_inv (set_pending x p).
Proof. intros [] Hx. by split. Qed.

Lemma parser_inv_set_saw_cr x p : parser_inv p → parser_inv (set_saw_cr x p).
Proof. intros []. by split. Qed.

Lemma apply_field_inv p field value p' :
  parser_inv p → apply_field p field value = Ok p' → parser_inv p' ∧ limits p' = limits p.
Proof.
  intros Hp. unfold apply_field. destruct (bool_decide (field = bs "event")).
  - intros H. invert H. apply reject_if_Ok, Z.ltb_ge in E.
    split; [|done]. destruct Hp. split; try done. by intros v [= <-].
  - destruct (bool_decide (field = bs "data")); [|by intros [= <-]].
    intros H. invert H. apply reject_if_Ok, Z.ltb_ge in E. split; [|done].
    destruct Hp as [Hl ? ? Hd ? Hc]. pose proof Hl as (_ & _ & Hmax).
    set (added := match data_lines p with [] => _ | _ => _ end) in *.
    assert (0 ≤ data_bytes p) as Hd0 by (rewrite Hd; apply len_nonneg).
    pose proof (len_nonneg value) as Hv0.
    assert (saturating_add usize_bits (data_bytes p) added =
      len (join [LF] (data_lines p ++ [value]))) as Hnext.
    { unfold saturating_add in *. subst added. destruct (data_lines p) as [|d ds] eqn:Eds.
      - simpl in *. rewrite len_nil in Hd. lia.
      - rewrite <- Eds in *. rewrite join_snoc, !len_app, <- Hd by by rewrite Eds.
        change (len [LF]) with 1. lia. }
    split; simpl; [done | done | done | done | lia |].
    rewrite len_app, Hnext. change (len [value]) with 1.
    destruct (data_lines p) as [|d ds] eqn:Eds; [rewrite len_nil; pose proof (len_nonneg (join [LF] ([] ++ [value]))); lia|].
    rewrite <- Eds in *. rewrite join_snoc, !len_app, <- Hd by by rewrite Eds.
    change (len [LF]) with 1. lia.
Qed.

Lemma finish_line_inv p p' items :
  parser_inv p → finish_line p = Ok (p', items) →
  parser_inv p' ∧ limits p' = limits p ∧ Forall (item_within (limits p)) items.
Proof.
  intros Hp. unfold finish_line.
  assert (parser_inv (set_pending [] p)) as Hp0.
  { apply parser_inv_set_pending; [done|]. rewrite len_nil. apply (inv_limits _ Hp). }
  destruct (pending p) as [|first line] eqn:Eline.
  - intros [= <- <-]. destruct Hp as [Hl ? ? Hd ? ?].
    split_and!; [split; simpl; rewrite ?len_nil; try done; apply Hl | done |].
    apply Forall_singleton. split; simpl; [done | lia].
  - intros H. invert_step H; [|done]. destruct (byte_eqb first ":"%char).
    + injection H as <- <-. split_and!; [done..|]. by repeat constructor.
    + destruct (split_field (first :: line)) as [field value].
      destruct (apply_field (set_pending [] p) field value) as [p1|] eqn:Ea; [|done].
      injection H as <- <-. apply apply_field_inv in Ea as [? ?]; [|done].
      split_and!; [done..|]. constructor.
Qed.

Lemma push_plain_inv p b p' items :
  parser_inv p → push_plain p b = Ok (p', items) →
  parser_inv p' ∧ limits p' = limits p ∧ Forall (item_within (limits p)) items.
Proof.
  intros Hp. unfold push_plain. destruct (byte_eqb b LF); [by apply finish_line_inv|].
  destruct (byte_eqb b CR).
  - intros [= <- <-]. split_and!; [by apply parser_inv_set_saw_cr | done | constructor].
  - intros H. invert H. apply reject_if_Ok, Z.leb_gt in E.
    split_and!; [|done|constructor]. apply parser_inv_set_pending; [done|].
    rewrite len_app. change (len [b]) with 1. lia.
Qed.

Lemma push_byte_inv p b p' items :
  parser_inv p → push_byte p b = Ok (p', items) →
  parser_inv p' ∧ limits p' = limits p ∧ Forall (item_within (limits p)) items.
Proof.
  intros Hp. unfold push_byte. destruct (saw_cr p); [|by apply push_plain_inv].
  assert (parser_inv (set_saw_cr false p)) as Hp0 by by apply parser_inv_set_saw_cr.
  destruct (byte_eqb b LF); [by apply (finish_line_inv _ _ _ Hp0)|].
  intros H. destruct (finish_line (set_saw_cr false p)) as [[p1 i1]|] eqn:E1; [|done].
  step_in H. destruct (push_plain p1 b) as [[p2 i2]|] eqn:E2; [|done]. injection H as <- <-.
  apply finish_line_inv in E1 as (? & Hl1 & ?); [|done].
  apply push_plain_inv in E2 as (? & Hl2 & Hi2); [|done]. simpl in *.
  rewrite Hl1 in Hl2, Hi2. split_and!; [done..|]. by apply Forall_app.
Qed.

Lemma push_inv p chunk p' items :
  parser_inv p → push p chunk = Ok (p', items) →
  parser_inv p' ∧ limits p' = limits p ∧ Forall (item_within (limits p)) items.
Proof.
  intros Hp H. unfold push in H.
  apply (try_fold_invariant push_step (λ _ acc,
    parser_inv acc.1 ∧ limits acc.1 = limits p ∧ Forall (item_within (limits p)) acc.2)
    chunk (p, []) (p', items)); [by split_and! | done |].
  intros done' b rest [p1 i1] [p2 i2] _ (Hp1 & Hl1 & Hi1) Hstep. unfold push_step in Hstep.
  destruct (push_byte (p1, i1).1 b) as [[p3 i3]|] eqn:E; [|done]. injection Hstep as <- <-.
  apply push_byte_inv in E as (? & Hl3 & Hi3); [|done]. simpl in *.
  rewrite Hl1 in Hl3, Hi3. split_and!; [done..|]. by apply Forall_app.
Qed.

Lemma new_inv l : limits_ok l → parser_inv (new l).
Proof. intros Hl. split; simpl; rewrite ?len_nil; try done; apply Hl. Qed.

(** *** A reference: line by line *)

Inductive eol : Type := EolLf | EolCr | EolCrLf.
Definition eol_bytes (e : eol) : bytes :=
  match e with EolLf => [LF] | EolCr => [CR] | EolCrLf => [CR; LF] end.

Definition render (ls : list (bytes * eol)) : bytes :=
  concat (List.map (λ le, fst le ++ eol_bytes (snd le)) ls).

Definition plain_line (l : bytes) : Prop := (LF ∉ l) ∧ (CR ∉ l).

(** A lone CR is only a line ending of its own when another byte than LF follows. *)
Fixpoint endings_ok (ls : list (bytes * eol)) : Prop :=
  match ls with
  | [] => True
  | (l, e) :: rest =>
      plain_line l ∧
      (e = EolCr → match rest with [] => False | (l', e') :: _ => ¬ (l' = [] ∧ e' = EolLf) end) ∧
      endings_ok rest
  end.

(** Processing one whole line. *)
Definition take_line (p : SseParser) (line : bytes) :
    result SseParseError (SseParser * list SseParseItem) :=
  _ ← reject_if (max_line_bytes (limits p) <? len line)
        (LimitExceeded LimitLine (saturating_add usize_bits (max_line_bytes (limits p)) 1)
           (max_line_bytes (limits p)));
  finish_line (set_pending line p).

Fixpoint run_lines (p : SseParser) (ls : list bytes) :
    result SseParseError (SseParser * list SseParseItem) :=
  match ls with
  | [] => Ok (p, [])
  | l :: ls' => '(p1, i1) ← take_line p l; '(p2, i2) ← run_lines p1 ls'; Ok (p2, i1 ++ i2)
  end.

(** Between two lines. *)
Definition at_line_start (p : SseParser) : Prop := pending p = [] ∧ saw_cr p = false.

Lemma apply_field_frame p field value p' :
  apply_field p field value = Ok p' →
  pending p' = pending p ∧ saw_cr p' = saw_cr p ∧ limits p' = limits p.
Proof.
  unfold apply_field. intros H.
  destruct (bool_decide (field = bs "event")); [by invert H|].
  destruct (bool_decide (field = bs "data")); [by invert H|]. by injection H as <-.
Qed.

Lemma finish_line_frame p p' items :
  finish_line p = Ok (p', items) →
  pending p' = [] ∧ saw_cr p' = saw_cr p ∧ limits p' = limits p.
Proof.
  unfold finish_line. intros H.
  destruct (pending p) as [|first line]; [by injection H as <- <-|].
  invert_step H; [|done]. destruct (byte_eqb first _); [by injection H as <- <-|].
  destruct (split_field _) as [field value].
  destruct (apply_field (set_pending [] p) field value) as [p1|] eqn:Ea; [|done].
  injection H as <- <-. by apply apply_field_frame in Ea.
Qed.

Lemma finish_line_at_start p p' items :
  saw_cr p = false → finish_line p = Ok (p', items) → at_line_start p'.
Proof. intros Hcr H. apply finish_line_frame in H as (? & ? & _). split; congruence. Qed.

Lemma push_cons p b chunk :
  push p (b :: chunk) =
  ('(p1, i1) ← push_byte p b; '(p2, i2) ← push p1 chunk; Ok (p2, i1 ++ i2)).
Proof.
  assert (push p [b] = push_byte p b) as Hb.
  { unfold push, push_step. cbn. by destruct (push_byte p b) as [[]|]. }
  change (b :: chunk) with ([b] ++ chunk). by rewrite push_app, Hb.
Qed.

Lemma set_pending_id p : set_pending (pending p) p = p.
Proof. by destruct p. Qed.

Lemma push_plain_line p l rest :
  plain_line l → saw_cr p = false → len (pending p) ≤ max_line_bytes (limits p) →
  push p (l ++ rest) =
  (_ ← reject_if (max_line_bytes (limits p) <? len (pending p) + len l)
        (LimitExceeded LimitLine (saturating_add usize_bits (max_line_bytes (limits p)) 1)
           (max_line_bytes (limits p)));
   push (set_pending (pending p ++ l) p) rest).
Proof.
  revert p. induction l as [|b l IH]; intros p [Hlf Hcr] Hsaw Hlen.
  - rewrite len_nil, (proj2 (Z.ltb_ge _ _)), app_nil_r, set_pending_id by lia. done.
  - apply not_elem_of_cons in Hlf as [? ?], Hcr as [? ?].
    change ((b :: l) ++ rest) with (b :: (l ++ rest)). rewrite push_cons.
    unfold push_byte. rewrite Hsaw. unfold push_plain.
    rewrite !(proj2 (byte_eqb_false _ _)) by done. rewrite len_cons.
    destruct (Z.leb_spec (max_line_bytes (limits p)) (len (pending p))) as [Hge|Hlt]; step.
    + rewrite (proj2 (Z.ltb_lt _ _)) by (pose proof (len_nonneg l); lia). step.
      by replace (len (pending p)) with (max_line_bytes (limits p)) by lia.
    + rewrite IH; simpl; [|done|done|rewrite len_app; change (len [b]) with 1; lia].
      rewrite len_app, <- app_assoc. change (len [b]) with 1.
      replace (len (pending p) + 1 + len l) with (len (pending p) + (1 + len l)) by lia.
      destruct (_ <? _); step; [done|].
      change (set_pending ?x (set_pending ?y p)) with (set_pending x p).
      by destruct (push _ rest) as [[]|].
Qed.

Lemma push_line p l e rest :
  plain_line l → at_line_start p → 0 ≤ max_line_bytes (limits p) →
  (e = EolCr → ∃ b rest', rest = b :: rest' ∧ b ≠ LF) →
  push p (l ++ eol_bytes e ++ rest) =
  ('(p1, i1) ← take_line p l; '(p2, i2) ← push p1 rest; Ok (p2, i1 ++ i2)).
Proof.
  intros Hl [Hpend Hcr] Hmax Hrest.
  rewrite push_plain_line by (done || rewrite Hpend, len_nil; lia).
  unfold take_line. rewrite Hpend, len_nil, Z.add_0_l, app_nil_l.
  destruct (max_line_bytes (limits p) <? len l); step; [done|].
  set (q := set_pending l p). assert (saw_cr q = false) as Hq by done.
  assert (set_saw_cr false (set_saw_cr true q) = q) as Hset.
  { subst q. destruct p; simpl in *. by subst. }
  destruct e; cbn [eol_bytes app].
  - rewrite push_cons. unfold push_byte. rewrite Hq.
    change (push_plain q LF) with (finish_line q).
    by destruct (finish_line q) as [[]|].
  - destruct (Hrest eq_refl) as (b & rest' & -> & Hb).
    rewrite push_cons. unfold push_byte at 1. rewrite Hq. step.
    change (push_plain q CR) with (@Ok SseParseError _ (set_saw_cr true q, @nil SseParseItem)). step.
    rewrite push_cons. unfold push_byte. cbn [saw_cr set_saw_cr]. fold (set_saw_cr true q).
    rewrite Hset, (proj2 (byte_eqb_false _ _)) by done.
    destruct (finish_line q) as [[p1 i1]|] eqn:Ef; step; [|done].
    rewrite push_cons. unfold push_byte.
    destruct (finish_line_at_start q p1 i1 Hq Ef) as [_ ->].
    destruct (push_plain p1 b) as [[p2 i2]|]; step; [|done].
    destruct (push p2 rest') as [[]|]; step; [|done]. cbn [app]. by rewrite <- ?app_assoc.
  - rewrite push_cons. unfold push_byte at 1. rewrite Hq. step.
    change (push_plain q CR) with (@Ok SseParseError _ (set_saw_cr true q, @nil SseParseItem)). step.
    rewrite push_cons. unfold push_byte. cbn [saw_cr set_saw_cr]. fold (set_saw_cr true q).
    rewrite Hset, byte_eqb_refl.
    destruct (finish_line q) as [[p1 i1]|]; step; [|done].
    by destruct (push p1 rest) as [[]|].
Qed.

Lemma push_render p ls :
  endings_ok ls → at_line_start p → 0 ≤ max_line_bytes (limits p) →
  push p (render ls) = run_lines p (List.map fst ls).
Proof.
  revert p. induction ls as [|[l e] ls IH]; intros p Hok Hstart Hmax; [done|].
  destruct Hok as (Hl & Hcr & Hok). unfold render. cbn [List.map concat fst snd].
  rewrite <- app_assoc. fold (render ls). rewrite push_line; [|done..|].
  - cbn [run_lines]. destruct (take_line p l) as [[p1 i1]|] eqn:Et; step; [|done].
    unfold take_line in Et. invert_step Et; [|done].
    rewrite IH; [done|done| |].
    + by apply finish_line_at_start in Et; [|destruct Hstart].
    + apply finish_line_frame in Et as (_ & _ & ->). done.
  - intros ->. specialize (Hcr eq_refl). destruct ls as [|[l' e'] ls]; [done|].
    destruct Hok as ([Hlf _] & _). unfold render. cbn [List.map concat fst snd].
    destruct l' as [|b l']; [destruct e'; simpl; [by destruct Hcr | eauto..]|].
    apply not_elem_of_cons in Hlf as [? _]. simpl. eauto.
Qed.

(** *** What a block of lines dispatches *)

Definition is_comment (l : bytes) : bool :=
  match l with b :: _ => byte_eqb b ":"%char | [] => false end.

(** The value that the line gives the field [name], if it is such a line. *)
Definition field_value (name : bytes) (l : bytes) : option bytes :=
  if is_comment l then None
  else if bool_decide ((split_field l).1 = name) then Some (split_field l).2 else None.

Definition field_values (name : bytes) (block : list bytes) : list bytes :=
  omap (field_value name) block.







(** *** Which blocks are accepted *)

(** A line of the text that the parser takes, by itself: short enough, UTF-8, and an event
    type within its limit. *)
Definition line_ok (l : SseLimits) (line : bytes) : Prop :=
  len line ≤ max_line_bytes l ∧ utf8_valid line = true ∧
  ∀ v, field_value (bs "event") line = Some v → len v ≤ max_event_type_bytes l.

(** A block of lines between two blank ones. *)
Definition block_ok (l : SseLimits) (block : list bytes) : Prop :=
  Forall (line_ok l) block ∧ len (join [LF] (field_values (bs "data") block)) ≤ max_event_data_bytes l.

#[export] Instance line_ok_dec l line : Decision (line_ok l line).
Proof.
  unfold line_ok. destruct (field_value (bs "event") line) as [v|].
  - destruct (decide (len line ≤ max_line_bytes l ∧ utf8_valid line = true ∧ len v ≤ max_event_type_bytes l)) as [H|H];
      [left|right]; naive_solver.
  - destruct (decide (len line ≤ max_line_bytes l ∧ utf8_valid line = true)) as [H|H]; [left|right]; naive_solver.
Defined.
#[export] Instance block_ok_dec l block : Decision (block_ok l block).
Proof. unfold block_ok. apply _. Defined.










End Parser.

(** ** Tunnel event snapshots *)
Module Events.
Import Parser.

Definition SNAPSHOT_EVENT_TYPE : bytes := bs "snapshot".
Definition TUNNEL_EVENT_SSE_LIMITS : SseLimits := mkLimits (4 * 1024) 64 (4 * 1024).
Definition KEEPALIVE_COMMENT : bytes := bs ": keepalive" ++ [LF; LF].

(** The [uuid] crate: parsing, the canonical lowercase hyphenated form, and the
    version and variant tests. *)
Class UuidOps (U : Type) : Type := {
  uuid_eq_dec : EqDecision U;
  try_parse : bytes → option U;
  encode_lower : U → bytes;
  version_is_sort_rand : U → bool;
  variant_is_rfc4122 : U → bool
}.
#[export] Existing Instance uuid_eq_dec.

Definition WireSnapshot : Type := bytes * option bytes.

(** [serde_json] on the two-field wire snapshot. *)
Class JsonOps : Type := {
  json_to_string : WireSnapshot → bytes;
  json_from_str : bytes → option WireSnapshot
}.

Inductive TunnelEventError : Type :=
| UnexpectedEventType | MalformedState | InvalidGeneration.

Section Snapshots.
Context {U : Type} `{UuidOps U} `{JsonOps}.

(** The wire form of a generation: a UUIDv7 in canonical form. *)
Definition ServerRuntimeGeneration_parse (value : bytes) : option U :=
  uuid ← try_parse value;
  let canonical := bool_decide (encode_lower uuid = value) in
  if canonical && version_is_sort_rand uuid && variant_is_rfc4122 uuid then Some uuid else None.

Record TunnelEventState : Type := mkState {
  server_generation : U;
  replacement_generation : option U
}.

Definition current (g : U) : TunnelEventState := mkState g None.

Definition filter_other (g : U) (replacement : option U) : option U :=
  r ← replacement; if bool_decide (r ≠ g) then Some r else None.

Definition hinted_replacement (s : TunnelEventState) : option U :=
  filter_other (server_generation s) (replacement_generation s).

Definition encode_sse (s : TunnelEventState) : bytes :=
  let wire := (encode_lower (server_generation s), encode_lower <$> replacement_generation s) in
  let data := json_to_string wire in
  bs "event: " ++ SNAPSHOT_EVENT_TYPE ++ [LF] ++ bs "data: " ++ data ++ [LF; LF].

Definition decode (event_type : option bytes) (data : bytes) :
    result TunnelEventError TunnelEventState :=
  _ ← reject_if (bool_decide (event_type ≠ Some SNAPSHOT_EVENT_TYPE)) UnexpectedEventType;
  '(generation, replacement) ← ok_or MalformedState (json_from_str data);
  g ← ok_or InvalidGeneration (ServerRuntimeGeneration_parse generation);
  r ← match replacement with
      | None => Ok None
      | Some value =>
          v ← ok_or MalformedState (ServerRuntimeGeneration_parse value); Ok (Some v)
      end;
  Ok (mkState g r).

(** The watch channel behind [ServerTunnelEvents]: the current value, and whether
    the update wakes the subscribers. *)
Definition ServerTunnelEvents_new (g : U) : TunnelEventState := current g.

Definition set_replacement_generation (replacement : option U) (snapshot : TunnelEventState) :
    TunnelEventState * bool :=
  let advertised := filter_other (server_generation snapshot) replacement in
  let changed := bool_decide (replacement_generation snapshot ≠ advertised) in
  (mkState (server_generation snapshot) advertised, changed).

(** *** What the libraries promise *)

Definition generation_byte (b : u8) : Prop := is_ascii_hexdigit b = true ∨ b = "-"%char.

(** The compact JSON text of a snapshot whose strings need no escapes. *)
Definition wire_json (w : WireSnapshot) : bytes :=
  let q := ["034"%char] in
  bs "{" ++ q ++ bs "generation" ++ q ++ bs ":" ++ q ++ w.1 ++ q ++
  match w.2 with
  | None => []
  | Some r => bs "," ++ q ++ bs "replacement_generation" ++ q ++ bs ":" ++ q ++ r ++ q
  end ++ bs "}".

Definition plain_wire (w : WireSnapshot) : Prop :=
  Forall generation_byte w.1 ∧ ∀ r, w.2 = Some r → Forall generation_byte r.

Class SnapshotLaws : Prop := {
  encode_lower_form : ∀ u, Forall generation_byte (encode_lower u) ∧ len (encode_lower u) = 36;
  try_parse_encode : ∀ u, try_parse (encode_lower u) = Some u;
  json_to_string_plain : ∀ w, plain_wire w → json_to_string w = wire_json w;
  json_from_str_plain : ∀ w, plain_wire w → json_from_str (wire_json w) = Some w
}.

(** A generation minted by [Uuid::now_v7]. *)
Definition minted (u : U) : Prop :=
  version_is_sort_rand u = true ∧ variant_is_rfc4122 u = true.
Definition minted_state (s : TunnelEventState) : Prop :=
  minted (server_generation s) ∧ ∀ r, replacement_generation s = Some r → minted r.

Section Lemmas.
Context `{!SnapshotLaws}.

Lemma parse_minted u : minted u → ServerRuntimeGeneration_parse (encode_lower u) = Some u.
Proof.
  intros [Hv Hr]. unfold ServerRuntimeGeneration_parse. rewrite try_parse_encode. simpl.
  by rewrite bool_decide_true, Hv, Hr by done.
Qed.

Definition wire_of (s : TunnelEventState) : WireSnapshot :=
  (encode_lower (server_generation s), encode_lower <$> replacement_generation s).

Lemma wire_of_plain s : plain_wire (wire_of s).
Proof.
  split; [apply encode_lower_form|]. intros r Hr. apply fmap_Some in Hr as (u & _ & ->).
  apply encode_lower_form.
Qed.

Lemma decode_wire s :
  minted_state s → decode (Some SNAPSHOT_EVENT_TYPE) (wire_json (wire_of s)) = Ok s.
Proof.
  intros [Hg Hr]. unfold decode. rewrite bool_decide_false by auto. step.
  rewrite json_from_str_plain by apply wire_of_plain. unfold wire_of. step.
  rewrite parse_minted by done. step. destruct s as [g [r|]]; simpl; [|done].
  by rewrite parse_minted by by apply Hr.
Qed.

(** Every byte of the wire text is printable ASCII. *)
Lemma wire_json_bytes w :
  plain_wire w → Forall (λ b, (32 <=? u8_val b) && (u8_val b <? 128) = true) (wire_json w).
Proof.
  assert (∀ b, generation_byte b → (32 <=? u8_val b) && (u8_val b <? 128) = true) as Hgen.
  { intros b [Hb| ->]; [|done]. assert (implb (is_ascii_hexdigit b)
      ((32 <=? u8_val b) && (u8_val b <? 128)) = true) as Himp
      by (revert b Hb; intros b _; revert b; apply all_bytes; by vm_compute).
    by rewrite Hb in Himp. }
  intros [Hg Hr]. unfold wire_json.
  assert (∀ l, Forall generation_byte l →
    Forall (λ b, (32 <=? u8_val b) && (u8_val b <? 128) = true) l) as Hl
    by (intros l ?; by eapply Forall_impl).
  repeat (apply Forall_app; split); try (by repeat constructor); [by apply Hl|].
  destruct w.2 as [r|]; [|constructor].
  repeat (apply Forall_app; split); try (by repeat constructor). apply Hl. by apply Hr.
Qed.

Lemma wire_json_len s : len (wire_json (wire_of s)) ≤ 256.
Proof.
  unfold wire_json, wire_of. cbn [fst snd]. rewrite !len_app.
  rewrite (proj2 (encode_lower_form (server_generation s))).
  destruct (replacement_generation s) as [r|]; simpl fmap; cbn iota.
  - rewrite !len_app, (proj2 (encode_lower_form r)). vm_compute. by intros.
  - vm_compute. by intros.
Qed.

Lemma printable_plain_line l :
  Forall (λ b, (32 <=? u8_val b) && (u8_val b <? 128) = true) l → plain_line l.
Proof.
  rewrite Forall_forall. intros Hall. split; intros Hin; by apply Hall in Hin.
Qed.

Lemma take_data_line j :
  Forall (λ b, (32 <=? u8_val b) && (u8_val b <? 128) = true) j → len j ≤ 256 →
  take_line (set_event_type (Some SNAPSHOT_EVENT_TYPE) (new TUNNEL_EVENT_SSE_LIMITS))
    (bs "data: " ++ j) =
  Ok (set_data [j] (len j) (set_event_type (Some SNAPSHOT_EVENT_TYPE) (new TUNNEL_EVENT_SSE_LIMITS)), []).
Proof.
  intros Hj Hlen. unfold take_line, finish_line. rewrite len_app.
  change (len (bs "data: ")) with 6.
  cbn [limits set_event_type new max_line_bytes TUNNEL_EVENT_SSE_LIMITS].
  rewrite (proj2 (Z.ltb_ge _ _)) by lia. step.
  cbn [pending set_pending].
  assert (utf8_valid (bs "data: " ++ j) = true) as Hutf.
  { apply utf8_valid_ascii, Forall_app. split; [by repeat constructor | done]. }
  change (bs "data: " ++ j) with ("d"%char :: (bs "ata: " ++ j)) in *. rewrite Hutf. step.
  change (byte_eqb "d" ":") with false. cbn iota.
  change (split_field ("d"%char :: (bs "ata: " ++ j))) with (bs "data", j).
  unfold apply_field. cbn [data_lines set_pending set_event_type new data_bytes limits].
  change (bool_decide (bs "data" = bs "event")) with false.
  change (bool_decide (bs "data" = bs "data")) with true. cbn iota.
  assert (saturating_add usize_bits 0 (len j) = len j) as ->.
  { unfold saturating_add, umax, usize_bits. lia. }
  cbn [max_event_data_bytes TUNNEL_EVENT_SSE_LIMITS].
  rewrite (proj2 (Z.ltb_ge _ _)) by lia. done.
Qed.

Lemma push_encode_sse s :
  push (new TUNNEL_EVENT_SSE_LIMITS) (encode_sse s) =
  Ok (new TUNNEL_EVENT_SSE_LIMITS,
      [Event (mkEvent (Some SNAPSHOT_EVENT_TYPE) (wire_json (wire_of s)))]).
Proof.
  unfold encode_sse. fold (wire_of s).
  rewrite json_to_string_plain by apply wire_of_plain. set (j := wire_json (wire_of s)).
  pose proof (wire_json_bytes _ (wire_of_plain s)) as Hj. fold j in Hj.
  set (ls := [(bs "event: snapshot", EolLf); (bs "data: " ++ j, EolLf); ([], EolLf)]).
  replace (bs "event: " ++ _) with (render ls)
    by (unfold render; simpl; by rewrite <- !app_assoc).
  assert (endings_ok ls) as Hok.
  { assert (plain_line (bs "event: snapshot")) by by apply printable_plain_line; repeat constructor.
    assert (plain_line (bs "data: " ++ j))
      by (apply printable_plain_line, Forall_app; split; [by repeat constructor | done]).
    assert (plain_line []) by (split; apply not_elem_of_nil). by repeat (split; [done|]). }
  rewrite push_render by done.
  cbn [List.map fst ls run_lines].
  change (take_line (new TUNNEL_EVENT_SSE_LIMITS) (bs "event: snapshot")) with
    (@Ok SseParseError _ (set_event_type (Some SNAPSHOT_EVENT_TYPE)
      (new TUNNEL_EVENT_SSE_LIMITS), @nil SseParseItem)). step.
  rewrite take_data_line by (done || apply wire_json_len). step. reflexivity.
Qed.

End Lemmas.
End Snapshots.
End Events.

(** ** A concrete pair of generations *)
Module ToyWire.
Import Events.

Definition toy_show (u : bool) : bytes :=
  if u then bs "019a0000-0000-7000-8000-000000000001" else bs "019a0000-0000-7000-8000-000000000002".

#[export] Instance toy_uuid : UuidOps bool := {
  uuid_eq_dec := _;
  try_parse s := if bool_decide (s = toy_show true) then Some true
                 else if bool_decide (s = toy_show false) then Some false else None;
  encode_lower := toy_show;
  version_is_sort_rand _ := true;
  variant_is_rfc4122 _ := true
}.

(** The text up to the next quote. *)
Fixpoint until_quote (s : bytes) : bytes * bytes :=
  match s with
  | [] => ([], [])
  | b :: s' => if byte_eqb b "034"%char then ([], s')
               else let '(x, y) := until_quote s' in (b :: x, y)
  end.

#[export] Instance toy_json : JsonOps := {
  json_to_string := wire_json;
  json_from_str s :=
    let '(g, rest) := until_quote (drop 15 s) in
    match rest with
    | "}"%char :: _ => Some (g, None)
    | _ => let '(r, _) := until_quote (drop 27 rest) in Some (g, Some r)
    end
}.

Lemma until_quote_plain l rest :
  Forall generation_byte l → until_quote (l ++ "034"%char :: rest) = (l, rest).
Proof.
  induction 1 as [|b l Hb Hl IH]; [done|]. simpl. rewrite IH.
  destruct (byte_eqb b "034"%char) eqn:E; [|done].
  apply byte_eqb_true in E. subst. by destruct Hb.
Qed.

Lemma generation_bytes_check l :
  forallb (λ b, is_ascii_hexdigit b || byte_eqb b "-"%char) l = true → Forall generation_byte l.
Proof.
  intros Hl. rewrite forallb_forall in Hl. apply Forall_forall. intros b Hb.
  apply list_elem_of_In, Hl, orb_true_iff in Hb as [?|?%byte_eqb_true]; [by left | by right].
Qed.

#[export] Instance toy_snapshot_laws : SnapshotLaws.
Proof.
  split.
  - intros []; (split; [|done]); apply generation_bytes_check; by vm_compute.
  - by intros [].
  - done.
  - intros [g o] [Hg Hr]. unfold json_from_str, toy_json.
    change (drop 15 (wire_json (g, o))) with
      (g ++ "034"%char :: match o with
        | None => []
        | Some r => "," :: "034" :: bs "replacement_generation" ++ "034" :: ":" :: "034" :: r ++ ["034"]
        end%char ++ bs "}"). rewrite until_quote_plain by done.
    destruct o as [r|]; [|done]. cbn [app bs drop String.list_ascii_of_string].
    rewrite <- app_assoc. cbn [app]. rewrite drop_0. by rewrite until_quote_plain by by apply Hr.
Qed.

End ToyWire.

(** ** Properties *)

Import Parser Events ToyWire.



(** Whatever a peer sends, the parser's memory stays bounded: at most
    [max_line_bytes] of unfinished line, an event type within its limit, and data
    lines whose joined size is the tracked [data_bytes] and within the data limit;
    every dispatched event respects the same limits. *)
Theorem sse_bounded_memory l chunks p items :
  limits_ok l → push_chunks (new l) chunks = Ok (p, items) →
  limits p = l ∧ len (pending p) ≤ max_line_bytes l ∧ type_within l (event_type p) ∧
  data_bytes p = len (join [LF] (data_lines p)) ∧ data_bytes p ≤ max_event_data_bytes l ∧
  len (data_lines p) ≤ max_event_data_bytes l + 1 ∧ Forall (item_within l) items.
Proof.
  intros Hl H. rewrite push_chunks_concat in H.
  destruct (push_inv _ _ _ _ (new_inv l Hl) H) as ([] & Heq & Hi).
  rewrite Heq in *. simpl in *. split_and!; try done. lia.
Qed.

Lemma sse_bounded_memory_witness :
  ∃ p items,
    push_chunks (new TUNNEL_EVENT_SSE_LIMITS) [bs "data: a"; [CR]; [LF] ++ bs "data:b" ++ [LF]] =
      Ok (p, items) ∧ len (data_lines p) ≤ 4097.
Proof.
  eexists _, _. split; [by vm_compute|].
  eapply (sse_bounded_memory TUNNEL_EVENT_SSE_LIMITS
    [bs "data: a"; [CR]; [LF] ++ bs "data:b" ++ [LF]]); by vm_compute.
Defined.

(** LF, CR and CRLF are interchangeable line endings.  A stream of lines with any
    mix of endings (a lone CR must be followed by another byte than LF) is processed
    exactly as the sequence of its lines: same items, same state, same error. *)
Theorem sse_line_endings l ls :
  0 ≤ max_line_bytes l → endings_ok ls →
  push (new l) (render ls) = run_lines (new l) (List.map fst ls).
Proof. intros Hl Hls. by apply push_render. Qed.

Lemma sse_line_endings_witness :
  push (new TUNNEL_EVENT_SSE_LIMITS)
    (render [(bs "event: a", EolCr); (bs ":", EolCrLf); (bs "data: b", EolLf); ([], EolLf)]) =
  run_lines (new TUNNEL_EVENT_SSE_LIMITS) [bs "event: a"; bs ":"; bs "data: b"; []].
Proof.
  apply (sse_line_endings TUNNEL_EVENT_SSE_LIMITS
    [(bs "event: a", EolCr); (bs ":", EolCrLf); (bs "data: b", EolLf); ([], EolLf)]).
  - by vm_compute.
  - cbn [endings_ok]. unfold plain_line.
    split_and!; first [done | (apply contains_byte_false; by vm_compute) | by intros [=] | by intros _ [? _]].
Defined.

(** C37: a snapshot that the Server encodes is decoded by the Client as itself, however
    the stream is fragmented: parsing the encoded bytes dispatches exactly one event,
    the parser ends in its initial state, and decoding that event yields the same
    server generation and replacement hint. *)
Theorem tunnel_snapshot_roundtrip `{SnapshotLaws U} (s : TunnelEventState) chunks :
  minted_state s → concat chunks = encode_sse s →
  ∃ e, push_chunks (new TUNNEL_EVENT_SSE_LIMITS) chunks =
      Ok (new TUNNEL_EVENT_SSE_LIMITS, [Event e]) ∧
    decode (ev_type e) (ev_data e) = Ok s.
Proof.
  intros Hs Hc. rewrite push_chunks_concat, Hc, push_encode_sse.
  eexists. split; [done|]. by apply decode_wire.
Qed.

Lemma tunnel_snapshot_roundtrip_witness :
  let s := mkState true (Some false) in
  let b := encode_sse s in
  ∃ e, push_chunks (new TUNNEL_EVENT_SSE_LIMITS) [take 9 b; drop 9 b] =
      Ok (new TUNNEL_EVENT_SSE_LIMITS, [Event e]) ∧
    decode (ev_type e) (ev_data e) = Ok s.
Proof.
  intros s b. apply (tunnel_snapshot_roundtrip s [take 9 b; drop 9 b]).
  - by repeat split.
  - by vm_compute.
Defined.

(** An event whose last line ending is a lone CR is withheld: the parser reports
    nothing until one more byte arrives, although LF and CRLF endings dispatch at
    once. *)
Theorem sse_trailing_cr_withheld :
  let block := bs "event: snapshot" ++ [CR] ++ bs "data: x" ++ [CR; CR] in
  (∃ p, push (new TUNNEL_EVENT_SSE_LIMITS) block = Ok (p, []) ∧
     push p (bs ":") = Ok (set_pending (bs ":") (new TUNNEL_EVENT_SSE_LIMITS),
       [Event (mkEvent (Some (bs "snapshot")) (bs "x"))])).
Proof. eexists. split; by vm_compute. Qed.
