(* ===== verification/Http.v ===== *)
(** * Http: header fields, status policies and request routing

    The parts of HTTP that the program decides itself, over messages that [hyper], [h3] and
    the [http] crate have parsed: module [Field] has header values, media types and content
    lengths; module [Control] has the Managed session's response policy, session identifier,
    paths and state document ([src/managed_session/status.rs], [connection.rs], [role.rs],
    [state.rs]); module [Signaling] has the Server's request routing and the bodyless request
    reader ([src/tunnel/server.rs]). *)

From Stdlib Require Import Ascii ZArith Lia.
From stdpp Require Import base strings numbers list.
From S2P Require Import Prelude Text Names Sse.
Import Hostname Events.

Open Scope Z_scope.

(** ** Header fields *)

Module Field.

(** A [HeaderMap]: lower-case names with their values, in order. *)
Definition HeaderMap : Type := list (bytes * bytes).

Definition get_all (name : bytes) (headers : HeaderMap) : list bytes :=
  snd <$> List.filter (λ h, bool_decide (h.1 = name)) headers.
Definition get (name : bytes) (headers : HeaderMap) : option bytes := head (get_all name headers).

(** [HeaderValue::to_str]. *)
Definition is_visible (b : u8) : bool := between 32 126 b || bool_decide (u8_val b = 9).
Definition to_str (value : bytes) : option bytes := if forallb is_visible value then Some value else None.

(** [str::trim] on ASCII text. *)
Definition is_whitespace (b : u8) : bool := between 9 13 b || bool_decide (u8_val b = 32).
Fixpoint trim_start (s : bytes) : bytes :=
  match s with [] => [] | b :: s' => if is_whitespace b then trim_start s' else s end.
Definition trim (s : bytes) : bytes := rev (trim_start (rev (trim_start s))).

Definition eq_ignore_ascii_case (a b : bytes) : bool :=
  bool_decide (to_ascii_lowercase <$> a = to_ascii_lowercase <$> b).

Definition CONTENT_TYPE : bytes := bs "content-type".
Definition CONTENT_LENGTH : bytes := bs "content-length".
Definition TRANSFER_ENCODING : bytes := bs "transfer-encoding".

(** [is_event_stream] of the Tunnel Client. *)
Definition is_event_stream (headers : HeaderMap) : bool :=
  match (value ← get CONTENT_TYPE headers; text ← to_str value; head (split_on ";"%char text)) with
  | Some media_type => eq_ignore_ascii_case (trim media_type) (bs "text/event-stream")
  | None => false
  end.

(** [content_type_is_event_stream] of the Managed session. *)
Definition content_type_is_event_stream (headers : HeaderMap) : bool :=
  match get CONTENT_TYPE headers with
  | None => false
  | Some value =>
      match to_str value with
      | None => false
      | Some value =>
          let media_type := to_ascii_lowercase <$> trim (default value (head (split_on ";"%char value))) in
          bool_decide (media_type = bs "text/event-stream")
      end
  end.

Inductive MalformedContentLength : Type := Malformed.

Definition u64_max : Z := 2 ^ 64 - 1.

(** One element of a [content-length] line. *)
Definition read_length (declared : option Z) (element : bytes) : result MalformedContentLength (option Z) :=
  let element := trim element in
  _ ← reject_if (bool_decide (element = []) || negb (forallb is_ascii_digit element)) Malformed;
  length ← ok_or Malformed (parse_uint u64_max element);
  _ ← reject_if (match declared with Some d => negb (d =? length) | None => false end) Malformed;
  Ok (Some length).

Definition read_line (declared : option Z) (value : bytes) : result MalformedContentLength (option Z) :=
  value ← ok_or Malformed (to_str value);
  try_fold read_length declared (split_on ","%char value).

Definition declared_content_length (headers : HeaderMap) : result MalformedContentLength (option Z) :=
  try_fold read_line None (get_all CONTENT_LENGTH headers).

(** *** Decimal lengths *)

Definition dec_value (s : bytes) : Z := foldl (λ acc b, acc * 10 + (u8_val b - 48)) 0 s.

(** An element that denotes [n]. *)
Definition denotes_length (n : Z) (element : bytes) : Prop :=
  trim element ≠ [] ∧ Forall (λ b, is_ascii_digit b = true) (trim element) ∧ dec_value (trim element) = n ∧
  n ≤ u64_max.

Lemma digit_to_digit b : is_ascii_digit b = true → to_digit 10 b = Some (u8_val b - 48) ∧ 0 ≤ u8_val b - 48 ≤ 9.
Proof.
  revert b. assert (∀ b, implb (is_ascii_digit b)
    (bool_decide (to_digit 10 b = Some (u8_val b - 48)) && (0 <=? u8_val b - 48) && (u8_val b - 48 <=? 9)) = true) as H.
  { intros [[] [] [] [] [] [] [] []]; vm_compute; reflexivity. }
  intros b Hb. specialize (H b). rewrite Hb in H. simpl in H.
  apply andb_true_iff in H as [[H1%bool_decide_eq_true H2%Z.leb_le]%andb_true_iff H3%Z.leb_le]. auto.
Qed.

Lemma dec_acc_mono s acc :
  Forall (λ b, is_ascii_digit b = true) s → 0 ≤ acc → acc ≤ foldl (λ acc b, acc * 10 + (u8_val b - 48)) acc s.
Proof.
  intros Hs. revert acc. induction Hs as [|b s Hb _ IH]; intros acc Hacc; simpl; [lia|].
  destruct (digit_to_digit b Hb) as [_ Hr]. specialize (IH (acc * 10 + (u8_val b - 48))). lia.
Qed.

Lemma parse_digits_dec max s acc :
  Forall (λ b, is_ascii_digit b = true) s → 0 ≤ acc ≤ max →
  parse_digits 10 max acc s =
  (let v := foldl (λ acc b, acc * 10 + (u8_val b - 48)) acc s in if v <=? max then Some v else None).
Proof.
  intros Hs. revert acc. induction Hs as [|b s Hb Hs IH]; intros acc Hacc; simpl.
  { destruct (Z.leb_spec acc max); [done|lia]. }
  destruct (digit_to_digit b Hb) as [-> Hr]. destruct (Z.leb_spec (acc * 10 + (u8_val b - 48)) max).
  - apply IH. lia.
  - pose proof (dec_acc_mono s (acc * 10 + (u8_val b - 48)) Hs).
    destruct (Z.leb_spec (foldl (λ acc b, acc * 10 + (u8_val b - 48)) (acc * 10 + (u8_val b - 48)) s) max); [lia|done].
Qed.

Lemma parse_uint_dec max s :
  0 ≤ max → s ≠ [] → Forall (λ b, is_ascii_digit b = true) s →
  parse_uint max s = if dec_value s <=? max then Some (dec_value s) else None.
Proof.
  intros Hmax Hne Hs. unfold parse_uint, from_str_radix. destruct s as [|b s]; [done|].
  destruct (byte_eqb b "+"%char) eqn:Hb.
  { apply bool_decide_eq_true in Hb as ->. apply Forall_cons in Hs as [Hd _]. done. }
  by rewrite parse_digits_dec by (done || lia).
Qed.

Lemma read_length_ok declared element n :
  read_length declared element = Ok (Some n) ↔
  denotes_length n element ∧ ∀ d, declared = Some d → d = n.
Proof.
  unfold read_length, denotes_length. set (e := trim element).
  destruct (bool_decide_reflect (e = [])) as [He|He].
  { simpl. rewrite He. split; [done|]. by intros [[? _] _]. }
  destruct (forallb is_ascii_digit e) eqn:Hd.
  2: { simpl. split; [done|]. intros [(_ & Hf & _) _]. apply forallb_Forall_true in Hf. congruence. }
  apply forallb_Forall_true in Hd as Hf.
  simpl. rewrite parse_uint_dec by done. destruct (Z.leb_spec (dec_value e) u64_max) as [Hle|Hgt]; simpl.
  - destruct declared as [d|]; simpl.
    + destruct (Z.eqb_spec d (dec_value e)) as [->|Hne]; simpl.
      * split; [intros [= <-]|]; [split; [done|congruence]|]. intros [(_ & _ & -> & _) _]. done.
      * split; [done|]. intros [(_ & _ & <- & _) Hall]. destruct Hne. by apply Hall.
    + split; [intros [= <-]; done|]. by intros [(_ & _ & -> & _) _].
  - split; [done|]. intros [(_ & _ & <- & ?) _]. lia.
Qed.

Lemma read_length_shape declared element r : read_length declared element = Ok r → ∃ n, r = Some n.
Proof. unfold read_length. intros H. invert H. by eexists. Qed.

Lemma read_lengths_ok declared elements n :
  elements ≠ [] →
  try_fold read_length declared elements = Ok (Some n) ↔
  Forall (denotes_length n) elements ∧ ∀ d, declared = Some d → d = n.
Proof.
  revert declared. induction elements as [|e es IH]; intros declared Hne; [done|]. clear Hne. simpl.
  destruct (read_length declared e) as [r|x] eqn:Er; simpl.
  - destruct (read_length_shape _ _ _ Er) as [m ->]. apply read_length_ok in Er as [Hm Hd].
    destruct es as [|e' es].
    + simpl. rewrite Forall_singleton. split; [intros [= <-]; done|]. intros [Hn _].
      destruct Hm as (_ & _ & <- & _), Hn as (_ & _ & -> & _). done.
    + rewrite IH by done. rewrite (Forall_cons _ e). split.
      * intros [Hall Hmn]. assert (m = n) as -> by by apply Hmn. by split_and!.
      * intros [[Hn Hall] Hdn]. split; [done|]. intros d [= <-].
        destruct Hm as (_ & _ & <- & _), Hn as (_ & _ & -> & _). done.
  - split; [done|]. rewrite Forall_cons. intros [[Hn _] Hd].
    rewrite (proj2 (read_length_ok declared e n)) in Er; [done|auto].
Qed.

Lemma read_line_ok declared value n :
  read_line declared value = Ok (Some n) ↔
  to_str value = Some value ∧ Forall (denotes_length n) (split_on ","%char value) ∧ ∀ d, declared = Some d → d = n.
Proof.
  unfold read_line, to_str. destruct (forallb is_visible value); simpl; [|by split; [|intros [? _]]].
  rewrite read_lengths_ok by apply split_on_nonempty. tauto.
Qed.

Lemma read_line_shape declared value r : read_line declared value = Ok r → ∃ n, r = Some n.
Proof.
  unfold read_line. destruct (to_str value) as [v|]; simpl; [|done]. pose proof (split_on_nonempty ","%char v) as Hne.
  revert declared. induction (split_on ","%char v) as [|e es IH]; intros declared; [done|]. simpl.
  destruct (read_length declared e) as [r1|] eqn:Er; simpl; [|done]. destruct es as [|e' es].
  - simpl. intros [= <-]. by eapply read_length_shape.
  - by apply IH.
Qed.

Lemma read_lines_ok declared values n :
  values ≠ [] →
  try_fold read_line declared values = Ok (Some n) ↔
  Forall (λ v, to_str v = Some v ∧ Forall (denotes_length n) (split_on ","%char v)) values ∧
  ∀ d, declared = Some d → d = n.
Proof.
  revert declared. induction values as [|v vs IH]; intros declared Hne; [done|]. clear Hne. simpl.
  destruct (read_line declared v) as [r|x] eqn:Er; simpl.
  - destruct (read_line_shape _ _ _ Er) as [m ->]. apply read_line_ok in Er as (Hv & Hm & Hd).
    assert (∀ k, Forall (denotes_length k) (split_on ","%char v) → k = m) as Huniq.
    { intros k Hk. pose proof (split_on_nonempty ","%char v) as Hne. destruct (split_on ","%char v) as [|e es]; [done|].
      apply Forall_cons in Hk as [(_ & _ & <- & _) _], Hm as [(_ & _ & <- & _) _]. done. }
    destruct vs as [|v' vs].
    + simpl. rewrite Forall_singleton. split; [intros [= <-]; done|]. intros [[_ Hn] _]. by rewrite (Huniq n Hn).
    + rewrite IH by done. rewrite (Forall_cons _ v). split.
      * intros [Hall Hmn]. assert (m = n) as -> by by apply Hmn. by split_and!.
      * intros [[[_ Hn] Hall] Hdn]. split; [done|]. intros d [= <-]. symmetry. by apply Huniq.
  - split; [done|]. rewrite Forall_cons. intros [[[Hv Hn] _] Hd].
    rewrite (proj2 (read_line_ok declared v n)) in Er; [done|auto].
Qed.

End Field.

(** ** The Managed session's HTTP policy *)

Module Control.
Import Field.

Inductive ManagedSessionRole := Server | Client.

Definition events_path (role : ManagedSessionRole) : bytes :=
  match role with Server => bs "/v1/server/events" | Client => bs "/v1/client/events" end.
Definition state_path (role : ManagedSessionRole) : bytes :=
  match role with Server => bs "/v1/server/state" | Client => bs "/v1/client/state" end.

Definition OK : Z := 200.
Definition NO_CONTENT : Z := 204.
Definition is_redirection (status : Z) : bool := (300 <=? status) && (status <? 400).

Inductive SseResponseClass := SseSuccess | RetryableFailure.
Inductive StateResponseClass := StateSuccess | StateFailure.

Definition classify_sse_response (status : Z) (headers : HeaderMap) : SseResponseClass :=
  if is_redirection status then RetryableFailure
  else if negb (status =? OK) then RetryableFailure
  else if negb (content_type_is_event_stream headers) then RetryableFailure
  else SseSuccess.

Definition classify_state_status (status : Z) : StateResponseClass :=
  if status =? NO_CONTENT then StateSuccess else StateFailure.

(** What the first [body.frame()] brings: the end, a frame or an error of type [E]. *)
Inductive Frame (E : Type) := NoFrame | AFrame | FrameError (error : E).
Arguments NoFrame {E}.
Arguments AFrame {E}.
Arguments FrameError {E}.

Definition classify_state_incoming {E} (status : Z) (first : Frame E) : result E StateResponseClass :=
  match classify_state_status status with
  | StateFailure => Ok StateFailure
  | StateSuccess =>
      match first with
      | NoFrame => Ok StateSuccess
      | AFrame => Ok StateFailure
      | FrameError error => Err error
      end
  end.

Definition SESSION_ID : bytes := bs "runewarp-session-id".

(** [session_id] of [connection.rs]: the header value kept for every report. *)
Definition session_id {U} `{UuidOps U} (headers : HeaderMap) : option bytes :=
  match get_all SESSION_ID headers with
  | [value] =>
      text ← to_str value;
      id ← try_parse (U := U) text;
      if negb (version_is_sort_rand id) || negb (variant_is_rfc4122 id) ||
         bool_decide (encode_lower id ≠ text)
      then None else Some value
  | _ => None
  end.

(** The authority of the requests. *)
Definition authority (host : bytes) (port : Z) : bytes :=
  if port =? 443 then host else host ++ bs ":" ++ show_uint port.

(** [StateDocument]: the fields of the object in wire order, over an abstract JSON value. *)
Definition document {V} (of_string : bytes → V) (revision : bytes) (fields : list (bytes * V)) :
    list (bytes * V) :=
  (bs "revision", of_string revision) :: List.filter (λ f, negb (bool_decide (f.1 = bs "revision"))) fields.

End Control.

(** ** The Server's signaling requests *)

Module Signaling.
Import Field.

Definition TUNNEL_EVENTS_PATH : bytes := bs "/v1/tunnel/events".
Definition TUNNEL_WITHDRAWAL_PATH : bytes := bs "/v1/tunnel/withdrawal".
Definition TUNNEL_SESSION_PATH : bytes := bs "/v1/tunnel/session".

Inductive Protocol := WEB_TRANSPORT | OtherProtocol.
Inductive Method := GET | PUT | CONNECT | OtherMethod.

#[export] Instance Method_eq_dec : EqDecision Method.
Proof. solve_decision. Defined.

(** A request after [resolve_request], with its parsed URI. *)
Record Request := mkRequest {
  method : Method;
  authority_host : option bytes;
  scheme : option bytes;
  path : bytes;
  protocol : option Protocol;
  headers : HeaderMap
}.

Definition MISDIRECTED_REQUEST : Z := 421.
Definition BAD_REQUEST : Z := 400.
Definition NOT_FOUND : Z := 404.
Definition REQUEST_TIMEOUT : Z := 408.

Inductive Route :=
| Events
| Withdrawal
| Session
| Status (status : Z)
| MethodNotAllowed (allow : Method)
| MalformedRequest.

Definition route (request : Request) (server_hostname : bytes) : Route :=
  let authority_matches :=
    match (host ← authority_host request; match ServerHostname_try_from host with Ok h => Some h | Err _ => None end) with
    | Some host => bool_decide (host = server_hostname)
    | None => false
    end in
  if negb authority_matches then Status MISDIRECTED_REQUEST
  else if bool_decide (method request = CONNECT) then
    match protocol request with
    | None => Status BAD_REQUEST
    | Some WEB_TRANSPORT =>
        if bool_decide (scheme request ≠ Some (bs "https")) then Status BAD_REQUEST
        else if bool_decide (path request ≠ TUNNEL_SESSION_PATH) then Status NOT_FOUND
        else Session
    | Some _ => Status BAD_REQUEST
    end
  else if bool_decide (scheme request ≠ Some (bs "https")) then Status BAD_REQUEST
  else
    match (if bool_decide (path request = TUNNEL_EVENTS_PATH) then Some (GET, Events)
           else if bool_decide (path request = TUNNEL_WITHDRAWAL_PATH) then Some (PUT, Withdrawal)
           else None) with
    | None => Status NOT_FOUND
    | Some (allowed, resource) =>
        if bool_decide (method request ≠ allowed) then MethodNotAllowed allowed
        else match declared_content_length (headers request) with
             | Err _ => MalformedRequest
             | Ok (Some length) => if 0 <? length then Status BAD_REQUEST else resource
             | Ok None => resource
             end
    end.

(** How a request that must be bodyless ends. *)
Inductive BodylessRequest := Complete | Content | Trailers.

(** The answers of [recv_data]. *)
Inductive DataAnswer (E : Type) := DataChunk (data : bytes) | DataEnd | DataError (error : E).
Arguments DataChunk {E}.
Arguments DataEnd {E}.
Arguments DataError {E}.

(** [read_bodyless_request]: [None] while the peer owes an answer. *)
Fixpoint read_bodyless_request {E} (data : list (DataAnswer E)) (trailers : option (result E bool)) :
    option (result E BodylessRequest) :=
  match data with
  | [] => None
  | DataChunk chunk :: data' =>
      if bool_decide (chunk ≠ []) then Some (Ok Content) else read_bodyless_request data' trailers
  | DataEnd :: _ =>
      match trailers with
      | None => None
      | Some (Ok present) => Some (Ok (if present then Trailers else Complete))
      | Some (Err error) => Some (Err error)
      end
  | DataError error :: _ => Some (Err error)
  end.

(** What [handle_request] does with an admitted request on a bodyless resource, once its intake
    has ended or the request deadline has passed ([None]). *)
Inductive Reply := Serve | Answer (status : Z) | ResetMalformed | Abandoned.

Definition bodyless_reply {E} (headers : HeaderMap) (intake : option (result E BodylessRequest)) : Reply :=
  let content_length := match declared_content_length headers with Ok l => l | Err _ => None end in
  match intake with
  | Some (Ok Complete) => Serve
  | Some (Ok Content) => if bool_decide (content_length = Some 0) then ResetMalformed else Answer BAD_REQUEST
  | Some (Ok Trailers) => Answer BAD_REQUEST
  | Some (Err _) => Abandoned
  | None => Answer REQUEST_TIMEOUT
  end.

End Signaling.

Import Field Control Signaling.

(** ** Lemmas *)

Lemma denotes_length_nonneg n element : denotes_length n element → 0 ≤ n.
Proof. intros (_ & Hd & <- & _). pose proof (dec_acc_mono (trim element) 0 Hd). unfold dec_value. lia. Qed.

Lemma declared_some headers n :
  declared_content_length headers = Ok (Some n) ↔
  get_all CONTENT_LENGTH headers ≠ [] ∧
  Forall (λ v, to_str v = Some v ∧ Forall (denotes_length n) (split_on ","%char v)) (get_all CONTENT_LENGTH headers).
Proof.
  unfold declared_content_length. destruct (get_all CONTENT_LENGTH headers) as [|v vs]; [by split; [|intros [? _]]|].
  rewrite read_lines_ok by done. split; [intros [? _]; done|intros [_ ?]; done].
Qed.

Lemma declared_none headers :
  declared_content_length headers = Ok None ↔ get_all CONTENT_LENGTH headers = [].
Proof.
  unfold declared_content_length. split; [|by intros ->].
  destruct (get_all CONTENT_LENGTH headers) as [|v vs]; [done|]. simpl.
  destruct (read_line None v) as [r|] eqn:Er; simpl; [|done]. apply read_line_shape in Er as [n ->].
  intros Hr. exfalso. revert n Hr. induction vs as [|w vs IH]; intros n; simpl; [done|].
  destruct (read_line (Some n) w) as [r|] eqn:Er; simpl; [|done]. apply read_line_shape in Er as [m ->]. apply IH.
Qed.

Lemma declared_nonneg headers n : declared_content_length headers = Ok (Some n) → 0 ≤ n.
Proof.
  intros [Hne Hall]%declared_some. destruct (get_all CONTENT_LENGTH headers) as [|v vs]; [done|].
  apply Forall_cons in Hall as [[_ Hall] _]. pose proof (split_on_nonempty ","%char v) as Hs.
  destruct (split_on ","%char v) as [|e es]; [done|]. apply Forall_cons in Hall as [He _].
  by eapply denotes_length_nonneg.
Qed.

(** The request names the Server hostname in its authority. *)
Definition on_server (request : Request) (server_hostname : bytes) : Prop :=
  ∃ host, authority_host request = Some host ∧ ServerHostname_try_from host = Ok server_hostname.
Definition over_https (request : Request) : Prop := scheme request = Some (bs "https").
Definition declares_no_content (request : Request) : Prop :=
  declared_content_length (headers request) = Ok None ∨ declared_content_length (headers request) = Ok (Some 0).

Lemma authority_matches_spec request server_hostname :
  (match (host ← authority_host request; match ServerHostname_try_from host with Ok h => Some h | Err _ => None end) with
   | Some host => bool_decide (host = server_hostname)
   | None => false
   end) = true ↔ on_server request server_hostname.
Proof.
  unfold on_server. destruct (authority_host request) as [host|]; simpl; [|by split; [|intros (? & ? & _)]].
  destruct (ServerHostname_try_from host) as [h|e] eqn:Eh; simpl.
  - rewrite bool_decide_eq_true. split; [intros ->; by exists host|]. intros (? & [= <-] & ?). congruence.
  - split; [done|]. intros (? & [= <-] & ?). congruence.
Qed.

(** The requests the Client sends. *)
Definition events_request (server_hostname : bytes) : Request :=
  mkRequest GET (Some server_hostname) (Some (bs "https")) TUNNEL_EVENTS_PATH None
    [(bs "accept", bs "text/event-stream")].
Definition session_request (server_hostname : bytes) : Request :=
  mkRequest CONNECT (Some server_hostname) (Some (bs "https")) TUNNEL_SESSION_PATH (Some WEB_TRANSPORT) [].
Definition withdrawal_request (server_hostname : bytes) : Request :=
  mkRequest PUT (Some server_hostname) (Some (bs "https")) TUNNEL_WITHDRAWAL_PATH None [].

(** Settles the rows of the routing table in a branch where all of its conditions are known. *)
Ltac route_cases :=
  repeat match goal with |- _ ∧ _ => split end;
  (split; [intros ?|intros ?; destruct_and?; destruct_or?; destruct_and?]); try congruence;
  repeat match goal with |- _ ∧ _ => split end; auto; try (intros ?; congruence); try (exfalso; simplify_eq; lia).

(** ** Claims *)

(** The two places that check the media type of an event stream agree on every response,
    and a Control response is taken for a downlink exactly when its status is 200 and its
    first content type names an event stream, in any case and with any media-type
    parameters. *)
Theorem event_stream_checks_agree status headers :
  is_event_stream headers = content_type_is_event_stream headers ∧
  (classify_sse_response status headers = SseSuccess ↔
   status = 200 ∧ ∃ value media_type rest,
     get CONTENT_TYPE headers = Some value ∧ to_str value = Some value ∧
     split_on ";"%char value = media_type :: rest ∧
     to_ascii_lowercase <$> trim media_type = bs "text/event-stream").
Proof.
  assert (to_ascii_lowercase <$> bs "text/event-stream" = bs "text/event-stream") as Hlow by (vm_compute; reflexivity).
  unfold is_event_stream, classify_sse_response, content_type_is_event_stream, eq_ignore_ascii_case. rewrite Hlow.
  destruct (get CONTENT_TYPE headers) as [value|]; simpl.
  2: { split; [done|]. split; [by repeat case_match|]. by intros (_ & ? & ? & ? & ? & _). }
  unfold to_str. destruct (forallb is_visible value) eqn:Ev; simpl.
  2: { split; [done|]. split; [by repeat case_match|]. intros (_ & v & m & r & [= <-] & Hv & _). by rewrite Ev in Hv. }
  pose proof (split_on_nonempty ";"%char value) as Hne. destruct (split_on ";"%char value) as [|m r] eqn:Es; [done|]. simpl.
  split; [done|]. unfold is_redirection, OK. split.
  - destruct (_ && _) eqn:Er; [done|]. destruct (Z.eqb_spec status 200) as [->|]; simpl; [|done].
    case_bool_decide as Hm; simpl; [|done]. intros _. split; [done|]. exists value, m, r. by rewrite Ev.
  - intros (-> & v & m' & r' & [= <-] & _ & Hs & Hm). rewrite Es in Hs. injection Hs as <- <-. simpl. by rewrite bool_decide_true.
Qed.

(** The declared content length is read exactly: none when no line declares one, [n]
    when every element of every line is a decimal number of value [n] that fits 64 bits, and
    anything else is malformed. *)
Theorem declared_content_length_exact headers :
  (declared_content_length headers = Ok None ↔ get_all CONTENT_LENGTH headers = []) ∧
  (∀ n, declared_content_length headers = Ok (Some n) ↔
     get_all CONTENT_LENGTH headers ≠ [] ∧
     Forall (λ v, to_str v = Some v ∧ Forall (denotes_length n) (split_on ","%char v))
       (get_all CONTENT_LENGTH headers)).
Proof. split; [apply declared_none|intros n; apply declared_some]. Qed.

(** The Server routes exactly: each resource is reached only over HTTPS, on the Server's
    own hostname, with its one method and no declared content; a contradictory content length
    is malformed and a foreign hostname is misdirected before anything else is looked at. *)
Theorem route_exact request server_hostname :
  (route request server_hostname = Events ↔
     on_server request server_hostname ∧ over_https request ∧ method request = GET ∧
     path request = TUNNEL_EVENTS_PATH ∧ declares_no_content request) ∧
  (route request server_hostname = Withdrawal ↔
     on_server request server_hostname ∧ over_https request ∧ method request = PUT ∧
     path request = TUNNEL_WITHDRAWAL_PATH ∧ declares_no_content request) ∧
  (route request server_hostname = Session ↔
     on_server request server_hostname ∧ over_https request ∧ method request = CONNECT ∧
     protocol request = Some WEB_TRANSPORT ∧ path request = TUNNEL_SESSION_PATH) ∧
  (route request server_hostname = MalformedRequest ↔
     on_server request server_hostname ∧ over_https request ∧
     (method request = GET ∧ path request = TUNNEL_EVENTS_PATH ∨
      method request = PUT ∧ path request = TUNNEL_WITHDRAWAL_PATH) ∧
     declared_content_length (headers request) = Err Malformed) ∧
  (route request server_hostname = Status MISDIRECTED_REQUEST ↔ ¬ on_server request server_hostname).
Proof.
  assert (TUNNEL_EVENTS_PATH ≠ TUNNEL_WITHDRAWAL_PATH) as Hpaths by done.
  unfold route, over_https, declares_no_content, MISDIRECTED_REQUEST, NOT_FOUND, BAD_REQUEST.
  rewrite <- (authority_matches_spec request).
  destruct (match _ with Some host => bool_decide (host = server_hostname) | None => false end); cbn [negb]; [|by route_cases].
  pose proof (declared_nonneg (headers request)) as Hpos.
  destruct (bool_decide_reflect (method request = CONNECT)) as [Hm|Hm].
  { destruct (protocol request) as [[]|]; repeat case_bool_decide; by route_cases. }
  destruct (bool_decide_reflect (scheme request ≠ Some (bs "https"))) as [Hs|Hs]; [by route_cases|]. apply dec_stable in Hs.
  destruct (bool_decide_reflect (path request = TUNNEL_EVENTS_PATH)) as [Hp|Hp];
    [|destruct (bool_decide_reflect (path request = TUNNEL_WITHDRAWAL_PATH)) as [Hp'|Hp']; [|by route_cases]];
    (case_bool_decide as Hmeth; [by route_cases|]);
    destruct (declared_content_length (headers request)) as [[l|]|[]]; try (by route_cases);
    (destruct (Z.ltb_spec 0 l) as [Hl|Hl]; [|assert (l = 0) as -> by (specialize (Hpos l eq_refl); lia)]); by route_cases.
Qed.

(** The Client and the Server agree on the signaling requests: every request a Client
    sends to the Server hostname it was configured with reaches its resource. *)
Theorem client_requests_routed configured server_hostname :
  ServerHostname_try_from configured = Ok server_hostname →
  route (events_request server_hostname) server_hostname = Events ∧
  route (session_request server_hostname) server_hostname = Session ∧
  route (withdrawal_request server_hostname) server_hostname = Withdrawal.
Proof.
  intros [_ Hcan]%validate_spec.
  assert (ServerHostname_try_from server_hostname = Ok server_hostname) as Hid.
  { apply validate_spec. by rewrite normalize_canonical. }
  unfold route. cbn [authority_host events_request session_request withdrawal_request mbind option_bind].
  rewrite Hid, !bool_decide_true by done. vm_compute. done.
Qed.

Lemma client_requests_routed_witness :
  route (withdrawal_request (bs "tunnel.example.test")) (bs "tunnel.example.test") = Withdrawal.
Proof.
  apply (client_requests_routed (bs "Tunnel.Example.test.") (bs "tunnel.example.test")). vm_compute. reflexivity.
Defined.

(** A Control session identifier is kept exactly when the response has one such header
    whose text is the canonical form of a version 7 UUID, and then the header itself is kept. *)
Theorem session_id_exact {U} `{UuidOps U} headers value :
  (∀ u : U, try_parse (encode_lower u) = Some u) →
  session_id (U := U) headers = Some value ↔
  get_all SESSION_ID headers = [value] ∧ to_str value = Some value ∧
  ∃ id : U, encode_lower id = value ∧ version_is_sort_rand id = true ∧ variant_is_rfc4122 id = true.
Proof.
  intros Hlaw. unfold session_id. destruct (get_all SESSION_ID headers) as [|v [|]]; [naive_solver| |naive_solver].
  unfold to_str. destruct (forallb is_visible v) eqn:Ev; simpl.
  2: { split; [done|]. intros ([= <-] & Hv & _). by rewrite Ev in Hv. }
  destruct (try_parse v) as [id|] eqn:Ep; simpl.
  - destruct (bool_decide_reflect (encode_lower id ≠ v)) as [Hne|Heq].
    + rewrite !orb_true_r. split; [done|]. intros ([= <-] & _ & id' & <- & _). rewrite Hlaw in Ep. by injection Ep as <-.
    + apply dec_stable in Heq. rewrite orb_false_r. destruct (version_is_sort_rand id) eqn:E1, (variant_is_rfc4122 id) eqn:E2; simpl.
      1: { split; [intros [= <-]|by intros ([= <-] & _)]. rewrite Ev. split_and!; [done..|]. by exists id. }
      all: split; [done|]; intros ([= <-] & _ & id' & <- & H1 & H2); rewrite Hlaw in Ep; injection Ep as <-; congruence.
  - split; [done|]. intros ([= <-] & _ & id & <- & _). by rewrite Hlaw in Ep.
Qed.

Import ToyWire.

Lemma session_id_exact_witness :
  session_id (U := bool) [(SESSION_ID, toy_show true)] = Some (toy_show true).
Proof.
  apply (session_id_exact (U := bool)); [by intros []|]. split; [vm_compute; reflexivity|].
  split; [vm_compute; reflexivity|]. by exists true.
Defined.
