(* ===== verification/ControlLink.v ===== *)
(** * ControlLink: the HTTP/2 connection of a Managed session

    [ManagedSessionConnection] ([src/managed_session/connection.rs]): dialling Control and
    opening the role's event stream ([connect], [handshake_and_open_sse]), reading its chunks
    ([next_chunk]) and reporting a state document ([begin_put_state],
    [put_applied_revision_on_sender]).  DNS, TCP, TLS and HTTP/2 are parameters: what each call
    answers is an argument. *)

From Stdlib Require Import Ascii ZArith Lia.
From stdpp Require Import base strings numbers list.
From S2P Require Import Prelude Text Names Sse Http.
Import Events Field Control.

Open Scope Z_scope.

Section Connection.
(** Errors of the operating system and of [hyper], socket addresses, JSON values and the
    serialised body of a document. *)
Context {IoError HttpError Addr V : Type} {U : Type} `{UuidOps U}.
Context (of_string : bytes → V) (to_vec : list (bytes * V) → bytes).

(** [Dns None] is the [NotFound] of an empty lookup. *)
Inductive ConnectionError :=
| Dns (error : option IoError)
| Connect (error : IoError)
| Tls (error : IoError)
| Alpn
| ServerName (name : bytes)
| Http (error : HttpError)
| SseRejected
| SessionIdRejected
| StateRejected
| StateRequestTimeout
| StateResponseTimeout
| Body (error : HttpError).

(** [std::error::Error::source]. *)
Definition error_source (e : ConnectionError) : option (option IoError + HttpError) :=
  match e with
  | Dns error => Some (inl error)
  | Connect error | Tls error => Some (inl (Some error))
  | Http error | Body error => Some (inr error)
  | _ => None
  end.

Definition CONTROL_ALPN_H2 : bytes := bs "h2".
Definition ACCEPT : bytes := bs "accept".

Record H2Request := mkH2 {
  h2_method : bytes;
  h2_scheme : bytes;
  h2_authority : bytes;
  h2_path : bytes;
  h2_headers : HeaderMap;
  h2_body : bytes
}.

Record Response := mkResponse { status : Z; response_headers : HeaderMap }.

(** What the calls of [connect] answer. *)
Record Network := mkNetwork {
  lookup_host : bytes → Z → result IoError (list Addr);
  tcp_connect : list Addr → result IoError unit;
  set_nodelay : result IoError unit;
  valid_server_name : bytes → bool;
  tls_connect : bytes → result IoError (option bytes);
  handshake : result HttpError unit;
  send_request : H2Request → result HttpError Response
}.

(** The connection value; its driver task is aborted when the value is dropped. *)
Record Connection := mkConnection {
  link_authority : bytes;
  link_role : ManagedSessionRole;
  link_session_id : bytes
}.

Definition events_request (authority : bytes) (role : ManagedSessionRole) : H2Request :=
  mkH2 (bs "GET") (bs "https") authority (events_path role) [(ACCEPT, bs "text/event-stream")] [].

(** [handshake_and_open_sse], with whether it spawned the driver and whether it aborted it. *)
Inductive Driver := NotSpawned | Spawned | AbortedDriver.

Definition handshake_and_open_sse (net : Network) (host : bytes) (port : Z) (role : ManagedSessionRole) :
    result ConnectionError Connection * Driver :=
  match handshake net with
  | Err e => (Err (Http e), NotSpawned)
  | Ok _ =>
      let authority := authority host port in
      match send_request net (events_request authority role) with
      | Err e => (Err (Http e), Spawned)
      | Ok response =>
          match classify_sse_response (status response) (response_headers response) with
          | RetryableFailure => (Err SseRejected, AbortedDriver)
          | SseSuccess =>
              match session_id (U := U) (response_headers response) with
              | None => (Err SessionIdRejected, AbortedDriver)
              | Some id => (Ok (mkConnection authority role id), Spawned)
              end
          end
      end
  end.

Definition connect (net : Network) (host : bytes) (port : Z) (server_name : bytes) (role : ManagedSessionRole) :
    result ConnectionError Connection * Driver :=
  match lookup_host net host port with
  | Err e => (Err (Dns (Some e)), NotSpawned)
  | Ok [] => (Err (Dns None), NotSpawned)
  | Ok addrs =>
      match tcp_connect net addrs, set_nodelay net with
      | Err e, _ => (Err (Connect e), NotSpawned)
      | Ok _, Err e => (Err (Connect e), NotSpawned)
      | Ok _, Ok _ =>
          if negb (valid_server_name net server_name) then (Err (ServerName server_name), NotSpawned)
          else
            match tls_connect net server_name with
            | Err e => (Err (Tls e), NotSpawned)
            | Ok negotiated =>
                if bool_decide (negotiated ≠ Some CONTROL_ALPN_H2) then (Err Alpn, NotSpawned)
                else handshake_and_open_sse net host port role
            end
      end
  end.

(** A frame of the body: data or trailers. *)
Inductive BodyFrame := Data (chunk : bytes) | TrailerFrame.

Definition next_chunk (frame : option (result HttpError BodyFrame)) : result ConnectionError (option bytes) :=
  match frame with
  | None => Ok None
  | Some (Ok (Data chunk)) => Ok (Some chunk)
  | Some (Ok TrailerFrame) => Ok None
  | Some (Err e) => Err (Body e)
  end.

(** *** Reports *)

Definition state_request (authority : bytes) (role : ManagedSessionRole) (payload session_id : bytes) : H2Request :=
  mkH2 (bs "PUT") (bs "https") authority (state_path role)
    [(CONTENT_TYPE, bs "application/json"); (SESSION_ID, session_id)] payload.

(** [put_applied_revision_on_sender]: the answer of each await, or [None] when its deadline
    passes first. *)
Definition put_applied_revision_on_sender (answer : option (result HttpError Z))
    (body : option (Frame HttpError)) : result ConnectionError unit :=
  match answer with
  | None => Err StateRequestTimeout
  | Some (Err e) => Err (Http e)
  | Some (Ok status) =>
      match (match classify_state_status status with
             | StateFailure => Some (Ok StateFailure)
             | StateSuccess => first ← body; Some (classify_state_incoming status first)
             end) with
      | None => Err StateResponseTimeout
      | Some (Err e) => Err (Http e)
      | Some (Ok StateSuccess) => Ok ()
      | Some (Ok StateFailure) => Err StateRejected
      end
  end.

(** [begin_put_state]: the request it sends. *)
Definition begin_put_state (c : Connection) (revision : bytes) (role_state : option (list (bytes * V))) : H2Request :=
  let fields := default [] role_state in
  state_request (link_authority c) (link_role c) (to_vec (document of_string revision fields)) (link_session_id c).

(** The stages up to TCP, and up to the HTTP/2 handshake. *)
Definition dialled (net : Network) (host : bytes) (port : Z) : Prop :=
  (∃ addrs, lookup_host net host port = Ok addrs ∧ addrs ≠ [] ∧ tcp_connect net addrs = Ok ())
  ∧ set_nodelay net = Ok ().
Definition secured (net : Network) (host : bytes) (port : Z) (name : bytes) : Prop :=
  dialled net host port ∧ valid_server_name net name = true
  ∧ tls_connect net name = Ok (Some CONTROL_ALPN_H2) ∧ handshake net = Ok ().

Lemma classify_sse_success st headers :
  classify_sse_response st headers = SseSuccess ↔ st = OK ∧ content_type_is_event_stream headers = true.
Proof.
  unfold classify_sse_response, is_redirection, OK.
  destruct (content_type_is_event_stream headers); destruct (Z.eqb_spec st 200) as [->|Hne]; simpl;
    repeat case_match; naive_solver.
Qed.

Lemma session_id_header headers id : session_id (U := U) headers = Some id → get_all SESSION_ID headers = [id].
Proof.
  unfold session_id. destruct (get_all SESSION_ID headers) as [|v [|]]; try done.
  intros Hs. apply bind_Some in Hs as (t & _ & (u & _ & Hu)%bind_Some). case_match; naive_solver.
Qed.

Lemma dialled_cases net host port :
  (∃ a addrs, lookup_host net host port = Ok (a :: addrs) ∧ tcp_connect net (a :: addrs) = Ok ()
              ∧ set_nodelay net = Ok ())
  ∨ ¬ dialled net host port.
Proof.
  unfold dialled. destruct (lookup_host net host port) as [[|a addrs]|] eqn:El.
  1, 3: right; intros ((? & ? & ? & _) & _); simplify_eq; done.
  destruct (tcp_connect net (a :: addrs)) as [[]|] eqn:Et.
  - destruct (set_nodelay net) as [[]|]; [left; eauto|right; by intros [_ ?]].
  - right. intros ((? & [= <-] & _ & ?) & _). congruence.
Qed.

(** Decides the rows of a table once the stages are known. *)
Ltac stages :=
  simpl; repeat match goal with |- _ ∧ _ => split end; try intros ?;
  split; intros ?; try congruence; destruct_and?; try contradiction; try (match goal with E : secured _ _ _ _ |- _ => pose proof E as (_ & ? & ? & ?) end);
  repeat match goal with E : ∃ _, _ |- _ => destruct E end; destruct_and?; destruct_or?; simplify_eq;
  try congruence; auto.

(** Control is connected exactly when every stage succeeds.  Dialling returns a connection
    if and only if the host resolves to some address, TCP connects, the TLS name is valid, TLS
    negotiates HTTP/2, and the answer to the role's event request is a [200] event stream with
    one canonical session identifier, which the connection keeps with the authority it asked;
    and a response that was refused leaves no driver running. *)
Lemma connect_ok net host port name role c d :
  connect net host port name role = (Ok c, d) ↔
  d = Spawned
  ∧ (∃ addrs, lookup_host net host port = Ok addrs ∧ addrs ≠ [] ∧ tcp_connect net addrs = Ok ())
  ∧ set_nodelay net = Ok () ∧ valid_server_name net name = true
  ∧ tls_connect net name = Ok (Some CONTROL_ALPN_H2) ∧ handshake net = Ok ()
  ∧ ∃ response, send_request net (events_request (authority host port) role) = Ok response
      ∧ status response = OK ∧ content_type_is_event_stream (response_headers response) = true
      ∧ session_id (U := U) (response_headers response) = Some (link_session_id c)
      ∧ link_authority c = authority host port ∧ link_role c = role.
Proof.
  unfold connect, handshake_and_open_sse. split.
  - intros Hc. destruct (lookup_host net host port) as [[|a addrs]|] eqn:El; try done.
    destruct (tcp_connect net (a :: addrs)) as [[]|] eqn:Et, (set_nodelay net) as [[]|] eqn:En; try done.
    destruct (valid_server_name net name) eqn:Ev; simpl in Hc; [|done].
    destruct (tls_connect net name) as [p|] eqn:Es; [|done]. case_bool_decide as Hp; [done|].
    subst p. destruct (handshake net) as [[]|] eqn:Eh; [|done].
    destruct (send_request net _) as [r|] eqn:Er; [|done].
    destruct (classify_sse_response _ _) eqn:Ecl; [|done]. apply classify_sse_success in Ecl as [Hst Hct].
    destruct (session_id (response_headers r)) as [id|] eqn:Ei; [|done]. injection Hc as <- <-.
    split_and!; eauto 10.
  - intros (-> & (addrs & -> & Hne & Ht) & -> & -> & -> & -> & r & -> & Hst & Hct & Hid & Ha & Hr).
    destruct addrs as [|a addrs]; [done|]. rewrite Ht. cbn [negb]. rewrite bool_decide_false by auto.
    rewrite (proj2 (classify_sse_success _ _)) by done. rewrite Hid. by destruct c; simpl in *; subst.
Qed.

(** ** Properties *)

(** Each failure of dialling names the stage that failed first. *)
Theorem control_connect_errors net host port name role :
  let r := (connect net host port name role).1 in
  (∀ e, r = Err (Dns (Some e)) ↔ lookup_host net host port = Err e)
  ∧ (r = Err (Dns None) ↔ lookup_host net host port = Ok [])
  ∧ (r = Err (ServerName name) ↔ dialled net host port ∧ valid_server_name net name = false)
  ∧ (r = Err Alpn ↔ dialled net host port ∧ valid_server_name net name = true
       ∧ ∃ p, tls_connect net name = Ok p ∧ p ≠ Some CONTROL_ALPN_H2)
  ∧ (r = Err SseRejected ↔ secured net host port name
       ∧ ∃ response, send_request net (events_request (authority host port) role) = Ok response
         ∧ (status response ≠ OK ∨ content_type_is_event_stream (response_headers response) = false))
  ∧ (r = Err SessionIdRejected ↔ secured net host port name
       ∧ ∃ response, send_request net (events_request (authority host port) role) = Ok response
         ∧ status response = OK ∧ content_type_is_event_stream (response_headers response) = true
         ∧ session_id (U := U) (response_headers response) = None).
Proof.
  unfold connect, handshake_and_open_sse.
  assert (secured net host port name → dialled net host port) as Hsd by (by intros [? _]).
  destruct (dialled_cases net host port) as [(a & addrs & El & Et & En)|Hn].
  2: { assert (¬ secured net host port name) by auto.
       destruct (lookup_host net host port) as [[|a addrs]|] eqn:El; [stages| |stages].
       destruct (tcp_connect net (a :: addrs)) as [[]|] eqn:Et, (set_nodelay net) as [[]|] eqn:En; stages.
       all: destruct Hn; split; [|done]; exists (a :: addrs); done. }
  assert (dialled net host port) as Hd by (split; [exists (a :: addrs); done|done]).
  rewrite El, Et, En. destruct (valid_server_name net name) eqn:Ev; simpl; [|stages].
  destruct (tls_connect net name) as [p|] eqn:Es; [|stages]. case_bool_decide as Hp; [stages; by eauto|].
  subst p. destruct (handshake net) as [[]|] eqn:Eh; [|stages].
  assert (secured net host port name) as Hsec by by split_and!.
  destruct (send_request net _) as [r|] eqn:Er; [|stages].
  destruct (classify_sse_response _ _) eqn:Ecl.
  - apply classify_sse_success in Ecl as [Hst Hct].
    destruct (session_id (response_headers r)) as [id|] eqn:Ei; stages; eauto 8.
  - assert (¬ (status r = OK ∧ content_type_is_event_stream (response_headers r) = true)) as Hn.
    { intros Hs%classify_sse_success. congruence. }
    assert (status r ≠ OK ∨ content_type_is_event_stream (response_headers r) = false) as Ho.
    { destruct (decide (status r = OK)), (content_type_is_event_stream (response_headers r)); naive_solver. }
    stages; by eauto.
Qed.

(** A state report succeeds exactly when Control answers in time with [204] and a body that
    has already ended, and each way to fail has its own error: no other outcome makes the
    session believe that its state was reported. *)
Theorem state_report_exact answer body :
  let r := put_applied_revision_on_sender answer body in
  (r = Ok () ↔ answer = Some (Ok NO_CONTENT) ∧ body = Some NoFrame)
  ∧ (r = Err StateRequestTimeout ↔ answer = None)
  ∧ (r = Err StateResponseTimeout ↔ answer = Some (Ok NO_CONTENT) ∧ body = None)
  ∧ (r = Err StateRejected ↔ (∃ s, answer = Some (Ok s) ∧ s ≠ NO_CONTENT)
                             ∨ answer = Some (Ok NO_CONTENT) ∧ body = Some AFrame)
  ∧ (∀ e, r = Err (Http e) ↔ answer = Some (Err e)
                             ∨ answer = Some (Ok NO_CONTENT) ∧ body = Some (FrameError e)).
Proof.
  unfold put_applied_revision_on_sender, classify_state_incoming, classify_state_status.
  destruct answer as [[s|e]|]; [destruct (Z.eqb_spec s NO_CONTENT) as [->|Hne]|..];
    try destruct body as [[| |e']|]; cbn; repeat match goal with |- _ ∧ _ => split end; try intros ?;
    split; intros Hx; destruct_or?; destruct_and?; naive_solver.
Qed.

(** A report names the downlink it belongs to.  A state request of a connection goes to the
    authority and role whose event stream opened it, carries that stream's session identifier
    in exactly one header, and its document starts with the revision and has no second one. *)
Theorem reports_name_their_session net host port name role c d revision fields :
  connect net host port name role = (Ok c, d) →
  let r := begin_put_state c revision fields in
  h2_path r = state_path role ∧ h2_authority r = authority host port
  ∧ (∃ response, send_request net (events_request (authority host port) role) = Ok response
       ∧ get_all SESSION_ID (response_headers response) = get_all SESSION_ID (h2_headers r))
  ∧ ∃ rest, h2_body r = to_vec ((bs "revision", of_string revision) :: rest)
            ∧ bs "revision" ∉ rest.*1
            ∧ rest = List.filter (λ f, negb (bool_decide (f.1 = bs "revision"))) (default [] fields).
Proof.
  intros Hc. apply connect_ok in Hc as (_ & _ & _ & _ & _ & _ & response & Hsend & _ & _ & Hid & Ha & Hr).
  unfold begin_put_state, state_request. simpl. rewrite Hr, Ha. split_and!; try done.
  - exists response. split; [done|]. apply session_id_header in Hid. rewrite Hid. reflexivity.
  - eexists. split; [reflexivity|]. split; [|reflexivity].
    intros (f & Hf & Hin%list_elem_of_In%filter_In)%list_elem_of_fmap.
    destruct Hin as [_ Hb]. by rewrite bool_decide_true in Hb.
Qed.

End Connection.

(** A Control that answers every event request with a stream. *)
Module ToyControl.
Import ToyWire.

Definition toy_network : Network (IoError := unit) (HttpError := unit) (Addr := unit) :=
  mkNetwork (λ _ _, Ok [()]) (λ _, Ok ()) (Ok ()) (λ _, true) (λ _, Ok (Some CONTROL_ALPN_H2)) (Ok ())
    (λ _, Ok (mkResponse OK [(CONTENT_TYPE, bs "text/event-stream"); (SESSION_ID, toy_show true)])).

Definition toy_link : Connection := mkConnection (bs "c:8443") Control.Server (toy_show true).
End ToyControl.

Import ToyWire ToyControl.

Lemma reports_name_their_session_witness :
  h2_path (begin_put_state (V := bytes) id (λ _, []) toy_link (bs "7") None) = bs "/v1/server/state".
Proof.
  assert (connect (U := bool) toy_network (bs "c") 8443 (bs "c") Control.Server = (Ok toy_link, Spawned)) as Hc
    by (vm_compute; reflexivity).
  exact (proj1 (reports_name_their_session id (λ _, []) toy_network (bs "c") 8443 (bs "c") Control.Server
                  toy_link Spawned (bs "7") None Hc)).
Defined.
