(* ===== verification/Follower.v ===== *)
(** * Follower: the Client's side of the Tunnel event stream

    A Client subscribes to the Server's event stream before it opens its session, and follows
    it for the life of the connection ([src/tunnel/client.rs]): [subscribe] and
    [EventSubscription::next] turn response bytes into snapshots, [EventFollower] publishes
    them as the connection's state and replacement hint and resubscribes after interruptions,
    and [establish_internal] uses the first snapshot as its gate.  The hint channel is the one
    [AddressWorker] reads.  The placement-withdrawal request is in [Withdrawal].

    The follower is cut at its await points; the peer, the transport and the timers choose the
    event that ends each wait. *)

From Stdlib Require Import Ascii ZArith Lia.
From stdpp Require Import base strings numbers list.
From S2P Require Import Prelude Text Names Sse Http Assignment AddressWorker.
Import Parser Events Field Signaling.

Open Scope Z_scope.

(** The errors of [h3], as far as the code tells them apart. *)
Inductive StreamError := RemoteClosing | ConnectionError | OtherStreamError.
Inductive Code := H3_NO_ERROR | H3_GENERAL_PROTOCOL_ERROR.

Inductive TunnelError :=
| Transport
| Setup
| SetupTimeout
| EventStream (e : StreamError)
| SessionConnect
| SessionConnectTimeout
| EventStreamEnded
| InitialStateTimeout
| Incompatible (reason : bytes)
| WrongGeneration.

#[export] Instance StreamError_eq_dec : EqDecision StreamError.
Proof. solve_decision. Defined.
#[export] Instance Code_eq_dec : EqDecision Code.
Proof. solve_decision. Defined.
#[export] Instance TunnelError_eq_dec : EqDecision TunnelError.
Proof. solve_decision. Defined.

(** [forbids_new_requests]. *)
Definition forbids_new_requests (e : StreamError) : bool :=
  match e with RemoteClosing | ConnectionError => true | OtherStreamError => false end.

(** The close reason of a QUIC connection. *)
Inductive CloseReason := Open | ClosedLocally (code : Code) | ClosedByPeer.

(** [close_connection]: closing a closed connection changes nothing. *)
Definition close_connection (c : CloseReason) (code : Code) : CloseReason :=
  match c with Open => ClosedLocally code | _ => c end.
Definition is_closed (c : CloseReason) : bool := match c with Open => false | _ => true end.

Section Following.
Context {U : Type} `{UuidOps U} `{JsonOps}.

(** ** Subscriptions *)

Record EventSubscription := mkSubscription { sse : SseParser; items : list SseParseItem }.

Definition fresh_subscription : EventSubscription := mkSubscription (Parser.new TUNNEL_EVENT_SSE_LIMITS) [].

Inductive EventItem := State (s : TunnelEventState (U := U)) | Keepalive | Ended.

Definition error_reason (e : TunnelEventError) : bytes :=
  match e with
  | UnexpectedEventType => bs "unexpected-event-type"
  | MalformedState => bs "malformed-state"
  | InvalidGeneration => bs "invalid-generation"
  end.

Definition decode_item (item : SseParseItem) : result TunnelError EventItem :=
  match item with
  | Comment => Ok Keepalive
  | Event event =>
      if bool_decide (ev_type event = None) && bool_decide (ev_data event = []) then Ok Keepalive
      else match decode (ev_type event) (ev_data event) with
           | Ok s => Ok (State s)
           | Err e => Err (Incompatible (error_reason e))
           end
  end.

(** [EventSubscription::next] returns the front item, or else waits for [recv_data] and puts
    its items into the queue. *)
Definition next_item (sub : EventSubscription) : option (result TunnelError EventItem * EventSubscription) :=
  match items sub with
  | [] => None
  | item :: rest => Some (decode_item item, mkSubscription (sse sub) rest)
  end.

Definition receive (answer : DataAnswer StreamError) (sub : EventSubscription) :
    result TunnelError (option EventSubscription) :=
  match answer with
  | DataEnd => Ok None
  | DataError e => Err (EventStream e)
  | DataChunk chunk =>
      match push (sse sub) chunk with
      | Err _ => Err (Incompatible (bs "invalid-sse-framing"))
      | Ok (p, new) => Ok (Some (mkSubscription p (items sub ++ new)))
      end
  end.

(** [subscribe], at its awaits: the request stream opens; FIN and the response; the events up
    to the first snapshot. *)
Inductive Subscribing :=
| Requesting
| AwaitingResponse
| AwaitingState (sub : EventSubscription).

Inductive SubscribeEvent :=
| RequestInvalid
| RequestRefused (e : StreamError)
| RequestOpened
| ResponseFails (e : StreamError)
| Responds (status : Z) (headers : HeaderMap)
| Receives (answer : DataAnswer StreamError)
| NextItem.

Inductive Subscribed :=
| Goes (st : Subscribing)
| Subscribes (s : TunnelEventState (U := U)) (sub : EventSubscription)
| Fails (e : TunnelError).

Definition subscribe_step (st : Subscribing) (e : SubscribeEvent) : option Subscribed :=
  match st, e with
  | Requesting, RequestInvalid => Some (Fails (Incompatible (bs "invalid-server-hostname")))
  | Requesting, RequestRefused error => Some (Fails (EventStream error))
  | Requesting, RequestOpened => Some (Goes AwaitingResponse)
  | AwaitingResponse, ResponseFails error => Some (Fails (EventStream error))
  | AwaitingResponse, Responds status headers =>
      if negb (status =? 200) then Some (Fails (Incompatible (bs "unexpected-status")))
      else if negb (is_event_stream headers) then Some (Fails (Incompatible (bs "unexpected-content-type")))
      else Some (Goes (AwaitingState fresh_subscription))
  | AwaitingState sub, NextItem =>
      '(item, sub) ← next_item sub;
      Some (match item with
            | Ok (State s) => Subscribes s sub
            | Ok Keepalive => Goes (AwaitingState sub)
            | Ok Ended => Fails EventStreamEnded
            | Err error => Fails error
            end)
  | AwaitingState sub, Receives answer =>
      match items sub with
      | [] =>
          Some (match receive answer sub with
                | Ok (Some sub) => Goes (AwaitingState sub)
                | Ok None => Fails EventStreamEnded
                | Err error => Fails error
                end)
      | _ => None
      end
  | _, _ => None
  end.

(** A deadline fires only while the future it bounds is waiting. *)
Definition is_waiting (st : Subscribing) : bool :=
  match st with AwaitingState sub => bool_decide (items sub = []) | _ => true end.

(** ** The follower *)

(** Where [follow_events] is: in [read]; in [resubscribe], at the top of its loop, asleep or
    subscribing; returned.  [interrupted] is the local variable of [resubscribe]. *)
Inductive Phase :=
| Reading (sub : EventSubscription)
| AtTop (interrupted : bool)
| Sleeping (interrupted : bool)
| Resubscribing (interrupted : bool) (st : Subscribing)
| Stopped.

Record Follower := mkFollower {
  connection : CloseReason;
  state : TunnelEventState (U := U);
  hints : HintChannel (G := U);
  phase : Phase
}.

(** The channels that [establish_internal] makes from the first snapshot. *)
Definition follow (initial : TunnelEventState) (sub : EventSubscription) : Follower :=
  mkFollower Open initial (mkHints (mkHint (hinted_replacement initial) 0 false) 0 true) (Reading sub).

Definition send_hint (h : ReplacementHint (G := U)) (ch : HintChannel (G := U)) : HintChannel (G := U) :=
  mkHints h (hint_version ch + 1) (hint_sender ch).

(** [send_if_modified(|hint| !replace(&mut hint.paused, true))]. *)
Definition pause (ch : HintChannel (G := U)) : HintChannel (G := U) :=
  if paused (hint ch) then ch
  else send_hint (mkHint (hint_generation (hint ch)) (interruptions (hint ch)) true) ch.

Definition count_interruption (interrupted : bool) (ch : HintChannel (G := U)) : HintChannel (G := U) :=
  if interrupted then ch
  else send_hint (mkHint None (interruptions (hint ch) + 1) (paused (hint ch))) ch.

Definition publish_hint (s : TunnelEventState) (ch : HintChannel (G := U)) : HintChannel (G := U) :=
  let h := hint ch in
  let h' := mkHint (hinted_replacement s) (interruptions h) false in
  if bool_decide (hint_generation h ≠ hinted_replacement s) || paused h then send_hint h' ch
  else mkHints h' (hint_version ch) (hint_sender ch).

Definition accept_state (s : TunnelEventState) (f : Follower) : Follower * bool :=
  if bool_decide (server_generation s ≠ server_generation (state f))
  then (mkFollower (close_connection (connection f) H3_GENERAL_PROTOCOL_ERROR) (state f) (hints f) (phase f), false)
  else (mkFollower (connection f) s (publish_hint s (hints f)) (phase f), true).

Definition goes (p : Phase) (f : Follower) : Follower := mkFollower (connection f) (state f) (hints f) p.
Definition with_hints (ch : HintChannel (G := U)) (f : Follower) : Follower :=
  mkFollower (connection f) (state f) ch (phase f).

(** Returning drops the hint sender. *)
Definition stop (f : Follower) : Follower :=
  let ch := hints f in
  mkFollower (connection f) (state f) (mkHints (hint ch) (hint_version ch) false) Stopped.

Definition close_incompatible (f : Follower) : Follower :=
  stop (mkFollower (close_connection (connection f) H3_GENERAL_PROTOCOL_ERROR) (state f) (hints f) (phase f)).

(** [SubscriptionEnd::Interrupted]. *)
Definition interrupt (f : Follower) : Follower := goes (AtTop false) (with_hints (pause (hints f)) f).

(** One item of [read]. *)
Definition read_item (item : result TunnelError EventItem) (sub : EventSubscription) (f : Follower) : Follower :=
  match item with
  | Ok (State s) => let '(f', ok) := accept_state s f in if ok then goes (Reading sub) f' else stop f'
  | Ok Keepalive => goes (Reading sub) f
  | Err (Incompatible _) => close_incompatible f
  | Ok Ended | Err _ => interrupt f
  end.

(** How one iteration of [resubscribe] ends. *)
Definition subscribed (interrupted : bool) (r : Subscribed) (f : Follower) : Follower :=
  match r with
  | Goes st =>
      match st with
      | AwaitingResponse =>
          (* [opened()] *)
          goes (Resubscribing true st) (with_hints (count_interruption interrupted (hints f)) f)
      | _ => goes (Resubscribing interrupted st) f
      end
  | Subscribes s sub => let '(f', ok) := accept_state s f in if ok then goes (Reading sub) f' else stop f'
  | Fails (Incompatible _) => close_incompatible f
  | Fails error =>
      match error with
      | EventStream e =>
          if forbids_new_requests e then
            stop (if interrupted then f
                  else with_hints (send_hint (mkHint (hint_generation (hint (hints f)))
                                                (interruptions (hint (hints f))) false) (hints f)) f)
          else goes (AtTop true) (with_hints (count_interruption interrupted (hints f)) f)
      | _ => goes (AtTop true) (with_hints (count_interruption interrupted (hints f)) f)
      end
  end.

Inductive FollowerEvent :=
| Reads (answer : DataAnswer StreamError)
| ReadsItem
| Silence
| ChecksConnection
| Wakes
| Subscription (e : SubscribeEvent)
| SubscriptionDeadline
| PeerCloses.

Definition exec (f : Follower) (e : FollowerEvent) : next Follower :=
  match e, phase f with
  | Reads answer, Reading sub =>
      match items sub with
      | [] =>
          Steps (match receive answer sub with
                 | Ok (Some sub) => goes (Reading sub) f
                 | Ok None => read_item (Ok Ended) sub f
                 | Err error => read_item (Err error) sub f
                 end)
      | _ => Disabled
      end
  | ReadsItem, Reading sub =>
      match next_item sub with
      | Some (item, sub) => Steps (read_item item sub f)
      | None => Disabled
      end
  | Silence, Reading sub =>
      match items sub with [] => Steps (interrupt f) | _ => Disabled end
  | ChecksConnection, AtTop interrupted =>
      Steps (if is_closed (connection f) then stop f else goes (Sleeping interrupted) f)
  | Wakes, Sleeping interrupted => Steps (goes (Resubscribing interrupted Requesting) f)
  | Subscription e, Resubscribing interrupted st =>
      match subscribe_step st e with
      | Some r => Steps (subscribed interrupted r f)
      | None => Disabled
      end
  | SubscriptionDeadline, Resubscribing interrupted st =>
      if is_waiting st
      then Steps (goes (AtTop true) (with_hints (count_interruption interrupted (hints f)) f))
      else Disabled
  | PeerCloses, _ =>
      match connection f with
      | Open => Steps (mkFollower ClosedByPeer (state f) (hints f) (phase f))
      | _ => Disabled
      end
  | _, _ => Disabled
  end.

(** ** Establishing a connection *)

(** [subscribe] fed with the events of its peer: the first outcome, or where it still waits. *)
Fixpoint run_subscribe (st : Subscribing) (events : list SubscribeEvent) : Subscribed :=
  match events with
  | [] => Goes st
  | e :: events' =>
      match subscribe_step st e with
      | Some (Goes st') => run_subscribe st' events'
      | Some r => r
      | None => Goes st
      end
  end.

(** How the HTTP/3 setup and the WebTransport CONNECT answer; the deadline of each may pass. *)
Inductive Answer := Answers | Refuses | TimesOut.

(** The requests sent on the connection. *)
Inductive Sent := SentEvents | SentConnect.

Definition close_after_failure (c : CloseReason) (error : TunnelError) : CloseReason :=
  close_connection c (match error with Incompatible _ => H3_GENERAL_PROTOCOL_ERROR | _ => H3_NO_ERROR end).

(** [establish_internal]; [gate] are the events before the deadline of the initial state, and
    [lost] tells whether the peer closed the connection before a failure was looked at. *)
Definition establish_internal (expected_generation : option U) (setup : Answer) (gate : list SubscribeEvent)
    (connect : Answer) (lost : bool) :
    result TunnelError (TunnelEventState (U := U) * EventSubscription) * CloseReason * list Sent :=
  let c := if lost then ClosedByPeer else Open in
  match setup with
  | Refuses => (Err Setup, Open, [])
  | TimesOut => (Err SetupTimeout, Open, [])
  | Answers =>
      match run_subscribe Requesting gate with
      | Goes _ => (Err InitialStateTimeout, close_connection c H3_NO_ERROR, [SentEvents])
      | Fails error =>
          if is_closed c then (Err Transport, c, [SentEvents])
          else (Err error, close_after_failure c error, [SentEvents])
      | Subscribes initial sub =>
          if match expected_generation with
             | Some expected => bool_decide (expected ≠ server_generation initial)
             | None => false
             end
          then (Err WrongGeneration, close_connection c H3_NO_ERROR, [SentEvents])
          else match connect with
               | Answers => (Ok (initial, sub), c, [SentEvents; SentConnect])
               | Refuses =>
                   if is_closed c then (Err Transport, c, [SentEvents; SentConnect])
                   else (Err SessionConnect, close_connection c H3_NO_ERROR, [SentEvents; SentConnect])
               | TimesOut => (Err SessionConnectTimeout, close_connection c H3_NO_ERROR, [SentEvents; SentConnect])
               end
      end
  end.

(** ** Invariant *)

(** Whether a step starts a new subscription. *)
Definition resumes (f f' : Follower) : bool :=
  match phase f, phase f' with Resubscribing _ _, Reading _ => true | _, _ => false end.

(** The followers of a connection whose first snapshot was [initial], with the number of
    subscriptions that followed the first. *)
Inductive followed (initial : TunnelEventState) : Z → Follower → Prop :=
| followed_first sub : followed initial 0 (follow initial sub)
| followed_step n f e f' :
    followed initial n f → exec f e = Steps f' →
    followed initial (n + (if resumes f f' then 1 else 0)) f'.

Definition phase_inv (n : Z) (f : Follower) : Prop :=
  let h := hint (hints f) in
  let between (interrupted : bool) :=
    hint_sender (hints f) = true ∧ paused h = true ∧
    hint_generation h = (if interrupted then None else hinted_replacement (state f)) ∧
    interruptions h = n + (if interrupted then 1 else 0) in
  match phase f with
  | Reading _ =>
      hint_sender (hints f) = true ∧ paused h = false ∧ hint_generation h = hinted_replacement (state f) ∧
      interruptions h = n
  | AtTop interrupted | Sleeping interrupted | Resubscribing interrupted Requesting => between interrupted
  | Resubscribing interrupted _ => interrupted = true ∧ between true
  | Stopped =>
      hint_sender (hints f) = false ∧
      (paused h = false → hint_generation h = hinted_replacement (state f) ∧ interruptions h = n) ∧
      (hint_generation h = None ∨ hint_generation h = hinted_replacement (state f))
  end.

Lemma accept_state_spec s f f' ok :
  accept_state s f = (f', ok) →
  phase f' = phase f ∧ hint_sender (hints f') = hint_sender (hints f) ∧
  server_generation (state f') = server_generation (state f) ∧
  if ok then state f' = s ∧ connection f' = connection f ∧
    hint (hints f') = mkHint (hinted_replacement s) (interruptions (hint (hints f))) false
  else state f' = state f ∧ hints f' = hints f ∧
    connection f' = close_connection (connection f) H3_GENERAL_PROTOCOL_ERROR.
Proof.
  unfold accept_state. case_bool_decide as Hg; intros [= <- <-]; simpl; [done|].
  unfold publish_hint, send_hint. by destruct (_ || _).
Qed.

(** What [read] and [resubscribe] make of a snapshot. *)
Lemma accepted_inv n s sub f :
  hint_sender (hints f) = true → interruptions (hint (hints f)) = n →
  (hint_generation (hint (hints f)) = None ∨ hint_generation (hint (hints f)) = hinted_replacement (state f)) →
  (paused (hint (hints f)) = false → hint_generation (hint (hints f)) = hinted_replacement (state f)) →
  phase_inv n (let '(f', ok) := accept_state s f in if ok then goes (Reading sub) f' else stop f').
Proof.
  intros Hsend Hint Hgen Hunp. destruct (accept_state s f) as [f' ok] eqn:E.
  apply accept_state_spec in E as (_ & Hs & _ & Hok). destruct ok; unfold phase_inv; simpl.
  - destruct Hok as (-> & _ & ->). simpl. split_and!; congruence.
  - destruct Hok as (-> & -> & _). auto.
Qed.

Lemma interrupt_inv n sub f : phase f = Reading sub → phase_inv n f → phase_inv n (interrupt f).
Proof.
  unfold phase_inv. intros ->. simpl. unfold pause. intros (? & Hp & ? & ?). rewrite Hp. simpl. split_and!; [done..|lia].
Qed.

Lemma read_item_inv n item sub sub0 f :
  phase f = Reading sub0 → phase_inv n f → phase_inv n (read_item item sub f).
Proof.
  intros Hp Hi. pose proof (interrupt_inv n sub0 f Hp Hi) as Hint. unfold phase_inv in Hi. rewrite Hp in Hi.
  destruct Hi as (Hs & Hpa & Hg & Hn).
  assert (phase_inv n (close_incompatible f)) as Hclose by (unfold phase_inv; simpl; by auto).
  unfold read_item. destruct item as [[s| |]|[]]; try done.
  apply accepted_inv; auto.
Qed.

Lemma count_interruption_inv n (i : bool) (f : Follower) :
  hint_sender (hints f) = true → paused (hint (hints f)) = true →
  interruptions (hint (hints f)) = n + (if i then 1 else 0) →
  (i = true → hint_generation (hint (hints f)) = None) →
  let h := count_interruption i (hints f) in
  hint_sender h = true ∧ paused (hint h) = true ∧ hint_generation (hint h) = None ∧ interruptions (hint h) = n + 1.
Proof. intros Hs Hp Hn Hg. unfold count_interruption. destruct i; simpl; [auto|]. split_and!; [done..|lia]. Qed.

Lemma subscribed_inv n i st e r f :
  phase f = Resubscribing i st → phase_inv n f → subscribe_step st e = Some r →
  phase_inv (n + (if resumes f (subscribed i r f) then 1 else 0)) (subscribed i r f).
Proof.
  intros Hp Hi Hr. unfold phase_inv in Hi. rewrite Hp in Hi.
  assert (hint_sender (hints f) = true ∧ paused (hint (hints f)) = true ∧
    hint_generation (hint (hints f)) = (if i then None else hinted_replacement (state f)) ∧
    interruptions (hint (hints f)) = n + (if i then 1 else 0)) as (Hs & Hpa & Hg & Hn)
    by (destruct st; [done|by destruct Hi as [-> Hi]..]).
  destruct (count_interruption_inv n i f) as (Hcs & Hcp & Hcg & Hcn); [done..|by intros ->|].
  assert (∀ f', (∀ sub, phase f' ≠ Reading sub) → n + (if resumes f f' then 1 else 0) = n) as Hno.
  { intros f' Hf'. unfold resumes. rewrite Hp. destruct (phase f') as [sub| | | |]; try lia. by destruct (Hf' sub). }
  destruct r as [st'|s sub|err]; simpl.
  - rewrite Hno by (by destruct st'). destruct st' as [| |sub'].
    + by destruct st, e; simplify_eq/=; repeat case_match; simplify_eq/=.
    + unfold phase_inv. simpl. auto.
    + assert (i = true) as -> by (by destruct st; [destruct e; simplify_eq/=|destruct Hi..]).
      unfold phase_inv. simpl. auto.
  - assert (i = true) as -> by (destruct st; [destruct e; by simplify_eq/=|destruct Hi; done..]).
    assert (phase_inv (n + 1) (let '(f', ok) := accept_state s f in if ok then goes (Reading sub) f' else stop f')) as Hacc
      by (apply accepted_inv; [done|done|by left|congruence]).
    destruct (accept_state s f) as [f' [|]] eqn:Ea.
    + unfold resumes. by rewrite Hp.
    + rewrite Hno by done. apply accept_state_spec in Ea as (_ & Hs' & _ & Hst & Hh & _).
      unfold phase_inv. simpl. rewrite Hh, Hst. split_and!; [done|congruence|by left].
  - assert (phase_inv n (goes (AtTop true) (with_hints (count_interruption i (hints f)) f))) as Hagain
      by (unfold phase_inv; simpl; done).
    destruct err as [| | |e0| | | | |reason|]; try (rewrite Hno by done; exact Hagain).
    + destruct (forbids_new_requests e0); rewrite Hno by done; [|exact Hagain].
      destruct i; unfold phase_inv; simpl; split_and!; try done; [congruence|by left|intros _; split; [done|lia]|by right].
    + rewrite Hno by done. unfold phase_inv. simpl. split_and!; [done|congruence|]. destruct i; auto.
Qed.

(** Steps that start no subscription. *)
Lemma not_resumed n f f' : (∀ i st, phase f ≠ Resubscribing i st) → n + (if resumes f f' then 1 else 0) = n.
Proof. intros Hf. unfold resumes. destruct (phase f) as [| | |i st|]; try lia. by destruct (Hf i st). Qed.

Lemma phase_inv_step n f e f' :
  phase_inv n f → exec f e = Steps f' → phase_inv (n + (if resumes f f' then 1 else 0)) f'.
Proof.
  intros Hi Hx. destruct e; cbn [exec] in Hx.
  - destruct (phase f) as [sub|i|i|i st|] eqn:Ep; try done. destruct (items sub); [|done]. simplify_eq.
    rewrite not_resumed by (rewrite Ep; done). destruct (receive answer sub) as [[sub'|]|error];
      [|apply (read_item_inv n (Ok Ended) sub sub f Ep Hi)|apply (read_item_inv n (Err error) sub sub f Ep Hi)].
    unfold phase_inv in *. rewrite Ep in Hi. done.
  - destruct (phase f) as [sub|i|i|i st|] eqn:Ep; try done. destruct (next_item sub) as [[item sub']|]; simplify_eq.
    rewrite not_resumed by (rewrite Ep; done). apply (read_item_inv n item sub' sub f Ep Hi).
  - destruct (phase f) as [sub|i|i|i st|] eqn:Ep; try done. destruct (items sub); simplify_eq.
    rewrite not_resumed by (rewrite Ep; done). apply (interrupt_inv n sub f Ep Hi).
  - destruct (phase f) as [sub|i|i|i st|] eqn:Ep; try done. simplify_eq. rewrite not_resumed by (rewrite Ep; done).
    unfold phase_inv in *. rewrite Ep in Hi. destruct (is_closed (connection f)); [|done]. simpl.
    destruct Hi as (_ & ? & ? & _). split_and!; [done|congruence|]. destruct i; auto.
  - destruct (phase f) as [sub|i|i|i st|] eqn:Ep; try done. simplify_eq. rewrite not_resumed by (rewrite Ep; done).
    unfold phase_inv in *. rewrite Ep in Hi. done.
  - destruct (phase f) as [sub|i|i|i st|] eqn:Ep; try done. destruct (subscribe_step st e) as [r|] eqn:Er; simplify_eq.
    apply (subscribed_inv n i st e r f Ep Hi Er).
  - destruct (phase f) as [sub|i|i|i st|] eqn:Ep; try done. destruct (is_waiting st); simplify_eq.
    unfold phase_inv in Hi. rewrite Ep in Hi. unfold resumes. rewrite Ep. simpl. rewrite Z.add_0_r.
    apply count_interruption_inv; destruct st; try (by destruct Hi as (? & ? & ? & ?)); try (by destruct Hi as [-> (? & ? & ? & ?)]).
    destruct Hi as (_ & _ & Hg & _). by intros ->.
  - destruct (connection f); simplify_eq. unfold resumes. simpl.
    replace (n + _) with n by (destruct (phase f); lia). by unfold phase_inv in *.
Qed.

Lemma followed_inv initial n f :
  followed initial n f → phase_inv n f ∧ server_generation (state f) = server_generation initial.
Proof.
  induction 1 as [sub|n f e f' _ [Hi Hg] Hx]; [by split|]. split; [by eapply phase_inv_step|]. rewrite <- Hg.
  assert (∀ s sub f0, server_generation (state f0) = server_generation (state f) →
    server_generation (state (let '(f1, ok) := accept_state s f0 in if ok then goes (Reading sub) f1 else stop f1)) =
    server_generation (state f)) as Hacc.
  { intros s sub f0 Hf0. destruct (accept_state s f0) as [f1 ok] eqn:E. apply accept_state_spec in E as (_ & _ & Hs & _).
    destruct ok; simpl; congruence. }
  destruct e; cbn [exec] in Hx.
  - destruct (phase f); try done. destruct (items sub); simplify_eq.
    destruct (receive answer sub) as [[sub'|]|[]]; try done.
  - destruct (phase f); try done. destruct (next_item sub) as [[[[s| |]|[]] sub']|]; simplify_eq/=; try done. by apply Hacc.
  - destruct (phase f); try done. by destruct (items sub); simplify_eq.
  - destruct (phase f); try done. simplify_eq. by destruct (is_closed _).
  - by destruct (phase f); simplify_eq.
  - destruct (phase f) as [| | |i st|]; try done. destruct (subscribe_step st e) as [[st'|s sub|[]]|]; simplify_eq/=; try done.
    + by destruct st'.
    + by apply Hacc.
    + destruct (forbids_new_requests _); [|done]. by destruct i.
  - destruct (phase f) as [| | |i st|]; try done. by destruct (is_waiting st); simplify_eq.
  - by destruct (connection f); simplify_eq.
Qed.

Lemma hinted_other s r : hinted_replacement (U := U) s = Some r → r ≠ server_generation s.
Proof.
  unfold hinted_replacement, filter_other. destruct (replacement_generation s) as [x|]; simpl; [|done].
  case_bool_decide; congruence.
Qed.

(** ** Claims *)

(** An unpaused replacement hint always comes from the subscription that is being read
    (or was, when GOAWAY ended following), it is that of the latest snapshot, it never names
    the connection's own generation, and the interruption count is the number of that
    subscription: a candidate that passes [still_hints] is the one the subscription the worker
    last looked at still names. *)
Theorem hint_names_live_subscription initial n f m f0 (a : Active (G := U)) target :
  followed initial n f → followed initial m f0 →
  server_generation (state f) = server_generation initial ∧
  hint_generation (hint (hints f)) ≠ Some (server_generation initial) ∧
  (paused (hint (hints f)) = false →
     hint_generation (hint (hints f)) = hinted_replacement (state f) ∧ interruptions (hint (hints f)) = n ∧
     ((∃ sub, phase f = Reading sub) ∨ phase f = Stopped)) ∧
  (paused (hint (hints f0)) = false → hints_interruptions a = interruptions (hint (hints f0)) →
   still_hints target (hints f) a = true → n = m ∧ hinted_replacement (state f) = Some target).
Proof.
  intros [Hi Hg]%followed_inv [Hi0 Hg0]%followed_inv.
  assert (∀ k f1, phase_inv k f1 → paused (hint (hints f1)) = false →
    hint_generation (hint (hints f1)) = hinted_replacement (state f1) ∧ interruptions (hint (hints f1)) = k ∧
    ((∃ sub, phase f1 = Reading sub) ∨ phase f1 = Stopped)) as Hunp.
  { intros k f1 H1 Hp. unfold phase_inv in H1. destruct (phase f1) as [sub|i|i|i st|].
    - destruct H1 as (_ & _ & ? & ?). eauto.
    - destruct H1 as (_ & ? & _). congruence.
    - destruct H1 as (_ & ? & _). congruence.
    - destruct st; [destruct H1 as (_ & ? & _)|destruct H1 as (_ & _ & ? & _)..]; congruence.
    - destruct H1 as (_ & H1 & _). destruct (H1 Hp). eauto. }
  split_and!; [done| |by apply Hunp|].
  - assert (hint_generation (hint (hints f)) = None ∨ hint_generation (hint (hints f)) = hinted_replacement (state f)) as Hor.
    { unfold phase_inv in Hi. destruct (phase f) as [sub|[]|[]|[] []|]; naive_solver. }
    intros Heq. rewrite <- Hg in Heq. destruct Hor as [Hn|Hh]; [congruence|]. rewrite Heq in Hh. symmetry in Hh.
    by apply hinted_other in Hh.
  - intros Hp0 Ha Hst. unfold still_hints in Hst. rewrite !andb_true_iff in Hst.
    destruct Hst as [[Ht%bool_decide_eq_true Hp%negb_true_iff] Hk%Z.eqb_eq].
    destruct (Hunp n f Hi Hp) as (Hgen & Hn & _), (Hunp m f0 Hi0 Hp0) as (_ & Hm & _). split; congruence.
Qed.

(** GOAWAY is not an interruption: when the first resubscription request after the end of
    an event stream is refused because no request may start, following stops with the last
    hint standing; any other refusal clears the hint and counts one interruption. *)
Theorem goaway_keeps_hint initial n f sub e :
  followed initial n f → phase f = Reading sub → items sub = [] → connection f = Open →
  ∃ f', run_actions exec f [Reads DataEnd; ChecksConnection; Wakes; Subscription (RequestRefused e)] = Some f' ∧
    state f' = state f ∧
    if forbids_new_requests e then phase f' = Stopped ∧ hint (hints f') = hint (hints f)
    else phase f' = AtTop true ∧ hint (hints f') = mkHint None (n + 1) true.
Proof.
  intros [Hi _]%followed_inv Hp Hitems Hc. unfold phase_inv in Hi. rewrite Hp in Hi. destruct Hi as (Hs & Hpa & Hg & Hn).
  cbn [run_actions]. unfold exec at 1. rewrite Hp, Hitems. simpl. rewrite Hc. simpl. unfold pause. rewrite Hpa. simpl.
  destruct (forbids_new_requests e); eexists; (split; [done|]); simpl; (split; [done|]); (split; [done|]).
  - destruct (hint (hints f)) as [g k pa]. simpl in *. by rewrite Hpa.
  - by rewrite Hn.
Qed.

(** Between two answers of the peer, with nothing left to decode. *)
Definition is_quiet (f : Follower) : bool :=
  match phase f with
  | Reading sub => bool_decide (items sub = [])
  | Resubscribing _ st => is_waiting st
  | Stopped => false
  | _ => true
  end.

Lemma reaches_request f :
  is_quiet f = true → connection f = Open →
  ∃ acts i f', run_actions exec f acts = Some f' ∧ phase f' = Resubscribing i Requesting ∧ connection f' = Open ∧
    state f' = state f.
Proof.
  intros Hq Hc. unfold is_quiet in Hq.
  assert (∀ f0 i, phase f0 = AtTop i → connection f0 = Open → state f0 = state f →
    ∃ f', run_actions exec f0 [ChecksConnection; Wakes] = Some f' ∧ phase f' = Resubscribing i Requesting ∧
      connection f' = Open ∧ state f' = state f) as Htop.
  { intros f0 i H1 H2 H3. cbn [run_actions]. unfold exec at 1. rewrite H1, H2. simpl. by eexists. }
  destruct (phase f) as [sub|i|i|i st|] eqn:Ep; [..|done].
  - apply bool_decide_eq_true in Hq. destruct (Htop (interrupt f) false) as (f' & Hr & Hf'); [done..|].
    exists (Silence :: [ChecksConnection; Wakes]), false, f'. split; [|done].
    cbn [run_actions]. unfold exec at 1. by rewrite Ep, Hq.
  - destruct (Htop f i) as (f' & Hr & Hf'); [done..|]. by exists [ChecksConnection; Wakes], i, f'.
  - exists [Wakes], i. cbn [run_actions]. unfold exec. rewrite Ep. by eexists.
  - destruct st.
    + by exists [], i, f.
    + destruct (Htop (goes (AtTop true) (with_hints (count_interruption i (hints f)) f)) true) as (f' & Hr & Hf'); [done..|].
      exists (SubscriptionDeadline :: [ChecksConnection; Wakes]), true, f'. split; [|done].
      cbn [run_actions]. unfold exec at 1. by rewrite Ep.
    + destruct (Htop (goes (AtTop true) (with_hints (count_interruption i (hints f)) f)) true) as (f' & Hr & Hf'); [done..|].
      exists (SubscriptionDeadline :: [ChecksConnection; Wakes]), true, f'. split; [|done].
      cbn [run_actions]. unfold exec at 1. by rewrite Ep, Hq.
Qed.

(** An interrupted follower recovers: while the connection is open it can always reach a
    new subscription, and a Server that answers it with the snapshot [s] of the same
    generation makes it publish exactly [s] and the hint of [s]. *)
Theorem follower_recovers `{!SnapshotLaws (U := U)} initial n f s :
  followed initial n f → is_quiet f = true → connection f = Open →
  minted_state s → server_generation s = server_generation initial →
  ∃ acts f' sub, run_actions exec f acts = Some f' ∧ phase f' = Reading sub ∧ items sub = [] ∧ state f' = s ∧
    hint_generation (hint (hints f')) = hinted_replacement s ∧ paused (hint (hints f')) = false.
Proof.
  intros [_ Hg]%followed_inv Hq Hc Hs Hgen. destruct (reaches_request f Hq Hc) as (acts & i & f1 & Hr & Hp & Hc1 & Hst).
  set (headers := [(CONTENT_TYPE, bs "text/event-stream")]).
  set (more := [Subscription RequestOpened; Subscription (Responds 200 headers);
                Subscription (Receives (DataChunk (encode_sse s))); Subscription NextItem]).
  assert (is_event_stream headers = true) as Hh by (vm_compute; reflexivity).
  assert (∃ f' sub, run_actions exec f1 more = Some f' ∧ phase f' = Reading sub ∧ items sub = [] ∧ state f' = s ∧
    hint_generation (hint (hints f')) = hinted_replacement s ∧ paused (hint (hints f')) = false) as (f' & sub & Hm & Hf').
  { unfold more. cbn [run_actions]. unfold exec at 1. rewrite Hp. cbn [subscribe_step subscribed]. unfold exec at 1.
    cbn [phase goes with_hints subscribe_step]. rewrite Hh. cbn [negb Z.eqb Pos.eqb subscribed]. unfold exec at 1.
    cbn [phase goes subscribe_step items fresh_subscription]. unfold receive. cbn [sse fresh_subscription].
    rewrite push_encode_sse. cbn [subscribed items fresh_subscription app]. unfold exec at 1.
    cbn [phase goes subscribe_step next_item items]. unfold decode_item. cbn [ev_type ev_data].
    rewrite bool_decide_false by done. cbn [andb]. rewrite decode_wire by done. cbn [mbind option_bind subscribed].
    destruct (accept_state s _) as [f2 ok] eqn:Ea. assert (ok = true) as ->.
    { unfold accept_state in Ea. rewrite bool_decide_false in Ea; [by injection Ea|]. simpl. congruence. }
    apply accept_state_spec in Ea as (_ & _ & _ & Hst2 & _ & Hh2). eexists _, _. split; [done|]. simpl. by rewrite Hh2. }
  exists (acts ++ more), f', sub. split; [|done]. by rewrite run_actions_app, Hr.
Qed.

(** The event stream gates a connection: the session request is sent only after the first
    valid snapshot, and for a candidate only when that snapshot names the expected generation;
    a connection is established with exactly that snapshot; an incompatible Server is closed
    with a protocol error, every other failure closes with no error. *)
Theorem establish_gate expected setup gate connect lost r c sent :
  establish_internal expected setup gate connect lost = (r, c, sent) →
  (SentConnect ∈ sent → ∃ s sub, run_subscribe Requesting gate = Subscribes s sub ∧
     ∀ g, expected = Some g → server_generation s = g) ∧
  (∀ s sub, r = Ok (s, sub) ↔
     setup = Answers ∧ connect = Answers ∧ run_subscribe Requesting gate = Subscribes s sub ∧
     ∀ g, expected = Some g → server_generation s = g) ∧
  (∀ error, r = Err error → setup = Answers →
     c = (if lost then ClosedByPeer
          else ClosedLocally (match error with Incompatible _ => H3_GENERAL_PROTOCOL_ERROR | _ => H3_NO_ERROR end))).
Proof.
  unfold establish_internal. destruct setup.
  2-3: intros [= <- <- <-]; split_and!; [by intros ?%elem_of_nil|intros; split; [done|by intros [? _]]|done].
  destruct (run_subscribe Requesting gate) as [st|s sub|error] eqn:Eg.
  - intros [= <- <- <-]. split_and!.
    + by intros ?%list_elem_of_singleton.
    + intros. split; [done|]. by intros (_ & _ & ? & _).
    + intros error [= <-] _. by destruct lost.
  - case_match eqn:Ee.
    + destruct expected as [g|]; [|done]. apply bool_decide_eq_true in Ee. intros [= <- <- <-]. split_and!.
      * by intros ?%list_elem_of_singleton.
      * intros s' sub'. split; [done|]. intros (_ & _ & [= <- <-] & Hg). by destruct Ee; rewrite (Hg g).
      * intros error [= <-] _. by destruct lost.
    + assert (∀ g, expected = Some g → server_generation s = g) as Hg.
      { intros g ->. by apply bool_decide_eq_false, dec_stable in Ee. }
      intros Hc. split.
      { intros _. by exists s, sub. }
      destruct connect; [| |]; destruct lost; simpl in Hc; simplify_eq; (split; [|by intros error Herr _; simplify_eq]);
        intros s' sub'; (split; [by intros Hr; simplify_eq|by intros (_ & Hcon & Hs & _); simplify_eq]).
  - intros Hc. destruct lost; simpl in Hc; simplify_eq; split_and!.
    1,4: by intros ?%list_elem_of_singleton.
    1,3: intros; split; [done|]; by intros (_ & _ & ? & _).
    all: by intros e [= <-] _.
Qed.

End Following.

(** ** A small follower *)

Import ToyWire.

Definition toy_initial : TunnelEventState (U := bool) := mkState true None.
Definition toy_hinting : TunnelEventState (U := bool) := mkState true (Some false).

(** The first snapshot names no replacement, the next one does. *)
Definition toy_follower : Follower (U := bool) := follow toy_initial fresh_subscription.
Definition toy_hinted : Follower (U := bool) :=
  default toy_follower (run_actions exec toy_follower [Reads (DataChunk (encode_sse toy_hinting)); ReadsItem]).

Lemma toy_hinted_followed : followed toy_initial 0 toy_hinted.
Proof.
  destruct (exec toy_follower (Reads (DataChunk (encode_sse toy_hinting)))) as [f1| |] eqn:E1; [|by vm_compute in E1..].
  destruct (exec f1 ReadsItem) as [f2| |] eqn:E2; [|by vm_compute in E1; simplify_eq; vm_compute in E2..].
  assert (toy_hinted = f2) as ->.
  { unfold toy_hinted. cbn [run_actions]. rewrite E1. cbn [run_actions]. by rewrite E2. }
  change 0 with (0 + 0 + 0).
  assert (resumes toy_follower f1 = false ∧ resumes f1 f2 = false) as [H1 H2].
  { vm_compute in E1. simplify_eq. done. }
  pose proof (followed_step _ _ _ _ _ (followed_first toy_initial fresh_subscription) E1) as Hf1. fold toy_follower in Hf1. rewrite H1 in Hf1.
  pose proof (followed_step _ _ _ _ _ Hf1 E2) as Hf2. by rewrite H2 in Hf2.
Qed.

Lemma hint_names_live_subscription_witness :
  hint_generation (hint (hints toy_hinted)) = Some false ∧ hinted_replacement (state toy_hinted) = Some false.
Proof.
  pose proof (hint_names_live_subscription toy_initial 0 toy_hinted 0 toy_hinted
    (mkActive 0 true None 0 true 0) false toy_hinted_followed toy_hinted_followed) as (_ & _ & Hp & Hst).
  destruct Hp as (-> & _); [vm_compute; reflexivity|].
  destruct Hst as [_ ->]; [vm_compute; reflexivity|vm_compute; reflexivity|vm_compute; reflexivity|done].
Defined.

Lemma goaway_keeps_hint_witness :
  ∃ f', run_actions exec toy_hinted [Reads DataEnd; ChecksConnection; Wakes; Subscription (RequestRefused RemoteClosing)]
    = Some f' ∧ hint_generation (hint (hints f')) = Some false.
Proof.
  destruct (goaway_keeps_hint toy_initial 0 toy_hinted fresh_subscription RemoteClosing toy_hinted_followed)
    as (f' & Hr & _ & _ & Hh); [vm_compute; reflexivity|done|vm_compute; reflexivity|].
  exists f'. split; [done|]. rewrite Hh. vm_compute. reflexivity.
Defined.

Lemma follower_recovers_witness :
  ∃ acts f', run_actions exec toy_hinted acts = Some f' ∧ state f' = toy_initial.
Proof.
  destruct (follower_recovers toy_initial 0 toy_hinted toy_initial toy_hinted_followed) as (acts & f' & sub & Hr & _ & _ & Hs & _);
    [vm_compute; reflexivity|vm_compute; reflexivity|done|done|]. by exists acts, f'.
Defined.

Lemma establish_gate_witness :
  (establish_internal (Some false) Answers
     [RequestOpened; Responds 200 [(CONTENT_TYPE, bs "text/event-stream")];
      Receives (DataChunk (encode_sse toy_hinting)); NextItem] Answers false).1.2 = ClosedLocally H3_NO_ERROR.
Proof.
  destruct (establish_internal (Some false) Answers _ Answers false) as [[r c] sent] eqn:E.
  pose proof E as E'. vm_compute in E'.
  destruct (establish_gate _ _ _ _ _ _ _ _ E) as (_ & _ & Hc). simpl.
  injection E' as Hr _ _. rewrite (Hc WrongGeneration); [reflexivity|by rewrite <- Hr|reflexivity].
Defined.
