(* ===== verification/EventStream.v ===== *)
(** * EventStream: the Tunnel event stream from the Server's source to the Client's hint

    The Server's side of a subscription, [serve_events] ([src/tunnel/server.rs]) over the
    shared [ServerTunnelEvents] ([src/tunnel/events.rs]), and its composition with the Client
    of [Follower]: what a Client that reads the frames of a subscription, cut into chunks in
    any way, ends up advertising to its address worker. *)

From Stdlib Require Import Ascii ZArith Lia.
From stdpp Require Import base strings numbers gmap list.
From S2P Require Import Prelude Text Names Sse Http Assignment AddressWorker Follower.
Import Parser Events Field Signaling.

Open Scope Z_scope.

Section Streaming.
Context {U : Type} `{UuidOps U} `{JsonOps}.

(** ** The Server *)

(** What [serve_events] writes. *)
Inductive EventFrame := SnapshotFrame (s : TunnelEventState (U := U)) | KeepaliveFrame.

Definition frame_bytes (f : EventFrame) : bytes :=
  match f with SnapshotFrame s => encode_sse s | KeepaliveFrame => KEEPALIVE_COMMENT end.

(** [serve_events] at its channel operations and awaits: counted as a subscription; watching
    the count; writing the response and the initial frame; in the [select!]; writing a frame;
    finishing; returned. *)
Inductive StreamPhase :=
| Counted
| Watching
| Heading (f : EventFrame)
| Selecting
| Writing (f : EventFrame)
| Finishing
| Closed.

(** One subscription: the last value its receivers have seen of [subscriptions] and the
    snapshot, and the frames whose writes completed. *)
Record Stream := mkStream {
  stream_phase : StreamPhase;
  seen_subscriptions : Z;
  seen_version : Z;
  written : list EventFrame
}.

(** The channels a connection's subscriptions share, each with its version. *)
Record Server := mkServer {
  snapshot : TunnelEventState (U := U);
  version : Z;
  subscriptions : Z;
  goaway_sent : bool;
  streams : gmap Z Stream
}.

Definition serve (g : U) : Server := mkServer (ServerTunnelEvents_new g) 0 0 false ∅.

Inductive StreamEvent :=
| Watches
| Encodes
| ResponseWritten
| FrameWritten
| WriteFails
| Ticks
| SeesSnapshot
| SeesSuperseded
| SeesGoawaySent
| FinishEnds.

Definition stream_step (sv : Server) (st : Stream) (e : StreamEvent) : option Stream :=
  let '(mkStream p subs v w) := st in
  match p, e with
  | Counted, Watches => Some (mkStream Watching (subscriptions sv) v w)
  | Watching, Encodes => Some (mkStream (Heading (SnapshotFrame (snapshot sv))) subs (version sv) w)
  | Heading f, ResponseWritten => Some (mkStream (Writing f) subs v w)
  | Writing f, FrameWritten => Some (mkStream Selecting subs v (w ++ [f]))
  | Heading _, WriteFails | Writing _, WriteFails => Some (mkStream Closed subs v w)
  | Selecting, Ticks => Some (mkStream (Writing KeepaliveFrame) subs v w)
  | Selecting, SeesSnapshot =>
      if v =? version sv then None
      else Some (mkStream (Writing (SnapshotFrame (snapshot sv))) subs (version sv) w)
  | Selecting, SeesSuperseded =>
      if subs =? subscriptions sv then None else Some (mkStream Finishing subs v w)
  | Selecting, SeesGoawaySent => if goaway_sent sv then Some (mkStream Finishing subs v w) else None
  | Finishing, FinishEnds => Some (mkStream Closed subs v w)
  | _, _ => None
  end.

Inductive server_action :=
| Publishes (replacement : option U)
| SendsGoaway
| Subscribe (i : Z)
| StreamStep (i : Z) (e : StreamEvent).

Definition with_stream (i : Z) (st : Stream) (sv : Server) : Server :=
  mkServer (snapshot sv) (version sv) (subscriptions sv) (goaway_sent sv) (<[i := st]> (streams sv)).

Definition server_exec (sv : Server) (a : server_action) : next Server :=
  match a with
  | Publishes replacement =>
      let '(s, changed) := set_replacement_generation replacement (snapshot sv) in
      Steps (mkServer s (if changed then version sv + 1 else version sv) (subscriptions sv)
               (goaway_sent sv) (streams sv))
  | SendsGoaway => Steps (mkServer (snapshot sv) (version sv) (subscriptions sv) true (streams sv))
  | Subscribe i =>
      match streams sv !! i with
      | None =>
          Steps (mkServer (snapshot sv) (version sv) (subscriptions sv + 1) (goaway_sent sv)
                   (<[i := mkStream Counted 0 0 []]> (streams sv)))
      | Some _ => Disabled
      end
  | StreamStep i e =>
      match (st ← streams sv !! i; stream_step sv st e) with
      | Some st' => Steps (with_stream i st' sv)
      | None => Disabled
      end
  end.

(** ** The Client *)

(** The Client of one subscription: waiting for the first snapshot in [subscribe], following
    the stream in [read], or the connection given up. *)
Inductive Client :=
| AtGate (st : Subscribing)
| Live (f : Follower (U := U))
| GaveUp.

(** What the wire and the Client's own reads do. *)
Inductive WireEvent := WireChunk (chunk : bytes) | WireItem.

Definition client_exec (c : Client) (e : WireEvent) : next Client :=
  match c with
  | AtGate st =>
      match subscribe_step st (match e with WireChunk chunk => Receives (DataChunk chunk) | WireItem => NextItem end) with
      | Some (Goes st) => Steps (AtGate st)
      | Some (Subscribes s sub) => Steps (Live (follow s sub))
      | Some (Fails _) => Steps GaveUp
      | None => Disabled
      end
  | Live f =>
      match Follower.exec f (match e with WireChunk chunk => Reads (DataChunk chunk) | WireItem => ReadsItem end) with
      | Steps f => Steps (Live f)
      | Disabled => Disabled
      | Panics => Panics
      end
  | GaveUp => Disabled
  end.

(** The Client once the response headers passed its checks. *)
Definition gate : Client := AtGate (AwaitingState fresh_subscription).

Fixpoint received (es : list WireEvent) : bytes :=
  match es with
  | [] => []
  | WireChunk chunk :: es' => chunk ++ received es'
  | WireItem :: es' => received es'
  end.

Definition sent (fs : list EventFrame) : bytes := concat (frame_bytes <$> fs).

(** ** The invariant of the Server *)

Definition last_snapshot (fs : list EventFrame) : option (TunnelEventState (U := U)) :=
  foldl (λ acc f, match f with SnapshotFrame s => Some s | KeepaliveFrame => acc end) None fs.

(** The frames written and the one being written. *)
Definition emitted (st : Stream) : list EventFrame :=
  written st ++ match stream_phase st with Heading f | Writing f => [f] | _ => [] end.

Definition encoded (p : StreamPhase) : bool :=
  match p with Counted | Watching => false | _ => true end.

(** Is it still writing, or able to? *)
Definition stream_live (p : StreamPhase) : bool :=
  match p with Heading _ | Writing _ | Selecting => true | _ => false end.

Definition frame_ok (g : U) (f : EventFrame) : Prop :=
  match f with SnapshotFrame s => server_generation s = g | KeepaliveFrame => True end.

Record stream_inv (sv : Server) (st : Stream) : Prop := {
  seen_le : seen_version st ≤ version sv;
  subs_le : seen_subscriptions st ≤ subscriptions sv;
  frames_ok : Forall (frame_ok (server_generation (snapshot sv))) (emitted st);
  not_yet : encoded (stream_phase st) = false → emitted st = [] ∧ seen_version st = 0;
  current_last : stream_live (stream_phase st) = true → seen_version st = version sv →
                 last_snapshot (emitted st) = Some (snapshot sv);
  first_frame : stream_live (stream_phase st) = true → is_Some (last_snapshot (emitted st))
}.

Definition server_inv (sv : Server) : Prop :=
  0 ≤ version sv ∧ 0 ≤ subscriptions sv ∧ ∀ i st, streams sv !! i = Some st → stream_inv sv st.

Lemma last_snapshot_app fs f :
  last_snapshot (fs ++ [f]) = match f with SnapshotFrame s => Some s | KeepaliveFrame => last_snapshot fs end.
Proof. unfold last_snapshot. by rewrite foldl_app. Qed.

Lemma stream_step_inv sv st e st' :
  0 ≤ version sv → stream_inv sv st → stream_step sv st e = Some st' → stream_inv sv st'.
Proof.
  intros Hv Hi Hs. destruct Hi as [Hle Hsl Hf Hn Hc Hff], st as [p subs v w].
  unfold emitted in *; simpl in *.
  destruct p, e; simplify_eq/=; repeat case_match; simplify_eq/=; split; unfold emitted; simpl;
    rewrite ?app_nil_r, ?last_snapshot_app in *; auto; try done; try lia.
  all: try (apply Forall_app; split; [|by constructor]); auto; try (by eexists); try (by apply Forall_app in Hf as []).
Qed.

Lemma publish_cases r s :
  let '(s', changed) := set_replacement_generation (U := U) r s in
  server_generation s' = server_generation s ∧ (changed = false → s' = s).
Proof.
  unfold set_replacement_generation. split; [done|]. intros Hc%bool_decide_eq_false.
  destruct s as [g o]; simpl in *. f_equal. by destruct (decide (o = filter_other g r)).
Qed.

Lemma server_exec_inv sv a sv' : server_inv sv → server_exec sv a = Steps sv' → server_inv sv'.
Proof.
  intros (Hv & Hsub & Hi) Hx. destruct a as [r| |i|i e]; unfold server_exec in Hx.
  - pose proof (publish_cases r (snapshot sv)) as Hp.
    destruct (set_replacement_generation r (snapshot sv)) as [s' changed]. destruct Hp as [Hg He].
    simplify_eq. split_and!; simpl; [destruct changed; lia|done|]. intros i st Hst.
    destruct (Hi i st Hst) as [Hle Hsl Hf Hn Hc Hff]. split; simpl; rewrite ?Hg; auto.
    + destruct changed; lia.
    + intros Hl Heq. destruct changed; simpl in Heq; [lia|]. rewrite He by done. auto.
  - simplify_eq. split_and!; [done..|]. intros i st Hst. destruct (Hi i st Hst). by split.
  - destruct (streams sv !! i) eqn:E; simplify_eq. split_and!; simpl; [done|lia|].
    intros j st [[<- <-]|[_ Hj]]%lookup_insert_Some.
    + split; simpl; try done. lia.
    + destruct (Hi j st Hj). split; simpl; auto. lia.
  - destruct (streams sv !! i) as [st|] eqn:E; simpl in Hx; [|done].
    destruct (stream_step sv st e) as [st'|] eqn:Es; simplify_eq. split_and!; [done..|]. simpl.
    intros j st0 [[<- <-]|[_ Hj]]%lookup_insert_Some.
    + pose proof (stream_step_inv sv st e st' Hv (Hi i st E) Es) as []. by split.
    + destruct (Hi j st0 Hj). by split.
Qed.

Lemma source_reachable_inv g acts sv :
  run_actions server_exec (serve g) acts = Some sv → server_inv sv ∧ server_generation (snapshot sv) = g.
Proof.
  apply (run_actions_invariant server_exec (λ sv, server_inv sv ∧ server_generation (snapshot sv) = g)).
  - intros sv0 a sv1 [Hi Hg] Hx. split; [by eapply server_exec_inv|].
    destruct a as [r| |i|i e]; unfold server_exec, set_replacement_generation in Hx;
      [by simplify_eq/=|..]; repeat case_match; simplify_eq/=; done.
  - split; [|done]. split_and!; done.
Qed.

(** ** What the Client reads *)

Definition read_state (acc : option (TunnelEventState (U := U))) (item : SseParseItem) :
    option (TunnelEventState (U := U)) :=
  match decode_item item with Ok (State s) => Some s | _ => acc end.

(** Items that keep the Client reading. *)
Definition item_ok (g : U) (item : SseParseItem) : Prop :=
  match decode_item item with
  | Ok (State s) => server_generation s = g
  | Ok Keepalive => True
  | _ => False
  end.

Definition frame_items (f : EventFrame) : list SseParseItem :=
  match f with
  | SnapshotFrame s => [Event (mkEvent (Some SNAPSHOT_EVENT_TYPE) (wire_json (wire_of s)))]
  | KeepaliveFrame => [Comment; Event (mkEvent None [])]
  end.

Definition frame_minted (f : EventFrame) : Prop :=
  match f with SnapshotFrame s => minted_state s | KeepaliveFrame => True end.

(** The items that a subscription holds and will still parse from the rest of the stream keep
    the Client reading and end in the snapshot [final]. *)
Definition expects (g : U) (final : TunnelEventState (U := U)) (rest : bytes)
    (acc : option (TunnelEventState (U := U))) (sub : EventSubscription) : Prop :=
  ∃ p more, push (sse sub) rest = Ok (p, more) ∧ Forall (item_ok g) (items sub ++ more)
            ∧ foldl read_state acc (items sub ++ more) = Some final.

Definition client_inv (g : U) (final : TunnelEventState (U := U)) (rest : bytes) (c : Client) : Prop :=
  match c with
  | AtGate st => ∃ sub, st = AwaitingState sub ∧ expects g final rest None sub
  | Live f =>
      connection f = Open ∧ server_generation (state f) = g
      ∧ hint_generation (hint (hints f)) = hinted_replacement (state f) ∧ paused (hint (hints f)) = false
      ∧ ∃ sub, phase f = Reading sub ∧ expects g final rest (Some (state f)) sub
  | GaveUp => False
  end.

Section Delivery.
Context `{!SnapshotLaws (U := U)}.

Lemma push_frames fs :
  push (Parser.new TUNNEL_EVENT_SSE_LIMITS) (sent fs)
  = Ok (Parser.new TUNNEL_EVENT_SSE_LIMITS, concat (frame_items <$> fs)).
Proof.
  induction fs as [|f fs IH]; [done|]. change (sent (f :: fs)) with (frame_bytes f ++ sent fs).
  rewrite push_app. destruct f as [s|]; cbn [frame_bytes].
  - rewrite push_encode_sse. cbn. rewrite IH. done.
  - replace (push (Parser.new TUNNEL_EVENT_SSE_LIMITS) KEEPALIVE_COMMENT) with
      (@Ok SseParseError _ (Parser.new TUNNEL_EVENT_SSE_LIMITS, [Comment; Event (mkEvent None [])])) by done.
    cbn. rewrite IH. done.
Qed.

Lemma decode_snapshot_item s :
  minted_state s →
  decode_item (Event (mkEvent (Some SNAPSHOT_EVENT_TYPE) (wire_json (wire_of s)))) = Ok (State s).
Proof.
  intros Hm. unfold decode_item. cbn [ev_type ev_data]. rewrite bool_decide_false by done. cbn [andb].
  by rewrite decode_wire.
Qed.

(** Every frame of one generation keeps the Client reading, and the snapshots are read in
    order. *)
Lemma frames_read g fs acc :
  Forall (frame_ok g) fs → Forall frame_minted fs →
  Forall (item_ok g) (concat (frame_items <$> fs))
  ∧ foldl read_state acc (concat (frame_items <$> fs))
    = match last_snapshot fs with Some s => Some s | None => acc end.
Proof.
  intros Hok Hm. induction fs as [|f fs IH] using rev_ind; [done|].
  apply Forall_app in Hok as [Hok [Hf _]%Forall_cons], Hm as [Hm [Hmf _]%Forall_cons].
  destruct (IH Hok Hm) as [Hi Hl].
  rewrite fmap_app, concat_app, foldl_app, last_snapshot_app, Hl. cbn [fmap list_fmap concat].
  rewrite app_nil_r. split; [apply Forall_app; split; [done|]|].
  - destruct f as [s|]; [|by repeat constructor].
    apply Forall_singleton. unfold item_ok. by rewrite (decode_snapshot_item s Hmf).
  - destruct f as [s|]; [|done]. cbn [frame_items foldl]. unfold read_state.
    by rewrite (decode_snapshot_item s Hmf).
Qed.

Lemma expects_chunk g final chunk rest acc sub :
  items sub = [] → expects g final (chunk ++ rest) acc sub →
  ∃ sub', receive (DataChunk chunk) sub = Ok (Some sub') ∧ expects g final rest acc sub'.
Proof.
  intros He (p & more & Hp & Hi & Hl). rewrite push_app in Hp. unfold receive.
  destruct (push (sse sub) chunk) as [[p1 i1]|] eqn:E1; [|done]. cbn in Hp.
  destruct (push p1 rest) as [[p2 i2]|] eqn:E2; [|done]. cbn in Hp. injection Hp as <- <-.
  eexists. split; [done|]. exists p2, i2. cbn [sse items]. rewrite <- !app_assoc. done.
Qed.

(** Reading an item. *)
Lemma expects_item g final rest acc sub item sub' :
  next_item sub = Some (item, sub') → expects g final rest acc sub →
  (item = Ok Keepalive ∧ expects g final rest acc sub')
  ∨ ∃ s, item = Ok (State s) ∧ server_generation s = g ∧ expects g final rest (Some s) sub'.
Proof.
  unfold next_item. intros Hn (p & more & Hp & Hi & Hl).
  destruct (items sub) as [|it its] eqn:E; [done|]. injection Hn as <- <-.
  cbn [app] in Hi. apply Forall_cons in Hi as [Hit Hi]. cbn [app foldl] in Hl.
  unfold item_ok in Hit. unfold read_state at 2 in Hl.
  destruct (decode_item it) as [[s| |]|] eqn:Ed; try done; [right; exists s|left]; repeat split; try done;
    exists p, more; done.
Qed.

Lemma publish_hint_tracks s ch :
  hint_generation (hint (publish_hint (U := U) s ch)) = hinted_replacement s
  ∧ paused (hint (publish_hint s ch)) = false.
Proof. unfold publish_hint. by case_match. Qed.

Lemma client_step_inv g final e rest c c' :
  client_inv g final (received [e] ++ rest) c → client_exec c e = Steps c' →
  client_inv g final rest c'.
Proof.
  destruct c as [st|f|]; simpl; [| |done].
  - intros (sub & -> & He) Hx. destruct e as [chunk|]; simpl in *; rewrite ?app_nil_r in He.
    + destruct (items sub) eqn:Hit; [|done].
      destruct (expects_chunk g final chunk rest None sub Hit He) as (sub' & Hr & He').
      unfold receive in Hr. destruct (push (sse sub) chunk) as [[p1 i1]|]; [|done]. 
      injection Hr as <-. simplify_eq. eexists. split; [done|]. by rewrite Hit in He'.
    + destruct (next_item sub) as [[item sub']|] eqn:Hn; simpl in Hx; [|done].
      destruct (expects_item g final _ None sub item sub' Hn He) as [[-> He']|(s & -> & Hg & He')];
        simplify_eq.
      * eexists. by split.
      * split_and!; try done. eexists. by split.
  - intros (Hc & Hg & Hh & Hp & sub & Hph & He) Hx. unfold Follower.exec in Hx. rewrite Hph in Hx.
    destruct e as [chunk|]; simpl in Hx, He; rewrite ?app_nil_r in He.
    + destruct (items sub) eqn:Hit; [|done].
      destruct (expects_chunk g final chunk rest _ sub Hit He) as (sub' & Hr & He').
      unfold receive in Hr. destruct (push (sse sub) chunk) as [[p1 i1]|]; [|done].
      injection Hr as <-. simplify_eq. split_and!; try done. eexists. split; [done|]. by rewrite Hit in He'.
    + destruct (next_item sub) as [[item sub']|] eqn:Hn; simpl in Hx; [|done].
      destruct (expects_item g final _ _ sub item sub' Hn He) as [[-> He']|(s & -> & Hgs & He')];
        unfold read_item in Hx.
      * simplify_eq. split_and!; try done. eexists. by split.
      * unfold accept_state in Hx. rewrite bool_decide_false in Hx by (intros Hne; apply Hne; congruence).
        simplify_eq. destruct (publish_hint_tracks s (hints f)). split_and!; try done. eexists. by split.
Qed.

Lemma client_run_inv g final es tail c c' :
  client_inv g final (received es ++ tail) c → run_actions client_exec c es = Some c' →
  client_inv g final tail c'.
Proof.
  revert c. induction es as [|e es IH]; intros c Hc Hrun; simpl in Hrun; [by simplify_eq|].
  destruct (client_exec c e) as [c1| |] eqn:Hx; [|done..].
  apply (IH c1); [|done]. eapply (client_step_inv g final e); [|done].
  rewrite app_assoc. by destruct e; simpl in *; rewrite ?app_nil_r.
Qed.

Lemma expects_end g final acc sub : items sub = [] → expects g final [] acc sub → acc = Some final.
Proof. intros He (p & more & Hp & _ & Hl). rewrite He in Hl. cbn in Hp. injection Hp as _ <-. done. Qed.

(** Generations are minted by [generate] or accepted by [parse]. *)
Definition action_minted (a : server_action) : Prop :=
  match a with Publishes (Some r) => minted r | _ => True end.

Definition server_minted (sv : Server) : Prop :=
  minted_state (snapshot sv) ∧ ∀ i st, streams sv !! i = Some st → Forall frame_minted (emitted st).

Lemma stream_step_minted sv st e st' :
  minted_state (snapshot sv) → Forall frame_minted (emitted st) → stream_step sv st e = Some st' →
  Forall frame_minted (emitted st').
Proof.
  intros Hm Hf Hs. destruct st as [p subs v w]. unfold emitted in *; simpl in *.
  destruct p, e; simplify_eq/=; repeat case_match; simplify_eq/=; rewrite ?app_nil_r in *; auto;
    try (apply Forall_app; split; [|by constructor]); auto; by apply Forall_app in Hf as [].
Qed.

Lemma server_step_minted sv a sv' :
  server_minted sv → action_minted a → server_exec sv a = Steps sv' → server_minted sv'.
Proof.
  intros [Hm Hf] Ha Hx. destruct a as [r| |i|i e]; unfold server_exec, set_replacement_generation in Hx.
  - simplify_eq/=. split; [|done]. simpl. split; [exact (proj1 Hm)|]. simpl.
    unfold filter_other. intros r0 Hr. destruct r as [r|]; simpl in Hr; [|done]. case_bool_decide; simplify_eq. done.
  - by simplify_eq/=.
  - case_match; simplify_eq. split; [done|]. simpl.
    intros j st [[<- <-]|[_ Hj]]%lookup_insert_Some; [by constructor|by eauto].
  - destruct (streams sv !! i) as [st|] eqn:E; simpl in Hx; [|done].
    destruct (stream_step sv st e) as [st'|] eqn:Es; simplify_eq. split; [done|]. simpl.
    intros j st0 [[<- <-]|[_ Hj]]%lookup_insert_Some; [|by eauto].
    eapply stream_step_minted; eauto.
Qed.

Lemma server_reachable_minted g acts sv :
  minted g → Forall action_minted acts → run_actions server_exec (serve g) acts = Some sv → server_minted sv.
Proof.
  intros Hg Hacts. assert (server_minted (serve g)) as Hs by (by split; [split|]).
  revert Hs. generalize (serve g). induction Hacts as [|a acts Ha _ IH]; intros s Hs Hrun; simpl in Hrun;
    [by simplify_eq|].
  destruct (server_exec s a) as [s1| |] eqn:Hx; [|done..]. apply (IH s1); [|done].
  by eapply server_step_minted.
Qed.

(** C8: The replacement hint crosses the event stream.  Take any history of the Server's
    published hints and subscriptions, any subscription that is waiting for a change, and a
    Client that passed its response check and reads that subscription's bytes, cut into chunks
    in any way and mixed with its own reads in any order.  The Client never gives the
    connection up; and when it has read everything, its state is the last snapshot written,
    its hint is that snapshot's replacement, unpaused; this is the Server's current snapshot
    if the subscription has seen the current version, and else one more frame makes it so. *)
Theorem event_stream_converges g acts sv i st es tail c :
  minted g → Forall action_minted acts →
  run_actions server_exec (serve g) acts = Some sv → streams sv !! i = Some st →
  stream_phase st = Selecting → received es ++ tail = sent (written st) →
  run_actions client_exec gate es = Some c →
  c ≠ GaveUp
  ∧ (tail = [] → client_exec c WireItem = Disabled →
     ∃ f, c = Live f ∧ connection f = Open ∧ last_snapshot (written st) = Some (state f)
          ∧ hint_generation (hint (hints f)) = hinted_replacement (state f)
          ∧ paused (hint (hints f)) = false
          ∧ (seen_version st = version sv → state f = snapshot sv))
  ∧ (seen_version st = version sv
     ∨ ∃ sv' st', run_actions server_exec sv [StreamStep i SeesSnapshot; StreamStep i FrameWritten] = Some sv'
         ∧ streams sv' !! i = Some st' ∧ stream_phase st' = Selecting
         ∧ written st' = written st ++ [SnapshotFrame (snapshot sv')]
         ∧ seen_version st' = version sv').
Proof.
  intros Hg Hacts Hrun Hst Hsel Hb Hc.
  destruct (source_reachable_inv g acts sv Hrun) as [(_ & _ & Hinv) Hgs].
  destruct (server_reachable_minted g acts sv Hg Hacts Hrun) as [_ Hm].
  specialize (Hinv i st Hst). specialize (Hm i st Hst).
  assert (emitted st = written st) as Hem by (unfold emitted; rewrite Hsel; apply app_nil_r).
  destruct Hinv as [_ _ Hok _ Hcur Hfirst]. rewrite Hem in *. rewrite Hsel in *. rewrite Hgs in Hok.
  destruct (Hfirst eq_refl) as [final Hfin].
  assert (client_inv g final tail c) as Hci.
  { apply (client_run_inv g final es tail gate c); [|done]. eexists. split; [done|].
    rewrite Hb. destruct (frames_read g (written st) None Hok Hm) as [Hi Hl].
    eexists _, _. split; [apply push_frames|]. change (items fresh_subscription) with (@nil SseParseItem). cbn [app].
    rewrite Hl, Hfin. done. }
  split_and!.
  - by intros ->.
  - intros -> Hd. destruct c as [st0|f|]; [..|done].
    + destruct Hci as (sub & -> & He). exfalso. cbn in Hd. unfold next_item in Hd.
      destruct (items sub) eqn:Hit; [by apply (expects_end _ _ _ _ Hit) in He|].
      cbn in Hd. repeat case_match; done.
    + destruct Hci as (Hop & _ & Hh & Hp & sub & Hph & He). exists f. cbn in Hd. rewrite Hph in Hd.
      unfold next_item in Hd. destruct (items sub) eqn:Hit; [|done].
      apply (expects_end _ _ _ _ Hit) in He. injection He as He. split_and!; try done; [congruence|].
      intros Hv. specialize (Hcur eq_refl Hv). congruence.
  - destruct (decide (seen_version st = version sv)) as [|Hne]; [by left|right].
    destruct st as [p subs v w]; simpl in *; subst p. cbn. rewrite Hst. cbn.
    rewrite (proj2 (Z.eqb_neq _ _) Hne). cbn. rewrite lookup_insert_eq. cbn.
    eexists _, _. split; [done|]. cbn. split; [apply lookup_insert_eq|]. done.
Qed.

End Delivery.

(** A stream that watches the count, which has moved on. *)
Definition overtaken (i : Z) (sv : Server) : Prop :=
  ∀ st, streams sv !! i = Some st → stream_phase st ≠ Counted ∧ seen_subscriptions st < subscriptions sv.

Lemma overtaken_step i sv a sv' :
  is_Some (streams sv !! i) → overtaken i sv → server_exec sv a = Steps sv' →
  is_Some (streams sv' !! i) ∧ overtaken i sv'.
Proof.
  intros [st Hst] Ho Hx. destruct (Ho st Hst) as [Hc Hlt]. unfold overtaken.
  destruct a as [r| |j|j e]; unfold server_exec in Hx.
  - destruct (set_replacement_generation r (snapshot sv)). simplify_eq. simpl. eauto.
  - simplify_eq. simpl. eauto.
  - destruct (streams sv !! j) eqn:Hj; simplify_eq. simpl. rewrite lookup_insert_ne by congruence.
    split; [by eauto|]. intros st' Hst'. rewrite Hst in Hst'. simplify_eq. split; [done|lia].
  - destruct (streams sv !! j) as [sj|] eqn:Hj; simpl in Hx; [|done].
    destruct (stream_step sv sj e) as [sj'|] eqn:Hs; simplify_eq. simpl.
    destruct (decide (j = i)) as [->|Hne]; [|rewrite lookup_insert_ne by done; eauto].
    rewrite lookup_insert_eq. split; [by eauto|]. intros ? [= <-]. rewrite Hst in Hj. simplify_eq.
    destruct sj as [p subs v w]; simpl in *. destruct p, e; repeat case_match; simplify_eq/=; done.
Qed.

(** A newer subscription ends an older one.  Once a subscription watches the count of
    subscriptions, a subscription that starts afterwards makes the older one finish with FIN as
    soon as it waits again, whatever else happens in between: the step stays enabled until it
    is taken. *)
Theorem superseded_ends_stream g acts sv i st j sv1 acts' sv2 st2 :
  run_actions server_exec (serve g) acts = Some sv → streams sv !! i = Some st →
  stream_phase st ≠ Counted → server_exec sv (Subscribe j) = Steps sv1 →
  run_actions server_exec sv1 acts' = Some sv2 → streams sv2 !! i = Some st2 →
  stream_phase st2 = Selecting →
  stream_step sv2 st2 SeesSuperseded
  = Some (mkStream Finishing (seen_subscriptions st2) (seen_version st2) (written st2)).
Proof.
  intros Hrun Hst Hnc Hsub Hrun' Hst2 Hsel.
  destruct (source_reachable_inv g acts sv Hrun) as [(_ & _ & Hinv) _].
  assert (is_Some (streams sv1 !! i) ∧ overtaken i sv1) as Ho.
  { unfold server_exec in Hsub. destruct (streams sv !! j) eqn:Hj; simplify_eq.
    unfold overtaken. simpl. rewrite lookup_insert_ne by congruence. split; [by eauto|].
    intros st' Hst'. rewrite Hst in Hst'. simplify_eq.
    split; [done|]. pose proof (subs_le sv st' (Hinv i st' Hst)). lia. }
  assert (is_Some (streams sv2 !! i) ∧ overtaken i sv2) as [_ Ho2].
  { apply (run_actions_invariant server_exec (λ s, is_Some (streams s !! i) ∧ overtaken i s) acts' sv1);
      [|done..]. intros s a s' [Hsome Hs] Hx. by eapply overtaken_step. }
  destruct (Ho2 st2 Hst2) as [_ Hlt]. destruct st2 as [p subs v w]; simpl in *. subst p.
  by rewrite (proj2 (Z.eqb_neq _ _)) by lia.
Qed.

End Streaming.

(** ** A concrete stream *)

Import ToyWire.

Definition toy_serve (acts : list (server_action (U := bool))) : Server (U := bool) :=
  default (serve true) (run_actions server_exec (serve true) acts).
Definition toy_subscribe (i : Z) : list (server_action (U := bool)) :=
  [Subscribe i; StreamStep i Watches; StreamStep i Encodes; StreamStep i ResponseWritten;
   StreamStep i FrameWritten].
Definition toy_published : list (server_action (U := bool)) :=
  toy_subscribe 1 ++ [StreamStep 1 Ticks; Publishes (Some false); Publishes None; Publishes (Some false);
    StreamStep 1 FrameWritten; StreamStep 1 SeesSnapshot; StreamStep 1 FrameWritten].
Definition toy_stream : Stream (U := bool) :=
  default (mkStream Counted 0 0 []) (streams (toy_serve toy_published) !! 1).
Definition toy_wire : list WireEvent :=
  [WireChunk (take 20 (sent (written toy_stream))); WireChunk (drop 20 (sent (written toy_stream)));
   WireItem; WireItem; WireItem; WireItem].

Definition toy_client : Client (U := bool) := default GaveUp (run_actions client_exec gate toy_wire).

Lemma event_stream_converges_witness :
  ∃ f, toy_client = Live f ∧ hint_generation (hint (hints f)) = Some false
       ∧ state f = snapshot (toy_serve toy_published).
Proof.
  destruct (event_stream_converges true toy_published (toy_serve toy_published) 1 toy_stream toy_wire [] toy_client)
    as (_ & Hf & _); [done|by repeat constructor|vm_compute; reflexivity|vm_compute; reflexivity
    |vm_compute; reflexivity|vm_compute; reflexivity|vm_compute; reflexivity|].
  destruct Hf as (f & Hf & _ & _ & Hh & _ & Hs); [done|vm_compute; reflexivity|].
  exists f. rewrite Hh, Hs by (vm_compute; reflexivity). split_and!; [exact Hf|vm_compute; reflexivity|reflexivity].
Defined.

Lemma superseded_ends_stream_witness :
  ∃ st st', streams (toy_serve (toy_subscribe 1 ++ toy_subscribe 2)) !! 1 = Some st
            ∧ stream_step (toy_serve (toy_subscribe 1 ++ toy_subscribe 2)) st SeesSuperseded = Some st'
            ∧ stream_phase st' = Finishing.
Proof.
  set (st := default (mkStream Counted 0 0 []) (streams (toy_serve (toy_subscribe 1)) !! 1)).
  exists st. eexists. split; [vm_compute; reflexivity|]. split; [|shelve].
  apply (superseded_ends_stream true (toy_subscribe 1) (toy_serve (toy_subscribe 1)) 1 st 2
           (toy_serve (toy_subscribe 1 ++ [Subscribe 2])) (tail (toy_subscribe 2))); try (vm_compute; reflexivity).
  by vm_compute.
  Unshelve. reflexivity.
Defined.

(** Two subscriptions of one connection that start at the same time: each counts itself before
    either watches the count, so the older one sees no newer subscription.  Both keep
    streaming until a third one starts. *)
Theorem supersession_missed :
  let sv := toy_serve [Subscribe 1; Subscribe 2; StreamStep 1 Watches; StreamStep 2 Watches;
              StreamStep 1 Encodes; StreamStep 1 ResponseWritten; StreamStep 1 FrameWritten;
              StreamStep 2 Encodes; StreamStep 2 ResponseWritten; StreamStep 2 FrameWritten] in
  ∃ st1 st2, streams sv !! 1 = Some st1 ∧ streams sv !! 2 = Some st2
    ∧ stream_phase st1 = Selecting ∧ stream_phase st2 = Selecting
    ∧ stream_step sv st1 SeesSuperseded = None ∧ stream_step sv st2 SeesSuperseded = None.
Proof. eexists _, _. split_and!; vm_compute; reflexivity. Qed.
