(* ===== verification/TunnelServer.v ===== *)
(** * TunnelServer: the Server's side of a Tunnel connection

    One HTTP/3 connection on the Server ([src/tunnel/server.rs]): Visitor opens
    ([open_visitor_stream]), the request handlers ([handle_request], [serve_withdrawal]), the
    accept loop with GOAWAY and DRAIN ([serve_connection], [send_goaway]) and the
    post-quiescence close ([close_after_quiescence]).  The event streams
    ([serve_events]) are in [EventStream].

    All of them run concurrently; every step below is one atomic operation on the shared
    [watch] channels, or an await.  Placing a Visitor reads [withdrawn] under the channel's
    lock, so it is one step with respect to the commit of a withdrawal. *)

From Stdlib Require Import String Ascii ZArith Lia.
From stdpp Require Import base numbers gmap list.
From S2P Require Import Prelude Sse Http.
Import Signaling.

Open Scope Z_scope.

(** ** State *)

(** The flags of [Shared]; [session] tells whether a session was published, [closed] whether
    the connection has a close reason. *)
Record Flags := mkFlags {
  goaway : bool;
  withdrawn : bool;
  confirmed : bool;
  session : bool;
  closed : bool
}.

(** How a Visitor open ended. *)
Inductive OpenOutcome := Served | TimedOut | Closed.

(** One call of [open_visitor_stream] and the stream it returns: the three reads of
    [accepts_visitors]; the two counters of [VisitorWork]; waiting for the session and for
    credit; the stream opened; GOAWAY read as false; the Visitor placed; the two counters
    dropped in field order. *)
Inductive Opening :=
| AskWithdrawn
| AskGoaway
| AskOpen
| Starting
| CountedRequest
| Waiting
| Opened
| Unrefused
| Placed
| Dropping (o : OpenOutcome)
| DroppedRequest (o : OpenOutcome)
| Finished (o : OpenOutcome).

(** One request: resolving its headers; answering with a status or serving events; the
    WebTransport CONNECT; reading a withdrawal; its waiter registered; the withdrawal
    committed; quiescence seen and the [204] being sent; sent or not; the waiter and then the
    request counter being dropped. *)
Inductive Handling :=
| Resolving (admitted : bool)
| Serving
| Accepting
| Publishing
| InSession
| ReadingWithdrawal (headers : Field.HeaderMap)
| Registered
| Quiescing
| Confirming
| Answered (sent : bool)
| Unregistering
| Releasing
| Done.

(** [close_after_quiescence]. *)
Inductive CloseTimer := AwaitWithdrawn | AwaitQuiescence | AwaitConfirmation | Counting | Fired.

Record Tunnel := mkTunnel {
  flags : Flags;
  visitor_work : Z;
  requests_in_flight : Z;
  withdrawal_waiters : Z;
  opens : gmap Z Opening;
  requests : gmap Z Handling;
  shutting_down : bool;
  drain_sent : bool;
  running : bool;
  timer : CloseTimer
}.

Definition establish : Tunnel :=
  mkTunnel (mkFlags false false false false false) 0 0 0 ∅ ∅ false false true AwaitWithdrawn.

Definition with_goaway (fl : Flags) : Flags := mkFlags true (withdrawn fl) (confirmed fl) (session fl) (closed fl).
Definition with_withdrawn (fl : Flags) : Flags := mkFlags (goaway fl) true (confirmed fl) (session fl) (closed fl).
Definition with_confirmed (fl : Flags) : Flags := mkFlags (goaway fl) (withdrawn fl) true (session fl) (closed fl).
Definition with_session (fl : Flags) : Flags := mkFlags (goaway fl) (withdrawn fl) (confirmed fl) true (closed fl).
Definition with_closed (fl : Flags) : Flags := mkFlags (goaway fl) (withdrawn fl) (confirmed fl) (session fl) true.

(** [accepts_visitors] as the registry reads it. *)
Definition accepts_visitors (fl : Flags) : bool := negb (withdrawn fl) && negb (goaway fl) && negb (closed fl).
Definition has_open_session (fl : Flags) : bool := session fl && negb (closed fl).

(** ** Visitor opens *)

Inductive OpenEvent :=
| Proceeds
| StreamOpens
| OpenFails
| Deadline
| SeesClosed
| SeesGoaway
| SeesWithdrawn
| StreamDropped.

(** The next phase, with what it adds to [visitor_work] and [requests_in_flight]. *)
Definition open_step (fl : Flags) (o : Opening) (e : OpenEvent) : option (Opening * Z * Z) :=
  match o, e with
  | AskWithdrawn, Proceeds => Some (if withdrawn fl then Finished Closed else AskGoaway, 0, 0)
  | AskGoaway, Proceeds => Some (if goaway fl then Finished Closed else AskOpen, 0, 0)
  | AskOpen, Proceeds => Some (if closed fl then Finished Closed else Starting, 0, 0)
  | Starting, Proceeds => Some (CountedRequest, 0, 1)
  | CountedRequest, Proceeds => Some (Waiting, 1, 0)
  | Waiting, StreamOpens => if session fl then Some (Opened, 0, 0) else None
  | Waiting, OpenFails => if session fl then Some (Dropping Closed, 0, 0) else None
  | Waiting, Deadline => Some (Dropping TimedOut, 0, 0)
  | Waiting, SeesClosed => if closed fl then Some (Dropping Closed, 0, 0) else None
  | Waiting, SeesGoaway => if goaway fl then Some (Dropping Closed, 0, 0) else None
  | Waiting, SeesWithdrawn => if withdrawn fl then Some (Dropping Closed, 0, 0) else None
  | Opened, Proceeds => Some (if goaway fl then Dropping Closed else Unrefused, 0, 0)
  | Unrefused, Proceeds => Some (if withdrawn fl then Dropping Closed else Placed, 0, 0)
  | Placed, StreamDropped => Some (Dropping Served, 0, 0)
  | Dropping o, Proceeds => Some (DroppedRequest o, 0, -1)
  | DroppedRequest o, Proceeds => Some (Finished o, -1, 0)
  | _, _ => None
  end.

(** ** Requests *)

Inductive RequestEvent :=
| ResolveFails
| Resolved (r : Request)
| ServingEnds
| AcceptFails
| Accepts
| Publishes
| SessionEnds
| Intake (i : option (result unit BodylessRequest))
| Commits
| SeesQuiescence
| Sends (completed : bool)
| Notes
| DropsWaiter
| DropsRequest
| Aborted.

(** [handle_request] routes an admitted request. *)
Definition dispatch (server_hostname : bytes) (r : Request) : Handling :=
  match route r server_hostname with
  | Session => Accepting
  | Withdrawal => ReadingWithdrawal (headers r)
  | _ => Serving
  end.

(** The handlers are aborted with the accept loop; an abort takes effect at an await. *)
Definition aborted (h : Handling) : option Handling :=
  match h with
  | Resolving _ | Serving | Accepting | ReadingWithdrawal _ => Some Releasing
  | InSession => Some Done
  | Quiescing | Confirming => Some Unregistering
  | _ => None
  end.

(** The next phase and flags, with what it adds to [requests_in_flight] and
    [withdrawal_waiters]. *)
Definition request_step (server_hostname : bytes) (running : bool) (work : Z) (fl : Flags) (h : Handling)
    (e : RequestEvent) : option (Handling * Flags * Z * Z) :=
  match h, e with
  | Resolving _, ResolveFails => Some (Releasing, fl, 0, 0)
  | Resolving admitted, Resolved r =>
      Some (if admitted then dispatch server_hostname r else Releasing, fl, 0, 0)
  | Serving, ServingEnds => Some (Releasing, fl, 0, 0)
  | Accepting, AcceptFails => Some (Done, fl, -1, 0)
  | Accepting, Accepts => Some (Publishing, fl, -1, 0)
  | Publishing, Publishes => Some (InSession, with_session fl, 0, 0)
  | InSession, SessionEnds => Some (Done, with_closed fl, 0, 0)
  | ReadingWithdrawal headers, Intake i =>
      match bodyless_reply headers i with
      | Serve => Some (Registered, fl, 0, 1)
      | Answer _ => Some (Serving, fl, 0, 0)
      | ResetMalformed | Abandoned => Some (Releasing, fl, 0, 0)
      end
  | Registered, Commits => Some (Quiescing, with_withdrawn fl, 0, 0)
  | Quiescing, SeesQuiescence => if work =? 0 then Some (Confirming, fl, 0, 0) else None
  | Confirming, Sends completed => Some (Answered completed, fl, 0, 0)
  | Answered completed, Notes => Some (Unregistering, if completed then with_confirmed fl else fl, 0, 0)
  | Unregistering, DropsWaiter => Some (Releasing, fl, 0, -1)
  | Releasing, DropsRequest => Some (Done, fl, -1, 0)
  | _, Aborted => if running then None else h' ← aborted h; Some (h', fl, 0, 0)
  | _, _ => None
  end.

(** ** The machine *)

Inductive action :=
| BeginOpen (i : Z)
| OpenStep (i : Z) (e : OpenEvent)
| AcceptRequest (i : Z)
| RequestStep (i : Z) (e : RequestEvent)
| BeginShutdown
| SendDrain (accepted : bool)
| TimerStep
| LoopEnds
| Closes.

Definition set_open (i : Z) (o : Opening) (work req : Z) (s : Tunnel) : next Tunnel :=
  if (visitor_work s + work <? 0) || (requests_in_flight s + req <? 0) then Panics
  else Steps (mkTunnel (flags s) (visitor_work s + work) (requests_in_flight s + req) (withdrawal_waiters s)
                (<[i := o]> (opens s)) (requests s) (shutting_down s) (drain_sent s) (running s) (timer s)).

Definition set_request (i : Z) (h : Handling) (fl : Flags) (req waiters : Z) (s : Tunnel) : next Tunnel :=
  if (requests_in_flight s + req <? 0) || (withdrawal_waiters s + waiters <? 0) then Panics
  else Steps (mkTunnel fl (visitor_work s) (requests_in_flight s + req) (withdrawal_waiters s + waiters)
                (opens s) (<[i := h]> (requests s)) (shutting_down s) (drain_sent s) (running s) (timer s)).

Definition set_driver (fl : Flags) (shutting drain run : bool) (t : CloseTimer) (s : Tunnel) : Tunnel :=
  mkTunnel fl (visitor_work s) (requests_in_flight s) (withdrawal_waiters s) (opens s) (requests s)
    shutting drain run t.

(** One await of [close_after_quiescence], which runs inside the accept loop. *)
Definition timer_step (s : Tunnel) : option CloseTimer :=
  match timer s with
  | AwaitWithdrawn => if withdrawn (flags s) then Some AwaitQuiescence else None
  | AwaitQuiescence => if visitor_work s =? 0 then Some AwaitConfirmation else None
  | AwaitConfirmation =>
      if confirmed (flags s) || (withdrawal_waiters s =? 0) then Some Counting else None
  | Counting => Some Fired
  | Fired => None
  end.

(** The accept loop breaks: the connection closed or failed, the timer fired, DRAIN could not
    be sent.  It then closes the connection. *)
Definition loop_ends (s : Tunnel) : Tunnel :=
  set_driver (with_closed (flags s)) (shutting_down s) (drain_sent s) false (timer s) s.

Definition exec (server_hostname : bytes) (s : Tunnel) (a : action) : next Tunnel :=
  match a with
  | BeginOpen i => match opens s !! i with None => set_open i AskWithdrawn 0 0 s | Some _ => Disabled end
  | OpenStep i e =>
      match (o ← opens s !! i; open_step (flags s) o e) with
      | Some (o', work, req) => set_open i o' work req s
      | None => Disabled
      end
  | AcceptRequest i =>
      match requests s !! i with
      | None =>
          if running s then set_request i (Resolving (negb (shutting_down s))) (flags s) 1 0 s else Disabled
      | Some _ => Disabled
      end
  | RequestStep i e =>
      match (h ← requests s !! i; request_step server_hostname (running s) (visitor_work s) (flags s) h e) with
      | Some (h', fl, req, waiters) => set_request i h' fl req waiters s
      | None => Disabled
      end
  | BeginShutdown =>
      if running s && negb (shutting_down s)
      then Steps (set_driver (with_goaway (flags s)) true (drain_sent s) (running s) (timer s) s)
      else Disabled
  | SendDrain accepted =>
      if running s && shutting_down s && negb (drain_sent s) && (requests_in_flight s =? 0) then
        let s' := set_driver (flags s) true true (running s) (timer s) s in
        Steps (if session (flags s) && accepted then s' else loop_ends s')
      else Disabled
  | TimerStep =>
      if running s then
        match timer_step s with
        | Some Fired =>
            Steps (loop_ends (set_driver (flags s) (shutting_down s) (drain_sent s) (running s) Fired s))
        | Some t => Steps (set_driver (flags s) (shutting_down s) (drain_sent s) (running s) t s)
        | None => Disabled
        end
      else Disabled
  | LoopEnds => if running s then Steps (loop_ends s) else Disabled
  | Closes =>
      Steps (set_driver (with_closed (flags s)) (shutting_down s) (drain_sent s) (running s) (timer s) s)
  end.

(** ** What the counters count *)

Definition in_work (o : Opening) : Z :=
  match o with Waiting | Opened | Unrefused | Placed | Dropping _ | DroppedRequest _ => 1 | _ => 0 end.
Definition in_request (o : Opening) : Z :=
  match o with CountedRequest | Waiting | Opened | Unrefused | Placed | Dropping _ => 1 | _ => 0 end.
Definition in_flight (h : Handling) : Z :=
  match h with Publishing | InSession | Done => 0 | _ => 1 end.
Definition in_wait (h : Handling) : Z :=
  match h with Registered | Quiescing | Confirming | Answered _ | Unregistering => 1 | _ => 0 end.

(** Steps an opening still has to take. *)
Definition rank (o : Opening) : Z :=
  match o with
  | AskWithdrawn => 11 | AskGoaway => 10 | AskOpen => 9 | Starting => 8 | CountedRequest => 7
  | Waiting => 6 | Opened => 5 | Unrefused => 4 | Placed => 3 | Dropping _ => 2 | DroppedRequest _ => 1
  | Finished _ => 0
  end.

(** The phases after the commit, and after quiescence was seen. *)
Definition committed (h : Handling) : bool :=
  match h with Quiescing | Confirming | Answered _ | Unregistering => true | _ => false end.
Definition confirming (h : Handling) : bool :=
  match h with Confirming | Answered _ => true | _ => false end.
Definition timer_quiesced (t : CloseTimer) : bool :=
  match t with AwaitConfirmation | Counting | Fired => true | _ => false end.

(** Some part of the connection acts on the quiescence it has seen: a [204] is being sent or
    was sent, or the post-quiescence time runs. *)
Definition past_quiescence (s : Tunnel) : Prop :=
  confirmed (flags s) = true ∨ timer_quiesced (timer s) = true
  ∨ ∃ i h, requests s !! i = Some h ∧ confirming h = true.

Definition nobody_placed (s : Tunnel) : Prop := ∀ i, opens s !! i ≠ Some Placed.

Definition sealed (s : Tunnel) : Prop := withdrawn (flags s) = true ∧ nobody_placed s.
Definition drained (s : Tunnel) : Prop :=
  goaway (flags s) = true ∧ nobody_placed s ∧ ∀ i, opens s !! i ≠ Some Unrefused.

Record tunnel_inv (s : Tunnel) : Prop := {
  work_exact : visitor_work s = sum_map in_work (opens s);
  in_flight_exact : requests_in_flight s = sum_map in_request (opens s) + sum_map in_flight (requests s);
  waiters_exact : withdrawal_waiters s = sum_map in_wait (requests s);
  commits_first : ∀ i h, requests s !! i = Some h → committed h = true → withdrawn (flags s) = true;
  timer_commits : timer s ≠ AwaitWithdrawn → withdrawn (flags s) = true;
  goaway_published : goaway (flags s) = shutting_down s;
  quiescence_sealed : past_quiescence s → sealed s;
  drain_sealed : drain_sent s = true → drained s
}.

(** ** Lemmas *)

Lemma in_work_nonneg (m : gmap Z Opening) : 0 ≤ sum_map in_work m.
Proof. apply sum_map_nonneg. intros _ o _. destruct o; simpl; lia. Qed.
Lemma in_request_nonneg (m : gmap Z Opening) : 0 ≤ sum_map in_request m.
Proof. apply sum_map_nonneg. intros _ o _. destruct o; simpl; lia. Qed.
Lemma in_flight_nonneg (m : gmap Z Handling) : 0 ≤ sum_map in_flight m.
Proof. apply sum_map_nonneg. intros _ h _. destruct h; simpl; lia. Qed.
Lemma in_wait_nonneg (m : gmap Z Handling) : 0 ≤ sum_map in_wait m.
Proof. apply sum_map_nonneg. intros _ h _. destruct h; simpl; lia. Qed.

Lemma work_zero_unplaced (m : gmap Z Opening) : sum_map in_work m = 0 → ∀ i o, m !! i = Some o → in_work o = 0.
Proof. intros Hz. apply sum_map_zero; [|done]. intros _ o _. destruct o; simpl; lia. Qed.

Lemma request_zero_idle (m : gmap Z Opening) : sum_map in_request m = 0 → ∀ i o, m !! i = Some o → in_request o = 0.
Proof. intros Hz. apply sum_map_zero; [|done]. intros _ o _. destruct o; simpl; lia. Qed.

Lemma open_step_counts fl o e o' work req :
  open_step fl o e = Some (o', work, req) →
  work = in_work o' - in_work o ∧ req = in_request o' - in_request o ∧ rank o' < rank o.
Proof.
  destruct o, e; simpl; intros Hs; repeat case_match; simplify_eq; simpl; lia.
Qed.

Lemma open_step_placed fl o e work req :
  open_step fl o e = Some (Placed, work, req) → withdrawn fl = false ∧ o = Unrefused.
Proof. destruct o, e; simpl; intros Hs; repeat case_match; simplify_eq; auto. Qed.

Lemma open_step_unrefused fl o e work req :
  open_step fl o e = Some (Unrefused, work, req) → goaway fl = false.
Proof. destruct o, e; simpl; intros Hs; repeat case_match; simplify_eq; auto. Qed.

Lemma dispatch_counts host r :
  in_flight (dispatch host r) = 1 ∧ in_wait (dispatch host r) = 0
  ∧ committed (dispatch host r) = false ∧ confirming (dispatch host r) = false.
Proof. unfold dispatch. by case_match. Qed.

Lemma request_step_counts host run work fl h e h' fl' req waiters :
  request_step host run work fl h e = Some (h', fl', req, waiters) →
  req = in_flight h' - in_flight h ∧ waiters = in_wait h' - in_wait h.
Proof.
  pose proof (dispatch_counts host) as Hd.
  destruct h, e; simpl; intros Hs; repeat case_match; simplify_eq/=; try lia;
    match goal with |- context [dispatch host ?r] => destruct (Hd r) as (-> & -> & _) end; lia.
Qed.

(** Flags are only ever raised by a request; [goaway] is not its to raise. *)
Lemma request_step_flags host run work fl h e h' fl' req waiters :
  request_step host run work fl h e = Some (h', fl', req, waiters) →
  goaway fl' = goaway fl ∧ (withdrawn fl = true → withdrawn fl' = true)
  ∧ (committed h' = true → committed h = true ∨ withdrawn fl' = true)
  ∧ (confirming h' = true → confirming h = true ∨ work = 0 ∧ committed h = true)
  ∧ (confirmed fl' = true → confirmed fl = true ∨ confirming h = true).
Proof.
  pose proof (dispatch_counts host) as Hd.
  destruct h, e; simpl; intros Hs; repeat case_match; simplify_eq/=; auto 6;
    try match goal with |- context [dispatch host ?r] => destruct (Hd r) as (_ & _ & -> & ->) end; auto 6.
  match goal with Hw : (_ =? 0) = true |- _ => apply Z.eqb_eq in Hw end. naive_solver.
Qed.

Lemma nobody_placed_insert s i o :
  nobody_placed s → o ≠ Placed → ∀ j, <[i := o]> (opens s) !! j ≠ Some Placed.
Proof. intros Hn Ho j [[_ ?]|[_ Hj]]%lookup_insert_Some; [done|by apply (Hn j)]. Qed.

Lemma establish_inv : tunnel_inv establish.
Proof.
  split; simpl; try done.
  intros [?|[?|(i & h & Hi & _)]]; done.
Qed.

(** A step of an opening, the opening's new phase aside. *)
Lemma set_open_inv s i o o' work req :
  tunnel_inv s →
  (opens s !! i = Some o ∨ opens s !! i = None ∧ in_work o = 0 ∧ in_request o = 0) →
  work = in_work o' - in_work o → req = in_request o' - in_request o →
  (o' = Placed → withdrawn (flags s) = false ∧ o = Unrefused) →
  (o' = Unrefused → goaway (flags s) = false) →
  (o = Unrefused → opens s !! i = Some o) →
  ∃ s', set_open i o' work req s = Steps s' ∧ tunnel_inv s'.
Proof.
  intros Hs Ho -> -> Hp Hu Hold. destruct (Hs) as [Hw Hf Hwt Hc Ht Hg Hq Hd].
  assert (sum_map in_work (<[i := o']> (opens s)) = sum_map in_work (opens s) - in_work o + in_work o'
          ∧ sum_map in_request (<[i := o']> (opens s))
            = sum_map in_request (opens s) - in_request o + in_request o') as [Hsw Hsr].
  { destruct Ho as [Ho|(Ho & Hz & Hz')]; [by rewrite !(sum_map_update _ _ _ _ _ Ho)|].
    rewrite !sum_map_insert_fresh by done. lia. }
  pose proof (in_work_nonneg (<[i := o']> (opens s))).
  pose proof (in_request_nonneg (<[i := o']> (opens s))).
  pose proof (in_flight_nonneg (requests s)).
  unfold set_open. rewrite (proj2 (Z.ltb_ge _ _)), (proj2 (Z.ltb_ge _ _)) by lia. simpl.
  eexists; split; [done|]. split; simpl; try done; try lia.
  - intros Hpq. destruct (Hq Hpq) as [Hwd Hn]. split; [done|]. simpl.
    intros j; simpl; apply nobody_placed_insert; [done|]. intros Hpl. apply Hp in Hpl as [? _]. congruence.
  - intros Hds. destruct (Hd Hds) as (Hga & Hn & Hun). split_and!; [done|..]; simpl.
    + intros j; simpl; apply nobody_placed_insert; [done|]. intros Hpl. apply Hp in Hpl as [_ ->].
      by apply (Hun i), Hold.
    + intros j [[_ Hj]|[_ Hj]]%lookup_insert_Some; [|by apply (Hun j)].
      apply Hu in Hj. congruence.
Qed.

Lemma quiet_sealed s : tunnel_inv s → withdrawn (flags s) = true → visitor_work s = 0 → sealed s.
Proof.
  intros Hs Hw Hz. split; [done|]. intros i Hi. rewrite (work_exact s Hs) in Hz.
  by apply (work_zero_unplaced _ Hz) in Hi.
Qed.

Lemma idle_drained s : tunnel_inv s → goaway (flags s) = true → requests_in_flight s = 0 → drained s.
Proof.
  intros Hs Hg Hz. rewrite (in_flight_exact s Hs) in Hz.
  pose proof (in_request_nonneg (opens s)). pose proof (in_flight_nonneg (requests s)).
  assert (sum_map in_request (opens s) = 0) as Hr by lia.
  split_and!; [done|..]; intros i Hi; by apply (request_zero_idle _ Hr) in Hi.
Qed.

(** A step of a request. *)
Lemma set_request_inv s i h h' fl req waiters :
  tunnel_inv s →
  (requests s !! i = Some h ∨ requests s !! i = None ∧ in_flight h = 0 ∧ in_wait h = 0 ∧ committed h = false) →
  req = in_flight h' - in_flight h → waiters = in_wait h' - in_wait h →
  goaway fl = goaway (flags s) → (withdrawn (flags s) = true → withdrawn fl = true) →
  (committed h' = true → committed h = true ∨ withdrawn fl = true) →
  (confirming h' = true → confirming h = true ∨ visitor_work s = 0 ∧ committed h = true) →
  (confirmed fl = true → confirmed (flags s) = true ∨ confirming h = true) →
  ∃ s', set_request i h' fl req waiters s = Steps s' ∧ tunnel_inv s'.
Proof.
  intros Hs Hh -> -> Hgo Hwd Hcom Hcon Hconf. destruct (Hs) as [Hw Hf Hwt Hc Ht Hg Hq Hd].
  assert (sum_map in_flight (<[i := h']> (requests s)) = sum_map in_flight (requests s) - in_flight h + in_flight h'
          ∧ sum_map in_wait (<[i := h']> (requests s))
            = sum_map in_wait (requests s) - in_wait h + in_wait h') as [Hsf Hsw].
  { destruct Hh as [Hh|(Hh & Hz & Hz' & _)]; [by rewrite !(sum_map_update _ _ _ _ _ Hh)|].
    rewrite !sum_map_insert_fresh by done. lia. }
  pose proof (in_request_nonneg (opens s)).
  pose proof (in_flight_nonneg (<[i := h']> (requests s))).
  pose proof (in_wait_nonneg (<[i := h']> (requests s))).
  assert (committed h = true → withdrawn (flags s) = true) as Hch.
  { intros E. destruct Hh as [Hh|(_ & _ & _ & ?)]; [by eapply Hc|congruence]. }
  assert (confirming h = true → past_quiescence s) as Hpq.
  { intros E. destruct Hh as [Hh|(_ & _ & _ & ?)]; [right; right; eauto|]. by destruct h. }
  unfold set_request. rewrite (proj2 (Z.ltb_ge _ _)), (proj2 (Z.ltb_ge _ _)) by lia. simpl.
  eexists; split; [done|]. split; simpl; try done; try lia.
  - intros j h0 [[_ <-]|[_ Hj]]%lookup_insert_Some Hcj; [|by eauto].
    destruct (Hcom Hcj); auto.
  - auto.
  - by rewrite Hgo.
  - intros Hp. assert (past_quiescence s ∨ visitor_work s = 0 ∧ withdrawn (flags s) = true) as Hor.
    { destruct Hp as [Hp|[Hp|(j & h0 & Hj & Hh0)]]; simpl in *;
        [..|apply lookup_insert_Some in Hj as [[_ <-]|[_ Hj]]].
      - destruct (Hconf Hp); [|by auto]. left. by left.
      - left. right. by left.
      - destruct (Hcon Hh0) as [?|[? ?]]; auto.
      - left. right. right. eauto. }
    destruct Hor as [Hor|[Hz Hwt']].
    + destruct (Hq Hor). split; simpl; auto.
    + destruct (quiet_sealed s Hs Hwt' Hz). split; simpl; auto.
  - intros Hds. destruct (Hd Hds) as (? & ? & ?). split_and!; simpl; [congruence|done..].
Qed.

(** The accept loop's own fields. *)
Lemma set_driver_inv s fl shutting drain run t :
  tunnel_inv s → goaway fl = shutting → (goaway (flags s) = true → goaway fl = true) →
  withdrawn fl = withdrawn (flags s) → confirmed fl = confirmed (flags s) →
  (t ≠ AwaitWithdrawn → withdrawn fl = true) →
  (timer_quiesced t = true → sealed s) → (drain = true → drained s) →
  tunnel_inv (set_driver fl shutting drain run t s).
Proof.
  intros Hs Hgo Hge Hwd Hcf Ht Htq Hdr. destruct Hs as [Hw Hf Hwt Hc _ Hg Hq Hd].
  split; simpl; try done.
  - rewrite Hwd. apply Hc.
  - intros [Hp|[Hp|Hp]]; simpl in *.
    + destruct Hq as [? ?]; [left; congruence|]. split; simpl; [congruence|done].
    + destruct (Htq Hp). split; simpl; [congruence|done].
    + destruct Hq as [? ?]; [by right; right|]. split; simpl; [congruence|done].
  - intros Hds. destruct (Hdr Hds) as (? & ? & ?). split_and!; simpl; auto.
Qed.

Lemma loop_ends_inv s : tunnel_inv s → tunnel_inv (loop_ends s).
Proof.
  intros Hs. destruct (Hs). apply set_driver_inv; simpl; auto.
  intros Ht. apply (quiescence_sealed s Hs). right. by left.
Qed.

Lemma timer_step_inv s run t :
  tunnel_inv s → timer_step s = Some t →
  tunnel_inv (set_driver (flags s) (shutting_down s) (drain_sent s) run t s).
Proof.
  intros Hs Ht. assert (timer_quiesced (timer s) = true → sealed s) as Hq.
  { intros Hq. apply (quiescence_sealed s Hs). right. by left. }
  unfold timer_step in Ht. pose proof (timer_commits s Hs) as Htc.
  apply set_driver_inv; auto; [apply (goaway_published s Hs)|..|apply (drain_sealed s Hs)].
  - intros _. destruct (timer s) eqn:Et; repeat case_match; simplify_eq; auto; by apply Htc.
  - intros Htq. destruct (timer s) eqn:Et; repeat case_match; simplify_eq; simpl in *; auto; try done.
    apply quiet_sealed; [done|by apply Htc|lia].
Qed.

(** Every action either is disabled or steps to a state that satisfies the invariant: no
    counter is ever decremented below zero. *)
Lemma tunnel_exec_ok host s a :
  tunnel_inv s → exec host s a = Disabled ∨ ∃ s', exec host s a = Steps s' ∧ tunnel_inv s'.
Proof.
  intros Hs. destruct a as [i|i e|i|i e| |accepted| | |]; simpl.
  - destruct (opens s !! i) eqn:Hi; [by left|]. right.
    by apply (set_open_inv s i AskWithdrawn); auto.
  - destruct (opens s !! i) as [o|] eqn:Hi; simpl; [|by left].
    destruct (open_step (flags s) o e) as [[[o' work] req]|] eqn:Ho; [|by left]. right.
    destruct (open_step_counts _ _ _ _ _ _ Ho) as (? & ? & _).
    apply (set_open_inv s i o); auto; intros ->;
      [by apply open_step_placed in Ho|by apply open_step_unrefused in Ho].
  - destruct (requests s !! i) eqn:Hi; [by left|]. destruct (running s); [|by left]. right.
    by apply (set_request_inv s i Done); auto.
  - destruct (requests s !! i) as [h|] eqn:Hi; simpl; [|by left].
    destruct (request_step _ _ _ _ h e) as [[[[h' fl] req] waiters]|] eqn:Hh; [|by left]. right.
    destruct (request_step_counts _ _ _ _ _ _ _ _ _ _ Hh).
    destruct (request_step_flags _ _ _ _ _ _ _ _ _ _ Hh) as (? & ? & ? & ? & ?).
    by apply (set_request_inv s i h); auto.
  - destruct (running s && negb (shutting_down s)) eqn:E; [|by left]. right. eexists; split; [done|].
    apply andb_true_iff in E as [_ E%negb_true_iff].
    apply set_driver_inv; simpl; auto; [apply (timer_commits s Hs)|..].
    + intros Ht. apply (quiescence_sealed s Hs). right. by left.
    + apply (drain_sealed s Hs).
  - destruct (running s && shutting_down s && _ && _) eqn:E; [|by left]. right. eexists; split; [done|].
    repeat (apply andb_true_iff in E as [E ?]).
    assert (goaway (flags s) = true) as Hg by (rewrite (goaway_published s Hs); done).
    assert (tunnel_inv (set_driver (flags s) true true (running s) (timer s) s)) as Hs'.
    { apply set_driver_inv; auto; [apply (timer_commits s Hs)| |].
      - intros Ht. apply (quiescence_sealed s Hs). right. by left.
      - intros _. apply idle_drained; [done..|lia]. }
    case_match; [done|by apply loop_ends_inv].
  - destruct (running s); [|by left]. destruct (timer_step s) as [t|] eqn:Et; [|by left]. right.
    apply (timer_step_inv s true t Hs) in Et. destruct t; eexists; (split; [done|]); try done.
    by apply loop_ends_inv.
  - destruct (running s); [|by left]. right. eexists; split; [done|by apply loop_ends_inv].
  - right. eexists; split; [done|]. destruct (Hs). apply set_driver_inv; simpl; auto.
    intros Ht. apply (quiescence_sealed s Hs). right. by left.
Qed.

Lemma tunnel_reachable_inv host acts s :
  run_actions (exec host) establish acts = Some s → tunnel_inv s.
Proof.
  apply (run_actions_invariant (exec host) tunnel_inv); [|apply establish_inv].
  intros s0 a s1 Hs Hx. destruct (tunnel_exec_ok host s0 a Hs) as [Hd|(s' & Hs' & ?)]; congruence.
Qed.

(** What a step does to the flags and to the openings. *)
Lemma tunnel_step_effect host s a s' :
  exec host s a = Steps s' →
  (withdrawn (flags s) = true → withdrawn (flags s') = true)
  ∧ (goaway (flags s) = true → goaway (flags s') = true)
  ∧ ∀ j o', opens s' !! j = Some o' →
      opens s !! j = Some o' ∨ o' = AskWithdrawn
      ∨ ∃ o e work req, opens s !! j = Some o ∧ open_step (flags s) o e = Some (o', work, req).
Proof.
  destruct a as [i|i e|i|i e| |accepted| | |]; simpl; unfold set_open, set_request; intros Hx.
  4: { destruct (requests s !! i) as [h|]; simpl in *; [|done].
       destruct (request_step _ _ _ _ h e) as [[[[h' fl] req] waiters]|] eqn:Hh; [|done].
       destruct (request_step_flags _ _ _ _ _ _ _ _ _ _ Hh) as (Hg & Hw & _).
       case_match; simplify_eq/=. rewrite Hg. auto. }
  2: { destruct (opens s !! i) as [o|] eqn:Hi; simpl in *; [|done].
       destruct (open_step (flags s) o e) as [[[o' work] req]|] eqn:Ho; [|done].
       case_match; simplify_eq/=. split_and!; [done..|].
       intros j o0 [[<- <-]|[_ Hj]]%lookup_insert_Some; [|by left]. right. right. naive_solver. }
  all: repeat case_match; simplify_eq/=; split_and!; auto.
  intros j o0 [[<- <-]|[_ Hj]]%lookup_insert_Some; auto.
Qed.

Lemma sealed_step host s a s' : sealed s → exec host s a = Steps s' → sealed s'.
Proof.
  intros [Hw Hn] Hx. destruct (tunnel_step_effect host s a s' Hx) as (Hw' & _ & Ho).
  split; [auto|]. intros j Hj. destruct (Ho j _ Hj) as [?|[?|(o & e & work & req & Hoj & Hs)]];
    [by apply (Hn j)|done|].
  apply open_step_placed in Hs as [? _]. congruence.
Qed.

Lemma drained_step host s a s' : drained s → exec host s a = Steps s' → drained s'.
Proof.
  intros (Hg & Hn & Hu) Hx. destruct (tunnel_step_effect host s a s' Hx) as (_ & Hg' & Ho).
  split_and!; [auto|..]; intros j Hj; destruct (Ho j _ Hj) as [?|[?|(o & e & work & req & Hoj & Hs)]];
    try done; [by apply (Hn j)| |by apply (Hu j)|].
  - apply open_step_placed in Hs as [_ ->]. by apply (Hu j).
  - apply open_step_unrefused in Hs. congruence.
Qed.

(** After the commit every unfinished opening has a step of its own to take, the Visitor's
    end included. *)
Lemma opening_never_stuck fl o :
  withdrawn fl = true → in_work o ≠ 0 → ∃ e, is_Some (open_step fl o e).
Proof.
  intros Hw Ho. destruct o; simpl in Ho; try done; try (exists Proceeds; simpl; by eauto).
  - exists SeesWithdrawn. simpl. by rewrite Hw.
  - exists StreamDropped. by eexists.
Qed.

Lemma open_steps_decrease host s acts s' :
  tunnel_inv s → Forall (λ a, ∃ j e, a = OpenStep j e) acts → run_actions (exec host) s acts = Some s' →
  Z.of_nat (length acts) ≤ sum_map rank (opens s) - sum_map rank (opens s')
  ∧ requests s' = requests s ∧ running s' = running s ∧ flags s' = flags s.
Proof.
  intros Hs Hacts. revert s Hs. induction Hacts as [|a acts (j & e & ->) _ IH]; intros s Hs Hrun; simpl in *.
  { simplify_eq. split_and!; try done. lia. }
  destruct (tunnel_exec_ok host s (OpenStep j e) Hs) as [Hd|(s1 & Hx & Hs1)]; simpl in *.
  { by rewrite Hd in Hrun. }
  rewrite Hx in Hrun. destruct (IH s1 Hs1 Hrun) as (Hr & Hq & Hru & Hf).
  destruct (opens s !! j) as [o|] eqn:Ho; simpl in Hx; [|done].
  destruct (open_step (flags s) o e) as [[[o' work] req]|] eqn:Hst; [|done].
  destruct (open_step_counts _ _ _ _ _ _ Hst) as (_ & _ & Hlt).
  unfold set_open in Hx. case_match; simplify_eq/=.
  rewrite (sum_map_update rank _ _ _ _ Ho) in Hr. split_and!; try done. lia.
Qed.

(** ** Properties *)

Definition toy_host : bytes := bs "t".

(** A CONNECT and a withdrawal as the Client sends them. *)
Definition toy_connect : Request := session_request toy_host.
Definition toy_withdraw : Request := withdrawal_request toy_host.

Definition toy_session : list action :=
  [AcceptRequest 1; RequestStep 1 (Resolved toy_connect); RequestStep 1 Accepts; RequestStep 1 Publishes].
Definition toy_open (i : Z) : list action :=
  [BeginOpen i; OpenStep i Proceeds; OpenStep i Proceeds; OpenStep i Proceeds; OpenStep i Proceeds;
   OpenStep i Proceeds; OpenStep i StreamOpens; OpenStep i Proceeds; OpenStep i Proceeds].
Definition toy_withdrawal : list action :=
  [AcceptRequest 2; RequestStep 2 (Resolved toy_withdraw); RequestStep 2 (Intake (Some (Ok Complete)));
   RequestStep 2 Commits].
Definition toy_close (i : Z) : list action := [OpenStep i StreamDropped; OpenStep i Proceeds; OpenStep i Proceeds].
Definition toy_run (acts : list action) : Tunnel :=
  default establish (run_actions (exec toy_host) establish acts).

(** C25: The counters of a Tunnel connection are exact.  After any sequence of steps the count
    of Visitor work is the number of openings between the start and the drop of their
    accounting, the count of requests in flight adds the handlers that hold one, the count of
    withdrawal waiters is the number of handlers that wait; and no step decrements a counter
    that is zero. *)
Theorem tunnel_counters_exact host acts s :
  run_actions (exec host) establish acts = Some s →
  visitor_work s = sum_map in_work (opens s)
  ∧ requests_in_flight s = sum_map in_request (opens s) + sum_map in_flight (requests s)
  ∧ withdrawal_waiters s = sum_map in_wait (requests s)
  ∧ ∀ a, exec host s a ≠ Panics.
Proof.
  intros Hrun%tunnel_reachable_inv. destruct (Hrun). split_and!; [done..|].
  intros a Hp. destruct (tunnel_exec_ok host s a Hrun) as [?|(? & ? & _)]; congruence.
Qed.

Lemma tunnel_counters_exact_witness :
  visitor_work (toy_run (toy_session ++ toy_open 7)) = 1
  ∧ requests_in_flight (toy_run (toy_session ++ toy_open 7)) = 1.
Proof.
  assert (run_actions (exec toy_host) establish (toy_session ++ toy_open 7)
          = Some (toy_run (toy_session ++ toy_open 7))) as Hrun by (vm_compute; reflexivity).
  destruct (tunnel_counters_exact _ _ _ Hrun) as (-> & -> & _). split; vm_compute; reflexivity.
Defined.

(** A confirmed withdrawal is final.  Once a [204] is being sent, or was sent, or the
    post-quiescence time runs, the connection is withdrawn and carries no placed Visitor, and
    whatever happens afterwards it never accepts or carries one again: neither an open that was
    waiting for credit nor one that had passed the first check is placed. *)
Theorem withdrawal_confirmed_is_final host acts s acts' s' :
  run_actions (exec host) establish acts = Some s → past_quiescence s →
  run_actions (exec host) s acts' = Some s' →
  withdrawn (flags s') = true ∧ accepts_visitors (flags s') = false
  ∧ ∀ i, opens s' !! i ≠ Some Placed.
Proof.
  intros Hrun%tunnel_reachable_inv Hp Hrun'.
  assert (sealed s') as [Hw Hn].
  { apply (run_actions_invariant (exec host) sealed acts' s s'); [|by apply (quiescence_sealed s)|done].
    intros. by eapply sealed_step. }
  split_and!; [done| |done]. unfold accepts_visitors. by rewrite Hw.
Qed.

(** An opening that had passed the first check when the withdrawal committed. *)
Definition toy_late : list action := [OpenStep 8 Proceeds; OpenStep 8 Proceeds; OpenStep 8 StreamOpens;
  OpenStep 8 Proceeds; OpenStep 8 Proceeds].
Definition toy_confirming : list action :=
  toy_session ++ toy_open 7
  ++ [BeginOpen 8; OpenStep 8 Proceeds; OpenStep 8 Proceeds; OpenStep 8 Proceeds]
  ++ toy_withdrawal ++ toy_close 7 ++ [RequestStep 2 SeesQuiescence].

Lemma withdrawal_confirmed_is_final_witness :
  opens (toy_run (toy_confirming ++ toy_late)) !! 8 = Some (Dropping Closed)
  ∧ accepts_visitors (flags (toy_run (toy_confirming ++ toy_late))) = false.
Proof.
  split; [vm_compute; reflexivity|].
  assert (run_actions (exec toy_host) establish toy_confirming = Some (toy_run toy_confirming)) as Hrun
    by (vm_compute; reflexivity).
  assert (run_actions (exec toy_host) (toy_run toy_confirming) toy_late
          = Some (toy_run (toy_confirming ++ toy_late))) as Hrun' by (vm_compute; reflexivity).
  refine (proj1 (proj2 (withdrawal_confirmed_is_final _ _ _ toy_late _ Hrun _ Hrun'))).
  right. right. exists 2, Confirming. split; vm_compute; reflexivity.
Defined.

(** The Server asks the Client to drain only after its own last Visitor.  Once DRAIN was
    sent, GOAWAY is published, and neither then nor after any further steps is a Visitor
    placed on the connection. *)
Theorem drain_after_last_visitor host acts s acts' s' :
  run_actions (exec host) establish acts = Some s → drain_sent s = true →
  run_actions (exec host) s acts' = Some s' →
  goaway (flags s') = true ∧ ∀ i, opens s' !! i ≠ Some Placed.
Proof.
  intros Hrun%tunnel_reachable_inv Hd Hrun'.
  assert (drained s') as (Hg & Hn & _); [|done].
  apply (run_actions_invariant (exec host) drained acts' s s'); [|by apply (drain_sealed s)|done].
  intros. by eapply drained_step.
Qed.

Definition toy_draining : list action :=
  toy_session ++ toy_open 7 ++ [BeginOpen 8; OpenStep 8 Proceeds; OpenStep 8 Proceeds; OpenStep 8 Proceeds;
    BeginShutdown] ++ toy_close 7 ++ [SendDrain true].

Lemma drain_after_last_visitor_witness :
  opens (toy_run (toy_draining ++ removelast toy_late)) !! 8 = Some (Dropping Closed)
  ∧ goaway (flags (toy_run (toy_draining ++ removelast toy_late))) = true.
Proof.
  split; [vm_compute; reflexivity|].
  assert (run_actions (exec toy_host) establish toy_draining = Some (toy_run toy_draining)) as Hrun
    by (vm_compute; reflexivity).
  assert (run_actions (exec toy_host) (toy_run toy_draining) (removelast toy_late)
          = Some (toy_run (toy_draining ++ removelast toy_late))) as Hrun' by (vm_compute; reflexivity).
  refine (proj1 (drain_after_last_visitor _ _ _ (removelast toy_late) _ Hrun _ Hrun')). vm_compute; reflexivity.
Defined.

(** A committed withdrawal waits for Visitors only.  From any state in which a handler waits
    for quiescence, the openings can take only finitely many steps (eleven each at most), and
    when they can take no more the handler sees quiescence and turns to sending its [204]:
    nothing else delays it, whatever the openings did in between. *)
Theorem withdrawal_quiesces host acts s i acts' s' :
  run_actions (exec host) establish acts = Some s → requests s !! i = Some Quiescing →
  Forall (λ a, ∃ j e, a = OpenStep j e) acts' → run_actions (exec host) s acts' = Some s' →
  Z.of_nat (length acts') ≤ sum_map rank (opens s)
  ∧ ((∀ j e, exec host s' (OpenStep j e) = Disabled) →
     ∃ s'', exec host s' (RequestStep i SeesQuiescence) = Steps s''
            ∧ requests s'' !! i = Some Confirming ∧ visitor_work s'' = 0).
Proof.
  intros Hrun Hi Hacts Hrun'. pose proof (tunnel_reachable_inv _ _ _ Hrun) as Hs.
  assert (tunnel_inv s') as Hs'.
  { apply (tunnel_reachable_inv host (acts ++ acts')). rewrite run_actions_app, Hrun. exact Hrun'. }
  destruct (open_steps_decrease host s acts' s' Hs Hacts Hrun') as (Hlen & Hreq & _ & _).
  split.
  { enough (0 ≤ sum_map rank (opens s')) by lia. apply sum_map_nonneg. intros _ o _. destruct o; simpl; lia. }
  intros Hstuck. rewrite <- Hreq in Hi.
  pose proof (commits_first s' Hs' i _ Hi eq_refl) as Hw.
  assert (visitor_work s' = 0) as Hz.
  { rewrite (work_exact s' Hs'). apply sum_map_all_zero. intros j o Ho.
    destruct (decide (in_work o = 0)) as [|Hne]; [done|]. exfalso.
    destruct (opening_never_stuck (flags s') o Hw Hne) as (e & [[o' work] req] & Hst).
    destruct (tunnel_exec_ok host s' (OpenStep j e) Hs') as [Hd|(s1 & Hx & _)]; [|by rewrite Hstuck in Hx].
    simpl in Hd. rewrite Ho in Hd. simpl in Hd. rewrite Hst in Hd. unfold set_open in Hd. by case_match. }
  destruct (tunnel_exec_ok host s' (RequestStep i SeesQuiescence) Hs') as [Hd|(s1 & Hx & _)];
    simpl in *; rewrite Hi in *; simpl in *; rewrite Hz in *; simpl in *; unfold set_request in *;
    case_match; simplify_eq.
  eexists. split; [done|]. simpl. split; [apply lookup_insert_eq|done].
Qed.

Lemma withdrawal_quiesces_witness :
  ∃ s'', exec toy_host (toy_run (toy_session ++ toy_open 7 ++ toy_withdrawal ++ toy_close 7))
           (RequestStep 2 SeesQuiescence) = Steps s'' ∧ requests s'' !! 2 = Some Confirming ∧ visitor_work s'' = 0.
Proof.
  assert (run_actions (exec toy_host) establish (toy_session ++ toy_open 7 ++ toy_withdrawal)
          = Some (toy_run (toy_session ++ toy_open 7 ++ toy_withdrawal))) as Hrun by (vm_compute; reflexivity).
  assert (run_actions (exec toy_host) (toy_run (toy_session ++ toy_open 7 ++ toy_withdrawal)) (toy_close 7)
          = Some (toy_run (toy_session ++ toy_open 7 ++ toy_withdrawal ++ toy_close 7))) as Hrun'
    by (vm_compute; reflexivity).
  refine (proj2 (withdrawal_quiesces _ _ _ 2 _ _ Hrun _ _ Hrun') _).
  - vm_compute; reflexivity.
  - repeat constructor; eauto.
  - assert (opens (toy_run (toy_session ++ toy_open 7 ++ toy_withdrawal ++ toy_close 7))
            = {[ 7 := Finished Served ]}) as Ho by (vm_compute; reflexivity).
    intros j e. unfold exec. rewrite Ho. destruct (decide (j = 7)) as [->|Hj].
    + rewrite lookup_singleton_eq. by destruct e.
    + by rewrite lookup_singleton_ne.
Defined.
