(* ===== verification/Withdrawal.v ===== *)
(** * Withdrawal: taking a Tunnel connection out of placement

    The Client's withdrawal ([ClientTunnel::withdrawal], [withdrawal_attempt] and
    [WithdrawalAttempt::next_step] in [src/tunnel/client.rs]), and its composition with the
    Server of [TunnelServer] over the requests of one connection. *)

From Stdlib Require Import Ascii ZArith Lia.
From stdpp Require Import base strings numbers gmap list.
From S2P Require Import Prelude Text Names Sse Http Follower TunnelServer.
Import Field Signaling.

Open Scope Z_scope.

(** ** Outcomes *)

Inductive UnconfirmedDrain := LinkLost | RetryExhausted | RequestsForbidden | DrainDeadline | FastShutdown.
Inductive ProtocolFailure := FailedStatus (status : Z) | MalformedConfirmation.
Inductive WithdrawalOutcome :=
| Confirmed
| Unconfirmed (why : UnconfirmedDrain)
| Failed (why : ProtocolFailure).

(** The result of one withdrawal request stream. *)
Inductive WithdrawalAttempt :=
| GotConfirmation
| GotStatus (status : Z)
| GotMalformed
| NoResponse
| Forbidden
| ConnectionLost.

#[export] Instance WithdrawalAttempt_eq_dec : EqDecision WithdrawalAttempt.
Proof. solve_decision. Defined.
#[export] Instance UnconfirmedDrain_eq_dec : EqDecision UnconfirmedDrain.
Proof. solve_decision. Defined.
#[export] Instance ProtocolFailure_eq_dec : EqDecision ProtocolFailure.
Proof. solve_decision. Defined.
#[export] Instance WithdrawalOutcome_eq_dec : EqDecision WithdrawalOutcome.
Proof. solve_decision. Defined.

Inductive WithdrawalStep := Retry | Finish (o : WithdrawalOutcome).

Definition next_step (a : WithdrawalAttempt) (retry_available : bool) : WithdrawalStep :=
  match a with
  | GotConfirmation => Finish Confirmed
  | NoResponse => if retry_available then Retry else Finish (Unconfirmed RetryExhausted)
  | GotStatus status =>
      if status =? REQUEST_TIMEOUT
      then if retry_available then Retry else Finish (Unconfirmed RetryExhausted)
      else Finish (Failed (FailedStatus status))
  | GotMalformed => Finish (Failed MalformedConfirmation)
  | Forbidden => Finish (Unconfirmed RequestsForbidden)
  | ConnectionLost => Finish (Unconfirmed LinkLost)
  end.

(** ** One attempt *)

(** What a request stream shows: the request could not be built or opened; it failed before a
    response; or the response with the answers of [recv_data] and [recv_trailers]. *)
Inductive Exchange :=
| InvalidRequest
| NotOpened (e : StreamError)
| NotAnswered
| Responded (status : Z) (headers : HeaderMap) (data : list (DataAnswer StreamError))
    (trailers : result StreamError bool).

(** A [204] must declare neither a transfer coding nor a length other than zeros. *)
Definition declares_content (headers : HeaderMap) : bool :=
  negb (bool_decide (get_all TRANSFER_ENCODING headers = []))
  || existsb (λ value, existsb (λ byte, negb (byte_eqb byte "0"%char)) value) (get_all CONTENT_LENGTH headers).

(** The loop on [recv_data] and the trailers; [None] while the peer owes an answer. *)
Fixpoint read_confirmation (data : list (DataAnswer StreamError)) (trailers : result StreamError bool) :
    option WithdrawalAttempt :=
  match data with
  | [] => None
  | DataChunk chunk :: data' =>
      if bool_decide (chunk ≠ []) then Some GotMalformed else read_confirmation data' trailers
  | DataEnd :: _ =>
      Some (match trailers with
            | Ok false => GotConfirmation
            | Ok true => GotMalformed
            | Err _ => NoResponse
            end)
  | DataError _ :: _ => Some NoResponse
  end.

Definition withdrawal_attempt (x : Exchange) : option WithdrawalAttempt :=
  match x with
  | InvalidRequest => Some NoResponse
  | NotOpened RemoteClosing => Some Forbidden
  | NotOpened ConnectionError => Some ConnectionLost
  | NotOpened OtherStreamError => Some NoResponse
  | NotAnswered => Some NoResponse
  | Responded status headers data trailers =>
      if negb (status =? Control.NO_CONTENT) then Some (GotStatus status)
      else if declares_content headers then Some GotMalformed
      else read_confirmation data trailers
  end.

(** ** The withdrawal future *)

Inductive WithdrawalPhase :=
| Attempting (retry_available : bool)
| DrainingLeases
| Ended (o : WithdrawalOutcome).

(** [withdrawal_confirmed] is the Client's published flag; [replenishing] and [idle_released]
    stand for [stop_replenishing] and [stop_idle] of the connection's credit. *)
Record Withdrawing := mkWithdrawing {
  link : CloseReason;
  withdrawal_confirmed : bool;
  replenishing : bool;
  idle_released : bool;
  attempts : Z;
  withdrawal_phase : WithdrawalPhase
}.

(** [withdrawal] stops replenishment when it is called, before its future first runs. *)
Definition withdrawal (c : CloseReason) : Withdrawing :=
  mkWithdrawing c false false false 0 (Attempting true).

Inductive WithdrawalEvent :=
| AttemptEnds (x : Exchange)
| SeesLinkClosed
| LeasesDrained
| LinkCloses (c : CloseReason).

(** The iteration of the loop after the attempt, then the tail of the future. *)
Definition after_attempt (a : WithdrawalAttempt) (retry_available : bool) (w : Withdrawing) : Withdrawing :=
  let a := if bool_decide (a = NoResponse) && is_closed (link w) then ConnectionLost else a in
  match next_step a retry_available with
  | Retry =>
      mkWithdrawing (link w) (withdrawal_confirmed w) (replenishing w) (idle_released w) (attempts w + 1)
        (Attempting false)
  | Finish Confirmed =>
      mkWithdrawing (link w) true (replenishing w) true (attempts w + 1) DrainingLeases
  | Finish o =>
      mkWithdrawing (close_connection (link w) H3_NO_ERROR) (withdrawal_confirmed w) (replenishing w)
        (idle_released w) (attempts w + 1) (Ended o)
  end.

Definition withdrawal_step (w : Withdrawing) (e : WithdrawalEvent) : option Withdrawing :=
  match e, withdrawal_phase w with
  | AttemptEnds x, Attempting retry => a ← withdrawal_attempt x; Some (after_attempt a retry w)
  | SeesLinkClosed, Attempting retry =>
      if is_closed (link w) then Some (after_attempt ConnectionLost retry w) else None
  | LeasesDrained, DrainingLeases =>
      Some (mkWithdrawing (close_connection (link w) H3_NO_ERROR) (withdrawal_confirmed w) (replenishing w)
              (idle_released w) (attempts w) (Ended Confirmed))
  | SeesLinkClosed, DrainingLeases =>
      if is_closed (link w)
      then Some (mkWithdrawing (link w) (withdrawal_confirmed w) (replenishing w) (idle_released w)
                   (attempts w) (Ended Confirmed))
      else None
  | LinkCloses c, _ =>
      match link w, c with
      | Open, Open => None
      | Open, _ => Some (mkWithdrawing c (withdrawal_confirmed w) (replenishing w) (idle_released w)
                           (attempts w) (withdrawal_phase w))
      | _, _ => None
      end
  | _, _ => None
  end.

Definition withdrawal_exec (w : Withdrawing) (e : WithdrawalEvent) : next Withdrawing :=
  match withdrawal_step w e with Some w' => Steps w' | None => Disabled end.

(** ** Client and Server *)

(** One connection: the Server, the withdrawing Client, the request stream of its current
    attempt and the streams on which the Server's [204] was put on the wire. *)
Record Pair := mkPair {
  server : Tunnel;
  client : Withdrawing;
  stream : option Z;
  opened : gset Z;
  in_transit : gset Z
}.

Definition pair_init (s : Tunnel) : Pair := mkPair s (withdrawal Open) None ∅ ∅.

Inductive pair_action :=
| ServerActs (a : action)
| OpensStream (k : Z)
| Sends204 (k : Z)
| ClientActs (e : WithdrawalEvent).

(** Does the event deliver a [204] to the Client? *)
Definition delivers_204 (e : WithdrawalEvent) : bool :=
  match e with AttemptEnds (Responded status _ _ _) => status =? Control.NO_CONTENT | _ => false end.

(** The network gives the Client a [204] only on a stream on which the Server sent one, which it
    does only in [serve_withdrawal]; every other failure, answer or loss may happen any time. *)
Definition pair_exec (host : bytes) (p : Pair) (a : pair_action) : next Pair :=
  match a with
  | ServerActs a =>
      match TunnelServer.exec host (server p) a with
      | Steps s => Steps (mkPair s (client p) (stream p) (opened p) (in_transit p))
      | Disabled => Disabled
      | Panics => Panics
      end
  | OpensStream k =>
      match stream p, withdrawal_phase (client p) with
      | None, Attempting _ =>
          if bool_decide (k ∈ opened p) then Disabled
          else Steps (mkPair (server p) (client p) (Some k) ({[k]} ∪ opened p) (in_transit p))
      | _, _ => Disabled
      end
  | Sends204 k =>
      match requests (server p) !! k with
      | Some h => if confirming h
                  then Steps (mkPair (server p) (client p) (stream p) (opened p) ({[k]} ∪ in_transit p))
                  else Disabled
      | None => Disabled
      end
  | ClientActs e =>
      let allowed :=
        negb (delivers_204 e)
        || match stream p with Some k => bool_decide (k ∈ in_transit p) | None => false end in
      if allowed then
        match withdrawal_step (client p) e with
        | Some w => Steps (mkPair (server p) w (match e with AttemptEnds _ => None | _ => stream p end)
                             (opened p) (in_transit p))
        | None => Disabled
        end
      else Disabled
  end.

(** ** Lemmas *)

(** [serve_withdrawal] is the only path that answers [204]. *)
Lemma other_answers_not_204 r host headers (i : option (result unit BodylessRequest)) :
  route r host ≠ Status Control.NO_CONTENT ∧ bodyless_reply headers i ≠ Answer Control.NO_CONTENT.
Proof.
  split; [unfold route|unfold bodyless_reply]; repeat case_match; simplify_eq; intros Heq; discriminate.
Qed.

Lemma read_confirmation_exact data trailers :
  read_confirmation data trailers = Some GotConfirmation ↔
  trailers = Ok false ∧ ∃ n rest, data = replicate n (DataChunk []) ++ DataEnd :: rest.
Proof.
  split.
  - induction data as [|[chunk| |e] data IH]; simpl; intros Hr; try done.
    + case_bool_decide as Hc; [done|]. destruct (IH Hr) as (Ht & n & rest & ->).
      split; [done|]. exists (S n), rest. simpl. by destruct chunk; [|destruct Hc].
    + destruct trailers as [[]|]; try done. split; [done|]. by exists 0%nat, data.
  - intros (-> & n & rest & ->). induction n as [|n IH]; [done|]. simpl. done.
Qed.

(** Steps that are not the link's: each ends an attempt or the future. *)
Definition steps_left (p : WithdrawalPhase) : Z :=
  match p with Attempting true => 3 | Attempting false => 2 | DrainingLeases => 1 | Ended _ => 0 end.

Definition is_link_event (e : WithdrawalEvent) : bool := match e with LinkCloses _ => true | _ => false end.
Definition own_events (es : list WithdrawalEvent) : Z :=
  Z.of_nat (length (List.filter (λ e, negb (is_link_event e)) es)).

Record withdrawing_inv (w : Withdrawing) : Prop := {
  never_replenishes : replenishing w = false;
  released_iff : idle_released w = withdrawal_confirmed w;
  confirmed_iff : withdrawal_confirmed w = true ↔
                  withdrawal_phase w = DrainingLeases ∨ withdrawal_phase w = Ended Confirmed;
  ended_closed : ∀ o, withdrawal_phase w = Ended o → is_closed (link w) = true;
  attempts_left : 0 ≤ attempts w ≤ 2 ∧ ∀ r, withdrawal_phase w = Attempting r → attempts w = if r then 0 else 1
}.

Lemma close_connection_closed c code : is_closed (close_connection c code) = true.
Proof. by destruct c. Qed.

Lemma retry_only_once a : next_step a false ≠ Retry.
Proof. destruct a as [|status| | | |]; simpl; try done. by case_match. Qed.

Lemma after_attempt_inv a r w :
  withdrawing_inv w → withdrawal_phase w = Attempting r →
  withdrawing_inv (after_attempt a r w)
  ∧ steps_left (withdrawal_phase (after_attempt a r w)) < steps_left (withdrawal_phase w).
Proof.
  intros [Hr Hi Hc He [Ha Har]] Hp. specialize (Har r Hp).
  assert (withdrawal_confirmed w = false) as Hn.
  { destruct (withdrawal_confirmed w); [|done]. destruct (proj1 Hc eq_refl); congruence. }
  unfold after_attempt. set (a' := if _ : bool then ConnectionLost else a).
  destruct (next_step a' r) as [|[| |]] eqn:Hs; rewrite Hp.
  - assert (r = true) as -> by (destruct r; [done|]; by apply retry_only_once in Hs).
    split; [|simpl; lia]. split; simpl; try done; [rewrite Hn; naive_solver|].
    split; [lia|]. intros r' [= <-]. lia.
  - split; [|destruct r; simpl; lia]. split; simpl; try done; [naive_solver|].
    split; [destruct r; lia|done].
  - split; [|destruct r; simpl; lia].
    split; simpl; try done; [rewrite Hn; naive_solver|intros; apply close_connection_closed|].
    split; [destruct r; lia|done].
  - split; [|destruct r; simpl; lia].
    split; simpl; try done; [rewrite Hn; naive_solver|intros; apply close_connection_closed|].
    split; [destruct r; lia|done].
Qed.

Lemma withdrawal_step_inv w e w' :
  withdrawing_inv w → withdrawal_step w e = Some w' →
  withdrawing_inv w'
  ∧ steps_left (withdrawal_phase w') + (if is_link_event e then 0 else 1) ≤ steps_left (withdrawal_phase w).
Proof.
  intros Hw Hs. destruct e as [x| | |c]; simpl in Hs; simpl is_link_event; cbv iota.
  - destruct (withdrawal_phase w) as [r| |o] eqn:Hp; try done.
    destruct (withdrawal_attempt x) as [a|]; simplify_eq/=.
    destruct (after_attempt_inv a r w Hw Hp). rewrite Hp in *. split; [done|]. simpl in *. lia.
  - destruct (withdrawal_phase w) as [r| |o] eqn:Hp; try done; destruct (is_closed (link w)) eqn:Hl; simplify_eq/=.
    + destruct (after_attempt_inv ConnectionLost r w Hw Hp). rewrite Hp in *. split; [done|]. simpl in *. lia.
    + split; [|simpl; lia]. destruct Hw as [? ? Hc ? [? ?]]. rewrite Hp in *.
      split; simpl; try done; auto. naive_solver.
  - destruct (withdrawal_phase w) as [r| |o] eqn:Hp; try done. simplify_eq/=. split; [|simpl; lia].
    destruct Hw as [? ? Hc ? [? ?]]. rewrite Hp in *.
    split; simpl; try done; [naive_solver|intros; apply close_connection_closed].
  - destruct Hw as [? ? ? He ?]. repeat case_match; simplify_eq/=; (split; [|lia]); by split.
Qed.

Lemma withdrawal_run_inv es w w' :
  withdrawing_inv w → run_actions withdrawal_exec w es = Some w' →
  withdrawing_inv w' ∧ steps_left (withdrawal_phase w') + own_events es ≤ steps_left (withdrawal_phase w).
Proof.
  revert w. induction es as [|e es IH]; intros w Hw Hrun; simpl in Hrun.
  { simplify_eq. split; [done|]. unfold own_events; simpl. lia. }
  unfold withdrawal_exec at 1 in Hrun. destruct (withdrawal_step w e) as [w1|] eqn:Hs; [|done].
  destruct (withdrawal_step_inv w e w1 Hw Hs) as [Hw1 Hle]. destruct (IH w1 Hw1 Hrun) as [? Hle'].
  split; [done|]. unfold own_events in *. simpl. destruct (is_link_event e); simpl in *; lia.
Qed.

Lemma withdrawal_start_inv c : withdrawing_inv (withdrawal c).
Proof. split; simpl; try done; [naive_solver|]. split; [lia|]. by intros r [= <-]. Qed.

Definition pair_inv (p : Pair) : Prop :=
  tunnel_inv (server p) ∧ withdrawing_inv (client p)
  ∧ (∀ k, k ∈ in_transit p → sealed (server p))
  ∧ (withdrawal_confirmed (client p) = true → ∃ k, k ∈ in_transit p).

Lemma next_step_confirmed a r : next_step a r = Finish Confirmed → a = GotConfirmation.
Proof. destruct a; simpl; intros; repeat case_match; simplify_eq; done. Qed.

Lemma declares_content_false headers :
  declares_content headers = false ↔
  get_all TRANSFER_ENCODING headers = []
  ∧ ∀ value byte, value ∈ get_all CONTENT_LENGTH headers → byte ∈ value → byte = "0"%char.
Proof.
  unfold declares_content. rewrite orb_false_iff, negb_false_iff, bool_decide_eq_true.
  apply and_iff_compat_l. rewrite <- not_true_iff_false, existsb_exists. split.
  - intros Hn value byte Hv Hb. destruct (byte_eqb byte "0"%char) eqn:E; [by apply byte_eqb_true|].
    exfalso. apply Hn. exists value. split; [by apply list_elem_of_In|]. apply existsb_exists.
    exists byte. rewrite E. split; [by apply list_elem_of_In|done].
  - intros Hall (value & Hv%list_elem_of_In & (byte & Hb%list_elem_of_In & Hne)%existsb_exists).
    rewrite (Hall value byte Hv Hb) in Hne. discriminate.
Qed.

(** Only a delivered [204] confirms. *)
Lemma withdrawal_step_confirms w e w' :
  withdrawal_step w e = Some w' → withdrawal_confirmed w' = true →
  withdrawal_confirmed w = true ∨ delivers_204 e = true.
Proof.
  intros Hs Hc. destruct e as [x| | |c]; simpl in Hs.
  - destruct (withdrawal_phase w) as [r| |]; try done.
    destruct (withdrawal_attempt x) as [a|] eqn:Ha; simplify_eq/=.
    destruct (decide (a = GotConfirmation)) as [->|Hne].
    + right. destruct x as [|[]| |status headers data trailers]; simpl in *; try done. by destruct (status =? _).
    + left. unfold after_attempt in Hc. destruct (next_step _ r) as [|[| |]] eqn:Hn; simpl in Hc; try done.
      apply next_step_confirmed in Hn. by case_match.
  - left. repeat case_match; simplify_eq/=; done.
  - left. repeat case_match; simplify_eq/=; done.
  - left. repeat case_match; simplify_eq/=; done.
Qed.

Lemma pair_step_inv host p a p' : pair_inv p → pair_exec host p a = Steps p' → pair_inv p'.
Proof.
  intros (Ht & Hw & Hs & Hc) Hx. destruct a as [a|k|k|e]; simpl in Hx.
  - destruct (tunnel_exec_ok host (server p) a Ht) as [Hd|(s & Hx' & Ht')];
      [by rewrite Hd in Hx|rewrite Hx' in Hx]. simplify_eq. split_and!; simpl; try done.
    intros k Hk. by eapply sealed_step; [apply (Hs k)|].
  - destruct (stream p), (withdrawal_phase (client p)); try done. case_bool_decide; simplify_eq.
    by split_and!.
  - destruct (requests (server p) !! k) as [h|] eqn:Hk; [|done]. destruct (confirming h) eqn:Hh; simplify_eq.
    split_and!; simpl; try done.
    + intros _ _. apply (quiescence_sealed _ Ht). right. right. eauto.
    + intros _. exists k. set_solver.
  - destruct (negb (delivers_204 e) || _) eqn:Ha; [|done].
    destruct (withdrawal_step (client p) e) as [w|] eqn:Hst; simplify_eq.
    destruct (withdrawal_step_inv _ _ _ Hw Hst) as [Hw' _]. split_and!; simpl; try done.
    intros Hcw. destruct (withdrawal_step_confirms _ _ _ Hst Hcw) as [|Hd]; [by auto|].
    rewrite Hd in Ha. simpl in Ha. destruct (stream p) as [k|]; [|done].
    apply bool_decide_eq_true in Ha. by exists k.
Qed.

Lemma pair_reachable_inv host acts p :
  run_actions (pair_exec host) (pair_init establish) acts = Some p → pair_inv p.
Proof.
  apply (run_actions_invariant (pair_exec host) pair_inv); [apply pair_step_inv|].
  split_and!; [apply establish_inv|apply withdrawal_start_inv|set_solver|done].
Qed.

(** ** Properties *)

(** An exchange counts as a confirmation exactly when the response is a [204] that declares
    no transfer coding and no length but zeros, ends after empty chunks only and has no
    trailers: a [204] with content, trailers, a declared length or a broken end never does. *)
Theorem confirmation_exact x :
  withdrawal_attempt x = Some GotConfirmation ↔
  ∃ headers n rest,
    x = Responded Control.NO_CONTENT headers (replicate n (DataChunk []) ++ DataEnd :: rest) (Ok false)
    ∧ get_all TRANSFER_ENCODING headers = []
    ∧ ∀ value byte, value ∈ get_all CONTENT_LENGTH headers → byte ∈ value → byte = "0"%char.
Proof.
  split.
  - destruct x as [|[]| |status headers data trailers]; simpl; try done.
    destruct (status =? Control.NO_CONTENT) eqn:Hst; simpl; [|done]. apply Z.eqb_eq in Hst as ->.
    destruct (declares_content headers) eqn:Hd; [done|]. apply declares_content_false in Hd as [Ht Hl].
    intros (-> & n & rest & ->)%read_confirmation_exact. by exists headers, n, rest.
  - intros (headers & n & rest & -> & Ht & Hl). simpl.
    rewrite (proj2 (declares_content_false headers)) by done. apply read_confirmation_exact. eauto.
Qed.

(** A withdrawal always comes to its end.  However its exchanges and the connection go, it
    makes at most two requests and at most three steps of its own; it never replenishes credit,
    has released the idle credit exactly when it is confirmed, and once it has ended the
    connection is closed.  Until then it can step: an attempt ends with any answer, and draining
    ends when the leases do. *)
Theorem withdrawal_ends c es w :
  run_actions withdrawal_exec (withdrawal c) es = Some w →
  own_events es ≤ 3 ∧ attempts w ≤ 2 ∧ replenishing w = false
  ∧ idle_released w = withdrawal_confirmed w
  ∧ (withdrawal_confirmed w = true ↔
     withdrawal_phase w = DrainingLeases ∨ withdrawal_phase w = Ended Confirmed)
  ∧ match withdrawal_phase w with
    | Ended _ => is_closed (link w) = true
    | DrainingLeases => is_Some (withdrawal_step w LeasesDrained)
    | Attempting _ => ∀ x, is_Some (withdrawal_attempt x) → is_Some (withdrawal_step w (AttemptEnds x))
    end.
Proof.
  intros Hrun. destruct (withdrawal_run_inv es _ _ (withdrawal_start_inv c) Hrun) as [[Hr Hi Hc He [Ha _]] Hle].
  assert (0 ≤ steps_left (withdrawal_phase w)) by (destruct (withdrawal_phase w) as [[]| |]; simpl; lia).
  change (steps_left (withdrawal_phase (withdrawal c))) with 3 in Hle.
  repeat match goal with |- _ ∧ _ => split end; try done; try lia.
  destruct (withdrawal_phase w) as [r| |o] eqn:Hp; [..|by eapply He].
  - intros x [a Hx]. simpl. rewrite Hp, Hx. by eexists.
  - simpl. rewrite Hp. by eexists.
Qed.

Definition toy_exchanges : list WithdrawalEvent :=
  [AttemptEnds (Responded REQUEST_TIMEOUT [] [] (Ok false));
   AttemptEnds (Responded Control.NO_CONTENT [] [DataEnd] (Ok false)); LeasesDrained].

Lemma withdrawal_ends_witness :
  ∃ w, run_actions withdrawal_exec (withdrawal Open) toy_exchanges = Some w
       ∧ attempts w ≤ 2 ∧ withdrawal_phase w = Ended Confirmed ∧ is_closed (link w) = true.
Proof.
  eexists. split; [vm_compute; reflexivity|].
  destruct (withdrawal_ends Open toy_exchanges _ eq_refl) as (_ & Ha & _ & _ & _ & Hm).
  split_and!; [exact Ha|reflexivity|exact Hm].
Defined.

(** C6: Client and Server agree on quiescence.  Run a Server and a withdrawing Client together
    over a network that delivers a [204] only where the Server sent one.  When the Client
    records the confirmation, and in every state after that, the Server has withdrawn the
    connection and has no Visitor on it nor ever places one, so the idle credit that the Client
    releases then is never used. *)
Theorem client_confirmation_final host acts p acts' p' :
  run_actions (pair_exec host) (pair_init establish) acts = Some p →
  withdrawal_confirmed (client p) = true →
  run_actions (pair_exec host) p acts' = Some p' →
  withdrawn (flags (server p')) = true ∧ ∀ i, opens (server p') !! i ≠ Some Placed.
Proof.
  intros Hrun%pair_reachable_inv Hc Hrun'.
  assert (pair_inv p' ∧ ∃ k, k ∈ in_transit p') as [(_ & _ & Hs & _) [k Hk]].
  { apply (run_actions_invariant (pair_exec host) (λ p, pair_inv p ∧ ∃ k, k ∈ in_transit p) acts' p p'); [..|done].
    - intros q a q' [Hq [k Hk]] Hx. split; [by eapply pair_step_inv|]. exists k.
      destruct a; simpl in Hx; repeat case_match; simplify_eq/=; set_solver.
    - destruct Hrun as (? & ? & ? & Hex). split; [done|by apply Hex]. }
  destruct (Hs k Hk). done.
Qed.

Definition toy_pair_actions : list pair_action :=
  (ServerActs <$> (toy_session ++ toy_open 7)) ++ [OpensStream 2]
  ++ (ServerActs <$> (toy_withdrawal ++ toy_close 7 ++ [RequestStep 2 SeesQuiescence]))
  ++ [Sends204 2; ClientActs (AttemptEnds (Responded Control.NO_CONTENT [] [DataEnd] (Ok false)))].
Definition toy_pair : Pair :=
  default (pair_init establish) (run_actions (pair_exec toy_host) (pair_init establish) toy_pair_actions).

Lemma client_confirmation_final_witness :
  withdrawal_phase (client toy_pair) = DrainingLeases ∧ withdrawn (flags (server toy_pair)) = true.
Proof.
  split; [vm_compute; reflexivity|].
  assert (run_actions (pair_exec toy_host) (pair_init establish) toy_pair_actions = Some toy_pair) as Hrun
    by (vm_compute; reflexivity).
  refine (proj1 (client_confirmation_final _ _ _ [] toy_pair Hrun _ eq_refl)). vm_compute; reflexivity.
Defined.
