(* ===== verification/Capacity.v ===== *)
(** * Capacity: descriptor sizing and retry pacing

    [Fd] models the startup sizing of [src/fd_capacity.rs]; [Retry] the reconnect
    windows and jitter of [src/reconnect_policy.rs], over an abstract random
    generator. *)

From Stdlib Require Import ZArith Lia.
From stdpp Require Import base strings numbers gmap list.
From S2P Require Import Prelude.

Local Open Scope Z_scope.

(** ** File descriptors *)
Module Fd.

Definition client_capacity (configured nofile reserve : Z) : Z :=
  Z.min configured (Z.min (umax usize_bits) (saturating_sub nofile reserve)).

(** The limits in the order of the array: pending Visitors, pending stream opens,
    active routed streams. *)
Record Capacities : Type := mkCap { pending_visitors : Z; pending_opens : Z; active_streams : Z }.

#[export] Instance Capacities_eq_dec : EqDecision Capacities.
Proof. solve_decision. Defined.

Definition total (c : Capacities) : Z := pending_visitors c + pending_opens c + active_streams c.

(** One iteration of the loop over the rounding leftovers: the new value and what
    remains. *)
Definition top_up (remaining configured current : Z) : Z * Z :=
  let extra := Z.min remaining (configured - current) in
  (current + extra, remaining - extra).

Definition server_capacity (configured : Capacities) (nofile reserve : Z) : Capacities :=
  let available := saturating_sub nofile reserve in
  let t := total configured in
  if t <=? available then configured
  else
    let share v := v * available / t in
    let v0 := share (pending_visitors configured) in
    let v1 := share (pending_opens configured) in
    let v2 := share (active_streams configured) in
    let remaining := available - (v0 + v1 + v2) in
    let '(v2, remaining) := top_up remaining (active_streams configured) v2 in
    let '(v0, remaining) := top_up remaining (pending_visitors configured) v0 in
    let '(v1, _) := top_up remaining (pending_opens configured) v1 in
    mkCap v0 v1 v2.

(** The effective limits and whether a warning is written; without a descriptor
    limit the configuration stands. *)
Definition apply_client (configured : Z) (nofile : option Z) (reserve : Z) : Z * bool :=
  match nofile with
  | None => (configured, false)
  | Some n =>
      let effective := client_capacity configured n reserve in
      (effective, negb (effective =? configured))
  end.

Definition apply_server (configured : Capacities) (nofile : option Z) (reserve : Z) :
    Capacities * bool :=
  match nofile with
  | None => (configured, false)
  | Some n =>
      let effective := server_capacity configured n reserve in
      (effective, bool_decide (effective ≠ configured))
  end.

Lemma share_bounds v available t :
  0 ≤ v ≤ t → 0 ≤ available < t → 0 ≤ v * available / t ≤ v ∧ v * available / t * t ≤ v * available < (v * available / t + 1) * t.
Proof.
  intros Hv Ha. pose proof (Z.div_mod (v * available) t ltac:(lia)) as Hd.
  pose proof (Z.mod_pos_bound (v * available) t ltac:(lia)) as Hm.
  set (q := v * available / t) in *.
  assert (0 ≤ q) by (apply Z.div_pos; nia).
  assert (q ≤ v) by (apply Z.div_le_upper_bound; nia). nia.
Qed.

End Fd.

(** ** Reconnect pacing *)
Module Retry.

Definition RETRY_WINDOWS_SECS : list Z := [1; 2; 3; 5; 8; 12; 18; 27; 41; 60].
Definition nanos_per_sec : Z := 1000000000.

Record RetryDecision : Type := mkDecision {
  window : Z;               (* nanoseconds *)
  delay : Z;                (* nanoseconds *)
  display_delay_secs : Z
}.

Section Policy.
(** [RngCore::next_u64]. *)
Context {R : Type} (next_u64 : R → Z * R).

Record ReconnectPolicy : Type := mkPolicy { retry_count : nat; rng : R }.

Definition new_with_rng (r : R) : ReconnectPolicy := mkPolicy 0 r.
Definition is_fresh (p : ReconnectPolicy) : bool := Nat.eqb (retry_count p) 0.
Definition reset (p : ReconnectPolicy) : ReconnectPolicy := mkPolicy 0 (rng p).

Definition jitter_delay (window : Z) (r : R) : Z * R :=
  if window =? 0 then (0, r) else let '(x, r') := next_u64 r in (x mod window, r').

Definition display_secs (delay : Z) : Z := Z.max (div_ceil delay nanos_per_sec) 1.

(** [None] is the out-of-bounds panic of the window table. *)
Definition next_retry (p : ReconnectPolicy) : option (RetryDecision * ReconnectPolicy) :=
  secs ← RETRY_WINDOWS_SECS !! retry_count p;
  let window := secs * nanos_per_sec in
  let '(delay, r) := jitter_delay window (rng p) in
  let count := Nat.min (retry_count p + 1) (length RETRY_WINDOWS_SECS - 1) in
  Some (mkDecision window delay (display_secs delay), mkPolicy count r).

(** [n] consecutive retries. *)
Fixpoint retries (n : nat) (p : ReconnectPolicy) : option (list RetryDecision * ReconnectPolicy) :=
  match n with
  | O => Some ([], p)
  | S n' => '(d, p) ← next_retry p; '(ds, p) ← retries n' p; Some (d :: ds, p)
  end.

Lemma next_retry_ok p :
  (retry_count p < 10)%nat →
  ∃ secs d p', RETRY_WINDOWS_SECS !! retry_count p = Some secs ∧
    next_retry p = Some (d, p') ∧ retry_count p' = Nat.min (retry_count p + 1) 9 ∧
    window d = secs * nanos_per_sec ∧ 0 ≤ delay d < window d ∧
    1 ≤ display_delay_secs d ≤ secs.
Proof.
  intros Hc. destruct (lookup_lt_is_Some_2 RETRY_WINDOWS_SECS (retry_count p)) as [secs Hs]; [done|].
  assert (1 ≤ secs ≤ 60) as Hsecs.
  { assert (Forall (λ s, 1 ≤ s ≤ 60) RETRY_WINDOWS_SECS) as Hall by (repeat constructor; done).
    by apply (Forall_lookup_1 _ _ _ _ Hall Hs). }
  unfold next_retry. rewrite Hs. simpl. unfold jitter_delay.
  destruct (Z.eqb_spec (secs * nanos_per_sec) 0); [unfold nanos_per_sec in *; lia|].
  destruct (next_u64 (rng p)) as [x r].
  pose proof (Z.mod_pos_bound x (secs * nanos_per_sec) ltac:(unfold nanos_per_sec; lia)) as Hm.
  eexists secs, _, _. split_and!; [done|done|done|done|apply Hm|apply Hm|..]; simpl.
  - unfold display_secs. lia.
  - unfold display_secs, div_ceil. apply Z.max_lub; [|lia].
    apply Z.lt_succ_r, Z.div_lt_upper_bound; unfold nanos_per_sec in *; lia.
Qed.

End Policy.
End Retry.

(** ** Properties *)

Import Fd Retry.

(** Sizing the Server's Visitor limits to the descriptors available never raises
    a limit, keeps every limit nonnegative, and hands out exactly as many descriptors
    as there are: the effective limits add up to the smaller of the configured total
    and the available descriptors. *)
Theorem server_capacity_exact c nofile reserve :
  0 ≤ pending_visitors c → 0 ≤ pending_opens c → 0 ≤ active_streams c →
  let e := server_capacity c nofile reserve in
  0 ≤ pending_visitors e ≤ pending_visitors c ∧
  0 ≤ pending_opens e ≤ pending_opens c ∧
  0 ≤ active_streams e ≤ active_streams c ∧
  total e = Z.min (total c) (saturating_sub nofile reserve).
Proof.
  intros H0 H1 H2 e. subst e. unfold server_capacity, total.
  destruct c as [v0 v1 v2]; simpl in *.
  assert (0 ≤ saturating_sub nofile reserve) as Hav by (unfold saturating_sub; lia).
  set (av := saturating_sub nofile reserve) in *. set (t := v0 + v1 + v2) in *.
  destruct (Z.leb_spec t av) as [Hle|Hgt]; simpl; [lia|].
  pose proof (share_bounds v0 av t ltac:(lia) ltac:(lia)) as [? ?].
  pose proof (share_bounds v1 av t ltac:(lia) ltac:(lia)) as [? ?].
  pose proof (share_bounds v2 av t ltac:(lia) ltac:(lia)) as [? ?].
  set (q0 := v0 * av / t) in *. set (q1 := v1 * av / t) in *. set (q2 := v2 * av / t) in *.
  assert (q0 + q1 + q2 ≤ av) as Hsum by nia. lia.
Qed.

Lemma server_capacity_exact_witness :
  let c := mkCap 4096 4096 65536 in
  let e := server_capacity c 10000 512 in
  e = mkCap 527 527 8434 ∧
  (0 ≤ pending_visitors e ≤ 4096 ∧ 0 ≤ pending_opens e ≤ 4096 ∧
   0 ≤ active_streams e ≤ 65536 ∧ total e = Z.min (total c) (saturating_sub 10000 512)).
Proof.
  intros c e. split; [by vm_compute|]. by apply (server_capacity_exact c 10000 512).
Defined.

(** Retry pacing never panics and follows the table: however many consecutive
    retries happen, the [k]-th uses window number [min k 9], its delay is strictly
    inside the window, and the displayed seconds are between 1 and the window. *)
Theorem retries_follow_windows {R} (next_u64 : R → Z * R) n r :
  ∃ ds p, retries next_u64 n (new_with_rng r) = Some (ds, p) ∧ length ds = n ∧
    ∀ k d, ds !! k = Some d → ∃ secs,
      RETRY_WINDOWS_SECS !! Nat.min k 9 = Some secs ∧
      window d = secs * nanos_per_sec ∧ 0 ≤ delay d < window d ∧
      1 ≤ display_delay_secs d ≤ secs.
Proof.
  assert (∀ m p, (retry_count p < 10)%nat →
    ∃ ds p', retries next_u64 m p = Some (ds, p') ∧ length ds = m ∧
      ∀ k d, ds !! k = Some d → ∃ secs,
        RETRY_WINDOWS_SECS !! Nat.min (retry_count p + k) 9 = Some secs ∧
        window d = secs * nanos_per_sec ∧ 0 ≤ delay d < window d ∧
        1 ≤ display_delay_secs d ≤ secs) as Hgen.
  { induction m as [|m IH]; intros p Hp; [by exists [], p|].
    destruct (next_retry_ok next_u64 p Hp) as (secs & d & p1 & Hs & Hn & Hc & Hd).
    destruct (IH p1) as (ds & p2 & Hr & Hlen & Hds); [lia|].
    exists (d :: ds), p2. simpl. rewrite Hn. simpl. rewrite Hr. simpl.
    split_and!; [done | by rewrite Hlen |]. intros [|k] x Hx; simpl in Hx.
    - injection Hx as <-. exists secs. rewrite Nat.add_0_r, Nat.min_l by lia. done.
    - destruct (Hds k x Hx) as (s & Hs' & ?). exists s. split; [|done].
      rewrite <- Hs'. f_equal. lia. }
  destruct (Hgen n (new_with_rng r)) as (ds & p & ? & ? & ?); [simpl; lia|]. by exists ds, p.
Qed.
