(* ===== verification/Admission.v ===== *)
(** * Admission: permits, saturation logs and accept backoff

    The admission policy of the Server ([src/server/admission.rs]).  [Counter] is the
    shared counting-map discipline; [Policy] the state of [ServerAdmissionPolicy] with
    every acquire and drop, and the step relation of a Server that interleaves them in
    any order; [LogGate] the rate-limited saturation log; [Backoff] the accept-error
    backoff. *)

From Stdlib Require Import Ascii ZArith Lia.
From stdpp Require Import base strings numbers gmap sorting list relations.
From S2P Require Import Prelude Text.

Local Open Scope Z_scope.

(** ** Counting maps

    [HashMap<K, usize>] with an entry only for nonzero counts. *)
Module Counter.
Section Counter.
Context {K : Type} `{Countable K}.

(** [sources.get(&k).copied().unwrap_or_default()]. *)
Definition get (m : gmap K Z) (k : K) : Z := default 0 (m !! k).

(** [*m.entry(k).or_default() += 1]. *)
Definition bump (m : gmap K Z) (k : K) : gmap K Z := <[k := get m k + 1]> m.

(** [if let Some(n) = m.get_mut(&k) { *n -= 1; if *n == 0 { m.remove(&k) } }];
    [None] is the underflow panic. *)
Definition release (m : gmap K Z) (k : K) : option (gmap K Z) :=
  match m !! k with
  | None => Some m
  | Some n =>
      if n <? 1 then None
      else if n - 1 =? 0 then Some (delete k m) else Some (<[k := n - 1]> m)
  end.

(** How often [k] occurs in the keys held by outstanding permits. *)
Definition occurrences (k : K) (ks : list K) : Z :=
  len (List.filter (λ x, bool_decide (x = k)) ks).

(** The map counts exactly the outstanding keys. *)
Definition tracks (m : gmap K Z) (ks : list K) : Prop :=
  ∀ k, m !! k = if occurrences k ks =? 0 then None else Some (occurrences k ks).

Lemma occurrences_nonneg k ks : 0 ≤ occurrences k ks.
Proof. apply len_nonneg. Qed.

Lemma occurrences_cons k x ks :
  occurrences k (x :: ks) = (if bool_decide (x = k) then 1 else 0) + occurrences k ks.
Proof. unfold occurrences. simpl. case_bool_decide; rewrite ?len_cons; lia. Qed.

Lemma occurrences_app k ks ls : occurrences k (ks ++ ls) = occurrences k ks + occurrences k ls.
Proof. unfold occurrences. by rewrite List.filter_app, len_app. Qed.

Lemma occurrences_remove k x l1 l2 :
  occurrences k (l1 ++ x :: l2) =
  (if bool_decide (x = k) then 1 else 0) + occurrences k (l1 ++ l2).
Proof. rewrite !occurrences_app, occurrences_cons. lia. Qed.

Lemma tracks_nil : tracks ∅ [].
Proof. intros k. by rewrite lookup_empty. Qed.

Lemma tracks_get m ks k : tracks m ks → get m k = occurrences k ks.
Proof.
  intros Hm. unfold get. rewrite Hm. by destruct (Z.eqb_spec (occurrences k ks) 0).
Qed.

Lemma tracks_bump m ks k : tracks m ks → tracks (bump m k) (k :: ks).
Proof.
  intros Hm x. unfold bump. rewrite (tracks_get _ _ _ Hm), occurrences_cons.
  pose proof (occurrences_nonneg x ks).
  destruct (decide (k = x)) as [->|Hne].
  - rewrite lookup_insert_eq, bool_decide_true by done.
    destruct (Z.eqb_spec (1 + occurrences x ks) 0); [lia|]. f_equal. lia.
  - rewrite lookup_insert_ne, bool_decide_false by done. by rewrite Hm.
Qed.

(** Any order of outstanding keys is as good as another. *)
Lemma tracks_perm m ks ls : (∀ k, occurrences k ks = occurrences k ls) → tracks m ks → tracks m ls.
Proof. intros Heq Hm k. by rewrite <- Heq. Qed.

Lemma tracks_release m k l1 l2 :
  tracks m (l1 ++ k :: l2) → ∃ m', release m k = Some m' ∧ tracks m' (l1 ++ l2).
Proof.
  intros Hm. unfold release. rewrite Hm, occurrences_remove, bool_decide_true by done.
  pose proof (occurrences_nonneg k (l1 ++ l2)) as H0.
  destruct (Z.eqb_spec (1 + occurrences k (l1 ++ l2)) 0); [lia|].
  destruct (Z.ltb_spec (1 + occurrences k (l1 ++ l2)) 1); [lia|].
  assert (∀ x, k ≠ x → m !! x =
    if occurrences x (l1 ++ l2) =? 0 then None else Some (occurrences x (l1 ++ l2))) as Hother.
  { intros x Hx. by rewrite Hm, occurrences_remove, bool_decide_false, Z.add_0_l. }
  destruct (Z.eqb_spec (1 + occurrences k (l1 ++ l2) - 1) 0) as [Hz|Hz];
    (eexists; split; [done|]); intros x; destruct (decide (k = x)) as [<-|Hx].
  - rewrite lookup_delete_eq. by destruct (Z.eqb_spec (occurrences k (l1 ++ l2)) 0); [|lia].
  - rewrite lookup_delete_ne by done. auto.
  - rewrite lookup_insert_eq. destruct (Z.eqb_spec (occurrences k (l1 ++ l2)) 0); [lia|]. f_equal. lia.
  - rewrite lookup_insert_ne by done. auto.
Qed.

End Counter.
End Counter.

(** ** The admission policy *)
Module Policy.
Import Counter.

Record ServerAdmissionLimits : Type := mkLimits {
  client_hello_timeout : Z;      (* milliseconds *)
  stream_open_timeout : Z;
  max_pending_visitors : Z;
  max_pending_visitors_per_source : Z;
  max_pending_handshakes : Z;
  max_pending_stream_opens : Z;
  max_active_routed_streams : Z;
  max_tunnel_connections : Z;
  max_tunnel_connections_per_tunnel : Z;
  max_tunnel_connections_per_identity : Z
}.

Definition default_limits : ServerAdmissionLimits :=
  mkLimits 5000 5000 4096 256 256 4096 65536 4096 256 64.

Inductive AdmissionLimit : Type :=
| VisitorsGlobal | VisitorSource | Handshakes | PendingStreamOpens | ActiveRoutedStreams
| TunnelConnectionsGlobal | TunnelConnectionsPerTunnel | TunnelConnectionsPerIdentity.

#[export] Instance AdmissionLimit_eq_dec : EqDecision AdmissionLimit.
Proof. solve_decision. Defined.

Definition limit_name (l : AdmissionLimit) : string :=
  match l with
  | VisitorsGlobal => "visitor-global"
  | VisitorSource => "visitor-source"
  | Handshakes => "quic-handshake-global"
  | PendingStreamOpens => "pending-stream-open"
  | ActiveRoutedStreams => "active-routed-stream"
  | TunnelConnectionsGlobal => "tunnel-connection-global"
  | TunnelConnectionsPerTunnel => "tunnel-connection-per-tunnel"
  | TunnelConnectionsPerIdentity => "tunnel-connection-per-client-identity"
  end%string.

Definition limit_value (ls : ServerAdmissionLimits) (l : AdmissionLimit) : Z :=
  match l with
  | VisitorsGlobal => max_pending_visitors ls
  | VisitorSource => max_pending_visitors_per_source ls
  | Handshakes => max_pending_handshakes ls
  | PendingStreamOpens => max_pending_stream_opens ls
  | ActiveRoutedStreams => max_active_routed_streams ls
  | TunnelConnectionsGlobal => max_tunnel_connections ls
  | TunnelConnectionsPerTunnel => max_tunnel_connections_per_tunnel ls
  | TunnelConnectionsPerIdentity => max_tunnel_connections_per_identity ls
  end.

Record AdmissionRejection : Type := mkRejection { rejected_limit : AdmissionLimit; active_work : Z }.

(** The shared state: a semaphore is its number of available permits. *)
Record ServerAdmissionPolicy : Type := mkPolicy {
  limits : ServerAdmissionLimits;
  pending_visitors : Z;
  pending_visitors_by_source : gmap IpAddr Z;
  pending_handshakes : Z;
  pending_stream_opens : Z;
  active_routed_streams : Z;
  conn_active : Z;
  conn_active_by_identity : gmap bytes Z
}.

Definition policy_new (ls : ServerAdmissionLimits) : ServerAdmissionPolicy :=
  mkPolicy ls (max_pending_visitors ls) ∅ (max_pending_handshakes ls)
    (max_pending_stream_opens ls) (max_active_routed_streams ls) 0 ∅.

(** [Semaphore::try_acquire_owned], with the rejection the callers build. *)
Definition try_acquire_owned (limit : AdmissionLimit) (max available : Z) :
    result AdmissionRejection Z :=
  if 0 <? available then Ok (available - 1) else Err (mkRejection limit (max - available)).

Definition set_visitors (n : Z) (m : gmap IpAddr Z) (p : ServerAdmissionPolicy) :=
  mkPolicy (limits p) n m (pending_handshakes p) (pending_stream_opens p)
    (active_routed_streams p) (conn_active p) (conn_active_by_identity p).
Definition set_handshakes (n : Z) (p : ServerAdmissionPolicy) :=
  mkPolicy (limits p) (pending_visitors p) (pending_visitors_by_source p) n
    (pending_stream_opens p) (active_routed_streams p) (conn_active p) (conn_active_by_identity p).
Definition set_opens (n : Z) (p : ServerAdmissionPolicy) :=
  mkPolicy (limits p) (pending_visitors p) (pending_visitors_by_source p) (pending_handshakes p)
    n (active_routed_streams p) (conn_active p) (conn_active_by_identity p).
Definition set_streams (n : Z) (p : ServerAdmissionPolicy) :=
  mkPolicy (limits p) (pending_visitors p) (pending_visitors_by_source p) (pending_handshakes p)
    (pending_stream_opens p) n (conn_active p) (conn_active_by_identity p).
Definition set_conns (n : Z) (m : gmap bytes Z) (p : ServerAdmissionPolicy) :=
  mkPolicy (limits p) (pending_visitors p) (pending_visitors_by_source p) (pending_handshakes p)
    (pending_stream_opens p) (active_routed_streams p) n m.

(** Returns the state and the permit's source. *)
Definition try_admit_visitor_global (p : ServerAdmissionPolicy) :
    result AdmissionRejection (ServerAdmissionPolicy * option IpAddr) :=
  n ← try_acquire_owned VisitorsGlobal (max_pending_visitors (limits p)) (pending_visitors p);
  Ok (set_visitors n (pending_visitors_by_source p) p, None).

Definition try_admit_handshake (p : ServerAdmissionPolicy) :
    result AdmissionRejection ServerAdmissionPolicy :=
  n ← try_acquire_owned Handshakes (max_pending_handshakes (limits p)) (pending_handshakes p);
  Ok (set_handshakes n p).

Definition try_admit_pending_stream_open (p : ServerAdmissionPolicy) :
    result AdmissionRejection ServerAdmissionPolicy :=
  n ← try_acquire_owned PendingStreamOpens (max_pending_stream_opens (limits p))
        (pending_stream_opens p);
  Ok (set_opens n p).

Definition try_admit_active_routed_stream (p : ServerAdmissionPolicy) :
    result AdmissionRejection ServerAdmissionPolicy :=
  n ← try_acquire_owned ActiveRoutedStreams (max_active_routed_streams (limits p))
        (active_routed_streams p);
  Ok (set_streams n p).

(** [VisitorAdmissionPermit::use_canonical_source] on a permit whose current source is
    [previous]; [None] is the underflow panic. *)
Definition use_canonical_source (p : ServerAdmissionPolicy) (previous : option IpAddr)
    (source : IpAddr) (maximum : Z) :
    option (result AdmissionRejection (ServerAdmissionPolicy * option IpAddr)) :=
  if bool_decide (Some source = previous) then Some (Ok (p, previous))
  else
    let sources := pending_visitors_by_source p in
    let active := get sources source in
    if maximum <=? active then Some (Err (mkRejection VisitorSource active))
    else
      sources ← match previous with
                | Some prev => release sources prev
                | None => Some sources
                end;
      Some (Ok (set_visitors (pending_visitors p) (bump sources source) p, Some source)).

(** [Drop for VisitorAdmissionPermit], then the global permit. *)
Definition drop_visitor (p : ServerAdmissionPolicy) (source : option IpAddr) :
    option ServerAdmissionPolicy :=
  sources ← match source with
            | Some s => release (pending_visitors_by_source p) s
            | None => Some (pending_visitors_by_source p)
            end;
  Some (set_visitors (pending_visitors p + 1) sources p).

Definition try_acquire (p : ServerAdmissionPolicy) (client_identity : bytes) :
    result AdmissionRejection ServerAdmissionPolicy :=
  _ ← reject_if (max_tunnel_connections (limits p) <=? conn_active p)
        (mkRejection TunnelConnectionsGlobal (conn_active p));
  let identity_active := get (conn_active_by_identity p) client_identity in
  _ ← reject_if (max_tunnel_connections_per_identity (limits p) <=? identity_active)
        (mkRejection TunnelConnectionsPerIdentity identity_active);
  Ok (set_conns (conn_active p + 1) (bump (conn_active_by_identity p) client_identity) p).

(** [Drop for TunnelConnectionPermit]. *)
Definition drop_connection (p : ServerAdmissionPolicy) (client_identity : bytes) :
    option ServerAdmissionPolicy :=
  if conn_active p <? 1 then None
  else
    m ← release (conn_active_by_identity p) client_identity;
    Some (set_conns (conn_active p - 1) m p).

(** *** The Server's interleavings *)

(** The policy with the permits that its tasks hold. *)
Record World : Type := mkWorld {
  policy : ServerAdmissionPolicy;
  visitors : list (option IpAddr);
  handshakes : Z;
  opens : Z;
  streams : Z;
  connections : list bytes
}.

Definition world_new (ls : ServerAdmissionLimits) : World := mkWorld (policy_new ls) [] 0 0 0 [].

Inductive step : World → World → Prop :=
| step_admit_visitor w p s :
    try_admit_visitor_global (policy w) = Ok (p, s) →
    step w (mkWorld p (s :: visitors w) (handshakes w) (opens w) (streams w) (connections w))
| step_canonical_source w v1 previous v2 source p s :
    visitors w = v1 ++ previous :: v2 →
    use_canonical_source (policy w) previous source
      (max_pending_visitors_per_source (limits (policy w))) = Some (Ok (p, s)) →
    step w (mkWorld p (v1 ++ s :: v2) (handshakes w) (opens w) (streams w) (connections w))
| step_drop_visitor w v1 source v2 p :
    visitors w = v1 ++ source :: v2 → drop_visitor (policy w) source = Some p →
    step w (mkWorld p (v1 ++ v2) (handshakes w) (opens w) (streams w) (connections w))
| step_admit_handshake w p :
    try_admit_handshake (policy w) = Ok p →
    step w (mkWorld p (visitors w) (handshakes w + 1) (opens w) (streams w) (connections w))
| step_drop_handshake w :
    0 < handshakes w →
    step w (mkWorld (set_handshakes (pending_handshakes (policy w) + 1) (policy w))
              (visitors w) (handshakes w - 1) (opens w) (streams w) (connections w))
| step_admit_open w p :
    try_admit_pending_stream_open (policy w) = Ok p →
    step w (mkWorld p (visitors w) (handshakes w) (opens w + 1) (streams w) (connections w))
| step_drop_open w :
    0 < opens w →
    step w (mkWorld (set_opens (pending_stream_opens (policy w) + 1) (policy w))
              (visitors w) (handshakes w) (opens w - 1) (streams w) (connections w))
| step_admit_stream w p :
    try_admit_active_routed_stream (policy w) = Ok p →
    step w (mkWorld p (visitors w) (handshakes w) (opens w) (streams w + 1) (connections w))
| step_drop_stream w :
    0 < streams w →
    step w (mkWorld (set_streams (active_routed_streams (policy w) + 1) (policy w))
              (visitors w) (handshakes w) (opens w) (streams w - 1) (connections w))
| step_acquire w id p :
    try_acquire (policy w) id = Ok p →
    step w (mkWorld p (visitors w) (handshakes w) (opens w) (streams w) (id :: connections w))
| step_drop_connection w c1 id c2 p :
    connections w = c1 ++ id :: c2 → drop_connection (policy w) id = Some p →
    step w (mkWorld p (visitors w) (handshakes w) (opens w) (streams w) (c1 ++ c2)).

Definition reachable (ls : ServerAdmissionLimits) (w : World) : Prop := rtc step (world_new ls) w.

(** *** The accounting invariant *)

Definition limits_ok (ls : ServerAdmissionLimits) : Prop := ∀ l, 0 ≤ limit_value ls l.

(** The sources that outstanding Visitor permits are charged to. *)
Definition held (vs : list (option IpAddr)) : list IpAddr := omap id vs.

Record accounting (ls : ServerAdmissionLimits) (w : World) : Prop := {
  acc_limits : limits (policy w) = ls;
  acc_visitors : pending_visitors (policy w) + len (visitors w) = max_pending_visitors ls;
  acc_visitors_pos : 0 ≤ pending_visitors (policy w);
  acc_sources : tracks (pending_visitors_by_source (policy w)) (held (visitors w));
  acc_source_max : ∀ s, occurrences s (held (visitors w)) ≤ max_pending_visitors_per_source ls;
  acc_handshakes : pending_handshakes (policy w) + handshakes w = max_pending_handshakes ls;
  acc_handshakes_pos : 0 ≤ pending_handshakes (policy w) ∧ 0 ≤ handshakes w;
  acc_opens : pending_stream_opens (policy w) + opens w = max_pending_stream_opens ls;
  acc_opens_pos : 0 ≤ pending_stream_opens (policy w) ∧ 0 ≤ opens w;
  acc_streams : active_routed_streams (policy w) + streams w = max_active_routed_streams ls;
  acc_streams_pos : 0 ≤ active_routed_streams (policy w) ∧ 0 ≤ streams w;
  acc_active : conn_active (policy w) = len (connections w);
  acc_active_max : len (connections w) ≤ max_tunnel_connections ls;
  acc_identities : tracks (conn_active_by_identity (policy w)) (connections w);
  acc_identity_max : ∀ i, occurrences i (connections w) ≤ max_tunnel_connections_per_identity ls
}.

Lemma held_middle v1 s v2 : held (v1 ++ s :: v2) = held v1 ++ option_list s ++ held v2.
Proof. unfold held. rewrite omap_app. by destruct s. Qed.

Lemma held_app v1 v2 : held (v1 ++ v2) = held v1 ++ held v2.
Proof. apply omap_app. Qed.

Lemma try_acquire_owned_Ok l max n n' :
  try_acquire_owned l max n = Ok n' → n' = n - 1 ∧ 0 ≤ n'.
Proof. unfold try_acquire_owned. destruct (Z.ltb_spec 0 n); intros [= <-]. lia. Qed.

Lemma accounting_new ls : limits_ok ls → accounting ls (world_new ls).
Proof.
  intros Hls. split; simpl; rewrite ?len_nil; try lia; try apply tracks_nil; try reflexivity.
  - apply (Hls VisitorsGlobal).
  - intros ?. apply (Hls VisitorSource).
  - split; [apply (Hls Handshakes) | done].
  - split; [apply (Hls PendingStreamOpens) | done].
  - split; [apply (Hls ActiveRoutedStreams) | done].
  - apply (Hls TunnelConnectionsGlobal).
  - intros ?. apply (Hls TunnelConnectionsPerIdentity).
Qed.

Lemma release_previous m v1 previous v2 :
  tracks m (held (v1 ++ previous :: v2)) →
  ∃ m', match previous with Some prev => release m prev | None => Some m end = Some m' ∧
    tracks m' (held (v1 ++ v2)).
Proof.
  rewrite held_middle, held_app. destruct previous as [prev|]; simpl; [|eauto].
  apply tracks_release.
Qed.

(** Re-sourcing a permit: the counts follow, or the rejection says why not. *)
Lemma use_canonical_source_spec p v1 previous v2 source maximum :
  tracks (pending_visitors_by_source p) (held (v1 ++ previous :: v2)) →
  ∃ res, use_canonical_source p previous source maximum = Some res ∧
    match res with
    | Ok (p', s) =>
        s = Some source ∧ p' = set_visitors (pending_visitors p) (pending_visitors_by_source p') p ∧
        tracks (pending_visitors_by_source p') (held (v1 ++ s :: v2)) ∧
        (previous = Some source ∨ occurrences source (held (v1 ++ previous :: v2)) < maximum)
    | Err e =>
        e = mkRejection VisitorSource (occurrences source (held (v1 ++ previous :: v2))) ∧
        maximum ≤ occurrences source (held (v1 ++ previous :: v2))
    end.
Proof.
  intros Ht. unfold use_canonical_source.
  destruct (bool_decide_reflect (Some source = previous)) as [<-|Hne].
  { eexists. split; [done|]. simpl. split_and!; [done | by destruct p | done | by left]. }
  rewrite (tracks_get _ _ _ Ht).
  destruct (Z.leb_spec maximum (occurrences source (held (v1 ++ previous :: v2)))).
  { by eexists. }
  destruct (release_previous _ _ _ _ Ht) as (m' & -> & Hm'). step.
  eexists. split; [done|]. simpl. split_and!; [done | done | | by right].
  apply (tracks_perm _ (source :: held (v1 ++ v2))); [|by apply tracks_bump].
  intros k. rewrite held_middle, held_app. simpl. by rewrite occurrences_remove, occurrences_cons.
Qed.

Lemma drop_visitor_spec p v1 source v2 :
  tracks (pending_visitors_by_source p) (held (v1 ++ source :: v2)) →
  ∃ m, drop_visitor p source = Some (set_visitors (pending_visitors p + 1) m p) ∧
    tracks m (held (v1 ++ v2)).
Proof.
  intros Ht. unfold drop_visitor.
  destruct (release_previous _ _ _ _ Ht) as (m' & -> & Hm'). step. eauto.
Qed.

Lemma drop_connection_spec p c1 id c2 :
  tracks (conn_active_by_identity p) (c1 ++ id :: c2) → 1 ≤ conn_active p →
  ∃ m, drop_connection p id = Some (set_conns (conn_active p - 1) m p) ∧ tracks m (c1 ++ c2).
Proof.
  intros Ht Hp. unfold drop_connection. destruct (Z.ltb_spec (conn_active p) 1); [lia|].
  destruct (tracks_release _ _ _ _ Ht) as (m & -> & Hm). step. eauto.
Qed.

Lemma try_acquire_inv p id p' :
  try_acquire p id = Ok p' →
  conn_active p < max_tunnel_connections (limits p) ∧
  get (conn_active_by_identity p) id < max_tunnel_connections_per_identity (limits p) ∧
  p' = set_conns (conn_active p + 1) (bump (conn_active_by_identity p) id) p.
Proof.
  unfold try_acquire. intros H. invert H.
  apply reject_if_Ok, Z.leb_gt in E, E0. done.
Qed.

(** Releasing keys only lowers counts. *)
Lemma occurrences_middle_le {K} `{Countable K} (k x : K) l1 l2 m :
  occurrences k (l1 ++ x :: l2) ≤ m → occurrences k (l1 ++ l2) ≤ m.
Proof. rewrite occurrences_remove. case_bool_decide; lia. Qed.

Lemma len_middle {A} (l1 : list A) x l2 : len (l1 ++ x :: l2) = len (l1 ++ l2) + 1.
Proof. rewrite !len_app, len_cons. lia. Qed.

Lemma accounting_canonical_source ls w v1 previous v2 source p s :
  accounting ls w → visitors w = v1 ++ previous :: v2 →
  use_canonical_source (policy w) previous source (max_pending_visitors_per_source ls) =
    Some (Ok (p, s)) →
  accounting ls (mkWorld p (v1 ++ s :: v2) (handshakes w) (opens w) (streams w) (connections w)).
Proof.
  intros [] Hv Hu. rewrite Hv in *.
  destruct (use_canonical_source_spec (policy w) v1 previous v2 source
    (max_pending_visitors_per_source ls)) as (res & Hres & Hspec); [done|].
  rewrite Hu in Hres. injection Hres as <-. destruct Hspec as (-> & Hp & Ht & Hlt).
  rewrite Hp. split; simpl; try done.
  - by rewrite len_middle in *.
  - intros x. specialize (acc_source_max0 x) as Hx.
    rewrite held_middle in *. simpl in *. rewrite occurrences_remove. rewrite <- held_app.
    destruct (decide (source = x)) as [->|Hne]; [|rewrite bool_decide_false by done].
    + rewrite bool_decide_true by done. destruct Hlt as [->|Hlt].
      * simpl in Hx. rewrite occurrences_remove, bool_decide_true in Hx by done.
        by rewrite held_app.
      * rewrite held_app. destruct previous as [prev|]; simpl in *; [|lia].
        rewrite occurrences_remove in Hlt. case_bool_decide; lia.
    + rewrite held_app. destruct previous as [prev|]; simpl in Hx; [|lia].
      apply occurrences_middle_le in Hx. lia.
Qed.

Lemma accounting_drop_visitor ls w v1 source v2 p :
  accounting ls w → visitors w = v1 ++ source :: v2 →
  drop_visitor (policy w) source = Some p →
  accounting ls (mkWorld p (v1 ++ v2) (handshakes w) (opens w) (streams w) (connections w)).
Proof.
  intros [] Hv Hd. rewrite Hv in *.
  destruct (drop_visitor_spec (policy w) v1 source v2) as (m & Hm & Ht); [done|].
  rewrite Hd in Hm. injection Hm as ->. rewrite len_middle in *.
  split; simpl; try done; try lia.
  intros x. specialize (acc_source_max0 x). rewrite held_middle, held_app in *.
  destruct source; simpl in *; [by eapply occurrences_middle_le | done].
Qed.

Lemma accounting_drop_connection ls w c1 id c2 p :
  accounting ls w → connections w = c1 ++ id :: c2 →
  drop_connection (policy w) id = Some p →
  accounting ls (mkWorld p (visitors w) (handshakes w) (opens w) (streams w) (c1 ++ c2)).
Proof.
  intros [] Hc Hd. rewrite Hc, len_middle in *. pose proof (len_nonneg (c1 ++ c2)).
  destruct (drop_connection_spec (policy w) c1 id c2) as (m & Hm & Ht); [done | lia |].
  rewrite Hd in Hm. injection Hm as ->. split; simpl; try done; try lia.
  intros x. by eapply occurrences_middle_le.
Qed.

Lemma accounting_acquire ls w id p :
  accounting ls w → try_acquire (policy w) id = Ok p →
  accounting ls (mkWorld p (visitors w) (handshakes w) (opens w) (streams w) (id :: connections w)).
Proof.
  intros [] Ha. apply try_acquire_inv in Ha as (Hmax & Hid & ->).
  rewrite acc_limits0, acc_active0 in *. rewrite (tracks_get _ _ _ acc_identities0) in Hid.
  split; simpl; rewrite ?len_cons; try done; try lia.
  - by apply tracks_bump.
  - intros x. rewrite occurrences_cons. specialize (acc_identity_max0 x).
    case_bool_decide; subst; lia.
Qed.

Lemma accounting_step ls w w' : accounting ls w → step w w' → accounting ls w'.
Proof.
  intros Hw Hstep. destruct Hstep as [w p s Ha|w v1 prev v2 source p s Hv Hu|w v1 source v2 p Hv Hd
    |w p Ha|w Hpos|w p Ha|w Hpos|w p Ha|w Hpos|w id p Ha|w c1 id c2 p Hc Hd].
  2: { eapply accounting_canonical_source; eauto. by rewrite (acc_limits _ _ Hw) in Hu. }
  2: by eapply accounting_drop_visitor.
  8: by eapply accounting_acquire.
  8: by eapply accounting_drop_connection.
  all: destruct Hw.
  - unfold try_admit_visitor_global in Ha. invert Ha. apply try_acquire_owned_Ok in E as [-> ?].
    split; simpl; rewrite ?len_cons; try done; lia.
  - unfold try_admit_handshake in Ha. invert Ha. apply try_acquire_owned_Ok in E as [-> ?].
    split; simpl; try done; lia.
  - split; simpl; try done; lia.
  - unfold try_admit_pending_stream_open in Ha. invert Ha.
    apply try_acquire_owned_Ok in E as [-> ?]. split; simpl; try done; lia.
  - split; simpl; try done; lia.
  - unfold try_admit_active_routed_stream in Ha. invert Ha.
    apply try_acquire_owned_Ok in E as [-> ?]. split; simpl; try done; lia.
  - split; simpl; try done; lia.
Qed.

Lemma accounting_reachable ls w : limits_ok ls → reachable ls w → accounting ls w.
Proof.
  intros Hls Hr. assert (accounting ls (world_new ls)) as H0 by by apply accounting_new.
  unfold reachable in Hr. induction Hr as [|x y z Hxy _ IH]; [done|].
  apply IH. by eapply accounting_step.
Qed.

End Policy.

(** ** The saturation log gate *)
Module LogGate.
Import Policy.

Definition SATURATION_LOG_INTERVAL : Z := 10000000000. (* nanoseconds *)

Inductive AdmissionLogOutcome : Type :=
| Saturation (l : AdmissionLimit)
| PublicAcceptRetry
| TunnelHandshakeFailure.

#[export] Instance AdmissionLogOutcome_eq_dec : EqDecision AdmissionLogOutcome.
Proof. solve_decision. Defined.

Definition outcome_code (o : AdmissionLogOutcome) : nat :=
  match o with
  | Saturation VisitorsGlobal => 0 | Saturation VisitorSource => 1
  | Saturation Handshakes => 2 | Saturation PendingStreamOpens => 3
  | Saturation ActiveRoutedStreams => 4 | Saturation TunnelConnectionsGlobal => 5
  | Saturation TunnelConnectionsPerTunnel => 6 | Saturation TunnelConnectionsPerIdentity => 7
  | PublicAcceptRetry => 8 | TunnelHandshakeFailure => 9
  end.
Definition outcome_of_code (n : nat) : AdmissionLogOutcome :=
  match n with
  | 0 => Saturation VisitorsGlobal | 1 => Saturation VisitorSource
  | 2 => Saturation Handshakes | 3 => Saturation PendingStreamOpens
  | 4 => Saturation ActiveRoutedStreams | 5 => Saturation TunnelConnectionsGlobal
  | 6 => Saturation TunnelConnectionsPerTunnel | 7 => Saturation TunnelConnectionsPerIdentity
  | 8 => PublicAcceptRetry | _ => TunnelHandshakeFailure
  end%nat.
#[export] Instance AdmissionLogOutcome_countable : Countable AdmissionLogOutcome.
Proof.
  refine (inj_countable' outcome_code outcome_of_code _). by intros [[]| |].
Defined.

Record AdmissionLogGate : Type := mkGate {
  last_logged : gmap AdmissionLogOutcome Z;
  active : gset AdmissionLogOutcome
}.

Definition gate_default : AdmissionLogGate := mkGate ∅ ∅.

(** [Instant::saturating_duration_since]. *)
Definition saturating_duration_since (now earlier : Z) : Z := Z.max 0 (now - earlier).

Definition should_log (g : AdmissionLogGate) (outcome : AdmissionLogOutcome) (now : Z) :
    AdmissionLogGate * bool :=
  let act := {[ outcome ]} ∪ active g in
  let recent := match last_logged g !! outcome with
                | Some last => saturating_duration_since now last <? SATURATION_LOG_INTERVAL
                | None => false
                end in
  if recent then (mkGate (last_logged g) act, false)
  else (mkGate (<[outcome := now]> (last_logged g)) act, true).

Definition take_recovered (g : AdmissionLogGate) (outcome : AdmissionLogOutcome) :
    AdmissionLogGate * bool :=
  (mkGate (last_logged g) (active g ∖ {[ outcome ]}), bool_decide (outcome ∈ active g)).

(** The calls a Server makes on the shared gate, and the times it logs [o] at. *)
Inductive gate_call : Type :=
| ShouldLog (o : AdmissionLogOutcome) (now : Z)
| TakeRecovered (o : AdmissionLogOutcome).

Fixpoint logged_times (o : AdmissionLogOutcome) (g : AdmissionLogGate) (calls : list gate_call) :
    list Z :=
  match calls with
  | [] => []
  | ShouldLog o' now :: calls' =>
      let '(g', logged) := should_log g o' now in
      (if logged && bool_decide (o' = o) then [now] else []) ++ logged_times o g' calls'
  | TakeRecovered o' :: calls' => logged_times o (take_recovered g o').1 calls'
  end.

Definition spaced (a b : Z) : Prop := a + SATURATION_LOG_INTERVAL ≤ b.

Lemma logged_times_spaced o calls g :
  match last_logged g !! o with
  | Some last => Sorted spaced (last :: logged_times o g calls)
  | None => Sorted spaced (logged_times o g calls)
  end.
Proof.
  revert g. induction calls as [|[o' now|o'] calls IH]; intros g; cbn [logged_times].
  - destruct (last_logged g !! o); repeat constructor.
  - unfold should_log. destruct (decide (o' = o)) as [->|Hne].
    + destruct (last_logged g !! o) as [last|] eqn:El.
      * unfold saturating_duration_since.
        destruct (Z.ltb_spec (Z.max 0 (now - last)) SATURATION_LOG_INTERVAL) as [Hr|Hr].
        -- specialize (IH (mkGate (last_logged g) ({[o]} ∪ active g))). simpl in *.
           by rewrite El in IH.
        -- specialize (IH (mkGate (<[o := now]> (last_logged g)) ({[o]} ∪ active g))).
           simpl in IH. rewrite lookup_insert_eq in IH. simpl.
           rewrite bool_decide_true by done. constructor; [done|].
           constructor. unfold spaced, SATURATION_LOG_INTERVAL in *. lia.
      * specialize (IH (mkGate (<[o := now]> (last_logged g)) ({[o]} ∪ active g))).
        simpl in IH. rewrite lookup_insert_eq in IH. simpl.
        by rewrite bool_decide_true by done.
    + destruct (match last_logged g !! o' with Some _ => _ | None => _ end).
      * specialize (IH (mkGate (last_logged g) ({[o']} ∪ active g))). simpl in *. done.
      * specialize (IH (mkGate (<[o' := now]> (last_logged g)) ({[o']} ∪ active g))).
        simpl in *. rewrite lookup_insert_ne in IH by done.
        by rewrite bool_decide_false by done.
  - specialize (IH (take_recovered g o').1). done.
Qed.

End LogGate.

(** ** Accept backoff *)
Module Backoff.

Definition ACCEPT_BACKOFF_INITIAL : Z := 10. (* milliseconds *)
Definition ACCEPT_BACKOFF_MAX : Z := 1000.

Inductive ErrorKind : Type :=
| Interrupted | WouldBlock | ConnectionAborted | ConnectionReset | KindTimedOut | OutOfMemory
| OtherKind (code : Z).

Record io_error : Type := mkIoError { kind : ErrorKind; raw_os_error : option Z }.

Definition is_transient_accept_error (e : io_error) : bool :=
  match kind e with
  | Interrupted | WouldBlock | ConnectionAborted | ConnectionReset | KindTimedOut | OutOfMemory => true
  | OtherKind _ => false
  end
  || match raw_os_error e with
     | Some n => (n =? 12) || (n =? 23) || (n =? 24) || (n =? 55) || (n =? 105)
     | None => false
     end.

Record AcceptBackoff : Type := mkBackoff { next_delay : Z; recovering : bool }.

Definition backoff_default : AcceptBackoff := mkBackoff ACCEPT_BACKOFF_INITIAL false.

(** [Duration::saturating_mul] cannot saturate below the one-second cap. *)
Definition on_error (b : AcceptBackoff) (e : io_error) : AcceptBackoff * option Z :=
  if negb (is_transient_accept_error e) then (b, None)
  else (mkBackoff (Z.min (next_delay b * 2) ACCEPT_BACKOFF_MAX) true, Some (next_delay b)).

Definition on_success (b : AcceptBackoff) : AcceptBackoff * bool :=
  (mkBackoff ACCEPT_BACKOFF_INITIAL false, recovering b).

(** The delays after a run of transient errors. *)
Fixpoint delays (b : AcceptBackoff) (errors : list io_error) : list (option Z) * AcceptBackoff :=
  match errors with
  | [] => ([], b)
  | e :: errors' =>
      let '(b', d) := on_error b e in
      let '(ds, b'') := delays b' errors' in (d :: ds, b'')
  end.

Lemma delays_spec k errors :
  Forall (λ e, is_transient_accept_error e = true) errors →
  ∀ n d, (delays (mkBackoff (Z.min (10 * 2 ^ Z.of_nat k) 1000) (negb (Nat.eqb k 0))) errors).1 !! n =
    Some d → d = Some (Z.min (10 * 2 ^ Z.of_nat (k + n)) 1000).
Proof.
  intros Hall. revert k. induction Hall as [|e errors He _ IH]; intros k n d Hn; [done|].
  cbn [delays] in Hn. unfold on_error in Hn. rewrite He in Hn. simpl negb in Hn. cbn iota in Hn.
  assert (mkBackoff (Z.min (next_delay (mkBackoff (Z.min (10 * 2 ^ Z.of_nat k) 1000) (negb (Nat.eqb k 0))) * 2)
    ACCEPT_BACKOFF_MAX) true =
    mkBackoff (Z.min (10 * 2 ^ Z.of_nat (S k)) 1000) (negb (Nat.eqb (S k) 0))) as Hb.
  { cbn [next_delay]. rewrite Nat2Z.inj_succ, Z.pow_succ_r by lia. unfold ACCEPT_BACKOFF_MAX.
    simpl negb. f_equal. lia. }
  rewrite Hb in Hn. destruct (delays _ errors) as [ds b'] eqn:Ed.
  destruct n as [|n]; simpl in Hn.
  - injection Hn as <-. simpl. by rewrite Nat.add_0_r.
  - specialize (IH (S k) n d). rewrite Ed in IH. rewrite IH by done. by replace (k + S n)%nat with (S k + n)%nat by lia.
Qed.

End Backoff.

(** ** Properties *)

Import Counter Policy LogGate Backoff.

(** Whatever order the Server's tasks acquire, re-source and drop permits in, the
    admission counters equal the permits outstanding and no configured limit is ever
    exceeded: pending Visitors in total and per source, handshakes, pending stream
    opens, routed streams, Tunnel connections in total and per Client identity. *)
Theorem admission_limits_hold ls w :
  limits_ok ls → reachable ls w →
  pending_visitors (policy w) + len (visitors w) = max_pending_visitors ls ∧
  len (visitors w) ≤ max_pending_visitors ls ∧
  (∀ s, get (pending_visitors_by_source (policy w)) s = occurrences s (held (visitors w)) ∧
        occurrences s (held (visitors w)) ≤ max_pending_visitors_per_source ls) ∧
  0 ≤ handshakes w ≤ max_pending_handshakes ls ∧
  0 ≤ opens w ≤ max_pending_stream_opens ls ∧
  0 ≤ streams w ≤ max_active_routed_streams ls ∧
  conn_active (policy w) = len (connections w) ∧
  len (connections w) ≤ max_tunnel_connections ls ∧
  (∀ i, get (conn_active_by_identity (policy w)) i = occurrences i (connections w) ∧
        occurrences i (connections w) ≤ max_tunnel_connections_per_identity ls).
Proof.
  intros Hls Hr. destruct (accounting_reachable _ _ Hls Hr).
  split_and!; try done; try lia.
  - intros s. split; [by apply tracks_get | done].
  - intros i. split; [by apply tracks_get | done].
Qed.

(** Two Visitors and a connection under tiny limits. *)
Definition small_limits : ServerAdmissionLimits := mkLimits 5000 5000 2 1 1 1 1 1 1 1.

Lemma small_limits_ok : limits_ok small_limits.
Proof. intros []; by vm_compute. Qed.

Definition small_world : World :=
  mkWorld (set_conns 1 {[ bs "id" := 1 ]} (set_visitors 1 {[ IpV4 7 := 1 ]} (policy_new small_limits)))
    [Some (IpV4 7)] 0 0 0 [bs "id"].

Lemma small_world_reachable : reachable small_limits small_world.
Proof.
  eapply rtc_l; [eapply step_admit_visitor; by vm_compute|].
  eapply rtc_l; [eapply (step_canonical_source _ [] None [] (IpV4 7)); by vm_compute|].
  eapply rtc_l; [eapply (step_acquire _ (bs "id")); by vm_compute|]. apply rtc_refl.
Qed.

Lemma admission_limits_hold_witness :
  occurrences (IpV4 7) (held (visitors small_world)) ≤ 1 ∧ len (connections small_world) ≤ 1.
Proof.
  destruct (admission_limits_hold small_limits small_world small_limits_ok
    small_world_reachable) as (_ & _ & Hs & _ & _ & _ & _ & Hc & _).
  split; [apply (Hs (IpV4 7)) | apply Hc].
Defined.

(** No permit operation can underflow a counter: in every reachable state, every
    outstanding Visitor permit can be dropped or moved to any source and every
    connection permit can be dropped without a panic. *)
Theorem admission_never_underflows ls w :
  limits_ok ls → reachable ls w →
  (∀ s, s ∈ visitors w → is_Some (drop_visitor (policy w) s) ∧
     ∀ source maximum, is_Some (use_canonical_source (policy w) s source maximum)) ∧
  (∀ i, i ∈ connections w → is_Some (drop_connection (policy w) i)).
Proof.
  intros Hls Hr. destruct (accounting_reachable _ _ Hls Hr). split.
  - intros s (v1 & v2 & Hv)%list_elem_of_split. rewrite Hv in *. split.
    + destruct (drop_visitor_spec (policy w) v1 s v2) as (m & -> & _); [done|]. eauto.
    + intros source maximum.
      destruct (use_canonical_source_spec (policy w) v1 s v2 source maximum)
        as (res & -> & _); [done|]. eauto.
  - intros i (c1 & c2 & Hc)%list_elem_of_split. rewrite Hc, len_middle in *.
    pose proof (len_nonneg (c1 ++ c2)).
    destruct (drop_connection_spec (policy w) c1 i c2) as (m & -> & _); [done | lia |]. eauto.
Qed.

Lemma admission_never_underflows_witness :
  is_Some (drop_visitor (policy small_world) (Some (IpV4 7))) ∧
  is_Some (drop_connection (policy small_world) (bs "id")).
Proof.
  destruct (admission_never_underflows small_limits small_world small_limits_ok
    small_world_reachable) as [Hv Hc].
  split; [apply Hv; by left | apply Hc; by left].
Defined.

(** Admission is exact: in every reachable state a connection of an identity is
    admitted if and only if both the global and the identity's limit leave room, a
    Visitor if and only if the global limit does, and a rejection names the limit that
    was hit and the true number of active permits. *)
Theorem admission_decisions_exact ls w id :
  limits_ok ls → reachable ls w →
  match try_acquire (policy w) id with
  | Ok _ => len (connections w) < max_tunnel_connections ls ∧
            occurrences id (connections w) < max_tunnel_connections_per_identity ls
  | Err e =>
      e = mkRejection TunnelConnectionsGlobal (len (connections w)) ∧
        len (connections w) = max_tunnel_connections ls ∨
      e = mkRejection TunnelConnectionsPerIdentity (occurrences id (connections w)) ∧
        occurrences id (connections w) = max_tunnel_connections_per_identity ls
  end ∧
  match try_admit_visitor_global (policy w) with
  | Ok _ => len (visitors w) < max_pending_visitors ls
  | Err e => e = mkRejection VisitorsGlobal (len (visitors w)) ∧
             len (visitors w) = max_pending_visitors ls
  end.
Proof.
  intros Hls Hr. destruct (accounting_reachable _ _ Hls Hr). split.
  - unfold try_acquire. rewrite acc_limits0, acc_active0, (tracks_get _ _ _ acc_identities0).
    specialize (acc_identity_max0 id).
    destruct (Z.leb_spec (max_tunnel_connections ls) (len (connections w))); step; [left; split; [done|lia]|].
    destruct (Z.leb_spec (max_tunnel_connections_per_identity ls) (occurrences id (connections w)));
      step; [right; split; [done|lia] | lia].
  - unfold try_admit_visitor_global, try_acquire_owned. rewrite acc_limits0.
    destruct (Z.ltb_spec 0 (pending_visitors (policy w))); step; [lia|].
    split; [f_equal|]; lia.
Qed.

Lemma admission_decisions_exact_witness :
  try_acquire (policy small_world) (bs "id") = Err (mkRejection TunnelConnectionsGlobal 1) ∧
  len (visitors small_world) < 2.
Proof.
  split; [by vm_compute|].
  apply (admission_decisions_exact small_limits small_world (bs "id") small_limits_ok
    small_world_reachable).
Defined.

(** When every permit has been returned the policy is back in its initial state:
    nothing leaks, and no source or identity entry is left behind. *)
Theorem admission_returns_to_idle ls w :
  limits_ok ls → reachable ls w →
  visitors w = [] → handshakes w = 0 → opens w = 0 → streams w = 0 → connections w = [] →
  policy w = policy_new ls.
Proof.
  intros Hls Hr Hv Hh Ho Hs Hc. destruct (accounting_reachable _ _ Hls Hr).
  rewrite Hv, Hc in *. destruct (policy w); simpl in *. subst.
  unfold policy_new, len in *. simpl in *. f_equal; try lia.
  - apply map_eq. intros k. by rewrite acc_sources0, lookup_empty.
  - apply map_eq. intros k. by rewrite acc_identities0, lookup_empty.
Qed.

Lemma admission_returns_to_idle_witness :
  policy (world_new small_limits) = policy_new small_limits.
Proof.
  apply (admission_returns_to_idle small_limits (world_new small_limits) small_limits_ok);
    [apply rtc_refl | done..].
Defined.

(** The saturation log is rate limited: whatever sequence of calls the Server makes,
    and whatever the clock does, two log lines for the same outcome are at least ten
    seconds apart. *)
Theorem saturation_log_spaced o calls :
  Sorted spaced (logged_times o gate_default calls).
Proof. apply (logged_times_spaced o calls gate_default). Qed.

(** After [n] consecutive transient accept errors the next delay is
    min(10 ms * 2^n, 1 s), and a success resets the backoff and reports a recovery
    exactly when an error came before it. *)
Theorem accept_backoff_exponential errors n d :
  Forall (λ e, is_transient_accept_error e = true) errors →
  (delays backoff_default errors).1 !! n = Some d →
  d = Some (Z.min (ACCEPT_BACKOFF_INITIAL * 2 ^ Z.of_nat n) ACCEPT_BACKOFF_MAX) ∧
  on_success (delays backoff_default errors).2 = (backoff_default, true).
Proof.
  intros Hall Hn. split; [by apply (delays_spec 0 errors Hall n d)|].
  unfold on_success, backoff_default. f_equal.
  destruct errors as [|e errors]; [done|]. clear Hn.
  assert (∀ es b, Forall (λ e, is_transient_accept_error e = true) es →
    recovering b = true → recovering (delays b es).2 = true) as Hrec.
  { induction es as [|x es IH]; intros b Hes Hb; [done|]. inversion Hes; subst.
    cbn [delays]. unfold on_error. rewrite H1. simpl. destruct (delays _ es) eqn:E.
    specialize (IH _ H2 (eq_refl : recovering (mkBackoff (Z.min (next_delay b * 2) ACCEPT_BACKOFF_MAX) true) = true)).
    by rewrite E in IH. }
  inversion Hall as [|? ? He Hes]; subst. cbn [delays]. unfold on_error. rewrite He. simpl.
  destruct (delays _ errors) as [ds b] eqn:E.
  specialize (Hrec errors (mkBackoff (Z.min (ACCEPT_BACKOFF_INITIAL * 2) ACCEPT_BACKOFF_MAX) true) Hes eq_refl).
  by rewrite E in Hrec.
Qed.

Lemma accept_backoff_exponential_witness :
  let e := mkIoError (OtherKind 0) (Some 24) in
  Some 80 = Some (Z.min (ACCEPT_BACKOFF_INITIAL * 2 ^ 3) ACCEPT_BACKOFF_MAX) ∧
  on_success (delays backoff_default [e; e; e; e]).2 = (backoff_default, true).
Proof.
  intros e. apply (accept_backoff_exponential [e; e; e; e] 3 (Some 80)).
  - by repeat constructor.
  - by vm_compute.
Defined.
