(* ===== verification/Authorization.v ===== *)
(** * Authorization: the Server's authorization snapshots

    Construction, validation and replacement of the immutable snapshot that routing
    and handshake admission consult ([src/server/authorization.rs]). *)

From Stdlib Require Import Ascii ZArith Lia.
From stdpp Require Import base strings numbers gmap list.
From S2P Require Import Prelude.

Local Open Scope nat_scope.
Local Set Warnings "-clear-no-such-hyp".

(** [ServerTunnelConfig]: hostnames, identities and Tunnel IDs are validated text. *)
Record ServerTunnelConfig : Type := mkTunnel {
  tunnel_id : option bytes;
  public_hostnames : list bytes;
  authorized_client_identities : list bytes
}.

Inductive AuthorizationError : Type :=
| StaticTunnelId
| MissingTunnelId
| DuplicateTunnelId (id : bytes)
| EmptyPublicHostnames
| DuplicateClientIdentity (identity : bytes)
| IncludesServerHostname (hostname : bytes)
| DuplicatePublicHostname (hostname : bytes)
| StaticReplacement.

Inductive AuthorizationContinuity : Type :=
| Static
| Managed (ids : list bytes).

Record AuthorizationSnapshot : Type := mkSnapshot {
  client_identity_to_tunnel : gmap bytes nat;
  public_hostname_to_tunnel : gmap bytes nat;
  trusted_client_identities : gset bytes;
  continuity : AuthorizationContinuity;
  tunnel_count : nat
}.

(** The four mutable collections of [build_authorization_maps]. *)
Record MapsState : Type := mkMaps {
  m_identities : gmap bytes nat;
  m_hostnames : gmap bytes nat;
  seen_client_identities : gset bytes;
  seen_public_hostnames : gset bytes
}.

(** The body of the loop over a Tunnel's identities. *)
Definition add_identity (index : nat) (m : MapsState) (i : bytes) : result AuthorizationError MapsState :=
  _ ← reject_if (bool_decide (i ∈ seen_client_identities m)) (DuplicateClientIdentity i);
  Ok (mkMaps (<[i := index]> (m_identities m)) (m_hostnames m)
        ({[ i ]} ∪ seen_client_identities m) (seen_public_hostnames m)).

(** The body of the loop over a Tunnel's hostnames. *)
Definition add_hostname (server_hostname : bytes) (index : nat) (m : MapsState) (h : bytes) :
    result AuthorizationError MapsState :=
  _ ← reject_if (bool_decide (h = server_hostname)) (IncludesServerHostname server_hostname);
  _ ← reject_if (bool_decide (h ∈ seen_public_hostnames m)) (DuplicatePublicHostname h);
  Ok (mkMaps (m_identities m) (<[h := index]> (m_hostnames m))
        (seen_client_identities m) ({[ h ]} ∪ seen_public_hostnames m)).

Definition add_tunnel (server_hostname : bytes) (m : MapsState) (it : nat * ServerTunnelConfig) :
    result AuthorizationError MapsState :=
  let '(index, tunnel) := it in
  _ ← reject_if (bool_decide (public_hostnames tunnel = [])) EmptyPublicHostnames;
  m ← try_fold (add_identity index) m (authorized_client_identities tunnel);
  try_fold (add_hostname server_hostname index) m (public_hostnames tunnel).

(** [iter().enumerate()]. *)
Definition enumerate {A} (l : list A) : list (nat * A) := imap (λ i a, (i, a)) l.

Definition build_authorization_maps (server_hostname : bytes) (tunnels : list ServerTunnelConfig) :
    result AuthorizationError MapsState :=
  try_fold (add_tunnel server_hostname) (mkMaps ∅ ∅ ∅ ∅) (enumerate tunnels).

Definition snapshot_of (m : MapsState) (c : AuthorizationContinuity)
    (tunnels : list ServerTunnelConfig) : AuthorizationSnapshot :=
  mkSnapshot (m_identities m) (m_hostnames m) (dom (m_identities m)) c (length tunnels).

Definition try_from_static_tunnels (server_hostname : bytes) (tunnels : list ServerTunnelConfig) :
    result AuthorizationError AuthorizationSnapshot :=
  _ ← reject_if (existsb (λ t, bool_decide (is_Some (tunnel_id t))) tunnels) StaticTunnelId;
  m ← build_authorization_maps server_hostname tunnels;
  Ok (snapshot_of m Static tunnels).

(** The loop that collects the Tunnel IDs; the accumulator is [(tunnel_ids, seen)]. *)
Definition collect_tunnel_id (acc : list bytes * gset bytes) (tunnel : ServerTunnelConfig) :
    result AuthorizationError (list bytes * gset bytes) :=
  id ← ok_or MissingTunnelId (tunnel_id tunnel);
  _ ← reject_if (bool_decide (id ∈ acc.2)) (DuplicateTunnelId id);
  Ok (acc.1 ++ [id], {[ id ]} ∪ acc.2).

Definition try_from_managed_tunnels (server_hostname : bytes) (tunnels : list ServerTunnelConfig) :
    result AuthorizationError AuthorizationSnapshot :=
  '(tunnel_ids, _) ← try_fold collect_tunnel_id ([], ∅) tunnels;
  m ← build_authorization_maps server_hostname tunnels;
  Ok (snapshot_of m (Managed tunnel_ids) tunnels).

Definition empty_managed : AuthorizationSnapshot := mkSnapshot ∅ ∅ ∅ (Managed []) 0.

Definition managed_tunnel_ids (s : AuthorizationSnapshot) : option (list bytes) :=
  match continuity s with Managed ids => Some ids | Static => None end.

Definition tunnel_index_for_public_hostname (s : AuthorizationSnapshot) (h : bytes) : option nat :=
  public_hostname_to_tunnel s !! h.
Definition tunnel_index_for_client_identity (s : AuthorizationSnapshot) (i : bytes) : option nat :=
  client_identity_to_tunnel s !! i.
Definition authorizes_client_identity (s : AuthorizationSnapshot) (i : bytes) : bool :=
  bool_decide (i ∈ trusted_client_identities s).

(** Validates a candidate beside the live snapshot [current]. *)
Definition prepare_managed_replacement (current : AuthorizationSnapshot) (server_hostname : bytes)
    (tunnels : list ServerTunnelConfig) : result AuthorizationError AuthorizationSnapshot :=
  match continuity current with
  | Static => Err StaticReplacement
  | Managed _ => try_from_managed_tunnels server_hostname tunnels
  end.

(** ** What a valid configuration is *)

Definition all_identities (ts : list ServerTunnelConfig) : list bytes :=
  ts ≫= authorized_client_identities.
Definition all_hostnames (ts : list ServerTunnelConfig) : list bytes := ts ≫= public_hostnames.

Definition tunnels_valid (server_hostname : bytes) (ts : list ServerTunnelConfig) : Prop :=
  Forall (λ t, public_hostnames t ≠ []) ts ∧ NoDup (all_identities ts) ∧
  NoDup (all_hostnames ts) ∧ (server_hostname ∉ all_hostnames ts).

(** [index_of field ts k i]: the Tunnel at position [i] lists [k]. *)
Definition lists_key (field : ServerTunnelConfig → list bytes) (ts : list ServerTunnelConfig)
    (k : bytes) (i : nat) : Prop :=
  ∃ t, ts !! i = Some t ∧ k ∈ field t.

(** ** The loops *)

Lemma add_identities_Ok index ids m m' :
  try_fold (add_identity index) m ids = Ok m' ↔
  NoDup ids ∧ (∀ i, i ∈ ids → i ∉ seen_client_identities m) ∧
  m' = mkMaps (foldl (λ acc i, <[i := index]> acc) (m_identities m) ids) (m_hostnames m)
         (list_to_set ids ∪ seen_client_identities m) (seen_public_hostnames m).
Proof.
  revert m. induction ids as [|i ids IH]; intros m; simpl.
  - split.
    + intros [= <-]. split_and!; [constructor | set_solver |].
      destruct m. f_equal; set_solver.
    + intros (_ & _ & ->). destruct m. simpl. do 2 f_equal. set_solver.
  - assert (add_identity index m i =
      if bool_decide (i ∈ seen_client_identities m) then Err (DuplicateClientIdentity i)
      else Ok (mkMaps (<[i := index]> (m_identities m)) (m_hostnames m)
        ({[ i ]} ∪ seen_client_identities m) (seen_public_hostnames m))) as ->
      by (unfold add_identity; by case_bool_decide).
    case_bool_decide as Hin; step.
    { split; [done|]. intros (_ & Hseen & _). destruct (Hseen i); [by left | done]. }
    rewrite IH. simpl. rewrite NoDup_cons. split.
    + intros (Hnd & Hseen & ->). split_and!; [set_solver | done | set_solver |].
      f_equal. set_solver.
    + intros ([Hi Hnd] & Hseen & ->). split_and!; [done | set_solver |]. f_equal. set_solver.
Qed.

Lemma add_hostnames_Ok sh index hs m m' :
  try_fold (add_hostname sh index) m hs = Ok m' ↔
  NoDup hs ∧ (sh ∉ hs) ∧ (∀ h, h ∈ hs → h ∉ seen_public_hostnames m) ∧
  m' = mkMaps (m_identities m) (foldl (λ acc h, <[h := index]> acc) (m_hostnames m) hs)
         (seen_client_identities m) (list_to_set hs ∪ seen_public_hostnames m).
Proof.
  revert m. induction hs as [|h hs IH]; intros m; simpl.
  - split.
    + intros [= <-]. split_and!; [constructor | set_solver | set_solver |].
      destruct m. f_equal; set_solver.
    + intros (_ & _ & _ & ->). destruct m. simpl. do 2 f_equal. set_solver.
  - assert (add_hostname sh index m h =
      if bool_decide (h = sh) then Err (IncludesServerHostname sh)
      else if bool_decide (h ∈ seen_public_hostnames m) then Err (DuplicatePublicHostname h)
      else Ok (mkMaps (m_identities m) (<[h := index]> (m_hostnames m))
        (seen_client_identities m) ({[ h ]} ∪ seen_public_hostnames m))) as ->
      by (unfold add_hostname; by repeat case_bool_decide).
    case_bool_decide as Hsh; step.
    { split; [done|]. intros (_ & Hnot & _). subst. set_solver. }
    case_bool_decide as Hin; step.
    { split; [done|]. intros (_ & _ & Hseen & _). destruct (Hseen h); [by left | done]. }
    rewrite IH. simpl. rewrite NoDup_cons. split.
    + intros (Hnd & Hnot & Hseen & ->). split_and!; [set_solver | done | set_solver | set_solver |].
      f_equal. set_solver.
    + intros ([Hi Hnd] & Hnot & Hseen & ->). split_and!; [done | set_solver | set_solver |].
      f_equal. set_solver.
Qed.

Lemma add_tunnel_Ok sh m index t m' :
  add_tunnel sh m (index, t) = Ok m' ↔
  public_hostnames t ≠ [] ∧
  NoDup (authorized_client_identities t) ∧
  (∀ i, i ∈ authorized_client_identities t → i ∉ seen_client_identities m) ∧
  NoDup (public_hostnames t) ∧ (sh ∉ public_hostnames t) ∧
  (∀ h, h ∈ public_hostnames t → h ∉ seen_public_hostnames m) ∧
  m' = mkMaps
    (foldl (λ acc i, <[i := index]> acc) (m_identities m) (authorized_client_identities t))
    (foldl (λ acc h, <[h := index]> acc) (m_hostnames m) (public_hostnames t))
    (list_to_set (authorized_client_identities t) ∪ seen_client_identities m)
    (list_to_set (public_hostnames t) ∪ seen_public_hostnames m).
Proof.
  unfold add_tunnel. case_bool_decide as He; step.
  { split; [done|]. by intros (? & _). }
  destruct (try_fold (add_identity index) m (authorized_client_identities t)) as [m1|e] eqn:E1; step.
  - apply add_identities_Ok in E1 as (Hnd & Hseen & ->).
    rewrite add_hostnames_Ok. simpl. tauto.
  - split; [done|]. intros (_ & Hnd & Hseen & _ & _ & _ & _).
    rewrite (proj2 (add_identities_Ok index _ m _)) in E1 by (split_and!; done). done.
Qed.

Lemma lookup_foldl_insert (index : nat) (ks : list bytes) (m : gmap bytes nat) k :
  foldl (λ acc i, <[i := index]> acc) m ks !! k = if decide (k ∈ ks) then Some index else m !! k.
Proof.
  revert m. induction ks as [|x ks IH]; intros m; cbn [foldl].
  { by rewrite decide_False by apply not_elem_of_nil. }
  rewrite IH. destruct (decide (k ∈ ks)) as [Hk|Hk].
  - by rewrite decide_True by by right.
  - destruct (decide (k = x)) as [->|Hne].
    + rewrite lookup_insert_eq, decide_True by by left. done.
    + by rewrite lookup_insert_ne, decide_False by (done || by rewrite elem_of_cons; intros [?|?]).
Qed.

(** What the maps hold after the Tunnels [ts]. *)
Record maps_spec (ts : list ServerTunnelConfig) (m : MapsState) : Prop := {
  spec_identities : ∀ k i, m_identities m !! k = Some i ↔ lists_key authorized_client_identities ts k i;
  spec_hostnames : ∀ k i, m_hostnames m !! k = Some i ↔ lists_key public_hostnames ts k i;
  spec_seen_identities : seen_client_identities m = list_to_set (all_identities ts);
  spec_seen_hostnames : seen_public_hostnames m = list_to_set (all_hostnames ts)
}.

Lemma lists_key_snoc field ts t k i :
  lists_key field (ts ++ [t]) k i ↔ lists_key field ts k i ∨ (i = length ts ∧ k ∈ field t).
Proof.
  unfold lists_key. split.
  - intros (t' & Hl & Hk). apply lookup_app_Some in Hl as [Hl|[Hge Hl]]; [left; eauto|].
    right. apply list_lookup_singleton_Some in Hl as [Hi ->]. split; [lia | done].
  - intros [(t' & Hl & Hk)|[-> Hk]].
    + exists t'. split; [by apply lookup_app_l_Some | done].
    + exists t. split; [by rewrite lookup_app_r, Nat.sub_diag by lia | done].
Qed.

Lemma lists_key_elem field ts k i : lists_key field ts k i → k ∈ (ts ≫= field).
Proof.
  intros (t & Hl & Hk). apply list_elem_of_bind. exists t. split; [done|].
  by apply list_elem_of_lookup_2 in Hl.
Qed.

Lemma fold_insert_spec (field : ServerTunnelConfig → list bytes) (ts : list ServerTunnelConfig)
    (t : ServerTunnelConfig) (m : gmap bytes nat) :
  (∀ (k : bytes) (i : nat), m !! k = Some i ↔ lists_key field ts k i) →
  (∀ k : bytes, k ∈ field t → k ∉ (ts ≫= field)) →
  ∀ (k : bytes) (i : nat), foldl (λ acc x, <[x := length ts]> acc) m (field t) !! k = Some i ↔
    lists_key field (ts ++ [t]) k i.
Proof.
  intros Hm Hfresh k i. rewrite lookup_foldl_insert, lists_key_snoc.
  destruct (decide (k ∈ field t)) as [Hk|Hk].
  - split; [intros [= <-]; by right|]. intros [Hl|[-> _]]; [|done].
    by apply lists_key_elem, Hfresh in Hl.
  - rewrite Hm. split; [by left|]. by intros [?|[_ ?]].
Qed.

Lemma bind_snoc {A B} (f : A → list B) l x : (l ++ [x]) ≫= f = (l ≫= f) ++ f x.
Proof. by rewrite bind_app, bind_singleton. Qed.

Lemma tunnels_valid_snoc sh ts t :
  tunnels_valid sh (ts ++ [t]) ↔
  tunnels_valid sh ts ∧ public_hostnames t ≠ [] ∧
  NoDup (authorized_client_identities t) ∧
  (∀ i, i ∈ authorized_client_identities t → i ∉ all_identities ts) ∧
  NoDup (public_hostnames t) ∧ (sh ∉ public_hostnames t) ∧
  (∀ h, h ∈ public_hostnames t → h ∉ all_hostnames ts).
Proof.
  unfold tunnels_valid, all_identities, all_hostnames. rewrite !bind_snoc, Forall_app, !NoDup_app.
  rewrite Forall_singleton, not_elem_of_app. split.
  - intros ([? ?] & (? & Hi & ?) & (? & Hh & ?) & ? & ?). split_and!; try done.
    + intros i Hin Hin'. by apply (Hi i).
    + intros h Hin Hin'. by apply (Hh h).
  - intros ((? & ? & ? & ?) & ? & ? & Hi & ? & ? & Hh). split_and!; try done.
    + intros i Hin Hin'. by apply (Hi i).
    + intros h Hin Hin'. by apply (Hh h).
Qed.

Lemma build_snoc sh ts t :
  build_authorization_maps sh (ts ++ [t]) =
  (m ← build_authorization_maps sh ts; add_tunnel sh m (length ts, t)).
Proof.
  unfold build_authorization_maps, enumerate. rewrite imap_app, try_fold_app. simpl.
  rewrite Nat.add_0_r. destruct (try_fold _ _ _) as [m|]; step; [|done].
  by destruct (reject_if _ _ ≫= _).
Qed.

Lemma build_sound sh ts m :
  build_authorization_maps sh ts = Ok m → tunnels_valid sh ts ∧ maps_spec ts m.
Proof.
  revert m. induction ts as [|t ts IH] using rev_ind; intros m H.
  - injection H as <-. split.
    + split_and!; [constructor | constructor | constructor | apply not_elem_of_nil].
    + split; simpl; try done; intros k i; rewrite lookup_empty;
        (split; [done | by intros (? & ? & _)]).
  - rewrite build_snoc in H. destruct (build_authorization_maps sh ts) as [m1|] eqn:E1; [|done].
    destruct (IH m1 eq_refl) as [Hval [Hid Hho Hsi Hsh]]. step_in H.
    apply add_tunnel_Ok in H as (Hne & Hndi & Hfi & Hndh & Hns & Hfh & ->).
    rewrite Hsi in Hfi. rewrite Hsh in Hfh. setoid_rewrite elem_of_list_to_set in Hfi.
    setoid_rewrite elem_of_list_to_set in Hfh. split; [by apply tunnels_valid_snoc|].
    split; simpl.
    + by apply fold_insert_spec.
    + by apply fold_insert_spec.
    + unfold all_identities. rewrite bind_snoc, list_to_set_app_L, Hsi. apply union_comm_L.
    + unfold all_hostnames. rewrite bind_snoc, list_to_set_app_L, Hsh. apply union_comm_L.
Qed.

Lemma build_complete sh ts : tunnels_valid sh ts → ∃ m, build_authorization_maps sh ts = Ok m.
Proof.
  induction ts as [|t ts IH] using rev_ind; intros Hval; [by eexists|].
  apply tunnels_valid_snoc in Hval as (Hval & Hne & Hndi & Hfi & Hndh & Hns & Hfh).
  destruct (IH Hval) as [m Hm]. rewrite build_snoc, Hm. step.
  destruct (build_sound _ _ _ Hm) as [_ [_ _ Hsi Hsh]].
  eexists. apply add_tunnel_Ok. split_and!; [done..| |done|done| |done].
  - intros i Hi. rewrite Hsi, elem_of_list_to_set. auto.
  - intros h Hh. rewrite Hsh, elem_of_list_to_set. auto.
Qed.

(** *** Tunnel IDs *)

Lemma collect_tunnel_id_eq ids seen t :
  collect_tunnel_id (ids, seen) t =
  match tunnel_id t with
  | None => Err MissingTunnelId
  | Some id => if bool_decide (id ∈ seen) then Err (DuplicateTunnelId id)
               else Ok (ids ++ [id], {[ id ]} ∪ seen)
  end.
Proof.
  unfold collect_tunnel_id. destruct (tunnel_id t); [|done]. simpl. by case_bool_decide.
Qed.

Lemma collect_ids_Ok ts ids seen ids' seen' :
  (∀ id, id ∈ seen ↔ id ∈ ids) → NoDup ids →
  try_fold collect_tunnel_id (ids, seen) ts = Ok (ids', seen') →
  ∃ new, ids' = ids ++ new ∧ Some <$> new = tunnel_id <$> ts ∧ NoDup ids'.
Proof.
  revert ids seen. induction ts as [|t ts IH]; intros ids seen Hseen Hnd H;
    cbn [try_fold] in H.
  - injection H as <- <-. exists []. by rewrite app_nil_r.
  - rewrite collect_tunnel_id_eq in H. destruct (tunnel_id t) as [id|] eqn:Eid; [|done].
    case_bool_decide as Ein; [done|]. step_in H. rewrite Hseen in Ein.
    apply IH in H as (new & -> & Hnew & Hnd').
    + exists (id :: new). rewrite <- app_assoc. split_and!; [done| |by rewrite <- app_assoc in Hnd'].
      by rewrite !fmap_cons, Hnew, Eid.
    + intros x. rewrite elem_of_union, elem_of_singleton, elem_of_app, Hseen, list_elem_of_singleton. tauto.
    + apply NoDup_app. split_and!; [done | set_solver | apply NoDup_singleton].
Qed.

Lemma collect_ids_complete ts ids seen new :
  (∀ id, id ∈ seen ↔ id ∈ ids) → Some <$> new = tunnel_id <$> ts → NoDup (ids ++ new) →
  ∃ seen', try_fold collect_tunnel_id (ids, seen) ts = Ok (ids ++ new, seen').
Proof.
  revert ids seen new. induction ts as [|t ts IH]; intros ids seen new Hseen Hnew Hnd.
  - destruct new; [|done]. rewrite app_nil_r. by eexists.
  - destruct new as [|id new]; [done|]. rewrite !fmap_cons in Hnew. injection Hnew as Hid Hnew.
    cbn [try_fold]. rewrite collect_tunnel_id_eq, <- Hid. rewrite bool_decide_false.
    + step. destruct (IH (ids ++ [id]) ({[id]} ∪ seen) new) as [seen' Hs]; [|done|by rewrite <- app_assoc|].
      * intros x. rewrite elem_of_union, elem_of_singleton, elem_of_app, Hseen, list_elem_of_singleton. tauto.
      * exists seen'. by rewrite <- app_assoc in Hs.
    + rewrite Hseen. intros Hin. apply NoDup_app in Hnd as (_ & Hdis & _).
      apply (Hdis id); [done | by left].
Qed.

Lemma managed_snapshot_spec sh ts s :
  try_from_managed_tunnels sh ts = Ok s →
  (∀ h i, tunnel_index_for_public_hostname s h = Some i ↔ lists_key public_hostnames ts h i) ∧
  (∀ c i, tunnel_index_for_client_identity s c = Some i ↔
          lists_key authorized_client_identities ts c i) ∧
  (∀ c, authorizes_client_identity s c = true ↔ c ∈ all_identities ts) ∧
  tunnel_count s = length ts ∧
  ∃ ids, managed_tunnel_ids s = Some ids ∧ Some <$> ids = tunnel_id <$> ts ∧ NoDup ids.
Proof.
  unfold try_from_managed_tunnels. intros H.
  destruct (try_fold collect_tunnel_id ([], ∅) ts) as [[ids seen]|] eqn:Ec; [|done].
  step_in H. destruct (build_authorization_maps sh ts) as [m|] eqn:Eb; [|done]. injection H as <-.
  apply build_sound in Eb as [_ [Hid Hho _ _]].
  apply collect_ids_Ok in Ec as (new & -> & Hnew & Hnd); [|set_solver|constructor].
  split_and!; [apply Hho | apply Hid | | done | by exists new].
  intros c. unfold authorizes_client_identity. rewrite bool_decide_eq_true. simpl.
  rewrite elem_of_dom. split.
  - intros [i Hi]. by apply Hid, lists_key_elem in Hi.
  - intros Hc. apply list_elem_of_bind in Hc as (t & Hc & Ht).
    apply list_elem_of_lookup_1 in Ht as [i Hi]. exists i. apply Hid. by exists t.
Qed.

(** What the registry relies on: every index is below the number of Tunnels, and a
    managed snapshot has one distinct Tunnel ID per Tunnel. *)
Record wf_snapshot (s : AuthorizationSnapshot) : Prop := {
  wf_hostnames : ∀ h k, tunnel_index_for_public_hostname s h = Some k → k < tunnel_count s;
  wf_identities : ∀ i k, tunnel_index_for_client_identity s i = Some k → k < tunnel_count s;
  wf_trusted : ∀ i, i ∈ trusted_client_identities s ↔ is_Some (tunnel_index_for_client_identity s i);
  wf_ids : ∀ ids, continuity s = Managed ids → length ids = tunnel_count s ∧ NoDup ids
}.

Lemma lists_key_lt field ts k i : lists_key field ts k i → i < length ts.
Proof. intros (t & Hl & _). by apply lookup_lt_Some in Hl. Qed.

Lemma wf_empty_managed : wf_snapshot empty_managed.
Proof.
  split; try done.
  - intros i. unfold tunnel_index_for_client_identity. simpl. rewrite lookup_empty.
    split; [set_solver | by intros [? ?]].
  - intros ids [= <-]. split; [done | constructor].
Qed.

Lemma wf_managed sh ts s : try_from_managed_tunnels sh ts = Ok s → wf_snapshot s.
Proof.
  intros Hs. destruct (managed_snapshot_spec sh ts s Hs) as (Hh & Hi & Hc & Hn & ids & Hids & Hfmap & Hnd).
  split.
  - intros h k Hk. rewrite Hn. by apply Hh, lists_key_lt in Hk.
  - intros i k Hk. rewrite Hn. by apply Hi, lists_key_lt in Hk.
  - unfold try_from_managed_tunnels in Hs. invert Hs. intros i. simpl.
    unfold tunnel_index_for_client_identity. simpl. apply elem_of_dom.
  - intros ids' Hids'. unfold managed_tunnel_ids in Hids. rewrite Hids' in Hids.
    injection Hids as ->. split; [|done]. rewrite Hn.
    apply (f_equal length) in Hfmap. by rewrite !length_fmap in Hfmap.
Qed.

Lemma wf_static sh ts s :
  try_from_static_tunnels sh ts = Ok s → wf_snapshot s ∧ continuity s = Static.
Proof.
  unfold try_from_static_tunnels. intros Hs. invert Hs. apply build_sound in E0 as [_ [Hi Hh _ _]].
  split; [|done]. split; unfold tunnel_index_for_public_hostname, tunnel_index_for_client_identity; simpl.
  - intros h k Hk. by apply Hh, lists_key_lt in Hk.
  - intros i k Hk. by apply Hi, lists_key_lt in Hk.
  - intros i. apply elem_of_dom.
  - done.
Qed.

Lemma managed_is_managed sh ts s :
  try_from_managed_tunnels sh ts = Ok s → ∃ ids, continuity s = Managed ids.
Proof. unfold try_from_managed_tunnels. intros Hs. invert Hs. eauto. Qed.

Lemma managed_accepts_iff sh ts :
  (∃ s, try_from_managed_tunnels sh ts = Ok s) ↔
  tunnels_valid sh ts ∧ ∃ ids, Some <$> ids = tunnel_id <$> ts ∧ NoDup ids.
Proof.
  unfold try_from_managed_tunnels. split.
  - intros [s H]. destruct (try_fold collect_tunnel_id ([], ∅) ts) as [[ids seen]|] eqn:Ec; [|done].
    step_in H. destruct (build_authorization_maps sh ts) as [m|] eqn:Eb; [|done].
    apply build_sound in Eb as [Hval _].
    apply collect_ids_Ok in Ec as (new & -> & Hnew & Hnd); [eauto | set_solver | constructor].
  - intros (Hval & ids & Hids & Hnd). destruct (build_complete sh ts Hval) as [m Hm].
    destruct (collect_ids_complete ts [] ∅ ids) as [seen Hs]; [set_solver | done | done |].
    rewrite Hs. step. rewrite Hm. step. eauto.
Qed.

(** ** Properties *)

(** A managed configuration is accepted exactly when every Tunnel has an ID, no two
    share one, and its hostnames and identities are valid (each Tunnel has a hostname,
    no identity and no hostname is listed twice, none is the Server's own hostname). *)
Theorem managed_authorization_accepts_iff sh ts :
  (∃ s, try_from_managed_tunnels sh ts = Ok s) ↔
  tunnels_valid sh ts ∧ ∃ ids, Some <$> ids = tunnel_id <$> ts ∧ NoDup ids.
Proof. apply managed_accepts_iff. Qed.

(** An accepted snapshot says exactly what the configuration says: a hostname or an
    identity maps to position [i] if and only if the Tunnel at [i] lists it, an identity
    is trusted if and only if some Tunnel lists it, and the Tunnel IDs are the configured
    ones in order. *)
Theorem managed_snapshot_faithful sh ts s :
  try_from_managed_tunnels sh ts = Ok s →
  (∀ h i, tunnel_index_for_public_hostname s h = Some i ↔ lists_key public_hostnames ts h i) ∧
  (∀ c i, tunnel_index_for_client_identity s c = Some i ↔
          lists_key authorized_client_identities ts c i) ∧
  (∀ c, authorizes_client_identity s c = true ↔ c ∈ all_identities ts) ∧
  tunnel_count s = length ts ∧
  ∃ ids, managed_tunnel_ids s = Some ids ∧ Some <$> ids = tunnel_id <$> ts ∧ NoDup ids.
Proof. apply managed_snapshot_spec. Qed.

Lemma managed_snapshot_faithful_witness :
  let ts := [mkTunnel (Some (bs "a")) [bs "a.test"] [bs "i1"]; mkTunnel (Some (bs "b")) [bs "b.test"] [bs "i2"]] in
  ∃ s, try_from_managed_tunnels (bs "server.test") ts = Ok s ∧
    (tunnel_index_for_public_hostname s (bs "b.test") = Some 1 ↔
     lists_key public_hostnames ts (bs "b.test") 1).
Proof.
  intros ts. destruct (try_from_managed_tunnels (bs "server.test") ts) as [s|e] eqn:E.
  - exists s. split; [done|]. apply (managed_snapshot_faithful (bs "server.test") ts s E).
  - by vm_compute in E.
Defined.
