(* ===== verification/Pool.v ===== *)
(** * Pool: the Tunnel connections of one Tunnel

    The pool of registered Tunnel connections and the choice of the one that serves
    the next Visitor ([src/server/active_client.rs]).  A connection and a stream
    counter are names into the stores of [Registry]; the pool itself is data. *)

From Stdlib Require Import Ascii ZArith Lia.
From stdpp Require Import base strings numbers gmap list.
From S2P Require Import Prelude Admission.

Local Open Scope nat_scope.

Import Policy.

(** ** Selection *)

(** [Iterator::min_by_key] on (index, active) pairs: the first of the minima. *)
Fixpoint min_by_key (l : list (nat * Z)) : option (nat * Z) :=
  match l with
  | [] => None
  | x :: l' =>
      match min_by_key l' with
      | None => Some x
      | Some y => if (x.2 <=? y.2)%Z then Some x else Some y
      end
  end.

(** [(0..len).map(|offset| (start + offset) % len)]. *)
Definition rotation (len start : nat) : list nat :=
  (λ offset, (start + offset) mod len) <$> seq 0 len.

Definition least_active_index (len start : nat) (load : nat → option Z) : option nat :=
  fst <$> min_by_key (omap (λ i, a ← load i; Some (i, a)) (rotation len start)).

(** ** Pools *)

Record PoolMember : Type := mkMember {
  member_id : Z;
  client_identity : bytes;
  connection : nat;
  active_streams : nat
}.

#[export] Instance PoolMember_eq_dec : EqDecision PoolMember.
Proof. solve_decision. Defined.

(** 64-bit identifiers are incremented once per registration and are modelled without
    wrap-around; the round-robin offset, which is reduced modulo the pool size, keeps
    it. *)
Record ActiveClientPool : Type := mkPool {
  members : list PoolMember;
  next_member_id : Z;
  next_round_robin_offset : Z
}.

Definition with_admission : ActiveClientPool := mkPool [] 1 0.

Section Select.
(** [accepts_visitors] of a connection and the value of a stream counter. *)
Context (accepts_visitors : nat → bool) (counter : nat → Z).

Definition member_load (m : PoolMember) : option Z :=
  if accepts_visitors (connection m) then Some (counter (active_streams m)) else None.

Definition select_connection (p : ActiveClientPool) : ActiveClientPool * option PoolMember :=
  match members p with
  | [] => (p, None)
  | _ =>
      let n := length (members p) in
      let start := Z.to_nat (next_round_robin_offset p mod Z.of_nat n) in
      let p' := mkPool (members p) (next_member_id p)
                  (wrapping_add 64 (next_round_robin_offset p) 1) in
      (p', i ← least_active_index n start (λ i, m ← members p !! i; member_load m);
           members p !! i)
  end.

End Select.

(** [ActiveClientPool::try_register]; [counter] names the member's fresh stream
    counter. *)
Definition try_register (policy : ServerAdmissionPolicy) (p : ActiveClientPool)
    (conn : nat) (identity : bytes) (counter : nat) :
    result AdmissionRejection (ServerAdmissionPolicy * ActiveClientPool * PoolMember) :=
  _ ← reject_if (max_tunnel_connections_per_tunnel (limits policy) <=? len (members p))%Z
        (mkRejection TunnelConnectionsPerTunnel (len (members p)));
  policy ← try_acquire policy identity;
  let m := mkMember (next_member_id p) identity conn counter in
  Ok (policy, mkPool (members p ++ [m]) (next_member_id p + 1) (next_round_robin_offset p), m).

(** The connections that [close_connections_for_identities] and
    [close_all_connections] signal. *)
Definition connections_of_identities (identities : gset bytes) (p : ActiveClientPool) : list nat :=
  connection <$> List.filter (λ m, bool_decide (client_identity m ∈ identities)) (members p).
Definition pool_connections (p : ActiveClientPool) : list nat := connection <$> members p.

Definition take_members (p : ActiveClientPool) : ActiveClientPool * list PoolMember :=
  (mkPool [] (next_member_id p) (next_round_robin_offset p), members p).

(** [adopt_member] up to its suspension point: the member keeps its connection, counter
    and permit and is given a new member ID, before it is in the pool.  Then the push,
    under the lock on the members. *)
Definition adopt_begin (p : ActiveClientPool) (m : PoolMember) : ActiveClientPool * PoolMember :=
  (mkPool (members p) (next_member_id p + 1) (next_round_robin_offset p),
   mkMember (next_member_id p) (client_identity m) (connection m) (active_streams m)).
Definition adopt_push (p : ActiveClientPool) (m : PoolMember) : ActiveClientPool :=
  mkPool (members p ++ [m]) (next_member_id p) (next_round_robin_offset p).

(** What a close watcher does: [retain(|member| member.member_id != member_id)]. *)
Definition retain_other (id : Z) (p : ActiveClientPool) : ActiveClientPool :=
  mkPool (List.filter (λ m, negb (member_id m =? id)%Z) (members p)) (next_member_id p)
    (next_round_robin_offset p).

(** ** Lemmas on selection *)

Lemma min_by_key_None l : min_by_key l = None ↔ l = [].
Proof.
  destruct l as [|x l]; simpl; [done|]. split; [|done].
  destruct (min_by_key l) as [y|]; [by destruct (_ <=? _)%Z | done].
Qed.

(** The result is in the list, minimal, and strictly below everything before it. *)
Lemma min_by_key_spec l x :
  min_by_key l = Some x →
  ∃ l1 l2, l = l1 ++ x :: l2 ∧ Forall (λ y, (x.2 < y.2)%Z) l1 ∧ Forall (λ y, (x.2 ≤ y.2)%Z) l2.
Proof.
  revert x. induction l as [|a l IH]; intros x H; simpl in H; [done|].
  destruct (min_by_key l) as [y|] eqn:E.
  - destruct (IH y eq_refl) as (l1 & l2 & -> & H1 & H2).
    destruct (Z.leb_spec a.2 y.2) as [Hle|Hgt]; injection H as <-.
    + exists [], (l1 ++ y :: l2). split_and!; [done | constructor |].
      apply Forall_app. split; [|constructor; [done|]]; eapply Forall_impl; eauto; simpl; lia.
    + exists (a :: l1), l2. split_and!; [done | by constructor | done].
  - apply min_by_key_None in E as ->. injection H as <-. by exists [], [].
Qed.

Lemma rotation_elem len start i : i ∈ rotation len start ↔ i < len.
Proof.
  unfold rotation. rewrite list_elem_of_fmap. split.
  - intros (o & -> & Ho%elem_of_seq). apply Nat.mod_upper_bound. lia.
  - intros Hi. exists ((i + len - start mod len) mod len).
    assert (start mod len < len) by (apply Nat.mod_upper_bound; lia). split.
    + rewrite Nat.Div0.add_mod_idemp_r, <- Nat.Div0.add_mod_idemp_l.
      replace (start mod len + (i + len - start mod len)) with (i + 1 * len) by lia.
      by rewrite Nat.Div0.mod_add, Nat.mod_small.
    + apply elem_of_seq. split; [lia|]. apply Nat.mod_upper_bound. lia.
Qed.

Lemma omap_load_elem (load : nat → option Z) (l : list nat) i a :
  (i, a) ∈ omap (λ i, a ← load i; Some (i, a)) l ↔ i ∈ l ∧ load i = Some a.
Proof.
  rewrite list_elem_of_omap. split.
  - intros (j & Hj & Hl). destruct (load j) eqn:E; simplify_eq/=. done.
  - intros [Hi Hl]. exists i. by rewrite Hl.
Qed.

Lemma least_active_Some len start load i :
  least_active_index len start load = Some i →
  i < len ∧ ∃ a, load i = Some a ∧
    (∀ j b, j < len → load j = Some b → (a ≤ b)%Z).
Proof.
  unfold least_active_index. intros H. apply fmap_Some in H as ([k a] & H & ->). simpl.
  apply min_by_key_spec in H as (l1 & l2 & Heq & H1 & H2). simpl in *.
  assert ((k, a) ∈ omap (λ i, a ← load i; Some (i, a)) (rotation len start)) as Hin
    by (rewrite Heq; set_solver).
  apply omap_load_elem in Hin as [Hk Ha]. split; [by apply rotation_elem in Hk|].
  exists a. split; [done|]. intros j b Hj Hb.
  assert ((j, b) ∈ l1 ++ (k, a) :: l2) as Hjb
    by (rewrite <- Heq; apply omap_load_elem; split; [by apply rotation_elem | done]).
  rewrite elem_of_app, elem_of_cons in Hjb. rewrite Forall_forall in H1, H2.
  destruct Hjb as [Hb1|[[= -> ->]|Hb1]]; [apply H1 in Hb1 | | apply H2 in Hb1]; simpl in *; lia.
Qed.

Lemma least_active_None len start load :
  least_active_index len start load = None ↔ ∀ j, j < len → load j = None.
Proof.
  unfold least_active_index. rewrite fmap_None, min_by_key_None. split.
  - intros H j Hj. destruct (load j) as [a|] eqn:E; [|done].
    assert ((j, a) ∈ omap (λ i, a ← load i; Some (i, a)) (rotation len start)) as Hin
      by (apply omap_load_elem; split; [by apply rotation_elem | done]).
    rewrite H in Hin. by apply elem_of_nil in Hin.
  - intros H. destruct (omap _ _) as [|[i a] l] eqn:E; [done|].
    assert ((i, a) ∈ omap (λ i, a ← load i; Some (i, a)) (rotation len start)) as Hin
      by (rewrite E; by left).
    apply omap_load_elem in Hin as [Hi Ha]. apply rotation_elem in Hi.
    by rewrite (H i Hi) in Ha.
Qed.

(** When every member has the same load the first one in the rotation is chosen. *)
Lemma least_active_uniform len start load a :
  0 < len → (∀ j, j < len → load j = Some a) →
  least_active_index len start load = Some (start mod len).
Proof.
  intros Hlen Hload. unfold least_active_index.
  assert (rotation len start = start mod len :: tail (rotation len start)) as ->.
  { unfold rotation. destruct len; [lia|]. simpl seq. rewrite fmap_cons. by rewrite Nat.add_0_r. }
  assert (∀ l : list nat, Forall (λ i, i < len) l → omap (λ i, a ← load i; Some (i, a)) l = (λ i, (i, a)) <$> l) as Hmap.
  { induction 1 as [|i l Hi Hl IH]; [done|].
    simpl. rewrite Hload by done. simpl. f_equal. apply IH. }
  assert (∀ (l : list nat) i, min_by_key ((λ i, (i, a)) <$> (i :: l)) = Some (i, a)) as Hmin.
  { intros l. induction l as [|j l IH]; intros i; [done|]. rewrite fmap_cons.
    cbn [min_by_key]. rewrite IH. simpl. by rewrite Z.leb_refl. }
  rewrite Hmap, Hmin; [done|]. apply Forall_forall. intros i Hi.
  apply (rotation_elem len start). unfold rotation in *. destruct len; [lia|].
  simpl in *. rewrite Nat.add_0_r in *. apply elem_of_cons in Hi as [->|Hi]; [by left | by right].
Qed.

(** ** Properties *)

(** A Visitor is sent to a least-loaded connection that accepts Visitors: the
    selected member is registered in the pool, accepts Visitors, and carries no more
    active streams than any other accepting member; nothing is selected exactly when no
    member accepts Visitors. *)
Theorem select_connection_least_loaded accepts counter p :
  match (select_connection accepts counter p).2 with
  | Some m =>
      m ∈ members p ∧ accepts (connection m) = true ∧
      ∀ m', m' ∈ members p → accepts (connection m') = true →
        (counter (active_streams m) ≤ counter (active_streams m'))%Z
  | None => ∀ m, m ∈ members p → accepts (connection m) = false
  end.
Proof.
  unfold select_connection. destruct (members p) as [|m0 ms] eqn:Em.
  { intros m Hm. by apply elem_of_nil in Hm. }
  rewrite <- Em. cbn [snd]. set (start := Z.to_nat _). clearbody start.
  set (load := λ i, m ← members p !! i; member_load accepts counter m).
  assert (∀ i m, members p !! i = Some m → load i = member_load accepts counter m) as Hload.
  { intros i m Hi. unfold load. by rewrite Hi. }
  destruct (least_active_index (length (members p)) start load) as [i|] eqn:Ei; simpl.
  - apply least_active_Some in Ei as (Hlt & a & Ha & Hmin).
    destruct (members p !! i) as [m|] eqn:Hm; [|apply lookup_ge_None in Hm; lia].
    rewrite (Hload i m Hm) in Ha. unfold member_load in Ha.
    destruct (accepts (connection m)) eqn:Eacc; [injection Ha as <-|done].
    split_and!; [by apply list_elem_of_lookup_2 in Hm | done|].
    intros m' Hm' Hacc. apply list_elem_of_lookup_1 in Hm' as [j Hj].
    apply (Hmin j); [by apply lookup_lt_Some in Hj|].
    rewrite (Hload j m' Hj). unfold member_load. by rewrite Hacc.
  - intros m Hm. apply list_elem_of_lookup_1 in Hm as [j Hj].
    apply least_active_None with (j := j) in Ei; [|by apply lookup_lt_Some in Hj].
    rewrite (Hload j m Hj) in Ei. unfold member_load in Ei. by destruct (accepts (connection m)).
Qed.

(** [n] consecutive selections. *)
Fixpoint select_many (accepts : nat → bool) (counter : nat → Z) (n : nat) (p : ActiveClientPool) :
    list (option PoolMember) :=
  match n with
  | O => []
  | S n' => let '(p', m) := select_connection accepts counter p in
            m :: select_many accepts counter n' p'
  end.

Lemma select_many_lookup accepts counter a n p k :
  members p ≠ [] →
  (∀ m, m ∈ members p → member_load accepts counter m = Some a) →
  (0 ≤ next_round_robin_offset p)%Z →
  (next_round_robin_offset p + Z.of_nat n < 2 ^ 64)%Z → k < n →
  select_many accepts counter n p !! k =
  Some (members p !! Z.to_nat ((next_round_robin_offset p + Z.of_nat k) mod len (members p))).
Proof.
  revert p k. induction n as [|n IH]; intros p k Hne Hload H0 Hw Hk; [lia|].
  cbn [select_many]. unfold select_connection. destruct (members p) as [|m0 ms] eqn:Em; [done|].
  rewrite <- Em in *. set (len' := length (members p)).
  assert (0 < len') as Hlen by (unfold len'; rewrite Em; simpl; lia).
  rewrite (least_active_uniform _ _ _ a); [|done|].
  2: { intros j Hj. apply lookup_lt_is_Some_2 in Hj as [m Hm]. rewrite Hm. simpl.
       apply Hload. by apply list_elem_of_lookup_2 in Hm. }
  assert (0 ≤ next_round_robin_offset p mod Z.of_nat len' < Z.of_nat len')%Z as Hb
    by (apply Z.mod_pos_bound; lia).
  destruct k as [|k].
  - simpl. rewrite Z.add_0_r. f_equal. f_equal. unfold len. fold len'.
    rewrite Nat.mod_small by lia. done.
  - assert (wrapping_add 64 (next_round_robin_offset p) 1 = next_round_robin_offset p + 1)%Z as Hwrap
      by (unfold wrapping_add; rewrite Z.mod_small; lia).
    cbn [lookup list_lookup]. rewrite Hwrap, IH; cbn [members next_round_robin_offset];
      [|by rewrite Em|done|lia|lia|lia].
    by replace (next_round_robin_offset p + 1 + Z.of_nat k)%Z
      with (next_round_robin_offset p + Z.of_nat (S k))%Z by lia.
Qed.

(** Equally loaded connections are used in turn: with every member accepting and
    equally loaded, the [k]-th of a run of selections is the member [k] places after the
    current round-robin position, so every window as long as the pool serves each
    member once. *)
Theorem select_connection_round_robin accepts counter a n p k :
  members p ≠ [] →
  (∀ m, m ∈ members p → accepts (connection m) = true ∧ counter (active_streams m) = a) →
  (0 ≤ next_round_robin_offset p)%Z →
  (next_round_robin_offset p + Z.of_nat n < 2 ^ 64)%Z → k < n →
  select_many accepts counter n p !! k =
  Some (members p !! Z.to_nat ((next_round_robin_offset p + Z.of_nat k) mod len (members p))).
Proof.
  intros Hne Hall H0 Hw Hk. apply (select_many_lookup _ _ a); auto.
  intros m Hm. unfold member_load. destruct (Hall m Hm) as [-> ->]. done.
Qed.

Lemma select_connection_round_robin_witness :
  let p := mkPool [mkMember 1 (bs "a") 10 20; mkMember 2 (bs "a") 11 21; mkMember 3 (bs "b") 12 22] 4 7 in
  select_many (λ _, true) (λ _, 5%Z) 4 p !! 3 =
  Some (members p !! Z.to_nat ((7 + 3) mod 3)).
Proof.
  intros p. apply (select_connection_round_robin (λ _, true) (λ _, 5%Z) 5%Z 4 p 3).
  - done.
  - done.
  - simpl. lia.
  - simpl. lia.
  - lia.
Defined.
