(* ===== verification/Registry.v ===== *)
(** * Registry: routing, registration and live authorization replacement

    The Tunnel registry of the Server ([src/server/tunnel_registry.rs]) as a labelled
    transition system.  Every action is one critical section of the code: a region
    that runs under a lock, or between two suspension points, without another task
    being able to interfere.  A task that suspends (a Visitor being routed, a
    connection being registered, a replacement being committed) is a value in the
    state that a later action resumes, so actions interleave as the scheduler
    interleaves the tasks.  A replacement may be dropped where it is suspended; what it
    had not done yet then never happens ([Interruptions]).

    An [Arc] that the code shares or compares by pointer is a name: a pool is a key of
    [heap], a stream counter a key of [counters], a snapshot its [version]. *)

From Stdlib Require Import Ascii ZArith Lia.
From stdpp Require Import base strings numbers gmap list relations.
From S2P Require Import Prelude Admission Authorization Pool.

Local Open Scope nat_scope.
Local Set Warnings "-clear-no-such-hyp".

Import Counter Policy.

(** ** State *)

(** What the registry observes of a [ServerTunnel]. *)
Record Conn : Type := mkConn {
  conn_identity : bytes;
  accepts_visitors : bool;
  has_open_session : bool;
  close_reason : option string;   (* [close] was called *)
  conn_closed : bool              (* [closed().await] returns *)
}.

Record ActiveVisitorWorkRecord : Type := mkRecord {
  rec_hostname : bytes;
  rec_member_id : Z;
  rec_identity : bytes;
  abort_requested : bool
}.

(** A Visitor on its way to a Tunnel connection.  Each holds an
    [ActiveVisitorAdmission] that is still pending. *)
Inductive RouteTask : Type :=
| RtAdmitted (hostname : bytes)
| RtPool (hostname : bytes) (authorization : nat) (pool : nat)
| RtConnected (hostname : bytes) (authorization : nat) (selected : PoolMember).

(** A connection being registered: past the [accepting_tunnel_connections] check, or
    holding the pool it was mapped to. *)
Inductive RegisterTask : Type :=
| RegChecked (conn : nat)
| RegPool (pool conn : nat) (identity : bytes).

(** [commit_authorization] between its suspension points.  All but [CReset] hold the
    write lock on the pools.  [CClose] still has to close removed identities in the
    listed pools, [CTake] to take the members of the listed pools, [CAdopt] to place
    the listed members (each with the pool it was taken from).  [CPush] waits for the
    lock on the members of the pool that adopts [m]. *)
Inductive Commit : Type :=
| CClose (prev next : AuthorizationSnapshot) (todo : list nat)
| CTake (prev next : AuthorizationSnapshot) (todo : list nat) (taken : list (nat * PoolMember))
| CAdopt (next : AuthorizationSnapshot) (todo : list (nat * PoolMember))
| CPush (next : AuthorizationSnapshot) (pool : nat) (m : PoolMember) (todo : list (nat * PoolMember))
| CReset (next : AuthorizationSnapshot).

(** What dropped replacements left behind, for the statements only: whether the last
    replacement that began was dropped, and whether one was ever dropped while it closed
    the connections of removed identities. *)
Record Interruptions : Type := mkInterruptions {
  unfinished : bool;
  undispatched : bool
}.

Record VisitorState : Type := mkVisitors {
  work : gmap Z ActiveVisitorWorkRecord;
  pending_admissions : Z;
  sealed : bool;
  next_stream_id : Z;
  routes : list RouteTask;
  guards : list (Z * nat)          (* live [ActiveVisitorWork]: stream id, member counter *)
}.

Record NetState : Type := mkNet {
  heap : gmap nat ActiveClientPool;
  next_pool : nat;
  tunnel_pools : list nat;
  conns : gmap nat Conn;
  next_conn : nat;
  counters : gmap nat Z;
  next_counter : nat;
  watchers : list (nat * Z * nat);  (* pool, member id, connection *)
  detached : list (nat * bytes);    (* permits of revoked connections that still close *)
  registrations : list RegisterTask;
  admission : ServerAdmissionPolicy
}.

Record State : Type := mkState {
  version : nat;
  snapshot : AuthorizationSnapshot;
  vis : VisitorState;
  net : NetState;
  accepting : bool;
  commit : option Commit;
  first_apply_completed : bool;
  readiness : option bool;          (* the installed readiness gate and whether it is open *)
  closings : list (string * list nat);  (* [close_all] calls: the reason, the pools left *)
  interruptions : Interruptions
}.

(** ** Field updates *)

Definition with_vis (v : VisitorState) (s : State) : State :=
  mkState (version s) (snapshot s) v (net s) (accepting s) (commit s)
    (first_apply_completed s) (readiness s) (closings s) (interruptions s).
Definition with_net (n : NetState) (s : State) : State :=
  mkState (version s) (snapshot s) (vis s) n (accepting s) (commit s)
    (first_apply_completed s) (readiness s) (closings s) (interruptions s).
Definition with_commit (c : option Commit) (s : State) : State :=
  mkState (version s) (snapshot s) (vis s) (net s) (accepting s) c
    (first_apply_completed s) (readiness s) (closings s) (interruptions s).
Definition with_closings (l : list (string * list nat)) (s : State) : State :=
  mkState (version s) (snapshot s) (vis s) (net s) (accepting s) (commit s)
    (first_apply_completed s) (readiness s) l (interruptions s).
Definition with_interruptions (i : Interruptions) (s : State) : State :=
  mkState (version s) (snapshot s) (vis s) (net s) (accepting s) (commit s)
    (first_apply_completed s) (readiness s) (closings s) i.

Definition set_routes (r : list RouteTask) (v : VisitorState) : VisitorState :=
  mkVisitors (work v) (pending_admissions v) (sealed v) (next_stream_id v) r (guards v).

Definition set_heap (h : gmap nat ActiveClientPool) (n : NetState) : NetState :=
  mkNet h (next_pool n) (tunnel_pools n) (conns n) (next_conn n) (counters n) (next_counter n)
    (watchers n) (detached n) (registrations n) (admission n).
Definition set_layout (h : gmap nat ActiveClientPool) (np : nat) (ps : list nat) (n : NetState) : NetState :=
  mkNet h np ps (conns n) (next_conn n) (counters n) (next_counter n)
    (watchers n) (detached n) (registrations n) (admission n).
Definition set_conns (c : gmap nat Conn) (n : NetState) : NetState :=
  mkNet (heap n) (next_pool n) (tunnel_pools n) c (next_conn n) (counters n) (next_counter n)
    (watchers n) (detached n) (registrations n) (admission n).
Definition set_counters (c : gmap nat Z) (n : NetState) : NetState :=
  mkNet (heap n) (next_pool n) (tunnel_pools n) (conns n) (next_conn n) c (next_counter n)
    (watchers n) (detached n) (registrations n) (admission n).
Definition set_watchers (w : list (nat * Z * nat)) (n : NetState) : NetState :=
  mkNet (heap n) (next_pool n) (tunnel_pools n) (conns n) (next_conn n) (counters n) (next_counter n)
    w (detached n) (registrations n) (admission n).
Definition set_detached (d : list (nat * bytes)) (n : NetState) : NetState :=
  mkNet (heap n) (next_pool n) (tunnel_pools n) (conns n) (next_conn n) (counters n) (next_counter n)
    (watchers n) d (registrations n) (admission n).
Definition set_registrations (r : list RegisterTask) (n : NetState) : NetState :=
  mkNet (heap n) (next_pool n) (tunnel_pools n) (conns n) (next_conn n) (counters n) (next_counter n)
    (watchers n) (detached n) r (admission n).
Definition set_admission (a : ServerAdmissionPolicy) (n : NetState) : NetState :=
  mkNet (heap n) (next_pool n) (tunnel_pools n) (conns n) (next_conn n) (counters n) (next_counter n)
    (watchers n) (detached n) (registrations n) a.

(** ** Results of an action *)

Inductive outcome : Type :=
| Next (s : State)
| Blocked                          (* the action is not enabled *)
| Panic.                           (* an underflow, an [unreachable!], a dangling name *)

Definition or_panic {A} (o : option A) (k : A → outcome) : outcome :=
  match o with Some a => k a | None => Panic end.
Definition or_blocked {A} (o : option A) (k : A → outcome) : outcome :=
  match o with Some a => k a | None => Blocked end.

(** Whether a replacement holds the write lock on the pools. *)
Definition pools_locked (s : State) : bool :=
  match commit s with
  | Some (CClose _ _ _) | Some (CTake _ _ _ _) | Some (CAdopt _ _) | Some (CPush _ _ _ _) => true
  | Some (CReset _) | None => false
  end.

(** [connection.close(reason)]: the first reason stands. *)
Definition close_conn (reason : string) (c : nat) (m : gmap nat Conn) : gmap nat Conn :=
  match m !! c with
  | Some x =>
      <[c := mkConn (conn_identity x) (accepts_visitors x) (has_open_session x)
               (match close_reason x with None => Some reason | r => r end) (conn_closed x)]> m
  | None => m
  end.

Definition conn_accepts (n : NetState) (c : nat) : bool :=
  match conns n !! c with Some x => accepts_visitors x | None => false end.
Definition is_closed (n : NetState) (c : nat) : bool :=
  match conns n !! c with Some x => conn_closed x | None => false end.

(** ** Visitors *)

(** Dropping a pending [ActiveVisitorAdmission], the one of route [i]. *)
Definition drop_admission (i : nat) (v : VisitorState) : option VisitorState :=
  if (pending_admissions v <? 1)%Z then None
  else Some (mkVisitors (work v) (pending_admissions v - 1) (sealed v) (next_stream_id v)
               (delete i (routes v)) (guards v)).

(** [begin_active_visitor_admission], for a Visitor of [hostname]; a sealed registry
    answers [NoActiveTunnelConnection]. *)
Definition begin_route (hostname : bytes) (s : State) : outcome :=
  let v := vis s in
  if sealed v then Next s
  else Next (with_vis (mkVisitors (work v) (pending_admissions v + 1) (sealed v) (next_stream_id v)
                         (routes v ++ [RtAdmitted hostname]) (guards v)) s).

(** [route_tunnel_connection] under the pools read lock.  [Unauthorized] and a missing
    pool both drop the admission. *)
Definition route_lookup (i : nat) (s : State) : outcome :=
  match routes (vis s) !! i with
  | Some (RtAdmitted hostname) =>
      if pools_locked s then Blocked
      else
        match k ← tunnel_index_for_public_hostname (snapshot s) hostname; tunnel_pools (net s) !! k with
        | Some pool =>
            Next (with_vis (set_routes (<[i := RtPool hostname (version s) pool]> (routes (vis s)))
                              (vis s)) s)
        | None => or_panic (drop_admission i (vis s)) (λ v, Next (with_vis v s))
        end
  | _ => Blocked
  end.

(** The rest of [route_tunnel_connection]: select from the pool, which may have been
    realigned since. *)
Definition route_select (i : nat) (s : State) : outcome :=
  match routes (vis s) !! i with
  | Some (RtPool hostname authorization pool) =>
      or_panic (heap (net s) !! pool) (λ p,
        let '(p', selected) := select_connection (conn_accepts (net s)) (get (counters (net s))) p in
        let s := with_net (set_heap (<[pool := p']> (heap (net s))) (net s)) s in
        match selected with
        | Some m =>
            Next (with_vis (set_routes (<[i := RtConnected hostname authorization m]> (routes (vis s)))
                              (vis s)) s)
        | None => or_panic (drop_admission i (vis s)) (λ v, Next (with_vis v s))
        end)
  | _ => Blocked
  end.

(** A Visitor that times out, is cancelled or fails before it is placed. *)
Definition route_abandon (i : nat) (s : State) : outcome :=
  match routes (vis s) !! i with
  | Some _ => or_panic (drop_admission i (vis s)) (λ v, Next (with_vis v s))
  | None => Blocked
  end.

(** [stream_remains_authorized], also the second half of the check in
    [register_active_visitor_work]. *)
Definition authorized_pair (snap : AuthorizationSnapshot) (hostname identity : bytes) : bool :=
  match tunnel_index_for_public_hostname snap hostname, tunnel_index_for_client_identity snap identity with
  | Some hostname_tunnel, Some identity_tunnel => Nat.eqb hostname_tunnel identity_tunnel
  | _, _ => false
  end.
Definition stream_remains_authorized (snap : AuthorizationSnapshot) (r : ActiveVisitorWorkRecord) : bool :=
  authorized_pair snap (rec_hostname r) (rec_identity r).

(** [register_active_visitor_work] under the visitor-work lock. *)
Definition place_visitor (i : nat) (s : State) : outcome :=
  match routes (vis s) !! i with
  | Some (RtConnected hostname authorization m) =>
      or_panic (drop_admission i (vis s)) (λ v,
        let remains_current_and_authorized :=
          Nat.eqb authorization (version s) && authorized_pair (snapshot s) hostname (client_identity m) in
        if sealed v || negb remains_current_and_authorized then Next (with_vis v s)
        else
          let stream_id := next_stream_id v in
          let record := mkRecord hostname (member_id m) (client_identity m) false in
          let v := mkVisitors (<[stream_id := record]> (work v)) (pending_admissions v) (sealed v)
                     (stream_id + 1) (routes v) (guards v ++ [(stream_id, active_streams m)]) in
          Next (with_vis v (with_net
            (set_counters (bump (counters (net s)) (active_streams m)) (net s)) s)))
  | _ => Blocked
  end.

(** [Drop for ActiveVisitorWork], whether the work completed or was aborted. *)
Definition finish_visitor (i : nat) (s : State) : outcome :=
  or_blocked (guards (vis s) !! i) (λ g,
    or_panic (match counters (net s) !! g.2 with
              | None => None                       (* [fetch_sub] below zero *)
              | Some _ => release (counters (net s)) g.2
              end) (λ c,
      let v := vis s in
      let v := mkVisitors (delete g.1 (work v)) (pending_admissions v) (sealed v) (next_stream_id v)
                 (routes v) (delete i (guards v)) in
      Next (with_vis v (with_net (set_counters c (net s)) s)))).

(** [reset_streams_matching] with the predicate of [commit_authorization]. *)
Definition reset_streams (next : AuthorizationSnapshot) (w : gmap Z ActiveVisitorWorkRecord) :
    gmap Z ActiveVisitorWorkRecord :=
  (λ r, if negb (abort_requested r) && negb (stream_remains_authorized next r)
        then mkRecord (rec_hostname r) (rec_member_id r) (rec_identity r) true else r) <$> w.

(** [stop_accepting_new_work]: the flag, then the seal. *)
Definition stop_accepting (s : State) : outcome :=
  Next (mkState (version s) (snapshot s) (vis s) (net s) false (commit s)
          (first_apply_completed s) (readiness s) (closings s) (interruptions s)).
Definition seal (s : State) : outcome :=
  if accepting s then Blocked
  else
    let v := vis s in
    Next (with_vis (mkVisitors (work v) (pending_admissions v) true (next_stream_id v)
                      (routes v) (guards v)) s).

(** ** Registering connections *)

(** A connection whose handshake completed calls [register], which first reads
    [accepting_tunnel_connections]. *)
Definition connect (identity : bytes) (s : State) : outcome :=
  let n := net s in
  let c := next_conn n in
  let reason := if accepting s then None else Some "server shutting down"%string in
  let n' := mkNet (heap n) (next_pool n) (tunnel_pools n)
              (<[c := mkConn identity true true reason false]> (conns n)) (S c)
              (counters n) (next_counter n) (watchers n) (detached n)
              (if accepting s then registrations n ++ [RegChecked c] else registrations n)
              (admission n) in
  Next (with_net n' s).

(** The lookup under the pools read lock. *)
Definition register_lookup (i : nat) (s : State) : outcome :=
  match registrations (net s) !! i with
  | Some (RegChecked c) =>
      if pools_locked s then Blocked
      else
        or_panic (conns (net s) !! c) (λ x,
          match k ← tunnel_index_for_client_identity (snapshot s) (conn_identity x);
                tunnel_pools (net s) !! k with
          | Some pool =>
              Next (with_net (set_registrations
                (<[i := RegPool pool c (conn_identity x)]> (registrations (net s))) (net s)) s)
          | None =>
              Next (with_net (set_registrations (delete i (registrations (net s)))
                (set_conns (close_conn "unmapped client identity" c (conns (net s))) (net s))) s)
          end)
  | _ => Blocked
  end.

(** [pool.try_register(...).await] and its outcome; the pools lock is no longer held. *)
Definition register_finish (i : nat) (s : State) : outcome :=
  match registrations (net s) !! i with
  | Some (RegPool pool c identity) =>
      or_panic (heap (net s) !! pool) (λ p,
        let n := set_registrations (delete i (registrations (net s))) (net s) in
        match try_register (admission n) p c identity (next_counter n) with
        | Ok (policy, p', m) =>
            Next (with_net (mkNet (<[pool := p']> (heap n)) (next_pool n) (tunnel_pools n) (conns n)
                    (next_conn n) (counters n) (S (next_counter n))
                    (watchers n ++ [(pool, member_id m, c)]) (detached n) (registrations n) policy) s)
        | Err _ =>
            Next (with_net (set_conns (close_conn "server tunnel admission saturated" c (conns n)) n) s)
        end)
  | _ => Blocked
  end.

(** *** Connections of the environment *)

(** The peer or the transport changes what a connection reports. *)
Definition set_accepts (c : nat) (b : bool) (s : State) : outcome :=
  or_blocked (conns (net s) !! c) (λ x,
    Next (with_net (set_conns (<[c := mkConn (conn_identity x) b (has_open_session x)
                                       (close_reason x) (conn_closed x)]> (conns (net s))) (net s)) s)).
Definition conn_close (c : nat) (s : State) : outcome :=
  or_blocked (conns (net s) !! c) (λ x,
    Next (with_net (set_conns (<[c := mkConn (conn_identity x) (accepts_visitors x) (has_open_session x)
                                       (close_reason x) true]> (conns (net s))) (net s)) s)).

(** Dropping permits one after the other. *)
Fixpoint drop_permits (policy : ServerAdmissionPolicy) (ids : list bytes) :
    option ServerAdmissionPolicy :=
  match ids with
  | [] => Some policy
  | i :: ids' => policy' ← drop_connection policy i; drop_permits policy' ids'
  end.

(** A close watcher whose connection closed removes the member, and with it the permit. *)
Definition watcher_fires (i : nat) (s : State) : outcome :=
  match watchers (net s) !! i with
  | Some (pool, id, c) =>
      if negb (is_closed (net s) c) then Blocked
      else
        or_panic (heap (net s) !! pool) (λ p,
          let gone := List.filter (λ m, (member_id m =? id)%Z) (members p) in
          or_panic (drop_permits (admission (net s)) (client_identity <$> gone)) (λ policy,
            Next (with_net (set_admission policy (set_watchers (delete i (watchers (net s)))
              (set_heap (<[pool := retain_other id p]> (heap (net s))) (net s)))) s)))
  | None => Blocked
  end.

(** [release_admission_after_close]. *)
Definition detached_released (i : nat) (s : State) : outcome :=
  or_blocked (detached (net s) !! i) (λ d,
    if negb (is_closed (net s) d.1) then Blocked
    else
      or_panic (drop_connection (admission (net s)) d.2) (λ policy,
        Next (with_net (set_admission policy (set_detached (delete i (detached (net s))) (net s))) s))).

(** [close_all]: the call copies the table of pools under its read lock, then closes the
    connections of one pool after the other. *)
Definition close_all (reason : string) (s : State) : outcome :=
  if pools_locked s then Blocked
  else Next (with_closings (closings s ++ [(reason, tunnel_pools (net s))]) s).
Definition close_pool (i : nat) (s : State) : outcome :=
  match closings s !! i with
  | Some (reason, pool :: todo) =>
      or_panic (heap (net s) !! pool) (λ p,
        Next (with_closings (<[i := (reason, todo)]> (closings s))
          (with_net (set_conns (foldr (close_conn reason) (conns (net s)) (pool_connections p)) (net s)) s)))
  | _ => Blocked
  end.

(** ** Replacing the authorization *)

Definition removed_identities (prev next : AuthorizationSnapshot) : gset bytes :=
  trusted_client_identities prev ∖ trusted_client_identities next.

(** [replace_authorization] up to the swap of the snapshot; a rejected candidate
    changes nothing. *)
Definition begin_replace (server_hostname : bytes) (tunnels : list ServerTunnelConfig) (s : State) :
    outcome :=
  match commit s with
  | Some _ => Blocked
  | None =>
      match prepare_managed_replacement (snapshot s) server_hostname tunnels with
      | Err _ => Next s
      | Ok next =>
          let todo := if bool_decide (removed_identities (snapshot s) next = ∅) then []
                      else tunnel_pools (net s) in
          Next (mkState (S (version s)) next (vis s) (net s) (accepting s)
                  (Some (CClose (snapshot s) next todo)) (first_apply_completed s) (readiness s)
                  (closings s) (interruptions s))
      end
  end.

(** Pools kept by Tunnel ID, then fresh pools for new IDs. *)
Definition pools_by_id (ids : list bytes) (pools : list nat) : gmap bytes nat :=
  foldl (λ m ip, <[ip.1 := ip.2]> m) ∅ (zip ids pools).

Fixpoint rebuild (by_id : gmap bytes nat) (ids : list bytes) (h : gmap nat ActiveClientPool)
    (np : nat) : list nat * gmap nat ActiveClientPool * nat :=
  match ids with
  | [] => ([], h, np)
  | id :: ids' =>
      match by_id !! id with
      | Some pool =>
          let '(ps, h', np') := rebuild (delete id by_id) ids' h np in (pool :: ps, h', np')
      | None =>
          let '(ps, h', np') := rebuild by_id ids' (<[np := with_admission]> h) (S np) in
          (np :: ps, h', np')
      end
  end.

(** Placing one taken member under the new snapshot, up to a suspension point.  A revoked
    identity and a missing pool need none; otherwise the old watcher is aborted, the new
    one starts, and the member waits for the pool that is returned. *)
Definition adopt_one (next : AuthorizationSnapshot) (tm : nat * PoolMember) (n : NetState) :
    option (NetState * option (nat * PoolMember)) :=
  let '(old_pool, m) := tm in
  match tunnel_index_for_client_identity next (client_identity m) with
  | None => Some (set_detached (detached n ++ [(connection m, client_identity m)]) n, None)
  | Some k =>
      match tunnel_pools n !! k with
      | None =>
          (* the taken member is dropped with its permit *)
          policy ← drop_connection (admission n) (client_identity m);
          Some (set_admission policy n, None)
      | Some pool =>
          p ← heap n !! pool;
          let '(p', m') := adopt_begin p m in
          let kept := List.filter (λ w, negb (bool_decide (w.1 = (old_pool, member_id m)))) (watchers n) in
          Some (set_watchers (kept ++ [(pool, member_id m', connection m')])
                  (set_heap (<[pool := p']> (heap n)) n), Some (pool, m'))
      end
  end.

(** The first successful replacement opens the installed readiness gate. *)
Definition mark_first_apply (completed : bool) (gate : option bool) : option bool :=
  if completed then gate else match gate with Some _ => Some true | None => None end.

(** One uninterrupted stretch of [commit_authorization] and the end of
    [replace_authorization]. *)
Definition commit_step (s : State) : outcome :=
  let n := net s in
  match commit s with
  | None => Blocked
  | Some (CClose prev next (pool :: todo)) =>
      or_panic (heap n !! pool) (λ p,
        let cs := connections_of_identities (removed_identities prev next) p in
        Next (with_commit (Some (CClose prev next todo))
          (with_net (set_conns (foldr (close_conn "authorization revoked") (conns n) cs) n) s)))
  | Some (CClose prev next []) => Next (with_commit (Some (CTake prev next (tunnel_pools n) [])) s)
  | Some (CTake prev next (pool :: todo) taken) =>
      or_panic (heap n !! pool) (λ p,
        let '(p', ms) := take_members p in
        Next (with_commit (Some (CTake prev next todo (taken ++ (pair pool <$> ms))))
          (with_net (set_heap (<[pool := p']> (heap n)) n) s)))
  | Some (CTake prev next [] taken) =>
      match continuity prev, continuity next with
      | Managed previous_ids, Managed next_ids =>
          let '(ps, h, np) := rebuild (pools_by_id previous_ids (tunnel_pools n)) next_ids
                                (heap n) (next_pool n) in
          Next (with_commit (Some (CAdopt next taken)) (with_net (set_layout h np ps n) s))
      | _, _ => Panic
      end
  | Some (CAdopt next (tm :: todo)) =>
      or_panic (adopt_one next tm n) (λ nw,
        Next (with_commit (Some (match nw.2 with
                                 | None => CAdopt next todo
                                 | Some (pool, m) => CPush next pool m todo
                                 end)) (with_net nw.1 s)))
  | Some (CAdopt next []) => Next (with_commit (Some (CReset next)) s)
  | Some (CPush next pool m todo) =>
      or_panic (heap n !! pool) (λ p,
        Next (with_commit (Some (CAdopt next todo))
          (with_net (set_heap (<[pool := adopt_push p m]> (heap n)) n) s)))
  | Some (CReset next) =>
      let v := vis s in
      let v := mkVisitors (reset_streams next (work v)) (pending_admissions v) (sealed v)
                 (next_stream_id v) (routes v) (guards v) in
      Next (mkState (version s) (snapshot s) v n (accepting s) None true
              (mark_first_apply (first_apply_completed s) (readiness s)) (closings s)
              (mkInterruptions false (undispatched (interruptions s))))
  end.

(** The future of [replace_authorization] is dropped at a suspension point: the Managed
    session leaves it when its connection fails or it shuts down.  The members that it
    had taken go with it, each with its permit; their watchers run on. *)
Definition drop_commit (s : State) : outcome :=
  let n := net s in
  let stop taken dispatched :=
    or_panic (drop_permits (admission n) (client_identity <$> taken)) (λ policy,
      Next (with_interruptions
        (mkInterruptions true (undispatched (interruptions s) || negb dispatched))
        (with_commit None (with_net (set_admission policy n) s)))) in
  match commit s with
  | Some (CClose _ _ (_ :: _)) => stop [] false
  | Some (CTake _ _ (_ :: _) taken) => stop taken.*2 true
  | Some (CPush _ _ m todo) => stop (m :: todo.*2) true
  | _ => Blocked
  end.

(** ** The transition system *)

Inductive action : Type :=
| BeginRoute (hostname : bytes)
| RouteLookup (i : nat)
| RouteSelect (i : nat)
| RouteAbandon (i : nat)
| PlaceVisitor (i : nat)
| FinishVisitor (i : nat)
| Connect (identity : bytes)
| RegisterLookup (i : nat)
| RegisterFinish (i : nat)
| SetAccepts (c : nat) (b : bool)
| ConnClose (c : nat)
| WatcherFires (i : nat)
| DetachedReleased (i : nat)
| BeginReplace (server_hostname : bytes) (tunnels : list ServerTunnelConfig)
| CommitStep
| CommitDropped
| StopAccepting
| Seal
| CloseAll (reason : string)
| ClosePool (i : nat).

Definition exec (s : State) (a : action) : outcome :=
  match a with
  | BeginRoute h => begin_route h s
  | RouteLookup i => route_lookup i s
  | RouteSelect i => route_select i s
  | RouteAbandon i => route_abandon i s
  | PlaceVisitor i => place_visitor i s
  | FinishVisitor i => finish_visitor i s
  | Connect id => connect id s
  | RegisterLookup i => register_lookup i s
  | RegisterFinish i => register_finish i s
  | SetAccepts c b => set_accepts c b s
  | ConnClose c => conn_close c s
  | WatcherFires i => watcher_fires i s
  | DetachedReleased i => detached_released i s
  | BeginReplace h ts => begin_replace h ts s
  | CommitStep => commit_step s
  | CommitDropped => drop_commit s
  | StopAccepting => stop_accepting s
  | Seal => seal s
  | CloseAll r => close_all r s
  | ClosePool i => close_pool i s
  end.

(** A run of actions that are all enabled. *)
Fixpoint run (s : State) (acts : list action) : option State :=
  match acts with
  | [] => Some s
  | a :: acts' => match exec s a with Next s' => run s' acts' | _ => None end
  end.

Definition step (s s' : State) : Prop := ∃ a, exec s a = Next s'.

(** [from_authorization_with_admission]: one empty pool per Tunnel. *)
Definition registry_new (snap : AuthorizationSnapshot) (policy : ServerAdmissionPolicy)
    (gate : option bool) : State :=
  let pools := seq 0 (tunnel_count snap) in
  mkState 0 snap (mkVisitors ∅ 0 false 1 [] [])
    (mkNet (list_to_map ((λ i, (i, with_admission)) <$> pools)) (tunnel_count snap) pools
       ∅ 0 ∅ 0 [] [] [] policy)
    true None false gate [] (mkInterruptions false false).

(** Startup snapshots: a static configuration or the empty managed one. *)
Inductive initial_snapshot : AuthorizationSnapshot → Prop :=
| initial_static sh ts snap :
    try_from_static_tunnels sh ts = Ok snap → initial_snapshot snap
| initial_managed : initial_snapshot empty_managed.

Definition reachable (ls : ServerAdmissionLimits) (s : State) : Prop :=
  ∃ snap gate, initial_snapshot snap ∧ rtc step (registry_new snap (policy_new ls) gate) s.

(** ** Observations *)

(** [in_flight_visitor_count]. *)
Definition in_flight_visitor_count (s : State) : nat := size (work (vis s)).

(** [has_outstanding_visitor_work]; [wait_quiescent] returns when it is false. *)
Definition has_outstanding_visitor_work (s : State) : bool :=
  negb (bool_decide (work (vis s) = ∅)) || (0 <? pending_admissions (vis s))%Z.

(** [reported_tunnel_connections]. *)
Definition reported_tunnel_connections (s : State) : list (bytes * nat) :=
  match managed_tunnel_ids (snapshot s) with
  | None => []
  | Some ids =>
      (λ ip : bytes * nat,
         (ip.1, length (List.filter
            (λ c, match conns (net s) !! c with Some x => has_open_session x | None => false end)
            (from_option pool_connections [] (heap (net s) !! ip.2)))))
      <$> zip ids (tunnel_pools (net s))
  end.

(** ** Visitor accounting *)

Record visitor_inv (s : State) : Prop := {
  vi_pending : pending_admissions (vis s) = len (routes (vis s));
  vi_nodup : NoDup (guards (vis s)).*1;
  vi_dom : ∀ id, is_Some (work (vis s) !! id) ↔ id ∈ (guards (vis s)).*1;
  vi_fresh : ∀ id, id ∈ (guards (vis s)).*1 → (id < next_stream_id (vis s))%Z;
  vi_counters : tracks (counters (net s)) (guards (vis s)).*2
}.

(** Splits [exec s a = Next s'] into the branches of the action. *)
Ltac exec_cases H :=
  unfold or_panic, or_blocked in H; repeat (case_match; simplify_eq/=).

Lemma visitor_inv_frame s s' :
  vis s' = vis s → counters (net s') = counters (net s) → visitor_inv s → visitor_inv s'.
Proof. intros Hv Hc []. split; rewrite ?Hv, ?Hc; done. Qed.

Lemma adopt_one_frame next tm n nw :
  adopt_one next tm n = Some nw →
  counters nw.1 = counters n ∧ conns nw.1 = conns n ∧ tunnel_pools nw.1 = tunnel_pools n ∧
  next_pool nw.1 = next_pool n ∧ registrations nw.1 = registrations n.
Proof.
  unfold adopt_one. destruct tm as [old m]. intros H.
  destruct (tunnel_index_for_client_identity next (client_identity m)) as [k|]; [|by simplify_eq].
  destruct (tunnel_pools n !! k) as [pool|]; simpl in H.
  - destruct (heap n !! pool) as [p|]; by simplify_eq/=.
  - destruct (drop_connection _ _); by simplify_eq/=.
Qed.

Lemma len_delete {A} (l : list A) i x : l !! i = Some x → len (delete i l) = (len l - 1)%Z.
Proof.
  intros H. unfold len. rewrite length_delete by eauto.
  apply lookup_lt_Some in H. lia.
Qed.

Lemma drop_admission_inv i v v' x :
  routes v !! i = Some x → drop_admission i v = Some v' →
  pending_admissions v' = (pending_admissions v - 1)%Z ∧ routes v' = delete i (routes v) ∧
  work v' = work v ∧ sealed v' = sealed v ∧ next_stream_id v' = next_stream_id v ∧
  guards v' = guards v.
Proof. unfold drop_admission. intros _ H. by case_match; simplify_eq/=. Qed.

(** Dropping the admission of a route keeps the accounting. *)
Lemma visitor_inv_drop i s x v n :
  visitor_inv s → routes (vis s) !! i = Some x → drop_admission i (vis s) = Some v →
  counters n = counters (net s) → visitor_inv (with_vis v (with_net n s)).
Proof.
  intros [] Hx Hd Hn. apply (drop_admission_inv _ _ _ _ Hx) in Hd as (Hp & Hr & Hw & _ & Hs & Hg).
  split; simpl; rewrite ?Hp, ?Hr, ?Hw, ?Hs, ?Hg, ?Hn; try done.
  rewrite vi_pending0. symmetry. by eapply len_delete.
Qed.

Lemma with_net_id s : with_net (net s) s = s.
Proof. by destruct s. Qed.

Lemma visitor_inv_set_route i s x y n :
  visitor_inv s → routes (vis s) !! i = Some x → counters n = counters (net s) →
  visitor_inv (with_vis (set_routes (<[i := y]> (routes (vis s))) (vis s)) (with_net n s)).
Proof.
  intros [] Hx Hn. split; simpl; rewrite ?Hn; try done.
  rewrite vi_pending0. unfold len. by rewrite length_insert.
Qed.

Lemma tracks_snoc {K} `{Countable K} (m : gmap K Z) ks k :
  tracks m ks → tracks (bump m k) (ks ++ [k]).
Proof.
  intros Hm. apply (tracks_perm _ (k :: ks)); [|by apply tracks_bump].
  intros x. rewrite occurrences_app, !occurrences_cons. change (occurrences x []) with 0%Z. lia.
Qed.

Lemma visitor_inv_place i s hostname auth m v :
  visitor_inv s → routes (vis s) !! i = Some (RtConnected hostname auth m) →
  drop_admission i (vis s) = Some v →
  visitor_inv (with_vis
    (mkVisitors (<[next_stream_id v := mkRecord hostname (member_id m) (client_identity m) false]> (work v))
       (pending_admissions v) (sealed v) (next_stream_id v + 1) (routes v)
       (guards v ++ [(next_stream_id v, active_streams m)]))
    (with_net (set_counters (bump (counters (net s)) (active_streams m)) (net s)) s)).
Proof.
  intros [] Hx Hd. apply (drop_admission_inv _ _ _ _ Hx) in Hd as (Hp & Hr & Hw & _ & Hs & Hg).
  split; simpl; rewrite ?Hp, ?Hr, ?Hw, ?Hs, ?Hg, ?fmap_app; simpl.
  - rewrite vi_pending0. symmetry. by eapply len_delete.
  - apply NoDup_app. split_and!; [done| |apply NoDup_singleton].
    intros id Hid Hin. apply list_elem_of_singleton in Hin as ->. apply vi_fresh0 in Hid. lia.
  - intros id. rewrite elem_of_app, list_elem_of_singleton, <- vi_dom0.
    destruct (decide (id = next_stream_id (vis s))) as [->|Hne].
    + rewrite lookup_insert_eq. split; [by right | by eexists].
    + rewrite lookup_insert_ne by done. tauto.
  - intros id. rewrite elem_of_app, list_elem_of_singleton. intros [Hid| ->]; [|lia].
    apply vi_fresh0 in Hid. lia.
  - by apply tracks_snoc.
Qed.

Lemma fmap_delete_at {A B} (f : A → B) (l : list A) (i : nat) :
  f <$> delete i l = delete i (f <$> l).
Proof.
  revert i. induction l as [|x l IH]; intros [|i]; simpl; try done. f_equal. apply IH.
Qed.

Lemma tracks_release_at {K} `{Countable K} (m : gmap K Z) ks i k :
  tracks m ks → ks !! i = Some k →
  is_Some (m !! k) ∧ ∃ m', release m k = Some m' ∧ tracks m' (delete i ks).
Proof.
  intros Hm Hi. pose proof Hi as Hl. apply take_drop_middle in Hl.
  rewrite <- Hl in Hm. rewrite delete_take_drop. split.
  - rewrite Hm, occurrences_remove, bool_decide_true by done.
    pose proof (occurrences_nonneg k (take i ks ++ drop (S i) ks)).
    by destruct (Z.eqb_spec (1 + occurrences k (take i ks ++ drop (S i) ks)) 0); [lia|].
  - by apply tracks_release.
Qed.

Lemma NoDup_delete_at {A} (l : list A) i x :
  NoDup l → l !! i = Some x → NoDup (delete i l) ∧ ∀ y, y ∈ delete i l ↔ y ∈ l ∧ y ≠ x.
Proof.
  intros Hnd Hi. assert (∃ l1 l2, l = l1 ++ x :: l2 ∧ delete i l = l1 ++ l2) as (l1 & l2 & Hl & ->).
  { exists (take i l), (drop (S i) l). split; [|apply delete_take_drop].
    symmetry. by apply take_drop_middle. }
  subst l. clear Hi. apply NoDup_app in Hnd as (H1 & Hdis & H2). apply NoDup_cons in H2 as [Hx H2]. split.
  - apply NoDup_app. split_and!; [done| |done]. intros y Hy Hy'. apply (Hdis y Hy). by right.
  - intros y. rewrite !elem_of_app, elem_of_cons. split.
    + intros [Hy|Hy]; (split; [tauto|]); intros ->; [apply (Hdis x Hy); by left | done].
    + intros [[Hy|[->|Hy]] Hne]; [by left | done | by right].
Qed.

Lemma visitor_inv_finish i s id c m' :
  visitor_inv s → guards (vis s) !! i = Some (id, c) → release (counters (net s)) c = Some m' →
  visitor_inv (with_vis
    (mkVisitors (delete id (work (vis s))) (pending_admissions (vis s)) (sealed (vis s))
       (next_stream_id (vis s)) (routes (vis s)) (delete i (guards (vis s))))
    (with_net (set_counters m' (net s)) s)).
Proof.
  intros [] Hg Hc.
  assert ((guards (vis s)).*1 !! i = Some id) as H1 by by rewrite list_lookup_fmap, Hg.
  assert ((guards (vis s)).*2 !! i = Some c) as H2 by by rewrite list_lookup_fmap, Hg.
  destruct (NoDup_delete_at _ _ _ vi_nodup0 H1) as [Hnd Hin].
  split; simpl; rewrite ?fmap_delete_at; try done.
  - intros x. rewrite Hin, <- vi_dom0. destruct (decide (x = id)) as [->|Hne].
    + rewrite lookup_delete_eq. split; [intros [? ?]; done | by intros [_ ?]].
    + rewrite lookup_delete_ne by done. tauto.
  - intros x. rewrite Hin. intros [Hx _]. auto.
  - destruct (tracks_release_at _ _ _ _ vi_counters0 H2) as (_ & m & Hm & Ht).
    rewrite Hc in Hm. by injection Hm as ->.
Qed.

Lemma visitor_inv_exec s a s' : visitor_inv s → exec s a = Next s' → visitor_inv s'.
Proof.
  intros Hinv H. destruct a; simpl in H.
  - unfold begin_route in H. exec_cases H; [done|]. destruct Hinv. split; simpl; try done.
    rewrite vi_pending0, len_app. done.
  - unfold route_lookup in H. exec_cases H; rewrite <- (with_net_id s) at 1;
      by (eapply visitor_inv_set_route || eapply visitor_inv_drop).
  - unfold route_select in H. exec_cases H;
      by (eapply visitor_inv_set_route || eapply visitor_inv_drop).
  - unfold route_abandon in H. exec_cases H. rewrite <- (with_net_id s) at 1.
    by eapply visitor_inv_drop.
  - unfold place_visitor in H. exec_cases H.
    + rewrite <- (with_net_id s) at 1. by eapply visitor_inv_drop.
    + by eapply visitor_inv_place.
  - unfold finish_visitor in H. exec_cases H. destruct p. by eapply visitor_inv_finish.
  - unfold connect in H. simplify_eq. by eapply visitor_inv_frame; [..|done].
  - unfold register_lookup in H. exec_cases H; by eapply visitor_inv_frame; [..|done].
  - unfold register_finish in H. exec_cases H; by eapply visitor_inv_frame; [..|done].
  - unfold set_accepts in H. exec_cases H; by eapply visitor_inv_frame; [..|done].
  - unfold conn_close in H. exec_cases H; by eapply visitor_inv_frame; [..|done].
  - unfold watcher_fires in H. exec_cases H; by eapply visitor_inv_frame; [..|done].
  - unfold detached_released in H. exec_cases H; by eapply visitor_inv_frame; [..|done].
  - unfold begin_replace in H. exec_cases H; by eapply visitor_inv_frame; [..|done].
  - unfold commit_step in H. exec_cases H; try (by eapply visitor_inv_frame; [..|done]).
    1,2: eapply visitor_inv_frame; [..|done]; [done|]; by eapply adopt_one_frame.
    destruct Hinv. split; simpl; try done. intros id. unfold reset_streams.
    by rewrite lookup_fmap, fmap_is_Some.
  - unfold drop_commit in H. exec_cases H; by eapply visitor_inv_frame; [..|done].
  - unfold stop_accepting in H. simplify_eq. by eapply visitor_inv_frame; [..|done].
  - unfold seal in H. exec_cases H. by destruct Hinv; split.
  - unfold close_all in H. exec_cases H. by eapply visitor_inv_frame; [..|done].
  - unfold close_pool in H. exec_cases H. by eapply visitor_inv_frame; [..|done].
Qed.

(** ** Authorization of running Visitors *)

Definition commit_next (c : Commit) : AuthorizationSnapshot :=
  match c with CClose _ n _ | CTake _ n _ _ | CAdopt n _ | CPush n _ _ _ | CReset n => n end.

(** No replacement is in progress, and the last one that began ran to its end. *)
Definition settled (s : State) : Prop := commit s = None ∧ unfinished (interruptions s) = false.

Record auth_inv (s : State) : Prop := {
  ai_commit : ∀ c, commit s = Some c → commit_next c = snapshot s;
  ai_work : settled s → ∀ id r, work (vis s) !! id = Some r → abort_requested r = false →
    stream_remains_authorized (snapshot s) r = true
}.

Lemma auth_inv_frame s s' :
  work (vis s') = work (vis s) → snapshot s' = snapshot s → commit s' = commit s →
  interruptions s' = interruptions s → auth_inv s → auth_inv s'.
Proof. unfold settled. intros Hv Hs Hc Hi []. split; unfold settled in *; rewrite ?Hv, ?Hs, ?Hc, ?Hi; done. Qed.

Lemma drop_admission_work i v v' : drop_admission i v = Some v' → work v' = work v.
Proof. unfold drop_admission. intros H. by case_match; simplify_eq/=. Qed.

Lemma reset_streams_authorized next w id r :
  reset_streams next w !! id = Some r → abort_requested r = false →
  stream_remains_authorized next r = true.
Proof.
  unfold reset_streams. rewrite lookup_fmap. intros (r0 & Hr0 & ->)%fmap_Some Hab.
  destruct (abort_requested r0) eqn:E0; simpl in *; [by rewrite E0 in Hab|].
  destruct (stream_remains_authorized next r0) eqn:E1; simpl in *; [done | done].
Qed.

Lemma auth_inv_exec s a s' : auth_inv s → exec s a = Next s' → auth_inv s'.
Proof.
  intros Hinv H. destruct a; simpl in H.
  - unfold begin_route in H. exec_cases H; [done|]. by apply (auth_inv_frame s).
  - unfold route_lookup in H. exec_cases H; apply (auth_inv_frame s); try done.
    by eapply drop_admission_work.
  - unfold route_select in H. exec_cases H; apply (auth_inv_frame s); try done.
    by eapply drop_admission_work.
  - unfold route_abandon in H. exec_cases H. apply (auth_inv_frame s); try done.
    by eapply drop_admission_work.
  - unfold place_visitor in H. exec_cases H.
    + apply (auth_inv_frame s); try done. by eapply drop_admission_work.
    + apply orb_false_iff in H2 as [_ Hok]. apply negb_false_iff, andb_prop in Hok as [_ Hok].
      destruct Hinv as [Hc Hw]. split; simpl; [done|]. intros Hnone id r Hr Hab.
      apply drop_admission_work in H1. rewrite H1 in Hr.
      destruct (decide (id = next_stream_id v)) as [->|Hne].
      * rewrite lookup_insert_eq in Hr. by injection Hr as <-.
      * rewrite lookup_insert_ne in Hr by done. by eapply Hw.
  - unfold finish_visitor in H. exec_cases H. destruct Hinv as [Hc Hw]. split; simpl; [done|].
    intros Hnone id r Hr. apply lookup_delete_Some in Hr as [_ Hr]. by apply (Hw Hnone id).
  - unfold connect in H. simplify_eq. by apply (auth_inv_frame s).
  - unfold register_lookup in H. exec_cases H; by apply (auth_inv_frame s).
  - unfold register_finish in H. exec_cases H; by apply (auth_inv_frame s).
  - unfold set_accepts in H. exec_cases H; by apply (auth_inv_frame s).
  - unfold conn_close in H. exec_cases H; by apply (auth_inv_frame s).
  - unfold watcher_fires in H. exec_cases H; by apply (auth_inv_frame s).
  - unfold detached_released in H. exec_cases H; by apply (auth_inv_frame s).
  - unfold begin_replace in H. exec_cases H; first [done | split; simpl; [by intros c [= <-] | by intros [? _]]].
  - unfold commit_step in H. destruct Hinv as [Hc _]. exec_cases H; split; simpl; try done;
      try (by intros [? _]); try (by intros c [= <-]; specialize (Hc _ eq_refl)).
    intros _ id r Hr Hab. specialize (Hc _ eq_refl). simpl in Hc. subst.
    by eapply reset_streams_authorized.
  - unfold drop_commit in H. exec_cases H; split; simpl; try done; by intros [_ ?].
  - unfold stop_accepting in H. simplify_eq. by apply (auth_inv_frame s).
  - unfold seal in H. exec_cases H. by apply (auth_inv_frame s).
  - unfold close_all in H. exec_cases H. by apply (auth_inv_frame s).
  - unfold close_pool in H. exec_cases H. by apply (auth_inv_frame s).
Qed.

(** Only a replacement unsettles the registry, and its end settles it. *)
Lemma settled_exec s a s' :
  exec s a = Next s' →
  (settled s → settled s' ∨ ∃ h ts, a = BeginReplace h ts) ∧
  (a = CommitStep → commit s' = None → settled s').
Proof.
  intros H. split.
  - intros [Hc Hi]. destruct a; simpl in H; try (by right; eauto); left; split;
      unfold begin_route, route_lookup, route_select, route_abandon, place_visitor, finish_visitor, connect,
        register_lookup, register_finish, set_accepts, conn_close, watcher_fires, detached_released, commit_step,
        drop_commit, stop_accepting, seal, close_all, close_pool in H; try rewrite Hc in H; exec_cases H; by simplify_eq/=.
  - intros -> Hn. simpl in H. unfold commit_step in H. exec_cases H; done.
Qed.

(** ** A sealed registry places nothing *)

Ltac use_drop Hd :=
  match goal with Hx : drop_admission _ _ = Some _ |- _ =>
    apply Hd in Hx as (? & Hwork & ? & ?); simpl; rewrite ?Hwork end.

Lemma sealed_exec s a s' :
  sealed (vis s) = true → exec s a = Next s' →
  sealed (vis s') = true ∧ (∀ id, is_Some (work (vis s') !! id) → is_Some (work (vis s) !! id)) ∧
  (pending_admissions (vis s') ≤ pending_admissions (vis s))%Z ∧
  next_stream_id (vis s') = next_stream_id (vis s).
Proof.
  intros Hs H.
  assert (∀ i v, drop_admission i (vis s) = Some v → sealed v = true ∧ work v = work (vis s) ∧
    (pending_admissions v ≤ pending_admissions (vis s))%Z ∧ next_stream_id v = next_stream_id (vis s)) as Hd.
  { intros i v Hd. unfold drop_admission in Hd. case_match; simplify_eq/=. split_and!; done || lia. }
  destruct a; simpl in H.
  - unfold begin_route in H. rewrite Hs in H. by simplify_eq.
  - unfold route_lookup in H. exec_cases H; [done|]. by use_drop Hd.
  - unfold route_select in H. exec_cases H; [done|]. by use_drop Hd.
  - unfold route_abandon in H. exec_cases H. by use_drop Hd.
  - unfold place_visitor in H. exec_cases H; use_drop Hd; [done|].
    match goal with Hx : sealed ?v || _ = false, Hv : sealed ?v = true |- _ => by rewrite Hv in Hx end.
  - unfold finish_visitor in H. exec_cases H. split_and!; try done.
    intros id [r Hr]. apply lookup_delete_Some in Hr as [_ Hr]. eauto.
  - unfold connect in H. by simplify_eq.
  - unfold register_lookup in H. by exec_cases H.
  - unfold register_finish in H. by exec_cases H.
  - unfold set_accepts in H. by exec_cases H.
  - unfold conn_close in H. by exec_cases H.
  - unfold watcher_fires in H. by exec_cases H.
  - unfold detached_released in H. by exec_cases H.
  - unfold begin_replace in H. by exec_cases H.
  - unfold commit_step in H. exec_cases H; try done. split_and!; try done.
    intros id. unfold reset_streams. by rewrite lookup_fmap, fmap_is_Some.
  - unfold drop_commit in H. by exec_cases H.
  - unfold stop_accepting in H. by simplify_eq.
  - unfold seal in H. by exec_cases H.
  - unfold close_all in H. by exec_cases H.
  - unfold close_pool in H. by exec_cases H.
Qed.

Lemma sealed_rtc s s' :
  sealed (vis s) = true → rtc step s s' →
  sealed (vis s') = true ∧ (∀ id, is_Some (work (vis s') !! id) → is_Some (work (vis s) !! id)) ∧
  (pending_admissions (vis s') ≤ pending_admissions (vis s))%Z.
Proof.
  intros Hs Hr. induction Hr as [|x y z [a Ha] _ IH]; [done|].
  destruct (sealed_exec _ _ _ Hs Ha) as (Hy & Hw & Hp & _). destruct (IH Hy) as (? & Hw' & ?).
  split_and!; [done | auto | lia].
Qed.

(** ** Layout: the pools that names refer to *)

(** The pools a replacement still has to visit. *)
Definition commit_todo (c : option Commit) : list nat :=
  match c with
  | Some (CClose _ _ todo) | Some (CTake _ _ todo _) => todo
  | Some (CPush _ pool _ _) => [pool]
  | _ => []
  end.

(** [mentions s pid]: some task or table of [s] holds a handle to the pool. *)
Inductive mentions (s : State) (pid : nat) : Prop :=
| mentions_table : pid ∈ tunnel_pools (net s) → mentions s pid
| mentions_route h v : RtPool h v pid ∈ routes (vis s) → mentions s pid
| mentions_registration c i : RegPool pid c i ∈ registrations (net s) → mentions s pid
| mentions_watcher id c : (pid, id, c) ∈ watchers (net s) → mentions s pid
| mentions_commit : pid ∈ commit_todo (commit s) → mentions s pid
| mentions_closing r todo : (r, todo) ∈ closings s → pid ∈ todo → mentions s pid.

Definition managed (snap : AuthorizationSnapshot) : Prop := ∃ ids, continuity snap = Managed ids.

(** The table has one pool per Tunnel of the snapshot it was built for, unless the last
    replacement was dropped. *)
Definition table_fits (s : State) : Prop :=
  match commit s with
  | Some (CClose prev _ _) | Some (CTake prev _ _ _) =>
      wf_snapshot prev ∧ managed prev ∧ managed (snapshot s) ∧
      (unfinished (interruptions s) = false → length (tunnel_pools (net s)) = tunnel_count prev)
  | Some _ => length (tunnel_pools (net s)) = tunnel_count (snapshot s)
  | None => unfinished (interruptions s) = false →
      length (tunnel_pools (net s)) = tunnel_count (snapshot s)
  end.

Record layout_inv (s : State) : Prop := {
  li_mentions : ∀ pid, mentions s pid → is_Some (heap (net s) !! pid);
  li_fresh : ∀ pid, is_Some (heap (net s) !! pid) → pid < next_pool (net s);
  li_nodup : NoDup (tunnel_pools (net s));
  li_checked : ∀ c, RegChecked c ∈ registrations (net s) → is_Some (conns (net s) !! c);
  li_wf : wf_snapshot (snapshot s);
  li_fits : table_fits s
}.

Lemma elem_of_insert_at {A} (l : list A) i x y : y ∈ <[i := x]> l → y = x ∨ y ∈ l.
Proof.
  intros Hy. apply list_elem_of_lookup_1 in Hy as [j Hj].
  apply list_lookup_insert_Some in Hj as [(_ & <- & _)|[_ Hj]]; [by left|right].
  by apply list_elem_of_lookup_2 in Hj.
Qed.

Lemma elem_of_delete_at {A} (l : list A) i y : y ∈ delete i l → y ∈ l.
Proof.
  rewrite delete_take_drop, elem_of_app. intros [Hy|Hy].
  - by apply subseteq_take in Hy.
  - by apply subseteq_drop in Hy.
Qed.

(** An action that keeps the table, the snapshot and the replacement, adds no handle
    to an unknown pool and forgets neither a pool nor a connection. *)
Lemma layout_frame s s' :
  layout_inv s →
  (∀ pid, mentions s' pid → is_Some (heap (net s) !! pid)) →
  (∀ pid, is_Some (heap (net s') !! pid) ↔ is_Some (heap (net s) !! pid)) →
  next_pool (net s') = next_pool (net s) → tunnel_pools (net s') = tunnel_pools (net s) →
  (∀ c, RegChecked c ∈ registrations (net s') → is_Some (conns (net s') !! c)) →
  snapshot s' = snapshot s → commit s' = commit s → interruptions s' = interruptions s → layout_inv s'.
Proof.
  intros [] Hm Hh Hn Ht Hc Hs Hk Hi. split; rewrite ?Hn, ?Ht, ?Hs; try done.
  - intros pid Hpid. apply Hh. auto.
  - intros pid Hpid. apply Hh in Hpid. auto.
  - unfold table_fits in *. by rewrite Hk, Ht, Hs, Hi.
Qed.

(** Handles of the new state that the old one already had. *)
Lemma mentions_mono s s' pid :
  tunnel_pools (net s') = tunnel_pools (net s) → commit s' = commit s →
  (∀ h v, RtPool h v pid ∈ routes (vis s') → RtPool h v pid ∈ routes (vis s)) →
  (∀ c i, RegPool pid c i ∈ registrations (net s') → RegPool pid c i ∈ registrations (net s)) →
  (∀ id c, (pid, id, c) ∈ watchers (net s') → (pid, id, c) ∈ watchers (net s)) →
  closings s' = closings s → mentions s' pid → mentions s pid.
Proof.
  intros Ht Hk Hr Hg Hw Hcl Hm. destruct Hm as [Hm|h v Hm|c i Hm|id c Hm|Hm|r todo Hm Hin].
  - apply mentions_table. by rewrite <- Ht.
  - by eapply mentions_route, Hr.
  - by eapply mentions_registration, Hg.
  - by eapply mentions_watcher, Hw.
  - apply mentions_commit. by rewrite <- Hk.
  - apply (mentions_closing _ _ r todo); [by rewrite <- Hcl|done].
Qed.

Lemma drop_admission_routes i v v' r :
  drop_admission i v = Some v' → r ∈ routes v' → r ∈ routes v.
Proof.
  unfold drop_admission. intros H. case_match; simplify_eq/=. apply elem_of_delete_at.
Qed.

Lemma heap_insert_dom (h : gmap nat ActiveClientPool) pool p p' pid :
  h !! pool = Some p → is_Some (<[pool := p']> h !! pid) ↔ is_Some (h !! pid).
Proof.
  intros Hp. destruct (decide (pool = pid)) as [->|Hne].
  - rewrite lookup_insert_eq, Hp. split; eauto.
  - by rewrite lookup_insert_ne.
Qed.

Lemma conns_insert_mono {A} (m : gmap nat A) c x k : is_Some (m !! k) → is_Some (<[c := x]> m !! k).
Proof. intros [y Hy]. destruct (decide (c = k)) as [->|?]; [rewrite lookup_insert_eq | rewrite lookup_insert_ne]; eauto. Qed.

Lemma close_conn_mono r c m k : is_Some (m !! k) ↔ is_Some (close_conn r c m !! k).
Proof.
  unfold close_conn. destruct (m !! c) as [x|] eqn:E; [|done].
  destruct (decide (c = k)) as [->|?]; [rewrite lookup_insert_eq, E; split; eauto | by rewrite lookup_insert_ne].
Qed.

Lemma close_conns_mono r cs m k : is_Some (m !! k) ↔ is_Some (foldr (close_conn r) m cs !! k).
Proof. induction cs as [|c cs IH]; simpl; [done|]. by rewrite <- close_conn_mono. Qed.

(** *** Rebuilding the table *)

Lemma pools_by_id_spec ids pools id p :
  NoDup ids → pools_by_id ids pools !! id = Some p ↔
  ∃ k, ids !! k = Some id ∧ pools !! k = Some p.
Proof.
  intros Hnd. unfold pools_by_id.
  assert (∀ l (m : gmap bytes nat), NoDup l.*1 →
    (foldl (λ m ip, <[ip.1 := ip.2]> m) m l !! id = Some p ↔
     (id, p) ∈ l ∨ ((id ∉ l.*1) ∧ m !! id = Some p))) as Hfold.
  { clear Hnd. induction l as [|[i q] l IH]; intros m Hl; simpl.
    { split; [right; split; [apply not_elem_of_nil | done] | intros [Hin|[_ ?]]; [by apply elem_of_nil in Hin | done]]. }
    inversion Hl as [|? ? Hi Hl']; subst. rewrite IH by done. simpl.
    rewrite not_elem_of_cons, elem_of_cons. destruct (decide (id = i)) as [->|Hne].
    - rewrite lookup_insert_eq. split.
      + intros [Hin|[_ [= ->]]]; [by left; right | by left; left].
      + intros [[Heq|Hin]|[[? _] _]]; [injection Heq as ->; by right | by left | done].
    - rewrite lookup_insert_ne by done. split.
      + intros [Hin|[? ?]]; [by left; right | by right].
      + intros [[Heq|Hin]|[[_ ?] ?]]; [by injection Heq as -> -> | by left | by right]. }
  rewrite Hfold.
  - rewrite list_elem_of_lookup. rewrite lookup_empty. split.
    + intros [[k Hk]|[_ ?]]; [|done].
      apply lookup_zip_with_Some in Hk as (x & y & [= <- <-] & ? & ?). eauto.
    + intros (k & Hi & Hp). left. exists k. apply lookup_zip_with_Some. by exists id, p.
  - clear Hfold. revert pools. induction Hnd as [|i ids Hi Hnd IH]; intros [|q pools]; simpl;
      try constructor; [|apply IH].
    intros Hin. apply Hi. clear -Hin. revert pools Hin.
    induction ids as [|j ids IH]; intros [|r pools]; simpl; intros Hin; try (by apply elem_of_nil in Hin).
    apply elem_of_cons in Hin as [->|Hin]; [by left | right; eauto].
Qed.

Record rebuilt (by_id : gmap bytes nat) (ids : list bytes) (h : gmap nat ActiveClientPool) (np : nat)
    (ps : list nat) (h' : gmap nat ActiveClientPool) (np' : nat) : Prop := {
  rb_length : length ps = length ids;
  rb_nodup : NoDup ps;
  rb_in_heap : ∀ p, p ∈ ps → is_Some (h' !! p);
  rb_bound : ∀ p, is_Some (h' !! p) → p < np';
  rb_le : np ≤ np';
  rb_old : ∀ p, p < np → h' !! p = h !! p;
  rb_new : ∀ p, np ≤ p → p < np' → h' !! p = Some with_admission;
  rb_from : ∀ p, p ∈ ps → (∃ i, by_id !! i = Some p) ∨ np ≤ p;
  rb_kept : ∀ k id p, ids !! k = Some id → by_id !! id = Some p → ps !! k = Some p
}.

Lemma rebuild_spec by_id ids h np :
  NoDup ids →
  (∀ i1 i2 p, by_id !! i1 = Some p → by_id !! i2 = Some p → i1 = i2) →
  (∀ i p, by_id !! i = Some p → is_Some (h !! p)) →
  (∀ p, is_Some (h !! p) → p < np) →
  ∃ ps h' np', rebuild by_id ids h np = (ps, h', np') ∧ rebuilt by_id ids h np ps h' np'.
Proof.
  intros Hnd. revert by_id h np. induction Hnd as [|id ids Hid Hnd IH]; intros by_id h np Hinj Hin Hb.
  { exists [], h, np. split; [done|].
    split; try done; try lia; [constructor | set_solver | set_solver]. }
  cbn [rebuild]. destruct (by_id !! id) as [pool|] eqn:Eid.
  - destruct (IH (delete id by_id) h np) as (ps & h' & np' & -> & R); [..|done|].
    + intros i1 i2 p H1%lookup_delete_Some H2%lookup_delete_Some. naive_solver.
    + intros i p [_ H]%lookup_delete_Some. eauto.
    + assert (pool < np) as Hpool by (apply Hb; eauto).
      exists (pool :: ps), h', np'. split; [done|]. destruct R. split; try done.
      * simpl. by rewrite rb_length0.
      * constructor; [|done]. intros Hp. destruct (rb_from0 _ Hp) as [[i Hi]|?]; [|lia].
        apply lookup_delete_Some in Hi as [Hne Hi]. by apply Hne, (Hinj _ _ pool).
      * intros p [->|Hp]%elem_of_cons; [|auto]. rewrite rb_old0 by done. eauto.
      * intros p [->|Hp]%elem_of_cons; [by left; exists id|].
        destruct (rb_from0 _ Hp) as [[i Hi]|?]; [|by right].
        left. exists i. by apply lookup_delete_Some in Hi as [_ ?].
      * intros [|k] i p Hk Hp; simpl in *; [congruence|]. apply (rb_kept0 k i p Hk).
        rewrite lookup_delete_ne; [done|]. intros ->. by apply Hid, list_elem_of_lookup_2 with k.
  - destruct (IH by_id (<[np := with_admission]> h) (S np)) as (ps & h' & np' & -> & R); [done| | |].
    + intros i p H. apply conns_insert_mono. eauto.
    + intros p. destruct (decide (np = p)) as [->|?]; [lia|]. rewrite lookup_insert_ne by done.
      intros H%Hb. lia.
    + exists (np :: ps), h', np'. split; [done|]. destruct R.
      assert (h' !! np = Some with_admission) as Hnp
        by (rewrite rb_old0 by lia; apply lookup_insert_eq).
      split; try done.
      * simpl. by rewrite rb_length0.
      * constructor; [|done]. intros Hp. destruct (rb_from0 _ Hp) as [[i Hi]|?]; [|lia].
        apply Hin, Hb in Hi. lia.
      * intros p [->|Hp]%elem_of_cons; [eauto | auto].
      * lia.
      * intros p Hp. rewrite rb_old0 by lia. apply lookup_insert_ne. lia.
      * intros p H1 H2. destruct (decide (p = np)) as [->|?]; [done|]. apply rb_new0; lia.
      * intros p [->|Hp]%elem_of_cons; [by right|].
        destruct (rb_from0 _ Hp) as [?|?]; [by left | right; lia].
      * intros [|k] i p Hk Hp; simpl in *; [congruence|]. by apply (rb_kept0 k i p).
Qed.

(** The table after [CTake]: the layout facts that the rest of the commit needs. *)
Lemma rebuild_table prev_ids next_ids pools (h : gmap nat ActiveClientPool) np :
  NoDup prev_ids → NoDup next_ids → NoDup pools →
  (∀ p, p ∈ pools → is_Some (h !! p)) → (∀ p, is_Some (h !! p) → p < np) →
  ∃ ps h' np', rebuild (pools_by_id prev_ids pools) next_ids h np = (ps, h', np') ∧
    rebuilt (pools_by_id prev_ids pools) next_ids h np ps h' np'.
Proof.
  intros Hp Hn Hpools Hin Hb. apply rebuild_spec; [done| | |done].
  - intros i1 i2 p H1 H2. apply pools_by_id_spec in H1 as (k1 & Hi1 & Hk1); [|done].
    apply pools_by_id_spec in H2 as (k2 & Hi2 & Hk2); [|done].
    pose proof (NoDup_lookup _ _ _ _ Hpools Hk1 Hk2). naive_solver.
  - intros i p H. apply pools_by_id_spec in H as (k & _ & Hk); [|done].
    by apply Hin, list_elem_of_lookup_2 with k.
Qed.

(** *** Every action keeps the layout *)

(** Actions that touch neither the net nor the replacement. *)
Lemma layout_vis s v :
  layout_inv s →
  (∀ h w pid, RtPool h w pid ∈ routes v → RtPool h w pid ∈ routes (vis s) ∨ pid ∈ tunnel_pools (net s)) →
  layout_inv (with_vis v s).
Proof.
  intros Hinv Hr. apply (layout_frame s); try done; [|apply (li_checked _ Hinv)].
  intros pid Hm. apply (li_mentions _ Hinv). destruct Hm as [Hm|h w Hm|c i Hm|id c Hm|Hm|r todo Hm Hin]; simpl in *.
  - by apply mentions_table.
  - destruct (Hr _ _ _ Hm); [by eapply mentions_route | by apply mentions_table].
  - by eapply mentions_registration.
  - by eapply mentions_watcher.
  - by apply mentions_commit.
  - by eapply mentions_closing.
Qed.

(** Actions that replace a known pool. *)
Lemma layout_set_pool s pool p p' :
  layout_inv s → heap (net s) !! pool = Some p →
  layout_inv (with_net (set_heap (<[pool := p']> (heap (net s))) (net s)) s).
Proof.
  intros Hinv Hp. apply (layout_frame s); try done; [| |apply (li_checked _ Hinv)].
  - intros pid Hm. apply (li_mentions _ Hinv). by eapply mentions_mono; [..|exact Hm].
  - intros pid. by apply heap_insert_dom with p.
Qed.

(** Actions that only rewrite connection facts. *)
Lemma layout_set_conns s cs :
  layout_inv s → (∀ c, is_Some (conns (net s) !! c) → is_Some (cs !! c)) →
  layout_inv (with_net (set_conns cs (net s)) s).
Proof.
  intros Hinv Hcs. apply (layout_frame s); try done.
  - intros pid Hm. apply (li_mentions _ Hinv). by eapply mentions_mono; [..|exact Hm].
  - intros c Hc. simpl in *. by apply Hcs, (li_checked _ Hinv).
Qed.

Lemma layout_registrations s rs :
  layout_inv s →
  (∀ c, RegChecked c ∈ rs → RegChecked c ∈ registrations (net s)) →
  (∀ pid c i, RegPool pid c i ∈ rs →
     RegPool pid c i ∈ registrations (net s) ∨ pid ∈ tunnel_pools (net s)) →
  layout_inv (with_net (set_registrations rs (net s)) s).
Proof.
  intros Hinv Hc Hp. apply (layout_frame s); try done.
  - intros pid Hm. apply (li_mentions _ Hinv).
    destruct Hm as [Hm|h w Hm|c i Hm|id c Hm|Hm|r todo Hm Hin]; simpl in *.
    + by apply mentions_table.
    + by eapply mentions_route.
    + destruct (Hp _ _ _ Hm); [by eapply mentions_registration | by apply mentions_table].
    + by eapply mentions_watcher.
    + by apply mentions_commit.
    + by eapply mentions_closing.
  - intros c Hin. simpl in *. by apply (li_checked _ Hinv), Hc.
Qed.

Lemma layout_watchers s ws :
  layout_inv s →
  (∀ pid id c, (pid, id, c) ∈ ws → (pid, id, c) ∈ watchers (net s) ∨ is_Some (heap (net s) !! pid)) →
  layout_inv (with_net (set_watchers ws (net s)) s).
Proof.
  intros Hinv Hw. apply (layout_frame s); try done; [|apply (li_checked _ Hinv)].
  intros pid Hm. destruct Hm as [Hm|h w Hm|c i Hm|id c Hm|Hm|r todo Hm Hin]; simpl in *.
  - by apply (li_mentions _ Hinv), mentions_table.
  - by eapply (li_mentions _ Hinv), mentions_route.
  - by eapply (li_mentions _ Hinv), mentions_registration.
  - destruct (Hw _ _ _ Hm); [by eapply (li_mentions _ Hinv), mentions_watcher | done].
  - by apply (li_mentions _ Hinv), mentions_commit.
  - by eapply (li_mentions _ Hinv), mentions_closing.
Qed.

Lemma layout_connect s identity reason regs :
  layout_inv s →
  (∀ r, r ∈ regs → r ∈ registrations (net s) ∨ r = RegChecked (next_conn (net s))) →
  layout_inv (with_net (mkNet (heap (net s)) (next_pool (net s)) (tunnel_pools (net s))
    (<[next_conn (net s) := mkConn identity true true reason false]> (conns (net s)))
    (S (next_conn (net s))) (counters (net s)) (next_counter (net s)) (watchers (net s))
    (detached (net s)) regs (admission (net s))) s).
Proof.
  intros Hinv Hr. apply (layout_frame s); try done.
  - intros pid Hm. apply (li_mentions _ Hinv). eapply mentions_mono; [..|exact Hm]; try done.
    intros c i Hin. simpl in Hin. by destruct (Hr _ Hin).
  - intros c Hin. simpl in *. destruct (Hr _ Hin) as [Hold|[= ->]].
    + by apply conns_insert_mono, (li_checked _ Hinv).
    + by rewrite lookup_insert_eq.
Qed.

Lemma layout_commit_todo s c :
  layout_inv s →
  (∀ pid, pid ∈ commit_todo c → is_Some (heap (net s) !! pid)) →
  table_fits (with_commit c s) → layout_inv (with_commit c s).
Proof.
  intros [] Hc Hf. split; try done. intros pid Hm.
  destruct Hm as [Hm|h w Hm|? i Hm|id ? Hm|Hm|r todo Hm Hin]; simpl in *.
  - by apply li_mentions0, mentions_table.
  - by eapply li_mentions0, mentions_route.
  - by eapply li_mentions0, mentions_registration.
  - by eapply li_mentions0, mentions_watcher.
  - auto.
  - by eapply li_mentions0, mentions_closing.
Qed.

(** Actions that change the calls of [close_all]. *)
Lemma layout_closings s l :
  layout_inv s →
  (∀ r todo pid, (r, todo) ∈ l → pid ∈ todo → is_Some (heap (net s) !! pid)) →
  layout_inv (with_closings l s).
Proof.
  intros [] Hl. split; try done. intros pid Hm.
  destruct Hm as [Hm|h w Hm|? i Hm|id ? Hm|Hm|r todo Hm Hin]; simpl in *.
  - by apply li_mentions0, mentions_table.
  - by eapply li_mentions0, mentions_route.
  - by eapply li_mentions0, mentions_registration.
  - by eapply li_mentions0, mentions_watcher.
  - by apply li_mentions0, mentions_commit.
  - by eapply Hl.
Qed.

Lemma layout_set_admission s policy : layout_inv s → layout_inv (with_net (set_admission policy (net s)) s).
Proof.
  intros Hinv. apply (layout_frame s); try done; [|apply (li_checked _ Hinv)].
  intros pid Hm. apply (li_mentions _ Hinv). by eapply mentions_mono; [..|exact Hm].
Qed.

Lemma layout_adopt_one s next tm nw :
  layout_inv s → adopt_one next tm (net s) = Some nw →
  layout_inv (with_net nw.1 s) ∧ ∀ pool m, nw.2 = Some (pool, m) → is_Some (heap nw.1 !! pool).
Proof.
  intros Hinv H. unfold adopt_one in H. destruct tm as [old m].
  destruct (tunnel_index_for_client_identity next (client_identity m)) as [k|] eqn:Ek.
  2: { simplify_eq. split; [|done]. apply (layout_frame s); try done; [|apply (li_checked _ Hinv)].
       intros pid Hm. apply (li_mentions _ Hinv). by eapply mentions_mono; [..|exact Hm]. }
  destruct (tunnel_pools (net s) !! k) as [pool|] eqn:Epool.
  - destruct (heap (net s) !! pool) as [p|] eqn:Ep; simplify_eq/=.
    split; [|intros ? ? [= <- _]; by rewrite lookup_insert_eq].
    set (s1 := with_net (set_heap (<[pool := (adopt_begin p m).1]> (heap (net s))) (net s)) s).
    assert (layout_inv s1) as H1 by by eapply layout_set_pool.
    apply (layout_watchers s1); [done|].
    intros pid id c Hin. apply elem_of_app in Hin as [Hin|Hin].
    + left. apply list_elem_of_In, List.filter_In in Hin as [Hin _]. by apply list_elem_of_In.
    + right. apply list_elem_of_singleton in Hin. simplify_eq. simpl. by rewrite lookup_insert_eq.
  - destruct (drop_connection _ _) as [policy|]; simplify_eq/=. split; [by apply layout_set_admission | done].
Qed.

(** Swapping in the rebuilt table. *)
Lemma layout_rebuild s prev next taken prev_ids next_ids ps h np :
  layout_inv s → commit s = Some (CTake prev next [] taken) → next = snapshot s →
  continuity prev = Managed prev_ids → continuity next = Managed next_ids →
  rebuild (pools_by_id prev_ids (tunnel_pools (net s))) next_ids (heap (net s)) (next_pool (net s)) =
    (ps, h, np) →
  layout_inv (with_commit (Some (CAdopt next taken)) (with_net (set_layout h np ps (net s)) s)).
Proof.
  intros [] Hc Hn Hp Hnx Hr. unfold table_fits in li_fits0. rewrite Hc in li_fits0.
  destruct li_fits0 as (Hwf & _ & _ & Hlen).
  destruct (wf_ids _ Hwf _ Hp) as [_ Hndp]. subst next. destruct (wf_ids _ li_wf0 _ Hnx) as [Hln Hndn].
  destruct (rebuild_table prev_ids next_ids (tunnel_pools (net s)) (heap (net s)) (next_pool (net s)))
    as (ps' & h' & np' & Hr' & R); [done..| |done|].
  { intros p Hin. by apply li_mentions0, mentions_table. }
  rewrite Hr in Hr'. injection Hr' as <- <- <-. destruct R.
  assert (∀ pid, is_Some (heap (net s) !! pid) → is_Some (h !! pid)) as Hold.
  { intros pid Hpid. rewrite rb_old0; [done | auto]. }
  split; try done; simpl.
  - intros pid Hm. destruct Hm as [Hm|x w Hm|c i Hm|id c Hm|Hm|r todo Hm Hin]; simpl in *; [auto|..].
    + by eapply Hold, li_mentions0, mentions_route.
    + by eapply Hold, li_mentions0, mentions_registration.
    + by eapply Hold, li_mentions0, mentions_watcher.
    + by apply elem_of_nil in Hm.
    + by eapply Hold, li_mentions0, mentions_closing.
  - unfold table_fits. simpl. by rewrite rb_length0.
Qed.

Lemma layout_vis_drop s i v :
  layout_inv s → drop_admission i (vis s) = Some v → layout_inv (with_vis v s).
Proof. intros Hinv Hd. apply layout_vis; [done|]. intros. left. by eapply drop_admission_routes. Qed.

Lemma layout_set_routes s i r :
  layout_inv s → (∀ h w pid, r = RtPool h w pid → pid ∈ tunnel_pools (net s)) →
  layout_inv (with_vis (set_routes (<[i := r]> (routes (vis s))) (vis s)) s).
Proof.
  intros Hinv Hr. apply layout_vis; [done|]. simpl. intros h w pid Hin.
  apply elem_of_insert_at in Hin as [Heq|Hin]; [right; by eapply Hr | by left].
Qed.

Lemma layout_register_finish s i s' :
  layout_inv s → register_finish i s = Next s' → layout_inv s'.
Proof.
  intros Hinv H. unfold register_finish in H.
  destruct (registrations (net s) !! i) as [[c|pool c identity]|] eqn:Ei; try done.
  destruct (heap (net s) !! pool) as [p|] eqn:Ep; simpl in H; [|done].
  assert (layout_inv (with_net (set_registrations (delete i (registrations (net s))) (net s)) s)) as H1.
  { apply layout_registrations; [done|..]; intros *; [|left]; by eapply elem_of_delete_at. }
  destruct (try_register _ _ _ _ _) as [[[policy p'] m]|e]; simplify_eq.
  - assert (H2 := layout_set_pool _ pool p p' H1 Ep).
    assert (H3 := layout_watchers _ (watchers (net s) ++ [(pool, member_id m, c)]) H2).
    simpl in H3. eapply (layout_frame _ _ (H3 _)); try done; [|apply (li_checked _ H2)].
    intros pid Hm. destruct Hm as [Hm|h w Hm|? ? Hm|? ? Hm|Hm|r todo Hm Hin]; simpl in *.
    + by apply (li_mentions _ H2), mentions_table.
    + by eapply (li_mentions _ H2), mentions_route.
    + by eapply (li_mentions _ H2), mentions_registration.
    + apply elem_of_app in Hm as [Hm|Hm%list_elem_of_singleton]; [by eapply (li_mentions _ H2), mentions_watcher|].
      simplify_eq. by rewrite lookup_insert_eq.
    + by apply (li_mentions _ H2), mentions_commit.
    + by eapply (li_mentions _ H2), mentions_closing.
  - apply (layout_set_conns _ _ H1). intros k. simpl. by rewrite <- close_conn_mono.
  Unshelve. intros pid id c' [Hin|Hin%list_elem_of_singleton]%elem_of_app; [by left|].
    right. simplify_eq. by rewrite lookup_insert_eq.
Qed.

Lemma prepare_managed_spec current h ts next :
  prepare_managed_replacement current h ts = Ok next →
  managed current ∧ managed next ∧ wf_snapshot next.
Proof.
  unfold prepare_managed_replacement. destruct (continuity current) as [|ids] eqn:E; [done|].
  intros H. split_and!; [by exists ids | by eapply managed_is_managed | by eapply wf_managed].
Qed.

Lemma layout_begin_replace s h ts s' :
  layout_inv s → commit s = None → begin_replace h ts s = Next s' → layout_inv s'.
Proof.
  intros Hinv Hc H. unfold begin_replace in H. rewrite Hc in H.
  destruct (prepare_managed_replacement (snapshot s) h ts) as [next|] eqn:E; [|by simplify_eq].
  injection H as <-. destruct (prepare_managed_spec _ _ _ _ E) as (Hm & Hn & Hwf).
  destruct Hinv. unfold table_fits in li_fits0. rewrite Hc in li_fits0. split; simpl; try done.
  intros pid Hp. apply li_mentions0. destruct Hp as [Hp|? ? Hp|? ? Hp|? ? Hp|Hp|? ? Hp ?]; simpl in *.
  - by apply mentions_table.
  - by eapply mentions_route.
  - by eapply mentions_registration.
  - by eapply mentions_watcher.
  - apply mentions_table. by case_bool_decide; [apply elem_of_nil in Hp|].
  - by eapply mentions_closing.
Qed.

Lemma layout_drop_commit s s' : layout_inv s → drop_commit s = Next s' → layout_inv s'.
Proof.
  intros Hinv H. unfold drop_commit in H.
  assert (∀ policy b, layout_inv (with_interruptions (mkInterruptions true b)
    (with_commit None (with_net (set_admission policy (net s)) s)))) as Hstop.
  { intros policy b. destruct (layout_set_admission s policy Hinv). split; try done.
    intros pid Hm. apply li_mentions0. destruct Hm as [Hm|? ? Hm|? ? Hm|? ? Hm|Hm|? ? Hm ?]; simpl in *.
    - by apply mentions_table.
    - by eapply mentions_route.
    - by eapply mentions_registration.
    - by eapply mentions_watcher.
    - by apply elem_of_nil in Hm.
    - by eapply mentions_closing. }
  exec_cases H; apply Hstop.
Qed.

Lemma layout_commit_step s s' :
  layout_inv s → (∀ c, commit s = Some c → commit_next c = snapshot s) →
  commit_step s = Next s' → layout_inv s'.
Proof.
  intros Hinv Hnext H. unfold commit_step in H. pose proof (li_fits _ Hinv) as Hf. unfold table_fits in Hf.
  destruct (commit s) as [[prev next todo|prev next todo taken|next todo|next pool m todo|next]|] eqn:Ec; try done.
  - assert (∀ pid, pid ∈ todo → is_Some (heap (net s) !! pid)) as Ht.
    { intros pid Hin. apply (li_mentions _ Hinv), mentions_commit. by rewrite Ec. }
    destruct todo as [|pool todo]; [injection H as <-|exec_cases H].
    + apply layout_commit_todo; [done| |done]. intros pid Hin. by apply (li_mentions _ Hinv), mentions_table.
    + eapply (layout_commit_todo (with_net _ s)); [..|done].
      * apply layout_set_conns; [done|]. intros k. by rewrite <- close_conns_mono.
      * intros pid Hin. apply Ht. by right.
  - destruct todo as [|pool todo].
    + destruct (continuity prev) eqn:Hp; try done. destruct (continuity next) eqn:Hn; try done.
      destruct (rebuild _ _ _ _) as [[ps h] np] eqn:Hr. injection H as <-.
      by eapply layout_rebuild; [done|done|apply (Hnext _ eq_refl)|..].
    + exec_cases H.
      eapply (layout_commit_todo (with_net _ s)); [|..|done]; [by eapply layout_set_pool|].
      intros pid Hin. simpl. eapply heap_insert_dom; [done|]. apply (li_mentions _ Hinv), mentions_commit.
      rewrite Ec. by right.
  - destruct todo as [|tm todo]; [injection H as <-|].
    + by apply layout_commit_todo; [..|done]; [|intros pid Hin%elem_of_nil].
    + destruct (adopt_one next tm (net s)) as [[n' w]|] eqn:Ha; [|done]. injection H as <-.
      destruct (layout_adopt_one _ _ _ _ Hinv Ha) as [Hl Hpool].
      destruct (adopt_one_frame _ _ _ _ Ha) as (_ & _ & Ht & _).
      apply (layout_commit_todo (with_net _ s)); [done|..]; destruct w as [[pool m]|]; simpl in *.
      * intros pid Hin%list_elem_of_singleton. subst. by eapply Hpool.
      * by intros pid ?%elem_of_nil.
      * unfold table_fits. simpl. by rewrite Ht.
      * unfold table_fits. simpl. by rewrite Ht.
  - exec_cases H. apply (layout_commit_todo (with_net _ s)); [by eapply layout_set_pool|by intros pid ?%elem_of_nil|done].
  - injection H as <-. destruct Hinv. split; simpl; try done; [|by intros _].
    intros pid Hm. apply li_mentions0.
    destruct Hm as [Hm|? ? Hm|? ? Hm|? ? Hm|Hm|? ? Hm ?]; simpl in *.
    + by apply mentions_table.
    + by eapply mentions_route.
    + by eapply mentions_registration.
    + by eapply mentions_watcher.
    + by apply elem_of_nil in Hm.
    + by eapply mentions_closing.
Qed.

Lemma layout_register_lookup s i s' : layout_inv s → register_lookup i s = Next s' → layout_inv s'.
Proof.
  intros Hinv H. unfold register_lookup in H. exec_cases H.
  + apply layout_registrations; [done|..]; intros * Hin; apply elem_of_insert_at in Hin as [Heq|Hin]; try done; [|by left].
    right. simplify_eq. match goal with Hb : _ ≫= _ = Some _ |- _ => apply bind_Some in Hb as (k & _ & Hk) end.
    by eapply list_elem_of_lookup_2.
  + eapply (layout_registrations (with_net (set_conns _ (net s)) s)).
    * apply layout_set_conns; [done|]. intros k. by rewrite <- close_conn_mono.
    * intros ?. apply elem_of_delete_at.
    * intros * Hin. left. by eapply elem_of_delete_at.
Qed.

Lemma layout_watcher_fires s i s' : layout_inv s → watcher_fires i s = Next s' → layout_inv s'.
Proof.
  intros Hinv H. unfold watcher_fires in H. exec_cases H.
  match goal with Hp : heap (net s) !! ?pool = Some ?p |- _ =>
    assert (Hi := layout_set_pool s pool p (retain_other z p) Hinv Hp) end.
  apply (layout_frame _ _ Hi); try done; [|apply (li_checked _ Hi)].
  intros pid Hm. apply (li_mentions _ Hi). eapply mentions_mono; [..|exact Hm]; try done.
  intros ? ?. apply elem_of_delete_at.
Qed.

Lemma layout_close_all s reason s' : layout_inv s → close_all reason s = Next s' → layout_inv s'.
Proof.
  intros Hinv H. unfold close_all in H. exec_cases H. apply layout_closings; [done|]. intros r todo pid.
  rewrite elem_of_app, list_elem_of_singleton. intros [Hin|[= _ ->]] Hpid; apply (li_mentions _ Hinv);
    [by eapply mentions_closing | by apply mentions_table].
Qed.

Lemma layout_close_pool s i s' : layout_inv s → close_pool i s = Next s' → layout_inv s'.
Proof.
  intros Hinv H. unfold close_pool in H. exec_cases H. apply (layout_closings (with_net _ s)).
  + apply layout_set_conns; [done|]. intros k. by rewrite <- close_conns_mono.
  + intros r todo pid Hin Hpid. apply (li_mentions _ Hinv). apply elem_of_insert_at in Hin as [[= -> ->]|Hin].
    * eapply mentions_closing; [by eapply list_elem_of_lookup_2|]. by right.
    * by eapply mentions_closing.
Qed.

Lemma layout_inv_exec s a s' :
  auth_inv s → layout_inv s → exec s a = Next s' → layout_inv s'.
Proof.
  intros Hauth Hinv H. destruct a; simpl in H.
  - unfold begin_route in H. exec_cases H; [done|]. apply layout_vis; [done|]. simpl.
    intros *. rewrite elem_of_app, list_elem_of_singleton. intros [?|?]; [by left|done].
  - unfold route_lookup in H. exec_cases H; [|by eapply layout_vis_drop].
    apply layout_set_routes; [done|]. intros ? ? ? [= _ _ ->].
    match goal with Hb : _ ≫= _ = Some _ |- _ => apply bind_Some in Hb as (k & _ & Hk) end.
    by eapply list_elem_of_lookup_2.
  - unfold route_select in H. exec_cases H.
    + eapply (layout_set_routes (with_net _ s)); [by eapply layout_set_pool|done].
    + eapply (layout_vis_drop (with_net _ s)); [by eapply layout_set_pool|done].
  - unfold route_abandon in H. exec_cases H. by eapply layout_vis_drop.
  - unfold place_visitor in H. exec_cases H; [by eapply layout_vis_drop|].
    apply (layout_vis (with_net _ s)).
    + apply (layout_frame s); try done; [|apply (li_checked _ Hinv)].
      intros pid Hm. apply (li_mentions _ Hinv). by eapply mentions_mono; [..|exact Hm].
    + simpl. intros. left. by eapply drop_admission_routes.
  - unfold finish_visitor in H. exec_cases H. apply (layout_vis (with_net _ s)); [|simpl; by left].
    apply (layout_frame s); try done; [|apply (li_checked _ Hinv)].
    intros pid Hm. apply (li_mentions _ Hinv). by eapply mentions_mono; [..|exact Hm].
  - unfold connect in H. injection H as <-. apply layout_connect; [done|]. intros r.
    destruct (accepting s); [|by left]. rewrite elem_of_app, list_elem_of_singleton. done.
  - by eapply layout_register_lookup.
  - by eapply layout_register_finish.
  - unfold set_accepts in H. exec_cases H. apply layout_set_conns; [done|]. intros k. apply conns_insert_mono.
  - unfold conn_close in H. exec_cases H. apply layout_set_conns; [done|]. intros k. apply conns_insert_mono.
  - by eapply layout_watcher_fires.
  - unfold detached_released in H. exec_cases H.
    apply (layout_frame s); try done; [|apply (li_checked _ Hinv)].
    intros pid Hm. apply (li_mentions _ Hinv). by eapply mentions_mono; [..|exact Hm].
  - pose proof H as H'. unfold begin_replace in H'. destruct (commit s) eqn:Ec; [done|].
    by eapply layout_begin_replace.
  - eapply layout_commit_step; [done| |done]. apply Hauth.
  - by eapply layout_drop_commit.
  - unfold stop_accepting in H. simplify_eq. apply (layout_frame s); try done; [|apply (li_checked _ Hinv)].
    intros pid Hm. apply (li_mentions _ Hinv). by eapply mentions_mono; [..|exact Hm].
  - unfold seal in H. exec_cases H. apply layout_vis; [done|]. simpl. by left.
  - by eapply layout_close_all.
  - by eapply layout_close_pool.
Qed.

(** ** Permits of Tunnel connections *)

(** Members that a replacement has taken and not yet placed. *)
Definition commit_taken (c : option Commit) : list (nat * PoolMember) :=
  match c with
  | Some (CTake _ _ _ taken) | Some (CAdopt _ taken) => taken
  | Some (CPush _ pool m todo) => (pool, m) :: todo
  | _ => []
  end.

(** [f] of every member of every pool. *)
Definition collect {A} (f : PoolMember → A) (h : gmap nat ActiveClientPool) : list A :=
  map_to_list h ≫= λ kp, f <$> members kp.2.

(** The permits in circulation, by the identity they count for: one per pool member,
    per member between pools and per revoked connection that still closes. *)
Definition permits (s : State) : list bytes :=
  collect client_identity (heap (net s)) ++ (client_identity <$> (commit_taken (commit s)).*2) ++ (detached (net s)).*2.

Record accounts (ls : ServerAdmissionLimits) (policy : ServerAdmissionPolicy) (ids : list bytes) : Prop := {
  ac_limits : limits policy = ls;
  ac_identities : tracks (conn_active_by_identity policy) ids;
  ac_active : conn_active policy = len ids;
  ac_max : (len ids ≤ max_tunnel_connections ls)%Z;
  ac_identity_max : ∀ i, (occurrences i ids ≤ max_tunnel_connections_per_identity ls)%Z
}.

#[export] Instance occurrences_Permutation {K} `{Countable K} (k : K) :
  Proper ((≡ₚ) ==> (=)) (occurrences k).
Proof.
  intros l l' Hp. induction Hp as [|x l l' _ IH|x y l|l1 l2 l3 _ IH1 _ IH2]; rewrite ?occurrences_cons; [done|lia..].
Qed.

#[export] Instance accounts_Permutation ls policy : Proper ((≡ₚ) ==> iff) (accounts ls policy).
Proof.
  assert (∀ ids ids', ids ≡ₚ ids' → accounts ls policy ids → accounts ls policy ids') as Himp.
  { intros ids ids' Hp []. assert (len ids' = len ids) as Hl by (unfold len; by rewrite Hp).
    split; rewrite ?Hl; try done.
    - apply (tracks_perm _ ids); [|done]. intros k. by rewrite Hp.
    - intros i. by rewrite <- Hp. }
  intros ids ids' Hp. split; apply Himp; by rewrite Hp.
Qed.

Lemma accounts_drop ls policy i ids :
  accounts ls policy (i :: ids) →
  ∃ policy', drop_connection policy i = Some policy' ∧ accounts ls policy' ids.
Proof.
  intros []. rewrite len_cons in *.
  destruct (drop_connection_spec policy [] i ids) as (m & -> & Hm);
    [done | pose proof (len_nonneg ids); lia |].
  eexists. split; [done|]. split; simpl; try done; try lia.
  intros k. specialize (ac_identity_max0 k). rewrite occurrences_cons in ac_identity_max0. case_bool_decide; lia.
Qed.

Lemma accounts_drop_permits ls policy gone ids :
  accounts ls policy (gone ++ ids) →
  ∃ policy', drop_permits policy gone = Some policy' ∧ accounts ls policy' ids.
Proof.
  revert policy. induction gone as [|i gone IH]; intros policy H; simpl in *; [by eexists|].
  apply accounts_drop in H as (policy' & -> & H). by apply IH.
Qed.

Lemma accounts_acquire ls policy i policy' ids :
  accounts ls policy ids → try_acquire policy i = Ok policy' → accounts ls policy' (i :: ids).
Proof.
  intros [] H. apply try_acquire_inv in H as (H1 & H2 & ->). rewrite (tracks_get _ _ _ ac_identities0) in H2.
  subst ls. split; simpl; rewrite ?len_cons; try done; try lia.
  - by apply tracks_bump.
  - intros k. rewrite occurrences_cons. specialize (ac_identity_max0 k). case_bool_decide; [subst|]; lia.
Qed.

(** *** Permits in the heap *)

Section Collect.
Context {A : Type} (f : PoolMember → A).

Lemma collect_fresh h pool p :
  h !! pool = None → collect f (<[pool := p]> h) ≡ₚ (f <$> members p) ++ collect f h.
Proof. intros Hn. unfold collect. by rewrite map_to_list_insert. Qed.

Lemma collect_split h pool p :
  h !! pool = Some p → collect f h ≡ₚ (f <$> members p) ++ collect f (delete pool h).
Proof. intros Hp. rewrite <- (insert_delete_id h pool p Hp) at 1. apply collect_fresh, lookup_delete_eq. Qed.

Lemma collect_insert h pool p :
  collect f (<[pool := p]> h) ≡ₚ (f <$> members p) ++ collect f (delete pool h).
Proof. rewrite <- insert_delete_eq. apply collect_fresh, lookup_delete_eq. Qed.

(** Replacing a pool by one with the members [gained] more or [lost] fewer. *)
Lemma collect_update h pool p p' gained lost :
  h !! pool = Some p → (f <$> members p') ++ lost ≡ₚ (f <$> members p) ++ gained →
  collect f (<[pool := p']> h) ++ lost ≡ₚ collect f h ++ gained.
Proof.
  intros Hp Hm. rewrite collect_insert, (collect_split _ _ _ Hp).
  rewrite <- !app_assoc, !(Permutation_app_comm (collect f _)), !app_assoc. by rewrite Hm.
Qed.

Lemma collect_keep h pool p p' :
  h !! pool = Some p → members p' = members p → collect f (<[pool := p']> h) ≡ₚ collect f h.
Proof.
  intros Hp Hm. rewrite <- (app_nil_r (collect f (<[_ := _]> h))), <- (app_nil_r (collect f h)).
  apply (collect_update _ _ p); [done|]. by rewrite Hm.
Qed.

Lemma rebuild_collect by_id ids h np ps h' np' :
  rebuild by_id ids h np = (ps, h', np') → (∀ pid, is_Some (h !! pid) → pid < np) →
  collect f h' ≡ₚ collect f h.
Proof.
  revert by_id h np ps. induction ids as [|id ids IH]; intros by_id h np ps Hr Hf; simpl in Hr; [by simplify_eq|].
  destruct (by_id !! id).
  - destruct (rebuild _ ids h np) as [[ps1 h1] np1] eqn:E. simplify_eq. by eapply IH.
  - destruct (rebuild by_id ids _ (S np)) as [[ps1 h1] np1] eqn:E. simplify_eq.
    apply IH in E as ->.
    + apply collect_fresh. apply eq_None_not_Some. intros Hs. apply Hf in Hs. lia.
    + intros pid. destruct (decide (np = pid)) as [->|Hne]; [lia|].
      rewrite lookup_insert_ne by done. intros Hs. apply Hf in Hs. lia.
Qed.

End Collect.

Lemma filter_split_perm {A} (f : A → bool) (l : list A) :
  List.filter f l ++ List.filter (λ x, negb (f x)) l ≡ₚ l.
Proof.
  induction l as [|x l IH]; simpl; [done|]. destruct (f x); simpl; [by rewrite IH|].
  rewrite <- Permutation_middle. by rewrite IH.
Qed.

Definition permit_inv (ls : ServerAdmissionLimits) (s : State) : Prop :=
  accounts ls (admission (net s)) (permits s).

Lemma permit_frame ls s s' :
  permit_inv ls s → collect client_identity (heap (net s')) ≡ₚ collect client_identity (heap (net s)) →
  (client_identity <$> (commit_taken (commit s')).*2) ++ (detached (net s')).*2 ≡ₚ
  (client_identity <$> (commit_taken (commit s)).*2) ++ (detached (net s)).*2 →
  admission (net s') = admission (net s) → permit_inv ls s'.
Proof. unfold permit_inv, permits. intros H Hh Hc ->. by rewrite Hh, Hc. Qed.

Lemma select_connection_members acc cnt p :
  members (select_connection acc cnt p).1 = members p ∧
  next_member_id (select_connection acc cnt p).1 = next_member_id p.
Proof. unfold select_connection. by destruct (members p) eqn:E; simpl; rewrite ?E. Qed.

Lemma try_register_Ok policy p c i cnt policy' p' m :
  try_register policy p c i cnt = Ok (policy', p', m) →
  try_acquire policy i = Ok policy' ∧ m = mkMember (next_member_id p) i c cnt ∧
  p' = mkPool (members p ++ [m]) (next_member_id p + 1) (next_round_robin_offset p) ∧
  (len (members p) < max_tunnel_connections_per_tunnel (limits policy))%Z.
Proof.
  unfold try_register. destruct (Z.leb_spec (max_tunnel_connections_per_tunnel (limits policy)) (len (members p))).
  { done. }
  intros Hr. by invert Hr.
Qed.

Lemma permit_register ls s pool p c i cnt policy p' m n :
  permit_inv ls s → heap (net s) !! pool = Some p →
  try_register (admission (net s)) p c i cnt = Ok (policy, p', m) →
  heap n = <[pool := p']> (heap (net s)) → detached n = detached (net s) → admission n = policy →
  permit_inv ls (with_net n s).
Proof.
  intros H Hp Ht Hh Hd Ha. apply try_register_Ok in Ht as (Ht & -> & -> & _).
  unfold permit_inv, permits in *. simpl. rewrite Hh, Hd, Ha.
  assert (collect client_identity (<[pool := mkPool (members p ++ [mkMember (next_member_id p) i c cnt])
    (next_member_id p + 1) (next_round_robin_offset p)]> (heap (net s))) ≡ₚ collect client_identity (heap (net s)) ++ [i]) as ->.
  { rewrite <- (app_nil_r (collect client_identity (<[_ := _]> _))). apply (collect_update _ _ _ p); [done|].
    simpl. by rewrite fmap_app, app_nil_r. }
  rewrite <- app_assoc. simpl. rewrite <- Permutation_middle. by eapply accounts_acquire.
Qed.

(** A close watcher finds its pool and the permits to give back. *)
Lemma permit_watcher ls s pool p id :
  permit_inv ls s → heap (net s) !! pool = Some p →
  ∃ policy, drop_permits (admission (net s))
      (client_identity <$> List.filter (λ m, (member_id m =? id)%Z) (members p)) = Some policy ∧
    ∀ ws, permit_inv ls (with_net (set_admission policy (set_watchers ws
      (set_heap (<[pool := retain_other id p]> (heap (net s))) (net s)))) s).
Proof.
  intros H Hp. set (gone := client_identity <$> List.filter (λ m, (member_id m =? id)%Z) (members p)).
  set (h' := <[pool := retain_other id p]> (heap (net s))).
  assert (collect client_identity (heap (net s)) ≡ₚ gone ++ collect client_identity h') as Heq.
  { rewrite (Permutation_app_comm gone), <- (app_nil_r (collect client_identity (heap (net s)))). symmetry.
    apply (collect_update _ _ _ p); [done|]. rewrite app_nil_r, Permutation_app_comm.
    unfold gone. rewrite <- fmap_app. f_equiv. apply filter_split_perm. }
  unfold permit_inv, permits in *. rewrite Heq, <- app_assoc in H.
  apply accounts_drop_permits in H as (policy & Hd & H). by exists policy.
Qed.

Lemma permit_detached ls s i d :
  permit_inv ls s → detached (net s) !! i = Some d →
  ∃ policy, drop_connection (admission (net s)) d.2 = Some policy ∧
    permit_inv ls (with_net (set_admission policy (set_detached (delete i (detached (net s))) (net s))) s).
Proof.
  intros H Hd. unfold permit_inv, permits in *. simpl.
  assert ((detached (net s)).*2 ≡ₚ d.2 :: (delete i (detached (net s))).*2) as Heq.
  { rewrite <- (take_drop_middle _ _ _ Hd) at 1. rewrite delete_take_drop, !fmap_app. simpl.
    by rewrite <- Permutation_middle. }
  rewrite Heq, <- !Permutation_middle in H. by apply accounts_drop in H.
Qed.

(** Placing a member moves its permit along. *)
Lemma permit_adopt ls s next tm todo :
  permit_inv ls s → commit_taken (commit s) = tm :: todo →
  (∀ k pool, tunnel_pools (net s) !! k = Some pool → is_Some (heap (net s) !! pool)) →
  ∃ n' w, adopt_one next tm (net s) = Some (n', w) ∧
    permit_inv ls (with_commit (Some (match w with
      | None => CAdopt next todo
      | Some (pool, m) => CPush next pool m todo
      end)) (with_net n' s)).
Proof.
  intros H Hc Hpools. destruct tm as [old m]. unfold permit_inv, permits in *. rewrite Hc in H.
  unfold adopt_one. destruct (tunnel_index_for_client_identity _ _) as [k|].
  - destruct (tunnel_pools (net s) !! k) as [pool|] eqn:Ek.
    + destruct (Hpools _ _ Ek) as [p Hp]. rewrite Hp. simpl. eexists _, _. split; [done|]. simpl.
      by rewrite (collect_keep _ _ _ p).
    + assert (accounts ls (admission (net s)) (client_identity m ::
        collect client_identity (heap (net s)) ++ (client_identity <$> todo.*2) ++ (detached (net s)).*2)) as H'
        by (revert H; apply accounts_Permutation; simpl; by rewrite Permutation_middle).
      apply accounts_drop in H' as (policy & -> & H'). by eexists _, _.
  - eexists _, _. split; [done|]. simpl. revert H. apply accounts_Permutation. simpl. rewrite fmap_app. simpl.
    f_equiv. rewrite !app_assoc, (Permutation_app_comm _ [client_identity m]). done.
Qed.

Lemma snd_pair_fmap {A B} (a : A) (l : list B) : (pair a <$> l).*2 = l.
Proof. induction l as [|x l IH]; [done|]. rewrite !fmap_cons. by rewrite IH. Qed.

Lemma permit_commit_step ls s s' :
  layout_inv s → permit_inv ls s → commit_step s = Next s' → permit_inv ls s'.
Proof.
  intros Hlay Hinv H. unfold commit_step in H.
  destruct (commit s) as [[prev next [|pool todo]|prev next [|pool todo] taken|next [|tm todo]|next pool m todo|next]|]
    eqn:Ec; try done.
  - injection H as <-. apply (permit_frame ls s); try done. by rewrite Ec.
  - exec_cases H. apply (permit_frame ls s); try done. by rewrite Ec.
  - exec_cases H. apply (permit_frame ls s); try done; simpl; [|by rewrite Ec].
    eapply rebuild_collect; [done|]. apply Hlay.
  - destruct (heap (net s) !! pool) as [p|] eqn:Ep; [|done]. simpl in H. injection H as <-.
    unfold permit_inv, permits in *. rewrite Ec in Hinv. simpl in *. revert Hinv. apply accounts_Permutation.
    rewrite !fmap_app, snd_pair_fmap.
    rewrite collect_insert, (collect_split _ _ _ _ Ep). simpl. solve_Permutation.
  - injection H as <-. apply (permit_frame ls s); try done. by rewrite Ec.
  - destruct (permit_adopt ls s next tm todo) as (n' & w & Hn & H'); [done|by rewrite Ec|..].
    { intros k pid Hk. apply (li_mentions _ Hlay), mentions_table. by eapply list_elem_of_lookup_2. }
    rewrite Hn in H. by injection H as <-.
  - destruct (heap (net s) !! pool) as [p|] eqn:Ep; [|done]. simpl in H. injection H as <-.
    unfold permit_inv, permits in *. rewrite Ec in Hinv. simpl in *. revert Hinv. apply accounts_Permutation.
    rewrite collect_insert, (collect_split _ _ _ _ Ep). simpl. rewrite fmap_app. simpl. solve_Permutation.
  - injection H as <-. apply (permit_frame ls s); try done. by rewrite Ec.
Qed.

(** A dropped replacement gives back the permits of the members it had taken. *)
Lemma permit_drop ls s taken b :
  permit_inv ls s → client_identity <$> (commit_taken (commit s)).*2 = client_identity <$> taken →
  ∃ policy, drop_permits (admission (net s)) (client_identity <$> taken) = Some policy ∧
    permit_inv ls (with_interruptions (mkInterruptions true b)
      (with_commit None (with_net (set_admission policy (net s)) s))).
Proof.
  intros H Ht. unfold permit_inv, permits in *. rewrite Ht in H.
  rewrite app_assoc, (Permutation_app_comm (collect _ _)), <- app_assoc in H.
  apply accounts_drop_permits in H as (policy & Hd & H). by exists policy.
Qed.

Lemma permit_drop_commit ls s :
  permit_inv ls s → match drop_commit s with Next s' => permit_inv ls s' | Blocked => True | Panic => False end.
Proof.
  intros H. unfold drop_commit.
  destruct (commit s) as [[prev next [|pool todo]|prev next [|pool todo] taken|next [|tm todo]|next pool m todo|next]|]
    eqn:Ec; try done.
  - destruct (permit_drop ls s [] (undispatched (interruptions s) || true) H) as (policy & -> & ?); [by rewrite Ec|done].
  - destruct (permit_drop ls s taken.*2 (undispatched (interruptions s) || false) H) as (policy & -> & ?); [by rewrite Ec|done].
  - destruct (permit_drop ls s (m :: todo.*2) (undispatched (interruptions s) || false) H) as (policy & -> & ?);
      [by rewrite Ec|done].
Qed.

Lemma permit_inv_exec ls s a s' :
  layout_inv s → permit_inv ls s → exec s a = Next s' → permit_inv ls s'.
Proof.
  intros Hlay Hinv H. destruct a; simpl in H.
  - unfold begin_route in H. exec_cases H; [done|]. by apply (permit_frame ls s).
  - unfold route_lookup in H. exec_cases H; by apply (permit_frame ls s).
  - unfold route_select in H. exec_cases H; apply (permit_frame ls s); try done; simpl;
      (eapply collect_keep; [done|]);
      match goal with Hs : select_connection ?a ?b ?p = _ |- _ =>
        destruct (select_connection_members a b p) as [Hm _]; by rewrite Hs in Hm end.
  - unfold route_abandon in H. exec_cases H. by apply (permit_frame ls s).
  - unfold place_visitor in H. exec_cases H; by apply (permit_frame ls s).
  - unfold finish_visitor in H. exec_cases H. by apply (permit_frame ls s).
  - unfold connect in H. simplify_eq. by apply (permit_frame ls s).
  - unfold register_lookup in H. exec_cases H; by apply (permit_frame ls s).
  - unfold register_finish in H. exec_cases H; [by eapply permit_register|by apply (permit_frame ls s)].
  - unfold set_accepts in H. exec_cases H; by apply (permit_frame ls s).
  - unfold conn_close in H. exec_cases H; by apply (permit_frame ls s).
  - unfold watcher_fires in H. exec_cases H.
    match goal with Hp : heap (net s) !! ?pool = Some ?p, Hd : drop_permits _ (client_identity <$> List.filter (λ m, (member_id m =? ?id)%Z) _) = _ |- _ =>
      destruct (permit_watcher ls s pool p id Hinv Hp) as (policy & Hpol & Hok);
      rewrite Hd in Hpol; injection Hpol as -> end. apply Hok.
  - unfold detached_released in H. exec_cases H.
    match goal with Hd : detached (net s) !! ?i = Some ?d, Hx : drop_connection _ _ = _ |- _ =>
      destruct (permit_detached ls s i d Hinv Hd) as (policy & Hpol & Hok); rewrite Hx in Hpol;
      injection Hpol as -> end. done.
  - unfold begin_replace in H. exec_cases H; try done;
      match goal with Hc : commit s = None |- _ => apply (permit_frame ls s); try done; by rewrite Hc end.
  - by eapply permit_commit_step.
  - pose proof (permit_drop_commit ls s Hinv) as Hd. by rewrite H in Hd.
  - unfold stop_accepting in H. simplify_eq. by apply (permit_frame ls s).
  - unfold seal in H. exec_cases H. by apply (permit_frame ls s).
  - unfold close_all in H. exec_cases H. by apply (permit_frame ls s).
  - unfold close_pool in H. exec_cases H. by apply (permit_frame ls s).
Qed.

(** ** No action panics *)

Lemma drop_admission_ok i s x :
  visitor_inv s → routes (vis s) !! i = Some x → ∃ v, drop_admission i (vis s) = Some v.
Proof.
  intros [] Hx. unfold drop_admission. apply lookup_lt_Some in Hx.
  destruct (Z.ltb_spec (pending_admissions (vis s)) 1); [|by eexists].
  rewrite vi_pending0 in *. unfold len in *. lia.
Qed.

Lemma commit_step_safe ls s :
  auth_inv s → layout_inv s → permit_inv ls s → commit_step s ≠ Panic.
Proof.
  intros Hauth Hlay Hp. unfold commit_step. pose proof (li_fits _ Hlay) as Hf. unfold table_fits in Hf.
  destruct (commit s) as [[prev next [|pool todo]|prev next [|pool todo] taken|next [|tm todo]|next pool m todo|next]|]
    eqn:Ec; try done.
  - destruct (li_mentions _ Hlay pool) as [p ->]; [|done]. apply mentions_commit. rewrite Ec. by left.
  - assert (next = snapshot s) as -> by apply (ai_commit _ Hauth _ Ec).
    destruct Hf as (_ & [ids ->] & [ids' ->] & _). by destruct (rebuild _ _ _ _) as [[? ?] ?].
  - destruct (li_mentions _ Hlay pool) as [p ->]; [|done]. apply mentions_commit. rewrite Ec. by left.
  - destruct (permit_adopt ls s next tm todo) as (n' & w & -> & _); [done|by rewrite Ec| |done].
    intros k pid Hk. apply (li_mentions _ Hlay), mentions_table. by eapply list_elem_of_lookup_2.
  - destruct (li_mentions _ Hlay pool) as [p ->]; [|done]. apply mentions_commit. rewrite Ec. by left.
Qed.

Lemma exec_safe ls s a :
  visitor_inv s → auth_inv s → layout_inv s → permit_inv ls s → exec s a ≠ Panic.
Proof.
  intros Hv Ha Hl Hp. destruct a as [| i| i| i| i| i| | i| i| | | i| i| | | | | | | i]; simpl.
  - unfold begin_route. by destruct (sealed _).
  - unfold route_lookup. destruct (routes (vis s) !! i) as [[h|? ? ?|? ? ?]|] eqn:Ei; try done.
    destruct (pools_locked s); [done|]. destruct (_ ≫= _); [done|].
    by destruct (drop_admission_ok i s _ Hv Ei) as [v ->].
  - unfold route_select. destruct (routes (vis s) !! i) as [[?|h v pool|? ? ?]|] eqn:Ei; try done.
    destruct (li_mentions _ Hl pool) as [p ->].
    { eapply mentions_route. by eapply list_elem_of_lookup_2. }
    simpl. destruct (select_connection _ _ p) as [p' [m|]]; [done|]. simpl.
    by destruct (drop_admission_ok i s _ Hv Ei) as [v' ->].
  - unfold route_abandon. destruct (routes (vis s) !! i) as [r|] eqn:Ei; [|done].
    by destruct (drop_admission_ok i s _ Hv Ei) as [v ->].
  - unfold place_visitor. destruct (routes (vis s) !! i) as [[?|? ? ?|h auth m]|] eqn:Ei; try done.
    destruct (drop_admission_ok i s _ Hv Ei) as [v ->]. simpl. by destruct (_ || _).
  - unfold finish_visitor. destruct (guards (vis s) !! i) as [[id c]|] eqn:Ei; [|done]. simpl.
    destruct (tracks_release_at _ (guards (vis s)).*2 i c (vi_counters _ Hv)) as ([n ->] & m' & -> & _); [|done].
    by rewrite list_lookup_fmap, Ei.
  - done.
  - unfold register_lookup. destruct (registrations (net s) !! i) as [[c|? ? ?]|] eqn:Ei; try done.
    destruct (pools_locked s); [done|].
    destruct (li_checked _ Hl c) as [x ->]; [by eapply list_elem_of_lookup_2|]. simpl. by destruct (_ ≫= _).
  - unfold register_finish. destruct (registrations (net s) !! i) as [[?|pool c id]|] eqn:Ei; try done.
    destruct (li_mentions _ Hl pool) as [p ->].
    { eapply mentions_registration. by eapply list_elem_of_lookup_2. }
    simpl. by destruct (try_register _ _ _ _ _) as [[[? ?] ?]|].
  - unfold set_accepts. by destruct (_ !! _).
  - unfold conn_close. by destruct (_ !! _).
  - unfold watcher_fires. destruct (watchers (net s) !! i) as [[[pool id] c]|] eqn:Ei; [|done].
    destruct (negb _); [done|]. destruct (li_mentions _ Hl pool) as [p Hpool].
    { eapply mentions_watcher. by eapply list_elem_of_lookup_2. }
    rewrite Hpool. simpl. destruct (permit_watcher ls s pool p id Hp Hpool) as (policy & Hd & _).
    by rewrite Hd.
  - unfold detached_released. destruct (detached (net s) !! i) as [d|] eqn:Ei; [|done]. simpl.
    destruct (negb _); [done|]. by destruct (permit_detached ls s i d Hp Ei) as (policy & -> & _).
  - unfold begin_replace. destruct (commit s); [done|]. by destruct (prepare_managed_replacement _ _ _).
  - by eapply commit_step_safe.
  - pose proof (permit_drop_commit ls s Hp) as Hd. by destruct (drop_commit s).
  - done.
  - unfold seal. by destruct (accepting s).
  - unfold close_all. by destruct (pools_locked s).
  - unfold close_pool. destruct (closings s !! i) as [[r [|pool todo]]|] eqn:Ei; try done.
    destruct (li_mentions _ Hl pool) as [p ->]; [|done].
    eapply mentions_closing; [by eapply list_elem_of_lookup_2|]. by left.
Qed.

(** ** The invariants hold in every reachable state *)

Record registry_inv (ls : ServerAdmissionLimits) (s : State) : Prop := {
  ri_visitors : visitor_inv s;
  ri_auth : auth_inv s;
  ri_layout : layout_inv s;
  ri_permits : permit_inv ls s
}.

Lemma initial_wf snap : initial_snapshot snap → wf_snapshot snap.
Proof. intros [sh ts s Hs|]; [by eapply wf_static | apply wf_empty_managed]. Qed.

Lemma heap_new_lookup n pid :
  (list_to_map ((λ i, (i, with_admission)) <$> seq 0 n) : gmap nat ActiveClientPool) !! pid =
  if decide (pid < n) then Some with_admission else None.
Proof.
  assert (NoDup ((λ i, (i, with_admission)) <$> seq 0 n).*1) as Hnd.
  { rewrite <- list_fmap_compose. rewrite (list_fmap_ext _ id), list_fmap_id by done. apply NoDup_seq. }
  destruct (decide (pid < n)) as [Hlt|Hge].
  - apply elem_of_list_to_map_1; [done|]. apply list_elem_of_fmap. exists pid. split; [done|].
    apply elem_of_seq. lia.
  - apply not_elem_of_list_to_map_1. rewrite <- list_fmap_compose.
    rewrite (list_fmap_ext _ id), list_fmap_id by done. rewrite elem_of_seq. lia.
Qed.

Lemma heap_new_permits n :
  collect client_identity (list_to_map ((λ i, (i, with_admission)) <$> seq 0 n)) = [].
Proof.
  unfold collect. apply elem_of_nil_inv. intros x Hx. apply list_elem_of_bind in Hx as ([k p] & Hx & Hk).
  apply elem_of_map_to_list in Hk. rewrite heap_new_lookup in Hk. case_decide; simplify_eq/=.
  by apply elem_of_nil in Hx.
Qed.

Lemma registry_new_inv ls snap gate :
  limits_ok ls → initial_snapshot snap → registry_inv ls (registry_new snap (policy_new ls) gate).
Proof.
  intros Hls Hs. split.
  - split; try done; simpl.
    + constructor.
    + intros id. rewrite lookup_empty. split; [by intros [? ?] | by intros ?%elem_of_nil].
    + by intros id ?%elem_of_nil.
  - split; [done|]. intros _ id r Hr. simpl in Hr. by rewrite lookup_empty in Hr.
  - split; simpl.
    + intros pid [Hm|? ? Hm|? ? Hm|? ? Hm|Hm|? ? Hm ?]; simpl in Hm; try by apply elem_of_nil in Hm.
      apply elem_of_seq in Hm. rewrite heap_new_lookup, decide_True by lia. done.
    + intros pid. rewrite heap_new_lookup. case_decide; [done | by intros [? ?]].
    + apply NoDup_seq.
    + by intros c ?%elem_of_nil.
    + by apply initial_wf.
    + unfold table_fits. simpl. by rewrite length_seq.
  - unfold permit_inv, permits. simpl. rewrite heap_new_permits. simpl.
    split; simpl; try done; rewrite ?len_nil.
    + apply (Hls TunnelConnectionsGlobal).
    + intros i. apply (Hls TunnelConnectionsPerIdentity).
Qed.

Lemma registry_inv_exec ls s a s' : registry_inv ls s → exec s a = Next s' → registry_inv ls s'.
Proof.
  intros [] H. split; [by eapply visitor_inv_exec | by eapply auth_inv_exec | by eapply layout_inv_exec
    | by eapply permit_inv_exec].
Qed.

Lemma registry_inv_reachable ls s : limits_ok ls → reachable ls s → registry_inv ls s.
Proof.
  intros Hls (snap & gate & Hs & Hr). pose proof (registry_new_inv ls snap gate Hls Hs) as H0.
  induction Hr as [|x y z [a Ha] _ IH]; [done|]. by eapply IH, registry_inv_exec.
Qed.

Lemma run_rtc s acts s' : run s acts = Some s' → rtc step s s'.
Proof.
  revert s. induction acts as [|a acts IH]; intros s H; simpl in H; [injection H as ->; reflexivity|].
  destruct (exec s a) as [s1| |] eqn:E; try done. eapply rtc_l; [by exists a|]. by apply IH.
Qed.

Lemma run_app s acts acts' s' :
  run s acts = Some s' → run s (acts ++ acts') = run s' acts'.
Proof.
  revert s. induction acts as [|a acts IH]; intros s H; simpl in *; [by injection H as ->|].
  destruct (exec s a); try done. by apply IH.
Qed.

(** *** Outstanding work can always finish *)

Lemma finish_first s g gs :
  visitor_inv s → guards (vis s) = g :: gs →
  ∃ s', exec s (FinishVisitor 0) = Next s' ∧ guards (vis s') = gs ∧ routes (vis s') = routes (vis s).
Proof.
  intros Hv Hg. simpl. unfold finish_visitor. rewrite Hg. simpl.
  destruct (tracks_release_at _ (guards (vis s)).*2 0 g.2 (vi_counters _ Hv)) as ([n ->] & m' & -> & _).
  { by rewrite Hg. }
  eexists. split; [done|]. done.
Qed.

Lemma abandon_first s r rs :
  visitor_inv s → routes (vis s) = r :: rs →
  ∃ s', exec s (RouteAbandon 0) = Next s' ∧ guards (vis s') = guards (vis s) ∧ routes (vis s') = rs.
Proof.
  intros Hv Hr. simpl. unfold route_abandon. assert (routes (vis s) !! 0 = Some r) as Hx by by rewrite Hr.
  rewrite Hx. destruct (drop_admission_ok 0 s _ Hv Hx) as [v Hd]. rewrite Hd.
  eexists. split; [done|]. simpl. apply (drop_admission_inv _ _ _ _ Hx) in Hd as (_ & -> & _ & _ & _ & ->).
  by rewrite Hr.
Qed.

Lemma quiescent_iff s :
  visitor_inv s → has_outstanding_visitor_work s = false ↔ guards (vis s) = [] ∧ routes (vis s) = [].
Proof.
  intros []. unfold has_outstanding_visitor_work. rewrite orb_false_iff, negb_false_iff, bool_decide_eq_true.
  rewrite Z.ltb_ge, vi_pending0. split.
  - intros [Hw Hp]. split.
    + destruct (guards (vis s)) as [|[id c] gs] eqn:E; [done|]. exfalso.
      assert (is_Some (work (vis s) !! id)) as [r Hr] by (apply vi_dom0; simpl; by left).
      by rewrite Hw, lookup_empty in Hr.
    + destruct (routes (vis s)); [done|]. rewrite len_cons in Hp. pose proof (len_nonneg l). lia.
  - intros [Hg ->]. split; [|done]. apply map_empty. intros id.
    apply eq_None_not_Some. rewrite vi_dom0, Hg. apply not_elem_of_nil.
Qed.

Lemma drain_run s :
  visitor_inv s →
  ∃ s', run s (replicate (length (guards (vis s))) (FinishVisitor 0) ++
               replicate (length (routes (vis s))) (RouteAbandon 0)) = Some s' ∧
    visitor_inv s' ∧ guards (vis s') = [] ∧ routes (vis s') = [].
Proof.
  remember (guards (vis s)) as gs eqn:Hg. revert s Hg. induction gs as [|g gs IH]; intros s Hg Hv.
  - remember (routes (vis s)) as rs eqn:Hr. revert s Hg Hr Hv. induction rs as [|r rs IH]; intros s Hg Hr Hv.
    { exists s. done. }
    destruct (abandon_first s r rs) as (s1 & H1 & Hg1 & Hr1); [done..|].
    destruct (IH s1) as (s' & Hrun & ?); [by rewrite Hg1|done|by eapply visitor_inv_exec|].
    exists s'. simpl in *. by rewrite H1.
  - destruct (finish_first s g gs) as (s1 & H1 & Hg1 & Hr1); [done..|].
    destruct (IH s1) as (s' & Hrun & ?); [done|by eapply visitor_inv_exec|].
    exists s'. rewrite Hr1 in Hrun. simpl in *. by rewrite H1.
Qed.

Lemma in_flight_guards s : visitor_inv s → in_flight_visitor_count s = length (guards (vis s)).
Proof.
  intros []. unfold in_flight_visitor_count. rewrite <- (length_fmap fst (guards (vis s))).
  rewrite <- (size_list_to_set (C := gset Z)) by done. rewrite <- (size_dom (D := gset Z)). f_equal.
  apply set_eq. intros id. rewrite elem_of_dom, elem_of_list_to_set. apply vi_dom0.
Qed.

(** ** Properties *)

(** A managed Server with one Tunnel, one connection and two Visitors, one of them
    placed. *)
Definition demo_tunnel : ServerTunnelConfig :=
  mkTunnel (Some (bs "a")) [bs "a.test"] [bs "i1"; bs "i2"].
Definition demo_start : State := registry_new empty_managed (policy_new default_limits) (Some false).
Definition demo_actions : list action :=
  [BeginReplace (bs "s.test") [demo_tunnel]] ++ replicate 4 CommitStep ++
  [Connect (bs "i1"); RegisterLookup 0; RegisterFinish 0; BeginRoute (bs "a.test"); RouteLookup 0;
   RouteSelect 0; PlaceVisitor 0; BeginRoute (bs "a.test")].
Definition demo_state : State := default demo_start (run demo_start demo_actions).

Lemma default_limits_ok : limits_ok default_limits.
Proof. intros []; by vm_compute. Qed.

Lemma demo_run : run demo_start demo_actions = Some demo_state.
Proof. by vm_compute. Qed.

Lemma demo_reachable : reachable default_limits demo_state.
Proof.
  exists empty_managed, (Some false). split; [constructor|]. apply run_rtc with demo_actions, demo_run.
Qed.

(** C10: no interleaving of routing, registration, connection closure, replacement and
    shutdown makes the registry panic: no counter underflows, no permit is released
    twice, no task holds a pool that is gone, and the Managed-only branch of a commit
    is never entered with a static snapshot. *)
Theorem registry_never_panics ls s a : limits_ok ls → reachable ls s → exec s a ≠ Panic.
Proof.
  intros Hls Hr. destruct (registry_inv_reachable ls s Hls Hr). by eapply exec_safe.
Qed.

Lemma registry_never_panics_witness :
  guards (vis demo_state) ≠ [] ∧ exec demo_state (FinishVisitor 0) ≠ Panic.
Proof.
  split; [by vm_compute|].
  apply (registry_never_panics default_limits); [apply default_limits_ok | apply demo_reachable].
Defined.

(** C1: once the last replacement that began has run to its end, every running Visitor
    that has not been told to abort is authorized by the live snapshot: its hostname and
    the identity of its connection belong to the same Tunnel.  Only the start of a
    replacement interrupts this, and the end of any later one restores it, also when a
    replacement was dropped halfway in between. *)
Theorem running_visitors_authorized ls s :
  limits_ok ls → reachable ls s →
  (settled s → ∀ id r, work (vis s) !! id = Some r → abort_requested r = false →
     ∃ k, tunnel_index_for_public_hostname (snapshot s) (rec_hostname r) = Some k ∧
          tunnel_index_for_client_identity (snapshot s) (rec_identity r) = Some k) ∧
  (∀ a s', exec s a = Next s' →
     (settled s → settled s' ∨ ∃ h ts, a = BeginReplace h ts) ∧
     (a = CommitStep → commit s' = None → settled s')).
Proof.
  intros Hls Hr. destruct (registry_inv_reachable ls s Hls Hr) as [_ [_ Hwork] _ _]. split.
  - intros Hset id r Hw Ha. specialize (Hwork Hset id r Hw Ha). unfold stream_remains_authorized, authorized_pair in Hwork.
    destruct (tunnel_index_for_public_hostname _ _) as [k|]; [|done].
    destruct (tunnel_index_for_client_identity _ _) as [k'|]; [|done].
    apply Nat.eqb_eq in Hwork as ->. by exists k'.
  - intros a s' He. by apply settled_exec.
Qed.

Lemma running_visitors_authorized_witness :
  ∃ k, tunnel_index_for_public_hostname (snapshot demo_state) (bs "a.test") = Some k ∧
       tunnel_index_for_client_identity (snapshot demo_state) (bs "i1") = Some k.
Proof.
  destruct (running_visitors_authorized default_limits demo_state) as [Hauth _];
    [apply default_limits_ok | apply demo_reachable |].
  apply (λ Hset, Hauth Hset 1%Z (mkRecord (bs "a.test") 1 (bs "i1") false)); [split|..]; by vm_compute.
Defined.

(** The books of the registry balance: the pending count is the number of
    Visitors on their way, the reported in-flight count is the number of live guards,
    stream identifiers are never reused while live, and the load of every connection
    (what selection compares) is the number of its live guards. *)
Theorem visitor_accounting_exact ls s :
  limits_ok ls → reachable ls s →
  pending_admissions (vis s) = len (routes (vis s)) ∧
  in_flight_visitor_count s = length (guards (vis s)) ∧
  NoDup (guards (vis s)).*1 ∧ work (vis s) !! next_stream_id (vis s) = None ∧
  ∀ c, get (counters (net s)) c = occurrences c (guards (vis s)).*2.
Proof.
  intros Hls Hr. destruct (registry_inv_reachable ls s Hls Hr) as [Hv _ _ _].
  pose proof (in_flight_guards s Hv). destruct Hv. split_and!; try done.
  - apply eq_None_not_Some. rewrite vi_dom0. intros Hin. apply vi_fresh0 in Hin. lia.
  - intros c. by apply tracks_get.
Qed.

Lemma visitor_accounting_exact_witness :
  pending_admissions (vis demo_state) = 1%Z ∧ in_flight_visitor_count demo_state = 1.
Proof.
  destruct (visitor_accounting_exact default_limits demo_state) as (Hp & Hi & _);
    [apply default_limits_ok | apply demo_reachable |].
  split; [rewrite Hp | rewrite Hi]; by vm_compute.
Defined.

(** C9: the Tunnel-connection counters are exactly the permits in circulation, one per
    pool member, per member in transit between pools and per revoked connection that
    has not closed yet; so the global and per-identity limits bound real connections,
    whatever replacements happen. *)
Theorem connection_permits_exact ls s :
  limits_ok ls → reachable ls s →
  conn_active (admission (net s)) = len (permits s) ∧
  (len (permits s) ≤ max_tunnel_connections ls)%Z ∧
  ∀ i, get (conn_active_by_identity (admission (net s))) i = occurrences i (permits s) ∧
       (occurrences i (permits s) ≤ max_tunnel_connections_per_identity ls)%Z.
Proof.
  intros Hls Hr. destruct (registry_inv_reachable ls s Hls Hr) as [_ _ _ []].
  split_and!; [done..|]. intros i. split; [by apply tracks_get | done].
Qed.

Lemma connection_permits_exact_witness : conn_active (admission (net demo_state)) = 1%Z.
Proof.
  destruct (connection_permits_exact default_limits demo_state) as (-> & _);
    [apply default_limits_ok | apply demo_reachable | by vm_compute].
Defined.

(** C11: shutdown drains.  Once sealed, no action ever adds work: running Visitors can
    only leave, and an empty registry stays empty, which is what
    [wait_for_zero_in_flight_work] relies on.  And from every reachable state the
    Visitors present can all finish. *)
Theorem sealed_registry_drains ls s :
  limits_ok ls → reachable ls s →
  (sealed (vis s) = true → ∀ s', rtc step s s' →
     sealed (vis s') = true ∧ dom (work (vis s')) ⊆ dom (work (vis s)) ∧
     in_flight_visitor_count s' ≤ in_flight_visitor_count s ∧
     (has_outstanding_visitor_work s = false → has_outstanding_visitor_work s' = false)) ∧
  ∃ acts s', run s acts = Some s' ∧ has_outstanding_visitor_work s' = false.
Proof.
  intros Hls Hr. destruct (registry_inv_reachable ls s Hls Hr) as [Hv _ _ _]. split.
  - intros Hs s' Hrtc. destruct (sealed_rtc s s' Hs Hrtc) as (Hs' & Hw & Hp).
    assert (dom (work (vis s')) ⊆ dom (work (vis s))) as Hsub.
    { intros id. rewrite !elem_of_dom. apply Hw. }
    split_and!; [done..| |].
    + unfold in_flight_visitor_count. rewrite <- !(size_dom (D := gset Z)). by apply subseteq_size.
    + unfold has_outstanding_visitor_work.
      rewrite !orb_false_iff, !negb_false_iff, !bool_decide_eq_true, !Z.ltb_ge.
      intros [He Hz]. split; [|lia]. rewrite He, dom_empty in Hsub.
      apply (dom_empty_inv (D := gset Z)). set_solver.
  - destruct (drain_run s Hv) as (s' & Hrun & Hv' & Hg & Hrt). eexists _, s'. split; [done|].
    by apply quiescent_iff.
Qed.

Lemma sealed_registry_drains_witness :
  ∃ acts s', run demo_state acts = Some s' ∧ has_outstanding_visitor_work s' = false.
Proof.
  apply (sealed_registry_drains default_limits); [apply default_limits_ok | apply demo_reachable].
Defined.
