(* ===== verification/Continuity.v ===== *)
(** * Continuity: connections across authorization replacements

    What happens to registered Tunnel connections while the authorization changes and
    while connections close: every member of a pool has a close watcher, members follow
    their identity to the pool of its Tunnel, revoked connections are told to close
    ([src/server/tunnel_registry.rs], [commit_authorization], and
    [src/server/active_client.rs]). *)

From Stdlib Require Import Ascii ZArith Lia.
From stdpp Require Import base strings numbers gmap list relations.
From S2P Require Import Prelude Admission Authorization Pool Registry.

Local Open Scope nat_scope.
Local Set Warnings "-clear-no-such-hyp".

Import Counter Policy Registry.

(** ** Runs without a stale registration *)

(** A registration between [register_lookup] and [register_finish]. *)
Definition is_reg_pool (r : RegisterTask) : bool :=
  match r with RegPool _ _ _ => true | RegChecked _ => false end.

(** A step in which no replacement starts while a registration holds the pool it
    looked up. *)
Definition quiet_step (s s' : State) : Prop :=
  ∃ a, exec s a = Next s' ∧
    match a with
    | BeginReplace _ _ => forallb (λ r, negb (is_reg_pool r)) (registrations (net s)) = true
    | _ => True
    end.

Definition quiet_reachable (ls : ServerAdmissionLimits) (s : State) : Prop :=
  ∃ snap gate, initial_snapshot snap ∧ rtc quiet_step (registry_new snap (policy_new ls) gate) s.

(** The snapshot that the pool table is laid out for. *)
Definition table_snapshot (s : State) : AuthorizationSnapshot :=
  match commit s with
  | Some (CClose prev _ _) | Some (CTake prev _ _ _) => prev
  | _ => snapshot s
  end.

(** Pool [pid] is the pool of the Tunnel that [snap] assigns to [identity]. *)
Definition home (snap : AuthorizationSnapshot) (table : list nat) (identity : bytes) (pid : nat) : Prop :=
  ∃ k, table !! k = Some pid ∧ tunnel_index_for_client_identity snap identity = Some k.

Definition member_of (h : gmap nat ActiveClientPool) (pid : nat) (m : PoolMember) : Prop :=
  ∃ p, h !! pid = Some p ∧ m ∈ members p.

(** [close] was called on the connection. *)
Definition signalled (cs : gmap nat Conn) (c : nat) : Prop :=
  ∃ x, cs !! c = Some x ∧ close_reason x ≠ None.

Definition untrusted (snap : AuthorizationSnapshot) (m : PoolMember) : Prop :=
  client_identity m ∉ trusted_client_identities snap.

(** The table is laid out for the snapshot: always once a replacement has rebuilt it, and
    before that unless the previous one was dropped. *)
Definition aligned (s : State) : Prop :=
  match commit s with
  | Some (CAdopt _ _) | Some (CPush _ _ _ _) | Some (CReset _) => True
  | _ => unfinished (interruptions s) = false
  end.

(** Every replacement so far closed the connections of the identities it removed. *)
Definition dispatched (s : State) : Prop := undispatched (interruptions s) = false.

Record align_inv (s : State) : Prop := {
  al_registrations : ∀ pid c i, RegPool pid c i ∈ registrations (net s) →
    pools_locked s = false ∧ pid ∈ tunnel_pools (net s) ∧
    i ∈ trusted_client_identities (snapshot s) ∧
    (aligned s → home (snapshot s) (tunnel_pools (net s)) i pid);
  al_members : ∀ pid m, member_of (heap (net s)) pid m →
    pid ∈ tunnel_pools (net s) ∧
    (aligned s → home (table_snapshot s) (tunnel_pools (net s)) (client_identity m) pid) ∧
    (dispatched s → untrusted (table_snapshot s) m → signalled (conns (net s)) (connection m));
  al_commit : match commit s with
    | Some (CClose _ next todo) => dispatched s → ∀ pid m, member_of (heap (net s)) pid m →
        untrusted next m → pid ∈ todo ∨ signalled (conns (net s)) (connection m)
    | Some (CTake _ next todo _) => ∀ pid m, member_of (heap (net s)) pid m →
        pid ∈ todo ∧ (dispatched s → untrusted next m → signalled (conns (net s)) (connection m))
    | Some (CPush next pool m _) => home next (tunnel_pools (net s)) (client_identity m) pool
    | _ => True
    end;
  al_taken : dispatched s → ∀ pid m, (pid, m) ∈ commit_taken (commit s) → untrusted (snapshot s) m →
    signalled (conns (net s)) (connection m);
  al_detached : dispatched s → ∀ c i, (c, i) ∈ detached (net s) → signalled (conns (net s)) c
}.

(** ** Connection facts only grow *)

Definition conns_le (cs cs' : gmap nat Conn) : Prop :=
  ∀ c x, cs !! c = Some x → ∃ x', cs' !! c = Some x' ∧
    (close_reason x ≠ None → close_reason x' ≠ None) ∧ (conn_closed x = true → conn_closed x' = true).

#[export] Instance conns_le_preorder : PreOrder conns_le.
Proof.
  split.
  - intros cs c x Hx. by exists x.
  - intros cs1 cs2 cs3 H1 H2 c x Hx. destruct (H1 _ _ Hx) as (y & Hy & ? & ?).
    destruct (H2 _ _ Hy) as (z & Hz & ? & ?). exists z. auto.
Qed.

Lemma conns_le_is_Some cs cs' c : conns_le cs cs' → is_Some (cs !! c) → is_Some (cs' !! c).
Proof. intros H [x Hx]. destruct (H _ _ Hx) as (y & Hy & _). eauto. Qed.

Lemma conns_le_signalled cs cs' c : conns_le cs cs' → signalled cs c → signalled cs' c.
Proof. intros H (x & Hx & Hr). destruct (H _ _ Hx) as (y & Hy & ? & ?). exists y. auto. Qed.

Lemma conns_le_closed n n' c : conns_le (conns n) (conns n') → is_closed n c = true → is_closed n' c = true.
Proof.
  unfold is_closed. intros H Hc. destruct (conns n !! c) as [x|] eqn:E; [|done].
  destruct (H _ _ E) as (y & -> & _ & ?). auto.
Qed.

Lemma conns_le_insert cs c x y :
  cs !! c = Some x → (close_reason x ≠ None → close_reason y ≠ None) →
  (conn_closed x = true → conn_closed y = true) → conns_le cs (<[c := y]> cs).
Proof.
  intros Hx Hr Hc k z Hz. destruct (decide (c = k)) as [->|Hne].
  - exists y. rewrite lookup_insert_eq. by simplify_eq.
  - exists z. by rewrite lookup_insert_ne.
Qed.

Lemma conns_le_fresh cs c y : cs !! c = None → conns_le cs (<[c := y]> cs).
Proof.
  intros Hn k z Hz. exists z. rewrite lookup_insert_ne; [done|]. intros ->. by simplify_eq.
Qed.

Lemma conns_le_close r c cs : conns_le cs (close_conn r c cs).
Proof.
  unfold close_conn. destruct (cs !! c) as [x|] eqn:E; [|done].
  apply (conns_le_insert _ _ x); [done| |done]. simpl. by destruct (close_reason x).
Qed.

Lemma conns_le_closes r l cs : conns_le cs (foldr (close_conn r) cs l).
Proof. induction l as [|c l IH]; simpl; [done|]. etrans; [apply IH | apply conns_le_close]. Qed.

Lemma close_conn_signalled r c cs : is_Some (cs !! c) → signalled (close_conn r c cs) c.
Proof.
  intros [x Hx]. unfold close_conn. rewrite Hx. eexists. rewrite lookup_insert_eq. split; [done|]. simpl.
  by destruct (close_reason x).
Qed.

Lemma closes_signalled r l cs c :
  c ∈ l → is_Some (cs !! c) → signalled (foldr (close_conn r) cs l) c.
Proof.
  induction l as [|d l IH]; intros Hin Hs; [by apply elem_of_nil in Hin|]. simpl.
  apply elem_of_cons in Hin as [<-|Hin].
  - by apply close_conn_signalled, (conns_le_is_Some _ _ _ (conns_le_closes r l cs)).
  - eapply conns_le_signalled; [apply conns_le_close|]. auto.
Qed.

(** Connections are numbered as they come. *)
Definition fresh_conns (n : NetState) : Prop := ∀ c, is_Some (conns n !! c) → c < next_conn n.

Lemma adopt_one_conns next tm n nw :
  adopt_one next tm n = Some nw → conns nw.1 = conns n ∧ next_conn nw.1 = next_conn n.
Proof.
  unfold adopt_one. destruct tm as [old m]. intros H.
  destruct (tunnel_index_for_client_identity next (client_identity m)) as [k|]; [|by simplify_eq].
  destruct (tunnel_pools n !! k) as [pool|]; simpl in H.
  - destruct (heap n !! pool) as [p|]; by simplify_eq/=.
  - destruct (drop_connection _ _); by simplify_eq/=.
Qed.

(** No action forgets a connection, what it was told or that it closed. *)
Lemma exec_conns s a s' :
  fresh_conns (net s) → exec s a = Next s' →
  conns_le (conns (net s)) (conns (net s')) ∧ fresh_conns (net s').
Proof.
  intros Hf H.
  assert (∀ cs n, conns_le (conns (net s)) cs → (∀ c, is_Some (cs !! c) → is_Some (conns (net s) !! c)) →
    conns n = cs → next_conn n = next_conn (net s) → conns_le (conns (net s)) cs ∧ fresh_conns n) as Hkeep.
  { intros cs n Hle Hdom Hc Hn. unfold fresh_conns. rewrite Hc, Hn. split; [done|]. intros c Hs. by apply Hf, Hdom. }
  destruct a; simpl in H;
    try (unfold begin_route, route_lookup, route_select, route_abandon, place_visitor, finish_visitor, watcher_fires,
           detached_released, begin_replace, drop_commit, stop_accepting, seal, close_all in H;
         exec_cases H; simplify_eq/=; by (split; [reflexivity|exact Hf])).
  - unfold connect in H. injection H as <-. simpl.
    assert (conns (net s) !! next_conn (net s) = None) as Hnew.
    { apply eq_None_not_Some. intros Hs. apply Hf in Hs. lia. }
    split; [by apply conns_le_fresh|]. intros c. simpl.
    destruct (decide (next_conn (net s) = c)) as [<-|Hne]; [lia|].
    rewrite lookup_insert_ne by done. intros Hs. apply Hf in Hs. lia.
  - unfold register_lookup in H. exec_cases H; [by (split; [reflexivity|exact Hf])|].
    eapply Hkeep; try done; [apply conns_le_close|]. intros k. by rewrite <- close_conn_mono.
  - unfold register_finish in H. exec_cases H; [by (split; [reflexivity|exact Hf])|].
    eapply Hkeep; try done; [apply conns_le_close|]. intros k. by rewrite <- close_conn_mono.
  - unfold set_accepts in H. exec_cases H. eapply Hkeep; try done; [by eapply conns_le_insert|].
    intros k [y Hy]. apply lookup_insert_Some in Hy as [[<- _]|[_ Hy]]; eauto.
  - unfold conn_close in H. exec_cases H. eapply Hkeep; try done; [by eapply conns_le_insert|].
    intros k [y Hy]. apply lookup_insert_Some in Hy as [[<- _]|[_ Hy]]; eauto.
  - unfold commit_step in H. exec_cases H; try (by (split; [reflexivity|exact Hf])).
    1: eapply Hkeep; try done; [apply conns_le_closes|]; intros k; by rewrite <- close_conns_mono.
    all: match goal with Ha : adopt_one _ _ _ = Some _ |- _ => destruct (adopt_one_conns _ _ _ _ Ha) as [Hc Hn] end;
      rewrite Hc; by apply Hkeep.
  - unfold close_pool in H. exec_cases H. eapply Hkeep; try done; [apply conns_le_closes|].
    intros k. by rewrite <- close_conns_mono.
Qed.

Lemma member_of_insert h pool p pid m :
  member_of (<[pool := p]> h) pid m →
  (pid = pool ∧ m ∈ members p) ∨ (pid ≠ pool ∧ member_of h pid m).
Proof.
  intros (q & Hq & Hin). destruct (decide (pool = pid)) as [->|Hne].
  - rewrite lookup_insert_eq in Hq. injection Hq as <-. by left.
  - rewrite lookup_insert_ne in Hq by done. right. split; [done|]. by exists q.
Qed.

(** Replacing a pool by one without new members. *)
Lemma member_of_shrink h pool p p' :
  h !! pool = Some p → (∀ m, m ∈ members p' → m ∈ members p) →
  ∀ pid m, member_of (<[pool := p']> h) pid m → member_of h pid m.
Proof.
  intros Hp Hsub pid m Hin. apply member_of_insert in Hin as [[-> Hin]|[_ Hin]]; [|done].
  exists p. auto.
Qed.

Lemma rebuild_lookup by_id ids h np ps h' np' pid p :
  rebuild by_id ids h np = (ps, h', np') → (∀ pid, is_Some (h !! pid) → pid < np) →
  (h !! pid = Some p → h' !! pid = Some p) ∧
  (h' !! pid = Some p → h !! pid = Some p ∨ p = with_admission).
Proof.
  revert by_id h np ps. induction ids as [|id ids IH]; intros by_id h np ps Hr Hf; simpl in Hr; [simplify_eq; auto|].
  destruct (by_id !! id).
  - destruct (rebuild _ ids h np) as [[ps1 h1] np1] eqn:E. simplify_eq. by eapply IH.
  - destruct (rebuild by_id ids _ (S np)) as [[ps1 h1] np1] eqn:E. simplify_eq.
    apply IH in E as [E1 E2].
    + destruct (decide (np = pid)) as [->|Hne].
      * rewrite lookup_insert_eq in E1, E2. split.
        { intros Hp. assert (is_Some (h !! pid)) as Hs by eauto. apply Hf in Hs. lia. }
        { intros Hp. right. destruct (E2 Hp); congruence. }
      * by rewrite lookup_insert_ne in E1, E2.
    + intros k. destruct (decide (np = k)) as [->|Hne]; [lia|].
      rewrite lookup_insert_ne by done. intros Hs. apply Hf in Hs. lia.
Qed.

(** Every connection that a task, a pool or a replacement holds is known. *)
Record known_inv (s : State) : Prop := {
  kn_fresh : fresh_conns (net s);
  kn_registrations : ∀ pid c i, RegPool pid c i ∈ registrations (net s) → is_Some (conns (net s) !! c);
  kn_members : ∀ pid m, member_of (heap (net s)) pid m → is_Some (conns (net s) !! connection m);
  kn_taken : ∀ pid m, (pid, m) ∈ commit_taken (commit s) → is_Some (conns (net s) !! connection m)
}.

Lemma known_frame s s' :
  known_inv s → conns_le (conns (net s)) (conns (net s')) → fresh_conns (net s') →
  (∀ pid c i, RegPool pid c i ∈ registrations (net s') →
     RegPool pid c i ∈ registrations (net s) ∨ is_Some (conns (net s) !! c)) →
  (∀ pid m, member_of (heap (net s')) pid m →
     member_of (heap (net s)) pid m ∨ is_Some (conns (net s) !! connection m)) →
  (∀ pid m, (pid, m) ∈ commit_taken (commit s') →
     (pid, m) ∈ commit_taken (commit s) ∨ is_Some (conns (net s) !! connection m)) → known_inv s'.
Proof.
  intros [] Hle Hf Hr Hm Ht. split; [done|..]; intros.
  - eapply conns_le_is_Some; [done|]. edestruct Hr; eauto.
  - eapply conns_le_is_Some; [done|]. edestruct Hm; eauto.
  - eapply conns_le_is_Some; [done|]. edestruct Ht; eauto.
Qed.

Lemma known_adopt s next tm todo n' w :
  known_inv s → commit s = Some (CAdopt next (tm :: todo)) → adopt_one next tm (net s) = Some (n', w) →
  fresh_conns n' →
  known_inv (with_commit (Some (match w with
    | None => CAdopt next todo
    | Some (pool, m) => CPush next pool m todo
    end)) (with_net n' s)).
Proof.
  intros Hk Hc Ha Hf. destruct tm as [old m].
  assert (is_Some (conns (net s) !! connection m)) as Hm by (apply (kn_taken _ Hk old); rewrite Hc; by left).
  assert (∀ pid m', (pid, m') ∈ todo → (pid, m') ∈ commit_taken (commit s)) as Hin by (rewrite Hc; by right).
  unfold adopt_one in Ha. destruct (tunnel_index_for_client_identity _ _) as [k|].
  - destruct (tunnel_pools (net s) !! k) as [pool|].
    + destruct (heap (net s) !! pool) as [p|] eqn:Ep; simplify_eq/=. apply (known_frame s); simpl; auto; try done.
      * intros pid m' Hm'. left. by eapply member_of_shrink; [exact Ep| |exact Hm'].
      * intros pid m' [[= -> ->]|Hm']%elem_of_cons; auto.
    + destruct (drop_connection _ _) as [policy|]; simplify_eq/=. apply (known_frame s); simpl; auto; try done.
  - simplify_eq. apply (known_frame s); simpl; auto; try done.
Qed.

Lemma known_commit_step s s' : known_inv s → layout_inv s → commit_step s = Next s' → known_inv s'.
Proof.
  intros Hk Hlay H. destruct (exec_conns s CommitStep s' (kn_fresh _ Hk) H) as [Hle Hf]. unfold commit_step in H.
  destruct (commit s) as [[prev next [|pool todo]|prev next [|pool todo] taken|next [|tm todo]|next pool m todo|next]|]
    eqn:Ec; try done.
  - injection H as <-. apply (known_frame s); auto. by intros pid m ?%elem_of_nil.
  - exec_cases H. apply (known_frame s); auto. by intros pid m ?%elem_of_nil.
  - exec_cases H. apply (known_frame s); auto; [|rewrite Ec; auto]. simpl. intros pid m (p & Hp & Hin).
    match goal with Hr : rebuild _ _ _ _ = _ |- _ =>
      apply (proj2 (rebuild_lookup _ _ _ _ _ _ _ pid p Hr (li_fresh _ Hlay))) in Hp as [Hp| ->] end.
    + left. by exists p.
    + by apply elem_of_nil in Hin.
  - destruct (heap (net s) !! pool) as [p|] eqn:Ep; [|done]. injection H as <-. apply (known_frame s); auto; simpl.
    + intros pid m Hin. left. eapply member_of_shrink; [done| |done]. by intros m' ?%elem_of_nil.
    + intros pid m [Hin|Hin]%elem_of_app; [left; by rewrite Ec|right].
      apply list_elem_of_fmap in Hin as (m0 & [= -> ->] & Hin). apply (kn_members _ Hk pool). by exists p.
  - injection H as <-. apply (known_frame s); auto. by intros pid m ?%elem_of_nil.
  - destruct (adopt_one next tm (net s)) as [[n' w]|] eqn:Ea; [|done]. injection H as <-. by eapply known_adopt.
  - destruct (heap (net s) !! pool) as [p|] eqn:Ep; [|done]. injection H as <-. apply (known_frame s); auto; simpl.
    + intros pid m' [[-> Hin]|[_ Hin]]%member_of_insert; [|by left].
      apply elem_of_app in Hin as [Hin|Hin%list_elem_of_singleton]; [left; by exists p|right].
      subst. apply (kn_taken _ Hk pool). rewrite Ec. by left.
    + intros pid m' Hin. left. rewrite Ec. by right.
  - injection H as <-. apply (known_frame s); auto. by intros pid m ?%elem_of_nil.
Qed.

Lemma known_exec s a s' : known_inv s → layout_inv s → exec s a = Next s' → known_inv s'.
Proof.
  intros Hk Hlay H. destruct (exec_conns s a s' (kn_fresh _ Hk) H) as [Hle Hf]. destruct a; simpl in H;
    try (unfold begin_route, route_lookup, route_abandon, place_visitor, finish_visitor, set_accepts, conn_close,
           stop_accepting, seal, close_all, close_pool in H;
         exec_cases H; simplify_eq/=; by (eapply known_frame; eauto)).
  - unfold route_select in H. exec_cases H; (apply (known_frame s); auto); simpl; intros pid m Hin; left;
      (eapply member_of_shrink; [done| |done]); intros m';
      match goal with Hs : select_connection ?a ?b ?p = _ |- _ =>
        destruct (select_connection_members a b p) as [Hm _]; by rewrite Hs in Hm; simpl in Hm; rewrite Hm end.
  - unfold connect in H. injection H as <-. apply (known_frame s); auto; simpl. intros pid c i Hin. left.
    destruct (accepting s); [|done]. by apply elem_of_app in Hin as [Hin|Hin%list_elem_of_singleton].
  - unfold register_lookup in H. exec_cases H; (apply (known_frame s); auto); simpl; intros pid c' i' Hin.
    + apply elem_of_insert_at in Hin as [Heq|Hin]; [right; simplify_eq; by eexists | by left].
    + left. by eapply elem_of_delete_at.
  - unfold register_finish in H. exec_cases H; (apply (known_frame s); auto); simpl;
      try (intros pid c' i' Hin; left; by eapply elem_of_delete_at).
    match goal with Ht : try_register _ _ _ _ _ = Ok _ |- _ => apply try_register_Ok in Ht as (_ & -> & -> & _) end.
    intros pid m' [[-> Hin]|[_ Hin]]%member_of_insert; [|by left].
    apply elem_of_app in Hin as [Hin|Hin%list_elem_of_singleton]; [left; by eexists|right].
    subst. eapply (kn_registrations _ Hk). by eapply list_elem_of_lookup_2.
  - unfold watcher_fires in H. exec_cases H. apply (known_frame s); auto; simpl. intros pid m Hin. left.
    eapply member_of_shrink; [done| |done]. simpl. intros m' Hm'. apply list_elem_of_In, List.filter_In in Hm'.
    apply list_elem_of_In, Hm'.
  - unfold detached_released in H. exec_cases H. apply (known_frame s); auto.
  - unfold begin_replace in H. exec_cases H; try done; apply (known_frame s); auto; by intros pid m ?%elem_of_nil.
  - by eapply known_commit_step.
  - unfold drop_commit in H. exec_cases H; apply (known_frame s); auto; by intros pid m' ?%elem_of_nil.
Qed.

(** ** Preservation *)

(** Actions that keep the members, the table and the replacement. *)
Lemma align_frame s s' :
  align_inv s → conns_le (conns (net s)) (conns (net s')) →
  (∀ pid m, member_of (heap (net s')) pid m → member_of (heap (net s)) pid m) →
  (∀ pid c i, RegPool pid c i ∈ registrations (net s') → RegPool pid c i ∈ registrations (net s)) →
  (∀ c i, (c, i) ∈ detached (net s') → (c, i) ∈ detached (net s)) →
  tunnel_pools (net s') = tunnel_pools (net s) → snapshot s' = snapshot s → commit s' = commit s →
  interruptions s' = interruptions s → align_inv s'.
Proof.
  intros [] Hle Hm Hr Hd Ht Hs Hk Hi.
  assert (∀ c, signalled (conns (net s)) c → signalled (conns (net s')) c) as HC
    by (intros c; by apply conns_le_signalled).
  split; unfold table_snapshot, pools_locked, aligned, dispatched in *; rewrite ?Hk, ?Hs, ?Ht, ?Hi in *; try done.
  - intros pid c i Hin. by apply (al_registrations0 pid c), Hr.
  - intros pid m Hin. destruct (al_members0 pid m (Hm _ _ Hin)) as (? & ? & ?). split_and!; auto.
  - destruct (commit s) as [[prev next todo|prev next todo taken|next todo|next pool m todo|next]|]; try done.
    + intros Hdis pid m Hin Hu. destruct (al_commit0 Hdis pid m (Hm _ _ Hin) Hu); auto.
    + intros pid m Hin. destruct (al_commit0 pid m (Hm _ _ Hin)). auto.
  - eauto.
  - eauto.
Qed.

Lemma align_register s i pool c identity p policy p' m :
  align_inv s → registrations (net s) !! i = Some (RegPool pool c identity) →
  heap (net s) !! pool = Some p →
  try_register (admission (net s)) p c identity (next_counter (net s)) = Ok (policy, p', m) →
  align_inv (with_net (mkNet (<[pool := p']> (heap (net s))) (next_pool (net s)) (tunnel_pools (net s))
    (conns (net s)) (next_conn (net s)) (counters (net s)) (S (next_counter (net s)))
    (watchers (net s) ++ [(pool, member_id m, c)]) (detached (net s))
    (delete i (registrations (net s))) policy) s).
Proof.
  intros [] Hi Hp Ht. apply try_register_Ok in Ht as (_ & -> & -> & _).
  destruct (al_registrations0 pool c identity) as (Hlock & Hpid & Htr & Hhome); [by eapply list_elem_of_lookup_2|].
  assert (table_snapshot s = snapshot s ∧ match commit s with
    | Some (CReset _) | None => True | _ => False end) as [Hts Hcom].
  { unfold pools_locked, table_snapshot in *. by destruct (commit s) as [[| | | |]|]. }
  split; unfold table_snapshot, pools_locked, aligned, dispatched in *; simpl in *; try done.
  - intros pid c' i' Hin. apply elem_of_delete_at in Hin. eauto.
  - intros pid m' Hin. apply member_of_insert in Hin as [[-> Hin]|[_ Hin]]; [|by apply al_members0].
    apply elem_of_app in Hin as [Hin|Hin%list_elem_of_singleton]; [apply al_members0; by exists p|].
    subst m'. unfold untrusted. simpl. rewrite Hts. split_and!; [done..|]. intros _ Hu. by destruct Hu.
  - by destruct (commit s) as [[| | | |]|].
Qed.

Lemma removed_untrusted prev next i :
  i ∈ trusted_client_identities prev → i ∉ trusted_client_identities next →
  i ∈ removed_identities prev next.
Proof. unfold removed_identities. set_solver. Qed.

Lemma home_trusted snap table i pid : wf_snapshot snap → home snap table i pid → i ∈ trusted_client_identities snap.
Proof. intros Hwf (k & _ & Hk). apply (wf_trusted _ Hwf). eauto. Qed.

Lemma forallb_no_reg_pool rs pid c i :
  forallb (λ r, negb (is_reg_pool r)) rs = true → RegPool pid c i ∈ rs → False.
Proof. intros H Hin. rewrite forallb_forall in H. apply list_elem_of_In, H in Hin. done. Qed.

Lemma align_begin_replace s h ts s' :
  align_inv s → begin_replace h ts s = Next s' →
  forallb (λ r, negb (is_reg_pool r)) (registrations (net s)) = true → align_inv s'.
Proof.
  intros Hal H Hq. unfold begin_replace in H. destruct (commit s) eqn:Ec; [done|].
  destruct (prepare_managed_replacement (snapshot s) h ts) as [next|] eqn:E; injection H as <-; [|done].
  destruct Hal. unfold table_snapshot, aligned, dispatched in *. rewrite Ec in *. split; simpl; try done.
  - intros pid c i Hin. by destruct (forallb_no_reg_pool _ _ _ _ Hq Hin).
  - intros Hdis pid m Hin Hu. destruct (al_members0 _ _ Hin) as (Hpid & _ & Hsig).
    destruct (decide (client_identity m ∈ trusted_client_identities (snapshot s))) as [Htr|Htr]; [left|right; by apply Hsig].
    rewrite bool_decide_false; [done|]. intros Hempty.
    apply (not_elem_of_empty (C := gset bytes) (client_identity m)). rewrite <- Hempty. by apply removed_untrusted.
  - by intros _ pid m ?%elem_of_nil.
Qed.

(** The closing pass signals the removed identities of one more pool. *)
Lemma align_close_pool s prev next pool todo p :
  known_inv s → align_inv s → commit s = Some (CClose prev next (pool :: todo)) →
  heap (net s) !! pool = Some p →
  align_inv (with_commit (Some (CClose prev next todo))
    (with_net (set_conns (foldr (close_conn "authorization revoked") (conns (net s))
       (connections_of_identities (removed_identities prev next) p)) (net s)) s)).
Proof.
  intros Hk Hal Hc Hp. set (cs := foldr _ _ _).
  assert (align_inv (with_net (set_conns cs (net s)) s)) as H1.
  { apply (align_frame s); try done. apply conns_le_closes. }
  pose proof (al_commit _ Hal) as Hold. pose proof (al_members _ Hal) as Hmem.
  unfold table_snapshot in Hmem. rewrite Hc in Hold, Hmem.
  unfold aligned, dispatched in Hold, Hmem.
  destruct H1. unfold table_snapshot, pools_locked, aligned, dispatched in *. simpl in *. rewrite Hc in *.
  split; simpl; try done. intros Hdis pid m Hin Hu. destruct (Hold Hdis pid m Hin Hu) as [Hpid|Hsig].
  - apply elem_of_cons in Hpid as [->|Hpid]; [right|by left]. destruct (Hmem _ _ Hin) as (_ & _ & Hsig). pose proof (kn_members _ Hk _ _ Hin) as Hsome.
    destruct (decide (client_identity m ∈ trusted_client_identities prev)) as [Htr|Htr];
      [|eapply conns_le_signalled; [apply conns_le_closes | by apply Hsig]].
    destruct Hin as (q & Hq & Hin). rewrite Hp in Hq. injection Hq as <-.
    apply closes_signalled; [|done]. unfold connections_of_identities. apply list_elem_of_fmap.
    exists m. split; [done|]. apply list_elem_of_In, List.filter_In. split; [by apply list_elem_of_In|].
    apply bool_decide_eq_true. by apply removed_untrusted.
  - right. eapply conns_le_signalled; [apply conns_le_closes | done].
Qed.

Lemma align_take_pool s prev next pool todo taken p :
  auth_inv s → align_inv s → commit s = Some (CTake prev next (pool :: todo) taken) →
  heap (net s) !! pool = Some p →
  align_inv (with_commit (Some (CTake prev next todo (taken ++ (pair pool <$> (take_members p).2))))
    (with_net (set_heap (<[pool := (take_members p).1]> (heap (net s))) (net s)) s)).
Proof.
  intros Hau Hal Hc Hp. pose proof (ai_commit _ Hau _ Hc) as Hnext. simpl in Hnext. subst next.
  pose proof (al_commit _ Hal) as Hold. rewrite Hc in Hold.
  assert (∀ pid m, member_of (<[pool := (take_members p).1]> (heap (net s))) pid m →
    pid ≠ pool ∧ member_of (heap (net s)) pid m) as Hshrink.
  { intros pid m Hin. apply member_of_insert in Hin as [[-> Hin]|Hin]; [by apply elem_of_nil in Hin | done]. }
  unfold dispatched in Hold.
  destruct Hal. unfold table_snapshot, pools_locked, aligned, dispatched in *. rewrite Hc in *. split; simpl in *; try done.
  - intros pid m Hin. apply Hshrink in Hin as [_ Hin]. auto.
  - intros pid m Hin. apply Hshrink in Hin as [Hne Hin]. destruct (Hold _ _ Hin) as [Hpid Hsig].
    split; [|done]. by apply elem_of_cons in Hpid as [?|?].
  - intros Hdis pid m Hin. apply elem_of_app in Hin as [Hin|Hin]; [by eapply al_taken0|].
    apply list_elem_of_fmap in Hin as (m' & [= -> ->] & Hin). apply (Hold pool); [by exists p | done].
Qed.

(** After the last pool was taken no pool has a member. *)
Lemma align_rebuild s prev next taken prev_ids next_ids ps h np :
  auth_inv s → layout_inv s → align_inv s → commit s = Some (CTake prev next [] taken) →
  continuity prev = Managed prev_ids → continuity next = Managed next_ids →
  rebuild (pools_by_id prev_ids (tunnel_pools (net s))) next_ids (heap (net s)) (next_pool (net s)) =
    (ps, h, np) →
  align_inv (with_commit (Some (CAdopt next taken)) (with_net (set_layout h np ps (net s)) s)).
Proof.
  intros Hau Hlay Hal Hc Hprev Hnx Hr. pose proof (ai_commit _ Hau _ Hc) as Hnext. simpl in Hnext. subst next.
  assert (∀ pid m, ¬ member_of h pid m) as Hempty.
  { intros pid m (p & Hp & Hin).
    assert (m ∈ members p → ∃ x, x ∈ collect client_identity h) as Hx.
    { intros _. exists (client_identity m). unfold collect. apply list_elem_of_bind.
      exists (pid, p). split; [by apply list_elem_of_fmap_2|]. by apply elem_of_map_to_list. }
    destruct (Hx Hin) as [x Hperm].
    rewrite (rebuild_collect _ _ _ _ _ _ _ _ Hr) in Hperm by apply Hlay.
    apply list_elem_of_bind in Hperm as ([pid' p'] & Hx' & Hp'). apply elem_of_map_to_list in Hp'.
    apply list_elem_of_fmap in Hx' as (m' & _ & Hm'). pose proof (al_commit _ Hal) as Hold.
    rewrite Hc in Hold. destruct (Hold pid' m') as [Hnil _]; [by exists p' | by apply elem_of_nil in Hnil]. }
  destruct Hal. unfold table_snapshot, pools_locked, dispatched in *. rewrite Hc in *. split; simpl in *; try done.
  - intros pid c i Hin. by destruct (al_registrations0 _ _ _ Hin) as (? & _).
  - intros pid m Hin. by destruct (Hempty pid m).
Qed.

Lemma align_adopt s next tm todo n' w :
  auth_inv s → layout_inv s → align_inv s → commit s = Some (CAdopt next (tm :: todo)) →
  adopt_one next tm (net s) = Some (n', w) →
  align_inv (with_commit (Some (match w with
    | None => CAdopt next todo
    | Some (pool, m) => CPush next pool m todo
    end)) (with_net n' s)).
Proof.
  intros Hau Hlay Hal Hc Ha. pose proof (ai_commit _ Hau _ Hc) as Hnext. simpl in Hnext. subst next.
  assert (align_inv (with_commit (Some (CAdopt (snapshot s) todo)) s)) as Hal1.
  { destruct Hal. unfold table_snapshot, pools_locked, aligned, dispatched in *. rewrite Hc in *. split; simpl in *; try done.
    intros Hdis pid m Hin. eapply al_taken0; [done|]. by right. }
  destruct tm as [old m].
  assert (dispatched s → untrusted (snapshot s) m → signalled (conns (net s)) (connection m)) as Hsig.
  { intros Hdis. apply (al_taken _ Hal Hdis old). rewrite Hc. by left. }
  unfold adopt_one in Ha. destruct (tunnel_index_for_client_identity _ _) as [k|] eqn:Ek.
  - destruct (tunnel_pools (net s) !! k) as [pool|] eqn:Epool.
    + destruct (heap (net s) !! pool) as [p|] eqn:Ep; simplify_eq/=.
      assert (∀ pid m', member_of (<[pool := (adopt_begin p m).1]> (heap (net s))) pid m' →
        member_of (heap (net s)) pid m') as Hsame by by eapply member_of_shrink.
      destruct Hal1. unfold dispatched in *. split; simpl in *; try done; eauto; [by exists k|].
      intros Hdis pid m' [[= -> ->]|Hin]%elem_of_cons; [|by eapply al_taken0]. by apply Hsig.
    + destruct (drop_connection _ _) as [policy|]; simplify_eq/=. by destruct Hal1; split.
  - simplify_eq. destruct Hal1. unfold dispatched in *. split; simpl in *; try done. intros Hdis c i Hin.
    apply elem_of_app in Hin as [Hin|Hin%list_elem_of_singleton]; [eauto|]. simplify_eq. apply Hsig; [done|].
    unfold untrusted. rewrite (wf_trusted _ (li_wf _ Hlay)), Ek. by intros [? ?].
Qed.

(** The waiting member enters the pool of its Tunnel. *)
Lemma align_push s next pool m todo p :
  auth_inv s → layout_inv s → align_inv s → commit s = Some (CPush next pool m todo) → heap (net s) !! pool = Some p →
  align_inv (with_commit (Some (CAdopt next todo))
    (with_net (set_heap (<[pool := adopt_push p m]> (heap (net s))) (net s)) s)).
Proof.
  intros Hau Hlay Hal Hc Hp. pose proof (ai_commit _ Hau _ Hc) as Hnext. simpl in Hnext. subst next.
  destruct Hal. unfold table_snapshot, pools_locked, aligned, dispatched in *. rewrite Hc in *.
  split; simpl in *; try done.
  - intros pid m' Hin. apply member_of_insert in Hin as [[-> Hin]|[_ Hin]]; [|by apply al_members0].
    apply elem_of_app in Hin as [Hin|Hin%list_elem_of_singleton]; [apply al_members0; by exists p|].
    subst m'. split_and!; [|done|].
    + destruct al_commit0 as (k & Hk & _). by eapply list_elem_of_lookup_2.
    + intros _ []. by eapply home_trusted; [apply Hlay|].
  - intros Hdis pid m' Hin. eapply al_taken0; [done|]. by right.
Qed.

(** Where a replacement may be dropped, what it leaves in the pools has been told to close
    or is trusted; only one that still closes connections leaves more. *)
Lemma align_drop_commit s s' :
  auth_inv s → align_inv s → drop_commit s = Next s' → align_inv s'.
Proof.
  intros Hau Hal H. unfold drop_commit in H.
  destruct (commit s) as [[prev next [|pool todo]|prev next [|pool todo] taken|next [|tm todo]|next pool m todo|next]|]
    eqn:Ec; try done; exec_cases H; pose proof (ai_commit _ Hau _ Ec) as Hnext; simpl in Hnext; subst next;
    destruct Hal; unfold table_snapshot, pools_locked, aligned, dispatched in *; rewrite Ec in *;
    rewrite ?orb_true_r, ?orb_false_r in *;
    (split; unfold aligned, dispatched; simpl in *; rewrite ?orb_true_r, ?orb_false_r; try done;
     try (intros pid c i Hin; by destruct (al_registrations0 _ _ _ Hin) as (? & _));
     try (by intros _ pid m' ?%elem_of_nil)); intros pid m' Hin;
    destruct (al_members0 _ _ Hin) as (? & Hhome & Hsig); split_and!; try done.
  intros Hdis Hu. by apply (al_commit0 pid).
Qed.

Lemma align_commit_step s s' :
  known_inv s → auth_inv s → layout_inv s → align_inv s → commit_step s = Next s' → align_inv s'.
Proof.
  intros Hkn Hau Hlay Hal H. unfold commit_step in H.
  destruct (commit s) as [[prev next [|pool todo]|prev next [|pool todo] taken|next [|tm todo]|next pool m todo|next]|]
    eqn:Ec; try done.
  - injection H as <-. pose proof (al_commit _ Hal) as Hold. unfold dispatched in Hold. destruct Hal.
    unfold table_snapshot, pools_locked, aligned, dispatched in *. rewrite Ec in *. split; simpl in *; try done.
    + intros pid m Hin. split.
      * by destruct (al_members0 _ _ Hin) as (? & _).
      * intros Hdis Hu. by destruct (Hold Hdis _ _ Hin Hu) as [?%elem_of_nil|].
  - destruct (heap (net s) !! pool) as [p|] eqn:Ep; [|done]. injection H as <-. by apply (align_close_pool s prev next pool).
  - destruct (continuity prev) eqn:Hp; try done. destruct (continuity next) eqn:Hn; try done.
    destruct (rebuild _ _ _ _) as [[ps h] np] eqn:Hr. injection H as <-. by eapply align_rebuild.
  - destruct (heap (net s) !! pool) as [p|] eqn:Ep; [|done]. injection H as <-. by apply (align_take_pool s prev next pool).
  - injection H as <-. destruct Hal. unfold table_snapshot, pools_locked, aligned, dispatched in *. rewrite Ec in *.
    split; simpl in *; try done. intros pid c i Hin. by destruct (al_registrations0 _ _ _ Hin) as (? & _).
  - destruct (adopt_one next tm (net s)) as [[n' w]|] eqn:Ea; [|done]. injection H as <-. by eapply align_adopt.
  - destruct (heap (net s) !! pool) as [p|] eqn:Ep; [|done]. injection H as <-. by eapply align_push.
  - injection H as <-. destruct Hal. unfold table_snapshot, pools_locked, aligned, dispatched in *. rewrite Ec in *.
    split; simpl in *; try done.
    + intros pid c i Hin. destruct (al_registrations0 _ _ _ Hin) as (? & ? & ? & ?). split_and!; auto.
    + intros pid m Hin. destruct (al_members0 _ _ Hin) as (? & ? & ?). split_and!; auto.
Qed.

Lemma align_quiet s s' :
  known_inv s → auth_inv s → layout_inv s → align_inv s → quiet_step s s' → align_inv s'.
Proof.
  intros Hkn Hau Hlay Hal (a & H & Hq).
  destruct (exec_conns s a s' (kn_fresh _ Hkn) H) as [Hle _]. destruct a; simpl in H;
    try (unfold begin_route, route_lookup, route_abandon, place_visitor, finish_visitor, set_accepts, conn_close,
           stop_accepting, seal, close_all, close_pool in H;
         exec_cases H; simplify_eq/=; by (eapply align_frame; eauto)).
  - unfold route_select in H. exec_cases H; (apply (align_frame s); try done); simpl;
      (eapply member_of_shrink; [done|]); intros m;
      match goal with Hs : select_connection ?a ?b ?p = _ |- _ =>
        destruct (select_connection_members a b p) as [Hm _]; by rewrite Hs in Hm; simpl in Hm; rewrite Hm end.
  - unfold connect in H. injection H as <-. apply (align_frame s); try done; simpl.
    intros pid c i Hin. destruct (accepting s); [|done].
    by apply elem_of_app in Hin as [Hin|Hin%list_elem_of_singleton].
  - unfold register_lookup in H. exec_cases H.
    + destruct Hal. split; try done. simpl. intros pid c' i' Hin. apply elem_of_insert_at in Hin as [Heq|Hin].
      * simplify_eq. match goal with Hb : _ ≫= _ = Some _ |- _ => apply bind_Some in Hb as (k & Hk1 & Hk2) end.
        split_and!; [done|by eapply list_elem_of_lookup_2| |by exists k].
        apply (wf_trusted _ (li_wf _ Hlay)). eauto.
      * by eapply al_registrations0.
    + apply (align_frame s); try done. intros *. apply elem_of_delete_at.
  - unfold register_finish in H. exec_cases H; [by eapply align_register|].
    apply (align_frame s); try done. intros *. apply elem_of_delete_at.
  - unfold watcher_fires in H. exec_cases H. apply (align_frame s); try done.
    simpl. eapply member_of_shrink; [done|]. simpl. intros m Hin. apply list_elem_of_In, List.filter_In in Hin.
    apply list_elem_of_In, Hin.
  - unfold detached_released in H. exec_cases H. apply (align_frame s); try done. intros *. apply elem_of_delete_at.
  - by eapply align_begin_replace.
  - by eapply align_commit_step.
  - by eapply align_drop_commit.
Qed.

Lemma align_new snap policy gate : align_inv (registry_new snap policy gate).
Proof.
  split; simpl; try done.
  - by intros pid c i ?%elem_of_nil.
  - intros pid m (p & Hp & Hin). simpl in Hp. rewrite heap_new_lookup in Hp. case_decide; simplify_eq/=.
    by apply elem_of_nil in Hin.
  - by intros _ pid m ?%elem_of_nil.
  - by intros _ c i ?%elem_of_nil.
Qed.

Lemma known_new snap policy gate : known_inv (registry_new snap policy gate).
Proof.
  split; simpl; try done.
  - intros c. simpl. rewrite lookup_empty. by intros [? ?].
  - by intros pid c i ?%elem_of_nil.
  - intros pid m (p & Hp & Hin). simpl in Hp. rewrite heap_new_lookup in Hp. case_decide; simplify_eq/=.
    by apply elem_of_nil in Hin.
  - by intros pid m ?%elem_of_nil.
Qed.

Lemma known_reachable ls s : limits_ok ls → reachable ls s → registry_inv ls s ∧ known_inv s.
Proof.
  intros Hls (snap & gate & Hs & Hr).
  assert (registry_inv ls (registry_new snap (policy_new ls) gate) ∧
    known_inv (registry_new snap (policy_new ls) gate)) as H0
    by (split; [by apply registry_new_inv | apply known_new]).
  induction Hr as [|x y z [a Ha] _ IH]; [done|]. apply IH. destruct H0 as [Hinv Hk].
  split; [by eapply registry_inv_exec | by eapply known_exec; [|apply Hinv|]].
Qed.

Lemma quiet_reachable_inv ls s : limits_ok ls → quiet_reachable ls s → registry_inv ls s ∧ align_inv s.
Proof.
  intros Hls (snap & gate & Hs & Hr).
  assert (registry_inv ls (registry_new snap (policy_new ls) gate) ∧
    known_inv (registry_new snap (policy_new ls) gate) ∧
    align_inv (registry_new snap (policy_new ls) gate)) as H0
    by (split; [by apply registry_new_inv | split; [apply known_new | apply align_new]]).
  induction Hr as [|x y z Hstep _ IH]; [naive_solver|]. apply IH. destruct H0 as (Hinv & Hk & Hal).
  destruct Hstep as (a & Ha & Hq). split_and!; [by eapply registry_inv_exec | by eapply known_exec; [|apply Hinv|]|].
  eapply align_quiet; [done|apply Hinv..|done|by exists a].
Qed.

(** ** Close watchers *)

(** A pool's member IDs are distinct and below the next one, and each member has a
    watcher on its own connection, unless that watcher ran while the member waited to
    enter the pool, when the connection had closed already. *)
Record pool_watched (ws : list (nat * Z * nat)) (closed : nat → bool) (pid : nat) (p : ActiveClientPool) :
    Prop := {
  pw_nodup : NoDup (member_id <$> members p);
  pw_bound : ∀ m, m ∈ members p → (member_id m < next_member_id p)%Z;
  pw_watched : ∀ m, m ∈ members p → (pid, member_id m, connection m) ∈ ws ∨ closed (connection m) = true
}.

(** The ID was handed out by the pool. *)
Definition issued (h : gmap nat ActiveClientPool) (pid : nat) (id : Z) : Prop :=
  ∃ p, h !! pid = Some p ∧ (id < next_member_id p)%Z.

(** Where a taken member comes from. *)
Definition origin (tm : nat * PoolMember) : nat * Z := (tm.1, member_id tm.2).

Record watch_inv (s : State) : Prop := {
  wi_pools : ∀ pid p, heap (net s) !! pid = Some p →
    pool_watched (watchers (net s)) (is_closed (net s)) pid p;
  wi_issued : ∀ pid id c, (pid, id, c) ∈ watchers (net s) → issued (heap (net s)) pid id;
  wi_nodup : NoDup (watchers (net s)).*1;
  wi_taken : ∀ pid m, (pid, m) ∈ commit_taken (commit s) →
    issued (heap (net s)) pid (member_id m) ∧
    ∀ m', member_of (heap (net s)) pid m' → member_id m' ≠ member_id m;
  wi_distinct : NoDup (origin <$> commit_taken (commit s));
  wi_push : ∀ next pid m todo, commit s = Some (CPush next pid m todo) →
    (pid, member_id m, connection m) ∈ watchers (net s) ∨ is_closed (net s) (connection m) = true
}.

Lemma watch_frame s s' :
  watch_inv s → heap (net s') = heap (net s) → watchers (net s') = watchers (net s) →
  conns_le (conns (net s)) (conns (net s')) →
  commit_taken (commit s') `suffix_of` commit_taken (commit s) →
  (∀ next pid m todo, commit s' = Some (CPush next pid m todo) → commit s = commit s') → watch_inv s'.
Proof.
  intros [] Hh Hw Hg [l Hl] Hp. rewrite Hl in *.
  assert (∀ c, is_closed (net s) c = true → is_closed (net s') c = true) as Hcl
    by (intros c; by apply conns_le_closed).
  split; rewrite ?Hh, ?Hw; auto.
  - intros pid p Hin. destruct (wi_pools0 pid p Hin). split; [done..|]. intros m Hm.
    destruct (pw_watched0 m Hm); auto.
  - intros pid m Hin. apply wi_taken0, elem_of_app. by right.
  - rewrite fmap_app in wi_distinct0. by apply NoDup_app in wi_distinct0 as (_ & _ & ?).
  - intros next pid m todo He. destruct (wi_push0 next pid m todo); [by rewrite (Hp _ _ _ _ He)|auto..].
Qed.

Lemma issued_insert h pool p p' pid id :
  h !! pool = Some p → (next_member_id p ≤ next_member_id p')%Z →
  issued h pid id → issued (<[pool := p']> h) pid id.
Proof.
  intros Hp Hle (q & Hq & Hlt). destruct (decide (pool = pid)) as [->|Hne].
  - exists p'. rewrite lookup_insert_eq. split; [done|]. simplify_eq. lia.
  - exists q. by rewrite lookup_insert_ne.
Qed.

(** A pool is replaced by one with a subset of its members. *)
Lemma watch_shrink s pool p p' ws :
  watch_inv s → heap (net s) !! pool = Some p → (next_member_id p ≤ next_member_id p')%Z →
  NoDup (member_id <$> members p') → (∀ m, m ∈ members p' → m ∈ members p) →
  NoDup ws.*1 →
  (∀ pid id c, (pid, id, c) ∈ ws → issued (<[pool := p']> (heap (net s))) pid id) →
  (∀ pid m, member_of (<[pool := p']> (heap (net s))) pid m →
     (pid, member_id m, connection m) ∈ ws ∨ is_closed (net s) (connection m) = true) →
  (∀ next pid m todo, commit s = Some (CPush next pid m todo) →
     (pid, member_id m, connection m) ∈ ws ∨ is_closed (net s) (connection m) = true) →
  watch_inv (with_net (set_watchers ws (set_heap (<[pool := p']> (heap (net s))) (net s))) s).
Proof.
  intros [] Hp Hn Hnd Hsub Hws Hwiss Hcov Hpush. split; simpl; try done.
  - intros pid q Hq. split.
    + destruct (decide (pool = pid)) as [->|Hne]; [rewrite lookup_insert_eq in Hq; by simplify_eq|].
      rewrite lookup_insert_ne in Hq by done. by apply (wi_pools0 pid).
    + intros m Hm. destruct (decide (pool = pid)) as [->|Hne].
      * rewrite lookup_insert_eq in Hq. simplify_eq. apply Hsub, (pw_bound _ _ _ _ (wi_pools0 _ _ Hp)) in Hm. lia.
      * rewrite lookup_insert_ne in Hq by done. by apply (wi_pools0 pid).
    + intros m Hm. apply Hcov. by exists q.
  - intros pid m Hin. destruct (wi_taken0 pid m Hin) as [Hi Hne]. split.
    + by eapply issued_insert.
    + intros m' Hm'. apply Hne. by eapply member_of_shrink.
Qed.

(** A pool gains a member with an ID it handed out and that has a watcher. *)
Lemma watch_grow s pool p p' m ws :
  watch_inv s → heap (net s) !! pool = Some p → members p' = members p ++ [m] →
  (next_member_id p ≤ next_member_id p')%Z → (member_id m < next_member_id p')%Z →
  (∀ m', m' ∈ members p → member_id m' ≠ member_id m) →
  NoDup ws.*1 →
  (∀ pid id c, (pid, id, c) ∈ ws → issued (<[pool := p']> (heap (net s))) pid id) →
  (∀ w, w ∈ watchers (net s) → w ∈ ws) →
  ((pool, member_id m, connection m) ∈ ws ∨ is_closed (net s) (connection m) = true) →
  (∀ m', (pool, m') ∈ commit_taken (commit s) → member_id m' ≠ member_id m) →
  watch_inv (with_net (set_watchers ws (set_heap (<[pool := p']> (heap (net s))) (net s))) s).
Proof.
  intros [] Hp Hms Hle Hid Hne Hws Hwiss Hsub Hm Htk.
  split; simpl; try done.
  - intros pid q Hq. destruct (decide (pool = pid)) as [->|Hnp].
    + rewrite lookup_insert_eq in Hq. injection Hq as <-. destruct (wi_pools0 _ _ Hp). split; rewrite ?Hms.
      * rewrite fmap_app. apply NoDup_app. split_and!; [done| |apply NoDup_singleton].
        intros id Hin Hin'. apply list_elem_of_fmap in Hin as (m' & -> & Hin).
        apply list_elem_of_singleton in Hin'. by apply (Hne m').
      * intros m' [Hin|Hin%list_elem_of_singleton]%elem_of_app; [specialize (pw_bound0 _ Hin)|subst]; lia.
      * intros m' [Hin|Hin%list_elem_of_singleton]%elem_of_app; [|by subst].
        destruct (pw_watched0 _ Hin); auto.
    + rewrite lookup_insert_ne in Hq by done. destruct (wi_pools0 _ _ Hq). split; [done..|].
      intros m' Hin. destruct (pw_watched0 _ Hin); auto.
  - intros pid m' Hin. destruct (wi_taken0 _ _ Hin) as [Hi Hnt]. split; [by eapply issued_insert|].
    intros m2 Hm2. apply member_of_insert in Hm2 as [[-> Hm2]|[_ Hm2]]; [|auto]. rewrite Hms in Hm2.
    apply elem_of_app in Hm2 as [Hm2|Hm2%list_elem_of_singleton]; [apply Hnt; by exists p|].
    subst m2. intros Heq. by apply (Htk m').
  - intros next pid m' todo He. destruct (wi_push0 _ _ _ _ He); auto.
Qed.

Lemma covered s pid m : watch_inv s → member_of (heap (net s)) pid m →
  (pid, member_id m, connection m) ∈ watchers (net s) ∨ is_closed (net s) (connection m) = true.
Proof. intros [] (p & Hp & Hin). by apply (wi_pools0 pid p). Qed.

(** The same members with another round-robin offset or next ID. *)
Lemma watch_same_members s pool p p' :
  watch_inv s → heap (net s) !! pool = Some p →
  members p' = members p → (next_member_id p ≤ next_member_id p')%Z →
  watch_inv (with_net (set_heap (<[pool := p']> (heap (net s))) (net s)) s).
Proof.
  intros Hw Hp Hm Hn.
  assert (watch_inv (with_net (set_watchers (watchers (net s))
    (set_heap (<[pool := p']> (heap (net s))) (net s))) s)) as H1.
  { eapply watch_shrink; try done.
    - rewrite Hm. apply (wi_pools _ Hw pool p Hp).
    - intros m. by rewrite Hm.
    - apply Hw.
    - intros pid id c Hin. eapply issued_insert; [done..|]. by eapply wi_issued.
    - intros pid m Hin. apply covered; [done|]. eapply member_of_shrink; [done| |done]. intros m'. by rewrite Hm.
    - apply Hw. }
  by apply (watch_frame _ _ H1).
Qed.

Lemma retain_other_elem id p m : m ∈ members (retain_other id p) ↔ m ∈ members p ∧ member_id m ≠ id.
Proof.
  unfold retain_other. simpl. rewrite !list_elem_of_In, List.filter_In, negb_true_iff, Z.eqb_neq. done.
Qed.

Lemma NoDup_fmap_filter {A B} (f : A → B) (g : A → bool) (l : list A) :
  NoDup (f <$> l) → NoDup (f <$> List.filter g l).
Proof.
  induction l as [|x l IH]; simpl; [done|]. intros [Hx Hl]%NoDup_cons. destruct (g x); [|auto].
  rewrite fmap_cons. apply NoDup_cons. split; [|auto]. intros Hin. apply Hx.
  apply list_elem_of_fmap in Hin as (y & -> & Hy). apply list_elem_of_fmap. exists y. split; [done|].
  apply list_elem_of_In, List.filter_In in Hy as [Hy _]. by apply list_elem_of_In.
Qed.

Lemma elem_of_delete_other {A} (l : list A) i x y : l !! i = Some x → y ∈ l → y = x ∨ y ∈ delete i l.
Proof.
  intros Hi Hy. rewrite <- (take_drop_middle _ _ _ Hi) in Hy. rewrite delete_take_drop.
  apply elem_of_app in Hy as [Hy|[->|Hy]%elem_of_cons]; [right|by left|right]; apply elem_of_app; auto.
Qed.

(** The watcher that fires takes exactly its member along. *)
Lemma watch_fires s i pool id c p policy :
  watch_inv s → watchers (net s) !! i = Some (pool, id, c) → is_closed (net s) c = true → heap (net s) !! pool = Some p →
  watch_inv (with_net (set_admission policy (set_watchers (delete i (watchers (net s)))
    (set_heap (<[pool := retain_other id p]> (heap (net s))) (net s)))) s).
Proof.
  intros Hw Hi Hc Hp.
  assert ((watchers (net s)).*1 !! i = Some (pool, id)) as Hi1 by by rewrite list_lookup_fmap, Hi.
  destruct (NoDup_delete_at _ _ _ (wi_nodup _ Hw) Hi1) as [Hnd Hin].
  assert (∀ pid m, (pid, member_id m, connection m) ∈ watchers (net s) ∨ is_closed (net s) (connection m) = true →
    (pid, member_id m, connection m) ∈ delete i (watchers (net s)) ∨ is_closed (net s) (connection m) = true) as Hcov.
  { intros pid m [Hm|Hm]; [|by right].
    destruct (elem_of_delete_other _ _ _ _ Hi Hm) as [[= -> -> ->]|Hd]; [by right|by left]. }
  assert (watch_inv (with_net (set_watchers (delete i (watchers (net s)))
    (set_heap (<[pool := retain_other id p]> (heap (net s))) (net s))) s)) as H1.
  { eapply watch_shrink; try done.
    - apply NoDup_fmap_filter, (wi_pools _ Hw pool p Hp).
    - intros m Hm. by apply retain_other_elem in Hm as [? _].
    - by rewrite fmap_delete_at.
    - intros pid id' c' Hd. eapply issued_insert; [done..|]. by eapply (wi_issued _ Hw), elem_of_delete_at.
    - intros pid m Hm. apply Hcov, covered; [done|]. eapply member_of_shrink; [done| |done]. intros m' Hm'.
      by apply retain_other_elem in Hm' as [? _].
    - intros next pid m todo He. by eapply Hcov, (wi_push _ Hw). }
  by apply (watch_frame _ _ H1).
Qed.

Lemma watch_take s prev next pool todo taken p :
  watch_inv s → commit s = Some (CTake prev next (pool :: todo) taken) → heap (net s) !! pool = Some p →
  watch_inv (with_commit (Some (CTake prev next todo (taken ++ (pair pool <$> (take_members p).2))))
    (with_net (set_heap (<[pool := (take_members p).1]> (heap (net s))) (net s)) s)).
Proof.
  intros Hw Hc Hp.
  assert (watch_inv (with_net (set_watchers (watchers (net s))
    (set_heap (<[pool := (take_members p).1]> (heap (net s))) (net s))) s)) as [W1 W2 W3 W4 W5 W6].
  { eapply watch_shrink; try done; simpl.
    - constructor.
    - by intros m ?%elem_of_nil.
    - apply Hw.
    - intros pid id c Hin. eapply issued_insert; [done..|]. by eapply wi_issued.
    - intros pid m Hin. apply covered; [done|]. eapply member_of_shrink; [done| |done].
      by intros m' ?%elem_of_nil.
    - apply Hw. }
  split; simpl; try done.
  - intros pid m Hin. apply elem_of_app in Hin as [Hin|Hin].
    + apply W4. simpl. by rewrite Hc.
    + apply list_elem_of_fmap in Hin as (m0 & [= -> ->] & Hin). split.
      * eexists. rewrite lookup_insert_eq. split; [done|]. by apply (wi_pools _ Hw pool p Hp).
      * intros m' (q & Hq & Hm'). rewrite lookup_insert_eq in Hq. injection Hq as <-. by apply elem_of_nil in Hm'.
  - simpl in W5. rewrite Hc in W5. rewrite fmap_app. apply NoDup_app. split_and!; [done|..].
    + intros o Ho Hin. apply list_elem_of_fmap in Ho as ([pid m] & -> & Ho).
      apply list_elem_of_fmap in Hin as (tm & Htm & Hin). apply list_elem_of_fmap in Hin as (m0 & -> & Hin).
      injection Htm as -> Heq. destruct (wi_taken _ Hw pool m) as [_ Hne]; [by rewrite Hc|].
      apply (Hne m0); [by exists p | done].
    + rewrite <- list_fmap_compose. pose proof (pw_nodup _ _ _ _ (wi_pools _ Hw pool p Hp)) as Hnd.
      apply (NoDup_fmap_2 (pair pool)) in Hnd. by rewrite <- list_fmap_compose in Hnd.
Qed.

Lemma watch_rebuild s by_id ids ps h np prev next taken :
  watch_inv s → layout_inv s → commit s = Some (CTake prev next [] taken) →
  rebuild by_id ids (heap (net s)) (next_pool (net s)) = (ps, h, np) →
  watch_inv (with_commit (Some (CAdopt next taken)) (with_net (set_layout h np ps (net s)) s)).
Proof.
  intros [] Hlay Hc Hr. rewrite Hc in *. pose proof (li_fresh _ Hlay) as Hf.
  assert (∀ pid id, issued (heap (net s)) pid id → issued h pid id) as Hiss.
  { intros pid id (p & Hp & Hlt). exists p. split; [|done].
    by apply (proj1 (rebuild_lookup _ _ _ _ _ _ _ pid p Hr Hf)). }
  split; simpl; try done; eauto.
  - intros pid p Hp. apply (proj2 (rebuild_lookup _ _ _ _ _ _ _ pid p Hr Hf)) in Hp as [Hp| ->]; [by apply wi_pools0|].
    split; simpl; [constructor | by intros m ?%elem_of_nil..].
  - intros pid m Hin. destruct (wi_taken0 _ _ Hin) as [Hi Hne]. split; [auto|].
    intros m' (p & Hp & Hm'). apply (proj2 (rebuild_lookup _ _ _ _ _ _ _ pid p Hr Hf)) in Hp as [Hp| ->];
      [apply Hne; by exists p | by apply elem_of_nil in Hm'].
Qed.

(** The first half of an adoption: the pool hands out an ID, the watcher of the old
    place goes and the one of the new place starts. *)
Lemma watch_adopt s next tm todo n' w :
  watch_inv s → commit s = Some (CAdopt next (tm :: todo)) → adopt_one next tm (net s) = Some (n', w) →
  watch_inv (with_commit (Some (match w with
    | None => CAdopt next todo
    | Some (pool, m) => CPush next pool m todo
    end)) (with_net n' s)).
Proof.
  intros Hw Hc Ha. destruct tm as [old m].
  destruct (wi_taken _ Hw old m) as [_ Hne]; [rewrite Hc; by left|].
  assert (watch_inv (with_commit (Some (CAdopt next todo)) s)) as H1.
  { apply (watch_frame s); try done. rewrite Hc. by eexists [_]. }
  unfold adopt_one in Ha. destruct (tunnel_index_for_client_identity _ _) as [k|].
  2: { simplify_eq. by apply (watch_frame _ _ H1). }
  destruct (tunnel_pools (net s) !! k) as [pool|].
  2: { destruct (drop_connection _ _) as [policy|]; simplify_eq/=. by apply (watch_frame _ _ H1). }
  destruct (heap (net s) !! pool) as [p|] eqn:Ep; simplify_eq/=.
  set (h := <[pool := (adopt_begin p m).1]> (heap (net s))).
  set (kept := List.filter _ (watchers (net s))).
  assert (∀ w, w ∈ kept → w ∈ watchers (net s)) as Hkept.
  { intros w Hin. apply list_elem_of_In, List.filter_In in Hin as [Hin _]. by apply list_elem_of_In. }
  assert (∀ pid id, issued (heap (net s)) pid id → issued h pid id) as Hiss
    by (intros pid id; eapply issued_insert; [done | simpl; lia]).
  assert (∀ pid m', member_of h pid m' → member_of (heap (net s)) pid m') as Hsame by by eapply member_of_shrink.
  assert (issued h pool (next_member_id p)) as Hnew.
  { eexists. unfold h. rewrite lookup_insert_eq. split; [done|]. simpl. lia. }
  assert (∀ id, issued (heap (net s)) pool id → id ≠ next_member_id p) as Hfresh.
  { intros id (q & Hq & Hlt). simplify_eq. lia. }
  assert (watch_inv (with_net (set_watchers (kept ++ [(pool, next_member_id p, connection m)])
    (set_heap h (net s))) (with_commit (Some (CAdopt next todo)) s))) as [W1 W2 W3 W4 W5 W6].
  { eapply (watch_shrink _ pool p _ _ H1 Ep); try done; simpl.
    - lia.
    - apply (wi_pools _ Hw pool p Ep).
    - rewrite fmap_app. apply NoDup_app. split_and!; [apply NoDup_fmap_filter, Hw| |apply NoDup_singleton].
      intros [pid id] Hin Hin'. apply list_elem_of_singleton in Hin'. simplify_eq/=.
      apply list_elem_of_fmap in Hin as ([k' c] & Hk & Hin). simpl in Hk. subst k'.
      by apply Hkept, (wi_issued _ Hw), Hfresh in Hin.
    - intros pid id c [Hin|Hin%list_elem_of_singleton]%elem_of_app; [by eapply Hiss, (wi_issued _ Hw), Hkept|].
      by simplify_eq.
    - intros pid m' Hin%Hsame. destruct (covered s pid m' Hw Hin) as [Hcov|]; [left|by right].
      apply elem_of_app. left. apply list_elem_of_In, List.filter_In. split; [by apply list_elem_of_In|].
      apply negb_true_iff, bool_decide_eq_false. simpl. intros [= -> Heq]. by apply (Hne m' Hin). }
  split; simpl in *; try done.
  - intros pid m' [[= -> ->]|Hin]%elem_of_cons; [|by apply W4]. split; [done|]. simpl.
    intros m' (q & Hq & Hm'). unfold h in Hq. rewrite lookup_insert_eq in Hq. injection Hq as <-.
    apply (pw_bound _ _ _ _ (wi_pools _ Hw pool p Ep)) in Hm'. lia.
  - apply NoDup_cons. split; [|done]. intros Hin.
    apply list_elem_of_fmap in Hin as ([pid m'] & [= <- Heq] & Hin).
    destruct (wi_taken _ Hw pool m') as [Hi _]; [rewrite Hc; by right|]. by apply (Hfresh _ Hi).
  - intros ? ? ? ? [= _ <- <- _]. simpl. left. apply elem_of_app. right. by apply list_elem_of_singleton.
Qed.

Lemma watch_push s next pool m todo p :
  watch_inv s → commit s = Some (CPush next pool m todo) → heap (net s) !! pool = Some p →
  watch_inv (with_commit (Some (CAdopt next todo))
    (with_net (set_heap (<[pool := adopt_push p m]> (heap (net s))) (net s)) s)).
Proof.
  intros Hw Hc Hp. destruct (wi_taken _ Hw pool m) as [(q & Hq & Hlt) Hne]; [rewrite Hc; by left|].
  simplify_eq.
  assert (watch_inv (with_commit (Some (CAdopt next todo)) s)) as H1.
  { apply (watch_frame s); try done. rewrite Hc. by eexists [_]. }
  pose proof (watch_grow _ pool p (adopt_push p m) m (watchers (net s)) H1 Hp) as Hgrow.
  assert (watch_inv (with_net (set_watchers (watchers (net s))
    (set_heap (<[pool := adopt_push p m]> (heap (net s))) (net s))) (with_commit (Some (CAdopt next todo)) s))) as H2.
  { apply Hgrow; try done.
    - intros m' Hm'. apply Hne. by exists p.
    - apply Hw.
    - intros pid id c Hin. eapply issued_insert; [done|done|]. by eapply (wi_issued _ Hw).
    - by eapply (wi_push _ Hw).
    - intros m' Hin Heq. pose proof (wi_distinct _ Hw) as Hnd. rewrite Hc in Hnd. simpl in *.
      apply NoDup_cons in Hnd as [Hnd _]. apply Hnd. apply list_elem_of_fmap. exists (pool, m').
      unfold origin. simpl. by rewrite Heq. }
  by apply (watch_frame _ _ H2).
Qed.

Lemma watch_commit_step s s' :
  layout_inv s → watch_inv s → commit_step s = Next s' → watch_inv s'.
Proof.
  intros Hlay Hw H. unfold commit_step in H.
  destruct (commit s) as [[prev next [|pool todo]|prev next [|pool todo] taken|next [|tm todo]|next pool m todo|next]|]
    eqn:Ec; try done.
  - injection H as <-. apply (watch_frame s); try done. apply suffix_nil.
  - exec_cases H. apply (watch_frame s); try done; [apply conns_le_closes|apply suffix_nil].
  - exec_cases H. by eapply watch_rebuild.
  - destruct (heap (net s) !! pool) as [p|] eqn:Ep; [|done]. injection H as <-.
    by apply (watch_take s prev next pool).
  - injection H as <-. apply (watch_frame s); try done. apply suffix_nil.
  - destruct (adopt_one next tm (net s)) as [[n' w]|] eqn:Ea; [|done]. injection H as <-. by eapply watch_adopt.
  - destruct (heap (net s) !! pool) as [p|] eqn:Ep; [|done]. injection H as <-. by eapply watch_push.
  - injection H as <-. apply (watch_frame s); try done. apply suffix_nil.
Qed.

Lemma watch_register s i s' : watch_inv s → register_finish i s = Next s' → watch_inv s'.
Proof.
  intros Hw H. unfold register_finish in H.
  destruct (registrations (net s) !! i) as [[c|pool c id]|] eqn:Ei; try done.
  destruct (heap (net s) !! pool) as [p|] eqn:Ep; [|done]. simpl in H.
  destruct (try_register _ p c id (next_counter (net s))) as [[[policy p'] m]|e] eqn:Et; injection H as <-.
  2: { apply (watch_frame s); try done. apply conns_le_close. }
  apply try_register_Ok in Et as (_ & -> & -> & _).
  set (m := mkMember (next_member_id p) id c (next_counter (net s))).
  assert (∀ pid k, issued (heap (net s)) pid k → (pid, k) ≠ (pool, next_member_id p)) as Hfresh.
  { intros pid k (q & Hq & Hlt) [= -> ->]. simplify_eq. lia. }
  assert (watch_inv (with_net (set_watchers (watchers (net s) ++ [(pool, member_id m, c)])
    (set_heap (<[pool := mkPool (members p ++ [m]) (next_member_id p + 1) (next_round_robin_offset p)]>
       (heap (net s))) (net s))) s)) as H1.
  { eapply (watch_grow s pool p _ m); try done; simpl; try lia.
    - intros m' Hm'. apply (pw_bound _ _ _ _ (wi_pools _ Hw pool p Ep)) in Hm'. lia.
    - rewrite fmap_app. apply NoDup_app. split_and!; [apply Hw| |apply NoDup_singleton].
      intros [pid k] Hin Hin'%list_elem_of_singleton. apply list_elem_of_fmap in Hin as ([k' c'] & Hk & Hin).
      simpl in Hk. subst k'. by apply (wi_issued _ Hw), Hfresh in Hin.
    - intros pid k c' [Hin|Hin%list_elem_of_singleton]%elem_of_app.
      + eapply issued_insert; [done|simpl; lia|]. by eapply (wi_issued _ Hw).
      + simplify_eq. eexists. rewrite lookup_insert_eq. split; [done|]. simpl. lia.
    - intros w Hin. apply elem_of_app. by left.
    - left. apply elem_of_app. right. by apply list_elem_of_singleton.
    - intros m' Hin Heq. destruct (wi_taken _ Hw pool m' Hin) as [Hi _]. apply (Hfresh _ _ Hi). by rewrite Heq. }
  by apply (watch_frame _ _ H1).
Qed.

Lemma watch_inv_exec s a s' : known_inv s → layout_inv s → watch_inv s → exec s a = Next s' → watch_inv s'.
Proof.
  intros Hkn Hlay Hw H. destruct (exec_conns s a s' (kn_fresh _ Hkn) H) as [Hle _]. destruct a; simpl in H;
    try (unfold begin_route, route_lookup, route_abandon, place_visitor, finish_visitor, connect, register_lookup,
           set_accepts, conn_close, detached_released, stop_accepting, seal, close_all, close_pool in H;
         exec_cases H; simplify_eq/=; by (eapply watch_frame; eauto)).
  - unfold route_select in H. exec_cases H;
      match goal with Hs : select_connection ?a ?b ?p = (?p', _), Hp : heap (net s) !! ?pool = Some ?p |- _ =>
        destruct (select_connection_members a b p) as [Hm Hn]; rewrite Hs in Hm, Hn; simpl in Hm, Hn;
        assert (next_member_id p ≤ next_member_id p')%Z as Hle' by lia;
        pose proof (watch_same_members s pool p p' Hw Hp Hm Hle') as Hsm; by apply (watch_frame _ _ Hsm) end.
  - by eapply watch_register.
  - unfold watcher_fires in H. exec_cases H. eapply watch_fires; try done. by apply negb_false_iff.
  - unfold begin_replace in H. exec_cases H; try done; apply (watch_frame s); try done; apply suffix_nil.
  - by eapply watch_commit_step.
  - unfold drop_commit in H. exec_cases H; apply (watch_frame s); try done; apply suffix_nil.
Qed.

Lemma watch_inv_reachable ls s : limits_ok ls → reachable ls s → watch_inv s.
Proof.
  intros Hls (snap & gate & Hs & Hr).
  assert (registry_inv ls (registry_new snap (policy_new ls) gate) ∧
    known_inv (registry_new snap (policy_new ls) gate) ∧
    watch_inv (registry_new snap (policy_new ls) gate)) as H0.
  { split_and!; [by apply registry_new_inv | apply known_new|]. split; simpl; try done; try (by constructor).
    - intros pid p Hp. rewrite heap_new_lookup in Hp. case_decide; simplify_eq.
      split; simpl; [constructor | by intros m ?%elem_of_nil..].
    - by intros pid id c ?%elem_of_nil.
    - by intros pid m ?%elem_of_nil. }
  induction Hr as [|x y z [a Ha] _ IH]; [apply H0|]. apply IH. destruct H0 as (Hinv & Hk & Hw).
  split_and!; [by eapply registry_inv_exec | by eapply known_exec; [|apply Hinv|] |].
  by eapply watch_inv_exec; [|apply Hinv|..].
Qed.

Lemma NoDup_fmap_elem {A B} (f : A → B) (l : list A) x y :
  NoDup (f <$> l) → x ∈ l → y ∈ l → f x = f y → x = y.
Proof.
  intros Hnd (i & Hi)%list_elem_of_lookup (j & Hj)%list_elem_of_lookup Heq.
  assert (i = j) as ->; [|congruence].
  apply (NoDup_lookup _ i j (f x) Hnd); rewrite list_lookup_fmap; [by rewrite Hi | by rewrite Hj, Heq].
Qed.

Lemma filter_member_id ms m :
  NoDup (member_id <$> ms) → m ∈ ms → List.filter (λ m', (member_id m' =? member_id m)%Z) ms = [m].
Proof.
  induction ms as [|x ms IH]; intros Hnd Hin; [by apply elem_of_nil in Hin|]. simpl.
  apply NoDup_cons in Hnd as [Hx Hnd]. apply elem_of_cons in Hin as [->|Hin].
  - rewrite Z.eqb_refl. f_equal. destruct (List.filter _ ms) as [|y l] eqn:E; [done|]. exfalso. apply Hx.
    assert (In y (y :: l)) as Hy by by left. rewrite <- E in Hy. apply List.filter_In in Hy as [Hy Heq].
    apply Z.eqb_eq in Heq. rewrite <- Heq. by apply list_elem_of_fmap_2, list_elem_of_In.
  - destruct (Z.eqb_spec (member_id x) (member_id m)) as [Heq|]; [|by apply IH].
    exfalso. apply Hx. rewrite Heq. by apply list_elem_of_fmap_2.
Qed.

(** ** A replacement tells the connections it revokes *)

(** The connection was told to close, or has closed. *)
Definition ended (n : NetState) (c : nat) : Prop := signalled (conns n) c ∨ is_closed n c = true.

Lemma ended_le n n' c : conns_le (conns n) (conns n') → ended n c → ended n' c.
Proof. intros Hle [Hs|Hc]; [left; by eapply conns_le_signalled | right; by eapply conns_le_closed]. Qed.

(** Member [m] of pool [pid] has ended, or the closing pass has yet to reach it. *)
Definition dispatching (pid : nat) (m : PoolMember) (s : State) : Prop :=
  ended (net s) (connection m) ∨
  ∃ prev next todo, commit s = Some (CClose prev next todo) ∧
    client_identity m ∈ removed_identities prev next ∧ pid ∈ todo ∧ member_of (heap (net s)) pid m.

(** Which members a pool keeps, outside a replacement. *)
Lemma exec_members s a s' pid m :
  watch_inv s → a ≠ CommitStep → exec s a = Next s' → member_of (heap (net s)) pid m →
  member_of (heap (net s')) pid m ∨ ended (net s') (connection m).
Proof.
  intros Hw Ha H (p & Hp & Hin).
  assert (∀ h pool q q', h = <[pool := q']> (heap (net s)) → heap (net s) !! pool = Some q →
    (∀ x, x ∈ members q → x ∈ members q') → member_of h pid m) as Hgrow.
  { intros h pool q q' -> Hq Hsub. destruct (decide (pool = pid)) as [->|Hne].
    - exists q'. rewrite lookup_insert_eq. simplify_eq. auto.
    - exists p. by rewrite lookup_insert_ne. }
  destruct a; simpl in H;
    try (unfold begin_route, route_lookup, route_abandon, place_visitor, finish_visitor, connect, register_lookup,
           set_accepts, conn_close, detached_released, begin_replace, drop_commit, stop_accepting, seal, close_all,
           close_pool in H;
         exec_cases H; simplify_eq/=; left; by exists p).
  - unfold route_select in H. exec_cases H; left; (eapply Hgrow; [done..|]); intros x;
      match goal with Hs : select_connection ?a ?b ?p = _ |- _ =>
        destruct (select_connection_members a b p) as [Hm _]; by rewrite Hs in Hm; simpl in Hm; rewrite Hm end.
  - unfold register_finish in H. exec_cases H; [|left; by exists p].
    match goal with Ht : try_register _ _ _ _ _ = Ok _ |- _ => apply try_register_Ok in Ht as (_ & -> & -> & _) end.
    left. eapply Hgrow; [done..|]. intros x Hx. simpl. apply elem_of_app. by left.
  - unfold watcher_fires in H. destruct (watchers (net s) !! i) as [[[pool id] c]|] eqn:Hwi; [|done].
    destruct (negb _) eqn:Hcl; [done|]. destruct (heap (net s) !! pool) as [q|] eqn:Hpool; [|done].
    simpl in H. destruct (drop_permits _ _) as [policy|]; [|done]. injection H as <-.
    destruct (decide (pid = pool ∧ member_id m = id)) as [[-> <-]|Hne].
    + right. right. rewrite Hp in Hpool. injection Hpool as <-. apply negb_false_iff in Hcl. unfold is_closed in *. simpl.
      destruct (pw_watched _ _ _ _ (wi_pools _ Hw _ _ Hp) m Hin) as [Hm|Hm]; [|done].
      pose proof (NoDup_fmap_elem fst _ _ _ (wi_nodup _ Hw) Hm (list_elem_of_lookup_2 _ _ _ Hwi) eq_refl) as Heq.
      by injection Heq as <-.
    + left. unfold member_of. simpl. destruct (decide (pool = pid)) as [->|Hnp].
      * eexists. rewrite lookup_insert_eq. split; [done|]. apply retain_other_elem. rewrite Hp in Hpool. injection Hpool as <-.
        split; [done|]. intros Heq. by apply Hne.
      * exists p. by rewrite lookup_insert_ne.
Qed.

Lemma dispatching_exec pid m s a s' :
  known_inv s → watch_inv s → a ≠ CommitDropped → exec s a = Next s' → dispatching pid m s → dispatching pid m s'.
Proof.
  intros Hk Hw Ha H Hd. destruct (exec_conns s a s' (kn_fresh _ Hk) H) as [Hle _].
  destruct Hd as [Hend|(prev & next & todo & Hc & Hrem & Hpid & Hm)]; [left; by eapply ended_le|].
  assert (a = CommitStep ∨ a ≠ CommitStep) as [->|Hstep] by (destruct a; (by left) || (by right)).
  - simpl in H. unfold commit_step in H. rewrite Hc in H. destruct todo as [|pool todo]; [by apply elem_of_nil in Hpid|].
    destruct (heap (net s) !! pool) as [p|] eqn:Ep; [|done]. injection H as <-.
    apply elem_of_cons in Hpid as [->|Hpid]; [left; left|right; by exists prev, next, todo].
    simpl. apply closes_signalled; [|by eapply kn_members].
    destruct Hm as (q & Hq & Hin). simplify_eq. unfold connections_of_identities. apply list_elem_of_fmap.
    exists m. split; [done|]. apply list_elem_of_In, List.filter_In. split; [by apply list_elem_of_In|].
    by apply bool_decide_eq_true.
  - destruct (exec_members s a s' pid m Hw Hstep H Hm) as [Hm'|Hend]; [right|by left].
    exists prev, next, todo. split_and!; try done. destruct a; try done; simpl in H;
      unfold begin_route, route_lookup, route_select, route_abandon, place_visitor, finish_visitor, connect,
        register_lookup, register_finish, set_accepts, conn_close, watcher_fires, detached_released, begin_replace,
        stop_accepting, seal, close_all, close_pool in H;
      try rewrite Hc in H; exec_cases H; by simplify_eq/=.
Qed.

(** ** A replacement loses no connection *)

(** What of a member survives a move: identity, connection and stream counter. *)
Definition core (m : PoolMember) : bytes * nat * nat :=
  (client_identity m, connection m, active_streams m).

(** Connections, registered or between pools, that the live snapshot trusts. *)
Definition kept (s : State) : list (bytes * nat * nat) :=
  List.filter (λ c, bool_decide (c.1.1 ∈ trusted_client_identities (snapshot s)))
    (collect core (heap (net s)) ++ (core <$> (commit_taken (commit s)).*2)).





(** ** A replacement completes *)








(** Only a replacement dropped while it closes connections leaves some unsignalled. *)
Lemma dispatched_exec s a s' :
  exec s a = Next s' → dispatched s →
  dispatched s' ∨ a = CommitDropped ∧ ∃ prev next todo, commit s = Some (CClose prev next todo).
Proof.
  unfold dispatched. intros H Hd. destruct a; simpl in H;
    unfold begin_route, route_lookup, route_select, route_abandon, place_visitor, finish_visitor, connect,
      register_lookup, register_finish, set_accepts, conn_close, watcher_fires, detached_released, begin_replace,
      commit_step, drop_commit, stop_accepting, seal, close_all, close_pool in H;
    exec_cases H; simplify_eq/=; rewrite ?orb_false_r; eauto 6.
Qed.

(** ** Properties *)

(** C2: in every run in which no replacement starts while a registration still holds
    the pool it looked up, revocation reaches the connections.  Once the last replacement
    that began has run to its end, each registered connection is in the pool of the
    Tunnel that the live snapshot gives its identity.  As long as no replacement was
    dropped while it closed connections, each connection that lost its Tunnel was told to
    close, whether it has left the pools or is still in one; and only a drop at that
    point ends this. *)
Theorem registered_connections_authorized ls s :
  limits_ok ls → quiet_reachable ls s →
  (settled s → ∀ pid m, member_of (heap (net s)) pid m →
     home (snapshot s) (tunnel_pools (net s)) (client_identity m) pid) ∧
  (dispatched s →
     (∀ c i, (c, i) ∈ detached (net s) → signalled (conns (net s)) c) ∧
     (commit s = None → ∀ pid m, member_of (heap (net s)) pid m → untrusted (snapshot s) m →
        signalled (conns (net s)) (connection m))) ∧
  (∀ a s', exec s a = Next s' → dispatched s →
     dispatched s' ∨ a = CommitDropped ∧ ∃ prev next todo, commit s = Some (CClose prev next todo)).
Proof.
  intros Hls Hr. destruct (quiet_reachable_inv ls s Hls Hr) as [_ []].
  unfold aligned, table_snapshot in *. split_and!.
  - intros [Hc Hu] pid m Hin. rewrite Hc in *. by apply (al_members0 pid m Hin).
  - intros Hd. split; [by apply al_detached0|]. intros Hc pid m Hin Hu. rewrite Hc in *.
    by apply (al_members0 pid m Hin).
  - intros a s' He. by apply dispatched_exec.
Qed.

(** A connection of [i1] is registered, then [i1] loses the Tunnel. *)
Definition revoke_tunnel : ServerTunnelConfig := mkTunnel (Some (bs "a")) [bs "a.test"] [bs "i2"].
Definition revoke_actions : list action :=
  demo_actions ++ [BeginReplace (bs "s.test") [revoke_tunnel]] ++ replicate 7 CommitStep.
Definition revoke_state : State := default demo_start (run demo_start revoke_actions).

(** The same revocation, but the connection registers after it. *)
Definition stale_actions : list action :=
  [BeginReplace (bs "s.test") [demo_tunnel]] ++ replicate 4 CommitStep ++
  [Connect (bs "i1"); RegisterLookup 0; BeginReplace (bs "s.test") [revoke_tunnel]] ++
  replicate 6 CommitStep ++
  [RegisterFinish 0; BeginRoute (bs "a.test"); RouteLookup 0; RouteSelect 0].
Definition stale_state : State := default demo_start (run demo_start stale_actions).

Fixpoint quiet_run (s : State) (acts : list action) : bool :=
  match acts with
  | [] => true
  | a :: acts' =>
      match a with
      | BeginReplace _ _ => forallb (λ r, negb (is_reg_pool r)) (registrations (net s))
      | _ => true
      end &&
      match exec s a with Next s' => quiet_run s' acts' | _ => false end
  end.

Lemma quiet_run_rtc s acts s' : quiet_run s acts = true → run s acts = Some s' → rtc quiet_step s s'.
Proof.
  revert s. induction acts as [|a acts IH]; intros s Hq H; simpl in *; [injection H as ->; reflexivity|].
  apply andb_prop in Hq as [Ha Hq]. destruct (exec s a) as [s1| |] eqn:E; try done.
  eapply rtc_l; [|by apply IH]. exists a. split; [done|]. by destruct a.
Qed.

Lemma registered_connections_authorized_witness :
  detached (net revoke_state) = [(0, bs "i1")] ∧ signalled (conns (net revoke_state)) 0.
Proof.
  split; [by vm_compute|].
  destruct (registered_connections_authorized default_limits revoke_state) as (_ & Hsig & _).
  - apply default_limits_ok.
  - exists empty_managed, (Some false). split; [constructor|].
    apply quiet_run_rtc with revoke_actions; by vm_compute.
  - apply (proj1 (Hsig (eq_refl false)) 0 (bs "i1")). vm_compute. by left.
Defined.

(** C38: without that restriction revocation is not complete: a registration that looked
    up its pool before a replacement and registers after it puts a connection of a
    removed identity into a live pool.  No replacement is in progress any more, the
    connection is never told to close, and selection hands it to the next Visitor. *)
Theorem stale_registration_survives_revocation :
  ∃ s m p, reachable default_limits s ∧ commit s = None ∧
    tunnel_index_for_client_identity (snapshot s) (client_identity m) = None ∧
    tunnel_pools (net s) = [0] ∧ heap (net s) !! 0 = Some p ∧ members p = [m] ∧
    (close_reason <$> conns (net s) !! connection m) = Some None ∧
    routes (vis s) = [RtConnected (bs "a.test") (version s) m].
Proof.
  exists stale_state, (mkMember 1 (bs "i1") 0 0), (mkPool [mkMember 1 (bs "i1") 0 0] 2 1).
  split; [|split_and!; by vm_compute]. exists empty_managed, (Some false). split; [constructor|].
  apply run_rtc with stale_actions. by vm_compute.
Qed.

(** A connection that closes is forgotten.  Each member of a pool has its watcher, or the
    watcher ran before the member entered the pool; firing the watcher of a closed
    connection removes its member and no other and gives its permit back. *)
Theorem closed_connection_leaves ls s pid p m :
  limits_ok ls → reachable ls s → heap (net s) !! pid = Some p → m ∈ members p →
  ((pid, member_id m, connection m) ∈ watchers (net s) ∨ is_closed (net s) (connection m) = true) ∧
  ((pid, member_id m, connection m) ∈ watchers (net s) → is_closed (net s) (connection m) = true →
   ∃ i s' p', exec s (WatcherFires i) = Next s' ∧ heap (net s') !! pid = Some p' ∧
    (∀ m', m' ∈ members p' ↔ m' ∈ members p ∧ m' ≠ m) ∧
    conn_active (admission (net s')) = (conn_active (admission (net s)) - 1)%Z).
Proof.
  intros Hls Hr Hp Hm. pose proof (watch_inv_reachable ls s Hls Hr) as Hw.
  destruct (registry_inv_reachable ls s Hls Hr) as [_ _ _ Hperm].
  pose proof (wi_pools _ Hw pid p Hp) as [Hnd _ Hwatch]. split; [by apply Hwatch|]. intros Hwat Hclosed.
  destruct (proj1 (list_elem_of_lookup _ _) Hwat) as [i Hi].
  destruct (permit_watcher ls s pid p (member_id m) Hperm Hp) as (policy & Hd & Hok).
  exists i. simpl. unfold watcher_fires. rewrite Hi, Hclosed, Hp. simpl. rewrite Hd. simpl.
  eexists _, (retain_other (member_id m) p). split; [done|]. simpl. rewrite lookup_insert_eq.
  assert (∀ m', m' ∈ members p → member_id m' = member_id m → m' = m) as Hinj.
  { intros m' Hin' Heq. by eapply (NoDup_fmap_elem member_id (members p)). }
  split_and!; [done| |].
  - intros m'. pose proof (retain_other_elem (member_id m) p m') as Hret. simpl in Hret. rewrite Hret. split; intros [Hin Hne]; (split; [done|]); [congruence|]. auto.
  - assert (List.filter (λ m', (member_id m' =? member_id m)%Z) (members p) = [m]) as Hone
      by by apply filter_member_id.
    rewrite Hone in Hd. apply bind_Some in Hd as (policy' & Hd & [= ->]). unfold drop_connection in Hd.
    destruct (conn_active _ <? 1)%Z; [done|]. by apply bind_Some in Hd as (c & _ & [= <-]).
Qed.


Lemma closed_connection_leaves_witness :
  ∃ s' p', step (default demo_start (run demo_start (demo_actions ++ [ConnClose 0]))) s' ∧
    heap (net s') !! 0 = Some p' ∧ ∀ m, (m ∉ members p').
Proof.
  set (s := default demo_start (run demo_start (demo_actions ++ [ConnClose 0]))).
  destruct (closed_connection_leaves default_limits s 0 (mkPool [mkMember 1 (bs "i1") 0 0] 2 1)
    (mkMember 1 (bs "i1") 0 0)) as [_ Hfire].
  - apply default_limits_ok.
  - exists empty_managed, (Some false). split; [constructor|].
    apply run_rtc with (demo_actions ++ [ConnClose 0]). by vm_compute.
  - by vm_compute.
  - apply list_elem_of_singleton. done.
  - destruct Hfire as (i & s' & p' & Hex & Hp & Hm & _); [vm_compute; by left | by vm_compute|].
    exists s', p'. split_and!; [by exists (WatcherFires i) | exact Hp|]. intros m Hin.
    apply Hm in Hin as [Hin Hne]. exact (Hne (proj1 (list_elem_of_singleton _ _) Hin)).
Defined.

(** A member can outlive its watcher.  [adopt_member] starts the watcher before the
    member is in the pool; when the connection has closed already and the watcher gets
    the lock first, it removes nothing, and the member stays: no watcher is left to
    remove it or to give its permit back. *)
Definition raced_actions : list action :=
  demo_actions ++ [ConnClose 0; BeginReplace (bs "s.test") [demo_tunnel]] ++ replicate 4 CommitStep ++
  [WatcherFires 0] ++ replicate 3 CommitStep.

Theorem adopted_member_unwatched :
  ∃ s m p, reachable default_limits s ∧ settled s ∧ heap (net s) !! 0 = Some p ∧ members p = [m] ∧
    is_closed (net s) (connection m) = true ∧ conn_active (admission (net s)) = 1%Z ∧
    ∀ i, exec s (WatcherFires i) = Blocked.
Proof.
  exists (default demo_start (run demo_start raced_actions)), (mkMember 2 (bs "i1") 0 0),
    (mkPool [mkMember 2 (bs "i1") 0 0] 3 1). split_and!; [|split; by vm_compute|by vm_compute..|].
  - exists empty_managed, (Some false). split; [constructor|]. apply run_rtc with raced_actions. by vm_compute.
  - intros i. assert (watchers (net (default demo_start (run demo_start raced_actions))) = []) as Hw by by vm_compute.
    cbn [exec]. unfold watcher_fires. by rewrite Hw.
Qed.

