(* ===== verification/ManagedInput.v ===== *)
(** * ManagedInput: what a Managed session accepts from Control

    The limits of a Managed session ([src/managed_session/limits.rs]), the snapshot
    envelope carried by an SSE event ([src/managed_session/snapshot.rs]) and the
    role inputs inside it ([src/managed_session/input.rs]).  [serde_json] is a
    parameter; its public [Value] type is [json]. *)

From Stdlib Require Import Ascii ZArith Lia.
From stdpp Require Import base strings numbers gmap list.
From S2P Require Import Prelude Text Names Sse Authorization.

Local Open Scope Z_scope.
Local Set Warnings "-register-all,-clear-no-such-hyp".

Import Hostname Address Token Identity Events.

(** ** Limits *)
Module Limits.

(** Durations are in milliseconds. *)
Record ManagedSessionLimits : Type := mkSessionLimits {
  max_sse_line_bytes : Z;
  max_sse_event_type_bytes : Z;
  max_sse_event_data_bytes : Z;
  max_snapshot_bytes : Z;
  max_decoded_allocation_bytes : Z;
  max_revision_chars : Z;
  max_tunnels : Z;
  max_public_hostnames_total : Z;
  max_public_hostnames_per_tunnel : Z;
  max_client_identities_total : Z;
  max_client_identities_per_tunnel : Z;
  max_server_addresses : Z;
  state_request_deadline : Z;
  state_response_deadline : Z
}.

Definition default_session_limits : ManagedSessionLimits :=
  mkSessionLimits (4 * 1024) 64 (1024 * 1024) (1024 * 1024) (2 * 1024 * 1024)
    OPAQUE_CONTROL_TOKEN_MAX_CHARS 4096 4096 256 4096 64 MAX_CLIENT_SERVER_ADDRESSES 5000 5000.

Definition sse_limits (l : ManagedSessionLimits) : Parser.SseLimits :=
  Parser.mkLimits (max_sse_line_bytes l) (max_sse_event_type_bytes l) (max_sse_event_data_bytes l).

Inductive ManagedSessionLimitKind : Type :=
| SseLineBytes | SseEventTypeBytes | SseEventDataBytes | SnapshotBytes
| DecodedAllocationBytes | RevisionChars | Tunnels | PublicHostnamesTotal
| PublicHostnamesPerTunnel | ClientIdentitiesTotal | ClientIdentitiesPerTunnel
| ServerAddresses.

Definition limit_kind_of_sse (k : Parser.SseLimitKind) : ManagedSessionLimitKind :=
  match k with
  | Parser.LimitLine => SseLineBytes
  | Parser.LimitEventType => SseEventTypeBytes
  | Parser.LimitEventData => SseEventDataBytes
  end.

Definition limit_kind_name (k : ManagedSessionLimitKind) : string :=
  match k with
  | SseLineBytes => "sse-line-bytes"
  | SseEventTypeBytes => "sse-event-type-bytes"
  | SseEventDataBytes => "sse-event-data-bytes"
  | SnapshotBytes => "snapshot-bytes"
  | DecodedAllocationBytes => "decoded-allocation-bytes"
  | RevisionChars => "revision-chars"
  | Tunnels => "tunnels"
  | PublicHostnamesTotal => "public-hostnames-total"
  | PublicHostnamesPerTunnel => "public-hostnames-per-tunnel"
  | ClientIdentitiesTotal => "client-identities-total"
  | ClientIdentitiesPerTunnel => "client-identities-per-tunnel"
  | ServerAddresses => "server-addresses"
  end.

End Limits.
Import Limits.

(** ** JSON values *)

(** [serde_json::Value]; a number is its printed form, an object its entries. *)
Inductive json : Type :=
| JNull
| JBool (b : bool)
| JNumber (printed : bytes)
| JString (s : bytes)
| JArray (items : list json)
| JObject (entries : list (bytes * json)).

(** [Value::get] with a string key. *)
Definition json_get (key : bytes) (v : json) : option json :=
  match v with
  | JObject entries => snd <$> List.find (λ e, bool_decide (e.1 = key)) entries
  | _ => None
  end.

Definition is_object (v : json) : bool := match v with JObject _ => true | _ => false end.

Fixpoint estimate_json_allocation (v : json) : Z :=
  match v with
  | JNull | JBool _ => 1
  | JNumber printed => len printed
  | JString s => len s
  | JArray items =>
      foldl (λ acc item, saturating_add usize_bits acc (estimate_json_allocation item)) (len items) items
  | JObject entries =>
      foldl (λ acc entry, saturating_add usize_bits (saturating_add usize_bits acc (len entry.1))
                            (estimate_json_allocation entry.2)) (len entries) entries
  end.

(** The derived deserializers. *)
Record RawSnapshot : Type := mkRawSnapshot { raw_revision : option bytes; raw_input : option json }.
Record RawServerTunnel : Type := mkRawTunnel {
  raw_id : option bytes;
  raw_public_hostnames : option (list bytes);
  raw_client_identities : option (list bytes)
}.

Class SerdeOps : Type := {
  from_str_snapshot : bytes → option RawSnapshot;
  from_value_tunnels : json → option (option (list RawServerTunnel));
  from_value_addresses : json → option (option (list bytes))
}.

(** ** The snapshot envelope *)
Module Snapshot.

Record SnapshotEnvelope : Type := mkEnvelope { env_revision : bytes; env_input : json }.

Inductive SnapshotError : Type :=
| InvalidJson
| MissingRevision
| EmptyRevision
| InvalidRevision (e : OpaqueControlTokenError)
| MissingInput
| UnknownEventType (t : bytes)
| MissingEventType
| SnapshotLimitExceeded (limit : ManagedSessionLimitKind) (value max : Z).

Section Parse.
Context `{SerdeOps}.

Definition parse_snapshot_event (event_type : option bytes) (data : bytes) (limits : ManagedSessionLimits) :
    result SnapshotError SnapshotEnvelope :=
  _ ← match event_type with
      | Some t => reject_if (bool_decide (t ≠ bs "snapshot")) (UnknownEventType t)
      | None => Err MissingEventType
      end;
  _ ← reject_if (max_snapshot_bytes limits <? len data)
        (SnapshotLimitExceeded SnapshotBytes (len data) (max_snapshot_bytes limits));
  raw ← ok_or InvalidJson (from_str_snapshot data);
  revision ← ok_or MissingRevision (raw_revision raw);
  let revision_chars := chars_count revision in
  _ ← reject_if (max_revision_chars limits <? revision_chars)
        (SnapshotLimitExceeded RevisionChars revision_chars (max_revision_chars limits));
  _ ← map_err (λ e, match e with TokenEmpty => EmptyRevision | other => InvalidRevision other end)
        (validate_opaque_control_token revision);
  input ← ok_or MissingInput (raw_input raw);
  _ ← reject_if (negb (is_object input)) MissingInput;
  let decoded := saturating_add usize_bits (len data) (estimate_json_allocation input) in
  _ ← reject_if (max_decoded_allocation_bytes limits <? decoded)
        (SnapshotLimitExceeded DecodedAllocationBytes decoded (max_decoded_allocation_bytes limits));
  Ok (mkEnvelope revision input).

End Parse.
End Snapshot.

(** ** Role inputs *)
Module Input.

(** One constructor per message of [InputError::InvalidShape]. *)
Inductive shape_error : Type :=
| NotTunnelEntries
| BadReplacementGeneration
| BadDrain
| NotServerAddresses
| OmittedId (index : nat)
| InvalidId (index : nat) (raw : bytes) (e : OpaqueControlTokenError)
| OmittedHostnames (index : nat)
| EmptyHostnames (index : nat)
| OmittedIdentities (index : nat)
| EmptyIdentities (index : nat)
| InvalidHostname (index : nat) (raw : bytes) (e : PublicHostnameError)
| InvalidIdentity (index : nat) (raw : bytes) (e : ParseClientIdentityError)
| ManagedWithoutId
| RepeatedTunnelId (id : bytes)
| RepeatedHostname (hostname : bytes)
| RepeatedIdentity (rendered : bytes)
| InvalidAddress (index : nat) (raw : bytes) (e : ServerAddressError)
| RepeatedAddress (rendered : bytes).

Inductive InputError : Type :=
| MissingTunnels
| MissingServerAddresses
| InvalidShape (e : shape_error)
| InputLimitExceeded (limit : ManagedSessionLimitKind) (value max : Z).

Record ClientManagedInput : Type := mkClientInput { server_addresses : list ServerAddress }.

(** [validate_unique_*]: a [HashSet] filled in order. *)
Definition note_unique (duplicate : bytes → shape_error) (seen : gset bytes) (key : bytes) :
    result InputError (gset bytes) :=
  _ ← reject_if (bool_decide (key ∈ seen)) (InvalidShape (duplicate key));
  Ok ({[ key ]} ∪ seen).

Definition validate_unique_tunnel_ids (tunnels : list ServerTunnelConfig) : result InputError unit :=
  _ ← try_fold (λ seen t, id ← ok_or (InvalidShape ManagedWithoutId) (tunnel_id t);
                          note_unique RepeatedTunnelId seen id) ∅ tunnels;
  Ok tt.
Definition validate_unique_public_hostnames (tunnels : list ServerTunnelConfig) : result InputError unit :=
  _ ← try_fold (λ seen t, try_fold (note_unique RepeatedHostname) seen (public_hostnames t)) ∅ tunnels;
  Ok tt.
Definition validate_unique_client_identities (tunnels : list ServerTunnelConfig) : result InputError unit :=
  _ ← try_fold (λ seen t, try_fold (λ seen i, note_unique RepeatedIdentity seen (ClientIdentity_display i))
                            seen (authorized_client_identities t)) ∅ tunnels;
  Ok tt.
Definition validate_unique_server_addresses (addresses : list ServerAddress) : result InputError unit :=
  _ ← try_fold (λ seen a, note_unique RepeatedAddress seen (ServerAddress_render a)) ∅ addresses;
  Ok tt.

(** The two running totals are threaded through the Tunnels. *)
Definition parse_server_tunnel (index : nat) (tunnel : RawServerTunnel) (limits : ManagedSessionLimits)
    (total_public_hostnames total_client_identities : Z) :
    result InputError (ServerTunnelConfig * Z * Z) :=
  id_text ← ok_or (InvalidShape (OmittedId index)) (raw_id tunnel);
  id ← map_err (λ e, InvalidShape (InvalidId index id_text e)) (TunnelId_parse id_text);
  hostnames ← ok_or (InvalidShape (OmittedHostnames index)) (raw_public_hostnames tunnel);
  _ ← reject_if (bool_decide (hostnames = [])) (InvalidShape (EmptyHostnames index));
  identities ← ok_or (InvalidShape (OmittedIdentities index)) (raw_client_identities tunnel);
  _ ← reject_if (bool_decide (identities = [])) (InvalidShape (EmptyIdentities index));
  _ ← reject_if (max_public_hostnames_per_tunnel limits <? len hostnames)
        (InputLimitExceeded PublicHostnamesPerTunnel (len hostnames) (max_public_hostnames_per_tunnel limits));
  _ ← reject_if (max_client_identities_per_tunnel limits <? len identities)
        (InputLimitExceeded ClientIdentitiesPerTunnel (len identities) (max_client_identities_per_tunnel limits));
  let new_public_hostnames_total := saturating_add usize_bits total_public_hostnames (len hostnames) in
  _ ← reject_if (max_public_hostnames_total limits <? new_public_hostnames_total)
        (InputLimitExceeded PublicHostnamesTotal new_public_hostnames_total (max_public_hostnames_total limits));
  let new_client_identities_total := saturating_add usize_bits total_client_identities (len identities) in
  _ ← reject_if (max_client_identities_total limits <? new_client_identities_total)
        (InputLimitExceeded ClientIdentitiesTotal new_client_identities_total (max_client_identities_total limits));
  hosts ← try_map (λ h, map_err (λ e, InvalidShape (InvalidHostname index h e)) (PublicHostname_try_from h)) hostnames;
  ids ← try_map (λ i, map_err (λ e, InvalidShape (InvalidIdentity index i e)) (ClientIdentity_from_str i)) identities;
  Ok (mkTunnel (Some id) hosts ids, new_public_hostnames_total, new_client_identities_total).

Section Parse.
Context {U : Type} `{UuidOps U} `{SerdeOps}.

Record ServerManagedInput : Type := mkServerInput {
  tunnels : list ServerTunnelConfig;
  input_replacement : option U;
  drain : bool
}.

Definition parse_replacement (input : json) : result InputError (option U) :=
  match json_get (bs "replacement_generation") input with
  | None => Ok None
  | Some value =>
      g ← ok_or (InvalidShape BadReplacementGeneration)
            (s ← match value with JString s => Some s | _ => None end; ServerRuntimeGeneration_parse s);
      Ok (Some g)
  end.

Definition parse_drain (input : json) : result InputError bool :=
  match json_get (bs "drain") input with
  | None => Ok false
  | Some (JBool drain) => Ok drain
  | Some _ => Err (InvalidShape BadDrain)
  end.

(** The first [match] of both parsers. *)
Definition check_array (key : bytes) (missing : InputError) (not_array : shape_error)
    (limit : ManagedSessionLimitKind) (max : Z) (input : json) : result InputError unit :=
  match json_get key input with
  | None => Err missing
  | Some (JArray items) => reject_if (max <? len items) (InputLimitExceeded limit (len items) max)
  | Some _ => Err (InvalidShape not_array)
  end.

Definition parse_tunnel_step (limits : ManagedSessionLimits)
    (acc : list ServerTunnelConfig * Z * Z) (it : nat * RawServerTunnel) :
    result InputError (list ServerTunnelConfig * Z * Z) :=
  '(t, hostnames, identities) ← parse_server_tunnel it.1 it.2 limits acc.1.2 acc.2;
  Ok (acc.1.1 ++ [t], hostnames, identities).

Definition parse_server_input (input : json) (limits : ManagedSessionLimits) :
    result InputError ServerManagedInput :=
  _ ← check_array (bs "tunnels") MissingTunnels NotTunnelEntries Tunnels (max_tunnels limits) input;
  replacement ← parse_replacement input;
  drain ← parse_drain input;
  raw ← ok_or (InvalidShape NotTunnelEntries) (from_value_tunnels input);
  raw_tunnels ← ok_or MissingTunnels raw;
  '(tunnels, _, _) ← try_fold (parse_tunnel_step limits) ([], 0, 0) (enumerate raw_tunnels);
  _ ← validate_unique_tunnel_ids tunnels;
  _ ← validate_unique_public_hostnames tunnels;
  _ ← validate_unique_client_identities tunnels;
  Ok (mkServerInput tunnels replacement drain).

Definition parse_client_input (input : json) (limits : ManagedSessionLimits) :
    result InputError ClientManagedInput :=
  _ ← check_array (bs "server_addresses") MissingServerAddresses NotServerAddresses ServerAddresses
        (max_server_addresses limits) input;
  raw ← ok_or (InvalidShape NotServerAddresses) (from_value_addresses input);
  raw_addresses ← ok_or MissingServerAddresses raw;
  addresses ← try_map (λ ia, map_err (λ e, InvalidShape (InvalidAddress ia.1 ia.2 e)) (ServerAddress_parse ia.2))
                (enumerate raw_addresses);
  _ ← validate_unique_server_addresses addresses;
  Ok (mkClientInput addresses).

End Parse.
End Input.
Import Snapshot Input.

(** ** What is accepted *)

(** The configuration entry that a raw Tunnel denotes. *)
Record tunnel_of (ls : ManagedSessionLimits) (raw : RawServerTunnel) (t : ServerTunnelConfig) : Prop := {
  to_id : ∃ id, raw_id raw = Some id ∧ validate_opaque_control_token id = Ok tt ∧ tunnel_id t = Some id;
  to_hostnames : ∃ hs, raw_public_hostnames raw = Some hs ∧ hs ≠ [] ∧
    len hs ≤ max_public_hostnames_per_tunnel ls ∧
    Forall2 (λ h n, PublicHostname_try_from h = Ok n) hs (public_hostnames t);
  to_identities : ∃ cs, raw_client_identities raw = Some cs ∧ cs ≠ [] ∧
    len cs ≤ max_client_identities_per_tunnel ls ∧
    Forall2 (λ s i, ClientIdentity_from_str s = Ok i) cs (authorized_client_identities t)
}.

(** Limits that a [usize] total can exceed. *)
Definition limits_bounded (ls : ManagedSessionLimits) : Prop :=
  0 ≤ max_public_hostnames_total ls < umax usize_bits ∧
  0 ≤ max_client_identities_total ls < umax usize_bits.

(** *** Uniqueness checks *)

Lemma try_fold_bind {E A B C} (f : A → C → result E A) (g : B → list C) l a :
  try_fold (λ a b, try_fold f a (g b)) a l = try_fold f a (l ≫= g).
Proof.
  revert a. induction l as [|b l IH]; intros a; [done|]. cbn [try_fold]. rewrite bind_cons, try_fold_app.
  by destruct (try_fold f a (g b)); simpl.
Qed.

Lemma try_fold_fmap {E A B C} (f : A → C → result E A) (k : B → C) l a :
  try_fold (λ a b, f a (k b)) a l = try_fold f a (k <$> l).
Proof.
  revert a. induction l as [|b l IH]; intros a; [done|]. cbn [try_fold fmap list_fmap].
  by destruct (f a (k b)); simpl.
Qed.

Lemma note_unique_eq dup seen k :
  note_unique dup seen k = if bool_decide (k ∈ seen) then Err (InvalidShape (dup k)) else Ok ({[ k ]} ∪ seen).
Proof. unfold note_unique. by destruct (bool_decide (k ∈ seen)). Qed.

Lemma note_unique_fold dup keys seen :
  is_ok (try_fold (note_unique dup) seen keys) = true ↔ NoDup keys ∧ ∀ k, k ∈ keys → k ∉ seen.
Proof.
  revert seen. induction keys as [|k keys IH]; intros seen; cbn [try_fold].
  - split; [intros _; split; [constructor | by intros k ?%elem_of_nil] | done].
  - rewrite note_unique_eq. destruct (bool_decide_reflect (k ∈ seen)) as [Hin|Hnin]; step.
    + split; [done|]. intros [_ Hk]. destruct (Hk k); [by left | done].
    + rewrite IH, NoDup_cons. split.
      * intros [Hnd Hk]. split; [split; [|done]|]; [intros Hin; apply (Hk k Hin); set_solver|].
        intros k' [->|Hin]%elem_of_cons; [done|]. specialize (Hk k' Hin). set_solver.
      * intros [[Hk Hnd] Hseen]. split; [done|]. intros k' Hin. specialize (Hseen k'). set_solver.
Qed.

Lemma is_ok_then {E A} (r : result E A) : (_ ← r; Ok tt) = Ok tt ↔ is_ok r = true.
Proof. by destruct r. Qed.

Lemma unique_keys dup keys :
  (_ ← try_fold (note_unique dup) ∅ keys; Ok tt) = Ok tt ↔ NoDup keys.
Proof.
  rewrite is_ok_then, note_unique_fold. split; [by intros [? _]|]. intros ?. split; [done|]. set_solver.
Qed.

Lemma unique_hostnames ts : validate_unique_public_hostnames ts = Ok tt ↔ NoDup (all_hostnames ts).
Proof. unfold validate_unique_public_hostnames. rewrite try_fold_bind. apply unique_keys. Qed.

Lemma NoDup_fmap_inj_on {A B} (f : A → B) (l : list A) :
  (∀ x y, x ∈ l → y ∈ l → f x = f y → x = y) → NoDup (f <$> l) ↔ NoDup l.
Proof.
  intros Hinj. split; [apply NoDup_fmap_1|].
  induction l as [|x l IH]; intros Hnd; [constructor|]. apply NoDup_cons in Hnd as [Hx Hnd].
  rewrite fmap_cons. apply NoDup_cons. split.
  - intros (y & Heq & Hy)%list_elem_of_fmap. apply Hinj in Heq; [by subst | by left | by right].
  - apply IH; [|done]. intros y z Hy Hz. apply Hinj; by right.
Qed.

Lemma unique_identities ts :
  Forall identity_wf (all_identities ts) →
  validate_unique_client_identities ts = Ok tt ↔ NoDup (all_identities ts).
Proof.
  intros Hwf. unfold validate_unique_client_identities.
  rewrite (try_fold_bind (λ seen i, note_unique RepeatedIdentity seen (ClientIdentity_display i))).
  rewrite try_fold_fmap, unique_keys. apply NoDup_fmap_inj_on. rewrite Forall_forall in Hwf.
  intros x y Hx Hy Heq.
  assert (ClientIdentity_from_str (ClientIdentity_display x) = Ok x) as Ex by (apply identity_from_str_iff; auto).
  assert (ClientIdentity_from_str (ClientIdentity_display x) = Ok y) as Ey
    by (apply identity_from_str_iff; rewrite Heq; auto).
  congruence.
Qed.

Lemma unique_ids ts ids :
  Some <$> ids = tunnel_id <$> ts → validate_unique_tunnel_ids ts = Ok tt ↔ NoDup ids.
Proof.
  intros Hids. unfold validate_unique_tunnel_ids.
  assert (∀ seen : gset bytes, try_fold (λ seen t, id ← ok_or (InvalidShape ManagedWithoutId) (tunnel_id t);
    note_unique RepeatedTunnelId seen id) seen ts = try_fold (note_unique RepeatedTunnelId) seen ids) as Hfold.
  { revert ts Hids. induction ids as [|id ids IH]; intros [|t ts] Hids seen; try done.
    rewrite !fmap_cons in Hids. injection Hids as Hid Hids. cbn [try_fold]. rewrite <- Hid. step.
    destruct (note_unique RepeatedTunnelId seen id); step; [by apply IH | done]. }
  rewrite Hfold. apply unique_keys.
Qed.

Lemma unique_addresses l :
  Forall (λ a, 0 ≤ sa_port a ≤ u16_max) l → validate_unique_server_addresses l = Ok tt ↔ NoDup l.
Proof.
  intros Hp. unfold validate_unique_server_addresses. rewrite try_fold_fmap, unique_keys.
  apply NoDup_fmap_inj_on. rewrite Forall_forall in Hp. intros x y Hx Hy. apply ServerAddress_render_inj; auto.
Qed.

(** *** Tunnels *)

Lemma try_map_err_Forall2 {E F A B} (f : A → result E B) (g : A → E → F) l k :
  try_map (λ a, map_err (g a) (f a)) l = Ok k ↔ Forall2 (λ a b, f a = Ok b) l k.
Proof.
  rewrite try_map_Ok_iff. split; (intros H; eapply Forall2_impl; [exact H|]); intros a b; simpl;
    destruct (f a); simpl; congruence.
Qed.

Lemma saturating_le w a b m : m < umax w → saturating_add w a b ≤ m ↔ a + b ≤ m.
Proof. unfold saturating_add. lia. Qed.

Lemma saturating_exact w a b m : m < umax w → a + b ≤ m → saturating_add w a b = a + b.
Proof. unfold saturating_add. lia. Qed.

Lemma reject_if_iff {E} b (e : E) : reject_if b e = Ok tt ↔ b = false.
Proof. by destruct b. Qed.

Lemma map_err_Ok {E F A} (f : E → F) (r : result E A) a : map_err f r = Ok a ↔ r = Ok a.
Proof. destruct r; simpl; split; congruence. Qed.

Lemma ok_or_Ok {E A} (e : E) (o : option A) a : ok_or e o = Ok a ↔ o = Some a.
Proof. destruct o; simpl; split; congruence. Qed.

Lemma bind_Ok {E A B} (r : result E A) (f : A → result E B) b :
  (a ← r; f a) = Ok b ↔ ∃ a, r = Ok a ∧ f a = Ok b.
Proof. destruct r as [a|e]; simpl; [|by split; [|intros (? & ? & ?)]]. split; [eauto | by intros (? & [= <-] & ?)]. Qed.

Lemma reject_bind_Ok {E B} b (e : E) (r : result E B) x :
  (_ ← reject_if b e; r) = Ok x ↔ b = false ∧ r = Ok x.
Proof. destruct b; simpl; split; [done | by intros [? _] | done | by intros [_ ?]]. Qed.

Lemma TunnelId_parse_Ok s id : TunnelId_parse s = Ok id ↔ s = id ∧ validate_opaque_control_token id = Ok tt.
Proof.
  unfold TunnelId_parse. rewrite bind_Ok. split.
  - intros ([] & Hv & [= ->]). done.
  - intros [-> Hv]. by exists tt.
Qed.

Lemma len_Forall2 {A B} (R : A → B → Prop) l k : Forall2 R l k → len l = len k.
Proof. intros HR. apply Forall2_length in HR. unfold len. lia. Qed.

(** A Tunnel is accepted exactly when it denotes a configuration entry that the totals
    still have room for. *)
Lemma parse_server_tunnel_Ok index raw ls h0 i0 t h i :
  limits_bounded ls →
  parse_server_tunnel index raw ls h0 i0 = Ok (t, h, i) ↔
  tunnel_of ls raw t ∧
  h = h0 + len (public_hostnames t) ∧ i = i0 + len (authorized_client_identities t) ∧
  h ≤ max_public_hostnames_total ls ∧ i ≤ max_client_identities_total ls.
Proof.
  intros [[_ Hh] [_ Hi]]. unfold parse_server_tunnel. split.
  - intros H. apply bind_Ok in H as (id & Hid%ok_or_Ok & H).
    apply bind_Ok in H as (id' & [-> Hv]%map_err_Ok%TunnelId_parse_Ok & H).
    apply bind_Ok in H as (hs & Hhs%ok_or_Ok & [Hne%bool_decide_eq_false H]%reject_bind_Ok).
    apply bind_Ok in H as (cs & Hcs%ok_or_Ok & [Hne'%bool_decide_eq_false H]%reject_bind_Ok).
    apply reject_bind_Ok in H as [H1%Z.ltb_ge [H2%Z.ltb_ge H]%reject_bind_Ok].
    apply reject_bind_Ok in H as [H3%Z.ltb_ge [H4%Z.ltb_ge H]%reject_bind_Ok].
    apply bind_Ok in H as (hosts & Fh%try_map_err_Forall2 & H).
    apply bind_Ok in H as (ids & Fi%try_map_err_Forall2 & [= <- <- <-]).
    rewrite saturating_le in H3, H4 by done. simpl.
    rewrite <- (len_Forall2 _ _ _ Fh), <- (len_Forall2 _ _ _ Fi).
    rewrite !(saturating_exact _ _ _ _ Hh H3), !(saturating_exact _ _ _ _ Hi H4).
    split_and!; try done. split; eauto 10.
  - intros ([(id & Hid & Hv & Ht) (hs & Hhs & Hne & H1 & Fh) (cs & Hcs & Hne' & H2 & Fi)] & -> & -> & H3 & H4).
    rewrite <- (len_Forall2 _ _ _ Fh) in *. rewrite <- (len_Forall2 _ _ _ Fi) in *.
    rewrite Hid. step. unfold TunnelId_parse. rewrite Hv. step. rewrite Hhs, Hcs. step.
    rewrite !bool_decide_false by done. step.
    rewrite (saturating_exact _ _ _ _ Hh H3), (saturating_exact _ _ _ _ Hi H4).
    rewrite (proj2 (Z.ltb_ge _ _) H1), (proj2 (Z.ltb_ge _ _) H2), (proj2 (Z.ltb_ge _ _) H3), (proj2 (Z.ltb_ge _ _) H4).
    step.
    rewrite (proj2 (try_map_err_Forall2 _ _ _ _) Fh). step.
    rewrite (proj2 (try_map_err_Forall2 _ _ _ _) Fi). step. destruct t. simpl in *. by subst.
Qed.

Lemma imap_zip_seq {A} (l : list A) n : imap (λ i a, ((n + i)%nat, a)) l = zip (seq n (length l)) l.
Proof.
  revert n. induction l as [|x l IH]; intros n; [done|]. cbn [imap length seq zip zip_with].
  rewrite Nat.add_0_r, <- IH. f_equal. apply imap_ext. intros i a _. simpl. f_equal. lia.
Qed.

Lemma enumerate_zip {A} (l : list A) : enumerate l = zip (seq 0 (length l)) l.
Proof. rewrite <- imap_zip_seq. done. Qed.

Lemma tunnels_loop ls raws : limits_bounded ls → ∀ n acc h0 i0 ts h i,
  h0 ≤ max_public_hostnames_total ls → i0 ≤ max_client_identities_total ls →
  try_fold (parse_tunnel_step ls) (acc, h0, i0) (zip (seq n (length raws)) raws) = Ok (ts, h, i) ↔
  ∃ new, ts = acc ++ new ∧ Forall2 (tunnel_of ls) raws new ∧
    h = h0 + len (all_hostnames new) ∧ i = i0 + len (all_identities new) ∧
    h ≤ max_public_hostnames_total ls ∧ i ≤ max_client_identities_total ls.
Proof.
  intros Hb. induction raws as [|raw raws IH]; intros n acc h0 i0 ts h i Hh0 Hi0; cbn [length seq zip zip_with try_fold].
  - split.
    + intros [= <- <- <-]. exists []. rewrite app_nil_r. unfold len. simpl. split_and!; done || lia.
    + intros (new & -> & Hnew & -> & -> & _). apply Forall2_nil_inv_l in Hnew as ->.
      rewrite app_nil_r. unfold len. simpl. by rewrite !Z.add_0_r.
  - split.
    + intros H. apply bind_Ok in H as ([[acc' h'] i'] & Hstep & H). unfold parse_tunnel_step in Hstep. simpl in Hstep.
      apply bind_Ok in Hstep as ([[t ht] it] & Ht & [= <- <- <-]).
      apply parse_server_tunnel_Ok in Ht as (Hof & -> & -> & Hhb & Hib); [|done].
      apply IH in H as (new & -> & Hnew & -> & -> & ?); [|done..]. exists (t :: new).
      unfold all_hostnames, all_identities in *. rewrite !bind_cons, !len_app, <- app_assoc.
      split_and!; try done; try lia. by constructor.
    + intros (new & -> & Hnew & -> & -> & Hhb & Hib). apply Forall2_cons_inv_l in Hnew as (t & new' & Hof & Hnew & ->).
      unfold all_hostnames, all_identities in *. rewrite !bind_cons, !len_app in *.
      pose proof (len_nonneg (new' ≫= public_hostnames)). pose proof (len_nonneg (new' ≫= authorized_client_identities)).
      unfold parse_tunnel_step. simpl.
      rewrite (proj2 (parse_server_tunnel_Ok n raw ls h0 i0 t _ _ Hb)) by (split_and!; [done..|lia|lia]).
      step. apply IH; [lia..|]. exists new'. rewrite <- app_assoc. split_and!; try done; lia.
Qed.

Lemma tunnel_of_ids ls raws ts :
  Forall2 (tunnel_of ls) raws ts → ∃ ids, Some <$> ids = tunnel_id <$> ts.
Proof.
  induction 1 as [|raw t raws ts [(id & _ & _ & Ht) _ _] _ [ids Hids]]; [by exists []|].
  exists (id :: ids). rewrite !fmap_cons. by rewrite Ht, Hids.
Qed.

Lemma tunnel_of_identities ls raws ts :
  Forall2 (tunnel_of ls) raws ts → Forall identity_wf (all_identities ts).
Proof.
  unfold all_identities. induction 1 as [|raw t raws ts [_ _ (cs & _ & _ & _ & Hf)] _ IH]; [constructor|].
  rewrite bind_cons. apply Forall_app. split; [|done]. clear IH. induction Hf as [|s i cs is' Hi _ IH]; [constructor|].
  constructor; [|done]. by apply identity_from_str_iff in Hi as [_ ?].
Qed.

Section Accepted.
Context {U : Type} `{UuidOps U} `{SerdeOps}.

(** What the optional fields of a Server input say. *)
Definition replacement_is (v : json) (g : option U) : Prop :=
  match json_get (bs "replacement_generation") v with
  | None => g = None
  | Some value => ∃ s u, value = JString s ∧ ServerRuntimeGeneration_parse s = Some u ∧ g = Some u
  end.
Definition drain_is (v : json) (d : bool) : Prop :=
  match json_get (bs "drain") v with None => d = false | Some value => value = JBool d end.

Lemma parse_replacement_Ok v g : parse_replacement v = Ok g ↔ replacement_is v g.
Proof.
  unfold parse_replacement, replacement_is. destruct (json_get _ v) as [value|]; [|split; congruence].
  rewrite bind_Ok. split.
  - intros (u & Hu%ok_or_Ok & [= <-]). apply bind_Some in Hu as (s & Hs & Hu). destruct value; simplify_eq. eauto.
  - intros (s & u & -> & Hu & ->). exists u. simpl. by rewrite Hu.
Qed.

Lemma parse_drain_Ok v d : parse_drain v = Ok d ↔ drain_is v d.
Proof.
  unfold parse_drain, drain_is. destruct (json_get _ v) as [[]|]; simpl; split; congruence.
Qed.

Lemma check_array_Ok key missing shape limit max v :
  check_array key missing shape limit max v = Ok tt ↔
  ∃ items, json_get key v = Some (JArray items) ∧ len items ≤ max.
Proof.
  unfold check_array. destruct (json_get key v) as [[]|]; try (split; [done | by intros (? & ? & _)]).
  rewrite reject_if_iff, Z.ltb_ge. split; [eauto | by intros (? & [= ->] & ?)].
Qed.

(** The inputs a Server accepts, and what it makes of them. *)
Record server_input (v : json) (ls : ManagedSessionLimits) (r : ServerManagedInput (U := U)) : Prop := {
  si_array : ∃ items, json_get (bs "tunnels") v = Some (JArray items) ∧ len items ≤ max_tunnels ls;
  si_replacement : replacement_is v (input_replacement r);
  si_drain : drain_is v (drain r);
  si_tunnels : ∃ raws, from_value_tunnels v = Some (Some raws) ∧ Forall2 (tunnel_of ls) raws (tunnels r);
  si_hostnames : len (all_hostnames (tunnels r)) ≤ max_public_hostnames_total ls;
  si_identities : len (all_identities (tunnels r)) ≤ max_client_identities_total ls;
  si_unique_ids : ∃ ids, Some <$> ids = tunnel_id <$> tunnels r ∧ NoDup ids;
  si_unique_hostnames : NoDup (all_hostnames (tunnels r));
  si_unique_identities : NoDup (all_identities (tunnels r))
}.

Lemma parse_server_input_iff v ls r :
  limits_bounded ls → parse_server_input v ls = Ok r ↔ server_input v ls r.
Proof.
  intros Hb. pose proof Hb as [[Hz _] [Hz' _]]. unfold parse_server_input. split.
  - intros Hp. apply bind_Ok in Hp as ([] & Harr%check_array_Ok & Hp).
    apply bind_Ok in Hp as (g & Hg%parse_replacement_Ok & Hp). apply bind_Ok in Hp as (d & Hd%parse_drain_Ok & Hp).
    apply bind_Ok in Hp as (raw & Hraw%ok_or_Ok & Hp). apply bind_Ok in Hp as (raws & Hraws%ok_or_Ok & Hp). subst raw.
    apply bind_Ok in Hp as ([[ts h] i] & Hloop & Hp). rewrite enumerate_zip in Hloop.
    apply tunnels_loop in Hloop as (new & -> & Hnew & -> & -> & Hh & Hi); [|done..]. simpl in *.
    apply bind_Ok in Hp as ([] & Hu1 & Hp). apply bind_Ok in Hp as ([] & Hu2 & Hp).
    apply bind_Ok in Hp as ([] & Hu3 & [= <-]).
    destruct (tunnel_of_ids _ _ _ Hnew) as [ids Hids].
    split; simpl; try done; eauto.
    + exists ids. split; [done|]. by apply (unique_ids new ids).
    + by apply unique_hostnames.
    + apply unique_identities; [by eapply tunnel_of_identities | done].
  - intros [Harr Hg Hd (raws & Hraws & Hnew) Hh Hi (ids & Hids & Hu1) Hu2 Hu3].
    rewrite (proj2 (check_array_Ok _ _ _ _ _ _) Harr), (proj2 (parse_replacement_Ok _ _) Hg),
      (proj2 (parse_drain_Ok _ _) Hd), Hraws. step. rewrite enumerate_zip.
    rewrite (proj2 (tunnels_loop ls raws Hb 0 [] 0 0 (tunnels r) (len (all_hostnames (tunnels r)))
      (len (all_identities (tunnels r))) Hz Hz')) by eauto 10.
    step. rewrite (proj2 (unique_ids _ _ Hids) Hu1), (proj2 (unique_hostnames _) Hu2).
    rewrite (proj2 (unique_identities _ (tunnel_of_identities _ _ _ Hnew)) Hu3). step. by destruct r.
Qed.

End Accepted.

(** *** Addresses and envelopes *)

Section Lemmas.
Context `{SerdeOps}.

Lemma try_map_enumerate_Ok {E F A B} (f : A → result E B) (g : nat → A → E → F) l k :
  try_map (λ ia : nat * A, map_err (g ia.1 ia.2) (f ia.2)) (enumerate l) = Ok k ↔ Forall2 (λ a b, f a = Ok b) l k.
Proof.
  rewrite (try_map_err_Forall2 (λ ia : nat * A, f ia.2) (λ ia, g ia.1 ia.2)), enumerate_zip. generalize 0%nat.
  revert k. induction l as [|a l IH]; intros k n; cbn [length seq zip zip_with].
  - split; intros Hf; apply Forall2_nil_inv_l in Hf as ->; constructor.
  - split; intros Hf; apply Forall2_cons_inv_l in Hf as (b & k' & Hb & Hf & ->); constructor; try done; by eapply IH.
Qed.

(** A Client input is accepted exactly when it lists few enough, valid and distinct
    Server addresses. *)
Lemma parse_client_input_iff v ls r :
  parse_client_input v ls = Ok r ↔
  (∃ items, json_get (bs "server_addresses") v = Some (JArray items) ∧ len items ≤ max_server_addresses ls) ∧
  (∃ raws, from_value_addresses v = Some (Some raws) ∧
     Forall2 (λ a b, ServerAddress_parse a = Ok b) raws (server_addresses r)) ∧
  NoDup (server_addresses r).
Proof.
  assert (∀ raws l, Forall2 (λ a b, ServerAddress_parse a = Ok b) raws l →
    Forall (λ a, 0 ≤ sa_port a ≤ u16_max) l) as Hports.
  { intros raws l Hf. induction Hf as [|x y ? ? Hxy _ IH]; [constructor|].
    constructor; [|done]. by apply ServerAddress_parse_sound in Hxy as [_ ?]. }
  unfold parse_client_input. split.
  - intros Hp. apply bind_Ok in Hp as ([] & Harr%check_array_Ok & Hp).
    apply bind_Ok in Hp as (raw & Hraw%ok_or_Ok & Hp). apply bind_Ok in Hp as (raws & Hraws%ok_or_Ok & Hp). subst raw.
    apply bind_Ok in Hp as (l & Hl & Hp).
    apply (try_map_enumerate_Ok ServerAddress_parse (λ i a e, InvalidShape (InvalidAddress i a e))) in Hl.
    apply bind_Ok in Hp as ([] & Hu & [= <-]). simpl. split_and!; [done | by eauto |].
    by apply unique_addresses; [eapply Hports|].
  - intros (Harr & (raws & Hraws & Hf) & Hnd).
    rewrite (proj2 (check_array_Ok _ _ _ _ _ _) Harr), Hraws. step.
    rewrite (proj2 (try_map_enumerate_Ok ServerAddress_parse (λ i a e, InvalidShape (InvalidAddress i a e)) _ _) Hf).
    step. rewrite (proj2 (unique_addresses _ (Hports _ _ Hf)) Hnd). step. by destruct r.
Qed.

(** An accepted envelope has a valid revision and an object, within the byte limits. *)
Lemma parse_snapshot_event_Ok ty data ls env :
  parse_snapshot_event ty data ls = Ok env →
  ty = Some (bs "snapshot") ∧ len data ≤ max_snapshot_bytes ls ∧
  validate_opaque_control_token (env_revision env) = Ok tt ∧
  chars_count (env_revision env) ≤ max_revision_chars ls ∧
  is_object (env_input env) = true ∧
  saturating_add usize_bits (len data) (estimate_json_allocation (env_input env)) ≤ max_decoded_allocation_bytes ls.
Proof.
  unfold parse_snapshot_event. intros Hp. apply bind_Ok in Hp as ([] & Hty & [Hl%Z.ltb_ge Hp]%reject_bind_Ok).
  apply bind_Ok in Hp as (raw & _ & Hp). apply bind_Ok in Hp as (rev & _ & [Hc%Z.ltb_ge Hp]%reject_bind_Ok).
  apply bind_Ok in Hp as ([] & Hv%map_err_Ok & Hp).
  apply bind_Ok in Hp as (input & _ & [Ho%negb_false_iff [Hd%Z.ltb_ge [= <-]]%reject_bind_Ok]%reject_bind_Ok).
  split_and!; try done. destruct ty as [ty|]; [|done].
  apply reject_if_iff, bool_decide_eq_false, dec_stable in Hty. by subst.
Qed.

End Lemmas.

(** ** A concrete deserializer *)

(** Objects as [serde] reads them into structs of optional fields. *)
Module ToySerde.

Definition toy_string (v : json) : option bytes := match v with JString s => Some s | _ => None end.
Definition toy_list {A} (f : json → option A) (v : json) : option (list A) :=
  match v with JArray items => mapM f items | _ => None end.
Definition toy_field {A} (key : bytes) (f : json → option A) (v : json) : option (option A) :=
  match json_get key v with
  | None | Some JNull => Some None
  | Some x => Some <$> f x
  end.
Definition toy_tunnel (v : json) : option RawServerTunnel :=
  id ← toy_field (bs "id") toy_string v;
  hs ← toy_field (bs "public_hostnames") (toy_list toy_string) v;
  cs ← toy_field (bs "client_identities") (toy_list toy_string) v;
  Some (mkRawTunnel id hs cs).

#[export] Instance toy_serde : SerdeOps := {
  from_str_snapshot s := Some (mkRawSnapshot (Some s) (Some (JObject [])));
  from_value_tunnels := toy_field (bs "tunnels") (toy_list toy_tunnel);
  from_value_addresses := toy_field (bs "server_addresses") (toy_list toy_string)
}.

Definition toy_identity : bytes :=
  bs "00112233445566778899aabbccddeeff00112233445566778899aabbccddeeff".
Definition toy_input : json :=
  JObject [(bs "tunnels", JArray [JObject [(bs "id", JString (bs "a"));
    (bs "public_hostnames", JArray [JString (bs "App.Example.")]);
    (bs "client_identities", JArray [JString toy_identity])]])].
Definition toy_result : ServerManagedInput (U := bool) :=
  mkServerInput [mkTunnel (Some (bs "a")) [bs "app.example"]
    [match ClientIdentity_from_str toy_identity with Ok i => i | Err _ => [] end]] None false.

End ToySerde.
Import ToyWire ToySerde.

Lemma default_limits_bounded : limits_bounded default_session_limits.
Proof. by vm_compute. Qed.

(** ** Properties *)

(** C29: a Server input is accepted exactly when [tunnels] is an array within the
    limit, every Tunnel denotes a configuration entry (a valid ID, at least one and not
    too many hostnames and identities, each of them valid), the totals are within their
    limits, no ID, hostname or identity repeats after normalization, and the optional
    fields are well formed; the result is what those entries denote. *)
Theorem server_input_accepted_iff {U} `{UuidOps U} `{SerdeOps} v ls (r : ServerManagedInput (U := U)) :
  limits_bounded ls → parse_server_input v ls = Ok r ↔ server_input v ls r.
Proof. apply parse_server_input_iff. Qed.

Lemma server_input_accepted_iff_witness : server_input toy_input default_session_limits toy_result.
Proof.
  apply (server_input_accepted_iff toy_input default_session_limits toy_result);
    [apply default_limits_bounded | by vm_compute].
Defined.

(** After that validation the Server's own hostname is the only thing that can make
    the authorization reject the Tunnels of a snapshot. *)
Theorem accepted_input_authorizes {U} `{UuidOps U} `{SerdeOps} v ls (r : ServerManagedInput (U := U)) sh :
  limits_bounded ls → parse_server_input v ls = Ok r →
  (∃ s, try_from_managed_tunnels sh (tunnels r) = Ok s) ↔ sh ∉ all_hostnames (tunnels r).
Proof.
  intros Hb Hp. apply parse_server_input_iff in Hp as [_ _ _ (raws & _ & Hnew) _ _ Hids Hu2 Hu3]; [|done].
  rewrite managed_accepts_iff. unfold tunnels_valid. split; [by intros [(_ & _ & _ & ?) _]|].
  intros Hsh. split_and!; try done. clear - Hnew.
  induction Hnew as [|raw t raws ts [_ (hs & _ & Hne & _ & Hf) _] _ IH]; constructor; [|done].
  intros Heq. rewrite Heq in Hf. by apply Forall2_nil_inv_r in Hf.
Qed.

Lemma accepted_input_authorizes_witness :
  ∃ s, try_from_managed_tunnels (bs "server.test") (tunnels toy_result) = Ok s.
Proof.
  apply (accepted_input_authorizes toy_input default_session_limits toy_result);
    [apply default_limits_bounded | by vm_compute |].
  apply (bool_decide_unpack _). by vm_compute.
Defined.
