(* ===== verification/Session.v ===== *)
(** * Session: one Managed session with Control

    The connection lifecycle of a Managed session: snapshots collapse to the newest
    one, one apply at a time, state documents that report what was applied, deadlines,
    and the reconnect loop around it ([src/managed_session/lifecycle.rs],
    [reconcile.rs], [timing.rs], [session.rs], [adapter.rs]).

    The state machine is driven by what [select!] observes.  Each resumption reads the
    clock once; instants and durations are in nanoseconds.  The [on_event] callback
    only records. *)

From Stdlib Require Import Ascii ZArith Lia.
From stdpp Require Import base strings numbers gmap list relations.
From S2P Require Import Prelude Text Names Sse Capacity ManagedInput.

Local Open Scope Z_scope.
Local Set Warnings "-clear-no-such-hyp".

Import Limits Snapshot Input Retry.

(** ** Reconciliation *)
Module Reconcile.

(** [AppliedRevision]. *)
Definition matches (applied : option bytes) (revision : bytes) : bool :=
  bool_decide (applied = Some revision).

Record QueuedSnapshot (I : Type) : Type := mkQueued { revision : bytes; input : I }.
Arguments mkQueued {I}.
Arguments revision {I}.
Arguments input {I}.

Record SnapshotQueue (I : Type) : Type := mkQueue { pending : option (QueuedSnapshot I); applying : bool }.
Arguments mkQueue {I}.
Arguments pending {I}.
Arguments applying {I}.

Definition queue_new {I} : SnapshotQueue I := mkQueue None false.

(** [None] is a failed [debug_assert!]. *)
Definition note_while_applying {I} (snapshot : QueuedSnapshot I) (q : SnapshotQueue I) :
    option (SnapshotQueue I * option bytes) :=
  if applying q then Some (mkQueue (Some snapshot) (applying q), revision <$> pending q) else None.
Definition note_when_idle {I} (snapshot : QueuedSnapshot I) (q : SnapshotQueue I) :
    option (SnapshotQueue I * option bytes) :=
  if applying q then None else Some (mkQueue (Some snapshot) (applying q), revision <$> pending q).

Definition take_next {I} (q : SnapshotQueue I) : SnapshotQueue I * option (QueuedSnapshot I) :=
  if applying q then (q, None)
  else match pending q with
       | None => (q, None)
       | Some next => (mkQueue None true, Some next)
       end.

Definition finish_apply {I} (q : SnapshotQueue I) : SnapshotQueue I := mkQueue (pending q) false.

End Reconcile.
Import Reconcile.

(** ** Deadlines *)
Module Timing.

Definition secs (n : Z) : Z := n * nanos_per_sec.
Definition FIRST_SNAPSHOT_DEADLINE : Z := secs 60.
Definition SILENCE_TIMEOUT : Z := secs 60.

Record SessionDeadlines : Type := mkDeadlines {
  first_snapshot_deadline : Z;
  silence_deadline : Z;
  received_first_snapshot : bool
}.

Definition deadlines_new (now : Z) : SessionDeadlines :=
  mkDeadlines (now + FIRST_SNAPSHOT_DEADLINE) (now + SILENCE_TIMEOUT) false.

Definition note_bytes (now : Z) (d : SessionDeadlines) : SessionDeadlines :=
  mkDeadlines (first_snapshot_deadline d) (now + SILENCE_TIMEOUT) (received_first_snapshot d).

Definition try_note_valid_snapshot (now : Z) (d : SessionDeadlines) : SessionDeadlines * bool :=
  if negb (received_first_snapshot d) && (first_snapshot_deadline d <=? now) then (d, false)
  else (note_bytes now (mkDeadlines (first_snapshot_deadline d) (silence_deadline d) true), true).

Definition expired (now : Z) (d : SessionDeadlines) : bool :=
  if negb (received_first_snapshot d) && (first_snapshot_deadline d <=? now) then true
  else silence_deadline d <=? now.

Definition next_deadline (d : SessionDeadlines) : Z :=
  if received_first_snapshot d then silence_deadline d
  else Z.min (first_snapshot_deadline d) (silence_deadline d).

Definition next_wait (d : SessionDeadlines) (now : Z) : Z :=
  let wait := saturating_sub (next_deadline d) now in
  if wait =? 0 then 1000000 else wait.

End Timing.
Import Timing.

(** ** The lifecycle of one connection *)
Module Lifecycle.

(** What a role brings to the session; its [apply] reports back through
    [ApplyFinished]. *)
Class RoleAdapter (I : Type) : Type := {
  parse_input : json → ManagedSessionLimits → result InputError I
}.

Inductive ManagedSessionEvent : Type :=
| EvSnapshot (revision : bytes)
| EvApplying (revision : bytes)
| EvApplied (revision : bytes)
| EvRejected (revision : bytes)
| EvSuperseded (revision : bytes)
| EvReconnecting (display_delay_secs : Z).

Inductive ManagedSessionError : Type :=
| ErrConnection
| ErrSse (e : Parser.SseParseError)
| ErrSnapshot (e : SnapshotError)
| SilenceTimeout
| FirstSnapshotTimeout
| StateAcknowledgmentTimeout
| ErrInputLimit (e : InputError)
| StreamEnded.

Inductive ConnectionPhase : Type := Idle | Applying (revision : bytes).

Record ReportState : Type := mkReport {
  in_flight : bool;
  report_pending : bool;
  report_revision : option bytes;
  last_started : option Z
}.

Definition STATE_REQUEST_SPACING : Z := secs 1.
Definition next_start_at (r : ReportState) : option Z := (λ t, t + STATE_REQUEST_SPACING) <$> last_started r.
Definition spacing_wait (r : ReportState) : option Z :=
  if report_pending r && negb (in_flight r) && bool_decide (is_Some (report_revision r))
  then next_start_at r else None.

(** The connection, the applied revision it shares with the session, and two traces:
    the events emitted and the state documents started on this connection. *)
Record State (I : Type) : Type := mkState {
  parser : Parser.SseParser;
  deadlines : SessionDeadlines;
  received_valid_snapshot : bool;
  queue : SnapshotQueue I;
  report : ReportState;
  phase : ConnectionPhase;
  applied : option bytes;
  events : list ManagedSessionEvent;
  documents : list (Z * bytes)
}.
Arguments mkState {I}.
Arguments parser {I}.
Arguments deadlines {I}.
Arguments received_valid_snapshot {I}.
Arguments queue {I}.
Arguments report {I}.
Arguments phase {I}.
Arguments applied {I}.
Arguments events {I}.
Arguments documents {I}.

Inductive outcome (I : Type) : Type :=
| Running (s : State I)
| Failed (e : ManagedSessionError) (s : State I)
| Panicked
| NotEnabled.
Arguments Running {I}.
Arguments Failed {I}.
Arguments Panicked {I}.
Arguments NotEnabled {I}.

Definition and_then {I} (o : outcome I) (f : State I → outcome I) : outcome I :=
  match o with Running s => f s | o => o end.

Section Machine.
Context {I : Type} `{RoleAdapter I} `{SerdeOps} (limits : ManagedSessionLimits) (has_role_state : bool).

Definition with_parser (p : Parser.SseParser) (d : SessionDeadlines) (s : State I) : State I :=
  mkState p d (received_valid_snapshot s) (queue s) (report s) (phase s) (applied s) (events s) (documents s).
Definition with_queue (q : SnapshotQueue I) (s : State I) : State I :=
  mkState (parser s) (deadlines s) (received_valid_snapshot s) q (report s) (phase s) (applied s)
    (events s) (documents s).
Definition with_report (r : ReportState) (docs : list (Z * bytes)) (s : State I) : State I :=
  mkState (parser s) (deadlines s) (received_valid_snapshot s) (queue s) r (phase s) (applied s)
    (events s) docs.
Definition with_phase (p : ConnectionPhase) (a : option bytes) (s : State I) : State I :=
  mkState (parser s) (deadlines s) (received_valid_snapshot s) (queue s) (report s) p a
    (events s) (documents s).
Definition emit (e : ManagedSessionEvent) (s : State I) : State I :=
  mkState (parser s) (deadlines s) (received_valid_snapshot s) (queue s) (report s) (phase s) (applied s)
    (events s ++ [e]) (documents s).

(** *** State documents *)

Definition drive_report (now : Z) (s : State I) : State I :=
  let r := report s in
  if in_flight r || negb (report_pending r) then s
  else match report_revision r with
       | None => s
       | Some revision =>
           if match next_start_at r with Some start_at => now <? start_at | None => false end then s
           else with_report (mkReport true false (Some revision) (Some now))
                  (documents s ++ [(now, revision)]) s
       end.

Definition schedule_report (now : Z) (revision : bytes) (s : State I) : State I :=
  let r := report s in
  drive_report now (with_report (mkReport (in_flight r) true (Some revision) (last_started r)) (documents s) s).

Definition note_role_state_changed (now : Z) (s : State I) : State I :=
  let r := report s in
  match report_revision r with
  | Some _ =>
      drive_report now
        (with_report (mkReport (in_flight r) true (report_revision r) (last_started r)) (documents s) s)
  | None => s
  end.

(** *** Snapshots *)

Definition accept_envelope (now : Z) (envelope : SnapshotEnvelope) (s : State I) : outcome I :=
  let is_applying := match phase s with Idle => false | Applying _ => true end in
  let revision := env_revision envelope in
  if negb is_applying && matches (applied s) revision then Running (schedule_report now revision s)
  else
    match parse_input (env_input envelope) limits with
    | Err (InputLimitExceeded limit value max) =>
        Failed (ErrInputLimit (InputLimitExceeded limit value max)) s
    | Err _ => Running (emit (EvRejected revision) s)
    | Ok i =>
        let note := if is_applying then note_while_applying else note_when_idle in
        match note (mkQueued revision i) (queue s) with
        | None => Panicked
        | Some (q, None) => Running (with_queue q s)
        | Some (q, Some superseded) => Running (emit (EvSuperseded superseded) (with_queue q s))
        end
    end.

Definition set_received (d : SessionDeadlines) (s : State I) : State I :=
  mkState (parser s) d true (queue s) (report s) (phase s) (applied s) (events s) (documents s).

(** The body of the loop over parsed items. *)
Definition ingest_item (now : Z) (item : Parser.SseParseItem) (s : State I) : outcome I :=
  match item with
  | Parser.Comment => Running s
  | Parser.Event event =>
      if bool_decide (Parser.ev_type event = None ∧ Parser.ev_data event = []) then Running s
      else
        match parse_snapshot_event (Parser.ev_type event) (Parser.ev_data event) limits with
        | Err e => Failed (ErrSnapshot e) s
        | Ok envelope =>
            let '(d, in_time) := try_note_valid_snapshot now (deadlines s) in
            if in_time then
              accept_envelope now envelope (emit (EvSnapshot (env_revision envelope)) (set_received d s))
            else Failed FirstSnapshotTimeout s
        end
  end.

Fixpoint ingest_items (now : Z) (items : list Parser.SseParseItem) (s : State I) : outcome I :=
  match items with
  | [] => Running s
  | item :: items' => and_then (ingest_item now item s) (ingest_items now items')
  end.

(** What [next_chunk] yields. *)
Inductive chunk : Type := ChunkBytes (b : bytes) | ChunkEnd | ChunkError.

Definition ingest_chunk (now : Z) (c : chunk) (s : State I) : outcome I :=
  match c with
  | ChunkError => Failed ErrConnection s
  | ChunkEnd => Failed StreamEnded s
  | ChunkBytes [] => Running s
  | ChunkBytes b =>
      let d := note_bytes now (deadlines s) in
      match Parser.push (parser s) b with
      | Err e => Failed (ErrSse e) (with_parser (parser s) d s)
      | Ok (p, items) => ingest_items now items (with_parser p d s)
      end
  end.

(** *** The loop *)

Definition handle_timer (now : Z) (s : State I) : option ManagedSessionError :=
  if expired now (deadlines s) then
    if negb (received_valid_snapshot s) && (first_snapshot_deadline (deadlines s) <=? now)
    then Some FirstSnapshotTimeout else Some SilenceTimeout
  else None.

(** [run_state_machine] up to the next [select!].  An idle pass may skip an equal
    revision and go around again, or start an apply, which enters the applying loop:
    three passes always reach [select!]. *)
Fixpoint settle_loop (fuel : nat) (now : Z) (s : State I) : outcome I :=
  match fuel with
  | O => NotEnabled
  | S fuel' =>
      let s := drive_report now s in
      match handle_timer now s with
      | Some e => Failed e s
      | None =>
          match phase s with
          | Applying _ => Running s
          | Idle =>
              match take_next (queue s) with
              | (_, None) => Running s
              | (q, Some next) =>
                  if matches (applied s) (revision next)
                  then settle_loop fuel' now
                         (schedule_report now (revision next) (with_queue (finish_apply q) s))
                  else settle_loop fuel' now
                         (emit (EvApplying (revision next))
                            (with_phase (Applying (revision next)) (applied s) (with_queue q s)))
              end
          end
      end
  end.
Definition settle : Z → State I → outcome I := settle_loop 3.

Inductive report_result : Type := ReportOk | ReportTimeout | ReportError.

(** What the branches of [select!] yield. *)
Inductive observation : Type :=
| ApplyFinished (ok : bool)
| TimerFired
| ChunkArrived (c : chunk)
| ReportFinished (r : report_result)
| SpacingElapsed
| RoleStateChanged.

Definition on_apply (now : Z) (ok : bool) (s : State I) : outcome I :=
  match phase s with
  | Idle => NotEnabled
  | Applying revision =>
      let s := if ok
               then schedule_report now revision
                      (emit (EvApplied revision) (with_phase Idle (Some revision) s))
               else emit (EvRejected revision) (with_phase Idle (applied s) s) in
      Running (with_queue (finish_apply (queue s)) s)
  end.

Definition on_report_finished (now : Z) (r : report_result) (s : State I) : outcome I :=
  if in_flight (report s) then
    let r0 := report s in
    let s := with_report (mkReport false (report_pending r0) (report_revision r0) (last_started r0))
               (documents s) s in
    match r with
    | ReportOk => Running (drive_report now s)
    | ReportTimeout => Failed StateAcknowledgmentTimeout s
    | ReportError => Failed ErrConnection s
    end
  else NotEnabled.

Definition observe (now : Z) (o : observation) (s : State I) : outcome I :=
  match o with
  | ApplyFinished ok => on_apply now ok s
  | TimerFired => match handle_timer now s with Some e => Failed e s | None => Running s end
  | ChunkArrived c => ingest_chunk now c s
  | ReportFinished r => on_report_finished now r s
  | SpacingElapsed =>
      match spacing_wait (report s) with
      | Some start_at => if start_at <=? now then Running s else NotEnabled
      | None => NotEnabled
      end
  | RoleStateChanged => if has_role_state then Running (note_role_state_changed now s) else NotEnabled
  end.

(** One resumption: an observation, then the loop until it suspends again. *)
Definition advance (now : Z) (o : observation) (s : State I) : outcome I :=
  and_then (observe now o s) (settle now).

(** [ConnectionLifecycle::connect]. *)
Definition lifecycle_new (now : Z) (applied : option bytes) : State I :=
  mkState (Parser.new (sse_limits limits)) (deadlines_new now) false queue_new
    (mkReport false false None None) Idle applied [] [].

(** Whether a chunk completes at most one event. *)
Definition completes_one (o : observation) (s : State I) : bool :=
  match o with
  | ChunkArrived (ChunkBytes b) =>
      match Parser.push (parser s) b with
      | Ok (_, items) => (length (List.filter (λ i, match i with Parser.Event _ => true | _ => false end) items) <=? 1)%nat
      | Err _ => true
      end
  | _ => true
  end.

(** The states of a connection that started connecting at [started] with [applied0],
    suspended since [now].  With [one], every chunk that arrives while idle completes
    at most one event. *)
Inductive conn_run (one : bool) (started : Z) (applied0 : option bytes) : Z → State I → Prop :=
| run_start now s :
    started ≤ now → settle now (lifecycle_new started applied0) = Running s →
    conn_run one started applied0 now s
| run_advance now0 s now o s' :
    conn_run one started applied0 now0 s → now0 ≤ now →
    (one = true → phase s = Idle → completes_one o s = true) →
    advance now o s = Running s' → conn_run one started applied0 now s'.

(** *** The reconnect loop *)

Context {R : Type} (next_u64 : R → Z * R).

(** Between connections, or with a connection that began connecting at [started] and is
    suspended since [now].  [session_applied] is the applied revision at its start, and
    its events are not yet part of [session_events]. *)
Record SessionState : Type := mkSession {
  connection : option (Z * Z * State I);
  session_applied : option bytes;
  session_events : list ManagedSessionEvent;
  reconnect : ReconnectPolicy (R := R)
}.

Definition session_new (r : R) : SessionState := mkSession None None [] (new_with_rng r).

(** The end of [run_one_connection] and the event before the retry delay; [None] is an
    out-of-bounds panic. *)
Definition end_connection (received : bool) (applied : option bytes) (events : list ManagedSessionEvent)
    (st : SessionState) : option SessionState :=
  let policy := if received then reset (reconnect st) else reconnect st in
  '(retry, policy) ← next_retry next_u64 policy;
  Some (mkSession None applied
          (session_events st ++ events ++ [EvReconnecting (display_delay_secs retry)]) policy).

Inductive session_step : SessionState → SessionState → Prop :=
| connect_failed st st' :
    connection st = None → end_connection false (session_applied st) [] st = Some st' → session_step st st'
| connected st started now s :
    connection st = None → started ≤ now →
    settle now (lifecycle_new started (session_applied st)) = Running s →
    session_step st (mkSession (Some (started, now, s)) (session_applied st) (session_events st) (reconnect st))
| connected_late st started now e s st' :
    connection st = None → started ≤ now →
    settle now (lifecycle_new started (session_applied st)) = Failed e s →
    end_connection (received_valid_snapshot s) (applied s) (events s) st = Some st' → session_step st st'
| observed st started now0 s now o s' :
    connection st = Some (started, now0, s) → now0 ≤ now → advance now o s = Running s' →
    session_step st (mkSession (Some (started, now, s')) (session_applied st) (session_events st) (reconnect st))
| disconnected st started now0 s now o e s' st' :
    connection st = Some (started, now0, s) → now0 ≤ now → advance now o s = Failed e s' →
    end_connection (received_valid_snapshot s') (applied s') (events s') st = Some st' → session_step st st'.

Definition session_reachable (st : SessionState) : Prop := ∃ r, rtc session_step (session_new r) st.

End Machine.
End Lifecycle.
Import Lifecycle.

(** ** Invariants of a connection *)

(** Consecutive documents are at least [STATE_REQUEST_SPACING] apart. *)
Definition spaced (docs : list (Z * bytes)) : Prop :=
  ∀ (i : nat) a b, docs !! i = Some a → docs !! S i = Some b → a.1 + STATE_REQUEST_SPACING ≤ b.1.

Definition is_applying (p : ConnectionPhase) : bool := match p with Idle => false | Applying _ => true end.

Record conn_inv {I} (started : Z) (applied0 : option bytes) (s : State I) : Prop := {
  ci_queue : applying (queue s) = is_applying (phase s);
  ci_received : received_valid_snapshot s = received_first_snapshot (deadlines s);
  ci_first : first_snapshot_deadline (deadlines s) = started + FIRST_SNAPSHOT_DEADLINE;
  ci_report : ∀ r, report_revision (report s) = Some r → applied s = Some r;
  ci_applied : ∀ r, applied s = Some r → applied0 = Some r ∨ EvApplied r ∈ events s;
  ci_documents : ∀ t r, (t, r) ∈ documents s → applied0 = Some r ∨ EvApplied r ∈ events s;
  ci_last : last_started (report s) = fst <$> last (documents s);
  ci_spaced : spaced (documents s)
}.

Lemma spaced_snoc docs d :
  spaced docs → (∀ x, last docs = Some x → x.1 + STATE_REQUEST_SPACING ≤ d.1) → spaced (docs ++ [d]).
Proof.
  intros Hs Hl i a b Ha Hb. apply lookup_app_Some in Hb as [Hb|[Hlen Hb]].
  - apply lookup_app_Some in Ha as [Ha|[Hge Ha]]; [by eapply Hs|]. apply lookup_lt_Some in Hb. lia.
  - apply list_lookup_singleton_Some in Hb as [Hi <-]. apply Hl. rewrite last_lookup.
    replace (pred (length docs)) with i by lia. rewrite lookup_app_l in Ha; [done|]. lia.
Qed.

Section Preservation.
Context {I : Type} (started : Z) (applied0 : option bytes).
Implicit Types s : State I.

(** Everything but the report and the documents. *)
Definition same_core s s' : Prop :=
  parser s' = parser s ∧ deadlines s' = deadlines s ∧
  received_valid_snapshot s' = received_valid_snapshot s ∧ queue s' = queue s ∧
  phase s' = phase s ∧ applied s' = applied s ∧ events s' = events s.

Lemma drive_report_core now s : same_core s (drive_report now s).
Proof. unfold drive_report. by repeat case_match. Qed.

Lemma drive_report_inv now s :
  conn_inv started applied0 s → conn_inv started applied0 (drive_report now s).
Proof.
  intros Hinv. unfold drive_report. destruct (in_flight (report s) || negb (report_pending (report s))); [done|].
  destruct (report_revision (report s)) as [r|] eqn:Er; [|done].
  destruct (match next_start_at (report s) with Some t => now <? t | None => false end) eqn:Ew; [done|].
  destruct Hinv. split; simpl; try done.
  - intros r' [= <-]. auto.
  - intros t r' [Hin|Hin%list_elem_of_singleton]%elem_of_app; [eauto|]. simplify_eq. auto.
  - by rewrite last_snoc.
  - apply spaced_snoc; [done|]. intros x Hx. unfold next_start_at in Ew. rewrite ci_last0, Hx in Ew. simpl in *. lia.
Qed.

Lemma with_pending_report_inv r s :
  conn_inv started applied0 s → (∀ rev, r = Some rev → applied s = Some rev) →
  conn_inv started applied0
    (with_report (mkReport (in_flight (report s)) true r (last_started (report s))) (documents s) s).
Proof. intros [] Hr. by split. Qed.

Lemma schedule_report_inv now r s :
  conn_inv started applied0 s → applied s = Some r → conn_inv started applied0 (schedule_report now r s).
Proof.
  intros Hinv Ha. unfold schedule_report. apply drive_report_inv, with_pending_report_inv; [done|].
  by intros rev [= <-].
Qed.

Lemma schedule_report_core now r s : same_core s (schedule_report now r s).
Proof.
  unfold schedule_report. match goal with |- same_core _ (drive_report _ ?x) => pose proof (drive_report_core now x) as Hc end.
  unfold same_core in *. by simpl in Hc.
Qed.

Lemma emit_inv e s : conn_inv started applied0 s → conn_inv started applied0 (emit e s).
Proof.
  intros []. split; simpl; try done.
  - intros r Hr. destruct (ci_applied0 r Hr); [by left|right]. apply elem_of_app. by left.
  - intros t r Hr. destruct (ci_documents0 t r Hr); [by left|right]. apply elem_of_app. by left.
Qed.

Lemma with_queue_inv q s :
  conn_inv started applied0 s → applying q = is_applying (phase s) → conn_inv started applied0 (with_queue q s).
Proof. intros [] Hq. by split. Qed.

Lemma with_parser_inv p d s :
  conn_inv started applied0 s → received_first_snapshot d = received_first_snapshot (deadlines s) →
  first_snapshot_deadline d = first_snapshot_deadline (deadlines s) →
  conn_inv started applied0 (with_parser p d s).
Proof. intros [] H1 H2. split; simpl; congruence || done. Qed.

Lemma set_received_inv now d s :
  conn_inv started applied0 s → try_note_valid_snapshot now (deadlines s) = (d, true) →
  conn_inv started applied0 (set_received d s).
Proof.
  intros [] Hd. unfold try_note_valid_snapshot in Hd. case_match; simplify_eq. by split.
Qed.

(** *** Snapshots and applies *)

Context `{RoleAdapter I} `{SerdeOps} (limits : ManagedSessionLimits) (has_role_state : bool).

(** The states an outcome carries. *)
Definition outcome_all (P : State I → Prop) (o : outcome I) : Prop :=
  match o with Running s | Failed _ s => P s | Panicked => False | NotEnabled => True end.

Lemma and_then_all P o f :
  outcome_all P o → (∀ s, P s → outcome_all P (f s)) → outcome_all P (and_then o f).
Proof. intros Ho Hf. destruct o; simpl in *; auto. Qed.

Lemma accept_envelope_inv now env s :
  conn_inv started applied0 s → outcome_all (conn_inv started applied0) (accept_envelope limits now env s).
Proof.
  intros Hinv. unfold accept_envelope.
  destruct (negb _ && _) eqn:Em.
  { simpl. apply schedule_report_inv; [done|]. apply andb_prop in Em as [_ Em]. by apply bool_decide_eq_true in Em. }
  destruct (parse_input (env_input env) limits) as [i|[| |e|k v m]]; simpl; try by apply emit_inv. 2: done.
  pose proof (ci_queue _ _ _ Hinv) as Hq.
  destruct (phase s) eqn:Ep; simpl in *; unfold note_when_idle, note_while_applying; rewrite Hq;
    destruct (pending (queue s)); simpl; try apply emit_inv; apply with_queue_inv; try done; by rewrite Ep.
Qed.

Lemma ingest_item_inv now item s :
  conn_inv started applied0 s → outcome_all (conn_inv started applied0) (ingest_item limits now item s).
Proof.
  intros Hinv. unfold ingest_item. destruct item as [|ev]; [done|]. destruct (bool_decide _); [done|].
  destruct (parse_snapshot_event _ _ _) as [env|e]; [|done].
  destruct (try_note_valid_snapshot now (deadlines s)) as [d [|]] eqn:Et; [|done].
  apply accept_envelope_inv, emit_inv. by eapply set_received_inv.
Qed.

Lemma ingest_items_inv now items s :
  conn_inv started applied0 s → outcome_all (conn_inv started applied0) (ingest_items limits now items s).
Proof.
  revert s. induction items as [|item items IH]; intros s Hinv; simpl; [done|].
  apply and_then_all; [by apply ingest_item_inv | done].
Qed.

Lemma ingest_chunk_inv now c s :
  conn_inv started applied0 s → outcome_all (conn_inv started applied0) (ingest_chunk limits now c s).
Proof.
  intros Hinv. unfold ingest_chunk. destruct c as [[|x b]| |]; try done.
  destruct (Parser.push (parser s) (x :: b)) as [[p items]|e]; simpl; [apply ingest_items_inv|]; by apply with_parser_inv.
Qed.

Lemma drive_report_with_queue now q s : with_queue q (drive_report now s) = drive_report now (with_queue q s).
Proof. unfold drive_report. simpl. by repeat case_match. Qed.

Lemma on_apply_inv now ok s :
  conn_inv started applied0 s → outcome_all (conn_inv started applied0) (on_apply now ok s).
Proof.
  intros Hinv. unfold on_apply. destruct (phase s) as [|r] eqn:Ep; [done|]. simpl. destruct ok.
  - unfold schedule_report. rewrite drive_report_with_queue. apply drive_report_inv.
    match goal with |- context [queue (drive_report now ?x)] =>
      destruct (drive_report_core now x) as (_ & _ & _ & -> & _) end.
    destruct Hinv. split; simpl; try done.
    + intros r' [= ->]. right. apply elem_of_app. right. by apply list_elem_of_singleton.
    + intros t r' Hr. destruct (ci_documents0 t r' Hr); [by left|right]. apply elem_of_app. by left.
  - destruct Hinv. split; simpl; try done.
    + intros r' Hr. destruct (ci_applied0 r' Hr); [by left|right]. apply elem_of_app. by left.
    + intros t r' Hr. destruct (ci_documents0 t r' Hr); [by left|right]. apply elem_of_app. by left.
Qed.

Lemma on_report_finished_inv now r s :
  conn_inv started applied0 s → outcome_all (conn_inv started applied0) (on_report_finished now r s).
Proof.
  intros Hinv. unfold on_report_finished. destruct (in_flight (report s)); [|done].
  assert (conn_inv started applied0 (with_report (mkReport false (report_pending (report s))
    (report_revision (report s)) (last_started (report s))) (documents s) s)) as H1 by (by destruct Hinv; split).
  destruct r; simpl; [by apply drive_report_inv | done..].
Qed.

Lemma note_role_state_changed_inv now s :
  conn_inv started applied0 s → conn_inv started applied0 (note_role_state_changed now s).
Proof.
  intros Hinv. unfold note_role_state_changed. destruct (report_revision (report s)) eqn:Er; [|done].
  apply drive_report_inv, with_pending_report_inv; [done|]. rewrite <- Er. apply Hinv.
Qed.

Lemma observe_inv now o s :
  conn_inv started applied0 s → outcome_all (conn_inv started applied0) (observe limits has_role_state now o s).
Proof.
  intros Hinv. destruct o; simpl.
  - by apply on_apply_inv.
  - by destruct (handle_timer now s).
  - by apply ingest_chunk_inv.
  - by apply on_report_finished_inv.
  - destruct (spacing_wait _); [|done]. by destruct (_ <=? _).
  - destruct has_role_state; [|done]. by apply note_role_state_changed_inv.
Qed.

(** *** Reaching [select!] *)

Lemma take_next_cases (q : SnapshotQueue I) :
  take_next q = (q, None) ∧ (applying q = true ∨ pending q = None) ∨
  ∃ next, pending q = Some next ∧ applying q = false ∧ take_next q = (mkQueue None true, Some next).
Proof.
  unfold take_next. destruct (applying q); [left; auto|].
  destruct (pending q) as [next|]; [right; eauto | left; auto].
Qed.

(** A suspended connection: nothing is due and, if idle, nothing is pending. *)
Definition suspended (now : Z) (s : State I) : Prop :=
  handle_timer now s = None ∧ (phase s = Idle → pending (queue s) = None).

Definition settled (now : Z) (o : outcome I) : Prop :=
  match o with
  | Running s => conn_inv started applied0 s ∧ suspended now s
  | Failed e s => conn_inv started applied0 s ∧ handle_timer now s = Some e
  | Panicked | NotEnabled => False
  end.

(** One pass of the loop. *)
Lemma settle_pass fuel now s :
  settle_loop (S fuel) now s =
  (let s := drive_report now s in
   match handle_timer now s, phase s, take_next (queue s) with
   | Some e, _, _ => Failed e s
   | None, Idle, (q, Some next) =>
       settle_loop fuel now
         (if matches (applied s) (revision next)
          then schedule_report now (revision next) (with_queue (finish_apply q) s)
          else emit (EvApplying (revision next))
                 (with_phase (Applying (revision next)) (applied s) (with_queue q s)))
   | None, _, _ => Running s
   end).
Proof.
  cbn [settle_loop]. destruct (handle_timer _ _); [done|]. destruct (phase _); [|done].
  destruct (take_next _) as [q [next|]]; [|done]. by destruct (matches _ _).
Qed.

Lemma settle_applying fuel now s r :
  conn_inv started applied0 s → phase s = Applying r → settled now (settle_loop (S fuel) now s).
Proof.
  intros Hinv Hp. cbn [settle_loop]. destruct (drive_report_core now s) as (_ & _ & _ & _ & Hp' & _).
  pose proof (drive_report_inv now s Hinv). destruct (handle_timer now (drive_report now s)) eqn:Et; [done|].
  rewrite Hp', Hp. simpl. split; [done|]. split; [done|]. by rewrite Hp', Hp.
Qed.

Lemma settle_empty fuel now s :
  conn_inv started applied0 s → phase s = Idle → pending (queue s) = None →
  settled now (settle_loop (S fuel) now s).
Proof.
  intros Hinv Hp Hq. cbn [settle_loop]. destruct (drive_report_core now s) as (_ & _ & _ & Hq' & Hp' & _).
  pose proof (drive_report_inv now s Hinv). destruct (handle_timer now (drive_report now s)) eqn:Et; [done|].
  rewrite Hp', Hp, Hq'. destruct (take_next_cases (queue s)) as [[-> _]|(next & Hn & _)]; [|congruence].
  split; [done|]. split; [done|]. by rewrite Hq'.
Qed.

Lemma settle_settled now s : conn_inv started applied0 s → settled now (settle now s).
Proof.
  intros Hinv. unfold settle. destruct (phase s) as [|r] eqn:Ep; [|by eapply settle_applying].
  destruct (pending (queue s)) as [next|] eqn:Eq; [|by apply settle_empty].
  rewrite settle_pass. destruct (drive_report_core now s) as (_ & _ & _ & Hq' & Hp' & Ha' & _). cbv zeta.
  pose proof (drive_report_inv now s Hinv) as Hinv'. destruct (handle_timer now (drive_report now s)) eqn:Et; [done|].
  rewrite Hp', Ep, Hq', Ha'. pose proof (ci_queue _ _ _ Hinv) as Hqa. rewrite Ep in Hqa. simpl in Hqa.
  destruct (take_next_cases (queue s)) as [[_ [Hc|Hc]]|(next' & Hn & _ & ->)]; [congruence..|].
  assert (next' = next) as -> by congruence.
  destruct (matches (applied s) (revision next)) eqn:Em.
  - destruct (schedule_report_core now (revision next) (with_queue (finish_apply (mkQueue None true)) (drive_report now s)))
      as (_ & _ & _ & Hq2 & Hp2 & _).
    apply settle_empty.
    + apply schedule_report_inv; [apply with_queue_inv; [done|by rewrite Hp', Ep]|].
      simpl. rewrite Ha'. by apply bool_decide_eq_true in Em.
    + rewrite Hp2. simpl. congruence.
    + by rewrite Hq2.
  - eapply (settle_applying 1). 2: done. apply emit_inv. destruct Hinv'. split; simpl; try done.
    + intros r Hr. rewrite <- Ha'. auto.
    + intros r Hr. rewrite <- Ha' in Hr. auto.
Qed.

Lemma advance_settled now o s :
  conn_inv started applied0 s →
  observe limits has_role_state now o s = NotEnabled ∨
  (∃ e s', observe limits has_role_state now o s = Failed e s' ∧
     advance limits has_role_state now o s = Failed e s' ∧ conn_inv started applied0 s') ∨
  settled now (advance limits has_role_state now o s).
Proof.
  intros Hinv. unfold advance. pose proof (observe_inv now o s Hinv) as Ho.
  destruct (observe limits has_role_state now o s) as [s'|e s'| |]; simpl in *; [|by eauto 10|done|by left].
  right. right. by apply settle_settled.
Qed.

End Preservation.

(** ** The newest snapshot wins *)

Definition note_snapshot (acc : option bytes) (e : ManagedSessionEvent) : option bytes :=
  match e with EvSnapshot r => Some r | _ => acc end.
(** The revision received last. *)
Definition last_snapshot (evs : list ManagedSessionEvent) : option bytes := foldl note_snapshot None evs.

Lemma last_snapshot_snoc evs e : last_snapshot (evs ++ [e]) = note_snapshot (last_snapshot evs) e.
Proof. unfold last_snapshot. by rewrite foldl_app. Qed.

(** The last snapshot was rejected, or it is what is pending, being applied or applied. *)
Definition latest {I} (s : State I) : Prop :=
  ∀ r, last_snapshot (events s) = Some r →
  EvRejected r ∈ events s ∨
  match pending (queue s), phase s with
  | Some q, _ => revision q = r
  | None, Applying a => a = r
  | None, Idle => applied s = Some r
  end.

Section Latest.
Context {I : Type} `{RoleAdapter I} `{SerdeOps} (limits : ManagedSessionLimits) (has_role_state : bool).
Implicit Types s : State I.

Lemma latest_core s s' : same_core s s' → latest s → latest s'.
Proof. intros (_ & _ & _ & Hq & Hp & Ha & He) Hl r. rewrite Hq, Hp, Ha, He. apply Hl. Qed.

Lemma elem_of_snoc {A} (l : list A) x : x ∈ l ++ [x].
Proof. apply elem_of_app. right. by apply list_elem_of_singleton. Qed.

(** Other events keep it. *)
Lemma latest_emit e s : (∀ r, e ≠ EvSnapshot r) → latest s → latest (emit e s).
Proof.
  intros He Hl r. simpl. rewrite last_snapshot_snoc. intros Hr.
  assert (last_snapshot (events s) = Some r) as Hr' by (destruct e; simpl in Hr; try done; by edestruct He).
  destruct (Hl r Hr') as [Hin|Hm]; [left; apply elem_of_app; by left | by right].
Qed.

(** Receiving a snapshot while applying, or while idle with nothing pending. *)
Lemma latest_accept now env d s s' :
  (phase s = Idle → pending (queue s) = None) →
  accept_envelope limits now env (emit (EvSnapshot (env_revision env)) (set_received d s)) = Running s' →
  latest s'.
Proof.
  intros Hidle Ha. set (s0 := emit _ _) in Ha.
  assert (last_snapshot (events s0) = Some (env_revision env)) as Hlast by (simpl; by rewrite last_snapshot_snoc).
  assert (phase s0 = Idle → pending (queue s0) = None) as Hidle0 by done. clearbody s0. clear Hidle.
  unfold accept_envelope in Ha. destruct (negb _ && _) eqn:Em.
  { injection Ha as <-. apply andb_prop in Em as [Ei Em]. apply bool_decide_eq_true in Em.
    eapply latest_core; [apply schedule_report_core|]. intros r Hr. rewrite Hlast in Hr. injection Hr as <-. right.
    destruct (phase s0) eqn:Ep; [|done]. by rewrite Hidle0. }
  assert (latest (emit (EvRejected (env_revision env)) s0)) as Hrej.
  { intros r Hr. left. simpl in *. rewrite last_snapshot_snoc in Hr. simpl in Hr. rewrite Hlast in Hr.
    injection Hr as <-. apply elem_of_snoc. }
  destruct (parse_input (env_input env) limits) as [i|[| |e|k v m]]; try done; try by simplify_eq.
  destruct (match phase s0 with Idle => false | _ => true end);
    unfold note_when_idle, note_while_applying in Ha; destruct (applying (queue s0)), (pending (queue s0));
    simplify_eq/=; intros r Hr; right; simpl in *; rewrite ?last_snapshot_snoc in Hr; simpl in Hr;
    rewrite Hlast in Hr; by injection Hr as <-.
Qed.

Lemma latest_ingest_item now item s s' :
  (phase s = Idle → pending (queue s) = None) → latest s →
  ingest_item limits now item s = Running s' → latest s'.
Proof.
  intros Hidle Hl Hi. unfold ingest_item in Hi. destruct item as [|ev]; [by simplify_eq|].
  destruct (bool_decide _); [by simplify_eq|]. destruct (parse_snapshot_event _ _ _) as [env|e]; [|done].
  destruct (try_note_valid_snapshot _ _) as [d [|]]; [|done]. by eapply latest_accept.
Qed.

Lemma accept_envelope_phase now env s s' :
  accept_envelope limits now env s = Running s' → phase s' = phase s.
Proof.
  unfold accept_envelope. intros Ha. destruct (negb _ && _).
  { injection Ha as <-. by destruct (schedule_report_core now (env_revision env) s) as (_ & _ & _ & _ & ? & _). }
  destruct (parse_input _ _) as [i|[| |e|k v m]]; simplify_eq/=; try done.
  by repeat case_match; simplify_eq/=.
Qed.

Lemma ingest_item_phase now item s s' : ingest_item limits now item s = Running s' → phase s' = phase s.
Proof.
  unfold ingest_item. intros Hi. destruct item as [|ev]; [by simplify_eq|].
  destruct (bool_decide _); [by simplify_eq|]. destruct (parse_snapshot_event _ _ _) as [env|e]; [|done].
  destruct (try_note_valid_snapshot _ _) as [d [|]]; [|done]. by apply accept_envelope_phase in Hi.
Qed.

Lemma latest_ingest_applying now items s s' r :
  phase s = Applying r → latest s → ingest_items limits now items s = Running s' → latest s'.
Proof.
  revert s. induction items as [|item items IH]; intros s Hp Hl Hi; simpl in Hi; [by simplify_eq|].
  destruct (ingest_item limits now item s) as [s1|? ?| |] eqn:E1; simpl in Hi; try done.
  apply (IH s1); [|by eapply latest_ingest_item; [by rewrite Hp|..]|done].
  rewrite <- Hp. by eapply ingest_item_phase.
Qed.

Definition is_event (i : Parser.SseParseItem) : bool := match i with Parser.Event _ => true | _ => false end.

Lemma ingest_comments now items s :
  List.filter is_event items = [] → ingest_items limits now items s = Running s.
Proof. induction items as [|[|ev] items IH]; simpl; [done | apply IH | done]. Qed.

Lemma latest_ingest_one now items s s' :
  (length (List.filter is_event items) ≤ 1)%nat → (phase s = Idle → pending (queue s) = None) → latest s →
  ingest_items limits now items s = Running s' → latest s'.
Proof.
  induction items as [|[|ev] items IH]; intros Hone Hidle Hl Hi.
  - by simplify_eq/=.
  - simpl in *. by apply IH.
  - simpl in Hone. assert (List.filter is_event items = []) as Hnil by (apply nil_length_inv; lia).
    cbn [ingest_items] in Hi. destruct (ingest_item limits now (Parser.Event ev) s) as [s1|? ?| |] eqn:E1; simpl in Hi; try done.
    rewrite ingest_comments in Hi by done. injection Hi as <-. by eapply latest_ingest_item.
Qed.

Lemma latest_observe now o s s' :
  (phase s = Idle → pending (queue s) = None) → (phase s = Idle → completes_one o s = true) → latest s →
  observe limits has_role_state now o s = Running s' → latest s'.
Proof.
  intros Hidle Hone Hl Ho. destruct o as [ok| |c|r| |]; simpl in Ho.
  - unfold on_apply in Ho. destruct (phase s) as [|a] eqn:Ep; [done|]. simplify_eq. destruct ok.
    + set (s1 := emit (EvApplied a) (with_phase Idle (Some a) s)).
      assert (same_core (with_queue (finish_apply (queue s)) s1)
        (with_queue (finish_apply (queue (schedule_report now a s1))) (schedule_report now a s1))) as Hc.
      { destruct (schedule_report_core now a s1) as (? & ? & ? & Hq & ? & ? & ?).
        unfold same_core. simpl. split_and!; try done. by rewrite Hq. }
      apply (latest_core _ _ Hc). intros r Hr. simpl in Hr. rewrite last_snapshot_snoc in Hr. simpl in *.
      destruct (Hl r Hr) as [Hin|Hm]; [left; apply elem_of_app; by left|right]. rewrite Ep in Hm.
      destruct (pending (queue s)); [done|]. congruence.
    + intros r Hr. simpl in *. rewrite last_snapshot_snoc in Hr. simpl in Hr.
      destruct (Hl r Hr) as [Hin|Hm]; [left; apply elem_of_app; by left|]. rewrite Ep in Hm.
      destruct (pending (queue s)); [by right|]. subst a. left. apply elem_of_snoc.
  - destruct (handle_timer now s); by simplify_eq.
  - unfold ingest_chunk in Ho. destruct c as [[|x b]| |]; try done; [by simplify_eq|].
    destruct (Parser.push (parser s) (x :: b)) as [[p items]|e] eqn:Ep; [|done].
    destruct (phase s) as [|a] eqn:Eph.
    + eapply latest_ingest_one; [..|exact Ho]; [|by intros _; apply Hidle|done].
      specialize (Hone eq_refl). unfold completes_one in Hone. rewrite Ep in Hone. by apply Nat.leb_le in Hone.
    + by eapply latest_ingest_applying; [..|exact Ho].
  - unfold on_report_finished in Ho. destruct (in_flight _); [|done]. destruct r; try done. injection Ho as <-.
    by eapply latest_core; [apply drive_report_core|].
  - destruct (spacing_wait _); [|done]. destruct (_ <=? _); by simplify_eq.
  - destruct has_role_state; [|done]. injection Ho as <-. unfold note_role_state_changed.
    destruct (report_revision (report s)); [|done]. by eapply latest_core; [apply drive_report_core|].
Qed.

Lemma latest_settle fuel now s s' : latest s → settle_loop fuel now s = Running s' → latest s'.
Proof.
  revert s. induction fuel as [|fuel IH]; intros s Hl Hs; [done|]. cbn [settle_loop] in Hs.
  pose proof (latest_core _ _ (drive_report_core now s) Hl) as Hl1.
  destruct (handle_timer _ _); [done|]. destruct (phase (drive_report now s)) eqn:Ep; [|by simplify_eq].
  destruct (take_next_cases (queue (drive_report now s))) as [[Hn _]|(next & Hn & _ & Ht)].
  { rewrite Hn in Hs. by simplify_eq. }
  rewrite Ht in Hs. destruct (matches _ _) eqn:Em; (eapply IH; [|exact Hs]).
  - eapply latest_core; [apply schedule_report_core|]. intros r Hr. apply bool_decide_eq_true in Em.
    destruct (Hl1 r Hr) as [?|Hm]; [by left|right]. simpl. rewrite Hn in Hm. rewrite Ep. by subst r.
  - apply latest_emit; [done|]. intros r Hr. destruct (Hl1 r Hr) as [?|Hm]; [by left|right].
    simpl. by rewrite Hn in Hm.
Qed.

(** *** Runs *)

Lemma lifecycle_new_inv started applied0 : conn_inv started applied0 (lifecycle_new limits started applied0 : State I).
Proof. split; simpl; try done; auto. by intros t r ?%elem_of_nil. Qed.

Lemma conn_run_inv one started applied0 now s :
  conn_run limits has_role_state one started applied0 now s → conn_inv started applied0 s ∧ suspended now s.
Proof.
  induction 1 as [now s _ Hs|now0 s now o s' _ IH _ _ Ha].
  - pose proof (settle_settled started applied0 now _ (lifecycle_new_inv started applied0)) as Hst.
    by rewrite Hs in Hst.
  - destruct IH as [Hinv _]. destruct (advance_settled started applied0 limits has_role_state now o s Hinv)
      as [Hn|[(e & s1 & _ & Hf & _)|Hst]]; [|congruence|by rewrite Ha in Hst].
    unfold advance in Ha. by rewrite Hn in Ha.
Qed.

Lemma conn_run_latest started applied0 now s :
  conn_run limits has_role_state true started applied0 now s → latest s.
Proof.
  induction 1 as [now s _ Hs|now0 s now o s' Hrun IH _ Hone Ha].
  - eapply latest_settle; [|exact Hs]. intros r Hr. done.
  - destruct (conn_run_inv _ _ _ _ _ Hrun) as [_ [_ Hidle]]. unfold advance in Ha.
    destruct (observe limits has_role_state now o s) as [s1|? ?| |] eqn:Eo; simpl in Ha; try done.
    eapply latest_settle; [|exact Ha]. by eapply latest_observe; [..|exact Eo]; auto.
Qed.

End Latest.

(** ** Invariants of a session *)

Section SessionInv.
Context {I : Type} `{RoleAdapter I} `{SerdeOps} (limits : ManagedSessionLimits) (has_role_state : bool).
Context {R : Type} (next_u64 : R → Z * R).
Implicit Types st : SessionState (I := I) (R := R).

Record session_inv st : Prop := {
  si_applied : ∀ r, session_applied st = Some r → EvApplied r ∈ session_events st;
  si_retry : (retry_count (reconnect st) < 10)%nat;
  si_connection : ∀ started now s, connection st = Some (started, now, s) →
    conn_inv started (session_applied st) s ∧ suspended now s
}.

Lemma end_connection_ok received a evs st :
  session_inv st → (∀ r, a = Some r → EvApplied r ∈ session_events st ++ evs) →
  ∃ st', end_connection next_u64 received a evs st = Some st' ∧ session_inv st'.
Proof.
  intros [Ha Hr _] Happ. unfold end_connection.
  destruct (next_retry_ok next_u64 (if received then reset (reconnect st) else reconnect st)) as
    (secs & d & p' & _ & Hn & Hc & _); [by destruct received; simpl; [lia|] |].
  rewrite Hn. simpl. eexists. split; [done|]. split; simpl.
  - intros r Hr'. rewrite app_assoc. apply elem_of_app. left. auto.
  - rewrite Hc. lia.
  - done.
Qed.

Lemma conn_applied st started (s : State I) r :
  session_inv st → conn_inv started (session_applied st) s → applied s = Some r →
  EvApplied r ∈ session_events st ++ events s.
Proof.
  intros [Ha _ _] [] Hr. apply elem_of_app. destruct (ci_applied0 r Hr); [left; auto | by right].
Qed.

Lemma session_inv_step st st' :
  session_inv st → session_step limits has_role_state next_u64 st st' → session_inv st'.
Proof.
  intros Hinv Hstep. pose proof Hinv as [Ha Hr Hc].
  destruct Hstep as [st st' _ He|st started now s _ _ Hs|st started now e s st' _ _ Hs He
    |st started now0 s now o s' Hconn _ Hadv|st started now0 s now o e s' st' Hconn _ Hadv He].
  - destruct (end_connection_ok false (session_applied st) [] st Hinv) as (st2 & He2 & H2); [|congruence].
    intros r Hr'. rewrite app_nil_r. auto.
  - split; simpl; [done..|]. intros ? ? ? [= <- <- <-].
    pose proof (settle_settled started (session_applied st) now _ (lifecycle_new_inv (I := I) limits started (session_applied st))) as Hst.
    by rewrite Hs in Hst.
  - pose proof (settle_settled started (session_applied st) now _ (lifecycle_new_inv (I := I) limits started (session_applied st))) as Hst.
    rewrite Hs in Hst. destruct Hst as [Hst _].
    destruct (end_connection_ok (received_valid_snapshot s) (applied s) (events s) st Hinv) as (st2 & He2 & H2); [|congruence].
    intros r Hr'. by eapply conn_applied.
  - destruct (Hc _ _ _ Hconn) as [Hci _]. split; simpl; [done..|]. intros ? ? ? [= <- <- <-].
    destruct (advance_settled _ _ limits has_role_state now o s Hci) as [Hn|[(e & s1 & _ & Hf & _)|Hst]];
      [unfold advance in Hadv; by rewrite Hn in Hadv | congruence | by rewrite Hadv in Hst].
  - destruct (Hc _ _ _ Hconn) as [Hci _].
    assert (conn_inv started (session_applied st) s') as Hci'.
    { destruct (advance_settled _ _ limits has_role_state now o s Hci) as [Hn|[(e1 & s1 & _ & Hf & Hi)|Hst]];
        [unfold advance in Hadv; by rewrite Hn in Hadv | congruence | by rewrite Hadv in Hst; destruct Hst]. }
    destruct (end_connection_ok (received_valid_snapshot s') (applied s') (events s') st Hinv) as (st2 & He2 & H2); [|congruence].
    intros r Hr'. by eapply conn_applied.
Qed.

Lemma session_reachable_inv st : session_reachable limits has_role_state next_u64 st → session_inv st.
Proof.
  intros [r Hr]. assert (session_inv (session_new r : SessionState (I := I))) as Hnew.
  { split; simpl; [done | lia | done]. }
  induction Hr as [|x y z Hstep _ IH]; [done|]. by eapply IH, session_inv_step.
Qed.

(** *** Deadlines *)

Lemma handle_timer_None started applied0 now (s : State I) :
  conn_inv started applied0 s → handle_timer now s = None →
  now < silence_deadline (deadlines s) ∧
  (received_valid_snapshot s = true ∨ now < started + FIRST_SNAPSHOT_DEADLINE).
Proof.
  intros [] Ht. unfold handle_timer, expired in Ht. rewrite ci_received0, <- ci_first0.
  destruct (received_first_snapshot (deadlines s)); simpl in Ht.
  - destruct (Z.leb_spec (silence_deadline (deadlines s)) now); [by destruct (_ && _)|]. auto.
  - destruct (Z.leb_spec (first_snapshot_deadline (deadlines s)) now); simpl in Ht; [by destruct (_ && _)|].
    destruct (Z.leb_spec (silence_deadline (deadlines s)) now); [by destruct (_ && _)|]. auto.
Qed.

Lemma handle_timer_Some started applied0 now e (s : State I) :
  conn_inv started applied0 s → handle_timer now s = Some e →
  (e = FirstSnapshotTimeout ∧ received_valid_snapshot s = false ∧ started + FIRST_SNAPSHOT_DEADLINE ≤ now) ∨
  (e = SilenceTimeout ∧ silence_deadline (deadlines s) ≤ now).
Proof.
  intros [] Ht. unfold handle_timer, expired in Ht. rewrite ci_received0 in *. rewrite <- ci_first0.
  destruct (received_first_snapshot (deadlines s)); simpl in *.
  - destruct (Z.leb_spec (silence_deadline (deadlines s)) now); simplify_eq. auto.
  - destruct (Z.leb_spec (first_snapshot_deadline (deadlines s)) now); simpl in *; [simplify_eq; auto|].
    destruct (Z.leb_spec (silence_deadline (deadlines s)) now); simplify_eq. auto.
Qed.

End SessionInv.

(** ** Timeouts are due *)

Section Timely.
Context {I : Type} `{RoleAdapter I} `{SerdeOps} (limits : ManagedSessionLimits) (has_role_state : bool).
Context (started : Z) (applied0 : option bytes).
Implicit Types s : State I.

Definition due (now : Z) (e : ManagedSessionError) s : Prop :=
  (e = FirstSnapshotTimeout → received_valid_snapshot s = false ∧ started + FIRST_SNAPSHOT_DEADLINE ≤ now) ∧
  (e = SilenceTimeout → silence_deadline (deadlines s) ≤ now).

Lemma timer_due now e s : conn_inv started applied0 s → handle_timer now s = Some e → due now e s.
Proof.
  intros Hinv Ht. destruct (handle_timer_Some _ _ _ _ _ Hinv Ht) as [(-> & ? & ?)|[-> ?]]; by split.
Qed.

Lemma ingest_item_due now item s e s' :
  conn_inv started applied0 s → ingest_item limits now item s = Failed e s' → due now e s'.
Proof.
  intros Hinv Hi. unfold ingest_item in Hi. destruct item as [|ev]; [done|]. destruct (bool_decide _); [done|].
  destruct (parse_snapshot_event _ _ _) as [env|err]; [|simplify_eq; by split].
  destruct (try_note_valid_snapshot now (deadlines s)) as [d [|]] eqn:Et.
  - unfold accept_envelope in Hi. destruct (negb _ && _); [done|].
    destruct (parse_input _ _) as [i|[| |err|k v m]]; simplify_eq; try done.
    repeat case_match; simplify_eq.
  - simplify_eq. split; [intros _|done]. destruct Hinv. rewrite ci_received0, <- ci_first0.
    unfold try_note_valid_snapshot in Et.
    destruct (received_first_snapshot (deadlines s')); simpl in Et; [done|]. split; [done|].
    destruct (Z.leb_spec (first_snapshot_deadline (deadlines s')) now); [lia | done].
Qed.

Lemma ingest_items_due now items s e s' :
  conn_inv started applied0 s → ingest_items limits now items s = Failed e s' → due now e s'.
Proof.
  revert s. induction items as [|item items IH]; intros s Hinv Hi; simpl in Hi; [done|].
  pose proof (ingest_item_inv started applied0 limits now item s Hinv) as Hinv1.
  destruct (ingest_item limits now item s) as [s1|e1 s1| |] eqn:E1; simpl in *; try done; [by apply (IH s1)|].
  simplify_eq. by apply (ingest_item_due now item s).
Qed.

Lemma observe_due now o s e s' :
  conn_inv started applied0 s → observe limits has_role_state now o s = Failed e s' → due now e s'.
Proof.
  intros Hinv Ho. destruct o as [ok| |c|r| |]; simpl in Ho.
  - unfold on_apply in Ho. by destruct (phase s).
  - destruct (handle_timer now s) eqn:Et; simplify_eq. by apply timer_due.
  - unfold ingest_chunk in Ho. destruct c as [[|x b]| |]; simplify_eq; try (by split).
    destruct (Parser.push (parser s) (x :: b)) as [[p items]|err]; simplify_eq; [|by split].
    eapply ingest_items_due; [|exact Ho]. by apply with_parser_inv.
  - unfold on_report_finished in Ho. destruct (in_flight _); [|done]. destruct r; simplify_eq; by split.
  - destruct (spacing_wait _); [|done]. by destruct (_ <=? _).
  - by destruct has_role_state.
Qed.

Lemma advance_due now o s e s' :
  conn_inv started applied0 s → advance limits has_role_state now o s = Failed e s' → due now e s'.
Proof.
  intros Hinv Ha. unfold advance in Ha. pose proof (observe_inv started applied0 limits has_role_state now o s Hinv) as Ho.
  destruct (observe limits has_role_state now o s) as [s1|e1 s1| |] eqn:Eo; simpl in *; try done.
  - pose proof (settle_settled started applied0 now s1 Ho) as Hs. rewrite Ha in Hs. destruct Hs. by apply timer_due.
  - simplify_eq. by apply (observe_due now o s).
Qed.

End Timely.

(** ** A concrete session *)

(** The envelope's revision is the data itself and every input is accepted. *)
Module ToySession.
Import ToySerde.

#[export] Instance toy_adapter : RoleAdapter unit := { parse_input _ _ := Ok tt }.

Definition toy_snapshot (revision : string) : bytes :=
  bs "event: snapshot" ++ [LF] ++ bs "data: " ++ bs revision ++ [LF; LF].
Definition toy_advance := advance (I := unit) default_session_limits false.
Definition toy_start (applied0 : option bytes) : State unit :=
  lifecycle_new default_session_limits 0 applied0.

(** A run of observations, one second apart, from a settled start. *)
Fixpoint toy_run (now : Z) (os : list observation) (s : State unit) : outcome unit :=
  match os with
  | [] => Running s
  | o :: os' => and_then (toy_advance now o s) (toy_run (now + secs 1) os')
  end.
Definition toy_state (applied0 : option bytes) (os : list observation) : option (State unit) :=
  match and_then (settle 0 (toy_start applied0)) (toy_run (secs 1) os) with Running s => Some s | _ => None end.

Definition toy_rng (r : unit) : Z * unit := (0, r).

End ToySession.
Import ToySerde ToySession.

Lemma toy_run_conn (os : list observation) applied0 now0 now (s s' : State unit) :
  now0 ≤ now → conn_run default_session_limits false false 0 applied0 now0 s →
  toy_run now os s = Running s' → ∃ now', conn_run default_session_limits false false 0 applied0 now' s'.
Proof.
  revert now0 now s. induction os as [|o os IH]; intros now0 now s Hle Hrun Hr; simpl in Hr; [simplify_eq; eauto|].
  unfold toy_advance in Hr. destruct (advance default_session_limits false now o s) as [s1|? ?| |] eqn:Ea; simpl in Hr; try done.
  eapply (IH now (now + secs 1) s1); [unfold secs, nanos_per_sec; lia| |done].
  by eapply run_advance.
Qed.

(** ** Properties *)

(** No observation makes a connection panic: the queue's assertions and the two
    [unreachable!] branches hold, because an apply is in flight exactly in the applying
    phase; the loop always suspends again after at most three passes; and a failed
    connection always has a retry window. *)
Theorem managed_session_never_panics {I} `{RoleAdapter I} `{SerdeOps} {R} (next_u64 : R → Z * R)
    limits has_role_state (st : SessionState (I := I) (R := R)) :
  session_reachable limits has_role_state next_u64 st →
  is_Some (next_retry next_u64 (reconnect st)) ∧
  ∀ started now0 s, connection st = Some (started, now0, s) →
    applying (queue s) = is_applying (phase s) ∧
    ∀ now o, advance limits has_role_state now o s ≠ Panicked ∧
      (advance limits has_role_state now o s = NotEnabled → observe limits has_role_state now o s = NotEnabled).
Proof.
  intros Hr. pose proof (session_reachable_inv _ _ _ _ Hr) as [_ Hretry Hconn]. split.
  { destruct (next_retry_ok next_u64 (reconnect st) Hretry) as (? & d & p & _ & -> & _). eauto. }
  intros started now0 s Hs. destruct (Hconn _ _ _ Hs) as [Hinv _]. split; [apply Hinv|]. intros now o.
  destruct (advance_settled _ _ limits has_role_state now o s Hinv) as [Hn|[(e & s1 & _ & Hf & _)|Hst]].
  - unfold advance. by rewrite Hn.
  - by rewrite Hf.
  - by destruct (advance limits has_role_state now o s).
Qed.

Lemma managed_session_never_panics_witness :
  is_Some (next_retry toy_rng (reconnect (session_new (I := unit) tt))).
Proof.
  apply (managed_session_never_panics (I := unit) toy_rng default_session_limits false (session_new tt)).
  exists tt. reflexivity.
Defined.

(** C28: state documents report what was applied: on each connection they start at least
    one second apart, every document names a revision that this session applied
    successfully, and a document that waits names the revision applied now.  So rejected
    and superseded revisions are never reported. *)
Theorem documents_report_applied {I} `{RoleAdapter I} `{SerdeOps} {R} (next_u64 : R → Z * R)
    limits has_role_state (st : SessionState (I := I) (R := R)) started now s :
  session_reachable limits has_role_state next_u64 st → connection st = Some (started, now, s) →
  spaced (documents s) ∧
  (∀ t r, (t, r) ∈ documents s → EvApplied r ∈ session_events st ++ events s) ∧
  (∀ r, report_revision (report s) = Some r → applied s = Some r).
Proof.
  intros Hr Hs. pose proof (session_reachable_inv _ _ _ _ Hr) as [Happ _ Hconn].
  destruct (Hconn _ _ _ Hs) as [[] _]. split_and!; [done| |done].
  intros t r Hin. apply elem_of_app. destruct (ci_documents0 t r Hin); [left; auto | by right].
Qed.

(** Two snapshots are applied one after the other. *)
Definition toy_observations : list observation :=
  [ChunkArrived (ChunkBytes (toy_snapshot "A")); ApplyFinished true; ReportFinished ReportOk;
   ChunkArrived (ChunkBytes (toy_snapshot "B")); ApplyFinished true].
Definition toy_done : State unit := default (toy_start None) (toy_state None toy_observations).

Lemma documents_report_applied_witness :
  documents toy_done = [(secs 2, bs "A"); (secs 5, bs "B")] ∧ EvApplied (bs "B") ∈ events toy_done.
Proof.
  split; [by vm_compute|].
  destruct (settle 0 (toy_start None)) as [s0|? ?| |] eqn:E0; [|by vm_compute in E0..].
  assert (toy_run (secs 1) toy_observations s0 = Running toy_done) as Hrun.
  { vm_compute in E0. injection E0 as <-. by vm_compute. }
  assert (∀ os now0 now (s s' : State unit), now0 ≤ now → toy_run now os s = Running s' →
    ∃ now', rtc (session_step default_session_limits false toy_rng)
      (mkSession (Some (0, now0, s)) None [] (new_with_rng tt))
      (mkSession (Some (0, now', s')) None [] (new_with_rng tt))) as Hsteps.
  { induction os as [|o os IH]; intros now0 now s s' Hle Hr; simpl in Hr.
    - simplify_eq. exists now0. reflexivity.
    - unfold toy_advance in Hr.
      destruct (advance default_session_limits false now o s) as [s1|? ?| |] eqn:Ea; simpl in Hr; try done.
      destruct (IH now (now + secs 1) s1 s') as [now' Hsteps]; [unfold secs, nanos_per_sec; lia|done|].
      exists now'. eapply rtc_l; [|exact Hsteps].
      exact (observed _ _ _ (mkSession (Some (0, now0, s)) None [] (new_with_rng tt)) 0 now0 s now o s1 eq_refl Hle Ea). }
  destruct (Hsteps toy_observations 0 (secs 1) s0 toy_done) as [now' Hto]; [by vm_compute|done|].
  destruct (documents_report_applied toy_rng default_session_limits false
    (mkSession (Some (0, now', toy_done)) None [] (new_with_rng tt)) 0 now' toy_done) as (_ & Hd & _).
  - exists tt. eapply rtc_l; [|exact Hto].
    exact (connected _ _ _ (session_new tt) 0 0 s0 eq_refl (Z.le_refl 0) E0).
  - done.
  - apply (Hd (secs 5)). vm_compute. right. left.
Defined.

(** Timeouts are exact: a suspended connection has heard bytes within the silence
    window and has a valid snapshot or is within the window for the first one; and a
    connection that fails with one of the two timeouts has really exceeded it. *)
Theorem session_timeouts_exact {I} `{RoleAdapter I} `{SerdeOps} limits has_role_state one started applied0 now0
    (s : State I) :
  conn_run limits has_role_state one started applied0 now0 s →
  now0 < silence_deadline (deadlines s) ∧
  (received_valid_snapshot s = true ∨ now0 < started + FIRST_SNAPSHOT_DEADLINE) ∧
  ∀ now o e s', advance limits has_role_state now o s = Failed e s' →
    (e = FirstSnapshotTimeout → received_valid_snapshot s' = false ∧ started + FIRST_SNAPSHOT_DEADLINE ≤ now) ∧
    (e = SilenceTimeout → silence_deadline (deadlines s') ≤ now).
Proof.
  intros Hrun. destruct (conn_run_inv _ _ _ _ _ _ _ Hrun) as [Hinv [Ht _]].
  destruct (handle_timer_None _ _ _ _ Hinv Ht) as [H1 H2]. split_and!; [done..|].
  intros now o e s' Ha. by apply (advance_due limits has_role_state started applied0 now o s).
Qed.

Lemma session_timeouts_exact_witness :
  ∃ s', toy_advance (secs 60) TimerFired (toy_start None) = Failed FirstSnapshotTimeout s' ∧
    received_valid_snapshot s' = false ∧ FIRST_SNAPSHOT_DEADLINE ≤ secs 60.
Proof.
  destruct (toy_advance (secs 60) TimerFired (toy_start None)) as [s|e s'| |] eqn:Ea; [by vm_compute in Ea| |by vm_compute in Ea..].
  assert (e = FirstSnapshotTimeout) as -> by (vm_compute in Ea; by injection Ea).
  exists s'. split; [done|].
  destruct (session_timeouts_exact default_session_limits false false 0 None 0 (toy_start None)) as (_ & _ & Hd).
  - apply run_start; [done | by vm_compute].
  - destruct (Hd _ _ _ _ Ea) as [H1 _]. by apply H1.
Defined.

(** The newest snapshot wins: when chunks that arrive while idle complete at most
    one event each, the revision received last on a connection was rejected, or it is
    the pending candidate, the one being applied, or, when nothing is in progress, the
    applied one. *)
Theorem newest_snapshot_wins {I} `{RoleAdapter I} `{SerdeOps} limits has_role_state started applied0 now
    (s : State I) r :
  conn_run limits has_role_state true started applied0 now s → last_snapshot (events s) = Some r →
  EvRejected r ∈ events s ∨
  match phase s, pending (queue s) with
  | Idle, _ => applied s = Some r
  | Applying a, None => a = r
  | Applying _, Some q => revision q = r
  end.
Proof.
  intros Hrun Hr. destruct (conn_run_inv _ _ _ _ _ _ _ Hrun) as [_ [_ Hidle]].
  destruct (conn_run_latest _ _ _ _ _ _ Hrun r Hr) as [Hin|Hm]; [by left|right].
  destruct (phase s); [|by destruct (pending (queue s))]. by rewrite Hidle in Hm.
Qed.

Lemma newest_snapshot_wins_witness :
  ∃ s', toy_advance (secs 1) (ChunkArrived (ChunkBytes (toy_snapshot "A"))) (toy_start None) = Running s' ∧
    phase s' = Applying (bs "A").
Proof.
  destruct (toy_advance (secs 1) (ChunkArrived (ChunkBytes (toy_snapshot "A"))) (toy_start None))
    as [s'|? ?| |] eqn:Ea; [|by vm_compute in Ea..].
  exists s'. split; [done|].
  assert (conn_run default_session_limits false true 0 None (secs 1) s') as Hrun.
  { eapply (run_advance _ _ _ _ _ 0 (toy_start None)); [|done| |exact Ea].
    - apply run_start; [done | by vm_compute].
    - intros _ _. by vm_compute. }
  destruct (newest_snapshot_wins default_session_limits false 0 None (secs 1) s' (bs "A") Hrun) as [Hin|Hm].
  - vm_compute in Ea. by injection Ea as <-.
  - exfalso. vm_compute in Ea. injection Ea as <-. simpl in Hin. set_solver.
  - destruct (phase s') as [|a] eqn:Ep, (pending (queue s')) as [q|] eqn:Eq; [..|by subst a];
      exfalso; vm_compute in Ea; injection Ea as <-; done.
Defined.

(** Without that restriction an older snapshot can win: a chunk that brings a new
    revision and then the applied one again (a rollback of a change that was never
    applied) leaves the new one pending, because an equal revision is skipped without
    looking at the queue.  It is applied, although it is not the newest, and no event
    says so. *)
Theorem stale_snapshot_applied :
  ∃ now (s : State unit),
    conn_run default_session_limits false false 0 (Some (bs "A")) now s ∧
    phase s = Idle ∧ pending (queue s) = None ∧ last_snapshot (events s) = Some (bs "A") ∧
    applied s = Some (bs "B") ∧ events s =
      [EvSnapshot (bs "B"); EvSnapshot (bs "A"); EvApplying (bs "B"); EvApplied (bs "B")].
Proof.
  set (os := [ChunkArrived (ChunkBytes (toy_snapshot "B" ++ toy_snapshot "A")); ApplyFinished true]).
  destruct (settle 0 (toy_start (Some (bs "A")))) as [s0|? ?| |] eqn:E0; [|by vm_compute in E0..].
  destruct (toy_run (secs 1) os s0) as [s|? ?| |] eqn:E1.
  - destruct (toy_run_conn os (Some (bs "A")) 0 (secs 1) s0 s) as [now Hrun]; [by vm_compute| |done|].
    + by apply run_start.
    + exists now, s. split; [done|]. vm_compute in E0. injection E0 as <-. vm_compute in E1.
      injection E1 as <-. by vm_compute.
  - vm_compute in E0. injection E0 as <-. by vm_compute in E1.
  - vm_compute in E0. injection E0 as <-. by vm_compute in E1.
  - vm_compute in E0. injection E0 as <-. by vm_compute in E1.
Qed.
