(* ===== verification/ManagedServer.v ===== *)
(** * ManagedServer: applying Control's input to a running Server

    The Server's role adapter ([src/server/managed_adapter.rs]) drives the Tunnel
    registry, the Tunnel event streams ([src/tunnel/events.rs]) and the one-way drain
    ([src/server/drain.rs]) while Visitors and connections keep moving.  The machine
    interleaves the adapter's [apply], cut at its suspension points and atomic writes,
    with every action of the registry.  The Managed session drops [apply] when its
    connection fails or it shuts down ([src/managed_session/lifecycle.rs]); that is a
    step of its own. *)

From Stdlib Require Import Ascii ZArith Lia.
From stdpp Require Import base strings numbers gmap list relations.
From S2P Require Import Prelude Names Sse Admission Authorization Pool Registry Continuity ManagedInput Session.

Local Open Scope nat_scope.
Local Set Warnings "-clear-no-such-hyp".

Import Policy Registry Continuity Events Input Lifecycle.

(** ** Readiness *)

(** [ReadinessGate]: the flag and the certificate's, when one is watched. *)
Record ReadinessGate : Type := mkGate { gate_ready : bool; gate_certificate : option bool }.
Definition is_ready (g : ReadinessGate) : bool :=
  gate_ready g && match gate_certificate g with None => true | Some ready => ready end.
Definition mark_ready (g : ReadinessGate) : ReadinessGate := mkGate true (gate_certificate g).
Definition mark_not_ready (g : ReadinessGate) : ReadinessGate := mkGate false (gate_certificate g).

(** ** The adapter *)

Section Adapter.
Context {U : Type} `{UuidOps U} `{SerdeOps}.

#[export] Instance server_adapter : RoleAdapter (ServerManagedInput (U := U)) := {
  parse_input := parse_server_input
}.

(** [ServerDrain::begin]. *)
Definition begin_drain (_ : bool) : bool := true.

(** [apply] between its steps: waiting for the registry's commit, about to publish the
    hint, to stop accepting, to seal and to begin the drain. *)
Inductive apply_task : Type :=
| TaskCommit (i : ServerManagedInput (U := U))
| TaskHint (i : ServerManagedInput (U := U))
| TaskStop (i : ServerManagedInput (U := U))
| TaskSeal (i : ServerManagedInput (U := U))
| TaskDrain (i : ServerManagedInput (U := U)).

Record ServerState : Type := mkServer {
  registry : Registry.State;
  tunnel_events : TunnelEventState (U := U);
  draining : bool;
  task : option apply_task
}.

(** [apply] finished with a result, or continues. *)
Inductive progress : Type :=
| Continues (s : ServerState)
| Finished (ok : bool) (s : ServerState)
| Stuck.

(** The call of [apply]: the registry prepares and publishes the snapshot, or rejects
    it and nothing changes. *)
Definition start_apply (server_hostname : bytes) (i : ServerManagedInput (U := U)) (s : ServerState) : progress :=
  match task s, begin_replace server_hostname (tunnels i) (registry s) with
  | None, Next r =>
      match prepare_managed_replacement (snapshot (registry s)) server_hostname (tunnels i) with
      | Ok _ => Continues (mkServer r (tunnel_events s) (draining s) (Some (TaskCommit i)))
      | Err _ => Finished false s
      end
  | _, _ => Stuck
  end.

Definition apply_step (s : ServerState) : progress :=
  match task s with
  | None => Stuck
  | Some (TaskCommit i) =>
      match commit_step (registry s) with
      | Next r =>
          Continues (mkServer r (tunnel_events s) (draining s)
            (Some (match commit r with None => TaskHint i | Some _ => TaskCommit i end)))
      | _ => Stuck
      end
  | Some (TaskHint i) =>
      let events := (set_replacement_generation (input_replacement i) (tunnel_events s)).1 in
      if drain i then Continues (mkServer (registry s) events (draining s) (Some (TaskStop i)))
      else Finished true (mkServer (registry s) events (draining s) None)
  | Some (TaskStop i) =>
      match stop_accepting (registry s) with
      | Next r => Continues (mkServer r (tunnel_events s) (draining s) (Some (TaskSeal i)))
      | _ => Stuck
      end
  | Some (TaskSeal i) =>
      match seal (registry s) with
      | Next r => Continues (mkServer r (tunnel_events s) (draining s) (Some (TaskDrain i)))
      | _ => Stuck
      end
  | Some (TaskDrain i) =>
      Finished true (mkServer (registry s) (tunnel_events s) (begin_drain (draining s)) None)
  end.

(** Actions of the rest of the Server; only the adapter replaces the authorization. *)
Definition foreign (a : action) : bool :=
  match a with BeginReplace _ _ | CommitStep | CommitDropped => false | _ => true end.

(** The steps that do not drop an [apply]. *)
Inductive undropped_step (server_hostname : bytes) : ServerState → ServerState → Prop :=
| step_registry s a r :
    foreign a = true → exec (registry s) a = Next r →
    undropped_step server_hostname s (mkServer r (tunnel_events s) (draining s) (task s))
| step_start s i s' ok :
    start_apply server_hostname i s = Continues s' ∨ start_apply server_hostname i s = Finished ok s' →
    undropped_step server_hostname s s'
| step_apply s s' ok :
    apply_step s = Continues s' ∨ apply_step s = Finished ok s' → undropped_step server_hostname s s'.

(** [run_state_machine] leaves [drive_until_transition] with an error, or the session is
    shut down, while [apply] is suspended; after the registry's commit it has no
    suspension point left. *)
Inductive server_step (server_hostname : bytes) : ServerState → ServerState → Prop :=
| step_undropped s s' : undropped_step server_hostname s s' → server_step server_hostname s s'
| step_dropped s i r :
    task s = Some (TaskCommit i) → drop_commit (registry s) = Next r →
    server_step server_hostname s (mkServer r (tunnel_events s) (draining s) None).

(** A Managed Server starts with an empty authorization. *)
Definition server_new (ls : ServerAdmissionLimits) (g : U) (gate : option bool) : ServerState :=
  mkServer (registry_new empty_managed (policy_new ls) gate) (ServerTunnelEvents_new g) false None.

Definition server_reachable (server_hostname : bytes) (ls : ServerAdmissionLimits) (s : ServerState) : Prop :=
  ∃ g gate, rtc (server_step server_hostname) (server_new ls g gate) s.

(** ** Reported facts *)

(** [ServerReportedState::fields]; [draining] is read before [visitors]. *)
Definition reported_fields (s_draining s_visitors : ServerState) : bool * nat :=
  (draining s_draining, in_flight_visitor_count (registry s_visitors)).

(** ** Invariants *)

(** The live snapshot is the one that the input describes. *)
Definition installs (server_hostname : bytes) (i : ServerManagedInput (U := U)) (r : Registry.State) : Prop :=
  try_from_managed_tunnels server_hostname (tunnels i) = Ok (snapshot r).

(** What holds before each step of [apply]. *)
Definition task_inv (server_hostname : bytes) (s : ServerState) : Prop :=
  match task s with
  | None => commit (registry s) = None
  | Some (TaskCommit i) => installs server_hostname i (registry s) ∧ commit (registry s) ≠ None
  | Some (TaskHint i) => installs server_hostname i (registry s) ∧ settled (registry s)
  | Some (TaskStop i) =>
      installs server_hostname i (registry s) ∧ settled (registry s) ∧ drain i = true ∧
      replacement_generation (tunnel_events s) =
        filter_other (server_generation (tunnel_events s)) (input_replacement i)
  | Some (TaskSeal i) =>
      installs server_hostname i (registry s) ∧ settled (registry s) ∧ drain i = true ∧
      replacement_generation (tunnel_events s) =
        filter_other (server_generation (tunnel_events s)) (input_replacement i) ∧
      accepting (registry s) = false
  | Some (TaskDrain i) =>
      installs server_hostname i (registry s) ∧ settled (registry s) ∧ drain i = true ∧
      replacement_generation (tunnel_events s) =
        filter_other (server_generation (tunnel_events s)) (input_replacement i) ∧
      accepting (registry s) = false ∧ sealed (vis (registry s)) = true
  end.

Record server_inv (server_hostname : bytes) (ls : ServerAdmissionLimits) (s : ServerState) : Prop := {
  sv_registry : reachable ls (registry s);
  sv_draining : draining s = true → sealed (vis (registry s)) = true;
  sv_task : task_inv server_hostname s
}.

(** Nothing but the adapter touches the snapshot, and nobody accepts or unseals again. *)
Lemma foreign_frame s a s' :
  foreign a = true → exec s a = Next s' →
  snapshot s' = snapshot s ∧ commit s' = commit s ∧ interruptions s' = interruptions s ∧
  (accepting s = false → accepting s' = false) ∧
  (sealed (vis s) = true → sealed (vis s') = true).
Proof.
  intros Hf He. split_and!; [| | | |intros Hs; by destruct (sealed_exec s a s' Hs He)]; destruct a; try done; simpl in He;
    unfold begin_route, route_lookup, route_select, route_abandon, place_visitor, finish_visitor, connect,
      register_lookup, register_finish, set_accepts, conn_close, watcher_fires, detached_released, stop_accepting,
      seal, close_all, close_pool in He; exec_cases He; by simplify_eq.
Qed.

Lemma reachable_exec ls s a s' : reachable ls s → exec s a = Next s' → reachable ls s'.
Proof. intros (snap & gate & Hs & Hr) He. exists snap, gate. split; [done|]. eapply rtc_r; [done|]. by exists a. Qed.

Lemma commit_step_snapshot ls s s' :
  limits_ok ls → reachable ls s → commit_step s = Next s' →
  snapshot s' = snapshot s ∧ (sealed (vis s) = true → sealed (vis s') = true).
Proof.
  intros Hls Hr Hc. split.
  - unfold commit_step, or_panic in Hc. by repeat (case_match; simplify_eq/=).
  - intros Hs. by destruct (sealed_exec s CommitStep s' Hs Hc).
Qed.

Section Steps.
Context (server_hostname : bytes) (ls : ServerAdmissionLimits) (Hls : limits_ok ls).

Lemma server_inv_start i s s' ok :
  server_inv server_hostname ls s →
  start_apply server_hostname i s = Continues s' ∨ start_apply server_hostname i s = Finished ok s' →
  server_inv server_hostname ls s'.
Proof.
  intros Hinv Hst. pose proof Hinv as [Hr Hd Ht]. unfold start_apply, task_inv in *.
  destruct (task s); [by destruct Hst|]. unfold begin_replace in Hst. rewrite Ht in Hst.
  destruct (prepare_managed_replacement (snapshot (registry s)) server_hostname (tunnels i)) as [next|] eqn:Ep.
  - destruct Hst as [[= <-]|Hst]; [|done]. split; simpl; [|done|].
    + eapply (reachable_exec _ _ (BeginReplace server_hostname (tunnels i))); [done|]. simpl. unfold begin_replace.
      by rewrite Ht, Ep.
    + split; [|done]. unfold installs. simpl. unfold prepare_managed_replacement in Ep. by destruct (continuity _).
  - destruct Hst as [?|[= _ <-]]; [done|]. done.
Qed.

Lemma server_inv_apply s s' ok :
  server_inv server_hostname ls s → apply_step s = Continues s' ∨ apply_step s = Finished ok s' →
  server_inv server_hostname ls s'.
Proof.
  intros [Hr Hd Ht] Ha. unfold apply_step, task_inv in *.
  destruct (task s) as [[i|i|i|i|i]|]; [| | | | |by destruct Ha].
  - destruct (commit_step (registry s)) as [r| |] eqn:Ec; [|by destruct Ha..]. destruct Ha as [[= <-]|Ha]; [|done].
    destruct Ht as [Hi Hc]. destruct (commit_step_snapshot ls _ _ Hls Hr Ec) as [Hs Hseal]. split; simpl.
    + by eapply (reachable_exec _ _ CommitStep).
    + auto.
    + unfold task_inv, installs in *. simpl. destruct (commit r) eqn:Er; simpl; rewrite Hs, ?Er; [done|].
      split; [done|]. by apply (settled_exec _ CommitStep _ Ec).
  - destruct Ht as [Hi [Hc Hu]]. destruct (drain i) eqn:Edr.
    + destruct Ha as [[= <-]|Ha]; [|done]. by split.
    + destruct Ha as [Ha|[= _ <-]]; [done|]. by split.
  - simpl in Ha. destruct Ha as [[= <-]|Ha]; [|done]. destruct Ht as (Hi & Hc & Hdr & Hg). split; simpl; [|done|done].
    by eapply (reachable_exec _ _ StopAccepting).
  - destruct Ht as (Hi & Hc & Hdr & Hg & Hacc). unfold seal in Ha. rewrite Hacc in Ha.
    destruct Ha as [[= <-]|Ha]; [|done]. split; simpl; [|done|done].
    eapply (reachable_exec _ _ Seal); [done|]. simpl. unfold seal. by rewrite Hacc.
  - destruct Ha as [Ha|[= _ <-]]; [done|]. destruct Ht as (Hi & [Hc _] & Hdr & Hg & Hacc & Hs). by split.
Qed.

Lemma server_inv_step s s' :
  server_inv server_hostname ls s → server_step server_hostname s s' → server_inv server_hostname ls s'.
Proof.
  intros Hinv Hstep. destruct Hstep as [s s' [s1 a r Hf He|s1 i s2 ok Hst|s1 s2 ok Ha]|s i r Hi Hdrop].
  - destruct Hinv as [Hr Hd Ht]. destruct (foreign_frame _ _ _ Hf He) as (Hsn & Hc & Hint & Hacc & Hse).
    split; simpl; [by eapply reachable_exec|auto|].
    unfold task_inv, installs, settled in *. simpl. rewrite Hsn, Hc, Hint. destruct (task s1) as [[]|]; naive_solver.
  - by eapply server_inv_start.
  - by eapply server_inv_apply.
  - destruct Hinv as [Hr Hd Ht]. split; simpl.
    + by eapply (reachable_exec _ _ CommitDropped).
    + intros Hdr. by destruct (sealed_exec (registry s) CommitDropped r (Hd Hdr) Hdrop).
    + unfold task_inv. simpl. unfold drop_commit in Hdrop. by exec_cases Hdrop.
Qed.

Lemma server_reachable_inv s : server_reachable server_hostname ls s → server_inv server_hostname ls s.
Proof.
  intros (g & gate & Hr). assert (server_inv server_hostname ls (server_new ls g gate)) as Hnew.
  { split; [|done|done]. exists empty_managed, gate. split; [constructor | reflexivity]. }
  induction Hr as [|x y z Hstep _ IH]; [done|]. by eapply IH, server_inv_step.
Qed.





(** Once draining, the Server's Visitors only leave. *)
Lemma draining_step s s' :
  server_inv server_hostname ls s → draining s = true → server_step server_hostname s s' →
  draining s' = true ∧ (in_flight_visitor_count (registry s') ≤ in_flight_visitor_count (registry s)).
Proof.
  intros Hinv Hd Hstep. pose proof (sv_draining _ _ _ Hinv Hd) as Hs.
  assert (∀ a r, exec (registry s) a = Next r →
    in_flight_visitor_count r ≤ in_flight_visitor_count (registry s)) as Hle.
  { intros a r He. destruct (sealed_exec _ _ _ Hs He) as (_ & Hw & _). unfold in_flight_visitor_count.
    rewrite <- !(size_dom (D := gset Z)). apply subseteq_size. intros id. rewrite !elem_of_dom. apply Hw. }
  destruct Hstep as [s s' [s1 a r Hf He|s1 i s2 ok Hst|s1 s2 ok Ha]|s i r Hi Hdrop].
  - split; [done|]. by eapply Hle.
  - unfold start_apply in Hst. destruct (task s1); [by destruct Hst|].
    destruct (begin_replace server_hostname (tunnels i) (registry s1)) as [r| |] eqn:Eb; [|by destruct Hst..].
    destruct (prepare_managed_replacement _ _ _); destruct Hst as [Hst|Hst]; simplify_eq; [|done].
    split; [done|]. by apply (Hle (BeginReplace server_hostname (tunnels i))).
  - unfold apply_step in Ha. destruct (task s1) as [[i|i|i|i|i]|]; [| | | | |by destruct Ha].
    + destruct (commit_step (registry s1)) as [r| |] eqn:Ec; destruct Ha as [Ha|Ha]; simplify_eq.
      split; [done|]. by apply (Hle CommitStep).
    + destruct (drain i), Ha as [Ha|Ha]; simplify_eq; by split.
    + simpl in Ha. destruct Ha as [Ha|Ha]; simplify_eq. by split.
    + destruct (seal (registry s1)) as [r| |] eqn:Es; destruct Ha as [Ha|Ha]; simplify_eq.
      split; [done|]. by apply (Hle Seal).
    + destruct Ha as [Ha|Ha]; simplify_eq. by split.
  - split; [done|]. by apply (Hle CommitDropped).
Qed.

Lemma draining_rtc s s' :
  server_inv server_hostname ls s → draining s = true → rtc (server_step server_hostname) s s' →
  server_inv server_hostname ls s' ∧ draining s' = true ∧
  in_flight_visitor_count (registry s') ≤ in_flight_visitor_count (registry s).
Proof.
  intros Hinv Hd Hr. induction Hr as [|x y z Hstep _ IH]; [done|].
  destruct (draining_step _ _ Hinv Hd Hstep) as [Hdy Hle].
  destruct (IH (server_inv_step _ _ Hinv Hstep) Hdy) as (? & ? & ?). split_and!; [done..|lia].
Qed.

End Steps.
End Adapter.

(** ** A concrete run *)
Module ToyServer.
Import ToyWire ToySerde.

Inductive toy_op : Type := OpStart (i : ServerManagedInput (U := bool)) | OpApply | OpDrop | OpRegistry (a : action).

Definition toy_exec (sh : bytes) (s : ServerState (U := bool)) (op : toy_op) : option ServerState :=
  match op with
  | OpStart i => match start_apply sh i s with Continues s' | Finished _ s' => Some s' | Stuck => None end
  | OpApply => match apply_step s with Continues s' | Finished _ s' => Some s' | Stuck => None end
  | OpDrop =>
      match task s, drop_commit (registry s) with
      | Some (TaskCommit _), Next r => Some (mkServer r (tunnel_events s) (draining s) None)
      | _, _ => None
      end
  | OpRegistry a =>
      if foreign a then
        match exec (registry s) a with
        | Next r => Some (mkServer r (tunnel_events s) (draining s) (task s))
        | _ => None
        end
      else None
  end.
Fixpoint toy_steps (sh : bytes) (ops : list toy_op) (s : ServerState) : option ServerState :=
  match ops with [] => Some s | op :: ops' => s' ← toy_exec sh s op; toy_steps sh ops' s' end.

Lemma toy_steps_rtc sh ops s s' : toy_steps sh ops s = Some s' → rtc (server_step sh) s s'.
Proof.
  revert s. induction ops as [|op ops IH]; intros s Hs; simpl in Hs; [injection Hs as ->; reflexivity|].
  apply bind_Some in Hs as (s1 & H1 & Hs). eapply rtc_l; [|by apply IH].
  destruct op as [i| | |a]; simpl in H1.
  - apply step_undropped. destruct (start_apply sh i s) as [s2|ok s2|] eqn:E; simplify_eq;
      [apply (step_start sh s i s1 true) | apply (step_start sh s i s1 ok)]; auto.
  - apply step_undropped. destruct (apply_step s) as [s2|ok s2|] eqn:E; simplify_eq;
      [apply (step_apply sh s s1 true) | apply (step_apply sh s s1 ok)]; auto.
  - destruct (task s) as [[i|i|i|i|i]|] eqn:Et; try done. destruct (drop_commit (registry s)) as [r| |] eqn:Ed; simplify_eq.
    by apply (step_dropped sh s i r).
  - destruct (foreign a) eqn:Ef; [|done]. destruct (exec (registry s) a) eqn:E; simplify_eq.
    apply step_undropped. by apply step_registry with a.
Qed.

(** Control publishes one Tunnel and asks for the drain. *)
Definition toy_drain_input : ServerManagedInput (U := bool) := mkServerInput [demo_tunnel] (Some false) true.
Definition toy_new : ServerState (U := bool) := server_new default_limits true None.
Definition toy_at (n : nat) : ServerState (U := bool) :=
  default toy_new (toy_steps (bs "s.test") (OpStart toy_drain_input :: replicate n OpApply) toy_new).

Lemma toy_at_reachable n :
  (if toy_steps (bs "s.test") (OpStart toy_drain_input :: replicate n OpApply) toy_new is Some _ then true else false) = true →
  server_reachable (bs "s.test") default_limits (toy_at n).
Proof.
  unfold toy_at. destruct (toy_steps _ _ _) as [s|] eqn:Hs; [|done]. intros _. exists true, None.
  by eapply toy_steps_rtc.
Qed.

End ToyServer.
Import ToyWire ToySerde ToyServer.

(** ** Properties *)



(** C5: quiescence is final: a document that reports [draining] and no Visitors (the
    flag is read before the count) means that no Visitor will ever run on this Server
    again, whatever connections, Visitors and further inputs do. *)
Theorem quiescence_report_is_final {U} `{UuidOps U} `{SerdeOps} sh ls (s0 s1 s2 : ServerState (U := U)) :
  limits_ok ls → server_reachable sh ls s0 → rtc (server_step sh) s0 s1 →
  reported_fields s0 s1 = (true, 0) → rtc (server_step sh) s1 s2 →
  reported_fields s2 s2 = (true, 0).
Proof.
  intros Hls Hr H01 Hf H12. injection Hf as Hd Hv.
  pose proof (server_reachable_inv sh ls Hls s0 Hr) as Hinv.
  destruct (draining_rtc sh ls Hls s0 s1 Hinv Hd H01) as (Hinv1 & Hd1 & _).
  destruct (draining_rtc sh ls Hls s1 s2 Hinv1 Hd1 H12) as (_ & Hd2 & Hle).
  unfold reported_fields. f_equal; [done|]. lia.
Qed.

Lemma quiescence_report_is_final_witness :
  reported_fields (toy_at 8) (toy_at 8) = (true, 0).
Proof.
  apply (quiescence_report_is_final (bs "s.test") default_limits (toy_at 8) (toy_at 8) (toy_at 8)).
  - apply default_limits_ok.
  - apply toy_at_reachable. by vm_compute.
  - reflexivity.
  - by vm_compute.
  - reflexivity.
Defined.

(** ** A dropped revocation *)

(** Control gives [i1] and [i2] one Tunnel, [i1] connects and serves a Visitor, and Control
    takes the Tunnel from [i1].  The session drops that [apply] before it reached the pool,
    and applies the same input when it is delivered again. *)
Definition grant_input : ServerManagedInput (U := bool) := mkServerInput [demo_tunnel] None false.
Definition revoke_input : ServerManagedInput (U := bool) := mkServerInput [revoke_tunnel] None false.
Definition interrupted_ops : list toy_op :=
  OpStart grant_input :: replicate 5 OpApply ++
  (OpRegistry <$> [Connect (bs "i1"); RegisterLookup 0; RegisterFinish 0; BeginRoute (bs "a.test"); RouteLookup 0;
                   RouteSelect 0; PlaceVisitor 0]) ++
  [OpStart revoke_input; OpDrop].
Definition interrupted_server : ServerState (U := bool) :=
  default toy_new (toy_steps (bs "s.test") interrupted_ops toy_new).
Definition redelivered_server : ServerState (U := bool) :=
  default toy_new (toy_steps (bs "s.test") (OpStart revoke_input :: replicate 6 OpApply) interrupted_server).

(** A revocation that the session drops halfway is acknowledged without its
    effect.  After the drop the Visitor of the removed identity runs on, unauthorized.
    When Control delivers the same input again the removed identity is no longer in the
    previous snapshot: [apply] succeeds and the revision is acknowledged, the connection
    leaves the pools, and it was never told to close. *)
Theorem interrupted_revocation_acknowledged :
  ∃ (s1 s2 s3 : ServerState (U := bool)) r,
    server_reachable (bs "s.test") default_limits s1 ∧ task s1 = None ∧
    work (vis (registry s1)) !! 1%Z = Some r ∧ abort_requested r = false ∧
    stream_remains_authorized (snapshot (registry s1)) r = false ∧
    rtc (server_step (bs "s.test")) s1 s2 ∧ task s2 = Some (TaskHint revoke_input) ∧
    apply_step s2 = Finished true s3 ∧
    tunnel_index_for_client_identity (snapshot (registry s3)) (bs "i1") = None ∧
    detached (net (registry s3)) = [(0, bs "i1")] ∧
    (close_reason <$> conns (net (registry s3)) !! 0) = Some None.
Proof.
  exists interrupted_server, redelivered_server,
    (match apply_step redelivered_server with Finished _ s => s | _ => redelivered_server end),
    (mkRecord (bs "a.test") 1 (bs "i1") false).
  split; [|split; [|split; [|split; [|split; [|split]]]]]; [|by vm_compute..| |].
  - exists true, None. apply toy_steps_rtc with interrupted_ops. by vm_compute.
  - apply toy_steps_rtc with (OpStart revoke_input :: replicate 6 OpApply). by vm_compute.
  - split_and!; by vm_compute.
Qed.
