(* ===== verification/ConfigPrep.v ===== *)
(** * ConfigPrep: from a parsed configuration file to prepared settings

    Base directories ([src/paths.rs]), the choice of trust roots ([src/trust.rs]), the raw
    sections and the search for unknown fields ([src/config/mod.rs]), and preparation: command
    line overrides, defaults and paths relative to the file
    ([src/config/preparation/*.rs], [src/config/client.rs]).

    Reading a file and the typed deserialisation of a section ([toml], [serde]) are parameters;
    paths are byte strings, as on Unix. *)

From Stdlib Require Import Ascii ZArith Lia.
From stdpp Require Import base strings numbers list.
From S2P Require Import Prelude Text Names Framing.
Import Hostname.

Open Scope Z_scope.

(** ** Paths *)

Definition is_absolute (p : bytes) : bool := match p with b :: _ => byte_eqb b "/"%char | [] => false end.

(** [Path::join]. *)
Definition path_join (dir p : bytes) : bytes :=
  if is_absolute p then p
  else match last dir with
       | Some b => if byte_eqb b "/"%char then dir ++ p else dir ++ bs "/" ++ p
       | None => p
       end.

(** [PathBuf]'s equality compares components: repeated separators and inner dots do not count. *)
Definition components (p : bytes) : bool * list bytes :=
  let parts := split_on "/"%char p in
  let inner := List.filter (λ c, negb (bool_decide (c = [])) && negb (bool_decide (c = bs "."))) parts in
  (is_absolute p,
   match parts with
   | c :: _ => if bool_decide (c = bs ".") then c :: inner else inner
   | [] => inner
   end).
Definition path_eqb (a b : bytes) : bool := bool_decide (components a = components b).

Inductive XdgDirectory := XdgConfig | XdgData | XdgState.

Definition env_var (d : XdgDirectory) : bytes :=
  match d with XdgConfig => bs "XDG_CONFIG_HOME" | XdgData => bs "XDG_DATA_HOME" | XdgState => bs "XDG_STATE_HOME" end.
Definition fallback_suffix (d : XdgDirectory) : bytes :=
  match d with XdgConfig => bs ".config" | XdgData => bs ".local/share" | XdgState => bs ".local/state" end.
Definition xdg_label (d : XdgDirectory) : bytes :=
  match d with XdgConfig => bs "config" | XdgData => bs "data" | XdgState => bs "state" end.

(** [XdgPathError] names the directory that could not be resolved. *)
Definition XdgPathError : Type := XdgDirectory.
Definition xdg_error_display (d : XdgPathError) : bytes :=
  bs "unable to resolve the XDG " ++ xdg_label d ++ bs " base directory: set " ++ env_var d ++ bs " or HOME".

(** The environment of the process; an empty variable counts as unset. *)
Definition Env : Type := bytes → option bytes.
Definition set_var (env : Env) (name : bytes) : option bytes :=
  value ← env name; if bool_decide (value = []) then None else Some value.

Definition xdg_base_dir (env : Env) (d : XdgDirectory) : result XdgPathError bytes :=
  match set_var env (env_var d) with
  | Some path => Ok path
  | None =>
      match set_var env (bs "HOME") with
      | None => Err d
      | Some home => Ok (path_join home (fallback_suffix d))
      end
  end.

Definition runewarp_dir (env : Env) (d : XdgDirectory) : result XdgPathError bytes :=
  dir ← xdg_base_dir env d; Ok (path_join dir (bs "runewarp")).

Definition in_runewarp_dir (env : Env) (d : XdgDirectory) (role name : bytes) : result XdgPathError bytes :=
  dir ← runewarp_dir env d; Ok (path_join (path_join dir role) name).

Definition default_config_path (env : Env) : result XdgPathError bytes :=
  dir ← runewarp_dir env XdgConfig; Ok (path_join dir (bs "config.toml")).
Definition default_client_identity_material_dir (env : Env) := in_runewarp_dir env XdgData (bs "client") (bs "identity").
Definition default_client_server_ca_path (env : Env) := in_runewarp_dir env XdgData (bs "client") (bs "server-ca.crt").
Definition default_server_cert_material_dir (env : Env) := in_runewarp_dir env XdgData (bs "server") (bs "cert").
Definition default_server_identity_material_dir (env : Env) := in_runewarp_dir env XdgData (bs "server") (bs "identity").
Definition default_control_ca_path (env : Env) := in_runewarp_dir env XdgData (bs "control") (bs "ca.crt").
Definition default_server_acme_state_dir (env : Env) := in_runewarp_dir env XdgState (bs "server") (bs "acme").
Definition default_client_public_cert_material_dir (env : Env) :=
  in_runewarp_dir env XdgData (bs "client") (bs "public-cert").
Definition default_client_acme_state_dir (env : Env) := in_runewarp_dir env XdgState (bs "client") (bs "acme").

Definition resolve_path (config_dir path : bytes) : bytes :=
  if is_absolute path then path else path_join config_dir path.

(** ** Prepared values *)

(** A value, or the message that validation will report. *)
Inductive PreparedValue (A : Type) := Ready (value : A) | PreparedError (error : XdgPathError).
Arguments Ready {A}.
Arguments PreparedError {A}.

Inductive PreparedDirectory := Explicit (path : bytes) | Defaulted (path : PreparedValue bytes).

Definition resolve_default_path (default_path : result XdgPathError bytes) : PreparedValue bytes :=
  match default_path with Ok path => Ready path | Err error => PreparedError error end.

Definition resolve_path_with_default (raw_path : option bytes) (config_dir : bytes)
    (default_path : result XdgPathError bytes) : PreparedValue bytes :=
  match raw_path with
  | Some path => Ready (resolve_path config_dir path)
  | None => resolve_default_path default_path
  end.

(** ** Trust roots *)

(** [ClientServerTrust] and [ControlTrust] have the same shape. *)
Inductive Trust := System | CaFile (path : bytes).
Inductive ResolveTrustError := InvalidMode (value : bytes) | UnexpectedCaFile | DefaultCaPath (error : XdgPathError).

Definition resolve_trust_with_default (trust_mode ca_file : option bytes) (config_dir : bytes)
    (default_ca_path : result XdgPathError bytes) : result ResolveTrustError Trust :=
  let mode := default (bs "system") trust_mode in
  if bool_decide (mode = bs "system") then
    match ca_file with Some _ => Err UnexpectedCaFile | None => Ok System end
  else if bool_decide (mode = bs "ca-file") then
    match ca_file with
    | Some file => Ok (CaFile (resolve_path config_dir file))
    | None => path ← map_err DefaultCaPath default_ca_path; Ok (CaFile path)
    end
  else Err (InvalidMode mode).

(** [PreparedClientTrust] and [PreparedControlTrust]. *)
Inductive PreparedTrust :=
| PreparedSystem
| PreparedCaFile (path : PreparedValue bytes)
| PreparedInvalidMode (value : bytes)
| PreparedUnexpectedCaFile.

Definition prepare_trust (trust_mode ca_file : option bytes) (config_dir : bytes)
    (default_ca_path : result XdgPathError bytes) : PreparedTrust :=
  match resolve_trust_with_default trust_mode ca_file config_dir default_ca_path with
  | Ok System => PreparedSystem
  | Ok (CaFile path) => PreparedCaFile (Ready path)
  | Err (InvalidMode value) => PreparedInvalidMode value
  | Err UnexpectedCaFile => PreparedUnexpectedCaFile
  | Err (DefaultCaPath error) => PreparedCaFile (PreparedError error)
  end.

(** ** Sections *)

Inductive LogLevel := LogOff | LogError | LogWarn | LogInfo | LogDebug | LogTrace.
Definition default_log_level : LogLevel := LogInfo.
Definition log_is_enabled (l : LogLevel) : bool := match l with LogOff => false | _ => true end.

(** [toml::Value], as far as the search for fields looks at it. *)
Inductive Toml := TTable (fields : list (bytes * Toml)) | TArray (values : list Toml) | TScalar.

Definition as_table (v : Toml) : option (list (bytes * Toml)) := match v with TTable fields => Some fields | _ => None end.
Definition as_array (v : Toml) : option (list Toml) := match v with TArray values => Some values | _ => None end.
Definition get_field (fields : list (bytes * Toml)) (name : bytes) : option Toml :=
  snd <$> List.find (λ f, bool_decide (f.1 = name)) fields.

Definition unknown_fields (known : list bytes) (fields : list (bytes * Toml)) : list bytes :=
  List.filter (λ name, negb (bool_decide (name ∈ known))) fields.*1.

Definition unknown_in_table (known : list bytes) (value : option Toml) : list bytes :=
  match (v ← value; as_table v) with Some fields => unknown_fields known fields | None => [] end.
Definition unknown_in_array (known : list bytes) (value : option Toml) : list bytes :=
  match (v ← value; as_array v) with
  | Some values => values ≫= λ v, unknown_in_table known (Some v)
  | None => []
  end.

Definition ACME_FIELDS : list bytes := [bs "email"; bs "state-dir"].
Definition SERVER_FIELDS : list bytes :=
  [bs "hostname"; bs "cert-dir"; bs "acme"; bs "public-bind-address"; bs "public-bind-addresses";
   bs "tunnel-bind-address"; bs "tunnel-bind-addresses"; bs "readiness-bind-address";
   bs "graceful-shutdown-duration"; bs "visitor-proxy-protocol"; bs "visitor-proxy-trusted-networks";
   bs "identity-dir"; bs "tunnels"].
Definition CLIENT_FIELDS : list bytes :=
  [bs "max-visitor-streams"; bs "graceful-shutdown-duration"; bs "server-address"; bs "server-addresses";
   bs "server-trust"; bs "server-ca-file"; bs "identity-dir"; bs "public-cert-dir"; bs "acme"; bs "services"].

Definition collect_server_unknown_fields (section : Toml) : list bytes :=
  match as_table section with
  | None => []
  | Some server =>
      unknown_fields SERVER_FIELDS server
      ++ unknown_in_table ACME_FIELDS (get_field server (bs "acme"))
      ++ unknown_in_array [bs "public-hostnames"; bs "client-identity"; bs "client-identities"]
           (get_field server (bs "tunnels"))
  end.

Definition collect_client_unknown_fields (section : Toml) : list bytes :=
  match as_table section with
  | None => []
  | Some client =>
      unknown_fields CLIENT_FIELDS client
      ++ unknown_in_table ACME_FIELDS (get_field client (bs "acme"))
      ++ unknown_in_array [bs "public-hostnames"; bs "backend-address"; bs "tls-mode"; bs "proxy-protocol"]
           (get_field client (bs "services"))
  end.

Definition collect_control_unknown_fields (section : Toml) : list bytes :=
  match as_table section with
  | None => []
  | Some control => unknown_fields [bs "address"; bs "trust"; bs "ca-file"] control
  end.

Record RawControlConfig := mkRawControl {
  raw_address : option bytes;
  raw_trust : option bytes;
  raw_ca_file : option bytes
}.
Record RawAcmeConfig := mkRawAcme { raw_email : option bytes; raw_state_dir : option bytes }.
Record RawServerTunnelConfig := mkRawTunnel {
  raw_public_hostnames : option (list bytes);
  raw_client_identity : option bytes;
  raw_client_identities : option (list bytes)
}.
Record RawServerConfig := mkRawServer {
  raw_hostname : option bytes;
  raw_cert_dir : option bytes;
  raw_server_identity_dir : option bytes;
  raw_server_acme : option RawAcmeConfig;
  raw_public_bind_address : option bytes;
  raw_public_bind_addresses : option (list bytes);
  raw_tunnel_bind_address : option bytes;
  raw_tunnel_bind_addresses : option (list bytes);
  raw_readiness_bind_address : option bytes;
  raw_server_graceful : option bytes;
  raw_visitor_proxy_protocol : option bytes;
  raw_visitor_proxy_trusted_networks : option (list bytes);
  raw_tunnels : list RawServerTunnelConfig
}.
Record RawClientServiceConfig := mkRawService {
  raw_service_hostnames : option (list bytes);
  raw_backend_address : option bytes;
  raw_tls_mode : option bytes;
  raw_proxy_protocol : option bytes
}.
Record RawClientConfig := mkRawClient {
  raw_max_visitor_streams : option Z;
  raw_client_graceful : option bytes;
  raw_server_address : option bytes;
  raw_server_addresses : option (list bytes);
  raw_server_trust : option bytes;
  raw_server_ca_file : option bytes;
  raw_client_identity_dir : option bytes;
  raw_public_cert_dir : option bytes;
  raw_client_acme : option RawAcmeConfig;
  raw_services : list RawClientServiceConfig
}.

(** ** Messages of validation *)

(** One constructor per message of the code, with what the message quotes. *)
Inductive Message :=
| UnknownField (field : bytes)
| MissingSection
| MutuallyExclusive (one other : bytes)
| Required (field : bytes)
| FieldInvalid (field : bytes)
| ContainsInvalid (field value : bytes)
| MustNotBeEmpty (field : bytes)
| MustBeV2 (field : bytes)
| BadTlsMode
| InvalidTrust (field value : bytes)
| UnexpectedFile (field : bytes)
| Xdg (error : XdgPathError)
| FileNotFound (field path : bytes)
| DirectoryNotFound (field path : bytes)
| BadTlsMaterial (error : bytes)
| BadServerIdentity (error : bytes)
| OneToEight (field : bytes)
| DuplicateAddress (field : bytes) (address : Proxy.SocketAddr)
| TrustedNetworksRequired
| TrustedNetworksWithoutProtocol
| TunnelsInManagedMode
| TunnelRequired
| DuplicateIdentity (identity : bytes)
| DuplicateHostname (field hostname : bytes)
| IncludesServerHostname (hostname : bytes)
| SameDirectory
| IdentityOnlyManaged
| VisitorStreamsOutOfRange
| TooManyServerAddresses
| AddressesInManagedMode
| AtLeastOneAddress
| AddressRequired
| ServiceRequired
| BackendInvalid
| TerminateRequiresHostnames
| HostnamesOmitted
| PublicCertRequired
| PublicCertUnused
| CliServerAddressManaged
| CliBackendWithServices
| CliRequired (flag : bytes) (section_missing : bool).

#[export] Instance XdgDirectory_eq_dec : EqDecision XdgDirectory.
Proof. solve_decision. Defined.
#[export] Instance SocketAddr_eq_dec : EqDecision Proxy.SocketAddr.
Proof. solve_decision. Defined.
#[export] Instance Message_eq_dec : EqDecision Message.
Proof. unfold EqDecision, Decision. decide equality; apply (decide _). Defined.

(** ** Preparation of the Control section *)

Record PreparedControlSection := mkPreparedControl {
  section_present : bool;
  control_address : option bytes;
  control_trust : PreparedTrust;
  control_unknown : list bytes
}.

(** [prepare_control_section], given the section of the file if it has one. *)
Definition prepare_control_section (env : Env) (config_dir : bytes) (section : option (Toml * RawControlConfig))
    (runtime_control_address : option bytes) : PreparedControlSection :=
  match section with
  | None => mkPreparedControl false runtime_control_address PreparedSystem []
  | Some (value, raw) =>
      mkPreparedControl true
        (match runtime_control_address with Some a => Some a | None => raw_address raw end)
        (prepare_trust (raw_trust raw) (raw_ca_file raw) config_dir (default_control_ca_path env))
        (collect_control_unknown_fields value)
  end.

Definition prepare_control_section_without_config (runtime_control_address : option bytes) :
    PreparedControlSection :=
  mkPreparedControl false runtime_control_address PreparedSystem [].

(** ** Preparation of the Server *)

Record PreparedAcmeConfig := mkPreparedAcme { acme_email : option bytes; acme_state_directory : PreparedDirectory }.

Record PreparedServerConfig := mkPreparedServer {
  p_hostname : option bytes;
  p_log_level : LogLevel;
  p_public_bind_address : option bytes;
  p_public_bind_addresses : option (list bytes);
  p_tunnel_bind_address : option bytes;
  p_tunnel_bind_addresses : option (list bytes);
  p_readiness_bind_address : option bytes;
  p_graceful : bytes;
  p_visitor_proxy_protocol : option bytes;
  p_visitor_proxy_trusted_networks : option (list bytes);
  p_manual_cert_present : bool;
  p_acme_present : bool;
  p_manual_certificate_directory : option (PreparedValue bytes);
  p_acme : option PreparedAcmeConfig;
  p_tunnels : list RawServerTunnelConfig;
  p_unknown : list Message;
  p_control : PreparedControlSection;
  p_identity_directory : option (PreparedValue bytes)
}.

Definition is_some {A} (o : option A) : bool := match o with Some _ => true | None => false end.

Definition prepare_server_identity_directory (env : Env) (identity_dir : option bytes) (config_dir : bytes)
    (managed : bool) : option (PreparedValue bytes) :=
  match identity_dir with
  | Some directory => Some (Ready (resolve_path config_dir directory))
  | None => if managed then Some (resolve_default_path (default_server_identity_material_dir env)) else None
  end.

Definition prepare_acme_config (raw : RawAcmeConfig) (config_dir : bytes)
    (default_state_dir : result XdgPathError bytes) : PreparedAcmeConfig :=
  mkPreparedAcme (raw_email raw)
    (match raw_state_dir raw with
     | Some dir => Explicit (resolve_path config_dir dir)
     | None => Defaulted (resolve_default_path default_state_dir)
     end).

(** The singular address defaults when neither form is configured. *)
Definition default_bind_address (address : option bytes) (addresses : option (list bytes)) : option bytes :=
  match address, addresses with
  | Some a, _ => Some a
  | None, None => Some (bs "0.0.0.0:443")
  | None, Some _ => None
  end.

Definition prepare_raw_server_config (env : Env) (config_dir : bytes) (log_level : LogLevel) (raw : RawServerConfig)
    (unknown : list Message) (control : PreparedControlSection) : PreparedServerConfig :=
  let manual_cert_present := is_some (raw_cert_dir raw) in
  let acme_present := is_some (raw_server_acme raw) in
  let managed := is_some (control_address control) in
  mkPreparedServer (raw_hostname raw) log_level
    (default_bind_address (raw_public_bind_address raw) (raw_public_bind_addresses raw))
    (raw_public_bind_addresses raw)
    (default_bind_address (raw_tunnel_bind_address raw) (raw_tunnel_bind_addresses raw))
    (raw_tunnel_bind_addresses raw)
    (raw_readiness_bind_address raw) (default (bs "60s") (raw_server_graceful raw))
    (raw_visitor_proxy_protocol raw) (raw_visitor_proxy_trusted_networks raw)
    manual_cert_present acme_present
    (if negb acme_present
     then Some (resolve_path_with_default (raw_cert_dir raw) config_dir (default_server_cert_material_dir env))
     else None)
    (if acme_present && negb manual_cert_present
     then (λ acme, prepare_acme_config acme config_dir (default_server_acme_state_dir env)) <$> raw_server_acme raw
     else None)
    (raw_tunnels raw) unknown control
    (prepare_server_identity_directory env (raw_server_identity_dir raw) config_dir managed).

Definition SERVER_HOSTNAME_ENV_VAR : bytes := bs "RUNEWARP_SERVER_HOSTNAME".

Definition resolve_server_hostname_runtime_override (env : Env) (hostname : option bytes) : option bytes :=
  match hostname with Some h => Some h | None => env SERVER_HOSTNAME_ENV_VAR end.

(** The fields that name the same setting twice. *)
Definition bind_conflicts (section : Toml) : list Message :=
  match as_table section with
  | None => []
  | Some fields =>
      [bs "public-bind-address"; bs "tunnel-bind-address"] ≫= λ singular,
        let plural := singular ++ bs "es" in
        if is_some (get_field fields singular) && is_some (get_field fields plural)
        then [MutuallyExclusive (bs "server." ++ singular) (bs "server." ++ plural)] else []
  end.

(** The parsed file: its sections with their typed form, or the error of its
    deserialisation, and the log level. *)
Record ConfigDocument (E : Type) := mkDocument {
  server_section : option (Toml * result E RawServerConfig);
  client_section : option (Toml * result E RawClientConfig);
  control_section : option (Toml * result E RawControlConfig);
  document_log_level : result E LogLevel
}.
Arguments server_section {E}.
Arguments client_section {E}.
Arguments control_section {E}.
Arguments document_log_level {E}.

Inductive ConfigFileError (E : Type) := ParseError (error : E) | ValidationError (messages : list Message).
Arguments ParseError {E}.
Arguments ValidationError {E}.

Definition load_section {E A} (section : option (Toml * result E A)) :
    result (ConfigFileError E) (option (Toml * A)) :=
  match section with
  | None => Ok None
  | Some (value, raw) => raw ← map_err ParseError raw; Ok (Some (value, raw))
  end.

Record ServerRuntimeArgs := mkServerArgs { arg_hostname : option bytes; arg_server_control : option bytes }.

Definition with_hostname (hostname : option bytes) (raw : RawServerConfig) : RawServerConfig :=
  match hostname with
  | None => raw
  | Some h =>
      mkRawServer (Some h) (raw_cert_dir raw) (raw_server_identity_dir raw) (raw_server_acme raw)
        (raw_public_bind_address raw) (raw_public_bind_addresses raw) (raw_tunnel_bind_address raw)
        (raw_tunnel_bind_addresses raw) (raw_readiness_bind_address raw) (raw_server_graceful raw)
        (raw_visitor_proxy_protocol raw) (raw_visitor_proxy_trusted_networks raw) (raw_tunnels raw)
  end.

Definition prepare_server_config_from_cli {E} (env : Env) (config_dir : bytes) (doc : ConfigDocument E)
    (runtime : ServerRuntimeArgs) : result (ConfigFileError E) PreparedServerConfig :=
  match server_section doc with
  | None => Err (ValidationError [MissingSection])
  | Some (section, raw) =>
      match bind_conflicts section with
      | [] =>
          let unknown := UnknownField <$> collect_server_unknown_fields section in
          raw ← map_err ParseError raw;
          let raw := with_hostname (resolve_server_hostname_runtime_override env (arg_hostname runtime)) raw in
          log_level ← map_err ParseError (document_log_level doc);
          control ← load_section (control_section doc);
          Ok (prepare_raw_server_config env config_dir log_level raw unknown
                (prepare_control_section env config_dir control (arg_server_control runtime)))
      | conflicts => Err (ValidationError conflicts)
      end
  end.

(** ** Preparation of the Client *)

Inductive PreparedClientTlsMode := PreparedPassthrough | PreparedTerminate | PreparedInvalidTls (value : bytes).

Record PreparedClientServiceConfig := mkPreparedService {
  p_service_hostnames : option (list bytes);
  p_backend_address : option bytes;
  p_tls_mode : PreparedClientTlsMode;
  p_proxy_protocol : option bytes
}.

Record PreparedClientConfig := mkPreparedClient {
  p_max_visitor_streams : Z;
  p_client_graceful : bytes;
  p_server_address : option bytes;
  p_server_addresses : option (list bytes);
  p_client_log_level : LogLevel;
  p_trust : PreparedTrust;
  p_client_identity_directory : PreparedValue bytes;
  p_services : list PreparedClientServiceConfig;
  p_manual_public_cert_present : bool;
  p_manual_public_cert_directory : option (PreparedValue bytes);
  p_client_acme_present : bool;
  p_client_acme : option PreparedAcmeConfig;
  p_client_unknown : list Message;
  p_client_control : PreparedControlSection
}.

Definition DEFAULT_VISITOR_CAPACITY : Z := 16384.

Definition prepare_client_service (raw : RawClientServiceConfig) : PreparedClientServiceConfig :=
  mkPreparedService (raw_service_hostnames raw) (raw_backend_address raw)
    (match raw_tls_mode raw with
     | None => PreparedPassthrough
     | Some mode =>
         if bool_decide (mode = bs "passthrough") then PreparedPassthrough
         else if bool_decide (mode = bs "terminate") then PreparedTerminate
         else PreparedInvalidTls mode
     end)
    (raw_proxy_protocol raw).

(** The two directories whose defaults the caller supplies. *)
Record ClientDefaults := mkClientDefaults {
  identity_directory_default : result XdgPathError bytes;
  public_cert_directory_default : result XdgPathError bytes
}.

Definition prepare_raw_client_config (env : Env) (config_dir : bytes) (log_level : LogLevel) (raw : RawClientConfig)
    (unknown : list Message) (control : PreparedControlSection) (defaults : ClientDefaults) : PreparedClientConfig :=
  let manual_public_cert_present := is_some (raw_public_cert_dir raw) in
  let acme_present := is_some (raw_client_acme raw) in
  let has_terminating_service :=
    existsb (λ service, bool_decide (raw_tls_mode service = Some (bs "terminate"))) (raw_services raw) in
  mkPreparedClient (default DEFAULT_VISITOR_CAPACITY (raw_max_visitor_streams raw))
    (default (bs "60s") (raw_client_graceful raw))
    (raw_server_address raw) (raw_server_addresses raw) log_level
    (prepare_trust (raw_server_trust raw) (raw_server_ca_file raw) config_dir (default_client_server_ca_path env))
    (resolve_path_with_default (raw_client_identity_dir raw) config_dir (identity_directory_default defaults))
    (prepare_client_service <$> raw_services raw)
    manual_public_cert_present
    (match raw_public_cert_dir raw with
     | Some directory => Some (Ready (resolve_path config_dir directory))
     | None =>
         if negb acme_present && has_terminating_service
         then Some (resolve_default_path (public_cert_directory_default defaults)) else None
     end)
    acme_present
    (if acme_present && negb manual_public_cert_present
     then (λ acme, prepare_acme_config acme config_dir (default_client_acme_state_dir env)) <$> raw_client_acme raw
     else None)
    unknown control.

Record ClientRuntimeArgs := mkClientArgs {
  arg_server_addresses : list bytes;
  arg_backend_address : option bytes;
  arg_client_control : option bytes
}.

Inductive SelectedClientConfig := SelectedExplicit (path : bytes) | Discovered (path : bytes) | NoConfig.

Definition select_client_config (env : Env) (is_file : bytes → bool) (config : option bytes) :
    result XdgPathError SelectedClientConfig :=
  match config with
  | Some path => Ok (SelectedExplicit path)
  | None => path ← default_config_path env; Ok (if is_file path then Discovered path else NoConfig)
  end.

Definition service_block_count (section : Toml) : Z :=
  match (client ← as_table section; services ← get_field client (bs "services"); as_array services) with
  | Some services => len services
  | None => 0
  end.

Definition with_addresses (address : option bytes) (addresses : option (list bytes)) (raw : RawClientConfig) :
    RawClientConfig :=
  mkRawClient (raw_max_visitor_streams raw) (raw_client_graceful raw) address addresses (raw_server_trust raw)
    (raw_server_ca_file raw) (raw_client_identity_dir raw) (raw_public_cert_dir raw) (raw_client_acme raw)
    (raw_services raw).
Definition with_services (services : list RawClientServiceConfig) (raw : RawClientConfig) : RawClientConfig :=
  mkRawClient (raw_max_visitor_streams raw) (raw_client_graceful raw) (raw_server_address raw)
    (raw_server_addresses raw) (raw_server_trust raw) (raw_server_ca_file raw) (raw_client_identity_dir raw)
    (raw_public_cert_dir raw) (raw_client_acme raw) services.

Definition catch_all_service (backend_address : option bytes) : RawClientServiceConfig :=
  mkRawService None backend_address None None.

(** [prepare_selected_config_client_config] on a file with a [client] section. *)
Definition prepare_client_section (env : Env) (config_dir : bytes) (section : Toml) (raw : RawClientConfig)
    (log_level : LogLevel) (control : PreparedControlSection) (runtime : ClientRuntimeArgs)
    (defaults : ClientDefaults) : PreparedClientConfig :=
  let unknown := UnknownField <$> collect_client_unknown_fields section in
  let managed := is_some (control_address control) in
  let '(raw, messages) :=
    if managed && negb (bool_decide (arg_server_addresses runtime = []))
    then (raw, unknown ++ [CliServerAddressManaged])
    else match arg_server_addresses runtime with
         | [] => (raw, unknown)
         | [address] => (with_addresses (Some address) None raw, unknown)
         | addresses => (with_addresses None (Some addresses) raw, unknown)
         end in
  let '(raw, messages) :=
    match arg_backend_address runtime with
    | None => (raw, messages)
    | Some backend =>
        if 0 <? service_block_count section then (raw, messages ++ [CliBackendWithServices])
        else (with_services [catch_all_service (Some backend)] raw, messages)
    end in
  prepare_raw_client_config env config_dir log_level raw messages control defaults.

(** [prepare_cli_only_client_config]. *)
Definition prepare_cli_only (env : Env) (config_dir : bytes) (has_file : bool) (log_level : LogLevel)
    (control : PreparedControlSection) (runtime : ClientRuntimeArgs) (defaults : ClientDefaults) :
    result (list Message) PreparedClientConfig :=
  let managed := is_some (control_address control) in
  let no_addresses := bool_decide (arg_server_addresses runtime = []) in
  let messages :=
    (if managed then if no_addresses then [] else [CliServerAddressManaged]
     else if no_addresses then [CliRequired (bs "--server-address") has_file] else [])
    ++ match arg_backend_address runtime with
       | None => [CliRequired (bs "--backend-address") has_file]
       | Some _ => []
       end in
  match messages with
  | [] =>
      Ok (prepare_raw_client_config env config_dir log_level
            (mkRawClient None None
               (match arg_server_addresses runtime with [a] => if managed then None else Some a | _ => None end)
               (match arg_server_addresses runtime with
                | _ :: _ :: _ => if managed then None else Some (arg_server_addresses runtime)
                | _ => None
                end)
               None None None None None [catch_all_service (arg_backend_address runtime)])
            [] control defaults)
  | _ => Err messages
  end.

Inductive ClientConfigResolutionError (E : Type) :=
| ClientConfigFile (error : ConfigFileError E)
| ClientValidation (messages : list Message).
Arguments ClientConfigFile {E}.
Arguments ClientValidation {E}.

(** [prepare_selected_client_config]; [doc] is the selected file, if there is one. *)
Definition prepare_selected_client_config {E} (env : Env) (config_dir : bytes) (doc : option (ConfigDocument E))
    (runtime : ClientRuntimeArgs) (defaults : ClientDefaults) :
    result (ClientConfigResolutionError E) PreparedClientConfig :=
  match doc with
  | None =>
      map_err ClientValidation
        (prepare_cli_only env (bs ".") false default_log_level
           (prepare_control_section_without_config (arg_client_control runtime)) runtime defaults)
  | Some doc =>
      log_level ← map_err (ClientConfigFile ∘ ParseError) (document_log_level doc);
      match client_section doc with
      | None =>
          control ← map_err ClientConfigFile (load_section (control_section doc));
          map_err ClientValidation
            (prepare_cli_only env config_dir true log_level
               (prepare_control_section env config_dir control (arg_client_control runtime)) runtime defaults)
      | Some (section, raw) =>
          raw ← map_err (ClientConfigFile ∘ ParseError) raw;
          control ← map_err ClientConfigFile (load_section (control_section doc));
          Ok (prepare_client_section env config_dir section raw log_level
                (prepare_control_section env config_dir control (arg_client_control runtime)) runtime defaults)
      end
  end.

(** ** Material directories *)

(** [resolve_material_directory]: the command line, then the configuration, then the default. *)
Definition resolve_material_directory {E} (candidate : option bytes)
    (directory : option bytes) (configured_dir : bytes → result (ConfigFileError E) (option bytes))
    (default_dir : result XdgPathError bytes) : result (ConfigFileError E + XdgPathError) bytes :=
  match directory with
  | Some directory => Ok directory
  | None =>
      configured ← match candidate with
                   | Some path => map_err inl (configured_dir path)
                   | None => Ok None
                   end;
      match configured with Some dir => Ok dir | None => map_err inr default_dir end
  end.

Definition candidate_config_path (env : Env) (is_file : bytes → bool) (config : option bytes) : option bytes :=
  match config with
  | Some config => Some config
  | None => match default_config_path env with
            | Ok path => if is_file path then Some path else None
            | Err _ => None
            end
  end.

(** *** The Server hostname of the certificate commands *)

Inductive ServerCertHostnameError :=
| HostnameMissing
| HostnameMismatch (cli configured : bytes)
| HostnameInvalid (error : PublicHostnameError).

(** [resolve_server_cert_hostname], given the hostname that the configuration projects. *)
Definition resolve_server_cert_hostname (env : Env) (cli_hostname configured_hostname : option bytes) :
    result ServerCertHostnameError bytes :=
  hostname ←
    match cli_hostname, resolve_server_hostname_runtime_override env cli_hostname, configured_hostname with
    | Some hostname, _, Some configured =>
        parsed ← map_err HostnameInvalid (ServerHostname_try_from hostname);
        _ ← reject_if (bool_decide (parsed ≠ configured)) (HostnameMismatch hostname configured);
        Ok hostname
    | Some hostname, _, None => Ok hostname
    | None, Some hostname, _ => Ok hostname
    | None, None, Some configured => Ok configured
    | None, None, None => Err HostnameMissing
    end;
  _ ← map_err HostnameInvalid (ServerHostname_try_from hostname);
  Ok hostname.
