(* ===== verification/Checks.v ===== *)
(** The accumulation of validation messages, for [src/config/mod.rs].

    A check sees the messages so far and extends them; a panic is a value. [Appends] is a
    check that never drops a message, [Reporting] one that also always returns, [clean] a
    run that reports nothing. A validation is a sequence of reporting checks that ends in
    [conclude], which unwraps settings only when nothing was reported: the lemmas at the end
    say what acceptance and a panic of such a sequence imply. *)

From Stdlib Require Import Ascii ZArith Lia.
From stdpp Require Import base strings numbers gmap list.
From S2P Require Import Prelude ConfigPrep.

Open Scope Z_scope.

(** A check sees the messages so far and extends them; [None] is a panic. *)
Definition checks (A : Type) : Type := list Message → option (A * list Message).

#[export] Instance checks_ret : MRet checks := λ A a ms, Some (a, ms).
#[export] Instance checks_bind : MBind checks := λ A B f m ms,
  match m ms with Some (a, ms') => f a ms' | None => None end.

Definition push (m : Message) : checks unit := λ ms, Some (tt, ms ++ [m]).
(** Unless the same message is there already. *)
Definition push_new (m : Message) : checks unit := λ ms,
  Some (tt, if bool_decide (m ∈ ms) then ms else ms ++ [m]).
Definition panic {A} : checks A := λ _, None.
Definition push_if (b : bool) (m : Message) : checks unit := if b then push m else mret tt.
Definition fail_with {A} (m : Message) : checks (option A) := _ ← push m; mret None.

(** [Option::and_then] with a check inside. *)
Definition and_then {A B} (o : option A) (f : A → checks (option B)) : checks (option B) :=
  match o with Some a => f a | None => mret None end.

(** A loop that collects what each element yields. *)
Fixpoint collect {A B} (f : A → checks (option B)) (xs : list A) : checks (list B) :=
  match xs with
  | [] => mret []
  | x :: xs' =>
      o ← f x; rest ← collect f xs';
      mret (match o with Some b => b :: rest | None => rest end)
  end.

Fixpoint map_checks {A B} (f : A → checks B) (xs : list A) : checks (list B) :=
  match xs with
  | [] => mret []
  | x :: xs' => b ← f x; rest ← map_checks f xs'; mret (b :: rest)
  end.

(** The loop that reports elements seen before. *)
Fixpoint unique (report : bytes → checks unit) (seen : list bytes) (xs : list bytes) : checks unit :=
  match xs with
  | [] => mret tt
  | x :: xs' => _ ← (if bool_decide (x ∈ seen) then report x else mret tt); unique report (x :: seen) xs'
  end.

(** [expect] on a setting whose message must have been reported. *)
Definition expect {A} (o : option A) : checks A := match o with Some a => mret a | None => panic end.

(** The configuration if no message was reported. *)
Definition conclude {A} (accept : checks A) : checks (result (list Message) A) := λ ms,
  match ms with [] => (a ← accept; mret (Ok a)) [] | _ => Some (Err ms, ms) end.

(** ** Checks only append *)

Class Appends {A} (m : checks A) : Prop :=
  appends : ∀ ms a ms', m ms = Some (a, ms') → ∃ new, ms' = ms ++ new.

#[export] Instance appends_ret {A} (a : A) : Appends (mret a).
Proof. intros ms b ms' [= <- <-]. exists []. by rewrite app_nil_r. Qed.
#[export] Instance appends_panic {A} : Appends (panic (A := A)).
Proof. by intros ms b ms'. Qed.
#[export] Instance appends_bind {A B} (m : checks A) (f : A → checks B) :
  Appends m → (∀ a, Appends (f a)) → Appends (m ≫= f).
Proof.
  intros Hm Hf ms b ms'. unfold mbind, checks_bind. destruct (m ms) as [[a ms1]|] eqn:E; [|done].
  intros Hb. destruct (Hm _ _ _ E) as [n1 ->]. destruct (Hf a _ _ _ Hb) as [n2 ->].
  exists (n1 ++ n2). by rewrite app_assoc.
Qed.
#[export] Instance appends_expect {A} (o : option A) : Appends (expect o).
Proof. destruct o; apply _. Qed.
#[export] Instance appends_conclude {A} (m : checks A) : Appends m → Appends (conclude m).
Proof.
  intros Hm ms r ms'. unfold conclude. destruct ms as [|x ms]; [apply appends|].
  intros [= <- <-]. exists []. by rewrite app_nil_r.
Qed.

(** ** Checks that always return *)

Class Reporting {A} (m : checks A) : Prop :=
  reporting : ∀ ms, ∃ a new, m ms = Some (a, ms ++ new).

#[export] Instance reporting_appends {A} (m : checks A) : Reporting m → Appends m.
Proof. intros Hm ms a ms' H. destruct (Hm ms) as (b & new & Hb). exists new. congruence. Qed.

#[export] Instance reporting_ret {A} (a : A) : Reporting (mret a).
Proof. intros ms. exists a, []. by rewrite app_nil_r. Qed.
#[export] Instance reporting_push m : Reporting (push m).
Proof. intros ms. by eexists _, _. Qed.
#[export] Instance reporting_push_new m : Reporting (push_new m).
Proof.
  intros ms. unfold push_new. case_bool_decide; [exists tt, []; by rewrite app_nil_r|by eexists _, _].
Qed.
#[export] Instance reporting_bind {A B} (m : checks A) (f : A → checks B) :
  Reporting m → (∀ a, Reporting (f a)) → Reporting (m ≫= f).
Proof.
  intros Hm Hf ms. unfold mbind, checks_bind. destruct (Hm ms) as (a & n1 & ->).
  destruct (Hf a (ms ++ n1)) as (b & n2 & ->). exists b, (n1 ++ n2). by rewrite app_assoc.
Qed.
#[export] Instance reporting_push_if b m : Reporting (push_if b m).
Proof. destruct b; apply _. Qed.
#[export] Instance reporting_fail_with {A} m : Reporting (fail_with (A := A) m).
Proof. apply _. Qed.
#[export] Instance reporting_and_then {A B} (o : option A) (f : A → checks (option B)) :
  (∀ a, Reporting (f a)) → Reporting (and_then o f).
Proof. intros Hf. destruct o; apply _. Qed.
#[export] Instance reporting_collect {A B} (f : A → checks (option B)) xs :
  (∀ a, Reporting (f a)) → Reporting (collect f xs).
Proof. intros Hf. induction xs; simpl; apply _. Qed.
#[export] Instance reporting_map_checks {A B} (f : A → checks B) xs :
  (∀ a, Reporting (f a)) → Reporting (map_checks f xs).
Proof. intros Hf. induction xs; simpl; apply _. Qed.
#[export] Instance reporting_unique report seen xs :
  (∀ a, Reporting (report a)) → Reporting (unique report seen xs).
Proof.
  intros Hf. revert seen. induction xs as [|x xs IH]; intros seen; simpl; [apply _|].
  apply reporting_bind; [case_bool_decide; apply _|intros _; apply IH].
Qed.

(** Splits the matches of a check until the instances above apply. *)
Ltac reporting_checks :=
  repeat (first [apply _ | apply reporting_bind; [|intros ?] | apply reporting_collect; intros ?
                | apply reporting_and_then; intros ? | progress cbv beta | case_match]).
Ltac appending :=
  repeat (first [apply _ | apply reporting_appends; reporting_checks; fail | apply appends_bind; [|intros ?]
                | apply appends_conclude | progress cbv beta | case_match]).

(** What a check does from an empty list when it reports nothing. *)
Definition clean {A} (m : checks A) (a : A) : Prop := m [] = Some (a, []).

Lemma clean_start {A} (m : checks A) `{!Appends m} ms a : m ms = Some (a, []) → ms = [].
Proof. intros Hm. destruct (appends _ _ _ Hm) as [new Hn]. by apply symmetry, app_eq_nil in Hn as [-> _]. Qed.

Lemma clean_bind {A B} (m : checks A) (f : A → checks B) b :
  Appends m → (∀ a, Appends (f a)) → clean (m ≫= f) b → ∃ a, clean m a ∧ clean (f a) b.
Proof.
  intros Hm Hf. unfold clean, mbind, checks_bind. destruct (m []) as [[a ms1]|] eqn:E; [|done]. intros Hb.
  assert (ms1 = []) as -> by by eapply (clean_start (f a)). eauto.
Qed.

Lemma clean_ret {A} (a b : A) : clean (mret a) b → b = a.
Proof. by intros [= ->]. Qed.
Lemma clean_push_if b m u : clean (push_if b m) u → b = false.
Proof. by destruct b. Qed.
Lemma clean_fail {A} m (o : option A) : clean (fail_with m) o → False.
Proof. done. Qed.

Lemma clean_collect {A B} (f : A → checks (option B)) (R : A → B → Prop) xs bs :
  (∀ a, Reporting (f a)) → (∀ a o, clean (f a) o → ∃ b, o = Some b ∧ R a b) →
  clean (collect f xs) bs → Forall2 R xs bs.
Proof.
  intros Hf HR. revert bs. induction xs as [|x xs IH]; intros bs Hc; simpl in Hc.
  { apply clean_ret in Hc as ->. constructor. }
  apply clean_bind in Hc as (o & Ho & Hc); [|apply _..].
  apply clean_bind in Hc as (rest & Hrest & Hc); [|apply _..].
  apply HR in Ho as (b & -> & Hb). apply clean_ret in Hc as ->. constructor; auto.
Qed.

Lemma clean_map {A B} (f : A → checks B) (R : A → B → Prop) xs bs :
  (∀ a, Reporting (f a)) → (∀ a b, clean (f a) b → R a b) → clean (map_checks f xs) bs → Forall2 R xs bs.
Proof.
  intros Hf HR. revert bs. induction xs as [|x xs IH]; intros bs Hc; simpl in Hc.
  { apply clean_ret in Hc as ->. constructor. }
  apply clean_bind in Hc as (o & Ho & Hc); [|apply _..].
  apply clean_bind in Hc as (rest & Hrest & Hc); [|apply _..].
  apply clean_ret in Hc as ->. constructor; auto.
Qed.

Lemma clean_unique report seen xs u :
  (∀ a, Reporting (report a)) → (∀ x v, ¬ clean (report x) v) → clean (unique report seen xs) u →
  NoDup xs ∧ ∀ x, x ∈ xs → x ∉ seen.
Proof.
  intros Hf Hr. revert seen. induction xs as [|x xs IH]; intros seen Hc; simpl in Hc.
  { split; [constructor|by intros ? ?%elem_of_nil]. }
  apply clean_bind in Hc as (v & Hv & Hc);
    [|case_bool_decide; apply _|apply _].
  case_bool_decide as Hin; [by apply Hr in Hv|].
  destruct (IH _ Hc) as [Hnd Hd]. split.
  - constructor; [|done]. intros Hx. apply (Hd x Hx). by left.
  - intros y [->|Hy]%elem_of_cons; [done|]. intros Hys. apply (Hd y Hy). by right.
Qed.

(** Splits a clean run of a chain of checks into clean runs of its parts. *)
Ltac clean_step H :=
  match type of H with
  | clean (_ ≫= _) _ =>
      let x := fresh "x" in let Hx := fresh "Hc" in
      apply clean_bind in H as (x & Hx & H); [|intros; appending; fail..]
  | clean (mret _) _ => apply clean_ret in H
  | clean (push_if _ _) _ => apply clean_push_if in H
  end.
Tactic Notation "clean_bind" hyp(H) "as" ident(x) ident(Hx) :=
  apply clean_bind in H as (x & Hx & H); [|intros; appending; fail..].

(** ** Acceptance and panics of a validation *)

(** Acceptance leaves no message, a rejection is the messages. *)
Class Concludes {A} (m : checks (result (list Message) A)) : Prop :=
  concludes : ∀ ms r ms', m ms = Some (r, ms') → match r with Ok _ => ms' = [] | Err e => e = ms' end.
(** Only a run without messages panics. *)
Class Guarded {A} (m : checks A) : Prop := guarded : ∀ ms, m ms = None → ms = [].

(** A check that neither reports nor drops. *)
Class Quiet {A} (m : checks A) : Prop := quiet : ∀ ms a ms', m ms = Some (a, ms') → ms' = ms.

#[export] Instance quiet_ret {A} (a : A) : Quiet (mret a).
Proof. by intros ms b ms' [= _ <-]. Qed.
#[export] Instance quiet_expect {A} (o : option A) : Quiet (expect o).
Proof. destruct o; [apply _|by intros ms b ms']. Qed.
#[export] Instance quiet_bind {A B} (m : checks A) (f : A → checks B) :
  Quiet m → (∀ a, Quiet (f a)) → Quiet (m ≫= f).
Proof.
  intros Hm Hf ms b ms'. unfold mbind, checks_bind. destruct (m ms) as [[a ms1]|] eqn:E; [|done].
  intros Hb. rewrite <- (Hm _ _ _ E). eapply Hf, Hb.
Qed.

#[export] Instance concludes_conclude {A} (m : checks A) : Quiet m → Concludes (conclude m).
Proof.
  intros Hm ms r ms'. unfold conclude, mbind, checks_bind.
  destruct ms as [|x ms]; [|by intros [= <- <-]].
  destruct (m []) as [[a ms1]|] eqn:E; [|done]. intros [= <- <-]. by apply quiet in E.
Qed.
#[export] Instance concludes_bind {A B} (m : checks A) (f : A → checks (result (list Message) B)) :
  (∀ a, Concludes (f a)) → Concludes (m ≫= f).
Proof.
  intros Hf ms b ms'. unfold mbind, checks_bind. destruct (m ms) as [[a ms1]|]; [|done]. apply Hf.
Qed.

#[export] Instance guarded_conclude {A} (m : checks A) : Guarded (conclude m).
Proof. intros [|x ms]; done. Qed.
#[export] Instance guarded_bind {A B} (m : checks A) (f : A → checks B) :
  Reporting m → (∀ a, Guarded (f a)) → Guarded (m ≫= f).
Proof.
  intros Hm Hf ms. unfold mbind, checks_bind. destruct (Hm ms) as (a & new & ->).
  by intros [-> _]%Hf%app_eq_nil.
Qed.

Ltac concluding := repeat (first [apply _ | apply concludes_bind; intros ? | progress cbv beta | case_match]).
Ltac guarding :=
  repeat (first [apply _ | apply guarded_bind; [reporting_checks; fail|intros ?] | progress cbv beta | case_match]).

(** An accepted configuration came from a run without messages. *)
Lemma accepted_clean {A} (m : checks (result (list Message) A)) ms a :
  Appends m → Concludes m → fst <$> m ms = Some (Ok a) → ms = [] ∧ clean m (Ok a).
Proof.
  intros Hm Hc H. destruct (m ms) as [[r ms']|] eqn:E; [|done]. injection H as ->.
  pose proof (Hc _ _ _ E) as ->. assert (ms = []) as -> by by eapply (clean_start m). done.
Qed.

Lemma clean_conclude {A} (m : checks A) a : Quiet m → clean (conclude m) (Ok a) → clean m a.
Proof.
  intros Hm. unfold clean, conclude, mbind, checks_bind. destruct (m []) as [[b ms]|] eqn:E; [|done].
  intros [= ->]. by rewrite (Hm _ _ _ E).
Qed.
Lemma clean_expect {A} (o : option A) a : clean (expect o) a → o = Some a.
Proof. by destruct o; intros [= ->]. Qed.

(** The run that panics without messages; it goes through the checks before the panic. *)
Definition panics {A} (m : checks A) : Prop := m [] = None.

Lemma panics_bind {A B} (m : checks A) (f : A → checks B) :
  Reporting m → (∀ a, Guarded (f a)) → panics (m ≫= f) → ∃ a, clean m a ∧ panics (f a).
Proof.
  intros Hm Hf. unfold panics, mbind, checks_bind. destruct (Hm []) as (a & new & E). rewrite E. intros Hb.
  pose proof (Hf a _ Hb) as Hn. simpl in Hn. subst new. by exists a.
Qed.
Lemma panics_conclude {A} (m : checks A) : panics (conclude m) → panics m.
Proof. unfold panics, conclude, mbind, checks_bind. by destruct (m []) as [[? ?]|]. Qed.
Lemma panics_expect {A B} (o : option A) (f : A → checks B) :
  panics (expect o ≫= f) → o = None ∨ ∃ a, o = Some a ∧ panics (f a).
Proof. destruct o; [right; by eexists|by left]. Qed.
Lemma panics_ret {A} (a : A) : ¬ panics (mret a).
Proof. done. Qed.

Tactic Notation "panic_bind" hyp(H) "as" ident(x) ident(Hx) :=
  apply panics_bind in H as (x & Hx & H); [|intros; reporting_checks; fail|intros; guarding; fail].

(** Messages there before a guarded validation reach its errors. *)
Lemma reported_kept {A} (m : checks (result (list Message) A)) ms :
  Guarded m → Appends m → Concludes m → ms ≠ [] →
  ∃ new, fst <$> m ms = Some (Err (ms ++ new)).
Proof.
  intros Hg Ha Hc Hms. destruct (m ms) as [[[a|r] ms']|] eqn:E.
  - destruct (Ha _ _ _ E) as [new Hn]. pose proof (Hc _ _ _ E) as Hnil. simpl in Hnil. rewrite Hnil in Hn.
    by apply symmetry, app_eq_nil in Hn as [-> _].
  - destruct (Ha _ _ _ E) as [new Hn]. exists new. pose proof (Hc _ _ _ E) as ->. simpl. by rewrite Hn.
  - by apply Hg in E.
Qed.
