(* ===== verification/Config.v ===== *)
(** * Config: validation of the prepared settings of a Server and a Client

    [validate_prepared_server_config] and [validate_prepared_client_config] of
    [src/config/mod.rs] with the checks they are made of.  A check appends its messages to the
    list and carries on, so that one run reports every problem; a configuration is accepted
    when the list stays empty.  The [expect] and [unreachable!] of the code are panics of the
    model.

    The file system and the two readers of cryptographic material
    ([validate_server_tls_material], [read_server_identity]) are parameters. *)

From Stdlib Require Import Ascii ZArith Lia.
From stdpp Require Import base strings numbers gmap list.
From S2P Require Import Prelude Text Names Framing Assignment Authorization ConfigPrep Checks.
Import Hostname Address Identity.

Open Scope Z_scope.

(** ** Fields *)

(** [str::parse::<SocketAddr>]: an address with a port, an IPv6 address in brackets with an
    optional scope. *)
Definition read_port : parser Z := λ s,
  '(_, s) ← read_given_char ":"%char s; read_number 10 (2 ^ 64) true u16_max s.
Definition read_scope_id (s : bytes) : Z * bytes :=
  match ('(_, s) ← read_given_char "%"%char s; read_number 10 (2 ^ 64) true (2 ^ 32 - 1) s) with
  | Some r => r
  | None => (0, s)
  end.
Definition read_socket_addr : parser Proxy.SocketAddr := λ s,
  match ('(ip, s) ← read_ipv4_addr s; '(port, s) ← read_port s; Some (Proxy.SockV4 ip port, s)) with
  | Some r => Some r
  | None =>
      '(_, s) ← read_given_char "["%char s;
      '(ip, s) ← read_ipv6_addr s;
      let '(scope, s) := read_scope_id s in
      '(_, s) ← read_given_char "]"%char s;
      '(port, s) ← read_port s;
      Some (Proxy.SockV6 ip port 0 scope, s)
  end.
Definition parse_socket_addr (s : bytes) : option Proxy.SocketAddr :=
  match read_socket_addr s with Some (a, []) => Some a | _ => None end.

Definition is_valid_backend_address (backend_address : bytes) : bool :=
  is_some (parse_socket_addr backend_address)
  || match rsplit_once ":"%char backend_address with
     | Some (host, port) => negb (bool_decide (host = [])) && is_some (parse_uint u16_max port)
     | None => false
     end.

(** [parse_duration]; a [Duration] is its number of milliseconds. *)
Definition strip_suffix (suffix s : bytes) : option bytes :=
  let n := (length s - length suffix)%nat in
  if bool_decide (drop n s = suffix) then Some (take n s) else None.

Definition u64_max : Z := 2 ^ 64 - 1.
Definition saturating_mul (a b : Z) : Z := Z.min u64_max (a * b).

Definition parse_duration (value : bytes) : option Z :=
  match strip_suffix (bs "ms") value with
  | Some n => parse_uint u64_max n
  | None =>
      match strip_suffix (bs "s") value with
      | Some n => (λ q, q * 1000) <$> parse_uint u64_max n
      | None =>
          match strip_suffix (bs "m") value with
          | Some n => (λ q, saturating_mul q 60 * 1000) <$> parse_uint u64_max n
          | None =>
              match strip_suffix (bs "h") value with
              | Some n => (λ q, saturating_mul q (60 * 60) * 1000) <$> parse_uint u64_max n
              | None => None
              end
          end
      end
  end.

Definition validate_duration_field (field value : bytes) : checks (option Z) :=
  match parse_duration value with Some d => mret (Some d) | None => fail_with (FieldInvalid field) end.

Definition validate_server_hostname_field (field hostname : bytes) : checks (option bytes) :=
  match ServerHostname_try_from hostname with Ok h => mret (Some h) | Err _ => fail_with (FieldInvalid field) end.

Definition validate_server_address_field (field address : bytes) : checks (option ServerAddress) :=
  match ServerAddress_parse address with Ok a => mret (Some a) | Err _ => fail_with (FieldInvalid field) end.

Definition validate_control_address_field (field address : bytes) : checks (option ControlAddress) :=
  match ControlAddress_parse address with Ok a => mret (Some a) | Err _ => fail_with (FieldInvalid field) end.

Definition validate_socket_address_field (field address : bytes) : checks (option Proxy.SocketAddr) :=
  match parse_socket_addr address with Some a => mret (Some a) | None => fail_with (FieldInvalid field) end.

Definition into_option {A} (v : PreparedValue A) : checks (option A) :=
  match v with Ready a => mret (Some a) | PreparedError e => fail_with (Xdg e) end.

(** *** Bind addresses *)

Fixpoint first_duplicate (seen addresses : list Proxy.SocketAddr) : option Proxy.SocketAddr :=
  match addresses with
  | [] => None
  | a :: rest => if bool_decide (a ∈ seen) then Some a else first_duplicate (seen ++ [a]) rest
  end.

Definition validate_bind_addresses (field : bytes) (addresses : list Proxy.SocketAddr) : result Message unit :=
  _ ← reject_if (negb ((1 <=? len addresses) && (len addresses <=? 8))) (OneToEight field);
  match first_duplicate [] addresses with
  | Some a => Err (DuplicateAddress field a)
  | None => Ok ()
  end.

Definition validate_socket_addresses_field (field : bytes) (addresses : list bytes) :
    checks (list Proxy.SocketAddr) :=
  _ ← push_if (negb ((1 <=? len addresses) && (len addresses <=? 8))) (OneToEight field);
  parsed ← collect (validate_socket_address_field field) addresses;
  _ ← match validate_bind_addresses field parsed with
      | Ok _ => mret tt
      | Err message => push_new message
      end;
  mret parsed.

(** [unreachable!] when preparation supplied neither form. *)
Definition validate_server_bind_address_pair (singular : bytes) (address : option bytes)
    (addresses : option (list bytes)) : checks (list Proxy.SocketAddr) :=
  match address, addresses with
  | Some _, Some _ => _ ← push (MutuallyExclusive singular (singular ++ bs "es")); mret []
  | Some address, None =>
      a ← validate_socket_address_field singular address;
      mret (match a with Some a => [a] | None => [] end)
  | None, Some addresses => validate_socket_addresses_field (singular ++ bs "es") addresses
  | None, None => panic
  end.

(** *** Hostnames and identities *)

Definition validate_public_hostnames (field : bytes) (hostnames : list bytes) : checks (list bytes * bool) :=
  if bool_decide (hostnames = []) then _ ← push (MustNotBeEmpty field); mret ([], false)
  else
    values ← collect (λ hostname, match PublicHostname_try_from hostname with
                                  | Ok h => mret (Some h)
                                  | Err _ => fail_with (ContainsInvalid field hostname)
                                  end) hostnames;
    mret (values, bool_decide (length values = length hostnames)).

Definition validate_required_public_hostnames (field : bytes) (raw : option (list bytes)) :
    checks (list bytes * bool) :=
  match raw with
  | Some hostnames => validate_public_hostnames field hostnames
  | None => _ ← push (Required field); mret ([], false)
  end.

(** The values if all are valid, the valid ones, and whether the field is. *)
Definition validate_optional_public_hostnames (field : bytes) (raw : option (list bytes)) :
    checks (option (list bytes) * list bytes * bool) :=
  match raw with
  | Some hostnames =>
      '(values, is_valid) ← validate_public_hostnames field hostnames;
      mret (if (is_valid : bool) then Some values else None, values, is_valid)
  | None => mret (None, [], true)
  end.

Definition validate_client_identity_list (field : bytes) (identities : list bytes) : checks (list bytes) :=
  if bool_decide (identities = []) then _ ← push (MustNotBeEmpty field); mret []
  else collect (λ identity, match ClientIdentity_from_str identity with
                            | Ok i => mret (Some i)
                            | Err _ => fail_with (ContainsInvalid field identity)
                            end) identities.

Definition validate_server_tunnel_authorized_client_identities (identity : option bytes)
    (identities : option (list bytes)) : checks (list bytes) :=
  let singular := bs "server.tunnels[].client-identity" in
  let plural := bs "server.tunnels[].client-identities" in
  match identity, identities with
  | Some _, Some _ => _ ← push (MutuallyExclusive singular plural); mret []
  | None, Some identities => validate_client_identity_list plural identities
  | Some identity, None =>
      match ClientIdentity_from_str identity with
      | Ok i => mret [i]
      | Err _ => _ ← push (FieldInvalid singular); mret []
      end
  | None, None => _ ← push (Required singular); mret []
  end.

(** A Tunnel's settings, if valid, with what the uniqueness checks look at. *)
Record ValidatedServerTunnel := mkValidatedTunnel {
  tunnel_settings : option ServerTunnelConfig;
  valid_hostnames : list bytes;
  valid_identities : list bytes
}.

Definition TUNNEL_HOSTNAMES : bytes := bs "server.tunnels[].public-hostnames".

Definition validate_prepared_server_tunnel (raw : RawServerTunnelConfig) : checks ValidatedServerTunnel :=
  '(hostnames, is_valid) ← validate_required_public_hostnames TUNNEL_HOSTNAMES (raw_public_hostnames raw);
  identities ← validate_server_tunnel_authorized_client_identities (raw_client_identity raw)
                 (raw_client_identities raw);
  mret (mkValidatedTunnel
          (if (is_valid : bool) && negb (bool_decide (identities = []))
           then Some (mkTunnel None hostnames identities) else None)
          hostnames identities).

Definition validate_unique_client_identities (tunnels : list ValidatedServerTunnel) : checks unit :=
  unique (λ identity, push (DuplicateIdentity identity)) []
    (tunnels ≫= λ t, ClientIdentity_display <$> valid_identities t).

(** Each hostname is compared with the Server's and then looked up among the ones seen. *)
Fixpoint unique_hostnames (server_hostname : bytes) (seen hostnames : list bytes) : checks unit :=
  match hostnames with
  | [] => mret tt
  | h :: rest =>
      _ ← push_if (bool_decide (h = server_hostname)) (ConfigPrep.IncludesServerHostname server_hostname);
      _ ← push_if (bool_decide (h ∈ seen)) (DuplicateHostname TUNNEL_HOSTNAMES h);
      unique_hostnames server_hostname (h :: seen) rest
  end.
Definition validate_unique_server_hostnames (server_hostname : bytes) (tunnels : list ValidatedServerTunnel) :
    checks unit :=
  unique_hostnames server_hostname [] (tunnels ≫= valid_hostnames).

(** *** Results *)

Inductive ServerCertificateConfig :=
| ManualCert (directory : bytes)
| AcmeCert (email state_directory : bytes) (was_defaulted : bool).

Record ControlConfig := mkControl { control_addr : ControlAddress; control_roots : Trust }.
Record ServerIdentityConfig := mkServerIdentity { identity_dir : bytes; server_identity : bytes }.
Inductive AdmissionMode := StaticMode | ManagedMode.

Record ServerConfig := mkServerConfig {
  hostname : bytes;
  log_level : LogLevel;
  certificate : ServerCertificateConfig;
  public_bind_addresses : list Proxy.SocketAddr;
  tunnel_connection_bind_addresses : list Proxy.SocketAddr;
  readiness_bind_address : option Proxy.SocketAddr;
  graceful_shutdown_duration : Z;
  visitor_proxy_protocol : option Service.ProxyProtocolVersion;
  visitor_proxy_trusted_networks : list Proxy.TrustedNetwork;
  tunnels : list ServerTunnelConfig;
  control : option ControlConfig;
  identity : option ServerIdentityConfig;
  admission : AdmissionMode
}.

Record ClientConfig := mkClientConfig {
  max_visitor_streams : Z;
  client_graceful_shutdown_duration : Z;
  server_addresses : list ServerAddress;
  server_hostname : bytes;
  server_port : Z;
  client_log_level : LogLevel;
  server_trust : Trust;
  identity_directory : bytes;
  services : list Service.ServiceConfig;
  public_cert_config : option ServerCertificateConfig;
  client_control : option ControlConfig;
  client_admission : AdmissionMode
}.

Definition SERVER_CERT_FILENAME : bytes := bs "server.crt".
Definition SERVER_KEY_FILENAME : bytes := bs "server.key".
Definition SERVER_CA_FILENAME : bytes := bs "server-ca.crt".
Definition SERVER_IDENTITY_CERT_FILENAME : bytes := bs "server.crt".
Definition SERVER_IDENTITY_KEY_FILENAME : bytes := bs "server.key".
Definition SERVER_IDENTITY_FILENAME : bytes := bs "server-identity.txt".
Definition CLIENT_CERT_FILENAME : bytes := bs "client.crt".
Definition CLIENT_KEY_FILENAME : bytes := bs "client.key".
Definition CLIENT_IDENTITY_FILENAME : bytes := bs "client-identity.txt".

(** ** Validation *)

Section Validation.
Context (is_file is_dir : bytes → bool) (canonicalize : bytes → option bytes).
(** [validate_server_tls_material] on the certificate, key, roots and hostname, and
    [read_server_identity] on a directory; [Some] error, or the identity. *)
Context (tls_material_error : bytes → bytes → bytes → bytes → option bytes).
Context (read_server_identity : bytes → result bytes bytes).

Definition validate_existing_file (field path : bytes) : checks (option bytes) :=
  if is_file path then mret (Some path) else fail_with (FileNotFound field path).

Definition validate_existing_directory_path (field path : bytes) : checks (option bytes) :=
  if is_dir path then mret (Some path) else fail_with (DirectoryNotFound field path).

Definition validate_directory_file (field directory filename : bytes) : checks (option bytes) :=
  let path := path_join directory filename in
  if is_file path then mret (Some path) else fail_with (FileNotFound field path).

Definition validate_prepared_acme_state_directory (field : bytes) (d : PreparedDirectory) :
    checks (option (bytes * bool)) :=
  match d with
  | Explicit path => p ← validate_existing_directory_path field path; mret ((λ p, (p, false)) <$> p)
  | Defaulted v => p ← into_option v; mret ((λ p, (p, true)) <$> p)
  end.

(** [validate_prepared_server_acme_settings] and [validate_prepared_client_acme_settings]. *)
Definition validate_prepared_acme_settings (role : bytes) (raw : PreparedAcmeConfig) :
    checks (option (bytes * (bytes * bool))) :=
  email ← match acme_email raw with
          | Some email => mret email
          | None => _ ← push (Required (role ++ bs ".acme.email")); mret []
          end;
  state_directory ← validate_prepared_acme_state_directory (role ++ bs ".acme.state-dir") (acme_state_directory raw);
  mret (match state_directory with
        | Some d => if bool_decide (email = []) then None else Some (email, d)
        | None => None
        end).

Definition validate_prepared_server_manual_cert_settings (directory : bytes) (host : option bytes) :
    checks (option bytes) :=
  let field := bs "server.cert-dir" in
  d ← validate_existing_directory_path field directory;
  and_then d (λ d,
    cert ← validate_directory_file field d SERVER_CERT_FILENAME;
    key ← validate_directory_file field d SERVER_KEY_FILENAME;
    ca ← validate_directory_file field d SERVER_CA_FILENAME;
    match (cert ← cert; key ← key; ca ← ca; host ← host; tls_material_error cert key ca host) with
    | Some error => fail_with (BadTlsMaterial error)
    | None => mret (Some d)
    end).

Definition validate_prepared_control_trust (trust : PreparedTrust) : checks (option Trust) :=
  match trust with
  | PreparedSystem => mret (Some System)
  | PreparedCaFile v =>
      p ← into_option v;
      p ← and_then p (validate_existing_file (bs "control.ca-file"));
      mret (CaFile <$> p)
  | PreparedInvalidMode value => fail_with (InvalidTrust (bs "control.trust") value)
  | PreparedUnexpectedCaFile => fail_with (UnexpectedFile (bs "control.ca-file"))
  end.

Definition validate_client_trust (trust : PreparedTrust) : checks (option Trust) :=
  match trust with
  | PreparedSystem => mret (Some System)
  | PreparedCaFile v =>
      p ← into_option v;
      p ← and_then p (validate_existing_file (bs "client.server-ca-file"));
      mret (CaFile <$> p)
  | PreparedInvalidMode value => fail_with (InvalidTrust (bs "client.server-trust") value)
  | PreparedUnexpectedCaFile => fail_with (UnexpectedFile (bs "client.server-ca-file"))
  end.

Definition validate_prepared_server_identity_material (directory : bytes) : checks (option ServerIdentityConfig) :=
  let field := bs "server.identity-dir" in
  _ ← validate_directory_file field directory SERVER_IDENTITY_CERT_FILENAME;
  _ ← validate_directory_file field directory SERVER_IDENTITY_KEY_FILENAME;
  _ ← validate_directory_file field directory SERVER_IDENTITY_FILENAME;
  match read_server_identity directory with
  | Ok i => mret (Some (mkServerIdentity directory i))
  | Err error => fail_with (BadServerIdentity error)
  end.

Definition certificate_directory (c : option ServerCertificateConfig) : option bytes :=
  match c with Some (ManualCert directory) => Some directory | _ => None end.

Definition paths_refer_to_same_location (left right : bytes) : bool :=
  path_eqb left right
  || match canonicalize left, canonicalize right with
     | Some l, Some r => path_eqb l r
     | _, _ => false
     end.

(** The Control settings, checked in managed mode only. *)
Definition validate_control (managed : bool) (c : PreparedControlSection) : checks (option ControlConfig) :=
  if managed then
    address ← and_then (control_address c) (validate_control_address_field (bs "control.address"));
    trust ← validate_prepared_control_trust (control_trust c);
    mret (a ← address; t ← trust; Some (mkControl a t))
  else mret None.

(** *** The Server *)

Definition validate_server_certificate (p : PreparedServerConfig) (host : option bytes) :
    checks (option ServerCertificateConfig) :=
  _ ← push_if (p_manual_cert_present p && p_acme_present p)
        (MutuallyExclusive (bs "[server.acme]") (bs "server.cert-dir"));
  manual ← (if negb (p_acme_present p)
            then directory ← and_then (p_manual_certificate_directory p) into_option;
                 and_then directory (λ d, validate_prepared_server_manual_cert_settings d host)
            else mret None);
  acme ← (if p_acme_present p && negb (p_manual_cert_present p)
          then and_then (p_acme p) (validate_prepared_acme_settings (bs "server"))
          else mret None);
  mret (if p_acme_present p
        then (λ a : bytes * (bytes * bool), AcmeCert a.1 a.2.1 a.2.2) <$> acme
        else ManualCert <$> manual).

Definition validate_visitor_proxy (protocol : option bytes) (networks : option (list bytes)) :
    checks (option Service.ProxyProtocolVersion * list Proxy.TrustedNetwork) :=
  version ← match protocol with
            | None => mret None
            | Some v => if bool_decide (v = bs "v2") then mret (Some Service.V2)
                        else fail_with (MustBeV2 (bs "server.visitor-proxy-protocol"))
            end;
  parsed ← collect (λ network, match Proxy.TrustedNetwork_from_str network with
                               | Ok n => mret (Some n)
                               | Err _ => fail_with (ContainsInvalid (bs "server.visitor-proxy-trusted-networks") network)
                               end) (default [] networks);
  _ ← push_if (is_some version && bool_decide (parsed = [])) TrustedNetworksRequired;
  _ ← push_if (negb (is_some version) && is_some networks) TrustedNetworksWithoutProtocol;
  mret (version, parsed).

Definition validate_server_tunnels (managed : bool) (raw : list RawServerTunnelConfig) (host : option bytes) :
    checks (list ServerTunnelConfig) :=
  if managed then _ ← push_if (negb (bool_decide (length raw = 0%nat))) TunnelsInManagedMode; mret []
  else
    _ ← push_if (bool_decide (length raw = 0%nat)) TunnelRequired;
    validated ← map_checks validate_prepared_server_tunnel raw;
    _ ← validate_unique_client_identities validated;
    _ ← match host with Some h => validate_unique_server_hostnames h validated | None => mret tt end;
    mret (omap tunnel_settings validated).

Definition validate_server_identity (managed : bool) (dir : option (PreparedValue bytes))
    (cert : option ServerCertificateConfig) : checks (option ServerIdentityConfig) :=
  if managed then
    d ← and_then dir into_option;
    d ← and_then d (validate_existing_directory_path (bs "server.identity-dir"));
    _ ← push_if (match d, certificate_directory cert with
                 | Some d, Some c => paths_refer_to_same_location d c
                 | _, _ => false
                 end) SameDirectory;
    and_then d validate_prepared_server_identity_material
  else _ ← push_if (is_some dir) IdentityOnlyManaged; mret None.

Definition server_checks (p : PreparedServerConfig) : checks (result (list Message) ServerConfig) :=
  let managed := is_some (control_address (p_control p)) in
  _ ← push_if (section_present (p_control p) && negb managed) (Required (bs "control.address"));
  host ← match p_hostname p with
         | Some h => validate_server_hostname_field (bs "server.hostname") h
         | None => fail_with (Required (bs "server.hostname"))
         end;
  cert ← validate_server_certificate p host;
  public ← validate_server_bind_address_pair (bs "server.public-bind-address") (p_public_bind_address p)
             (p_public_bind_addresses p);
  tunnel ← validate_server_bind_address_pair (bs "server.tunnel-bind-address") (p_tunnel_bind_address p)
             (p_tunnel_bind_addresses p);
  readiness ← and_then (p_readiness_bind_address p)
                (validate_socket_address_field (bs "server.readiness-bind-address"));
  graceful ← validate_duration_field (bs "server.graceful-shutdown-duration") (p_graceful p);
  '(version, networks) ← validate_visitor_proxy (p_visitor_proxy_protocol p) (p_visitor_proxy_trusted_networks p);
  tunnels ← validate_server_tunnels managed (p_tunnels p) host;
  identity ← validate_server_identity managed (p_identity_directory p) cert;
  control ← validate_control managed (p_control p);
  conclude
    (host ← expect host; cert ← expect cert; graceful ← expect graceful;
     mret (mkServerConfig host (p_log_level p) cert public tunnel readiness graceful version networks
             tunnels control identity (if managed then ManagedMode else StaticMode))).

(** [None] is a panic. *)
Definition validate_prepared_server_config (p : PreparedServerConfig) :
    option (result (list Message) ServerConfig) :=
  fst <$> server_checks p (p_unknown p ++ (UnknownField <$> control_unknown (p_control p))).

(** *** The Client *)

Record ValidatedClientService := mkValidatedService {
  service_settings : option Service.ServiceConfig;
  service_hostnames : list bytes;
  parsed_tls_mode : option Service.ClientTlsMode
}.

Definition SERVICE_HOSTNAMES : bytes := bs "client.services[].public-hostnames".

Definition validate_prepared_client_service (raw : PreparedClientServiceConfig) : checks ValidatedClientService :=
  '(values, valid, is_valid) ← validate_optional_public_hostnames SERVICE_HOSTNAMES (p_service_hostnames raw);
  backend ← match p_backend_address raw with
            | Some b => if is_valid_backend_address b then mret (Some b) else fail_with BackendInvalid
            | None => fail_with (Required (bs "client.services[].backend-address"))
            end;
  mode ← match p_tls_mode raw with
         | PreparedPassthrough => mret (Some Service.Passthrough)
         | PreparedTerminate => mret (Some Service.Terminate)
         | PreparedInvalidTls _ => fail_with BadTlsMode
         end;
  proxy ← match p_proxy_protocol raw with
          | None => mret (Some None)
          | Some v => if bool_decide (v = bs "v2") then mret (Some (Some Service.V2))
                      else fail_with (MustBeV2 (bs "client.services[].proxy-protocol"))
          end;
  _ ← push_if (match mode with Some Service.Terminate => negb (is_some values) | _ => false end)
        TerminateRequiresHostnames;
  mret (mkValidatedService
          (if (is_valid : bool) then mode ← mode; proxy ← proxy; backend ← backend;
                                     Some (Service.mkService values backend mode proxy) else None)
          valid mode).

Definition validate_unique_client_service_hostnames (services : list ValidatedClientService) : checks unit :=
  unique (λ h, push (DuplicateHostname SERVICE_HOSTNAMES h)) [] (services ≫= service_hostnames).

Definition validate_unique_server_addresses (addresses : list ServerAddress) : checks unit :=
  unique (λ a, push (DuplicateHostname (bs "client.server-addresses") a)) [] (ServerAddress_render <$> addresses).

Definition indexed_field (index : nat) : bytes :=
  bs "client.server-addresses[" ++ show_uint (Z.of_nat index) ++ bs "]".

Fixpoint validate_indexed (index : nat) (addresses : list bytes) : checks (list ServerAddress) :=
  match addresses with
  | [] => mret []
  | a :: rest =>
      o ← validate_server_address_field (indexed_field index) a;
      others ← validate_indexed (S index) rest;
      mret (match o with Some a => a :: others | None => others end)
  end.

Definition validate_single (address : bytes) : checks (list ServerAddress) :=
  o ← validate_server_address_field (bs "client.server-address") address;
  mret (match o with Some a => [a] | None => [] end).

Definition validate_server_addresses (managed : bool) (address : option bytes) (addresses : option (list bytes)) :
    checks (list ServerAddress) :=
  _ ← push_if (negb managed && match addresses with
                               | Some l => MAX_CLIENT_SERVER_ADDRESSES <? len l
                               | None => false
                               end) TooManyServerAddresses;
  if managed then
    _ ← push_if (is_some address || is_some addresses) AddressesInManagedMode;
    _ ← match address with Some a => validate_single a | None => mret [] end;
    _ ← match addresses with Some l => validate_indexed 0 l | None => mret [] end;
    mret []
  else
    validated ←
      match address, addresses with
      | Some a, Some l =>
          _ ← push (MutuallyExclusive (bs "client.server-address") (bs "client.server-addresses"));
          one ← validate_single a;
          others ← validate_indexed 0 l;
          mret (one ++ others)
      | Some a, None => validate_single a
      | None, Some l => _ ← push_if (bool_decide (l = [])) AtLeastOneAddress; validate_indexed 0 l
      | None, None => _ ← push AddressRequired; mret []
      end;
    _ ← (if is_some address && is_some addresses then mret tt else validate_unique_server_addresses validated);
    mret validated.

Definition validate_identity_files (dir : option bytes) : checks unit :=
  match dir with
  | None => mret tt
  | Some d =>
      let field := bs "client.identity-dir" in
      _ ← validate_directory_file field d CLIENT_CERT_FILENAME;
      _ ← validate_directory_file field d CLIENT_KEY_FILENAME;
      _ ← validate_directory_file field d CLIENT_IDENTITY_FILENAME;
      mret tt
  end.

Definition validate_public_cert (p : PreparedClientConfig) : checks (option ServerCertificateConfig) :=
  _ ← push_if (p_manual_public_cert_present p && p_client_acme_present p)
        (MutuallyExclusive (bs "[client.acme]") (bs "client.public-cert-dir"));
  manual ← (if negb (p_client_acme_present p)
            then directory ← and_then (p_manual_public_cert_directory p) into_option;
                 and_then directory (validate_existing_directory_path (bs "client.public-cert-dir"))
            else mret None);
  acme ← (if p_client_acme_present p && negb (p_manual_public_cert_present p)
          then and_then (p_client_acme p) (validate_prepared_acme_settings (bs "client"))
          else mret None);
  mret (if p_client_acme_present p
        then (λ a : bytes * (bytes * bool), AcmeCert a.1 a.2.1 a.2.2) <$> acme
        else ManualCert <$> manual).

Definition validate_client_service_shapes (service_count omitted : Z) : checks unit :=
  push_if ((1 <? service_count) && (0 <? omitted)) HostnamesOmitted.

Definition validate_services_section (p : PreparedClientConfig) (cert : option ServerCertificateConfig) :
    checks (list Service.ServiceConfig) :=
  let omitted := List.filter (λ s, negb (is_some (p_service_hostnames s))) (p_services p) in
  _ ← push_if (bool_decide (length (p_services p) = 0%nat)) ServiceRequired;
  validated ← map_checks validate_prepared_client_service (p_services p);
  _ ← validate_client_service_shapes (len (p_services p)) (len omitted);
  _ ← validate_unique_client_service_hostnames validated;
  let has_terminating := existsb (λ s, match parsed_tls_mode s with Some Service.Terminate => true | _ => false end) validated in
  let manual_cert_selected := is_some (p_manual_public_cert_directory p) && negb (p_client_acme_present p) in
  _ ← push_if (has_terminating && negb (is_some cert) && negb manual_cert_selected) PublicCertRequired;
  _ ← push_if ((p_manual_public_cert_present p || p_client_acme_present p) && negb has_terminating) PublicCertUnused;
  mret (omap service_settings validated).

Definition MIN_VISITOR_CAPACITY : Z := 256.
Definition MAX_VISITOR_CAPACITY : Z := 1048576.

Definition client_checks (p : PreparedClientConfig) : checks (result (list Message) ClientConfig) :=
  let managed := is_some (control_address (p_client_control p)) in
  _ ← push_if (negb ((MIN_VISITOR_CAPACITY <=? p_max_visitor_streams p)
                     && (p_max_visitor_streams p <=? MAX_VISITOR_CAPACITY))) VisitorStreamsOutOfRange;
  graceful ← validate_duration_field (bs "client.graceful-shutdown-duration") (p_client_graceful p);
  _ ← push_if (section_present (p_client_control p) && negb managed) (Required (bs "control.address"));
  addresses ← validate_server_addresses managed (p_server_address p) (p_server_addresses p);
  trust ← validate_client_trust (p_trust p);
  d ← into_option (p_client_identity_directory p);
  d ← and_then d (validate_existing_directory_path (bs "client.identity-dir"));
  _ ← validate_identity_files d;
  cert ← validate_public_cert p;
  services ← validate_services_section p cert;
  control ← validate_control managed (p_client_control p);
  let '(host, port) :=
    match addresses with
    | first :: _ => (sa_hostname first, sa_port first)
    | [] => (bs "unassigned.invalid", DEFAULT_SERVER_PORT)
    end in
  conclude
    (graceful ← expect graceful; trust ← expect trust; d ← expect d;
     mret (mkClientConfig (p_max_visitor_streams p) graceful addresses host port (p_client_log_level p) trust d
             services cert control (if managed then ManagedMode else StaticMode))).

Definition validate_prepared_client_config (p : PreparedClientConfig) :
    option (result (list Message) ClientConfig) :=
  fst <$> client_checks p (p_client_unknown p ++ (UnknownField <$> control_unknown (p_client_control p))).

(** ** What a clean validation means *)

#[local] Instance reporting_duration f v : Reporting (validate_duration_field f v).
Proof. unfold validate_duration_field. reporting_checks. Qed.
#[local] Instance reporting_hostname f v : Reporting (validate_server_hostname_field f v).
Proof. unfold validate_server_hostname_field. reporting_checks. Qed.
#[local] Instance reporting_server_address f v : Reporting (validate_server_address_field f v).
Proof. unfold validate_server_address_field. reporting_checks. Qed.
#[local] Instance reporting_control_address f v : Reporting (validate_control_address_field f v).
Proof. unfold validate_control_address_field. reporting_checks. Qed.
#[local] Instance reporting_socket f v : Reporting (validate_socket_address_field f v).
Proof. unfold validate_socket_address_field. reporting_checks. Qed.
#[local] Instance reporting_into_option {A} (v : PreparedValue A) : Reporting (into_option v).
Proof. unfold into_option. reporting_checks. Qed.
#[local] Instance appends_bind_pair f a l : Appends (validate_server_bind_address_pair f a l).
Proof. unfold validate_server_bind_address_pair, validate_socket_addresses_field. appending. Qed.
#[local] Instance reporting_bind_pair f a l :
  Reporting (validate_server_bind_address_pair f (default_bind_address a l) l).
Proof.
  unfold validate_server_bind_address_pair, default_bind_address, validate_socket_addresses_field.
  destruct a, l; reporting_checks.
Qed.
#[local] Instance reporting_hostnames f l : Reporting (validate_public_hostnames f l).
Proof. unfold validate_public_hostnames. reporting_checks. Qed.
#[local] Instance reporting_identities i l : Reporting (validate_server_tunnel_authorized_client_identities i l).
Proof. unfold validate_server_tunnel_authorized_client_identities, validate_client_identity_list. reporting_checks. Qed.
#[local] Instance reporting_required_hostnames f l : Reporting (validate_required_public_hostnames f l).
Proof. unfold validate_required_public_hostnames. reporting_checks. Qed.
#[local] Instance reporting_tunnel raw : Reporting (validate_prepared_server_tunnel raw).
Proof. unfold validate_prepared_server_tunnel. reporting_checks. Qed.
#[local] Instance reporting_unique_hostnames h seen l : Reporting (unique_hostnames h seen l).
Proof. revert seen. induction l; intros seen; simpl; reporting_checks. Qed.
#[local] Instance reporting_file f v : Reporting (validate_existing_file f v).
Proof. unfold validate_existing_file. reporting_checks. Qed.
#[local] Instance reporting_directory f v : Reporting (validate_existing_directory_path f v).
Proof. unfold validate_existing_directory_path. reporting_checks. Qed.
#[local] Instance reporting_directory_file f d v : Reporting (validate_directory_file f d v).
Proof. unfold validate_directory_file. reporting_checks. Qed.
#[local] Instance reporting_state_directory f d : Reporting (validate_prepared_acme_state_directory f d).
Proof. unfold validate_prepared_acme_state_directory. reporting_checks. Qed.
#[local] Instance reporting_acme role raw : Reporting (validate_prepared_acme_settings role raw).
Proof. unfold validate_prepared_acme_settings. reporting_checks. Qed.
#[local] Instance reporting_control_trust t : Reporting (validate_prepared_control_trust t).
Proof. unfold validate_prepared_control_trust. reporting_checks. Qed.
#[local] Instance reporting_client_trust t : Reporting (validate_client_trust t).
Proof. unfold validate_client_trust. reporting_checks. Qed.
#[local] Instance reporting_identity_material d : Reporting (validate_prepared_server_identity_material d).
Proof. unfold validate_prepared_server_identity_material. reporting_checks. Qed.
#[local] Instance reporting_manual_cert d h : Reporting (validate_prepared_server_manual_cert_settings d h).
Proof. unfold validate_prepared_server_manual_cert_settings. reporting_checks. Qed.
#[local] Instance reporting_control m c : Reporting (validate_control m c).
Proof. unfold validate_control. reporting_checks. Qed.
#[local] Instance reporting_certificate p h : Reporting (validate_server_certificate p h).
Proof. unfold validate_server_certificate. reporting_checks. Qed.
#[local] Instance reporting_visitor_proxy v n : Reporting (validate_visitor_proxy v n).
Proof. unfold validate_visitor_proxy. reporting_checks. Qed.
#[local] Instance reporting_tunnels m raw h : Reporting (validate_server_tunnels m raw h).
Proof.
  unfold validate_server_tunnels, validate_unique_client_identities, validate_unique_server_hostnames. reporting_checks.
Qed.
#[local] Instance reporting_identity m d c : Reporting (validate_server_identity m d c).
Proof. unfold validate_server_identity. reporting_checks. Qed.
#[local] Instance reporting_optional_hostnames f l : Reporting (validate_optional_public_hostnames f l).
Proof. unfold validate_optional_public_hostnames. reporting_checks. Qed.
#[local] Instance reporting_service raw : Reporting (validate_prepared_client_service raw).
Proof. unfold validate_prepared_client_service. reporting_checks. Qed.
#[local] Instance reporting_indexed n l : Reporting (validate_indexed n l).
Proof. revert n. induction l; intros n; simpl; reporting_checks. Qed.
#[local] Instance reporting_single a : Reporting (validate_single a).
Proof. unfold validate_single. reporting_checks. Qed.
#[local] Instance reporting_addresses m a l : Reporting (validate_server_addresses m a l).
Proof. unfold validate_server_addresses, validate_unique_server_addresses. reporting_checks. Qed.
#[local] Instance reporting_identity_files d : Reporting (validate_identity_files d).
Proof. unfold validate_identity_files. reporting_checks. Qed.
#[local] Instance reporting_public_cert p : Reporting (validate_public_cert p).
Proof. unfold validate_public_cert. reporting_checks. Qed.
#[local] Instance reporting_services p c : Reporting (validate_services_section p c).
Proof. unfold validate_services_section, validate_unique_client_service_hostnames, validate_client_service_shapes. reporting_checks. Qed.

Lemma clean_duration f v o : clean (validate_duration_field f v) o → ∃ d, o = Some d ∧ parse_duration v = Some d.
Proof. unfold validate_duration_field. case_match; [|done]. intros ->%clean_ret. eauto. Qed.
Lemma clean_hostname f v o :
  clean (validate_server_hostname_field f v) o → ∃ h, o = Some h ∧ canonical_hostname h.
Proof.
  unfold validate_server_hostname_field, ServerHostname_try_from. case_match eqn:E; [|done].
  apply validate_spec in E as [_ ?]. intros ->%clean_ret. eauto.
Qed.
Lemma clean_socket f v o :
  clean (validate_socket_address_field f v) o → ∃ a, o = Some a ∧ parse_socket_addr v = Some a.
Proof. unfold validate_socket_address_field. case_match; [|done]. intros ->%clean_ret. eauto. Qed.
Lemma clean_server_address f v o :
  clean (validate_server_address_field f v) o → ∃ a, o = Some a ∧ ServerAddress_parse v = Ok a.
Proof. unfold validate_server_address_field. case_match; [|done]. intros ->%clean_ret. eauto. Qed.
Lemma clean_directory f v o :
  clean (validate_existing_directory_path f v) o → o = Some v ∧ is_dir v = true.
Proof. unfold validate_existing_directory_path. case_match; [|done]. by intros ->%clean_ret. Qed.
Lemma clean_directory_file f d v o :
  clean (validate_directory_file f d v) o → o = Some (path_join d v) ∧ is_file (path_join d v) = true.
Proof. unfold validate_directory_file. case_match; [|done]. by intros ->%clean_ret. Qed.
Lemma clean_into_option {A} (v : PreparedValue A) o : clean (into_option v) o → ∃ a, o = Some a ∧ v = Ready a.
Proof. unfold into_option. case_match; [|done]. intros ->%clean_ret. eauto. Qed.

Lemma first_duplicate_none seen l :
  first_duplicate seen l = None → NoDup l ∧ ∀ a, a ∈ l → a ∉ seen.
Proof.
  revert seen. induction l as [|a l IH]; intros seen; simpl.
  { intros _. split; [constructor|by intros ? ?%elem_of_nil]. }
  case_bool_decide as Ha; [done|]. intros [Hnd Hd]%IH. split.
  - constructor; [|done]. intros Hin. apply (Hd a Hin). set_solver.
  - intros b [->|Hb]%elem_of_cons; [done|]. intros Hs. apply (Hd b Hb). set_solver.
Qed.

Lemma clean_bind_pair f a l r :
  clean (validate_server_bind_address_pair f a l) r → 1 ≤ len r ≤ 8 ∧ NoDup r.
Proof.
  unfold validate_server_bind_address_pair. destruct a as [a|], l as [l|]; intros H; try done.
  - clean_step H. apply clean_socket in Hc as (s & -> & _). clean_step H. subst.
    unfold len; simpl. split; [lia|apply NoDup_singleton].
  - unfold validate_socket_addresses_field in H. clean_step H. clean_step H. clean_step H. clean_step H. subst r.
    destruct (validate_bind_addresses _ x0) as [[]|m] eqn:E; [|done].
    unfold validate_bind_addresses in E.
    destruct (reject_if _ _) as [[]|] eqn:Er; simpl in E; [|done]. apply reject_if_Ok in Er.
    destruct (first_duplicate [] x0) eqn:Ed; [done|]. apply first_duplicate_none in Ed as [Hnd _].
    split; [lia|done].
Qed.

Lemma clean_public_hostnames f l r :
  clean (validate_public_hostnames f l) r →
  r.2 = true ∧ r.1 ≠ [] ∧ Forall2 (λ g h, PublicHostname_try_from g = Ok h) l r.1.
Proof.
  unfold validate_public_hostnames. case_bool_decide as Hl; intros H; [done|].
  clean_step H. clean_step H. subst r. simpl.
  apply (clean_collect _ (λ g h, PublicHostname_try_from g = Ok h)) in Hc; [|intros; reporting_checks|].
  - pose proof (Forall2_length _ _ _ Hc) as Hlen. split_and!; [by apply bool_decide_eq_true| |done].
    intros ->. by destruct l.
  - intros h o. case_match eqn:E; [|done]. intros ->%clean_ret. eauto.
Qed.

Lemma accepted_hostnames l hs :
  Forall2 (λ g h, PublicHostname_try_from g = Ok h) l hs → Forall canonical_hostname hs.
Proof.
  unfold PublicHostname_try_from. induction 1 as [|g h l hs Hg _ IH]; constructor; [|done].
  by apply validate_spec in Hg as [_ ?].
Qed.

Lemma clean_identities i l r :
  clean (validate_server_tunnel_authorized_client_identities i l) r → r ≠ [] ∧ Forall identity_wf r.
Proof.
  unfold validate_server_tunnel_authorized_client_identities. destruct i as [i|], l as [l|]; intros H; try done.
  - case_match eqn:E; [|done]. clean_step H. subst. apply identity_from_str_iff in E as [_ ?].
    split; [done|by constructor].
  - unfold validate_client_identity_list in H. case_bool_decide as Hl; [done|].
    apply (clean_collect _ (λ _ i, identity_wf i)) in H; [|intros; reporting_checks|].
    + split; [|clear -H; induction H; constructor; auto]. intros ->. by inversion H; subst.
    + intros j o. case_match eqn:E; [|done]. intros ->%clean_ret.
      apply identity_from_str_iff in E as [_ ?]. eauto.
Qed.

(** A valid Tunnel of the configuration. *)
Definition tunnel_wf (t : ServerTunnelConfig) : Prop :=
  tunnel_id t = None ∧ public_hostnames t ≠ [] ∧ Forall canonical_hostname (public_hostnames t)
  ∧ authorized_client_identities t ≠ [] ∧ Forall identity_wf (authorized_client_identities t).

Lemma clean_tunnel raw v :
  clean (validate_prepared_server_tunnel raw) v →
  ∃ t, tunnel_wf t ∧ v = mkValidatedTunnel (Some t) (public_hostnames t) (authorized_client_identities t).
Proof.
  unfold validate_prepared_server_tunnel. intros H. clean_step H. destruct x as [hs valid].
  clean_step H. clean_step H. subst v.
  unfold validate_required_public_hostnames in Hc. destruct (raw_public_hostnames raw); [|done].
  apply clean_public_hostnames in Hc as (Hv & Hne & Hcan%accepted_hostnames). apply clean_identities in Hc0 as [Hi Hwf].
  simpl in *. subst valid. rewrite bool_decide_false by done.
  exists (mkTunnel None hs x). done.
Qed.

Lemma clean_unique_hostnames h seen l u :
  clean (unique_hostnames h seen l) u → (h ∉ l) ∧ NoDup l ∧ ∀ x, x ∈ l → x ∉ seen.
Proof.
  revert seen. induction l as [|x l IH]; intros seen H; simpl in H.
  { split_and!; [apply not_elem_of_nil|constructor|by intros ? ?%elem_of_nil]. }
  clean_step H. clean_step Hc. clean_step H. clean_step Hc0.
  apply bool_decide_eq_false in Hc, Hc0. apply IH in H as (Hh & Hnd & Hd). split_and!.
  - by apply not_elem_of_cons.
  - constructor; [|done]. intros Hin. apply (Hd x Hin). by left.
  - intros y [->|Hy]%elem_of_cons; [done|]. intros Hs. apply (Hd y Hy). by right.
Qed.

Lemma fmap_bind {A B C} (f : B → C) (g : A → list B) l : f <$> (l ≫= g) = l ≫= λ x, f <$> g x.
Proof. induction l as [|x l IH]; [done|]. rewrite !bind_cons, fmap_app. by f_equal. Qed.

Lemma clean_tunnels raw h ts :
  clean (validate_server_tunnels false raw (Some h)) ts →
  ts ≠ [] ∧ length ts = length raw ∧ Forall tunnel_wf ts ∧ tunnels_valid h ts.
Proof.
  unfold validate_server_tunnels. intros H. clean_step H. clean_step Hc. clean_step H. clean_step H.
  clean_step H. clean_step H. subst ts. apply bool_decide_eq_false in Hc.
  apply (clean_map _ (λ _ v, ∃ t, tunnel_wf t ∧
    v = mkValidatedTunnel (Some t) (public_hostnames t) (authorized_client_identities t))) in Hc0;
    [|apply _|intros; by eapply clean_tunnel].
  pose proof (Forall2_length _ _ _ Hc0) as Hlen.
  assert (∃ ts, x0 = (λ t, mkValidatedTunnel (Some t) (public_hostnames t) (authorized_client_identities t)) <$> ts
                ∧ Forall tunnel_wf ts) as (ts & -> & Hwf).
  { clear -Hc0. induction Hc0 as [|r v raw vs (t & Ht & ->) _ (ts & -> & Hts)]; [by exists []|].
    exists (t :: ts). split; [done|by constructor]. }
  rewrite length_fmap in Hlen.
  assert (omap tunnel_settings ((λ t, mkValidatedTunnel (Some t) (public_hostnames t)
            (authorized_client_identities t)) <$> ts) = ts) as ->
    by (clear; induction ts as [|t ts IH]; [done|by rewrite fmap_cons; cbn; f_equal]).
  unfold validate_unique_client_identities in Hc1. unfold validate_unique_server_hostnames in Hc2.
  rewrite list_fmap_bind in Hc1, Hc2.
  apply clean_unique in Hc1 as [Hids _]; [|apply _|done]. apply clean_unique_hostnames in Hc2 as (Hh & Hnd & _).
  split_and!; [intros ->; simpl in Hlen; lia|done|done|split_and!].
  - eapply Forall_impl; [done|]. by intros t (_ & ? & _).
  - apply (NoDup_fmap_1 ClientIdentity_display). unfold all_identities. by rewrite fmap_bind.
  - done.
  - done.
Qed.

(** The material that a manual certificate needs. *)
Definition manual_material (directory host : bytes) : Prop :=
  is_dir directory = true
  ∧ is_file (path_join directory SERVER_CERT_FILENAME) = true
  ∧ is_file (path_join directory SERVER_KEY_FILENAME) = true
  ∧ is_file (path_join directory SERVER_CA_FILENAME) = true
  ∧ tls_material_error (path_join directory SERVER_CERT_FILENAME) (path_join directory SERVER_KEY_FILENAME)
      (path_join directory SERVER_CA_FILENAME) host = None.

Definition certificate_wf (c : ServerCertificateConfig) (host : bytes) : Prop :=
  match c with
  | AcmeCert email _ _ => email ≠ []
  | ManualCert directory => manual_material directory host
  end.

Lemma clean_manual d h o :
  clean (validate_prepared_server_manual_cert_settings d (Some h)) o → o = Some d ∧ manual_material d h.
Proof.
  unfold validate_prepared_server_manual_cert_settings. intros H. clean_step H.
  apply clean_directory in Hc as [-> Hd]. simpl in H. clean_step H. clean_step H. clean_step H.
  apply clean_directory_file in Hc as [-> ?], Hc0 as [-> ?], Hc1 as [-> ?]. simpl in H.
  destruct (tls_material_error _ _ _ _) eqn:E; [done|]. apply clean_ret in H. done.
Qed.

Lemma clean_acme role raw o :
  clean (validate_prepared_acme_settings role raw) o →
  ∃ email d, acme_email raw = Some email ∧ o = if bool_decide (email = []) then None else Some (email, d).
Proof.
  unfold validate_prepared_acme_settings. intros H. clean_step H. clean_step H. clean_step H. subst o.
  destruct (acme_email raw) as [email|]; [|done]. apply clean_ret in Hc. subst x.
  assert (∃ d, x0 = Some d) as [d ->].
  { unfold validate_prepared_acme_state_directory in Hc0. destruct (acme_state_directory raw); clean_step Hc0.
    - apply clean_directory in Hc as [-> _]. apply clean_ret in Hc0. eauto.
    - apply clean_into_option in Hc as (? & -> & _). apply clean_ret in Hc0. eauto. }
  eauto.
Qed.

(** The certificate that a clean validation yields; only an empty ACME e-mail yields none. *)
Lemma clean_certificate env dir lvl raw unk ctl h o :
  clean (validate_server_certificate (prepare_raw_server_config env dir lvl raw unk ctl) (Some h)) o →
  (∃ c, o = Some c ∧ certificate_wf c h
        ∧ (raw_server_acme raw = None →
           ∃ d, c = ManualCert d
                ∧ resolve_path_with_default (raw_cert_dir raw) dir (default_server_cert_material_dir env) = Ready d))
  ∨ o = None ∧ raw_cert_dir raw = None ∧ ∃ acme, raw_server_acme raw = Some acme ∧ raw_email acme = Some [].
Proof.
  unfold validate_server_certificate, prepare_raw_server_config; cbn [p_manual_cert_present p_acme_present
    p_manual_certificate_directory p_acme]. intros H.
  clean_step H. clean_step Hc. clean_step H. clean_step H. clean_step H. subst o.
  destruct (raw_server_acme raw) as [acme|]; simpl in *.
  - destruct (raw_cert_dir raw); [done|]. simpl in *. apply clean_acme in Hc1 as (email & d & He & ->).
    simpl in He. case_bool_decide as Hemail; simpl; [|left; by eexists].
    right. subst. eauto.
  - clean_step Hc0. apply clean_into_option in Hc2 as (d & -> & Hd). simpl in Hc0.
    apply clean_manual in Hc0 as [-> ?]. left. simpl. eauto 6.
Qed.

Lemma clean_visitor_proxy v n r :
  clean (validate_visitor_proxy v n) r → (is_Some r.1 ↔ r.2 ≠ []).
Proof.
  unfold validate_visitor_proxy. intros H. clean_step H. clean_step H. clean_step H. clean_step Hc1.
  clean_step H. clean_step Hc2. clean_step H. subst r. simpl.
  destruct x as [version|]; simpl in *.
  - apply bool_decide_eq_false in Hc1. split; [done|by eexists].
  - destruct n; [done|]. apply clean_ret in Hc0. subst. split; [by intros [? ?]|done].
Qed.

Lemma clean_control_trust t o : clean (validate_prepared_control_trust t) o → is_Some o.
Proof.
  unfold validate_prepared_control_trust. destruct t as [|v| |]; try done; intros H.
  - apply clean_ret in H. by subst.
  - clean_step H. apply clean_into_option in Hc as (p & -> & _). simpl in H. clean_step H. clean_step H. subst o.
    unfold validate_existing_file in Hc. case_match; [|done]. apply clean_ret in Hc. by subst.
Qed.
Lemma clean_client_trust t o : clean (validate_client_trust t) o → is_Some o.
Proof.
  unfold validate_client_trust. destruct t as [|v| |]; try done; intros H.
  - apply clean_ret in H. by subst.
  - clean_step H. apply clean_into_option in Hc as (p & -> & _). simpl in H. clean_step H. clean_step H. subst o.
    unfold validate_existing_file in Hc. case_match; [|done]. apply clean_ret in Hc. by subst.
Qed.

Lemma clean_control c o :
  is_some (control_address c) = true → clean (validate_control true c) o → is_Some o.
Proof.
  unfold validate_control. intros Hm H. clean_step H. clean_step H. clean_step H. subst o.
  destruct (control_address c); [|done]. simpl in Hc. unfold validate_control_address_field in Hc.
  case_match; [|done]. apply clean_ret in Hc. subst. apply clean_control_trust in Hc0 as [? ->]. by eexists.
Qed.

(** The identity of a managed Server is the one in its directory, apart from the certificate's. *)
Definition identity_material_wf (i : ServerIdentityConfig) (c : ServerCertificateConfig) : Prop :=
  is_dir (identity_dir i) = true ∧ read_server_identity (identity_dir i) = Ok (server_identity i)
  ∧ ∀ d, c = ManualCert d → paths_refer_to_same_location (identity_dir i) d = false.

Lemma clean_identity env raw_dir dir c o :
  clean (validate_server_identity true (prepare_server_identity_directory env raw_dir dir true) (Some c)) o →
  ∃ i, o = Some i ∧ identity_material_wf i c.
Proof.
  unfold validate_server_identity. intros H. clean_step H. clean_step H. clean_step H. clean_step Hc1.
  assert (∃ d, x = Some d) as [d ->].
  { unfold prepare_server_identity_directory, and_then in Hc.
    destruct raw_dir; apply clean_into_option in Hc as (d & -> & _); eauto. }
  simpl in Hc0. apply clean_directory in Hc0 as [-> Hd]. simpl in H.
  unfold validate_prepared_server_identity_material in H. clean_step H. clean_step H. clean_step H.
  destruct (read_server_identity d) as [i|] eqn:E; [|done]. apply clean_ret in H. subst o.
  eexists. split; [done|]. split_and!; [done|done|]. intros e ->. by simpl in Hc1.
Qed.

Lemma parse_duration_range v d : parse_duration v = Some d → 0 ≤ d ≤ u64_max * 1000.
Proof.
  assert (∀ n q, parse_uint u64_max n = Some q → 0 ≤ q ≤ u64_max) as Hr
    by (intros n q; apply parse_uint_range; unfold u64_max; lia).
  unfold parse_duration, saturating_mul. intros H.
  repeat case_match; [apply Hr in H; lia|..|done];
    apply fmap_Some in H as (q & ?%Hr & ->); lia.
Qed.

(** ** The Server *)

(** What the rest of the Server relies on. *)
Record server_config_wf (c : ServerConfig) : Prop := {
  wf_hostname : canonical_hostname (hostname c);
  wf_certificate : certificate_wf (certificate c) (hostname c);
  wf_public : 1 ≤ len (public_bind_addresses c) ≤ 8 ∧ NoDup (public_bind_addresses c);
  wf_tunnel : 1 ≤ len (tunnel_connection_bind_addresses c) ≤ 8 ∧ NoDup (tunnel_connection_bind_addresses c);
  wf_graceful : 0 ≤ graceful_shutdown_duration c ≤ u64_max * 1000;
  wf_proxy : is_Some (visitor_proxy_protocol c) ↔ visitor_proxy_trusted_networks c ≠ [];
  wf_admission :
    match admission c with
    | StaticMode => tunnels c ≠ [] ∧ Forall tunnel_wf (tunnels c) ∧ tunnels_valid (hostname c) (tunnels c)
                    ∧ control c = None ∧ identity c = None
    | ManagedMode => tunnels c = [] ∧ is_Some (control c)
                     ∧ ∃ i, identity c = Some i ∧ identity_material_wf i (certificate c)
    end
}.

#[local] Instance appends_server p : Appends (server_checks p).
Proof. unfold server_checks. appending. Qed.
#[local] Instance concludes_server p : Concludes (server_checks p).
Proof. unfold server_checks. concluding. Qed.
#[local] Instance guarded_server env dir lvl raw unk ctl :
  Guarded (server_checks (prepare_raw_server_config env dir lvl raw unk ctl)).
Proof. unfold server_checks, prepare_raw_server_config; cbn. guarding. Qed.

Section Prepared.
Context (env : Env) (config_dir : bytes) (level : LogLevel) (raw : RawServerConfig).
Context (unknown : list Message) (ctl : PreparedControlSection).
#[local] Notation prepared := (prepare_raw_server_config env config_dir level raw unknown ctl).

(** The hostname of a clean validation. *)
Lemma clean_host (o : option bytes) h :
  clean (match o with
         | Some h => validate_server_hostname_field (bs "server.hostname") h
         | None => fail_with (Required (bs "server.hostname"))
         end) h →
  ∃ host, h = Some host ∧ canonical_hostname host.
Proof. destruct o; [apply clean_hostname|done]. Qed.

(** The settings of each admission mode. *)
Lemma clean_admission (managed : bool) h cert ts ident co :
  managed = is_some (control_address ctl) →
  clean (validate_server_tunnels managed (raw_tunnels raw) (Some h)) ts →
  clean (validate_server_identity managed
           (prepare_server_identity_directory env (raw_server_identity_dir raw) config_dir managed) (Some cert)) ident →
  clean (validate_control managed ctl) co →
  if managed then ts = [] ∧ is_Some co ∧ ∃ i, ident = Some i ∧ identity_material_wf i cert
  else ts ≠ [] ∧ Forall tunnel_wf ts ∧ tunnels_valid h ts ∧ co = None ∧ ident = None
       ∧ length ts = length (raw_tunnels raw).
Proof.
  intros Hm Hts Hident Hco. destruct managed.
  - apply clean_identity in Hident. apply clean_control in Hco; [|done].
    unfold validate_server_tunnels in Hts. clean_step Hts. apply clean_ret in Hts. done.
  - apply clean_tunnels in Hts as (? & ? & ? & ?). unfold validate_server_identity in Hident.
    clean_step Hident. apply clean_ret in Hident, Hco. done.
Qed.

Lemma server_accepted c :
  validate_prepared_server_config prepared = Some (Ok c) →
  server_config_wf c ∧ unknown = [] ∧ control_unknown ctl = []
  ∧ (admission c = StaticMode → length (tunnels c) = length (raw_tunnels raw))
  ∧ (raw_server_acme raw = None →
     ∃ d, certificate c = ManualCert d
          ∧ resolve_path_with_default (raw_cert_dir raw) config_dir (default_server_cert_material_dir env) = Ready d).
Proof.
  intros [Hms H]%accepted_clean; [|apply _..]. unfold server_checks in H.
  clean_bind H as u Hc. clean_bind H as h Hh. apply clean_host in Hh as (host & -> & Hhost).
  clean_bind H as cert Hcert. clean_bind H as public Hpublic. clean_bind H as tunnel Htunnel.
  clean_bind H as readiness Hr. clean_bind H as graceful Hg. clean_bind H as pv Hproxy.
  destruct pv as [version networks]. clean_bind H as ts Hts. clean_bind H as ident Hident.
  clean_bind H as co Hco. apply clean_conclude in H; [|apply _].
  clean_bind H as h' Hh. clean_bind H as cert' Hcert'. clean_bind H as graceful' Hg'. apply clean_ret in H.
  apply clean_expect in Hh, Hcert', Hg'. simplify_eq.
  apply clean_certificate in Hcert as [(c & [= <-] & Hcert & Hmanual)|[? _]]; [|done].
  apply clean_duration in Hg as (d & [= <-] & Hd%parse_duration_range).
  apply clean_bind_pair in Hpublic, Htunnel. apply clean_visitor_proxy in Hproxy.
  apply app_eq_nil in Hms as [Hu Hcu%fmap_nil_inv].
  pose proof (clean_admission _ _ _ _ _ _ eq_refl Hts Hident Hco) as Hadm. clear Hts Hident Hco Hc Hr.
  change (control_address (p_control prepared)) with (control_address ctl).
  destruct (is_some (control_address ctl)); (split; [split; simpl; tauto|split_and!; [done..| |done]]); [done|].
  intros _. apply Hadm.
Qed.

(** A validation panics only on an ACME e-mail that is present and empty. *)
Lemma server_panics :
  validate_prepared_server_config prepared = None →
  raw_cert_dir raw = None ∧ ∃ acme, raw_server_acme raw = Some acme ∧ raw_email acme = Some [].
Proof.
  intros Hn%fmap_None. assert (panics (server_checks prepared)) as H.
  { pose proof (guarded_server _ _ _ _ _ _ _ Hn) as Hms. unfold panics. by rewrite <- Hms. }
  clear Hn. unfold server_checks in H. panic_bind H as u Hu. panic_bind H as h Hh.
  apply clean_host in Hh as (host & -> & _). panic_bind H as cert Hcert. apply clean_certificate in Hcert.
  panic_bind H as public Hp. panic_bind H as tunnel Ht. panic_bind H as readiness Hr. panic_bind H as graceful Hg.
  apply clean_duration in Hg as (d & -> & _). panic_bind H as pv Hpv. destruct pv as [version networks].
  panic_bind H as ts Hts. panic_bind H as ident Hident. panic_bind H as co Hco. apply panics_conclude in H.
  apply panics_expect in H as [?|(? & [= <-] & H)]; [done|].
  destruct Hcert as [(c & -> & _)|(-> & Hcert & Hacme)]; [|done]. done.
Qed.

End Prepared.

(** ** The Client *)

(** A valid service of the configuration. *)
Definition service_wf (s : Service.ServiceConfig) : Prop :=
  (∀ hs, Service.public_hostnames s = Some hs → hs ≠ [] ∧ Forall canonical_hostname hs)
  ∧ (Service.tls_mode s = Service.Terminate → is_Some (Service.public_hostnames s))
  ∧ is_valid_backend_address (Service.backend_address s) = true.

Definition validated_from (s : Service.ServiceConfig) : ValidatedClientService :=
  mkValidatedService (Some s) (Service.hostnames_of s) (Some (Service.tls_mode s)).

(** The service says what the settings say. *)
Definition service_matches (raw : PreparedClientServiceConfig) (s : Service.ServiceConfig) : Prop :=
  match p_service_hostnames raw, Service.public_hostnames s with
  | Some given, Some hs => Forall2 (λ g h, PublicHostname_try_from g = Ok h) given hs
  | None, None => True
  | _, _ => False
  end
  ∧ p_backend_address raw = Some (Service.backend_address s)
  ∧ p_tls_mode raw = match Service.tls_mode s with
                     | Service.Passthrough => PreparedPassthrough
                     | Service.Terminate => PreparedTerminate
                     end
  ∧ is_some (Service.proxy_protocol s) = is_some (p_proxy_protocol raw).

Definition yields_service (raw : PreparedClientServiceConfig) (v : ValidatedClientService) : Prop :=
  ∃ s, v = validated_from s ∧ service_wf s ∧ service_matches raw s.

Lemma clean_optional_hostnames f l r :
  clean (validate_optional_public_hostnames f l) r →
  r.2 = true ∧ r.1.2 = default [] r.1.1
  ∧ match l, r.1.1 with
    | Some given, Some hs => hs ≠ [] ∧ Forall2 (λ g h, PublicHostname_try_from g = Ok h) given hs
    | None, None => True
    | _, _ => False
    end.
Proof.
  unfold validate_optional_public_hostnames. destruct l as [l|]; intros H.
  - clean_bind H as vs Hvs. apply clean_public_hostnames in Hvs as (Hv & Hne & Hcan). destruct vs as [vs valid].
    simpl in *. subst valid. apply clean_ret in H. by subst r.
  - apply clean_ret in H. by subst r.
Qed.

Lemma clean_service raw v : clean (validate_prepared_client_service raw) v → yields_service raw v.
Proof.
  unfold validate_prepared_client_service. intros H. clean_bind H as hs Hhs. destruct hs as [[values valid] ok].
  clean_bind H as backend Hb. clean_bind H as mode Hm. clean_bind H as proxy Hp. clean_bind H as u Hu.
  apply clean_ret in H. apply clean_push_if in Hu.
  apply clean_optional_hostnames in Hhs as (Hok & Hvalid & Hhs). simpl in *. subst valid ok.
  assert (∃ b, backend = Some b ∧ p_backend_address raw = Some b ∧ is_valid_backend_address b = true)
    as (b & -> & Hraw & Hback).
  { destruct (p_backend_address raw) as [b|]; [|done]. destruct (is_valid_backend_address b) eqn:E; [|done].
    apply clean_ret in Hb. eauto. }
  assert (∃ m, mode = Some m ∧ p_tls_mode raw = match m with Service.Passthrough => PreparedPassthrough
    | Service.Terminate => PreparedTerminate end) as (m & -> & Hmode)
    by (destruct (p_tls_mode raw); try done; apply clean_ret in Hm; eauto).
  assert (∃ pp, proxy = Some pp ∧ is_some pp = is_some (p_proxy_protocol raw)) as (pp & -> & Hproxy).
  { destruct (p_proxy_protocol raw); [case_bool_decide; [|done]|]; apply clean_ret in Hp; eauto. }
  exists (Service.mkService values b m pp). subst v. split; [done|]. split.
  - split_and!; [|simpl; intros ->; by destruct values|done]. simpl. intros hs ->.
    destruct (p_service_hostnames raw); [|done]. destruct Hhs as [? ?%accepted_hostnames]. done.
  - split; [|done]. simpl. destruct (p_service_hostnames raw), values; try done. by destruct Hhs.
Qed.

Lemma yielded_services raws vs :
  Forall2 yields_service raws vs →
  ∃ ss, vs = validated_from <$> ss ∧ Forall service_wf ss
        ∧ Forall2 service_matches raws ss.
Proof.
  induction 1 as [|raw v raws vs (s & -> & Hwf & Hs) _ (ss & -> & Hwfs & Hss)]; [by exists []|].
  exists (s :: ss). split_and!; [done|by constructor|by constructor].
Qed.

Definition terminates (s : Service.ServiceConfig) : Prop := Service.tls_mode s = Service.Terminate.

Lemma omitted_positive l (raw : PreparedClientServiceConfig) :
  raw ∈ l → is_some (p_service_hostnames raw) = false →
  len (List.filter (λ s, negb (is_some (p_service_hostnames s))) l) ≤ 0 → False.
Proof.
  intros Hin Hraw Hlen.
  assert (In raw (List.filter (λ s, negb (is_some (p_service_hostnames s))) l)) as Hf
    by (apply filter_In; rewrite <- list_elem_of_In, Hraw; done).
  destruct (List.filter _ l); [done|]. unfold len in Hlen. simpl in Hlen. lia.
Qed.

Lemma clean_services p cert ss :
  clean (validate_services_section p cert) ss →
  ss ≠ [] ∧ Forall service_wf ss ∧ Forall2 service_matches (p_services p) ss ∧ Service.validate_services ss = Ok ss
  ∧ (Exists terminates ss →
     is_Some cert ∨ is_Some (p_manual_public_cert_directory p) ∧ p_client_acme_present p = false).
Proof.
  unfold validate_services_section, validate_client_service_shapes. intros H. clean_bind H as u Hne. apply clean_push_if in Hne.
  apply bool_decide_eq_false in Hne. clean_bind H as vs Hvs. clean_bind H as u1 Hom. apply clean_push_if in Hom.
  clean_bind H as u2 Hu. clean_bind H as u3 Hcert. apply clean_push_if in Hcert. clean_bind H as u4 Hunused.
  apply clean_ret in H. clear Hunused.
  apply (clean_map _ yields_service) in Hvs; [|apply _|exact clean_service].
  apply yielded_services in Hvs as (ss' & -> & Hwf & Hrel).
  assert (ss = ss') as ->.
  { subst ss. clear. induction ss' as [|s ss IH]; [done|]. rewrite fmap_cons. cbn. by f_equal. }
  pose proof (Forall2_length _ _ _ Hrel) as Hlen.
  unfold validate_unique_client_service_hostnames in Hu. rewrite list_fmap_bind in Hu.
  apply clean_unique in Hu as [Hnd _]; [|apply _|done].
  split_and!; [intros ->; simpl in *; lia|done|done| |].
  - apply Service.validate_services_Ok. split_and!; [|done|done]. apply Forall_forall. intros s Hs.
    unfold Service.acceptable. destruct (Service.public_hostnames s) as [hs|] eqn:E.
    { rewrite Forall_forall in Hwf. by apply (Hwf s Hs). }
    apply andb_false_iff in Hom as [Hom|Hom]; [unfold len in *; by rewrite <- Hlen|].
    exfalso. apply list_elem_of_lookup_1 in Hs as [i Hi].
    destruct (Forall2_lookup_r _ _ _ _ _ Hrel Hi) as (raw & Hraw & Hs & _). rewrite E in Hs.
    apply Z.ltb_ge in Hom. eapply (omitted_positive (p_services p) raw); [by eapply list_elem_of_lookup_2| |done].
    by destruct (p_service_hostnames raw).
  - intros Ht. assert (existsb (λ s, match parsed_tls_mode s with Some Service.Terminate => true | _ => false end)
      (validated_from <$> ss') = true) as Hex.
    { apply existsb_exists. apply Exists_exists in Ht as (s & Hs & Ht). exists (validated_from s).
      rewrite <- list_elem_of_In. split; [by apply list_elem_of_fmap_2|]. simpl. by rewrite Ht. }
    rewrite Hex in Hcert. destruct cert; [left; by eexists|]. simpl in Hcert.
    destruct (p_manual_public_cert_directory p), (p_client_acme_present p); try done. right. eauto.
Qed.

Lemma clean_indexed n l r :
  clean (validate_indexed n l) r → Forall2 (λ s a, ServerAddress_parse s = Ok a) l r.
Proof.
  revert n r. induction l as [|s l IH]; intros n r H; simpl in H.
  { apply clean_ret in H. subst. constructor. }
  clean_bind H as o Ho. apply clean_server_address in Ho as (a & -> & Ha). clean_bind H as rest Hrest.
  apply clean_ret in H. subst r. constructor; eauto.
Qed.

(** The addresses that the singular and the plural setting name. *)
Definition named_addresses (a : option bytes) (l : option (list bytes)) : list bytes :=
  match a with Some a => [a] | None => default [] l end.

Lemma clean_static_addresses a l r :
  clean (validate_server_addresses false a l) r →
  r ≠ [] ∧ len r ≤ MAX_CLIENT_SERVER_ADDRESSES ∧ NoDup (ServerAddress_render <$> r)
  ∧ Forall2 (λ s x, ServerAddress_parse s = Ok x) (named_addresses a l) r.
Proof.
  unfold validate_server_addresses. intros H. clean_bind H as u Hmax. apply clean_push_if in Hmax.
  clean_bind H as v Hv. clean_bind H as u1 Hu. apply clean_ret in H. subst v.
  destruct a as [a|], l as [l|]; simpl in *; try (by clean_bind Hv as u2 Hbad).
  - unfold validate_single in Hv. clean_bind Hv as o Ho. apply clean_server_address in Ho as (x & -> & Hx).
    apply clean_ret in Hv. subst r. split_and!; [done|by vm_compute|apply NoDup_singleton|].
    by constructor.
  - clean_bind Hv as u2 Hne. apply clean_push_if in Hne. apply bool_decide_eq_false in Hne.
    apply clean_indexed in Hv. pose proof (Forall2_length _ _ _ Hv) as Hlen.
    apply clean_unique in Hu as [Hnd _]; [|apply _|done]. apply Z.ltb_ge in Hmax.
    split_and!; [intros ->; by inversion Hv; subst|unfold len in *; lia|done|done].
Qed.

Lemma clean_public_cert p cert :
  clean (validate_public_cert p) cert → p_client_acme_present p = false →
  is_Some (p_manual_public_cert_directory p) → is_Some cert.
Proof.
  unfold validate_public_cert. intros H Ha [v Hv]. rewrite Ha, Hv in H. clean_bind H as u Hu.
  clean_bind H as m Hm. clean_bind H as acme Hacme. apply clean_ret in H. subst cert. simpl in *.
  clean_bind Hm as d Hd. apply clean_into_option in Hd as (d' & -> & _). simpl in Hm.
  apply clean_directory in Hm as [-> _]. by eexists.
Qed.

(** What the rest of the Client relies on. *)
Record client_config_wf (c : ClientConfig) : Prop := {
  wf_capacity : MIN_VISITOR_CAPACITY ≤ max_visitor_streams c ≤ MAX_VISITOR_CAPACITY;
  wf_client_graceful : 0 ≤ client_graceful_shutdown_duration c ≤ u64_max * 1000;
  wf_identity_directory :
    is_dir (identity_directory c) = true
    ∧ Forall (λ f, is_file (path_join (identity_directory c) f) = true)
        [CLIENT_CERT_FILENAME; CLIENT_KEY_FILENAME; CLIENT_IDENTITY_FILENAME];
  wf_services : services c ≠ [] ∧ Forall service_wf (services c);
  wf_selectable : Service.validate_services (services c) = Ok (services c);
  wf_public_cert : Exists terminates (services c) → is_Some (public_cert_config c);
  wf_client_admission :
    match client_admission c with
    | StaticMode =>
        client_control c = None ∧ len (server_addresses c) ≤ MAX_CLIENT_SERVER_ADDRESSES
        ∧ NoDup (server_addresses c)
        ∧ ∃ first, head (server_addresses c) = Some first
                   ∧ server_hostname c = sa_hostname first ∧ server_port c = sa_port first
    | ManagedMode => server_addresses c = [] ∧ is_Some (client_control c)
    end
}.

#[local] Instance appends_client p : Appends (client_checks p).
Proof. unfold client_checks. appending. Qed.
#[local] Instance concludes_client p : Concludes (client_checks p).
Proof. unfold client_checks. concluding. Qed.
#[local] Instance guarded_client p : Guarded (client_checks p).
Proof. unfold client_checks. guarding. Qed.

Lemma clean_identity_directory v o d :
  clean (into_option v) o → clean (and_then o (validate_existing_directory_path (bs "client.identity-dir"))) d →
  ∃ dir, d = Some dir ∧ v = Ready dir ∧ is_dir dir = true.
Proof. intros (x & -> & ->)%clean_into_option H. apply clean_directory in H as [-> ?]. eauto. Qed.

Lemma clean_identity_files d u :
  clean (validate_identity_files (Some d)) u →
  Forall (λ f, is_file (path_join d f) = true) [CLIENT_CERT_FILENAME; CLIENT_KEY_FILENAME; CLIENT_IDENTITY_FILENAME].
Proof.
  unfold validate_identity_files. intros H. clean_bind H as a Ha. clean_bind H as b Hb. clean_bind H as c Hc.
  apply clean_directory_file in Ha as [_ ?], Hb as [_ ?], Hc as [_ ?]. by repeat constructor.
Qed.

Lemma clean_client_admission p (managed : bool) addresses co :
  managed = is_some (control_address (p_client_control p)) →
  clean (validate_server_addresses managed (p_server_address p) (p_server_addresses p)) addresses →
  clean (validate_control managed (p_client_control p)) co →
  if managed then addresses = [] ∧ is_Some co
  else co = None ∧ addresses ≠ [] ∧ len addresses ≤ MAX_CLIENT_SERVER_ADDRESSES ∧ NoDup addresses
       ∧ Forall2 (λ s x, ServerAddress_parse s = Ok x) (named_addresses (p_server_address p) (p_server_addresses p))
           addresses.
Proof.
  intros Hm Ha Hco. destruct managed.
  - apply clean_control in Hco; [|done]. split; [|done]. unfold validate_server_addresses in Ha.
    clean_bind Ha as u Hu. clean_bind Ha as u1 Hu1. clean_bind Ha as u2 Hu2. clean_bind Ha as u3 Hu3.
    by apply clean_ret in Ha.
  - apply clean_static_addresses in Ha as (? & ? & ?%NoDup_fmap_1 & ?). by apply clean_ret in Hco.
Qed.

Lemma client_accepted p c :
  validate_prepared_client_config p = Some (Ok c) →
  client_config_wf c ∧ p_client_unknown p = [] ∧ control_unknown (p_client_control p) = []
  ∧ Forall2 service_matches (p_services p) (services c)
  ∧ (control_address (p_client_control p) = None →
     Forall2 (λ s x, ServerAddress_parse s = Ok x) (named_addresses (p_server_address p) (p_server_addresses p))
       (server_addresses c))
  ∧ p_client_identity_directory p = Ready (identity_directory c).
Proof.
  intros [Hms H]%accepted_clean; [|apply _..]. unfold client_checks in H.
  clean_bind H as u Hcap. apply clean_push_if in Hcap. clean_bind H as graceful Hg.
  apply clean_duration in Hg as (g & -> & Hg%parse_duration_range). clean_bind H as u1 Hu1.
  clean_bind H as addresses Ha. clean_bind H as trust Ht. clean_bind H as o Ho. clean_bind H as d Hd.
  destruct (clean_identity_directory _ _ _ Ho Hd) as (dir & -> & Hready & Hdir). clean_bind H as u2 Hfiles.
  apply clean_identity_files in Hfiles. clean_bind H as cert Hcert. clean_bind H as ss Hss.
  apply clean_services in Hss as (Hne & Hwf & Hmatch & Hsel & Hterm). clean_bind H as co Hco.
  pose proof (clean_client_admission _ _ _ _ eq_refl Ha Hco) as Hadm.
  destruct (match addresses with first :: _ => _ | [] => _ end) as [host port] eqn:Efirst.
  apply clean_conclude in H; [|apply _]. clean_bind H as g' Hg'. clean_bind H as t' Ht'. clean_bind H as d' Hd'.
  apply clean_ret in H. apply clean_expect in Hg', Ht', Hd'. simplify_eq.
  apply app_eq_nil in Hms as [Hu Hcu%fmap_nil_inv].
  split; [|split_and!; [done..|intros Hctl; rewrite Hctl in Hadm; apply Hadm|done]]. split; simpl; try done.
  - apply negb_false_iff, andb_true_iff in Hcap as [?%Z.leb_le ?%Z.leb_le]. done.
  - intros [?|[Hm Hacme]]%Hterm; [done|]. by eapply clean_public_cert.
  - destruct (is_some _); [done|]. destruct Hadm as (-> & Hnea & Hlen & Hnd & _). split_and!; [done..|].
    destruct addresses as [|first rest]; [done|]. injection Efirst as <- <-. by exists first.
Qed.

(** A well-formed static configuration has an authorization snapshot. *)
Lemma static_snapshot c :
  server_config_wf c → admission c = StaticMode →
  ∃ s, try_from_static_tunnels (hostname c) (tunnels c) = Ok s ∧ tunnel_count s = length (tunnels c)
       ∧ (∀ h i, tunnel_index_for_public_hostname s h = Some i ↔ lists_key public_hostnames (tunnels c) h i)
       ∧ (∀ id i, tunnel_index_for_client_identity s id = Some i ↔
                  lists_key authorized_client_identities (tunnels c) id i).
Proof.
  intros Hwf Hs. pose proof (wf_admission c Hwf) as Hadm. rewrite Hs in Hadm.
  destruct Hadm as (_ & Hts & Hval & _). destruct (build_complete _ _ Hval) as [m Hm].
  exists (snapshot_of m Static (tunnels c)). unfold try_from_static_tunnels.
  assert (existsb (λ t, bool_decide (is_Some (tunnel_id t))) (tunnels c) = false) as ->.
  { apply not_true_is_false. intros (t & Ht & Hid%bool_decide_eq_true)%existsb_exists.
    rewrite <- list_elem_of_In in Ht. rewrite Forall_forall in Hts. destruct (Hts t Ht) as [Hnone _].
    rewrite Hnone in Hid. by destruct Hid. }
  rewrite Hm. destruct (build_sound _ _ _ Hm) as [_ [Hi Hh _ _]]. split_and!; [done|done|apply Hh|apply Hi].
Qed.

(** ** Properties *)

(** The validation of a Client always returns: the settings it unwraps are there whenever
    nothing was reported. *)
Theorem client_validation_total p : ∃ r, validate_prepared_client_config p = Some r.
Proof.
  unfold validate_prepared_client_config.
  destruct (client_checks p _) as [[r ms]|] eqn:Hn; [by eexists|]. exfalso.
  assert (panics (client_checks p)) as H.
  { pose proof (guarded_client _ _ Hn) as Hms. unfold panics. by rewrite <- Hms. }
  clear Hn. unfold client_checks in H. panic_bind H as u Hcap. panic_bind H as graceful Hg.
  apply clean_duration in Hg as (g & -> & _). panic_bind H as u1 Hu1. panic_bind H as addresses Ha.
  panic_bind H as trust Ht. apply clean_client_trust in Ht as [t ->]. panic_bind H as o Ho. panic_bind H as d Hd.
  destruct (clean_identity_directory _ _ _ Ho Hd) as (dir & -> & _). panic_bind H as u2 Hfiles.
  panic_bind H as cert Hcert. panic_bind H as ss Hss. panic_bind H as co Hco.
  destruct (match addresses with first :: _ => _ | [] => _ end) as [host port].
  by apply panics_conclude in H.
Qed.

(** C30: What the validation of a Server accepts is well-formed: a canonical hostname, one to
    eight distinct bind addresses of each kind, a certificate that is usable for the
    hostname, trusted networks exactly when the PROXY protocol is on.  A static Server has
    Tunnels with canonical hostnames and identities, none listed twice and none the Server's
    own, and no Control settings; a managed Server has no Tunnels, a Control address and an
    identity whose directory is not the certificate's. *)
Theorem accepted_server_config env config_dir level raw unknown ctl c :
  validate_prepared_server_config (prepare_raw_server_config env config_dir level raw unknown ctl) = Some (Ok c) →
  server_config_wf c ∧ unknown = [] ∧ control_unknown ctl = [].
Proof. intros (? & ? & ? & _)%server_accepted. done. Qed.

(** A static configuration that validation accepts always yields an authorization
    snapshot, and the snapshot routes each hostname and authorizes each identity to the
    Tunnel of the configuration that lists it. *)
Theorem static_config_authorizes env config_dir level raw unknown ctl c :
  validate_prepared_server_config (prepare_raw_server_config env config_dir level raw unknown ctl) = Some (Ok c) →
  admission c = StaticMode →
  ∃ s, try_from_static_tunnels (hostname c) (tunnels c) = Ok s
       ∧ tunnel_count s = length (raw_tunnels raw)
       ∧ (∀ h i, tunnel_index_for_public_hostname s h = Some i ↔ lists_key public_hostnames (tunnels c) h i)
       ∧ (∀ id i, tunnel_index_for_client_identity s id = Some i ↔
                  lists_key authorized_client_identities (tunnels c) id i).
Proof.
  intros (Hwf & _ & _ & Hlen & _)%server_accepted Hs. destruct (static_snapshot c Hwf Hs) as (s & H1 & H2 & H3 & H4).
  exists s. split_and!; [done|rewrite H2; by apply Hlen|done|done].
Qed.

(** The validation of a Server panics only on an [[server.acme]] table whose [email] is the
    empty string, with no [cert-dir] beside it. *)
Theorem server_validation_panics_only env config_dir level raw unknown ctl :
  validate_prepared_server_config (prepare_raw_server_config env config_dir level raw unknown ctl) = None →
  raw_cert_dir raw = None ∧ ∃ acme, raw_server_acme raw = Some acme ∧ raw_email acme = Some [].
Proof. apply server_panics. Qed.

(** What the validation of a Client accepts is well-formed: the capacity is in its range,
    the identity files exist, the services are accepted by [validate_services] when the
    Client starts, a terminating service has hostnames and the Client a public certificate
    for it.  A static Client has one to 256 distinct Server addresses and no Control
    settings, a managed Client a Control address and no Server address. *)
Theorem accepted_client_config p c :
  validate_prepared_client_config p = Some (Ok c) →
  client_config_wf c ∧ p_client_unknown p = [] ∧ control_unknown (p_client_control p) = []
  ∧ Forall2 service_matches (p_services p) (services c).
Proof. intros (? & ? & ? & ? & _)%client_accepted. done. Qed.

(** The command line overrides the file: the Server addresses given there are the ones of
    the accepted static configuration, in order, and a backend given there is its only
    service, a catch-all, when the file has no service. *)
Theorem command_line_overrides env config_dir section raw level ctl runtime defaults c :
  control_address ctl = None →
  validate_prepared_client_config (prepare_client_section env config_dir section raw level ctl runtime defaults) =
    Some (Ok c) →
  (arg_server_addresses runtime ≠ [] →
   Forall2 (λ s x, ServerAddress_parse s = Ok x) (arg_server_addresses runtime) (server_addresses c))
  ∧ (∀ backend, arg_backend_address runtime = Some backend →
     service_block_count section = 0 ∧ services c = [Service.mkService None backend Service.Passthrough None]).
Proof.
  intros Hctl Hv. assert (0 ≤ service_block_count section) as Hcount
    by (unfold service_block_count; case_match; [apply len_nonneg|lia]).
  unfold prepare_client_section in Hv. rewrite Hctl in Hv. cbn [is_some andb] in Hv.
  set (r := match arg_server_addresses runtime with [] => _ | _ => _ end) in Hv.
  destruct r as [raw1 messages] eqn:Er. subst r.
  set (r := match arg_backend_address runtime with None => _ | _ => _ end) in Hv.
  destruct r as [raw2 messages'] eqn:Es. subst r.
  apply client_accepted in Hv as (_ & Hunknown & _ & Hmatch & Haddr & _). specialize (Haddr Hctl). simpl in *. split.
  - intros Hne. assert (named_addresses (raw_server_address raw2) (raw_server_addresses raw2) =
      arg_server_addresses runtime) as <-; [|done].
    assert (named_addresses (raw_server_address raw1) (raw_server_addresses raw1) = arg_server_addresses runtime) as <-
      by (destruct (arg_server_addresses runtime) as [|x [|y l]]; [done|by injection Er as <- _..]).
    repeat case_match; by injection Es as <- _.
  - intros backend Hb. rewrite Hb in Es. destruct (Z.ltb_spec 0 (service_block_count section)).
    { injection Es as _ <-. by destruct messages. }
    injection Es as <- _. split; [lia|]. simpl in Hmatch.
    apply Forall2_cons_inv_l in Hmatch as (s & ss & Hs & ->%Forall2_nil_inv_l & ->).
    destruct Hs as (Hh & Hbk & Hm & Hp). destruct s as [[] b [] []]; simpl in *; try done; congruence.
Qed.

(** A problem found before validation, such as a field that no section has, is never
    lost: both validations reject, and their messages start with the ones found before. *)
Theorem earlier_problems_reported env config_dir level raw unknown ctl p :
  (unknown ≠ [] →
   ∃ more, validate_prepared_server_config (prepare_raw_server_config env config_dir level raw unknown ctl) =
           Some (Err ((unknown ++ (UnknownField <$> control_unknown ctl)) ++ more)))
  ∧ (p_client_unknown p ≠ [] →
     ∃ more, validate_prepared_client_config p =
             Some (Err ((p_client_unknown p ++ (UnknownField <$> control_unknown (p_client_control p))) ++ more))).
Proof.
  split; intros Hne; (apply reported_kept; [apply _..|]); intros Hnil; apply app_eq_nil in Hnil as [? _]; done.
Qed.

End Validation.

(** ** Examples *)

Module Toy.

Definition env : Env := λ _, None.
Definition yes (_ : bytes) : bool := true.
Definition no_error (_ _ _ _ : bytes) : option bytes := None.
Definition read_identity (_ : bytes) : result bytes bytes := Ok (bs "id").
Definition no_control : PreparedControlSection := mkPreparedControl false None PreparedSystem [].
Definition with_control : PreparedControlSection :=
  mkPreparedControl true (Some (bs "control.example.com:443")) PreparedSystem [].
Definition client_id : bytes := List.concat (replicate 32 (bs "0a")).

Definition raw (cert : option bytes) (acme : option RawAcmeConfig) (ts : list RawServerTunnelConfig) :
    RawServerConfig :=
  mkRawServer (Some (bs "Srv.Example.com")) cert (Some (bs "/identity")) acme None None None None None None None None ts.
Definition static_raw : RawServerConfig :=
  mkRawServer (Some (bs "Srv.Example.com")) (Some (bs "/cert")) None None None None None None None None None None
    [mkRawTunnel (Some [bs "a.example.com"]) (Some client_id) None].

Definition validate := validate_prepared_server_config yes yes Some no_error read_identity.
Definition validate_client := validate_prepared_client_config yes yes.

Definition server (raw : RawServerConfig) (ctl : PreparedControlSection) :=
  validate (prepare_raw_server_config env (bs "/etc") LogInfo raw [] ctl).
Definition no_email : RawServerConfig := raw None (Some (mkRawAcme (Some []) (Some (bs "/state")))) [].

(** The configuration that a validation accepts, or a default. *)
Definition accepted {A} (d : A) (r : option (result (list Message) A)) : A :=
  match r with Some (Ok a) => a | _ => d end.
Definition no_server : ServerConfig :=
  mkServerConfig [] LogInfo (ManualCert []) [] [] None 0 None [] [] None None ManagedMode.
Definition static_server : ServerConfig := accepted no_server (server static_raw no_control).

Definition client (raw : RawClientConfig) (ctl : PreparedControlSection) :=
  prepare_raw_client_config env (bs "/etc") LogInfo raw [] ctl (mkClientDefaults (Ok (bs "/id")) (Ok (bs "/pub"))).
Definition raw_client : RawClientConfig :=
  mkRawClient None None (Some (bs "srv.example.com")) None (Some (bs "system")) None None None None
    [mkRawService None (Some (bs "127.0.0.1:80")) None None].
Definition no_client : ClientConfig := mkClientConfig 0 0 [] [] 0 LogInfo System [] [] None None ManagedMode.
Definition static_client : ClientConfig := accepted no_client (validate_client (client raw_client no_control)).

(** A file with settings of its own and a command line that names others. *)
Definition runtime : ClientRuntimeArgs := mkClientArgs [bs "other.example.com"] (Some (bs "127.0.0.1:81")) None.
Definition overridden : PreparedClientConfig :=
  prepare_client_section env (bs "/etc") (TTable []) raw_client LogInfo no_control runtime
    (mkClientDefaults (Ok (bs "/id")) (Ok (bs "/pub"))).

End Toy.

Lemma accepted_server_config_witness :
  server_config_wf Toy.yes Toy.yes Some Toy.no_error Toy.read_identity Toy.static_server.
Proof.
  refine (proj1 (accepted_server_config Toy.yes Toy.yes Some Toy.no_error Toy.read_identity Toy.env (bs "/etc") LogInfo
    Toy.static_raw [] Toy.no_control Toy.static_server _)). vm_compute. reflexivity.
Defined.

Lemma static_config_authorizes_witness :
  ∃ s, try_from_static_tunnels (hostname Toy.static_server) (tunnels Toy.static_server) = Ok s ∧ tunnel_count s = 1%nat.
Proof.
  destruct (static_config_authorizes Toy.yes Toy.yes Some Toy.no_error Toy.read_identity Toy.env (bs "/etc") LogInfo
    Toy.static_raw [] Toy.no_control Toy.static_server) as (s & Hs & Hn & _);
    [vm_compute; reflexivity|vm_compute; reflexivity|].
  exists s. split; [exact Hs|exact Hn].
Defined.

Lemma server_validation_panics_only_witness :
  Toy.server Toy.no_email Toy.with_control = None ∧ raw_cert_dir Toy.no_email = None.
Proof.
  split; [vm_compute; reflexivity|].
  refine (proj1 (server_validation_panics_only Toy.yes Toy.yes Some Toy.no_error Toy.read_identity Toy.env (bs "/etc")
    LogInfo Toy.no_email [] Toy.with_control _)). vm_compute. reflexivity.
Defined.

Lemma accepted_client_config_witness : client_config_wf Toy.yes Toy.yes Toy.static_client.
Proof.
  refine (proj1 (accepted_client_config Toy.yes Toy.yes (Toy.client Toy.raw_client Toy.no_control) Toy.static_client _)).
  vm_compute. reflexivity.
Defined.

Lemma command_line_overrides_witness :
  services (Toy.accepted Toy.no_client (Toy.validate_client Toy.overridden)) =
  [Service.mkService None (bs "127.0.0.1:81") Service.Passthrough None].
Proof.
  refine (proj2 (proj2 (command_line_overrides Toy.yes Toy.yes Toy.env (bs "/etc") (TTable []) Toy.raw_client LogInfo
    Toy.no_control Toy.runtime (mkClientDefaults (Ok (bs "/id")) (Ok (bs "/pub")))
    (Toy.accepted Toy.no_client (Toy.validate_client Toy.overridden)) eq_refl _) (bs "127.0.0.1:81") eq_refl)).
  vm_compute. reflexivity.
Defined.

Lemma earlier_problems_reported_witness :
  ∃ more, Toy.validate (prepare_raw_server_config Toy.env (bs "/etc") LogInfo Toy.static_raw [MissingSection]
                          Toy.no_control) = Some (Err ([MissingSection] ++ more)).
Proof.
  destruct (earlier_problems_reported Toy.yes Toy.yes Some Toy.no_error Toy.read_identity Toy.env (bs "/etc") LogInfo
    Toy.static_raw [MissingSection] Toy.no_control (Toy.client Toy.raw_client Toy.no_control)) as [Hs _].
  destruct Hs as [more Hm]; [discriminate|]. exists more. exact Hm.
Defined.

(** The guard before the [expect] of the certificate misses a case: an [[server.acme]] table
    with [email = ] the empty string reports nothing, yields no certificate settings and
    panics, where a missing [email] is reported as required. *)
Theorem empty_acme_email_panics :
  Toy.server Toy.no_email Toy.with_control = None
  ∧ Toy.server (Toy.raw None (Some (mkRawAcme None (Some (bs "/state")))) []) Toy.with_control =
    Some (Err [Required (bs "server.acme.email")]).
Proof. split; vm_compute; reflexivity. Qed.
