(* ===== verification/Materials.v ===== *)
(** * Materials: what the certificate and identity commands read from a configuration

    The projections of [src/config/preparation/{client,server,material}.rs] used by the
    commands that create certificates and identities.  They read the file on their own,
    without the validation of [Config]; the properties compare what they find with what an
    accepted configuration uses, so that a command works on the material that the Server or
    the Client will read. *)

From Stdlib Require Import Ascii ZArith Lia.
From stdpp Require Import base strings numbers gmap list sorting.
From S2P Require Import Prelude Text Names Framing Assignment Authorization ConfigPrep Checks Config.
Import Hostname.
Import (hints) Convergence.

Open Scope Z_scope.

(** ** The projections *)

(** [load_optional_raw_client_section] and [load_optional_raw_server_section]. *)
Definition load_optional_raw_section {E A} (unknown_fields : Toml → list bytes)
    (section : option (Toml * result E A)) : result (ConfigFileError E) (option A) :=
  match section with
  | None => Ok None
  | Some (value, raw) =>
      match unknown_fields value with
      | [] => raw ← map_err ParseError raw; Ok (Some raw)
      | fields => Err (ValidationError (UnknownField <$> fields))
      end
  end.

Definition load_optional_raw_client_section {E} (doc : ConfigDocument E) :=
  load_optional_raw_section collect_client_unknown_fields (client_section doc).
Definition load_optional_raw_server_section {E} (doc : ConfigDocument E) :=
  load_optional_raw_section collect_server_unknown_fields (server_section doc).

Definition project_optional_client_path {E} (config_dir : bytes) (doc : ConfigDocument E)
    (select : RawClientConfig → option bytes) : result (ConfigFileError E) (option bytes) :=
  raw ← load_optional_raw_client_section doc;
  Ok (raw ← raw; resolve_path config_dir <$> select raw).
Definition project_client_identity_material_dir {E} (config_dir : bytes) (doc : ConfigDocument E) :=
  project_optional_client_path config_dir doc raw_client_identity_dir.
Definition project_client_public_cert_material_dir {E} (config_dir : bytes) (doc : ConfigDocument E) :=
  project_optional_client_path config_dir doc raw_public_cert_dir.

Definition project_server_cert_material_dir {E} (config_dir : bytes) (doc : ConfigDocument E) :
    result (ConfigFileError E) (option bytes) :=
  raw ← load_optional_raw_server_section doc;
  Ok (raw ← raw; resolve_path config_dir <$> raw_cert_dir raw).

Definition project_server_hostname {E} (doc : ConfigDocument E) : result (ConfigFileError E) (option bytes) :=
  raw ← load_optional_raw_server_section doc;
  match (raw ← raw; raw_hostname raw) with
  | None => Ok None
  | Some hostname =>
      match ServerHostname_try_from hostname with
      | Ok h => Ok (Some h)
      | Err _ => Err (ValidationError [FieldInvalid (bs "server.hostname")])
      end
  end.

(** [Vec::dedup]: of equal neighbours the first stays. *)
Fixpoint dedup (l : list bytes) : list bytes :=
  match l with
  | x :: rest => match rest with
                 | y :: _ => if bool_decide (x = y) then dedup rest else x :: dedup rest
                 | [] => [x]
                 end
  | [] => []
  end.

(** One turn of the loop over the hostnames of the terminating services. *)
Definition project_hostname (acc : list bytes * list Message) (hostname : bytes) : list bytes * list Message :=
  match PublicHostname_try_from hostname with
  | Ok h => (acc.1 ++ [h], acc.2)
  | Err _ => (acc.1, acc.2 ++ [ContainsInvalid SERVICE_HOSTNAMES hostname])
  end.

Definition terminating_hostnames (raw : RawClientConfig) : list bytes :=
  List.filter (λ s, bool_decide (raw_tls_mode s = Some (bs "terminate"))) (raw_services raw)
    ≫= λ s, default [] (raw_service_hostnames s).

Definition project_terminating_hostnames {E} (doc : ConfigDocument E) :
    result (ConfigFileError E) (option (list bytes)) :=
  raw ← load_optional_raw_client_section doc;
  match raw with
  | None => Ok None
  | Some raw =>
      let '(hostnames, messages) := fold_left project_hostname (terminating_hostnames raw) ([], []) in
      match messages with
      | [] => Ok (Some (dedup (merge_sort Convergence.string_le hostnames)))
      | _ => Err (ValidationError messages)
      end
  end.

Definition is_managed_client_config {E} (env : Env) (config_dir : bytes) (doc : ConfigDocument E) :
    result (ConfigFileError E) bool :=
  control ← load_section (control_section doc);
  Ok (is_some (control_address (prepare_control_section env config_dir control None))).

(** ** Lemmas *)

Lemma dedup_elem l h : h ∈ dedup l ↔ h ∈ l.
Proof.
  induction l as [|x [|y l] IH]; [done|done|]. cbn [dedup] in *.
  case_bool_decide as E; [subst; rewrite IH; set_solver|]. rewrite !(elem_of_cons _ _ x), IH. done.
Qed.

Lemma string_le_antisym a b : Convergence.string_le a b → Convergence.string_le b a → a = b.
Proof.
  unfold Convergence.string_le. revert b. induction a as [|x a IH]; intros [|y b]; simpl; try done.
  destruct (Z.ltb_spec (u8_val x) (u8_val y)), (Z.ltb_spec (u8_val y) (u8_val x)); try lia; try done.
  intros Hab Hba. f_equal; [|by apply IH]. apply u8_val_inj. lia.
Qed.

(** Strictly increasing. *)
Definition string_lt (a b : bytes) : Prop := Convergence.string_le a b ∧ a ≠ b.

Lemma dedup_sorted l : StronglySorted Convergence.string_le l → StronglySorted string_lt (dedup l).
Proof.
  induction l as [|x [|y l] IH]; intros Hs; [constructor|by repeat constructor|].
  apply StronglySorted_inv in Hs as [Hs Hx]. specialize (IH Hs). cbn [dedup] in *.
  case_bool_decide as E; [done|]. constructor; [done|]. apply Forall_forall. intros z Hz.
  change (z ∈ dedup (y :: l)) in Hz. rewrite dedup_elem in Hz.
  rewrite Forall_forall in Hx. split; [by apply Hx|]. intros ->.
  apply StronglySorted_inv in Hs as [_ Hy]. apply E. apply elem_of_cons in Hz as [->|Hz]; [done|].
  rewrite Forall_forall in Hy. apply string_le_antisym; [apply Hx; by left|by apply Hy].
Qed.

Lemma project_hostnames_ok given hs acc :
  Forall2 (λ g h, PublicHostname_try_from g = Ok h) given hs →
  fold_left project_hostname given (acc, []) = (acc ++ hs, []).
Proof.
  intros H. revert acc. induction H as [|g h given hs Hg _ IH]; intros acc; simpl; [by rewrite app_nil_r|].
  unfold project_hostname at 2. rewrite Hg. simpl. by rewrite IH, <- app_assoc.
Qed.

(** The hostnames that the terminating services of a Client list. *)
Definition terminated_hostnames (ss : list Service.ServiceConfig) : list bytes :=
  List.filter (λ s, match Service.tls_mode s with Service.Terminate => true | Service.Passthrough => false end) ss
    ≫= Service.hostnames_of.

Lemma prepared_terminate raw :
  p_tls_mode (prepare_client_service raw) = PreparedTerminate ↔ raw_tls_mode raw = Some (bs "terminate").
Proof.
  unfold prepare_client_service; simpl. destruct (raw_tls_mode raw) as [mode|]; [|done].
  destruct (decide (mode = bs "passthrough")) as [->|]; [by vm_compute|].
  rewrite (bool_decide_false (mode = bs "passthrough")) by done. case_bool_decide; naive_solver.
Qed.

Lemma matching_terminated raws ss :
  Forall2 service_matches (prepare_client_service <$> raws) ss →
  Forall2 (λ g h, PublicHostname_try_from g = Ok h)
    (List.filter (λ s, bool_decide (raw_tls_mode s = Some (bs "terminate"))) raws
       ≫= λ s, default [] (raw_service_hostnames s))
    (terminated_hostnames ss).
Proof.
  revert ss. induction raws as [|raw raws IH]; intros ss Hm.
  { by apply Forall2_nil_inv_l in Hm as ->. }
  rewrite fmap_cons in Hm. apply Forall2_cons_inv_l in Hm as (s & ss' & (Hh & _ & Hmode & _) & Hm & ->).
  specialize (IH _ Hm). unfold terminated_hostnames in *. cbn [List.filter].
  pose proof (prepared_terminate raw) as Ht. rewrite Hmode in Ht. destruct (Service.tls_mode s).
  - rewrite bool_decide_false by naive_solver. done.
  - rewrite bool_decide_true by naive_solver. rewrite !bind_cons. apply Forall2_app; [|done].
    unfold Service.hostnames_of. cbn [p_service_hostnames prepare_client_service] in Hh.
    by destruct (raw_service_hostnames raw), (Service.public_hostnames s).
Qed.

(** What preparation keeps of a [client] section. *)
Lemma client_section_prepared env config_dir section raw level ctl runtime defaults :
  ∃ raw' messages,
    prepare_client_section env config_dir section raw level ctl runtime defaults =
      prepare_raw_client_config env config_dir level raw' messages ctl defaults
    ∧ (messages = [] → collect_client_unknown_fields section = [])
    ∧ raw_client_identity_dir raw' = raw_client_identity_dir raw
    ∧ (arg_backend_address runtime = None → raw_services raw' = raw_services raw).
Proof.
  unfold prepare_client_section.
  destruct (if is_some (control_address ctl) && _ then _ else _) as [raw1 messages] eqn:Er.
  assert ((messages = [] → collect_client_unknown_fields section = [])
    ∧ raw_client_identity_dir raw1 = raw_client_identity_dir raw ∧ raw_services raw1 = raw_services raw) as (Hm & Hi & Hs).
  { revert Er. case_match; [intros [= <- <-]; split; [by intros [?%fmap_nil_inv _]%app_eq_nil|done]|].
    destruct (arg_server_addresses runtime) as [|x [|y l]]; intros [= <- <-];
      (split; [by intros ?%fmap_nil_inv|done]). }
  destruct (arg_backend_address runtime) as [b|]; [destruct (0 <? service_block_count section)|];
    eexists _, _; (split; [reflexivity|]).
  - split_and!; [by intros [? _]%app_eq_nil; auto|done|done].
  - split_and!; done.
  - split_and!; done.
Qed.

(** ** Properties *)

Section Agreement.
Context (is_file is_dir : bytes → bool) (canonicalize : bytes → option bytes).
Context (tls_material_error : bytes → bytes → bytes → bytes → option bytes).
Context (read_server_identity : bytes → result bytes bytes).
Context {E : Type} (env : Env) (config_dir : bytes) (level : LogLevel).

(** The hostnames that the certificate commands project from a file are, in strictly
    increasing order, exactly the ones of the terminating services of the Client that the
    file configures, whenever validation accepts it. *)
Theorem terminating_hostnames_exact (doc : ConfigDocument E) section raw ctl runtime defaults c :
  client_section doc = Some (section, Ok raw) → arg_backend_address runtime = None →
  validate_prepared_client_config is_file is_dir
    (prepare_client_section env config_dir section raw level ctl runtime defaults) = Some (Ok c) →
  ∃ hs, project_terminating_hostnames doc = Ok (Some hs) ∧ StronglySorted string_lt hs
        ∧ ∀ h, h ∈ hs ↔ ∃ s, s ∈ services c ∧ terminates s ∧ h ∈ Service.hostnames_of s.
Proof.
  clear canonicalize tls_material_error read_server_identity. intros Hdoc Hb Hv.
  destruct (client_section_prepared env config_dir section raw level ctl runtime defaults)
    as (raw1 & messages & Hp & Hu & _ & Hs). specialize (Hs Hb).
  rewrite Hp in Hv. apply client_accepted in Hv as (_ & Hunknown & _ & Hmatch & _).
  cbn [p_client_unknown p_services prepare_raw_client_config] in Hunknown, Hmatch. specialize (Hu Hunknown).
  rewrite Hs in Hmatch. apply matching_terminated in Hmatch.
  unfold project_terminating_hostnames, load_optional_raw_client_section, load_optional_raw_section.
  rewrite Hdoc, Hu. cbn [mbind result_bind map_err]. unfold terminating_hostnames.
  rewrite (project_hostnames_ok _ _ [] Hmatch). cbn [app]. eexists. split; [done|]. split.
  - apply dedup_sorted. apply Sorted_StronglySorted; [apply _|]. apply Sorted_merge_sort. apply _.
  - intros h. rewrite dedup_elem, merge_sort_Permutation. unfold terminated_hostnames.
    rewrite list_elem_of_bind. setoid_rewrite list_elem_of_In. setoid_rewrite filter_In. unfold terminates.
    split; intros (s & H); exists s; destruct (Service.tls_mode s); naive_solver.
Qed.

(** Without a directory on the command line, the material commands use the directory that
    the accepted configuration reads: the certificate directory of a Server without ACME and
    the identity directory of a Client, from the file or by default. *)
Theorem material_commands_agree (doc : ConfigDocument E) path ssection sraw unknown ctl s csection craw cctl runtime
    defaults c :
  server_section doc = Some (ssection, Ok sraw) → collect_server_unknown_fields ssection = [] →
  raw_server_acme sraw = None →
  validate_prepared_server_config is_file is_dir canonicalize tls_material_error read_server_identity
    (prepare_raw_server_config env config_dir level sraw unknown ctl) = Some (Ok s) →
  client_section doc = Some (csection, Ok craw) →
  identity_directory_default defaults = default_client_identity_material_dir env →
  validate_prepared_client_config is_file is_dir
    (prepare_client_section env config_dir csection craw level cctl runtime defaults) = Some (Ok c) →
  (∃ d, certificate s = ManualCert d ∧
        resolve_material_directory (Some path) None (λ _, project_server_cert_material_dir config_dir doc)
          (default_server_cert_material_dir env) = Ok d)
  ∧ resolve_material_directory (Some path) None (λ _, project_client_identity_material_dir config_dir doc)
      (default_client_identity_material_dir env) = Ok (identity_directory c).
Proof.
  intros Hs Hsu Hacme Hv Hc Hdef Hcv. split.
  - apply server_accepted in Hv as (_ & _ & _ & _ & Hd). destruct (Hd Hacme) as (d & -> & Hready).
    exists d. split; [done|]. unfold resolve_material_directory, project_server_cert_material_dir,
      load_optional_raw_server_section, load_optional_raw_section. rewrite Hs, Hsu.
    cbn [mbind option_bind result_bind map_err fmap option_fmap]. unfold resolve_path_with_default in Hready.
    destruct (raw_cert_dir sraw); simpl; [by injection Hready as ->|]. unfold resolve_default_path in Hready.
    destruct (default_server_cert_material_dir env); [by injection Hready as ->|done].
  - destruct (client_section_prepared env config_dir csection craw level cctl runtime defaults)
      as (raw1 & messages & Hp & Hu & Hi & _).
    rewrite Hp in Hcv. apply client_accepted in Hcv as (_ & Hunknown & _ & _ & _ & Hready).
    cbn [p_client_unknown p_client_identity_directory prepare_raw_client_config] in Hunknown, Hready.
    rewrite Hi in Hready. unfold resolve_material_directory, project_client_identity_material_dir,
      project_optional_client_path, load_optional_raw_client_section, load_optional_raw_section.
    rewrite Hc, (Hu Hunknown). cbn [mbind option_bind result_bind map_err fmap option_fmap].
    unfold resolve_path_with_default in Hready. rewrite Hdef in Hready.
    destruct (raw_client_identity_dir craw); simpl; [by injection Hready as ->|]. unfold resolve_default_path in Hready.
    destruct (default_client_identity_material_dir env); [by injection Hready as ->|done].
Qed.

End Agreement.

(** ** Examples *)

Module MaterialsToy.

Definition home : Env := λ name, if bool_decide (name = bs "HOME") then Some (bs "/home/u") else None.

Definition raw_client : RawClientConfig :=
  mkRawClient None None (Some (bs "srv.example.com")) None (Some (bs "system")) None None (Some (bs "pub")) None
    [mkRawService (Some [bs "B.example.com"; bs "a.example.com"]) (Some (bs "127.0.0.1:80")) (Some (bs "terminate")) None].
Definition doc : ConfigDocument unit :=
  mkDocument unit (Some (TTable [], Ok Toy.static_raw)) (Some (TTable [], Ok raw_client)) None (Ok LogInfo).
Definition runtime : ClientRuntimeArgs := mkClientArgs [] None None.
Definition defaults : ClientDefaults :=
  mkClientDefaults (default_client_identity_material_dir home) (default_client_public_cert_material_dir home).
Definition prepared : PreparedClientConfig :=
  prepare_client_section home (bs "/etc") (TTable []) raw_client LogInfo Toy.no_control runtime defaults.
Definition accepted_client : ClientConfig := Toy.accepted Toy.no_client (Toy.validate_client prepared).
Definition accepted_server : ServerConfig :=
  Toy.accepted Toy.no_server
    (Toy.validate (prepare_raw_server_config home (bs "/etc") LogInfo Toy.static_raw [] Toy.no_control)).

End MaterialsToy.

Lemma terminating_hostnames_exact_witness :
  ∃ hs, project_terminating_hostnames MaterialsToy.doc = Ok (Some hs) ∧ StronglySorted string_lt hs.
Proof.
  destruct (terminating_hostnames_exact Toy.yes Toy.yes MaterialsToy.home (bs "/etc") LogInfo MaterialsToy.doc
    (TTable []) MaterialsToy.raw_client Toy.no_control MaterialsToy.runtime MaterialsToy.defaults
    MaterialsToy.accepted_client) as (hs & Hp & Hs & _);
    [reflexivity|reflexivity|vm_compute; reflexivity|]. exists hs. split; [exact Hp|exact Hs].
Defined.

Lemma material_commands_agree_witness :
  resolve_material_directory (Some (bs "/etc/config.toml")) None
    (λ _, project_client_identity_material_dir (bs "/etc") MaterialsToy.doc)
    (default_client_identity_material_dir MaterialsToy.home) = Ok (identity_directory MaterialsToy.accepted_client).
Proof.
  refine (proj2 (material_commands_agree Toy.yes Toy.yes Some Toy.no_error Toy.read_identity MaterialsToy.home
    (bs "/etc") LogInfo MaterialsToy.doc (bs "/etc/config.toml") (TTable []) Toy.static_raw [] Toy.no_control
    MaterialsToy.accepted_server (TTable []) MaterialsToy.raw_client Toy.no_control MaterialsToy.runtime
    MaterialsToy.defaults MaterialsToy.accepted_client _ _ _ _ _ _ _)); vm_compute; reflexivity.
Defined.
