(* ===== verification/Disk.v ===== *)
(** * Disk: files and directories that survive a crash only as far as they were synced

    What [src/server_certificate/store.rs] uses of a local file system: files written under
    a new name, synced, renamed over their destination and removed, in two directories whose
    entries are synced on their own.

    A file is an inode with its bytes and whether they were synced.  A directory is its
    entries on disk and the changes made since it was last synced.  A crash keeps any
    sublist of those changes, in their order, and the bytes of synced files; the bytes of
    other files are lost.  Every operation can fail before or after its effect, a write can
    be torn, and the process can die before any of them: the [Fault]s of a run decide.

    [wp] is the specification of a program under every sequence of faults, with or without
    those of reads: a condition for its result and one for the disk that a failure or a
    death leaves behind. *)

From Stdlib Require Import Ascii ZArith Lia.
From stdpp Require Import base strings numbers gmap list.
From S2P Require Import Prelude.

Open Scope Z_scope.

(** ** Directories *)

Inductive DirOp :=
| Bind (name : bytes) (inode : nat)
| Drop (name : bytes)
| Move (from to : bytes) (inode : nat).

Definition apply_op (entries : gmap bytes nat) (op : DirOp) : gmap bytes nat :=
  match op with
  | Bind name i => <[name := i]> entries
  | Drop name => delete name entries
  | Move from to i => <[to := i]> (delete from entries)
  end.

Record Directory := mkDirectory { on_disk : gmap bytes nat; changes : list DirOp }.

Definition replay (entries : gmap bytes nat) (ops : list DirOp) : gmap bytes nat := foldl apply_op entries ops.
(** The entries that the running system sees. *)
Definition entries (d : Directory) : gmap bytes nat := replay (on_disk d) (changes d).
Definition record_change (op : DirOp) (d : Directory) : Directory := mkDirectory (on_disk d) (changes d ++ [op]).
Definition synced_directory (d : Directory) : Directory := mkDirectory (entries d) [].

(** What an operation makes of a name: nothing, or a new inode or none. *)
Definition op_at (op : DirOp) (name : bytes) : option (option nat) :=
  match op with
  | Bind n i => if bool_decide (n = name) then Some (Some i) else None
  | Drop n => if bool_decide (n = name) then Some None else None
  | Move from to i =>
      if bool_decide (to = name) then Some (Some i) else if bool_decide (from = name) then Some None else None
  end.

(** ** The disk *)

Inductive Place := Committed | Generations.

#[export] Instance place_eq_dec : EqDecision Place.
Proof. solve_decision. Defined.

Record Disk := mkDisk {
  inodes : gmap nat (bytes * bool);
  next_inode : nat;
  committed : Directory;
  generations : Directory
}.

Definition directory (d : Disk) (p : Place) : Directory :=
  match p with Committed => committed d | Generations => generations d end.
Definition set_directory (p : Place) (dir : Directory) (d : Disk) : Disk :=
  match p with
  | Committed => mkDisk (inodes d) (next_inode d) dir (generations d)
  | Generations => mkDisk (inodes d) (next_inode d) (committed d) dir
  end.
Definition set_inodes (m : gmap nat (bytes * bool)) (n : nat) (d : Disk) : Disk :=
  mkDisk m n (committed d) (generations d).

Definition empty_disk : Disk := mkDisk ∅ 0 (mkDirectory ∅ []) (mkDirectory ∅ []).

(** The inode and the contents of a name. *)
Definition look (d : Disk) (p : Place) (name : bytes) : option nat := entries (directory d p) !! name.
Definition contents (d : Disk) (p : Place) (name : bytes) : option bytes :=
  i ← look d p name; fst <$> inodes d !! i.

(** A power failure. *)
Definition crashed_directory (d d' : Directory) : Prop :=
  ∃ ops, ops `sublist_of` changes d ∧ on_disk d' = replay (on_disk d) ops ∧ changes d' = [].
Definition crash (d d' : Disk) : Prop :=
  (∀ p, crashed_directory (directory d p) (directory d' p))
  ∧ (∀ i b, inodes d !! i = Some (b, true) → inodes d' !! i = Some (b, true))
  ∧ (∀ i, is_Some (inodes d' !! i) → (i < next_inode d')%nat).

(** ** Programs *)

Inductive IoError := NotFound | OtherError.

Inductive Fault := Works | FailsBefore | FailsAfter | Torn (content : bytes) | Dies.

(** The disk and the faults to come, of the operations that change it and of the ones that
    read it. *)
Record World := mkWorld { disk : Disk; faults : list Fault; read_faults : list bool }.

Inductive outcome (A : Type) := Done (a : A) | Fails (e : IoError) | Died.
Arguments Done {A}.
Arguments Fails {A}.
Arguments Died {A}.

Definition io (A : Type) : Type := World → outcome A * World.

#[export] Instance io_ret : MRet io := λ A a w, (Done a, w).
#[export] Instance io_bind : MBind io := λ A B f m w,
  match m w with
  | (Done a, w') => f a w'
  | (Fails e, w') => (Fails e, w')
  | (Died, w') => (Died, w')
  end.

Definition io_fail {A} (e : IoError) : io A := λ w, (Fails e, w).
Definition lift {A} (r : result IoError A) : io A :=
  match r with Ok a => mret a | Err e => io_fail e end.

(** [Result::ok] and the like: the caller goes on after an error. *)
Definition attempt {A} (m : io A) : io (result IoError A) := λ w,
  match m w with
  | (Done a, w') => (Done (Ok a), w')
  | (Fails e, w') => (Done (Err e), w')
  | (Died, w') => (Died, w')
  end.

Fixpoint for_each {A} (f : A → io unit) (l : list A) : io unit :=
  match l with [] => mret tt | a :: l' => _ ← f a; for_each f l' end.

(** An operation that changes the disk. *)
Definition operation {A} (effect : Disk → result IoError (A * Disk)) : io A := λ w,
  let d := disk w in
  let rest := match faults w with [] => [] | _ :: fs => fs end in
  match default Works (head (faults w)) with
  | Works => match effect d with
             | Ok (a, d') => (Done a, mkWorld d' rest (read_faults w))
             | Err e => (Fails e, mkWorld d rest (read_faults w))
             end
  | FailsAfter => match effect d with
                  | Ok (_, d') => (Fails OtherError, mkWorld d' rest (read_faults w))
                  | Err e => (Fails e, mkWorld d rest (read_faults w))
                  end
  | FailsBefore | Torn _ => (Fails OtherError, mkWorld d rest (read_faults w))
  | Dies => (Died, mkWorld d rest (read_faults w))
  end.

(** An operation that reads it. *)
Definition reading {A} (f : Disk → result IoError A) : io A := λ w,
  match read_faults w with
  | true :: rest => (Fails OtherError, mkWorld (disk w) (faults w) rest)
  | rest => match f (disk w) with
            | Ok a => (Done a, mkWorld (disk w) (faults w) (tail rest))
            | Err e => (Fails e, mkWorld (disk w) (faults w) (tail rest))
            end
  end.

(** [File::open], [Path::try_exists] and [fs::read_dir]. *)
Definition open_file (p : Place) (name : bytes) : io nat := reading (λ d, ok_or NotFound (look d p name)).
Definition try_exists (p : Place) (name : bytes) : io bool :=
  reading (λ d, Ok (bool_decide (is_Some (look d p name)))).
Definition read_dir (p : Place) : io (list bytes) := reading (λ d, Ok (map_to_list (entries (directory d p))).*1).

(** [read_private]. *)
Definition read_file (p : Place) (name : bytes) (limit : Z) : io bytes :=
  reading (λ d, b ← ok_or NotFound (contents d p name);
                _ ← reject_if (limit <? len b) OtherError; Ok b).

(** [fs::remove_file]. *)
Definition remove_file (p : Place) (name : bytes) : io unit :=
  operation (λ d, _ ← ok_or NotFound (look d p name);
                  Ok (tt, set_directory p (record_change (Drop name) (directory d p)) d)).

(** [OpenOptions::create_new]. *)
Definition create_new (p : Place) (name : bytes) : io nat :=
  operation (λ d, _ ← reject_if (bool_decide (is_Some (look d p name))) OtherError;
                  Ok (next_inode d,
                      set_directory p (record_change (Bind name (next_inode d)) (directory d p))
                        (set_inodes (<[next_inode d := ([], false)]> (inodes d)) (S (next_inode d)) d))).

(** [write_all] of a file just created; a torn write leaves some bytes. *)
Definition write_all (i : nat) (b : bytes) : io unit := λ w,
  let write c d := set_inodes (<[i := (c, false)]> (inodes d)) (next_inode d) d in
  match head (faults w) with
  | Some (Torn c) => (Fails OtherError, mkWorld (write c (disk w)) (tail (faults w)) (read_faults w))
  | _ => operation (λ d, Ok (tt, write b d)) w
  end.

(** [File::sync_all] on an open file; every open file has an inode. *)
Definition sync_inode (i : nat) : io unit :=
  operation (λ d, Ok (tt, match inodes d !! i with
                          | Some (b, _) => set_inodes (<[i := (b, true)]> (inodes d)) (next_inode d) d
                          | None => d
                          end)).

Definition rename (p : Place) (from to : bytes) : io unit :=
  operation (λ d, i ← ok_or NotFound (look d p from);
                  Ok (tt, set_directory p (record_change (Move from to i) (directory d p)) d)).

Definition sync_directory (p : Place) : io unit :=
  operation (λ d, Ok (tt, set_directory p (synced_directory (directory d p)) d)).

(** [write_private]. *)
Definition write_private (p : Place) (name b : bytes) : io nat :=
  exists_already ← try_exists p name;
  _ ← (if (exists_already : bool) then remove_file p name else mret tt);
  i ← create_new p name;
  _ ← write_all i b;
  mret i.

(** The steps that replace a file: a synced candidate is renamed over it. *)
Definition replace_file (p : Place) (candidate destination b : bytes) : io unit :=
  i ← write_private p candidate b;
  _ ← sync_inode i;
  _ ← rename p candidate destination;
  sync_directory p.

(** ** Specifications *)

(** A program that only reads, and its result when no read fails. *)
Definition reads {A} (m : io A) (d : Disk) (r : result IoError A) : Prop :=
  ∀ fs, m (mkWorld d fs []) = (match r with Ok a => Done a | Err e => Fails e end, mkWorld d fs []).

(** A program that leaves the disk alone, whatever its result. *)
Definition quiet {A} (m : io A) : Prop := ∀ w, disk (m w).2 = disk w ∧ (read_faults w = [] → read_faults (m w).2 = []).

Lemma quiet_ret {A} (a : A) : quiet (mret a).
Proof. done. Qed.
Lemma quiet_fail {A} e : quiet (io_fail (A := A) e).
Proof. done. Qed.
Lemma quiet_reading {A} (f : Disk → result IoError A) : quiet (reading f).
Proof. intros [d fs rs]. unfold reading. destruct rs as [|[] rs]; cbn; try done; by destruct (f d). Qed.
Lemma quiet_attempt {A} (m : io A) : quiet m → quiet (attempt m).
Proof. intros Hm w. specialize (Hm w). unfold attempt. by destruct (m w) as [[] ?]. Qed.
Lemma quiet_bind {A B} (m : io A) (f : A → io B) : quiet m → (∀ a, quiet (f a)) → quiet (m ≫= f).
Proof.
  intros Hm Hf w. specialize (Hm w). unfold mbind, io_bind. destruct (m w) as [[a|e|] w']; [|done..].
  destruct (Hf a w') as [Hd Hr], Hm as [Hd' Hr']. cbn in *. split; [congruence|auto].
Qed.
Create HintDb quiet.
#[export] Hint Resolve quiet_ret quiet_fail quiet_reading quiet_attempt quiet_bind : quiet.

Section Wp.
(** Whether reads can fail as well. *)
Context (misreads : bool).

(** Under all faults: [Q] of the result, [S] of the disk that a failure or a death leaves. *)
Definition wp {A} (m : io A) (Q : A → Disk → Prop) (S : Disk → Prop) (d : Disk) : Prop :=
  ∀ fs rs, (misreads = false → rs = []) →
    let '(o, w) := m (mkWorld d fs rs) in
    (misreads = false → read_faults w = []) ∧ match o with Done a => Q a (disk w) | _ => S (disk w) end.

Lemma wp_ret {A} (a : A) Q S d : Q a d → wp (mret a) Q S d.
Proof. intros HQ fs rs. by split. Qed.

Lemma wp_bind {A B} (m : io A) (f : A → io B) Q S d :
  wp m (λ a d', wp (f a) Q S d') S d → wp (m ≫= f) Q S d.
Proof.
  intros Hm fs rs Hrs. specialize (Hm fs rs Hrs). unfold mbind, io_bind.
  destruct (m (mkWorld d fs rs)) as [[a|e|] [d' fs' rf]]; destruct Hm as [Hr HQ]; simpl in *; [|done..].
  by apply HQ.
Qed.

Lemma wp_mono {A} (m : io A) Q Q' (S S' : Disk → Prop) d :
  wp m Q S d → (∀ a d', Q a d' → Q' a d') → (∀ d', S d' → S' d') → wp m Q' S' d.
Proof.
  intros Hm HQ HS fs rs Hrs. specialize (Hm fs rs Hrs).
  destruct (m (mkWorld d fs rs)) as [[a|e|] w]; destruct Hm; auto.
Qed.

Lemma wp_operation {A} effect Q (S : Disk → Prop) d :
  S d → (∀ a d', effect d = Ok (a, d') → S d' ∧ Q a d') → wp (operation (A := A) effect) Q S d.
Proof.
  intros HS He fs rs Hrs. unfold operation. simpl.
  destruct (default Works (head fs)); simpl; try done;
    destruct (effect d) as [[a d']|e]; simpl; try done; destruct (He a d' eq_refl); done.
Qed.

Lemma wp_reading {A} (f : Disk → result IoError A) Q (S : Disk → Prop) d :
  match f d with Ok a => Q a d | Err _ => S d end → (misreads = true → S d) → wp (reading f) Q S d.
Proof.
  intros HQ HS fs rs Hrs. unfold reading. cbn. destruct rs as [|[] rs], misreads; try by specialize (Hrs eq_refl).
  all: try (by split; [|apply HS]); by destruct (f d).
Qed.
Lemma wp_attempt {A} (m : io A) Q (S : Disk → Prop) d :
  wp m (λ a, Q (Ok a)) (λ d', S d' ∧ ∀ e, Q (Err e) d') d → wp (attempt m) Q S d.
Proof.
  intros Hm fs rs Hrs. specialize (Hm fs rs Hrs). unfold attempt.
  by destruct (m (mkWorld d fs rs)) as [[a|e|] w]; destruct Hm as [? HQ]; (split; [done|]); [|apply HQ..].
Qed.
Lemma wp_fail {A} e Q (S : Disk → Prop) d : S d → wp (io_fail (A := A) e) Q S d.
Proof. intros HS fs rs Hrs. by split. Qed.

Lemma wp_quiet {A} (m : io A) Q (S : Disk → Prop) d : quiet m → (∀ a, Q a d) → S d → wp m Q S d.
Proof.
  intros Hm HQ HS fs rs Hrs. destruct (Hm (mkWorld d fs rs)) as [Hd Hr].
  destruct (m (mkWorld d fs rs)) as [o w]. cbn in *. split; [auto|]. rewrite Hd. by destruct o.
Qed.

(** A program that leaves the disk alone, and its result; only a failed read makes it fail. *)
Definition peeks {A} (m : io A) (d : Disk) (P : A → Prop) : Prop :=
  wp m (λ a d', d' = d ∧ P a) (λ d', d' = d ∧ misreads = true) d.

Lemma wp_peeks {A} (m : io A) P Q (S : Disk → Prop) d :
  peeks m d P → (∀ a, P a → Q a d) → (misreads = true → S d) → wp m Q S d.
Proof. intros Hm HQ HS. eapply wp_mono; [exact Hm| |]; [intros a d' [-> ?]|intros d' [-> ?]]; auto. Qed.
Lemma peeks_ret {A} (a : A) (P : A → Prop) d : P a → peeks (mret a) d P.
Proof. intros HP. by apply wp_ret. Qed.
Lemma peeks_fail {A} e (P : A → Prop) d : misreads = true → peeks (io_fail e) d P.
Proof. intros Hm. by apply wp_fail. Qed.
Lemma peeks_bind {A B} (m : io A) (f : A → io B) d (P : A → Prop) (Q : B → Prop) :
  peeks m d P → (∀ a, P a → peeks (f a) d Q) → peeks (m ≫= f) d Q.
Proof. intros Hm Hf. apply wp_bind. by eapply wp_peeks. Qed.
Lemma peeks_reading {A} (f : Disk → result IoError A) d a : f d = Ok a → peeks (reading f) d (eq a).
Proof. intros Hf. apply wp_reading; [by rewrite Hf|done]. Qed.
Lemma peeks_attempt {A} (m : io A) d (P : A → Prop) :
  peeks m d P → peeks (attempt m) d (λ r, match r with Ok a => P a | Err _ => misreads = true end).
Proof. intros Hm. apply wp_attempt. eapply wp_mono; [exact Hm|done|]. intros d' [-> ?]. done. Qed.
Lemma peeks_attempt_reading {A} (f : Disk → result IoError A) d :
  peeks (attempt (reading f)) d (λ r, r = f d ∨ misreads = true ∧ r = Err OtherError).
Proof.
  intros fs rs Hrs. unfold attempt, reading. cbn. destruct rs as [|[] rs], misreads; try by specialize (Hrs eq_refl).
  all: first [by split_and!; [| |right]|by destruct (f d); split_and!; auto].
Qed.
Lemma peeks_reads {A} (m : io A) d a : misreads = false → reads m d (Ok a) → peeks m d (eq a).
Proof. intros Hm Hr fs rs Hrs. by rewrite (Hrs Hm), Hr. Qed.

Lemma reads_reading {A} (f : Disk → result IoError A) d : reads (reading f) d (f d).
Proof. intros fs. unfold reading; simpl. by destruct (f d). Qed.
Lemma reads_ret {A} (a : A) d : reads (mret a) d (Ok a).
Proof. done. Qed.
Lemma reads_fail {A} e d : reads (io_fail (A := A) e) d (Err e).
Proof. done. Qed.
Lemma reads_bind {A B} (m : io A) (f : A → io B) d r r' :
  reads m d r → match r with Ok a => reads (f a) d r' | Err e => r' = Err e end → reads (m ≫= f) d r'.
Proof.
  intros Hm Hf fs. unfold mbind, io_bind. rewrite Hm. destruct r as [a|e]; [apply Hf|by subst r'].
Qed.
Lemma reads_attempt {A} (m : io A) d r : reads m d r → reads (attempt m) d (Ok r).
Proof. intros Hm fs. unfold attempt. rewrite Hm. by destruct r. Qed.

Lemma reads_for_each {A} (f : A → io unit) (l : list A) d :
  (∀ a, a ∈ l → reads (f a) d (Ok tt)) → reads (for_each f l) d (Ok tt).
Proof.
  induction l as [|a l IH]; intros Hf; simpl; [apply reads_ret|].
  eapply reads_bind; [apply Hf; by left|]. apply IH. intros b Hb. apply Hf. by right.
Qed.
Lemma reads_file p name d b limit :
  contents d p name = Some b → len b ≤ limit → reads (read_file p name limit) d (Ok b).
Proof.
  intros Hc Hl. unfold read_file. eassert (Ok b = _) as ->; [|apply reads_reading].
  simpl. rewrite Hc. simpl. unfold reject_if. destruct (Z.ltb_spec limit (len b)); [lia|done].
Qed.

Lemma wp_for_each {A} (f : A → io unit) (l : list A) (I S : Disk → Prop) d :
  I d → (∀ a d', a ∈ l → I d' → wp (f a) (λ _, I) S d') → wp (for_each f l) (λ _, I) S d.
Proof.
  revert d. induction l as [|a l IH]; intros d HI Hf; simpl; [by apply wp_ret|].
  apply wp_bind. eapply wp_mono; [apply (Hf a d); [by left|done]| |done].
  intros ? d' HI'. apply IH; [done|]. intros b d'' Hb. apply Hf. by right.
Qed.

(** ** What a name can hold after a crash *)

(** The contents of an entry are durable and satisfy [Q]. *)
Definition good (m : gmap nat (bytes * bool)) (Q : option bytes → Prop) (o : option nat) : Prop :=
  match o with None => Q None | Some i => ∃ b, m !! i = Some (b, true) ∧ Q (Some b) end.

(** Whatever changes reach the disk, the name holds durable contents that satisfy [Q]. *)
Definition bound (d : Disk) (p : Place) (name : bytes) (Q : option bytes → Prop) : Prop :=
  good (inodes d) Q (on_disk (directory d p) !! name)
  ∧ ∀ op o, op ∈ changes (directory d p) → op_at op name = Some o → good (inodes d) Q o.

Definition wf_disk (d : Disk) : Prop := ∀ i, is_Some (inodes d !! i) → (i < next_inode d)%nat.

Lemma good_mono m m' (Q Q' : option bytes → Prop) o :
  (∀ i b, m !! i = Some (b, true) → m' !! i = Some (b, true)) → (∀ b, Q b → Q' b) → good m Q o → good m' Q' o.
Proof. intros Hm HQ. destruct o; simpl; [|auto]. intros (b & Hb & H). eauto. Qed.

Lemma apply_op_lookup e op name :
  apply_op e op !! name = match op_at op name with Some o => o | None => e !! name end.
Proof.
  destruct op as [n i|n|from to i]; simpl; repeat case_bool_decide; subst;
    rewrite ?lookup_insert_eq, ?lookup_insert_ne, ?lookup_delete_eq, ?lookup_delete_ne by done; done.
Qed.

Lemma replay_good m Q e ops name :
  good m Q (e !! name) → (∀ op o, op ∈ ops → op_at op name = Some o → good m Q o) →
  good m Q (replay e ops !! name).
Proof.
  unfold replay. revert e. induction ops as [|op ops IH]; intros e He Hops; simpl; [done|]. apply IH.
  - rewrite apply_op_lookup. destruct (op_at op name) eqn:E; [|done]. eapply Hops; [by left|done].
  - intros op' o Hin. apply Hops. by right.
Qed.

Lemma bound_look d p name Q : bound d p name Q → good (inodes d) Q (look d p name).
Proof. intros [Hd Hc]. by apply replay_good. Qed.

Lemma bound_contents d p name Q : bound d p name Q → Q (contents d p name).
Proof.
  intros H%bound_look. unfold contents. destruct (look d p name) as [i|]; [|done].
  destruct H as (b & Hb & HQ). cbn. rewrite Hb. done.
Qed.

Lemma bound_mono d p name (Q Q' : option bytes → Prop) :
  (∀ b, Q b → Q' b) → bound d p name Q → bound d p name Q'.
Proof. intros HQ [Hd Hc]. split; [by eapply good_mono|]. intros op o Hin Ho. eapply good_mono; [done..|eauto]. Qed.

Lemma bound_crash d d' p name Q : bound d p name Q → crash d d' → bound d' p name Q.
Proof.
  intros [Hd Hc] (Hdir & Hi & _). destruct (Hdir p) as (ops & Hops & Hon & Hch). split.
  - rewrite Hon. apply (good_mono (inodes d) _ Q); [done|done|]. apply replay_good; [done|]. intros op o Hin.
    apply Hc. by eapply elem_of_submseteq; [|apply sublist_submseteq].
  - rewrite Hch. by intros op o ?%elem_of_nil.
Qed.

(** ** Frames *)

(** A set of names with what they hold. *)
Definition frame : Type := Place → bytes → (option bytes → Prop) → Prop.
Definition keeps (B : frame) (d : Disk) : Prop := wf_disk d ∧ ∀ p name Q, B p name Q → bound d p name Q.

Lemma keeps_crash B d d' : keeps B d → crash d d' → keeps B d'.
Proof.
  intros [_ HB] Hc. pose proof Hc as (_ & _ & Hwf). split; [done|].
  intros p name Q Hb. eapply bound_crash; eauto.
Qed.

(** A frame with one more name. *)
Definition also (B : frame) (p : Place) (name : bytes) (Q : option bytes → Prop) : frame := λ q n R,
  B q n R ∨ (q = p ∧ n = name ∧ R = Q).
Lemma keeps_also B p name Q d : keeps B d → bound d p name Q → keeps (also B p name Q) d.
Proof. intros [Hwf HB] Hb. split; [done|]. intros q n R [?|(-> & -> & ->)]; [by apply HB|done]. Qed.
Lemma keeps_subframe (B B' : frame) d : (∀ p n Q, B p n Q → B' p n Q) → keeps B' d → keeps B d.
Proof. intros Hs [Hwf HB]. split; [done|]. intros p n Q HQ. by apply HB, Hs. Qed.

(** The synced inodes only grow. *)
Lemma keeps_inodes B d m n :
  (∀ i b, inodes d !! i = Some (b, true) → m !! i = Some (b, true)) → (∀ i, is_Some (m !! i) → (i < n)%nat) →
  keeps B d → keeps B (set_inodes m n d).
Proof.
  intros Hm Hn [_ HB]. split; [done|]. intros p name Q Hb. destruct (HB p name Q Hb) as [Hd Hc].
  assert (directory (set_inodes m n d) p = directory d p) as Hdir by by destruct p.
  split; rewrite Hdir; [by eapply good_mono|]. intros op o Hin Ho. eapply good_mono; [done|done|eauto].
Qed.

Lemma directory_set p q dir d :
  directory (set_directory p dir d) q = if bool_decide (p = q) then dir else directory d q.
Proof. by destruct p, q. Qed.
Lemma inodes_set p dir d : inodes (set_directory p dir d) = inodes d.
Proof. by destruct p. Qed.
Lemma next_set p dir d : next_inode (set_directory p dir d) = next_inode d.
Proof. by destruct p. Qed.

(** A change that leaves durable contents behind under the names of the frame. *)
Lemma keeps_change B p op d :
  (∀ name Q o, B p name Q → op_at op name = Some o → good (inodes d) Q o) → keeps B d →
  keeps B (set_directory p (record_change op (directory d p)) d).
Proof.
  intros Hop [Hwf HB]. split; [intros i; rewrite inodes_set, next_set; apply Hwf|].
  intros q name Q Hb. destruct (HB q name Q Hb) as [Hd Hc].
  unfold bound. rewrite inodes_set, directory_set. case_bool_decide; [subst q|done]. split; [done|].
  simpl. intros op' o Hin. rewrite elem_of_app, list_elem_of_singleton in Hin.
  destruct Hin as [Hin| ->]; [by apply Hc|by eapply Hop].
Qed.

Lemma bound_synced d p name Q :
  bound d p name Q →
  bound (set_directory p (synced_directory (directory d p)) d) p name (eq (contents d p name)).
Proof.
  intros H%bound_look. unfold bound. rewrite inodes_set, directory_set, bool_decide_true by done.
  split; simpl; [|by intros op o ?%elem_of_nil]. change (entries (directory d p) !! name) with (look d p name).
  unfold contents. destruct (look d p name) as [i|]; [|done]. destruct H as (b & Hb & _). exists b.
  split; [done|]. cbn. by rewrite Hb.
Qed.

Lemma bound_visible d p name i b :
  look d p name = Some i → inodes d !! i = Some (b, true) →
  bound (set_directory p (synced_directory (directory d p)) d) p name (eq (Some b)).
Proof.
  intros Hl Hi. unfold bound. rewrite inodes_set, directory_set, bool_decide_true by done.
  split; simpl; [|by intros op o ?%elem_of_nil]. change (entries (directory d p) !! name) with (look d p name).
  rewrite Hl. by exists b.
Qed.

Lemma keeps_synced B d p : keeps B d → keeps B (set_directory p (synced_directory (directory d p)) d).
Proof.
  intros [Hwf HB]. split; [intros i; rewrite inodes_set, next_set; apply Hwf|].
  intros q name Q Hb. specialize (HB q name Q Hb). destruct (decide (p = q)) as [<-|Hne].
  - eapply bound_mono; [|by eapply bound_synced]. intros b <-. by apply bound_contents.
  - unfold bound. rewrite inodes_set, directory_set, bool_decide_false by done. done.
Qed.

(** ** The operations *)

Definition same_contents (d d' : Disk) : Prop := ∀ p name, contents d' p name = contents d p name.

Lemma wp_sync_directory B p d (S : Disk → Prop) :
  keeps B d → (∀ d', keeps B d' → S d') →
  wp (sync_directory p)
     (λ _ d', keeps B d' ∧ same_contents d d'
              ∧ ∀ name Q, B p name Q → bound d' p name (eq (contents d p name))) S d.
Proof.
  intros HB HS. apply wp_operation; [by apply HS|]. intros ? d' [= _ <-]. pose proof (keeps_synced B d p HB) as HB'.
  split; [by apply HS|]. split_and!; [done| |].
  - intros q name. unfold contents, look. rewrite inodes_set, directory_set. case_bool_decide; [by subst|done].
  - intros name Q Hb. eapply bound_synced. by apply HB.
Qed.

Lemma wp_remove_file B p name d (S : Disk → Prop) :
  keeps B d → (∀ Q, ¬ B p name Q) → (∀ d', keeps B d' → S d') →
  wp (remove_file p name) (λ _, keeps B) S d.
Proof.
  intros HB Hn HS. apply wp_operation; [by apply HS|]. intros u d' He. cbn in He.
  destruct (look d p name) as [j|]; [|done]. injection He as _ <-.
  assert (keeps B (set_directory p (record_change (Drop name) (directory d p)) d)) as HB'; [|by split; [apply HS|]].
  apply keeps_change; [|done]. intros n Q o Hb. simpl. case_bool_decide; [subst; by destruct (Hn Q)|done].
Qed.

(** The state between the creation of a candidate and its rename. *)
Definition candidate_at (p : Place) (name : bytes) (i : nat) (content : option (bytes * bool)) (d : Disk) : Prop :=
  look d p name = Some i ∧ inodes d !! i = content.

Lemma wp_create_new B p name d (S : Disk → Prop) :
  keeps B d → (∀ Q, ¬ B p name Q) → (∀ d', keeps B d' → S d') →
  wp (create_new p name) (λ i d', keeps B d' ∧ candidate_at p name i (Some ([], false)) d') S d.
Proof.
  intros HB Hn HS. apply wp_operation; [by apply HS|]. intros i d' He. cbn in He.
  destruct (reject_if _ _); [|done]. injection He as <- <-.
  set (d1 := set_inodes _ _ d). assert (keeps B d1) as HB1.
  { destruct HB as [Hwf HB]. apply keeps_inodes; [| |done].
    - intros j b Hj. rewrite lookup_insert_ne; [done|]. intros <-. apply (Nat.lt_irrefl (next_inode d)), Hwf. eauto.
    - intros j [Hj|Hj]%lookup_insert_is_Some; [lia|]. destruct Hj as [_ Hj]. apply Hwf in Hj. lia. }
  assert (directory d1 p = directory d p) as Hdir by by destruct p.
  assert (keeps B (set_directory p (record_change (Bind name (next_inode d)) (directory d p)) d1)) as HB2.
  { rewrite <- Hdir. apply keeps_change; [|done]. intros n Q o Hb. simpl.
    case_bool_decide; [subst; by destruct (Hn Q)|done]. }
  split; [by apply HS|]. split; [done|]. split.
  - unfold look. rewrite directory_set, bool_decide_true by done. unfold entries, replay. simpl.
    rewrite foldl_app. simpl. by rewrite lookup_insert_eq.
  - rewrite inodes_set. simpl. by rewrite lookup_insert_eq.
Qed.

(** Writing to a file that was not synced, and syncing it. *)
Lemma keeps_write B i b s c d :
  inodes d !! i = Some (c, false) → keeps B d → keeps B (set_inodes (<[i := (b, s)]> (inodes d)) (next_inode d) d).
Proof.
  intros Hi [Hwf HB]. apply keeps_inodes; [| |done].
  - intros j b' Hj. rewrite lookup_insert_ne; [done|]. intros <-. congruence.
  - intros j [<-|[_ Hj]]%lookup_insert_is_Some; apply Hwf; eauto.
Qed.

Lemma candidate_inodes p name i c c' n d :
  candidate_at p name i c d → candidate_at p name i (Some c') (set_inodes (<[i := c']> (inodes d)) n d).
Proof.
  intros [Hl _]. split; [|apply lookup_insert_eq]. unfold look in *. by destruct p.
Qed.

Lemma wp_write_all B p name i b c d (S : Disk → Prop) :
  keeps B d → candidate_at p name i (Some (c, false)) d → (∀ d', keeps B d' → S d') →
  wp (write_all i b) (λ _ d', keeps B d' ∧ candidate_at p name i (Some (b, false)) d') S d.
Proof.
  intros HB Hc HS. assert (∀ x, keeps B (set_inodes (<[i := (x, false)]> (inodes d)) (next_inode d) d)) as Hw.
  { intros x. eapply keeps_write; [apply Hc|done]. }
  assert (wp (operation (λ d, Ok (tt, set_inodes (<[i := (b, false)]> (inodes d)) (next_inode d) d)))
    (λ _ d', keeps B d' ∧ candidate_at p name i (Some (b, false)) d') S d) as Hop.
  { apply wp_operation; [by apply HS|]. intros u d' [= _ <-]. split; [apply HS, Hw|]. split; [apply Hw|].
    by eapply candidate_inodes. }
  intros fs rs Hrs. specialize (Hop fs rs Hrs). unfold write_all. simpl.
  destruct (head fs) as [[]|]; try apply Hop. simpl. split; [exact Hrs|]. apply HS, Hw.
Qed.

Lemma wp_sync_candidate B p name i b d (S : Disk → Prop) :
  keeps B d → candidate_at p name i (Some (b, false)) d → (∀ d', keeps B d' → S d') →
  wp (sync_inode i) (λ _ d', keeps B d' ∧ candidate_at p name i (Some (b, true)) d') S d.
Proof.
  intros HB Hc HS. apply wp_operation; [by apply HS|]. intros u d' [= _ <-]. pose proof Hc as [_ Hi]. rewrite Hi. assert (keeps B (set_inodes (<[i := (b, true)]> (inodes d)) (next_inode d) d)) as Hw
    by by eapply keeps_write.
  split; [by apply HS|]. split; [done|]. by eapply candidate_inodes.
Qed.

(** Syncing any file. *)
Lemma wp_sync_inode B i d (S : Disk → Prop) :
  keeps B d → (∀ d', keeps B d' → S d') → wp (sync_inode i) (λ _ d', keeps B d' ∧ same_contents d d') S d.
Proof.
  intros HB HS. apply wp_operation; [by apply HS|]. intros u d' [= _ <-].
  destruct (inodes d !! i) as [[b s]|] eqn:Hi; [|by split; [apply HS|]].
  assert (keeps B (set_inodes (<[i := (b, true)]> (inodes d)) (next_inode d) d)) as HB'.
  { apply keeps_inodes; [| |done].
    - intros j b' Hj. destruct (decide (i = j)) as [<-|]; [|by rewrite lookup_insert_ne].
      rewrite lookup_insert_eq. congruence.
    - intros j [<-|[_ Hj]]%lookup_insert_is_Some; apply HB; eauto. }
  split; [by apply HS|]. split; [done|]. intros p name. unfold contents.
  assert (look (set_inodes (<[i := (b, true)]> (inodes d)) (next_inode d) d) p name = look d p name) as ->
    by by destruct p.
  destruct (look d p name) as [j|]; [|done]. cbn. destruct (decide (i = j)) as [<-|].
  - by rewrite lookup_insert_eq, Hi.
  - by rewrite lookup_insert_ne.
Qed.

Lemma wp_rename B p from to i b d (S : Disk → Prop) :
  keeps B d → candidate_at p from i (Some (b, true)) d → (∀ Q, ¬ B p from Q) → (∀ Q, B p to Q → Q (Some b)) →
  from ≠ to → (∀ d', keeps B d' → S d') →
  wp (rename p from to) (λ _ d', keeps B d' ∧ look d' p to = Some i ∧ inodes d' !! i = Some (b, true)) S d.
Proof.
  intros HB [Hl Hi] Hfrom Hto Hne HS. apply wp_operation; [by apply HS|]. intros u d' He. cbn in He.
  rewrite Hl in He. injection He as _ <-.
  assert (keeps B (set_directory p (record_change (Move from to i) (directory d p)) d)) as HB'.
  { apply keeps_change; [|done]. intros n Q o Hb. simpl. case_bool_decide; subst.
    - intros [= <-]. exists b. split; [done|]. by apply Hto.
    - case_bool_decide; [subst; by destruct (Hfrom Q)|done]. }
  split; [by apply HS|]. split; [done|]. split; [|by rewrite inodes_set].
  unfold look. rewrite directory_set, bool_decide_true by done. unfold entries, replay. simpl.
  rewrite foldl_app. simpl. by rewrite lookup_insert_eq.
Qed.

Lemma wp_write_private B p name b d (S : Disk → Prop) :
  keeps B d → (∀ Q, ¬ B p name Q) → (∀ d', keeps B d' → S d') →
  wp (write_private p name b) (λ i d', keeps B d' ∧ candidate_at p name i (Some (b, false)) d') S d.
Proof.
  intros HB Hn HS. unfold write_private. apply wp_bind. apply wp_reading; [|intros _; by apply HS].
  apply wp_bind. apply (wp_mono _ (λ _, keeps B) _ S S); [| |done].
  { case_bool_decide; [by apply wp_remove_file|by apply wp_ret]. }
  intros _ d1 HB1. apply wp_bind. eapply wp_mono; [by apply wp_create_new| |done].
  intros i d2 [HB2 Hc2]. apply wp_bind. eapply wp_mono; [by eapply wp_write_all| |done].
  intros _ d3 [HB3 Hc3]. by apply wp_ret.
Qed.

(** Replacing a file: the destination ends up durable with the new contents; on the way it
    holds the old or the new ones, and every other name of the frame is untouched. *)
Lemma wp_replace_file B p candidate destination b d (S : Disk → Prop) :
  keeps B d → (∀ Q, ¬ B p candidate Q) → (∀ Q, B p destination Q → Q (Some b)) → candidate ≠ destination →
  (∀ d', keeps B d' → S d') →
  wp (replace_file p candidate destination b)
     (λ _ d', keeps B d' ∧ bound d' p destination (eq (Some b))) S d.
Proof.
  intros HB Hc Hd Hne HS. unfold replace_file. apply wp_bind.
  eapply wp_mono; [by apply wp_write_private| |done]. intros i d1 [HB1 Hc1]. apply wp_bind.
  eapply wp_mono; [by eapply wp_sync_candidate| |done]. intros _ d2 [HB2 Hc2]. apply wp_bind.
  eapply wp_mono; [by eapply wp_rename| |done]. intros _ d3 (HB3 & Hl & Hi).
  apply wp_operation; [by apply HS|]. intros u d' [= _ <-]. pose proof (keeps_synced B d3 p HB3) as HB4.
  split; [by apply HS|]. split; [done|]. by apply bound_visible with i.
Qed.

End Wp.

(** ** Runs without faults *)

Definition succeeds {A} (m : io A) (d : Disk) : Prop :=
  ∃ a d', m (mkWorld d [] []) = (Done a, mkWorld d' [] []).

Lemma succeeds_bind {A B} (m : io A) (f : A → io B) Q S d :
  succeeds m d → wp false m Q S d → (∀ a d', Q a d' → succeeds (f a) d') → succeeds (m ≫= f) d.
Proof.
  intros (a & d' & Hm) Hwp Hf. specialize (Hwp [] [] (λ _, eq_refl)). rewrite Hm in Hwp. destruct Hwp as [_ HQ].
  unfold succeeds, mbind, io_bind. rewrite Hm. by apply Hf.
Qed.
Lemma succeeds_after {A B} (m : io A) (f : A → io B) d a d' :
  m (mkWorld d [] []) = (Done a, mkWorld d' [] []) → succeeds (f a) d' → succeeds (m ≫= f) d.
Proof. intros Hm Hf. unfold succeeds, mbind, io_bind. by rewrite Hm. Qed.
Lemma succeeds_then {A B} (m : io A) (f : A → io B) d :
  succeeds m d → (∀ a d', succeeds (f a) d') → succeeds (m ≫= f) d.
Proof. intros (a & d' & Hm) Hf. by eapply succeeds_after. Qed.
Lemma succeeds_reads {A} (m : io A) a d : reads m d (Ok a) → succeeds m d.
Proof. intros Hm. exists a, d. apply Hm. Qed.
Lemma succeeds_ret {A} (a : A) d : succeeds (mret a) d.
Proof. by exists a, d. Qed.
Lemma succeeds_operation {A} effect d (a : A) d' : effect d = Ok (a, d') → succeeds (operation effect) d.
Proof. intros He. exists a, d'. unfold operation. simpl. by rewrite He. Qed.
Lemma succeeds_sync_directory p d : succeeds (sync_directory p) d.
Proof. by eapply succeeds_operation. Qed.
Lemma succeeds_sync_inode i d : succeeds (sync_inode i) d.
Proof. by eapply succeeds_operation. Qed.

Lemma succeeds_for_each {A} (f : A → io unit) (l : list A) (I S : Disk → Prop) d :
  I d → (∀ a d', a ∈ l → I d' → succeeds (f a) d' ∧ wp false (f a) (λ _, I) S d') → succeeds (for_each f l) d.
Proof.
  revert d. induction l as [|a l IH]; intros d HI Hf; simpl; [apply succeeds_ret|].
  destruct (Hf a d) as [Hs Hw]; [by left|done|]. eapply succeeds_bind; [done..|].
  intros ? d' HI'. apply IH; [done|]. intros b d'' Hb. apply Hf. by right.
Qed.

Lemma look_change d p op name :
  look (set_directory p (record_change op (directory d p)) d) p name =
  match op_at op name with Some o => o | None => look d p name end.
Proof.
  unfold look. rewrite directory_set, bool_decide_true by done. unfold entries, replay. simpl.
  by rewrite foldl_app, <- apply_op_lookup.
Qed.

Definition removed (p : Place) (name : bytes) (d : Disk) : Disk :=
  set_directory p (record_change (Drop name) (directory d p)) d.
Lemma run_remove p name i d :
  look d p name = Some i → remove_file p name (mkWorld d [] []) = (Done tt, mkWorld (removed p name d) [] []).
Proof. intros Hl. unfold remove_file, operation. simpl. by rewrite Hl. Qed.
Lemma look_removed p name n d : look (removed p name d) p n = if bool_decide (name = n) then None else look d p n.
Proof. unfold removed. rewrite look_change. simpl. by case_bool_decide. Qed.

Lemma succeeds_remove_all p l d :
  NoDup l → (∀ n, n ∈ l → is_Some (look d p n)) → succeeds (for_each (remove_file p) l) d.
Proof.
  revert d. induction l as [|n l IH]; intros d Hnd Hl; simpl; [apply succeeds_ret|].
  apply NoDup_cons in Hnd as [Hn Hnd]. destruct (Hl n) as [i Hi]; [by left|].
  eapply succeeds_after; [by apply (run_remove p n i)|]. apply IH; [done|]. intros m Hm. rewrite look_removed.
  rewrite bool_decide_false by (intros ->; done). apply Hl. by right.
Qed.

Definition created (p : Place) (name : bytes) (d : Disk) : Disk :=
  set_directory p (record_change (Bind name (next_inode d)) (directory d p))
    (set_inodes (<[next_inode d := ([], false)]> (inodes d)) (S (next_inode d)) d).
Lemma run_create p name d :
  look d p name = None →
  create_new p name (mkWorld d [] []) = (Done (next_inode d), mkWorld (created p name d) [] []).
Proof. intros Hl. unfold create_new, operation. simpl. by rewrite Hl. Qed.
Lemma look_created p name d : look (created p name d) p name = Some (next_inode d).
Proof.
  unfold created. replace (directory d p) with (directory (set_inodes (<[next_inode d := ([], false)]> (inodes d))
    (S (next_inode d)) d) p) by by destruct p. rewrite look_change. simpl. by rewrite bool_decide_true.
Qed.
Lemma look_inodes m n d p name : look (set_inodes m n d) p name = look d p name.
Proof. by destruct p. Qed.

(** A file can always be replaced. *)
Lemma succeeds_replace_file p candidate destination b d : succeeds (replace_file p candidate destination b) d.
Proof.
  assert (∃ d1 i, look d1 p candidate = Some i ∧
    write_private p candidate b (mkWorld d [] []) = (Done i, mkWorld d1 [] [])) as (d1 & i & Hl & Hw).
  { assert (∃ d0, look d0 p candidate = None ∧
      (if bool_decide (is_Some (look d p candidate)) then remove_file p candidate else mret tt)
        (mkWorld d [] []) = (Done tt, mkWorld d0 [] [])) as (d0 & Hd0 & Hrun).
    { case_bool_decide as Hs.
      - destruct Hs as [i Hi]. exists (removed p candidate d). rewrite look_removed, bool_decide_true by done.
        split; [done|]. by apply (run_remove p candidate i).
      - exists d. split; [|done]. by apply eq_None_not_Some. }
    eexists (set_inodes _ _ (created p candidate d0)), (next_inode d0). rewrite look_inodes. split; [apply look_created|].
    unfold write_private, mbind, io_bind. cbn [try_exists reading read_faults disk faults tail].
    rewrite Hrun, run_create by done. done. }
  unfold replace_file. eapply succeeds_after; [exact Hw|]. eapply succeeds_after; [done|].
  eapply succeeds_after; [|apply succeeds_sync_directory]. unfold rename, operation. simpl.
  assert (∀ d2, d2 = d1 ∨ (∃ m n, d2 = set_inodes m n d1) → look d2 p candidate = Some i) as Hlook.
  { intros d2 [->|(m & n & ->)]; [done|]. by rewrite look_inodes. }
  rewrite Hlook; [done|]. destruct (inodes d1 !! i) as [[? ?]|]; eauto.
Qed.
