(* ===== verification/CertStore.v ===== *)
(** * CertStore: the Server's certificate store

    [src/server_certificate.rs] (the policy and the validation of a certificate snapshot)
    and [src/server_certificate/store.rs]: the generations of account and certificate, the
    manifest that names the current and the prior one, their publication, recovery and
    pruning, and the cache operations of the ACME client.

    The file system is that of [Disk], with its crashes and its faults of writes and of
    reads.  X.509, serde and
    SHA-256 are parameters; what the proofs use of them is that encodings decode, that the
    manifest of two generations fits in the 512 bytes read back, and that a digest has 64
    hexadecimal digits.  The store is driven by one task at a time, under the owner's lock
    and the writing mutex. *)

From Stdlib Require Import Ascii ZArith Lia.
From stdpp Require Import base strings numbers gmap list.
From S2P Require Import Prelude Disk.

Open Scope Z_scope.

(** ** Certificate snapshots *)

(** [CertificateValidation]; durations and times are in milliseconds. *)
Record CertificateValidation := mkPolicy { minimum_remaining : Z; safety_margin : Z }.

Definition CertificateValidation_new (minimum_remaining safety_margin : Z) : result IoError CertificateValidation :=
  _ ← reject_if ((safety_margin =? 0) || (minimum_remaining <=? safety_margin)) OtherError;
  Ok (mkPolicy minimum_remaining safety_margin).

Record CertificateSnapshot := mkSnapshot {
  pem : bytes;
  valid_from : Z;
  expires_at : Z;
  fingerprint : bytes
}.

Definition MAX_PEM_BYTES : Z := 128 * 1024.
Definition BEGIN_CERTIFICATE : bytes := bs "-----BEGIN CERTIFICATE-----".
Definition END_CERTIFICATE : bytes := bs "-----END CERTIFICATE-----".

(** [str::split_once] and [str::split]. *)
Fixpoint split_once (sep s : bytes) : option (bytes * bytes) :=
  if bool_decide (take (length sep) s = sep) then Some ([], drop (length sep) s)
  else match s with
       | [] => None
       | c :: s' => '(a, b) ← split_once sep s'; Some (c :: a, b)
       end.
Fixpoint split_blocks (fuel : nat) (sep s : bytes) : list bytes :=
  match fuel, split_once sep s with
  | S fuel, Some (a, b) => a :: split_blocks fuel sep b
  | _, _ => [s]
  end.

(** The certificate blocks of a text, each with its markers. *)
Definition canonical_block (block : bytes) : option bytes :=
  '(body, _) ← split_once END_CERTIFICATE block;
  Some (BEGIN_CERTIFICATE ++ body ++ END_CERTIFICATE ++ ["010"%char]).
Definition canonical_blocks (text : bytes) : option bytes :=
  blocks ← mapM canonical_block (List.tl (split_blocks (length text) BEGIN_CERTIFICATE text));
  Some (List.concat blocks).

Section Snapshots.
(** The parsed leaf of a chain whose key matches and that verifies for the hostname at the
    given time: its validity in seconds and its fingerprint; and the key in PEM. *)
Context (verify_material : bytes → Z → option (Z * Z * bytes)) (key_pem : bytes → option bytes).

Definition CertificateSnapshot_validate (policy : CertificateValidation) (now : Z) (given : bytes) :
    option CertificateSnapshot :=
  if MAX_PEM_BYTES <? len given then None else
  '(not_before, not_after, fingerprint) ← (if now <? 0 then None else verify_material given now);
  if (not_after <? 0) || (not_before <? 0) then None else
  let expires_at := not_after * 1000 in
  if (expires_at <? now) || (expires_at - now <? minimum_remaining policy) then None else
  key ← key_pem given;
  blocks ← canonical_blocks given;
  Some (mkSnapshot (key ++ blocks) (not_before * 1000) expires_at fingerprint).
End Snapshots.

(** ** The store *)

Definition MAX_STATE_BYTES : Z := 1024 * 1024.

Record Generation := mkGeneration {
  gen_hostname : bytes;
  gen_contact : bytes;
  gen_directory_url : bytes;
  account : option bytes;
  certificate : option bytes
}.

Definition CURRENT : bytes := bs "current.json".
Definition MANIFEST_CANDIDATE : bytes := bs "candidate.json".
Definition CANDIDATE : bytes := bs "candidate".
Definition export_name (id : bytes) : bytes := id ++ bs ".pem".

Definition is_lower_hex (b : ascii) : bool :=
  let v := u8_val b in ((48 <=? v) && (v <=? 57)) || ((97 <=? v) && (v <=? 102)).
Definition valid_id (id : bytes) : bool := (len id =? 64) && forallb is_lower_hex id.
Definition valid_manifest (ids : list bytes) : bool :=
  negb (bool_decide (ids = [])) && (len ids <=? 2) && forallb valid_id ids.

Section Store.
Context (hostname contact directory_url : bytes) (policy : CertificateValidation).
Context (hex_digest : bytes → bytes).
Context (encode_generation : Generation → bytes) (decode_generation : bytes → option Generation).
Context (encode_manifest : list bytes → bytes) (decode_manifest : bytes → option (list bytes)).
Context (verify_material : bytes → Z → option (Z * Z * bytes)) (key_pem : bytes → option bytes).
Context (valid_account : bytes → bool).

Definition validate : CertificateValidation → Z → bytes → option CertificateSnapshot :=
  CertificateSnapshot_validate verify_material key_pem.

Definition validate_account (a : bytes) : io unit := if valid_account a then mret tt else io_fail OtherError.

Definition read_manifest : io (list bytes) :=
  r ← attempt (read_file Committed CURRENT 512);
  match r with
  | Ok b => match decode_manifest b with
            | Some ids => if valid_manifest ids then mret ids else io_fail OtherError
            | None => io_fail OtherError
            end
  | Err NotFound => mret []
  | Err e => io_fail e
  end.

Definition read_generation (id : bytes) : io Generation :=
  b ← read_file Generations id MAX_STATE_BYTES;
  if bool_decide (hex_digest b = id) then
    match decode_generation b with Some g => mret g | None => io_fail OtherError end
  else io_fail OtherError.

Definition empty_generation : Generation := mkGeneration hostname contact directory_url None None.

(** The first readable generation, which must be of this hostname, contact and directory. *)
Fixpoint load_first (ids : list bytes) : io Generation :=
  match ids with
  | [] => io_fail OtherError
  | id :: rest =>
      r ← attempt (read_generation id);
      match r with
      | Err _ => load_first rest
      | Ok g =>
          if bool_decide (gen_hostname g = hostname ∧ gen_contact g = contact ∧ gen_directory_url g = directory_url)
          then _ ← match account g with Some a => validate_account a | None => mret tt end; mret g
          else io_fail OtherError
      end
  end.
Definition load : io Generation :=
  ids ← read_manifest;
  if bool_decide (ids = []) then mret empty_generation else load_first ids.

Definition publish_blob (name b : bytes) : io unit := replace_file Generations CANDIDATE name b.
Definition publish_manifest (ids : list bytes) : io unit :=
  replace_file Committed MANIFEST_CANDIDATE CURRENT (encode_manifest ids).

Definition prune : io unit :=
  ids ← read_manifest;
  names ← read_dir Generations;
  let removed := List.filter (λ n, negb (existsb (λ id, bool_decide (n = id) || bool_decide (n = export_name id)) ids))
                   names in
  _ ← for_each (remove_file Generations) removed;
  if bool_decide (removed = []) then mret tt else sync_directory Generations.

(** [iter().filter(|id| read_generation(id).is_ok())]. *)
Fixpoint readable (ids : list bytes) : io (list bytes) :=
  match ids with
  | [] => mret []
  | id :: rest =>
      r ← attempt (read_generation id);
      others ← readable rest;
      mret (if is_ok r then id :: others else others)
  end.

(** The export of a generation is written again unless it is there already. *)
Definition recover_export (now : Z) (id : bytes) : io unit :=
  g ← read_generation id;
  match certificate g with
  | Some p =>
      match validate policy now p with
      | Some _ =>
          r ← attempt (read_file Generations (export_name id) MAX_STATE_BYTES);
          match r with
          | Ok b => if bool_decide (b = p) then mret tt else publish_blob (export_name id) p
          | Err _ => publish_blob (export_name id) p
          end
      | None => mret tt
      end
  | None => mret tt
  end.

Definition sync_existing (p : Place) (name : bytes) : io unit := i ← open_file p name; sync_inode i.

Definition recover_manifest (now : Z) : io unit :=
  ids ← read_manifest;
  retained ← readable ids;
  _ ← for_each (recover_export now) retained;
  if bool_decide (retained = ids) then mret tt
  else if bool_decide (retained = []) then io_fail OtherError
  else
    _ ← for_each (sync_existing Generations) retained;
    _ ← sync_directory Generations;
    publish_manifest retained.

Definition sync_generation (id : bytes) : io unit :=
  _ ← sync_existing Generations id;
  exported ← try_exists Generations (export_name id);
  if (exported : bool) then sync_existing Generations (export_name id) else mret tt.

Definition sync_committed : io unit :=
  ids ← read_manifest;
  _ ← for_each sync_generation ids;
  _ ← sync_directory Generations;
  present ← try_exists Committed CURRENT;
  _ ← (if (present : bool) then sync_existing Committed CURRENT else mret tt);
  sync_directory Committed.

(** [open_with_io]. *)
Definition open_store (now : Z) : io unit :=
  g ← load;
  _ ← match account g with Some a => validate_account a | None => mret tt end;
  _ ← recover_manifest now;
  _ ← sync_committed;
  prune.

Fixpoint find_previous (id : bytes) (ids : list bytes) : io (option bytes) :=
  match ids with
  | [] => mret None
  | old :: rest =>
      if bool_decide (old = id) then find_previous id rest
      else r ← attempt (read_generation old);
           if is_ok r then mret (Some old) else find_previous id rest
  end.

(** The generation and its serving export. *)
Definition publish_files (g : Generation) : io unit :=
  let b := encode_generation g in
  let id := hex_digest b in
  _ ← publish_blob id b;
  match certificate g with Some p => publish_blob (export_name id) p | None => mret tt end.

Definition publish (g : Generation) : io unit :=
  let b := encode_generation g in
  if MAX_STATE_BYTES <? len b then io_fail OtherError else
  let id := hex_digest b in
  _ ← prune;
  _ ← publish_files g;
  ids ← read_manifest;
  previous ← find_previous id ids;
  _ ← publish_manifest (id :: option_list previous);
  prune.

(** *** The cache of the ACME client *)

Definition check (failed : bool) (names : list bytes) (expected url : bytes) : io unit :=
  if failed then io_fail OtherError
  else if bool_decide (names = [expected] ∧ url = directory_url) then mret tt else io_fail OtherError.

(** A write under the mutex; the flag is set when the publication fails. *)
Definition write_locked (change : Generation → Generation) : io (result IoError unit) :=
  g ← load;
  attempt (publish (change g)).

Definition with_certificate (p : bytes) (g : Generation) : Generation :=
  mkGeneration (gen_hostname g) (gen_contact g) (gen_directory_url g) (account g) (Some p).
Definition with_account (a : bytes) (g : Generation) : Generation :=
  mkGeneration (gen_hostname g) (gen_contact g) (gen_directory_url g) (Some a) (certificate g).

Definition store_cert (now : Z) (failed : bool) (domains : list bytes) (url given : bytes) : io (result IoError unit) :=
  _ ← check failed domains hostname url;
  match validate policy now given with
  | Some snapshot => write_locked (with_certificate (pem snapshot))
  | None => io_fail OtherError
  end.
Definition store_account (failed : bool) (contacts : list bytes) (url a : bytes) : io (result IoError unit) :=
  _ ← check failed contacts contact url;
  _ ← validate_account a;
  write_locked (with_account a).

Definition load_cert (now : Z) (failed : bool) (domains : list bytes) (url : bytes) : io (option bytes) :=
  _ ← check failed domains hostname url;
  g ← load;
  mret (p ← certificate g; pem <$> validate policy now p).
Definition load_account (failed : bool) (contacts : list bytes) (url : bytes) : io (option bytes) :=
  _ ← check failed contacts contact url;
  g ← load;
  mret (account g).

(** One look of [read_snapshot] at the manifest. *)
Fixpoint first_snapshot (policy : CertificateValidation) (now : Z) (ids : list bytes) : io (option CertificateSnapshot) :=
  match ids with
  | [] => mret None
  | id :: rest =>
      r ← attempt (read_file Generations (export_name id) MAX_STATE_BYTES);
      match (match r with Ok p => validate policy now p | Err _ => None end) with
      | Some snapshot => mret (Some snapshot)
      | None => first_snapshot policy now rest
      end
  end.
Fixpoint read_snapshot_turns (turns : nat) (policy : CertificateValidation) (now : Z) : io (option CertificateSnapshot) :=
  match turns with
  | O => io_fail OtherError
  | S turns =>
      ids ← read_manifest;
      o ← first_snapshot policy now ids;
      match o with
      | Some snapshot => mret (Some snapshot)
      | None => if bool_decide (ids = []) then mret None else read_snapshot_turns turns policy now
      end
  end.
Definition read_snapshot (policy : CertificateValidation) (now : Z) : io (option CertificateSnapshot) :=
  read_snapshot_turns 3 policy now.

Definition export_snapshot (now : Z) (failed : bool) (required_remaining : Z) : io CertificateSnapshot :=
  if failed then io_fail OtherError else
  _ ← sync_committed;
  o ← read_snapshot (mkPolicy (Z.max (minimum_remaining policy) required_remaining) (safety_margin policy)) now;
  lift (ok_or OtherError o).

(** [import_legacy], given what the legacy cache holds. *)
Definition import_legacy (now : Z) (failed : bool) (legacy_account legacy_cert : option bytes) : io (result IoError unit) :=
  ids ← read_manifest;
  if negb (bool_decide (ids = [])) then mret (Ok tt) else
  r ← match legacy_account with
      | Some a => store_account failed [contact] directory_url a
      | None => mret (Ok tt)
      end;
  match r, legacy_cert with
  | Err e, _ => mret (Err e)
  | Ok _, None => mret (Ok tt)
  | Ok _, Some p =>
      if bool_decide (is_Some (validate policy now p)) then store_cert now failed [hostname] directory_url p else mret (Ok tt)
  end.

(** ** A Server and its disk over time *)

(** The disk, the open store with its failure flag, and what the runs so far have written:
    the generation last acknowledged, the ones whose publication was cut short since then,
    whether a read failed in or since the acknowledged write, and all generations ever
    written. *)
Record System := mkSystem {
  sys_disk : Disk;
  handle : option bool;
  acknowledged : Generation;
  attempted : list Generation;
  misread : bool;
  written : list Generation
}.

Definition initial : System := mkSystem empty_disk None empty_generation [] false [].

(** The generation that is loaded from a disk when nothing fails, and the one that a write
    starts from. *)
Definition loaded (d : Disk) : option Generation :=
  match load (mkWorld d [] []) with (Done g, _) => Some g | _ => None end.
Definition base (w : World) : Generation :=
  match load w with (Done g, _) => g | _ => empty_generation end.

(** The reads of an operation that fail; none of them does when the list is empty. *)
Definition some_fail (rs : list bool) : bool := negb (bool_decide (rs = [])).

Definition after_open (s : System) (rs : list bool) (r : outcome unit * World) : System :=
  mkSystem (disk r.2) (match r.1 with Done _ => Some false | _ => None end)
    (acknowledged s) (attempted s) (misread s || some_fail rs) (written s).

(** The end of a write of [g]. *)
Definition after_write (s : System) (rs : list bool) (g : Generation) (r : outcome (result IoError unit) * World) :
    System :=
  let d := disk r.2 in
  let misread' := misread s || some_fail rs in
  match r.1 with
  | Done (Ok _) => mkSystem d (Some false) g [] (some_fail rs) (g :: written s)
  | Done (Err _) => mkSystem d (Some true) (acknowledged s) (g :: attempted s) misread' (g :: written s)
  | Fails _ => mkSystem d (handle s) (acknowledged s) (attempted s) misread' (written s)
  | Died => mkSystem d None (acknowledged s) (g :: attempted s) misread' (g :: written s)
  end.

Definition after_export (s : System) (rs : list bool) (r : outcome CertificateSnapshot * World) : System :=
  mkSystem (disk r.2) (match r.1 with Died => None | _ => handle s end)
    (acknowledged s) (attempted s) (misread s || some_fail rs) (written s).

Definition stopped (s : System) (d : Disk) : System :=
  mkSystem d None (acknowledged s) (attempted s) (misread s) (written s).

(** SHA-256 collisions are left out: a write whose digest is that of another generation is
    not a step. *)
Definition collision_free (g : Generation) (gs : list Generation) : Prop :=
  ∀ g', g' ∈ gs → hex_digest (encode_generation g) = hex_digest (encode_generation g') → g = g'.

(** Every operation runs under any faults of its writes and of its reads. *)
Inductive step : System → System → Prop :=
| StepOpen s now fs rs :
    handle s = None → step s (after_open s rs (open_store now (mkWorld (sys_disk s) fs rs)))
| StepCert s failed now domains url given snapshot fs rs :
    let w := mkWorld (sys_disk s) fs rs in
    let g := with_certificate (pem snapshot) (base w) in
    handle s = Some failed → validate policy now given = Some snapshot → collision_free g (written s) →
    step s (after_write s rs g (store_cert now failed domains url given w))
| StepAccount s failed contacts url a fs rs :
    let w := mkWorld (sys_disk s) fs rs in
    let g := with_account a (base w) in
    handle s = Some failed → collision_free g (written s) →
    step s (after_write s rs g (store_account failed contacts url a w))
| StepExport s failed now required_remaining fs rs :
    handle s = Some failed →
    step s (after_export s rs (export_snapshot now failed required_remaining (mkWorld (sys_disk s) fs rs)))
| StepExit s : step s (stopped s (sys_disk s))
| StepCrash s d : crash (sys_disk s) d → step s (stopped s d).

Definition reachable (s : System) : Prop := rtc step initial s.

(** ** Correctness *)

Hypothesis decode_encode : ∀ g, decode_generation (encode_generation g) = Some g.
Hypothesis decode_encode_manifest : ∀ ids, valid_manifest ids = true →
  decode_manifest (encode_manifest ids) = Some ids ∧ len (encode_manifest ids) ≤ 512.
Hypothesis digest_hex : ∀ b, valid_id (hex_digest b) = true.
Hypothesis encoding_covers : ∀ g p, certificate g = Some p → len p ≤ len (encode_generation g).

Definition id_of (g : Generation) : bytes := hex_digest (encode_generation g).
Definition ids_of (gs : list Generation) : list bytes := id_of <$> gs.
Definition manifest_file (gs : list Generation) : option bytes :=
  match gs with [] => None | _ => Some (encode_manifest (ids_of gs)) end.

(** The files that a disk holds whatever changes reach it: the manifest is that of one of
    the candidates, and all of their generations are there with their exports. *)
Inductive holds_frame (C : list (list Generation)) : frame :=
| HoldsManifest : holds_frame C Committed CURRENT (λ o, ∃ gs, gs ∈ C ∧ o = manifest_file gs)
| HoldsGeneration gs g : gs ∈ C → g ∈ gs → holds_frame C Generations (id_of g) (eq (Some (encode_generation g)))
| HoldsExport gs g p :
    gs ∈ C → g ∈ gs → certificate g = Some p → holds_frame C Generations (export_name (id_of g)) (eq (Some p)).

Definition wf_generation (g : Generation) : Prop :=
  gen_hostname g = hostname ∧ gen_contact g = contact ∧ gen_directory_url g = directory_url
  ∧ (∀ a, account g = Some a → valid_account a = true) ∧ len (encode_generation g) ≤ MAX_STATE_BYTES.
Definition wf_generations (gs : list Generation) : Prop := (length gs ≤ 2)%nat ∧ Forall wf_generation gs.

Definition holds (C : list (list Generation)) (d : Disk) : Prop :=
  keeps (holds_frame C) d ∧ Forall wf_generations C.

(** The generation that a list of generations, the newest first, stands for. *)
Definition newest (gs : list Generation) : Generation := default empty_generation (head gs).

(** *** Names *)

Lemma length_id g : length (id_of g) = 64%nat.
Proof.
  pose proof (digest_hex (encode_generation g)) as H. unfold valid_id in H.
  apply andb_true_iff in H as [H _]. apply Z.eqb_eq in H. unfold len, id_of in *. lia.
Qed.
Lemma length_export g : length (export_name (id_of g)) = 68%nat.
Proof. unfold export_name. rewrite length_app, length_id. done. Qed.
Lemma export_inj g g' : export_name (id_of g) = export_name (id_of g') → id_of g = id_of g'.
Proof. unfold export_name. intros H. by apply app_inj_2 in H as [? _]. Qed.

(** What a name of the frame is. *)
Lemma frame_generations C name Q :
  holds_frame C Generations name Q →
  ∃ gs g, gs ∈ C ∧ g ∈ gs ∧
    (name = id_of g ∧ Q = eq (Some (encode_generation g))
     ∨ name = export_name (id_of g) ∧ ∃ p, certificate g = Some p ∧ Q = eq (Some p)).
Proof.
  remember Generations as p eqn:Hp. destruct 1 as [|gs g|gs g x]; [done| |]; exists gs, g; eauto 10.
Qed.
Lemma frame_committed C name Q :
  holds_frame C Committed name Q → name = CURRENT ∧ Q = λ o, ∃ gs, gs ∈ C ∧ o = manifest_file gs.
Proof. remember Committed as p eqn:Hp. by destruct 1. Qed.

Lemma frame_candidate C Q : ¬ holds_frame C Generations CANDIDATE Q.
Proof.
  intros (gs & g & _ & _ & [[Hn _]|[Hn _]])%frame_generations; apply (f_equal length) in Hn;
    rewrite ?length_id, ?length_export in Hn; done.
Qed.
Lemma frame_manifest_candidate C Q : ¬ holds_frame C Committed MANIFEST_CANDIDATE Q.
Proof. by intros [? _]%frame_committed. Qed.

Lemma valid_ids gs : wf_generations gs → gs ≠ [] → valid_manifest (ids_of gs) = true.
Proof.
  intros [Hlen _] Hne. unfold valid_manifest. rewrite !andb_true_iff. split_and!.
  - rewrite bool_decide_false; [done|]. by destruct gs.
  - apply Z.leb_le. unfold len, ids_of. rewrite length_fmap. lia.
  - apply forallb_forall. intros id Hid. rewrite <- list_elem_of_In in Hid.
    apply list_elem_of_fmap in Hid as (g & -> & _). apply digest_hex.
Qed.

(** *** Reading *)

Definition visible (C : list (list Generation)) (d : Disk) (gs : list Generation) : Prop :=
  holds C d ∧ gs ∈ C ∧ contents d Committed CURRENT = manifest_file gs.

Lemma holds_visible C d : holds C d → ∃ gs, visible C d gs.
Proof.
  intros HC. pose proof (bound_contents _ _ _ _ (proj2 (proj1 HC) _ _ _ (HoldsManifest C))) as (gs & Hin & Hc).
  by exists gs.
Qed.

Lemma wf_member C d gs g : holds C d → gs ∈ C → g ∈ gs → wf_generation g.
Proof.
  intros [_ HC] Hin Hg. rewrite Forall_forall in HC. destruct (HC gs Hin) as [_ Hwf]. rewrite Forall_forall in Hwf. auto.
Qed.

Lemma reads_manifest C d gs : visible C d gs → reads read_manifest d (Ok (ids_of gs)).
Proof.
  intros (HC & Hin & Hc). unfold read_manifest. destruct gs as [|g gs].
  - eapply reads_bind; [apply reads_attempt, reads_reading|]. simpl. rewrite Hc. simpl. apply reads_ret.
  - assert (valid_manifest (ids_of (g :: gs)) = true) as Hv.
    { apply valid_ids; [|done]. destruct HC as [_ HC]. rewrite Forall_forall in HC. auto. }
    destruct (decode_encode_manifest _ Hv) as [Hd Hl].
    eapply reads_bind; [by apply reads_attempt, reads_file|]. cbv beta iota. rewrite Hd, Hv. apply reads_ret.
Qed.

Lemma reads_generation C d gs g :
  holds C d → gs ∈ C → g ∈ gs → reads (read_generation (id_of g)) d (Ok g).
Proof.
  intros HC Hin Hg. unfold read_generation.
  pose proof (bound_contents _ _ _ _ (proj2 (proj1 HC) _ _ _ (HoldsGeneration C gs g Hin Hg))) as Hc.
  eapply reads_bind; [apply reads_file; [by symmetry|]|].
  { by destruct (wf_member C d gs g HC Hin Hg) as (_ & _ & _ & _ & Hl). }
  cbn. rewrite bool_decide_true by done. rewrite decode_encode. apply reads_ret.
Qed.

Lemma reads_account g :
  wf_generation g → ∀ d, reads (match account g with Some a => validate_account a | None => mret tt end) d (Ok tt).
Proof.
  intros (_ & _ & _ & Ha & _) d. destruct (account g) as [a|]; [|apply reads_ret].
  unfold validate_account. rewrite (Ha a eq_refl). apply reads_ret.
Qed.

Lemma reads_load C d gs : visible C d gs → reads load d (Ok (newest gs)).
Proof.
  intros Hv. pose proof Hv as (HC & Hin & _). unfold load. eapply reads_bind; [by eapply reads_manifest|]. simpl.
  destruct gs as [|g gs]; simpl; [apply reads_ret|].
  eapply reads_bind; [apply reads_attempt; eapply reads_generation; [done|done|by left]|]. simpl.
  assert (wf_generation g) as Hwf by (eapply wf_member; [done|done|by left]).
  pose proof Hwf as (? & ? & ? & _). rewrite bool_decide_true by done.
  eapply reads_bind; [by apply reads_account|]. apply reads_ret.
Qed.

Lemma reads_readable C d gs l :
  holds C d → gs ∈ C → (∀ g, g ∈ l → g ∈ gs) → reads (readable (ids_of l)) d (Ok (ids_of l)).
Proof.
  intros HC Hin. induction l as [|g l IH]; intros Hl; [apply reads_ret|]. cbn [ids_of fmap list_fmap readable].
  eapply reads_bind; [apply reads_attempt; eapply reads_generation; [done|done|apply Hl; by left]|]. cbn.
  eapply reads_bind; [apply IH; intros x Hx; apply Hl; by right|]. apply reads_ret.
Qed.

Lemma reads_export C d gs g now :
  holds C d → gs ∈ C → g ∈ gs → reads (recover_export now (id_of g)) d (Ok tt).
Proof.
  intros HC Hin Hg. unfold recover_export. eapply reads_bind; [by eapply reads_generation|]. cbn.
  destruct (certificate g) as [p|] eqn:Ep; [|apply reads_ret]. destruct (validate policy now p); [|apply reads_ret].
  pose proof (bound_contents _ _ _ _ (proj2 (proj1 HC) _ _ _ (HoldsExport C gs g p Hin Hg Ep))) as Hc.
  destruct (wf_member C d gs g HC Hin Hg) as (_ & _ & _ & _ & Hl). pose proof (encoding_covers g p Ep).
  eapply reads_bind; [apply reads_attempt, reads_file; [by symmetry|lia]|]. cbn.
  rewrite bool_decide_true by done. apply reads_ret.
Qed.

(** When all generations are there, recovery only reads. *)
Lemma reads_recover C d gs now : visible C d gs → reads (recover_manifest now) d (Ok tt).
Proof.
  intros Hv. pose proof Hv as (HC & Hin & _). unfold recover_manifest.
  eapply reads_bind; [by eapply reads_manifest|]. cbn.
  eapply reads_bind; [by eapply reads_readable|]. cbn.
  eapply reads_bind; [apply reads_for_each|].
  - intros id (g & -> & Hg)%list_elem_of_fmap. by eapply reads_export.
  - cbn. rewrite bool_decide_true by done. apply reads_ret.
Qed.

Lemma reads_find C d gs g l :
  holds C d → gs ∈ C → (∀ x, x ∈ l → x ∈ gs) →
  reads (find_previous (id_of g) (ids_of l)) d (Ok (id_of <$> head (filter (λ x, id_of x ≠ id_of g) l))).
Proof.
  intros HC Hin. induction l as [|x l IH]; intros Hl; [apply reads_ret|]. cbn [ids_of fmap list_fmap find_previous].
  rewrite filter_cons. case_bool_decide as Hx.
  - rewrite decide_False by (intros Hne; by apply Hne). apply IH. intros y Hy. apply Hl. by right.
  - rewrite decide_True by done. simpl.
    eapply reads_bind; [apply reads_attempt; eapply reads_generation; [done|done|apply Hl; by left]|]. apply reads_ret.
Qed.

Lemma sublist_members (l l' : list Generation) : l' `sublist_of` l → l' ⊆ l.
Proof. intros Hsub x Hx. eapply elem_of_submseteq; [exact Hx|by apply sublist_submseteq]. Qed.

(** *** Reading under faults *)

Section Faulty.
Context (misreads : bool).
Notation wp := (wp misreads).
Notation peeks := (peeks misreads).

Lemma peeks_manifest C d gs : visible C d gs → peeks read_manifest d (eq (ids_of gs)).
Proof.
  intros Hv. pose proof Hv as (HC & Hin & Hc). unfold read_manifest, read_file.
  eapply peeks_bind; [apply peeks_attempt_reading|]. intros r [->|[Hm ->]]; [|by apply peeks_fail].
  rewrite Hc. destruct gs as [|g gs]; [by apply peeks_ret|].
  assert (valid_manifest (ids_of (g :: gs)) = true) as Hval.
  { apply valid_ids; [|done]. destruct HC as [_ HC]. rewrite Forall_forall in HC. auto. }
  destruct (decode_encode_manifest _ Hval) as [Hd Hl]. cbn [manifest_file ok_or mbind result_bind]. unfold reject_if.
  destruct (Z.ltb_spec 512 (len (encode_manifest (ids_of (g :: gs))))); [lia|]. cbn [mbind result_bind].
  rewrite Hd, Hval. by apply peeks_ret.
Qed.

Lemma peeks_generation C d gs g :
  holds C d → gs ∈ C → g ∈ gs → peeks (read_generation (id_of g)) d (eq g).
Proof.
  intros HC Hin Hg. unfold read_generation, read_file.
  pose proof (bound_contents _ _ _ _ (proj2 (proj1 HC) _ _ _ (HoldsGeneration C gs g Hin Hg))) as Hc.
  destruct (wf_member C d gs g HC Hin Hg) as (_ & _ & _ & _ & Hl).
  eapply peeks_bind; [apply (peeks_reading _ _ _ (encode_generation g))|].
  - rewrite <- Hc. cbn. unfold reject_if. by destruct (Z.ltb_spec MAX_STATE_BYTES (len (encode_generation g))); [lia|].
  - intros ? <-. rewrite bool_decide_true by done. rewrite decode_encode. by apply peeks_ret.
Qed.

Lemma peeks_account g d :
  wf_generation g → peeks (match account g with Some a => validate_account a | None => mret tt end) d (eq tt).
Proof.
  intros (_ & _ & _ & Ha & _). destruct (account g) as [a|]; [|by apply peeks_ret].
  unfold validate_account. rewrite (Ha a eq_refl). by apply peeks_ret.
Qed.

(** The newest generation is loaded unless a read of it fails. *)
Lemma peeks_load_first C d gs l :
  holds C d → gs ∈ C → l ⊆ gs → (l = [] → misreads = true) →
  peeks (load_first (ids_of l)) d (λ x, head l = Some x ∨ misreads = true ∧ x ∈ l).
Proof.
  intros HC Hin. induction l as [|g l IH]; intros Hl He; [by apply peeks_fail, He|]. cbn [ids_of fmap list_fmap load_first].
  assert (g ∈ gs) as Hg by (apply Hl; by left). pose proof (wf_member C d gs g HC Hin Hg) as Hwf.
  eapply peeks_bind; [by eapply peeks_attempt, peeks_generation|]. intros [x|e].
  - intros <-. pose proof Hwf as (? & ? & ? & _). rewrite bool_decide_true by done.
    eapply peeks_bind; [by apply peeks_account|]. intros ? _. apply peeks_ret. by left.
  - intros Hm. eapply wp_mono; [apply IH; [set_solver|done]| |done]. intros x d' [-> Hx]. split; [done|]. right.
    split; [done|]. right. destruct Hx as [Hx|[_ Hx]]; [|done]. destruct l; [done|]. injection Hx as ->. by left.
Qed.
Lemma peeks_load C d gs :
  visible C d gs → peeks load d (λ x, x = newest gs ∨ misreads = true ∧ x ∈ gs).
Proof.
  intros Hv. pose proof Hv as (HC & Hin & _). unfold load. eapply peeks_bind; [by eapply peeks_manifest|].
  intros ? <-. destruct gs as [|g gs]; [apply peeks_ret; by left|]. rewrite bool_decide_false by done.
  eapply wp_mono; [by eapply (peeks_load_first C d (g :: gs))| |done].
  intros x d' [-> [Hx|?]]; (split; [done|]); [|by right]. left. injection Hx as ->. done.
Qed.

Lemma peeks_readable C d gs l :
  holds C d → gs ∈ C → l ⊆ gs →
  peeks (readable (ids_of l)) d (λ ids, ∃ l', ids = ids_of l' ∧ l' `sublist_of` l).
Proof.
  intros HC Hin. induction l as [|g l IH]; intros Hl; [apply peeks_ret; by exists []|]. cbn [ids_of fmap list_fmap readable].
  eapply peeks_bind; [eapply peeks_attempt, peeks_generation; [done|done|apply Hl; by left]|]. intros r _.
  eapply peeks_bind; [apply IH; set_solver|]. intros ? (l' & -> & Hsub). apply peeks_ret.
  destruct (is_ok r); [exists (g :: l')|exists l']; (split; [done|]); by constructor.
Qed.

Lemma peeks_find C d gs g l :
  holds C d → gs ∈ C → l ⊆ gs →
  peeks (find_previous (id_of g) (ids_of l)) d (λ o, ∃ o', o = id_of <$> o' ∧ ∀ x, o' = Some x → x ∈ gs).
Proof.
  intros HC Hin. induction l as [|x l IH]; intros Hl; [apply peeks_ret; by exists None|].
  cbn [ids_of fmap list_fmap find_previous]. case_bool_decide; [apply IH; set_solver|].
  eapply peeks_bind; [eapply peeks_attempt, peeks_generation; [done|done|apply Hl; by left]|]. intros r _.
  destruct (is_ok r); [|apply IH; set_solver]. apply peeks_ret. exists (Some x). split; [done|].
  intros y [= <-]. apply Hl. by left.
Qed.

(** *** Writing *)

Lemma wp_sync_existing B p name d (S : Disk → Prop) :
  keeps B d → (∀ d', keeps B d' → S d') →
  wp (sync_existing p name) (λ _ d', keeps B d' ∧ same_contents d d') S d.
Proof.
  intros HB HS. unfold sync_existing. apply wp_bind. apply wp_reading; [|intros _; by apply HS].
  destruct (look d p name); simpl; [by apply wp_sync_inode|by apply HS].
Qed.

Lemma wp_sync_generation B d id (S : Disk → Prop) :
  keeps B d → (∀ d', keeps B d' → S d') →
  wp (sync_generation id) (λ _ d', keeps B d' ∧ same_contents d d') S d.
Proof.
  intros HB HS. unfold sync_generation. apply wp_bind. eapply wp_mono; [by apply wp_sync_existing| |done].
  intros _ d1 [HB1 Hs1]. apply wp_bind. apply wp_reading; [|intros _; by apply HS].
  case_bool_decide; [|by apply wp_ret]. eapply wp_mono; [by apply wp_sync_existing| |done].
  intros _ d2 [HB2 Hs2]. split; [done|]. intros p name. by rewrite Hs2.
Qed.

(** A durable manifest decides between the candidates. *)
Lemma holds_narrow C d gs :
  holds C d → gs ∈ C → bound d Committed CURRENT (eq (manifest_file gs)) → visible [gs] d gs.
Proof.
  intros [[Hwf HB] HC] Hin Hm. split; [|split; [by left|symmetry; by eapply bound_contents]]. split; [split; [done|]|].
  - intros p name Q HQ. inversion HQ as [|gs' g Hgs Hg|gs' g x Hgs Hg Hx]; subst.
    + eapply bound_mono; [|exact Hm]. intros b <-. exists gs. split; [by left|done].
    + apply list_elem_of_singleton in Hgs as ->. apply HB. by eapply HoldsGeneration.
    + apply list_elem_of_singleton in Hgs as ->. apply HB. by eapply HoldsExport.
  - rewrite Forall_forall in HC. constructor; [auto|constructor].
Qed.

Lemma wp_sync_committed C d gs (S : Disk → Prop) :
  visible C d gs → (∀ d', holds C d' → S d') → wp sync_committed (λ _ d', visible [gs] d' gs) S d.
Proof.
  intros Hv HS. pose proof Hv as ((HB & HC) & Hin & Hc).
  assert (∀ d', keeps (holds_frame C) d' → S d') as HS' by (intros d' ?; by apply HS).
  unfold sync_committed. apply wp_bind. eapply wp_peeks; [by eapply peeks_manifest| |intros _; by apply HS'].
  intros ? <-. apply wp_bind.
  eapply (wp_mono _ _ (λ _ d', keeps (holds_frame C) d' ∧ same_contents d d') _ S S); [|clear HB|done].
  { apply wp_for_each; [done|]. intros id d1 _ [HB1 Hs1].
    eapply wp_mono; [by apply wp_sync_generation| |done]. intros _ d2 [HB2 Hs2]. split; [done|].
    intros p name. by rewrite Hs2. }
  intros _ d1 [HB1 Hs1]. apply wp_bind. eapply wp_mono; [by apply wp_sync_directory| |done].
  intros _ d2 (HB2 & Hs2 & _). apply wp_bind. apply wp_reading; [|intros _; by apply HS'].
  apply wp_bind. eapply (wp_mono _ _ (λ _ d', keeps (holds_frame C) d' ∧ same_contents d2 d') _ S S); [| |done].
  { case_bool_decide; [by apply wp_sync_existing|by apply wp_ret]. }
  intros _ d3 [HB3 Hs3]. eapply wp_mono; [by apply wp_sync_directory| |done]. intros _ d4 (HB4 & Hs4 & Hb).
  apply (holds_narrow C); [done|done|]. specialize (Hb _ _ (HoldsManifest C)).
  by rewrite Hs3, Hs2, Hs1, Hc in Hb.
Qed.

Lemma holds_single d gs : holds [gs] d → visible [gs] d gs.
Proof.
  intros HC. destruct (holds_visible _ _ HC) as [gs' Hv].
  by assert (gs' = gs) as -> by (destruct Hv as (_ & ?%list_elem_of_singleton & _); done).
Qed.

Lemma wp_prune d gs (S : Disk → Prop) : holds [gs] d → (∀ d', holds [gs] d' → S d') → wp prune (λ _, holds [gs]) S d.
Proof.
  intros HC HS. pose proof HC as [HB Hwf]. pose proof (holds_single _ _ HC) as Hv.
  assert (∀ d', keeps (holds_frame [gs]) d' → S d') as HS' by (intros d' ?; by apply HS).
  unfold prune. apply wp_bind. eapply wp_peeks; [by eapply peeks_manifest| |intros _; by apply HS].
  intros ? <-. apply wp_bind. apply wp_reading; [|intros _; by apply HS]. cbv beta iota zeta.
  set (removed := List.filter _ _).
  apply wp_bind. eapply (wp_mono _ _ (λ _, keeps (holds_frame [gs])) _ S S); [| |done].
  - apply wp_for_each; [done|]. intros name d1 Hname HB1. apply wp_remove_file; [done| |done].
    intros Q (gs' & g & ->%list_elem_of_singleton & Hg & Hn)%frame_generations.
    apply list_elem_of_In, filter_In in Hname as [_ Hname]. apply negb_true_iff, not_true_iff_false in Hname.
    apply Hname. apply existsb_exists. exists (id_of g). split.
    + apply list_elem_of_In. by apply list_elem_of_fmap_2.
    + apply orb_true_iff. destruct Hn as [[-> _]|[-> _]]; [left|right]; by apply bool_decide_eq_true.
  - intros _ d1 HB1. case_bool_decide; [by apply wp_ret|]. eapply wp_mono; [by apply wp_sync_directory| |done].
    intros _ d2 (HB2 & _). done.
Qed.

Lemma wp_publish_blob B name b d (S : Disk → Prop) :
  keeps B d → (∀ Q, ¬ B Generations CANDIDATE Q) → (∀ Q, B Generations name Q → Q (Some b)) →
  length name = 64%nat ∨ length name = 68%nat → (∀ d', keeps B d' → S d') →
  wp (publish_blob name b) (λ _ d', keeps B d' ∧ bound d' Generations name (eq (Some b))) S d.
Proof. intros HB Hc Hn Hl HS. apply wp_replace_file; try done. intros <-. by destruct Hl. Qed.

(** The manifest of one of the candidates settles which of them the store holds. *)
Lemma wp_publish_manifest C d gs (S : Disk → Prop) :
  holds C d → gs ∈ C → gs ≠ [] → (∀ d', holds C d' → S d') →
  wp (publish_manifest (ids_of gs)) (λ _, holds [gs]) S d.
Proof.
  intros [HB Hwf] Hin Hne HS. assert (manifest_file gs = Some (encode_manifest (ids_of gs))) as Hm by by destruct gs.
  eapply wp_mono; [eapply (wp_replace_file _ _ _ _ _ _ _ S HB)| |done].
  - apply frame_manifest_candidate.
  - intros Q [_ ->]%frame_committed. by exists gs.
  - done.
  - intros d' HB'. by apply HS.
  - intros ? d' [HB' Hb]. apply (holds_narrow C); [done|done|by rewrite Hm].
Qed.

(** *** Recovery *)

Lemma same_generation C d gs gs' g x :
  holds C d → gs ∈ C → g ∈ gs → gs' ∈ C → x ∈ gs' → id_of g = id_of x → g = x.
Proof.
  intros HC Hin Hg Hin' Hx Hid.
  pose proof (bound_contents _ _ _ _ (proj2 (proj1 HC) _ _ _ (HoldsGeneration C gs g Hin Hg))) as Hcg.
  pose proof (bound_contents _ _ _ _ (proj2 (proj1 HC) _ _ _ (HoldsGeneration C gs' x Hin' Hx))) as Hcx.
  rewrite Hid, <- Hcx in Hcg. injection Hcg as He. apply (f_equal decode_generation) in He.
  rewrite !decode_encode in He. by injection He.
Qed.

(** An export that cannot be read is written again as it was. *)
Lemma wp_recover_export C d gs g now (S : Disk → Prop) :
  holds C d → gs ∈ C → g ∈ gs → (∀ d', holds C d' → S d') →
  wp (recover_export now (id_of g)) (λ _, holds C) S d.
Proof.
  intros HC Hin Hg HS. unfold recover_export. apply wp_bind.
  eapply wp_peeks; [by eapply peeks_generation| |intros _; by apply HS]. intros ? <-.
  destruct (certificate g) as [p|] eqn:Ep; [|by apply wp_ret]. destruct (validate policy now p); [|by apply wp_ret].
  apply wp_bind. eapply wp_peeks; [apply peeks_attempt_reading| |intros _; by apply HS]. intros r _.
  assert (wp (publish_blob (export_name (id_of g)) p) (λ _, holds C) S d) as Hp.
  { pose proof HC as [HB Hwf]. eapply wp_mono; [eapply (wp_publish_blob (holds_frame C) _ _ _ S HB)| |done].
    - apply frame_candidate.
    - intros Q (gs' & x & Hin' & Hx & [[Hn _]|(Hn & q & Hq & ->)])%frame_generations.
      + apply (f_equal length) in Hn. by rewrite length_id, length_export in Hn.
      + apply export_inj in Hn. rewrite (same_generation C d gs gs' g x) in Ep by done. congruence.
    - right. apply length_export.
    - intros d' HB'. by apply HS.
    - intros ? d' [HB' _]. by split. }
  destruct r as [b|e]; [|done]. case_bool_decide; [by apply wp_ret|done].
Qed.

Lemma holds_more C d gs gs' : holds C d → gs ∈ C → gs' `sublist_of` gs → holds (gs' :: C) d.
Proof.
  intros [[Hwf HB] HC] Hin Hsub. assert (gs' ⊆ gs) as Hss by by apply sublist_members.
  split; [split; [done|]|].
  - intros p name Q HQ. inversion HQ as [|x g Hx Hg|x g y Hx Hg Hy]; subst.
    + eapply bound_mono; [|apply HB, HoldsManifest]. intros b (x & Hx & ->). exists x. split; [by right|done].
    + apply elem_of_cons in Hx as [->|Hx]; apply HB; by eapply HoldsGeneration; eauto.
    + apply elem_of_cons in Hx as [->|Hx]; apply HB; by eapply HoldsExport; eauto.
  - constructor; [|done]. rewrite Forall_forall in HC. destruct (HC gs Hin) as [Hlen Hall]. split.
    + apply sublist_length in Hsub. lia.
    + rewrite Forall_forall in Hall |- *. auto.
Qed.

(** The disk still holds candidates of [C]; after a failed read also one without some of its
    generations. *)
Definition shrinks (C : list (list Generation)) (gs' : list Generation) : Prop :=
  gs' ∈ C ∨ misreads = true ∧ gs' ≠ [] ∧ ∃ gs, gs ∈ C ∧ gs' ⊆ gs.
Definition shrunk (C : list (list Generation)) (d : Disk) : Prop :=
  ∃ C', holds C' d ∧ ∀ gs', gs' ∈ C' → shrinks C gs'.

Lemma holds_shrunk C d : holds C d → shrunk C d.
Proof. intros HC. exists C. split; [done|]. by left. Qed.

Lemma wp_recover_faulty C d gs now :
  misreads = true → visible C d gs → wp (recover_manifest now) (λ _, shrunk C) (shrunk C) d.
Proof.
  intros Hm Hv. pose proof Hv as (HC & Hin & _). pose proof (holds_shrunk C) as HS. unfold recover_manifest. apply wp_bind.
  eapply wp_peeks; [by eapply peeks_manifest| |auto]. intros ? <-. apply wp_bind.
  eapply wp_peeks; [by eapply (peeks_readable C d gs gs)| |auto]. intros ? (l & -> & Hsub). apply wp_bind.
  assert (l ⊆ gs) as Hl by by apply sublist_members.
  eapply (wp_mono _ _ (λ _, holds C) _ (shrunk C) (shrunk C)); [| |done].
  { apply wp_for_each; [done|]. intros id d1 (g & -> & Hg)%list_elem_of_fmap HC1. eapply wp_recover_export; eauto. }
  intros _ d1 HC1. case_bool_decide; [apply wp_ret; auto|]. case_bool_decide as Hne; [apply wp_fail; auto|].
  assert (l ≠ []) as Hne' by (by intros ->). apply (holds_more C d1 gs l) in HC1; [|done..].
  assert (∀ d', holds (l :: C) d' → shrunk C d') as HS'.
  { intros d' Hd'. exists (l :: C). split; [done|]. intros x [->|Hx]%elem_of_cons; [right|by left]. eauto. }
  pose proof HC1 as [HB1 Hwf1]. assert (∀ d', keeps (holds_frame (l :: C)) d' → shrunk C d') as HSk
    by (intros d' ?; by apply HS'). apply wp_bind.
  eapply (wp_mono _ _ (λ _, keeps (holds_frame (l :: C))) _ (shrunk C) (shrunk C)); [| |done].
  { apply wp_for_each; [done|]. intros id d2 _ HB2. eapply wp_mono; [by apply (wp_sync_existing (holds_frame (l :: C)) _ _ _ (shrunk C))| |done].
    by intros ? d' [? _]. }
  intros _ d2 HB2. apply wp_bind. eapply wp_mono; [by apply (wp_sync_directory _ (holds_frame (l :: C)) _ _ (shrunk C))| |done].
  intros _ d3 (HB3 & _). eapply wp_mono; [eapply (wp_publish_manifest (l :: C)); [done|by left|done|done]| |done].
  intros ? d4 HC4. exists [l]. split; [done|]. intros x ->%list_elem_of_singleton. right. eauto.
Qed.

(** Opening settles on one of the candidates and makes it durable, the visible one unless a
    read fails; before that it gives up none of them. *)
Lemma wp_open C d gs now :
  visible C d gs →
  wp (open_store now)
     (λ _ d', ∃ gs', holds [gs'] d' ∧ shrinks C gs' ∧ (misreads = false → gs' = gs)) (shrunk C) d.
Proof.
  intros Hv. pose proof Hv as (HC & Hin & _). pose proof (holds_shrunk C d HC) as HS. unfold open_store.
  apply wp_bind. eapply wp_peeks; [by eapply peeks_load| |done]. intros g Hg.
  apply wp_bind. eapply (wp_peeks _ _ (eq tt)); [| |done].
  { assert (g = empty_generation ∨ wf_generation g) as [->|Hwf]; [|by apply peeks_ret|by apply peeks_account].
    destruct Hg as [->|[_ Hg]]; [|right; by eapply wf_member]. destruct gs as [|x gs]; [by left|right].
    eapply wf_member; [done|done|by left]. }
  intros _ _. apply wp_bind.
  assert (wp (recover_manifest now) (λ _ d1, ∃ C1 gs1, visible C1 d1 gs1 ∧ (∀ x, x ∈ C1 → shrinks C x)
                                             ∧ (misreads = false → gs1 = gs)) (shrunk C) d) as Hrec.
  { destruct (decide (misreads = true)) as [Hm|Hm%not_true_is_false].
    - eapply wp_mono; [by eapply wp_recover_faulty| |done]. intros ? d1 (C1 & HC1 & Hs).
      destruct (holds_visible _ _ HC1) as [gs1 Hv1]. exists C1, gs1. split_and!; [done|done|congruence].
    - eapply wp_peeks; [by eapply peeks_reads, reads_recover| |done]. intros ? _. exists C, gs. split_and!; [done| |done].
      by left. }
  eapply wp_mono; [exact Hrec| |done]. intros ? d1 (C1 & gs1 & Hv1 & Hs & Heq). apply wp_bind.
  eapply wp_mono; [eapply (wp_sync_committed C1 d1 gs1 (shrunk C) Hv1)| |done].
  { intros d' ?. by exists C1. }
  intros ? d2 (HC2 & _). assert (gs1 ∈ C1) as Hin1 by by destruct Hv1 as (_ & ? & _).
  eapply wp_mono; [by eapply (wp_prune d2 gs1 (holds [gs1]))| |].
  - intros ? d3 HC3. exists gs1. auto.
  - intros d3 HC3. exists [gs1]. split; [done|]. intros x ->%list_elem_of_singleton. auto.
Qed.

(** *** Publication *)

(** The generations of the manifest that follows: the new one and at most one other. *)
Definition succession (g : Generation) (gs x : list Generation) : Prop :=
  ∃ o, x = g :: option_list o ∧ ∀ y, o = Some y → y ∈ gs.

Lemma succession_in g gs x y : succession g gs x → y ∈ x → y = g ∨ y ∈ gs.
Proof.
  intros (o & -> & Ho) [->|Hy]%elem_of_cons; [by left|right]. destruct o as [z|]; [|by apply elem_of_nil in Hy].
  apply list_elem_of_singleton in Hy as ->. auto.
Qed.

Definition belongs (g : Generation) : Prop :=
  gen_hostname g = hostname ∧ gen_contact g = contact ∧ gen_directory_url g = directory_url
  ∧ (∀ a, account g = Some a → valid_account a = true).

Lemma holds_extend d gs g x :
  holds [gs] d → belongs g → len (encode_generation g) ≤ MAX_STATE_BYTES →
  bound d Generations (id_of g) (eq (Some (encode_generation g))) →
  (∀ p, certificate g = Some p → bound d Generations (export_name (id_of g)) (eq (Some p))) →
  succession g gs x → holds [gs; x] d.
Proof.
  intros [[Hwf HB] HC] (? & ? & ? & ?) Hl Hg Hp Hsucc.
  assert (∀ l y, l ∈ [gs; x] → y ∈ l → y = g ∨ y ∈ gs) as Hmem.
  { intros l y [->| ->%list_elem_of_singleton]%elem_of_cons Hy; [by right|by eapply succession_in]. }
  split; [split; [done|]|].
  - intros p name Q HQ. inversion HQ as [|l y Hgs Hy|l y z Hgs Hy Hz]; subst.
    + eapply bound_mono; [|apply HB, HoldsManifest]. intros b (l & ->%list_elem_of_singleton & ->).
      exists gs. split; [by left|done].
    + destruct (Hmem l y Hgs Hy) as [->|Hin]; [done|apply HB; by eapply HoldsGeneration; [left|]].
    + destruct (Hmem l y Hgs Hy) as [->|Hin]; [by apply Hp|apply HB; by eapply HoldsExport; [left| |]].
  - inversion_clear HC as [|? ? [Hlen Hall] _]. constructor; [done|]. constructor; [|constructor]. split.
    + destruct Hsucc as ([?|] & -> & _); simpl; lia.
    + apply Forall_forall. intros y Hy. rewrite Forall_forall in Hall.
      destruct (succession_in g gs x y Hsucc Hy) as [->|]; [done|auto].
Qed.

(** The two files of a new generation. *)
Lemma wp_publish_files d gs g (S : Disk → Prop) :
  holds [gs] d → belongs g → len (encode_generation g) ≤ MAX_STATE_BYTES →
  (∀ x, x ∈ gs → id_of g = id_of x → g = x) → (∀ d', holds [gs] d' → S d') →
  wp (publish_files g) (λ _ d', holds [gs] d' ∧ ∀ x, succession g gs x → holds [gs; x] d') S d.
Proof.
  intros [HB HC] Hbel Hl Hfree HS.
  assert (∀ d', keeps (holds_frame [gs]) d' → S d') as HS' by (intros d' ?; by apply HS).
  unfold publish_files. cbv zeta. change (hex_digest (encode_generation g)) with (id_of g). apply wp_bind.
  eapply wp_mono; [eapply (wp_publish_blob (holds_frame [gs])); try done| |done].
  { apply frame_candidate. }
  { intros Q (gs' & x & ->%list_elem_of_singleton & Hx & [[Hn ->]|[Hn _]])%frame_generations.
    - by rewrite (Hfree x Hx Hn).
    - apply (f_equal length) in Hn. by rewrite length_id, length_export in Hn. }
  { left. apply length_id. }
  intros _ d1 [HB1 Hg1]. destruct (certificate g) as [p|] eqn:Ep.
  - pose proof (keeps_also _ _ _ _ _ HB1 Hg1) as HB1'.
    eapply wp_mono; [eapply (wp_publish_blob _ _ _ _ S HB1')| |done].
    + intros Q [HQ|(_ & Hn & _)]; [by apply frame_candidate in HQ|]. apply (f_equal length) in Hn.
      by rewrite length_id in Hn.
    + intros Q [(gs' & x & ->%list_elem_of_singleton & Hx & [[Hn _]|(Hn & q & Hq & ->)])%frame_generations|(_ & Hn & _)].
      * apply (f_equal length) in Hn. by rewrite length_id, length_export in Hn.
      * apply export_inj in Hn. rewrite (Hfree x Hx Hn) in Ep. congruence.
      * apply (f_equal length) in Hn. by rewrite length_id, length_export in Hn.
    + right. apply length_export.
    + intros d' Hd'. apply HS'. eapply keeps_subframe; [|exact Hd']. by left.
    + intros _ d2 [HB2 Hp2]. assert (keeps (holds_frame [gs]) d2) as HB2' by (eapply keeps_subframe; [|exact HB2]; by left).
      split; [done|]. intros x Hx. apply (holds_extend d2 gs g); try done; [apply HB2; by right|]. intros q Hq. congruence.
  - apply wp_ret. split; [done|]. intros x Hx. apply (holds_extend d1 gs g); try done. congruence.
Qed.

(** A disk from which the old or the new generations are recovered. *)
Definition either (gs : list Generation) (g : Generation) (d : Disk) : Prop :=
  ∃ C, holds C d ∧ ∀ x, x ∈ C → x = gs ∨ succession g gs x.

Lemma either_old gs g d : holds [gs] d → either gs g d.
Proof. intros H. exists [gs]. split; [done|]. intros x ->%list_elem_of_singleton. by left. Qed.
Lemma either_new gs g x d : succession g gs x → holds [x] d → either gs g d.
Proof. intros Hx H. exists [x]. split; [done|]. intros y ->%list_elem_of_singleton. by right. Qed.
Lemma either_both gs g x d : succession g gs x → holds [gs; x] d → either gs g d.
Proof.
  intros Hx H. eexists. split; [done|]. intros y [->| ->%list_elem_of_singleton]%elem_of_cons; [by left|by right].
Qed.

(** Publication replaces the current generation: durably when it succeeds, and wherever it
    stops the old or the new generations are recovered. *)
Lemma wp_publish d gs g :
  holds [gs] d → belongs g → (∀ x, x ∈ gs → id_of g = id_of x → g = x) →
  wp (publish g) (λ _ d', ∃ x, succession g gs x ∧ holds [x] d') (either gs g) d.
Proof.
  intros HC Hbel Hfree. pose proof (either_old gs g) as Hold.
  unfold publish. destruct (Z.ltb_spec MAX_STATE_BYTES (len (encode_generation g))) as [|Hl]; [apply wp_fail; auto|].
  apply wp_bind. eapply wp_mono; [by apply (wp_prune d gs (either gs g))| |done]. intros ? d1 HC1.
  change (hex_digest (encode_generation g)) with (id_of g).
  apply wp_bind. eapply wp_mono; [by apply (wp_publish_files d1 gs g (either gs g))| |done]. intros ? d2 [HC2 HC2'].
  apply wp_bind. eapply wp_peeks; [eapply peeks_manifest; by apply holds_single| |auto]. intros ? <-.
  apply wp_bind. eapply wp_peeks; [eapply (peeks_find [gs] d2 gs g gs); [done|by left|done]| |auto].
  intros ? (o & -> & Ho). assert (succession g gs (g :: option_list o)) as Hx by by exists o.
  replace (id_of g :: option_list (id_of <$> o)) with (ids_of (g :: option_list o)) by by destruct o.
  apply wp_bind. eapply wp_mono; [eapply (wp_publish_manifest _ _ _ (either gs g) (HC2' _ Hx))| |done].
  - right. by left.
  - done.
  - intros d' ?. by eapply either_both.
  - intros ? d3 HC3. eapply wp_mono; [by apply (wp_prune d3 (g :: option_list o) (either gs g)); [|intros; eapply either_new]| |done].
    eauto.
Qed.

End Faulty.

(** *** The system *)

Record candidate (s : System) (gs : list Generation) : Prop := {
  cand_written : gs ⊆ written s;
  cand_empty : gs = [] → acknowledged s = empty_generation;
  cand_newest : misread s = false → newest gs = acknowledged s ∨ newest gs ∈ attempted s
}.
Definition system_inv (s : System) : Prop :=
  ∃ C, holds C (sys_disk s) ∧ (∀ gs, gs ∈ C → candidate s gs) ∧ (handle s = Some false → ∃ gs, C = [gs]).

Lemma belongs_member C d gs g : holds C d → gs ∈ C → g = newest gs ∨ g ∈ gs → belongs g.
Proof.
  intros HC Hin [->|Hg].
  - destruct gs as [|g gs]; [by split_and!|]. destruct (wf_member C d (g :: gs) g HC Hin) as (? & ? & ? & ? & _); [by left|].
    done.
  - by destruct (wf_member C d gs g HC Hin Hg) as (? & ? & ? & ? & _).
Qed.

Lemma loaded_visible C d gs : visible C d gs → loaded d = Some (newest gs).
Proof. intros Hv. unfold loaded. by rewrite (reads_load C d gs Hv). Qed.

Lemma no_misreads rs : some_fail rs = false → rs = [].
Proof. unfold some_fail. by case_bool_decide. Qed.

Lemma initial_inv : system_inv initial.
Proof.
  exists [[]]. split; [split; [split|]|split].
  - intros i [x Hx]. simpl in Hx. by rewrite lookup_empty in Hx.
  - intros p name Q HQ. inversion HQ as [|gs g Hgs Hg|gs g x Hgs Hg Hx]; subst;
      [|apply list_elem_of_singleton in Hgs; subst; by apply elem_of_nil in Hg..].
    split; simpl; [|by intros op o ?%elem_of_nil]. rewrite lookup_empty. simpl. exists []. split; [by left|done].
  - constructor; [|constructor]. split; [simpl; lia|constructor].
  - intros gs ->%list_elem_of_singleton. split; [done|done|by left].
  - done.
Qed.

(** What an operation that publishes nothing leaves. *)
Lemma shrinks_candidate s C d h b gs :
  (∀ gs, gs ∈ C → candidate s gs) → shrinks b C gs →
  candidate (mkSystem d h (acknowledged s) (attempted s) (misread s || b) (written s)) gs.
Proof.
  intros HC [Hin|(-> & Hne & gs' & Hin & Hsub)]; destruct (HC _ Hin) as [Hw He Hn]; split; cbn.
  - done.
  - done.
  - intros [? _]%orb_false_iff. auto.
  - by transitivity gs'.
  - done.
  - by rewrite orb_true_r.
Qed.
Lemma shrunk_inv s C d h b :
  (∀ gs, gs ∈ C → candidate s gs) → shrunk b C d → h ≠ Some false →
  system_inv (mkSystem d h (acknowledged s) (attempted s) (misread s || b) (written s)).
Proof. intros HC (C' & HC' & Hs) Hh. exists C'. split_and!; [done| |done]. intros gs Hgs. by eapply shrinks_candidate; [|apply Hs]. Qed.

Lemma open_inv s now fs rs :
  system_inv s → system_inv (after_open s rs (open_store now (mkWorld (sys_disk s) fs rs))).
Proof.
  intros (C & HC & Hcand & _). destruct (holds_visible _ _ HC) as [gs Hv].
  pose proof (wp_open (some_fail rs) C (sys_disk s) gs now Hv fs rs (no_misreads rs)) as Hwp. unfold after_open.
  destruct (open_store now (mkWorld (sys_disk s) fs rs)) as [[u|e|] w]; destruct Hwp as [_ Hwp];
    [|by eapply shrunk_inv..].
  destruct Hwp as (gs' & HC' & Hs & _). exists [gs']. split_and!; [done| |by eauto].
  intros x ->%list_elem_of_singleton. by eapply shrinks_candidate.
Qed.

(** An operation that left the disk alone. *)
Lemma unchanged_inv s rs g r :
  system_inv s → disk r.2 = sys_disk s → (∀ x, r.1 ≠ Done x) → system_inv (after_write s rs g r).
Proof.
  intros (C & HC & Hcand & Hopen) Hd Hr. destruct r as [o w]. cbn in *. rewrite <- Hd in HC. unfold after_write. cbn.
  destruct o as [x|e|]; [by destruct (Hr x)| |]; exists C; cbn; split_and!; try done; intros gs Hgs;
    destruct (Hcand gs Hgs) as [Hw He Hn]; split; cbn; try done.
  - intros [? _]%orb_false_iff. auto.
  - set_solver.
  - intros [Hm _]%orb_false_iff. rewrite elem_of_cons. destruct (Hn Hm); auto.
Qed.

(** A write that publishes [g]. *)
Lemma publish_inv s g w rs :
  system_inv s → handle s = Some false → disk w = sys_disk s → (some_fail rs = false → read_faults w = []) →
  belongs g → collision_free g (written s) → system_inv (after_write s rs g (attempt (publish g) w)).
Proof.
  intros (C & HC & Hcand & Hopen) Hh Hd Hw Hg Hfree. destruct (Hopen Hh) as (gs & ->).
  destruct (Hcand gs) as [Hwr He Hn]; [by left|].
  assert (∀ x, x ∈ gs → id_of g = id_of x → g = x) as Hfree' by (intros x Hx; apply Hfree; auto).
  pose proof (wp_publish (some_fail rs) (sys_disk s) gs g HC Hg Hfree' (faults w) (read_faults w) Hw) as Hwp.
  replace (mkWorld (sys_disk s) (faults w) (read_faults w)) with w in Hwp by (destruct w; by f_equal).
  unfold attempt. destruct (publish g w) as [o w']. destruct Hwp as [_ Hwp].
  assert (∀ x, succession g gs x → x ⊆ g :: written s) as Hsub.
  { intros x Hx y Hy. destruct (succession_in g gs x y Hx Hy) as [->|]; [by left|right; auto]. }
  assert (∀ h d, h ≠ Some false → either gs g d →
    system_inv (mkSystem d h (acknowledged s) (g :: attempted s) (misread s || some_fail rs) (g :: written s))) as Hcut.
  { intros h d Hne (C' & HC' & Hin). exists C'. split_and!; [done| |done]. intros x [->|Hx]%Hin.
    - split; cbn; [set_solver|done|]. intros [Hm _]%orb_false_iff. rewrite elem_of_cons. destruct (Hn Hm); auto.
    - split; cbn; [auto|by destruct Hx as (? & -> & _)|]. intros _. right. destruct Hx as (? & -> & _). by left. }
  unfold after_write. destruct o as [u|e|]; cbn; [|by apply Hcut..].
  destruct Hwp as (x & Hx & HC'). exists [x]. split_and!; [done| |by eauto].
  intros y ->%list_elem_of_singleton. split; cbn; [auto|by destruct Hx as (? & -> & _)|].
  intros _. left. by destruct Hx as (? & -> & _).
Qed.

(** What a write starts from. *)
Lemma base_member s fs rs :
  system_inv s → handle s = Some false →
  let w := mkWorld (sys_disk s) fs rs in
  match load w with
  | (Done g, w') => disk w' = sys_disk s ∧ (some_fail rs = false → read_faults w' = []) ∧ belongs g
                    ∧ (some_fail rs = false → loaded (sys_disk s) = Some g)
  | (_, w') => disk w' = sys_disk s
  end.
Proof.
  intros (C & HC & Hcand & Hopen) Hh. destruct (Hopen Hh) as (gs & ->). pose proof (holds_single _ _ HC) as Hv. cbn zeta.
  pose proof (peeks_load (some_fail rs) [gs] (sys_disk s) gs Hv fs rs (no_misreads rs)) as Hwp.
  destruct (load (mkWorld (sys_disk s) fs rs)) as [[g|e|] w']; [|by destruct Hwp as (_ & ? & _)..].
  destruct Hwp as (Hr & Hd & Hg). split_and!; [done|done| |].
  - eapply belongs_member; [done|by left|]. destruct Hg as [?|[_ ?]]; auto.
  - intros Hf. rewrite (loaded_visible _ _ _ Hv). destruct Hg as [->|[? _]]; [done|congruence].
Qed.

(** A write under the mutex, once the arguments passed their checks. *)
Lemma write_inv s change fs rs :
  let w := mkWorld (sys_disk s) fs rs in
  system_inv s → handle s = Some false → (∀ g, belongs g → belongs (change g)) →
  collision_free (change (base w)) (written s) →
  system_inv (after_write s rs (change (base w)) (write_locked change w)).
Proof.
  intros w Hs Hh Hg Hfree. pose proof (base_member s fs rs Hs Hh) as Hb. cbn zeta in Hb. fold w in Hb.
  unfold write_locked, mbind, io_bind. unfold base in *. destruct (load w) as [[g|e|] w'].
  - destruct Hb as (Hd & Hr & Hbel & _). by apply publish_inv; auto.
  - by apply unchanged_inv.
  - by apply unchanged_inv.
Qed.

Lemma quiet_snapshot reader now : quiet (read_snapshot reader now).
Proof.
  assert (∀ ids, quiet (first_snapshot reader now ids)) as Hfirst.
  { induction ids as [|id ids IH]; cbn [first_snapshot]; [auto with quiet|]. unfold read_file.
    apply quiet_bind; [auto with quiet|]. intros r. by case_match; auto with quiet. }
  assert (quiet read_manifest) as Hman.
  { unfold read_manifest, read_file. apply quiet_bind; [auto with quiet|]. intros r. repeat case_match; auto with quiet. }
  unfold read_snapshot. generalize 3%nat. induction n as [|n IH]; cbn [read_snapshot_turns]; [auto with quiet|].
  apply quiet_bind; [done|]. intros ids. apply quiet_bind; [done|]. intros o. repeat case_match; auto with quiet.
Qed.

Lemma export_inv s now required fs rs :
  system_inv s → handle s = Some false →
  system_inv (after_export s rs (export_snapshot now false required (mkWorld (sys_disk s) fs rs))).
Proof.
  intros (C & HC & Hcand & Hopen) Hh. destruct (Hopen Hh) as (gs & ->). pose proof (holds_single _ _ HC) as Hv.
  assert (wp (some_fail rs) (export_snapshot now false required) (λ _, holds [gs]) (holds [gs]) (sys_disk s)) as Hwp.
  { unfold export_snapshot. apply wp_bind. eapply wp_mono; [by eapply (wp_sync_committed _ [gs] _ gs (holds [gs]))| |done].
    intros ? d1 Hv1. pose proof Hv1 as (HC1 & _). apply wp_bind. apply wp_quiet; [apply quiet_snapshot| |done].
    intros o. destruct o; [by apply wp_ret|by apply wp_fail]. }
  specialize (Hwp fs rs (no_misreads rs)). unfold after_export.
  destruct (export_snapshot now false required (mkWorld (sys_disk s) fs rs)) as [o w]. destruct Hwp as [_ Hwp].
  assert (holds [gs] (disk w)) as HC' by by destruct o. exists [gs]. split_and!; [done| |eauto].
  intros x Hx. eapply shrinks_candidate; [exact Hcand|by left].
Qed.

Lemma step_inv s s' : step s s' → system_inv s → system_inv s'.
Proof.
  intros Hst Hs. destruct Hst as [s now fs rs Hh|s failed now domains url given snapshot fs rs w g Hh Hval Hfree
    |s failed contacts url a fs rs w g Hh Hfree|s failed now required fs rs Hh|s|s d Hc].
  - by apply open_inv.
  - unfold store_cert, check, mbind, io_bind. destruct failed; [by apply unchanged_inv|].
    case_bool_decide; [|by apply unchanged_inv]. cbn. rewrite Hval.
    apply (write_inv s (with_certificate (pem snapshot))); try done.
  - unfold store_account, check, validate_account, mbind, io_bind. destruct failed; [by apply unchanged_inv|].
    case_bool_decide; [|by apply unchanged_inv]. cbn. destruct (valid_account a) eqn:Ha; [|by apply unchanged_inv].
    apply (write_inv s (with_account a)); try done. intros x (? & ? & ? & ?). split_and!; try done. by intros b [= <-].
  - destruct failed; [|by apply export_inv]. destruct Hs as (C & HC & Hcand & _). exists C. split_and!; [done| |cbn; congruence].
    intros x Hx. eapply shrinks_candidate; [exact Hcand|by left].
  - destruct Hs as (C & HC & Hcand & _). exists C. split_and!; [done| |done]. intros x Hx. by destruct (Hcand x Hx).
  - destruct Hs as (C & [HB Hwf] & Hcand & _). exists C. split_and!; [split; [by eapply keeps_crash|done]| |done].
    intros x Hx. by destruct (Hcand x Hx).
Qed.

Lemma reachable_inv s : reachable s → system_inv s.
Proof.
  revert s. apply (rtc_ind_r system_inv initial); [apply initial_inv|]. intros y z _ Hst Hy. by eapply step_inv.
Qed.

(** A power failure leaves one of the candidates. *)
Lemma reachable_disk s d :
  reachable s → d = sys_disk s ∨ crash (sys_disk s) d →
  ∃ C gs, visible C d gs ∧ (∀ x, x ∈ C → candidate s x)
    ∧ (handle s = Some false → loaded (sys_disk s) = Some (newest gs)).
Proof.
  intros (C & HC & Hcand & Hopen)%reachable_inv Hd.
  assert (holds C d) as HCd.
  { destruct Hd as [->|Hd]; [done|]. destruct HC as [HB Hwf]. split; [by eapply keeps_crash|done]. }
  destruct (holds_visible _ _ HCd) as [gs Hv]. exists C, gs. split_and!; [done|done|]. intros Hh.
  destruct (Hopen Hh) as (gs' & ->). destruct Hv as (_ & ->%list_elem_of_singleton & _).
  exact (loaded_visible _ _ _ (holds_single _ _ HC)).
Qed.

(** A write acknowledged without a failed read changes what the store held. *)
Lemma acknowledged_write s change fs rs :
  let w := mkWorld (sys_disk s) fs rs in
  let s' := after_write s rs (change (base w)) (write_locked change w) in
  system_inv s → handle s = Some false → misread s' = false →
  acknowledged s' = acknowledged s ∨ ∃ g, loaded (sys_disk s) = Some g ∧ acknowledged s' = change g.
Proof.
  intros w s' Hs Hh. pose proof (base_member s fs rs Hs Hh) as Hb. cbn zeta in Hb. fold w in Hb. subst s'.
  unfold write_locked, mbind, io_bind. unfold base in *. destruct (load w) as [[g|e|] w']; [|by left..].
  destruct Hb as (_ & _ & _ & Hl). unfold attempt. destruct (publish (change g) w') as [[u|e|] w'']; cbn; [|by left..].
  intros Hm. right. eauto.
Qed.
Lemma acknowledged_step s s' :
  system_inv s → step s s' → misread s' = false →
  acknowledged s' = acknowledged s
  ∨ ∃ g, loaded (sys_disk s) = Some g
      ∧ ((∃ a, acknowledged s' = with_account a g) ∨ ∃ p, acknowledged s' = with_certificate p g).
Proof.
  intros Hs Hst. destruct Hst as [s now fs rs Hh|s failed now domains url given snapshot fs rs w g Hh Hval Hfree
    |s failed contacts url a fs rs w g Hh Hfree|s failed now required fs rs Hh|s|s d Hc]; try by left.
  - unfold store_cert, check, mbind, io_bind. destruct failed; [by left|]. case_bool_decide; [|by left].
    cbn. rewrite Hval. intros Hm.
    destruct (acknowledged_write s (with_certificate (pem snapshot)) fs rs Hs Hh Hm) as [?|(x & ? & ?)]; [by left|].
    right. exists x. split; [done|]. right. by exists (pem snapshot).
  - unfold store_account, check, validate_account, mbind, io_bind. destruct failed; [by left|].
    case_bool_decide; [|by left]. cbn. destruct (valid_account a); [|by left]. intros Hm.
    destruct (acknowledged_write s (with_account a) fs rs Hs Hh Hm) as [?|(x & ? & ?)]; [by left|].
    right. exists x. split; [done|]. left. by exists a.
Qed.

(** *** Runs without faults *)

Lemma succeeds_sync_existing p name d : is_Some (look d p name) → succeeds (sync_existing p name) d.
Proof.
  intros [i Hi]. unfold sync_existing. eapply (succeeds_after _ _ d i d); [|apply succeeds_sync_inode].
  unfold open_file. rewrite (reads_reading (λ d, ok_or NotFound (look d p name)) d []). by rewrite Hi.
Qed.

Lemma contents_look d p name b : contents d p name = Some b → is_Some (look d p name).
Proof. unfold contents. by destruct (look d p name). Qed.

Lemma succeeds_sync_generation C gs g d :
  keeps (holds_frame C) d → gs ∈ C → g ∈ gs → succeeds (sync_generation (id_of g)) d.
Proof.
  intros HB Hin Hg. pose proof (bound_contents _ _ _ _ (proj2 HB _ _ _ (HoldsGeneration C gs g Hin Hg))) as Hc.
  unfold sync_generation. eapply succeeds_bind.
  - apply succeeds_sync_existing. eapply contents_look. by symmetry.
  - by apply (wp_sync_existing false (holds_frame C) _ _ _ (keeps (holds_frame C))).
  - intros ? d1 [HB1 _]. eapply succeeds_after;
      [apply (reads_reading (λ d, Ok (bool_decide (is_Some (look d Generations (export_name (id_of g))))))) |].
    case_bool_decide; [by apply succeeds_sync_existing|apply succeeds_ret].
Qed.

Lemma succeeds_sync_committed C d gs : visible C d gs → succeeds sync_committed d.
Proof.
  intros Hv. pose proof Hv as ([HB HC] & Hin & _). unfold sync_committed.
  eapply succeeds_after; [by eapply reads_manifest|]. eapply succeeds_bind.
  - apply (succeeds_for_each _ _ (keeps (holds_frame C)) (keeps (holds_frame C))); [done|].
    intros id d1 (g & -> & Hg)%list_elem_of_fmap HB1. split; [by eapply succeeds_sync_generation|].
    eapply wp_mono; [by apply (wp_sync_generation false (holds_frame C) _ _ (keeps (holds_frame C)))| |done].
    intros ? ? [? _]. done.
  - apply (wp_for_each false _ _ (keeps (holds_frame C)) (keeps (holds_frame C))); [done|]. intros id d1 _ HB1.
    eapply wp_mono; [by apply (wp_sync_generation false (holds_frame C) _ _ (keeps (holds_frame C)))| |done].
    intros ? ? [? _]. done.
  - intros ? d1 HB1. eapply succeeds_after; [done|].
    eapply succeeds_after; [apply (reads_reading (λ d, Ok (bool_decide (is_Some (look d Committed CURRENT)))))|].
    apply succeeds_then; [|intros; apply succeeds_sync_directory].
    case_bool_decide; [by apply succeeds_sync_existing|apply succeeds_ret].
Qed.

Lemma succeeds_prune d gs : holds [gs] d → succeeds prune d.
Proof.
  intros HC. pose proof (holds_single _ _ HC) as Hv. unfold prune.
  eapply succeeds_after; [by eapply reads_manifest|].
  eapply succeeds_after; [apply (reads_reading (λ d, Ok (map_to_list (entries (directory d Generations))).*1))|].
  cbv zeta. set (l := List.filter _ _). apply succeeds_then.
  - apply succeeds_remove_all.
    + apply NoDup_ListNoDup, List.NoDup_filter, NoDup_ListNoDup, NoDup_fst_map_to_list.
    + intros n Hn. apply list_elem_of_In, filter_In in Hn as [Hn _]. rewrite <- list_elem_of_In in Hn.
      apply list_elem_of_fmap in Hn as ([k i] & -> & Hk%elem_of_map_to_list). by exists i.
  - intros ? d'. case_bool_decide; [apply succeeds_ret|apply succeeds_sync_directory].
Qed.

Lemma succeeds_open C d now : holds C d → succeeds (open_store now) d.
Proof.
  intros HC. destruct (holds_visible _ _ HC) as [gs Hv]. pose proof Hv as (_ & Hin & _). unfold open_store.
  eapply succeeds_after; [by eapply reads_load|].
  eapply (succeeds_after _ _ d tt d).
  { destruct gs as [|g gs]; [done|]. apply reads_account. eapply wf_member; [done|done|by left]. }
  eapply succeeds_after; [by eapply reads_recover|]. eapply succeeds_bind.
  - by eapply succeeds_sync_committed.
  - by eapply (wp_sync_committed false C d gs (holds C)).
  - intros ? d1 (HC1 & _). by eapply succeeds_prune.
Qed.

Lemma succeeds_publish d gs g :
  holds [gs] d → belongs g → (∀ x, x ∈ gs → id_of g = id_of x → g = x) →
  len (encode_generation g) ≤ MAX_STATE_BYTES → succeeds (publish g) d.
Proof.
  intros HC Hbel Hfree Hl. unfold publish. destruct (Z.ltb_spec MAX_STATE_BYTES (len (encode_generation g))); [lia|].
  change (hex_digest (encode_generation g)) with (id_of g).
  eapply succeeds_bind; [by eapply succeeds_prune|by apply (wp_prune false d gs (holds [gs]))|]. intros ? d1 HC1.
  eapply succeeds_bind; [|by apply (wp_publish_files false d1 gs g (holds [gs]))|].
  { unfold publish_files. apply succeeds_then; [apply succeeds_replace_file|]. intros.
    case_match; [apply succeeds_replace_file|apply succeeds_ret]. }
  intros ? d2 [HC2 HC2']. pose proof (holds_single _ _ HC2) as Hv2.
  eapply succeeds_after; [by eapply reads_manifest|].
  eapply succeeds_after; [eapply reads_find; [exact HC2|by left|done]|]. set (o := head _).
  replace (id_of g :: option_list (id_of <$> o)) with (ids_of (g :: option_list o)) by by destruct o.
  assert (succession g gs (g :: option_list o)) as Hx.
  { exists o. split; [done|]. intros x Hx. subst o. apply head_Some_elem_of, list_elem_of_filter in Hx. by destruct Hx. }
  eapply succeeds_bind; [apply succeeds_replace_file| |].
  - eapply (wp_publish_manifest false _ _ _ (λ _, True) (HC2' _ Hx)); [right; by left|done|done].
  - intros ? d3 HC3. exact (succeeds_prune _ _ HC3).
Qed.

(** ** Properties *)

(** C4: The store never loses an acknowledged write to a failed write, a death or a power
    failure.  Whatever operations failed, reads included, the disk of a run holds a complete
    generation that the store wrote before, also after a power failure, and an open store
    holds it durably.  Unless a read failed since, it is the generation acknowledged last or
    one whose publication was cut short since; and a write acknowledged without a failed
    read changes only its own part of what the store held. *)
Theorem acknowledged_generation_survives s :
  reachable s →
  (∀ d, d = sys_disk s ∨ crash (sys_disk s) d →
     ∃ g, loaded d = Some g
       ∧ (misread s = false → g = acknowledged s ∨ g ∈ attempted s)
       ∧ (g ∈ written s ∨ g = empty_generation ∧ acknowledged s = empty_generation)
       ∧ (handle s = Some false → loaded (sys_disk s) = Some g))
  ∧ ∀ s', step s s' → misread s' = false →
      acknowledged s' = acknowledged s
      ∨ ∃ g, loaded (sys_disk s) = Some g
          ∧ ((∃ a, acknowledged s' = with_account a g) ∨ ∃ p, acknowledged s' = with_certificate p g).
Proof.
  intros Hs. split.
  - intros d Hd. destruct (reachable_disk s d Hs Hd) as (C & gs & Hv & Hcand & Hopen).
    destruct (Hcand gs) as [Hw He Hn]; [by destruct Hv as (_ & ? & _)|]. exists (newest gs).
    split_and!; [by eapply loaded_visible|done| |done]. destruct gs as [|g gs]; [right; auto|left; apply Hw; by left].
  - intros s' Hst Hm. by apply acknowledged_step; [apply reachable_inv|..].
Qed.

(** C26: Recovery always succeeds.  Whatever a run with failed reads and writes and a power
    failure left behind, the store opens when nothing fails any more, keeps the generation
    that the disk held, and then accepts every write that fits; once acknowledged, the write
    survives a power failure. *)
Theorem store_reopens_and_writes s d now :
  reachable s → d = sys_disk s ∨ crash (sys_disk s) d →
  ∃ d1 g, open_store now (mkWorld d [] []) = (Done tt, mkWorld d1 [] [])
    ∧ loaded d = Some g ∧ loaded d1 = Some g
    ∧ ∀ g', belongs g' → collision_free g' (written s) → len (encode_generation g') ≤ MAX_STATE_BYTES →
      ∃ d2, publish g' (mkWorld d1 [] []) = (Done tt, mkWorld d2 [] []) ∧ loaded d2 = Some g'
            ∧ ∀ d3, crash d2 d3 → loaded d3 = Some g'.
Proof.
  intros Hs Hd. destruct (reachable_disk s d Hs Hd) as (C & gs & Hv & Hcand & _). pose proof Hv as (HCd & Hin & _).
  destruct (succeeds_open C d now HCd) as ([] & d1 & Ho).
  pose proof (wp_open false C d gs now Hv [] [] (λ _, eq_refl)) as Hwp.
  rewrite Ho in Hwp. destruct Hwp as (_ & gs' & Hgs & _ & Heq). rewrite (Heq eq_refl) in Hgs.
  destruct (Hcand gs Hin) as [Hwr _ _]. exists d1, (newest gs).
  split_and!; [done|by eapply loaded_visible|exact (loaded_visible _ _ _ (holds_single _ _ Hgs))|].
  intros g' Hbel Hfree Hl.
  assert (∀ x, x ∈ gs → id_of g' = id_of x → g' = x) as Hfree' by (intros x Hx; apply Hfree; auto).
  destruct (succeeds_publish d1 gs g' Hgs Hbel Hfree' Hl) as ([] & d2 & Hp).
  pose proof (wp_publish false d1 gs g' Hgs Hbel Hfree' [] [] (λ _, eq_refl)) as Hwp. rewrite Hp in Hwp.
  destruct Hwp as (_ & x & (o & -> & _) & Hgs2).
  exists d2. split_and!; [done|exact (loaded_visible _ _ _ (holds_single _ _ Hgs2))|]. intros d3 Hc.
  destruct Hgs2 as [HB2 Hwf2]. assert (holds [g' :: option_list o] d3) as Hgs3 by (split; [by eapply keeps_crash|done]).
  exact (loaded_visible _ _ _ (holds_single _ _ Hgs3)).
Qed.

(** A passive reader, which opens only the manifest and the exports, finds the certificate
    of the generation that the disk holds whenever it is valid for the reader's policy. *)
Theorem reader_finds_current_certificate s d g p reader now snapshot :
  reachable s → d = sys_disk s ∨ crash (sys_disk s) d →
  loaded d = Some g → certificate g = Some p → validate reader now p = Some snapshot →
  reads (read_snapshot reader now) d (Ok (Some snapshot)).
Proof.
  intros Hs Hd Hload Hp Hval. destruct (reachable_disk s d Hs Hd) as (C & gs & Hv & _).
  rewrite (loaded_visible _ _ _ Hv) in Hload. injection Hload as Hg. pose proof Hv as (HCd & Hin & _).
  destruct gs as [|x gs]; cbn in Hg; [by subst g|]. subst g. rename x into g.
  assert (g ∈ g :: gs) as Hgin by by left.
  pose proof (bound_contents _ _ _ _ (proj2 (proj1 HCd) _ _ _ (HoldsExport C _ g p Hin Hgin Hp))) as Hc.
  destruct (wf_member C d _ g HCd Hin Hgin) as (_ & _ & _ & _ & Hl). pose proof (encoding_covers g p Hp).
  unfold read_snapshot. cbn [read_snapshot_turns]. eapply reads_bind; [by eapply reads_manifest|].
  cbn [ids_of fmap list_fmap first_snapshot]. eapply reads_bind.
  - eapply reads_bind; [apply reads_attempt, reads_file; [by symmetry|lia]|]. cbv beta iota. rewrite Hval. apply reads_ret.
  - apply reads_ret.
Qed.

End Store.

(** ** Examples *)

Module StoreToy.

(** A codec: a field is its length in unary and its bytes. *)
Definition put (b : bytes) : bytes := replicate (length b) "1"%char ++ "0"%char :: b.
Fixpoint count (s : bytes) : option (nat * bytes) :=
  match s with
  | "1"%char :: s' => '(n, rest) ← count s'; Some (S n, rest)
  | "0"%char :: s' => Some (0%nat, s')
  | _ => None
  end.
Definition get (s : bytes) : option (bytes * bytes) :=
  '(n, rest) ← count s; Some (take n rest, drop n rest).
Definition put_option (o : option bytes) : bytes :=
  match o with Some b => "s"%char :: put b | None => ["n"%char] end.
Definition get_option (s : bytes) : option (option bytes * bytes) :=
  match s with
  | "s"%char :: s' => '(b, rest) ← get s'; Some (Some b, rest)
  | "n"%char :: s' => Some (None, s')
  | _ => None
  end.

Definition encode (g : Generation) : bytes :=
  put (gen_hostname g) ++ put (gen_contact g) ++ put (gen_directory_url g)
  ++ put_option (account g) ++ put_option (certificate g).
Definition decode (s : bytes) : option Generation :=
  '(h, s) ← get s; '(c, s) ← get s; '(u, s) ← get s; '(a, s) ← get_option s; '(p, _) ← get_option s;
  Some (mkGeneration h c u a p).

Definition encode_ids (ids : list bytes) : bytes := List.concat ids.
Definition decode_ids (s : bytes) : option (list bytes) :=
  Some (if 64 <? len s then [take 64 s; drop 64 s] else [s]).

(** Digests that differ by the length of their input. *)
Definition digest (b : bytes) : bytes :=
  let n := Nat.modulo (length b) 64 in replicate n "0"%char ++ replicate (64 - n) "1"%char.

Definition verify (p : bytes) (now : Z) : option (Z * Z * bytes) := Some (0, 1000000, p).
Definition policy : CertificateValidation := mkPolicy 1000 10.
Definition host : bytes := bs "h".
Definition mail : bytes := bs "m".
Definition url : bytes := bs "u".

Lemma get_put b s : get (put b ++ s) = Some (b, s).
Proof.
  assert (∀ n r, count (replicate n "1"%char ++ "0"%char :: r) = Some (n, r)) as Hc.
  { induction n as [|n IH]; intros r; [done|]. simpl. by rewrite IH. }
  unfold get, put. rewrite <- app_assoc. simpl. rewrite Hc. cbn [mbind option_bind].
  by rewrite take_app_length, drop_app_length.
Qed.
Lemma get_put_option o s : get_option (put_option o ++ s) = Some (o, s).
Proof. destruct o as [b|]; [|done]. simpl. by rewrite get_put. Qed.
Lemma decode_encode g : decode (encode g) = Some g.
Proof.
  unfold decode, encode. rewrite <- (app_nil_r (put_option (certificate g))).
  rewrite get_put. cbn [mbind option_bind]. rewrite get_put. cbn [mbind option_bind]. rewrite get_put.
  cbn [mbind option_bind]. rewrite get_put_option. cbn [mbind option_bind]. rewrite get_put_option. by destruct g.
Qed.
Lemma decode_encode_ids ids :
  valid_manifest ids = true → decode_ids (encode_ids ids) = Some ids ∧ len (encode_ids ids) ≤ 512.
Proof.
  unfold valid_manifest. rewrite !andb_true_iff. intros [[Hne Hlen] Hids]. apply Z.leb_le in Hlen.
  assert (∀ id, id ∈ ids → length id = 64%nat) as H64.
  { intros id Hid. rewrite forallb_forall in Hids. apply list_elem_of_In, Hids in Hid. unfold valid_id in Hid.
    apply andb_true_iff in Hid as [Hid%Z.eqb_eq _]. unfold len in Hid. lia. }
  unfold decode_ids, encode_ids. destruct ids as [|a [|b [|c ids]]].
  - done.
  - simpl. rewrite app_nil_r. pose proof (H64 a ltac:(by left)) as Ha. unfold len. rewrite Ha. done.
  - cbn [List.concat]. rewrite app_nil_r. pose proof (H64 a ltac:(by left)) as Ha.
    pose proof (H64 b ltac:(right; by left)) as Hb. assert (len (a ++ b) = 128) as Hl by (unfold len; rewrite length_app; lia). rewrite Hl. cbn [Z.ltb Z.compare].
    rewrite <- Ha at 1 2. rewrite take_app_length, drop_app_length. split; [done|lia].
  - unfold len in Hlen. simpl in Hlen. lia.
Qed.
Lemma digest_hex b : valid_id (digest b) = true.
Proof.
  unfold valid_id, digest, len. pose proof (Nat.mod_upper_bound (length b) 64 ltac:(done)).
  rewrite length_app, !length_replicate. apply andb_true_iff. split; [apply Z.eqb_eq; lia|].
  rewrite forallb_app. apply andb_true_iff. split; apply forallb_forall; intros x Hx;
    apply list_elem_of_In, elem_of_replicate in Hx as [-> _]; done.
Qed.
Lemma encoding_covers g p : certificate g = Some p → len p ≤ len (encode g).
Proof. intros Hp. unfold len, encode. rewrite Hp, !length_app. simpl. unfold put at 4. rewrite length_app. simpl. lia. Qed.

Definition system_step := step host mail url policy digest encode decode encode_ids decode_ids verify Some (λ _, true).
Definition open_at (s : System) (fs : list Fault) (reads : list bool) : System :=
  after_open s reads
    (open_store host mail url policy digest decode encode_ids decode_ids verify Some (λ _, true) 5
       (mkWorld (sys_disk s) fs reads)).
Definition toy_base (s : System) (fs : list Fault) : Generation :=
  base host mail url digest decode decode_ids (λ _, true) (mkWorld (sys_disk s) fs []).
Definition account_at (s : System) (a : bytes) (fs : list Fault) : System :=
  after_write s [] (with_account a (toy_base s fs))
    (store_account host mail url digest encode decode encode_ids decode_ids (λ _, true) false [mail] url a
       (mkWorld (sys_disk s) fs [])).
Definition cert_at (s : System) (p : bytes) (fs : list Fault) : System :=
  after_write s [] (with_certificate p (toy_base s fs))
    (store_cert host mail url policy digest encode decode encode_ids decode_ids verify Some (λ _, true) 5 false [host] url p
       (mkWorld (sys_disk s) fs [])).
Definition loads (d : Disk) : option Generation := loaded host mail url digest decode decode_ids (λ _, true) d.

(** An account and a certificate were stored, then the process exited. *)
Definition opened : System := open_at (initial host mail url) [] [].
Definition with_key : System := account_at opened (bs "key") [].
Definition with_cert : System := cert_at with_key (bs "cert") [].
Definition restarted : System := stopped with_cert (sys_disk with_cert).

(** Two reads of the current generation fail at the next opening, one in [load] and one in
    [recover_manifest]. *)
Definition misread_open : System := open_at restarted [] [false; true; false; false; true; false].

End StoreToy.

Lemma store_toy_reachable :
  reachable StoreToy.host StoreToy.mail StoreToy.url StoreToy.policy StoreToy.digest StoreToy.encode StoreToy.decode
    StoreToy.encode_ids StoreToy.decode_ids StoreToy.verify Some (λ _, true) StoreToy.restarted.
Proof.
  eapply rtc_l; [exact (StepOpen _ _ _ _ _ _ _ _ _ _ _ _ (initial StoreToy.host StoreToy.mail StoreToy.url) 5 [] [] eq_refl)|].
  change (after_open _ _ _) with StoreToy.opened.
  eapply rtc_l.
  { eapply (StepAccount _ _ _ _ _ _ _ _ _ _ _ _ StoreToy.opened false [StoreToy.mail] StoreToy.url (bs "key") [] []);
      [vm_compute; reflexivity|]. intros g' Hg'. vm_compute in Hg'. by apply elem_of_nil in Hg'. }
  change (after_write _ _ _ _) with StoreToy.with_key.
  eapply rtc_l.
  { eapply (StepCert _ _ _ _ _ _ _ _ _ _ _ _ StoreToy.with_key false 5 [StoreToy.host] StoreToy.url (bs "cert")
      (mkSnapshot (bs "cert") 0 1000000000 (bs "cert")) [] []); [vm_compute; reflexivity|vm_compute; reflexivity|].
    intros g' Hg'. replace (written StoreToy.with_key) with [acknowledged StoreToy.with_key] in Hg'
      by (vm_compute; reflexivity). apply list_elem_of_singleton in Hg' as ->. vm_compute. done. }
  change (after_write _ _ _ _) with StoreToy.with_cert.
  apply rtc_once. exact (StepExit _ _ _ _ _ _ _ _ _ _ _ _ StoreToy.with_cert).
Qed.

Lemma acknowledged_generation_survives_witness :
  ∃ g, StoreToy.loads (sys_disk StoreToy.restarted) = Some g
       ∧ (g = acknowledged StoreToy.restarted ∨ g ∈ attempted StoreToy.restarted).
Proof.
  destruct (acknowledged_generation_survives StoreToy.host StoreToy.mail StoreToy.url StoreToy.policy StoreToy.digest
    StoreToy.encode StoreToy.decode StoreToy.encode_ids StoreToy.decode_ids StoreToy.verify Some (λ _, true)
    StoreToy.decode_encode StoreToy.decode_encode_ids StoreToy.digest_hex StoreToy.encoding_covers StoreToy.restarted
    store_toy_reachable) as [Hd _].
  destruct (Hd (sys_disk StoreToy.restarted) (or_introl eq_refl)) as (g & Hl & Hg & _). exists g. split; [exact Hl|].
  apply Hg. vm_compute. reflexivity.
Defined.

Lemma store_reopens_and_writes_witness :
  ∃ d1 g, open_store StoreToy.host StoreToy.mail StoreToy.url StoreToy.policy StoreToy.digest StoreToy.decode
            StoreToy.encode_ids StoreToy.decode_ids StoreToy.verify Some (λ _, true) 5
            (mkWorld (sys_disk StoreToy.restarted) [] []) = (Done tt, mkWorld d1 [] [])
          ∧ StoreToy.loads (sys_disk StoreToy.restarted) = Some g ∧ StoreToy.loads d1 = Some g.
Proof.
  destruct (store_reopens_and_writes StoreToy.host StoreToy.mail StoreToy.url StoreToy.policy StoreToy.digest
    StoreToy.encode StoreToy.decode StoreToy.encode_ids StoreToy.decode_ids StoreToy.verify Some (λ _, true)
    StoreToy.decode_encode StoreToy.decode_encode_ids StoreToy.digest_hex StoreToy.encoding_covers StoreToy.restarted
    (sys_disk StoreToy.restarted) 5 store_toy_reachable (or_introl eq_refl)) as (d1 & g & Ho & Hl & Hl1 & _).
  exists d1, g. split; [exact Ho|split; [exact Hl|exact Hl1]].
Defined.

Lemma reader_finds_current_certificate_witness :
  reads (read_snapshot StoreToy.decode_ids StoreToy.verify Some StoreToy.policy 5)
    (sys_disk StoreToy.restarted) (Ok (Some (mkSnapshot (bs "cert") 0 1000000000 (bs "cert")))).
Proof.
  refine (reader_finds_current_certificate StoreToy.host StoreToy.mail StoreToy.url StoreToy.policy StoreToy.digest
    StoreToy.encode StoreToy.decode StoreToy.encode_ids StoreToy.decode_ids StoreToy.verify Some (λ _, true)
    StoreToy.decode_encode StoreToy.decode_encode_ids StoreToy.digest_hex StoreToy.encoding_covers StoreToy.restarted
    (sys_disk StoreToy.restarted) (acknowledged StoreToy.restarted) (bs "cert") StoreToy.policy 5 _ store_toy_reachable
    (or_introl eq_refl) _ _ _); vm_compute; reflexivity.
Defined.

(** A read error while the store opens is taken for a corrupt generation.  Two failed reads
    of the current generation, in [load] and in [recover_manifest], and the open succeeds on
    the prior one, publishes a manifest without the current one and deletes its files: the
    acknowledged certificate is gone although nothing was missing or corrupt.  So the
    condition on failed reads in [acknowledged_generation_survives] is needed. *)
Theorem read_error_discards_generation :
  StoreToy.system_step StoreToy.restarted StoreToy.misread_open
  ∧ certificate (acknowledged StoreToy.restarted) = Some (bs "cert")
  ∧ StoreToy.loads (sys_disk StoreToy.restarted) = Some (acknowledged StoreToy.restarted)
  ∧ handle StoreToy.misread_open = Some false ∧ misread StoreToy.misread_open = true
  ∧ ∃ g, StoreToy.loads (sys_disk StoreToy.misread_open) = Some g ∧ certificate g = None.
Proof.
  split; [exact (StepOpen _ _ _ _ _ _ _ _ _ _ _ _ StoreToy.restarted 5 [] [false; true; false; false; true; false] eq_refl)|].
  split; [vm_compute; reflexivity|]. split; [vm_compute; reflexivity|]. split; [vm_compute; reflexivity|].
  split; [vm_compute; reflexivity|]. exists (acknowledged StoreToy.with_key). split; vm_compute; reflexivity.
Qed.
