(* ===== verification/CertController.v ===== *)
(** * CertController: the Server's certificate controller

    [src/server_certificate/controller.rs] with [validate_version] of
    [src/server_certificate/route.rs]: who serves which certificate, who drives ACME, and
    when the controller gives up.

    One task runs the controller: [run] polls [drive] and, every 100 ms, its watchdog.  The
    two share the task, so the watchdog only runs while [drive] is at an await.  The public
    operations ([install_snapshot], [request_ownership], [challenge_route_lost]) and the TLS
    resolvers run on other threads; every step below accesses the shared state once, under
    its mutex or through one atomic, and steps of different threads interleave freely.

    The ACME client, the route observer, the store and the OS lock answer with any value:
    their answers are the inputs of the steps.  The wall clock may move in both directions,
    the monotonic one only forward. *)

From Stdlib Require Import String Ascii ZArith Lia.
From stdpp Require Import base strings numbers list.
From S2P Require Import Prelude Disk CertStore.

Open Scope Z_scope.

(** ** Data *)

(** What the challenge resolver answers with: the proof of a route request, or the
    challenges of the ACME client. *)
Inductive Challenge := RouteProof (fingerprint : bytes) | AcmeResolver.

(** [State]; of the open store only its presence is kept. *)
Record State := mkState {
  snapshot : option CertificateSnapshot;
  challenge : option Challenge;
  owner : bool;
  driving : bool;
  maintenance : bool;
  route_version : option bytes;
  failure : option bytes;
  store : bool;
  recovery_started : option Z;
  failed_renewal_fingerprint : option bytes
}.

(** The two events of the ACME client that [activate] tells apart from the others. *)
Inductive Event := DeployedCachedCert | CertCacheStore | OtherEvent | FailedOrEnded.

(** An accepted observation: the fingerprint of the proof, the one observed, the version. *)
Record Evidence := mkEvidence { proof : bytes; observed : bytes; version : bytes }.

(** Where a snapshot is installed from: on opening the store, on the first deployment, on a
    renewal. *)
Inductive Installing := First | Deployed (e : Evidence) | Renewed (e : Evidence).

(** Where [drive], [activate] and [drive_active] stand. *)
Inductive Drive :=
| NotStarted
| Top
| Idle
| Acquire
| Open
| Import
| ReadFirst
| Keep
| Prove
| Publish (p : bytes)
| Observe (p : bytes)
| Start (e : Evidence)
| LoopHead (e : Evidence)
| Select (e : Evidence)
| Woken (e : Evidence)
| ReadDeployed (e : Evidence) (stored : bool)
| Clear (e : Evidence) (stored : bool) (s : CertificateSnapshot)
| Install (k : Installing) (s : CertificateSnapshot)
| Commit (k : Installing) (s : CertificateSnapshot)
| ActiveHead (e : Evidence)
| ActiveSelect (e : Evidence)
| ActiveWoken (e : Evidence)
| ReadRenewed (e : Evidence)
| ClearRenewed (e : Evidence)
| RenewalFailed
| Cleanup
| Retry
| Finished.

(** Where the watchdog stands: asleep; the status read; the recovery clock to be read;
    entering maintenance. *)
Inductive Watch := Asleep | Seen (serving expires : bool) | AskRecovery | Entering (reason : bytes).

(** The controller: the fields of [Controller], the task of [run], the lock it acquired
    ([PROCESS_OWNERS] keeps it until the process exits, also when the task has ended), the
    callers inside the public operations (those that signalled a loss and have
    not taken the mutex, those that set the recovery clock and not yet [requested], and the
    snapshots validated and not yet installed) and the two clocks, in milliseconds.
    [losses] counts the losses signalled and [proved_at] those signalled when the current
    proof was made; the code has neither. *)
Record Controller := mkController {
  st : State;
  requested : bool;
  route_lost : bool;
  running : bool;
  notify : bool;
  ready : bool;
  drive : Drive;
  held : bool;
  watch : Watch;
  losing : nat;
  requesting : nat;
  pending : list CertificateSnapshot;
  wall : Z;
  mono : Z;
  losses : nat;
  proved_at : nat
}.

(** ** Updates *)

Definition set_snapshot (o : option CertificateSnapshot) (s : State) : State :=
  mkState o (challenge s) (owner s) (driving s) (maintenance s) (route_version s) (failure s) (store s)
    (recovery_started s) (failed_renewal_fingerprint s).
Definition set_challenge (o : option Challenge) (s : State) : State :=
  mkState (snapshot s) o (owner s) (driving s) (maintenance s) (route_version s) (failure s) (store s)
    (recovery_started s) (failed_renewal_fingerprint s).
Definition set_driving (b : bool) (s : State) : State :=
  mkState (snapshot s) (challenge s) (owner s) b (maintenance s) (route_version s) (failure s) (store s)
    (recovery_started s) (failed_renewal_fingerprint s).
Definition set_route_version (o : option bytes) (s : State) : State :=
  mkState (snapshot s) (challenge s) (owner s) (driving s) (maintenance s) o (failure s) (store s)
    (recovery_started s) (failed_renewal_fingerprint s).
Definition set_failure (o : option bytes) (s : State) : State :=
  mkState (snapshot s) (challenge s) (owner s) (driving s) (maintenance s) (route_version s) o (store s)
    (recovery_started s) (failed_renewal_fingerprint s).
Definition set_owner (s : State) : State :=
  mkState (snapshot s) (challenge s) true (driving s) (maintenance s) (route_version s) (failure s) (store s)
    (recovery_started s) (failed_renewal_fingerprint s).
Definition set_maintenance (s : State) : State :=
  mkState (snapshot s) (challenge s) (owner s) (driving s) true (route_version s) (failure s) (store s)
    (recovery_started s) (failed_renewal_fingerprint s).
Definition set_store (b : bool) (s : State) : State :=
  mkState (snapshot s) (challenge s) (owner s) (driving s) (maintenance s) (route_version s) (failure s) b
    (recovery_started s) (failed_renewal_fingerprint s).
Definition set_recovery (o : option Z) (s : State) : State :=
  mkState (snapshot s) (challenge s) (owner s) (driving s) (maintenance s) (route_version s) (failure s) (store s)
    o (failed_renewal_fingerprint s).
Definition set_failed (o : option bytes) (s : State) : State :=
  mkState (snapshot s) (challenge s) (owner s) (driving s) (maintenance s) (route_version s) (failure s) (store s)
    (recovery_started s) o.

(** [recovery_started.get_or_insert_with(now)] *)
Definition start_recovery (now : Z) (s : State) : State :=
  set_recovery (Some (default now (recovery_started s))) s.

Definition with_state (f : State → State) (c : Controller) : Controller :=
  mkController (f (st c)) (requested c) (route_lost c) (running c) (notify c) (ready c) (drive c) (held c) (watch c)
    (losing c) (requesting c) (pending c) (wall c) (mono c) (losses c) (proved_at c).
Definition with_requested (n : nat) (c : Controller) : Controller :=
  mkController (st c) true (route_lost c) (running c) true (ready c) (drive c) (held c) (watch c)
    (losing c) n (pending c) (wall c) (mono c) (losses c) (proved_at c).
Definition with_requesting (n : nat) (c : Controller) : Controller :=
  mkController (st c) (requested c) (route_lost c) (running c) (notify c) (ready c) (drive c) (held c) (watch c)
    (losing c) n (pending c) (wall c) (mono c) (losses c) (proved_at c).
Definition with_losing (n : nat) (c : Controller) : Controller :=
  mkController (st c) (requested c) (route_lost c) (running c) (notify c) (ready c) (drive c) (held c) (watch c)
    n (requesting c) (pending c) (wall c) (mono c) (losses c) (proved_at c).
Definition with_pending (l : list CertificateSnapshot) (c : Controller) : Controller :=
  mkController (st c) (requested c) (route_lost c) (running c) (notify c) (ready c) (drive c) (held c) (watch c)
    (losing c) (requesting c) l (wall c) (mono c) (losses c) (proved_at c).
Definition with_drive (d : Drive) (c : Controller) : Controller :=
  mkController (st c) (requested c) (route_lost c) (running c) (notify c) (ready c) d (held c) (watch c)
    (losing c) (requesting c) (pending c) (wall c) (mono c) (losses c) (proved_at c).
Definition with_watch (w : Watch) (c : Controller) : Controller :=
  mkController (st c) (requested c) (route_lost c) (running c) (notify c) (ready c) (drive c) (held c) w
    (losing c) (requesting c) (pending c) (wall c) (mono c) (losses c) (proved_at c).
Definition with_notify (b : bool) (c : Controller) : Controller :=
  mkController (st c) (requested c) (route_lost c) (running c) b (ready c) (drive c) (held c) (watch c)
    (losing c) (requesting c) (pending c) (wall c) (mono c) (losses c) (proved_at c).
Definition with_ready (b : bool) (c : Controller) : Controller :=
  mkController (st c) (requested c) (route_lost c) (running c) (notify c) b (drive c) (held c) (watch c)
    (losing c) (requesting c) (pending c) (wall c) (mono c) (losses c) (proved_at c).
Definition with_held (c : Controller) : Controller :=
  mkController (st c) (requested c) (route_lost c) (running c) (notify c) (ready c) (drive c) true (watch c)
    (losing c) (requesting c) (pending c) (wall c) (mono c) (losses c) (proved_at c).
Definition with_running (c : Controller) : Controller :=
  mkController (st c) (requested c) (route_lost c) true (notify c) (ready c) (drive c) (held c) (watch c)
    (losing c) (requesting c) (pending c) (wall c) (mono c) (losses c) (proved_at c).
Definition with_clocks (w m : Z) (c : Controller) : Controller :=
  mkController (st c) (requested c) (route_lost c) (running c) (notify c) (ready c) (drive c) (held c) (watch c)
    (losing c) (requesting c) (pending c) w m (losses c) (proved_at c).
(** [route_lost.store(true)], counted, and [route_lost.store(false)] for a new proof. *)
Definition signal_loss (c : Controller) : Controller :=
  mkController (st c) (requested c) true (running c) (notify c) (ready c) (drive c) (held c) (watch c)
    (S (losing c)) (requesting c) (pending c) (wall c) (mono c) (S (losses c)) (proved_at c).
Definition reset_loss (c : Controller) : Controller :=
  mkController (st c) (requested c) false (running c) (notify c) (ready c) (drive c) (held c) (watch c)
    (losing c) (requesting c) (pending c) (wall c) (mono c) (losses c) (losses c).

(** ** Operations *)

Definition MAX_VERSION_BYTES : Z := 128.
Definition is_version_byte (b : ascii) : bool := is_ascii_alphanumeric b || existsb (Ascii.eqb b) (bs "-_.:").
(** [validate_version] *)
Definition validate_version (v : bytes) : bool :=
  negb (bool_decide (v = [])) && (len v <=? MAX_VERSION_BYTES) && forallb is_version_byte v.

(** [usable] *)
Definition usable (policy : CertificateValidation) (now : Z) (s : State) : bool :=
  negb (maintenance s) &&
  match snapshot s with
  | None => false
  | Some s => (valid_from s <=? now) && (now <=? expires_at s) && (safety_margin policy <? expires_at s - now)
  end.

(** [ServerCertificateController::new], from the policy's deadlines and what
    [CertificateStore::read_snapshot] returned. *)
Definition controller_new (recovery_timeout retry_interval : Z) (on_start : bool)
    (committed : result IoError (option CertificateSnapshot)) (w m : Z) : result IoError Controller :=
  _ ← reject_if ((recovery_timeout =? 0) || (retry_interval =? 0)) OtherError;
  let '(s, f) := match committed with
                 | Ok s => (s, None)
                 | Err _ => (None, Some (bs "committed serving snapshot unavailable"))
                 end in
  Ok (mkController (mkState s None false false false None f false (if on_start then Some m else None) None)
        on_start false false false (bool_decide (is_Some s)) NotStarted false Asleep 0 0 [] w m 0 0).

(** What a caller may do, and what the awaits of the task return. *)
Inductive Action :=
| InstallSnapshot (given : bytes)
| InstallLocked (i : nat)
| RequestOwnership
| RequestStored
| RouteLostSignal
| RouteLostLocked
| Run
| Cancel
| Advance (w m : Z)
| Watchdog
| Continue
| Acquired (r : result IoError bool)
| Opened (ok : bool)
| Imported (ok : bool)
| Durable (o : option CertificateSnapshot)
| Proved (o : option bytes)
| Observed (o : option (bytes * bytes))
| Acme (e : Event)
| RetryElapsed.

(** [drive] is at an await, where the task may run the watchdog or be dropped. *)
Definition awaiting (d : Drive) : bool :=
  match d with
  | Idle | Acquire | Open | Import | ReadFirst | Observe _ | Select _ | ReadDeployed _ _
  | ActiveSelect _ | ReadRenewed _ | Retry => true
  | _ => false
  end.

Definition fail_with (reason : bytes) (d : Drive) (c : Controller) : next Controller :=
  Steps (with_drive d (with_state (set_failure (Some reason)) c)).

(** Where a failed installation returns to, and where a successful one continues. *)
Definition refused (k : Installing) : Drive := match k with Renewed _ => RenewalFailed | _ => Cleanup end.
Definition installed (k : Installing) : Drive :=
  match k with First => Keep | Deployed e => ActiveHead e | Renewed e => ClearRenewed e end.

Section Controller.
Context (policy : CertificateValidation) (recovery_timeout : Z).
Context (verify_material : bytes → Z → option (Z * Z * bytes)) (key_pem : bytes → option bytes).

Definition revalidate (now : Z) (given : bytes) : option CertificateSnapshot :=
  CertificateSnapshot_validate verify_material key_pem policy now given.

(** [ServerCertificateStatus] and [status]. *)
Record Status := mkStatus {
  serving : bool;
  owns_acme : bool;
  driving_acme : bool;
  in_maintenance : bool;
  status_fingerprint : option bytes;
  status_expires_at : option Z;
  status_route_version : option bytes;
  status_failure : option bytes
}.
Definition status (c : Controller) : Status :=
  let s := st c in
  mkStatus (usable policy (wall c) s) (owner s) (driving s) (maintenance s) (fingerprint <$> snapshot s)
    (expires_at <$> snapshot s) (route_version s) (failure s).

(** The part of [install_snapshot] under the mutex. *)
Definition install_locked (s : CertificateSnapshot) (c : Controller) : option Controller :=
  if maintenance (st c) then None else Some (with_ready true (with_state (set_snapshot (Some s)) c)).

(** [request_ownership] up to its atomic store. *)
Definition arm_recovery (now : Z) (s : State) : State :=
  if negb (driving s) && bool_decide (recovery_started s = None) then set_recovery (Some now) s else s.
Definition request_ownership (c : Controller) : Controller :=
  with_requesting (S (requesting c)) (with_state (arm_recovery (mono c)) c).

(** [challenge_route_lost] after its atomic store: the mutex is held until the end. *)
Definition route_lost_locked (n : nat) (c : Controller) : Controller :=
  with_losing n (with_notify true (with_state (λ s,
    start_recovery (mono c) (set_route_version None (set_driving false (set_challenge None s)))) c)).

(** [maintenance] *)
Definition enter_maintenance (reason : bytes) (c : Controller) : Controller :=
  with_ready false (with_state (λ s,
    set_failure (Some reason) (set_driving false (set_challenge None (set_maintenance s)))) c).

(** The end of [run]: [drive] and then [Running] are dropped. *)
Definition drop_running (c : Controller) : Controller :=
  with_watch Asleep (with_drive Finished (with_state (λ s, set_driving false (set_challenge None s)) c)).

(** The watchdog of [run]. *)
Definition watchdog (c : Controller) : next Controller :=
  match watch c with
  | Asleep =>
      if awaiting (drive c)
      then Steps (with_watch (Seen (serving (status c)) (bool_decide (is_Some (status_expires_at (status c))))) c)
      else Disabled
  | Seen serving expires =>
      let c := with_ready serving c in
      Steps (with_watch (if expires && negb serving then Entering (bs "certificate safety deadline reached")
                         else AskRecovery) c)
  | AskRecovery =>
      let overdue := match recovery_started (st c) with
                     | Some started => recovery_timeout <=? mono c - started
                     | None => false
                     end in
      Steps (with_watch (if overdue then Entering (bs "certificate takeover recovery deadline reached")
                         else Asleep) c)
  | Entering reason => Steps (drop_running (enter_maintenance reason c))
  end.

(** The state of [drive] after a failed activation. *)
Definition cleanup (now : Z) (s : State) : State :=
  start_recovery now
    (set_failure (Some (default (bs "certificate activation failed") (failure s)))
      (set_route_version None (set_store false (set_driving false (set_challenge None s))))).

(** The recovery clock on a deployment event of [activate]. *)
Definition settle (stored : bool) (fp : bytes) (s : State) : State :=
  if stored || negb (bool_decide (failed_renewal_fingerprint s = Some fp))
  then set_failed None (set_recovery None s) else s.

(** A step of [activate]. *)
Definition activate_step (c : Controller) (a : Action) : next Controller :=
  match drive c, a with
  | Acquire, Acquired (Ok true) => Steps (with_drive Open (with_held (with_state set_owner c)))
  | Acquire, Acquired (Ok false) => fail_with (bs "certificate owner is still running") Cleanup c
  | Acquire, Acquired (Err _) => Steps (with_drive Cleanup c)
  | Open, Opened true => Steps (with_drive Import c)
  | Open, Opened false => fail_with (bs "certificate storage unavailable") Cleanup c
  | Import, Imported ok => Steps (with_drive (if ok then ReadFirst else Cleanup) c)
  | ReadFirst, Durable (Some s) => Steps (with_drive (Install First s) c)
  | ReadFirst, Durable None => Steps (with_drive Keep c)
  | Keep, Continue => Steps (with_drive Prove (with_state (set_store true) c))
  | Prove, Proved (Some p) => Steps (with_drive (Publish p) (reset_loss c))
  | Prove, Proved None => Steps (with_drive Cleanup c)
  | Publish p, Continue => Steps (with_drive (Observe p) (with_state (set_challenge (Some (RouteProof p))) c))
  | Observe p, Observed None => fail_with (bs "challenge route not consumed") Cleanup c
  | Observe p, Observed (Some (q, v)) =>
      Steps (with_drive (if validate_version v && bool_decide (q = p) && negb (route_lost c)
                         then Start (mkEvidence p q v) else Cleanup) c)
  | Start e, Continue =>
      Steps (with_drive (LoopHead e) (with_state (λ s,
        set_failure None (set_route_version (Some (version e))
          (set_driving true (set_challenge (Some AcmeResolver) s)))) c))
  | LoopHead e, Continue => Steps (with_drive (if route_lost c then Cleanup else Select e) c)
  | Select e, Continue => if notify c then Steps (with_drive (Woken e) (with_notify false c)) else Disabled
  | Select e, Acme ev =>
      if notify c then Disabled else
      match ev with
      | DeployedCachedCert => Steps (with_drive (ReadDeployed e false) c)
      | CertCacheStore => Steps (with_drive (ReadDeployed e true) c)
      | OtherEvent => Steps (with_drive (LoopHead e) c)
      | FailedOrEnded => fail_with (bs "ACME acquisition or persistence failed") Cleanup c
      end
  | Woken e, Continue => Steps (with_drive (if route_lost c then Cleanup else LoopHead e) c)
  | ReadDeployed e stored, Durable (Some s) => Steps (with_drive (Clear e stored s) c)
  | ReadDeployed e stored, Durable None => Steps (with_drive Cleanup c)
  | Clear e stored s, Continue =>
      Steps (with_drive (Install (Deployed e) s) (with_state (settle stored (fingerprint s)) c))
  | RenewalFailed, Continue =>
      Steps (with_drive Cleanup (with_state (λ s, set_failed (fingerprint <$> snapshot s) s) c))
  | _, _ => Disabled
  end.

(** A step of [install_snapshot], called by the task. *)
Definition install_step (c : Controller) (a : Action) : next Controller :=
  match drive c, a with
  | Install k s, Continue =>
      Steps (with_drive (match revalidate (wall c) (pem s) with Some s' => Commit k s' | None => refused k end) c)
  | Commit k s, Continue =>
      match install_locked s c with
      | Some c' => Steps (with_drive (installed k) c')
      | None => Steps (with_drive (refused k) c)
      end
  | _, _ => Disabled
  end.

(** A step of [drive_active]. *)
Definition active_step (c : Controller) (a : Action) : next Controller :=
  match drive c, a with
  | ActiveHead e, Continue => Steps (with_drive (if route_lost c then Cleanup else ActiveSelect e) c)
  | ActiveSelect e, Continue =>
      if notify c then Steps (with_drive (ActiveWoken e) (with_notify false c)) else Disabled
  | ActiveSelect e, Acme ev =>
      if notify c then Disabled else
      match ev with
      | CertCacheStore => Steps (with_drive (ReadRenewed e) c)
      | DeployedCachedCert | OtherEvent => Steps (with_drive (ActiveHead e) c)
      | FailedOrEnded => fail_with (bs "ACME renewal or persistence failed") RenewalFailed c
      end
  | ActiveWoken e, Continue => Steps (with_drive (if route_lost c then Cleanup else ActiveHead e) c)
  | ReadRenewed e, Durable (Some s) => Steps (with_drive (Install (Renewed e) s) c)
  | ReadRenewed e, Durable None => Steps (with_drive RenewalFailed c)
  | ClearRenewed e, Continue =>
      Steps (with_drive (ActiveHead e) (with_state (λ s, set_failed None (set_recovery None s)) c))
  | _, _ => Disabled
  end.

(** A step of [drive]. *)
Definition drive_step (c : Controller) (a : Action) : next Controller :=
  match drive c with
  | Top | Idle | Cleanup | Retry =>
      match drive c, a with
      | Top, Continue =>
          Steps (with_drive (if requested c then (if held c then Open else Acquire) else Idle) c)
      | Idle, Continue => if notify c then Steps (with_drive Top (with_notify false c)) else Disabled
      | Cleanup, Continue => Steps (with_drive Retry (with_state (cleanup (mono c)) c))
      | Retry, RetryElapsed => Steps (with_drive Top c)
      | _, _ => Disabled
      end
  | Install _ _ | Commit _ _ => install_step c a
  | ActiveHead _ | ActiveSelect _ | ActiveWoken _ | ReadRenewed _ | ClearRenewed _ => active_step c a
  | _ => activate_step c a
  end.

Definition exec (c : Controller) (a : Action) : next Controller :=
  match a with
  | InstallSnapshot given =>
      match revalidate (wall c) given with
      | Some s => Steps (with_pending (pending c ++ [s]) c)
      | None => Steps c
      end
  | InstallLocked i =>
      match pending c !! i with
      | Some s => let c := with_pending (delete i (pending c)) c in
                  match install_locked s c with Some c' => Steps c' | None => Steps c end
      | None => Disabled
      end
  | RequestOwnership => Steps (request_ownership c)
  | RequestStored => match requesting c with S n => Steps (with_requested n c) | O => Disabled end
  | RouteLostSignal => Steps (signal_loss c)
  | RouteLostLocked => match losing c with S n => Steps (route_lost_locked n c) | O => Disabled end
  | Run => if running c then Steps c else Steps (with_drive Top (with_running c))
  | Cancel => match watch c with
              | Asleep => if awaiting (drive c) then Steps (drop_running c) else Disabled
              | _ => Disabled
              end
  | Advance w m => if mono c <=? m then Steps (with_clocks w m c) else Disabled
  | Watchdog => watchdog c
  | _ => match watch c with Asleep => drive_step c a | _ => Disabled end
  end.

(** ** TLS resolvers *)

Record Hello := mkHello { server_name : option bytes; alpn : option (list bytes) }.
Inductive Answer := Serves (s : CertificateSnapshot) | Proves (fingerprint : bytes) | Challenged.
Definition ACME_TLS_ALPN : bytes := bs "acme-tls/1".

Section Resolver.
Context (hostname : bytes) (is_tls_alpn_challenge acme_answers : Hello → bool).

(** [Resolver::resolve] *)
Definition resolve (for_challenge : bool) (h : Hello) (c : Controller) : option Answer :=
  if negb (bool_decide (server_name h = Some hostname)) then None
  else if for_challenge then
    if negb (is_tls_alpn_challenge h) || negb (owner (st c)) || maintenance (st c) then None
    else match challenge (st c) with
         | Some (RouteProof p) => Some (Proves p)
         | Some AcmeResolver => if acme_answers h then Some Challenged else None
         | None => None
         end
  else
    let acme := match alpn h with Some ps => existsb (λ p, bool_decide (p = ACME_TLS_ALPN)) ps | None => false end in
    if acme || negb (usable policy (wall c) (st c)) then None else Serves <$> snapshot (st c).
End Resolver.

(** ** Reachable states *)

(** A snapshot that passed validation at some time. *)
Definition certified (s : CertificateSnapshot) : Prop := ∃ now given, revalidate now given = Some s.

Definition reachable (c : Controller) : Prop :=
  ∃ retry on_start committed w m c0 acts,
    controller_new recovery_timeout retry on_start committed w m = Ok c0 ∧
    (∀ s, committed = Ok (Some s) → certified s) ∧
    run_actions exec c0 acts = Some c.

(** ** Invariants *)

Definition sound (e : Evidence) : Prop := observed e = proof e ∧ validate_version (version e) = true.
Definition at_rest (s : State) : Prop := challenge s = None ∧ driving s = false.
(** Whatever answers a challenge or drives does so under ownership. *)
Definition owned (c : Controller) : Prop :=
  (challenge (st c) ≠ None → held c = true) ∧
  (driving (st c) = true → challenge (st c) = Some AcmeResolver ∧ is_Some (route_version (st c))).
(** ACME may be driven. *)
Definition witnessed (e : Evidence) (c : Controller) : Prop :=
  sound e ∧ held c = true ∧ store (st c) = true ∧ requested c = true ∧
  (driving (st c) = true → challenge (st c) = Some AcmeResolver ∧ route_version (st c) = Some (version e)).

(** What holds where [drive] stands. *)
Definition position (c : Controller) : Prop :=
  match drive c with
  | NotStarted | Top | Idle | Retry | Finished => at_rest (st c)
  | Acquire => at_rest (st c) ∧ requested c = true
  | Open | Import | ReadFirst | Keep | Prove | Publish _ | Install First _ | Commit First _ =>
      at_rest (st c) ∧ held c = true ∧ requested c = true ∧
      match drive c with Prove | Publish _ => store (st c) = true | _ => True end
  | Observe _ => held c = true ∧ store (st c) = true ∧ requested c = true ∧ driving (st c) = false
  | Start e => witnessed e c ∧ driving (st c) = false
  | LoopHead e | Select e | Woken e | ReadDeployed e _ | Clear e _ _
  | Install (Deployed e) _ | Install (Renewed e) _ | Commit (Deployed e) _ | Commit (Renewed e) _
  | ActiveHead e | ActiveSelect e | ActiveWoken e | ReadRenewed e | ClearRenewed e => witnessed e c
  | RenewalFailed | Cleanup => owned c ∧ requested c = true
  end.

(** The task and its lock. *)
Definition task_inv (c : Controller) : Prop :=
  owner (st c) = held c ∧ (running c = false → drive c = NotStarted) ∧
  (watch c ≠ Asleep → awaiting (drive c) = true) ∧ position c.

Definition maintenance_inv (c : Controller) : Prop :=
  maintenance (st c) = true →
  running c = true ∧ drive c = Finished ∧ watch c = Asleep ∧ ready c = false ∧ at_rest (st c).

(** [route_lost] tells whether a loss was signalled since the proof was made, and a task that
    polls ACME after one has a wake-up pending, or the caller is still in the operation. *)
Definition loss_inv (c : Controller) : Prop :=
  (proved_at c ≤ losses c)%nat ∧ (route_lost c = true ↔ (proved_at c < losses c)%nat) ∧
  match drive c with
  | Select _ | ActiveSelect _ => route_lost c = true → notify c = true ∨ (0 < losing c)%nat
  | _ => True
  end.

(** The recovery clock may be stopped: the deployed certificate is being installed, the
    active loop runs, it has just ended, or the task is gone. *)
Definition untimed (d : Drive) : bool :=
  match d with
  | Install (Deployed _) _ | Install (Renewed _) _ | Commit (Deployed _) _ | Commit (Renewed _) _
  | ActiveHead _ | ActiveSelect _ | ActiveWoken _ | ReadRenewed _ | ClearRenewed _
  | RenewalFailed | Cleanup | Finished => true
  | _ => false
  end.
Definition timed_inv (c : Controller) : Prop :=
  (requested c = true ∨ (0 < requesting c)%nat) → is_Some (recovery_started (st c)) ∨ untimed (drive c) = true.

Definition certified_inv (c : Controller) : Prop :=
  (∀ s, snapshot (st c) = Some s → certified s) ∧ Forall certified (pending c) ∧
  match drive c with Commit _ s => certified s | _ => True end.

Definition inv (c : Controller) : Prop :=
  task_inv c ∧ maintenance_inv c ∧ loss_inv c ∧ timed_inv c ∧ certified_inv c.

(** ** Proofs of the invariants *)

(** Every way a step can go. *)
Ltac cases_in E :=
  repeat match type of E with
         | context [match ?x with _ => _ end] =>
             lazymatch x with context [match _ with _ => _ end] => fail | _ => destruct x eqn:? end;
             cbv beta iota in E; try discriminate E
         end; try (injection E as <-).

Ltac parts := destruct_and?; split_and?; first [done | congruence | intuition (congruence || eauto)].

Lemma position_drive_step c a c' : position c → drive_step c a = Steps c' → position c'.
Proof.
  intros Hp E. unfold drive_step, activate_step, install_step, active_step, fail_with, install_locked, settle in E. cases_in E.
  all: lazymatch goal with H : drive _ = _ |- _ => unfold position in Hp; rewrite H in Hp end.
  all: unfold position, witnessed, owned, at_rest, sound in *; simpl in *; try solve [parts].
  all: try (destruct k; simpl in *; parts).
  - apply andb_prop in Heqb as [[? ?%bool_decide_eq_true]%andb_prop _]. parts.
  - destruct (stored || _); simpl; parts.
Qed.

Lemma drive_step_task c a c' :
  drive_step c a = Steps c' →
  drive c ≠ NotStarted ∧ running c' = running c ∧ watch c' = watch c ∧
  (owner (st c) = held c → owner (st c') = held c').
Proof.
  intros E. unfold drive_step, activate_step, install_step, active_step, fail_with, install_locked, settle in E. cases_in E.
  all: split_and!; simpl; try done; try congruence.
  by destruct (stored || _).
Qed.

(** A loss brings every position to rest, and a request is never withdrawn. *)
Lemma position_rest c c' :
  position c → drive c' = drive c → at_rest (st c') → held c' = held c → store (st c') = store (st c) →
  requested c' = requested c → position c'.
Proof.
  unfold position, witnessed, owned. intros Hp -> [Hc Hd] -> -> ->.
  destruct (drive c) as [| | | | | | | | | | | | | | | | |[] ?|[] ?| | | | | | | | |]; parts.
Qed.
Lemma position_request n c : position c → position (with_requested n c).
Proof.
  unfold position, witnessed, owned. simpl.
  destruct (drive c) as [| | | | | | | | | | | | | | | | |[] ?|[] ?| | | | | | | | |]; parts.
Qed.

Lemma position_driving c :
  position c → driving (st c) = true →
  requested c = true ∧ challenge (st c) = Some AcmeResolver ∧ is_Some (route_version (st c)).
Proof.
  unfold position, witnessed, owned, at_rest.
  destruct (drive c) as [| | | | | | | | | | | | | | | | |[] ?|[] ?| | | | | | | | |]; parts.
Qed.
Lemma position_challenge c : position c → challenge (st c) ≠ None → held c = true.
Proof.
  unfold position, witnessed, owned, at_rest.
  destruct (drive c) as [| | | | | | | | | | | | | | | | |[] ?|[] ?| | | | | | | | |]; parts.
Qed.

Lemma task_inv_step c a c' : task_inv c → exec c a = Steps c' → task_inv c'.
Proof.
  intros (Ho & Hr & Hw & Hp) E. unfold exec, watchdog, install_locked in E.
  assert (watch c = Asleep → drive_step c a = Steps c' → task_inv c') as Hdrive.
  { intros Hwa Hs. destruct (drive_step_task _ _ _ Hs) as (? & Hr' & Hw' & Ho').
    split_and!; [auto|intros Hf; rewrite Hr' in Hf; by apply Hr in Hf|congruence|].
    by eapply position_drive_step. }
  assert (awaiting (drive c) = true → running c = true) as Hrun.
  { intros Ha. destruct (running c); [done|]. by rewrite Hr in Ha. }
  destruct a; cases_in E; auto; unfold task_inv; simpl; split_and!; try done; try congruence.
  - by unfold arm_recovery; case_match.
  - by unfold request_ownership, with_state, arm_recovery; case_match.
  - by apply position_request.
  - by eapply position_rest.
  - by rewrite Hr in Hw.
  - unfold position in Hp. by rewrite Hr in Hp.
  - intros Hf. by rewrite Hrun in Hf.
  - intros _. by apply Hw.
  - intros _. by apply Hw.
  - intros _. by apply Hw.
  - intros Hf. rewrite Hrun in Hf; [done|]. by apply Hw.
Qed.

Lemma drive_step_same c a c' :
  drive_step c a = Steps c' →
  maintenance (st c') = maintenance (st c) ∧ pending c' = pending c ∧ requested c' = requested c ∧
  requesting c' = requesting c ∧ losing c' = losing c ∧ losses c' = losses c ∧ wall c' = wall c ∧ mono c' = mono c.
Proof.
  intros E. unfold drive_step, activate_step, install_step, active_step, fail_with, install_locked, settle in E. cases_in E.
  all: split_and!; simpl; try done; try congruence.
  by destruct (stored || _).
Qed.

Lemma maintenance_inv_step c a c' :
  task_inv c → maintenance_inv c → exec c a = Steps c' → maintenance_inv c'.
Proof.
  intros (_ & Hr & Hw & _) Hm E.
  assert (awaiting (drive c) = true → running c = true) as Hrun.
  { intros Ha. destruct (running c); [done|]. by rewrite Hr in Ha. }
  destruct (maintenance (st c)) eqn:Em.
  - destruct (Hm Em) as (Hru & Hd & Hwa & Hre & Hc & Hdr).
    unfold exec, watchdog, install_locked, drive_step, activate_step in E. rewrite Hd, Hwa in E.
    destruct a; cases_in E; unfold maintenance_inv, at_rest; simpl in *; try done; try congruence.
    unfold arm_recovery. by case_match.
  - unfold exec, watchdog, install_locked in E. unfold maintenance_inv.
    assert (drive_step c a = Steps c' → maintenance (st c') = true → False) as Hs.
    { intros (Hsame & _)%drive_step_same. congruence. }
    destruct a; cases_in E; simpl; try (rewrite Em; done); try (by intros ?%Hs).
    + unfold arm_recovery. case_match; simpl; by rewrite Em.
    + intros _. split; [|done]. by apply Hrun, Hw.
Qed.

Lemma loss_inv_step c a c' : loss_inv c → exec c a = Steps c' → loss_inv c'.
Proof.
  unfold loss_inv. intros (Hl & Hr & Hd) E.
  unfold exec, watchdog, drive_step, activate_step, install_step, active_step, install_locked, fail_with in E.
  destruct a; cases_in E; simpl; try lazymatch goal with H : drive _ = _ |- _ => rewrite H in Hd end.
  all: try (split_and!; done || lia).
  all: try (destruct (drive c); split_and!; try done; try lia; intuition lia).
  all: try lazymatch goal with H : route_lost _ = _ |- _ => rewrite H end.
  all: try destruct k; simpl; split_and?; try done; try lia; split; done || lia.
Qed.

Lemma timed_inv_step c a c' : task_inv c → timed_inv c → exec c a = Steps c' → timed_inv c'.
Proof.
  unfold timed_inv. intros (_ & Hr & _ & Hp) Ht E.
  unfold exec, watchdog, drive_step, activate_step, install_step, active_step, install_locked, fail_with in E.
  destruct a; cases_in E; simpl; try lazymatch goal with H : drive _ = _ |- _ => rewrite H in Ht end; auto.
  all: try (destruct k; simpl in *; by auto).
  - unfold arm_recovery. destruct (driving (st c)) eqn:Hd; simpl.
    + intros _. apply Ht. left. by apply (position_driving c).
    + case_bool_decide as Hn; simpl; [by eauto|]. apply not_eq_None_Some in Hn. by left.
  - intros _. apply Ht. right. lia.
  - rewrite Hr in Ht by done. done.
  - by rewrite Heqo.
  - by rewrite Heqb.
Qed.

Lemma arm_recovery_snapshot now s : snapshot (arm_recovery now s) = snapshot s.
Proof. unfold arm_recovery. by case_match. Qed.
Lemma settle_snapshot stored fp s : snapshot (settle stored fp s) = snapshot s.
Proof. unfold settle. by case_match. Qed.

Lemma certified_inv_step c a c' : certified_inv c → exec c a = Steps c' → certified_inv c'.
Proof.
  unfold certified_inv. intros (Hs & Hp & Hd) E.
  unfold exec, watchdog, drive_step, activate_step, install_step, active_step, install_locked, fail_with in E.
  destruct a; cases_in E; simpl; try lazymatch goal with H : drive _ = _ |- _ => rewrite H in Hd end; auto.
  - split_and!; [done| |done]. apply Forall_app. split; [done|]. apply Forall_singleton. by exists (wall c), given.
  - split_and!; [done| |done]. by apply Forall_delete.
  - split_and!; [|by apply Forall_delete|done]. intros ? [= <-]. by eapply Forall_lookup_1.
  - by rewrite arm_recovery_snapshot.
  - by rewrite settle_snapshot.
  - split_and!; [done..|]. by exists (wall c), (pem s).
  - by destruct k.
  - by destruct k.
  - destruct k; split_and!; try done; by intros ? [= <-].
Qed.

Lemma inv_step c a c' : inv c → exec c a = Steps c' → inv c'.
Proof.
  intros (H1 & H2 & H3 & H4 & H5) E. split_and!.
  - by eapply task_inv_step.
  - by eapply maintenance_inv_step.
  - by eapply loss_inv_step.
  - by eapply timed_inv_step.
  - by eapply certified_inv_step.
Qed.

Lemma inv_new retry on_start committed w m c :
  controller_new recovery_timeout retry on_start committed w m = Ok c →
  (∀ s, committed = Ok (Some s) → certified s) → inv c.
Proof.
  unfold controller_new. destruct (reject_if _ _); [|done]. intros E Hc.
  assert (∃ s f, c = mkController (mkState s None false false false None f false (if on_start then Some m else None) None)
            on_start false false false (bool_decide (is_Some s)) NotStarted false Asleep 0 0 [] w m 0 0 ∧
          ∀ s', s = Some s' → certified s') as (s & f & -> & Hs).
  { destruct committed as [o|]; injection E as <-; [exists o, None|exists None, (Some (bs "committed serving snapshot unavailable"))].
    all: split; [done|naive_solver]. }
  split_and!; try done.
  - split; [done|simpl; lia].
  - unfold timed_inv. simpl. intros [->|?]; [by left|lia].
Qed.

Lemma controller_inv c : reachable c → inv c.
Proof.
  intros (retry & on_start & committed & w & m & c0 & acts & Hn & Hc & Hr).
  eapply run_actions_invariant; [|by eapply inv_new|done]. intros ? ? ?. apply inv_step.
Qed.

(** ** The watchdog *)

Definition overdue (c : Controller) : Prop :=
  match recovery_started (st c) with Some t => recovery_timeout <= mono c - t | None => False end.
(** There is a snapshot, and it is not to be served any more. *)
Definition expired (c : Controller) : Prop :=
  is_Some (snapshot (st c)) ∧ usable policy (wall c) (st c) = false.

Lemma watchdog_stops c :
  watch c = Asleep → awaiting (drive c) = true → overdue c ∨ expired c →
  ∃ n c', (n ≤ 4)%nat ∧ run_actions exec c (replicate n Watchdog) = Some c' ∧ maintenance (st c') = true.
Proof.
  intros Hw Ha Ho.
  assert (exec c Watchdog =
    Steps (with_watch (Seen (usable policy (wall c) (st c)) (bool_decide (is_Some (expires_at <$> snapshot (st c))))) c)) as E1.
  { unfold exec, watchdog. by rewrite Hw, Ha. }
  destruct (bool_decide (is_Some (expires_at <$> snapshot (st c))) && negb (usable policy (wall c) (st c))) eqn:Hs.
  - exists 3%nat. eexists. split; [lia|].
    cbn [replicate run_actions]. rewrite E1. cbn [exec watchdog watch with_watch]. by rewrite Hs.
  - exists 4%nat. eexists. split; [lia|].
    cbn [replicate run_actions]. rewrite E1. cbn [exec watchdog watch with_watch]. rewrite Hs.
    cbn. destruct Ho as [Ho|[[s Hsn] Hu]].
    + unfold overdue in Ho. destruct (recovery_started (st c)); [|done].
      by rewrite (proj2 (Z.leb_le _ _) Ho).
    + by rewrite Hu, Hsn in Hs.
Qed.

(** While ownership is requested, the recovery clock runs wherever [drive] awaits, except in
    the active loop and after the end of the task; and once the clock is overdue, or the
    snapshot may no longer be served, at most four uninterrupted steps of the watchdog put the
    controller in maintenance. *)
Theorem takeover_is_bounded c :
  reachable c → requested c = true → watch c = Asleep → awaiting (drive c) = true →
  (untimed (drive c) = false → is_Some (recovery_started (st c))) ∧
  (overdue c ∨ expired c →
   ∃ n c', (n ≤ 4)%nat ∧ run_actions exec c (replicate n Watchdog) = Some c' ∧ maintenance (st c') = true).
Proof.
  intros (_ & _ & _ & Ht & _)%controller_inv Hr Hw Ha. split; [|by apply watchdog_stops].
  intros Hu. destruct Ht as [?|Hf]; [by left|done|congruence].
Qed.

(** ACME is polled only by a task that holds the lock, has the store open, was asked to take
    over and is not in maintenance, after an observation of its own fresh proof with a valid
    route version; and no loss was signalled since that proof was made, unless its caller is
    still inside [challenge_route_lost]. *)
Theorem acme_polled_with_evidence c ev c' :
  reachable c → exec c (Acme ev) = Steps c' →
  ∃ e, (drive c = Select e ∨ drive c = ActiveSelect e) ∧
    observed e = proof e ∧ validate_version (version e) = true ∧
    held c = true ∧ owner (st c) = true ∧ store (st c) = true ∧ requested c = true ∧ maintenance (st c) = false ∧
    (losses c = proved_at c ∨ (0 < losing c)%nat).
Proof.
  intros ((Ho & _ & _ & Hp) & Hm & (Hl & Hr & Hd) & _)%controller_inv E.
  assert (∃ e, (drive c = Select e ∨ drive c = ActiveSelect e) ∧ notify c = false) as (e & He & Hn).
  { unfold exec, drive_step, activate_step, install_step, active_step in E. destruct (watch c), (drive c); try done; destruct (notify c); naive_solver. }
  assert (witnessed e c) as ([??] & Hh & Hs & Hq & _) by (unfold position in Hp; by destruct He as [He|He]; rewrite He in Hp).
  assert (route_lost c = true → notify c = true ∨ (0 < losing c)%nat) as Hw.
  { by destruct He as [He|He]; rewrite He in Hd. }
  exists e. split_and!; try done; try congruence.
  - destruct (maintenance (st c)) eqn:Em; [|done]. destruct (Hm Em) as (_ & Hf & _).
    by destruct He as [He|He]; rewrite He in Hf.
  - destruct (route_lost c); [|left; destruct (decide (proved_at c < losses c)%nat) as [?%Hr|]; [done|lia]].
    destruct Hw as [?|?]; [done|congruence|by right].
Qed.

(** ** Serving *)

Lemma usable_true now s :
  usable policy now s = true ↔
  maintenance s = false ∧ ∃ cert, snapshot s = Some cert ∧ valid_from cert <= now ∧ now <= expires_at cert ∧
    safety_margin policy < expires_at cert - now.
Proof.
  unfold usable. rewrite andb_true_iff, negb_true_iff. split; intros [Hm H]; (split; [done|]).
  - destruct (snapshot s) as [cert|]; [|done]. exists cert. split; [done|]. lia.
  - destruct H as (cert & -> & ?). lia.
Qed.

Lemma revalidate_Some now given s :
  revalidate now given = Some s →
  ∃ nb na fp, verify_material given now = Some (nb, na, fp) ∧ valid_from s = nb * 1000 ∧ expires_at s = na * 1000 ∧
    fingerprint s = fp ∧ now <= na * 1000 ∧ minimum_remaining policy <= na * 1000 - now.
Proof.
  unfold revalidate, CertificateSnapshot_validate. case_match; [done|]. case_match; [done|].
  destruct (verify_material given now) as [[[nb na] fp]|]; [|done]. cbn.
  case_match; [done|]. case_match; [done|].
  destruct (key_pem given); [|done]. cbn. destruct (canonical_blocks given); [|done]. cbn. intros [= <-].
  exists nb, na, fp. simpl. split_and!; try done; lia.
Qed.

Lemma maintenance_kept c a c' :
  maintenance_inv c → maintenance (st c) = true → exec c a = Steps c' →
  maintenance (st c') = true ∧ snapshot (st c') = snapshot (st c).
Proof.
  intros Hm Em E. destruct (Hm Em) as (Hru & Hd & Hwa & Hre & Hc & Hdr).
  unfold exec, watchdog, install_locked, drive_step, activate_step in E. rewrite Hd, Hwa in E.
  destruct a; cases_in E; simpl in *; try done; try congruence.
  unfold arm_recovery. by case_match.
Qed.

Section Resolving.
Context (hostname : bytes) (is_tls_alpn_challenge acme_answers : Hello → bool).
Local Notation resolve := (resolve hostname is_tls_alpn_challenge acme_answers).

(** C27: The ordinary resolver answers only for the Server's hostname, never to a hello that
    offers the ACME protocol, and only with a snapshot that passed validation under the
    policy, that is valid now, and that keeps more than the safety margin; the challenge
    resolver answers only while this process holds the lock and is not in maintenance. *)
Theorem served_within_policy c for_challenge h a :
  reachable c → resolve for_challenge h c = Some a →
  server_name h = Some hostname ∧ maintenance (st c) = false ∧
  if for_challenge then held c = true ∧ is_tls_alpn_challenge h = true ∧ challenge (st c) ≠ None
  else (∀ ps, alpn h = Some ps → ACME_TLS_ALPN ∉ ps) ∧
    ∃ s, a = Serves s ∧ snapshot (st c) = Some s ∧ certified s ∧
      valid_from s <= wall c ∧ wall c + safety_margin policy < expires_at s.
Proof.
  intros ((Ho & _) & _ & _ & _ & (Hs & _))%controller_inv. unfold resolve.
  case_bool_decide as Hn; [|done]. simpl. destruct for_challenge.
  - destruct (is_tls_alpn_challenge h); [|done]. destruct (owner (st c)); [|done].
    destruct (maintenance (st c)); [done|]. simpl. intros E. split_and!; try done. by destruct (challenge (st c)).
  - set (acme := match alpn h with Some _ => _ | None => _ end).
    destruct acme eqn:Ha; [done|]. simpl.
    destruct (usable policy (wall c) (st c)) eqn:Hu; [|done]. simpl.
    apply usable_true in Hu as (Hm & s & Hsn & ? & ? & ?). rewrite Hsn. intros [= <-].
    split_and!; try done.
    + intros ps Hps Hin. unfold acme in Ha. rewrite Hps in Ha. apply not_true_iff_false in Ha. apply Ha, existsb_exists.
      exists ACME_TLS_ALPN. by rewrite <- list_elem_of_In, bool_decide_eq_true.
    + exists s. split_and!; try done; [by apply Hs|lia].
Qed.

(** [install_snapshot] serves a snapshot at once when it validates now, provided the policy
    was accepted and verification covers the validity period; otherwise the last snapshot and
    readiness are left as they were. *)
Theorem install_snapshot_exact c given h minimum margin :
  CertificateValidation_new minimum margin = Ok policy →
  (∀ m now nb na fp, verify_material m now = Some (nb, na, fp) → nb * 1000 <= now) →
  0 <= margin → pending c = [] → maintenance (st c) = false →
  server_name h = Some hostname → alpn h = None →
  match revalidate (wall c) given with
  | Some s => ∃ c', run_actions exec c [InstallSnapshot given; InstallLocked 0] = Some c' ∧
      ready c' = true ∧ resolve false h c' = Some (Serves s)
  | None => exec c (InstallSnapshot given) = Steps c
  end.
Proof.
  intros Hpol Hver Hmar Hp Hm Hn Ha. destruct (revalidate (wall c) given) as [s|] eqn:E.
  2:{ unfold exec. by rewrite E. }
  eexists. unfold run_actions, exec. rewrite E, Hp. cbn. unfold install_locked. cbn. rewrite Hm. split_and!; [done..|].
  unfold resolve. rewrite bool_decide_eq_true_2 by done. rewrite Ha. cbn [negb orb].
  rewrite (proj2 (usable_true _ _)); [done|]. split; [done|]. exists s. split; [done|]. cbn [wall with_ready with_state with_pending].
  apply revalidate_Some in E as (nb & na & fp & Hv & -> & -> & _ & ? & ?). apply Hver in Hv.
  unfold CertificateValidation_new in Hpol. destruct (_ || _) eqn:Hb; [done|]. injection Hpol as <-.
  simpl in *. lia.
Qed.

(** ** Maintenance *)

(** Maintenance is terminal.  Whatever is called afterwards, the controller stays in
    maintenance and not ready, neither resolver answers, the last snapshot is not replaced
    and ACME is never polled again. *)
Theorem maintenance_is_terminal c acts c' :
  reachable c → maintenance (st c) = true → run_actions exec c acts = Some c' →
  maintenance (st c') = true ∧ ready c' = false ∧ snapshot (st c') = snapshot (st c) ∧
  (∀ b h, resolve b h c' = None) ∧ (∀ ev, exec c' (Acme ev) = Disabled).
Proof.
  intros Hi%controller_inv Hm Hr.
  assert (inv c' ∧ maintenance (st c') = true ∧ snapshot (st c') = snapshot (st c)) as ((_ & Hi' & _) & Hm' & Hs).
  { eapply (run_actions_invariant exec (λ x, inv x ∧ maintenance (st x) = true ∧ snapshot (st x) = snapshot (st c)));
      [|done|exact Hr].
    intros x a x' (Hix & Hmx & Hsx) E. split; [by eapply inv_step|].
    destruct (maintenance_kept x a x') as [? ->]; [apply Hix|done..]. }
  destruct (Hi' Hm') as (_ & Hd & Hw & Hre & Hc & _). split_and!; try done.
  - intros b h. unfold resolve, usable. rewrite Hm'. cbn [negb andb]. rewrite !orb_true_r. by destruct (negb _), b.
  - intros ev. unfold exec, drive_step, activate_step. by rewrite Hw, Hd.
Qed.

End Resolving.

(** ** The recovery deadline *)

(** [given] is the certificate of fingerprint [f], whenever it validates. *)
Definition is_certificate (f given : bytes) : Prop :=
  ∀ now s, revalidate now given = Some s → fingerprint s = f.
Definition is_snapshot (f : bytes) (s : CertificateSnapshot) : Prop := fingerprint s = f ∧ is_certificate f (pem s).

(** Nothing but that certificate is loaded or handed over, and nothing new is stored. *)
Definition without_renewal (f : bytes) (a : Action) : Prop :=
  match a with
  | Acme CertCacheStore => False
  | Durable (Some s) => is_snapshot f s
  | InstallSnapshot given => is_certificate f given
  | _ => True
  end.

(** Only that certificate is on its way to be served. *)
Definition carries (f : bytes) (d : Drive) : Prop :=
  match d with
  | ReadDeployed _ stored => stored = false
  | Clear _ stored s => stored = false ∧ is_snapshot f s
  | Install (Renewed _) _ | Commit (Renewed _) _ | ReadRenewed _ | ClearRenewed _ => False
  | Install _ s => is_snapshot f s
  | Commit _ s => fingerprint s = f
  | _ => True
  end.
Definition unrepaired (f : bytes) (t : Z) (c : Controller) : Prop :=
  recovery_started (st c) = Some t ∧ failed_renewal_fingerprint (st c) = Some f ∧
  (∃ s, snapshot (st c) = Some s ∧ fingerprint s = f) ∧ Forall (λ s, fingerprint s = f) (pending c) ∧
  carries f (drive c).

Lemma arm_recovery_armed t now s : recovery_started s = Some t → arm_recovery now s = s.
Proof. unfold arm_recovery. intros ->. by rewrite andb_false_r. Qed.
Lemma settle_failed f s : failed_renewal_fingerprint s = Some f → settle false f s = s.
Proof. unfold settle. intros ->. by rewrite bool_decide_eq_true_2. Qed.

Lemma unrepaired_step f t c a c' :
  without_renewal f a → unrepaired f t c → exec c a = Steps c' → unrepaired f t c'.
Proof.
  unfold unrepaired. intros Ha (Ht & Hf & (s0 & Hs & Hs0) & Hp & Hd) E.
  unfold exec, watchdog, drive_step, activate_step, install_step, active_step, install_locked, fail_with in E.
  destruct a; cases_in E; simpl; try lazymatch goal with H : drive _ = _ |- _ => rewrite H in Hd end.
  all: simpl in Ha, Hd; try done.
  all: rewrite ?(arm_recovery_armed t) by done.
  all: try (split_and!; by eauto || congruence).
  all: rewrite ?Ht.
  all: try (split_and!; by eauto || congruence).
  - split_and!; try done; [by eauto|]. apply Forall_app. split; [done|]. apply Forall_singleton. by eapply Ha.
  - split_and!; try done; [by eauto|by apply Forall_delete].
  - split_and!; try done; [|by apply Forall_delete]. exists c0. split; [done|].
    by apply (Forall_lookup_1 _ _ _ _ Hp Heqo).
  - destruct Hd as [-> [Hfp Hc]]. rewrite Hfp, (settle_failed f) by done. split_and!; by eauto.
  - split_and!; try done; [by eauto|]. destruct k; [by eapply Hd..|done].
  - split_and!; try done; [by eauto|]. by destruct k.
  - split_and!; try done; [by eauto|]. by destruct k.
  - split_and!; try done; [|by destruct k]. exists s. split; [done|]. by destruct k.
  - rewrite Hs. simpl. split_and!; try done; [by rewrite Hs0|by eauto].
Qed.

(** After a failed renewal of the certificate that is served, no retry that loads the same
    certificate moves the recovery deadline: it stays the instant at which recovery began,
    until a renewed certificate is stored or another certificate appears. *)
Theorem renewal_failure_keeps_deadline c f t acts c' :
  drive c = Retry → recovery_started (st c) = Some t → failed_renewal_fingerprint (st c) = Some f →
  fingerprint <$> snapshot (st c) = Some f → pending c = [] →
  Forall (without_renewal f) acts → run_actions exec c acts = Some c' →
  recovery_started (st c') = Some t ∧ failed_renewal_fingerprint (st c') = Some f.
Proof.
  intros Hd Ht Hf Hs Hp Ha Hr.
  assert (unrepaired f t c) as Hu.
  { unfold unrepaired. rewrite Hd, Hp. apply fmap_Some in Hs as (s & ? & ->). split_and!; by eauto. }
  clear Hd Ht Hf Hs Hp. revert c Hu Hr. induction Ha as [|a acts Ha _ IH]; intros c Hu Hr; simpl in Hr.
  - simplify_eq. by destruct Hu as (? & ? & _).
  - destruct (exec c a) as [c1| |] eqn:E; [|done..]. eapply IH; [|done]. by eapply unrepaired_step.
Qed.
End Controller.

(** ** A controller whose runs can be evaluated *)

Module ControllerToy.
Definition policy : CertificateValidation := mkPolicy 2000 1000.
Definition verify (given : bytes) (now : Z) : option (Z * Z * bytes) :=
  if (0 <=? now) && (now <=? 100000) then Some (0, 100, bs "fp") else None.
Definition answers (h : Hello) : bool := true.
Definition hostname : bytes := bs "edge.example.com".
Definition hello : Hello := mkHello (Some hostname) None.
Definition exec : Controller → Action → next Controller := exec policy 300 verify Some.
Definition cert : CertificateSnapshot := mkSnapshot [] 0 100000 (bs "fp").

Definition start : Controller :=
  mkController (mkState None None false false false None None false (Some 0) None)
    true false false false false NotStarted false Asleep 0 0 [] 10 0 0 0.
Definition state_after (acts : list Action) : Controller := default start (run_actions exec start acts).

(** Ownership and the open store. *)
Definition opening : list Action :=
  [Run; Continue; Acquired (Ok true); Opened true; Imported true; Durable None; Continue].
(** From a proof to the active loop. *)
Definition activation : list Action :=
  [Proved (Some (bs "proof")); Continue; Observed (Some (bs "proof", bs "v1")); Continue; Continue;
   Acme DeployedCachedCert; Durable (Some cert); Continue; Continue; Continue; Continue].
Definition active : Controller := state_after (opening ++ activation).
(** The renewal fails later on, and the task retries with the same certificate. *)
Definition failed : Controller :=
  state_after (opening ++ activation ++ [Advance 10 40; Acme FailedOrEnded; Continue; Continue]).
Definition retried : list Action :=
  [Advance 10 60; RetryElapsed; Continue; Opened true; Imported true; Durable (Some cert); Continue; Continue; Continue]
  ++ activation ++ [Acme FailedOrEnded; Continue; Continue].
End ControllerToy.

Lemma controller_toy_reachable acts c :
  run_actions ControllerToy.exec ControllerToy.start acts = Some c →
  reachable ControllerToy.policy 300 ControllerToy.verify Some c.
Proof.
  intros Hr. exists 1, true, (Ok None), 10, 0, ControllerToy.start, acts. split_and!; [done| |done]. by intros ? [=].
Qed.

Lemma takeover_is_bounded_witness :
  let c := ControllerToy.state_after [Run; Continue; Advance 10 300] in
  ∃ n c', (n ≤ 4)%nat ∧ run_actions ControllerToy.exec c (replicate n Watchdog) = Some c' ∧ maintenance (st c') = true.
Proof.
  intros c. destruct (takeover_is_bounded ControllerToy.policy 300 ControllerToy.verify Some c) as [_ H].
  - apply (controller_toy_reachable [Run; Continue; Advance 10 300]). by vm_compute.
  - done.
  - done.
  - done.
  - apply H. left. by vm_compute.
Defined.

Lemma acme_polled_with_evidence_witness :
  let c := ControllerToy.active in
  ∃ e, (drive c = Select e ∨ drive c = ActiveSelect e) ∧ observed e = proof e ∧ validate_version (version e) = true ∧
    held c = true ∧ owner (st c) = true ∧ store (st c) = true ∧ requested c = true ∧ maintenance (st c) = false ∧
    (losses c = proved_at c ∨ (0 < losing c)%nat).
Proof.
  intros c. eapply (acme_polled_with_evidence ControllerToy.policy 300 ControllerToy.verify Some c OtherEvent).
  - apply (controller_toy_reachable (ControllerToy.opening ++ ControllerToy.activation)). by vm_compute.
  - by vm_compute.
Defined.

Lemma served_within_policy_witness :
  ∃ s, Serves ControllerToy.cert = Serves s ∧ expires_at s = 100000.
Proof.
  destruct (served_within_policy ControllerToy.policy 300 ControllerToy.verify Some ControllerToy.hostname
    ControllerToy.answers ControllerToy.answers ControllerToy.active false ControllerToy.hello (Serves ControllerToy.cert))
    as (_ & _ & _ & s & ? & _).
  - apply (controller_toy_reachable (ControllerToy.opening ++ ControllerToy.activation)). by vm_compute.
  - by vm_compute.
  - exists s. split; [done|]. by simplify_eq.
Defined.

Lemma install_snapshot_exact_witness :
  ∃ c', run_actions ControllerToy.exec ControllerToy.start [InstallSnapshot []; InstallLocked 0] = Some c' ∧ ready c' = true.
Proof.
  destruct (install_snapshot_exact ControllerToy.policy 300 ControllerToy.verify Some ControllerToy.hostname
    ControllerToy.answers ControllerToy.answers ControllerToy.start [] ControllerToy.hello 2000 1000) as (c' & ? & ? & _).
  - done.
  - intros m now nb na fp. unfold ControllerToy.verify. case_match; [|done]. intros [= <- <- <-]. lia.
  - lia.
  - done.
  - done.
  - done.
  - done.
  - by exists c'.
Defined.

Lemma maintenance_is_terminal_witness :
  let over := [Run; Continue; Advance 10 300; Watchdog; Watchdog; Watchdog; Watchdog] in
  ready (ControllerToy.state_after (over ++ [InstallSnapshot []; InstallLocked 0])) = false.
Proof.
  intros over. apply (maintenance_is_terminal ControllerToy.policy 300 ControllerToy.verify Some ControllerToy.hostname
    ControllerToy.answers ControllerToy.answers (ControllerToy.state_after over) [InstallSnapshot []; InstallLocked 0]).
  - apply (controller_toy_reachable over). by vm_compute.
  - by vm_compute.
  - by vm_compute.
Defined.

Lemma renewal_failure_keeps_deadline_witness :
  ∃ c, run_actions ControllerToy.exec ControllerToy.failed ControllerToy.retried = Some c ∧
    recovery_started (st c) = Some 40.
Proof.
  assert (∀ now s, revalidate ControllerToy.policy ControllerToy.verify Some now [] = Some s → fingerprint s = bs "fp") as Hc.
  { intros now s (nb & na & fp & Hv & _ & _ & -> & _)%revalidate_Some. unfold ControllerToy.verify in Hv.
    case_match; naive_solver. }
  destruct (run_actions ControllerToy.exec ControllerToy.failed ControllerToy.retried) as [c|] eqn:Hr;
    [|by vm_compute in Hr].
  exists c. split; [done|].
  apply (renewal_failure_keeps_deadline ControllerToy.policy 300 ControllerToy.verify Some
    ControllerToy.failed (bs "fp") 40 ControllerToy.retried c); try done.
  by repeat (apply Forall_cons; split; [done|]).
Defined.

(** ** A finding *)

(** A loss signalled before a proof is made, whose caller reaches the mutex only when the
    route has been observed again, stops a working owner.  The observation that followed the
    signal is accepted and the certificate deployed; then the late half of
    [challenge_route_lost] withdraws the challenge and restarts the recovery clock, while the
    cleared flag keeps the active loop running; nothing stops the clock again, and the
    controller ends in maintenance though no loss was signalled since the observation. *)
Theorem late_route_loss_stops_owner :
  let before := ControllerToy.opening ++ [RouteLostSignal] ++ ControllerToy.activation in
  let late := [RouteLostLocked; Continue; Continue; Continue] in
  let c := ControllerToy.state_after (before ++ late) in
  run_actions ControllerToy.exec ControllerToy.start (before ++ late) = Some c ∧
  (∃ e, drive c = ActiveSelect e) ∧ route_lost c = false ∧ losing c = 0%nat ∧ losses c = proved_at c ∧
  driving (st c) = false ∧ challenge (st c) = None ∧ recovery_started (st c) = Some 0 ∧
  ∃ c', run_actions ControllerToy.exec c [Advance 10 300; Watchdog; Watchdog; Watchdog; Watchdog] = Some c' ∧
    usable ControllerToy.policy (wall c') (st c) = true ∧ maintenance (st c') = true.
Proof.
  intros before late c. split; [by vm_compute|]. split; [eexists; by vm_compute|].
  do 6 (split; [by vm_compute|]). eexists. split; [by vm_compute|]. split; by vm_compute.
Qed.
