(* ===== verification/Relay.v ===== *)
(** * Relay: moving bytes between a TCP connection and a Tunnel stream

    [src/proxy.rs] and the two streams that replay a ClientHello before they read on
    ([PrefixedStream] of [src/server/visitor_stream.rs], [ReplayedTunnelStream] of
    [src/client/tunnel_stream.rs]).

    [proxy_tcp_over_tunnel] joins two directions that share nothing.  Each is a small machine
    over the readers of [Framing]: it writes what it was given, flushes, copies with a bounded
    buffer as [tokio::io::copy] does (reads and writes in any order the peer allows, an error
    ends it at once), flushes and shuts its sink down.  What the sink accepts, and where it
    fails, are the actions of the machine. *)

From Stdlib Require Import String Ascii ZArith Lia.
From stdpp Require Import base strings numbers list.
From S2P Require Import Prelude Text Framing.
Import Reader.

(** ** One direction *)

(** The buffer of [tokio::io::copy]. *)
Definition COPY_BUFFER : nat := Z.to_nat 8192.

(** Writing the initial bytes; flushing them; copying, with the bytes read and not yet
    written and whether the source has ended; shutting down; the end. *)
Inductive Phase :=
| Initial (rest : bytes)
| Flush
| Copy (buffer : bytes) (eof : bool)
| Shutdown
| Completed
| Failed (e : IoError).

(** [fin]: the sink was shut down. *)
Record Direction := mkDirection { source : reader; phase : Phase; sink : bytes; fin : bool }.

Definition start (initial : bytes) (r : reader) : Direction := mkDirection r (Initial initial) [] false.
(** The direction that has nothing to write first. *)
Definition start_copy (r : reader) : Direction := mkDirection r (Copy [] false) [] false.

(** [Accepts n]: the sink takes [n] more bytes.  [Reads]: the source is polled.  [Ready]: a
    flush or the shutdown succeeds.  [Breaks e]: the sink fails. *)
Inductive Action := Accepts (n : nat) | Reads | Ready | Breaks (e : IoError).

Definition ended (p : Phase) : bool := match p with Completed | Failed _ => true | _ => false end.
Definition with_phase (p : Phase) (d : Direction) : Direction := mkDirection (source d) p (sink d) (fin d).
Definition deliver (b : bytes) (d : Direction) : Direction :=
  mkDirection (source d) (phase d) (sink d ++ b) (fin d).

(** [write_all]: nothing left to write ends it. *)
Definition write_initial (rest : bytes) (n : nat) (d : Direction) : next Direction :=
  if (0 <? n)%nat && (n <=? length rest)%nat
  then Steps (with_phase (match drop n rest with [] => Flush | rest' => Initial rest' end) (deliver (take n rest) d))
  else Disabled.

Definition fill (buffer : bytes) (d : Direction) : next Direction :=
  if (length buffer <? COPY_BUFFER)%nat then
    match read (COPY_BUFFER - length buffer) (source d) with
    | Err e => Steps (with_phase (Failed e) d)
    | Ok ([], _) => Steps (with_phase (Copy buffer true) d)
    | Ok (c, r) => Steps (mkDirection r (Copy (buffer ++ c) false) (sink d) (fin d))
    end
  else Disabled.

Definition exec (d : Direction) (a : Action) : next Direction :=
  match phase d, a with
  | Initial [], Ready => Steps (with_phase Flush d)
  | Initial rest, Accepts n => write_initial rest n d
  | Flush, Ready => Steps (with_phase (Copy [] false) d)
  | Copy buffer false, Reads => fill buffer d
  | Copy buffer eof, Accepts n =>
      if (0 <? n)%nat && (n <=? length buffer)%nat
      then Steps (with_phase (Copy (drop n buffer) eof) (deliver (take n buffer) d))
      else Disabled
  | Copy [] true, Ready => Steps (with_phase Shutdown d)
  | Shutdown, Ready => Steps (mkDirection (source d) Completed (sink d) true)
  | p, Breaks e => if ended p then Disabled else Steps (with_phase (Failed e) d)
  | _, _ => Disabled
  end.

(** ** Both directions *)

(** [proxy_tcp_over_tunnel] *)
Record Relay := mkRelay { to_tunnel : Direction; to_tcp : Direction }.
Definition proxy_tcp_over_tunnel (tcp : reader) (initial : bytes) (tunnel : reader) : Relay :=
  mkRelay (start initial tcp) (start_copy tunnel).

Inductive RelayAction := ToTunnel (a : Action) | ToTcp (a : Action).
Definition relay_exec (x : Relay) (a : RelayAction) : next Relay :=
  match a with
  | ToTunnel a => match exec (to_tunnel x) a with
                  | Steps d => Steps (mkRelay d (to_tcp x)) | Disabled => Disabled | Panics => Panics
                  end
  | ToTcp a => match exec (to_tcp x) a with
               | Steps d => Steps (mkRelay (to_tunnel x) d) | Disabled => Disabled | Panics => Panics
               end
  end.

(** [to_tunnel.and(to_tcp)], once both have ended. *)
Definition relay_result (x : Relay) : option (result IoError unit) :=
  match phase (to_tunnel x), phase (to_tcp x) with
  | Completed, Completed => Some (Ok tt)
  | Completed, Failed e => Some (Err e)
  | Failed e, Completed | Failed e, Failed _ => Some (Err e)
  | _, _ => None
  end.

(** ** Replayed streams *)

Record Replayed := mkReplayed { buffered : bytes; replay_offset : nat; inner : reader }.
Definition replayed_new (r : reader) (b : bytes) : Replayed := mkReplayed b 0 r.
(** [poll_read] with room for [cap] bytes. *)
Definition replayed_read (cap : nat) (s : Replayed) : result IoError (bytes * Replayed) :=
  if (replay_offset s <? length (buffered s))%nat then
    let remaining := drop (replay_offset s) (buffered s) in
    let to_copy := Nat.min (length remaining) cap in
    Ok (take to_copy remaining, mkReplayed (buffered s) (replay_offset s + to_copy) (inner s))
  else '(c, r) ← read cap (inner s); Ok (c, mkReplayed (buffered s) (replay_offset s) r).

(** ** What a reader holds *)

(** The bytes read before the end or the first fault, and how the stream ends. *)
Fixpoint stream_bytes (r : reader) : bytes :=
  match r with
  | Data (c :: d) :: r => (c :: d) ++ stream_bytes r
  | _ => []
  end.
Fixpoint stream_end (r : reader) : option IoError :=
  match r with
  | Data (_ :: _) :: r => stream_end r
  | Fault e :: _ => Some e
  | _ => None
  end.

Lemma stream_push_back d r : stream_bytes (push_back d r) = d ++ stream_bytes r.
Proof. by destruct d. Qed.
Lemma stream_end_push_back d r : stream_end (push_back d r) = stream_end r.
Proof. by destruct d. Qed.

Lemma read_stream cap r : (0 < cap)%nat →
  match read cap r with
  | Ok ([], _) => stream_bytes r = [] ∧ stream_end r = None
  | Ok (c, r') => stream_bytes r = c ++ stream_bytes r' ∧ stream_end r' = stream_end r
  | Err e => stream_bytes r = [] ∧ stream_end r = Some e
  end.
Proof.
  intros Hc. destruct r as [|[[|x d]|e] r]; simpl; try done.
  - by rewrite take_nil.
  - destruct cap as [|cap]; [lia|]. cbn [take drop]. rewrite stream_push_back, stream_end_push_back.
    split; [|done]. simpl. by rewrite app_assoc, take_drop.
Qed.

Lemma delivers_stream r b : delivers r b → stream_bytes r = b ∧ stream_end r = None.
Proof.
  intros (ds & -> & Hall & <-). induction Hall as [|d ds Hd Hall [IH1 IH2]]; [done|].
  destruct d as [|x d]; [done|]. rewrite fmap_cons. cbn [stream_bytes stream_end concat]. by rewrite IH1, IH2.
Qed.

(** ** The invariant of a direction *)

Definition pending (p : Phase) : bytes := match p with Initial rest => rest | Copy buffer _ => buffer | _ => [] end.

Record direction_inv (total : bytes) (e : option IoError) (broken : list IoError) (d : Direction) : Prop := {
  inv_conserved : ended (phase d) = false → sink d ++ pending (phase d) ++ stream_bytes (source d) = total;
  inv_prefix : sink d `prefix_of` total;
  inv_end : stream_end (source d) = e;
  inv_eof : ∀ b, phase d = Copy b true → stream_bytes (source d) = [] ∧ e = None;
  inv_shutdown : phase d = Shutdown ∨ phase d = Completed → sink d = total ∧ e = None;
  inv_fin : fin d = true ↔ phase d = Completed;
  inv_failed : ∀ f, phase d = Failed f → e = Some f ∨ f ∈ broken
}.

(** The failures of the sink in a sequence of actions. *)
Definition breaks (acts : list Action) : list IoError :=
  omap (λ a, match a with Breaks e => Some e | _ => None end) acts.

Lemma breaks_app l l' : breaks (l ++ l') = breaks l ++ breaks l'.
Proof. apply omap_app. Qed.

(** A direction that goes on. *)
Lemma inv_goes_on total e broken d :
  ended (phase d) = false → fin d = false → stream_end (source d) = e →
  sink d ++ pending (phase d) ++ stream_bytes (source d) = total →
  (∀ b, phase d = Copy b true → stream_bytes (source d) = [] ∧ e = None) →
  (phase d = Shutdown → sink d = total ∧ e = None) → direction_inv total e broken d.
Proof.
  intros He Hf Hs Hc Heof Hsh. constructor; try done.
  - rewrite <- Hc. by apply prefix_app_r.
  - intros [?|Hp]; [by apply Hsh|]. by rewrite Hp in He.
  - rewrite Hf. split; [done|]. intros Hp. by rewrite Hp in He.
  - intros f Hp. by rewrite Hp in He.
Qed.
Lemma inv_fails total e broken d f :
  sink d `prefix_of` total → fin d = false → stream_end (source d) = e → e = Some f ∨ f ∈ broken →
  direction_inv total e broken (with_phase (Failed f) d).
Proof. intros. constructor; simpl; try done; [naive_solver|split; congruence|naive_solver]. Qed.

Lemma write_initial_step total e d rest n d' broken :
  phase d = Initial rest → fin d = false → stream_end (source d) = e →
  sink d ++ rest ++ stream_bytes (source d) = total →
  write_initial rest n d = Steps d' → direction_inv total e broken d'.
Proof.
  intros Hp Hf He Hc. unfold write_initial. destruct (_ && _); [|done]. intros [= <-].
  rewrite <- (take_drop n rest), <- app_assoc in Hc.
  apply inv_goes_on; simpl; try done.
  - by destruct (drop n rest).
  - rewrite <- Hc, <- app_assoc. by destruct (drop n rest).
  - by destruct (drop n rest).
  - by destruct (drop n rest).
Qed.

Lemma fill_step total e d buffer d' broken :
  phase d = Copy buffer false → fin d = false → stream_end (source d) = e →
  sink d ++ buffer ++ stream_bytes (source d) = total →
  fill buffer d = Steps d' → direction_inv total e broken d'.
Proof.
  intros Hp Hf He Hc. unfold fill. destruct (Nat.ltb_spec (length buffer) COPY_BUFFER); [|done].
  pose proof (read_stream (COPY_BUFFER - length buffer) (source d) ltac:(lia)) as Hr.
  destruct (read _ (source d)) as [[[|x c] r]|f].
  - intros [= <-]. destruct Hr as [Hb Hn]. apply inv_goes_on; simpl; try done. intros _ _. by rewrite <- He.
  - intros [= <-]. destruct Hr as [Hb Hn]. apply inv_goes_on; simpl; try done; [by rewrite Hn|].
    by rewrite <- Hc, Hb, <- !app_assoc.
  - intros [= <-]. destruct Hr as [Hb Hn]. apply inv_fails; try done.
    + rewrite <- Hc. by apply prefix_app_r.
    + left. by rewrite <- He.
Qed.

Lemma direction_step total e broken d a d' :
  direction_inv total e broken d → exec d a = Steps d' →
  direction_inv total e (broken ++ breaks [a]) d'.
Proof.
  intros [Hc Hp He Heof Hs Hf Hfail] E. unfold exec in E.
  assert (ended (phase d) = false → fin d = false) as Hnf.
  { intros Hen. destruct (fin d); [|done]. destruct Hf as [Hf _]. by rewrite Hf in Hen. }
  assert (∀ f, a = Breaks f → ended (phase d) = false → d' = with_phase (Failed f) d →
    direction_inv total e (broken ++ breaks [a]) d') as Hbreak.
  { intros f -> Hen ->. apply inv_fails; [done|by apply Hnf|done|]. right. apply elem_of_app. right. by apply list_elem_of_singleton. }
  destruct (phase d) as [rest| |buffer eof| | |f] eqn:Hph; destruct a as [n| | |f']; try discriminate E.
  all: cbn [ended] in *; try specialize (Hc eq_refl); try specialize (Hnf eq_refl).
  all: try (destruct buffer, eof; injection E as <-; by eapply Hbreak).
  all: try (destruct rest; injection E as <-; by eapply Hbreak).
  all: try (injection E as <-; by eapply Hbreak).
  - destruct rest; by eapply write_initial_step.
  - by destruct rest.
  - destruct rest; [|done]. injection E as <-. by apply inv_goes_on.
  - injection E as <-. by apply inv_goes_on.
  - assert (phase d' = Copy (drop n buffer) eof ∧ sink d' = sink d ++ take n buffer ∧ fin d' = fin d ∧ source d' = source d)
      as (Hp' & Hs' & Hf' & Hr').
    { destruct buffer, eof; (destruct (_ && _); [|discriminate E]); by injection E as <-. }
    apply inv_goes_on; rewrite ?Hp', ?Hs', ?Hf', ?Hr'; try done.
    + rewrite <- Hc. simpl. by rewrite <- app_assoc, app_assoc, <- (app_assoc (sink d)), !app_assoc, <- (app_assoc (sink d)), take_drop.
    + intros b [= _ ->]. by eapply Heof.
  - destruct buffer, eof; try discriminate E; by eapply fill_step.
  - destruct buffer, eof; try discriminate E. injection E as <-.
    destruct (Heof []) as [Hb ->]; [done|]. simpl in Hc. rewrite Hb, app_nil_r in Hc.
    apply inv_goes_on; simpl; try done. by rewrite Hb, app_nil_r.
  - injection E as <-. destruct Hs as [Hs ->]; [by left|].
    constructor; simpl; try done.
Qed.

Lemma direction_run total e broken d acts d' :
  direction_inv total e broken d → run_actions exec d acts = Some d' →
  direction_inv total e (broken ++ breaks acts) d'.
Proof.
  revert broken d. induction acts as [|a acts IH]; intros broken d Hi Hr; simpl in Hr.
  - simplify_eq. by rewrite app_nil_r.
  - destruct (exec d a) as [d1| |] eqn:E; [|done..].
    change (a :: acts) with ([a] ++ acts). rewrite breaks_app, app_assoc.
    eapply IH; [|done]. by eapply direction_step.
Qed.

Lemma inv_start initial r :
  direction_inv (initial ++ stream_bytes r) (stream_end r) [] (start initial r).
Proof. by apply inv_goes_on. Qed.
Lemma inv_start_copy r : direction_inv (stream_bytes r) (stream_end r) [] (start_copy r).
Proof. by apply inv_goes_on. Qed.

(** ** Progress *)

(** [d] can complete without a failure of its sink. *)
Definition can_complete (d : Direction) : Prop :=
  ∃ acts d', run_actions exec d acts = Some d' ∧ breaks acts = [] ∧ phase d' = Completed.

Lemma can_complete_step d a d' : exec d a = Steps d' → breaks [a] = [] → can_complete d' → can_complete d.
Proof.
  intros E Hb (acts & d2 & Hr & Hbs & Hp). exists (a :: acts), d2. cbn [run_actions]. rewrite E.
  split_and!; [done|by destruct a|done].
Qed.

Lemma shutdown_completes d : phase d = Shutdown → can_complete d.
Proof.
  intros Hp. eapply (can_complete_step _ Ready); [unfold exec; by rewrite Hp|done|].
  by exists [], (mkDirection (source d) Completed (sink d) true).
Qed.

Lemma write_buffer d buffer eof :
  phase d = Copy buffer eof → buffer ≠ [] →
  exec d (Accepts (length buffer)) = Steps (with_phase (Copy [] eof) (deliver buffer d)).
Proof.
  intros Hp Hb. unfold exec. rewrite Hp.
  assert ((0 <? length buffer)%nat && (length buffer <=? length buffer)%nat = true) as Hl.
  { destruct buffer; [done|]. simpl. by rewrite Nat.leb_refl. }
  destruct buffer; [done|]. by destruct eof; rewrite Hl, take_ge, drop_ge by done.
Qed.

Lemma empty_copy_completes n d :
  (length (stream_bytes (source d)) < n)%nat → stream_end (source d) = None → phase d = Copy [] false → can_complete d.
Proof.
  revert d. induction n as [|n IH]; intros d Hn He Hp; [lia|].
  pose proof (read_stream COPY_BUFFER (source d) ltac:(unfold COPY_BUFFER; lia)) as Hr.
  assert (exec d Reads = fill [] d) as E by (unfold exec; by rewrite Hp).
  unfold fill in E. rewrite (proj2 (Nat.ltb_lt _ _)) in E by (simpl; unfold COPY_BUFFER; lia).
  rewrite Nat.sub_0_r in E. destruct (read COPY_BUFFER (source d)) as [[[|x c] r]|f].
  - eapply can_complete_step; [exact E|done|]. eapply (can_complete_step _ Ready); [done|done|].
    by apply shutdown_completes.
  - destruct Hr as [Hb Hend]. eapply can_complete_step; [exact E|done|].
    eapply can_complete_step; [by apply (write_buffer _ (x :: c) false)|done|].
    apply IH; simpl; try done; [|congruence]. rewrite Hb, length_app in Hn. simpl in Hn. lia.
  - by rewrite (proj2 Hr) in He.
Qed.

Lemma direction_completes total broken d :
  direction_inv total None broken d → ended (phase d) = false → can_complete d.
Proof.
  intros Hi Hen. pose proof (inv_end _ _ _ _ Hi) as He.
  assert (∀ d', source d' = source d → phase d' = Copy [] false → can_complete d') as Hcopy.
  { intros d' Hs Hp. eapply (empty_copy_completes (S _)); [apply Nat.lt_succ_diag_r|by rewrite Hs|done]. }
  assert (∀ d', source d' = source d → phase d' = Flush → can_complete d') as Hflush.
  { intros d' Hs Hp. eapply (can_complete_step _ Ready); [unfold exec; by rewrite Hp|done|]. by apply Hcopy. }
  assert (∀ d', phase d' = Copy [] true → can_complete d') as Hend.
  { intros d' Hp. eapply (can_complete_step _ Ready); [unfold exec; by rewrite Hp|done|]. by apply shutdown_completes. }
  destruct (phase d) as [rest| |buffer eof| | |] eqn:Hp; try done.
  - destruct rest as [|x rest].
    + eapply (can_complete_step _ Ready); [unfold exec; by rewrite Hp|done|]. by apply Hflush.
    + assert (exec d (Accepts (length (x :: rest))) = Steps (with_phase Flush (deliver (x :: rest) d))) as E.
      { unfold exec. rewrite Hp. unfold write_initial. by rewrite Nat.leb_refl, take_ge, drop_ge by done. }
      eapply can_complete_step; [exact E|done|by apply Hflush].
  - by apply Hflush.
  - destruct buffer as [|x buffer]; [destruct eof; [by apply Hend|by apply Hcopy]|].
    eapply can_complete_step; [by apply write_buffer|done|]. destruct eof; [by apply Hend|by apply Hcopy].
  - by apply shutdown_completes.
Qed.

(** ** Both directions *)

Definition tunnel_actions (acts : list RelayAction) : list Action :=
  omap (λ a, match a with ToTunnel a => Some a | _ => None end) acts.
Definition tcp_actions (acts : list RelayAction) : list Action :=
  omap (λ a, match a with ToTcp a => Some a | _ => None end) acts.

Lemma relay_run x acts x' :
  run_actions relay_exec x acts = Some x' →
  run_actions exec (to_tunnel x) (tunnel_actions acts) = Some (to_tunnel x') ∧
  run_actions exec (to_tcp x) (tcp_actions acts) = Some (to_tcp x').
Proof.
  revert x. induction acts as [|a acts IH]; intros x Hr; simpl in Hr; [by simplify_eq|].
  destruct a as [a|a]; simpl in *.
  - destruct (exec (to_tunnel x) a) as [d| |]; [|done..]. by apply IH in Hr.
  - destruct (exec (to_tcp x) a) as [d| |]; [|done..]. by apply IH in Hr.
Qed.

Lemma relay_inv tcp initial tunnel acts x :
  run_actions relay_exec (proxy_tcp_over_tunnel tcp initial tunnel) acts = Some x →
  direction_inv (initial ++ stream_bytes tcp) (stream_end tcp) (breaks (tunnel_actions acts)) (to_tunnel x) ∧
  direction_inv (stream_bytes tunnel) (stream_end tunnel) (breaks (tcp_actions acts)) (to_tcp x).
Proof.
  intros [H1 H2]%relay_run. split.
  - by apply (direction_run _ _ [] _ _ _ (inv_start initial tcp)).
  - by apply (direction_run _ _ [] _ _ _ (inv_start_copy tunnel)).
Qed.

Lemma relay_lift_tunnel x acts d :
  run_actions exec (to_tunnel x) acts = Some d →
  run_actions relay_exec x (ToTunnel <$> acts) = Some (mkRelay d (to_tcp x)).
Proof.
  revert x. induction acts as [|a acts IH]; intros x Hr; simpl in Hr; [destruct x; by simplify_eq|].
  rewrite fmap_cons. cbn [run_actions relay_exec].
  destruct (exec (to_tunnel x) a) as [d1| |]; [|done..]. by apply (IH (mkRelay d1 (to_tcp x))).
Qed.
Lemma relay_lift_tcp x acts d :
  run_actions exec (to_tcp x) acts = Some d →
  run_actions relay_exec x (ToTcp <$> acts) = Some (mkRelay (to_tunnel x) d).
Proof.
  revert x. induction acts as [|a acts IH]; intros x Hr; simpl in Hr; [destruct x; by simplify_eq|].
  rewrite fmap_cons. cbn [run_actions relay_exec].
  destruct (exec (to_tcp x) a) as [d1| |]; [|done..]. by apply (IH (mkRelay (to_tunnel x) d1)).
Qed.

Lemma completes_anyway d total broken :
  direction_inv total None broken d → (∀ f, phase d ≠ Failed f) → can_complete d.
Proof.
  intros Hi Hf. destruct (ended (phase d)) eqn:He; [|by eapply direction_completes].
  exists [], d. split_and!; [done..|]. destruct (phase d); naive_solver.
Qed.

Lemma relay_result_Ok x :
  relay_result x = Some (Ok tt) ↔ phase (to_tunnel x) = Completed ∧ phase (to_tcp x) = Completed.
Proof.
  unfold relay_result.
  destruct (phase (to_tunnel x)), (phase (to_tcp x)); (split; [|intros [??]]); (done || congruence).
Qed.
Lemma relay_result_Err x e :
  relay_result x = Some (Err e) → phase (to_tunnel x) = Failed e ∨ phase (to_tcp x) = Failed e.
Proof.
  unfold relay_result.
  destruct (phase (to_tunnel x)), (phase (to_tcp x)); intros [=]; subst; (by left) || (by right).
Qed.

(** The relay conserves the bytes of both directions.  However reads and writes
    interleave, what a sink has received is a prefix of the initial bytes followed by what
    the source delivers; a sink is shut down only after all of it, and only when the source
    ended cleanly; the result is [Ok] exactly when both sinks were shut down, and an error is
    one that a source or a sink reported. *)
Theorem relay_conserves tcp initial tunnel acts x :
  run_actions relay_exec (proxy_tcp_over_tunnel tcp initial tunnel) acts = Some x →
  sink (to_tunnel x) `prefix_of` initial ++ stream_bytes tcp ∧
  sink (to_tcp x) `prefix_of` stream_bytes tunnel ∧
  (fin (to_tunnel x) = true → sink (to_tunnel x) = initial ++ stream_bytes tcp ∧ stream_end tcp = None) ∧
  (fin (to_tcp x) = true → sink (to_tcp x) = stream_bytes tunnel ∧ stream_end tunnel = None) ∧
  (relay_result x = Some (Ok tt) ↔ fin (to_tunnel x) = true ∧ fin (to_tcp x) = true) ∧
  (∀ e, relay_result x = Some (Err e) →
     stream_end tcp = Some e ∨ stream_end tunnel = Some e ∨
     e ∈ breaks (tunnel_actions acts) ++ breaks (tcp_actions acts)).
Proof.
  intros [H1 H2]%relay_inv.
  assert (∀ t e b d, direction_inv t e b d → fin d = true → sink d = t ∧ e = None) as Hfin.
  { intros t e b d [_ _ _ _ Hs Hf _] Hd. apply Hs. right. by apply Hf. }
  split_and!.
  - apply H1.
  - apply H2.
  - by apply (Hfin _ _ _ _ H1).
  - by apply (Hfin _ _ _ _ H2).
  - destruct H1 as [_ _ _ _ _ -> _], H2 as [_ _ _ _ _ -> _]. apply relay_result_Ok.
  - intros e He. rewrite elem_of_app. destruct H1 as [_ _ _ _ _ _ F1], H2 as [_ _ _ _ _ _ F2].
    apply relay_result_Err in He as [[?|?]%F1|[?|?]%F2]; auto.
Qed.

(** A relay whose sources end cleanly and whose sinks have not failed can complete from
    every state it reaches, without any further failure. *)
Theorem relay_completes tcp initial tunnel acts x :
  run_actions relay_exec (proxy_tcp_over_tunnel tcp initial tunnel) acts = Some x →
  stream_end tcp = None → stream_end tunnel = None →
  breaks (tunnel_actions acts) = [] → breaks (tcp_actions acts) = [] →
  ∃ acts' x', run_actions relay_exec x acts' = Some x' ∧ relay_result x' = Some (Ok tt).
Proof.
  intros [H1 H2]%relay_inv E1 E2 B1 B2. rewrite E1, B1 in H1. rewrite E2, B2 in H2.
  assert (∀ t d, direction_inv t None [] d → ∀ f, phase d ≠ Failed f) as Hnf.
  { intros t d [_ _ _ _ _ _ Hf] f Hp. destruct (Hf f Hp) as [?|?%not_elem_of_nil]; done. }
  destruct (completes_anyway _ _ _ H1 (Hnf _ _ H1)) as (a1 & d1 & R1 & _ & P1).
  destruct (completes_anyway _ _ _ H2 (Hnf _ _ H2)) as (a2 & d2 & R2 & _ & P2).
  exists ((ToTunnel <$> a1) ++ (ToTcp <$> a2)), (mkRelay d1 d2). split.
  - rewrite run_actions_app, (relay_lift_tunnel _ _ _ R1). simpl. by apply (relay_lift_tcp (mkRelay d1 (to_tcp x))).
  - unfold relay_result. simpl. by rewrite P1, P2.
Qed.

(** ** Replayed streams *)

(** The reader a replayed stream stands for. *)
Definition replayed_view (s : Replayed) : reader := push_back (drop (replay_offset s) (buffered s)) (inner s).

(** Reading a replayed stream is reading the buffered bytes pushed back in front of the
    inner stream, poll by poll. *)
Theorem replayed_read_refines cap s :
  match replayed_read cap s with
  | Ok (c, s') => read cap (replayed_view s) = Ok (c, replayed_view s')
  | Err e => read cap (replayed_view s) = Err e
  end.
Proof.
  unfold replayed_read, replayed_view. destruct (Nat.ltb_spec (replay_offset s) (length (buffered s))) as [Hl|Hg].
  - set (rem := drop (replay_offset s) (buffered s)).
    assert (rem ≠ []) as Hne. { intros Hn. apply (f_equal length) in Hn. unfold rem in Hn. rewrite length_drop in Hn. simpl in Hn. lia. }
    cbn. rewrite <- drop_drop. fold rem. destruct rem as [|x rem'] eqn:Hrem; [done|]. rewrite <- Hrem in *. clear Hrem.
    assert (push_back rem (inner s) = Data rem :: inner s) as -> by (by destruct rem). cbn [read].
    destruct (Nat.le_ge_cases (length rem) cap).
    + by rewrite Nat.min_l, !take_ge, !drop_ge by lia.
    + by rewrite Nat.min_r by lia.
  - rewrite drop_ge by lia. simpl. destruct (read cap (inner s)) as [[c r]|e]; [|done]. cbn. by rewrite drop_ge by lia.
Qed.

(** ** A relay that can be evaluated: the Visitor sends two pieces, the backend one. *)
Module RelayToy.
Definition tcp : reader := [Data (bs "ab"); Data (bs "c")].
Definition tunnel : reader := [Data (bs "xy")].
Definition begun : list RelayAction :=
  [ToTunnel (Accepts 1); ToTcp Reads; ToTunnel (Accepts 1); ToTunnel Ready; ToTunnel Reads; ToTcp (Accepts 1)].
Definition halfway : Relay :=
  default (proxy_tcp_over_tunnel tcp (bs "hi") tunnel) (run_actions relay_exec (proxy_tcp_over_tunnel tcp (bs "hi") tunnel) begun).
End RelayToy.

Lemma relay_conserves_witness :
  sink (to_tunnel RelayToy.halfway) = bs "hi" ∧ sink (to_tcp RelayToy.halfway) = bs "x" ∧
  sink (to_tcp RelayToy.halfway) `prefix_of` bs "xy".
Proof.
  split; [vm_compute; reflexivity|]. split; [vm_compute; reflexivity|].
  refine (proj1 (proj2 (relay_conserves RelayToy.tcp (bs "hi") RelayToy.tunnel RelayToy.begun _ _))). vm_compute; reflexivity.
Defined.

Lemma relay_completes_witness :
  ∃ acts' x', run_actions relay_exec RelayToy.halfway acts' = Some x' ∧ relay_result x' = Some (Ok tt).
Proof. apply (relay_completes RelayToy.tcp (bs "hi") RelayToy.tunnel RelayToy.begun); vm_compute; reflexivity. Defined.
