(* ===== verification/ClientStreams.v ===== *)
(** * ClientStreams: what the Client does with a Visitor stream

    [src/client/tunnel_stream.rs] (the handler of one stream: intake, choice of the Service,
    passthrough, TLS termination and ACME challenges), [src/client/termination_tls.rs] and
    [src/client/stream_limits.rs] (the stream budget and its two log gates).

    A handler runs alone on its stream, so it is a function: the stream it reads is a reader of
    [Framing], the other awaits (connecting, writing, handshakes, copying) answer from an
    environment, in time or late, and what it does to the outside is a list of effects, in
    order. *)

From Stdlib Require Import String Ascii ZArith Lia.
From stdpp Require Import base strings numbers gmap list.
From S2P Require Import Prelude Names Framing Assignment Relay.
Import Reader Proxy Hello Tunnel Service.

Open Scope Z_scope.

(** ** The stream budget *)

Record ClientStreamLimits := mkStreamLimits {
  max_stream_handlers : Z;
  client_hello_timeout : Z;
  backend_connect_timeout : Z;
  initial_backend_write_timeout : Z;
  terminate_handshake_timeout : Z;
  acme_challenge_handshake_timeout : Z
}.
(** [ClientStreamLimits::default], in seconds, from the default Visitor capacity. *)
Definition default_stream_limits (default_visitor_capacity : Z) : ClientStreamLimits :=
  mkStreamLimits default_visitor_capacity 5 5 5 5 5.

(** [ClientStreamBudget]: its two log gates (the permits themselves are those of [Credit]). *)
Record LogState := mkLogState { last_saturation_log : option Z; saturated : bool }.
Definition log_state_new : LogState := mkLogState None false.
Definition SATURATION_LOG_INTERVAL : Z := 10000000000. (* nanoseconds *)

Inductive LogLine := LogsSaturated | LogsRecovered.
Definition note_saturation (now : Z) (b : LogState) : LogState * option LogLine :=
  match last_saturation_log b with
  | Some last => if Z.max 0 (now - last) <? SATURATION_LOG_INTERVAL then (b, None)
                 else (mkLogState (Some now) true, Some LogsSaturated)
  | None => (mkLogState (Some now) true, Some LogsSaturated)
  end.
Definition note_recovery (b : LogState) : LogState * option LogLine :=
  (mkLogState (last_saturation_log b) false, if saturated b then Some LogsRecovered else None).

(** The observer of the budget: permits are available again, or none is. *)
Definition note (now : Z) (available : bool) (b : LogState) : LogState * option LogLine :=
  if available then note_recovery b else note_saturation now b.
(** The lines logged, with their instants. *)
Fixpoint notes (b : LogState) (calls : list (Z * bool)) : list (Z * LogLine) :=
  match calls with
  | [] => []
  | (now, available) :: calls =>
      let '(b, line) := note now available b in
      match line with Some l => [(now, l)] | None => [] end ++ notes b calls
  end.

(** ** TLS configurations *)

(** [TerminationTlsConfigs] *)
Record TerminationTlsConfigs (C : Type) := mkTlsConfigs {
  default_server_configs : gmap bytes C;
  acme_challenge_server_configs : gmap bytes C
}.
Arguments mkTlsConfigs {C}.
Arguments default_server_configs {C}.
Arguments acme_challenge_server_configs {C}.

(** ** The handler *)

(** The answer of an await under a timeout. *)
Inductive timed (A : Type) := InTime (a : A) | Late.
Arguments InTime {A}.
Arguments Late {A}.

Inductive ClientRouteOutcome :=
| RoutedPassthrough (backend : bytes)
| RoutedTerminated (backend : bytes)
| RejectedNoMatchingService
| BackendConnectFailed (backend : bytes)
| BackendWriteFailed (backend : bytes)
| MissingTlsConfig.

Inductive HandleError :=
| IntakeTimedOut
| IntakeFailed (e : TunnelStreamError)
| ConnectTimedOut
| WriteTimedOut
| HandshakeTimedOut
| NoTlsConfig
| HandshakeFailed (e : IoError)
| BackendIo (e : IoError)
| RelayFailed (e : IoError).

Section Handler.
Context {A : Type} `{TlsAcceptor A} {C : Type}.

(** What the handler does, in order.  [Handshake c r]: a TLS handshake with configuration [c]
    on the stream that replays [r].  [Relays r]: bytes are moved between the stream [r] and
    the backend.  [CopiesTls]: between the decrypted stream and the backend.  [DropsStream]:
    the stream is dropped explicitly. *)
Inductive Effect :=
| Logs (hostname : bytes) (o : ClientRouteOutcome)
| Warns
| LogsChallenge (hostname : bytes) (handled : bool)
| Connects (backend : bytes)
| Writes (b : bytes)
| Handshake (config : C) (stream : Replayed)
| ClosesChallenge
| Relays (r : reader)
| CopiesTls
| DropsStream.

(** The answers of the awaits. *)
Record Env := mkEnv {
  intake_in_time : bool;
  connect_answer : timed (result IoError unit);
  write_answer : timed (result IoError unit);
  handshake_answer : timed (result IoError unit);
  relay_answer : result IoError unit
}.

Context (services : list ServiceConfig) (tls : TerminationTlsConfigs C) (env : Env).

Definition traced (X : Type) : Type := list Effect * X.
Definition outcome : Type := traced (result HandleError unit).
Definition does (es : list Effect) (o : outcome) : outcome := (es ++ fst o, snd o).
Definition ends (r : result HandleError unit) : outcome := ([], r).

(** [connect_backend] *)
Definition connect_backend (address : bytes) : traced (result HandleError unit) :=
  ([Connects address], match connect_answer env with
                       | InTime r => map_err BackendIo r
                       | Late => Err ConnectTimedOut
                       end).

(** [write_backend_with_timeout] *)
Definition write_backend_with_timeout (b : bytes) : traced (result HandleError unit) :=
  ([Writes b], match write_answer env with
               | InTime r => map_err BackendIo r
               | Late => Err WriteTimedOut
               end).

(** [handle_acme_tls_alpn_challenge] *)
Definition handle_acme_tls_alpn_challenge (hostname : bytes) (stream : Replayed) (config : C) : outcome :=
  does [Handshake config stream]
    match handshake_answer env with
    | InTime (Ok _) => does [LogsChallenge hostname true; ClosesChallenge] (ends (Ok tt))
    | InTime (Err e) => does [LogsChallenge hostname false] (ends (Err (HandshakeFailed e)))
    | Late => does [LogsChallenge hostname false] (ends (Err HandshakeTimedOut))
    end.

(** What is written to a backend before any payload: [None] is a panic of the encoder. *)
Definition proxy_header (service : ServiceConfig) (a : VisitorTcpAddresses) : option (option bytes) :=
  match proxy_protocol service with
  | Some _ => b ← encode_proxy_v2 a; Some (Some b)
  | None => Some None
  end.

(** [handle_terminate] *)
Definition handle_terminate (r : reader) (h : ParsedClientHello) (service : ServiceConfig)
    (a : VisitorTcpAddresses) : option outcome :=
  let hostname := public_hostname h in
  let stream := replayed_new r (buffered_bytes h) in
  match (if offers_alpn_protocol h (bs "acme-tls/1") then acme_challenge_server_configs tls !! hostname else None) with
  | Some challenge => Some (handle_acme_tls_alpn_challenge hostname stream challenge)
  | None =>
      match default_server_configs tls !! hostname with
      | None => Some (does [Logs hostname MissingTlsConfig; DropsStream] (ends (Err NoTlsConfig)))
      | Some config =>
          o ← match handshake_answer env with
              | InTime (Err e) => Some (ends (Err (HandshakeFailed e)))
              | Late => Some (ends (Err HandshakeTimedOut))
              | InTime (Ok _) =>
                  let '(es, connected) := connect_backend (backend_address service) in
                  o ← match connected with
                      | Err e => Some (does [Logs hostname (BackendConnectFailed (backend_address service))] (ends (Err e)))
                      | Ok _ =>
                          header ← proxy_header service a;
                          let copy := does [CopiesTls] (ends (map_err RelayFailed (relay_answer env))) in
                          Some (does [Logs hostname (RoutedTerminated (backend_address service))]
                            match header with
                            | None => copy
                            | Some b => let '(es, written) := write_backend_with_timeout b in
                                        does es (match written with Err e => ends (Err e) | Ok _ => copy end)
                            end)
                      end;
                  Some (does es o)
              end;
          Some (does [Handshake config stream] o)
      end
  end.

(** The passthrough branch of [handle]. *)
Definition handle_passthrough (r : reader) (h : ParsedClientHello) (service : ServiceConfig)
    (a : VisitorTcpAddresses) : option outcome :=
  let hostname := public_hostname h in
  let '(es, connected) := connect_backend (backend_address service) in
  o ← match connected with
      | Err e => Some (does [Logs hostname (BackendConnectFailed (backend_address service)); DropsStream] (ends (Err e)))
      | Ok _ =>
          header ← proxy_header service a;
          let '(es, written) := write_backend_with_timeout (default [] header ++ buffered_bytes h) in
          Some (does es
            match written with
            | Err e => does [Logs hostname (BackendWriteFailed (backend_address service)); DropsStream] (ends (Err e))
            | Ok _ => does [Logs hostname (RoutedPassthrough (backend_address service)); Relays r]
                        (ends (map_err RelayFailed (relay_answer env)))
            end)
      end;
  Some (does es o).

(** [handle]: [None] is a panic of the address encoder, or the loop bound of the ClientHello
    reader, which never runs out. *)
Definition handle (stream : reader) : option outcome :=
  if negb (intake_in_time env) then Some (does [Warns; DropsStream] (ends (Err IntakeTimedOut)))
  else
    decoded ← read_tunnel_stream stream;
    match decoded with
    | Err e => Some (does [Warns; DropsStream] (ends (Err (IntakeFailed e))))
    | Ok (d, r) =>
        let h := client_hello d in
        match select services (public_hostname h) with
        | None => Some (does [Logs (public_hostname h) RejectedNoMatchingService; DropsStream] (ends (Ok tt)))
        | Some service =>
            match tls_mode service with
            | Terminate => handle_terminate r h service (addresses d)
            | Passthrough => handle_passthrough r h service (addresses d)
            end
        end
    end.

(** ** Lemmas *)

Lemma read_tunnel_stream_total r : is_Some (read_tunnel_stream r).
Proof.
  unfold read_tunnel_stream. destruct (read_proxy_v2 r) as [[a r']|e]; [|done].
  destruct (read_client_hello_total r') as [x ->]. done.
Qed.

Lemma read_tunnel_stream_Ok r d r' :
  read_tunnel_stream r = Some (Ok (d, r')) → is_Some (encode_proxy_v2 (addresses d)).
Proof.
  unfold read_tunnel_stream. destruct (read_proxy_v2 r) as [[a r1]|e] eqn:Ep; [|done].
  apply read_proxy_v2_encodes in Ep.
  destruct (read_client_hello r1) as [[[h r2]|e]|]; cbn; intros [=]; by subst.
Qed.

Lemma proxy_header_Some service a : is_Some (encode_proxy_v2 a) → ∃ o, proxy_header service a = Some o.
Proof. intros [b Hb]. unfold proxy_header. destruct (proxy_protocol service); [|by eexists]. rewrite Hb. by eexists. Qed.

(** The handler of a stream never panics: for every stream, set of Services, TLS
    configurations and answers of its awaits it ends with a result. *)
Theorem client_handler_total stream : is_Some (handle stream).
Proof.
  unfold handle. destruct (intake_in_time env); [|done]. simpl.
  destruct (read_tunnel_stream_total stream) as [x Hx]. rewrite Hx. cbn.
  destruct x as [[d r]|e]; [|done]. apply read_tunnel_stream_Ok in Hx.
  destruct (select services _) as [service|]; [|done].
  destruct (proxy_header_Some service _ Hx) as [o Ho].
  destruct (tls_mode service).
  - unfold handle_passthrough, connect_backend. destruct (connect_answer env) as [[u|e]|]; cbn; try done. by rewrite Ho.
  - unfold handle_terminate. destruct (if offers_alpn_protocol _ _ then _ else _); [done|].
    destruct (default_server_configs tls !! _); [|done].
    destruct (handshake_answer env) as [[u|e]|]; cbn; try done.
    destruct (connect_answer env) as [[u'|e]|]; cbn; try done. by rewrite Ho.
Qed.

(** *** Routing *)

(** What the backend sees of a handler, in order. *)
Definition backend_effects (es : list Effect) : list Effect :=
  List.filter (λ e, match e with Connects _ | Writes _ | Relays _ | CopiesTls => true | _ => false end) es.

(** What the backend is to see: the connection, then in passthrough one write of the PROXY
    header, if the Service asks for one, and the ClientHello as it was read, and the rest of the
    stream; in termination the header alone, if any, and what the TLS session decrypts. *)
Definition backend_script (service : ServiceConfig) (header : option bytes) (hello : bytes) (r : reader) :
    list Effect :=
  Connects (backend_address service) ::
  match tls_mode service with
  | Passthrough => [Writes (default [] header ++ hello); Relays r]
  | Terminate => match header with Some b => [Writes b] | None => [] end ++ [CopiesTls]
  end.

(** The stream was read, a Service of its hostname found, and the backend has seen a part of
    the script from its start, all of it when the handler succeeds.  In termination the
    handler begins with a handshake under the hostname's configuration that sees the
    ClientHello again, and it succeeded. *)
Definition routed (stream : reader) (es : list Effect) (res : result HandleError unit) : Prop :=
  ∃ d r service header,
    read_tunnel_stream stream = Some (Ok (d, r)) ∧
    select services (public_hostname (client_hello d)) = Some service ∧
    proxy_header service (addresses d) = Some header ∧
    backend_effects es `prefix_of` backend_script service header (buffered_bytes (client_hello d)) r ∧
    (res = Ok tt → backend_effects es = backend_script service header (buffered_bytes (client_hello d)) r) ∧
    (tls_mode service = Terminate →
       handshake_answer env = InTime (Ok tt) ∧
       ∃ config es', default_server_configs tls !! public_hostname (client_hello d) = Some config ∧
         es = Handshake config (replayed_new r (buffered_bytes (client_hello d))) :: es').

(** The script has been played up to some point. *)
Ltac played := solve [repeat apply prefix_cons; first [apply prefix_nil | reflexivity]].

Lemma passthrough_routed stream d r service o es res :
  read_tunnel_stream stream = Some (Ok (d, r)) →
  select services (public_hostname (client_hello d)) = Some service → tls_mode service = Passthrough →
  proxy_header service (addresses d) = Some o →
  handle_passthrough r (client_hello d) service (addresses d) = Some (es, res) → routed stream es res.
Proof.
  intros Hd Hs Ht Ho E. exists d, r, service, o. rewrite Ht. split_and!; try done.
  all: unfold handle_passthrough, connect_backend, write_backend_with_timeout in E; unfold backend_script; rewrite Ht.
  all: destruct (connect_answer env) as [[u|e]|]; cbn in E; rewrite ?Ho in E; cbn in E;
    [|simplify_eq/=; first [played | by intros [=]]..].
  all: destruct (write_answer env) as [[u'|e]|]; cbn in E; simplify_eq/=;
    first [played | by intros [=] | done].
Qed.

Lemma terminate_routed stream d r service o es res :
  read_tunnel_stream stream = Some (Ok (d, r)) →
  select services (public_hostname (client_hello d)) = Some service → tls_mode service = Terminate →
  proxy_header service (addresses d) = Some o →
  handle_terminate r (client_hello d) service (addresses d) = Some (es, res) →
  backend_effects es = [] ∨ routed stream es res.
Proof.
  intros Hd Hs Ht Ho E. unfold handle_terminate, handle_acme_tls_alpn_challenge in E.
  destruct (if offers_alpn_protocol _ _ then _ else _) as [challenge|].
  { left. by destruct (handshake_answer env) as [[u|e]|]; simplify_eq/=. }
  destruct (default_server_configs tls !! _) as [config|] eqn:Hc; [|left; by simplify_eq/=].
  destruct (handshake_answer env) as [[[]|e]|] eqn:Hh; cbn in E; [|left; by simplify_eq/=..].
  right. exists d, r, service, o. rewrite Hh. unfold backend_script. rewrite Ht.
  destruct (connect_answer env) as [[u|e]|]; cbn in E; rewrite ?Ho in E; cbn in E.
  2,3: simplify_eq/=; split_and!; try done; [played|split; [done|by eexists _, _]].
  destruct o as [b|]; cbn in E; [destruct (write_answer env) as [[u'|e]|]; cbn in E|];
    simplify_eq/=; split_and!; try done;
    first [played | split; [done|by eexists _, _]].
Qed.

(** C18: A stream reaches a backend only as routed.  The one connection made is to the Service
    selected for the stream's hostname, and the backend is then sent, in this order and up to
    where the handler fails, the PROXY header the Service asks for and the Visitor's bytes: as
    they came, the ClientHello and then the rest of the stream (passthrough), or as decrypted
    under the hostname's own certificate after a successful handshake (termination).  A
    handler that succeeds has done all of it, unless it contacted no backend at all, as in
    every other case. *)
Theorem client_stream_routed stream es res :
  handle stream = Some (es, res) → backend_effects es = [] ∨ routed stream es res.
Proof.
  unfold handle. destruct (intake_in_time env); [|intros [= <- <-]; by left]. simpl.
  destruct (read_tunnel_stream stream) as [[[d r]|e]|] eqn:Hd; cbn; [|intros [= <- <-]; by left|done].
  destruct (select services _) as [service|] eqn:Hs; [|intros [= <- <-]; by left].
  destruct (proxy_header_Some service (addresses d)) as [o Ho]; [by eapply read_tunnel_stream_Ok|].
  destruct (tls_mode service) eqn:Ht; intros E.
  - right. by eapply passthrough_routed.
  - by eapply terminate_routed.
Qed.
End Handler.

(** ** The log of the budget *)

(** Saturation is logged at most once per interval, and a recovery only directly after a
    saturation line. *)
Fixpoint paced (last : option Z) (open : bool) (lines : list (Z * LogLine)) : Prop :=
  match lines with
  | [] => True
  | (now, LogsSaturated) :: lines =>
      match last with Some t => t + SATURATION_LOG_INTERVAL <= now | None => True end ∧ paced (Some now) true lines
  | (_, LogsRecovered) :: lines => open = true ∧ paced last false lines
  end.

Lemma notes_paced calls b : paced (last_saturation_log b) (saturated b) (notes b calls).
Proof.
  revert b. induction calls as [|[now available] calls IH]; intros b; [done|].
  cbn [notes]. unfold note, note_recovery, note_saturation. destruct available.
  - destruct (saturated b); simpl; [split; [done|]|]; apply (IH (mkLogState _ _)).
  - destruct (last_saturation_log b) as [last|] eqn:Hl; [|split; [done|apply (IH (mkLogState _ _))]].
    destruct (Z.ltb_spec (Z.max 0 (now - last)) SATURATION_LOG_INTERVAL); simpl; [rewrite <- Hl; apply IH|].
    split; [unfold SATURATION_LOG_INTERVAL in *; lia|apply (IH (mkLogState _ _))].
Qed.

(** Whatever the sequence of observations of the stream budget, its log is paced: two
    saturation lines are at least ten seconds apart, and each recovery line follows the
    saturation line it answers. *)
Theorem budget_log_paced calls : paced None false (notes log_state_new calls).
Proof. apply (notes_paced calls log_state_new). Qed.

(** ** A stream that is routed *)

Import ToyAcceptor.

Module StreamToy.
Definition peer : VisitorTcpAddresses := mkAddresses (SockV4 3232235777 4242) (SockV4 2130706433 443).
Definition frame : bytes := default [] (encode_tunnel_stream peer (u8_of 8 :: bs "app.test")).
Definition service : ServiceConfig := mkService (Some [bs "app.test"]) (bs "127.0.0.1:8080") Terminate None.
Definition env : Env := mkEnv true (InTime (Ok tt)) (InTime (Ok tt)) (InTime (Ok tt)) (Ok tt).
Definition configs : TerminationTlsConfigs nat := mkTlsConfigs {[ bs "app.test" := 7%nat ]} ∅.
Definition handled : outcome (C := nat) := default (ends (Ok tt)) (handle (A := bytes) [service] configs env [Data frame]).
End StreamToy.

Lemma client_stream_routed_witness :
  routed (A := bytes) [StreamToy.service] StreamToy.configs StreamToy.env [Data StreamToy.frame]
    (fst StreamToy.handled) (snd StreamToy.handled).
Proof.
  destruct (client_stream_routed (A := bytes) [StreamToy.service] StreamToy.configs StreamToy.env [Data StreamToy.frame]
    (fst StreamToy.handled) (snd StreamToy.handled)) as [Hc|Hr]; [by vm_compute| |done].
  by vm_compute in Hc.
Defined.
