(* ===== verification/Visitors.v ===== *)
(** * Visitors: the Server's handling of Visitor connections

    [src/server/visitor_stream.rs]: admission of an accepted TCP connection, the intake under
    its deadline (PROXY header from trusted peers, the per-source limit, the ClientHello), the
    choice between the Server's own hostname and a Tunnel, opening a Tunnel stream, and
    relaying.

    All tasks share the admission policy of [Admission] and interleave between its
    operations; each step below performs at most one of them.  What a Visitor sends is a
    reader of [Framing] and is read by its functions; the deadline and a shutdown may strike
    whenever the intake awaits.  The registry's answers (the route, the acceptance of the
    work, an abort) are inputs; [Registry] says which it gives. *)

From Stdlib Require Import String Ascii ZArith Lia.
From stdpp Require Import base strings numbers gmap list relations.
From S2P Require Import Prelude Text Names Framing Admission Relay.
Import Reader Proxy Hello Tunnel Policy.

Open Scope Z_scope.

(** ** Tasks *)

(** How a task ended. *)
Inductive Ending :=
| SocketFailed
| ShutDown
| DeadlineMissed
| PeerNotTrusted
| BadProxyHeader (e : ProxyV2Error)
| SourceSaturated
| BadClientHello (e : ClientHelloError)
| RejectedServerHostname
| ChallengeServed
| MissingAcmeTlsConfig
| CertificateNotServing
| RejectedUnauthorized
| NoActiveTunnelConnection
| OpenSaturated
| StreamSaturated
| WorkRefused
| WorkAborted
| TaskAborted
| Relayed (r : result IoError unit).

(** What a task goes on with once its pre-routing permit is dropped. *)
Inductive Onward := Parsed (h : ParsedClientHello) (a : VisitorTcpAddresses) (rest : reader) | Stops (e : Ending).

(** Where a task stands; [r] is what is left of the Visitor's stream.  The first five hold
    the pre-routing permit, charged to a source from [ReadHello] on; [Opening], [NoTunnel],
    [Opened] and [Undo] hold the permit of a pending open, [Both] that and the permit of an
    active stream, [Registering], [Running] and [Releasing] the latter. *)
Inductive Place :=
| Entered (r : reader)
| ReadProxy (direct : VisitorTcpAddresses) (r : reader)
| UseSource (a : VisitorTcpAddresses) (r : reader)
| ReadHello (source : IpAddr) (a : VisitorTcpAddresses) (r : reader)
| Leaving (source : option IpAddr) (o : Onward)
| Dispatch (h : ParsedClientHello) (a : VisitorTcpAddresses) (r : reader)
| Challenge (h : ParsedClientHello) (r : reader)
| Gate (h : ParsedClientHello) (a : VisitorTcpAddresses) (r : reader)
| Routing (h : ParsedClientHello) (a : VisitorTcpAddresses) (r : reader)
| Routed (h : ParsedClientHello) (a : VisitorTcpAddresses) (r : reader)
| Opening (h : ParsedClientHello) (a : VisitorTcpAddresses) (r : reader)
| Opened (h : ParsedClientHello) (a : VisitorTcpAddresses) (r tunnel : reader)
| Undo (e : Ending)
| Both (h : ParsedClientHello) (a : VisitorTcpAddresses) (r tunnel : reader)
| Registering (h : ParsedClientHello) (a : VisitorTcpAddresses) (r tunnel : reader)
| Running (h : ParsedClientHello) (a : VisitorTcpAddresses) (x : Relay)
| Releasing (e : Ending)
| Ended (e : Ending).

(** A task with the stream it was accepted with and, once known, its socket's addresses. *)
Record Task := mkTask { visitor : reader; direct : option VisitorTcpAddresses; place : Place }.
Definition at_place (p : Place) (t : Task) : Task := mkTask (visitor t) (direct t) p.

Definition socket_ip (s : SocketAddr) : IpAddr :=
  match s with SockV4 ip _ => IpV4 ip | SockV6 ip _ _ _ => IpV6 ip end.

(** The shared policy, the tasks (the latest first) and the permits of other work. *)
Record Server := mkServer {
  shared : ServerAdmissionPolicy;
  tasks : list Task;
  other_handshakes : Z;
  other_connections : list bytes
}.
Definition server_new (ls : ServerAdmissionLimits) : Server := mkServer (policy_new ls) [] 0 [].

Definition with_shared (p : ServerAdmissionPolicy) (s : Server) : Server :=
  mkServer p (tasks s) (other_handshakes s) (other_connections s).
Definition with_task (i : nat) (t : Task) (s : Server) : Server :=
  mkServer (shared s) (<[i := t]> (tasks s)) (other_handshakes s) (other_connections s).

Inductive Input :=
| Socket (o : option VisitorTcpAddresses)
| Continue
| Deadline
| Shutdown
| Certificate (serving : bool)
| ChallengeDone
| Route (o : option bool)
| Stream (o : option reader)
| Register (ok : bool)
| Relaying (a : RelayAction)
| Abort.

(** [Route None]: unauthorized; [Route (Some connected)].  [Stream None]: the open failed.
    [Abort]: the registry aborts the Visitor's work, or [abort_all] at the end of the loop the
    task, wherever it is suspended; its future is dropped with the permits it holds. *)
Inductive Action :=
| Accept (r : reader)
| Act (i : nat) (x : Input)
| AdmitHandshake
| DropHandshake
| AcquireConnection (id : bytes)
| DropConnection (i : nat).

Section Intake.
Context {A : Type} `{TlsAcceptor A}.
(** [VisitorIntake]: the Server's hostname, whether a challenge configuration and a PROXY
    protocol are set, and the trusted networks. *)
Context (server_hostname : bytes) (public_tls_config has_certificate visitor_proxy_protocol : bool).
Context (visitor_proxy_trusted_networks : list TrustedNetwork).

Definition trusted (peer : IpAddr) : bool := existsb (λ n, TrustedNetwork_contains n peer) visitor_proxy_trusted_networks.

(** [intake_until], up to the end of its deadline. *)
Definition intake_step (p : ServerAdmissionPolicy) (t : Task) (x : Input) :
    next (ServerAdmissionPolicy * Task) :=
  let go q := Steps (p, at_place q t) in
  match place t, x with
  | Entered r, Socket None => go (Leaving None (Stops SocketFailed))
  | Entered r, Socket (Some a) => Steps (p, mkTask (visitor t) (Some a) (ReadProxy a r))
  | ReadProxy a r, Continue =>
      if visitor_proxy_protocol then
        if trusted (socket_ip (source a)) then
          match read_proxy_v2 r with
          | Ok (b, r) => go (UseSource b r)
          | Err e => go (Leaving None (Stops (BadProxyHeader e)))
          end
        else go (Leaving None (Stops PeerNotTrusted))
      else go (UseSource a r)
  | UseSource a r, Continue =>
      let ip := socket_ip (source a) in
      match use_canonical_source p None ip (max_pending_visitors_per_source (limits p)) with
      | None => Panics
      | Some (Err _) => go (Leaving None (Stops SourceSaturated))
      | Some (Ok (p, _)) => Steps (p, at_place (ReadHello ip a r) t)
      end
  | ReadHello ip a r, Continue =>
      match read_client_hello r with
      | None => Panics
      | Some (Ok (h, r)) => go (Leaving (Some ip) (Parsed h a r))
      | Some (Err e) => go (Leaving (Some ip) (Stops (BadClientHello e)))
      end
  | ReadProxy _ _, Deadline => go (Leaving None (Stops DeadlineMissed))
  | ReadHello ip _ _, Deadline => go (Leaving (Some ip) (Stops DeadlineMissed))
  | ReadProxy _ _, Shutdown => go (Leaving None (Stops ShutDown))
  | ReadHello ip _ _, Shutdown => go (Leaving (Some ip) (Stops ShutDown))
  | Entered _, Abort | ReadProxy _ _, Abort => go (Leaving None (Stops TaskAborted))
  | ReadHello ip _ _, Abort => go (Leaving (Some ip) (Stops TaskAborted))
  | Leaving source o, Continue =>
      match drop_visitor p source with
      | None => Panics
      | Some p => Steps (p, at_place (match o with Parsed h a r => Dispatch h a r | Stops e => Ended e end) t)
      end
  | _, _ => Disabled
  end.

(** [handle_parsed] and [serve_acme_tls_alpn_01] *)
Definition parsed_step (p : ServerAdmissionPolicy) (t : Task) (x : Input) :
    next (ServerAdmissionPolicy * Task) :=
  let go q := Steps (p, at_place q t) in
  match place t, x with
  | Dispatch h a r, Continue =>
      if bool_decide (public_hostname h = server_hostname) then
        if offers_alpn_protocol h (bs "acme-tls/1")
        then go (if public_tls_config then Challenge h r else Ended MissingAcmeTlsConfig)
        else go (Ended RejectedServerHostname)
      else go (if has_certificate then Gate h a r else Routing h a r)
  | Challenge h r, ChallengeDone => go (Ended ChallengeServed)
  | Gate h a r, Certificate serving => go (if serving then Routing h a r else Ended CertificateNotServing)
  | Routing h a r, Route None => go (Ended RejectedUnauthorized)
  | Routing h a r, Route (Some false) => go (Ended NoActiveTunnelConnection)
  | Routing h a r, Route (Some true) => go (Routed h a r)
  | Challenge _ _, Abort | Routing _ _ _, Abort => go (Ended TaskAborted)
  | _, _ => Disabled
  end.

(** [forward_to_tunnel] *)
Definition forward_step (p : ServerAdmissionPolicy) (t : Task) (x : Input) :
    next (ServerAdmissionPolicy * Task) :=
  let go q := Steps (p, at_place q t) in
  let drop_open q := Steps (set_opens (pending_stream_opens p + 1) p, at_place q t) in
  match place t, x with
  | Routed h a r, Continue =>
      match try_admit_pending_stream_open p with
      | Ok p => Steps (p, at_place (Opening h a r) t)
      | Err _ => go (Ended OpenSaturated)
      end
  | Opening h a r, Stream None => go (Undo NoActiveTunnelConnection)
  | Opening h a r, Stream (Some tunnel) => go (Opened h a r tunnel)
  | Opening h a r, Abort => go (Undo TaskAborted)
  | Opened h a r tunnel, Continue =>
      match try_admit_active_routed_stream p with
      | Ok p => Steps (p, at_place (Both h a r tunnel) t)
      | Err _ => go (Undo StreamSaturated)
      end
  | Undo e, Continue => drop_open (Ended e)
  | Both h a r tunnel, Continue => drop_open (Registering h a r tunnel)
  | Registering h a r tunnel, Register false => go (Releasing WorkRefused)
  | Registering h a r tunnel, Register true =>
      match encode_tunnel_stream a (buffered_bytes h) with
      | None => Panics
      | Some initial => go (Running h a (proxy_tcp_over_tunnel r initial tunnel))
      end
  | Running h a x, Relaying act =>
      match relay_exec x act with
      | Steps x => go (Running h a x)
      | Disabled => Disabled
      | Panics => Panics
      end
  | Running h a x, Continue =>
      match relay_result x with Some res => go (Releasing (Relayed res)) | None => Disabled end
  | Running h a x, Abort => go (Releasing WorkAborted)
  | Releasing e, Continue =>
      Steps (set_streams (active_routed_streams p + 1) p, at_place (Ended e) t)
  | _, _ => Disabled
  end.

Definition task_step (p : ServerAdmissionPolicy) (t : Task) (x : Input) : next (ServerAdmissionPolicy * Task) :=
  match place t with
  | Entered _ | ReadProxy _ _ | UseSource _ _ | ReadHello _ _ _ | Leaving _ _ => intake_step p t x
  | Dispatch _ _ _ | Challenge _ _ | Gate _ _ _ | Routing _ _ _ => parsed_step p t x
  | Ended _ => Disabled
  | _ => forward_step p t x
  end.

(** ** The permits of the tasks *)

Definition visitor_permit (t : Task) : option (option IpAddr) :=
  match place t with
  | Entered _ | ReadProxy _ _ | UseSource _ _ => Some None
  | ReadHello ip _ _ => Some (Some ip)
  | Leaving source _ => Some source
  | _ => None
  end.
Definition open_permit (t : Task) : Z :=
  match place t with Opening _ _ _ | Opened _ _ _ _ | Undo _ | Both _ _ _ _ => 1 | _ => 0 end.
Definition stream_permit (t : Task) : Z :=
  match place t with Both _ _ _ _ | Registering _ _ _ _ | Running _ _ _ | Releasing _ => 1 | _ => 0 end.
Definition count (f : Task → Z) (ts : list Task) : Z := foldr (λ t n, f t + n) 0 ts.

(** The admission world of a Server: its policy with the permits held. *)
Definition world_of (s : Server) : World :=
  mkWorld (shared s) (omap visitor_permit (tasks s)) (other_handshakes s)
    (count open_permit (tasks s)) (count stream_permit (tasks s)) (other_connections s).

(** [accepted_task] for [Accept]; the handshakes and Tunnel connections of other tasks take
    and drop their permits of the same policy. *)
Definition exec (s : Server) (a : Action) : next Server :=
  match a with
  | Accept r =>
      match try_admit_visitor_global (shared s) with
      | Ok (p, _) => Steps (mkServer p (mkTask r None (Entered r) :: tasks s) (other_handshakes s) (other_connections s))
      | Err _ => Steps s
      end
  | Act i x =>
      match tasks s !! i with
      | Some t => match task_step (shared s) t x with
                  | Steps (p, t) => Steps (with_task i t (with_shared p s))
                  | Disabled => Disabled
                  | Panics => Panics
                  end
      | None => Disabled
      end
  | AdmitHandshake =>
      match try_admit_handshake (shared s) with
      | Ok p => Steps (mkServer p (tasks s) (other_handshakes s + 1) (other_connections s))
      | Err _ => Steps s
      end
  | DropHandshake =>
      if 0 <? other_handshakes s
      then Steps (mkServer (set_handshakes (pending_handshakes (shared s) + 1) (shared s)) (tasks s)
                    (other_handshakes s - 1) (other_connections s))
      else Disabled
  | AcquireConnection id =>
      match try_acquire (shared s) id with
      | Ok p => Steps (mkServer p (tasks s) (other_handshakes s) (id :: other_connections s))
      | Err _ => Steps s
      end
  | DropConnection i =>
      match other_connections s !! i with
      | Some id => match drop_connection (shared s) id with
                   | Some p => Steps (mkServer p (tasks s) (other_handshakes s) (delete i (other_connections s)))
                   | None => Panics
                   end
      | None => Disabled
      end
  end.

(** ** The permits: a refinement of [Admission] *)

(** What a step of a task does to the policy and to the permits it holds. *)
Inductive permit_effect (p : ServerAdmissionPolicy) (t : Task) : ServerAdmissionPolicy → Task → Prop :=
| effect_none t' :
    visitor_permit t' = visitor_permit t → open_permit t' = open_permit t → stream_permit t' = stream_permit t →
    permit_effect p t p t'
| effect_source ip p' t' :
    visitor_permit t = Some None → visitor_permit t' = Some (Some ip) →
    use_canonical_source p None ip (max_pending_visitors_per_source (limits p)) = Some (Ok (p', Some ip)) →
    open_permit t' = open_permit t → stream_permit t' = stream_permit t → permit_effect p t p' t'
| effect_drop_visitor source p' t' :
    visitor_permit t = Some source → visitor_permit t' = None → drop_visitor p source = Some p' →
    open_permit t' = open_permit t → stream_permit t' = stream_permit t → permit_effect p t p' t'
| effect_open p' t' :
    try_admit_pending_stream_open p = Ok p' → visitor_permit t' = visitor_permit t →
    open_permit t' = open_permit t + 1 → stream_permit t' = stream_permit t → permit_effect p t p' t'
| effect_drop_open t' :
    open_permit t = 1 → visitor_permit t' = visitor_permit t → open_permit t' = 0 →
    stream_permit t' = stream_permit t →
    permit_effect p t (set_opens (pending_stream_opens p + 1) p) t'
| effect_stream p' t' :
    try_admit_active_routed_stream p = Ok p' → visitor_permit t' = visitor_permit t →
    open_permit t' = open_permit t → stream_permit t' = stream_permit t + 1 → permit_effect p t p' t'
| effect_drop_stream t' :
    stream_permit t = 1 → visitor_permit t' = visitor_permit t → open_permit t' = open_permit t →
    stream_permit t' = 0 →
    permit_effect p t (set_streams (active_routed_streams p + 1) p) t'.

Lemma canonical_source_permit p ip n p' s :
  use_canonical_source p None ip n = Some (Ok (p', s)) → s = Some ip.
Proof.
  unfold use_canonical_source. case_bool_decide; [done|]. case_match; [done|]. cbn. by intros [= <- <-].
Qed.

(** Every way a step of a task can go. *)
Ltac task_cases E :=
  unfold task_step, intake_step, parsed_step, forward_step in E;
  repeat match type of E with
         | context [match ?x with _ => _ end] =>
             lazymatch x with context [match _ with _ => _ end] => fail | _ => destruct x eqn:? end;
             cbv beta iota zeta in E; try discriminate E
         end; try (injection E as <- <-).

(** The permits at a known place. *)
Ltac permits := unfold visitor_permit, open_permit, stream_permit; simpl;
  repeat match goal with H : place _ = _ |- _ => rewrite H end; done.

Lemma task_step_effect p t x p' t' : task_step p t x = Steps (p', t') → permit_effect p t p' t'.
Proof.
  intros E. task_cases E.
  all: try (apply effect_none; permits).
  - pose proof (canonical_source_permit _ _ _ _ _ Heqo) as ->. eapply effect_source; [permits|permits|done|permits|permits].
  - eapply effect_drop_visitor; [permits|permits|done|permits|permits].
  - eapply effect_drop_visitor; [permits|permits|done|permits|permits].
  - eapply effect_open; [done|permits|permits|permits].
  - eapply effect_stream; [done|permits|permits|permits].
  - eapply effect_drop_open; permits.
  - eapply effect_drop_open; permits.
  - eapply effect_drop_stream; permits.
Qed.

Lemma count_app f l k : count f (l ++ k) = count f l + count f k.
Proof. induction l as [|t l IH]; simpl; [done|]. rewrite IH. lia. Qed.
Lemma open_permit_nonneg l : 0 <= count open_permit l.
Proof. induction l as [|t l IH]; simpl; [done|]. unfold open_permit at 1. case_match; lia. Qed.
Lemma stream_permit_nonneg l : 0 <= count stream_permit l.
Proof. induction l as [|t l IH]; simpl; [done|]. unfold stream_permit at 1. case_match; lia. Qed.

(** Replacing one task of the list. *)
Lemma world_of_middle p t1 t t2 hs cs :
  world_of (mkServer p (t1 ++ t :: t2) hs cs) =
  mkWorld p (omap visitor_permit t1 ++ option_list (visitor_permit t) ++ omap visitor_permit t2) hs
    (count open_permit (t1 ++ t2) + open_permit t) (count stream_permit (t1 ++ t2) + stream_permit t) cs.
Proof.
  unfold world_of. simpl. rewrite omap_app, !count_app. simpl. f_equal; [|lia..].
  by destruct (visitor_permit t).
Qed.

Lemma permit_effect_step p t p' t' t1 t2 hs cs :
  permit_effect p t p' t' →
  rtc step (world_of (mkServer p (t1 ++ t :: t2) hs cs)) (world_of (mkServer p' (t1 ++ t' :: t2) hs cs)).
Proof.
  intros E. rewrite !world_of_middle.
  pose proof (open_permit_nonneg (t1 ++ t2)) as Ho. pose proof (stream_permit_nonneg (t1 ++ t2)) as Hs.
  destruct E as [t' Hv Hop Hst|ip p' t' Hv Hv' Hu Hop Hst|src p' t' Hv Hv' Hd Hop Hst|p' t' Ha Hv Hop Hst
    |t' H1 Hv Hop Hst|p' t' Ha Hv Hop Hst|t' H1 Hv Hop Hst].
  - rewrite Hv, Hop, Hst. apply rtc_refl.
  - apply rtc_once. rewrite Hv, Hv', Hop, Hst. simpl. by eapply (step_canonical_source (mkWorld _ _ _ _ _ _)).
  - apply rtc_once. rewrite Hv, Hv', Hop, Hst. simpl. by eapply (step_drop_visitor (mkWorld _ _ _ _ _ _)).
  - apply rtc_once. rewrite Hv, Hop, Hst, Z.add_assoc. by apply (step_admit_open (mkWorld _ _ _ _ _ _)).
  - apply rtc_once. rewrite Hv, Hop, Hst, H1, Z.add_0_r.
    replace (count open_permit (t1 ++ t2)) with (count open_permit (t1 ++ t2) + 1 - 1) at 2 by lia.
    apply (step_drop_open (mkWorld _ _ _ _ _ _)). simpl. lia.
  - apply rtc_once. rewrite Hv, Hop, Hst, Z.add_assoc. by apply (step_admit_stream (mkWorld _ _ _ _ _ _)).
  - apply rtc_once. rewrite Hv, Hop, Hst, H1, Z.add_0_r.
    replace (count stream_permit (t1 ++ t2)) with (count stream_permit (t1 ++ t2) + 1 - 1) at 2 by lia.
    apply (step_drop_stream (mkWorld _ _ _ _ _ _)). simpl. lia.
Qed.

Lemma exec_refines s a s' : exec s a = Steps s' → rtc step (world_of s) (world_of s').
Proof.
  destruct s as [p ts hs cs]. intros E. unfold exec in E. destruct a as [r|i x| | |id|i]; simpl in E.
  - destruct (try_admit_visitor_global p) as [[p' s0]|] eqn:Ha; injection E as <-; [|apply rtc_refl].
    apply rtc_once. assert (s0 = None) as -> by (unfold try_admit_visitor_global in Ha; destruct (try_acquire_owned _ _ _); naive_solver).
    by apply (step_admit_visitor (world_of (mkServer p ts hs cs))).
  - destruct (ts !! i) as [t|] eqn:Hi; [|done]. destruct (task_step p t x) as [[p' t']| |] eqn:Ht; [|done..].
    injection E as <-. apply task_step_effect in Ht. unfold with_task, with_shared. simpl.
    pose proof (take_drop_middle _ _ _ Hi) as Hm. rewrite <- Hm at 1.
    assert (<[i:=t']> ts = take i ts ++ t' :: drop (S i) ts) as ->.
    { apply insert_take_drop. by eapply lookup_lt_Some. }
    by apply permit_effect_step.
  - destruct (try_admit_handshake p) as [p'|] eqn:Ha; injection E as <-; [|apply rtc_refl].
    apply rtc_once. by apply (step_admit_handshake (world_of (mkServer p ts hs cs))).
  - destruct (Z.ltb_spec 0 hs); [|done]. injection E as <-. apply rtc_once.
    by apply (step_drop_handshake (world_of (mkServer p ts hs cs))).
  - destruct (try_acquire p id) as [p'|] eqn:Ha; injection E as <-; [|apply rtc_refl].
    apply rtc_once. by apply (step_acquire (world_of (mkServer p ts hs cs))).
  - destruct (cs !! i) as [id|] eqn:Hi; [|done]. destruct (drop_connection p id) as [p'|] eqn:Hd; [|done].
    injection E as <-. apply rtc_once. rewrite delete_take_drop.
    eapply (step_drop_connection (world_of (mkServer p ts hs cs))); [|done]. simpl. by rewrite take_drop_middle.
Qed.

(** ** Where a Visitor's addresses and ClientHello come from *)

(** The addresses of a task and what is left of its stream: those of its socket, or, with the
    PROXY protocol, those a trusted peer sent first. *)
Definition addressed (t : Task) (a : VisitorTcpAddresses) (r : reader) : Prop :=
  ∃ d, direct t = Some d ∧ is_Some (encode_proxy_v2 d) ∧
    if visitor_proxy_protocol then trusted (socket_ip (source d)) = true ∧ read_proxy_v2 (visitor t) = Ok (a, r)
    else a = d ∧ r = visitor t.
Definition heard (t : Task) (h : ParsedClientHello) (a : VisitorTcpAddresses) (r : reader) : Prop :=
  ∃ r', addressed t a r' ∧ read_client_hello r' = Some (Ok (h, r)).

Definition sound_task (t : Task) : Prop :=
  match place t with
  | Entered r => r = visitor t
  | ReadProxy d r => direct t = Some d ∧ is_Some (encode_proxy_v2 d) ∧ r = visitor t
  | UseSource a r | ReadHello _ a r => addressed t a r
  | Leaving _ (Parsed h a r) | Dispatch h a r => heard t h a r
  | Challenge h r => public_hostname h = server_hostname ∧ public_tls_config = true ∧
      offers_alpn_protocol h (bs "acme-tls/1") = true ∧ ∃ a, heard t h a r
  | Gate h a r | Routing h a r | Routed h a r | Opening h a r
  | Opened h a r _ | Both h a r _ | Registering h a r _ => heard t h a r ∧ public_hostname h ≠ server_hostname
  | Running h a x => ∃ r tunnel initial acts,
      heard t h a r ∧ public_hostname h ≠ server_hostname ∧
      encode_tunnel_stream a (buffered_bytes h) = Some initial ∧
      run_actions relay_exec (proxy_tcp_over_tunnel r initial tunnel) acts = Some x
  | _ => True
  end.

(** The addresses of one socket are of one family. *)
Definition sane (a : Action) : Prop :=
  match a with Act _ (Socket (Some d)) => is_Some (encode_proxy_v2 d) | _ => True end.

Lemma addressed_encodes t a r : addressed t a r → is_Some (encode_proxy_v2 a).
Proof.
  intros (d & _ & Hd & H1). destruct visitor_proxy_protocol; [|by destruct H1 as [-> _]].
  destruct H1 as [_ Hr]. by eapply read_proxy_v2_encodes.
Qed.

Lemma sound_task_step p t x p' t' i :
  sane (Act i x) → sound_task t → task_step p t x = Steps (p', t') → sound_task t'.
Proof.
  intros Hsane Hs E. unfold sound_task in Hs. task_cases E.
  all: repeat match goal with H : place _ = _ |- _ => rewrite H in Hs; clear H end.
  all: unfold sound_task; simpl; try done.
  - destruct Hs as (Hd & He & ->). exists direct0. by rewrite Heqb.
  - destruct Hs as (Hd & He & ->). exists direct0. by rewrite Heqb.
  - by exists r.
  - apply bool_decide_eq_true in Heqb. split_and!; try done. by exists a.
  - by apply bool_decide_eq_false in Heqb.
  - by apply bool_decide_eq_false in Heqb.
  - destruct Hs as [Hs Hn]. by exists r, tunnel, l, [].
  - destruct Hs as (r & tunnel & initial & acts & ? & ? & ? & Hr). exists r, tunnel, initial, (acts ++ [a0]).
    split_and!; try done. rewrite run_actions_app, Hr. simpl. by rewrite Heqn.
Qed.

(** *** No panics *)

Lemma relay_exec_no_panic x a : relay_exec x a ≠ Panics.
Proof.
  assert (∀ d a, Relay.exec d a ≠ Panics) as Hd.
  { intros d b. unfold Relay.exec, write_initial, fill. by repeat case_match. }
  destruct a as [a|a]; simpl; [destruct (Relay.exec (to_tunnel x) a) eqn:E|destruct (Relay.exec (to_tcp x) a) eqn:E];
    try done; by apply Hd in E.
Qed.

Lemma canonical_source_no_panic p ip n : use_canonical_source p None ip n ≠ None.
Proof. unfold use_canonical_source. case_bool_decide; [done|]. by case_match. Qed.

Lemma task_no_panic p t x :
  sound_task t → (∀ source, visitor_permit t = Some source → drop_visitor p source ≠ None) →
  task_step p t x ≠ Panics.
Proof.
  intros Hs Hd E. unfold sound_task in Hs. unfold visitor_permit in Hd. task_cases E.
  all: repeat match goal with H : place _ = _ |- _ => rewrite H in Hs, Hd end.
  - by apply canonical_source_no_panic in Heqo.
  - destruct (read_client_hello_total r) as [? Ht]. congruence.
  - by apply (Hd source0).
  - destruct Hs as [(r' & Ha & _) _]. apply addressed_encodes in Ha as [b Hb].
    unfold encode_tunnel_stream in Heqo. by rewrite Hb in Heqo.
  - by apply relay_exec_no_panic in Heqn.
Qed.

(** ** Reachable Servers *)

Record server_inv (ls : ServerAdmissionLimits) (s : Server) : Prop := {
  server_refines : Policy.reachable ls (world_of s);
  server_sound : Forall sound_task (tasks s)
}.

Lemma visitor_server_step ls s a s' : sane a → server_inv ls s → exec s a = Steps s' → server_inv ls s'.
Proof.
  intros Hsane [Hr Hs] E. split.
  - unfold Policy.reachable in *. etrans; [done|]. by apply exec_refines in E.
  - unfold exec in E. destruct a as [r|i x| | |id|i].
    + destruct (try_admit_visitor_global _) as [[p' s0]|]; injection E as <-; [|done]. by constructor.
    + destruct (tasks s !! i) as [t|] eqn:Hi; [|done].
      destruct (task_step (shared s) t x) as [[p' t']| |] eqn:Ht; [|done..]. injection E as <-. simpl.
      apply Forall_insert; [done|]. eapply sound_task_step; [done| |done]. by eapply Forall_lookup_1.
    + by destruct (try_admit_handshake _); injection E as <-.
    + destruct (0 <? _); [|done]. by injection E as <-.
    + by destruct (try_acquire _ _); injection E as <-.
    + destruct (other_connections s !! i); [|done]. destruct (drop_connection _ _); [|done]. by injection E as <-.
Qed.

Lemma server_inv_run ls s acts s' :
  Forall sane acts → server_inv ls s → run_actions exec s acts = Some s' → server_inv ls s'.
Proof.
  intros Ha. revert s. induction Ha as [|a acts Ha _ IH]; intros s Hs Hr; simpl in Hr; [by simplify_eq|].
  destruct (exec s a) as [s1| |] eqn:E; [|done..]. eapply IH; [|done]. by eapply visitor_server_step.
Qed.

Lemma server_inv_new ls : server_inv ls (server_new ls).
Proof. split; [apply rtc_refl|constructor]. Qed.

Lemma world_of_lookup s i t source :
  tasks s !! i = Some t → visitor_permit t = Some source →
  ∃ v1 v2, visitors (world_of s) = v1 ++ source :: v2.
Proof.
  intros Hi Hv. pose proof (take_drop_middle _ _ _ Hi) as Hm. unfold world_of. simpl. rewrite <- Hm, omap_app.
  simpl. rewrite Hv. by eexists _, _.
Qed.

Lemma server_no_panic ls s a : limits_ok ls → server_inv ls s → exec s a ≠ Panics.
Proof.
  intros Hl [Hr Hs] E. pose proof (accounting_reachable _ _ Hl Hr) as Hacc. unfold exec in E.
  destruct a as [r|i x| | |id|i].
  - by destruct (try_admit_visitor_global _) as [[]|].
  - destruct (tasks s !! i) as [t|] eqn:Hi; [|done].
    destruct (task_step (shared s) t x) as [[p' t']| |] eqn:Ht; [done..|].
    eapply (task_no_panic (shared s) t x); [by eapply Forall_lookup_1| |done].
    intros src Hv Hn. destruct (world_of_lookup s i t src Hi Hv) as (v1 & v2 & Hw).
    pose proof (acc_sources _ _ Hacc) as Htr. rewrite Hw in Htr.
    destruct (drop_visitor_spec (shared s) v1 src v2 Htr) as (m & Hm & _). congruence.
  - by destruct (try_admit_handshake _).
  - by destruct (0 <? _).
  - by destruct (try_acquire _ _).
  - destruct (other_connections s !! i) as [id|] eqn:Hi; [|done].
    pose proof (take_drop_middle _ _ _ Hi) as Hm.
    pose proof (acc_identities _ _ Hacc) as Htr. pose proof (acc_active _ _ Hacc) as Hact. simpl in Htr, Hact.
    rewrite <- Hm in Htr. rewrite <- Hm, len_app, len_cons in Hact.
    pose proof (len_nonneg (take i (other_connections s))). pose proof (len_nonneg (drop (S i) (other_connections s))).
    destruct (drop_connection_spec (shared s) _ id _ Htr) as (m & Hd & _); [lia|]. by rewrite Hd in E.
Qed.

(** C16: The tasks of all Visitors together use the admission policy exactly as [Admission]
    allows, whatever their streams, their interleaving, deadlines, shutdowns and the answers of
    the registry: no permit is counted twice, released twice or leaked, no operation panics,
    and once every task has ended the pre-routing, pending-open and active-stream capacity is
    whole again. *)
Theorem visitor_permits_exact ls acts s :
  limits_ok ls → Forall sane acts → run_actions exec (server_new ls) acts = Some s →
  accounting ls (world_of s) ∧ (∀ a, exec s a ≠ Panics) ∧
  (Forall (λ t, ∃ e, place t = Ended e) (tasks s) →
     pending_visitors (shared s) = max_pending_visitors ls ∧
     pending_stream_opens (shared s) = max_pending_stream_opens ls ∧
     active_routed_streams (shared s) = max_active_routed_streams ls).
Proof.
  intros Hl Ha Hr. pose proof (server_inv_run ls _ _ _ Ha (server_inv_new ls) Hr) as Hi.
  pose proof (accounting_reachable _ _ Hl (server_refines _ _ Hi)) as Hacc.
  split_and!; [done|intros a; by eapply server_no_panic|]. intros He.
  assert (omap visitor_permit (tasks s) = [] ∧ count open_permit (tasks s) = 0 ∧ count stream_permit (tasks s) = 0)
    as (Hv & Ho & Hst).
  { clear -He. induction He as [|t ts (e & Hp) _ (IH1 & IH2 & IH3)]; [done|].
    assert (visitor_permit t = None ∧ open_permit t = 0 ∧ stream_permit t = 0) as (V & O & S) by (split_and!; permits).
    simpl. rewrite V, O, S. split_and!; [done|lia..]. }
  destruct Hacc. simpl in *. rewrite Hv, Ho, Hst in *. rewrite len_nil in *. lia.
Qed.

(** C17: A Visitor is relayed only with what it sent.  Its hostname is the one of its own
    ClientHello and is not the Server's; its addresses are its socket's, or those of a PROXY
    header that a trusted peer sent first; and what has gone into the Tunnel is a prefix of
    the encoded addresses followed by the Visitor's bytes from the ClientHello on. *)
Theorem relayed_visitor_heard ls acts s i t h a x :
  Forall sane acts → run_actions exec (server_new ls) acts = Some s →
  tasks s !! i = Some t → place t = Running h a x →
  public_hostname h ≠ server_hostname ∧
  ∃ r' r header, addressed t a r' ∧ read_client_hello r' = Some (Ok (h, r)) ∧ encode_proxy_v2 a = Some header ∧
    sink (to_tunnel x) `prefix_of` header ++ buffered_bytes h ++ stream_bytes r ∧
    (fin (to_tunnel x) = true → sink (to_tunnel x) = header ++ buffered_bytes h ++ stream_bytes r).
Proof.
  intros Ha Hr Hi Hp. destruct (server_inv_run ls _ _ _ Ha (server_inv_new ls) Hr) as [_ Hs].
  eapply Forall_lookup_1 in Hs; [|done]. unfold sound_task in Hs. rewrite Hp in Hs.
  destruct Hs as (r & tunnel & initial & acts' & (r' & Had & Hh) & Hn & He & Hx). split; [done|].
  unfold encode_tunnel_stream in He. destruct (encode_proxy_v2 a) as [header|]; [|done]. injection He as <-.
  apply relay_inv in Hx as [Hd _]. exists r', r, header. rewrite app_assoc. split_and!; try done; [apply Hd|].
  intros Hf. apply (inv_shutdown _ _ _ _ Hd). right. by apply (inv_fin _ _ _ _ Hd).
Qed.

(** The steps that bring a Visitor of the challenge's hostname to its TLS handshake. *)
Definition to_challenge (r : reader) (a : VisitorTcpAddresses) : list Action :=
  Accept r :: Act 0 (Socket (Some a)) :: replicate 5 (Act 0 Continue).

(** Evaluates the steps of a task up to the operations of the policy and the readers. *)
Ltac run_task := cbn -[use_canonical_source drop_visitor read_client_hello try_admit_visitor_global bool_decide
  offers_alpn_protocol bs].

Lemma to_challenge_runs ls r a h rest ts hs cs :
  public_tls_config = true → visitor_proxy_protocol = false →
  1 <= max_pending_visitors ls → 1 <= max_pending_visitors_per_source ls →
  read_client_hello r = Some (Ok (h, rest)) → public_hostname h = server_hostname →
  offers_alpn_protocol h (bs "acme-tls/1") = true →
  run_actions exec (mkServer (policy_new ls) ts hs cs) (to_challenge r a) =
    Some (mkServer (policy_new ls) (mkTask r (Some a) (Challenge h rest) :: ts) hs cs).
Proof.
  intros Htls Hproxy Hv Hs Hh Hn Ho.
  assert (try_admit_visitor_global (policy_new ls) =
    Ok (set_visitors (max_pending_visitors ls - 1) ∅ (policy_new ls), None)) as E1.
  { unfold try_admit_visitor_global, try_acquire_owned. cbn. by destruct (Z.ltb_spec 0 (max_pending_visitors ls)); [|lia]. }
  set (ip := socket_ip (source a)).
  assert (use_canonical_source (set_visitors (max_pending_visitors ls - 1) ∅ (policy_new ls)) None ip
    (max_pending_visitors_per_source ls) =
    Some (Ok (set_visitors (max_pending_visitors ls - 1) (Counter.bump ∅ ip) (policy_new ls), Some ip))) as E2.
  { unfold use_canonical_source. cbn. unfold Counter.get. rewrite lookup_empty. cbn. by destruct (Z.leb_spec (max_pending_visitors_per_source ls) 0); [lia|]. }
  assert (drop_visitor (set_visitors (max_pending_visitors ls - 1) (Counter.bump ∅ ip) (policy_new ls)) (Some ip) =
    Some (policy_new ls)) as E3.
  { unfold drop_visitor, Counter.release, Counter.bump, Counter.get. cbn. rewrite lookup_insert_eq, lookup_empty. cbn.
    rewrite delete_insert_id by apply lookup_empty. unfold policy_new, set_visitors. cbn. by rewrite Z.sub_add. }
  set (p1 := set_visitors _ ∅ _) in E1, E2. assert (limits p1 = ls) as Hls by done. clearbody p1.
  set (p2 := set_visitors _ (Counter.bump ∅ ip) _) in E2, E3. clearbody p2.
  unfold to_challenge. set (p0 := policy_new ls) in *. clearbody p0.
  run_task. rewrite E1. run_task. rewrite Hproxy. run_task. fold ip. rewrite Hls, E2. run_task.
  rewrite Hh. run_task. rewrite E3. run_task.
  rewrite (bool_decide_true _ Hn), Ho, Htls. done.
Qed.

(** The handshakes of challenges on the Server are not admitted.  With a challenge
    configuration, any number of Visitors that ask for the Server's hostname with the protocol
    of ACME hold their sockets at the same time, however small the limits, with the whole
    capacity of the policy free; neither the deadline of the intake nor a shutdown moves them. *)
Theorem challenge_handshakes_unlimited ls r a h rest n :
  public_tls_config = true → visitor_proxy_protocol = false → is_Some (encode_proxy_v2 a) →
  1 <= max_pending_visitors ls → 1 <= max_pending_visitors_per_source ls →
  read_client_hello r = Some (Ok (h, rest)) → public_hostname h = server_hostname →
  offers_alpn_protocol h (bs "acme-tls/1") = true →
  ∃ acts s, Forall sane acts ∧ run_actions exec (server_new ls) acts = Some s ∧ length (tasks s) = n ∧
    Forall (λ t, place t = Challenge h rest) (tasks s) ∧ shared s = policy_new ls ∧
    (∀ i, exec s (Act i Deadline) = Disabled ∧ exec s (Act i Shutdown) = Disabled).
Proof.
  intros Htls Hproxy Ha Hv Hs Hh Hn Ho.
  set (t := mkTask r (Some a) (Challenge h rest)).
  exists (concat (replicate n (to_challenge r a))), (mkServer (policy_new ls) (replicate n t) 0 []).
  split_and!.
  - apply Forall_concat, Forall_replicate. repeat constructor; done.
  - induction n as [|n IH]; [done|]. rewrite replicate_S_end, concat_app, run_actions_app, IH. cbn [concat].
    rewrite app_nil_r. by apply to_challenge_runs.
  - apply length_replicate.
  - by apply Forall_replicate.
  - done.
  - intros i. cbn. destruct (replicate n t !! i) as [t'|] eqn:E; [|done].
    apply lookup_replicate in E as [-> _]. done.
Qed.
End Intake.

(** ** A Server whose runs can be evaluated *)

Import ToyAcceptor.

Module VisitorToy.
Definition limits : ServerAdmissionLimits := mkLimits 5000 5000 2 1 1 1 1 1 1 1.
Definition toy_exec : Server → Action → next Server :=
  exec (A := bytes) (bs "edge.test") false false false [].
Definition request : reader := [Data (u8_of 8 :: bs "app.testmore")].
Definition peer : VisitorTcpAddresses := mkAddresses (SockV4 3232235777 4242) (SockV4 2130706433 443).
Definition acts : list Action :=
  [Accept request; Act 0 (Socket (Some peer)); Act 0 Continue; Act 0 Continue; Act 0 Continue; Act 0 Continue;
   Act 0 Continue; Act 0 (Route (Some true)); Act 0 Continue; Act 0 (Stream (Some [])); Act 0 Continue; Act 0 Continue;
   Act 0 (Register true); Act 0 (Relaying (ToTunnel (Accepts 5)))].
Definition running : Server := default (server_new limits) (run_actions toy_exec (server_new limits) acts).
Definition ended : Server :=
  default (server_new limits) (run_actions toy_exec running [Act 0 Abort; Act 0 Continue]).
End VisitorToy.

Lemma visitor_toy_sane : Forall sane (VisitorToy.acts ++ [Act 0 Abort; Act 0 Continue]).
Proof. repeat constructor. by eexists. Qed.

Lemma visitor_permits_exact_witness :
  pending_visitors (shared VisitorToy.ended) = max_pending_visitors VisitorToy.limits ∧
  active_routed_streams (shared VisitorToy.ended) = max_active_routed_streams VisitorToy.limits.
Proof.
  destruct (visitor_permits_exact (A := bytes) (bs "edge.test") false false false [] VisitorToy.limits
    (VisitorToy.acts ++ [Act 0 Abort; Act 0 Continue]) VisitorToy.ended) as (_ & _ & H).
  - intros []; done.
  - apply visitor_toy_sane.
  - by vm_compute.
  - destruct H as (H1 & _ & H2); [|exact (conj H1 H2)].
    assert (tasks VisitorToy.ended = [mkTask VisitorToy.request (Some VisitorToy.peer) (Ended WorkAborted)]) as ->
      by (by vm_compute).
    constructor; [by eexists|constructor].
Defined.

Lemma relayed_visitor_heard_witness :
  ∃ t h a x, tasks VisitorToy.running !! 0%nat = Some t ∧ place t = Running h a x ∧ public_hostname h ≠ bs "edge.test".
Proof.
  assert (∃ t h a x, tasks VisitorToy.running !! 0%nat = Some t ∧ place t = Running h a x) as (t & h & a & x & Ht & Hp).
  { eexists _, _, _, _. split; by vm_compute. }
  exists t, h, a, x. split; [exact Ht|]. split; [exact Hp|].
  destruct (relayed_visitor_heard (A := bytes) (bs "edge.test") false false false [] VisitorToy.limits
    VisitorToy.acts VisitorToy.running 0 t h a x) as [Hn _]; [| |exact Ht|exact Hp|exact Hn].
  - pose proof visitor_toy_sane as Hs. by apply Forall_app in Hs as [Hs _].
  - by vm_compute.
Defined.

(** An acceptor that reads every stream as a challenge for [edge.test]. *)
Definition challenge_acceptor : TlsAcceptor unit := {|
  acceptor_default := tt;
  read_tls _ _ := Ok tt;
  accept _ := (AcceptReady (mkAccepted (Some (bs "edge.test")) (Some [bs "acme-tls/1"])), tt)
|}.

Lemma challenge_handshakes_unlimited_witness :
  ∃ acts s, run_actions (@exec unit challenge_acceptor (bs "edge.test") true false false []) (server_new VisitorToy.limits) acts = Some s ∧
    length (tasks s) = 1000%nat ∧ pending_visitors (shared s) = 2.
Proof.
  destruct (@challenge_handshakes_unlimited unit challenge_acceptor (bs "edge.test") true false false [] VisitorToy.limits
    [Data (bs "hello")] VisitorToy.peer (mkParsed (bs "hello") (bs "edge.test") [bs "acme-tls/1"]) [] 1000)
    as (acts & s & _ & Hr & Hl & _ & Hp & _).
  1-2, 6-8: vm_compute; reflexivity.
  1: by eexists.
  1-2: vm_compute; congruence.
  - exists acts, s. split; [exact Hr|]. split; [exact Hl|]. rewrite Hp. reflexivity.
Defined.
