(* ===== verification/EndToEnd.v ===== *)
(** * EndToEnd: a Visitor's bytes from the Server's socket to the backend and back

    The composition of the Server's intake and relay ([Visitors], [Relay]), the framing of a
    Tunnel stream ([Framing]) and the Client's handler and relay ([ClientStreams], [Relay]) for
    a Service in passthrough mode.  The Tunnel in between delivers, in fragments of any size,
    what the one side has put into it.  The Client reads the ClientHello again, with its own
    buffer: [AtLimit] shows the one length at which the two sides disagree. *)

From Stdlib Require Import Ascii ZArith Lia.
From stdpp Require Import base strings numbers gmap list.
From S2P Require Import Prelude Text Names Framing Assignment Relay ClientStreams.
Import Reader Proxy Hello Tunnel Service ToyAcceptor.

Open Scope Z_scope.

(** Every await of the handler answers, in time and without error. *)
Definition willing : Env := mkEnv true (InTime (Ok tt)) (InTime (Ok tt)) (InTime (Ok tt)) (Ok tt).

Lemma relay_tail tcp initial tunnel acts x :
  run_actions relay_exec (proxy_tcp_over_tunnel tcp initial tunnel) acts = Some x →
  ∀ tail, sink (to_tunnel x) = initial ++ tail →
  tail `prefix_of` stream_bytes tcp ∧ (fin (to_tunnel x) = true → tail = stream_bytes tcp).
Proof.
  intros [Hd _]%relay_inv tail Ht.
  pose proof (inv_prefix _ _ _ _ Hd) as Hp. rewrite Ht in Hp. split.
  - by apply prefix_app_inv in Hp.
  - intros Hf. destruct (inv_shutdown _ _ _ _ Hd) as [Hs _]; [right; by apply (inv_fin _ _ _ _ Hd)|].
    rewrite Ht in Hs. by apply app_inv_head in Hs.
Qed.

Lemma relay_back tcp initial tunnel acts x :
  run_actions relay_exec (proxy_tcp_over_tunnel tcp initial tunnel) acts = Some x →
  sink (to_tcp x) `prefix_of` stream_bytes tunnel ∧ (fin (to_tcp x) = true → sink (to_tcp x) = stream_bytes tunnel).
Proof.
  intros [_ Hd]%relay_inv. split; [apply Hd|]. intros Hf.
  apply (inv_shutdown _ _ _ _ Hd). right. by apply (inv_fin _ _ _ _ Hd).
Qed.

(** What the handler does to the backend once it has read the stream. *)
Lemma handle_passthrough_script {A} `{TlsAcceptor A} {C} services (tls : TerminationTlsConfigs C) env stream d r
    service header :
  read_tunnel_stream stream = Some (Ok (d, r)) →
  select services (public_hostname (client_hello d)) = Some service → tls_mode service = Passthrough →
  proxy_header service (addresses d) = Some header →
  let script := [Connects (backend_address service); Writes (default [] header ++ buffered_bytes (client_hello d));
                 Relays r] in
  ∃ es res, handle services tls env stream = Some (es, res) ∧ backend_effects es `prefix_of` script ∧
    (env = willing → backend_effects es = script ∧ res = Ok tt).
Proof.
  intros Hd Hs Ht Hh script. unfold handle. destruct (intake_in_time env) eqn:Hi; simpl.
  2: { eexists _, _. split_and!; [done|apply prefix_nil|]. by intros ->. }
  rewrite Hd. cbn. rewrite Hs, Ht. unfold handle_passthrough, connect_backend, write_backend_with_timeout.
  destruct (connect_answer env) as [[u|e]|] eqn:Hc; cbn.
  2,3: eexists _, _; split_and!; [done|by apply prefix_cons, prefix_nil|by intros ->].
  rewrite Hh. cbn. destruct (write_answer env) as [[u'|e]|] eqn:Hw; cbn.
  2,3: eexists _, _; split_and!; [done|by do 2 apply prefix_cons; apply prefix_nil|by intros ->].
  eexists _, _. split_and!; [done|done|]. by intros ->.
Qed.

(** C3: End to end, passthrough forwards a Visitor's bytes unchanged.  The Visitor sends [sent],
    from which the Server read a ClientHello; the Server's relay has put the frame and then
    [after] into the Tunnel, which delivers it to the Client.  The Client's handler contacts no
    backend, or it connects to the backend of the Visitor's hostname, writes [w] and relays the
    rest, as far as its awaits succeed.  What that backend receives is a prefix of the PROXY
    header its Service asks for, with the Visitor's addresses, followed by [sent]; it is all of
    it once both relays have shut that direction down.  In the other direction the Visitor
    receives a prefix of what the backend sends, and all of it once both relays have shut that
    direction down.  When every await of the handler answers in time and without error, the
    backend is contacted and the relay runs, unless the ClientHello with what follows it
    overruns the Client's buffer: more than 16384 bytes after at most 4095 bytes of overshoot. *)
Theorem passthrough_end_to_end {A} `{TlsAcceptorLaws A} {C} services (tls : TerminationTlsConfigs C) env
    v sent h v' a family block frame after back actsS xs tunnel service header :
  delivers v sent → read_client_hello v = Some (Ok (h, v')) →
  addresses_of family block a → encode_tunnel_stream a (buffered_bytes h) = Some frame →
  run_actions relay_exec (proxy_tcp_over_tunnel v' frame back) actsS = Some xs →
  sink (to_tunnel xs) = frame ++ after → delivers tunnel (sink (to_tunnel xs)) →
  select services (public_hostname h) = Some service → tls_mode service = Passthrough →
  proxy_header service a = Some header →
  ∃ es res, handle services tls env tunnel = Some (es, res) ∧
    (backend_effects es = [] ∧ (env = willing → overruns (buffered_bytes h) after) ∨
     ∃ w rest, let script := [Connects (backend_address service); Writes w; Relays rest] in
       backend_effects es `prefix_of` script ∧
       (env = willing → backend_effects es = script ∧ res = Ok tt) ∧
       ∀ backend actsC xc, run_actions relay_exec (proxy_tcp_over_tunnel backend [] rest) actsC = Some xc →
         w ++ sink (to_tcp xc) `prefix_of` default [] header ++ sent ∧
         (fin (to_tunnel xs) = true → fin (to_tcp xc) = true → w ++ sink (to_tcp xc) = default [] header ++ sent) ∧
         (delivers back (sink (to_tunnel xc)) → sink (to_tcp xs) `prefix_of` stream_bytes backend ∧
            (fin (to_tunnel xc) = true → fin (to_tcp xs) = true → sink (to_tcp xs) = stream_bytes backend))).
Proof.
  intros Hv Hh Ha Henc HrS Hsink Htun Hsel Hmode Hhdr.
  destruct (relay_tail _ _ _ _ _ HrS after Hsink) as [Htail Hfin]. rewrite Hsink in Htun.
  destruct (tunnel_streams_outcome v h v' a frame after tunnel family block Hh Ha Henc Htun)
    as [[Hover Hread]|(d & rest & restb & Hread & Hd & Hhost & _ & Hbytes & Hrest)].
  { unfold handle. rewrite Hread. destruct (intake_in_time env); (eexists _, _; split; [done|]); by left. }
  pose proof Hh as Hcons. apply (hello_loop_conserves _ _ _ v sent) in Hcons as (remaining & Hsent & Hv' & _); [|done].
  destruct (delivers_stream _ _ Hv') as [Hstream _]. destruct (delivers_stream _ _ Hrest) as [Hrestb _].
  rewrite <- Hhost in Hsel. rewrite <- Hd in Hhdr.
  destruct (handle_passthrough_script services tls env tunnel d rest service header Hread Hsel Hmode Hhdr)
    as (es & res & Hhandle & Hpre & Hwill).
  exists es, res. split; [done|]. right. eexists _, rest. split_and!; [exact Hpre|exact Hwill|].
  intros backend actsC xc HrC. destruct (relay_back _ _ _ _ _ HrC) as [Hto Htofin]. rewrite Hrestb in Hto, Htofin.
  rewrite <- app_assoc. rewrite Hstream in Htail, Hfin. simpl in Hsent. split_and!.
  - apply prefix_app. rewrite Hsent. trans (buffered_bytes h ++ after); [|by apply prefix_app].
    rewrite Hbytes. by apply prefix_app.
  - intros Hf1 Hf2. rewrite Htofin, Hsent, <- Hbytes, Hfin by done. done.
  - intros [Hback _]%delivers_stream. destruct (relay_back _ _ _ _ _ HrS) as [Hb Hbfin]. rewrite Hback in Hb, Hbfin.
    destruct (relay_tail _ _ _ _ _ HrC (sink (to_tunnel xc)) eq_refl) as [Htail' Hfin'].
    split; [by trans (sink (to_tunnel xc))|]. intros Hf1 Hf2. by rewrite Hbfin, Hfin' by done.
Qed.

(** A Visitor whose request and reply cross a small Tunnel. *)
Module Crossing.
Definition request : bytes := u8_of 8 :: bs "app.testmore bytes".
Definition socket : reader := [Data (take 11 request); Data (drop 11 request)].
Definition peer : VisitorTcpAddresses := mkAddresses (SockV4 3232235777 4242) (SockV4 2130706433 443).
Definition hello : ParsedClientHello := mkParsed (take 11 request) (bs "app.test") [].
Definition frame : bytes := default [] (encode_tunnel_stream peer (buffered_bytes hello)).
Definition reply : bytes := bs "reply".
Definition service : ServiceConfig := mkService (Some [bs "app.test"]) (bs "127.0.0.1:8080") Passthrough (Some V2).
(** Both directions of a relay run to their end. *)
Definition to_the_end (initial there back : bytes) : list RelayAction :=
  [ToTunnel (Accepts (length initial)); ToTunnel Ready; ToTunnel Reads; ToTunnel (Accepts (length there));
   ToTunnel Reads; ToTunnel Ready; ToTunnel Ready;
   ToTcp Reads; ToTcp (Accepts (length back)); ToTcp Reads; ToTcp Ready; ToTcp Ready].
Definition server_relay : Relay := proxy_tcp_over_tunnel [Data (drop 11 request)] frame [Data reply].
Definition server_acts : list RelayAction := to_the_end frame (drop 11 request) reply.
Definition server_end : Relay := default server_relay (run_actions relay_exec server_relay server_acts).
Definition tunnel : reader := [Data (take 20 (frame ++ drop 11 request)); Data (drop 20 (frame ++ drop 11 request))].
End Crossing.

Lemma passthrough_end_to_end_witness :
  ∃ es w rest, handle (C := unit) [Crossing.service] (mkTlsConfigs ∅ ∅) willing Crossing.tunnel = Some (es, Ok tt) ∧
    backend_effects es = [Connects (bs "127.0.0.1:8080"); Writes w; Relays rest].
Proof.
  edestruct (passthrough_end_to_end (A := bytes) (C := unit) [Crossing.service] (mkTlsConfigs ∅ ∅) willing
    Crossing.socket Crossing.request Crossing.hello [Data (drop 11 Crossing.request)] Crossing.peer)
    as (es & res & Hh & [[_ Hover]|(w & rest & _ & Hwill & _)]).
  - exists [take 11 Crossing.request; drop 11 Crossing.request]. split_and!; [done|by repeat constructor|done].
  - by vm_compute.
  - apply (addresses_v4 3232235777 4242 2130706433 443); by vm_compute.
  - by vm_compute.
  - instantiate (1 := Crossing.server_end). instantiate (1 := Crossing.server_acts). instantiate (1 := [Data Crossing.reply]).
    by vm_compute.
  - instantiate (1 := drop 11 Crossing.request). by vm_compute.
  - exists [take 20 (Crossing.frame ++ drop 11 Crossing.request); drop 20 (Crossing.frame ++ drop 11 Crossing.request)].
    split_and!; [done|by repeat constructor|by vm_compute].
  - by vm_compute.
  - done.
  - by vm_compute.
  - specialize (Hover eq_refl). by vm_compute in Hover.
  - destruct (Hwill eq_refl) as [He ->]. by exists es, w, rest.
Defined.

(** ** A ClientHello at the limit *)

(** An acceptor whose ClientHello is complete after exactly as many bytes as the buffer takes. *)
Module AtLimit.
Definition outcome_of (n : nat) : accept_outcome :=
  if (Z.to_nat CLIENT_HELLO_BUFFER_LIMIT <=? n)%nat then AcceptReady (mkAccepted (Some (bs "app.test")) None)
  else AcceptNeedMore.
#[local] Instance acceptor : TlsAcceptor nat := {
  acceptor_default := 0%nat;
  read_tls n c := Ok (n + length c)%nat;
  accept n := (outcome_of n, n)
}.
#[local] Instance acceptor_laws : TlsAcceptorLaws nat.
Proof.
  refine {| hello_of b := outcome_of (length b); fed n b := n = length b |}.
  - done.
  - intros n b c -> _ _. exists (length b + length c)%nat, (length b + length c)%nat. rewrite length_app. done.
  - intros p q x. unfold outcome_of. rewrite length_app.
    destruct (Nat.leb_spec (Z.to_nat CLIENT_HELLO_BUFFER_LIMIT) (length p)); [|done].
    by rewrite (proj2 (Nat.leb_le _ _)) by lia.
  - intros p q x. unfold outcome_of. rewrite length_app.
    destruct (Nat.leb_spec (Z.to_nat CLIENT_HELLO_BUFFER_LIMIT) (length p)); [left|by right].
    by rewrite (proj2 (Nat.leb_le _ _)) in * by lia.
Defined.

Definition zeros (n : Z) : bytes := replicate (Z.to_nat n) (u8_of 0).
Definition visitor : reader := [Data (zeros 4096); Data (zeros 4096); Data (zeros 4096); Data (zeros 4096); Data (zeros 100)].
Definition frame : bytes := default [] (encode_tunnel_stream Crossing.peer (zeros 16384)).
Definition cut : nat := length (default [] (encode_proxy_v2 Crossing.peer)) + 1.
Definition tunnel : reader := [Data (take cut frame); Data (drop cut frame ++ zeros 100)].

(** The Server accepts a ClientHello that fills the buffer, and the Client may refuse the same
    bytes: when the Tunnel delivers them in other fragments, the last read takes bytes that
    follow the ClientHello, and with them the buffer is over its limit. *)
Theorem full_hello_refused :
  ∃ h v', read_client_hello visitor = Some (Ok (h, v')) ∧ encode_tunnel_stream Crossing.peer (buffered_bytes h) = Some frame ∧
    delivers tunnel (frame ++ zeros 100) ∧
    read_tunnel_stream tunnel = Some (Err (OtherHello (HelloTooLong CLIENT_HELLO_BUFFER_LIMIT))).
Proof.
  exists (mkParsed (zeros 16384) (bs "app.test") []), [Data (zeros 100)]. split_and!; [by vm_compute..| |by vm_compute].
  exists [take cut frame; drop cut frame ++ zeros 100]. split_and!; [done| |].
  - repeat constructor; intros E; by vm_compute in E.
  - cbn [List.concat]. by rewrite app_nil_r, app_assoc, take_drop.
Qed.
End AtLimit.
