(* ===== verification/ServerLoop.v ===== *)
(** * ServerLoop: the Server's accept loop and its end

    [src/server/mod.rs]: the fatal signal, the rotation over listeners and endpoints, the accept
    loop ([serve] with [next_server_event], [process_public_accept], [admit_tunnel_handshake]) and
    the sequence that ends it, the shutdown it follows ([run_with_shutdown]); and the connection
    identifiers of [src/server_connection_log.rs].

    The loop's own steps are told from what happens around it: arrivals, ends of tasks,
    signals and time.  It waits for a deadline in its state, one for the drain and one for the
    flush, whose durations are those of the configured shutdown.

    The loop is one task; Visitor intakes and handshakes are counted tasks it spawns.  What the
    registry does at each point is [Registry]'s and [Continuity]'s; what a Visitor task does is
    [Visitors]'. *)

From Stdlib Require Import Ascii ZArith Lia.
From stdpp Require Import base numbers gmap list.
From S2P Require Import Prelude Admission Shutdown.
Import Backoff.

Open Scope Z_scope.

(** ** Connection identifiers *)

Module ConnectionIds.

Definition MAX_ID : Z := 2 ^ 64 - 1.

(** A caller of [allocate]: about to read the counter; having read a value; done. *)
Inductive Caller := Loading | Comparing (previous : Z) | Allocated (id : Z) | Exhausted.

(** The counter and its callers, in any number of threads. *)
Record Ids := mkIds { last_connection_id : Z; callers : gmap nat Caller }.
Definition ids_new : Ids := mkIds 0 ∅.

Definition set_caller (i : nat) (c : Caller) (s : Ids) : Ids := mkIds (last_connection_id s) (<[i := c]> (callers s)).

(** [Spurious]: the weak exchange may fail although the values agree. *)
Inductive Action := Call (i : nat) | Load (i : nat) | Exchange (i : nat) (spurious : bool).

Definition allocate_exec (s : Ids) (a : Action) : next Ids :=
  match a with
  | Call i => match callers s !! i with None => Steps (set_caller i Loading s) | Some _ => Disabled end
  | Load i =>
      match callers s !! i with
      | Some Loading => Steps (set_caller i (Comparing (last_connection_id s)) s)
      | _ => Disabled
      end
  | Exchange i spurious =>
      match callers s !! i with
      | Some (Comparing previous) =>
          if previous + 1 <=? MAX_ID then
            if negb spurious && (previous =? last_connection_id s)
            then Steps (mkIds (previous + 1) (<[i := Allocated (previous + 1)]> (callers s)))
            else Steps (set_caller i (Comparing (last_connection_id s)) s)
          else Steps (set_caller i Exhausted s)
      | _ => Disabled
      end
  end.

(** The counter never wraps; identifiers given out are distinct, positive and at most the
    counter; what a caller read is at most the counter. *)
Record ids_inv (s : Ids) : Prop := {
  ids_range : 0 <= last_connection_id s <= MAX_ID;
  ids_read : ∀ i p, callers s !! i = Some (Comparing p) → 0 <= p <= last_connection_id s;
  ids_allocated : ∀ i id, callers s !! i = Some (Allocated id) → 1 <= id <= last_connection_id s;
  ids_distinct : ∀ i j id, callers s !! i = Some (Allocated id) → callers s !! j = Some (Allocated id) → i = j;
  ids_exhausted : ∀ i, callers s !! i = Some Exhausted → last_connection_id s = MAX_ID
}.

Lemma ids_inv_step s a s' : ids_inv s → allocate_exec s a = Steps s' → ids_inv s'.
Proof.
  intros [Hr Hp Ha Hd Hx] E. unfold allocate_exec in E. destruct a as [i|i|i spurious].
  - destruct (callers s !! i) eqn:Hi; [done|]. injection E as <-.
    constructor; simpl; intros *; rewrite ?lookup_insert_Some; naive_solver.
  - destruct (callers s !! i) as [[]|] eqn:Hi; try done. injection E as <-.
    constructor; simpl; intros *; rewrite ?lookup_insert_Some; naive_solver lia.
  - destruct (callers s !! i) as [[|p| |]|] eqn:Hi; try done. pose proof (Hp i p Hi) as Hpi.
    destruct (Z.leb_spec (p + 1) MAX_ID).
    + destruct (negb spurious && (p =? last_connection_id s)) eqn:Hb; injection E as <-.
      * apply andb_prop in Hb as [_ ->%Z.eqb_eq].
        constructor; simpl; intros *; rewrite ?lookup_insert_Some; [lia| | | |].
        -- intros [[_ ?]|[_ Hq%Hp]]; [done|]. lia.
        -- intros [[_ [= <-]]|[_ Hq%Ha]]; lia.
        -- intros [[-> [= <-]]|[Hn Hj]] [[-> Hk]|[Hn' Hk]]; simplify_eq; try done;
             [apply Ha in Hk; lia|apply Ha in Hj; lia|by eapply Hd].
        -- intros [[_ ?]|[_ Hq%Hx]]; [done|]. lia.
      * constructor; simpl; intros *; rewrite ?lookup_insert_Some; naive_solver lia.
    + injection E as <-. constructor; simpl; intros *; rewrite ?lookup_insert_Some; naive_solver lia.
Qed.

Lemma ids_inv_new : ids_inv ids_new.
Proof. constructor; simpl; intros *; rewrite ?lookup_empty; done. Qed.
End ConnectionIds.

(** ** Rotation *)

Module Rotation.

(** [poll_accept] of every listener, in order from the cursor: the first that is ready, and
    the cursor after it. *)
Fixpoint first_ready (ready : nat → bool) (n cursor fuel offset : nat) : option nat :=
  match fuel with
  | O => None
  | S fuel =>
      let index := ((cursor + offset) mod n)%nat in
      if ready index then Some index else first_ready ready n cursor fuel (S offset)
  end.

(** [accept_public_connections], one poll. *)
Definition poll_accept (ready : nat → bool) (n cursor : nat) : option (nat * nat) :=
  index ← first_ready ready n cursor n 0; Some (index, (S index mod n)%nat).

(** [accept_tunnel_connections]: the endpoints from the cursor on, cyclically, and the place
    of the one whose accept completes among them. *)
Definition endpoint_order (n cursor : nat) : list nat := (λ k, (cursor + k) mod n)%nat <$> seq 0 n.
Definition tunnel_cursor (n cursor index : nat) : nat := ((cursor + index + 1) mod n)%nat.

(** A run of accepts: the sets of ready listeners, one per poll that accepts. *)
Fixpoint accepts (n cursor : nat) (polls : list (nat → bool)) : list nat :=
  match polls with
  | [] => []
  | ready :: polls =>
      match poll_accept ready n cursor with
      | Some (index, cursor) => index :: accepts n cursor polls
      | None => accepts n cursor polls
      end
  end.

Lemma first_ready_spec ready n cursor fuel offset d :
  (offset ≤ d < offset + fuel)%nat → ready ((cursor + d) mod n)%nat = true →
  ∃ o, (offset ≤ o ≤ d)%nat ∧ first_ready ready n cursor fuel offset = Some ((cursor + o) mod n)%nat.
Proof.
  revert offset. induction fuel as [|fuel IH]; intros offset Hd Hr; [lia|]. simpl.
  destruct (ready ((cursor + offset) mod n)%nat) eqn:E; [by exists offset; split; [lia|]|].
  destruct (decide (offset = d)) as [->|Hne]; [congruence|].
  destruct (IH (S offset)) as (o & ? & ->); [lia|done|]. exists o. split; [lia|done].
Qed.

(** With the listener at distance [d] from the cursor ready, one poll accepts it or another
    one closer, and then the distance has shrunk. *)
Lemma poll_accept_closer ready n cursor d :
  (d < n)%nat → ready ((cursor + d) mod n)%nat = true →
  poll_accept ready n cursor = Some ((cursor + d) mod n, S ((cursor + d) mod n) mod n)%nat ∨
  ∃ index cursor' d', poll_accept ready n cursor = Some (index, cursor') ∧ (d' < d)%nat ∧
    ((cursor' + d') mod n = (cursor + d) mod n)%nat.
Proof.
  intros Hd Hr. destruct (first_ready_spec ready n cursor n 0 d) as (o & Ho & Hf); [lia|done|].
  unfold poll_accept. rewrite Hf. cbn. destruct (decide (o = d)) as [->|Hne]; [by left|right].
  eexists _, _, (d - S o)%nat. split; [done|]. split; [lia|].
  rewrite Nat.Div0.add_mod_idemp_l. rewrite <- Nat.add_1_r.
  replace ((cursor + o) mod n + 1 + (d - S o))%nat with ((cursor + o) mod n + (d - o))%nat by lia.
  rewrite Nat.Div0.add_mod_idemp_l. f_equal. lia.
Qed.

Lemma accepts_within n d cursor polls j :
  (d < n)%nat → ((cursor + d) mod n)%nat = j → (d < length polls)%nat →
  Forall (λ ready, ready j = true) polls → j ∈ accepts n cursor polls.
Proof.
  revert cursor polls. induction d as [d IH] using lt_wf_ind. intros cursor polls Hd Hj Hl Hall.
  destruct Hall as [|ready polls Hr Hall]; [simpl in Hl; lia|]. simpl in Hl. rewrite <- Hj in Hr. cbn [accepts].
  destruct (poll_accept_closer ready n cursor d Hd Hr) as [->|(index & cursor' & d' & -> & Hlt & Heq)].
  - rewrite Hj. by left.
  - right. eapply IH; [exact Hlt|lia|by rewrite Heq|lia|done].
Qed.

Lemma distance_exists n cursor j : (j < n)%nat → ∃ d, (d < n)%nat ∧ ((cursor + d) mod n)%nat = j.
Proof.
  intros Hj. exists ((j + (n - cursor mod n)) mod n)%nat. pose proof (Nat.mod_upper_bound cursor n). split.
  - apply Nat.mod_upper_bound. lia.
  - rewrite Nat.Div0.add_mod_idemp_r, <- (Nat.Div0.add_mod_idemp_l cursor).
    replace (cursor mod n + (j + (n - cursor mod n)))%nat with (j + 1 * n)%nat by lia.
    rewrite Nat.Div0.mod_add. by apply Nat.mod_small.
Qed.

Lemma first_ready_at ready n cursor fuel offset k :
  (offset ≤ k < offset + fuel)%nat → ready ((cursor + k) mod n)%nat = true →
  (∀ i, (offset ≤ i < k)%nat → ready ((cursor + i) mod n)%nat = false) →
  first_ready ready n cursor fuel offset = Some ((cursor + k) mod n)%nat.
Proof.
  revert offset. induction fuel as [|fuel IH]; intros offset Hk Hr Hlt; [lia|]. simpl.
  destruct (decide (offset = k)) as [->|Hne]; [by rewrite Hr|].
  rewrite Hlt by lia. apply IH; [lia|done|]. intros i Hi. apply Hlt. lia.
Qed.

Lemma poll_accept_first ready n cursor k :
  (k < n)%nat → ready ((cursor + k) mod n)%nat = true → (∀ i, (i < k)%nat → ready ((cursor + i) mod n)%nat = false) →
  poll_accept ready n cursor = Some ((cursor + k) mod n, tunnel_cursor n cursor k)%nat.
Proof.
  intros Hk Hr Hlt. unfold poll_accept, tunnel_cursor.
  rewrite (first_ready_at ready n cursor n 0 k); [|lia|done|intros; apply Hlt; lia].
  cbn. do 2 f_equal. rewrite <- Nat.add_1_r, Nat.Div0.add_mod_idemp_l. done.
Qed.
End Rotation.

(** ** The loop *)

Inductive Failure := FatalFailure | AcceptFailed (e : io_error) | IdsExhausted.

(** The accept loop; then each of the operations that end [serve], in order; the wait of a
    graceful end; the result. *)
Inductive Phase :=
| Accepting
| Sealing
| ClosingProbe
| DroppingListeners
| AbortingHandshakes
| Draining
| ClosingConnections
| AbortingIntakes
| Flushing
| Returned (r : result Failure unit).

Record Loop := mkLoop {
  phase : Phase;
  terminal_error : option Failure;
  shutdown : option ShutdownMode;
  fatal : bool;
  backoff : AcceptBackoff;
  not_before : option Z;
  now : Z;
  last_id : Z;
  probe : bool;
  listening : bool;
  sealed : bool;
  handshakes : nat;
  intakes : nat;
  connections_closed : bool;
  left_in : option ShutdownMode;
  wait_until : Z;
  quiesced : bool
}.

Definition loop_new (probe : bool) (now last_id : Z) : Loop :=
  mkLoop Accepting None None false backoff_default None now last_id probe true false 0 0 false None 0 false.

Definition with_phase (p : Phase) (l : Loop) : Loop :=
  mkLoop p (terminal_error l) (shutdown l) (fatal l) (backoff l) (not_before l) (now l) (last_id l) (probe l)
    (listening l) (sealed l) (handshakes l) (intakes l) (connections_closed l) (left_in l) (wait_until l) (quiesced l).
Definition with_error (e : option Failure) (l : Loop) : Loop :=
  mkLoop (phase l) e (shutdown l) (fatal l) (backoff l) (not_before l) (now l) (last_id l) (probe l)
    (listening l) (sealed l) (handshakes l) (intakes l) (connections_closed l) (left_in l) (wait_until l) (quiesced l).
Definition with_shutdown (m : option ShutdownMode) (l : Loop) : Loop :=
  mkLoop (phase l) (terminal_error l) m (fatal l) (backoff l) (not_before l) (now l) (last_id l) (probe l)
    (listening l) (sealed l) (handshakes l) (intakes l) (connections_closed l) (left_in l) (wait_until l) (quiesced l).
Definition with_fatal (l : Loop) : Loop :=
  mkLoop (phase l) (terminal_error l) (shutdown l) true (backoff l) (not_before l) (now l) (last_id l) (probe l)
    (listening l) (sealed l) (handshakes l) (intakes l) (connections_closed l) (left_in l) (wait_until l) (quiesced l).
Definition with_backoff (b : AcceptBackoff) (t : option Z) (l : Loop) : Loop :=
  mkLoop (phase l) (terminal_error l) (shutdown l) (fatal l) b t (now l) (last_id l) (probe l)
    (listening l) (sealed l) (handshakes l) (intakes l) (connections_closed l) (left_in l) (wait_until l) (quiesced l).
Definition with_now (t : Z) (l : Loop) : Loop :=
  mkLoop (phase l) (terminal_error l) (shutdown l) (fatal l) (backoff l) (not_before l) t (last_id l) (probe l)
    (listening l) (sealed l) (handshakes l) (intakes l) (connections_closed l) (left_in l) (wait_until l) (quiesced l).
Definition with_id (i : Z) (l : Loop) : Loop :=
  mkLoop (phase l) (terminal_error l) (shutdown l) (fatal l) (backoff l) (not_before l) (now l) i (probe l)
    (listening l) (sealed l) (handshakes l) (intakes l) (connections_closed l) (left_in l) (wait_until l) (quiesced l).
Definition without_probe (l : Loop) : Loop :=
  mkLoop (phase l) (terminal_error l) (shutdown l) (fatal l) (backoff l) (not_before l) (now l) (last_id l) false
    (listening l) (sealed l) (handshakes l) (intakes l) (connections_closed l) (left_in l) (wait_until l) (quiesced l).
Definition without_listeners (l : Loop) : Loop :=
  mkLoop (phase l) (terminal_error l) (shutdown l) (fatal l) (backoff l) (not_before l) (now l) (last_id l) (probe l)
    false (sealed l) (handshakes l) (intakes l) (connections_closed l) (left_in l) (wait_until l) (quiesced l).
Definition with_sealed (l : Loop) : Loop :=
  mkLoop (phase l) (terminal_error l) (shutdown l) (fatal l) (backoff l) (not_before l) (now l) (last_id l) (probe l)
    (listening l) true (handshakes l) (intakes l) (connections_closed l) (left_in l) (wait_until l) (quiesced l).
Definition with_handshakes (n : nat) (l : Loop) : Loop :=
  mkLoop (phase l) (terminal_error l) (shutdown l) (fatal l) (backoff l) (not_before l) (now l) (last_id l) (probe l)
    (listening l) (sealed l) n (intakes l) (connections_closed l) (left_in l) (wait_until l) (quiesced l).
Definition with_intakes (n : nat) (l : Loop) : Loop :=
  mkLoop (phase l) (terminal_error l) (shutdown l) (fatal l) (backoff l) (not_before l) (now l) (last_id l) (probe l)
    (listening l) (sealed l) (handshakes l) n (connections_closed l) (left_in l) (wait_until l) (quiesced l).
Definition with_connections_closed (l : Loop) : Loop :=
  mkLoop (phase l) (terminal_error l) (shutdown l) (fatal l) (backoff l) (not_before l) (now l) (last_id l) (probe l)
    (listening l) (sealed l) (handshakes l) (intakes l) true (left_in l) (wait_until l) (quiesced l).
Definition with_left (m : ShutdownMode) (l : Loop) : Loop :=
  mkLoop (phase l) (terminal_error l) (shutdown l) (fatal l) (backoff l) (not_before l) (now l) (last_id l) (probe l)
    (listening l) (sealed l) (handshakes l) (intakes l) (connections_closed l) (Some m) (wait_until l) (quiesced l).

(** A wait starts: until a time, or with what is awaited already there. *)
Definition with_wait (t : Z) (done : bool) (l : Loop) : Loop :=
  mkLoop (phase l) (terminal_error l) (shutdown l) (fatal l) (backoff l) (not_before l) (now l) (last_id l) (probe l)
    (listening l) (sealed l) (handshakes l) (intakes l) (connections_closed l) (left_in l) t done.

(** [begin_graceful] and [begin_fast] of the shutdown the loop was given. *)
Definition begin_graceful (l : Loop) : Loop :=
  with_shutdown (Some (default Graceful (shutdown l))) l.
Definition begin_fast (l : Loop) : Loop := with_shutdown (Some Fast) l.

(** [allocate]: the next identifier, or its exhaustion. *)
Definition allocate (l : Loop) : option Loop :=
  if last_id l + 1 <=? ConnectionIds.MAX_ID then Some (with_id (last_id l + 1) l) else None.

(** The loop ends with an error, in fast mode. *)
Definition fails (e : Failure) (l : Loop) : Loop := with_phase Sealing (begin_fast (with_error (Some e) l)).

(** [process_public_accept]; [admitted]: the admission policy gave a permit. *)
Definition process_public_accept (accepted : result io_error bool) (l : Loop) : Loop :=
  match accepted with
  | Ok admitted =>
      let l := with_backoff (fst (on_success (backoff l))) (not_before l) l in
      match allocate l with
      | None => fails IdsExhausted l
      | Some l => with_backoff (backoff l) None (if admitted then with_intakes (S (intakes l)) l else l)
      end
  | Err e =>
      match on_error (backoff l) e with
      | (b, Some delay) => with_backoff b (Some (now l + delay)) l
      | (b, None) => fails (AcceptFailed e) (with_backoff b (not_before l) l)
      end
  end.

(** [admit_tunnel_handshake], after its identifier: refused or spawned. *)
Definition process_incoming (incoming : option bool) (l : Loop) : Loop :=
  match incoming with
  | None => with_phase Sealing (begin_fast l)
  | Some admitted =>
      match allocate l with
      | None => fails IdsExhausted l
      | Some l => if admitted then with_handshakes (S (handshakes l)) l else l
      end
  end.

(** [next_server_event] polls the fatal signal, the shutdown, the public listeners (once the
    backoff has passed) and the endpoints, in this order; [visitor] and [tunnel] are what the
    listeners and the endpoints have ready. *)
Definition accept_step (visitor : option (result io_error bool)) (tunnel : option (option bool)) (l : Loop) : next Loop :=
  if fatal l then Steps (fails FatalFailure l)
  else match shutdown l with
       | Some _ => Steps (with_phase Sealing l)
       | None =>
           match (if match not_before l with Some t => t <=? now l | None => true end then visitor else None), tunnel with
           | Some v, _ => Steps (process_public_accept v l)
           | None, Some incoming => Steps (process_incoming incoming l)
           | None, None => Disabled
           end
       end.

(** The durations of a shutdown. *)
Record Durations := mkDurations { graceful_shutdown_duration : Z; quic_close_flush_duration : Z }.

(** Whether the wait of a graceful end is entered. *)
Definition waits (duration : Durations) (m : ShutdownMode) : bool :=
  match m with Graceful => 0 <? graceful_shutdown_duration duration | Fast => false end.

(** The loop's own steps are [Poll] and [Next]; the others come from outside: [Quiesced] is the
    completion of [shutdown_connections] and [wait_quiescent] together. *)
Inductive Action :=
| Poll (visitor : option (result io_error bool)) (tunnel : option (option bool))
| Next
| Quiesced
| Started (m : ShutdownMode)
| FatalFired
| HandshakeDone
| IntakeDone
| Elapse (t : Z).

(** Whether the loop waits: for the end of the work, the deadline or a fast shutdown; for the
    close frames to be flushed. *)
Definition waiting (l : Loop) : bool :=
  match phase l with
  | Draining => negb (bool_decide (shutdown l = Some Fast)) && negb (quiesced l) && (now l <? wait_until l)
  | Flushing => now l <? wait_until l
  | _ => false
  end.

(** The operations that end [serve], one per step; [abort_all] and [join_next] leave no task. *)
Definition finish_step (duration : Durations) (l : Loop) : next Loop :=
  if waiting l then Disabled else
  match phase l with
  | Sealing => match shutdown l with
               | None => Panics
               | Some m => Steps (with_phase ClosingProbe (with_sealed (with_left m l)))
               end
  | ClosingProbe => Steps (with_phase DroppingListeners (without_probe l))
  | DroppingListeners => Steps (with_phase AbortingHandshakes (without_listeners l))
  | AbortingHandshakes =>
      let l := with_handshakes 0 l in
      if waits duration (default Fast (left_in l))
      then Steps (with_phase Draining (with_wait (now l + graceful_shutdown_duration duration) false l))
      else Steps (with_phase ClosingConnections l)
  | Draining => Steps (with_phase ClosingConnections l)
  | ClosingConnections => Steps (with_phase AbortingIntakes (with_connections_closed l))
  | AbortingIntakes =>
      Steps (with_phase Flushing (with_wait (now l + quic_close_flush_duration duration) false (with_intakes 0 l)))
  | Flushing => Steps (with_phase (Returned (match terminal_error l with Some e => Err e | None => Ok tt end)) l)
  | Accepting | Returned _ => Disabled
  end.

Definition exec (duration : Durations) (l : Loop) (a : Action) : next Loop :=
  match a with
  | Poll v t => match phase l with Accepting => accept_step v t l | _ => Disabled end
  | Next => finish_step duration l
  | Quiesced => match phase l with Draining => Steps (with_wait (wait_until l) true l) | _ => Disabled end
  | Started Graceful => Steps (begin_graceful l)
  | Started Fast => Steps (begin_fast l)
  | FatalFired => Steps (with_fatal l)
  | HandshakeDone => match handshakes l with S n => Steps (with_handshakes n l) | O => Disabled end
  | IntakeDone => match intakes l with S n => Steps (with_intakes n l) | O => Disabled end
  | Elapse t => if now l <=? t then Steps (with_now t l) else Disabled
  end.

(** ** The end of the loop *)

(** How far the end has come. *)
Definition rank (p : Phase) : nat :=
  match p with
  | Accepting => 0 | Sealing => 1 | ClosingProbe => 2 | DroppingListeners => 3 | AbortingHandshakes => 4
  | Draining => 5 | ClosingConnections => 6 | AbortingIntakes => 7 | Flushing => 8 | Returned _ => 9
  end.

Record loop_inv (l : Loop) : Prop := {
  li_started : (0 < rank (phase l))%nat → shutdown l ≠ None;
  li_sealed : (1 < rank (phase l))%nat → sealed l = true ∧ left_in l ≠ None;
  li_probe : (2 < rank (phase l))%nat → probe l = false;
  li_listening : (3 < rank (phase l))%nat → listening l = false;
  li_handshakes : (4 < rank (phase l))%nat → handshakes l = 0%nat;
  li_draining : phase l = Draining → left_in l = Some Graceful;
  li_closed : (6 < rank (phase l))%nat → connections_closed l = true;
  li_intakes : (7 < rank (phase l))%nat → intakes l = 0%nat;
  li_error : terminal_error l ≠ None → (0 < rank (phase l))%nat ∧ shutdown l = Some Fast;
  li_result : ∀ r, phase l = Returned r → r = match terminal_error l with Some e => Err e | None => Ok tt end
}.

Ltac loop_cases E :=
  repeat match type of E with
         | context [match ?x with _ => _ end] =>
             lazymatch x with context [match _ with _ => _ end] => fail | _ => destruct x eqn:? end;
             cbv beta iota zeta in E; try discriminate E
         end; try (injection E as <-).

Lemma loop_inv_step duration l a l' : loop_inv l → exec duration l a = Steps l' → loop_inv l'.
Proof.
  intros [] E. unfold exec, finish_step, accept_step, process_public_accept, process_incoming, allocate, waits, on_success in E. cbv zeta in E.
  loop_cases E; try done.
  all: constructor; simpl in *; repeat match goal with H : phase _ = _ |- _ => rewrite H in *; clear H end;
    simpl in *; try done; try lia; try congruence.
  all: try solve [intros; first [apply li_started0|apply li_sealed0|apply li_probe0|apply li_listening0|apply li_handshakes0
    |apply li_closed0|apply li_intakes0]; lia].
  all: try solve [intros ? [= <-]; done].
  all: try solve [intros Ht; first [destruct (li_error0 Ht) as [? Hf]; split; (lia || done)|split; (lia || done)]].
  - intros Ht. destruct (li_error0 Ht). split; [lia|congruence].
  - intros _. destruct (left_in l) as [[]|]; done.
  - intros _. destruct li_error0 as [_ ->]; [done|]. split; [lia|done].
  - intros r [= <-]. by destruct (terminal_error l); simplify_eq.
  - intros r [= <-]. by destruct (terminal_error l); simplify_eq.
  - intros Ht. destruct (li_error0 Ht) as [? ->]. done.
Qed.

Lemma loop_inv_new probe now last_id : loop_inv (loop_new probe now last_id).
Proof. constructor; simpl; try done; lia. Qed.

Lemma exec_no_panic duration l a : loop_inv l → exec duration l a ≠ Panics.
Proof.
  intros [Hs _ _ _ _ _ _ _ _ _] E. unfold exec, finish_step, accept_step in E. loop_cases E.
  apply Hs; simpl; [lia|done].
Qed.

Definition reachable (duration : Durations) (l : Loop) : Prop :=
  ∃ probe now last_id acts, run_actions (exec duration) (loop_new probe now last_id) acts = Some l.

Lemma reachable_loop_inv duration l : reachable duration l → loop_inv l.
Proof.
  intros (probe & now & last_id & acts & Hr).
  eapply run_actions_invariant; [|apply loop_inv_new|exact Hr]. intros ? ? ?. apply loop_inv_step.
Qed.

(** The loop is to end. *)
Definition ending (l : Loop) : Prop := shutdown l ≠ None ∨ fatal l = true.
Definition returned (l : Loop) : bool := match phase l with Returned _ => true | _ => false end.

Definition own (a : Action) : bool := match a with Poll _ _ | Next => true | _ => false end.
Definition own_step (l : Loop) : Action := match phase l with Accepting => Poll None None | _ => Next end.

(** A loop that is to end stays so and takes on nothing, and its own steps bring it closer. *)
Lemma ending_step duration l a l' :
  ending l → exec duration l a = Steps l' →
  ending l' ∧ (intakes l' ≤ intakes l)%nat ∧ (handshakes l' ≤ handshakes l)%nat
  ∧ ((if own a then 1 else 0) + rank (phase l) ≤ rank (phase l'))%nat.
Proof.
  intros He E. unfold exec in E. destruct a as [v t| | |[]| | | |t].
  - destruct (phase l) eqn:Hp; try done. unfold accept_step in E. destruct (fatal l) eqn:Hf.
    { injection E as <-. simpl. split_and!; [by left|lia..]. }
    destruct (shutdown l) as [m|] eqn:Hs; [|by destruct He; congruence].
    injection E as <-. simpl. split_and!; [left; simpl; congruence|lia..].
  - unfold finish_step in E. cbv zeta in E. loop_cases E; simpl; repeat match goal with H : phase _ = _ |- _ => rewrite H end;
      (split; [by unfold ending|]); simpl; lia.
  - destruct (phase l) eqn:Hp; try done. injection E as <-. simpl. rewrite Hp. split_and!; [done|simpl; lia..].
  - injection E as <-. simpl. split_and!; [by left|lia..].
  - injection E as <-. simpl. split_and!; [by left|lia..].
  - injection E as <-. simpl. split_and!; [by right|lia..].
  - destruct (handshakes l) eqn:Hh; [done|]. injection E as <-. simpl. split_and!; [done|lia..].
  - destruct (intakes l) eqn:Hh; [done|]. injection E as <-. simpl. split_and!; [done|lia..].
  - destruct (now l <=? t); [|done]. injection E as <-. simpl. split_and!; [done|lia..].
Qed.

Lemma ending_run duration acts l l' :
  ending l → run_actions (exec duration) l acts = Some l' →
  ending l' ∧ (intakes l' ≤ intakes l)%nat ∧ (handshakes l' ≤ handshakes l)%nat
  ∧ (length (List.filter own acts) + rank (phase l) ≤ rank (phase l'))%nat.
Proof.
  revert l. induction acts as [|a acts IH]; intros l He Hr; [injection Hr as <-; simpl; split_and!; [done|lia..]|].
  cbn [run_actions] in Hr. destruct (exec duration l a) as [l1| |] eqn:E; try done.
  destruct (ending_step _ _ _ _ He E) as (He1 & Hi & Hh & Hk). destruct (IH l1 He1 Hr) as (? & ? & ? & ?).
  cbn [List.filter]. destruct (own a); simpl in *; split_and!; try done; lia.
Qed.

(** What it may wait for: the end of a graceful drain, while work is left and its time has not
    passed; the end of the flush. *)
Definition may_wait (l : Loop) : Prop :=
  phase l = Draining ∧ shutdown l ≠ Some Fast ∧ quiesced l = false ∧ now l < wait_until l
  ∨ phase l = Flushing ∧ now l < wait_until l.

Lemma waiting_may l : waiting l = true → may_wait l.
Proof.
  unfold waiting, may_wait. intros Hw. destruct (phase l); try done.
  - left. apply andb_prop in Hw as [[Hf Hq]%andb_prop Hn%Z.ltb_lt].
    apply negb_true_iff in Hf, Hq. apply bool_decide_eq_false in Hf. done.
  - right. split; [done|]. by apply Z.ltb_lt.
Qed.

(** Unless it waits, it has an own step. *)
Lemma ending_enabled duration l :
  loop_inv l → ending l → returned l = false → (∃ l', exec duration l (own_step l) = Steps l') ∨ may_wait l.
Proof.
  intros Hi He Hr. destruct (waiting l) eqn:Hw; [right; by apply waiting_may|left]. pose proof (li_started _ Hi) as Hst. unfold exec, own_step, finish_step, returned, ending in *. rewrite Hw.
  destruct (phase l) eqn:Hp; simpl in Hst; try done; eauto.
  - unfold accept_step. destruct (fatal l) eqn:Hf; [eauto|]. destruct (shutdown l); [eauto|]. destruct He; congruence.
  - destruct (shutdown l); [eauto|]. by destruct Hst; [lia|].
  - cbv zeta. destruct (waits _ _); eauto.
Qed.

Lemma rank_bound p : (rank p ≤ 9)%nat.
Proof. destruct p; simpl; lia. Qed.

(** *** How long it takes *)

(** Runs up to the loop's return in which time passes only while the loop has no step of its
    own, and not beyond the time it waits for. *)
Definition prompt_exec (duration : Durations) (l : Loop) (a : Action) : next Loop :=
  match a, exec duration l (own_step l) with
  | Elapse t, Disabled => if negb (returned l) && (t <=? wait_until l) then exec duration l a else Disabled
  | Elapse _, _ => Disabled
  | _, _ => exec duration l a
  end.

(** The time that is left to wait, at most. *)
Definition drain_left (duration : Durations) (l : Loop) : Z :=
  if bool_decide (shutdown l = Some Fast) then 0
  else match phase l with
       | Accepting | Sealing | ClosingProbe | DroppingListeners | AbortingHandshakes => graceful_shutdown_duration duration
       | Draining => Z.max 0 (wait_until l - now l)
       | _ => 0
       end.
Definition flush_left (duration : Durations) (l : Loop) : Z :=
  match phase l with
  | Flushing => Z.max 0 (wait_until l - now l)
  | Returned _ => 0
  | _ => quic_close_flush_duration duration
  end.

Section Waits.
Context (duration : Durations).
Hypothesis graceful_nonneg : 0 <= graceful_shutdown_duration duration.
Hypothesis flush_nonneg : 0 <= quic_close_flush_duration duration.

Lemma waits_left_nonneg l : 0 <= drain_left duration l ∧ 0 <= flush_left duration l.
Proof. unfold drain_left, flush_left. split; [case_bool_decide|]; destruct (phase l); lia. Qed.

Lemma prompt_step l a l' :
  loop_inv l → ending l → prompt_exec duration l a = Steps l' →
  now l' + drain_left duration l' + flush_left duration l' <= now l + drain_left duration l + flush_left duration l.
Proof.
  intros Hi He E. pose proof (waits_left_nonneg l) as [Hd Hf]. unfold prompt_exec in E.
  destruct a as [v t| | |[]| | | |t]. 1-8: unfold exec in E.
  - destruct (phase l) eqn:Hp; try done. unfold accept_step in E. destruct (fatal l) eqn:Hfl.
    { injection E as <-. unfold drain_left, flush_left in *. simpl. rewrite Hp in *. lia. }
    destruct (shutdown l) as [m|] eqn:Hs; [|by destruct He; congruence]. injection E as <-.
    unfold drain_left, flush_left. simpl. rewrite Hp. lia.
  - unfold finish_step in E. cbv zeta in E. unfold drain_left, flush_left in *. loop_cases E; simpl;
      repeat match goal with H : phase _ = _ |- _ => rewrite H in * end; repeat case_bool_decide; first [lia|congruence].
  - destruct (phase l) eqn:Hp; try done. injection E as <-. unfold drain_left, flush_left. simpl. rewrite Hp. lia.
  - injection E as <-. unfold drain_left, flush_left in *. simpl.
    destruct (shutdown l) as [[]|]; simpl; repeat case_bool_decide; try done; lia.
  - injection E as <-. unfold drain_left, flush_left in *. simpl in *. repeat case_bool_decide; try done; lia.
  - by injection E as <-.
  - destruct (handshakes l); [done|]. by injection E as <-.
  - destruct (intakes l); [done|]. by injection E as <-.
  - destruct (returned l) eqn:Hr.
    { by destruct (exec duration l (own_step l)). }
    destruct (ending_enabled duration l Hi He Hr) as [[l1 E1]|Hw]; [by rewrite E1 in E|].
    destruct (exec duration l (own_step l)); [done| |done]. cbn [negb andb] in E. destruct (Z.leb_spec t (wait_until l)); [|done].
    cbn [exec] in E. destruct (Z.leb_spec (now l) t); [|done]. injection E as <-. unfold drain_left, flush_left in *. simpl.
    destruct Hw as [(Hp & Hs & _)|(Hp & _)]; rewrite Hp in *; repeat case_bool_decide; try done; lia.
Qed.

Lemma prompt_run acts l l' :
  loop_inv l → ending l → run_actions (prompt_exec duration) l acts = Some l' →
  now l' <= now l + drain_left duration l + flush_left duration l.
Proof.
  intros Hi He Hr. pose proof (waits_left_nonneg l') as [??].
  assert (now l' + drain_left duration l' + flush_left duration l' <= now l + drain_left duration l + flush_left duration l);
    [|lia].
  revert l Hi He Hr. induction acts as [|a acts IH]; intros l Hi He Hr; [injection Hr as <-; lia|].
  cbn [run_actions] in Hr. destruct (prompt_exec duration l a) as [l1| |] eqn:E; try done.
  pose proof (prompt_step l a l1 Hi He E) as Hle.
  assert (exec duration l a = Steps l1) as E'.
  { unfold prompt_exec in E. destruct a; try exact E. destruct (exec duration l (own_step l)); try done. by destruct (_ && _). }
  etransitivity; [apply IH; [by eapply loop_inv_step|by destruct (ending_step _ _ _ _ He E')|exact Hr]|exact Hle].
Qed.

(** A wait ends at most its duration from now. *)
Definition wait_inv (l : Loop) : Prop :=
  (phase l = Draining → wait_until l <= now l + graceful_shutdown_duration duration) ∧
  (phase l = Flushing → wait_until l <= now l + quic_close_flush_duration duration).

Lemma wait_inv_step l a l' : wait_inv l → exec duration l a = Steps l' → wait_inv l'.
Proof.
  intros [Hd Hf] E. unfold exec, finish_step, accept_step, process_public_accept, process_incoming, allocate, on_success in E.
  cbv zeta in E. loop_cases E; split; simpl; intros Hp; try done; try lia; try (by apply Hd); try (by apply Hf);
    try specialize (Hd Hp); try specialize (Hf Hp); try lia; simplify_eq; try congruence.
Qed.

Lemma wait_bounds l :
  reachable duration l →
  drain_left duration l <= (if bool_decide (shutdown l = Some Fast) then 0 else graceful_shutdown_duration duration)
  ∧ flush_left duration l <= quic_close_flush_duration duration.
Proof.
  intros (probe & now & last_id & acts & Hr). assert (wait_inv l) as [Hd Hf].
  { apply (run_actions_invariant (exec duration) wait_inv acts (loop_new probe now last_id) l); [|done|done].
    intros ? ? ?. apply wait_inv_step. }
  unfold drain_left, flush_left. split; [case_bool_decide|]; destruct (phase l); try lia;
    [specialize (Hd eq_refl)|specialize (Hf eq_refl)]; lia.
Qed.
End Waits.

(** ** The shutdown the loop follows *)

(** [run_with_shutdown]: the loop has a shutdown of its own, which [follow] starts from the
    process's shutdown or the Managed drain, and escalates from the process's. *)
Inductive Follow := AwaitingStart | AwaitingFast | Followed.

Record Runtime := mkRuntime {
  process_mode : option ShutdownMode;
  drained : bool;
  follow : Follow;
  loop : Loop
}.

Definition runtime_new (probe : bool) (now last_id : Z) : Runtime :=
  mkRuntime None false AwaitingStart (loop_new probe now last_id).

(** [FollowStart drain]: the branch of the [select!] that completes. *)
Inductive RuntimeAction :=
| ProcessStarted (m : ShutdownMode)
| DrainRequested
| FollowStart (drain : bool)
| FollowFast
| InLoop (a : Action).

Definition followed_step (drain : bool) (r : Runtime) : next Runtime :=
  let started m :=
    match m with
    | Fast => mkRuntime (process_mode r) (drained r) Followed (begin_fast (loop r))
    | Graceful => mkRuntime (process_mode r) (drained r) AwaitingFast (begin_graceful (loop r))
    end in
  if drain then if drained r then Steps (started Graceful) else Disabled
  else match process_mode r with Some m => Steps (started m) | None => Disabled end.

Definition runtime_exec (duration : Durations) (r : Runtime) (a : RuntimeAction) : next Runtime :=
  match a with
  | ProcessStarted m =>
      let mode := match m with Fast => Fast | Graceful => default Graceful (process_mode r) end in
      Steps (mkRuntime (Some mode) (drained r) (follow r) (loop r))
  | DrainRequested => Steps (mkRuntime (process_mode r) true (follow r) (loop r))
  | FollowStart drain => match follow r with AwaitingStart => followed_step drain r | _ => Disabled end
  | FollowFast =>
      match follow r, process_mode r with
      | AwaitingFast, Some Fast => Steps (mkRuntime (process_mode r) (drained r) Followed (begin_fast (loop r)))
      | _, _ => Disabled
      end
  | InLoop (Started _) => Disabled
  | InLoop a =>
      match exec duration (loop r) a with
      | Steps l => Steps (mkRuntime (process_mode r) (drained r) (follow r) l)
      | Disabled => Disabled
      | Panics => Panics
      end
  end.

(** While the loop accepts, its shutdown is what [follow] made of the process's and the drain. *)
Record runtime_inv (r : Runtime) : Prop := {
  ri_loop : loop_inv (loop r);
  ri_awaiting : follow r = AwaitingStart → phase (loop r) = Accepting → shutdown (loop r) = None;
  ri_graceful : follow r = AwaitingFast →
    (process_mode r ≠ None ∨ drained r = true) ∧ shutdown (loop r) ≠ None ∧
    (phase (loop r) = Accepting → shutdown (loop r) = Some Graceful);
  ri_fast : follow r = Followed → process_mode r = Some Fast ∧ shutdown (loop r) = Some Fast
}.

(** A step of the loop other than a start keeps the shutdown, or ends the accepting in fast mode. *)
Lemma loop_step_shutdown duration l a l' :
  exec duration l a = Steps l' → (∀ m, a ≠ Started m) →
  (shutdown l' = shutdown l ∧ (phase l' = Accepting → phase l = Accepting)) ∨
  (shutdown l' = Some Fast ∧ phase l' ≠ Accepting).
Proof.
  intros E Ha. unfold exec, finish_step, accept_step, process_public_accept, process_incoming, allocate, on_success in E.
  loop_cases E; simpl; try (left; split; done); try (right; split; done); try (left; split; congruence).
  all: exfalso; by eapply Ha.
Qed.
Lemma begin_fast_inv l : loop_inv l → loop_inv (begin_fast l).
Proof. intros Hi. by apply (loop_inv_step (mkDurations 0 0) l (Started Fast)). Qed.

Lemma begin_graceful_inv l : loop_inv l → loop_inv (begin_graceful l).
Proof. intros Hi. by apply (loop_inv_step (mkDurations 0 0) l (Started Graceful)). Qed.

Lemma runtime_inv_step duration r a r' : runtime_inv r → runtime_exec duration r a = Steps r' → runtime_inv r'.
Proof.
  intros [Hl Hw Hg Hf] E. destruct a as [m| |drain| |a]; cbn [runtime_exec] in E.
  - injection E as <-. constructor; simpl; [done|done|naive_solver|]. intros H. destruct (Hf H) as [-> ?]. by destruct m.
  - injection E as <-. constructor; simpl; [done|done|naive_solver|done].
  - destruct (follow r) eqn:Hfr; try done. specialize (Hw eq_refl). unfold followed_step in E.
    assert (phase (loop r) = Accepting → shutdown (loop r) = None) as Hw' by done.
    destruct drain; [destruct (drained r) eqn:Hd; [|done]|destruct (process_mode r) as [[]|] eqn:Hm; [..|done]];
      injection E as <-; constructor; simpl; try done; try (by apply begin_fast_inv); try (by apply begin_graceful_inv);
      intros _; split_and!; auto; intros Hp; by rewrite (Hw' Hp).
  - destruct (follow r) eqn:Hfr; try done. destruct (process_mode r) as [[]|] eqn:Hm; try done.
    injection E as <-. constructor; simpl; try done. by apply begin_fast_inv.
  - assert (∀ m, a ≠ Started m) as Hn by (intros m ->; done).
    destruct (exec duration (loop r) a) as [l'| |] eqn:El; [|by destruct a|by destruct a].
    assert (r' = mkRuntime (process_mode r) (drained r) (follow r) l') as -> by (destruct a; congruence).
    pose proof (loop_inv_step _ _ _ _ Hl El) as Hl'.
    destruct (loop_step_shutdown _ _ _ _ El Hn) as [[Hs Hp]|[Hs Hp]];
      constructor; simpl; rewrite ?Hs; auto; naive_solver.
Qed.

Lemma runtime_inv_new probe now last_id : runtime_inv (runtime_new probe now last_id).
Proof. constructor; simpl; try done. apply loop_inv_new. Qed.

Lemma runtime_no_panic duration r a : runtime_inv r → runtime_exec duration r a ≠ Panics.
Proof.
  intros [Hl _ _ _] E. destruct a as [m| |drain| |a]; cbn [runtime_exec] in E; try done.
  - unfold followed_step in E. by destruct (follow r), drain, (drained r), (process_mode r) as [[]|].
  - by destruct (follow r), (process_mode r) as [[]|].
  - destruct (exec duration (loop r) a) eqn:El; [by destruct a..|]. by apply exec_no_panic in El.
Qed.

(** The follower starts the loop's shutdown, and makes it fast. *)
Lemma follow_starts duration r :
  runtime_inv r → process_mode r ≠ None ∨ drained r = true →
  ∃ acts r', (length acts ≤ 1)%nat ∧ Forall (λ a, ∀ a', a ≠ InLoop a') acts ∧
    run_actions (runtime_exec duration) r acts = Some r' ∧ shutdown (loop r') ≠ None.
Proof.
  intros [Hl Hw Hg Hf] Hs. destruct (follow r) eqn:E.
  - exists [FollowStart (drained r)]. simpl. rewrite E. unfold followed_step.
    destruct (drained r); [eexists; split_and!; simpl; [lia|by repeat constructor|done|done]|].
    destruct Hs as [Hs|]; [|done].
    destruct (process_mode r) as [[]|]; [..|done]; eexists; split_and!; simpl; (lia || done || by repeat constructor).
  - exists [], r. split_and!; [simpl; lia|constructor|done|]. by destruct (Hg eq_refl) as (_ & ? & _).
  - exists [], r. split_and!; [simpl; lia|constructor|done|]. destruct (Hf eq_refl) as [_ ->]. done.
Qed.

Lemma follow_fast duration r :
  runtime_inv r → process_mode r = Some Fast →
  ∃ acts r', (length acts ≤ 1)%nat ∧ Forall (λ a, ∀ a', a ≠ InLoop a') acts ∧
    run_actions (runtime_exec duration) r acts = Some r' ∧ shutdown (loop r') = Some Fast.
Proof.
  intros [Hl Hw Hg Hf] Hs. destruct (follow r) eqn:E.
  - exists [FollowStart false]. simpl. rewrite E. unfold followed_step. rewrite Hs. eexists.
    split_and!; simpl; (lia || done || by repeat constructor).
  - exists [FollowFast]. simpl. rewrite E, Hs. eexists. split_and!; simpl; (lia || done || by repeat constructor).
  - exists [], r. split_and!; [simpl; lia|constructor|done|]. by destruct (Hf eq_refl).
Qed.

(** How far the runtime has come, and the steps that bring it further: the follower's and the
    loop's own, where a poll of the loop has nothing to accept. *)
Definition follow_rank (f : Follow) : nat := match f with AwaitingStart => 0 | AwaitingFast => 1 | Followed => 2 end.
Definition runtime_rank (r : Runtime) : nat := (follow_rank (follow r) + rank (phase (loop r)))%nat.
Definition advancing (a : RuntimeAction) : bool :=
  match a with FollowStart _ | FollowFast | InLoop (Next | Poll None None) => true | _ => false end.

Lemma loop_step_rank duration l a l' :
  exec duration l a = Steps l' →
  (rank (phase l) ≤ rank (phase l'))%nat ∧ (a = Next ∨ a = Poll None None → (rank (phase l) < rank (phase l'))%nat).
Proof.
  intros E. split.
  - unfold exec, finish_step, accept_step, process_public_accept, process_incoming, allocate, on_success in E. cbv zeta in E.
    loop_cases E; simpl; try lia; repeat match goal with H : phase _ = _ |- _ => rewrite H end; simpl; lia.
  - intros [->| ->]; unfold exec, finish_step, accept_step in E; cbv zeta in E; loop_cases E; simpl;
      repeat match goal with H : phase _ = _ |- _ => rewrite H end; simpl; lia.
Qed.

Lemma runtime_step_rank duration r a r' :
  runtime_exec duration r a = Steps r' → ((if advancing a then 1 else 0) + runtime_rank r ≤ runtime_rank r')%nat.
Proof.
  intros E. unfold runtime_rank. destruct a as [m| |drain| |a]; cbn [runtime_exec advancing] in *.
  - injection E as <-. simpl. lia.
  - injection E as <-. simpl. lia.
  - destruct (follow r) eqn:Hf; try done. unfold followed_step in E.
    destruct drain; [destruct (drained r); [|done]|destruct (process_mode r) as [[]|]; [..|done]]; injection E as <-; simpl; lia.
  - destruct (follow r) eqn:Hf; try done. destruct (process_mode r) as [[]|]; try done. injection E as <-. simpl. lia.
  - destruct (exec duration (loop r) a) as [l'| |] eqn:El; [|by destruct a..].
    assert (r' = mkRuntime (process_mode r) (drained r) (follow r) l') as -> by (destruct a; congruence).
    destruct (loop_step_rank _ _ _ _ El) as [Hle Hlt]. simpl.
    destruct a as [[]  []| | | | | | |]; simpl; try lia; specialize (Hlt ltac:(auto)); lia.
Qed.

(** Once the process shuts down or a drain was asked for, the runtime advances unless its loop
    waits; after a fast shutdown it waits only for the flush. *)
Lemma runtime_enabled duration r :
  runtime_inv r → process_mode r ≠ None ∨ drained r = true → returned (loop r) = false →
  (∃ a r', advancing a = true ∧ runtime_exec duration r a = Steps r') ∨
  (may_wait (loop r) ∧ (process_mode r = Some Fast → phase (loop r) = Flushing)).
Proof.
  intros [Hl Hw Hg Hf] Hs Hret.
  assert (ending (loop r) →
          (∃ a r', advancing a = true ∧ runtime_exec duration r a = Steps r') ∨ may_wait (loop r)) as Hloop.
  { intros He. destruct (ending_enabled duration (loop r) Hl He Hret) as [[l' El]|]; [left|by right].
    exists (InLoop (own_step (loop r))), (mkRuntime (process_mode r) (drained r) (follow r) l').
    unfold own_step in *. destruct (phase (loop r)); cbn [runtime_exec advancing]; by rewrite El. }
  destruct (follow r) eqn:E.
  - left. exists (FollowStart (drained r)). cbn [runtime_exec]. rewrite E. unfold followed_step.
    destruct (drained r); [eauto|]. destruct Hs as [Hs|]; [|done]. destruct (process_mode r) as [[]|]; [eauto..|done].
  - destruct (Hg eq_refl) as (_ & Hsh & _). destruct Hloop as [?|Hwait]; [by left|by left|].
    destruct (process_mode r) as [[]|] eqn:Hm; [by right| |by right].
    left. exists FollowFast. cbn [runtime_exec]. rewrite E, Hm. eauto.
  - destruct (Hf eq_refl) as [_ Hsh]. destruct Hloop as [?|Hwait]; [left; by rewrite Hsh|by left|].
    right. split; [done|]. intros _. by destruct Hwait as [(_ & ? & _)|[? _]].
Qed.

Definition runtime_reachable (duration : Durations) (r : Runtime) : Prop :=
  ∃ probe now last_id acts, run_actions (runtime_exec duration) (runtime_new probe now last_id) acts = Some r.

Lemma runtime_reachable_inv duration r : runtime_reachable duration r → runtime_inv r.
Proof.
  intros (probe & now & last_id & acts & Hr).
  eapply run_actions_invariant; [|apply runtime_inv_new|exact Hr]. intros ? ? ?. apply runtime_inv_step.
Qed.

(** ** Claims *)

(** Connection identifiers are unique for the life of the process.  Whatever number of
    threads allocate, in whatever interleaving of their reads and exchanges (spurious failures
    included), two connections never have the same identifier, none is 0 or wraps, and
    exhaustion is reported only when all of them have been given out. *)
Theorem connection_ids_unique acts s :
  run_actions ConnectionIds.allocate_exec ConnectionIds.ids_new acts = Some s →
  (∀ i j id, ConnectionIds.callers s !! i = Some (ConnectionIds.Allocated id) →
     ConnectionIds.callers s !! j = Some (ConnectionIds.Allocated id) → i = j) ∧
  (∀ i id, ConnectionIds.callers s !! i = Some (ConnectionIds.Allocated id) → 1 <= id <= ConnectionIds.MAX_ID) ∧
  (∀ i, ConnectionIds.callers s !! i = Some ConnectionIds.Exhausted →
     ConnectionIds.last_connection_id s = ConnectionIds.MAX_ID).
Proof.
  intros Hr. assert (ConnectionIds.ids_inv s) as [Hrange _ Ha Hd Hx].
  { eapply run_actions_invariant; [|apply ConnectionIds.ids_inv_new|exact Hr]. intros ? ? ?. apply ConnectionIds.ids_inv_step. }
  split_and!; [exact Hd| |exact Hx]. intros i id Hi. specialize (Ha i id Hi). lia.
Qed.

(** Two threads read the same value; one exchange fails and is repeated. *)
Definition racing_callers : list ConnectionIds.Action :=
  [ConnectionIds.Call 0; ConnectionIds.Call 1; ConnectionIds.Load 0; ConnectionIds.Load 1;
   ConnectionIds.Exchange 0 false; ConnectionIds.Exchange 1 false; ConnectionIds.Exchange 1 true; ConnectionIds.Exchange 1 false].

Lemma connection_ids_unique_witness :
  ∃ s, run_actions ConnectionIds.allocate_exec ConnectionIds.ids_new racing_callers = Some s ∧
    ConnectionIds.callers s !! 0%nat = Some (ConnectionIds.Allocated 1) ∧
    ConnectionIds.callers s !! 1%nat = Some (ConnectionIds.Allocated 2) ∧
    (∀ i j id, ConnectionIds.callers s !! i = Some (ConnectionIds.Allocated id) →
       ConnectionIds.callers s !! j = Some (ConnectionIds.Allocated id) → i = j).
Proof.
  eexists. split; [vm_compute; reflexivity|]. split; [vm_compute; reflexivity|]. split; [vm_compute; reflexivity|].
  refine (proj1 (connection_ids_unique racing_callers _ _)). vm_compute; reflexivity.
Defined.

(** A busy address cannot starve its siblings.  A listener that is ready at each of [n]
    successive accepts is among those accepted, where [n] is the number of listeners; and the
    endpoints, polled as a rotated list, are taken in the same order with the same cursor. *)
Theorem listener_rotation_fair n cursor polls j :
  (j < n)%nat → length polls = n → Forall (λ ready, ready j = true) polls →
  j ∈ Rotation.accepts n cursor polls ∧
  (∀ ready k, (k < n)%nat → ready ((cursor + k) mod n)%nat = true → (∀ i, (i < k)%nat → ready ((cursor + i) mod n)%nat = false) →
     Rotation.endpoint_order n cursor !! k = Some ((cursor + k) mod n)%nat ∧
     Rotation.poll_accept ready n cursor = Some ((cursor + k) mod n, Rotation.tunnel_cursor n cursor k)%nat).
Proof.
  intros Hj Hl Hall. split.
  - destruct (Rotation.distance_exists n cursor j Hj) as (d & Hd & He). eapply Rotation.accepts_within; [exact Hd|done|lia|done].
  - intros ready k Hk Hr Hlt. split.
    + unfold Rotation.endpoint_order. rewrite list_lookup_fmap, lookup_seq_lt by lia. done.
    + by apply Rotation.poll_accept_first.
Qed.

Lemma listener_rotation_fair_witness :
  1%nat ∈ Rotation.accepts 2 0 [(λ _, true); (λ _, true)].
Proof. refine (proj1 (listener_rotation_fair 2 0 _ 1 _ _ _)); [lia|reflexivity|]. repeat constructor. Defined.

(** C14: The Server's loop always comes to a clean end.  It never panics.  After a shutdown has
    started or a fatal failure was signalled, whatever happens around it, it takes on nothing
    more, takes at most nine steps of its own, and has one unless it has returned or waits; it
    waits no longer than the graceful duration, unless the shutdown is fast, and the flush.
    When it has returned, the registry had been sealed, the readiness port and the listeners
    are closed, the connections closed, no handshake and no Visitor task is left, and the
    result is an error exactly when one ended the loop. *)
Theorem server_loop_ends duration l :
  reachable duration l → 0 <= graceful_shutdown_duration duration → 0 <= quic_close_flush_duration duration →
  (∀ a, exec duration l a ≠ Panics) ∧
  (ending l →
     (∀ acts l', run_actions (exec duration) l acts = Some l' →
        (length (List.filter own acts) ≤ 9)%nat ∧ (intakes l' ≤ intakes l)%nat ∧ (handshakes l' ≤ handshakes l)%nat ∧
        (returned l' = false → (∃ l'', exec duration l' (own_step l') = Steps l'') ∨ may_wait l')) ∧
     (∀ acts l', run_actions (prompt_exec duration) l acts = Some l' →
        now l' <= now l + (if bool_decide (shutdown l = Some Fast) then 0 else graceful_shutdown_duration duration)
                  + quic_close_flush_duration duration)) ∧
  (∀ r, phase l = Returned r →
     sealed l = true ∧ probe l = false ∧ listening l = false ∧ connections_closed l = true ∧
     handshakes l = 0%nat ∧ intakes l = 0%nat ∧
     r = match terminal_error l with Some e => Err e | None => Ok tt end).
Proof.
  intros Hre Hg Hf. pose proof (reachable_loop_inv _ _ Hre) as Hi. split_and!; [intros a; by apply exec_no_panic| |].
  - intros He. split.
    + intros acts l' Hr. destruct (ending_run duration acts l l' He Hr) as (He' & ? & ? & Hk).
      pose proof (rank_bound (phase l')). split_and!; [lia|done|done|]. intros Hn. apply ending_enabled; try done.
      eapply run_actions_invariant; [|exact Hi|exact Hr]. intros ? ? ?. apply loop_inv_step.
    + intros acts l' Hr. pose proof (prompt_run duration Hg Hf acts l l' Hi He Hr) as Hle.
      destruct (wait_bounds duration Hg Hf l Hre). lia.
  - intros r Hp. destruct Hi as [_ H2 H3 H4 H5 _ H7 H8 _ H10]. rewrite Hp in *. simpl in *.
    destruct H2 as [? _]; [lia|]. split_and!; try done; [apply H3|apply H4|apply H7|apply H5|apply H8|by apply H10]; lia.
Qed.

(** Half a minute for the work that is left, and a little to flush. *)
Definition patient : Durations := mkDurations 30 1.

(** A Visitor and a tunnel are accepted; then a graceful shutdown whose deadline expires. *)
Definition busy_day : list Action :=
  [Poll (Some (Ok true)) (Some (Some true)); Poll None (Some (Some true)); Started Graceful; Poll (Some (Ok true)) None;
   Next; Next; Next; Next; Elapse 30; Next; Next; Next; Elapse 31; Next].

Lemma server_loop_ends_witness :
  ∃ l, reachable patient l ∧ phase l = Returned (Ok tt) ∧ last_id l = 2 ∧ intakes l = 0%nat ∧ handshakes l = 0%nat.
Proof.
  assert (∃ l, run_actions (exec patient) (loop_new true 0 0) busy_day = Some l ∧ phase l = Returned (Ok tt) ∧ last_id l = 2)
    as (l & Hr & Hp & Hid) by (eexists; vm_compute; split_and!; reflexivity).
  assert (reachable patient l) as Hre by (exists true, 0, 0, busy_day; exact Hr).
  exists l. destruct (proj2 (proj2 (server_loop_ends patient l Hre ltac:(done) ltac:(done))) _ Hp)
    as (_ & _ & _ & _ & Hh & Hi & _).
  split_and!; assumption.
Defined.

(** The loop's shutdown is exactly what the process and the drain ask for.  While it
    accepts, its shutdown is started only when the process's is or a drain was requested, and
    it is fast only when the process's is.  Once either is asked for, one step of the follower
    starts it; a fast shutdown of the process makes it fast in one, also in a drain. *)
Theorem shutdown_followed duration r :
  runtime_reachable duration r →
  (∀ a, runtime_exec duration r a ≠ Panics) ∧
  (phase (loop r) = Accepting → shutdown (loop r) ≠ None → process_mode r ≠ None ∨ drained r = true) ∧
  (phase (loop r) = Accepting → shutdown (loop r) = Some Fast → process_mode r = Some Fast) ∧
  (process_mode r ≠ None ∨ drained r = true → ∃ acts r', (length acts ≤ 1)%nat ∧
     run_actions (runtime_exec duration) r acts = Some r' ∧ shutdown (loop r') ≠ None) ∧
  (process_mode r = Some Fast → ∃ acts r', (length acts ≤ 1)%nat ∧
     run_actions (runtime_exec duration) r acts = Some r' ∧ shutdown (loop r') = Some Fast).
Proof.
  intros [Hl Hw Hg Hf]%runtime_reachable_inv. split_and!.
  - intros a. by apply runtime_no_panic.
  - intros Hp Hs. destruct (follow r) eqn:E; [naive_solver..|]. destruct (Hf eq_refl) as [-> _]. by left.
  - intros Hp Hs. destruct (follow r) eqn:E; [naive_solver| |naive_solver]. destruct (Hg eq_refl) as (_ & _ & H).
    rewrite (H Hp) in Hs. done.
  - intros Hs. destruct (follow_starts duration r (Build_runtime_inv _ Hl Hw Hg Hf) Hs) as (acts & r' & ? & _ & ? & ?). by exists acts, r'.
  - intros Hs. destruct (follow_fast duration r (Build_runtime_inv _ Hl Hw Hg Hf) Hs) as (acts & r' & ? & _ & ? & ?). by exists acts, r'.
Qed.

(** A drain, then a fast shutdown of the process. *)
Lemma shutdown_followed_witness :
  ∃ r, runtime_reachable patient r ∧ process_mode r = Some Fast ∧ shutdown (loop r) = Some Graceful ∧
    ∃ acts r', (length acts ≤ 1)%nat ∧ run_actions (runtime_exec patient) r acts = Some r' ∧ shutdown (loop r') = Some Fast.
Proof.
  set (acts := [DrainRequested; FollowStart true; ProcessStarted Fast]).
  assert (∃ r, run_actions (runtime_exec patient) (runtime_new true 0 0) acts = Some r ∧ process_mode r = Some Fast ∧
    shutdown (loop r) = Some Graceful) as (r & Hr & Hp & Hs) by (eexists; vm_compute; split_and!; reflexivity).
  assert (runtime_reachable patient r) as Hre by (exists true, 0, 0, acts; exact Hr).
  exists r. split; [exact Hre|]. split; [exact Hp|]. split; [exact Hs|].
  exact (proj2 (proj2 (proj2 (proj2 (shutdown_followed patient r Hre)))) Hp).
Defined.
