(* ===== verification/ClientRun.v ===== *)
(** * ClientRun: a Client's attempt at a Tunnel connection and the life of the connection

    [ClientTunnelAttempt] ([src/client/tunnel_attempt.rs]): what one attempt reports, how its
    failures and the ends of its connection are classified; and [Client::run_with_shutdown]
    ([src/client/mod.rs]), which accepts Visitor streams until the connection closes or the
    instance shuts down, and then withdraws the connection as [Withdrawal] describes. *)

From Stdlib Require Import Ascii ZArith Lia.
From stdpp Require Import base strings numbers gmap list.
From S2P Require Import Prelude Text Names Shutdown Http Follower Withdrawal.
Import Hostname Address Field Signaling.

Open Scope Z_scope.

(** ** Errors of QUIC *)

(** [quinn::ConnectionError]: the codes of its variants [TransportError], [ConnectionClosed]
    and [ApplicationClosed]; [TransportErrorCode::crypto] and [NO_ERROR]. *)
Class QuicErrors (E : Type) : Type := {
  transport_error : E → option Z;
  connection_closed : E → option Z;
  application_closed : E → option Z;
  crypto : Z → Z;
  NO_ERROR : Z
}.

(** An error is of one variant; a TLS alert is not the absence of an error. *)
Class QuicErrorsLaws (E : Type) `{QuicErrors E} : Prop := {
  one_variant : ∀ e, (transport_error e = None ∧ connection_closed e = None) ∨
    (transport_error e = None ∧ application_closed e = None) ∨
    (connection_closed e = None ∧ application_closed e = None);
  alert_is_error : ∀ alert, crypto alert ≠ NO_ERROR
}.

Definition TLS_ACCESS_DENIED_ALERT : Z := 49.

(** ** What an attempt reports *)

Inductive ClientTunnelPhase := Establishing | Reconnecting.
Inductive ClientTunnelAttemptKind := InitialAttempt | RetryAttempt.

Record AttemptContext := mkAttemptContext {
  phase : ClientTunnelPhase;
  attempt_kind : ClientTunnelAttemptKind;
  context_addr : bytes
}.
Record ConnectionContext := mkConnectionContext { connection_addr : bytes; resolved_server_addr : bytes }.

Definition client_tunnel_phase (connected_once : bool) : ClientTunnelPhase :=
  if connected_once then Reconnecting else Establishing.
Definition client_tunnel_attempt_kind (is_fresh_attempt : bool) : ClientTunnelAttemptKind :=
  if is_fresh_attempt then InitialAttempt else RetryAttempt.

(** [host:port], with IPv6 literals bracketed. *)
Definition configured_server_addr (server_hostname : bytes) (server_port : Z) : bytes :=
  if contains_byte ":"%char server_hostname
     && negb (match server_hostname with c :: _ => byte_eqb c "["%char | [] => false end)
  then bs "[" ++ server_hostname ++ bs "]:" ++ show_uint server_port
  else server_hostname ++ bs ":" ++ show_uint server_port.
Definition display_server_address (a : ServerAddress) : bytes := configured_server_addr (sa_hostname a) (sa_port a).

Section Attempts.
Context {E : Type} `{QuicErrors E}.

Definition is_tls_access_denied (error : E) : bool :=
  bool_decide (transport_error error = Some (crypto TLS_ACCESS_DENIED_ALERT)) ||
  bool_decide (connection_closed error = Some (crypto TLS_ACCESS_DENIED_ALERT)).

Definition is_clean_client_tunnel_close (error : E) : bool :=
  match application_closed error with
  | Some code => code =? 256
  | None => match connection_closed error with Some code => code =? NO_ERROR | None => false end
  end.

(** [ClientConnectError]; [TunnelTransport] is [Tunnel] with [TunnelError::Transport] and the
    error it carries. *)
Inductive ClientConnectError :=
| BindFailed
| ConnectFailed
| Handshake (e : E)
| TunnelTransport (e : E)
| TunnelFailed (e : TunnelError).

Definition is_unauthorized_client_identity (e : ClientConnectError) : bool :=
  match e with Handshake e | TunnelTransport e => is_tls_access_denied e | _ => false end.
Definition is_wrong_generation (e : ClientConnectError) : bool :=
  match e with TunnelFailed WrongGeneration => true | _ => false end.

(** [ClientStartupError], as far as an attempt can meet it. *)
Inductive ClientStartupError :=
| LocalMaterial (message : bytes)
| ResolveFailed
| MissingServerAddress (server_hostname : bytes)
| StartupConnect (e : ClientConnectError).

Inductive AttemptFailureKind :=
| ResolutionFailure (c : AttemptContext)
| UnauthorizedFailure (c : AttemptContext)
| TransportFailure (c : AttemptContext) (resolved : bytes)
| WrongGenerationFailure
| UnclassifiedFailure.

(** [TunnelAttemptOutcome], with what is reported when it connects. *)
Inductive AttemptOutcome :=
| ConnectedTo (context : ConnectionContext)
| Retryable (k : AttemptFailureKind)
| FatalLocalMaterial (message : bytes).

(** [resolve_first], on the resolver's answer. *)
Definition resolve_first (address : ServerAddress) (answer : option (list bytes)) : result ClientStartupError bytes :=
  addresses ← ok_or ResolveFailed answer; ok_or (MissingServerAddress (sa_hostname address)) (head addresses).

Definition classify_connect_failure (error : ClientStartupError) (context : AttemptContext) (resolved : bytes) :
    AttemptOutcome :=
  match error with
  | StartupConnect connect_error =>
      Retryable (if is_wrong_generation connect_error then WrongGenerationFailure
                 else if is_unauthorized_client_identity connect_error then UnauthorizedFailure context
                 else TransportFailure context resolved)
  | LocalMaterial message => FatalLocalMaterial message
  | ResolveFailed => FatalLocalMaterial (bs "failed to resolve the Server hostname")
  | MissingServerAddress hostname =>
      FatalLocalMaterial (bs "the Server hostname did not resolve to any addresses: " ++ hostname)
  end.

(** ** The attempts of one address worker *)

Record Attempts := mkAttempts {
  connected_once : bool;
  establish_attempts : Z;
  in_flight : gmap nat (bool * ServerAddress * AttemptContext)
}.
Definition attempts_new : Attempts := mkAttempts false 0 ∅.

(** [attempt] up to its first suspension, and from the answers of the resolver and of
    [PreparedClient] on. *)
Definition attempt_begin (i : nat) (candidate : bool) (address : ServerAddress) (s : Attempts) : Attempts :=
  let phase := client_tunnel_phase (connected_once s) in
  let context kind := mkAttemptContext phase kind (display_server_address address) in
  if candidate
  then mkAttempts (connected_once s) (establish_attempts s) (<[i := (true, address, context RetryAttempt)]> (in_flight s))
  else mkAttempts (connected_once s) (establish_attempts s + 1)
         (<[i := (false, address, context (client_tunnel_attempt_kind (establish_attempts s =? 0)))]> (in_flight s)).

Definition attempt_end (i : nat) (candidate : bool) (address : ServerAddress) (context : AttemptContext) (resolved : option (list bytes))
    (connected : result ClientStartupError unit) (s : Attempts) : Attempts * AttemptOutcome :=
  let s' := mkAttempts (connected_once s) (establish_attempts s) (delete i (in_flight s)) in
  match resolve_first address resolved with
  | Err _ => (s', Retryable (ResolutionFailure context))
  | Ok resolved =>
      match connected with
      | Err error => (s', classify_connect_failure error context resolved)
      | Ok _ =>
          (if candidate then s' else mkAttempts true 0 (in_flight s'),
           ConnectedTo (mkConnectionContext (context_addr context) resolved))
      end
  end.

(** [Dropped]: the future of the attempt is dropped. *)
Inductive AttemptAction :=
| Begin (i : nat) (candidate : bool) (address : ServerAddress)
| End (i : nat) (resolved : option (list bytes)) (connected : result ClientStartupError unit)
| Dropped (i : nat).

Inductive AttemptEvent :=
| AttemptBegan (candidate : bool) (context : AttemptContext)
| AttemptEnded (candidate : bool) (outcome : AttemptOutcome).

(** The attempts with the events they made, latest first. *)
Definition attempts_exec (s : Attempts * list AttemptEvent) (a : AttemptAction) : next (Attempts * list AttemptEvent) :=
  let '(s, log) := s in
  match a with
  | Begin i candidate address =>
      match in_flight s !! i with
      | Some _ => Disabled
      | None =>
          let s' := attempt_begin i candidate address s in
          match in_flight s' !! i with
          | Some (_, _, context) => Steps (s', AttemptBegan candidate context :: log)
          | None => Panics
          end
      end
  | End i resolved connected =>
      match in_flight s !! i with
      | Some (candidate, address, context) =>
          let '(s', outcome) := attempt_end i candidate address context resolved connected s in
          Steps (s', AttemptEnded candidate outcome :: log)
      | None => Disabled
      end
  | Dropped i =>
      match in_flight s !! i with
      | Some _ => Steps (mkAttempts (connected_once s) (establish_attempts s) (delete i (in_flight s)), log)
      | None => Disabled
      end
  end.

(** ** The end of a connection *)

Inductive ConnectionEnd :=
| CleanEnd (c : ConnectionContext)
| UnauthorizedEnd (c : ConnectionContext)
| TransportEnd (c : ConnectionContext)
| WithdrawalFailure (why : ProtocolFailure).

Definition classify_connection_end (error : E) (context : ConnectionContext) : ConnectionEnd :=
  if is_tls_access_denied error then UnauthorizedEnd context
  else if is_clean_client_tunnel_close error then CleanEnd context
  else TransportEnd context.

(** [report_withdrawal]: only a protocol failure fails the process. *)
Definition report_withdrawal (withdrawal : option WithdrawalOutcome) : result ConnectionEnd unit :=
  match withdrawal with
  | Some (Failed why) => Err (WithdrawalFailure why)
  | None | Some Confirmed | Some (Unconfirmed _) => Ok tt
  end.
End Attempts.

(** ** [Client::run_with_shutdown] *)

(** In the loop; closed and flushing, with the outcome to return; returned. *)
Inductive RunPlace :=
| Looping
| FlushingWith (o : option WithdrawalOutcome)
| RunReturned (r : result CloseReason (option WithdrawalOutcome)).

(** [withdrawing] is the withdrawal future once it is started, which then has the connection. *)
Record Run := mkRun {
  run_place : RunPlace;
  accepting : bool;
  run_mode : option ShutdownMode;
  deadline : option Z;
  clock : Z;
  connection_link : CloseReason;
  withdrawing : option Withdrawing;
  credit_released : bool;
  handlers : nat
}.

Definition run_new (clock : Z) : Run := mkRun Looping true None None clock Open None true 0.

Definition run_link (r : Run) : CloseReason :=
  match withdrawing r with Some w => link w | None => connection_link r end.

Definition at_run (p : RunPlace) (r : Run) : Run :=
  mkRun p (accepting r) (run_mode r) (deadline r) (clock r) (connection_link r) (withdrawing r) (credit_released r)
    (handlers r).
Definition with_withdrawal (w : Withdrawing) (r : Run) : Run :=
  mkRun (run_place r) (accepting r) (run_mode r) (deadline r) (clock r) (connection_link r) (Some w) (credit_released r)
    (handlers r).
Definition with_link (c : CloseReason) (r : Run) : Run :=
  mkRun (run_place r) (accepting r) (run_mode r) (deadline r) (clock r) c (withdrawing r) (credit_released r)
    (handlers r).

(** [ClientTunnel::close] *)
Definition close_run (r : Run) : Run :=
  match withdrawing r with
  | Some w => with_withdrawal (mkWithdrawing (close_connection (link w) H3_NO_ERROR) (Withdrawal.withdrawal_confirmed w)
                (replenishing w) (idle_released w) (attempts w) (withdrawal_phase w)) r
  | None => with_link (close_connection (connection_link r) H3_NO_ERROR) r
  end.

(** The end of the loop: a confirmation received stays one. *)
Definition conclude (w : Withdrawing) (o : WithdrawalOutcome) (r : Run) : Run :=
  at_run (FlushingWith (Some (if Withdrawal.withdrawal_confirmed w then Confirmed else o))) (close_run r).

(** A poll of the [select!], in its order; [stream] is what [accept_tunnel_stream] has. *)
Definition run_poll (duration : Z) (stream : option (option unit)) (r : Run) : next Run :=
  let accept :=
    match stream with
    | Some s =>
        if accepting r then
          match s with
          | Some _ => Steps (mkRun (run_place r) (accepting r) (run_mode r) (deadline r) (clock r) (connection_link r)
                               (withdrawing r) (credit_released r) (S (handlers r)))
          | None => Steps (mkRun (run_place r) false (run_mode r) (deadline r) (clock r) (connection_link r)
                             (withdrawing r) (credit_released r) (handlers r))
          end
        else Disabled
    | None => Disabled
    end in
  match withdrawing r with
  | Some w =>
      match withdrawal_phase w with
      | Ended o => Steps (conclude w o r)
      | _ =>
          match run_mode r with
          | Some Fast => Steps (conclude w (Unconfirmed FastShutdown) r)
          | _ =>
              if match deadline r with Some t => t <=? clock r | None => false end
              then Steps (conclude w (Unconfirmed DrainDeadline) r)
              else accept
          end
      end
  | None =>
      match run_mode r with
      | Some m =>
          if bool_decide (m = Graceful) && negb (duration =? 0)
          then Steps (with_withdrawal (withdrawal (connection_link r)) r)
          else Steps (at_run (FlushingWith None) (close_run r))
      | None => if is_closed (connection_link r) then Steps (at_run (RunReturned (Err (connection_link r))) r) else accept
      end
  end.

Inductive RunAction :=
| RunPolls (stream : option (option unit))
| InWithdrawal (e : WithdrawalEvent)
| Flushed
| ConnectionLostAction (c : CloseReason)
| RunStarted (m : ShutdownMode)
| Passes (t : Z).

Definition run_exec (duration : Z) (r : Run) (a : RunAction) : next Run :=
  match a with
  | RunPolls stream => match run_place r with Looping => run_poll duration stream r | _ => Disabled end
  | InWithdrawal e =>
      match run_place r, withdrawing r with
      | Looping, Some w =>
          match withdrawal_step w e with Some w' => Steps (with_withdrawal w' r) | None => Disabled end
      | _, _ => Disabled
      end
  | Flushed => match run_place r with FlushingWith o => Steps (at_run (RunReturned (Ok o)) r) | _ => Disabled end
  | ConnectionLostAction c =>
      match withdrawing r, connection_link r with
      | None, Open => if is_closed c then Steps (with_link c r) else Disabled
      | _, _ => Disabled
      end
  | RunStarted m =>
      let mode := match m with Fast => Fast | Graceful => default Graceful (run_mode r) end in
      Steps (mkRun (run_place r) (accepting r) (Some mode) (Some (default (clock r + duration) (deadline r))) (clock r)
               (connection_link r) (withdrawing r) (credit_released r) (handlers r))
  | Passes t => if clock r <=? t then
                  Steps (mkRun (run_place r) (accepting r) (run_mode r) (deadline r) t (connection_link r) (withdrawing r)
                           (credit_released r) (handlers r))
                else Disabled
  end.

(** ** Attempts: lemmas *)

Section AttemptLemmas.
Context {E : Type} `{QuicErrors E}.

(** The log's own account: primary attempts begun since one connected, and whether one did. *)
Fixpoint begun_since (log : list AttemptEvent) : Z :=
  match log with
  | [] => 0
  | AttemptEnded false (ConnectedTo _) :: _ => 0
  | AttemptBegan false _ :: log => 1 + begun_since log
  | _ :: log => begun_since log
  end.
Definition connects (e : AttemptEvent) : bool :=
  match e with AttemptEnded false (ConnectedTo _) => true | _ => false end.

Lemma begun_since_nonneg log : 0 <= begun_since log.
Proof. induction log as [|[[]|[] []] log IH]; simpl; lia. Qed.

Definition attempts_inv (s : Attempts * list AttemptEvent) : Prop :=
  connected_once (fst s) = existsb connects (snd s) ∧ establish_attempts (fst s) = begun_since (snd s).

Lemma attempts_inv_step s a s' : attempts_inv s → attempts_exec s a = Steps s' → attempts_inv s'.
Proof.
  destruct s as [s log]. intros [Hc He] Ex. unfold attempts_inv in *. simpl in *. destruct a as [i candidate address|i resolved connected|i].
  - destruct (in_flight s !! i); [done|]. unfold attempt_begin in Ex. destruct candidate; simpl in Ex;
      rewrite lookup_insert_eq in Ex; injection Ex as <-; simpl; rewrite Hc, He; split; (done || lia).
  - destruct (in_flight s !! i) as [[[candidate address] context]|]; [|done].
    unfold attempt_end, classify_connect_failure in Ex.
    destruct (resolve_first address resolved); [destruct connected as [|[]]|]; injection Ex as <-; destruct candidate; simpl; done.
  - destruct (in_flight s !! i); [|done]. by injection Ex as <-.
Qed.
End AttemptLemmas.

Lemma display_canonical a : canonical_hostname (sa_hostname a) → display_server_address a = ServerAddress_render a.
Proof.
  intros Hh. unfold display_server_address, configured_server_addr, ServerAddress_render.
  rewrite (proj2 (contains_byte_false _ _)); [done|]. by apply canonical_hostname_no_byte.
Qed.

Lemma ServerAddress_parse_render a :
  canonical_hostname (sa_hostname a) → 0 <= sa_port a <= u16_max → ServerAddress_parse (ServerAddress_render a) = Ok a.
Proof.
  destruct a as [h p]. simpl. intros Hh Hp. unfold ServerAddress_parse, ServerAddress_render, u16_max in *. simpl.
  assert (validate_public_hostname h = Ok h) as Hv. { apply validate_spec. by rewrite normalize_canonical. }
  assert (h ≠ []) as Hne. { destruct (canonical_hostname_last h Hh) as (s & b & -> & _). by destruct s. }
  rewrite rsplit_once_app by (apply show_uint_no_byte; [lia | done]). simpl.
  rewrite parse_show_uint by (unfold u16_max; lia). simpl. rewrite bool_decide_false by done. simpl.
  unfold ServerHostname_try_from. by rewrite Hv.
Qed.

(** ** The run: lemmas *)

(** What the withdrawal itself may end with. *)
Definition own_outcome (o : WithdrawalOutcome) : Prop := o ≠ Unconfirmed FastShutdown ∧ o ≠ Unconfirmed DrainDeadline.
Definition withdrawal_own (w : Withdrawing) : Prop := ∀ o, withdrawal_phase w = Ended o → own_outcome o.

Lemma next_step_own a r o : next_step a r = Finish o → own_outcome o.
Proof. intros Hs. destruct a as [|status| | | |]; simpl in Hs; repeat case_match; by simplify_eq. Qed.

Lemma withdrawal_own_step w e w' : withdrawal_own w → withdrawal_step w e = Some w' → withdrawal_own w'.
Proof.
  assert (∀ a r, withdrawal_own (after_attempt a r w)) as Ha.
  { intros a r o. unfold after_attempt. set (a' := if _ : bool then _ else _).
    destruct (next_step a' r) as [|[]] eqn:Hs; simpl; intros; simplify_eq; by eapply next_step_own. }
  intros Hw Hs. unfold withdrawal_step in Hs. destruct e; destruct (withdrawal_phase w) eqn:Hp; try done.
  - destruct (withdrawal_attempt x); simplify_eq/=. apply Ha.
  - destruct (is_closed (link w)); simplify_eq. apply Ha.
  - destruct (is_closed (link w)); simplify_eq. by intros o [= <-].
  - simplify_eq. by intros o [= <-].
  - repeat case_match; simplify_eq; intros o' Ho'; simpl in Ho'; congruence.
  - repeat case_match; simplify_eq; intros o' Ho'; simpl in Ho'; congruence.
  - repeat case_match; simplify_eq; intros o' Ho'; simpl in Ho'; apply Hw; congruence.
Qed.

(** How an outcome came about. *)
Definition outcome_of (r : Run) (w : Withdrawing) (o : WithdrawalOutcome) : Prop :=
  (o = Confirmed ↔ Withdrawal.withdrawal_confirmed w = true) ∧
  match o with
  | Unconfirmed FastShutdown => run_mode r = Some Fast
  | Unconfirmed DrainDeadline => ∃ t, deadline r = Some t ∧ t <= clock r
  | Unconfirmed _ | Failed _ => withdrawal_phase w = Ended o
  | Confirmed => True
  end.

(** The run has left its loop with the outcome. *)
Definition left_with (duration : Z) (r : Run) (o : option WithdrawalOutcome) : Prop :=
  is_closed (run_link r) = true ∧
  match o with
  | None => withdrawing r = None ∧ (run_mode r = Some Fast ∨ (run_mode r ≠ None ∧ duration = 0))
  | Some o => ∃ w, withdrawing r = Some w ∧ outcome_of r w o
  end.

Record run_inv (duration : Z) (r : Run) : Prop := {
  ri_withdrawal : ∀ w, withdrawing r = Some w →
    withdrawing_inv w ∧ withdrawal_own w ∧ run_mode r ≠ None ∧ duration ≠ 0;
  ri_deadline : run_mode r ≠ None → deadline r ≠ None;
  ri_place : match run_place r with
             | Looping => True
             | FlushingWith o | RunReturned (Ok o) => left_with duration r o
             | RunReturned (Err c) => withdrawing r = None ∧ connection_link r = c ∧ is_closed c = true
             end
}.

Lemma conclude_left duration w o r :
  withdrawing r = Some w → withdrawing_inv w →
  (match o with
   | Unconfirmed FastShutdown => run_mode r = Some Fast
   | Unconfirmed DrainDeadline => ∃ t, deadline r = Some t ∧ t <= clock r
   | _ => withdrawal_phase w = Ended o
   end) →
  left_with duration (conclude w o r) (Some (if Withdrawal.withdrawal_confirmed w then Confirmed else o)).
Proof.
  intros Hw Hi Ho. unfold left_with, conclude, close_run, run_link. rewrite Hw. simpl. split; [apply close_connection_closed|].
  eexists. split; [done|]. unfold outcome_of. simpl. destruct (Withdrawal.withdrawal_confirmed w) eqn:Hc; [done|].
  split.
  - split; [intros ->|done]. destruct Hi as [_ _ Hci _ _]. rewrite Hc in Hci. destruct Hci as [_ Hci]. by discriminate Hci; right.
  - by destruct o as [|[]|].
Qed.

Ltac run_cases E :=
  repeat match type of E with
         | context [match ?x with _ => _ end] =>
             lazymatch x with context [match _ with _ => _ end] => fail | _ => destruct x eqn:? end;
             cbv beta iota zeta in E; try discriminate E
         end; try (injection E as <-).

Lemma run_poll_inv duration stream r r' :
  run_inv duration r → run_place r = Looping → run_poll duration stream r = Steps r' → run_inv duration r'.
Proof.
  intros [Hw Hd _] Hl Ex. unfold run_poll in Ex. destruct (withdrawing r) as [w|] eqn:Hwr.
  - destruct (Hw w eq_refl) as (Hi & Ho & Hm & Hn).
    assert (∀ o, (match o with
        | Unconfirmed FastShutdown => run_mode r = Some Fast
        | Unconfirmed DrainDeadline => ∃ t, deadline r = Some t ∧ t <= clock r
        | _ => withdrawal_phase w = Ended o
        end) → run_inv duration (conclude w o r)) as Hc.
    { intros o Hoo. pose proof (conclude_left duration w o r Hwr Hi Hoo) as Hleft.
      unfold conclude, close_run in *. rewrite Hwr in *. constructor; simpl; [|done|exact Hleft].
      intros w' [= <-]. destruct Hi as [? ? ? ? ?]. split_and!; [constructor; simpl; try done; intros; apply close_connection_closed|done..]. }
    assert (∀ acc n, run_inv duration (mkRun (run_place r) acc (run_mode r) (deadline r) (clock r) (connection_link r)
      (withdrawing r) (credit_released r) n)) as Hacc by (intros; constructor; simpl; rewrite ?Hl, ?Hwr; done).
    run_cases Ex; try (rewrite Hwr in Hacc; apply Hacc); apply Hc; try done;
      try (eexists; split; [done|by apply Z.leb_le]).
    match goal with Hp : withdrawal_phase w = Ended _ |- _ => destruct (Ho _ Hp) end.
    by match goal with |- match ?o with _ => _ end => destruct o as [|[]|] end.
  - destruct (run_mode r) as [m|] eqn:Hm.
    + destruct (bool_decide (m = Graceful) && negb (duration =? 0)) eqn:Hb; injection Ex as <-.
      * apply andb_prop in Hb as [_ Hz]. apply negb_true_iff, Z.eqb_neq in Hz. constructor; simpl; rewrite ?Hl, ?Hm; try done.
        intros w [= <-]. split_and!; [apply withdrawal_start_inv|by intros o|done|done].
      * unfold close_run. rewrite Hwr. constructor; simpl; rewrite ?Hwr, ?Hm; try done.
        unfold left_with, run_link. simpl. rewrite Hwr, Hm. split; [apply close_connection_closed|]. split; [done|].
        destruct m; [right|by left]. split; [done|]. simpl in Hb. by apply negb_false_iff, Z.eqb_eq in Hb.
    + run_cases Ex; constructor; simpl; rewrite ?Hwr, ?Hm, ?Hl; try done.
Qed.

(** Once left, the clock, the deadline and the mode only move on. *)
Lemma left_with_later duration r r' o :
  run_link r' = run_link r → withdrawing r' = withdrawing r →
  (run_mode r = Some Fast → run_mode r' = Some Fast) → (run_mode r ≠ None → run_mode r' ≠ None) →
  (∀ t, deadline r = Some t → deadline r' = Some t) → clock r <= clock r' →
  left_with duration r o → left_with duration r' o.
Proof.
  intros Hl Hw Hf Hn Hd Hc [Hcl Ho]. split; [by rewrite Hl|]. destruct o as [o|]; rewrite Hw.
  - destruct Ho as (w & ? & ? & Ho). exists w. split; [done|]. split; [done|]. destruct o as [|[]|]; simpl in *; auto.
    destruct Ho as (t & ? & ?). exists t. split; [auto|lia].
  - destruct Ho as [? [?|[? ?]]]; split; auto.
Qed.

Lemma run_inv_step duration r a r' : run_inv duration r → run_exec duration r a = Steps r' → run_inv duration r'.
Proof.
  intros Hi Ex. destruct a as [stream|e| |c|m|t]; simpl in Ex.
  - destruct (run_place r) eqn:Hl; try done. by eapply run_poll_inv.
  - destruct Hi as [Hw Hd Hp]. destruct (run_place r) eqn:Hl; try done. destruct (withdrawing r) as [w|] eqn:Hwr; [|done].
    destruct (withdrawal_step w e) as [w'|] eqn:Hs; [|done]. injection Ex as <-. destruct (Hw w eq_refl) as (H1 & H2 & H3 & H4).
    constructor; simpl; rewrite ?Hl; try done. intros ? [= <-].
    split_and!; [by eapply withdrawal_step_inv|by eapply withdrawal_own_step|done..].
  - destruct Hi as [Hw Hd Hp]. destruct (run_place r) eqn:Hl; try done. injection Ex as <-. by constructor.
  - destruct Hi as [Hw Hd Hp]. destruct (withdrawing r) eqn:Hwr; [done|]. destruct (connection_link r) eqn:Hc; try done.
    destruct (is_closed c) eqn:Hcl; [|done]. injection Ex as <-. constructor; simpl; rewrite ?Hwr; try done.
    unfold left_with, run_link in *. simpl. destruct (run_place r) as [|o|[o|c']]; rewrite ?Hwr, ?Hc in *; try done.
    + by destruct Hp as [? _].
    + by destruct Hp as [? _].
    + destruct Hp as (_ & <- & ?). done.
  - injection Ex as <-. destruct Hi as [Hw Hd Hp].
    match goal with |- run_inv _ ?r' => assert (∀ o, left_with duration r o → left_with duration r' o) as Hlw end.
    { intros o. apply left_with_later; simpl; try done; [by intros ->; destruct m|by intros t ->]. }
    constructor; simpl; try done; [naive_solver|]. destruct (run_place r) as [|o|[o|c']]; auto.
  - destruct (Z.leb_spec (clock r) t); [|done]. injection Ex as <-. destruct Hi as [Hw Hd Hp].
    match goal with |- run_inv _ ?r' => assert (∀ o, left_with duration r o → left_with duration r' o) as Hlw end.
    { intros o. by apply left_with_later. }
    constructor; simpl; try done. destruct (run_place r) as [|o|[o|c']]; auto.
Qed.

Lemma run_inv_new duration t : run_inv duration (run_new t).
Proof. by constructor. Qed.

Definition run_reachable (duration : Z) (r : Run) : Prop :=
  ∃ t acts, run_actions (run_exec duration) (run_new t) acts = Some r.

Lemma run_reachable_inv duration r : run_reachable duration r → run_inv duration r.
Proof.
  intros (t & acts & Hr). eapply run_actions_invariant; [|apply run_inv_new|exact Hr]. intros ? ? ?. apply run_inv_step.
Qed.

(** The deadline of the shutdown has passed. *)
Definition overdue (r : Run) : bool := match deadline r with Some t => t <=? clock r | None => false end.

Lemma poll_concludes duration r w :
  run_place r = Looping → withdrawing r = Some w →
  (∃ o, withdrawal_phase w = Ended o) ∨ run_mode r = Some Fast ∨ overdue r = true →
  ∃ o, run_exec duration r (RunPolls None) = Steps (conclude w o r).
Proof.
  intros Hl Hw Hc. simpl. rewrite Hl. unfold run_poll. rewrite Hw. unfold overdue in Hc.
  destruct (withdrawal_phase w) as [| |o] eqn:Hp; [..|by eexists]; destruct (run_mode r) as [[]|];
    try (by eexists); destruct Hc as [[? ?]|[?| ->]]; try done; by eexists.
Qed.

Lemma concluding_returns duration r w :
  run_place r = Looping → withdrawing r = Some w →
  (∃ o, withdrawal_phase w = Ended o) ∨ run_mode r = Some Fast ∨ overdue r = true →
  ∃ r' res, run_actions (run_exec duration) r [RunPolls None; Flushed] = Some r' ∧ run_place r' = RunReturned res.
Proof.
  intros Hl Hw Hc. destruct (poll_concludes duration r w Hl Hw Hc) as [o E]. cbn [run_actions]. rewrite E.
  simpl. eexists _, _. split; [done|]. done.
Qed.

Lemma sees_closed w :
  is_closed (link w) = true → (∀ o, withdrawal_phase w ≠ Ended o) →
  ∃ w' o, withdrawal_step w SeesLinkClosed = Some w' ∧ withdrawal_phase w' = Ended o.
Proof.
  intros Hc Hn. simpl. destruct (withdrawal_phase w) as [r| |o]; [| |by destruct (Hn o)]; rewrite Hc; [|by eexists _, _].
  unfold after_attempt. rewrite bool_decide_false by done. simpl. by eexists _, _.
Qed.

Lemma withdrawing_returns duration r w :
  run_place r = Looping → withdrawing r = Some w →
  is_closed (link w) = true ∨ run_mode r = Some Fast ∨ overdue r = true →
  ∃ acts r' res, (length acts ≤ 3)%nat ∧ run_actions (run_exec duration) r acts = Some r' ∧ run_place r' = RunReturned res.
Proof.
  intros Hl Hw Hc.
  assert ((∃ o, withdrawal_phase w = Ended o) ∨ ∀ o, withdrawal_phase w ≠ Ended o) as [He|Hn]
    by (destruct (withdrawal_phase w) as [| |o]; [by right..|left; by eexists]).
  - destruct (concluding_returns duration r w Hl Hw) as (r' & res & Hr & Hp); [by left|].
    exists [RunPolls None; Flushed], r', res. split_and!; [simpl; lia|done..].
  - destruct Hc as [Hc|Hc].
    + destruct (sees_closed w Hc Hn) as (w' & o & Hs & Hp').
      destruct (concluding_returns duration (with_withdrawal w' r) w') as (r' & res & Hr & Hp); [done|done|left; by eexists|].
      exists [InWithdrawal SeesLinkClosed; RunPolls None; Flushed], r', res. split_and!; [simpl; lia| |done].
      change (run_actions ?f ?x (?a :: ?l)) with (match f x a with Steps s' => run_actions f s' l | _ => None end).
      cbn [run_exec]. rewrite Hl, Hw, Hs. exact Hr.
    + destruct (concluding_returns duration r w Hl Hw) as (r' & res & Hr & Hp); [by right|].
      exists [RunPolls None; Flushed], r', res. split_and!; [simpl; lia|done..].
Qed.

Lemma looping_returns duration r :
  run_place r = Looping →
  is_closed (run_link r) = true ∨ run_mode r = Some Fast ∨ (run_mode r ≠ None ∧ overdue r = true) →
  ∃ acts r' res, (length acts ≤ 4)%nat ∧ run_actions (run_exec duration) r acts = Some r' ∧ run_place r' = RunReturned res.
Proof.
  intros Hl Hc. unfold run_link in Hc. destruct (withdrawing r) as [w|] eqn:Hw.
  { destruct (withdrawing_returns duration r w Hl Hw) as (acts & r' & res & ? & ? & ?); [naive_solver|].
    exists acts, r', res. split_and!; [lia|done..]. }
  destruct (run_mode r) as [m|] eqn:Hm.
  - destruct (bool_decide (m = Graceful) && negb (duration =? 0)) eqn:Hb.
    + destruct (withdrawing_returns duration (with_withdrawal (withdrawal (connection_link r)) r) (withdrawal (connection_link r)))
        as (acts & r' & res & Hlen & Hr & Hp); [done|done|simpl; rewrite Hm; unfold overdue in *; naive_solver|].
      exists (RunPolls None :: acts), r', res. split_and!; [simpl; lia| |done].
      cbn [run_actions run_exec]. rewrite Hl. unfold run_poll. by rewrite Hw, Hm, Hb.
    + exists [RunPolls None; Flushed]. cbn [run_actions run_exec]. rewrite Hl. unfold run_poll. rewrite Hw, Hm, Hb.
      simpl. eexists _, _. split_and!; [simpl; lia|done|done].
  - destruct Hc as [Hc|[?|[? _]]]; [|done..]. exists [RunPolls None]. cbn [run_actions run_exec]. rewrite Hl. unfold run_poll.
    rewrite Hw, Hm, Hc. eexists _, _. split_and!; [simpl; lia|done|done].
Qed.

(** ** Claims *)

(** C19: A Tunnel connection of a Client ends as its shutdown went.  It returns with the
    connection closed.  Without a shutdown it returns the reason it was closed for; a fast
    shutdown, or a graceful one without a window, closes it without a withdrawal.  A
    withdrawal is reported as confirmed exactly when the Server's confirmation was received,
    also if the deadline or a fast shutdown cut the rest of it short; as overtaken only by a
    deadline that has passed or a shutdown that is fast; and as failed or lost only when its
    exchanges said so. *)
Theorem client_run_outcome duration r res :
  run_reachable duration r → run_place r = RunReturned res →
  is_closed (run_link r) = true ∧
  match res with
  | Err c => withdrawing r = None ∧ run_link r = c
  | Ok None => withdrawing r = None ∧ (run_mode r = Some Fast ∨ (run_mode r ≠ None ∧ duration = 0))
  | Ok (Some o) =>
      duration ≠ 0 ∧ run_mode r ≠ None ∧ ∃ w, withdrawing r = Some w ∧ replenishing w = false ∧ attempts w ≤ 2 ∧
        (o = Confirmed ↔ Withdrawal.withdrawal_confirmed w = true) ∧
        match o with
        | Confirmed => True
        | Unconfirmed FastShutdown => run_mode r = Some Fast
        | Unconfirmed DrainDeadline => overdue r = true
        | Unconfirmed _ | Failed _ => withdrawal_phase w = Ended o
        end
  end.
Proof.
  intros [Hw _ Hp]%run_reachable_inv Hr. rewrite Hr in Hp. destruct res as [[o|]|c].
  - destruct Hp as (Hc & w & Hwr & Hiff & Ho). destruct (Hw w Hwr) as ([Hrep _ _ _ [Hat _]] & _ & Hm & Hn).
    split; [done|]. split; [done|]. split; [done|]. exists w. split_and!; try done; [lia|].
    destruct o as [|[]|]; try done. destruct Ho as (t & Hd & Ht). unfold overdue. rewrite Hd. by apply Z.leb_le.
  - by destruct Hp as (Hc & Hwr & Ho).
  - destruct Hp as (Hwr & Hl & Hc). unfold run_link. rewrite Hwr, Hl. done.
Qed.

Definition confirmed_in_time : list RunAction :=
  [RunPolls (Some (Some tt)); RunStarted Graceful; RunPolls None;
   InWithdrawal (AttemptEnds (Responded Control.NO_CONTENT [] [DataEnd] (Ok false)));
   RunPolls (Some (Some tt)); RunStarted Fast; RunPolls None; Flushed].

(** The confirmation was received before the shutdown became fast. *)
Lemma client_run_outcome_witness :
  ∃ r w, run_reachable 30 r ∧ run_place r = RunReturned (Ok (Some Confirmed)) ∧ handlers r = 2%nat ∧
    run_mode r = Some Fast ∧ withdrawing r = Some w ∧ Withdrawal.withdrawal_confirmed w = true.
Proof.
  assert (∃ r, run_actions (run_exec 30) (run_new 0) confirmed_in_time = Some r ∧
    run_place r = RunReturned (Ok (Some Confirmed)) ∧ handlers r = 2%nat ∧ run_mode r = Some Fast)
    as (r & Hr & Hp & Hh & Hm) by (eexists; vm_compute; split_and!; reflexivity).
  assert (run_reachable 30 r) as Hre by (exists 0, confirmed_in_time; exact Hr).
  destruct (proj2 (client_run_outcome 30 r _ Hre Hp)) as (_ & _ & w & Hw & _ & _ & Hc & _).
  exists r, w. split_and!; try assumption. by apply Hc.
Defined.

(** A Tunnel connection always returns.  From any reachable state in which the connection
    is closed, the shutdown is fast or its deadline has passed, at most four steps of its own
    return.  Until one of these holds a graceful shutdown keeps accepting the Visitors the
    Server had placed, and does not close the connection. *)
Theorem client_run_ends duration r :
  run_reachable duration r → 
  (is_closed (run_link r) = true ∨ run_mode r = Some Fast ∨ (run_mode r ≠ None ∧ overdue r = true) →
   ∃ acts r' res, (length acts ≤ 4)%nat ∧ run_actions (run_exec duration) r acts = Some r' ∧ run_place r' = RunReturned res) ∧
  (∀ w, run_place r = Looping → withdrawing r = Some w → (∀ o, withdrawal_phase w ≠ Ended o) → accepting r = true →
   run_mode r = Some Graceful → overdue r = false →
   ∃ r', run_exec duration r (RunPolls (Some (Some tt))) = Steps r' ∧ handlers r' = S (handlers r) ∧
     run_place r' = Looping ∧ run_link r' = run_link r).
Proof.
  intros Hre. split.
  - destruct (run_place r) as [|o|res] eqn:Hp.
    + intros Hc. by apply looping_returns.
    + intros _. exists [Flushed]. simpl. rewrite Hp. eexists _, (Ok o). split_and!; [lia|done..].
    + intros _. exists [], r, res. split_and!; [simpl; lia|done..].
  - intros w Hl Hw Hn Ha Hm Ho. unfold overdue in Ho. simpl. rewrite Hl. unfold run_poll. rewrite Hw, Hm, Ho, Ha.
    destruct (withdrawal_phase w) as [| |o] eqn:E; [..|by destruct (Hn o)]; eexists; split_and!; try done;
      unfold run_link; simpl; by rewrite Hw.
Qed.

(** A graceful shutdown whose Server does not answer, at its deadline. *)
Definition unanswered : list RunAction := [RunStarted Graceful; RunPolls None; Passes 30].

Lemma client_run_ends_witness :
  ∃ r acts r' res, run_reachable 30 r ∧ run_place r = Looping ∧ overdue r = true ∧
    run_actions (run_exec 30) r acts = Some r' ∧ run_place r' = RunReturned res.
Proof.
  assert (∃ r, run_actions (run_exec 30) (run_new 0) unanswered = Some r ∧ run_place r = Looping ∧ overdue r = true ∧
    run_mode r = Some Graceful) as (r & Hr & Hp & Ho & Hm) by (eexists; vm_compute; split_and!; reflexivity).
  assert (run_reachable 30 r) as Hre by (exists 0, unanswered; exact Hr).
  destruct (proj1 (client_run_ends 30 r Hre)) as (acts & r' & res & _ & Hr' & Hp').
  - right; right. split; [rewrite Hm; congruence|exact Ho].
  - exists r, acts, r', res. split_and!; assumption.
Defined.

(** What an attempt reports is the history of its worker.  A primary attempt reports
    reconnecting exactly when an earlier one of this worker had connected, and is reported as
    initial exactly when none has begun since the last one that connected, or ever; candidates
    are always retries and count for neither, whatever becomes of them; the address reported
    reads back as the configured one. *)
Theorem attempt_reporting_exact {E : Type} `{QuicErrors E} acts s log i candidate address s' :
  run_actions (attempts_exec (E := E)) (attempts_new, []) acts = Some (s, log) →
  attempts_exec (E := E) (s, log) (Begin i candidate address) = Steps s' →
  ∃ context, snd s' = AttemptBegan candidate context :: log ∧
    (phase context = Reconnecting ↔ existsb connects log = true) ∧
    (attempt_kind context = InitialAttempt ↔ candidate = false ∧ begun_since log = 0) ∧
    (∀ value, ServerAddress_parse value = Ok address → ServerAddress_parse (context_addr context) = Ok address).
Proof.
  intros Hr Ex. assert (attempts_inv (s, log)) as [Hc He].
  { apply (run_actions_invariant (attempts_exec (E := E)) attempts_inv acts (attempts_new, [])); [|done|done].
    intros ? ? ?. apply attempts_inv_step. }
  simpl in Hc, He, Ex. rewrite <- Hc, <- He. destruct (in_flight s !! i); [done|]. unfold attempt_begin in Ex.
  destruct candidate; simpl in Ex; rewrite lookup_insert_eq in Ex; injection Ex as <-; eexists; (split; [done|]); simpl;
    unfold client_tunnel_phase, client_tunnel_attempt_kind; split_and!; try (by destruct (connected_once s)); try done.
  - naive_solver.
  - intros value Hv. destruct (ServerAddress_parse_sound _ _ Hv). rewrite display_canonical by done. by apply ServerAddress_parse_render.
  - destruct (Z.eqb_spec (establish_attempts s) 0); naive_solver.
  - intros value Hv. destruct (ServerAddress_parse_sound _ _ Hv). rewrite display_canonical by done. by apply ServerAddress_parse_render.
Qed.

(** Codes as [quinn] has them: 0 is no error, TLS alerts are from 256 on. *)
Module QuicToy.
Inductive error := TransportCode (c : Z) | ClosedCode (c : Z) | ApplicationCode (c : Z) | TimedOut.
#[export] Instance toy_errors : QuicErrors error := {
  transport_error e := match e with TransportCode c => Some c | _ => None end;
  connection_closed e := match e with ClosedCode c => Some c | _ => None end;
  application_closed e := match e with ApplicationCode c => Some c | _ => None end;
  crypto alert := 256 + Z.abs alert;
  NO_ERROR := 0
}.
#[export] Instance toy_errors_laws : QuicErrorsLaws error.
Proof. constructor; [intros []; simpl; auto|intros alert; simpl; lia]. Qed.
Definition address : ServerAddress := mkServerAddress (bs "edge.test") 443.
(** An attempt fails; one connects; the connection ends and a candidate fails. *)
Definition history : list (AttemptAction (E := error)) :=
  [Begin 0 false address; End 0 None (Ok tt); Begin 0 false address; End 0 (Some [bs "192.0.2.1"]) (Ok tt);
   Begin 1 true address; End 1 (Some [bs "192.0.2.1"]) (Err (StartupConnect (TunnelFailed WrongGeneration)))].
End QuicToy.
Import QuicToy.

Lemma attempt_reporting_exact_witness :
  ∃ s log s' context, run_actions (attempts_exec (E := QuicToy.error)) (attempts_new, []) QuicToy.history = Some (s, log) ∧
    attempts_exec (E := QuicToy.error) (s, log) (Begin 0 false QuicToy.address) = Steps s' ∧
    snd s' = AttemptBegan false context :: log ∧ phase context = Reconnecting ∧ attempt_kind context = InitialAttempt.
Proof.
  assert (∃ s log s', run_actions (attempts_exec (E := QuicToy.error)) (attempts_new, []) QuicToy.history = Some (s, log) ∧
    attempts_exec (E := QuicToy.error) (s, log) (Begin 0 false QuicToy.address) = Steps s' ∧
    existsb connects log = true ∧ begun_since log = 0) as (s & log & s' & Hr & Ex & Hc & Hb).
  { eexists _, _, _. split; [vm_compute; reflexivity|]. split; [vm_compute; reflexivity|]. split; vm_compute; reflexivity. }
  destruct (attempt_reporting_exact QuicToy.history s log 0 false QuicToy.address s' Hr Ex) as (context & Hl & Hp & Hk & _).
  exists s, log, s', context. split_and!; try assumption; [by apply Hp|by apply Hk].
Defined.

(** The end of a connection is classified by its code alone.  It is an authorization
    failure exactly when the peer ended the handshake with the access-denied alert, clean
    exactly when the peer closed it without an error, and a transport failure otherwise; an
    end is never two of these. *)
Theorem connection_end_exact {E : Type} `{QuicErrorsLaws E} (error : E) context :
  (classify_connection_end error context = UnauthorizedEnd context ↔
     transport_error error = Some (crypto TLS_ACCESS_DENIED_ALERT) ∨ connection_closed error = Some (crypto TLS_ACCESS_DENIED_ALERT)) ∧
  (classify_connection_end error context = CleanEnd context ↔
     application_closed error = Some 256 ∨ connection_closed error = Some NO_ERROR) ∧
  (classify_connection_end error context = TransportEnd context ↔
     is_tls_access_denied error = false ∧ is_clean_client_tunnel_close error = false).
Proof.
  pose proof (alert_is_error TLS_ACCESS_DENIED_ALERT) as Ha. pose proof (one_variant error) as Hv.
  unfold classify_connection_end, is_tls_access_denied, is_clean_client_tunnel_close.
  destruct (application_closed error) as [a|], (connection_closed error) as [c|], (transport_error error) as [t|];
    try (exfalso; clear -Hv; naive_solver); rewrite ?bool_decide_false by congruence; simpl;
    repeat case_bool_decide; simpl; simplify_eq;
    try destruct (Z.eqb_spec a 256); try destruct (Z.eqb_spec c NO_ERROR); subst; split_and!;
    (split; [intros; simplify_eq|intros]); try done; try (by left); try (by right); naive_solver.
Qed.

Lemma connection_end_exact_witness :
  classify_connection_end (ApplicationCode 256) (mkConnectionContext (bs "edge.test:443") (bs "192.0.2.1")) =
    CleanEnd (mkConnectionContext (bs "edge.test:443") (bs "192.0.2.1")).
Proof. apply (connection_end_exact (ApplicationCode 256)). left. reflexivity. Defined.
