(* ===== verification/Supervision.v ===== *)
(** * Supervision: a role's runtime beside its Managed session

    [coordinate_managed_server] with [run_managed] ([src/server_runtime.rs]) over the loop of
    [ServerLoop], and [run_client], [coordinate_managed_client], [begin_shutdown] and
    [finish_with_escalation] ([src/client_runtime.rs]) over an address controller.

    A Managed session runs until the future it is given for its shutdown completes, whatever
    happens on its connections ([ManagedSession::run]); what it does meanwhile is [Session]'s. *)

From Stdlib Require Import ZArith Lia.
From stdpp Require Import base numbers list.
From S2P Require Import Prelude Shutdown ServerLoop.

Open Scope Z_scope.

(** ** The Managed Server *)

Inductive SupervisorFailure := ServerFailed (e : Failure) | SessionStopped.

(** In the [select!]; after a completed drain; the session ended first ([unexpected]: not for a
    fast shutdown); the session told to stop; returned. *)
Inductive SupervisorPlace :=
| Selecting
| DrainedWith (r : result SupervisorFailure unit)
| AwaitingServer (unexpected : bool)
| StoppingSession (r : result SupervisorFailure unit)
| SupervisorReturned (r : result SupervisorFailure unit).

(** The process's shutdown is the [process_mode] of the Server's runtime. *)
Record Supervisor := mkSupervisor {
  place : SupervisorPlace;
  runtime : Runtime;
  session_running : bool;
  stop_sent : bool
}.

Definition supervisor_new (probe : bool) (now last_id : Z) : Supervisor :=
  mkSupervisor Selecting (runtime_new probe now last_id) true false.

Definition at_place (p : SupervisorPlace) (s : Supervisor) : Supervisor :=
  mkSupervisor p (runtime s) (session_running s) (stop_sent s).
Definition with_runtime (r : Runtime) (s : Supervisor) : Supervisor :=
  mkSupervisor (place s) r (session_running s) (stop_sent s).

(** The shutdown of the session that [run_managed] passes: told to stop, or fast. *)
Definition session_may_end (s : Supervisor) : bool :=
  stop_sent s || bool_decide (process_mode (runtime s) = Some Fast).

Definition stop_session (r : result SupervisorFailure unit) (s : Supervisor) : Supervisor :=
  mkSupervisor (StoppingSession r) (runtime s) (session_running s) true.

(** The Server's future has completed. *)
Definition server_done (r : result Failure unit) (s : Supervisor) : next Supervisor :=
  let r' := map_err ServerFailed r in
  match place s with
  | Selecting =>
      match r, process_mode (runtime s) with
      | Ok _, None => Steps (at_place (DrainedWith r') s)
      | _, _ => Steps (stop_session r' s)
      end
  | AwaitingServer unexpected => Steps (at_place (SupervisorReturned (if unexpected then Err SessionStopped else r')) s)
  | _ => Disabled
  end.

(** The session's future has completed. *)
Definition session_done (s : Supervisor) : next Supervisor :=
  let ended p := mkSupervisor p (runtime s) false (stop_sent s) in
  match place s with
  | Selecting =>
      match process_mode (runtime s) with
      | Some Fast => Steps (ended (AwaitingServer false))
      | _ => Steps (mkSupervisor (AwaitingServer true)
                      (mkRuntime (Some Fast) (drained (runtime s)) (follow (runtime s)) (loop (runtime s))) false (stop_sent s))
      end
  | DrainedWith _ => Steps (ended (SupervisorReturned (Err SessionStopped)))
  | StoppingSession r => Steps (ended (SupervisorReturned r))
  | _ => Disabled
  end.

Inductive SupervisorAction :=
| InServer (a : RuntimeAction)
| ServerDone
| SessionDone
| ProcessSeen.

(** The Server's future is polled only where it is awaited; signals and drains come at any time. *)
Definition polls_server (s : Supervisor) (a : RuntimeAction) : bool :=
  match a, place s with
  | (ProcessStarted _ | DrainRequested), _ => true
  | _, (Selecting | AwaitingServer _) => true
  | _, _ => false
  end.

Definition supervisor_exec (duration : Durations) (s : Supervisor) (a : SupervisorAction) : next Supervisor :=
  match a with
  | InServer a =>
      if polls_server s a then
        match runtime_exec duration (runtime s) a with
        | Steps r => Steps (with_runtime r s)
        | Disabled => Disabled
        | Panics => Panics
        end
      else Disabled
  | ServerDone => match phase (loop (runtime s)) with Returned r => server_done r s | _ => Disabled end
  | SessionDone => if session_running s && session_may_end s then session_done s else Disabled
  | ProcessSeen =>
      match place s, process_mode (runtime s) with
      | DrainedWith r, Some _ => Steps (stop_session r s)
      | _, _ => Disabled
      end
  end.

(** ** The Client *)

(** The error of a signal listener, or of the controller. *)
Inductive ClientFailure := SignalFailed | ControllerFailed (e : list Ascii.ascii) | ClientSessionStopped.

(** In the [select!]; the controller ended first and the session is stopped; a signal came and
    the controller is awaited, with the escalation pending or not; awaiting the controller
    after an unexpected end of the session; stopping the ACME managers; returned. *)
Inductive ClientPlace :=
| ClientSelecting
| ClientStoppingSession (r : result ClientFailure unit)
| Finishing (signal_ok escalation : bool)
| AwaitingController
| StoppingAcme (r : result ClientFailure unit)
| ClientReturned (r : result ClientFailure unit).

(** [managed]: with a session.  [client_mode] is the controller's shutdown. *)
Record ClientSupervisor := mkClientSupervisor {
  managed : bool;
  client_place : ClientPlace;
  client_mode : option ShutdownMode;
  controller_running : bool;
  client_session_running : bool;
  client_stop_sent : bool;
  acme_running : bool;
  escalated : bool
}.

Definition client_supervisor_new (managed : bool) : ClientSupervisor :=
  mkClientSupervisor managed ClientSelecting None true managed false true false.

Definition at_client (p : ClientPlace) (c : ClientSupervisor) : ClientSupervisor :=
  mkClientSupervisor (managed c) p (client_mode c) (controller_running c) (client_session_running c)
    (client_stop_sent c) (acme_running c) (escalated c).

(** [AddressControllerShutdown::begin] *)
Definition begin_mode (m : ShutdownMode) (c : ClientSupervisor) : ClientSupervisor :=
  mkClientSupervisor (managed c) (client_place c)
    (Some (match m with Fast => Fast | Graceful => default Graceful (client_mode c) end))
    (controller_running c) (client_session_running c) (client_stop_sent c) (acme_running c) (escalated c).

(** [begin_shutdown]: a failed signal listener forces fast. *)
Definition begin_shutdown (signal : option ShutdownMode) (c : ClientSupervisor) : ClientSupervisor :=
  begin_mode (default Fast signal) c.

(** [SessionEnds]: the session's shutdown completed because it was told to stop. *)
Inductive ClientAction :=
| Signal (signal : option ShutdownMode)
| Escalation
| ControllerDone (r : result (list Ascii.ascii) unit)
| SessionEnds
| AcmeStopped.

Definition without_controller (p : ClientPlace) (c : ClientSupervisor) : ClientSupervisor :=
  mkClientSupervisor (managed c) p (client_mode c) false (client_session_running c) (client_stop_sent c) (acme_running c)
    (escalated c).

Definition controller_done (r : result (list Ascii.ascii) unit) (c : ClientSupervisor) : next ClientSupervisor :=
  let r' := map_err ControllerFailed r in
  match client_place c with
  | ClientSelecting =>
      if managed c
      then Steps (mkClientSupervisor (managed c) (ClientStoppingSession r') (client_mode c) false (client_session_running c)
                    true (acme_running c) (escalated c))
      else Steps (without_controller (StoppingAcme r') c)
  | Finishing signal_ok _ => Steps (without_controller (StoppingAcme (if signal_ok then r' else Err SignalFailed)) c)
  | AwaitingController => Steps (without_controller (StoppingAcme (Err ClientSessionStopped)) c)
  | _ => Disabled
  end.

Definition client_supervisor_exec (c : ClientSupervisor) (a : ClientAction) : next ClientSupervisor :=
  match a with
  | Signal signal =>
      match client_place c with
      | ClientSelecting =>
          let c := mkClientSupervisor (managed c) (Finishing (bool_decide (signal ≠ None)) true) (client_mode c)
                     (controller_running c) false (client_stop_sent c) (acme_running c) (escalated c) in
          Steps (begin_shutdown signal c)
      | ClientStoppingSession r =>
          Steps (mkClientSupervisor (managed c) (StoppingAcme r) (client_mode c) (controller_running c) false
                   (client_stop_sent c) (acme_running c) (escalated c))
      | _ => Disabled
      end
  | Escalation =>
      match client_place c with
      | Finishing signal_ok true =>
          let first := bool_decide (client_mode c = Some Graceful) in
          let c := begin_mode Fast (at_client (Finishing signal_ok false) c) in
          Steps (mkClientSupervisor (managed c) (client_place c) (client_mode c) (controller_running c)
                   (client_session_running c) (client_stop_sent c) (acme_running c) first)
      | _ => Disabled
      end
  | ControllerDone r => if controller_running c then controller_done r c else Disabled
  | SessionEnds =>
      if client_session_running c && client_stop_sent c then
        let ended p m := mkClientSupervisor (managed c) p m (controller_running c) false (client_stop_sent c) (acme_running c)
                           (escalated c) in
        match client_place c with
        | ClientSelecting => Steps (ended AwaitingController (Some (default Fast (client_mode c))))
        | ClientStoppingSession r => Steps (ended (StoppingAcme r) (client_mode c))
        | _ => Disabled
        end
      else Disabled
  | AcmeStopped =>
      match client_place c with
      | StoppingAcme r => Steps (mkClientSupervisor (managed c) (ClientReturned r) (client_mode c) (controller_running c)
                                   (client_session_running c) (client_stop_sent c) false (escalated c))
      | _ => Disabled
      end
  end.

(** ** The Managed Server: lemmas *)

(** The session runs and was not told to stop, or was; the Server has returned or not. *)
Definition place_inv (s : Supervisor) : Prop :=
  match place s with
  | Selecting => session_running s = true ∧ stop_sent s = false
  | DrainedWith r => session_running s = true ∧ stop_sent s = false ∧ r = Ok tt ∧ phase (loop (runtime s)) = Returned (Ok tt)
  | AwaitingServer unexpected => session_running s = false ∧ unexpected = false ∧ process_mode (runtime s) = Some Fast
  | StoppingSession r =>
      session_running s = true ∧ stop_sent s = true ∧ (r = Ok tt → process_mode (runtime s) ≠ None) ∧
      ∃ r0, phase (loop (runtime s)) = Returned r0 ∧ r = map_err ServerFailed r0
  | SupervisorReturned r =>
      session_running s = false ∧ (r = Ok tt → process_mode (runtime s) ≠ None) ∧
      ∃ r0, phase (loop (runtime s)) = Returned r0 ∧
        (r = map_err ServerFailed r0 ∨ r = Err SessionStopped ∧ r0 = Ok tt ∧ process_mode (runtime s) = Some Fast)
  end.

Definition supervisor_inv (s : Supervisor) : Prop := runtime_inv (runtime s) ∧ place_inv s.

(** A signal or a drain changes neither the loop nor a mode that is fast. *)
Lemma signal_step duration r a r' :
  runtime_exec duration r a = Steps r' → a = DrainRequested ∨ (∃ m, a = ProcessStarted m) →
  loop r' = loop r ∧ (process_mode r = Some Fast → process_mode r' = Some Fast) ∧
  (process_mode r ≠ None → process_mode r' ≠ None).
Proof. intros E [->|[m ->]]; simpl in E; injection E as <-; simpl; split_and!; try done. intros ->. by destruct m. Qed.

Lemma runtime_keeps_fast duration r a r' :
  runtime_exec duration r a = Steps r' → process_mode r = Some Fast → process_mode r' = Some Fast.
Proof.
  intros E Hm. destruct a as [m| |drain| |a]; cbn [runtime_exec] in E.
  - injection E as <-. simpl. rewrite Hm. by destruct m.
  - by injection E as <-.
  - destruct (follow r); try done. unfold followed_step in E.
    destruct drain; [destruct (drained r); [|done]|rewrite Hm in E]; by injection E as <-.
  - destruct (follow r); try done. rewrite Hm in E. by injection E as <-.
  - destruct (exec duration (loop r) a); destruct a; try done; by injection E as <-.
Qed.

Lemma in_server_inv duration s a r :
  supervisor_inv s → polls_server s a = true → runtime_exec duration (runtime s) a = Steps r → supervisor_inv (with_runtime r s).
Proof.
  intros [Hr Hp] Hpoll E. split; [by eapply runtime_inv_step|].
  assert (match place s with Selecting | AwaitingServer _ => True | _ => a = DrainRequested ∨ ∃ m, a = ProcessStarted m end) as Hsig
    by (unfold polls_server in Hpoll; destruct a, (place s); eauto; done).
  unfold place_inv in *. simpl. destruct (place s) as [|q|u|q|q].
  - done.
  - destruct (signal_step _ _ _ _ E Hsig) as (-> & _ & _). done.
  - destruct Hp as (? & ? & ?). split_and!; try done. by eapply runtime_keeps_fast.
  - destruct (signal_step _ _ _ _ E Hsig) as (-> & _ & ?). destruct Hp as (? & ? & ? & ?). split_and!; auto.
  - destruct (signal_step _ _ _ _ E Hsig) as (-> & ? & ?). destruct Hp as (? & ? & r0 & ? & Hres).
    split_and!; auto. exists r0. split; [done|]. destruct Hres as [?|(? & ? & ?)]; auto.
Qed.

Lemma supervisor_inv_step duration s a s' : supervisor_inv s → supervisor_exec duration s a = Steps s' → supervisor_inv s'.
Proof.
  intros Hi E. destruct a as [a| | |]; simpl in E.
  - destruct (polls_server s a) eqn:Hpoll; [|done]. destruct (runtime_exec duration (runtime s) a) as [r| |] eqn:Er; try done.
    injection E as <-. by eapply in_server_inv.
  - destruct Hi as [Hr Hp]. unfold place_inv in Hp. destruct (phase (loop (runtime s))) as [| | | | | | | | |r] eqn:Hph; try done.
    unfold server_done in E. destruct (place s) as [|q|u|q|q] eqn:Hpl; try done.
    + destruct Hp as [? ?]. destruct r as [[]|e], (process_mode (runtime s)) eqn:Hm; injection E as <-; split; try done;
        unfold place_inv; simpl; rewrite ?Hm; eauto 10.
    + destruct Hp as (? & -> & Hm). injection E as <-. split; [done|]. unfold place_inv. simpl. rewrite Hm. eauto 10.
  - destruct (session_running s && session_may_end s) eqn:Hb; [|done]. apply andb_prop in Hb as [Hrun Hmay].
    destruct Hi as [Hr Hp]. unfold place_inv in Hp. unfold session_done in E. unfold session_may_end in Hmay.
    destruct (place s) as [|q|u|q|q] eqn:Hpl; try done.
    + destruct Hp as [_ Hstop]. rewrite Hstop in Hmay. apply bool_decide_eq_true in Hmay. rewrite Hmay in E. injection E as <-.
      split; [done|]. done.
    + destruct Hp as (_ & Hstop & -> & Hph). rewrite Hstop in Hmay. apply bool_decide_eq_true in Hmay. injection E as <-.
      split; [done|]. unfold place_inv. simpl. eauto 10.
    + injection E as <-. split; [done|]. unfold place_inv. simpl. naive_solver.
  - destruct Hi as [Hr Hp]. unfold place_inv in Hp. destruct (place s) as [|q|u|q|q] eqn:Hpl; try done.
    destruct (process_mode (runtime s)) eqn:Hm; [|done]. injection E as <-. split; [done|]. unfold place_inv. simpl. rewrite Hm.
    destruct Hp as (? & ? & -> & ?). eauto 10.
Qed.

Definition supervisor_reachable (duration : Durations) (s : Supervisor) : Prop :=
  ∃ probe now last_id acts, run_actions (supervisor_exec duration) (supervisor_new probe now last_id) acts = Some s.

Lemma supervisor_reachable_inv duration s : supervisor_reachable duration s → supervisor_inv s.
Proof.
  intros (probe & now & last_id & acts & Hr).
  apply (run_actions_invariant (supervisor_exec duration) supervisor_inv acts (supervisor_new probe now last_id) s); [| |done].
  - intros ? ? ?. apply supervisor_inv_step.
  - split; [apply runtime_inv_new|done].
Qed.

(** How far the supervisor has come, and its own steps. *)
Definition place_rank (p : SupervisorPlace) : nat :=
  match p with Selecting => 0 | DrainedWith _ | AwaitingServer _ => 1 | StoppingSession _ => 2 | SupervisorReturned _ => 3 end.
Definition supervisor_rank (s : Supervisor) : nat := (place_rank (place s) + runtime_rank (runtime s))%nat.
Definition supervising (a : SupervisorAction) : bool := match a with InServer a => advancing a | _ => true end.
Definition supervisor_returned (s : Supervisor) : bool :=
  match place s with SupervisorReturned _ => true | _ => false end.

Lemma supervisor_rank_bound s : (supervisor_rank s ≤ 14)%nat.
Proof.
  unfold supervisor_rank, runtime_rank. pose proof (rank_bound (phase (loop (runtime s)))).
  assert (follow_rank (follow (runtime s)) ≤ 2)%nat by (destruct (follow (runtime s)); simpl; lia).
  assert (place_rank (place s) ≤ 3)%nat by (destruct (place s); simpl; lia). lia.
Qed.

Lemma supervisor_step_rank duration s a s' :
  supervisor_exec duration s a = Steps s' →
  ((if supervising a then 1 else 0) + supervisor_rank s ≤ supervisor_rank s')%nat.
Proof.
  intros E. unfold supervisor_rank. destruct a as [a| | |]; cbn [supervisor_exec supervising] in *.
  - destruct (polls_server s a); [|done]. destruct (runtime_exec duration (runtime s) a) as [r| |] eqn:Er; try done.
    injection E as <-. pose proof (runtime_step_rank _ _ _ _ Er). simpl. lia.
  - destruct (phase (loop (runtime s))) as [| | | | | | | | |r]; try done. unfold server_done in E.
    destruct (place s); try done; [destruct r, (process_mode (runtime s))|]; injection E as <-; simpl; lia.
  - destruct (session_running s && session_may_end s); [|done]. unfold session_done in E.
    destruct (place s); try done; [destruct (process_mode (runtime s)) as [[]|]|..]; injection E as <-;
      unfold runtime_rank; simpl; lia.
  - destruct (place s); try done. destruct (process_mode (runtime s)); [|done]. injection E as <-. simpl. lia.
Qed.

Lemma supervisor_run_rank duration acts s s' :
  run_actions (supervisor_exec duration) s acts = Some s' →
  (length (List.filter supervising acts) + supervisor_rank s ≤ supervisor_rank s')%nat.
Proof.
  revert s. induction acts as [|a acts IH]; intros s Hr; [injection Hr as <-; simpl; lia|].
  cbn [run_actions] in Hr. destruct (supervisor_exec duration s a) as [s1| |] eqn:E; try done.
  pose proof (supervisor_step_rank _ _ _ _ E). specialize (IH s1 Hr). cbn [List.filter].
  destruct (supervising a); simpl in *; lia.
Qed.

Lemma supervisor_no_panic duration s a : supervisor_inv s → supervisor_exec duration s a ≠ Panics.
Proof.
  intros [Hr _]. destruct a as [a| | |]; intros E; simpl in E.
  - destruct (polls_server s a); [|done]. destruct (runtime_exec duration (runtime s) a) eqn:Er; try done.
    by eapply runtime_no_panic in Er.
  - unfold server_done in E. repeat case_match; done.
  - unfold session_done in E. repeat case_match; done.
  - repeat case_match; done.
Qed.

(** Once the process shuts down, the supervisor has an own step unless the Server waits. *)
Lemma supervisor_enabled duration s :
  supervisor_inv s → process_mode (runtime s) ≠ None → supervisor_returned s = false →
  (∃ a s', supervising a = true ∧ supervisor_exec duration s a = Steps s') ∨
  (may_wait (loop (runtime s)) ∧ (process_mode (runtime s) = Some Fast → phase (loop (runtime s)) = Flushing)).
Proof.
  intros [Hr Hp] Hm Hret. unfold place_inv in Hp. unfold supervisor_returned in Hret.
  assert (place s = Selecting ∨ (∃ u, place s = AwaitingServer u) →
    (∃ a s', supervising a = true ∧ supervisor_exec duration s a = Steps s') ∨
    (may_wait (loop (runtime s)) ∧ (process_mode (runtime s) = Some Fast → phase (loop (runtime s)) = Flushing))) as Hrun.
  { intros Hpl. destruct (returned (loop (runtime s))) eqn:Hdone.
    - left. exists ServerDone. unfold returned in Hdone. cbn [supervisor_exec]. unfold server_done.
      destruct (phase (loop (runtime s))) as [| | | | | | | | |r]; try done.
      destruct Hpl as [->|[u ->]]; [destruct r, (process_mode (runtime s))|]; eauto.
    - destruct (runtime_enabled duration (runtime s) Hr ltac:(by left) Hdone) as [(a & r & Ha & E)|?]; [left|by right].
      exists (InServer a), (with_runtime r s). split; [done|]. cbn [supervisor_exec].
      assert (polls_server s a = true) as -> by (unfold polls_server; destruct Hpl as [->|[u ->]]; by destruct a).
      by rewrite E. }
  destruct (place s) as [|q|u|q|q] eqn:Hpl; [auto| |eauto| |done]; left.
  - exists ProcessSeen. cbn [supervisor_exec]. rewrite Hpl. destruct (process_mode (runtime s)); [eauto|done].
  - destruct Hp as (Hrn & Hst & _). exists SessionDone. cbn [supervisor_exec]. unfold session_may_end, session_done.
    rewrite Hpl, Hrn, Hst. simpl. eauto.
Qed.

Lemma process_mode_kept duration s a s' :
  supervisor_exec duration s a = Steps s' → process_mode (runtime s) ≠ None → process_mode (runtime s') ≠ None.
Proof.
  intros E Hm. destruct a as [a| | |]; cbn [supervisor_exec] in E.
  - destruct (polls_server s a); [|done]. destruct (runtime_exec duration (runtime s) a) as [r| |] eqn:Er; try done.
    injection E as <-. simpl. destruct a as [m| |drain| |a]; cbn [runtime_exec] in Er.
    + by injection Er as <-.
    + by injection Er as <-.
    + destruct (follow (runtime s)); try done. unfold followed_step in Er. loop_cases Er; done.
    + loop_cases Er; done.
    + destruct (exec duration (loop (runtime s)) a); destruct a; try done; by injection Er as <-.
  - unfold server_done in E. loop_cases E; simpl in *; congruence.
  - unfold session_done in E. loop_cases E; simpl in *; congruence.
  - loop_cases E; simpl in *; congruence.
Qed.

(** ** The Client: lemmas *)

Definition client_inv (c : ClientSupervisor) : Prop :=
  match client_place c with
  | ClientSelecting => controller_running c = true ∧ client_session_running c = managed c ∧ client_stop_sent c = false ∧ acme_running c = true
  | ClientStoppingSession r =>
      controller_running c = false ∧ client_session_running c = true ∧ client_stop_sent c = true ∧ acme_running c = true ∧
      r ≠ Err ClientSessionStopped
  | Finishing _ _ => controller_running c = true ∧ client_session_running c = false ∧ client_mode c ≠ None ∧ acme_running c = true
  | AwaitingController => False
  | StoppingAcme r => controller_running c = false ∧ client_session_running c = false ∧ acme_running c = true ∧ r ≠ Err ClientSessionStopped
  | ClientReturned r => controller_running c = false ∧ client_session_running c = false ∧ acme_running c = false ∧ r ≠ Err ClientSessionStopped
  end ∧ (escalated c = true → client_mode c = Some Fast).

Lemma client_inv_step c a c' : client_inv c → client_supervisor_exec c a = Steps c' → client_inv c'.
Proof.
  intros [Hp He] E. unfold client_inv. destruct a as [signal| |r| |]; cbn [client_supervisor_exec] in E.
  - destruct (client_place c) eqn:Hpl; try done; injection E as <-; simpl; destruct Hp as (? & ? & ? & ?).
    + split_and!; try done. intros Hesc. rewrite (He Hesc). by destruct signal as [[]|].
    + split_and!; try done; naive_solver.
  - destruct (client_place c) as [| |ok []| | |] eqn:Hpl; try done. injection E as <-. simpl. naive_solver.
  - destruct (controller_running c) eqn:Hc; [|done]. unfold controller_done in E.
    destruct (client_place c) as [|q|ok esc| |q|q] eqn:Hpl; try done; [destruct (managed c) eqn:Hm|];
      injection E as <-; simpl; rewrite ?Hm in *; destruct Hp as (? & ? & ? & ?); split_and!; try done.
    + by destruct r.
    + by destruct r.
    + by destruct ok, r.
  - destruct (client_session_running c && client_stop_sent c) eqn:Hb; [|done]. apply andb_prop in Hb as [Hs Hst].
    destruct (client_place c) eqn:Hpl; try done; destruct Hp as (? & ? & ? & ?); [congruence|].
    injection E as <-. simpl. naive_solver.
  - destruct (client_place c) eqn:Hpl; try done. injection E as <-. simpl. naive_solver.
Qed.

Definition client_reachable (c : ClientSupervisor) : Prop :=
  ∃ managed acts, run_actions client_supervisor_exec (client_supervisor_new managed) acts = Some c.

Lemma client_reachable_inv c : client_reachable c → client_inv c.
Proof.
  intros (managed & acts & Hr). apply (run_actions_invariant client_supervisor_exec client_inv acts (client_supervisor_new managed) c); [| |done].
  - intros ? ? ?. apply client_inv_step.
  - by split.
Qed.

(** ** Claims *)

(** C15: A Managed Server and its session end together.  Nothing panics; the runtime returns
    only when the Server's loop has returned and the session has ended, with the Server's own
    result except in one case: the Server had drained and returned without an error, and a fast
    shutdown then ended the session first.  A Server that returned without an error is kept
    until the process's shutdown.  In every run the runtime takes at most fourteen steps of its
    own, accepts apart, and once the process shuts down it always has one until it has returned,
    unless its loop waits as a graceful end does; after a fast shutdown, only for the flush. *)
Theorem managed_server_supervised duration s :
  supervisor_reachable duration s →
  (∀ a, supervisor_exec duration s a ≠ Panics) ∧
  (∀ r, place s = SupervisorReturned r → session_running s = false ∧
     ∃ r0, phase (loop (runtime s)) = Returned r0 ∧
       (r = map_err ServerFailed r0 ∨ r = Err SessionStopped ∧ r0 = Ok tt ∧ process_mode (runtime s) = Some Fast)) ∧
  (place s = SupervisorReturned (Ok tt) → process_mode (runtime s) ≠ None) ∧
  (∀ acts s', run_actions (supervisor_exec duration) s acts = Some s' →
     (length (List.filter supervising acts) ≤ 14)%nat ∧
     (process_mode (runtime s) ≠ None → process_mode (runtime s') ≠ None ∧
        (supervisor_returned s' = false →
           (∃ a s'', supervising a = true ∧ supervisor_exec duration s' a = Steps s'') ∨
           (may_wait (loop (runtime s')) ∧
            (process_mode (runtime s') = Some Fast → phase (loop (runtime s')) = Flushing))))).
Proof.
  intros Hre. pose proof (supervisor_reachable_inv _ _ Hre) as Hi. pose proof Hi as [Hr Hp]. unfold place_inv in Hp. split_and!.
  - intros a. by apply supervisor_no_panic.
  - intros r Hpl. rewrite Hpl in Hp. by destruct Hp as (? & _ & ?).
  - intros Hpl. rewrite Hpl in Hp. destruct Hp as (_ & Hn & _). by apply Hn.
  - intros acts s' Hrun. split.
    { pose proof (supervisor_run_rank _ _ _ _ Hrun). pose proof (supervisor_rank_bound s'). lia. }
    intros Hm. assert (process_mode (runtime s') ≠ None) as Hm'.
    { apply (run_actions_invariant (supervisor_exec duration) (λ s, process_mode (runtime s) ≠ None) acts s s'); [|done|done].
      intros ? ? ? ? E. by eapply process_mode_kept. }
    split; [done|]. apply supervisor_enabled; [|done].
    apply (run_actions_invariant (supervisor_exec duration) supervisor_inv acts s s'); [|done|done].
    intros ? ? ?. apply supervisor_inv_step.
Qed.

(** A Managed drain, with nothing to wait for. *)
Definition completed_drain : list SupervisorAction :=
  (InServer <$> [DrainRequested; FollowStart true; InLoop (Poll None None); InLoop Next; InLoop Next; InLoop Next; InLoop Next;
                 InLoop Quiesced; InLoop Next; InLoop Next; InLoop Next; InLoop (Elapse 1); InLoop Next]) ++ [ServerDone].

Lemma managed_server_supervised_witness :
  ∃ s, supervisor_reachable patient s ∧ place s = SupervisorReturned (Ok tt) ∧ process_mode (runtime s) = Some Graceful ∧ session_running s = false.
Proof.
  assert (∃ s, run_actions (supervisor_exec patient) (supervisor_new true 0 0)
    (completed_drain ++ [InServer (ProcessStarted Graceful); ProcessSeen; SessionDone]) = Some s ∧
    place s = SupervisorReturned (Ok tt) ∧ process_mode (runtime s) = Some Graceful) as (s & Hr & Hp & Hm)
    by (eexists; vm_compute; split_and!; reflexivity).
  assert (supervisor_reachable patient s) as Hre by (eexists true, 0, 0, _; exact Hr).
  exists s. split; [exact Hre|]. split; [exact Hp|]. split; [exact Hm|].
  exact (proj1 (proj1 (proj2 (managed_server_supervised patient s Hre)) _ Hp)).
Defined.

(** A fast shutdown of a drained Managed Server may be reported as a failure.  After the
    drain has completed and the Server has returned without an error, a fast shutdown of the
    process completes both the wait for it and the session: if the session's completion is
    taken, the runtime returns that the session stopped unexpectedly; if the wait's, success. *)
Theorem drained_fast_shutdown_fails :
  ∃ s lost kept, run_actions (supervisor_exec patient) (supervisor_new true 0 0) (completed_drain ++ [InServer (ProcessStarted Fast)]) = Some s ∧
    phase (loop (runtime s)) = Returned (Ok tt) ∧ process_mode (runtime s) = Some Fast ∧
    supervisor_exec patient s SessionDone = Steps lost ∧ place lost = SupervisorReturned (Err SessionStopped) ∧
    run_actions (supervisor_exec patient) s [ProcessSeen; SessionDone] = Some kept ∧ place kept = SupervisorReturned (Ok tt).
Proof. eexists _, _, _. repeat (split; [vm_compute; reflexivity|]). vm_compute; reflexivity. Qed.

(** A Client's runtime returns only when everything it started has ended: the controller,
    the Managed session and the ACME managers; its session never stops unexpectedly; an
    escalation is reported only of a shutdown that is fast.  Once the controller has ended, at
    most two more steps return. *)
Theorem client_supervised c :
  client_reachable c →
  (∀ a, client_supervisor_exec c a ≠ Panics) ∧
  (∀ r, client_place c = ClientReturned r →
     controller_running c = false ∧ client_session_running c = false ∧ acme_running c = false ∧ r ≠ Err ClientSessionStopped) ∧
  (escalated c = true → client_mode c = Some Fast) ∧
  (controller_running c = false → ∃ acts c' r, (length acts ≤ 2)%nat ∧ run_actions client_supervisor_exec c acts = Some c' ∧
     client_place c' = ClientReturned r).
Proof.
  intros [Hp He]%client_reachable_inv. split_and!.
  - intros [signal| |r| |] E; cbn [client_supervisor_exec] in E; unfold controller_done in E; repeat case_match; done.
  - intros r Hpl. rewrite Hpl in Hp. by destruct Hp as (? & ? & ? & ?).
  - done.
  - intros Hc. destruct (client_place c) as [|q|ok esc| |q|q] eqn:Hpl; try (by destruct Hp as [Hc' _]; rewrite Hc in Hc').
    + destruct Hp as (_ & Hs & Hst & _). exists [SessionEnds; AcmeStopped]. cbn. rewrite Hs, Hst, Hpl. cbn.
      eexists _, _. split_and!; [lia|done|done].
    + done.
    + exists [AcmeStopped]. cbn. rewrite Hpl. eexists _, _. split_and!; [lia|done|done].
    + exists [], c, q. split_and!; [simpl; lia|done|done].
Qed.

(** A signal, its escalation, and the controller's end. *)
Lemma client_supervised_witness :
  ∃ c, client_reachable c ∧ client_place c = ClientReturned (Ok tt) ∧ client_mode c = Some Fast ∧ acme_running c = false.
Proof.
  assert (∃ c, run_actions client_supervisor_exec (client_supervisor_new true)
    [Signal (Some Graceful); Escalation; ControllerDone (Ok tt); AcmeStopped] = Some c ∧
    client_place c = ClientReturned (Ok tt) ∧ client_mode c = Some Fast) as (c & Hr & Hp & Hm)
    by (eexists; vm_compute; split_and!; reflexivity).
  assert (client_reachable c) as Hre by (eexists true, _; exact Hr).
  exists c. split; [exact Hre|]. split; [exact Hp|]. split; [exact Hm|].
  exact (proj1 (proj2 (proj2 (proj1 (proj2 (client_supervised c Hre)) _ Hp)))).
Defined.
