(* ===== verification/Readiness.v ===== *)
(** * Readiness: the readiness port of a Server, and how a Server binds its ports

    [ReadinessGate::wait_until_ready] ([src/server/readiness.rs]) with the two ways in which it
    is woken, the probe task of [ReadinessProbe::bind], and [Server::bind] with its order of
    reservations ([src/server/mod.rs]).  The gate itself is [ManagedServer]'s. *)

From Stdlib Require Import String Ascii ZArith Lia.
From stdpp Require Import base strings numbers gmap list.
From S2P Require Import Prelude Text Names Framing ConfigPrep Checks Config ManagedServer.
Import Proxy.

Open Scope Z_scope.

(** ** The probe task *)

(** [wait_until_ready] at its first check, with its [Notified] created, and suspended in its
    [select!]; about to listen; accepting; ended; aborted.  [seen] is the version the
    certificate's receiver has seen, [notified] whether the [Notified] was. *)
Inductive ProbeTask :=
| Checks (seen : Z)
| Subscribed (seen : Z) (notified : bool)
| Suspended (seen : Z) (notified : bool)
| Listens
| Serving
| Gone
| Aborted.

(** [version] is that of the certificate's channel, [notifying] the calls of [mark_ready] and
    [mark_not_ready] that have stored the flag and not yet notified. *)
Record Probe := mkProbe {
  gate : ReadinessGate;
  version : Z;
  notifying : nat;
  task : ProbeTask;
  listening : bool;
  gained_logs : nat;
  fatal_fired : bool
}.

(** [ReadinessProbe::bind], once the port is reserved; [None]: it could not listen. *)
Definition probe_bind (g : ReadinessGate) (version : Z) (listens : bool) : option Probe :=
  if is_ready g
  then if listens then Some (mkProbe g version 0 Serving true 0 false) else None
  else Some (mkProbe g version 0 (Checks version) false 0 false).

Definition with_task (t : ProbeTask) (p : Probe) : Probe :=
  mkProbe (gate p) (version p) (notifying p) t (listening p) (gained_logs p) (fatal_fired p).
Definition with_gate (g : ReadinessGate) (n : nat) (p : Probe) : Probe :=
  mkProbe g (version p) n (task p) (listening p) (gained_logs p) (fatal_fired p).

(** [notify_waiters] reaches the [Notified] that exists. *)
Definition notify_task (t : ProbeTask) : ProbeTask :=
  match t with
  | Subscribed seen _ => Subscribed seen true
  | Suspended seen _ => Suspended seen true
  | t => t
  end.

Inductive ProbeAction :=
| MarkReady
| Notify
| CertificateSets (serving : bool)
| TaskSteps
| WokenByNotify
| WokenByCertificate
| ListenReturns (ok : bool)
| AcceptFails
| Close.

Definition probe_exec (p : Probe) (a : ProbeAction) : next Probe :=
  match a with
  | MarkReady => Steps (with_gate (mark_ready (gate p)) (S (notifying p)) p)
  | Notify =>
      match notifying p with
      | S n => Steps (with_task (notify_task (task p)) (with_gate (gate p) n p))
      | O => Disabled
      end
  | CertificateSets serving =>
      match gate_certificate (gate p) with
      | Some _ => Steps (mkProbe (mkGate (gate_ready (gate p)) (Some serving)) (version p + 1) (notifying p) (task p)
                           (listening p) (gained_logs p) (fatal_fired p))
      | None => Disabled
      end
  | TaskSteps =>
      match task p with
      | Checks seen => Steps (with_task (if is_ready (gate p) then Listens else Subscribed seen false) p)
      | Subscribed seen n => Steps (with_task (if is_ready (gate p) then Listens else Suspended seen n) p)
      | _ => Disabled
      end
  | WokenByNotify =>
      match task p with Suspended seen true => Steps (with_task (Checks seen) p) | _ => Disabled end
  | WokenByCertificate =>
      match task p, gate_certificate (gate p) with
      | Suspended seen _, Some _ => if seen <? version p then Steps (with_task (Checks (version p)) p) else Disabled
      | _, _ => Disabled
      end
  | ListenReturns ok =>
      match task p with
      | Listens =>
          if ok
          then Steps (mkProbe (gate p) (version p) (notifying p) Serving true (S (gained_logs p)) (fatal_fired p))
          else Steps (mkProbe (mark_not_ready (gate p)) (version p) (S (notifying p)) Gone (listening p) (gained_logs p) true)
      | _ => Disabled
      end
  | AcceptFails =>
      match task p with
      | Serving => Steps (mkProbe (gate p) (version p) (notifying p) Gone false (gained_logs p) (fatal_fired p))
      | _ => Disabled
      end
  | Close => Steps (mkProbe (gate p) (version p) (notifying p) Aborted false (gained_logs p) (fatal_fired p))
  end.

(** ** Binding a Server *)

(** The operating system's answers, in the order they are asked for. *)
Record BindEnv := mkBindEnv {
  public_bind : SocketAddr → bool;
  tunnel_bind : SocketAddr → bool;
  readiness_bind : bool;
  readiness_listen : bool;
  endpoint_new : SocketAddr → bool
}.

Inductive BindEffect :=
| ReservedPublic (a : SocketAddr)
| ReservedTunnel (a : SocketAddr)
| Announced
| ReservedReadiness (a : SocketAddr)
| SpawnedProbe
| AbortedProbe
| StartedEndpoint (a : SocketAddr)
| LoggedEnabled
| LoggedGained.

Inductive BindError :=
| NoConfiguredTunnel
| InvalidAddresses (m : Message)
| PublicBindFailed (a : SocketAddr)
| TunnelBindFailed (a : SocketAddr)
| ReadinessBindFailed
| ReadinessListenFailed
| EndpointFailed (a : SocketAddr).

Definition binding (A : Type) : Type := list BindEffect * result BindError A.
Definition bind_ret {A} (a : A) : binding A := ([], Ok a).
Definition bind_fail {A} (e : BindError) : binding A := ([], Err e).
Definition bind_do (e : BindEffect) : binding unit := ([e], Ok tt).
Definition bind_then {A B} (m : binding A) (f : A → binding B) : binding B :=
  match snd m with
  | Ok a => (fst m ++ fst (f a), snd (f a))
  | Err e => (fst m, Err e)
  end.

(** A loop that reserves one socket per address. *)
Fixpoint reserve (ok : SocketAddr → bool) (effect : SocketAddr → BindEffect) (error : SocketAddr → BindError)
    (addresses : list SocketAddr) : binding unit :=
  match addresses with
  | [] => bind_ret tt
  | a :: rest => bind_then (if ok a then bind_do (effect a) else bind_fail (error a)) (λ _, reserve ok effect error rest)
  end.

(** The loop that starts the endpoints: on an error the probe is closed first. *)
Fixpoint start_endpoints (ok : SocketAddr → bool) (probe : bool) (addresses : list SocketAddr) : binding unit :=
  match addresses with
  | [] => bind_ret tt
  | a :: rest =>
      bind_then (if ok a then bind_do (StartedEndpoint a)
                 else bind_then (if probe then bind_do AbortedProbe else bind_ret tt) (λ _, bind_fail (EndpointFailed a)))
        (λ _, start_endpoints ok probe rest)
  end.

Definition bind_readiness (env : BindEnv) (address : option SocketAddr) (ready : bool) : binding bool :=
  match address with
  | None => bind_ret false
  | Some a =>
      bind_then (if readiness_bind env then bind_do (ReservedReadiness a) else bind_fail ReadinessBindFailed) (λ _,
      bind_then (if ready && negb (readiness_listen env) then bind_fail ReadinessListenFailed else bind_do SpawnedProbe) (λ _,
      bind_ret true))
  end.

Definition validate_binds (publics tunnels : list SocketAddr) : result BindError unit :=
  map_err InvalidAddresses
    (_ ← validate_bind_addresses (bs "server.public-bind-address") publics;
     validate_bind_addresses (bs "server.tunnel-bind-address") tunnels).

(** From the readiness port on: no endpoint starts before every reservation. *)
Definition bind_tail (env : BindEnv) (tunnels : list SocketAddr) (readiness_address : option SocketAddr) (ready : bool) : binding unit :=
  bind_then (bind_readiness env readiness_address ready) (λ probe,
  bind_then (start_endpoints (endpoint_new env) probe tunnels) (λ _,
  if probe then bind_then (bind_do LoggedEnabled) (λ _, if ready then bind_do LoggedGained else bind_ret tt)
  else bind_ret tt)).

(** [bind_with_admission_limits_and_proxy]; [ready]: whether the gate is open when it is made. *)
Definition server_bind (env : BindEnv) (static : bool) (tunnel_count : Z) (publics tunnels : list SocketAddr)
    (readiness_address : option SocketAddr) (ready : bool) : binding unit :=
  bind_then (if static && (tunnel_count =? 0) then bind_fail NoConfiguredTunnel else bind_ret tt) (λ _,
  bind_then ([], validate_binds publics tunnels) (λ _,
  bind_then (reserve (public_bind env) ReservedPublic PublicBindFailed publics) (λ _,
  bind_then (reserve (tunnel_bind env) ReservedTunnel TunnelBindFailed tunnels) (λ _,
  bind_then (bind_do Announced) (λ _, bind_tail env tunnels readiness_address ready))))).

(** ** The probe: lemmas *)

(** A sleeper that nothing is about to wake, sleeps for a reason. *)
Definition wakes (p : Probe) (seen : Z) (notified : bool) : Prop :=
  notified = true ∨ (0 < notifying p)%nat ∨ (gate_certificate (gate p) ≠ None ∧ seen < version p).

Record probe_inv (p : Probe) : Prop := {
  pi_seen : ∀ seen n, task p = Checks seen ∨ task p = Subscribed seen n ∨ task p = Suspended seen n → seen <= version p;
  pi_suspended : ∀ seen n, task p = Suspended seen n → is_ready (gate p) = true → wakes p seen n;
  pi_ready : task p = Listens ∨ task p = Serving → gate_ready (gate p) = true;
  pi_listening : listening p = true ↔ task p = Serving;
  pi_fatal : fatal_fired p = true → task p = Gone ∨ task p = Aborted
}.

Lemma is_ready_flag g : is_ready g = true → gate_ready g = true.
Proof. unfold is_ready. by intros [? _]%andb_prop. Qed.

Lemma probe_inv_bind g v listens p : probe_bind g v listens = Some p → probe_inv p.
Proof.
  unfold probe_bind. destruct (is_ready g) eqn:Hr; [destruct listens; [|done]|]; intros [= <-]; constructor; simpl;
    try done; try (by intros; simplify_eq); try naive_solver lia.
  intros _. by apply is_ready_flag.
Qed.

Lemma notify_task_inv t :
  (∀ seen n, notify_task t = Checks seen ∨ notify_task t = Subscribed seen n ∨ notify_task t = Suspended seen n →
     ∃ n', t = Checks seen ∨ t = Subscribed seen n' ∨ t = Suspended seen n') ∧
  (∀ seen n, notify_task t = Suspended seen n → n = true) ∧
  (notify_task t = Listens ↔ t = Listens) ∧ (notify_task t = Serving ↔ t = Serving) ∧
  (notify_task t = Gone ↔ t = Gone) ∧ (notify_task t = Aborted ↔ t = Aborted).
Proof.
  split.
  - intros seen n Ht. exists (match t with Subscribed _ n | Suspended _ n => n | _ => true end). destruct t; naive_solver.
  - destruct t; naive_solver.
Qed.

(** The waiting task moves on. *)
Lemma probe_inv_moves p t t' :
  probe_inv p → task p = t →
  match t' with
  | Checks seen | Subscribed seen _ => seen <= version p
  | Suspended seen n => seen <= version p ∧ is_ready (gate p) ≠ true
  | Listens => gate_ready (gate p) = true
  | _ => False
  end →
  match t with Checks _ | Subscribed _ _ | Suspended _ _ => True | _ => False end →
  probe_inv (with_task t' p).
Proof.
  intros [Hs Hw Hr Hl Hf] Ht Ht' Hold. constructor; simpl.
  - intros seen n [->|[->| ->]]; [done|done|by destruct Ht'].
  - intros seen n ->. by destruct Ht'.
  - destruct t'; try done; naive_solver.
  - rewrite Hl, Ht. destruct t; try done; destruct t'; done.
  - intros Hff. destruct (Hf Hff) as [Hg|Hg]; rewrite Ht in Hg; by rewrite Hg in Hold.
Qed.

Lemma probe_inv_step p a p' : probe_inv p → probe_exec p a = Steps p' → probe_inv p'.
Proof.
  intros Hi E. pose proof Hi as [Hs Hw Hr Hl Hf]. destruct a; unfold probe_exec in E.
  - injection E as <-. constructor; simpl; auto. intros seen n Ht _. right. left. simpl. lia.
  - destruct (notifying p) as [|k]; [done|]. injection E as <-.
    destruct (notify_task_inv (task p)) as (H1 & H2 & H3 & H4 & H5 & H6).
    constructor; simpl; rewrite ?H3, ?H4, ?H5, ?H6; auto.
    + intros seen n [n' Ht]%H1. by eapply Hs.
    + intros seen n Ht _. left. by eapply H2.
  - destruct (gate_certificate (gate p)) eqn:Hc; [|done]. injection E as <-. constructor; simpl; auto.
    + intros seen n Ht. specialize (Hs seen n Ht). lia.
    + intros seen n Ht _. right. right. simpl. specialize (Hs seen n ltac:(auto)). split; [done|lia].
  - destruct (task p) as [seen|seen n|seen n| | | |] eqn:Ht; try done; injection E as <-;
      destruct (is_ready (gate p)) eqn:Hg; (eapply probe_inv_moves; [exact Hi|exact Ht| |done]); simpl.
    + by apply is_ready_flag.
    + by apply (Hs seen true); left.
    + by apply is_ready_flag.
    + split; [by apply (Hs seen n); auto|congruence].
  - destruct (task p) as [seen|seen n|seen [] | | | |] eqn:Ht; try done; injection E as <-.
    eapply probe_inv_moves; [exact Hi|exact Ht| |done]. simpl. by apply (Hs seen true); auto.
  - destruct (task p) as [seen|seen n|seen n| | | |] eqn:Ht; try done. destruct (gate_certificate (gate p)) eqn:Hc; [|done].
    destruct (seen <? version p); [|done]. injection E as <-. eapply probe_inv_moves; [exact Hi|exact Ht| |done]. simpl. lia.
  - destruct (task p) as [seen|seen n|seen n| | | |] eqn:Ht; try done. destruct ok; injection E as <-; constructor; simpl; try done; auto; try (by intros ? ? [?|[?|?]]); try (by intros [?|?]);
      try (by intros [?|?]%Hf); try (rewrite Hl; split; done).
  - destruct (task p) as [seen|seen n|seen n| | | |] eqn:Ht; try done. injection E as <-. constructor; simpl; try done; auto; try (by intros ? ? [?|[?|?]]); try (by intros [?|?]);
      try (by intros [?|?]%Hf); try (rewrite Hl; split; done).
  - injection E as <-. constructor; simpl; try done; auto; try (by intros ? ? [?|[?|?]]); try (by intros [?|?]);
      try (by intros [?|?]%Hf); try (rewrite Hl; split; done).
Qed.

Definition probe_reachable (p : Probe) : Prop :=
  ∃ g v listens p0 acts, probe_bind g v listens = Some p0 ∧ run_actions probe_exec p0 acts = Some p.

Lemma probe_reachable_inv p : probe_reachable p → probe_inv p.
Proof.
  intros (g & v & listens & p0 & acts & Hb & Hr).
  apply (run_actions_invariant probe_exec probe_inv acts p0 p); [|by eapply probe_inv_bind|done].
  intros ? ? ?. apply probe_inv_step.
Qed.

(** Steps of the task and of the notifications under way. *)
Definition own_step (a : ProbeAction) : bool :=
  match a with Notify | TaskSteps | WokenByNotify | WokenByCertificate => true | _ => false end.

Lemma checks_listens p seen :
  task p = Checks seen → is_ready (gate p) = true →
  run_actions probe_exec p [TaskSteps] = Some (with_task Listens p).
Proof. intros Ht Hg. simpl. by rewrite Ht, Hg. Qed.

Lemma notified_listens p seen :
  task p = Suspended seen true → is_ready (gate p) = true →
  run_actions probe_exec p [WokenByNotify; TaskSteps] = Some (with_task Listens p).
Proof. intros Ht Hg. cbn. rewrite Ht. cbn. by rewrite Hg. Qed.

Lemma waiting_listens p :
  probe_inv p → is_ready (gate p) = true →
  (∃ seen n, task p = Checks seen ∨ task p = Subscribed seen n ∨ task p = Suspended seen n) →
  ∃ acts p', (length acts ≤ 3)%nat ∧ Forall (λ a, own_step a = true) acts ∧
    run_actions probe_exec p acts = Some p' ∧ task p' = Listens ∧ gate p' = gate p.
Proof.
  intros Hi Hg (seen & n & [Ht|[Ht|Ht]]).
  - exists [TaskSteps], (with_task Listens p). split_and!; [simpl; lia|by repeat constructor|by eapply checks_listens|done..].
  - exists [TaskSteps], (with_task Listens p). split_and!; [simpl; lia|by repeat constructor| |done..]. simpl. by rewrite Ht, Hg.
  - destruct (pi_suspended _ Hi seen n Ht Hg) as [->|[Hn|[Hc Hv]]].
    + exists [WokenByNotify; TaskSteps], (with_task Listens p).
      split_and!; [simpl; lia|by repeat constructor|by eapply notified_listens|done..].
    + destruct (notifying p) as [|k] eqn:Hk; [lia|].
      set (q := with_task (Suspended seen true) (with_gate (gate p) k p)).
      exists [Notify; WokenByNotify; TaskSteps], (with_task Listens q).
      split_and!; [simpl; lia|by repeat constructor| |done..].
      change (run_actions probe_exec p [Notify; WokenByNotify; TaskSteps])
        with (match probe_exec p Notify with Steps s' => run_actions probe_exec s' [WokenByNotify; TaskSteps] | _ => None end).
      cbn [probe_exec]. rewrite Hk, Ht. by apply (notified_listens q seen).
    + exists [WokenByCertificate; TaskSteps], (with_task Listens p).
      split_and!; [simpl; lia|by repeat constructor| |done..]. cbn. rewrite Ht.
      destruct (gate_certificate (gate p)); [|done]. rewrite (proj2 (Z.ltb_lt _ _) Hv). cbn. by rewrite Hg.
Qed.

(** ** Binding: lemmas *)

Lemma bind_then_ok {A B} (m : binding A) (f : A → binding B) b :
  snd (bind_then m f) = Ok b → ∃ a, snd m = Ok a ∧ snd (f a) = Ok b ∧ fst (bind_then m f) = fst m ++ fst (f a).
Proof. unfold bind_then. destruct (snd m) as [a|]; [|done]. intros H. by exists a. Qed.

Lemma bind_then_effects {A B} (m : binding A) (f : A → binding B) x :
  x ∈ fst (bind_then m f) → x ∈ fst m ∨ ∃ a, snd m = Ok a ∧ x ∈ fst (f a).
Proof. unfold bind_then. destruct (snd m) as [a|]; simpl; [rewrite elem_of_app|]; naive_solver. Qed.

Lemma reserve_ok ok effect error addresses :
  snd (reserve ok effect error addresses) = Ok tt →
  fst (reserve ok effect error addresses) = effect <$> addresses ∧ Forall (λ a, ok a = true) addresses.
Proof.
  induction addresses as [|a rest IH]; [done|]. cbn [reserve]. intros ([] & H1 & H2 & ->)%bind_then_ok.
  destruct (IH H2) as [-> ?]. destruct (ok a) eqn:Ha; [|done]. by split; [|constructor].
Qed.

Lemma reserve_effects ok effect error addresses x :
  x ∈ fst (reserve ok effect error addresses) → ∃ a, x = effect a.
Proof.
  induction addresses as [|a rest IH]; [by intros ?%not_elem_of_nil|]. cbn [reserve].
  intros [H|(? & _ & H)]%bind_then_effects; [|auto]. destruct (ok a); [|by apply not_elem_of_nil in H].
  apply list_elem_of_singleton in H as ->. by eexists.
Qed.

Lemma start_endpoints_error ok addresses probe e :
  snd (start_endpoints ok probe addresses) = Err e → probe = true → AbortedProbe ∈ fst (start_endpoints ok probe addresses).
Proof.
  intros He ->. induction addresses as [|a rest IH]; [done|]. cbn [start_endpoints] in *. destruct (ok a); cbn in *; [|by left].
  right. by apply IH.
Qed.

Lemma start_endpoints_ok ok addresses probe :
  snd (start_endpoints ok probe addresses) = Ok tt →
  fst (start_endpoints ok probe addresses) = StartedEndpoint <$> addresses.
Proof.
  induction addresses as [|a rest IH]; [done|]. cbn [start_endpoints]. destruct (ok a); cbn; [|by destruct probe].
  intros Hr. by rewrite IH.
Qed.

Lemma validate_binds_ok publics tunnels :
  validate_binds publics tunnels = Ok tt →
  (1 <= length publics <= 8)%nat ∧ (1 <= length tunnels <= 8)%nat ∧ NoDup publics ∧ NoDup tunnels.
Proof.
  assert (∀ field l, validate_bind_addresses field l = Ok tt → (1 <= length l <= 8)%nat ∧ NoDup l) as Hone.
  { intros field l. unfold validate_bind_addresses. destruct (negb _) eqn:Hb; [done|]. cbn.
    destruct (first_duplicate [] l) eqn:Hd; [done|]. intros _. apply first_duplicate_none in Hd as [? _].
    apply negb_false_iff, andb_prop in Hb as [?%Z.leb_le ?%Z.leb_le]. unfold len in *. split; [lia|done]. }
  unfold validate_binds. destruct (validate_bind_addresses _ publics) as [[]|] eqn:Hp; [|done].
  cbn. destruct (validate_bind_addresses _ tunnels) as [[]|] eqn:Ht; [|done]. intros _.
  destruct (Hone _ _ Hp), (Hone _ _ Ht). done.
Qed.

Lemma start_endpoints_effects ok probe addresses x :
  x ∈ fst (start_endpoints ok probe addresses) → x ≠ SpawnedProbe.
Proof.
  induction addresses as [|a rest IH]; [by intros ?%not_elem_of_nil|]. cbn [start_endpoints].
  intros [H|(? & _ & H)]%bind_then_effects; [|auto]. destruct (ok a); cbn in H.
  - by apply list_elem_of_singleton in H as ->.
  - destruct probe; cbn in H; [by apply list_elem_of_singleton in H as ->|by apply not_elem_of_nil in H].
Qed.

Lemma bind_tail_spec env tunnels readiness ready :
  let t := bind_tail env tunnels readiness ready in
  (snd t = Ok tt → ∃ rest, fst t = (match readiness with Some a => [ReservedReadiness a; SpawnedProbe] | None => [] end) ++
     (StartedEndpoint <$> tunnels) ++ rest) ∧
  (∀ a, StartedEndpoint a ∈ fst t → readiness = None ∨ readiness_bind env = true) ∧
  (snd t ≠ Ok tt → SpawnedProbe ∈ fst t → AbortedProbe ∈ fst t).
Proof.
  unfold bind_tail, bind_readiness. destruct readiness as [a|].
  - destruct (readiness_bind env).
    2: { cbn. split_and!; [done|by intros ? ?%not_elem_of_nil|by intros _ ?%not_elem_of_nil]. }
    destruct (ready && negb (readiness_listen env)) eqn:Hl; cbn.
    { split_and!; [done|by right|]. intros _ [?|?%not_elem_of_nil]%elem_of_cons; done. }
    pose proof (start_endpoints_ok (endpoint_new env) tunnels true) as Ho.
    pose proof (start_endpoints_error (endpoint_new env) tunnels true) as He.
    destruct (start_endpoints (endpoint_new env) true tunnels) as [es [[]|e]]; cbn in *.
    + rewrite (Ho eq_refl). split_and!; [|by right|by destruct ready]. intros _. eexists. by rewrite <- ?app_assoc.
    + split_and!; [done|by right|]. intros _ _. right. right. by eapply He.
  - cbn. pose proof (start_endpoints_ok (endpoint_new env) tunnels false) as Ho.
    pose proof (start_endpoints_effects (endpoint_new env) false tunnels) as Hx.
    destruct (start_endpoints (endpoint_new env) false tunnels) as [es [[]|e]]; cbn in *.
    + rewrite (Ho eq_refl). split_and!; [|by left|done]. intros _. by exists [].
    + split_and!; [done|by left|]. intros _ Hs. by destruct (Hx _ Hs).
Qed.

(** ** Claims *)

(** The readiness port opens exactly when the Server is ready.  The probe task never
    sleeps through the moment: whenever the gate is open and the task waits, at most three
    steps of it and of notifications under way make it listen.  It accepts probes only with
    the flag of the gate set, never after a failure to listen, and such a failure is fatal. *)
Theorem readiness_never_missed p :
  probe_reachable p →
  (is_ready (gate p) = true → (∃ seen n, task p = Checks seen ∨ task p = Subscribed seen n ∨ task p = Suspended seen n) →
   ∃ acts p', (length acts ≤ 3)%nat ∧ Forall (λ a, own_step a = true) acts ∧
     run_actions probe_exec p acts = Some p' ∧ task p' = Listens) ∧
  (listening p = true → gate_ready (gate p) = true ∧ task p = Serving ∧ fatal_fired p = false) ∧
  (∀ p', probe_exec p (ListenReturns false) = Steps p' → fatal_fired p' = true ∧ is_ready (gate p') = false ∧ listening p' = false).
Proof.
  intros Hi%probe_reachable_inv. split_and!.
  - intros Hg Ht. destruct (waiting_listens p Hi Hg Ht) as (acts & p' & ? & ? & ? & ? & _). by exists acts, p'.
  - destruct Hi as [_ _ Hr Hl Hf]. intros Ht%Hl. split_and!; [by apply Hr; right|done|].
    destruct (fatal_fired p); [|done]. by destruct (Hf eq_refl) as [Hx|Hx]; rewrite Ht in Hx.
  - intros p' E. simpl in E. destruct (task p) eqn:Ht; try done. injection E as <-. simpl. split_and!; [done..|].
    destruct Hi as [_ _ _ Hl _]. rewrite Ht in Hl. destruct (listening p); [|done]. discriminate (proj1 Hl eq_refl).
Qed.

(** A Managed Server with a certificate that is not served yet: the apply and the certificate
    come while the task is about to sleep. *)
Definition late_certificate : list ProbeAction :=
  [TaskSteps; TaskSteps; MarkReady; Notify; WokenByNotify; TaskSteps; TaskSteps; CertificateSets true].

Lemma readiness_never_missed_witness :
  ∃ p acts p', probe_reachable p ∧ is_ready (gate p) = true ∧ (∃ seen, task p = Suspended seen false) ∧
    run_actions probe_exec p acts = Some p' ∧ task p' = Listens.
Proof.
  assert (∃ p, run_actions probe_exec (mkProbe (mkGate false (Some false)) 4 0 (Checks 4) false 0 false) late_certificate = Some p ∧
    is_ready (gate p) = true ∧ task p = Suspended 4 false) as (p & Hr & Hg & Ht) by (eexists; vm_compute; split_and!; reflexivity).
  assert (probe_reachable p) as Hre by (exists (mkGate false (Some false)), 4, true; eexists _, _; split; [reflexivity|exact Hr]).
  destruct (proj1 (readiness_never_missed p Hre) Hg) as (acts & p' & _ & _ & Hr' & Ht'); [exists 4, false; by right; right|].
  exists p, acts, p'. split_and!; try assumption. by exists 4.
Defined.

(** One failed accept closes the readiness port for good.  The probe task ends at the first
    error of [accept], transient ones included: the port is closed while the gate is open and
    the Server keeps running, and no later step listens again. *)
Theorem readiness_lost_on_accept_error p p1 acts p2 :
  task p = Serving → probe_exec p AcceptFails = Steps p1 → run_actions probe_exec p1 acts = Some p2 →
  gate p1 = gate p ∧ fatal_fired p1 = fatal_fired p ∧ listening p2 = false.
Proof.
  intros Ht E Hr. simpl in E. rewrite Ht in E. injection E as <-. split; [done|]. split; [done|].
  assert ((task p2 = Gone ∨ task p2 = Aborted) ∧ listening p2 = false) as [_ ?]; [|done].
  eapply (run_actions_invariant probe_exec (λ q, (task q = Gone ∨ task q = Aborted) ∧ listening q = false)); [| |exact Hr].
  - clear. intros q a q' [Ht Hl] E.
    destruct a; simpl in E; try (injection E as <-; simpl; auto; fail).
    + destruct (notifying q); [done|]. injection E as <-. simpl. destruct Ht as [-> | ->]; auto.
    + destruct (gate_certificate (gate q)); [|done]. injection E as <-. simpl. auto.
    + destruct Ht as [Ht|Ht]; rewrite Ht in E; done.
    + destruct Ht as [Ht|Ht]; rewrite Ht in E; done.
    + destruct Ht as [Ht|Ht]; rewrite Ht in E; done.
    + destruct Ht as [Ht|Ht]; rewrite Ht in E; done.
    + destruct Ht as [Ht|Ht]; rewrite Ht in E; done.
  - simpl. auto.
Qed.

Lemma readiness_lost_on_accept_error_witness :
  ∃ p p1 p2, probe_bind (mkGate true None) 0 true = Some p ∧ probe_exec p AcceptFails = Steps p1 ∧
    run_actions probe_exec p1 [MarkReady; Notify] = Some p2 ∧ is_ready (gate p2) = true ∧ listening p2 = false.
Proof.
  eexists _, _, _. split; [reflexivity|]. split; [reflexivity|]. split; [reflexivity|]. split; [reflexivity|].
  refine (proj2 (proj2 (readiness_lost_on_accept_error (mkProbe (mkGate true None) 0 0 Serving true 0 false) _ [MarkReady; Notify] _ _ _ _)));
    reflexivity.
Defined.

(** A Server binds everything or nothing.  When binding succeeds, every Visitor and Tunnel
    address was reserved and every endpoint started, in configuration order, and there are one
    to eight distinct of each; no endpoint is started before all reservations succeeded; and
    when it fails, no probe task is left behind. *)
Theorem server_bind_all_or_nothing env static count publics tunnels readiness ready :
  let '(effects, r) := server_bind env static count publics tunnels readiness ready in
  (r = Ok tt → ∃ rest, effects = (ReservedPublic <$> publics) ++ (ReservedTunnel <$> tunnels) ++ [Announced] ++
     (match readiness with Some a => [ReservedReadiness a; SpawnedProbe] | None => [] end) ++ (StartedEndpoint <$> tunnels) ++ rest ∧
     (1 <= length publics <= 8)%nat ∧ (1 <= length tunnels <= 8)%nat ∧ NoDup publics ∧ NoDup tunnels) ∧
  (∀ a, StartedEndpoint a ∈ effects → Forall (λ x, public_bind env x = true) publics ∧ Forall (λ x, tunnel_bind env x = true) tunnels ∧
     (readiness = None ∨ readiness_bind env = true)) ∧
  (r ≠ Ok tt → SpawnedProbe ∈ effects → AbortedProbe ∈ effects).
Proof.
  assert (∀ P : Prop, ∀ x : BindEffect, x ∈ [] → P) as Hnil by (intros P x Hx; by apply not_elem_of_nil in Hx).
  unfold server_bind. destruct (static && (count =? 0)); [cbn; split_and!; [done|intros a; apply Hnil|intros _; apply Hnil]|].
  cbn [bind_then bind_ret snd fst app]. destruct (validate_binds publics tunnels) as [[]|e] eqn:Hv.
  2: { cbn. split_and!; [done|intros a; apply Hnil|intros _; apply Hnil]. }
  apply validate_binds_ok in Hv as (Hp1 & Ht1 & Hp2 & Ht2).
  pose proof (reserve_effects (public_bind env) ReservedPublic PublicBindFailed publics) as Ep.
  pose proof (reserve_ok (public_bind env) ReservedPublic PublicBindFailed publics) as Op.
  destruct (reserve (public_bind env) ReservedPublic PublicBindFailed publics) as [ep [[]|e]]; cbn -[bind_tail] in *.
  2: { split_and!; [done|intros a Ha|intros _ Ha]; by destruct (Ep _ Ha). }
  destruct (Op eq_refl) as [-> Fp]. clear Op Ep.
  pose proof (reserve_effects (tunnel_bind env) ReservedTunnel TunnelBindFailed tunnels) as Et.
  pose proof (reserve_ok (tunnel_bind env) ReservedTunnel TunnelBindFailed tunnels) as Ot.
  destruct (reserve (tunnel_bind env) ReservedTunnel TunnelBindFailed tunnels) as [et [[]|e]]; cbn -[bind_tail] in *.
  2: { split_and!; [done|intros a Ha|intros _ Ha]; rewrite elem_of_app, list_elem_of_fmap in Ha; destruct Ha as [(? & ? & _)|Ha];
         try done; by destruct (Et _ Ha). }
  destruct (Ot eq_refl) as [-> Ft]. clear Ot Et.
  destruct (bind_tail_spec env tunnels readiness ready) as (H1 & H2 & H3).
  destruct (bind_tail env tunnels readiness ready) as [es r]. cbn in H1, H2, H3. cbn. split_and!.
  - intros Hr. destruct (H1 Hr) as [rest ->]. exists rest. split_and!; (done || lia).
  - intros a. rewrite !elem_of_app, !list_elem_of_fmap, elem_of_cons. intros [(? & ? & _)|[(? & ? & _)|[?|Ha]]]; try done.
    split_and!; [done|done|by eapply H2].
  - intros Hr. rewrite !elem_of_app, !list_elem_of_fmap, !elem_of_cons.
    intros [(? & ? & _)|[(? & ? & _)|[?|Ha]]]; try done. right. right. right. by apply H3.
Qed.
