(* ===== verification/Startup.v ===== *)
(** * Startup: preparing a Client instance and a Server from their configurations

    [src/startup.rs]: the services, TLS configurations and ACME managers a Client instance
    shares between its connections ([ClientInstancePrep]), the trust roots and the identity
    that each attempt loads ([connect_with_generation], [load_root_store]), and the preparation
    of a Server up to its listeners ([PreparedServer::bind_with_acme_options]).

    PEM files, rustls and the file system are parameters. *)

From Stdlib Require Import String Ascii ZArith Lia.
From stdpp Require Import base strings numbers gmap list.
From S2P Require Import Prelude Text Names Framing Assignment Authorization ConfigPrep Checks Config ManagedServer ClientStreams.
From S2P Require Import Readiness Follower ClientRun.
Import Hostname Address Service.

Open Scope Z_scope.

(** ** The TLS configurations of a Client instance *)

Section Material.
(** Chains, keys, TLS configurations and the errors of loading and building them. *)
Context {M K C X : Type}.
Context (load_certificate_chain : bytes → result X M) (load_private_key : bytes → result X K).
Context (with_single_cert : M → K → result X C).
(** The default and the challenge configuration of the ACME state of one hostname. *)
Context (acme_configs : bytes → bytes → bytes → C * C).

Definition CLIENT_PUBLIC_CERT_FILENAME : bytes := bs "public.crt".
Definition CLIENT_PUBLIC_KEY_FILENAME : bytes := bs "public.key".
Definition client_public_cert_leaf_dir (directory hostname : bytes) : bytes :=
  path_join directory (normalize_public_hostname hostname).

Inductive TlsProblem :=
| NoCertificate (hostname : bytes)
| NoPrivateKey (hostname : bytes)
| InvalidMaterial (hostname : bytes) (e : X)
| NoTerminatingService.

(** The body of the inner loop of [load_manual_termination_tls_configs]. *)
Definition load_manual_hostname (directory : bytes) (configs : gmap bytes C) (hostname : bytes) :
    result TlsProblem (gmap bytes C) :=
  if bool_decide (is_Some (configs !! hostname)) then Ok configs
  else
    let leaf_dir := client_public_cert_leaf_dir directory hostname in
    cert_chain ← map_err (λ _, NoCertificate hostname) (load_certificate_chain (path_join leaf_dir CLIENT_PUBLIC_CERT_FILENAME));
    private_key ← map_err (λ _, NoPrivateKey hostname) (load_private_key (path_join leaf_dir CLIENT_PUBLIC_KEY_FILENAME));
    tls_config ← map_err (InvalidMaterial hostname) (with_single_cert cert_chain private_key);
    Ok (<[hostname := tls_config]> configs).

Definition load_manual_service (directory : bytes) (configs : gmap bytes C) (service : ServiceConfig) :
    result TlsProblem (gmap bytes C) :=
  match tls_mode service, public_hostnames service with
  | Terminate, Some hostnames => try_fold (load_manual_hostname directory) configs hostnames
  | _, _ => Ok configs
  end.
Definition load_manual_termination_tls_configs (services : list ServiceConfig) (directory : bytes) :
    result TlsProblem (gmap bytes C) :=
  try_fold (load_manual_service directory) ∅ services.

(** [acme_terminating_hostnames]: the hostnames seen so far, and in order. *)
Definition collect_hostname (acc : gset bytes * list bytes) (hostname : bytes) : gset bytes * list bytes :=
  if bool_decide (hostname ∈ acc.1) then acc else ({[ hostname ]} ∪ acc.1, acc.2 ++ [hostname]).
Definition collect_service (acc : gset bytes * list bytes) (service : ServiceConfig) : gset bytes * list bytes :=
  match tls_mode service, public_hostnames service with
  | Terminate, Some hostnames => foldl collect_hostname acc hostnames
  | _, _ => acc
  end.
Definition acme_terminating_hostnames (services : list ServiceConfig) : list bytes :=
  (foldl collect_service (∅, []) services).2.

(** The configurations, and the hostnames with an ACME manager. *)
Definition build_acme_termination_configs (services : list ServiceConfig) (email state_directory : bytes) :
    result TlsProblem (TerminationTlsConfigs C * list bytes) :=
  let hostnames := acme_terminating_hostnames services in
  _ ← reject_if (bool_decide (hostnames = [])) NoTerminatingService;
  let config h := (acme_configs email state_directory h) in
  Ok (mkTlsConfigs (list_to_map ((λ h, (h, (config h).1)) <$> hostnames)) (list_to_map ((λ h, (h, (config h).2)) <$> hostnames)),
      hostnames).

Definition load_termination_tls_configs (c : ClientConfig) : result TlsProblem (TerminationTlsConfigs C * list bytes) :=
  match public_cert_config c with
  | None => Ok (mkTlsConfigs ∅ ∅, [])
  | Some (ManualCert directory) =>
      configs ← load_manual_termination_tls_configs (Config.services c) directory; Ok (mkTlsConfigs configs ∅, [])
  | Some (AcmeCert email state_directory _) => build_acme_termination_configs (Config.services c) email state_directory
  end.

(** *** [ClientInstancePrep::prepare_with_stream_limits] *)

Inductive PrepareProblem :=
| NoService
| InvalidServices (e : ClientServiceValidationError)
| StateDirectoryFailed (path : bytes)
| TerminationTls (e : TlsProblem).

Record ClientInstancePrep := mkPrep {
  prep_services : list ServiceConfig;
  termination_tls_configs : TerminationTlsConfigs C;
  prep_limits : ClientStreamLimits;
  acme_managers : list bytes
}.

Context (create_dir_all : bytes → bool).

Definition prepare_default_client_acme_state_dir (c : ClientConfig) : result PrepareProblem unit :=
  match public_cert_config c with
  | Some (AcmeCert _ state_directory true) => reject_if (negb (create_dir_all state_directory)) (StateDirectoryFailed state_directory)
  | _ => Ok tt
  end.

Definition prepare_with_stream_limits (c : ClientConfig) (limits : ClientStreamLimits) : result PrepareProblem ClientInstancePrep :=
  _ ← reject_if (bool_decide (Config.services c = [])) NoService;
  services ← map_err InvalidServices (validate_services (Config.services c));
  _ ← prepare_default_client_acme_state_dir c;
  '(configs, managers) ← map_err TerminationTls (load_termination_tls_configs c);
  Ok (mkPrep services configs limits managers).

(** ** One attempt's material *)

(** Certificates, a root store and its [add]. *)
Context {D R Q : Type}.
Context (certificates : M → list D) (empty_roots : R) (add_root : R → D → result X R).
Context (make_client_tunnel_h3_config : R → M → K → result X Q).

Inductive RootProblem := RootMaterial (e : X) | BadRoot (e : X) | NativeRoots (errors : Z).
Record LoadedRootStore := mkLoadedRoots { roots : R; native_root_error_count : Z }.

(** [build_root_store] with the certificates to add, and the errors to report. *)
Definition build_root_store (certs : list D) (error_count : Z) : result RootProblem LoadedRootStore :=
  roots ← map_err BadRoot (try_fold add_root empty_roots certs);
  _ ← reject_if (bool_decide (certs = [])) (NativeRoots error_count);
  Ok (mkLoadedRoots roots error_count).

Definition load_root_store_with (trust : Trust) (native : list D * Z) : result RootProblem LoadedRootStore :=
  match trust with
  | System => build_root_store native.1 native.2
  | CaFile path => chain ← map_err RootMaterial (load_certificate_chain path); build_root_store (certificates chain) 0
  end.

(** [should_emit_client_trust_store_warning] on the process-wide flag. *)
Definition should_emit_client_trust_store_warning (errors : Z) (emitted : bool) : bool * bool :=
  if 0 <? errors then (negb emitted, true) else (false, emitted).

(** [connect_with_generation]: the material is loaded for each attempt, before the connection. *)
Context (quic_message material_message : X → bytes).
Definition root_problem_message (p : RootProblem) : bytes :=
  match p with
  | RootMaterial e => material_message e
  | BadRoot _ => bs "failed to add a trusted CA certificate"
  | NativeRoots errors => bs "failed to load the system trust store: " ++ show_uint errors ++ bs " certificate(s) could not be loaded"
  end.
Definition connect_with_generation {E} (c : ClientConfig) (native : list D * Z)
    (connect : Q → result (ClientConnectError (E := E)) unit) : result (ClientStartupError (E := E)) unit :=
  loaded ← map_err (λ p, LocalMaterial (root_problem_message p)) (load_root_store_with (server_trust c) native);
  chain ← map_err (λ e, LocalMaterial (material_message e))
            (load_certificate_chain (path_join (identity_directory c) CLIENT_CERT_FILENAME));
  key ← map_err (λ e, LocalMaterial (material_message e)) (load_private_key (path_join (identity_directory c) CLIENT_KEY_FILENAME));
  quic ← map_err (λ e, LocalMaterial (quic_message e)) (make_client_tunnel_h3_config (roots loaded) chain key);
  map_err StartupConnect (connect quic).
End Material.

(** ** The ACME managers of a Client instance *)

Module AcmeDrive.

(** [ClientAcmeDrive]: the managers waiting, running as tasks, or given up. *)
Inductive AcmeTasks := Idle (managers : nat) | Running (tasks : list nat) | Stopped.

(** [alive]: the tasks that run and are not aborted.  A call of [stop_acme] has the tasks it still
    has to abort and await. *)
Record Instance := mkInstance {
  drive : AcmeTasks;
  alive : list nat;
  spawned : nat;
  stopping : gmap nat (list nat)
}.

Definition instance_new (managers : nat) : Instance := mkInstance (Idle managers) [] 0 ∅.

Inductive Action :=
| StartOnce
| StopCalls (i : nat)
| StopAwaits (i : nat)
| DropsInstance
| TaskEnds (t : nat).

(** [start_acme_once] and the locked part of [stop_acme] hold the mutex; [StopAwaits] aborts and
    awaits one handle; a task may also end by itself.  [DropsInstance] is [Drop::drop]. *)
Definition exec (s : Instance) (a : Action) : next Instance :=
  match a with
  | StartOnce =>
      match drive s with
      | Idle n => let tasks := seq (spawned s) n in
                  Steps (mkInstance (Running tasks) (alive s ++ tasks) (spawned s + n) (stopping s))
      | _ => Steps s
      end
  | StopCalls i =>
      match stopping s !! i with
      | Some _ => Disabled
      | None =>
          match drive s with
          | Running tasks => Steps (mkInstance Stopped (alive s) (spawned s) (<[i := tasks]> (stopping s)))
          | _ => Steps (mkInstance Stopped (alive s) (spawned s) (<[i := []]> (stopping s)))
          end
      end
  | StopAwaits i =>
      match stopping s !! i with
      | Some (t :: rest) => Steps (mkInstance (drive s) (List.filter (λ u, negb (Nat.eqb u t)) (alive s)) (spawned s) (<[i := rest]> (stopping s)))
      | _ => Disabled
      end
  | DropsInstance =>
      match drive s with
      | Running tasks => Steps (mkInstance Stopped (List.filter (λ u, negb (existsb (Nat.eqb u) tasks)) (alive s)) (spawned s) (stopping s))
      | _ => Steps (mkInstance Stopped (alive s) (spawned s) (stopping s))
      end
  | TaskEnds t => Steps (mkInstance (drive s) (List.filter (λ u, negb (Nat.eqb u t)) (alive s)) (spawned s) (stopping s))
  end.

(** Every task that is alive is in the drive, or in the hands of a call that stops it. *)
Record drive_inv (n : nat) (s : Instance) : Prop := {
  di_idle : ∀ k, drive s = Idle k → k = n ∧ spawned s = 0%nat ∧ alive s = [] ∧ ∀ i l, stopping s !! i = Some l → l = [];
  di_spawned : (spawned s = 0 ∨ spawned s = n)%nat;
  di_owned : ∀ t, t ∈ alive s →
    (∃ tasks, drive s = Running tasks ∧ t ∈ tasks) ∨ (∃ i l, stopping s !! i = Some l ∧ t ∈ l);
  di_bound : ∀ t, t ∈ alive s → (t < n)%nat;
  di_running : ∀ tasks, drive s = Running tasks → tasks = seq 0 n
}.

Lemma elem_of_filter_bool (f : nat → bool) l t : t ∈ List.filter f l ↔ f t = true ∧ t ∈ l.
Proof. rewrite !list_elem_of_In, filter_In. tauto. Qed.

Lemma drive_inv_new n : drive_inv n (instance_new n).
Proof. constructor; simpl; try done; [naive_solver|by left|by intros ? ?%not_elem_of_nil..]. Qed.

Lemma drive_inv_step n s a s' : drive_inv n s → exec s a = Steps s' → drive_inv n s'.
Proof.
  intros [Hidle Hsp Hown Hb Hrun] E. destruct a as [|i|i| |t]; simpl in E.
  - destruct (drive s) as [k|tasks|] eqn:Hd; injection E as <-; [|by constructor; rewrite ?Hd..].
    destruct (Hidle k eq_refl) as (-> & Hs & Ha & Hl). rewrite Hs, Ha. constructor; simpl; try done.
    + by right.
    + intros t Ht. left. eexists. split; [done|]. done.
    + intros t Ht%elem_of_seq. lia.
    + by intros tasks [= <-].
  - destruct (stopping s !! i) eqn:Hi; [done|]. destruct (drive s) as [k|tasks|] eqn:Hd; injection E as <-; constructor; simpl; try done.
    + intros t Ht. destruct (Hidle k eq_refl) as (_ & _ & Ha & _). rewrite Ha in Ht. by apply not_elem_of_nil in Ht.
    + intros t Ht. right. destruct (Hown t Ht) as [(? & [= <-] & ?)|(j & l & Hj & ?)].
      * exists i, tasks. by rewrite lookup_insert_eq.
      * exists j, l. split; [|done]. rewrite lookup_insert_ne; [done|congruence].
    + intros t Ht. right. destruct (Hown t Ht) as [(? & ? & ?)|(j & l & Hj & ?)]; [done|].
      exists j, l. split; [|done]. rewrite lookup_insert_ne; [done|congruence].
  - destruct (stopping s !! i) as [[|t rest]|] eqn:Hi; try done. injection E as <-. constructor; simpl; try done.
    + intros k Hk. destruct (Hidle k Hk) as (_ & _ & _ & Hl). by specialize (Hl i _ Hi).
    + intros u [Hu Hin]%elem_of_filter_bool. apply negb_true_iff, Nat.eqb_neq in Hu.
      destruct (Hown u Hin) as [?|(j & l & Hj & Hl)]; [by left|right]. destruct (decide (i = j)) as [->|Hij].
      * exists j, rest. rewrite lookup_insert_eq. split; [done|]. rewrite Hi in Hj. injection Hj as <-. set_unfold. naive_solver.
      * exists j, l. by rewrite lookup_insert_ne.
    + intros u [_ Hin]%elem_of_filter_bool. auto.
  - destruct (drive s) as [k|tasks|] eqn:Hd; injection E as <-; constructor; simpl; try done.
    + intros t Ht. destruct (Hidle k eq_refl) as (_ & _ & Ha & _). rewrite Ha in Ht. by apply not_elem_of_nil in Ht.
    + intros u [Hu Hin]%elem_of_filter_bool. right. destruct (Hown u Hin) as [(? & [= <-] & Hx)|?]; [|done].
      exfalso. apply negb_true_iff in Hu. assert (existsb (Nat.eqb u) tasks = true) as Hy; [|congruence].
      apply existsb_exists. exists u. rewrite Nat.eqb_refl, <- list_elem_of_In. done.
    + intros u [_ Hin]%elem_of_filter_bool. auto.
  - injection E as <-. constructor; simpl; try done.
    + intros k Hk. destruct (Hidle k Hk) as (? & ? & Ha & ?). split_and!; try done. by rewrite Ha.
    + intros u [_ Hin]%elem_of_filter_bool. auto.
    + intros u [_ Hin]%elem_of_filter_bool. auto.
Qed.
End AcmeDrive.

(** ** Preparing a Server *)

Section Server.
Context {M K X Q T : Type}.
Context (load_certificate_chain : bytes → result X M) (load_private_key : bytes → result X K).
Context (make_server_tunnel_h3_config : M → K → result X Q) (make_server_tunnel_h3_config_with_resolver : T → result X Q).
Context (private_directory : bytes → result X unit).

(** [ServerAcmeOptions], as far as the preparation reads it. *)
Record ServerAcmeOptions := mkAcmeOptions { validation_hostname : bytes; request_ownership_on_start : bool }.
(** The trust roots and the validation policy of [ServerAcmeOptions::public], and
    [ServerCertificateController::new] with whether a snapshot is served. *)
Context (public_policy : bytes → result X unit) (controller_new : bytes → bytes → ServerAcmeOptions → result X (T * bool)).

Inductive ServerStartupError :=
| NotAcme
| BadAddresses (m : Message)
| StateDirectory (path : bytes) (e : X)
| Authorization (e : AuthorizationError)
| CertificateMaterial (e : X)
| KeyMaterial (e : X)
| QuicConfig (e : X)
| AcmePolicy (e : X)
| PolicyHostname
| ControllerFailed (e : X)
| BindProblem (e : BindError).

Record PreparedServer := mkPreparedServer {
  authorization : AuthorizationSnapshot;
  quic_server_config : Q;
  acme_runtime : option T;
  managed : bool
}.

Definition acme_public (h : bytes) : result ServerStartupError ServerAcmeOptions :=
  _ ← map_err AcmePolicy (public_policy h); Ok (mkAcmeOptions h true).

Definition prepare_default_server_acme_state_dir (c : ServerConfig) : result ServerStartupError unit :=
  match certificate c with
  | AcmeCert _ state_directory true => map_err (StateDirectory state_directory) (private_directory state_directory)
  | _ => Ok tt
  end.

(** The certificate: its QUIC configuration, its controller, and whether it is served. *)
Definition prepare_certificate (c : ServerConfig) (options : option ServerAcmeOptions) :
    result ServerStartupError (Q * option (T * bool)) :=
  match certificate c with
  | ManualCert directory =>
      chain ← map_err CertificateMaterial (load_certificate_chain (path_join directory SERVER_CERT_FILENAME));
      key ← map_err KeyMaterial (load_private_key (path_join directory SERVER_KEY_FILENAME));
      quic ← map_err QuicConfig (make_server_tunnel_h3_config chain key);
      Ok (quic, None)
  | AcmeCert email state_directory _ =>
      options ← match options with Some options => Ok options | None => acme_public (hostname c) end;
      _ ← reject_if (bool_decide (validation_hostname options ≠ hostname c)) PolicyHostname;
      controller ← map_err ControllerFailed (controller_new state_directory email options);
      quic ← map_err QuicConfig (make_server_tunnel_h3_config_with_resolver controller.1);
      Ok (quic, Some controller)
  end.

Definition prepare_authorization (c : ServerConfig) : result ServerStartupError AuthorizationSnapshot :=
  match admission c with
  | StaticMode => map_err Authorization (try_from_static_tunnels (hostname c) (tunnels c))
  | ManagedMode => Ok empty_managed
  end.

Definition check_addresses (publics tunnels : list Proxy.SocketAddr) : result ServerStartupError unit :=
  map_err BadAddresses
    (_ ← validate_bind_addresses (bs "server.public-bind-address") publics;
     validate_bind_addresses (bs "server.tunnel-bind-address") tunnels).

(** [bind_with_acme_options], to the listeners [Readiness.server_bind] reserves. *)
Definition prepare_server (c : ServerConfig) (publics tunnels : list Proxy.SocketAddr) (options : option ServerAcmeOptions)
    (env : BindEnv) : result ServerStartupError PreparedServer :=
  _ ← check_addresses publics tunnels;
  _ ← (if match options with Some o => request_ownership_on_start o | None => true end
       then prepare_default_server_acme_state_dir c else Ok tt);
  authorization ← prepare_authorization c;
  '(quic, controller) ← prepare_certificate c options;
  let static := match admission c with StaticMode => true | ManagedMode => false end in
  let ready := static && match controller with Some (_, served) => served | None => true end in
  _ ← map_err BindProblem (snd (server_bind env static (Z.of_nat (tunnel_count authorization)) publics tunnels (readiness_bind_address c) ready));
  Ok (mkPreparedServer authorization quic (fst <$> controller) (negb static)).

(** [bind_listeners_with_acme] *)
Definition prepare_server_with_acme (c : ServerConfig) (publics tunnels : list Proxy.SocketAddr) (options : ServerAcmeOptions)
    (env : BindEnv) : result ServerStartupError PreparedServer :=
  _ ← reject_if (match certificate c with AcmeCert _ _ _ => false | _ => true end) NotAcme;
  prepare_server c publics tunnels (Some options) env.
(** *** [ServerRuntime::prepare_with_certificate_options] *)

(** [load_control_tls_material] for a Control hostname, its trust and an identity directory: the
    session checks its material when it is made. *)
Context (load_control_tls_material : bytes → Trust → bytes → result X unit).

Inductive RuntimeProblem :=
| IdentityRequired
| ControlMaterial (e : X)
| StartupProblem (e : ServerStartupError).

(** The Server, and whether a Managed session runs beside it. *)
Record ServerRuntime := mkServerRuntime { prepared_server : PreparedServer; runtime_session : bool }.

Definition prepare_session (c : ServerConfig) : result RuntimeProblem bool :=
  match control c with
  | None => Ok false
  | Some ctl =>
      i ← ok_or IdentityRequired (identity c);
      _ ← map_err ControlMaterial
            (load_control_tls_material (ca_hostname (control_addr ctl)) (control_roots ctl) (identity_dir i));
      Ok true
  end.

(** [None]: a session without an authorization adapter, which only a managed Server has. *)
Definition prepare_runtime (c : ServerConfig) (publics tunnels : list Proxy.SocketAddr) (options : option ServerAcmeOptions)
    (env : BindEnv) : option (result RuntimeProblem ServerRuntime) :=
  match prepare_session c with
  | Err e => Some (Err e)
  | Ok session =>
      match map_err StartupProblem
              (match options with
               | Some options => prepare_server_with_acme c publics tunnels options env
               | None => prepare_server c publics tunnels None env
               end) with
      | Err e => Some (Err e)
      | Ok server => if session && negb (managed server) then None else Some (Ok (mkServerRuntime server session))
      end
  end.
End Server.

(** ** Lemmas *)

Lemma select_served services h s : select services h = Some s → s ∈ services ∧ serves h s.
Proof.
  assert (∀ l, List.find (lists h) l = Some s → s ∈ l ∧ serves h s) as Hfind.
  { intros l [Hin Hl]%find_some. rewrite <- list_elem_of_In in Hin. split; [done|].
    apply lists_true in Hl as (hs & E & Hh). unfold serves. by rewrite E. }
  unfold select. destruct services as [|x [|y rest]]; [done| |apply Hfind].
  destruct (public_hostnames x) eqn:E; [apply Hfind|]. intros [= <-]. split; [by left|]. unfold serves. by rewrite E.
Qed.

(** What validation guarantees of the services: a terminating one has hostnames, and a
    certificate configuration is present. *)
Definition client_services_wf (c : ClientConfig) : Prop :=
  validate_services (Config.services c) = Ok (Config.services c) ∧
  ∀ s, s ∈ Config.services c → tls_mode s = Terminate → is_Some (public_cert_config c) ∧ is_Some (public_hostnames s).

Section Loading.
Context {M K C X : Type}.
Context (load_certificate_chain : bytes → result X M) (load_private_key : bytes → result X K).
Context (with_single_cert : M → K → result X C) (acme_configs : bytes → bytes → bytes → C * C).

Lemma load_manual_hostname_dom directory configs hostname configs' :
  load_manual_hostname load_certificate_chain load_private_key with_single_cert directory configs hostname = Ok configs' →
  is_Some (configs' !! hostname) ∧ ∀ h, is_Some (configs !! h) → is_Some (configs' !! h).
Proof.
  unfold load_manual_hostname. case_bool_decide as Hd; [by intros [= <-]|].
  destruct (load_certificate_chain _) as [chain|]; cbn; [|done]. destruct (load_private_key _) as [key|]; cbn; [|done].
  destruct (with_single_cert chain key) as [config|]; cbn; [|done]. intros [= <-].
  split; [by rewrite lookup_insert_eq|]. intros h Hh. destruct (decide (hostname = h)) as [->|];
    [by rewrite lookup_insert_eq|by rewrite lookup_insert_ne].
Qed.

Lemma load_manual_hostnames_dom directory hostnames configs configs' :
  try_fold (load_manual_hostname load_certificate_chain load_private_key with_single_cert directory) configs hostnames = Ok configs' →
  (∀ h, h ∈ hostnames → is_Some (configs' !! h)) ∧ ∀ h, is_Some (configs !! h) → is_Some (configs' !! h).
Proof.
  revert configs. induction hostnames as [|h hs IH]; intros configs; cbn [try_fold].
  - intros [= <-]. split; [by intros ? ?%not_elem_of_nil|done].
  - destruct (load_manual_hostname _ _ _ directory configs h) as [c1|] eqn:E; cbn; [|done]. intros Hr.
    apply load_manual_hostname_dom in E as [H1 H2]. destruct (IH _ Hr) as [H3 H4]. split; [|auto].
    intros x [->|Hx]%elem_of_cons; auto.
Qed.

Lemma load_manual_dom services directory configs :
  load_manual_termination_tls_configs load_certificate_chain load_private_key with_single_cert services directory = Ok configs →
  ∀ s h, s ∈ services → tls_mode s = Terminate → h ∈ hostnames_of s → is_Some (configs !! h).
Proof.
  unfold load_manual_termination_tls_configs.
  assert (∀ l m m', try_fold (load_manual_service load_certificate_chain load_private_key with_single_cert directory) m l = Ok m' →
    (∀ h, is_Some (m !! h) → is_Some (m' !! h)) ∧
    ∀ s h, s ∈ l → tls_mode s = Terminate → h ∈ hostnames_of s → is_Some (m' !! h)) as Hgen; [|intros H; by apply Hgen in H as [_ ?]].
  induction l as [|s l IH]; intros m m'; cbn [try_fold].
  - intros [= <-]. split; [done|by intros ? ? ?%not_elem_of_nil].
  - destruct (load_manual_service _ _ _ directory m s) as [m1|] eqn:E; cbn; [|done]. intros [H1 H2]%IH.
    assert ((∀ h, is_Some (m !! h) → is_Some (m1 !! h)) ∧ (tls_mode s = Terminate → ∀ h, h ∈ hostnames_of s → is_Some (m1 !! h))) as [H3 H4].
    { unfold load_manual_service in E. unfold hostnames_of. destruct (tls_mode s); [by injection E as <-|].
      destruct (public_hostnames s) as [hs|]; [|injection E as <-; split; [done|by intros _ ? ?%not_elem_of_nil]].
      apply load_manual_hostnames_dom in E as [? ?]. done. }
    split; [auto|]. intros x h [->|Hx]%elem_of_cons Ht Hh; eauto.
Qed.

Lemma collect_dom services :
  ∀ s h, s ∈ services → tls_mode s = Terminate → h ∈ hostnames_of s → h ∈ acme_terminating_hostnames services.
Proof.
  assert (∀ hs acc, (∀ h, h ∈ acc.1 → h ∈ acc.2) →
    let acc' := foldl collect_hostname acc hs in (∀ h, h ∈ acc'.1 → h ∈ acc'.2) ∧ (∀ h, h ∈ acc.2 → h ∈ acc'.2) ∧ ∀ h, h ∈ hs → h ∈ acc'.2) as Hin.
  { induction hs as [|x hs IH]; intros acc Hacc; [split_and!; [done|done|by intros ? ?%not_elem_of_nil]|]. cbn [foldl].
    assert ((∀ h, h ∈ (collect_hostname acc x).1 → h ∈ (collect_hostname acc x).2) ∧ (∀ h, h ∈ acc.2 → h ∈ (collect_hostname acc x).2) ∧
      x ∈ (collect_hostname acc x).2) as (H1 & H2 & H3).
    { unfold collect_hostname. case_bool_decide; [auto|]. simpl. split_and!.
      - intros h [->%elem_of_singleton|?]%elem_of_union; apply elem_of_app; [right; by left|left; auto].
      - intros h ?. apply elem_of_app. by left.
      - apply elem_of_app. right. by left. }
    destruct (IH _ H1) as (H4 & H5 & H6). split_and!; [done|auto|]. intros h [->|?]%elem_of_cons; auto. }
  unfold acme_terminating_hostnames.
  assert (∀ l acc, (∀ h, h ∈ acc.1 → h ∈ acc.2) → let acc' := foldl collect_service acc l in
    (∀ h, h ∈ acc.2 → h ∈ acc'.2) ∧ ∀ s h, s ∈ l → tls_mode s = Terminate → h ∈ hostnames_of s → h ∈ acc'.2) as Hgen.
  { induction l as [|s l IH]; intros acc Hacc; [split; [done|by intros ? ? ?%not_elem_of_nil]|]. cbn [foldl].
    assert ((∀ h, h ∈ (collect_service acc s).1 → h ∈ (collect_service acc s).2) ∧ (∀ h, h ∈ acc.2 → h ∈ (collect_service acc s).2) ∧
      (tls_mode s = Terminate → ∀ h, h ∈ hostnames_of s → h ∈ (collect_service acc s).2)) as (H1 & H2 & H3).
    { unfold collect_service, hostnames_of. destruct (tls_mode s); [done|]. destruct (public_hostnames s) as [hs|];
        [|split_and!; [done|done|by intros _ ? ?%not_elem_of_nil]]. destruct (Hin hs acc Hacc) as (? & ? & ?). done. }
    destruct (IH _ H1) as [H4 H5]. split; [auto|]. intros x h [->|?]%elem_of_cons ? ?; eauto. }
  intros s h Hs Ht Hh. destruct (Hgen services (∅, [])) as [_ H]; [by intros ? ?%not_elem_of_empty|]. eauto.
Qed.

Lemma load_termination_dom c configs managers :
  load_termination_tls_configs load_certificate_chain load_private_key with_single_cert acme_configs c = Ok (configs, managers) →
  is_Some (public_cert_config c) →
  ∀ s h, s ∈ Config.services c → tls_mode s = Terminate → h ∈ hostnames_of s → is_Some (default_server_configs configs !! h).
Proof.
  unfold load_termination_tls_configs. intros E [[directory|email state default] Hc] s h Hs Ht Hh; rewrite Hc in E.
  - destruct (load_manual_termination_tls_configs _ _ _ _ directory) as [m|] eqn:Em; cbn in E; [|done]. injection E as <- <-.
    simpl. by eapply load_manual_dom.
  - unfold build_acme_termination_configs in E. destruct (bool_decide _); cbn in E; [done|]. injection E as <- <-. simpl.
    pose proof (collect_dom (Config.services c) s h Hs Ht Hh) as Hin.
    destruct (list_to_map _ !! h) eqn:El; [done|]. apply not_elem_of_list_to_map in El. exfalso. apply El.
    rewrite <- list_fmap_compose. apply list_elem_of_fmap. by exists h.
Qed.

Lemma prepared_terminates c limits create prep :
  client_services_wf c → 
  prepare_with_stream_limits load_certificate_chain load_private_key with_single_cert acme_configs create c limits = Ok prep →
  ∀ h s, select (prep_services prep) h = Some s → tls_mode s = Terminate →
  is_Some (default_server_configs (termination_tls_configs prep) !! h).
Proof.
  intros [Hsel Hterm] E h s Hs Ht. unfold prepare_with_stream_limits in E.
  destruct (bool_decide _); cbn in E; [done|]. rewrite Hsel in E. cbn in E.
  destruct (prepare_default_client_acme_state_dir create c); cbn in E; [|done].
  destruct (load_termination_tls_configs _ _ _ _ c) as [[configs managers]|] eqn:El; cbn in E; [|done]. injection E as <-. simpl in *.
  apply select_served in Hs as [Hin Hserve]. destruct (Hterm s Hin Ht) as [Hcert [hs Hh]].
  eapply load_termination_dom; [exact El|done|exact Hin|done|]. unfold hostnames_of, serves in *. by rewrite Hh in *.
Qed.
End Loading.

(** What the handler logs of a missing configuration. *)
Lemma handle_missing {A} `{Hello.TlsAcceptor A} {C} services (tls : TerminationTlsConfigs C) env stream es r hostname :
  handle services tls env stream = Some (es, r) → Logs hostname MissingTlsConfig ∈ es →
  ∃ service, select services hostname = Some service ∧ tls_mode service = Terminate ∧ default_server_configs tls !! hostname = None.
Proof.
  unfold handle. destruct (intake_in_time env); simpl; [|intros [= <- <-]; set_solver].
  destruct (Tunnel.read_tunnel_stream stream) as [[[d rest]|e]|]; cbn; [|intros [= <- <-]; set_solver|done].
  destruct (select services _) as [service|] eqn:Hs; [|intros [= <- <-]; set_solver].
  destruct (tls_mode service) eqn:Ht.
  - unfold handle_passthrough, connect_backend, write_backend_with_timeout.
    destruct (connect_answer env) as [[u|e]|]; cbn; [|intros [= <- <-]; set_solver..].
    destruct (proxy_header _ _); cbn; [|done].
    destruct (write_answer env) as [[u'|e]|]; cbn; intros [= <- <-]; set_solver.
  - unfold handle_terminate, handle_acme_tls_alpn_challenge, connect_backend, write_backend_with_timeout.
    destruct (if Hello.offers_alpn_protocol _ _ then _ else _).
    { destruct (handshake_answer env) as [[u|e]|]; cbn; intros [= <- <-]; set_solver. }
    destruct (default_server_configs tls !! _) eqn:Hc.
    2: { intros [= <- <-] Hin. cbn in Hin. assert (hostname = Hello.public_hostname (Tunnel.client_hello d)) as -> by set_solver. eauto. }
    destruct (handshake_answer env) as [[u|e]|]; cbn; [|intros [= <- <-]; set_solver..].
    destruct (connect_answer env) as [[u'|e]|]; cbn; [|intros [= <- <-]; set_solver..].
    destruct (proxy_header _ _) as [[b|]|]; cbn; [|intros [= <- <-]; set_solver|done].
    destruct (write_answer env) as [[u''|e]|]; cbn; intros [= <- <-]; set_solver.
Qed.

(** *** Bind addresses *)

Lemma first_duplicate_complete seen l : NoDup l → (∀ a, a ∈ l → a ∉ seen) → first_duplicate seen l = None.
Proof.
  revert seen. induction l as [|a l IH]; intros seen Hnd Hs; simpl; [done|]. apply NoDup_cons in Hnd as [Ha Hnd].
  rewrite bool_decide_eq_false_2 by (apply Hs; by left). apply IH; [done|]. intros b Hb.
  rewrite elem_of_app, list_elem_of_singleton. intros [?| ->]; [|done]. by apply (Hs b); [right|].
Qed.

Lemma validate_bind_addresses_complete field l : 1 ≤ len l ≤ 8 → NoDup l → validate_bind_addresses field l = Ok ().
Proof.
  intros Hl Hnd. unfold validate_bind_addresses. rewrite (proj2 (Z.leb_le 1 _)), (proj2 (Z.leb_le _ 8)) by lia. cbn.
  rewrite first_duplicate_complete; [done|done|by intros a _ ?%not_elem_of_nil].
Qed.

(** What a failure of the reservations says of the operating system. *)
Definition refused (env : BindEnv) (e : BindError) : Prop :=
  match e with
  | NoConfiguredTunnel | InvalidAddresses _ => False
  | PublicBindFailed a => public_bind env a = false
  | TunnelBindFailed a => tunnel_bind env a = false
  | ReadinessBindFailed => readiness_bind env = false
  | ReadinessListenFailed => readiness_listen env = false
  | EndpointFailed a => endpoint_new env a = false
  end.

Lemma reserve_refused env ok effect error l e :
  (∀ a, ok a = false → refused env (error a)) → snd (reserve ok effect error l) = Err e → refused env e.
Proof.
  intros Herr. induction l as [|a l IH]; [done|]. cbn. destruct (ok a) eqn:Ha; cbn; [exact IH|]. intros [= <-]. auto.
Qed.

Lemma start_endpoints_refused env probe l e :
  snd (start_endpoints (endpoint_new env) probe l) = Err e → refused env e.
Proof.
  induction l as [|a l IH]; [done|]. cbn. destruct (endpoint_new env a) eqn:Ha; cbn; [exact IH|].
  destruct probe; cbn; intros [= <-]; done.
Qed.

Lemma bind_then_err {A B} (m : binding A) (f : A → binding B) e :
  snd (bind_then m f) = Err e → snd m = Err e ∨ ∃ a, snd m = Ok a ∧ snd (f a) = Err e.
Proof. unfold bind_then. destruct (snd m) as [a|]; simpl; [right; eauto|intros [= ->]; by left]. Qed.

Lemma server_bind_refused env static count publics tunnels readiness ready e :
  static && (count =? 0) = false → validate_binds publics tunnels = Ok tt →
  snd (server_bind env static count publics tunnels readiness ready) = Err e → refused env e.
Proof.
  intros Hc Hv. unfold server_bind. rewrite Hc, Hv.
  intros [?|([] & _ & [?|([] & _ & [H|([] & _ & [H|([] & _ & [?|([] & _ & H)]%bind_then_err)]%bind_then_err)]%bind_then_err)]%bind_then_err)]%bind_then_err; try done.
  1, 2: by eapply reserve_refused; [|exact H].
  unfold bind_tail in H. apply bind_then_err in H as [H|(probe & _ & [H|([] & _ & H)]%bind_then_err)].
  - unfold bind_readiness in H. destruct readiness as [a|]; [|done].
    destruct (readiness_bind env) eqn:Hb; cbn in H; [|by injection H as <-].
    destruct (readiness_listen env) eqn:Hl; cbn in H; [by rewrite andb_false_r in H|].
    destruct ready; cbn in H; [by injection H as <-|done].
  - by eapply start_endpoints_refused.
  - destruct probe, ready; done.
Qed.

(** ** Properties *)

Section ClientStart.
Context (is_file is_dir : bytes → bool).
Context {M K C X : Type}.
Context (load_certificate_chain : bytes → result X M) (load_private_key : bytes → result X K).
Context (with_single_cert : M → K → result X C) (acme_configs : bytes → bytes → bytes → C * C).
Context (create_dir_all : bytes → bool).

(** C32: A Client that starts from a validated configuration can serve every hostname it accepts: no
    stream, whatever its bytes and whatever the network answers, makes the handler find the TLS
    configuration of a hostname missing. *)
Theorem prepared_client_terminates {A} `{Hello.TlsAcceptor A} p c limits prep :
  validate_prepared_client_config is_file is_dir p = Some (Ok c) →
  prepare_with_stream_limits load_certificate_chain load_private_key with_single_cert acme_configs create_dir_all c limits = Ok prep →
  prep_services prep = Config.services c ∧
  ∀ env stream, ∃ es r, handle (prep_services prep) (termination_tls_configs prep) env stream = Some (es, r) ∧
    ∀ hostname, Logs hostname MissingTlsConfig ∉ es.
Proof.
  intros [Hwf _]%client_accepted Hp. pose proof (wf_selectable _ _ _ Hwf) as Hsel.
  assert (client_services_wf c) as Hcs.
  { split; [done|]. intros s Hs Ht. destruct (wf_services _ _ _ Hwf) as [_ Hall]. rewrite Forall_forall in Hall.
    destruct (Hall s Hs) as (_ & Hh & _). split; [|auto]. apply (wf_public_cert _ _ _ Hwf), Exists_exists. exists s.
    unfold terminates. by rewrite Ht. }
  split.
  { unfold prepare_with_stream_limits in Hp. destruct (bool_decide _); cbn in Hp; [done|]. rewrite Hsel in Hp. cbn in Hp.
    destruct (prepare_default_client_acme_state_dir _ _); cbn in Hp; [|done].
    destruct (load_termination_tls_configs _ _ _ _ _) as [[configs managers]|]; cbn in Hp; [|done]. by injection Hp as <-. }
  intros env stream. destruct (client_handler_total (prep_services prep) (termination_tls_configs prep) env stream) as [[es r] Hh].
  exists es, r. split; [done|]. intros hostname Hin. destruct (handle_missing _ _ _ _ _ _ _ Hh Hin) as (s & Hs & Ht & Hnone).
  destruct (prepared_terminates _ _ _ _ c _ _ prep Hcs Hp hostname s Hs Ht) as [x Hx]. congruence.
Qed.
End ClientStart.

(** The ACME managers of a Client instance start at most once, however its methods are
    interleaved: each of the [n] managers has at most one task, none after a stop that came
    first, and once every call of [stop_acme] has returned and the drive is stopped, no task is
    left and none can start. *)
Theorem acme_managers_run_once n acts s :
  run_actions AcmeDrive.exec (AcmeDrive.instance_new n) acts = Some s →
  (AcmeDrive.spawned s = 0 ∨ AcmeDrive.spawned s = n)%nat ∧
  (∀ t, t ∈ AcmeDrive.alive s → (t < n)%nat) ∧
  (AcmeDrive.drive s = AcmeDrive.Stopped → AcmeDrive.exec s AcmeDrive.StartOnce = Steps s) ∧
  (AcmeDrive.drive s = AcmeDrive.Stopped → (∀ i l, AcmeDrive.stopping s !! i = Some l → l = []) → AcmeDrive.alive s = []).
Proof.
  intros Hr. assert (AcmeDrive.drive_inv n s) as [_ Hsp Hown Hb _].
  { eapply (run_actions_invariant AcmeDrive.exec (AcmeDrive.drive_inv n) acts (AcmeDrive.instance_new n) s); [|apply AcmeDrive.drive_inv_new|exact Hr].
    intros s0 a s1. apply AcmeDrive.drive_inv_step. }
  split_and!; [done|done| |].
  - intros Hd. simpl. by rewrite Hd.
  - intros Hd Hall. apply elem_of_nil_inv. intros t Ht. destruct (Hown t Ht) as [(l & ? & _)|(i & l & Hi & Hl)]; [congruence|].
    rewrite (Hall i l Hi) in Hl. by apply not_elem_of_nil in Hl.
Qed.

Section Attempt.
Context {M K X D R Q E : Type} `{QuicErrors E}.
Context (load_certificate_chain : bytes → result X M) (load_private_key : bytes → result X K).
Context (certificates : M → list D) (empty_roots : R) (add_root : R → D → result X R).
Context (make_client_tunnel_h3_config : R → M → K → result X Q) (quic_message material_message : X → bytes).

#[local] Notation load_roots := (load_root_store_with load_certificate_chain certificates empty_roots add_root).

(** The trust of a Client is exclusive: with a CA file the roots are the certificates of that
    file, each of them added in order, and the native store has no say in them; with system trust
    they are the native ones.  A store without certificates is an error, never an empty trust. *)
Theorem server_trust_exclusive trust native loaded :
  load_roots trust native = Ok loaded →
  ∃ certs, certs ≠ [] ∧ try_fold add_root empty_roots certs = Ok (roots loaded) ∧
  match trust with
  | System => certs = native.1 ∧ native_root_error_count loaded = native.2
  | CaFile path => (∃ chain, load_certificate_chain path = Ok chain ∧ certs = certificates chain) ∧ native_root_error_count loaded = 0 ∧
      ∀ other, load_roots trust other = Ok loaded
  end.
Proof.
  assert (∀ certs errors, build_root_store empty_roots add_root certs errors = Ok loaded →
    certs ≠ [] ∧ try_fold add_root empty_roots certs = Ok (roots loaded) ∧ native_root_error_count loaded = errors) as Hb.
  { intros certs errors. unfold build_root_store. destruct (try_fold add_root empty_roots certs) as [r|]; cbn; [|done].
    case_bool_decide; cbn; [done|]. by intros [= <-]. }
  unfold load_root_store_with. destruct trust as [|path].
  - intros (? & ? & ?)%Hb. exists native.1. done.
  - destruct (load_certificate_chain path) as [chain|] eqn:Hl; cbn; [|done]. intros Hr. pose proof (Hb _ _ Hr) as (? & ? & ?).
    exists (certificates chain). split_and!; [done|done|by eexists|done|]. done.
Qed.

(** An attempt is given up for good exactly when local material fails: the same attempt with a
    network that accepts would fail too.  Every failure of the network itself is retried. *)
Theorem attempt_fatal_iff_local c native (connect : Q → result (ClientConnectError (E := E)) unit) error context resolved :
  connect_with_generation load_certificate_chain load_private_key certificates empty_roots add_root make_client_tunnel_h3_config
    quic_message material_message c native connect = Err error →
  (∃ message, classify_connect_failure error context resolved = FatalLocalMaterial message) ↔
  ∀ connect' : Q → result (ClientConnectError (E := E)) unit,
    connect_with_generation load_certificate_chain load_private_key certificates empty_roots add_root make_client_tunnel_h3_config
      quic_message material_message c native connect' = Err error.
Proof.
  unfold connect_with_generation. destruct (load_roots _ native) as [loaded|e]; cbn.
  2: { intros [= <-]. split; [done|]. intros _. by eexists. }
  destruct (load_certificate_chain _) as [chain|e]; cbn; [|intros [= <-]; split; [done|]; intros _; by eexists].
  destruct (load_private_key _) as [key|e]; cbn; [|intros [= <-]; split; [done|]; intros _; by eexists].
  destruct (make_client_tunnel_h3_config _ chain key) as [quic|e]; cbn; [|intros [= <-]; split; [done|]; intros _; by eexists].
  destruct (connect quic) as [|e]; cbn; [done|]. intros [= <-]. split; [by intros [message ?]|].
  intros Hall. by specialize (Hall (λ _, Ok tt)).
Qed.
End Attempt.

Section ServerStart.
Context (is_file is_dir : bytes → bool) (canonicalize : bytes → option bytes).
Context (cert_error : bytes → bytes → bytes → bytes → option bytes) (read_identity : bytes → result bytes bytes).
Context {M K X Q T : Type}.
Context (load_certificate_chain : bytes → result X M) (load_private_key : bytes → result X K).
Context (make_server_tunnel_h3_config : M → K → result X Q) (make_server_tunnel_h3_config_with_resolver : T → result X Q).
Context (private_directory : bytes → result X unit) (public_policy : bytes → result X unit).
Context (controller_new : bytes → bytes → ServerAcmeOptions → result X (T * bool)).
Context (load_control_tls_material : bytes → Trust → bytes → result X unit).

#[local] Notation start := (prepare_server load_certificate_chain load_private_key make_server_tunnel_h3_config
  make_server_tunnel_h3_config_with_resolver private_directory public_policy controller_new).
#[local] Notation start_runtime := (prepare_runtime load_certificate_chain load_private_key make_server_tunnel_h3_config
  make_server_tunnel_h3_config_with_resolver private_directory public_policy controller_new load_control_tls_material).

(** What an error of the preparation says of the files, TLS or the operating system. *)
Definition environmental (env : BindEnv) (e : ServerStartupError (X := X)) : Prop :=
  match e with
  | NotAcme | BadAddresses _ | Authorization _ | PolicyHostname => False
  | StateDirectory path e => private_directory path = Err e
  | CertificateMaterial e => ∃ path, load_certificate_chain path = Err e
  | KeyMaterial e => ∃ path, load_private_key path = Err e
  | QuicConfig e => (∃ chain key, make_server_tunnel_h3_config chain key = Err e) ∨
                    (∃ resolver, make_server_tunnel_h3_config_with_resolver resolver = Err e)
  | AcmePolicy e => ∃ hostname, public_policy hostname = Err e
  | ControllerFailed e => ∃ directory email options, controller_new directory email options = Err e
  | BindProblem e => refused env e
  end.

Lemma prepare_certificate_environmental env c e :
  prepare_certificate load_certificate_chain load_private_key make_server_tunnel_h3_config
    make_server_tunnel_h3_config_with_resolver public_policy controller_new c None = Err e → environmental env e.
Proof.
  unfold prepare_certificate, acme_public. destruct (certificate c) as [directory|email state default].
  - destruct (load_certificate_chain _) as [chain|x] eqn:H1; cbn; [|intros [= <-]; simpl; eauto].
    destruct (load_private_key _) as [key|x] eqn:H2; cbn; [|intros [= <-]; simpl; eauto].
    destruct (make_server_tunnel_h3_config chain key) as [quic|x] eqn:H3; cbn; [done|intros [= <-]; simpl; eauto].
  - destruct (public_policy _) as [u|x] eqn:H1; cbn; [|intros [= <-]; simpl; eauto].
    rewrite bool_decide_eq_false_2 by (intros Hn; by apply Hn). cbn.
    destruct (controller_new _ _ _) as [[t served]|x] eqn:H2; cbn; [|intros [= <-]; simpl; eauto].
    destruct (make_server_tunnel_h3_config_with_resolver t) as [quic|x] eqn:H3; cbn; [done|intros [= <-]; simpl; eauto].
Qed.

Lemma prepare_certificate_acme c quic controller :
  prepare_certificate load_certificate_chain load_private_key make_server_tunnel_h3_config
    make_server_tunnel_h3_config_with_resolver public_policy controller_new c None = Ok (quic, controller) →
  is_Some controller ↔ ∃ email state default, certificate c = AcmeCert email state default.
Proof.
  unfold prepare_certificate, acme_public. destruct (certificate c) as [directory|email state default].
  - destruct (load_certificate_chain _); cbn; [|done]. destruct (load_private_key _); cbn; [|done].
    destruct (make_server_tunnel_h3_config _ _); cbn; [|done]. intros [= <- <-]. split; [by intros []|naive_solver].
  - destruct (public_policy _); cbn; [|done]. destruct (reject_if _ _); cbn; [|done].
    destruct (controller_new _ _ _); cbn; [|done]. destruct (make_server_tunnel_h3_config_with_resolver _); cbn; [|done].
    intros [= <- <-]. split; [eauto|done].
Qed.

Lemma prepare_authorization_ok c :
  server_config_wf is_file is_dir canonicalize cert_error read_identity c →
  ∃ a, prepare_authorization (X := X) c = Ok a ∧
    match admission c with
    | ManagedMode => a = empty_managed
    | StaticMode => tunnel_count a ≠ 0%nat ∧
        (∀ h i, tunnel_index_for_public_hostname a h = Some i ↔ lists_key Authorization.public_hostnames (tunnels c) h i) ∧
        (∀ id i, tunnel_index_for_client_identity a id = Some i ↔ lists_key authorized_client_identities (tunnels c) id i)
    end.
Proof.
  intros Hwf. pose proof (wf_admission _ _ _ _ _ _ Hwf) as Hadm. pose proof (static_snapshot _ _ _ _ _ c Hwf) as Hs.
  unfold prepare_authorization. destruct (admission c); [|by eexists]. destruct (Hs eq_refl) as (a & -> & Hn & H1 & H2).
  exists a. split_and!; [done| |done|done]. rewrite Hn. destruct Hadm as [Hne _]. by destruct (tunnels c).
Qed.

Lemma wf_server_prepared c env :
  server_config_wf is_file is_dir canonicalize cert_error read_identity c →
  match start c (public_bind_addresses c) (tunnel_connection_bind_addresses c) None env with
  | Ok server =>
      managed server = (match admission c with ManagedMode => true | StaticMode => false end) ∧
      (is_Some (acme_runtime server) ↔ ∃ email state default, certificate c = AcmeCert email state default) ∧
      match admission c with
      | ManagedMode => authorization server = empty_managed
      | StaticMode =>
          (∀ h i, tunnel_index_for_public_hostname (authorization server) h = Some i ↔ lists_key Authorization.public_hostnames (tunnels c) h i) ∧
          (∀ id i, tunnel_index_for_client_identity (authorization server) id = Some i ↔
                   lists_key authorized_client_identities (tunnels c) id i)
      end
  | Err e => environmental env e
  end.
Proof.
  intros Hwf. destruct (wf_public _ _ _ _ _ _ Hwf) as [Hp1 Hp2], (wf_tunnel _ _ _ _ _ _ Hwf) as [Ht1 Ht2].
  pose proof (validate_bind_addresses_complete (bs "server.public-bind-address") _ Hp1 Hp2) as Hp.
  pose proof (validate_bind_addresses_complete (bs "server.tunnel-bind-address") _ Ht1 Ht2) as Ht.
  unfold prepare_server, check_addresses. rewrite Hp. cbn -[prepare_certificate server_bind bs]. rewrite Ht.
  cbn -[prepare_certificate server_bind bs].
  destruct (prepare_default_server_acme_state_dir private_directory c) as [[]|e] eqn:Hd; cbn -[prepare_certificate server_bind bs].
  2: { unfold prepare_default_server_acme_state_dir in Hd. destruct (certificate c) as [|? path []]; [done| |done].
       destruct (private_directory path) eqn:Hpd; [done|]. cbn in Hd. by injection Hd as <-. }
  destruct (prepare_authorization_ok c Hwf) as (a & Ha & Hauth).
  rewrite Ha. cbn -[prepare_certificate server_bind bs].
  destruct (prepare_certificate _ _ _ _ _ _ c None) as [[quic controller]|e] eqn:Hc; cbn -[server_bind bs].
  2: { by eapply prepare_certificate_environmental. }
  destruct (snd (server_bind env _ _ _ _ _ _)) as [[]|e] eqn:Hb; cbn.
  - apply prepare_certificate_acme in Hc. rewrite fmap_is_Some. split_and!; [by destruct (admission c)|apply Hc..|].
    destruct (admission c); [apply Hauth|done].
  - eapply server_bind_refused; [| |exact Hb].
    + destruct (admission c); [|done]. cbn. apply Z.eqb_neq. destruct Hauth as [? _]. lia.
    + unfold validate_binds. rewrite Hp. cbn -[bs]. by rewrite Ht.
Qed.

(** The Server that validation accepted starts unless the machine refuses: from the addresses of
    the configuration, [ServerRuntime::prepare] never panics, and fails only where a file, TLS,
    the ACME controller or a socket fails, never on the configuration itself.  A static Server
    starts with the authorization of its Tunnels and no session; a managed one with a session
    and, until Control speaks, no authorization.  There is a certificate controller exactly for
    ACME. *)
Theorem accepted_server_starts venv config_dir level raw unknown ctl c env :
  validate_prepared_server_config is_file is_dir canonicalize cert_error read_identity
    (prepare_raw_server_config venv config_dir level raw unknown ctl) = Some (Ok c) →
  match start_runtime c (public_bind_addresses c) (tunnel_connection_bind_addresses c) None env with
  | None | Some (Err IdentityRequired) => False
  | Some (Err (ControlMaterial e)) => ∃ hostname trust directory, load_control_tls_material hostname trust directory = Err e
  | Some (Err (StartupProblem e)) => environmental env e
  | Some (Ok (mkServerRuntime server session)) =>
      (is_Some (acme_runtime server) ↔ ∃ email state default, certificate c = AcmeCert email state default) ∧
      match admission c with
      | ManagedMode => session = true ∧ managed server = true ∧ authorization server = empty_managed
      | StaticMode => session = false ∧ managed server = false ∧
          (∀ h i, tunnel_index_for_public_hostname (authorization server) h = Some i ↔ lists_key Authorization.public_hostnames (tunnels c) h i) ∧
          (∀ id i, tunnel_index_for_client_identity (authorization server) id = Some i ↔
                   lists_key authorized_client_identities (tunnels c) id i)
      end
  end.
Proof.
  intros (Hwf & _)%server_accepted. pose proof (wf_server_prepared c env Hwf) as Hstart.
  pose proof (wf_admission _ _ _ _ _ _ Hwf) as Hadm. unfold prepare_runtime.
  assert ((∃ e, prepare_session load_control_tls_material c = Err (ControlMaterial e) ∧
             ∃ hostname trust directory, load_control_tls_material hostname trust directory = Err e) ∨
          prepare_session load_control_tls_material c = Ok (match admission c with ManagedMode => true | StaticMode => false end)) as Hs.
  { unfold prepare_session. destruct (admission c); [destruct Hadm as (_ & _ & _ & -> & _); by right|].
    destruct Hadm as (_ & [k ->] & i & -> & _). cbn. destruct (load_control_tls_material _ _ _) eqn:Hl; cbn; [by right|left; eauto 6]. }
  destruct Hs as [(e & -> & He)| ->]; [exact He|].
  destruct (start c _ _ None env) as [server|e]; cbn; [|exact Hstart].
  destruct Hstart as (Hm & Hc & Ha). rewrite Hm. destruct (admission c); cbn; done.
Qed.
End ServerStart.

(** ** Examples *)

Module StartToy.
(** Material named by its path; TLS configurations are the pair of the paths. *)
Definition load (path : bytes) : result bytes bytes := Ok path.
Definition tls (chain key : bytes) : result bytes (bytes * bytes) := Ok (chain, key).
Definition acme (email state hostname : bytes) : (bytes * bytes) * (bytes * bytes) := ((email, hostname), (state, hostname)).
Definition raw_terminating : RawClientConfig :=
  mkRawClient None None (Some (bs "srv.example.com")) None (Some (bs "system")) None None None None
    [mkRawService (Some [bs "a.example.com"]) (Some (bs "127.0.0.1:80")) (Some (bs "terminate")) None].
Definition prepared := Toy.client raw_terminating Toy.no_control.
Definition config : ClientConfig := Toy.accepted Toy.no_client (Toy.validate_client prepared).
Definition limits : ClientStreamLimits := default_stream_limits 512.
Definition env : ClientStreams.Env := ClientStreams.mkEnv true (InTime (Ok tt)) (InTime (Ok tt)) (InTime (Ok tt)) (Ok tt).
Definition add_cert (roots : list bytes) (cert : bytes) : result bytes (list bytes) := Ok (roots ++ [cert]).
Definition quic (roots : list bytes) (chain key : bytes) : result bytes bytes := Ok chain.
Definition willing : BindEnv := mkBindEnv (λ _, true) (λ _, true) true true (λ _, true).
End StartToy.
Import ToyAcceptor QuicToy.

Lemma prepared_client_terminates_witness :
  ∃ prep, prepare_with_stream_limits StartToy.load StartToy.load StartToy.tls StartToy.acme Toy.yes StartToy.config StartToy.limits = Ok prep ∧
    (∃ service, select (prep_services prep) (bs "a.example.com") = Some service ∧ tls_mode service = Terminate) ∧
    ∃ es r, handle (prep_services prep) (termination_tls_configs prep) StartToy.env [] = Some (es, r).
Proof.
  assert (∃ prep, prepare_with_stream_limits StartToy.load StartToy.load StartToy.tls StartToy.acme Toy.yes StartToy.config StartToy.limits = Ok prep ∧
    ∃ service, select (prep_services prep) (bs "a.example.com") = Some service ∧ tls_mode service = Terminate) as (prep & Hp & Hs).
  { eexists. split; [vm_compute; reflexivity|]. eexists. split; vm_compute; reflexivity. }
  exists prep. split; [exact Hp|]. split; [exact Hs|].
  destruct (prepared_client_terminates Toy.yes Toy.yes StartToy.load StartToy.load StartToy.tls StartToy.acme Toy.yes
    StartToy.prepared StartToy.config StartToy.limits prep) as [_ H]; [vm_compute; reflexivity|exact Hp|].
  destruct (H StartToy.env []) as (es & r & Hh & _). exists es, r. exact Hh.
Defined.

Lemma acme_managers_run_once_witness :
  ∃ s, run_actions AcmeDrive.exec (AcmeDrive.instance_new 2)
    [AcmeDrive.StartOnce; AcmeDrive.StartOnce; AcmeDrive.StopCalls 0; AcmeDrive.StopAwaits 0; AcmeDrive.StopAwaits 0] = Some s ∧
    AcmeDrive.spawned s = 2%nat ∧ AcmeDrive.exec s AcmeDrive.StartOnce = Steps s.
Proof.
  assert (∃ s, run_actions AcmeDrive.exec (AcmeDrive.instance_new 2)
    [AcmeDrive.StartOnce; AcmeDrive.StartOnce; AcmeDrive.StopCalls 0; AcmeDrive.StopAwaits 0; AcmeDrive.StopAwaits 0] = Some s ∧
    AcmeDrive.spawned s = 2%nat ∧ AcmeDrive.drive s = AcmeDrive.Stopped) as (s & Hr & Hn & Hd).
  { eexists. split; [vm_compute; reflexivity|]. split; vm_compute; reflexivity. }
  exists s. split; [exact Hr|]. split; [exact Hn|].
  destruct (acme_managers_run_once 2 _ s Hr) as (_ & _ & H & _). exact (H Hd).
Defined.

Lemma server_trust_exclusive_witness :
  ∀ other, load_root_store_with StartToy.load (λ chain, [chain]) [] StartToy.add_cert (CaFile (bs "/ca")) other = Ok (mkLoadedRoots [bs "/ca"] 0).
Proof.
  destruct (server_trust_exclusive StartToy.load (λ chain, [chain]) [] StartToy.add_cert (CaFile (bs "/ca")) ([bs "native"], 0)
    (mkLoadedRoots [bs "/ca"] 0)) as (certs & _ & _ & _ & _ & H); [vm_compute; reflexivity|exact H].
Defined.

Lemma attempt_fatal_iff_local_witness :
  ¬ ∃ message, classify_connect_failure (E := QuicToy.error) (StartupConnect (TunnelFailed WrongGeneration))
      (mkAttemptContext Establishing InitialAttempt (bs "edge.test:443")) (bs "192.0.2.1") = FatalLocalMaterial message.
Proof.
  intros H.
  destruct (attempt_fatal_iff_local StartToy.load StartToy.load (λ chain, [chain]) [] StartToy.add_cert StartToy.quic id id
    StartToy.config ([bs "native"], 0) (λ _, Err (TunnelFailed WrongGeneration)) (StartupConnect (TunnelFailed WrongGeneration))
    (mkAttemptContext Establishing InitialAttempt (bs "edge.test:443")) (bs "192.0.2.1")) as [Hf _]; [vm_compute; reflexivity|].
  specialize (Hf H (λ _, Ok tt)). vm_compute in Hf. discriminate.
Defined.

Definition start_static : option (result (RuntimeProblem (X := bytes)) (ServerRuntime (Q := bytes * bytes) (T := unit))) :=
  prepare_runtime StartToy.load StartToy.load StartToy.tls (λ _ : unit, Ok ([], [])) (λ _, Ok tt) (λ _, Ok tt) (λ _ _ _, Ok (tt, true))
    (λ _ _ _, Ok tt) Toy.static_server (public_bind_addresses Toy.static_server) (tunnel_connection_bind_addresses Toy.static_server) None
    StartToy.willing.

Lemma accepted_server_starts_witness :
  ∃ r, start_static = Some (Ok r) ∧ runtime_session r = false ∧
    tunnel_index_for_public_hostname (authorization (prepared_server r)) (bs "a.example.com") = Some 0%nat.
Proof.
  pose proof (accepted_server_starts Toy.yes Toy.yes Some Toy.no_error Toy.read_identity StartToy.load StartToy.load StartToy.tls
    (λ _ : unit, Ok ([], [])) (λ _, Ok tt) (λ _, Ok tt) (λ _ _ _, Ok (tt, true)) (λ _ _ _, Ok tt) Toy.env (bs "/etc") LogInfo Toy.static_raw []
    Toy.no_control Toy.static_server StartToy.willing) as H.
  fold start_static in H. assert (∃ r, start_static = Some (Ok r)) as [r Hr] by (eexists; vm_compute; reflexivity).
  rewrite Hr in H. exists r. destruct r as [server session]. split; [exact Hr|].
  destruct H as [_ H]; [vm_compute; reflexivity|]. destruct H as (Hsession & _ & Hroute & _). split; [exact Hsession|].
  apply Hroute. exists (mkTunnel None [bs "a.example.com"] [replicate 32 (u8_of 10)]).
  split; [vm_compute; reflexivity|by left].
Defined.
