(* ===== verification/MaterialFiles.v ===== *)
(** * MaterialFiles: the commands that write certificates and identities

    [src/cert_file_ops.rs], the files of [src/server_cert.rs], [src/client_public_cert.rs],
    [src/identity.rs] and [src/server_identity.rs], and the commands
    [server cert], [client public-cert] and [client identity] of [src/commands].

    A file is its bytes and its mode; a path is a directory and a name in it.  Every operation
    can be refused, a write can be cut short, and the process can be killed before any of them:
    the [Trouble]s of a run decide.  What the system does after a power failure is not
    considered: the code does not sync these files.

    Key generation, X.509 and PEM are parameters. *)

From Stdlib Require Import String Ascii ZArith Lia.
From stdpp Require Import base strings numbers gmap list.
From S2P Require Import Prelude Text Names ConfigPrep.
Import Hostname Identity.

Open Scope Z_scope.

(** ** Files *)

Abbreviation path := (bytes * bytes)%type (only parsing).
Record File := mkFile { content : bytes; mode : Z }.
Record Fs := mkFs { files : gmap (bytes * bytes) File; directories : gmap bytes Z; umask : Z }.

Inductive FileError := Missing | FileExists | NotUtf8 | Denied | NoTemporary.
(** [Cut n] and [Killed n]: a write stops after [n] bytes. *)
Inductive Trouble := Smooth | Refused | Cut (n : nat) | Killed (n : nat).

Inductive ending (E A : Type) := Done (a : A) | Failed (e : E) | Dead.
Arguments Done {E A}.
Arguments Failed {E A}.
Arguments Dead {E A}.

(** A program on the files, under the troubles to come. *)
Definition act (E A : Type) : Type := Fs → list Trouble → ending E A * (Fs * list Trouble).

#[export] Instance act_ret {E} : MRet (act E) := λ A a fs ts, (Done a, (fs, ts)).
#[export] Instance act_bind {E} : MBind (act E) := λ A B f m fs ts,
  match m fs ts with
  | (Done a, (fs', ts')) => f a fs' ts'
  | (Failed e, w) => (Failed e, w)
  | (Dead, w) => (Dead, w)
  end.
Definition act_fail {E A} (e : E) : act E A := λ fs ts, (Failed e, (fs, ts)).
Definition act_lift {E A} (r : result E A) : act E A := match r with Ok a => mret a | Err e => act_fail e end.
(** [Result::map_err]. *)
Definition act_map_err {E F A} (f : E → F) (m : act E A) : act F A := λ fs ts,
  match m fs ts with
  | (Done a, w) => (Done a, w)
  | (Failed e, w) => (Failed (f e), w)
  | (Dead, w) => (Dead, w)
  end.
(** The caller looks at the result. *)
Definition act_try {E F A} (m : act E A) : act F (result E A) := λ fs ts,
  match m fs ts with
  | (Done a, w) => (Done (Ok a), w)
  | (Failed e, w) => (Done (Err e), w)
  | (Dead, w) => (Dead, w)
  end.
Fixpoint act_each {E A} (f : A → act E unit) (l : list A) : act E unit :=
  match l with [] => mret tt | a :: l' => _ ← f a; act_each f l' end.

(** One system call. *)
Definition call {A} (effect : Fs → result FileError (A * Fs)) : act FileError A := λ fs ts,
  match default Smooth (head ts) with
  | Refused | Cut _ => (Failed Denied, (fs, tail ts))
  | Killed _ => (Dead, (fs, tail ts))
  | Smooth => match effect fs with
              | Ok (a, fs') => (Done a, (fs', tail ts))
              | Err e => (Failed e, (fs, tail ts))
              end
  end.

Definition set_file (p : path) (f : File) (fs : Fs) : Fs := mkFs (<[p := f]> (files fs)) (directories fs) (umask fs).
Definition masked (fs : Fs) (m : Z) : Z := Z.land m (Z.lnot (umask fs)).

(** [fs::read] and [fs::read_to_string]. *)
Definition read_file (p : path) : act FileError bytes :=
  call (λ fs, f ← ok_or Missing (files fs !! p); Ok (content f, fs)).
Definition read_to_string (p : path) : act FileError bytes :=
  b ← read_file p; if utf8_valid b then mret b else act_fail NotUtf8.
(** [Path::exists]: an error counts as absence. *)
Definition path_exists {E} (p : path) : act E bool :=
  r ← act_try (call (λ fs, Ok (bool_decide (is_Some (files fs !! p)), fs)));
  mret (match r with Ok b => b | Err _ => false end).

(** ** [cert_file_ops.rs] *)

(** An existing directory keeps its mode. *)
Definition create_directory (d : bytes) (m : Z) : act FileError unit :=
  call (λ fs, Ok (tt, mkFs (files fs) (match directories fs !! d with
                                       | Some _ => directories fs
                                       | None => <[d := masked fs m]> (directories fs)
                                       end) (umask fs))).

Definition open_new_file_with_mode (p : path) (m : Z) : act FileError unit :=
  call (λ fs,
    _ ← reject_if (negb (bool_decide (is_Some (directories fs !! p.1)))) Missing;
    _ ← reject_if (bool_decide (is_Some (files fs !! p))) FileExists;
    Ok (tt, set_file p (mkFile [] (masked fs m)) fs)).

(** [write_all] to the file just opened. *)
Definition write_all (p : path) (b : bytes) : act FileError unit := λ fs ts,
  let put c := match files fs !! p with Some f => set_file p (mkFile c (mode f)) fs | None => fs end in
  match default Smooth (head ts) with
  | Smooth => (Done tt, (put b, tail ts))
  | Refused => (Failed Denied, (fs, tail ts))
  | Cut n => (Failed Denied, (put (take n b), tail ts))
  | Killed n => (Dead, (put (take n b), tail ts))
  end.

Definition write_new_file_with_mode (p : path) (b : bytes) (m : Z) : act FileError unit :=
  _ ← open_new_file_with_mode p m; write_all p b.

Definition remove_file (p : path) : act FileError unit :=
  call (λ fs, _ ← ok_or Missing (files fs !! p); Ok (tt, mkFs (delete p (files fs)) (directories fs) (umask fs))).
Definition rename_file (from to : path) : act FileError unit :=
  call (λ fs, f ← ok_or Missing (files fs !! from);
              Ok (tt, mkFs (<[to := f]> (delete from (files fs))) (directories fs) (umask fs))).

(** The temporary name of an attempt, for the process [pid]. *)
Definition temporary (pid : Z) (p : path) (attempt : Z) : bytes * bytes :=
  (p.1, bs "." ++ p.2 ++ bs ".runewarp-tmp-" ++ show_uint pid ++ bs "-" ++ show_uint attempt).

(** The loop from [attempt] on, with [n] attempts left. *)
Fixpoint replace_from (pid : Z) (p : path) (b : bytes) (m : Z) (n : nat) (attempt : Z) : act FileError unit :=
  match n with
  | O => act_fail NoTemporary
  | S n' =>
      let temporary_path := temporary pid p attempt in
      opened ← act_try (open_new_file_with_mode temporary_path m);
      match opened with
      | Err FileExists => replace_from pid p b m n' (attempt + 1)
      | Err e => act_fail e
      | Ok _ =>
          written ← act_try (write_all temporary_path b);
          match written with
          | Err e => _ ← act_try (E := FileError) (remove_file temporary_path); act_fail e
          | Ok _ =>
              renamed ← act_try (rename_file temporary_path p);
              match renamed with
              | Err e => _ ← act_try (E := FileError) (remove_file temporary_path); act_fail e
              | Ok _ => mret tt
              end
          end
      end
  end.
Definition REPLACE_ATTEMPTS : nat := 16.
Definition replace_file_atomically_with_mode (pid : Z) (p : path) (b : bytes) (m : Z) : act FileError unit :=
  replace_from pid p b m REPLACE_ATTEMPTS 0.

(** [str::trim]: the encodings of Unicode's white space, at either end. *)
Definition white_space : list bytes :=
  (List.map (λ z, [u8_of z]) [9; 10; 11; 12; 13; 32]) ++ (List.map (λ z, [u8_of 194; u8_of z]) [133; 160]) ++
  [[u8_of 225; u8_of 154; u8_of 128]] ++
  (List.map (λ z, [u8_of 226; u8_of 128; u8_of z]) [128; 129; 130; 131; 132; 133; 134; 135; 136; 137; 138; 168; 169; 175]) ++
  [[u8_of 226; u8_of 129; u8_of 159]; [u8_of 227; u8_of 128; u8_of 128]].
Fixpoint strip_one (patterns : list bytes) (s : bytes) : option bytes :=
  match patterns with
  | [] => None
  | p :: rest => if bool_decide (take (length p) s = p) then Some (drop (length p) s) else strip_one rest s
  end.
Fixpoint strip (patterns : list bytes) (fuel : nat) (s : bytes) : bytes :=
  match fuel with
  | O => s
  | S fuel' => match strip_one patterns s with Some s' => strip patterns fuel' s' | None => s end
  end.
Definition trim (s : bytes) : bytes :=
  let s := strip white_space (length s) s in
  rev (strip (List.map (@rev ascii) white_space) (length s) (rev s)).

(** The modes of directories and files. *)
Definition PUBLIC_DIR : Z := 493. (* 0o755 *)
Definition PRIVATE_DIR : Z := 448. (* 0o700 *)
Definition PUBLIC_FILE : Z := 420. (* 0o644 *)
Definition PRIVATE_FILE : Z := 384. (* 0o600 *)
Definition DEFAULT_FILE : Z := 438. (* 0o666, of [OpenOptions] *)

(** [ServerCertError] and [ClientPublicCertError]; [X] is [rcgen::Error]. *)
Inductive MaterialError (X : Type) :=
| CreateFailed (d : bytes) (e : FileError)
| ReadFailed (p : bytes * bytes) (e : FileError)
| WriteFailed (p : bytes * bytes) (e : FileError)
| GenerateFailed (e : X)
| ParseStateFailed (e : X).
Arguments CreateFailed {X}.
Arguments ReadFailed {X}.
Arguments WriteFailed {X}.
Arguments GenerateFailed {X}.
Arguments ParseStateFailed {X}.

Section Wrapped.
Context {X : Type} (pid : Z).
Definition create (d : bytes) (m : Z) : act (MaterialError X) unit := act_map_err (CreateFailed d) (create_directory d m).
Definition write_new (p : path) (b : bytes) (m : Z) : act (MaterialError X) unit :=
  act_map_err (WriteFailed p) (write_new_file_with_mode p b m).
Definition replace (p : path) (b : bytes) (m : Z) : act (MaterialError X) unit :=
  act_map_err (WriteFailed p) (replace_file_atomically_with_mode pid p b m).
Definition read_string (p : path) : act (MaterialError X) bytes := act_map_err (ReadFailed p) (read_to_string p).
Definition generated {A} (r : result X A) : act (MaterialError X) A := act_lift (map_err GenerateFailed r).
End Wrapped.

(** ** The Server's certificate: [server_cert.rs] *)

Definition STATE_DIR : bytes := bs "state".
Definition server_cert_path (d : bytes) : bytes * bytes := (d, bs "server.crt").
Definition server_key_path (d : bytes) : bytes * bytes := (d, bs "server.key").
Definition server_ca_path (d : bytes) : bytes * bytes := (d, bs "server-ca.crt").
Definition state_directory (d : bytes) : bytes := path_join d STATE_DIR.
Definition server_ca_key_path (d : bytes) : bytes * bytes := (state_directory d, bs "server-ca.key").
Definition server_hostname_path (d : bytes) : bytes * bytes := (state_directory d, bs "server-hostname.txt").

Record GeneratedServerCertMaterial := mkServerMaterial {
  server_cert_pem : bytes;
  server_key_pem : bytes;
  server_ca_pem : bytes;
  server_ca_key_pem : bytes
}.

Section ServerCert.
(** Issuers; the issuer of a stored CA key; and what the generators answer. *)
Context {X I : Type} (pid : Z) (issuer_of_key : bytes → result X I).
Context (generate_manual_server_cert_material : bytes → result X GeneratedServerCertMaterial).
Context (generate_server_leaf_cert_material : bytes → I → result X (bytes * bytes)).

Definition initialize_manual_server_certificate (directory hostname : bytes) : act (MaterialError X) unit :=
  let hostname := normalize_public_hostname hostname in
  _ ← create directory PUBLIC_DIR;
  _ ← create (path_join directory STATE_DIR) PRIVATE_DIR;
  _ ← create (state_directory directory) PRIVATE_DIR;
  g ← generated (generate_manual_server_cert_material hostname);
  _ ← write_new (server_cert_path directory) (server_cert_pem g) PUBLIC_FILE;
  _ ← write_new (server_key_path directory) (server_key_pem g) PRIVATE_FILE;
  _ ← write_new (server_ca_path directory) (server_ca_pem g) PUBLIC_FILE;
  _ ← write_new (server_ca_key_path directory) (server_ca_key_pem g) PRIVATE_FILE;
  write_new (server_hostname_path directory) hostname PUBLIC_FILE.

Definition load_stored_hostname (directory : bytes) : act (MaterialError X) bytes :=
  h ← read_string (server_hostname_path directory); mret (normalize_public_hostname (trim h)).

Definition load_manual_server_ca_issuer (directory : bytes) : act (MaterialError X) I :=
  pem ← read_string (server_ca_key_path directory); act_lift (map_err ParseStateFailed (issuer_of_key pem)).

Definition inspect_manual_server_certificate (directory : bytes) : act (MaterialError X) bytes :=
  _ ← read_string (server_cert_path directory);
  _ ← read_string (server_key_path directory);
  _ ← read_string (server_ca_path directory);
  _ ← read_string (server_ca_key_path directory);
  _ ← load_manual_server_ca_issuer directory;
  load_stored_hostname directory.

Definition renew_manual_server_certificate (directory : bytes) : act (MaterialError X) unit :=
  hostname ← load_stored_hostname directory;
  issuer ← load_manual_server_ca_issuer directory;
  '(cert, key) ← generated (generate_server_leaf_cert_material hostname issuer);
  _ ← replace pid (server_cert_path directory) cert PUBLIC_FILE;
  replace pid (server_key_path directory) key PRIVATE_FILE.

Definition rotate_manual_server_certificate_authority (directory hostname : bytes) : act (MaterialError X) unit :=
  let hostname := normalize_public_hostname hostname in
  g ← generated (generate_manual_server_cert_material hostname);
  _ ← replace pid (server_cert_path directory) (server_cert_pem g) PUBLIC_FILE;
  _ ← replace pid (server_key_path directory) (server_key_pem g) PRIVATE_FILE;
  _ ← replace pid (server_ca_path directory) (server_ca_pem g) PUBLIC_FILE;
  _ ← replace pid (server_ca_key_path directory) (server_ca_key_pem g) PRIVATE_FILE;
  replace pid (server_hostname_path directory) hostname PUBLIC_FILE.
End ServerCert.

(** ** Public certificates: [client_public_cert.rs] *)

Definition public_ca_path (d : bytes) : bytes * bytes := (d, bs "public-ca.crt").
Definition public_ca_key_path (d : bytes) : bytes * bytes := (path_join d STATE_DIR, bs "public-ca.key").
Definition public_leaf_dir (d hostname : bytes) : bytes := path_join d (normalize_public_hostname hostname).
Definition public_cert_path (d hostname : bytes) : bytes * bytes := (public_leaf_dir d hostname, bs "public.crt").
Definition public_key_path (d hostname : bytes) : bytes * bytes := (public_leaf_dir d hostname, bs "public.key").

Section PublicCert.
(** The issuer of a stored certificate and key; a new authority; a leaf. *)
Context {X I : Type} (pid : Z) (from_ca_cert_pem : bytes → bytes → result X I).
Context (new_authority : result X (bytes * bytes * I)) (new_leaf : I → bytes → result X (bytes * bytes)).

Definition generate_leaf_from_existing_ca (directory hostname : bytes) : act (MaterialError X) (bytes * bytes) :=
  ca_cert_pem ← read_string (public_ca_path directory);
  ca_key_pem ← read_string (public_ca_key_path directory);
  issuer ← generated (from_ca_cert_pem ca_cert_pem ca_key_pem);
  generated (new_leaf issuer hostname).

Definition initialize_manual_client_public_cert (directory hostname : bytes) : act (MaterialError X) unit :=
  let hostname := normalize_public_hostname hostname in
  _ ← create directory PUBLIC_DIR;
  _ ← create (path_join directory STATE_DIR) PRIVATE_DIR;
  _ ← create (public_leaf_dir directory hostname) PUBLIC_DIR;
  has_ca ← path_exists (public_ca_key_path directory);
  if (has_ca : bool) then
    '(cert, key) ← generate_leaf_from_existing_ca directory hostname;
    _ ← write_new (public_cert_path directory hostname) cert PUBLIC_FILE;
    write_new (public_key_path directory hostname) key PRIVATE_FILE
  else
    '(ca_pem, ca_key_pem, issuer) ← generated new_authority;
    '(cert, key) ← generated (new_leaf issuer hostname);
    _ ← write_new (public_ca_path directory) ca_pem PUBLIC_FILE;
    _ ← write_new (public_ca_key_path directory) ca_key_pem PRIVATE_FILE;
    _ ← write_new (public_cert_path directory hostname) cert PUBLIC_FILE;
    write_new (public_key_path directory hostname) key PRIVATE_FILE.

Definition renew_manual_client_public_cert (directory hostname : bytes) : act (MaterialError X) unit :=
  let hostname := normalize_public_hostname hostname in
  '(cert, key) ← generate_leaf_from_existing_ca directory hostname;
  _ ← replace pid (public_cert_path directory hostname) cert PUBLIC_FILE;
  replace pid (public_key_path directory hostname) key PRIVATE_FILE.

(** Every leaf is generated before the first write. *)
Definition rotated_leaf (issuer : I) (hostname : bytes) : result X (bytes * (bytes * bytes)) :=
  let hostname := normalize_public_hostname hostname in
  leaf ← new_leaf issuer hostname; Ok (hostname, leaf).
Definition write_rotated_leaf (directory : bytes) (leaf : bytes * (bytes * bytes)) : act (MaterialError X) unit :=
  let '(hostname, (cert, key)) := leaf in
  _ ← replace pid (public_cert_path directory hostname) cert PUBLIC_FILE;
  replace pid (public_key_path directory hostname) key PRIVATE_FILE.
Definition rotate_manual_client_public_cert_authority (directory : bytes) (hostnames : list bytes) :
    act (MaterialError X) unit :=
  '(ca_pem, ca_key_pem, issuer) ← generated new_authority;
  leaves ← generated (try_map (rotated_leaf issuer) hostnames);
  _ ← replace pid (public_ca_path directory) ca_pem PUBLIC_FILE;
  _ ← replace pid (public_ca_key_path directory) ca_key_pem PRIVATE_FILE;
  act_each (write_rotated_leaf directory) leaves.

(** *** The command's view of a hostname *)

Inductive ClientPublicCertInitState := ReadyToInitialize | AlreadyExists | Partial (existing : list (bytes * bytes)).

Definition both_exist {E} (p q : path) : act E bool :=
  has_p ← path_exists p; if (has_p : bool) then path_exists q else mret false.
Definition one_exists {E} (p q : path) : act E bool :=
  has_p ← path_exists p; has_q ← path_exists q; mret (xorb has_p has_q).
Fixpoint existing {E} (paths : list (bytes * bytes)) : act E (list (bytes * bytes)) :=
  match paths with
  | [] => mret []
  | p :: rest => has_p ← path_exists p; ps ← existing rest; mret (if (has_p : bool) then p :: ps else ps)
  end.

Definition inspect_client_public_cert_init_state {E} (directory hostname : bytes) : act E ClientPublicCertInitState :=
  let ca_cert := public_ca_path directory in
  let ca_key := public_ca_key_path directory in
  let leaf_cert := public_cert_path directory hostname in
  let leaf_key := public_key_path directory hostname in
  ca_complete ← both_exist ca_cert ca_key;
  ca_partial ← one_exists ca_cert ca_key;
  leaf_complete ← both_exist leaf_cert leaf_key;
  leaf_partial ← one_exists leaf_cert leaf_key;
  if negb ca_complete && negb leaf_complete && negb ca_partial && negb leaf_partial then mret ReadyToInitialize
  else if ca_complete && negb leaf_complete && negb leaf_partial then mret ReadyToInitialize
  else if ca_complete && leaf_complete then mret AlreadyExists
  else ps ← existing [ca_cert; ca_key; leaf_cert; leaf_key]; mret (Partial ps).
End PublicCert.

(** ** Identities: [identity.rs] and [server_identity.rs] *)

Inductive IdentityError (X : Type) :=
| IdentityReadFailed (p : bytes * bytes) (e : FileError)
| IdentityWriteFailed (p : bytes * bytes) (e : FileError)
| IdentityUnparsed (p : bytes * bytes)
| CertificateUnparsed (p : bytes * bytes)
| KeyUnparsed (e : X)
| IdentityGenerateFailed (e : X)
| IdentityMismatch (stored derived : bytes).
Arguments IdentityReadFailed {X}.
Arguments IdentityWriteFailed {X}.
Arguments IdentityUnparsed {X}.
Arguments CertificateUnparsed {X}.
Arguments KeyUnparsed {X}.
Arguments IdentityGenerateFailed {X}.
Arguments IdentityMismatch {X}.

(** The file names of an identity directory. *)
Record IdentityFiles := mkIdentityFiles { key_file : bytes; cert_file : bytes; identity_file : bytes }.
Definition client_identity_files : IdentityFiles := mkIdentityFiles (bs "client.key") (bs "client.crt") (bs "client-identity.txt").
Definition server_identity_files : IdentityFiles := mkIdentityFiles (bs "server.key") (bs "server.crt") (bs "server-identity.txt").

Record GeneratedClientIdentity := mkGeneratedIdentity { private_key_pem : bytes; certificate_pem : bytes; client_identity : bytes }.

Section IdentityMaterial.
(** [KeyPair::from_pem] with the public key info of the key, [CertificateDer::from_pem_slice],
    [parse_x509_certificate] with the remainder and the subject's public key info, SHA-256. *)
Context {X : Type} (pid : Z) (key_public_info : bytes → result X bytes) (first_certificate : bytes → option bytes).
Context (parse_x509 : bytes → option (bytes * bytes)) (sha256 : bytes → bytes).

(** [client_identity_from_certificate_der] and [server_identity_from_certificate_der]. *)
Definition identity_from_certificate_der (der : bytes) : option bytes :=
  '(remainder, info) ← parse_x509 der; if bool_decide (remainder = []) then Some (sha256 info) else None.

(** [load_client_identity_material] and [load_server_identity_material]; they differ in the file
    names and in the error for the text of the identity. *)
Definition load_identity_material (names : IdentityFiles) (unparsed : bytes * bytes → IdentityError X) (directory : bytes) :
    act (IdentityError X) bytes :=
  let key_path := (directory, key_file names) in
  let identity_path := (directory, identity_file names) in
  let certificate_path := (directory, cert_file names) in
  key_pem ← act_map_err (IdentityReadFailed key_path) (read_to_string key_path);
  info ← act_lift (map_err KeyUnparsed (key_public_info key_pem));
  let key_identity := sha256 info in
  text ← act_map_err (IdentityReadFailed identity_path) (read_to_string identity_path);
  stored ← act_lift (map_err (λ _, unparsed identity_path) (ClientIdentity_from_str (trim text)));
  _ ← act_lift (reject_if (bool_decide (stored ≠ key_identity)) (IdentityMismatch stored key_identity));
  certificate_pem ← act_map_err (IdentityReadFailed certificate_path) (read_file certificate_path);
  der ← act_lift (ok_or (CertificateUnparsed certificate_path) (first_certificate certificate_pem));
  certificate_identity ← act_lift (ok_or (CertificateUnparsed certificate_path) (identity_from_certificate_der der));
  _ ← act_lift (reject_if (bool_decide (stored ≠ certificate_identity)) (IdentityMismatch stored certificate_identity));
  mret stored.
Definition read_client_identity : bytes → act (IdentityError X) bytes := load_identity_material client_identity_files CertificateUnparsed.
Definition read_server_identity : bytes → act (IdentityError X) bytes := load_identity_material server_identity_files IdentityUnparsed.

(** What [generate_client_identity] answers. *)
Context (generate_client_identity : result X GeneratedClientIdentity).

Definition client_key_path (d : bytes) : bytes * bytes := (d, key_file client_identity_files).
Definition client_cert_path (d : bytes) : bytes * bytes := (d, cert_file client_identity_files).
Definition client_identity_path (d : bytes) : bytes * bytes := (d, identity_file client_identity_files).

Definition replace_identity (p : path) (b : bytes) (m : Z) : act (IdentityError X) unit :=
  act_map_err (IdentityWriteFailed p) (replace_file_atomically_with_mode pid p b m).

Definition rotate_client_identity (directory : bytes) : act (IdentityError X) bytes :=
  _ ← read_client_identity directory;
  g ← act_lift (map_err IdentityGenerateFailed generate_client_identity);
  _ ← replace_identity (client_key_path directory) (private_key_pem g) PRIVATE_FILE;
  _ ← replace_identity (client_cert_path directory) (certificate_pem g) PUBLIC_FILE;
  _ ← replace_identity (client_identity_path directory) (ClientIdentity_display (client_identity g)) PUBLIC_FILE;
  read_client_identity directory.

(** *** [client identity init]: [commands/client/identity.rs] *)

Inductive InitOutcome := IdentityExists (i : bytes) | IdentityInitialized (i : bytes).
Inductive InitError := Inconsistent (existing : list (bytes * bytes)) | InitIo (e : FileError) | InitGenerate (e : X).

(** [write_new_file]: the default mode. *)
Definition write_new_file (p : path) (b : bytes) : act InitError unit :=
  act_map_err InitIo (write_new_file_with_mode p b DEFAULT_FILE).
Definition existing_client_identity_paths {E} (directory : bytes) : act E (list (bytes * bytes)) :=
  existing [client_key_path directory; client_cert_path directory; client_identity_path directory].

Definition write_client_identity_artifacts (directory : bytes) : act InitError InitOutcome :=
  read ← act_try (read_client_identity directory);
  match read with
  | Ok existing_identity => mret (IdentityExists existing_identity)
  | Err _ =>
      paths ← existing_client_identity_paths directory;
      if negb (bool_decide (paths = [])) then act_fail (Inconsistent paths)
      else
        _ ← act_map_err InitIo (create_directory directory 511);
        g ← act_lift (map_err InitGenerate generate_client_identity);
        _ ← write_new_file (client_key_path directory) (private_key_pem g);
        _ ← write_new_file (client_cert_path directory) (certificate_pem g);
        _ ← write_new_file (client_identity_path directory) (ClientIdentity_display (client_identity g));
        mret (IdentityInitialized (client_identity g))
  end.
End IdentityMaterial.

(** ** The certificate commands: [commands/server/cert.rs] and [commands/client/public_cert.rs] *)

(** [already]: the material existed; the two times of the certificate. *)
Record Summary := mkSummary { already : bool; issued_at : Z; expires_at : Z }.

Inductive CommandError (X : Type) :=
| CommandMaterial (e : MaterialError X)
| OtherHostname (hostname : bytes)
| IncompleteMaterial (existing : list (bytes * bytes))
| WindowUnread (e : FileError)
| WindowInvalid.
Arguments CommandMaterial {X}.
Arguments OtherHostname {X}.
Arguments IncompleteMaterial {X}.
Arguments WindowUnread {X}.
Arguments WindowInvalid {X}.

Section Commands.
Context {X I : Type} (pid : Z).
(** The validity of the first certificate of a PEM file. *)
Context (validity : bytes → option (Z * Z)).

(** [read_certificate_window] *)
Definition read_certificate_window (p : path) : act (CommandError X) (Z * Z) :=
  pem ← act_map_err WindowUnread (read_file p); act_lift (ok_or WindowInvalid (validity pem)).
(** [print_server_certificate_summary] and [print_public_cert_timestamps] *)
Definition summarize (already : bool) (p : path) : act (CommandError X) Summary :=
  '(issued, expires) ← read_certificate_window p; mret (mkSummary already issued expires).

Section ServerCommands.
Context (issuer_of_key : bytes → result X I) (generate : bytes → result X GeneratedServerCertMaterial).
Context (generate_leaf : bytes → I → result X (bytes * bytes)).

Definition existing_server_cert_paths {E} (d : bytes) : act E (list (bytes * bytes)) :=
  existing [server_cert_path d; server_key_path d; server_ca_path d; server_ca_key_path d; server_hostname_path d].

Definition server_cert_init (directory hostname : bytes) : act (CommandError X) Summary :=
  inspected ← act_try (inspect_manual_server_certificate issuer_of_key directory);
  match inspected with
  | Ok existing_hostname =>
      if bool_decide (existing_hostname = hostname) then summarize true (server_cert_path directory)
      else act_fail (OtherHostname existing_hostname)
  | Err _ =>
      paths ← existing_server_cert_paths directory;
      if negb (bool_decide (paths = [])) then act_fail (IncompleteMaterial paths)
      else
        _ ← act_map_err CommandMaterial (initialize_manual_server_certificate generate directory hostname);
        summarize false (server_cert_path directory)
  end.

Definition server_cert_renew (directory : bytes) : act (CommandError X) Summary :=
  _ ← act_map_err CommandMaterial (renew_manual_server_certificate pid issuer_of_key generate_leaf directory);
  _ ← act_map_err CommandMaterial (inspect_manual_server_certificate issuer_of_key directory);
  summarize false (server_cert_path directory).

Definition server_cert_rotate_ca (directory hostname : bytes) : act (CommandError X) Summary :=
  _ ← act_map_err CommandMaterial (rotate_manual_server_certificate_authority pid generate directory hostname);
  summarize false (server_cert_path directory).
End ServerCommands.

Section PublicCommands.
(** Each generation of an authority or a leaf answers anew. *)
Context (from_ca_cert_pem : bytes → bytes → result X I) (new_authority : bytes → result X (bytes * bytes * I)).
Context (new_leaf : I → bytes → result X (bytes * bytes)).

(** The loop over the hostnames: the ones initialized and the ones that existed. *)
Fixpoint public_cert_init_each (directory : bytes) (hostnames initialized existed : list bytes) :
    act (CommandError X) (list bytes * list bytes) :=
  match hostnames with
  | [] => mret (initialized, existed)
  | hostname :: rest =>
      state ← inspect_client_public_cert_init_state directory hostname;
      match state with
      | ReadyToInitialize =>
          _ ← act_map_err CommandMaterial
                (initialize_manual_client_public_cert from_ca_cert_pem (new_authority hostname) new_leaf directory hostname);
          public_cert_init_each directory rest (initialized ++ [hostname]) existed
      | AlreadyExists => public_cert_init_each directory rest initialized (existed ++ [hostname])
      | Partial paths => act_fail (IncompleteMaterial paths)
      end
  end.

(** [hostnames[0]] panics on an empty list: [None]. *)
Definition public_cert_init (directory : bytes) (hostnames : list bytes) : act (CommandError X) (option (list bytes * list bytes)) :=
  '(initialized, existed) ← public_cert_init_each directory hostnames [] [];
  match head (initialized ++ hostnames) with
  | None => mret None
  | Some hostname =>
      _ ← summarize false (public_cert_path directory hostname); mret (Some (initialized, existed))
  end.

Definition public_cert_renew (directory : bytes) (hostnames : list bytes) : act (CommandError X) (option unit) :=
  _ ← act_each (λ hostname, act_map_err CommandMaterial
                 (renew_manual_client_public_cert pid from_ca_cert_pem new_leaf directory hostname)) hostnames;
  match head hostnames with
  | None => mret None
  | Some hostname => _ ← summarize false (public_cert_path directory hostname); mret (Some tt)
  end.

Definition public_cert_rotate_ca (authority : result X (bytes * bytes * I)) (directory : bytes) (hostnames : list bytes) :
    act (CommandError X) (option unit) :=
  _ ← act_map_err CommandMaterial
        (rotate_manual_client_public_cert_authority pid authority new_leaf directory hostnames);
  match head hostnames with
  | None => mret None
  | Some hostname => _ ← summarize false (public_cert_path directory hostname); mret (Some tt)
  end.
End PublicCommands.
End Commands.

(** The hostnames of a [client public-cert] command: the one given, or those of the selected
    configuration; [selected] is its terminating hostnames, if it has a Client section. *)
Inductive HostnamesError := NoSelectedConfig | NoClientSection | NoTerminatingHostnames.
Definition resolve_client_public_cert_hostnames_from_config_required (selected : option (option (list bytes))) :
    result HostnamesError (list bytes) :=
  section ← ok_or NoSelectedConfig selected;
  hostnames ← ok_or NoClientSection section;
  _ ← reject_if (bool_decide (hostnames = [])) NoTerminatingHostnames;
  Ok hostnames.
Definition resolve_client_public_cert_hostnames (selected : option (option (list bytes))) (hostname : option bytes) :
    result HostnamesError (list bytes) :=
  match hostname with
  | Some hostname => Ok [hostname]
  | None => resolve_client_public_cert_hostnames_from_config_required selected
  end.

(** [reject_managed_config_derived_identity_command]; [managed] is whether the selected
    configuration is Managed, or the error of finding out. *)
Inductive GuardError (E : Type) := ConfigUnreadable (e : E) | ManagedConfig.
Arguments ConfigUnreadable {E}.
Arguments ManagedConfig {E}.
Definition reject_managed_config_derived_identity_command {E} (managed : result E bool) (explicit_dir : bool) :
    result (GuardError E) unit :=
  if explicit_dir then Ok tt
  else managed ← map_err ConfigUnreadable managed; reject_if managed ManagedConfig.

(** ** Specifications of programs *)

(** Under every sequence of troubles: [Q] of a result, [F] of an error, [D] of a death. *)
Definition runs {E A} (m : act E A) (Q : A → Fs → Prop) (F : E → Fs → Prop) (D : Fs → Prop) (fs : Fs) : Prop :=
  ∀ ts, let '(o, (fs', _)) := m fs ts in match o with Done a => Q a fs' | Failed e => F e fs' | Dead => D fs' end.

Lemma runs_ret {E A} (a : A) Q (F : E → Fs → Prop) D fs : Q a fs → runs (mret a) Q F D fs.
Proof. intros HQ ts. exact HQ. Qed.
Lemma runs_fail {E A} (e : E) (Q : A → Fs → Prop) F D fs : F e fs → runs (act_fail e) Q F D fs.
Proof. intros HF ts. exact HF. Qed.
Lemma runs_lift {E A} (r : result E A) Q F D fs :
  (∀ a, r = Ok a → Q a fs) → (∀ e, r = Err e → F e fs) → runs (act_lift r) Q F D fs.
Proof. intros HQ HF. destruct r; [apply runs_ret|apply runs_fail]; auto. Qed.
Lemma runs_bind {E A B} (m : act E A) (f : A → act E B) Q F D fs :
  runs m (λ a fs', runs (f a) Q F D fs') F D fs → runs (m ≫= f) Q F D fs.
Proof.
  intros Hm ts. specialize (Hm ts). unfold mbind, act_bind.
  destruct (m fs ts) as [[a|e|] [fs' ts']]; [|done..]. apply Hm.
Qed.
Lemma runs_mono {E A} (m : act E A) (Q Q' : A → Fs → Prop) (F F' : E → Fs → Prop) (D D' : Fs → Prop) fs :
  runs m Q F D fs → (∀ a fs', Q a fs' → Q' a fs') → (∀ e fs', F e fs' → F' e fs') → (∀ fs', D fs' → D' fs') → runs m Q' F' D' fs.
Proof. intros Hm HQ HF HD ts. specialize (Hm ts). destruct (m fs ts) as [[a|e|] [fs' ts']]; auto. Qed.
Lemma runs_map_err {E E' A} (f : E → E') (m : act E A) Q F D fs :
  runs m Q (λ e, F (f e)) D fs → runs (act_map_err f m) Q F D fs.
Proof. intros Hm ts. specialize (Hm ts). unfold act_map_err. by destruct (m fs ts) as [[a|e|] [fs' ts']]. Qed.
Lemma runs_try {E E' A} (m : act E A) (Q : result E A → Fs → Prop) (F : E' → Fs → Prop) D fs :
  runs m (λ a, Q (Ok a)) (λ e, Q (Err e)) D fs → runs (act_try m) Q F D fs.
Proof. intros Hm ts. specialize (Hm ts). unfold act_try. by destruct (m fs ts) as [[a|e|] [fs' ts']]. Qed.
Lemma runs_each {E A} (f : A → act E unit) (l : list A) (J : Fs → Prop) (F : E → Fs → Prop) D fs :
  J fs → (∀ a fs', a ∈ l → J fs' → runs (f a) (λ _, J) F D fs') → runs (act_each f l) (λ _, J) F D fs.
Proof.
  revert fs. induction l as [|a l IH]; intros fs HJ Hf; [by apply runs_ret|]. apply runs_bind.
  eapply runs_mono; [apply Hf; [by left|done]| |done|done]. intros [] fs' HJ'. apply IH; [done|].
  intros b fs'' Hb. apply Hf. by right.
Qed.

Lemma runs_call {A} (effect : Fs → result FileError (A * Fs)) Q F D fs :
  F Denied fs → D fs → (∀ a fs', effect fs = Ok (a, fs') → Q a fs') → (∀ e, effect fs = Err e → F e fs) →
  runs (call effect) Q F D fs.
Proof.
  intros HF HD HQ HE ts. unfold call. destruct (default Smooth (head ts)); try done.
  destruct (effect fs) as [[a fs']|e]; auto.
Qed.

(** A program that leaves the files as they are. *)
Definition only_reads {E A} (m : act E A) : Prop := ∀ fs, runs m (λ _ fs', fs' = fs) (λ _ fs', fs' = fs) (λ fs', fs' = fs) fs.

Lemma runs_reads {E A} (m : act E A) (Q : A → Fs → Prop) (F : E → Fs → Prop) (D : Fs → Prop) fs :
  only_reads m → (∀ a, Q a fs) → (∀ e, F e fs) → D fs → runs m Q F D fs.
Proof. intros Hm HQ HF HD. eapply runs_mono; [apply Hm|..]; simpl; [intros a fs' ->..|intros fs' ->]; auto. Qed.

Lemma reads_only_ret {E A} (a : A) : only_reads (E := E) (mret a).
Proof. intros fs ts. done. Qed.
Lemma reads_only_fail {E A} (e : E) : only_reads (A := A) (act_fail e).
Proof. intros fs ts. done. Qed.
Lemma reads_only_lift {E A} (r : result E A) : only_reads (act_lift r).
Proof. destruct r; [apply reads_only_ret|apply reads_only_fail]. Qed.
Lemma reads_only_bind {E A B} (m : act E A) (f : A → act E B) : only_reads m → (∀ a, only_reads (f a)) → only_reads (m ≫= f).
Proof. intros Hm Hf fs. apply runs_bind. eapply runs_mono; [apply Hm|..]; try done. intros a fs' ->. apply Hf. Qed.
Lemma reads_only_map_err {E E' A} (f : E → E') (m : act E A) : only_reads m → only_reads (act_map_err f m).
Proof. intros Hm fs. apply runs_map_err, Hm. Qed.
Lemma reads_only_try {E E' A} (m : act E A) : only_reads m → only_reads (E := E') (act_try m).
Proof. intros Hm fs. apply runs_try, Hm. Qed.
Lemma reads_only_file p : only_reads (read_file p).
Proof. intros fs. apply runs_call; try done. intros a fs'. destruct (files fs !! p); [|done]. by intros [= _ <-]. Qed.
Lemma reads_only_exists {E} p : only_reads (E := E) (path_exists p).
Proof.
  apply reads_only_bind; [|intros a; apply reads_only_ret]. apply reads_only_try. intros fs. apply runs_call; try done.
  by intros a fs' [= _ <-].
Qed.

Create HintDb material.
#[export] Hint Resolve reads_only_ret reads_only_fail reads_only_lift reads_only_file reads_only_exists : material.
Ltac only_reading :=
  repeat first
    [ progress eauto with material
    | apply reads_only_bind; [|intros ?]
    | apply reads_only_map_err
    | apply reads_only_try
    | match goal with
      | |- only_reads (if ?b then _ else _) => destruct b
      | |- only_reads (let '_ := ?x in _) => destruct x
      | |- only_reads (match ?x with _ => _ end) => destruct x
      end ].

Lemma reads_only_string p : only_reads (read_to_string p).
Proof. unfold read_to_string. only_reading. Qed.
#[export] Hint Resolve reads_only_string : material.
Lemma reads_only_existing {E} ps : only_reads (E := E) (existing ps).
Proof. induction ps as [|p ps IH]; simpl; [apply reads_only_ret|]. only_reading. Qed.
#[export] Hint Resolve reads_only_existing : material.

(** *** Exact effects of the writes *)

Lemma runs_create_directory d m fs :
  runs (create_directory d m) (λ _ fs', files fs' = files fs ∧ umask fs' = umask fs ∧ is_Some (directories fs' !! d) ∧
                                        ∀ d', is_Some (directories fs !! d') → is_Some (directories fs' !! d'))
    (λ _ fs', fs' = fs) (λ fs', fs' = fs) fs.
Proof.
  apply runs_call; try done. intros [] fs' [= <-]. simpl. split_and!; try done.
  - destruct (directories fs !! d) eqn:E; [by rewrite E|by rewrite lookup_insert_eq].
  - intros d' Hd'. destruct (directories fs !! d) eqn:E; [done|]. destruct (decide (d = d')) as [->|];
      [by rewrite lookup_insert_eq|by rewrite lookup_insert_ne].
Qed.

Lemma set_file_twice p f g fs : set_file p f (set_file p g fs) = set_file p f fs.
Proof. unfold set_file. simpl. by rewrite insert_insert_eq. Qed.

(** [p] was absent and has been made with the content [c]. *)
Definition written (p : path) (m : Z) (c : bytes) (fs fs' : Fs) : Prop :=
  files fs !! p = None ∧ is_Some (directories fs !! p.1) ∧ fs' = set_file p (mkFile c (masked fs m)) fs.

Lemma runs_open_new p m fs :
  runs (open_new_file_with_mode p m) (λ _ fs', written p m [] fs fs')
    (λ e fs', fs' = fs ∧ (e = FileExists → is_Some (files fs !! p))) (λ fs', fs' = fs) fs.
Proof.
  apply runs_call; [done|done| |].
  - intros [] fs'. destruct (decide (is_Some (directories fs !! p.1))) as [Hd|Hd], (decide (is_Some (files fs !! p))) as [Hf|Hf];
      rewrite ?(bool_decide_eq_true_2 _ Hd), ?(bool_decide_eq_false_2 _ Hd), ?(bool_decide_eq_true_2 _ Hf), ?(bool_decide_eq_false_2 _ Hf);
      cbn; try done. intros [= <-]. split_and!; [by apply eq_None_not_Some|done|done].
  - intros e. destruct (decide (is_Some (directories fs !! p.1))) as [Hd|Hd], (decide (is_Some (files fs !! p))) as [Hf|Hf];
      rewrite ?(bool_decide_eq_true_2 _ Hd), ?(bool_decide_eq_false_2 _ Hd), ?(bool_decide_eq_true_2 _ Hf), ?(bool_decide_eq_false_2 _ Hf);
      cbn; try done; by intros [= <-].
Qed.

Lemma runs_write_all p b m fs0 fs :
  written p m [] fs0 fs →
  runs (write_all p b) (λ _ fs', written p m b fs0 fs') (λ _ fs', ∃ c, written p m c fs0 fs') (λ fs', ∃ c, written p m c fs0 fs') fs.
Proof.
  intros (Hn & Hd & ->) ts. unfold write_all. simpl. rewrite lookup_insert_eq. simpl.
  destruct (default Smooth (head ts)) as [| |n|n]; rewrite ?set_file_twice; [by split_and!|exists []|exists (take n b)..]; by split_and!.
Qed.

Lemma runs_write_new p b m fs :
  runs (write_new_file_with_mode p b m) (λ _ fs', written p m b fs fs')
    (λ _ fs', fs' = fs ∨ ∃ c, written p m c fs fs') (λ fs', fs' = fs ∨ ∃ c, written p m c fs fs') fs.
Proof.
  apply runs_bind. eapply runs_mono; [apply runs_open_new|..]; [|by intros e fs' [-> _]; left|by intros fs' ->; left].
  intros [] fs' Hw. eapply runs_mono; [by apply runs_write_all|..]; auto.
Qed.

Lemma temporary_other pid p a : temporary pid p a ≠ p.
Proof.
  intros H. apply (f_equal (λ q, length q.2)) in H. unfold temporary in H. cbn [fst snd] in H.
  rewrite !length_app in H. cbn [length bs String.list_ascii_of_string] in H. lia.
Qed.

(** What an unfinished replacement of [p] leaves: nothing, or a temporary file. *)
Definition unreplaced (pid : Z) (p : path) (m : Z) (fs fs' : Fs) : Prop :=
  fs' = fs ∨ ∃ a c, written (temporary pid p a) m c fs fs'.

Lemma runs_remove_temporary pid p a m c fs fs' :
  written (temporary pid p a) m c fs fs' →
  runs (remove_file (temporary pid p a)) (λ _, unreplaced pid p m fs) (λ _, unreplaced pid p m fs) (unreplaced pid p m fs) fs'.
Proof.
  intros Hw. assert (unreplaced pid p m fs fs') as Hu by (right; eauto).
  apply runs_call; try done. intros [] fs''. destruct Hw as (Hn & Hd & ->). simpl. rewrite lookup_insert_eq. cbn.
  intros [= <-]. left. destruct fs as [f d u]. simpl in *. by rewrite delete_insert_eq, delete_id.
Qed.

Lemma runs_give_up {A} pid p a m c fs fs' (e : FileError) (Q : A → Fs → Prop) :
  written (temporary pid p a) m c fs fs' →
  runs (_ ← act_try (E := FileError) (remove_file (temporary pid p a)); act_fail e) Q (λ _, unreplaced pid p m fs)
    (unreplaced pid p m fs) fs'.
Proof.
  intros Hw. apply runs_bind, runs_try. eapply runs_mono; [by eapply runs_remove_temporary|..]; [|intros e' fs'' ?|done];
    intros; by apply runs_fail.
Qed.

Lemma runs_replace_from pid p b m n a fs :
  runs (replace_from pid p b m n a) (λ _ fs', fs' = set_file p (mkFile b (masked fs m)) fs)
    (λ _, unreplaced pid p m fs) (unreplaced pid p m fs) fs.
Proof.
  revert a. induction n as [|n IH]; intros a; simpl; [apply runs_fail; by left|]. apply runs_bind, runs_try.
  eapply runs_mono; [apply runs_open_new|..]; cbn beta; [| |by intros fs' ->; left].
  2: { intros e fs' [-> _]. destruct e; [..|apply runs_fail; by left]; try (apply runs_fail; by left). apply IH. }
  intros [] fs1 Hw. apply runs_bind, runs_try. eapply runs_mono; [by apply runs_write_all|..]; cbn beta.
  - intros [] fs2 Hw2. apply runs_bind, runs_try. assert (unreplaced pid p m fs fs2) as Hu by (right; eauto).
    apply runs_call; [by eapply runs_give_up|done| |].
    + intros [] fs3. destruct Hw2 as (Hn & Hd & ->). simpl. rewrite lookup_insert_eq. cbn. intros [= <-]. apply runs_ret.
      destruct fs as [f d u]. unfold set_file. simpl in *. f_equal. by rewrite delete_insert_eq, delete_id.
    + intros e _. by eapply runs_give_up.
  - intros e fs2 [c Hw2]. by eapply runs_give_up.
  - intros fs2 [c Hw2]. right. eauto.
Qed.

Lemma runs_replace_file pid p b m fs :
  runs (replace_file_atomically_with_mode pid p b m) (λ _ fs', fs' = set_file p (mkFile b (masked fs m)) fs)
    (λ _, unreplaced pid p m fs) (unreplaced pid p m fs) fs.
Proof. apply runs_replace_from. Qed.

(** *** Which files a program may write *)

(** [q] is one of the listed files, or a temporary file of one, and [m] its mode. *)
Definition listed (pid : Z) (l : list (path * Z)) (q : path) (m : Z) : Prop :=
  ∃ p, (p, m) ∈ l ∧ (q = p ∨ ∃ a, q = temporary pid p a).

Definition within (pid : Z) (l : list (path * Z)) (fs fs' : Fs) : Prop :=
  umask fs' = umask fs ∧
  ∀ q, files fs' !! q = files fs !! q ∨ ∃ f m, files fs' !! q = Some f ∧ listed pid l q m ∧ mode f = masked fs m.
(** Nothing that was there has changed. *)
Definition grows (fs fs' : Fs) : Prop := ∀ q f, files fs !! q = Some f → files fs' !! q = Some f.

Lemma within_refl pid l fs : within pid l fs fs.
Proof. split; [done|]. intros q. by left. Qed.
Lemma within_set pid l fs0 fs p m c :
  listed pid l p m → within pid l fs0 fs → within pid l fs0 (set_file p (mkFile c (masked fs m)) fs).
Proof.
  intros Hl [Hu Hw]. split; [done|]. intros q. simpl. destruct (decide (p = q)) as [->|Hne].
  - right. exists (mkFile c (masked fs m)), m. rewrite lookup_insert_eq. split_and!; [done|done|]. simpl. unfold masked. by rewrite Hu.
  - rewrite lookup_insert_ne by done. apply Hw.
Qed.
Lemma within_files pid l fs0 fs fs' : files fs' = files fs → umask fs' = umask fs → within pid l fs0 fs → within pid l fs0 fs'.
Proof. intros Hf Hu [Hu0 Hw]. split; [congruence|]. by rewrite Hf. Qed.

Lemma runs_write_within pid l fs0 fs p b m :
  (p, m) ∈ l → within pid l fs0 fs ∧ grows fs0 fs →
  runs (write_new_file_with_mode p b m) (λ _ fs', within pid l fs0 fs' ∧ grows fs0 fs')
    (λ _ fs', within pid l fs0 fs' ∧ grows fs0 fs') (λ fs', within pid l fs0 fs' ∧ grows fs0 fs') fs.
Proof.
  intros Hl [Hw Hg]. assert (∀ c fs', written p m c fs fs' → within pid l fs0 fs' ∧ grows fs0 fs') as H.
  { intros c fs' (Hn & _ & ->). split; [apply within_set; [exists p; auto|done]|]. intros q f Hq. simpl.
    rewrite lookup_insert_ne; [auto|]. intros ->. by rewrite (Hg _ _ Hq) in Hn. }
  eapply runs_mono; [apply runs_write_new|..]; cbn beta; [eauto|..]; [intros _ fs' [->|[c ?]]|intros fs' [->|[c ?]]]; eauto.
Qed.
Lemma runs_replace_within pid l fs0 fs p b m :
  (p, m) ∈ l → within pid l fs0 fs →
  runs (replace_file_atomically_with_mode pid p b m) (λ _, within pid l fs0) (λ _, within pid l fs0) (within pid l fs0) fs.
Proof.
  intros Hl Hw. assert (∀ fs', unreplaced pid p m fs fs' → within pid l fs0 fs') as H.
  { intros fs' [->|(a & c & _ & _ & ->)]; [done|]. apply within_set; [|done]. exists p. eauto. }
  eapply runs_mono; [apply runs_replace_file|..]; cbn beta; [|auto..]. intros [] fs' ->. apply within_set; [exists p; auto|done].
Qed.
Lemma runs_create_within pid l fs0 fs d m :
  within pid l fs0 fs ∧ grows fs0 fs →
  runs (create_directory d m) (λ _ fs', within pid l fs0 fs' ∧ grows fs0 fs') (λ _ fs', within pid l fs0 fs' ∧ grows fs0 fs')
    (λ fs', within pid l fs0 fs' ∧ grows fs0 fs') fs.
Proof.
  intros [Hw Hg]. eapply runs_mono; [apply runs_create_directory|..]; cbn beta; [|by intros _ fs' ->|by intros fs' ->].
  intros [] fs' (Hf & Hu & _). split; [by eapply within_files|]. intros q f Hq. rewrite Hf. auto.
Qed.

Section Contained.
Context {X I J : Type} (pid : Z).
Context (issuer_of_key : bytes → result X I) (generate : bytes → result X GeneratedServerCertMaterial).
Context (generate_leaf : bytes → I → result X (bytes * bytes)).
Context (from_ca_cert_pem : bytes → bytes → result X J) (new_authority : result X (bytes * bytes * J)).
Context (new_leaf : J → bytes → result X (bytes * bytes)).

(** The programs that write certificates, and the files each of them writes with their modes. *)
Inductive MaterialProgram :=
| ServerInit (directory hostname : bytes)
| ServerRenew (directory : bytes)
| ServerRotate (directory hostname : bytes)
| PublicInit (directory hostname : bytes)
| PublicRenew (directory hostname : bytes)
| PublicRotate (directory : bytes) (hostnames : list bytes).

Definition run_program (p : MaterialProgram) : act (MaterialError X) unit :=
  match p with
  | ServerInit d h => initialize_manual_server_certificate generate d h
  | ServerRenew d => renew_manual_server_certificate pid issuer_of_key generate_leaf d
  | ServerRotate d h => rotate_manual_server_certificate_authority pid generate d h
  | PublicInit d h => initialize_manual_client_public_cert from_ca_cert_pem new_authority new_leaf d h
  | PublicRenew d h => renew_manual_client_public_cert pid from_ca_cert_pem new_leaf d h
  | PublicRotate d hs => rotate_manual_client_public_cert_authority pid new_authority new_leaf d hs
  end.

Definition leaf_files (d h : bytes) : list (path * Z) :=
  [(public_cert_path d h, PUBLIC_FILE); (public_key_path d h, PRIVATE_FILE)].
Definition public_ca_files (d : bytes) : list (path * Z) :=
  [(public_ca_path d, PUBLIC_FILE); (public_ca_key_path d, PRIVATE_FILE)].
Definition server_leaf_files (d : bytes) : list (path * Z) :=
  [(server_cert_path d, PUBLIC_FILE); (server_key_path d, PRIVATE_FILE)].
Definition server_files (d : bytes) : list (path * Z) :=
  server_leaf_files d ++ [(server_ca_path d, PUBLIC_FILE); (server_ca_key_path d, PRIVATE_FILE); (server_hostname_path d, PUBLIC_FILE)].
Definition program_files (p : MaterialProgram) : list (path * Z) :=
  match p with
  | ServerInit d _ | ServerRotate d _ => server_files d
  | ServerRenew d => server_leaf_files d
  | PublicInit d h => public_ca_files d ++ leaf_files d (normalize_public_hostname h)
  | PublicRenew d h => leaf_files d (normalize_public_hostname h)
  | PublicRotate d hs => public_ca_files d ++ flat_map (λ h, leaf_files d (normalize_public_hostname h)) hs
  end.
Definition is_init (p : MaterialProgram) : bool := match p with ServerInit _ _ | PublicInit _ _ => true | _ => false end.
(** Names of private keys. *)
Definition is_key (p : path) : bool := bool_decide (drop (length p.2 - 4) p.2 = bs ".key").

Definition contained (prog : MaterialProgram) (fs fs' : Fs) : Prop :=
  within pid (program_files prog) fs fs' ∧ (is_init prog = true → grows fs fs').

(** The steps of the programs. *)
Lemma contained_read {A} prog fs0 fs (m : act (MaterialError X) A) (f : A → act (MaterialError X) unit) :
  only_reads m → contained prog fs0 fs →
  (∀ a, runs (f a) (λ _, contained prog fs0) (λ _, contained prog fs0) (contained prog fs0) fs) →
  runs (m ≫= f) (λ _, contained prog fs0) (λ _, contained prog fs0) (contained prog fs0) fs.
Proof. intros Hm Hc Hf. apply runs_bind, runs_reads; auto. Qed.

Lemma contained_write prog fs0 fs p b m :
  contained prog fs0 fs → is_init prog = true → (p, m) ∈ program_files prog →
  runs (write_new (X := X) p b m) (λ _, contained prog fs0) (λ _, contained prog fs0) (contained prog fs0) fs.
Proof.
  intros [Hw Hg] Hi Hp. apply runs_map_err. eapply runs_mono; [apply (runs_write_within pid); [exact Hp|split; auto]|..];
    intros; unfold contained; naive_solver.
Qed.
Lemma contained_replace prog fs0 fs p b m :
  contained prog fs0 fs → is_init prog = false → (p, m) ∈ program_files prog →
  runs (replace (X := X) pid p b m) (λ _, contained prog fs0) (λ _, contained prog fs0) (contained prog fs0) fs.
Proof.
  intros [Hw Hg] Hi Hp. apply runs_map_err. eapply runs_mono; [apply (runs_replace_within pid); [exact Hp|exact Hw]|..];
    unfold contained; rewrite Hi; naive_solver.
Qed.
Lemma contained_create prog fs0 fs d m :
  contained prog fs0 fs → is_init prog = true →
  runs (create (X := X) d m) (λ _, contained prog fs0) (λ _, contained prog fs0) (contained prog fs0) fs.
Proof.
  intros [Hw Hg] Hi. apply runs_map_err. eapply runs_mono; [apply (runs_create_within pid); split; auto|..];
    unfold contained; naive_solver.
Qed.

Ltac contained_steps Hc :=
  repeat first
    [ apply contained_write; [exact Hc|done|cbn; set_solver]
    | apply contained_replace; [exact Hc|done|cbn; set_solver]
    | apply runs_bind; eapply runs_mono;
        [first [apply contained_create; [exact Hc|done] | apply contained_write; [exact Hc|done|cbn; set_solver]
               | apply contained_replace; [exact Hc|done|cbn; set_solver]]
        |clear Hc; intros [] ? Hc|done|done]
    | apply contained_read; [unfold generated; only_reading|exact Hc|intros ?]
    | match goal with
      | |- runs (let '_ := ?x in _) _ _ _ _ => destruct x
      | |- runs (if ?b then _ else _) _ _ _ _ => destruct b
      | |- runs (match ?x with _ => _ end) _ _ _ _ => destruct x
      end ].

Lemma program_contained prog fs0 fs :
  contained prog fs0 fs → runs (run_program prog) (λ _, contained prog fs0) (λ _, contained prog fs0) (contained prog fs0) fs.
Proof.
  intros Hc. destruct prog as [d h|d|d h|d h|d h|d hs]; cbn [run_program].
  - unfold initialize_manual_server_certificate. contained_steps Hc.
  - unfold renew_manual_server_certificate, load_stored_hostname, load_manual_server_ca_issuer, read_string. contained_steps Hc.
  - unfold rotate_manual_server_certificate_authority. contained_steps Hc.
  - unfold initialize_manual_client_public_cert, generate_leaf_from_existing_ca, read_string. contained_steps Hc.
  - unfold renew_manual_client_public_cert, generate_leaf_from_existing_ca, read_string. contained_steps Hc.
  - unfold rotate_manual_client_public_cert_authority. apply contained_read; [unfold generated; only_reading|done|intros [[ca key] issuer]].
    apply runs_bind, runs_lift; [|done]. intros leaves Hl.
    destruct (try_map (rotated_leaf new_leaf issuer) hs) as [ls|] eqn:E; [injection Hl as <-|done].
    contained_steps Hc. apply runs_each; [done|]. intros [h [cert leaf_key]] fs2 Hin Hc'.
    assert (∃ h0, h0 ∈ hs ∧ h = normalize_public_hostname h0) as (h0 & Hh0 & ->).
    { apply try_map_Ok_iff in E. apply list_elem_of_lookup in Hin as [i Hi]. destruct (Forall2_lookup_r _ _ _ _ _ E Hi) as (h0 & Hh0 & Hr).
      exists h0. split; [by eapply list_elem_of_lookup_2|]. unfold rotated_leaf in Hr. destruct (new_leaf issuer _); [|done].
      by injection Hr as <- _. }
    cbn [write_rotated_leaf]. contained_steps Hc'.
Qed.

Lemma program_private prog : Forall (λ x, is_key x.1 = true → x.2 = PRIVATE_FILE) (program_files prog).
Proof.
  assert (∀ d h, Forall (λ x, is_key x.1 = true → x.2 = PRIVATE_FILE) (leaf_files d h)) as Hleaf
    by (intros d h; repeat constructor; intros Hk; (reflexivity || discriminate Hk)).
  assert (∀ d, Forall (λ x, is_key x.1 = true → x.2 = PRIVATE_FILE) (public_ca_files d)) as Hca
    by (intros d; repeat constructor; intros Hk; (reflexivity || discriminate Hk)).
  assert (∀ d, Forall (λ x, is_key x.1 = true → x.2 = PRIVATE_FILE) (server_leaf_files d)) as Hsl
    by (intros d; repeat constructor; intros Hk; (reflexivity || discriminate Hk)).
  assert (∀ d, Forall (λ x, is_key x.1 = true → x.2 = PRIVATE_FILE) (server_files d)) as Hs.
  { intros d. apply Forall_app. split; [auto|]. repeat constructor; intros Hk; (reflexivity || discriminate Hk). }
  destruct prog; cbn [program_files]; auto; apply Forall_app; split; auto.
  induction hostnames; [constructor|]. apply Forall_app. auto.
Qed.

(** C34: The programs that write certificates touch only their own files.  Whatever is refused, cut
    short or killed, a file that changed is one of the program's, or a temporary file beside it,
    with the mode chosen for it; a private key, or a temporary file of one, is never readable
    by others; and an initialization changes no file that existed. *)
Theorem material_files_contained prog fs ts o fs' ts' :
  run_program prog fs ts = (o, (fs', ts')) →
  (is_init prog = true → grows fs fs') ∧
  ∀ q, files fs' !! q ≠ files fs !! q →
    ∃ p m f, (p, m) ∈ program_files prog ∧ (q = p ∨ ∃ a, q = temporary pid p a) ∧ files fs' !! q = Some f ∧
      mode f = masked fs m ∧ (is_key p = true → Z.land (mode f) 63 = 0).
Proof.
  intros E. assert (contained prog fs fs') as [Hw Hg].
  { pose proof (program_contained prog fs fs) as H. specialize (H (conj (within_refl _ _ _) (λ _ q f Hq, Hq)) ts).
    rewrite E in H. by destruct o. }
  split; [done|]. intros q Hq. destruct Hw as [_ Hw]. destruct (Hw q) as [?|(f & m & Hf & (p & Hp & Hqp) & Hm)]; [done|].
  exists p, m, f. split_and!; try done. intros Hk. pose proof (program_private prog) as Hpriv. rewrite Forall_forall in Hpriv.
  specialize (Hpriv _ Hp Hk). simpl in Hpriv. subst m. rewrite Hm. unfold masked.
  rewrite <- Z.land_assoc, (Z.land_comm _ 63), Z.land_assoc. done.
Qed.
End Contained.

(** ** Runs without trouble *)

Definition calm {E A} (m : act E A) (fs : Fs) (a : A) (fs' : Fs) : Prop := m fs [] = (Done a, (fs', [])).

Lemma calm_ret {E A} (a : A) fs : calm (E := E) (mret a) fs a fs.
Proof. done. Qed.
Lemma calm_bind {E A B} (m : act E A) (f : A → act E B) fs a fs' b fs'' :
  calm m fs a fs' → calm (f a) fs' b fs'' → calm (m ≫= f) fs b fs''.
Proof. unfold calm, mbind, act_bind. intros -> ->. done. Qed.
Lemma calm_map_err {E E' A} (f : E → E') (m : act E A) fs a fs' : calm m fs a fs' → calm (act_map_err f m) fs a fs'.
Proof. unfold calm, act_map_err. by intros ->. Qed.
Lemma calm_lift {E A} (r : result E A) fs a : r = Ok a → calm (act_lift r) fs a fs.
Proof. by intros ->. Qed.
Lemma calm_try {E E' A} (m : act E A) fs a fs' : calm m fs a fs' → calm (E := E') (act_try m) fs (Ok a) fs'.
Proof. unfold calm, act_try. by intros ->. Qed.
Lemma calm_try_failed {E E' A} (m : act E A) fs e fs' : m fs [] = (Failed e, (fs', [])) → calm (E := E') (act_try m) fs (Err e) fs'.
Proof. unfold calm, act_try. by intros ->. Qed.

Lemma calm_read_file p fs f : files fs !! p = Some f → calm (read_file p) fs (content f) fs.
Proof. unfold calm, read_file, call. simpl. by intros ->. Qed.
Lemma calm_read_to_string p fs f : files fs !! p = Some f → utf8_valid (content f) = true → calm (read_to_string p) fs (content f) fs.
Proof. intros Hf Hu. eapply calm_bind; [by apply calm_read_file|]. by rewrite Hu. Qed.
Lemma calm_exists {E} p fs : calm (E := E) (path_exists p) fs (bool_decide (is_Some (files fs !! p))) fs.
Proof. done. Qed.
Lemma calm_open_new p m fs :
  is_Some (directories fs !! p.1) → files fs !! p = None →
  calm (open_new_file_with_mode p m) fs tt (set_file p (mkFile [] (masked fs m)) fs).
Proof.
  intros Hd Hf. unfold calm, open_new_file_with_mode, call. simpl. rewrite (bool_decide_eq_true_2 _ Hd). simpl.
  rewrite Hf. by rewrite bool_decide_eq_false_2 by (by intros []).
Qed.
Lemma calm_write_new p b m fs :
  is_Some (directories fs !! p.1) → files fs !! p = None →
  calm (write_new_file_with_mode p b m) fs tt (set_file p (mkFile b (masked fs m)) fs).
Proof.
  intros Hd Hf. eapply calm_bind; [by apply calm_open_new|]. unfold calm, write_all. simpl. rewrite lookup_insert_eq. simpl.
  by rewrite set_file_twice.
Qed.
Lemma calm_create_directory d m fs :
  ∃ dirs, calm (create_directory d m) fs tt (mkFs (files fs) dirs (umask fs)) ∧ is_Some (dirs !! d) ∧
    ∀ d', is_Some (directories fs !! d') → is_Some (dirs !! d').
Proof.
  eexists. split; [reflexivity|]. split.
  - destruct (directories fs !! d) eqn:E; [by rewrite E|by rewrite lookup_insert_eq].
  - intros d' Hd'. destruct (directories fs !! d) eqn:E; [done|]. destruct (decide (d = d')) as [->|];
      [by rewrite lookup_insert_eq|by rewrite lookup_insert_ne].
Qed.

(** One of the temporary names is free for the process. *)
Definition has_temporary (pid : Z) (p : path) (fs : Fs) : Prop :=
  is_Some (directories fs !! p.1) ∧ ∃ k, (k < REPLACE_ATTEMPTS)%nat ∧ files fs !! temporary pid p (Z.of_nat k) = None.

Lemma calm_replace_from pid p b m n a k fs :
  is_Some (directories fs !! p.1) → (k < n)%nat → files fs !! temporary pid p (a + Z.of_nat k) = None →
  calm (replace_from pid p b m n a) fs tt (set_file p (mkFile b (masked fs m)) fs).
Proof.
  intros Hd. revert a k. induction n as [|n IH]; intros a k Hk Hf; [lia|]. simpl.
  destruct (files fs !! temporary pid p a) as [g|] eqn:Hg.
  - eapply calm_bind; [eapply calm_try_failed|].
    { unfold open_new_file_with_mode, call. simpl. rewrite (bool_decide_eq_true_2 _ Hd). simpl. rewrite Hg.
      rewrite bool_decide_eq_true_2 by done. reflexivity. }
    simpl. destruct k as [|k]; [by rewrite Z.add_0_r, Hg in Hf|]. apply (IH (a + 1) k); [lia|].
    by replace (a + 1 + Z.of_nat k) with (a + Z.of_nat (S k)) by lia.
  - eapply calm_bind; [eapply calm_try, calm_open_new; [exact Hd|exact Hg]|]. simpl.
    eapply calm_bind; [eapply calm_try; unfold calm, write_all; simpl; rewrite lookup_insert_eq; simpl; rewrite set_file_twice; reflexivity|].
    simpl. eapply calm_bind; [eapply calm_try; unfold calm, rename_file, call; simpl; rewrite lookup_insert_eq; reflexivity|].
    unfold calm, set_file. simpl. rewrite delete_insert_eq, delete_id by done. reflexivity.
Qed.
Lemma calm_replace pid p b m fs :
  has_temporary pid p fs → calm (replace_file_atomically_with_mode pid p b m) fs tt (set_file p (mkFile b (masked fs m)) fs).
Proof. intros (Hd & k & Hk & Hf). by apply (calm_replace_from _ _ _ _ _ _ k). Qed.

(** Names of material, which no temporary file has. *)
Definition material_name (p : path) : Prop := head p.2 ≠ Some "."%char.
Lemma temporary_not_material pid p a q : material_name q → temporary pid p a ≠ q.
Proof. intros Hq <-. by apply Hq. Qed.

Lemma has_temporary_set pid p q f fs : material_name q → has_temporary pid p fs → has_temporary pid p (set_file q f fs).
Proof.
  intros Hq (Hd & k & Hk & Hf). split; [done|]. exists k. split; [done|]. simpl.
  rewrite lookup_insert_ne; [done|]. intros E. by apply (temporary_not_material pid p (Z.of_nat k) q Hq).
Qed.
Lemma unreplaced_material pid p m fs fs' q : material_name q → unreplaced pid p m fs fs' → files fs' !! q = files fs !! q.
Proof.
  intros Hq [->|(a & c & _ & _ & ->)]; [done|]. simpl. rewrite lookup_insert_ne; [done|]. by apply temporary_not_material.
Qed.
Lemma unreplaced_frame pid p m fs fs' : unreplaced pid p m fs fs' → directories fs' = directories fs ∧ umask fs' = umask fs.
Proof. by intros [->|(a & c & _ & _ & ->)]. Qed.

(** *** White space *)

Definition graphic (b : u8) : bool := (33 <=? u8_val b) && (u8_val b <=? 126).
Lemma strip_one_graphic patterns b s :
  forallb (λ p, match p with [] => false | c :: _ => negb (graphic c) end) patterns = true →
  graphic b = true → strip_one patterns (b :: s) = None.
Proof.
  intros Hp Hb. induction patterns as [|p ps IH]; [done|]. simpl in Hp. apply andb_prop in Hp as [Hc Hps]. simpl.
  rewrite bool_decide_eq_false_2; [auto|]. destruct p as [|c p]; [done|]. simpl. intros [= -> _]. by rewrite Hb in Hc.
Qed.
Lemma trim_graphic s : Forall (λ b, graphic b = true) s → trim s = s.
Proof.
  intros Hs. assert (∀ ps l n, forallb (λ p, match p with [] => false | c :: _ => negb (graphic c) end) ps = true →
    Forall (λ b, graphic b = true) l → strip ps n l = l) as Hstrip.
  { intros ps l n Hps Hl. destruct n as [|n]; [done|]. simpl. destruct l as [|b l].
    - assert (∀ qs, forallb (λ p, match p with [] => false | c :: _ => negb (graphic c) end) qs = true → strip_one qs [] = None) as ->; [|done|done].
      clear. induction qs as [|q qs IH]; [done|]. simpl. intros [Hq Hqs]%andb_prop. destruct q; [done|]. rewrite bool_decide_eq_false_2 by done. auto.
    - apply Forall_cons in Hl as [Hb _]. by rewrite strip_one_graphic. }
  unfold trim. rewrite (Hstrip white_space s) by done. rewrite Hstrip; [apply rev_involutive|done|]. by apply Forall_rev.
Qed.

(** ** Renewing the Server's certificate *)

Section Renewal.
Context {X I : Type} (issuer_of_key : bytes → result X I).

(** The hostname and the issuer that a certificate directory stores. *)
Definition stores (d hostname : bytes) (issuer : I) (fs : Fs) : Prop :=
  ∃ h k, files fs !! server_hostname_path d = Some h ∧ utf8_valid (content h) = true ∧
    normalize_public_hostname (trim (content h)) = hostname ∧
    files fs !! server_ca_key_path d = Some k ∧ utf8_valid (content k) = true ∧ issuer_of_key (content k) = Ok issuer.

Lemma stores_files d hostname issuer fs fs' :
  files fs' !! server_hostname_path d = files fs !! server_hostname_path d →
  files fs' !! server_ca_key_path d = files fs !! server_ca_key_path d → stores d hostname issuer fs → stores d hostname issuer fs'.
Proof. intros Hh Hk (h & k & H). exists h, k. by rewrite Hh, Hk. Qed.

(** The leaf files: the old ones, the new certificate with the old key, or the new ones. *)
Definition leaf_states (d cert key : bytes) (fs fs' : Fs) : Prop :=
  let same p := files fs' !! p = files fs !! p in
  let new p b m := files fs' !! p = Some (mkFile b (masked fs m)) in
  (same (server_cert_path d) ∧ same (server_key_path d)) ∨
  (new (server_cert_path d) cert PUBLIC_FILE ∧ same (server_key_path d)) ∨
  (new (server_cert_path d) cert PUBLIC_FILE ∧ new (server_key_path d) key PRIVATE_FILE).

Lemma calm_stored_hostname d hostname issuer fs :
  stores d hostname issuer fs → calm (load_stored_hostname (X := X) d) fs hostname fs.
Proof.
  intros (h & k & Hh & Hu & <- & _). eapply calm_bind; [by apply calm_map_err, (calm_read_to_string _ _ h)|apply calm_ret].
Qed.
Lemma calm_stored_issuer d hostname issuer fs :
  stores d hostname issuer fs → calm (load_manual_server_ca_issuer issuer_of_key d) fs issuer fs.
Proof.
  intros (h & k & _ & _ & _ & Hk & Hu & Hi). eapply calm_bind; [by apply calm_map_err, (calm_read_to_string _ _ k)|].
  apply calm_lift. by rewrite Hi.
Qed.

(** Under troubles the two reads give what is stored, or nothing. *)
Lemma runs_read_to_string p fs f (Q : bytes → Fs → Prop) (F : FileError → Fs → Prop) (D : Fs → Prop) :
  files fs !! p = Some f → Q (content f) fs → (∀ e, F e fs) → D fs → runs (read_to_string p) Q F D fs.
Proof.
  intros Hf HQ HF HD. apply runs_bind. apply runs_call; [apply HF|exact HD| |by intros e; rewrite Hf].
  intros b fs'. rewrite Hf. cbn. intros [= <- <-]. destruct (utf8_valid (content f)); [by apply runs_ret|by apply runs_fail].
Qed.
Lemma runs_stored {A} d hostname issuer fs (f : bytes → I → act (MaterialError X) A) Q F (D : Fs → Prop) :
  stores d hostname issuer fs → runs (f hostname issuer) Q F D fs → (∀ e, F e fs) → D fs →
  runs (h ← load_stored_hostname d; i ← load_manual_server_ca_issuer issuer_of_key d; f h i) Q F D fs.
Proof.
  intros (h & k & Hh & Huh & <- & Hk & Huk & Hi) Hf HF HD. apply runs_bind, runs_bind, runs_map_err.
  eapply runs_read_to_string; [exact Hh| |auto..]. apply runs_ret, runs_bind, runs_bind, runs_map_err.
  eapply runs_read_to_string; [exact Hk| |auto..]. apply runs_lift; rewrite Hi; [by intros _ [= <-]|done].
Qed.

(** Everything else is as it was. *)
Definition leaf_frame (d : bytes) (fs fs' : Fs) : Prop :=
  directories fs' = directories fs ∧ umask fs' = umask fs ∧
  ∀ q, material_name q → q ≠ server_cert_path d → q ≠ server_key_path d → files fs' !! q = files fs !! q.

Lemma leaf_unreplaced pid p m d fs fs1 fs2 : leaf_frame d fs fs1 → unreplaced pid p m fs1 fs2 → leaf_frame d fs fs2.
Proof.
  intros (Hd & Hu & Hf) H. destruct (unreplaced_frame _ _ _ _ _ H) as [Hd2 Hu2].
  split_and!; [congruence..|]. intros q Hq ? ?. rewrite (unreplaced_material _ _ _ _ _ _ Hq H). auto.
Qed.

Lemma runs_renew pid generate_leaf d hostname issuer cert key fs :
  stores d hostname issuer fs → generate_leaf hostname issuer = Ok (cert, key) →
  runs (renew_manual_server_certificate pid issuer_of_key generate_leaf d)
    (λ _ fs', leaf_frame d fs fs' ∧ files fs' !! server_cert_path d = Some (mkFile cert (masked fs PUBLIC_FILE)) ∧
                files fs' !! server_key_path d = Some (mkFile key (masked fs PRIVATE_FILE)))
    (λ _ fs', leaf_frame d fs fs' ∧ leaf_states d cert key fs fs') (λ fs', leaf_frame d fs fs' ∧ leaf_states d cert key fs fs') fs.
Proof.
  intros Hs Hg. assert (leaf_frame d fs fs) as Hf0 by done.
  assert (∀ fs', unreplaced pid (server_cert_path d) PUBLIC_FILE fs fs' → leaf_frame d fs fs' ∧ leaf_states d cert key fs fs') as H1.
  { intros fs' Hu. split; [by eapply leaf_unreplaced|]. left. split; by eapply unreplaced_material. }
  eapply runs_stored; [exact Hs| |intros; apply H1; by left..]. apply runs_bind, runs_lift; rewrite Hg; [|done]. intros _ [= <-].
  apply runs_bind, runs_map_err. eapply runs_mono; [apply runs_replace_file|..]; cbn beta; [|auto..]. intros [] fs1 ->.
  set (fs1 := set_file _ _ _). assert (leaf_frame d fs fs1) as Hf1.
  { split_and!; [done..|]. intros q _ ? _. simpl. by rewrite lookup_insert_ne. }
  assert (∀ fs', unreplaced pid (server_key_path d) PRIVATE_FILE fs1 fs' → leaf_frame d fs fs' ∧ leaf_states d cert key fs fs') as H2.
  { intros fs' Hu. split; [by eapply leaf_unreplaced|]. right. left.
    split; (etrans; [eapply unreplaced_material; [|exact Hu]; done|]); simpl; [by rewrite lookup_insert_eq|by rewrite lookup_insert_ne]. }
  apply runs_map_err. eapply runs_mono; [apply runs_replace_file|..]; cbn beta; [|auto..]. intros [] fs2 ->. simpl.
  split; [|split; [by rewrite lookup_insert_ne, lookup_insert_eq|by rewrite lookup_insert_eq]].
  split; [done|]. split; [done|]. intros q _ ? ?. simpl. by rewrite !lookup_insert_ne.
Qed.

Lemma calm_renew pid generate_leaf d hostname issuer cert key fs :
  stores d hostname issuer fs → generate_leaf hostname issuer = Ok (cert, key) →
  has_temporary pid (server_cert_path d) fs → has_temporary pid (server_key_path d) fs →
  calm (renew_manual_server_certificate pid issuer_of_key generate_leaf d) fs tt
    (set_file (server_key_path d) (mkFile key (masked fs PRIVATE_FILE)) (set_file (server_cert_path d) (mkFile cert (masked fs PUBLIC_FILE)) fs)).
Proof.
  intros Hs Hg Hc Hk. eapply calm_bind; [by eapply calm_stored_hostname|]. eapply calm_bind; [by eapply calm_stored_issuer|].
  eapply calm_bind; [apply calm_lift; by rewrite Hg|]. eapply calm_bind; [by apply calm_map_err, calm_replace|].
  pose proof (has_temporary_set pid (server_key_path d) (server_cert_path d) (mkFile cert (masked fs PUBLIC_FILE)) fs ltac:(done) Hk) as Hk'.
  exact (calm_map_err _ _ _ _ _ (calm_replace pid (server_key_path d) key PRIVATE_FILE _ Hk')).
Qed.

(** Renewing the Server's certificate is safe to interrupt and to repeat.  Whatever goes wrong,
    the authority, the hostname and every other file are untouched, the leaf files are the old
    ones, the new ones, or the new certificate beside the old key, and the new ones if the
    renewal succeeded; and a further renewal by any process that finds a free temporary name
    succeeds and installs the pair it generated. *)
Theorem renewal_repeatable pid generate_leaf d hostname issuer cert key fs ts o fs' ts' :
  stores d hostname issuer fs → generate_leaf hostname issuer = Ok (cert, key) →
  renew_manual_server_certificate pid issuer_of_key generate_leaf d fs ts = (o, (fs', ts')) →
  leaf_frame d fs fs' ∧ stores d hostname issuer fs' ∧ leaf_states d cert key fs fs' ∧
  (o = Done tt → files fs' !! server_cert_path d = Some (mkFile cert (masked fs PUBLIC_FILE)) ∧
                 files fs' !! server_key_path d = Some (mkFile key (masked fs PRIVATE_FILE))) ∧
  ∀ pid' generate' cert' key',
    generate' hostname issuer = Ok (cert', key') →
    has_temporary pid' (server_cert_path d) fs' → has_temporary pid' (server_key_path d) fs' →
    ∃ fs'', renew_manual_server_certificate pid' issuer_of_key generate' d fs' [] = (Done tt, (fs'', [])) ∧
      files fs'' !! server_cert_path d = Some (mkFile cert' (masked fs PUBLIC_FILE)) ∧
      files fs'' !! server_key_path d = Some (mkFile key' (masked fs PRIVATE_FILE)).
Proof.
  intros Hs Hg E. pose proof (runs_renew pid generate_leaf d hostname issuer cert key fs Hs Hg ts) as H. rewrite E in H.
  assert (leaf_frame d fs fs' ∧ leaf_states d cert key fs fs') as [Hf Hl].
  { destruct o; [|done..]. destruct H as (? & ? & ?). split; [done|]. by right; right. }
  assert (stores d hostname issuer fs') as Hs'.
  { destruct Hf as (_ & _ & Hf). eapply stores_files; [..|exact Hs]; by apply Hf. }
  split_and!; [done..| |].
  - intros ->. by destruct H as (_ & ? & ?).
  - intros pid' generate' cert' key' Hg' Hc Hk. eexists. split; [by eapply calm_renew|]. simpl.
    destruct Hf as (_ & Hu & _). unfold masked. rewrite Hu. by rewrite lookup_insert_ne, !lookup_insert_eq.
Qed.
End Renewal.

(** ** Identities *)

Section IdentityStates.
Context {X : Type} (key_public_info : bytes → result X bytes) (first_certificate : bytes → option bytes).
Context (parse_x509 : bytes → option (bytes * bytes)) (sha256 : bytes → bytes).
#[local] Notation load := (load_identity_material key_public_info first_certificate parse_x509 sha256).
#[local] Notation read := (read_client_identity key_public_info first_certificate parse_x509 sha256).
#[local] Notation rotate pid g := (rotate_client_identity pid key_public_info first_certificate parse_x509 sha256 g).
#[local] Notation init g := (write_client_identity_artifacts key_public_info first_certificate parse_x509 sha256 g).

(** The identity of a key file, of an identity file and of a certificate file. *)
Definition key_identity (f : File) : option bytes :=
  if utf8_valid (content f) then match key_public_info (content f) with Ok info => Some (sha256 info) | Err _ => None end else None.
Definition text_identity (f : File) : option bytes :=
  if utf8_valid (content f) then match ClientIdentity_from_str (trim (content f)) with Ok i => Some i | Err _ => None end else None.
Definition certificate_identity (f : File) : option bytes :=
  der ← first_certificate (content f); identity_from_certificate_der parse_x509 sha256 der.

(** All three files have the identity [i]. *)
Definition holds_identity (names : IdentityFiles) (d i : bytes) (fs : Fs) : Prop :=
  (files fs !! (d, key_file names) ≫= key_identity) = Some i ∧
  (files fs !! (d, identity_file names) ≫= text_identity) = Some i ∧
  (files fs !! (d, cert_file names) ≫= certificate_identity) = Some i.

(** Loading returns [i] exactly when the key, the stored text and the certificate all have the
    identity [i]. *)
Lemma load_identity_spec names unparsed d fs i :
  load names unparsed d fs [] = (Done i, (fs, [])) ↔ holds_identity names d i fs.
Proof.
  unfold holds_identity, load_identity_material, read_to_string, read_file, call, act_map_err, mbind, act_bind, option_bind. simpl.
  destruct (files fs !! (d, key_file names)) as [k|]; simpl; [|split; [done|by intros (? & _)]].
  unfold key_identity. destruct (utf8_valid (content k)); simpl; [|split; [done|by intros (? & _)]].
  destruct (key_public_info (content k)) as [info|x]; simpl; [|split; [done|by intros (? & _)]].
  destruct (files fs !! (d, identity_file names)) as [t|]; simpl; [|split; [done|by intros (_ & ? & _)]].
  unfold text_identity. destruct (utf8_valid (content t)); simpl; [|split; [done|by intros (_ & ? & _)]].
  destruct (ClientIdentity_from_str (trim (content t))) as [j|x]; simpl; [|split; [done|by intros (_ & ? & _)]].
  case_bool_decide as Hj; simpl; [split; [done|intros (H1 & H2 & _); congruence]|]. subst j.
  destruct (files fs !! (d, cert_file names)) as [c|]; simpl; [|split; [done|by intros (_ & _ & ?)]].
  unfold certificate_identity, mbind, option_bind. destruct (first_certificate (content c)) as [der|]; simpl; [|split; [done|by intros (_ & _ & ?)]].
  destruct (identity_from_certificate_der parse_x509 sha256 der) as [e|]; simpl; [|split; [done|by intros (_ & _ & ?)]].
  case_bool_decide as He; simpl; [split; [done|intros (H1 & _ & H2); congruence]|]. subst e.
  split; [intros [= ->]; done|by intros ([= ->] & _)].
Qed.

Lemma load_mismatch names unparsed d fs stored derived :
  (files fs !! (d, key_file names) ≫= key_identity) = Some derived →
  (files fs !! (d, identity_file names) ≫= text_identity) = Some stored → stored ≠ derived →
  load names unparsed d fs [] = (Failed (IdentityMismatch stored derived), (fs, [])).
Proof.
  unfold load_identity_material, read_to_string, read_file, call, act_map_err, mbind, act_bind, option_bind. simpl.
  destruct (files fs !! (d, key_file names)) as [k|]; simpl; [|done]. unfold key_identity.
  destruct (utf8_valid (content k)); simpl; [|done]. destruct (key_public_info (content k)); simpl; [|done]. intros [= ->].
  destruct (files fs !! (d, identity_file names)) as [t|]; simpl; [|done]. unfold text_identity.
  destruct (utf8_valid (content t)); simpl; [|done]. destruct (ClientIdentity_from_str (trim (content t))); simpl; [|done].
  intros [= ->] Hne. rewrite bool_decide_eq_true_2 by done. done.
Qed.

(** A result under troubles is the result without them. *)
Definition honest {E A} (m : act E A) : Prop := ∀ fs ts a w, m fs ts = (Done a, w) → m fs [] = (Done a, (fs, [])) ∧ w.1 = fs.
Lemma honest_ret {E A} (a : A) : honest (E := E) (mret a).
Proof. intros fs ts b w [= <- <-]. done. Qed.
Lemma honest_fail {E A} (e : E) : honest (A := A) (act_fail e).
Proof. by intros fs ts b w. Qed.
Lemma honest_lift {E A} (r : result E A) : honest (act_lift r).
Proof. destruct r; [apply honest_ret|apply honest_fail]. Qed.
Lemma honest_bind {E A B} (m : act E A) (f : A → act E B) : honest m → (∀ a, honest (f a)) → honest (m ≫= f).
Proof.
  intros Hm Hf fs ts b w. unfold mbind, act_bind. destruct (m fs ts) as [[a|e|] [fs' ts']] eqn:E1; [|done..].
  apply Hm in E1 as [-> Hfs]. simpl in Hfs. subst fs'. intros H. by apply Hf in H.
Qed.
Lemma honest_map_err {E E' A} (f : E → E') (m : act E A) : honest m → honest (act_map_err f m).
Proof.
  intros Hm fs ts a w. unfold act_map_err. destruct (m fs ts) as [[b|e|] w'] eqn:E1; [|done..]. intros [= <- <-].
  by apply Hm in E1 as [-> ?].
Qed.
Lemma honest_read p : honest (read_file p).
Proof.
  intros fs ts a w. unfold read_file, call. simpl. destruct (default Smooth (head ts)); try done.
  destruct (files fs !! p); cbn; [|done]. by intros [= <- <-].
Qed.
Lemma honest_load names unparsed d : honest (load names unparsed d).
Proof.
  unfold load_identity_material, read_to_string.
  repeat first [apply honest_bind; [|intros ?] | apply honest_map_err | apply honest_read | apply honest_lift | apply honest_ret
               | match goal with |- honest (if ?b then _ else _) => destruct b end | apply honest_fail].
Qed.

Lemma display_graphic i : Forall (λ b, graphic b = true) (ClientIdentity_display i).
Proof.
  assert (∀ d, 0 ≤ d < 16 → graphic (hex_byte d) = true) as Hd.
  { intros d Hd. assert (Forall (λ d : Z, graphic (hex_byte d) = true) (seqZ 0 16)) as H by (repeat constructor).
    rewrite Forall_forall in H. apply H, elem_of_seqZ. lia. }
  induction i as [|b i IH]; [constructor|]. pose proof (u8_val_range b). repeat constructor; [..|exact IH]; apply Hd.
  - split; [apply Z.div_pos; lia|apply Z.div_lt_upper_bound; lia].
  - apply Z.mod_pos_bound. lia.
Qed.
Lemma text_of_display i m : identity_wf i → text_identity (mkFile (ClientIdentity_display i) m) = Some i.
Proof.
  intros Hi. unfold text_identity. simpl. rewrite utf8_valid_ascii, (trim_graphic _ (display_graphic i)).
  - by rewrite (proj2 (identity_from_str_iff _ i)).
  - eapply Forall_impl; [apply display_graphic|]. unfold graphic. cbn beta. intros b Hb%andb_prop. lia.
Qed.

(** What a generated identity promises: the key and the certificate have its identity. *)
Definition coherent (g : GeneratedClientIdentity) : Prop :=
  identity_wf (client_identity g) ∧
  ∀ m, key_identity (mkFile (private_key_pem g) m) = Some (client_identity g) ∧
       certificate_identity (mkFile (certificate_pem g) m) = Some (client_identity g).

(** The files of [d] when the key, the certificate and the text were replaced or not. *)
Definition rotated (d : bytes) (g : GeneratedClientIdentity) (key cert text : bool) (fs fs' : Fs) : Prop :=
  directories fs' = directories fs ∧ umask fs' = umask fs ∧
  files fs' !! client_key_path d =
    (if key then Some (mkFile (private_key_pem g) (masked fs PRIVATE_FILE)) else files fs !! client_key_path d) ∧
  files fs' !! client_cert_path d =
    (if cert then Some (mkFile (certificate_pem g) (masked fs PUBLIC_FILE)) else files fs !! client_cert_path d) ∧
  files fs' !! client_identity_path d =
    (if text then Some (mkFile (ClientIdentity_display (client_identity g)) (masked fs PUBLIC_FILE)) else files fs !! client_identity_path d).

Lemma rotated_refl d g fs : rotated d g false false false fs fs.
Proof. done. Qed.
Lemma rotated_unreplaced pid p m d g k c t fs fs1 fs2 :
  rotated d g k c t fs fs1 → unreplaced pid p m fs1 fs2 → rotated d g k c t fs fs2.
Proof.
  intros (Hd & Hu & Hk & Hc & Ht) H. destruct (unreplaced_frame _ _ _ _ _ H) as [Hd2 Hu2].
  split_and!; [congruence..| | |]; (etrans; [eapply unreplaced_material; [|exact H]; done|done]).
Qed.
Lemma rotated_key d g fs fs1 :
  rotated d g false false false fs fs1 → rotated d g true false false fs (set_file (client_key_path d) (mkFile (private_key_pem g) (masked fs1 PRIVATE_FILE)) fs1).
Proof.
  intros (Hd & Hu & Hk & Hc & Ht). unfold rotated, masked. simpl. rewrite Hu. split_and!; [done..| | |];
    [by rewrite lookup_insert_eq|by rewrite lookup_insert_ne..].
Qed.
Lemma rotated_cert d g fs fs1 :
  rotated d g true false false fs fs1 → rotated d g true true false fs (set_file (client_cert_path d) (mkFile (certificate_pem g) (masked fs1 PUBLIC_FILE)) fs1).
Proof.
  intros (Hd & Hu & Hk & Hc & Ht). unfold rotated, masked. simpl. rewrite Hu. split_and!; [done..| | |];
    [by rewrite lookup_insert_ne|by rewrite lookup_insert_eq|by rewrite lookup_insert_ne].
Qed.
Lemma rotated_text d g fs fs1 :
  rotated d g true true false fs fs1 →
  rotated d g true true true fs (set_file (client_identity_path d) (mkFile (ClientIdentity_display (client_identity g)) (masked fs1 PUBLIC_FILE)) fs1).
Proof.
  intros (Hd & Hu & Hk & Hc & Ht). unfold rotated, masked. simpl. rewrite Hu. split_and!; [done..| | |];
    [by rewrite lookup_insert_ne..|by rewrite lookup_insert_eq].
Qed.

(** Where a rotation may stop. *)
Definition rotation_states (d : bytes) (g : GeneratedClientIdentity) (fs fs' : Fs) : Prop :=
  rotated d g false false false fs fs' ∨ rotated d g true false false fs fs' ∨
  rotated d g true true false fs fs' ∨ rotated d g true true true fs fs'.

Lemma reads_only_load names unparsed d : only_reads (load names unparsed d).
Proof. unfold load_identity_material. only_reading. Qed.
Lemma runs_read_client d Q F (D : Fs → Prop) fs :
  (∀ i, holds_identity client_identity_files d i fs → Q i fs) → (∀ e, F e fs) → D fs → runs (read d) Q F D fs.
Proof.
  intros HQ HF HD ts. pose proof (reads_only_load client_identity_files CertificateUnparsed d fs ts) as Hr.
  destruct (read d fs ts) as [[i|e|] [fs' ts']] eqn:E; unfold read_client_identity in E; rewrite E in Hr; subst fs'; auto.
  apply HQ, load_identity_spec with (unparsed := CertificateUnparsed). by apply honest_load in E as [? _].
Qed.

Lemma runs_rotate pid g d fs :
  runs (rotate pid (Ok g) d) (λ i fs', rotated d g true true true fs fs' ∧ holds_identity client_identity_files d i fs')
    (λ _, rotation_states d g fs) (rotation_states d g fs) fs.
Proof.
  pose proof (rotated_refl d g fs) as H0. unfold rotation_states.
  apply runs_bind, runs_read_client; [|auto..]. intros _ _. apply runs_bind, runs_lift; [|done]. intros _ [= <-].
  apply runs_bind, runs_map_err. eapply runs_mono; [apply runs_replace_file|..]; cbn beta; [|eauto using rotated_unreplaced..].
  intros [] fs1 ->. pose proof (rotated_key d g fs fs H0) as H1. revert H1. generalize (set_file (client_key_path d) (mkFile (private_key_pem g) (masked fs PRIVATE_FILE)) fs). intros fs1 H1.
  apply runs_bind, runs_map_err. eapply runs_mono; [apply runs_replace_file|..]; cbn beta; [|eauto 6 using rotated_unreplaced..].
  intros [] fs2 ->. apply rotated_cert in H1 as H2. revert H2. generalize (set_file (client_cert_path d) (mkFile (certificate_pem g) (masked fs1 PUBLIC_FILE)) fs1). intros fs2 H2.
  apply runs_bind, runs_map_err. eapply runs_mono; [apply runs_replace_file|..]; cbn beta; [|eauto 6 using rotated_unreplaced..].
  intros [] fs3 ->. apply rotated_text in H2 as H3. apply runs_read_client; auto.
Qed.

Lemma rotated_holds d g fs fs' :
  coherent g → rotated d g true true true fs fs' → holds_identity client_identity_files d (client_identity g) fs'.
Proof.
  intros [Hw Hg] (_ & _ & Hk & Hc & Ht). unfold client_key_path, client_cert_path, client_identity_path in *.
  split_and!; [rewrite Hk|rewrite Ht|rewrite Hc]; simpl; [apply Hg|by apply text_of_display|apply Hg].
Qed.
Lemma unrotated_holds d g i fs fs' :
  rotated d g false false false fs fs' → holds_identity client_identity_files d i fs → holds_identity client_identity_files d i fs'.
Proof.
  intros (_ & _ & Hk & Hc & Ht). unfold holds_identity, client_key_path, client_cert_path, client_identity_path in *.
  by rewrite Hk, Hc, Ht.
Qed.
Lemma holds_unique names d i j fs : holds_identity names d i fs → holds_identity names d j fs → i = j.
Proof. intros (H & _) (H' & _). congruence. Qed.

(** No command accepts the directory any more. *)
Definition refused_by_all (d stored derived : bytes) (fs : Fs) : Prop :=
  let mismatch := Failed (IdentityMismatch stored derived) in
  read d fs [] = (mismatch, (fs, [])) ∧
  (∀ pid g, rotate pid g d fs [] = (mismatch, (fs, []))) ∧
  ∀ g, ∃ ps, init g d fs [] = (Failed (Inconsistent ps), (fs, [])).

Lemma mismatch_refused d fs stored derived :
  (files fs !! client_key_path d ≫= key_identity) = Some derived →
  (files fs !! client_identity_path d ≫= text_identity) = Some stored → stored ≠ derived → refused_by_all d stored derived fs.
Proof.
  intros Hk Ht Hne. pose proof (load_mismatch client_identity_files CertificateUnparsed d fs stored derived Hk Ht Hne) as Hl.
  split; [exact Hl|]. split.
  - intros pid g. unfold rotate_client_identity, mbind at 1, act_bind at 1. unfold read_client_identity. by rewrite Hl.
  - intros g. destruct (files fs !! client_key_path d) as [f|] eqn:Ef; [|done]. eexists.
    unfold write_client_identity_artifacts, mbind at 1, act_bind at 1, act_try, read_client_identity. rewrite Hl.
    unfold existing_client_identity_paths. simpl. unfold mbind, act_bind, path_exists, act_try, call. simpl. rewrite Ef. simpl. reflexivity.
Qed.

Lemma half_rotated_refused d g c old fs fs' :
  coherent g → old ≠ client_identity g → holds_identity client_identity_files d old fs →
  rotated d g true c false fs fs' → refused_by_all d old (client_identity g) fs'.
Proof.
  intros [_ Hg] Hne (_ & Ht & _) (_ & _ & Hk' & _ & Ht'). apply mismatch_refused; [|by rewrite Ht'|done].
  rewrite Hk'. apply Hg.
Qed.

Lemma calm_rotate pid g d old fs :
  coherent g → holds_identity client_identity_files d old fs →
  Forall (λ p, has_temporary pid p fs) [client_key_path d; client_cert_path d; client_identity_path d] →
  (rotate pid (Ok g) d fs []).1 = Done (client_identity g).
Proof.
  intros Hg Hh Ht. inversion_clear Ht as [|? ? T1 Ht']. inversion_clear Ht' as [|? ? T2 Ht]. inversion_clear Ht as [|? ? T3 _].
  pose proof (proj2 (load_identity_spec client_identity_files CertificateUnparsed d fs old) Hh) as H1.
  assert (∃ fs', calm (rotate pid (Ok g) d) fs (client_identity g) fs') as [fs' ->]; [|done]. eexists.
  eapply calm_bind; [exact H1|]. eapply calm_bind; [by apply calm_lift|].
  eapply calm_bind; [apply calm_map_err, calm_replace; exact T1|].
  eapply calm_bind; [apply calm_map_err, calm_replace; by apply has_temporary_set|].
  eapply calm_bind; [apply calm_map_err, calm_replace; apply has_temporary_set; [done|]; by apply has_temporary_set|].
  apply load_identity_spec. eapply rotated_holds; [exact Hg|]. by apply rotated_text, rotated_cert, rotated_key, rotated_refl.
Qed.

(** C33: A rotation of the Client's identity ends in one of three ways.  If it returns an identity, that
    is the generated one and the key, the certificate and the text all have it; undisturbed, and
    with a free temporary name for each file, it does.  If a call fails or the process dies, the
    directory still holds the old identity, or holds the new one, or has the new key beside the
    old text, and then reading, rotating and initialising all refuse it and leave it so. *)
Theorem identity_rotation_ends pid g d old fs ts o fs' ts' :
  coherent g → old ≠ client_identity g → holds_identity client_identity_files d old fs →
  rotate pid (Ok g) d fs ts = (o, (fs', ts')) →
  (∀ i, o = Done i → i = client_identity g ∧ holds_identity client_identity_files d i fs') ∧
  (holds_identity client_identity_files d old fs' ∨ holds_identity client_identity_files d (client_identity g) fs' ∨
   refused_by_all d old (client_identity g) fs') ∧
  (ts = [] → Forall (λ p, has_temporary pid p fs) [client_key_path d; client_cert_path d; client_identity_path d] →
   o = Done (client_identity g)).
Proof.
  intros Hg Hne Hh E. pose proof (runs_rotate pid g d fs ts) as H. rewrite E in H.
  assert (rotation_states d g fs fs') as Hs by (destruct o; [destruct H as [? _]; by right; right; right|done..]).
  split; [|split].
  - intros i ->. destruct H as [Hr Hi]. split; [|done]. eapply holds_unique; [exact Hi|]. by eapply rotated_holds.
  - destruct Hs as [Hs|[Hs|[Hs|Hs]]].
    + left. by eapply unrotated_holds.
    + right; right. by eapply half_rotated_refused.
    + right; right. by eapply half_rotated_refused.
    + right; left. by eapply rotated_holds.
  - intros -> Ht. pose proof (calm_rotate pid g d old fs Hg Hh Ht) as Hc. by rewrite E in Hc.
Qed.

(** *** Initialising *)

Lemma grows_trans fs0 fs1 fs2 : grows fs0 fs1 → grows fs1 fs2 → grows fs0 fs2.
Proof. unfold grows. auto. Qed.
Lemma written_grows p m c fs fs' : written p m c fs fs' → grows fs fs'.
Proof. intros (Hn & _ & ->) q f Hq. simpl. rewrite lookup_insert_ne; [done|]. intros ->. congruence. Qed.
Lemma runs_write_grows p b fs0 fs (Q : () → Fs → Prop) :
  grows fs0 fs → (∀ fs', written p DEFAULT_FILE b fs fs' → grows fs0 fs' → Q () fs') →
  runs (write_new_file (X := X) p b) Q (λ _, grows fs0) (grows fs0) fs.
Proof.
  intros Hg HQ. apply runs_map_err. eapply runs_mono; [apply runs_write_new|..]; cbn beta.
  - intros [] fs' Hw. apply HQ; [done|]. eauto using grows_trans, written_grows.
  - intros _ fs' [->|[c Hw]]; [done|]. eauto using grows_trans, written_grows.
  - intros fs' [->|[c Hw]]; [done|]. eauto using grows_trans, written_grows.
Qed.

(** Its files and their modes after [client identity init] made them. *)
Definition initialised (d : bytes) (g : GeneratedClientIdentity) (fs fs' : Fs) : Prop :=
  files fs' !! client_key_path d = Some (mkFile (private_key_pem g) (masked fs DEFAULT_FILE)) ∧
  files fs' !! client_cert_path d = Some (mkFile (certificate_pem g) (masked fs DEFAULT_FILE)) ∧
  files fs' !! client_identity_path d = Some (mkFile (ClientIdentity_display (client_identity g)) (masked fs DEFAULT_FILE)).

Lemma initialised_holds d g fs fs' :
  coherent g → initialised d g fs fs' → holds_identity client_identity_files d (client_identity g) fs'.
Proof.
  intros [Hw Hg] (Hk & Hc & Ht). unfold client_key_path, client_cert_path, client_identity_path in *.
  split_and!; [rewrite Hk|rewrite Ht|rewrite Hc]; simpl; [apply Hg|by apply text_of_display|apply Hg].
Qed.

Lemma runs_init g d fs :
  runs (init (Ok g) d)
    (λ r fs', grows fs fs' ∧ ((∃ i, r = IdentityExists i ∧ fs' = fs ∧ holds_identity client_identity_files d i fs) ∨
                              (r = IdentityInitialized (client_identity g) ∧ initialised d g fs fs')))
    (λ _, grows fs) (grows fs) fs.
Proof.
  assert (grows fs fs) as H0 by (by intros ?). apply runs_bind, runs_try, runs_read_client; [|intros _|exact H0].
  { intros i Hi. apply runs_ret. split; [done|]. left. eauto. }
  apply runs_bind, runs_reads; [apply reads_only_existing| |auto..]. intros ps. destruct (negb _); [by apply runs_fail|].
  apply runs_bind, runs_map_err. eapply runs_mono; [apply runs_create_directory|..]; cbn beta; [|by intros _ ? ->|by intros ? ->].
  intros [] fs1 (Hf1 & Hu1 & _). assert (grows fs fs1) as H1 by (intros q f; by rewrite Hf1).
  apply runs_bind, runs_lift; [|done]. intros _ [= <-].
  apply runs_bind, runs_write_grows; [done|]. intros fs2 (_ & _ & ->) H2. revert H2. set (fs2 := set_file _ _ fs1). intros H2.
  apply runs_bind, runs_write_grows; [done|]. intros fs3 (_ & _ & ->) H3. revert H3. set (fs3 := set_file _ _ fs2). intros H3.
  apply runs_bind, runs_write_grows; [done|]. intros fs4 (_ & _ & ->) H4. apply runs_ret. split; [done|]. right. split; [done|].
  subst fs3 fs2. unfold initialised, masked. simpl. rewrite Hu1.
  split_and!; [by rewrite 2!lookup_insert_ne, lookup_insert_eq|by rewrite lookup_insert_ne, lookup_insert_eq|by rewrite lookup_insert_eq].
Qed.

Lemma init_exists g d i fs :
  holds_identity client_identity_files d i fs → init g d fs [] = (Done (IdentityExists i), (fs, [])).
Proof.
  intros Hi. unfold write_client_identity_artifacts, mbind at 1, act_bind at 1, act_try, read_client_identity.
  by rewrite (proj2 (load_identity_spec client_identity_files CertificateUnparsed d fs i) Hi).
Qed.

Lemma calm_init g d fs :
  files fs !! client_key_path d = None → files fs !! client_cert_path d = None → files fs !! client_identity_path d = None →
  ∃ fs', calm (init (Ok g) d) fs (IdentityInitialized (client_identity g)) fs'.
Proof.
  intros Hk Hc Ht. destruct (calm_create_directory d 511 fs) as (dirs & Hcd & Hd & _). eexists.
  eapply calm_bind; [eapply calm_try_failed|].
  { unfold client_key_path in Hk. unfold read_client_identity, load_identity_material, read_to_string, read_file, call, act_map_err, mbind, act_bind. simpl.
    simpl in Hk. rewrite Hk. reflexivity. }
  cbn beta iota. eapply calm_bind; [unfold calm, existing_client_identity_paths; simpl; unfold mbind, act_bind, path_exists, act_try, call; simpl; rewrite Hk, Hc, Ht; reflexivity|].
  cbn beta iota. rewrite bool_decide_eq_true_2 by done. simpl. eapply calm_bind; [apply calm_map_err, Hcd|].
  eapply calm_bind; [apply calm_ret|].
  eapply calm_bind; [by apply calm_map_err, calm_write_new|].
  eapply calm_bind; [apply calm_map_err, calm_write_new; [done|]; simpl; by rewrite lookup_insert_ne|].
  eapply calm_bind; [apply calm_map_err, calm_write_new; [done|]; simpl; by rewrite !lookup_insert_ne|]. apply calm_ret.
Qed.

(** [client identity init] never changes a file that exists, whatever goes wrong, and what it
    reports is what is on disk: an existing identity it found in all three files, or the generated
    one in three new files with the default mode.  Repeating it reports that identity and changes
    nothing; in a directory with none of the files and no trouble it initialises. *)
Theorem identity_initialised_once g d fs ts o fs' ts' :
  coherent g → init (Ok g) d fs ts = (o, (fs', ts')) →
  grows fs fs' ∧
  (∀ r, o = Done r →
     ∃ i, (r = IdentityExists i ∧ fs' = fs ∨
           r = IdentityInitialized i ∧ i = client_identity g ∧
           files fs' !! client_key_path d = Some (mkFile (private_key_pem g) (masked fs DEFAULT_FILE))) ∧
          holds_identity client_identity_files d i fs' ∧
          (∀ g', init g' d fs' [] = (Done (IdentityExists i), (fs', [])))) ∧
  (ts = [] → files fs !! client_key_path d = None → files fs !! client_cert_path d = None → files fs !! client_identity_path d = None →
   o = Done (IdentityInitialized (client_identity g))).
Proof.
  intros Hg E. pose proof (runs_init g d fs ts) as H. rewrite E in H. split; [by destruct o; [destruct H|..]|]. split.
  - intros r ->. destruct H as [_ [(i & -> & -> & Hi)|[-> Hi]]].
    + exists i. split; [by left|]. split; [done|]. intros g'. by apply init_exists.
    + pose proof (initialised_holds d g fs fs' Hg Hi) as Hh. exists (client_identity g). destruct Hi as (Hk & _).
      split; [by right|]. split; [done|]. intros g'. by apply init_exists.
  - intros -> Hk Hc Ht. destruct (calm_init g d fs Hk Hc Ht) as [fs1 H1]. unfold calm in H1. congruence.
Qed.
End IdentityStates.

(** ** Initialising the Server's certificate *)

Lemma canonical_graphic n : canonical_hostname n → Forall (λ b, graphic b = true) n.
Proof.
  intros Hn. eapply Forall_impl; [by apply canonical_hostname_bytes|]. intros b [Hb| ->]; [|done].
  assert (implb (hostname_byte b) (graphic b) = true) as H by (clear; revert b; apply all_bytes; by vm_compute).
  by rewrite Hb in H.
Qed.
Lemma canonical_utf8 n : canonical_hostname n → utf8_valid n = true.
Proof.
  intros Hn. apply utf8_valid_ascii. eapply Forall_impl; [by apply canonical_graphic|]. unfold graphic. cbn beta.
  intros b Hb%andb_prop. lia.
Qed.

Section ServerInit.
Context {X I : Type} (validity : bytes → option (Z * Z)) (issuer_of_key : bytes → result X I).
Context (generate : bytes → result X GeneratedServerCertMaterial).
#[local] Notation init := (server_cert_init validity issuer_of_key generate).

(** What the generator promises of the material of a hostname. *)
Definition usable_material (g : GeneratedServerCertMaterial) (issuer : I) (window : Z * Z) : Prop :=
  forallb utf8_valid [server_cert_pem g; server_key_pem g; server_ca_pem g; server_ca_key_pem g] = true ∧
  issuer_of_key (server_ca_key_pem g) = Ok issuer ∧ validity (server_cert_pem g) = Some window.

Definition server_paths (d : bytes) : list (bytes * bytes) :=
  [server_cert_path d; server_key_path d; server_ca_path d; server_ca_key_path d; server_hostname_path d].

(** The five files of initialized material. *)
Definition server_material (d n : bytes) (g : GeneratedServerCertMaterial) (fs : Fs) : Prop :=
  (λ p, content <$> files fs !! p) <$> server_paths d =
  [Some (server_cert_pem g); Some (server_key_pem g); Some (server_ca_pem g); Some (server_ca_key_pem g); Some n].

Lemma calm_read_content p b fs :
  (content <$> files fs !! p) = Some b → utf8_valid b = true → calm (read_string (X := X) p) fs b fs.
Proof.
  destruct (files fs !! p) as [f|] eqn:E; [|done]. intros [= <-] Hu. by apply calm_map_err, calm_read_to_string.
Qed.

Lemma calm_inspect d n g issuer window fs :
  usable_material g issuer window → canonical_hostname n → server_material d n g fs →
  calm (inspect_manual_server_certificate issuer_of_key d) fs n fs.
Proof.
  intros (Hu & Hi & _) Hn [= H1 H2 H3 H4 H5]. simpl in Hu. rewrite !andb_true_iff in Hu. destruct Hu as (U1 & U2 & U3 & U4 & _).
  do 4 (eapply calm_bind; [by eapply calm_read_content|]).
  eapply calm_bind; [eapply calm_bind; [by eapply calm_read_content|apply calm_lift; by rewrite Hi]|].
  eapply calm_bind; [eapply calm_read_content; [done|by apply canonical_utf8]|].
  rewrite trim_graphic by (by apply canonical_graphic). rewrite normalize_canonical by done. apply calm_ret.
Qed.

Lemma calm_summarize already p b window fs :
  (content <$> files fs !! p) = Some b → validity b = Some window →
  calm (summarize (X := X) validity already p) fs (mkSummary already window.1 window.2) fs.
Proof.
  destruct (files fs !! p) as [f|] eqn:E; [|done]. intros [= <-] Hv.
  eapply calm_bind; [eapply calm_bind; [by apply calm_map_err, calm_read_file|apply calm_lift; by rewrite Hv]|].
  destruct window. apply calm_ret.
Qed.

Lemma calm_initialize d h n g fs :
  validate_public_hostname h = Ok n → generate n = Ok g → Forall (λ p, files fs !! p = None) (server_paths d) →
  ∃ fs', calm (initialize_manual_server_certificate generate d h) fs tt fs' ∧ server_material d n g fs'.
Proof.
  intros [-> Hn]%validate_spec Hg Hf. unfold server_paths in Hf. rewrite !Forall_cons in Hf. destruct Hf as (F1 & F2 & F3 & F4 & F5 & _).
  destruct (calm_create_directory d PUBLIC_DIR fs) as (d1 & C1 & D1 & _).
  destruct (calm_create_directory (state_directory d) PRIVATE_DIR (mkFs (files fs) d1 (umask fs))) as (d2 & C2 & D2 & M2).
  destruct (calm_create_directory (state_directory d) PRIVATE_DIR (mkFs (files fs) d2 (umask fs))) as (d3 & C3 & D3 & M3).
  assert (is_Some (d3 !! d)) as Dd by (by apply M3, M2). simpl in *. eexists. split.
  - unfold initialize_manual_server_certificate. do 3 (eapply calm_bind; [by apply calm_map_err|]).
    eapply calm_bind; [apply calm_lift; by rewrite Hg|].
    repeat (eapply calm_bind; [apply calm_map_err, calm_write_new; [done|simpl; rewrite ?lookup_insert_ne by done; done]|]).
    apply calm_map_err, calm_write_new; [done|]. simpl. by rewrite !lookup_insert_ne.
  - unfold server_material, server_paths. simpl.
    repeat (rewrite lookup_insert_eq || (rewrite lookup_insert_ne by done)). done.
Qed.

(** [server cert init] in a directory without material initializes it for the normal form of the
    hostname.  Run again with the same hostname it changes nothing and, if the hostname was in
    normal form, reports the material; if it was not, it refuses the directory as another
    Server hostname's. *)
Theorem server_init_repeats d h n g issuer window fs :
  validate_public_hostname h = Ok n → generate n = Ok g → usable_material g issuer window →
  Forall (λ p, files fs !! p = None) (server_paths d) →
  ∃ fs', init d h fs [] = (Done (mkSummary false window.1 window.2), (fs', [])) ∧ server_material d n g fs' ∧
    (n = h → init d h fs' [] = (Done (mkSummary true window.1 window.2), (fs', []))) ∧
    (n ≠ h → init d h fs' [] = (Failed (OtherHostname n), (fs', []))).
Proof.
  intros Hv Hg Hu Hf. destruct (calm_initialize d h n g fs Hv Hg Hf) as (fs' & Hi & Hm). exists fs'.
  assert (canonical_hostname n) as Hn by (by apply validate_spec in Hv as [_ ?]).
  assert (∀ b, calm (summarize (X := X) validity b (server_cert_path d)) fs' (mkSummary b window.1 window.2) fs') as Hs.
  { intros b. pose proof Hm as [= H1 _ _ _ _]. destruct Hu as (_ & _ & Hw). by eapply calm_summarize. }
  pose proof (calm_inspect d n g issuer window fs' Hu Hn Hm) as Hinspect. unfold calm in Hinspect.
  split_and!; [|done|..].
  - unfold server_paths in Hf. rewrite !Forall_cons in Hf. destruct Hf as (F1 & F2 & F3 & F4 & F5 & _).
    eapply calm_bind; [eapply calm_try_failed|].
    { unfold inspect_manual_server_certificate, read_string, read_to_string, read_file, call, act_map_err, mbind, act_bind. simpl.
      rewrite F1. reflexivity. }
    cbn beta iota. eapply calm_bind; [unfold calm, existing_server_cert_paths; simpl; unfold mbind, act_bind, path_exists, act_try, call; simpl; rewrite F1, F2, F3, F4, F5; reflexivity|].
    cbn beta iota. rewrite bool_decide_eq_true_2 by done. simpl. eapply calm_bind; [by apply calm_map_err|]. apply Hs.
  - intros ->. eapply calm_bind; [by apply calm_try|]. simpl. rewrite bool_decide_eq_true_2 by done. apply Hs.
  - intros Hne. unfold server_cert_init, mbind, act_bind, act_try. rewrite Hinspect. by rewrite bool_decide_eq_false_2.
Qed.
End ServerInit.

(** ** Toy certificates *)

(** *** The commands index the first hostname *)

Lemma resolved_hostnames_some selected hostname hostnames :
  resolve_client_public_cert_hostnames selected hostname = Ok hostnames → hostnames ≠ [].
Proof.
  unfold resolve_client_public_cert_hostnames, resolve_client_public_cert_hostnames_from_config_required.
  destruct hostname; [by intros [= <-]|]. destruct selected as [[l|]|]; try done. simpl.
  case_bool_decide; [done|]. by intros [= <-].
Qed.

Lemma runs_anything {E A} (m : act E A) fs : runs m (λ _ _, True) (λ _ _, True) (λ _, True) fs.
Proof. intros ts. by destruct (m fs ts) as [[a|e|] [fs' ts']]. Qed.

(** The summary of a command that reaches it. *)
Lemma runs_summary {X A} (m : act (CommandError X) unit) (k : act (CommandError X) (option A)) fs :
  (∀ fs', runs k (λ a _, a ≠ None) (λ _ _, True) (λ _, True) fs') →
  runs (_ ← m; k) (λ a _, a ≠ None) (λ _ _, True) (λ _, True) fs.
Proof. intros Hk. apply runs_bind. eapply runs_mono; [apply runs_anything|..]; auto. Qed.

(** The commands of [client public-cert] never index an empty list of hostnames: whatever goes wrong
    with the files, a command on resolved hostnames does not panic. *)
Theorem public_cert_commands_index {X I} pid validity ca_issuer authorities leaf authority directory selected hostname hostnames fs :
  resolve_client_public_cert_hostnames selected hostname = Ok hostnames →
  runs (public_cert_init (X := X) (I := I) validity ca_issuer authorities leaf directory hostnames)
    (λ a _, a ≠ None) (λ _ _, True) (λ _, True) fs ∧
  runs (public_cert_renew pid validity ca_issuer leaf directory hostnames) (λ a _, a ≠ None) (λ _ _, True) (λ _, True) fs ∧
  runs (public_cert_rotate_ca pid validity leaf authority directory hostnames)
    (λ a _, a ≠ None) (λ _ _, True) (λ _, True) fs.
Proof.
  intros Hne%resolved_hostnames_some. destruct hostnames as [|h hs]; [done|].
  assert (∀ p (a : option unit) fs, a ≠ None → runs (_ ← summarize (X := X) validity false p; mret a) (λ a _, a ≠ None) (λ _ _, True) (λ _, True) fs) as Hs.
  { intros p a fs0 Ha. apply runs_bind. eapply runs_mono; [apply runs_anything|..]; auto. intros. by apply runs_ret. }
  split_and!.
  - apply runs_bind. eapply runs_mono; [apply runs_anything|..]; auto. intros [i e] fs' _.
    destruct (head (i ++ h :: hs)) as [x|] eqn:Hh; [|by destruct i]. apply runs_bind.
    eapply runs_mono; [apply runs_anything|..]; auto. intros. by apply runs_ret.
  - apply runs_summary. intros. by apply Hs.
  - apply runs_summary. intros. by apply Hs.
Qed.

Module MaterialToy.
(** A key, its public key info and its certificate are the same bytes. *)
Definition key_info (k : bytes) : result bytes bytes := Ok k.
Definition certificate (c : bytes) : option bytes := Some c.
Definition x509 (d : bytes) : option (bytes * bytes) := Some ([], d).
Definition digest (b : bytes) : bytes := take 32 (b ++ repeat "0"%char 32).
Definition identity (k : bytes) : GeneratedClientIdentity := mkGeneratedIdentity k k (digest k).
Definition d : bytes := bs "/d".

Definition rotate (g : GeneratedClientIdentity) := rotate_client_identity 7 key_info certificate x509 digest (Ok g) d.
Definition initialise (g : GeneratedClientIdentity) := write_client_identity_artifacts key_info certificate x509 digest (Ok g) d.
Definition empty_fs : Fs := mkFs ∅ {[ d := 493 ]} 18.
Definition with_identity : Fs := (initialise (identity (bs "old")) empty_fs []).2.1.

Definition issuer (k : bytes) : result bytes bytes := Ok k.
Definition material (h : bytes) : result bytes GeneratedServerCertMaterial := Ok (mkServerMaterial h (bs "key") (bs "ca") (bs "ca key")).
Definition leaf (h i : bytes) : result bytes (bytes * bytes) := Ok (h ++ bs " renewed", bs "new key").
Definition window (_ : bytes) : option (Z * Z) := Some (1, 2).
Definition server_init (h : bytes) := server_cert_init window issuer material d h.
Definition with_material : Fs := (server_init (bs "example.com") empty_fs []).2.1.
End MaterialToy.

Lemma toy_coherent k :
  utf8_valid k = true →
  coherent MaterialToy.key_info MaterialToy.certificate MaterialToy.x509 MaterialToy.digest (MaterialToy.identity k).
Proof.
  intros Hk. split.
  - unfold identity_wf. simpl. unfold MaterialToy.digest. rewrite length_take, length_app, repeat_length. lia.
  - intros m. unfold key_identity, certificate_identity, identity_from_certificate_der. simpl. rewrite Hk. done.
Qed.

(** Killed between the replacement of the key and that of the certificate. *)
Lemma identity_rotation_ends_witness :
  let old := MaterialToy.digest (bs "old") in let new := MaterialToy.digest (bs "new") in
  let run := MaterialToy.rotate (MaterialToy.identity (bs "new")) MaterialToy.with_identity (repeat Smooth 6 ++ [Killed 0]) in
  run.1 = Dead ∧
  refused_by_all MaterialToy.key_info MaterialToy.certificate MaterialToy.x509 MaterialToy.digest MaterialToy.d old new run.2.1.
Proof.
  intros old new run. assert (run.1 = Dead) as E by (vm_compute; reflexivity). split; [exact E|].
  destruct (identity_rotation_ends MaterialToy.key_info MaterialToy.certificate MaterialToy.x509 MaterialToy.digest 7
    (MaterialToy.identity (bs "new")) MaterialToy.d old MaterialToy.with_identity (repeat Smooth 6 ++ [Killed 0]) run.1 run.2.1 run.2.2)
    as (_ & [H|[H|H]] & _); [by apply toy_coherent|by vm_compute|..|exact H].
  - split_and!; vm_compute; reflexivity.
  - unfold run, MaterialToy.rotate. by destruct (rotate_client_identity _ _ _ _ _ _ _ _ _) as [? [? ?]].
  - destruct H as (H & _). by vm_compute in H.
  - destruct H as (_ & H & _). by vm_compute in H.
Defined.

(** Under the usual mask the private key of a new identity is readable by everyone. *)
Lemma identity_initialised_once_witness :
  let run := MaterialToy.initialise (MaterialToy.identity (bs "new")) MaterialToy.empty_fs [] in
  run.1 = Done (IdentityInitialized (MaterialToy.digest (bs "new"))) ∧
  mode <$> files run.2.1 !! client_key_path MaterialToy.d = Some 420 ∧
  MaterialToy.initialise (MaterialToy.identity (bs "other")) run.2.1 [] =
    (Done (IdentityExists (MaterialToy.digest (bs "new"))), (run.2.1, [])).
Proof.
  intros run. assert (run.1 = Done (IdentityInitialized (MaterialToy.digest (bs "new")))) as E by (vm_compute; reflexivity). split; [exact E|].
  destruct (identity_initialised_once MaterialToy.key_info MaterialToy.certificate MaterialToy.x509 MaterialToy.digest
    (MaterialToy.identity (bs "new")) MaterialToy.d MaterialToy.empty_fs [] run.1 run.2.1 run.2.2) as (_ & H & _); [by apply toy_coherent| |].
  - unfold run, MaterialToy.initialise. by destruct (write_client_identity_artifacts _ _ _ _ _ _ _ _) as [? [? ?]].
  - destruct (H _ E) as (i & [[? _]|([= <-] & _ & Hk)] & _ & Hr); [done|]. split; [by rewrite Hk|apply Hr].
Defined.

Lemma server_init_repeats_witness :
  ∃ fs', MaterialToy.server_init (bs "Example.com") MaterialToy.empty_fs [] = (Done (mkSummary false 1 2), (fs', [])) ∧
    MaterialToy.server_init (bs "Example.com") fs' [] = (Failed (OtherHostname (bs "example.com")), (fs', [])).
Proof.
  destruct (server_init_repeats MaterialToy.window MaterialToy.issuer MaterialToy.material MaterialToy.d (bs "Example.com")
    (bs "example.com") (mkServerMaterial (bs "example.com") (bs "key") (bs "ca") (bs "ca key")) (bs "ca key") (1, 2) MaterialToy.empty_fs
    eq_refl eq_refl ltac:(by split_and!) ltac:(repeat constructor)) as (fs' & H1 & _ & _ & H2).
  exists fs'. split; [exact H1|by apply H2].
Defined.

(** Killed between the two files. *)
Lemma renewal_repeatable_witness :
  let renew fs ts := renew_manual_server_certificate 7 MaterialToy.issuer MaterialToy.leaf MaterialToy.d fs ts in
  let run := renew MaterialToy.with_material (repeat Smooth 5 ++ [Killed 0]) in
  run.1 = Dead ∧
  ∃ fs'', renew run.2.1 [] = (Done tt, (fs'', [])) ∧
    content <$> files fs'' !! server_key_path MaterialToy.d = Some (bs "new key").
Proof.
  intros renew run. split; [vm_compute; reflexivity|].
  destruct (renewal_repeatable MaterialToy.issuer 7 MaterialToy.leaf MaterialToy.d (bs "example.com") (bs "ca key") (bs "example.com renewed")
    (bs "new key") MaterialToy.with_material (repeat Smooth 5 ++ [Killed 0]) run.1 run.2.1 run.2.2) as (_ & _ & _ & _ & H).
  - exists (mkFile (bs "example.com") 420), (mkFile (bs "ca key") 384). split_and!; vm_compute; reflexivity.
  - done.
  - unfold run, renew. by destruct (renew_manual_server_certificate _ _ _ _ _ _) as [? [? ?]].
  - destruct (H 7 MaterialToy.leaf (bs "example.com renewed") (bs "new key") eq_refl) as (fs'' & H1 & _ & H2).
    + split; [exists 493; vm_compute; reflexivity|]. exists 0%nat. split; [unfold REPLACE_ATTEMPTS; lia|vm_compute; reflexivity].
    + split; [exists 493; vm_compute; reflexivity|]. exists 0%nat. split; [unfold REPLACE_ATTEMPTS; lia|vm_compute; reflexivity].
    + exists fs''. split; [exact H1|by rewrite H2].
Defined.

(** Cut short in the private key of the Server's certificate. *)
Lemma material_files_contained_witness :
  let run := run_program 7 MaterialToy.issuer MaterialToy.material MaterialToy.leaf (λ _ _, Err (bs "unused")) (Err (bs "unused"))
    (λ (_ : unit) _, Err (bs "unused")) (ServerRenew MaterialToy.d) MaterialToy.with_material (repeat Smooth 6 ++ [Killed 3]) in
  run.1 = Dead ∧
  ∃ p m f, (p, m) ∈ program_files (ServerRenew MaterialToy.d) ∧
    files run.2.1 !! temporary 7 (server_key_path MaterialToy.d) 0 = Some f ∧ mode f = masked MaterialToy.with_material m.
Proof.
  intros run. split; [vm_compute; reflexivity|].
  destruct (material_files_contained 7 MaterialToy.issuer MaterialToy.material MaterialToy.leaf (λ _ _, Err (bs "unused")) (Err (bs "unused"))
    (λ (_ : unit) _, Err (bs "unused")) (ServerRenew MaterialToy.d) MaterialToy.with_material (repeat Smooth 6 ++ [Killed 3]) run.1 run.2.1 run.2.2)
    as [_ H].
  - unfold run. by destruct (run_program _ _ _ _ _ _ _ _ _ _) as [? [? ?]].
  - destruct (H (temporary 7 (server_key_path MaterialToy.d) 0)) as (p & m & f & Hp & _ & Hf & Hm & _); [by vm_compute|]. eauto 8.
Defined.
