(* ===== verification/TlsMaterial.v ===== *)
(** * TlsMaterial: loading certificates and keys, and what is built from them

    [src/tls_material.rs]: chains and keys from PEM files, and the validation of a Server's
    certificate with its roots; [src/tunnel/config.rs]: the QUIC configurations of both peers;
    [src/quic.rs]: the verifier that admits the certificates of Clients;
    [src/managed_session/tls.rs]: the material of a connection to Control.

    Files are read through a function from their paths; PEM, X.509, SHA-256, rustls and quinn
    are parameters. *)

From Stdlib Require Import String Ascii ZArith Lia.
From stdpp Require Import base strings numbers gmap list.
From S2P Require Import Prelude Text Names Framing Authorization ConfigPrep Checks Config.
From S2P Require Import ManagedServer Readiness Startup MaterialFiles.
Import Hostname Address.

Open Scope Z_scope.

(** ** Files: [tls_material.rs] *)

(** [rustls::pki_types::pem::Error], as far as the code tells them apart. *)
Inductive PemError (P : Type) := NoItemsFound | OtherPem (e : P).
Arguments NoItemsFound {P}.
Arguments OtherPem {P}.

(** [QuicConfigError] *)
Inductive QuicConfigError (R N : Type) := Rustls (e : R) | NoInitialCipherSuite (e : N).
Arguments Rustls {R N}.
Arguments NoInitialCipherSuite {R N}.
Definition QuicConfigError_display {R N} (e : QuicConfigError R N) : bytes :=
  match e with Rustls _ => bs "TLS configuration error" | NoInitialCipherSuite _ => bs "QUIC TLS configuration error" end.

Inductive TlsMaterialError (IO P R N V : Type) :=
| TlsReadFile (path : bytes) (source : IO)
| MissingCertificate (path : bytes)
| MissingPrivateKey (path : bytes)
| ParsePem (path : bytes) (source : PemError P)
| ParseX509 (path : bytes)
| AddRootCertificate (path : bytes) (source : R)
| BuildServerVerifier (source : V)
| InvalidServerName (server_name : bytes)
| InvalidCertificateAuthority (path : bytes)
| InvalidServerCertificate (server_name : bytes) (source : R)
| InvalidConfiguration (source : QuicConfigError R N).
Arguments TlsReadFile {IO P R N V}.
Arguments MissingCertificate {IO P R N V}.
Arguments MissingPrivateKey {IO P R N V}.
Arguments ParsePem {IO P R N V}.
Arguments ParseX509 {IO P R N V}.
Arguments AddRootCertificate {IO P R N V}.
Arguments BuildServerVerifier {IO P R N V}.
Arguments InvalidServerName {IO P R N V}.
Arguments InvalidCertificateAuthority {IO P R N V}.
Arguments InvalidServerCertificate {IO P R N V}.
Arguments InvalidConfiguration {IO P R N V}.

Definition TlsMaterialError_display {IO P R N V} (e : TlsMaterialError IO P R N V) : bytes :=
  match e with
  | TlsReadFile path _ => bs "failed to read " ++ path
  | MissingCertificate path => bs "no certificates found in " ++ path
  | MissingPrivateKey path => bs "no private key found in " ++ path
  | ParsePem path _ => bs "failed to parse PEM in " ++ path
  | ParseX509 path => bs "failed to parse X.509 DER in " ++ path
  | AddRootCertificate path _ => bs "failed to load root certificate from " ++ path
  | BuildServerVerifier _ => bs "failed to build the server certificate verifier"
  | InvalidServerName name => bs "server hostname is not a valid DNS name: " ++ name
  | InvalidCertificateAuthority path => path ++ bs " must contain a CA certificate that issued the server certificate"
  | InvalidServerCertificate name _ => bs "server certificate is not valid for " ++ name
  | InvalidConfiguration source => QuicConfigError_display source
  end.

Section Files.
Context {IO P R N V Der Key : Type}.
Context (read : bytes → result IO bytes) (pem_slice_iter : bytes → result (PemError P) (list Der)).
Context (from_pem_slice : bytes → result (PemError P) Key).
#[local] Notation error := (TlsMaterialError IO P R N V).

Definition load_certificate_chain (path : bytes) : result error (list Der) :=
  b ← map_err (TlsReadFile path) (read path);
  certs ← map_err (ParsePem path) (pem_slice_iter b);
  _ ← reject_if (bool_decide (length certs = 0%nat)) (MissingCertificate path);
  Ok certs.

Definition load_private_key (path : bytes) : result error Key :=
  b ← map_err (TlsReadFile path) (read path);
  match from_pem_slice b with
  | Ok private_key => Ok private_key
  | Err NoItemsFound => Err (MissingPrivateKey path)
  | Err source => Err (ParsePem path source)
  end.

(** Builders of TLS configurations, and root stores with their verifiers. *)
Context {B C Roots Verifier Name : Type}.
Context (no_client_auth : B) (with_single_cert : B → list Der → Key → result R C).
Context (empty_roots : Roots) (add_root : Roots → Der → result R Roots).
(** [parse_x509_certificate] with whether the basic constraints say CA. *)
Context (certificate_authority : Der → option bool).
Context (build_verifier : Roots → result V Verifier) (server_name : bytes → option Name).
Context (verify_server_cert : Verifier → Der → list Der → Name → result R unit).

(** The body of the loop over the certificates of the CA file. *)
Definition add_authority (ca_file : bytes) (s : Roots * bool) (certificate : Der) : result error (Roots * bool) :=
  roots ← map_err (AddRootCertificate ca_file) (add_root s.1 certificate);
  is_certificate_authority ← ok_or (ParseX509 ca_file) (certificate_authority certificate);
  Ok (roots, if (is_certificate_authority : bool) then true else s.2).

(** [None]: [cert_chain[0]] panics. *)
Definition validate_server_tls_material (cert_file key_file ca_file server_hostname : bytes) : option (result error unit) :=
  match
    cert_chain ← load_certificate_chain cert_file;
    private_key ← load_private_key key_file;
    _ ← map_err (λ e, InvalidConfiguration (Rustls e)) (with_single_cert no_client_auth cert_chain private_key);
    ca_certificates ← load_certificate_chain ca_file;
    '(roots, has_certificate_authority) ← try_fold (add_authority ca_file) (empty_roots, false) ca_certificates;
    _ ← reject_if (negb has_certificate_authority) (InvalidCertificateAuthority ca_file);
    if bool_decide (server_hostname = []) then Ok None
    else
      verifier ← map_err BuildServerVerifier (build_verifier roots);
      name ← ok_or (InvalidServerName server_hostname) (server_name server_hostname);
      Ok (Some (cert_chain, verifier, name))
  with
  | Err e => Some (Err e)
  | Ok None => Some (Ok tt)
  | Ok (Some (end_entity :: intermediates, verifier, name)) =>
      Some (map_err (InvalidServerCertificate server_hostname) (verify_server_cert verifier end_entity intermediates name))
  | Ok (Some ([], _, _)) => None
  end.

(** What the validation of a configuration sees of it. *)
Definition tls_material_error (cert_file key_file ca_file server_hostname : bytes) : option bytes :=
  match validate_server_tls_material cert_file key_file ca_file server_hostname with
  | Some (Err e) => Some (TlsMaterialError_display e)
  | _ => None
  end.

(** *** What it accepts *)

(** The certificate, the key and the roots at the paths go together for the hostname. *)
Definition material_valid (cert_file key_file ca_file server_hostname : bytes) : Prop :=
  ∃ leaf rest key c,
    load_certificate_chain cert_file = Ok (leaf :: rest) ∧ load_private_key key_file = Ok key ∧
    with_single_cert no_client_auth (leaf :: rest) key = Ok c ∧
    ∃ cas roots, load_certificate_chain ca_file = Ok cas ∧ try_fold add_root empty_roots cas = Ok roots ∧
      Forall (λ d, is_Some (certificate_authority d)) cas ∧ Exists (λ d, certificate_authority d = Some true) cas ∧
      (server_hostname ≠ [] → ∃ verifier name, build_verifier roots = Ok verifier ∧ server_name server_hostname = Some name ∧
         verify_server_cert verifier leaf rest name = Ok tt).

Lemma load_chain_nonempty path chain : load_certificate_chain path = Ok chain → chain ≠ [].
Proof.
  unfold load_certificate_chain. destruct (read path); cbn; [|done]. destruct (pem_slice_iter _) as [certs|]; cbn; [|done].
  destruct certs; [done|]. cbn. by intros [= <-].
Qed.

Lemma add_authorities_ok ca_file cas s s' :
  try_fold (add_authority ca_file) s cas = Ok s' ↔
  try_fold add_root s.1 cas = Ok s'.1 ∧ Forall (λ d, is_Some (certificate_authority d)) cas ∧
  (s'.2 = true ↔ s.2 = true ∨ Exists (λ d, certificate_authority d = Some true) cas).
Proof.
  revert s. induction cas as [|d cas IH]; intros [r b]; cbn.
  - destruct s' as [r' b']. simpl. rewrite Exists_nil. split.
    + intros [= <- <-]. split_and!; [done..|tauto].
    + intros ([= <-] & _ & Hb). do 2 f_equal. destruct b, b'; intuition congruence.
  - replace (add_authority ca_file (r, b) d) with
      (r1 ← map_err (AddRootCertificate ca_file) (add_root r d); a ← ok_or (ParseX509 ca_file) (certificate_authority d);
       Ok (r1, if (a : bool) then true else b) : result error _) by done.
    destruct (add_root r d) as [r1|]; cbn; [|split; [done|by intros [? _]]].
    rewrite Forall_cons, Exists_cons. destruct (certificate_authority d) as [a|] eqn:Ha; cbn;
      [|split; [done|intros (_ & [[? ?] _] & _); done]].
    rewrite IH. cbn.
    assert ((if a then true else b) = true ↔ b = true ∨ Some a = Some true) as Hab by (destruct a, b; intuition congruence).
    rewrite Hab. assert (is_Some (Some a)) by done. tauto.
Qed.

Lemma validate_material_spec cert_file key_file ca_file server_hostname :
  match validate_server_tls_material cert_file key_file ca_file server_hostname with
  | None => False
  | Some (Ok _) => material_valid cert_file key_file ca_file server_hostname
  | Some (Err _) => ¬ material_valid cert_file key_file ca_file server_hostname
  end.
Proof.
  unfold validate_server_tls_material, material_valid.
  destruct (load_certificate_chain cert_file) as [chain|] eqn:Hc; cbn; [|by intros (? & ? & ? & ? & ? & _)].
  destruct (load_private_key key_file) as [key|] eqn:Hk; cbn; [|by intros (? & ? & ? & ? & _ & ? & _)].
  destruct (with_single_cert no_client_auth chain key) as [c|] eqn:Hs; cbn;
    [|intros (? & ? & ? & ? & [= ->] & [= ->] & ? & _); congruence].
  destruct (load_certificate_chain ca_file) as [cas|] eqn:Ha; cbn; [|by intros (? & ? & ? & ? & _ & _ & _ & ? & ? & ? & _)].
  destruct chain as [|leaf rest]; [by apply load_chain_nonempty in Hc|].
  destruct (try_fold (add_authority ca_file) (empty_roots, false) cas) as [[roots has]|e] eqn:Hf; cbn.
  2: { intros (? & ? & ? & ? & _ & _ & _ & cas' & roots & [= <-] & Hr & Hp & Hx & _).
       rewrite (proj2 (add_authorities_ok ca_file cas (empty_roots, false) (roots, true))) in Hf; [done|]. cbn. tauto. }
  apply add_authorities_ok in Hf as (Hr & Hp & Hx). cbn in Hr, Hx.
  destruct has; cbn; [|intros (? & ? & ? & ? & _ & _ & _ & cas' & roots' & [= <-] & _ & _ & Hx' & _); assert (false = true) by tauto; done].
  assert (Exists (λ d, certificate_authority d = Some true) cas) as Hauth by (destruct (proj1 Hx eq_refl); done).
  destruct (decide (server_hostname = [])) as [->|Hh]; [cbn; exists leaf, rest, key, c; do 3 (split; [done|]); by exists cas, roots|]. rewrite bool_decide_eq_false_2 by done.
  destruct (build_verifier roots) as [v|] eqn:Hv; cbn.
  2: { intros (? & ? & ? & ? & _ & _ & _ & ? & roots' & [= <-] & Hr' & _ & _ & H). destruct (H Hh) as (? & ? & ? & _). congruence. }
  destruct (server_name server_hostname) as [name|] eqn:Hn; cbn.
  2: { intros (? & ? & ? & ? & _ & _ & _ & ? & roots' & _ & _ & _ & _ & H). by destruct (H Hh) as (? & ? & _ & ? & _). }
  destruct (verify_server_cert v leaf rest name) as [[]|] eqn:Hver; cbn.
  { exists leaf, rest, key, c. do 3 (split; [done|]). exists cas, roots. split_and!; [done..|]. intros _. by exists v, name. }
  intros (? & ? & ? & ? & [= <- <-] & _ & _ & ? & roots' & [= <-] & Hr' & _ & _ & H). destruct (H Hh) as (? & ? & ? & [= <-] & ?). congruence.
Qed.

Lemma tls_material_error_spec cert_file key_file ca_file server_hostname :
  tls_material_error cert_file key_file ca_file server_hostname = None ↔ material_valid cert_file key_file ca_file server_hostname.
Proof.
  unfold tls_material_error. pose proof (validate_material_spec cert_file key_file ca_file server_hostname) as H.
  by destruct (validate_server_tls_material _ _ _ _) as [[|]|].
Qed.
End Files.

(** ** QUIC configurations: [tunnel/config.rs] *)

(** [quinn::TransportConfig], the fields the code sets; times in milliseconds. *)
Record TransportConfig := mkTransport {
  max_concurrent_bidi_streams : Z;
  max_concurrent_uni_streams : Z;
  receive_window : Z;
  stream_receive_window : Z;
  max_idle_timeout : option Z;
  keep_alive_interval : option Z
}.

Definition IDLE_TIMEOUT : Z := 60000.
Definition KEEPALIVE_INTERVAL : Z := 20000.
Definition CONNECTION_RECEIVE_WINDOW : Z := 64 * 1024 * 1024.
Definition STREAM_RECEIVE_WINDOW : Z := 1250000.
Definition SIGNALING_REQUEST_STREAMS : Z := 8.
Definition MAX_TUNNEL_REQUEST_STREAMS : Z := SIGNALING_REQUEST_STREAMS.
Definition MAX_H3_UNI_STREAMS : Z := 8.

Section Transport.
Context (default_transport : TransportConfig).

Definition base_transport_config : TransportConfig :=
  mkTransport (max_concurrent_bidi_streams default_transport) MAX_H3_UNI_STREAMS CONNECTION_RECEIVE_WINDOW STREAM_RECEIVE_WINDOW
    (Some IDLE_TIMEOUT) (keep_alive_interval default_transport).
Definition with_streams (n : Z) (keep_alive : option Z) (t : TransportConfig) : TransportConfig :=
  mkTransport n (max_concurrent_uni_streams t) (receive_window t) (stream_receive_window t) (max_idle_timeout t) keep_alive.
Definition server_transport_config : TransportConfig := with_streams MAX_TUNNEL_REQUEST_STREAMS None base_transport_config.
Definition client_transport_config : TransportConfig := with_streams 0 (Some KEEPALIVE_INTERVAL) base_transport_config.

Definition TUNNEL_H3_ALPN : bytes := bs "h3".

(** rustls configurations with the fields the code sets, and the QUIC configurations of quinn. *)
Record ServerCrypto (C : Type) := mkServerCrypto { server_tls : C; server_alpn : list bytes; max_early_data_size : Z }.
Record ClientCrypto (C : Type) := mkClientCrypto { client_tls : C; client_alpn : list bytes; enable_early_data : bool }.
Record Endpoint (Q : Type) := mkEndpoint { quic : Q; transport : TransportConfig }.

Context {R N B C S Der Key Roots CC Q CQ : Type}.
(** [pinned_client_auth_server_builder]; [with_single_cert] and [with_cert_resolver] of a builder. *)
Context (pinned_builder : result R B) (with_single_cert : B → list Der → Key → result R C) (with_cert_resolver : B → S → C).
Context (quic_server : ServerCrypto C → result N Q).
Context (with_client_auth_cert : Roots → list Der → Key → result R CC) (quic_client : ClientCrypto CC → result N CQ).

Definition pinned_client_auth_server_crypto (cert_chain : list Der) (private_key : Key) : result (QuicConfigError R N) C :=
  builder ← map_err Rustls pinned_builder; map_err Rustls (with_single_cert builder cert_chain private_key).

Definition server_config (server_crypto : C) : result (QuicConfigError R N) (Endpoint Q) :=
  quic ← map_err NoInitialCipherSuite (quic_server (mkServerCrypto C server_crypto [TUNNEL_H3_ALPN] 0));
  Ok (mkEndpoint Q quic server_transport_config).

Definition make_server_tunnel_h3_config (cert_chain : list Der) (private_key : Key) : result (QuicConfigError R N) (Endpoint Q) :=
  server_crypto ← pinned_client_auth_server_crypto cert_chain private_key; server_config server_crypto.

Definition make_server_tunnel_h3_config_with_resolver (resolver : S) : result (QuicConfigError R N) (Endpoint Q) :=
  builder ← map_err Rustls pinned_builder; server_config (with_cert_resolver builder resolver).

Definition make_client_tunnel_h3_config (roots : Roots) (cert_chain : list Der) (private_key : Key) :
    result (QuicConfigError R N) (Endpoint CQ) :=
  client_crypto ← map_err Rustls (with_client_auth_cert roots cert_chain private_key);
  quic ← map_err NoInitialCipherSuite (quic_client (mkClientCrypto CC client_crypto [TUNNEL_H3_ALPN] false));
  Ok (mkEndpoint CQ quic client_transport_config).
End Transport.

(** ** Admitting the certificates of Clients: [quic.rs] *)

Section Handshakes.
Context (parse_x509 : bytes → option (bytes * bytes)) (sha256 : bytes → bytes).
#[local] Notation identity_of := (identity_from_certificate_der parse_x509 sha256).

(** In nanoseconds. *)
Definition ADMISSION_FAILURE_LOG_INTERVAL : Z := 10 * 10 ^ 9.

Inductive VerifyError := BadEncoding | ApplicationVerificationFailure.

(** Whether to log, and the time of the last log line. *)
Definition should_log_unauthorized (now : Z) (last_logged : option Z) : bool * option Z :=
  if match last_logged with Some last => Z.max 0 (now - last) <? ADMISSION_FAILURE_LOG_INTERVAL | None => false end
  then (false, last_logged) else (true, Some now).

(** [PinnedClientCertVerifier::verify_client_cert]: the answer, the identity in the log, and the
    time of the last log line. *)
Definition verify_client_cert (admission : bytes → bool) (now : Z) (end_entity : bytes) (last_logged : option Z) :
    result VerifyError unit * option bytes * option Z :=
  match identity_of end_entity with
  | None => (Err BadEncoding, None, last_logged)
  | Some client_identity =>
      if admission client_identity then (Ok tt, None, last_logged)
      else
        let '(log, last_logged) := should_log_unauthorized now last_logged in
        (Err ApplicationVerificationFailure, if (log : bool) then Some client_identity else None, last_logged)
  end.

(** [peer_client_identity] on the chain of the peer, if it has one. *)
Definition peer_client_identity (chain : option (list bytes)) : option bytes :=
  chain ← chain; certificate ← head chain; identity_of certificate.

(** The handshakes of a Server, each under the snapshot current at that time
    ([ServerAuthorization::authorizes_client_identity]). *)
Record HandshakeAttempt := mkHandshake { handshake_time : Z; current_snapshot : AuthorizationSnapshot; end_entity : bytes }.
Fixpoint handshakes (last_logged : option Z) (hs : list HandshakeAttempt) : list (result VerifyError unit * option bytes) :=
  match hs with
  | [] => []
  | h :: hs' =>
      let '(answer, logged, last_logged) :=
        verify_client_cert (authorizes_client_identity (current_snapshot h)) (handshake_time h) (end_entity h) last_logged in
      (answer, logged) :: handshakes last_logged hs'
  end.

Definition answered (last : option Z) (h : HandshakeAttempt) : result VerifyError unit * option bytes * option Z :=
  verify_client_cert (authorizes_client_identity (current_snapshot h)) (handshake_time h) (end_entity h) last.

Lemma handshakes_cons last h hs : handshakes last (h :: hs) = fst (answered last h) :: handshakes (snd (answered last h)) hs.
Proof. simpl. unfold answered. by destruct (verify_client_cert _ _ _ _) as [[? ?] ?]. Qed.

(** A refusal is logged, or a line was logged less than the interval before. *)
Lemma answered_log last h :
  (∃ answer, answered last h = (answer, None, last) ∧
     (answer = Err ApplicationVerificationFailure →
      ∃ l, last = Some l ∧ handshake_time h - l < ADMISSION_FAILURE_LOG_INTERVAL)) ∨
  (∃ i, answered last h = (Err ApplicationVerificationFailure, Some i, Some (handshake_time h)) ∧ identity_of (end_entity h) = Some i ∧
     ∀ l, last = Some l → l + ADMISSION_FAILURE_LOG_INTERVAL ≤ handshake_time h).
Proof.
  unfold answered, verify_client_cert, should_log_unauthorized. destruct (identity_of (end_entity h)) as [i|]; [|left; by eexists].
  destruct (authorizes_client_identity _ i); [left; by eexists|]. unfold ADMISSION_FAILURE_LOG_INTERVAL.
  destruct last as [l|]; cbn beta iota; [|right; exists i; split_and!; [done..|by intros l]].
  destruct (Z.ltb_spec (Z.max 0 (handshake_time h - l)) (10 * 10 ^ 9)) as [Hl|Hl].
  - left. eexists. split; [done|]. intros _. exists l. split; [done|]. lia.
  - right. exists i. split_and!; [done..|]. intros l' [= <-]. lia.
Qed.

Lemma answered_admits last h :
  wf_snapshot (current_snapshot h) →
  (fst (fst (answered last h)) = Ok tt ↔
     ∃ i k, identity_of (end_entity h) = Some i ∧ tunnel_index_for_client_identity (current_snapshot h) i = Some k) ∧
  (fst (fst (answered last h)) = Err BadEncoding ↔ identity_of (end_entity h) = None).
Proof.
  intros Hwf. unfold answered, verify_client_cert. destruct (identity_of (end_entity h)) as [i|]; [|split; split; [done|by intros (? & ? & ? & _)|done..]].
  pose proof (wf_trusted _ Hwf i) as Ht. unfold authorizes_client_identity. destruct (decide (i ∈ trusted_client_identities (current_snapshot h))) as [Hi|Hi].
  - rewrite bool_decide_eq_true_2 by done. apply Ht in Hi as [k Hk]. split; split; try done. intros _. by exists i, k.
  - rewrite bool_decide_eq_false_2 by done. destruct (should_log_unauthorized _ _). split; split; try done.
    intros (i' & k & [= <-] & Hk). destruct Hi. apply Ht. eauto.
Qed.

(** Times of the log lines, and of the refusals. *)
Definition log_times (last : option Z) (hs : list HandshakeAttempt) : list Z :=
  omap (λ x, match x with (h, (_, Some _)) => Some (handshake_time h) | _ => None end) (zip hs (handshakes last hs)).
Definition spaced (last : option Z) (times : list Z) : Prop :=
  (∀ l t, last = Some l → t ∈ times → l + ADMISSION_FAILURE_LOG_INTERVAL ≤ t) ∧
  ∀ j k tj tk, (j < k)%nat → times !! j = Some tj → times !! k = Some tk → tj + ADMISSION_FAILURE_LOG_INTERVAL ≤ tk.

Lemma log_times_spaced last hs : spaced last (log_times last hs).
Proof.
  revert last. induction hs as [|h hs IH]; intros last; [split; [set_solver|by intros ? ? ? ? _ ?]|].
  unfold log_times. rewrite handshakes_cons. cbn [zip_with omap list_omap zip].
  destruct (answered_log last h) as [(answer & -> & _)|(i & -> & _ & Hl)]; cbn [fst snd]; [apply IH|].
  destruct (IH (Some (handshake_time h))) as [H1 H2]. fold (log_times (Some (handshake_time h)) hs).
  assert (0 < ADMISSION_FAILURE_LOG_INTERVAL) as Hpos by (unfold ADMISSION_FAILURE_LOG_INTERVAL; lia). split.
  - intros l t Hlast [->|Ht]%elem_of_cons; [by apply Hl|]. specialize (Hl l Hlast). specialize (H1 _ t eq_refl Ht). lia.
  - intros [|j] [|k] tj tk Hjk; [lia| |lia|apply H2; lia]. cbn. intros [= <-] Hk. apply (H1 _ tk eq_refl). by eapply list_elem_of_lookup_2.
Qed.

Lemma refusals_covered last hs j h :
  hs !! j = Some h → fst <$> (handshakes last hs !! j) = Some (Err ApplicationVerificationFailure) →
  ∃ t, (last = Some t ∨ t ∈ log_times last (take (S j) hs)) ∧ handshake_time h - t < ADMISSION_FAILURE_LOG_INTERVAL.
Proof.
  revert last j. induction hs as [|x hs IH]; intros last j; [done|]. rewrite handshakes_cons. rewrite firstn_cons.
  unfold log_times. rewrite handshakes_cons. cbn [zip_with omap list_omap zip].
  assert (0 < ADMISSION_FAILURE_LOG_INTERVAL) as Hpos by (unfold ADMISSION_FAILURE_LOG_INTERVAL; lia).
  destruct (answered_log last x) as [(answer & -> & Ha)|(i & -> & _ & _)]; cbn [fst snd]; destruct j as [|j].
  - intros [= <-] [= ->]. destruct (Ha eq_refl) as (l & -> & ?). exists l. auto.
  - apply IH.
  - intros [= <-] _. exists (handshake_time x). split; [right; by left|]. lia.
  - intros Hj Hr. destruct (IH _ _ Hj Hr) as (t & [[= <-]|Ht] & ?).
    + exists (handshake_time x). split; [right; by left|done].
    + exists t. split; [right; by right|done].
Qed.

Lemma handshakes_lookup last hs j h :
  hs !! j = Some h → ∃ last', handshakes last hs !! j = Some (fst (answered last' h)).
Proof.
  revert last j. induction hs as [|x hs IH]; intros last j; [done|]. rewrite handshakes_cons. destruct j as [|j]; [intros [= <-]; by eexists|].
  apply IH.
Qed.

(** C24: The handshakes of a Server admit exactly the Clients that have a Tunnel: whatever was refused
    or logged before, a certificate is accepted if and only if its key's identity has a Tunnel
    under the snapshot of the moment, and called malformed if and only if it has no identity.
    Two log lines of refusals are at least ten seconds apart, and every refusal is logged itself
    or comes less than ten seconds after a line. *)
Theorem handshakes_admit_tunnels hs :
  Forall (λ h, wf_snapshot (current_snapshot h)) hs →
  (∀ j h, hs !! j = Some h → ∃ answer logged, handshakes None hs !! j = Some (answer, logged) ∧
     (answer = Ok tt ↔ ∃ i k, identity_of (end_entity h) = Some i ∧ tunnel_index_for_client_identity (current_snapshot h) i = Some k) ∧
     (answer = Err BadEncoding ↔ identity_of (end_entity h) = None) ∧
     (answer = Err ApplicationVerificationFailure →
      ∃ t, t ∈ log_times None (take (S j) hs) ∧ handshake_time h - t < ADMISSION_FAILURE_LOG_INTERVAL)) ∧
  ∀ j k tj tk, (j < k)%nat → log_times None hs !! j = Some tj → log_times None hs !! k = Some tk → tj + ADMISSION_FAILURE_LOG_INTERVAL ≤ tk.
Proof.
  intros Hwf. split; [|apply log_times_spaced]. intros j h Hj. destruct (handshakes_lookup None hs j h Hj) as [last Ha].
  destruct (answered_admits last h) as [H1 H2]; [rewrite Forall_lookup in Hwf; eauto|].
  destruct (answered last h) as [[answer logged] last']. cbn [fst snd] in *. exists answer, logged. split_and!; [done..|].
  intros ->. destruct (refusals_covered None hs j h Hj) as (t & [?|Ht] & ?); [by rewrite Ha|done|eauto].
Qed.
End Handshakes.

(** ** The material of a connection to Control: [managed_session/tls.rs] *)

Inductive TrustLoadError (R : Type) := ControlNativeRoots (errors : Z) | AddRoot (e : R) | TrustCaFile (message : bytes).
Arguments ControlNativeRoots {R}.
Arguments AddRoot {R}.
Arguments TrustCaFile {R}.
Inductive ControlTlsMaterialError (R : Type) := TrustProblem (e : TrustLoadError R) | IdentityProblem (message : bytes) | ClientAuth (e : R).
Arguments TrustProblem {R}.
Arguments IdentityProblem {R}.
Arguments ClientAuth {R}.

Record ControlClientIdentityMaterial := mkControlIdentity { cert_path : bytes; key_path : bytes }.
Definition from_client_identity_dir (directory : bytes) : ControlClientIdentityMaterial :=
  mkControlIdentity (path_join directory CLIENT_CERT_FILENAME) (path_join directory CLIENT_KEY_FILENAME).
Definition from_server_identity_dir (directory : bytes) : ControlClientIdentityMaterial :=
  mkControlIdentity (path_join directory SERVER_IDENTITY_CERT_FILENAME) (path_join directory SERVER_IDENTITY_KEY_FILENAME).
Record SessionMaterial := mkSessionMaterial { control_hostname : bytes; material_trust : Trust; material_identity : ControlClientIdentityMaterial }.

(** The rustls configuration with the fields the code sets. *)
Record ControlTlsMaterial (C : Type) := mkControlTls {
  control_client_config : C;
  control_alpn : list bytes;
  enable_sni : bool;
  control_server_name : bytes
}.
Definition CONTROL_ALPN_H2 : bytes := bs "h2".

Section Control.
Context {IO P R N V Der Key Roots C : Type}.
Context (read : bytes → result IO bytes) (pem_slice_iter : bytes → result (PemError P) (list Der)).
Context (from_pem_slice : bytes → result (PemError P) Key).
Context (empty_roots : Roots) (add_root : Roots → Der → result R Roots).
Context (with_client_auth_cert : Roots → list Der → Key → result R C).
#[local] Notation chain_at path := (load_certificate_chain (R := R) (N := N) (V := V) read pem_slice_iter path).
#[local] Notation key_at path := (load_private_key (R := R) (N := N) (V := V) read from_pem_slice path).

Definition load_identity_files (identity : ControlClientIdentityMaterial) : result (TlsMaterialError IO P R N V) (list Der * Key) :=
  chain ← chain_at (cert_path identity); key ← key_at (key_path identity); Ok (chain, key).

(** [native]: what [load_native_certs] finds, and the number of its errors. *)
Definition load_control_root_store (native : list Der * Z) (trust : Trust) : result (TrustLoadError R) Roots :=
  match trust with
  | System =>
      roots ← map_err AddRoot (try_fold add_root empty_roots native.1);
      _ ← reject_if (bool_decide (length native.1 = 0%nat)) (ControlNativeRoots native.2);
      Ok roots
  | CaFile path =>
      certs ← map_err (λ e, TrustCaFile (TlsMaterialError_display e)) (chain_at path);
      _ ← reject_if (bool_decide (length certs = 0%nat)) (TrustCaFile (bs "control CA file " ++ path ++ bs " contained no certificates"));
      map_err AddRoot (try_fold add_root empty_roots certs)
  end.

Definition load_control_tls_material (native : list Der * Z) (material : SessionMaterial) :
    result (ControlTlsMaterialError R) (ControlTlsMaterial C) :=
  roots ← map_err TrustProblem (load_control_root_store native (material_trust material));
  '(cert_chain, private_key) ← map_err (λ e, IdentityProblem (TlsMaterialError_display e)) (load_identity_files (material_identity material));
  client_config ← map_err ClientAuth (with_client_auth_cert roots cert_chain private_key);
  Ok (mkControlTls C client_config [CONTROL_ALPN_H2] true (control_hostname material)).

(** The certificates that a trust setting stands for. *)
Definition trusted_certificates (native : list Der * Z) (trust : Trust) : option (list Der) :=
  match trust with System => Some native.1 | CaFile path => match chain_at path with Ok chain => Some chain | Err _ => None end end.

Lemma control_roots_spec native trust roots :
  load_control_root_store native trust = Ok roots ↔
  ∃ certs, trusted_certificates native trust = Some certs ∧ certs ≠ [] ∧ try_fold add_root empty_roots certs = Ok roots.
Proof.
  unfold load_control_root_store, trusted_certificates. destruct trust as [|path].
  - destruct native as [certs errors]. cbn. destruct (try_fold add_root empty_roots certs) as [r|] eqn:Hf; cbn.
    + destruct certs as [|d certs]; [cbn; split; [done|by intros (? & [= <-] & ? & _)]|].
      rewrite bool_decide_eq_false_2 by (cbn; lia). cbn [reject_if mbind result_bind].
      split; [intros [= <-]; eauto|]. intros (? & [= <-] & _ & ?). congruence.
    + split; [done|]. intros (? & [= <-] & _ & ?). congruence.
  - destruct (chain_at path) as [certs|e] eqn:Hc; cbn; [|split; [done|by intros (? & ? & _)]].
    pose proof (load_chain_nonempty _ _ _ _ Hc) as Hne. destruct certs as [|d certs]; [done|]. cbn [length].
    rewrite bool_decide_eq_false_2 by lia. cbn [reject_if mbind result_bind].
    destruct (try_fold add_root empty_roots (d :: certs)) as [r|] eqn:Hf; cbn.
    + split; [intros [= <-]; eauto|]. intros (? & [= <-] & _ & ?). congruence.
    + split; [done|]. intros (? & [= <-] & _ & ?). congruence.
Qed.

(** A connection to Control uses its own trust and identity and speaks HTTP/2 only: material is
    loaded exactly if every certificate of the trust setting, of which there is at least one, is
    added to the roots and the identity's chain and key make a configuration with them, and it
    then offers only [h2], sends the hostname of Control and is built from those roots and that
    identity alone. *)
Theorem control_material_exact native material m :
  load_control_tls_material native material = Ok m ↔
  ∃ certs roots chain key config,
    trusted_certificates native (material_trust material) = Some certs ∧ certs ≠ [] ∧ try_fold add_root empty_roots certs = Ok roots ∧
    chain_at (cert_path (material_identity material)) = Ok chain ∧ key_at (key_path (material_identity material)) = Ok key ∧
    with_client_auth_cert roots chain key = Ok config ∧ m = mkControlTls C config [bs "h2"] true (control_hostname material).
Proof.
  unfold load_control_tls_material. destruct (load_control_root_store native (material_trust material)) as [roots|e] eqn:Hr.
  - apply control_roots_spec in Hr as (certs & Hc & Hne & Hf). unfold load_identity_files. cbn -[trusted_certificates].
    destruct (chain_at _) as [chain|e]; cbn -[trusted_certificates]; [|split; [done|by intros (? & ? & ? & ? & ? & _ & _ & _ & ? & _)]].
    destruct (key_at _) as [key|e]; cbn -[trusted_certificates]; [|split; [done|by intros (? & ? & ? & ? & ? & _ & _ & _ & _ & ? & _)]].
    destruct (with_client_auth_cert roots chain key) as [config|e] eqn:Hw; cbn -[trusted_certificates].
    + split; [intros [= <-]; eauto 20|]. intros (? & ? & ? & ? & ? & ? & ? & ? & [= <-] & [= <-] & ? & ->).
      assert (config = x3) as -> by congruence. done.
    + split; [done|]. intros (? & ? & ? & ? & ? & ? & ? & ? & [= <-] & [= <-] & ? & ->). congruence.
  - split; [done|]. intros (certs & roots & ? & ? & ? & Hc & Hne & Hf & _).
    rewrite (proj2 (control_roots_spec native (material_trust material) roots)) in Hr; [done|]. eauto.
Qed.
End Control.

(** ** From the accepted configuration to a running Server *)

Section Start.
Context {IO P R N V Der Key B C Roots Verifier Name S Q CC T : Type}.
Context (read : bytes → result IO bytes) (pem_slice_iter : bytes → result (PemError P) (list Der)).
Context (from_pem_slice : bytes → result (PemError P) Key).
Context (no_client_auth : B) (with_single_cert : B → list Der → Key → result R C).
Context (empty_roots : Roots) (add_root : Roots → Der → result R Roots) (certificate_authority : Der → option bool).
Context (build_verifier : Roots → result V Verifier) (server_name : bytes → option Name).
Context (verify_server_cert : Verifier → Der → list Der → Name → result R unit).
Context (default_transport : TransportConfig) (pinned_builder : result R B) (with_cert_resolver : B → T → C).
Context (quic_server : ServerCrypto C → result N Q) (with_client_auth_cert : Roots → list Der → Key → result R CC).
Context (native : list Der * Z).

Inductive StartError :=
| FromTls (e : TlsMaterialError IO P R N V)
| FromQuic (e : QuicConfigError R N)
| FromControl (e : ControlTlsMaterialError R)
| FromSystem (message : bytes).

(** The environment of the ACME controller. *)
Context (private_directory : bytes → result StartError unit) (public_policy : bytes → result StartError unit).
Context (controller_new : bytes → bytes → ServerAcmeOptions → result StartError (T * bool)).
Context (is_file is_dir : bytes → bool) (canonicalize : bytes → option bytes) (read_server_identity : bytes → result bytes bytes).

Definition start_chain (path : bytes) : result StartError (list Der) := map_err FromTls (load_certificate_chain read pem_slice_iter path).
Definition start_key (path : bytes) : result StartError Key := map_err FromTls (load_private_key read from_pem_slice path).
Definition start_h3 (chain : list Der) (key : Key) : result StartError (Endpoint Q) :=
  map_err FromQuic (make_server_tunnel_h3_config default_transport pinned_builder with_single_cert quic_server chain key).
Definition start_h3_resolver (resolver : T) : result StartError (Endpoint Q) :=
  map_err FromQuic (make_server_tunnel_h3_config_with_resolver default_transport pinned_builder with_cert_resolver quic_server resolver).
Definition start_control (hostname : bytes) (trust : Trust) (directory : bytes) : result StartError unit :=
  _ ← map_err FromControl
        (load_control_tls_material (IO := IO) (P := P) (N := N) (V := V) read pem_slice_iter from_pem_slice empty_roots add_root
           with_client_auth_cert native (mkSessionMaterial hostname trust (from_server_identity_dir directory)));
  Ok tt.

(** The checks of the configuration and the start of the Server on the same files. *)
#[local] Notation material_error :=
  (tls_material_error (IO := IO) (N := N) read pem_slice_iter from_pem_slice no_client_auth with_single_cert empty_roots add_root
     certificate_authority build_verifier server_name verify_server_cert).
Definition validate_server_on_files := validate_prepared_server_config is_file is_dir canonicalize material_error read_server_identity.
Definition start_server_on_files :=
  prepare_runtime start_chain start_key start_h3 start_h3_resolver private_directory public_policy controller_new start_control.

(** rustls checks a key against its chain in the same way for every client verifier, and its
    default TLS 1.3 suites have an initial suite for QUIC. *)
Record rustls_uniform : Prop := {
  pinned_builds : ∃ b, pinned_builder = Ok b ∧
    ∀ chain key c, with_single_cert no_client_auth chain key = Ok c → ∃ c', with_single_cert b chain key = Ok c';
  suites_build : ∀ c, ∃ q, quic_server c = Ok q
}.

Lemma manual_certificate_prepared directory hostname c options :
  rustls_uniform → certificate c = ManualCert directory →
  material_error (path_join directory SERVER_CERT_FILENAME) (path_join directory SERVER_KEY_FILENAME)
    (path_join directory SERVER_CA_FILENAME) hostname = None →
  ∃ quic, prepare_certificate start_chain start_key start_h3 start_h3_resolver public_policy controller_new c options = Ok (quic, None) ∧
    transport _ quic = server_transport_config default_transport.
Proof.
  intros [(b & Hb & Hsame) Hquic] Hcert (leaf & rest & key & tls & Hchain & Hkey & Hsingle & _)%tls_material_error_spec.
  destruct (Hsame _ _ _ Hsingle) as [tls' Htls]. destruct (Hquic (mkServerCrypto C tls' [TUNNEL_H3_ALPN] 0)) as [q Hq].
  exists (mkEndpoint Q q (server_transport_config default_transport)). split; [|done]. unfold prepare_certificate. rewrite Hcert.
  unfold start_chain, start_key, start_h3, make_server_tunnel_h3_config, pinned_client_auth_server_crypto, server_config.
  rewrite Hchain. cbn [map_err mbind result_bind]. rewrite Hkey. cbn [map_err mbind result_bind]. rewrite Hb.
  cbn [map_err mbind result_bind]. rewrite Htls. cbn [map_err mbind result_bind]. by rewrite Hq.
Qed.

(** Without ACME a prepared certificate leaves the addresses, the Tunnels and the sockets. *)
Lemma manual_start_shape directory c quic publics tunnels env :
  certificate c = ManualCert directory →
  prepare_certificate start_chain start_key start_h3 start_h3_resolver public_policy controller_new c None = Ok (quic, None) →
  match prepare_server start_chain start_key start_h3 start_h3_resolver private_directory public_policy controller_new c publics tunnels None env with
  | Ok server => acme_runtime server = None ∧ quic_server_config server = quic
  | Err (BadAddresses _) | Err (Authorization _) | Err (BindProblem _) => True
  | Err _ => False
  end.
Proof.
  intros Hm Hc. unfold prepare_server, check_addresses, prepare_default_server_acme_state_dir. rewrite Hm.
  destruct (validate_bind_addresses _ publics) as [[]|m]; cbn -[bs]; [|done].
  destruct (validate_bind_addresses _ tunnels) as [[]|m]; cbn -[bs prepare_certificate prepare_authorization]; [|done].
  destruct (prepare_authorization c) as [a|e] eqn:Ha; cbn -[prepare_certificate server_bind].
  - rewrite Hc. cbn -[server_bind]. by destruct (snd (server_bind _ _ _ _ _ _ _)) as [[]|e].
  - unfold prepare_authorization in Ha. destruct (admission c); [|done]. destruct (try_from_static_tunnels _ _); [done|]. by injection Ha as <-.
Qed.

(** C31: What the validation accepted starts.  With a certificate directory of its own, a Server that the
    validation accepted on some files and that starts on the same files fails only where a socket
    is refused or, in managed mode, where the material for Control fails to load: never on its
    certificate, its key or its configuration.  Its connections have the transport bounds of the
    Server, eight request streams and no keepalive. *)
Theorem manual_server_starts venv config_dir level raw unknown ctl c directory env :
  rustls_uniform →
  validate_server_on_files (prepare_raw_server_config venv config_dir level raw unknown ctl) = Some (Ok c) →
  certificate c = ManualCert directory →
  match start_server_on_files c (public_bind_addresses c) (tunnel_connection_bind_addresses c) None env with
  | Some (Ok (mkServerRuntime server session)) =>
      session = managed server ∧ acme_runtime server = None ∧
      transport _ (quic_server_config server) = mkTransport 8 8 67108864 1250000 (Some 60000) None
  | Some (Err (StartupProblem (BindProblem e))) => refused env e
  | Some (Err (ControlMaterial e)) =>
      admission c = ManagedMode ∧ ∃ hostname trust directory, start_control hostname trust directory = Err e
  | _ => False
  end.
Proof.
  intros Hr (Hwf & _)%server_accepted Hcert.
  assert (∃ quic, prepare_certificate start_chain start_key start_h3 start_h3_resolver public_policy controller_new c None = Ok (quic, None) ∧
            transport _ quic = server_transport_config default_transport) as (quic & Hc & Htransport).
  { pose proof (wf_certificate _ _ _ _ _ _ Hwf) as Hm. rewrite Hcert in Hm. destruct Hm as (_ & _ & _ & _ & Hm). by eapply manual_certificate_prepared. }
  pose proof (wf_server_prepared is_file is_dir canonicalize material_error read_server_identity start_chain start_key start_h3
    start_h3_resolver private_directory public_policy controller_new start_control c env Hwf) as Hstart.
  pose proof (manual_start_shape directory c quic (public_bind_addresses c) (tunnel_connection_bind_addresses c) env Hcert Hc) as Hshape.
  pose proof (wf_admission _ _ _ _ _ _ Hwf) as Hadm. unfold start_server_on_files, prepare_runtime, prepare_session.
  destruct (prepare_server _ _ _ _ _ _ _ c _ _ None env) as [server|e]; cbn.
  - destruct Hstart as (Hmanaged & _), Hshape as [Hnone Hq]. destruct (admission c).
    + destruct Hadm as (_ & _ & _ & -> & _). cbn. rewrite Hmanaged. split_and!; [done..|]. by rewrite Hq, Htransport.
    + destruct Hadm as (_ & [k ->] & i & -> & _). cbn. destruct (start_control _ _ _) eqn:Hl; cbn; [|split; [done|by eauto]].
      rewrite Hmanaged. split_and!; [done..|]. by rewrite Hq, Htransport.
  - destruct (admission c).
    + destruct Hadm as (_ & _ & _ & -> & _). cbn. by destruct e.
    + destruct Hadm as (_ & [k ->] & i & -> & _). cbn. destruct (start_control _ _ _) eqn:Hl; cbn; [by destruct e|split; [done|by eauto]].
Qed.
End Start.

(** ** Examples *)

Module TlsToy.
(** A file contains its path; a certificate and a key are bytes. *)
Definition read (path : bytes) : result unit bytes := Ok path.
Definition certs (b : bytes) : result (PemError unit) (list bytes) := Ok [b].
Definition key (b : bytes) : result (PemError unit) bytes := Ok b.
Definition single (_ : unit) (chain : list bytes) (key : bytes) : result unit (list bytes * bytes) := Ok (chain, key).
Definition add_root (roots : list bytes) (d : bytes) : result unit (list bytes) := Ok (roots ++ [d]).
Definition is_authority (_ : bytes) : option bool := Some true.
Definition verifier (roots : list bytes) : result unit (list bytes) := Ok roots.
Definition name (h : bytes) : option bytes := Some h.
Definition verify (roots : list bytes) (leaf : bytes) (rest : list bytes) (h : bytes) : result unit unit := Ok tt.
Definition transport : TransportConfig := mkTransport 100 100 1 1 None None.
Definition client (roots chain : list bytes) (key : bytes) : result unit (list bytes) := Ok roots.
Definition x509 (d : bytes) : option (bytes * bytes) := Some ([], d).
Definition error : Type := StartError (IO := unit) (P := unit) (R := unit) (N := unit) (V := unit).
Definition nothing (_ : bytes) : result error unit := Ok tt.
Definition controller (_ _ : bytes) (_ : ServerAcmeOptions) : result error (unit * bool) := Ok (tt, true).
Definition validate := validate_server_on_files (N := unit) read certs key tt single [] add_root is_authority verifier name verify Toy.yes Toy.yes Some Toy.read_identity.
Definition start :=
  start_server_on_files read certs key single [] add_root transport (Ok tt) (λ _ _, ([], [])) (λ c : ServerCrypto (list bytes * bytes), Ok (server_tls _ c))
    client ([], 0) nothing nothing controller Toy.static_server (public_bind_addresses Toy.static_server)
    (tunnel_connection_bind_addresses Toy.static_server) None StartToy.willing.

Definition trusted : bytes := replicate 32 (u8_of 1).
Definition snapshot : AuthorizationSnapshot := mkSnapshot {[ trusted := 0%nat ]} ∅ {[ trusted ]} Static 1.
Definition attempts : list HandshakeAttempt :=
  [mkHandshake 0 snapshot (bs "stranger"); mkHandshake (9 * 10 ^ 9) snapshot (bs "stranger"); mkHandshake (9 * 10 ^ 9) snapshot trusted;
   mkHandshake (10 * 10 ^ 9) snapshot (bs "stranger")].
End TlsToy.

Lemma manual_server_starts_witness :
  ∃ r, TlsToy.start = Some (Ok r) ∧ transport _ (quic_server_config (prepared_server r)) = mkTransport 8 8 67108864 1250000 (Some 60000) None.
Proof.
  pose proof (manual_server_starts TlsToy.read TlsToy.certs TlsToy.key tt TlsToy.single [] TlsToy.add_root TlsToy.is_authority TlsToy.verifier TlsToy.name
    TlsToy.verify TlsToy.transport (Ok tt) (λ _ _, ([], [])) (λ c : ServerCrypto (list bytes * bytes), Ok (server_tls _ c)) TlsToy.client ([], 0)
    TlsToy.nothing TlsToy.nothing TlsToy.controller Toy.yes Toy.yes Some Toy.read_identity Toy.env (bs "/etc") LogInfo Toy.static_raw []
    Toy.no_control Toy.static_server (bs "/cert") StartToy.willing) as H.
  fold TlsToy.start in H. assert (match TlsToy.start with Some (Ok _) => true | _ => false end = true) as Hok by (vm_compute; reflexivity).
  destruct TlsToy.start as [[[server session]|e]|]; [|discriminate Hok..]. eexists. split; [reflexivity|]. apply H.
  - split; [exists tt; split; [done|]; intros chain key c _; by eexists|]. intros c. by eexists.
  - vm_compute. reflexivity.
  - vm_compute. reflexivity.
Defined.

Lemma handshakes_admit_tunnels_witness :
  let out := handshakes TlsToy.x509 id None TlsToy.attempts in
  fst <$> out = [Err ApplicationVerificationFailure; Err ApplicationVerificationFailure; Ok tt; Err ApplicationVerificationFailure] ∧
  log_times TlsToy.x509 id None TlsToy.attempts = [0; 10 * 10 ^ 9] ∧
  ∃ i k, identity_from_certificate_der TlsToy.x509 id TlsToy.trusted = Some i ∧ tunnel_index_for_client_identity TlsToy.snapshot i = Some k.
Proof.
  intros out. split; [vm_compute; reflexivity|]. split; [vm_compute; reflexivity|].
  destruct (handshakes_admit_tunnels TlsToy.x509 id TlsToy.attempts) as [H _].
  - assert (wf_snapshot TlsToy.snapshot) as Hwf; [|unfold TlsToy.attempts; rewrite !Forall_cons, Forall_nil; auto].
    unfold TlsToy.snapshot. split; unfold tunnel_index_for_client_identity, tunnel_index_for_public_hostname; cbn [client_identity_to_tunnel public_hostname_to_tunnel trusted_client_identities tunnel_count continuity].
    + by intros h k.
    + intros i k Hk. apply lookup_singleton_Some in Hk as [_ <-]. lia.
    + intros i. rewrite elem_of_singleton. split; [intros ->; rewrite lookup_singleton_eq; by eexists|].
      by intros [k [-> _]%lookup_singleton_Some].
    + done.
  - destruct (H 2%nat (mkHandshake (9 * 10 ^ 9) TlsToy.snapshot TlsToy.trusted) eq_refl) as (answer & logged & Ha & Hok & _).
    apply Hok. assert (fst <$> out !! 2%nat = Some (Ok tt)) as E by (vm_compute; reflexivity). fold out in Ha. rewrite Ha in E. by injection E.
Defined.
