(* ===== verification/RuntimeLog.v ===== *)
(** * RuntimeLog: the records of the runtime log

    [src/runtime_log.rs]: the level and the text of every record, the correlation of the records
    of a Server connection, the level filter, and the installation of the logger.

    Timestamps and the printing of a record are [tracing_subscriber]'s and are not modelled; a
    record is its level and its message.  Errors are the text they display. *)

From Stdlib Require Import String Ascii ZArith Lia.
From stdpp Require Import base strings numbers list.
From S2P Require Import Prelude Text Names Framing Shutdown Assignment Withdrawal Session ConfigPrep ClientRun.
Import Hostname Address Identity.

Open Scope Z_scope.

(** ** Addresses as text *)

Fixpoint show_hex_digits (fuel : nat) (z : Z) : bytes :=
  match fuel with
  | O => []
  | S f => if z <? 16 then [hex_byte z] else show_hex_digits f (z / 16) ++ [hex_byte (z mod 16)]
  end.
(** [{:x}] of a segment. *)
Definition show_hex (z : Z) : bytes := show_hex_digits 4 z.

(** [Ipv4Addr] *)
Definition Ipv4Addr_display (bits : Z) : bytes :=
  join (bs ".") (map (λ i, show_uint (bits / 2 ^ (8 * i) mod 256)) [3; 2; 1; 0]).
Definition segments (bits : Z) : list Z := map (λ i, bits / 2 ^ (16 * i) mod 65536) [7; 6; 5; 4; 3; 2; 1; 0].

(** The first longest run of zero segments, as its start and its length. *)
Fixpoint zero_run (i : nat) (current longest : nat * nat) (l : list Z) : nat * nat :=
  match l with
  | [] => longest
  | s :: l' =>
      if s =? 0 then
        let current := ((if (current.2 =? 0)%nat then i else current.1), S current.2) in
        zero_run (S i) current (if (longest.2 <? current.2)%nat then current else longest) l'
      else zero_run (S i) (0, 0)%nat longest l'
  end.
Definition fmt_subslice (l : list Z) : bytes := join (bs ":") (map show_hex l).

(** [Ipv6Addr] *)
Definition Ipv6Addr_display (bits : Z) : bytes :=
  if bits / 2 ^ 32 =? 65535 then bs "::ffff:" ++ Ipv4Addr_display (bits mod 2 ^ 32)
  else
    let '(start, length) := zero_run 0 (0, 0)%nat (0, 0)%nat (segments bits) in
    if (1 <? length)%nat
    then fmt_subslice (take start (segments bits)) ++ bs "::" ++ fmt_subslice (drop (start + length) (segments bits))
    else fmt_subslice (segments bits).

Definition SocketAddr_display (a : Proxy.SocketAddr) : bytes :=
  match a with
  | Proxy.SockV4 ip port => Ipv4Addr_display ip ++ bs ":" ++ show_uint port
  | Proxy.SockV6 ip port _ scope =>
      bs "[" ++ Ipv6Addr_display ip ++ (if scope =? 0 then [] else bs "%" ++ show_uint scope) ++ bs "]:" ++ show_uint port
  end.

(** ** Lines *)

Inductive EventLevel := LevelError | LevelWarn | LevelInfo | LevelDebug | LevelTrace.
Abbreviation record := (EventLevel * bytes)%type (only parsing).
Abbreviation field := (bytes * bytes)%type (only parsing).

Definition field_text (f : field) : bytes := bs " " ++ f.1 ++ bs "=" ++ f.2.
Definition event_line (event : bytes) (fields : list field) : bytes :=
  match fields with [] => event | _ => event ++ bs ":" ++ flat_map field_text fields end.
Definition event_line_with_summary (event : bytes) (fields : list field) (summary : bytes) : bytes :=
  event_line event fields ++ bs ": " ++ summary.

(** [split_once(": ")] and [rsplit_once(": ")]. *)
Definition cut_here (s : bytes) : option bytes :=
  match s with a :: b :: rest => if byte_eqb a ":"%char && byte_eqb b " "%char then Some rest else None | _ => None end.
Fixpoint split_cause (s : bytes) : option (bytes * bytes) :=
  match cut_here s with
  | Some rest => Some ([], rest)
  | None => match s with [] => None | b :: s' => '(x, y) ← split_cause s'; Some (b :: x, y) end
  end.
Fixpoint rsplit_cause (s : bytes) : option (bytes * bytes) :=
  match s with
  | [] => None
  | b :: s' =>
      match rsplit_cause s' with
      | Some (x, y) => Some (b :: x, y)
      | None => rest ← cut_here s; Some ([], rest)
      end
  end.

Definition summarize_error (error : bytes) : bytes := match split_cause error with Some (summary, _) => summary | None => error end.
Definition summarize_live_connection_error (error : bytes) : bytes :=
  match rsplit_cause error with Some (_, cause) => cause | None => error end.
Definition has_nested_error_detail (error : bytes) : bool := negb (bool_decide (summarize_error error = error)).

Definition shutdown_mode_label (m : ShutdownMode) : bytes := match m with Graceful => bs "graceful" | Fast => bs "fast" end.
(** Durations in nanoseconds. *)
Definition format_duration (d : Z) : bytes :=
  if d mod 10 ^ 9 =? 0 then show_uint (d / 10 ^ 9) ++ bs "s" else show_uint (d / 10 ^ 6) ++ bs "ms".

(** ** Routes *)

Inductive ServerRouteOutcome :=
| Forwarded | RejectedServerHostname | RejectedUnauthorized | NoActiveTunnelConnection | AcmeChallenge | MissingAcmeTlsConfig.
Inductive ClientRouteOutcome :=
| RoutePassthrough (backend_address : bytes)
| RouteTerminated (backend_address : bytes)
| RejectedNoMatchingService
| BackendConnectFailed (backend_address : bytes)
| BackendWriteFailed (backend_address : bytes)
| MissingTlsConfig.

Definition server_route_event (public_hostname : bytes) (outcome : ServerRouteOutcome) : record :=
  let host := (bs "public-hostname", public_hostname) in
  let because reason := (bs "reason", reason) in
  match outcome with
  | Forwarded => (LevelDebug, event_line (bs "server route forwarded") [host])
  | RejectedServerHostname => (LevelDebug, event_line (bs "server route rejected") [host; because (bs "non-acme-server-hostname")])
  | RejectedUnauthorized => (LevelDebug, event_line (bs "server route rejected") [host; because (bs "unauthorized-public-hostname")])
  | NoActiveTunnelConnection => (LevelWarn, event_line (bs "server route unavailable") [host; because (bs "no-active-tunnel-connection")])
  | AcmeChallenge => (LevelDebug, event_line (bs "server route acme-challenge") [host])
  | MissingAcmeTlsConfig => (LevelWarn, event_line (bs "server route unavailable") [host; because (bs "acme-tls-config-missing")])
  end.

Definition server_route_rejected_client_hello_event (error : Hello.ClientHelloError) : record :=
  let reason := match error with
                | Hello.InvalidTls => bs "non-tls-client-hello"
                | Hello.MissingSni => bs "missing-sni-client-hello"
                | Hello.InvalidSni => bs "invalid-sni-client-hello"
                | Hello.TimedOut _ => bs "client-hello-timeout"
                | Hello.HelloTooLong _ => bs "oversized-client-hello"
                | Hello.HelloUnexpectedEof => bs "incomplete-client-hello"
                | Hello.HelloIo _ => bs "client-hello-io-error"
                end in
  (LevelDebug, event_line (bs "server route rejected") [(bs "reason", reason)]).

Definition client_route_event (public_hostname : bytes) (outcome : ClientRouteOutcome) : record :=
  let host := (bs "public-hostname", public_hostname) in
  let backend address := (bs "backend-address", address) in
  let because reason := (bs "reason", reason) in
  match outcome with
  | RoutePassthrough a => (LevelDebug, event_line (bs "client route passthrough") [host; backend a])
  | RouteTerminated a => (LevelDebug, event_line (bs "client route terminate") [host; backend a])
  | RejectedNoMatchingService => (LevelWarn, event_line (bs "client route unavailable") [host; because (bs "no-matching-service")])
  | BackendConnectFailed a => (LevelWarn, event_line (bs "client route unavailable") [host; backend a; because (bs "backend-connect-failed")])
  | BackendWriteFailed a => (LevelWarn, event_line (bs "client route unavailable") [host; backend a; because (bs "backend-write-failed")])
  | MissingTlsConfig => (LevelWarn, event_line (bs "client route unavailable") [host; because (bs "tls-config-missing")])
  end.

(** ** ACME *)

Inductive AcmeRole := AcmeServer (server_hostname : bytes) | AcmeClient (public_hostname : bytes).
Inductive AcmeEvent :=
| CachedCertificateReady (remaining_validity : bytes) (renewal_due : bool)
| FirstIssuanceStarting (reason : bytes)
| RenewalStarting (reason : bytes)
| CertificateIssued
| CertificateRenewed
| ChallengeHandled
| ChallengeFailed (error : bytes)
| RecoverableFailure (error : bytes)
| ManagerStopped
| NonStandardPublicBind (bind_address : Proxy.SocketAddr).

Definition acme_event (role : AcmeRole) (event : AcmeEvent) : record :=
  let '(prefix, hostname) := match role with
                             | AcmeServer h => (bs "server acme", (bs "server-hostname", h))
                             | AcmeClient h => (bs "client acme", (bs "public-hostname", h))
                             end in
  match event with
  | CachedCertificateReady remaining_validity renewal_due =>
      (LevelInfo, event_line (prefix ++ bs " cached certificate ready")
         [hostname; (bs "remaining-validity", remaining_validity); (bs "renewal", if renewal_due then bs "due" else bs "not-due")])
  | FirstIssuanceStarting reason => (LevelInfo, event_line (prefix ++ bs " first issuance starting") [hostname; (bs "reason", reason)])
  | RenewalStarting reason => (LevelInfo, event_line (prefix ++ bs " renewal starting") [hostname; (bs "reason", reason)])
  | CertificateIssued => (LevelInfo, event_line (prefix ++ bs " certificate issued") [hostname])
  | CertificateRenewed => (LevelInfo, event_line (prefix ++ bs " certificate renewed") [hostname])
  | ChallengeHandled => (LevelDebug, event_line (prefix ++ bs " challenge handled") [hostname])
  | ChallengeFailed error => (LevelWarn, event_line (prefix ++ bs " challenge failed") [hostname; (bs "error", error)])
  | RecoverableFailure error => (LevelWarn, event_line_with_summary (prefix ++ bs " failed") [hostname] error)
  | ManagerStopped =>
      (LevelError, event_line_with_summary (prefix ++ bs " stopped") [hostname] (bs "automatic certificate management stopped unexpectedly"))
  | NonStandardPublicBind a =>
      (LevelWarn, event_line_with_summary (bs "server acme challenge reachability") [(bs "bind-address", SocketAddr_display a)]
         (bs "TLS-ALPN-01 still requires public TCP 443 reachability; non-443 internal binds can still work behind NAT or container port mapping"))
  end.

(** ** Tunnel connections *)

Definition client_tunnel_retry_field (k : ClientTunnelAttemptKind) : list field :=
  match k with InitialAttempt => [] | RetryAttempt => [(bs "retry", bs "retry")] end.
Definition client_tunnel_attempt_field (k : ClientTunnelAttemptKind) : list field :=
  [(bs "retry", match k with InitialAttempt => bs "initial" | RetryAttempt => bs "retry" end)].
Definition next_retry_delay_field (secs : Z) : list field := [(bs "next-retry-delay", show_uint secs ++ bs "s")].
Definition client_tunnel_startup_failure_level (phase : ClientTunnelPhase) (k : ClientTunnelAttemptKind) : EventLevel :=
  match phase, k with Establishing, InitialAttempt => LevelError | _, _ => LevelWarn end.

Definition server_address (a : bytes) : field := (bs "server-address", a).
Definition resolved_address (a : Proxy.SocketAddr) : field := (bs "resolved-address", SocketAddr_display a).
Definition client_identity_text (i : bytes) : bytes := bs "client-identity=" ++ ClientIdentity_display i.

Definition warning_line (role message : bytes) : bytes := role ++ bs " warning: " ++ message.
Definition server_tunnel_connection_accepted_line (i : bytes) : bytes := bs "server tunnel connection accepted: " ++ client_identity_text i.
Definition server_tunnel_connection_closed_line (i : bytes) : bytes := bs "server tunnel connection closed: " ++ client_identity_text i.
Definition server_tunnel_connection_unauthorized_line (i : bytes) : bytes :=
  event_line (bs "server tunnel connection unauthorized") [(bs "client-identity", ClientIdentity_display i)].
Definition server_tunnel_connection_failed_line (error : bytes) : bytes :=
  bs "server tunnel connection failed: " ++ summarize_live_connection_error error.
Definition server_tunnel_connection_dropped_line (i error : bytes) : bytes :=
  bs "server tunnel connection dropped: " ++ client_identity_text i ++ bs ": " ++ summarize_live_connection_error error.
Definition server_tunnel_connection_dropped_detail_line (i error : bytes) : bytes :=
  bs "server tunnel connection dropped detail: " ++ client_identity_text i ++ bs ": " ++ error.

Definition client_tunnel_connecting_line (phase : ClientTunnelPhase) (k : ClientTunnelAttemptKind) (configured : bytes)
    (resolved : Proxy.SocketAddr) : bytes :=
  event_line (match phase, k with
              | Establishing, InitialAttempt => bs "client tunnel connection connecting"
              | Reconnecting, InitialAttempt => bs "client tunnel connection reconnecting"
              | _, RetryAttempt => bs "client tunnel connection retrying"
              end) ([server_address configured; resolved_address resolved] ++ client_tunnel_retry_field k).
Definition client_tunnel_connect_failed_line (k : ClientTunnelAttemptKind) (configured : bytes) (resolved : Proxy.SocketAddr)
    (secs : Z) (error : bytes) : bytes :=
  event_line_with_summary (bs "client tunnel connection failed")
    ([server_address configured; resolved_address resolved] ++ client_tunnel_attempt_field k ++ next_retry_delay_field secs)
    (summarize_error error).
Definition client_tunnel_connect_failed_detail_line (k : ClientTunnelAttemptKind) (configured : bytes) (resolved : Proxy.SocketAddr)
    (error : bytes) : bytes :=
  event_line_with_summary (bs "client tunnel connection failed detail")
    ([server_address configured; resolved_address resolved] ++ client_tunnel_attempt_field k) error.
Definition client_tunnel_resolution_failed_line (k : ClientTunnelAttemptKind) (configured : bytes) (secs : Z) (error : bytes) : bytes :=
  event_line_with_summary (bs "client tunnel resolution failed")
    ([server_address configured] ++ client_tunnel_attempt_field k ++ next_retry_delay_field secs) (summarize_error error).
Definition client_tunnel_resolution_failed_detail_line (k : ClientTunnelAttemptKind) (configured error : bytes) : bytes :=
  event_line_with_summary (bs "client tunnel resolution failed detail") ([server_address configured] ++ client_tunnel_attempt_field k) error.
Definition client_tunnel_connected_line (configured : bytes) : bytes :=
  event_line (bs "client tunnel connection connected") [server_address configured].
Definition client_tunnel_disconnected_line (configured : bytes) (secs : Z) (error : bytes) : bytes :=
  event_line_with_summary (bs "client tunnel connection dropped") ([server_address configured] ++ next_retry_delay_field secs)
    (summarize_live_connection_error error).
Definition client_tunnel_disconnected_detail_line (configured error : bytes) : bytes :=
  event_line_with_summary (bs "client tunnel connection dropped detail") [server_address configured] error.
Definition client_tunnel_closed_line (configured : bytes) (secs : Z) : bytes :=
  event_line (bs "client tunnel connection closed") ([server_address configured] ++ next_retry_delay_field secs).
Definition client_tunnel_retiring_line (configured : bytes) : bytes :=
  event_line (bs "client tunnel connection retiring") [server_address configured].
Definition client_ready_line (configured : bytes) : bytes := event_line (bs "client ready") [server_address configured].
Definition client_assignment_convergence_line (status : Convergence.AssignmentConvergence) : bytes :=
  event_line (bs "client assignment convergence")
    [(bs "status", match status with
                   | Convergence.Unconverged => bs "unconverged"
                   | Convergence.PartiallyConverged => bs "partially-converged"
                   | Convergence.Converged => bs "converged"
                   end)].
Definition client_tunnel_unauthorized_line (k : ClientTunnelAttemptKind) (configured : bytes) (secs : Z) : bytes :=
  event_line (bs "client tunnel connection unauthorized")
    ([server_address configured] ++ client_tunnel_attempt_field k ++ next_retry_delay_field secs).
Definition client_tunnel_unauthorized_detail_line (k : ClientTunnelAttemptKind) (configured : bytes) (secs : Z) (error : bytes) : bytes :=
  event_line_with_summary (bs "client tunnel connection unauthorized detail")
    ([server_address configured] ++ client_tunnel_attempt_field k ++ next_retry_delay_field secs) error.

(** [UnconfirmedDrain] and [ProtocolFailure] as text; [status] is the text of a status code. *)
Definition UnconfirmedDrain_display (r : UnconfirmedDrain) : bytes :=
  match r with
  | LinkLost => bs "connection-lost"
  | RetryExhausted => bs "retry-exhausted"
  | RequestsForbidden => bs "goaway"
  | DrainDeadline => bs "deadline"
  | FastShutdown => bs "fast-shutdown"
  end.
Definition ProtocolFailure_display (status : Z → bytes) (f : ProtocolFailure) : bytes :=
  match f with FailedStatus s => bs "unexpected status " ++ status s | MalformedConfirmation => bs "malformed 204 confirmation" end.

(** How a Tunnel connection ended, as [quinn::ConnectionError]: closed by either side, or lost. *)
Inductive TunnelEnd := ClosedByPeer | ClosedLocally | LostConnection (error : bytes).

(** ** Events *)

Inductive Role := RoleServer | RoleClient.
Definition role_text (r : Role) : bytes := match r with RoleServer => bs "server" | RoleClient => bs "client" end.

(** The public functions of the module that emit records. *)
Inductive LogEvent :=
| ServerRoute (public_hostname : bytes) (outcome : ServerRouteOutcome)
| ServerRouteRejectedClientHello (error : Hello.ClientHelloError)
| ClientRoute (public_hostname : bytes) (outcome : ClientRouteOutcome)
| ServerTunnelConnectionAccepted (i : bytes)
| ServerTunnelConnectionTerminated (i : bytes) (e : TunnelEnd)
| ServerTunnelConnectionFailed (error : bytes)
| ServerTunnelConnectionUnauthorized (i : bytes)
| ServerAdmissionSaturated (scope : bytes) (active_work limit : Z)
| ServerAdmissionRecovered (scope : bytes)
| ClientStreamHandlerSaturated (active_work limit : Z)
| ClientStreamHandlerRecovered
| ServerPublicListenerAcceptRetry (error : bytes) (delay : Z)
| ServerPublicListenerAcceptRecovered
| ClientVisitorCapacity (configured effective : Z)
| Warning (role message : bytes)
| ClientTunnelConnecting (phase : ClientTunnelPhase) (k : ClientTunnelAttemptKind) (configured : bytes) (resolved : Proxy.SocketAddr)
| ClientTunnelConnectFailed (phase : ClientTunnelPhase) (k : ClientTunnelAttemptKind) (configured : bytes) (resolved : Proxy.SocketAddr)
    (secs : Z) (error : bytes)
| ClientTunnelResolutionFailed (phase : ClientTunnelPhase) (k : ClientTunnelAttemptKind) (configured : bytes) (secs : Z) (error : bytes)
| ClientTunnelConnected (configured : bytes)
| ClientReady (configured : bytes)
| ClientAssignmentConvergence (status : Convergence.AssignmentConvergence)
| ClientTunnelDisconnected (configured : bytes) (secs : Z) (error : bytes)
| ClientTunnelClosed (configured : bytes) (secs : Z)
| ClientTunnelRetiring (configured : bytes)
| ClientTunnelUnauthorized (k : ClientTunnelAttemptKind) (configured : bytes) (secs : Z) (error : bytes)
| ClientTrustStoreWarning (errors : Z)
| ServerRuntimeStarted (generation : bytes)
| ServerPublicListenerReady (bind_address : Proxy.SocketAddr)
| ServerTunnelListenerReady (bind_address : Proxy.SocketAddr)
| ServerReadinessListenerEnabled (bind_address : Proxy.SocketAddr)
| ServerReadinessGained (bind_address : Proxy.SocketAddr)
| ServerReadinessLost (bind_address : Proxy.SocketAddr)
| ServerDrainStarted
| ServerOrderlyShutdownStarted (m : ShutdownMode) (effective_graceful_duration : Z)
| ServerOrderlyShutdownEscalated
| ServerGracefulShutdownDeadlineExpired (active_connections : Z)
| ServerOrderlyShutdownClosing (m : ShutdownMode) (active_connections : Z)
| ClientGracefulShutdownStarted
| ClientGracefulShutdownClosing
| ClientOrderlyShutdownEscalated
| ClientTunnelWithdrawalConfirmed (configured : bytes)
| ClientTunnelWithdrawalUnconfirmed (configured : bytes) (reason : UnconfirmedDrain)
| ClientTunnelWithdrawalFailed (configured : bytes) (failure : ProtocolFailure)
| ClientTunnelCandidateStarting (configured replacement_generation : bytes)
| ClientTunnelCandidateRejected (configured : bytes) (secs : Z)
| ClientTunnelCandidateFailed (configured : bytes) (secs : Z) (error : bytes)
| ClientTunnelCandidateJoined (configured server_generation : bytes)
| ClientTunnelHandedOver (configured : bytes)
| ClientTunnelCandidateAborted (configured reason : bytes)
| ManagedSession (role : Role) (event : Lifecycle.ManagedSessionEvent)
| Acme (role : AcmeRole) (event : AcmeEvent)
| Emitted (level : EventLevel) (message : bytes).

(** [emit_runtime_failure_with_debug_detail] *)
Definition with_debug_detail (level : EventLevel) (summary_line detail_line error : bytes) : list record :=
  (level, summary_line) :: if has_nested_error_detail error then [(LevelDebug, detail_line)] else [].

Definition managed_session_event (role : Role) (event : Lifecycle.ManagedSessionEvent) : record :=
  let field := (bs "role", role_text role) in
  match event with
  | Lifecycle.EvSnapshot _ => (LevelInfo, event_line (bs "managed session snapshot received") [field])
  | Lifecycle.EvApplying _ => (LevelInfo, event_line (bs "managed session revision applying") [field])
  | Lifecycle.EvApplied _ => (LevelInfo, event_line (bs "managed session revision applied") [field])
  | Lifecycle.EvRejected _ => (LevelWarn, event_line (bs "managed session revision rejected") [field])
  | Lifecycle.EvSuperseded _ => (LevelInfo, event_line (bs "managed session revision superseded") [field])
  | Lifecycle.EvReconnecting secs =>
      (LevelWarn, event_line (bs "managed session reconnecting") ([field] ++ next_retry_delay_field secs))
  end.

Section Records.
Context (status : Z → bytes).
#[local] Notation counted name n := (bs name, show_uint n).
#[local] Notation bound a := (bs "bind-address", SocketAddr_display a).

(** [managed_session_event], [acme] and [emit] itself; the groups below fall through to these. *)
Definition session_records (e : LogEvent) : list record :=
  match e with
  | ManagedSession role event => [managed_session_event role event]
  | Acme role event => [acme_event role event]
  | Emitted level message => [(level, message)]
  | _ => []
  end.
(** The Client's shutdown, withdrawal and candidates. *)
Definition client_lifecycle_records (e : LogEvent) : list record :=
  match e with
  | ClientGracefulShutdownStarted => [(LevelInfo, bs "client instance graceful shutdown started")]
  | ClientGracefulShutdownClosing => [(LevelInfo, bs "client instance graceful shutdown closing tunnel connection")]
  | ClientOrderlyShutdownEscalated => [(LevelWarn, bs "client instance orderly shutdown escalated: mode=fast")]
  | ClientTunnelWithdrawalConfirmed configured =>
      [(LevelInfo, event_line (bs "client tunnel withdrawal confirmed") [server_address configured])]
  | ClientTunnelWithdrawalUnconfirmed configured reason =>
      [(LevelWarn, event_line (bs "client tunnel withdrawal unconfirmed") [server_address configured; (bs "reason", UnconfirmedDrain_display reason)])]
  | ClientTunnelWithdrawalFailed configured failure =>
      [(LevelError, event_line (bs "client tunnel withdrawal failed") [server_address configured; (bs "reason", ProtocolFailure_display status failure)])]
  | ClientTunnelCandidateStarting configured generation =>
      [(LevelInfo, event_line (bs "client tunnel candidate starting") [server_address configured; (bs "replacement-generation", generation)])]
  | ClientTunnelCandidateRejected configured secs =>
      [(LevelWarn, event_line (bs "client tunnel candidate rejected")
          ([server_address configured; (bs "reason", bs "wrong-generation")] ++ next_retry_delay_field secs))]
  | ClientTunnelCandidateFailed configured secs error =>
      let fields := [server_address configured] ++ next_retry_delay_field secs in
      with_debug_detail LevelWarn (event_line_with_summary (bs "client tunnel candidate failed") fields (summarize_error error))
        (event_line_with_summary (bs "client tunnel candidate failed detail") fields error) error
  | ClientTunnelCandidateJoined configured generation =>
      [(LevelInfo, event_line (bs "client tunnel candidate joined") [server_address configured; (bs "server-generation", generation)])]
  | ClientTunnelHandedOver configured => [(LevelInfo, event_line (bs "client tunnel handed over") [server_address configured])]
  | ClientTunnelCandidateAborted configured reason =>
      [(LevelInfo, event_line (bs "client tunnel candidate aborted") [server_address configured; (bs "reason", reason)])]
  | _ => session_records e
  end.
(** The Server's listeners, readiness and shutdown. *)
Definition server_lifecycle_records (e : LogEvent) : list record :=
  match e with
  | ServerRuntimeStarted generation => [(LevelInfo, event_line (bs "server runtime started") [(bs "server-generation", generation)])]
  | ServerPublicListenerReady a => [(LevelInfo, event_line (bs "server public listener ready") [bound a])]
  | ServerTunnelListenerReady a => [(LevelInfo, event_line (bs "server tunnel listener ready") [bound a])]
  | ServerReadinessListenerEnabled a =>
      [(LevelInfo, event_line (bs "server readiness listener enabled") [bound a; (bs "kind", bs "tcp-probe-only")])]
  | ServerReadinessGained a => [(LevelInfo, event_line (bs "server readiness gained") [bound a])]
  | ServerReadinessLost a => [(LevelInfo, event_line (bs "server readiness lost") [bound a])]
  | ServerDrainStarted => [(LevelInfo, event_line (bs "server drain started") [])]
  | ServerOrderlyShutdownStarted m duration =>
      [(LevelInfo, event_line (bs "server orderly shutdown started")
          [(bs "mode", shutdown_mode_label m); (bs "effective-graceful-duration", format_duration duration)])]
  | ServerOrderlyShutdownEscalated => [(LevelWarn, bs "server orderly shutdown escalated: mode=fast")]
  | ServerGracefulShutdownDeadlineExpired active =>
      [(LevelWarn, event_line (bs "server graceful shutdown deadline expired") [counted "active-tunnel-connections" active])]
  | ServerOrderlyShutdownClosing m active =>
      [(LevelInfo, event_line (bs "server orderly shutdown closing tunnel connections")
          [(bs "mode", shutdown_mode_label m); counted "active-tunnel-connections" active])]
  | _ => client_lifecycle_records e
  end.
(** The Client's Tunnel attempts. *)
Definition client_tunnel_records (e : LogEvent) : list record :=
  match e with
  | ClientTunnelConnecting phase k configured resolved => [(LevelInfo, client_tunnel_connecting_line phase k configured resolved)]
  | ClientTunnelConnectFailed phase k configured resolved secs error =>
      with_debug_detail (client_tunnel_startup_failure_level phase k) (client_tunnel_connect_failed_line k configured resolved secs error)
        (client_tunnel_connect_failed_detail_line k configured resolved error) error
  | ClientTunnelResolutionFailed phase k configured secs error =>
      with_debug_detail (client_tunnel_startup_failure_level phase k) (client_tunnel_resolution_failed_line k configured secs error)
        (client_tunnel_resolution_failed_detail_line k configured error) error
  | ClientTunnelConnected configured => [(LevelInfo, client_tunnel_connected_line configured)]
  | ClientReady configured => [(LevelInfo, client_ready_line configured)]
  | ClientAssignmentConvergence s => [(LevelInfo, client_assignment_convergence_line s)]
  | ClientTunnelDisconnected configured secs error =>
      with_debug_detail LevelWarn (client_tunnel_disconnected_line configured secs error)
        (client_tunnel_disconnected_detail_line configured error) error
  | ClientTunnelClosed configured secs => [(LevelInfo, client_tunnel_closed_line configured secs)]
  | ClientTunnelRetiring configured => [(LevelInfo, client_tunnel_retiring_line configured)]
  | ClientTunnelUnauthorized k configured secs error =>
      with_debug_detail LevelWarn (client_tunnel_unauthorized_line k configured secs)
        (client_tunnel_unauthorized_detail_line k configured secs error) error
  | ClientTrustStoreWarning errors =>
      [(LevelWarn, show_uint errors ++ bs " system trust-store certificate(s) could not be loaded; continuing with the successfully loaded trust anchors")]
  | _ => server_lifecycle_records e
  end.
(** Routes, Tunnel connections and admission. *)
Definition route_records (e : LogEvent) : list record :=
  match e with
  | ServerRoute h outcome => [server_route_event h outcome]
  | ServerRouteRejectedClientHello error => [server_route_rejected_client_hello_event error]
  | ClientRoute h outcome => [client_route_event h outcome]
  | ServerTunnelConnectionAccepted i => [(LevelInfo, server_tunnel_connection_accepted_line i)]
  | ServerTunnelConnectionTerminated i (LostConnection error) =>
      with_debug_detail LevelWarn (server_tunnel_connection_dropped_line i error) (server_tunnel_connection_dropped_detail_line i error) error
  | ServerTunnelConnectionTerminated i _ => [(LevelInfo, server_tunnel_connection_closed_line i)]
  | ServerTunnelConnectionFailed error => [(LevelWarn, server_tunnel_connection_failed_line error)]
  | ServerTunnelConnectionUnauthorized i => [(LevelWarn, server_tunnel_connection_unauthorized_line i)]
  | ServerAdmissionSaturated scope active limit =>
      [(LevelWarn, event_line (bs "server admission saturated") [(bs "scope", scope); counted "active-work" active; counted "limit" limit])]
  | ServerAdmissionRecovered scope => [(LevelInfo, event_line (bs "server admission recovered") [(bs "scope", scope)])]
  | ClientStreamHandlerSaturated active limit =>
      [(LevelWarn, event_line (bs "client stream handlers saturated") [counted "active-work" active; counted "limit" limit])]
  | ClientStreamHandlerRecovered => [(LevelInfo, event_line (bs "client stream handlers recovered") [])]
  | ServerPublicListenerAcceptRetry error delay =>
      [(LevelWarn, event_line_with_summary (bs "server public listener accept retrying") [(bs "next-retry-delay", format_duration delay)] error)]
  | ServerPublicListenerAcceptRecovered => [(LevelInfo, bs "server public listener accept recovered")]
  | ClientVisitorCapacity configured effective =>
      [(LevelInfo, bs "client Visitor capacity: max-visitor-streams=" ++ show_uint effective ++ bs " configured=" ++ show_uint configured)]
  | Warning role message => [(LevelWarn, warning_line role message)]
  | _ => client_tunnel_records e
  end.
(** The records of an event, in order. *)
Definition records : LogEvent → list record := route_records.

(** ** Correlation and levels *)

(** [ConnectionLogContext]: the generation as text and the ID of the connection. *)
Record LogContext := mkLogContext { context_generation : bytes; context_connection_id : Z }.
Definition correlation (c : LogContext) : bytes :=
  bs "server-generation=" ++ context_generation c ++ bs " connection-id=" ++ show_uint (context_connection_id c).
Definition is_server_message (message : bytes) : bool := bool_decide (take 7 message = bs "server ").

(** [emit] *)
Definition emit (context : option LogContext) (r : record) : record :=
  match context with
  | Some c =>
      if is_server_message r.2
      then (r.1, r.2 ++ (if contains_byte ":"%char r.2 then bs " " else bs ": ") ++ correlation c)
      else r
  | None => r
  end.

(** [server_tunnel_stream_open_failed]: the message beside its structured fields. *)
Definition server_tunnel_stream_open_failed (context : option LogContext) : record :=
  (LevelDebug, match context with
               | Some c => bs "server Visitor stream open failed: " ++ correlation c
               | None => bs "server Visitor stream open failed"
               end).

(** [level_filter] *)
Definition severity (l : EventLevel) : Z :=
  match l with LevelError => 1 | LevelWarn => 2 | LevelInfo => 3 | LevelDebug => 4 | LevelTrace => 5 end.
Definition level_filter (l : LogLevel) : Z :=
  match l with LogOff => 0 | LogError => 1 | LogWarn => 2 | LogInfo => 3 | LogDebug => 4 | LogTrace => 5 end.
Definition enabled (l : LogLevel) (r : record) : bool := severity r.1 <=? level_filter l.

(** What an event prints under an installed level. *)
Definition printed (l : LogLevel) (context : option LogContext) (e : LogEvent) : list record :=
  filter (λ r, enabled l r = true) (emit context <$> records e).
End Records.

Ltac cbn_records :=
  cbn [records route_records client_tunnel_records server_lifecycle_records client_lifecycle_records session_records].

(** ** Installation *)

(** Whether the process has a global subscriber, and the filter of the logger once installed. *)
Record LoggerState := mkLogger { global_default : bool; logger : option LogLevel }.
Inductive InstallOutcome := Installed | Updated.
Inductive InstallError := SetGlobalDefault | Reload.

(** [set_level]; the reload may fail. *)
Definition set_level (reloads : bool) (l : LogLevel) (s : LoggerState) : result InstallError InstallOutcome * LoggerState :=
  if reloads then (Ok Updated, mkLogger (global_default s) (Some l)) else (Err Reload, s).
(** [install] *)
Definition install (reloads : bool) (l : LogLevel) (s : LoggerState) : result InstallError InstallOutcome * LoggerState :=
  match logger s with
  | Some _ => set_level reloads l s
  | None => if global_default s then (Err SetGlobalDefault, s) else (Ok Installed, mkLogger true (Some l))
  end.

(** ** Reading a line back *)

(** The event and the fields of a line without a summary. *)
Definition parse_line (line : bytes) : option (bytes * list (bytes * bytes)) :=
  match split_once ":"%char line with
  | None => Some (line, [])
  | Some (event, rest) => fields ← mapM (split_once "="%char) (tail (split_on " "%char rest)); Some (event, fields)
  end.

(** A field that a line shows unambiguously. *)
Definition plain_field (f : bytes * bytes) : Prop := "="%char ∉ f.1 ∧ " "%char ∉ f.1 ∧ " "%char ∉ f.2.

Lemma split_fields fields w :
  " "%char ∉ w → Forall plain_field fields →
  split_on " "%char (w ++ flat_map field_text fields) = w :: map (λ f, f.1 ++ "="%char :: f.2) fields.
Proof.
  revert w. induction fields as [|[n v] fields IH]; intros w Hw Hf; simpl.
  - rewrite app_nil_r. by apply split_on_none.
  - apply Forall_cons in Hf as [(Hn & Hs & Hv) Hf]. cbn [fst snd] in *. unfold field_text at 1. cbn [fst snd].
    change (bs " ") with [" "%char]. change (bs "=") with ["="%char]. rewrite <- !app_assoc.
    rewrite (split_on_app_sep " "%char w) by done. f_equal. rewrite !app_assoc.
    replace ((n ++ ["="%char]) ++ v) with (n ++ "="%char :: v) by (by rewrite <- app_assoc).
    rewrite IH; [done| |done]. rewrite not_elem_of_app, not_elem_of_cons. split_and!; done.
Qed.

(** The text of an event can be read back: whenever the name of the event has no colon, the names of
    the fields no equals sign, and names and values no space, the line determines the event
    and its fields, in order. *)
Theorem log_line_roundtrip event fields :
  ":"%char ∉ event → Forall plain_field fields → parse_line (event_line event fields) = Some (event, fields).
Proof.
  intros He Hf. unfold event_line, parse_line. destruct fields as [|f fields]; [by rewrite split_once_none|].
  change (bs ":") with [":"%char]. cbn [app]. rewrite split_once_app by done.
  pose proof (split_fields (f :: fields) [] ltac:(apply not_elem_of_nil) Hf) as Hs. cbn [app] in Hs. rewrite Hs. cbn [tail].
  assert (mapM (split_once "="%char) (map (λ f, f.1 ++ "="%char :: f.2) (f :: fields)) = Some (f :: fields)) as Hm; [|by rewrite Hm].
  clear Hs. induction Hf as [|[n v] l (Hn & _) Hl IH]; [done|]. cbn [map mapM fst snd].
  change (mapM (split_once "="%char) ((n ++ "="%char :: v) :: map (λ f0, f0.1 ++ "="%char :: f0.2) l) = Some ((n, v) :: l)).
  cbn [mapM]. rewrite split_once_app by done. cbn. by rewrite IH.
Qed.

(** ** Summaries *)

Lemma split_cause_spec s x y : split_cause s = Some (x, y) → s = x ++ bs ": " ++ y ∧ split_cause x = None.
Proof.
  revert x. induction s as [|b s IH]; intros x; [done|]. cbn [split_cause].
  destruct (cut_here (b :: s)) as [rest|] eqn:Hc.
  - intros [= <- <-]. unfold cut_here in Hc. destruct s as [|c s]; [done|].
    destruct (byte_eqb b ":"%char) eqn:Hb, (byte_eqb c " "%char) eqn:Hd; try done. injection Hc as <-.
    apply byte_eqb_true in Hb, Hd. by subst.
  - destruct (split_cause s) as [[x' y']|] eqn:Hs; [|done]. cbn. intros [= <- <-]. destruct (IH x' eq_refl) as [-> Hx]. split; [done|].
    cbn [split_cause]. destruct (cut_here (b :: x')) as [r|] eqn:Hc'; [|by rewrite Hx].
    destruct x' as [|c x']; [done|]. unfold cut_here in *. cbn [app] in Hc. by destruct (byte_eqb b ":"%char && byte_eqb c " "%char).
Qed.
Lemma rsplit_cause_spec s x y : rsplit_cause s = Some (x, y) → s = x ++ bs ": " ++ y ∧ rsplit_cause y = None.
Proof.
  revert x. induction s as [|b s IH]; intros x; [done|]. cbn [rsplit_cause].
  destruct (rsplit_cause s) as [[x' y']|] eqn:Hs.
  - intros [= <- <-]. destruct (IH x' eq_refl) as [-> Hy]. done.
  - unfold cut_here. destruct s as [|c s]; [done|]. destruct (byte_eqb b ":"%char) eqn:Hb, (byte_eqb c " "%char) eqn:Hd; try done.
    cbn. intros [= <- <-]. apply byte_eqb_true in Hb, Hd. subst. split; [done|]. cbn [rsplit_cause] in Hs.
    destruct (rsplit_cause s) as [[? ?]|]; done.
Qed.

Lemma summarize_idempotent e : summarize_error (summarize_error e) = summarize_error e.
Proof.
  unfold summarize_error. destruct (split_cause e) as [[x y]|] eqn:H; [|by rewrite H].
  apply split_cause_spec in H as [_ ->]. done.
Qed.
Lemma summarize_live_idempotent e : summarize_live_connection_error (summarize_live_connection_error e) = summarize_live_connection_error e.
Proof.
  unfold summarize_live_connection_error. destruct (rsplit_cause e) as [[x y]|] eqn:H; [|by rewrite H].
  apply rsplit_cause_spec in H as [_ ->]. done.
Qed.
Lemma nested_iff e : has_nested_error_detail e = true ↔ ∃ x y, split_cause e = Some (x, y).
Proof.
  unfold has_nested_error_detail, summarize_error. rewrite negb_true_iff, bool_decide_eq_false.
  destruct (split_cause e) as [[x y]|] eqn:H; [|split; [done|by intros (? & ? & ?)]].
  split; [eauto|]. intros _ E. apply split_cause_spec in H as [H _]. apply (f_equal length) in E. rewrite H, !length_app in E.
  cbn in E. lia.
Qed.

(** ** What is printed *)

(** The event with its error cut to what the summary line shows of it, and without the revisions
    of Control. *)
Definition brief (e : LogEvent) : LogEvent :=
  match e with
  | ServerTunnelConnectionTerminated i (LostConnection error) =>
      ServerTunnelConnectionTerminated i (LostConnection (summarize_live_connection_error error))
  | ServerTunnelConnectionFailed error => ServerTunnelConnectionFailed (summarize_live_connection_error error)
  | ClientTunnelConnectFailed phase k a r secs error => ClientTunnelConnectFailed phase k a r secs (summarize_error error)
  | ClientTunnelResolutionFailed phase k a secs error => ClientTunnelResolutionFailed phase k a secs (summarize_error error)
  | ClientTunnelDisconnected a secs error => ClientTunnelDisconnected a secs (summarize_live_connection_error error)
  | ClientTunnelUnauthorized k a secs _ => ClientTunnelUnauthorized k a secs []
  | ClientTunnelCandidateFailed a secs error => ClientTunnelCandidateFailed a secs (summarize_error error)
  | ManagedSession role (Lifecycle.EvSnapshot _) => ManagedSession role (Lifecycle.EvSnapshot [])
  | ManagedSession role (Lifecycle.EvApplying _) => ManagedSession role (Lifecycle.EvApplying [])
  | ManagedSession role (Lifecycle.EvApplied _) => ManagedSession role (Lifecycle.EvApplied [])
  | ManagedSession role (Lifecycle.EvRejected _) => ManagedSession role (Lifecycle.EvRejected [])
  | ManagedSession role (Lifecycle.EvSuperseded _) => ManagedSession role (Lifecycle.EvSuperseded [])
  | e => e
  end.

(** The error whose detail an event logs beside its summary. *)
Definition detailed_error (e : LogEvent) : option bytes :=
  match e with
  | ServerTunnelConnectionTerminated _ (LostConnection error)
  | ClientTunnelConnectFailed _ _ _ _ _ error
  | ClientTunnelResolutionFailed _ _ _ _ error
  | ClientTunnelDisconnected _ _ error
  | ClientTunnelUnauthorized _ _ _ error
  | ClientTunnelCandidateFailed _ _ error => Some error
  | _ => None
  end.

Section Printed.
Context (status : Z → bytes).

Lemma emit_level context r : (emit context r).1 = r.1.
Proof. unfold emit. destruct context; [|done]. by destruct (is_server_message _). Qed.

Lemma printed_summary l context level summary detail error :
  level_filter l ≤ 3 →
  filter (λ r, enabled l r = true) (emit context <$> with_debug_detail level summary detail error) =
  filter (λ r, enabled l r = true) [emit context (level, summary)].
Proof.
  intros Hl. unfold with_debug_detail. destruct (has_nested_error_detail error); [|done]. rewrite fmap_cons.
  assert (∀ x xs ys, filter (λ r, enabled l r = true) xs = filter (λ r, enabled l r = true) ys →
            filter (λ r, enabled l r = true) (x :: xs) = filter (λ r, enabled l r = true) (x :: ys)) as Hcons.
  { intros x xs ys E. rewrite !filter_cons. by rewrite E. }
  apply Hcons. cbn. rewrite decide_False; [done|]. unfold enabled. rewrite emit_level. cbn. rewrite Z.leb_le. lia.
Qed.

(** At the level [info] and below, the log shows only the summaries of errors.  An error whose
    causes are cut away, and an event of the Managed session whose revision is erased, print the
    same: no cause beyond the summary and no revision of Control reaches the log. *)
Theorem info_log_is_brief l context e :
  level_filter l ≤ 3 → printed status l context (brief e) = printed status l context e.
Proof.
  intros Hl. destruct e; try done; unfold printed; cbn [brief]; cbn_records.
  - destruct e as [| |error]; try done. cbn_records. rewrite !printed_summary by done.
    unfold server_tunnel_connection_dropped_line. by rewrite summarize_live_idempotent.
  - unfold server_tunnel_connection_failed_line. by rewrite summarize_live_idempotent.
  - rewrite !printed_summary by done. unfold client_tunnel_connect_failed_line. by rewrite summarize_idempotent.
  - rewrite !printed_summary by done. unfold client_tunnel_resolution_failed_line. by rewrite summarize_idempotent.
  - rewrite !printed_summary by done. unfold client_tunnel_disconnected_line. by rewrite summarize_live_idempotent.
  - by rewrite !printed_summary.
  - cbn zeta. rewrite !printed_summary by done. by rewrite summarize_idempotent.
  - by destruct event.
Qed.

(** The detail of an error is logged exactly when the error has causes, at the level [debug], after
    the summary, and ends with the whole error. *)
Theorem debug_log_has_detail e error :
  detailed_error e = Some error →
  ∃ summary, summary.1 ≠ LevelDebug ∧
    if has_nested_error_detail error
    then ∃ prefix, records status e = [summary; (LevelDebug, prefix ++ bs ": " ++ error)]
    else records status e = [summary].
Proof.
  assert (∀ level s prefix error', level ≠ LevelDebug →
    ∃ summary, summary.1 ≠ LevelDebug ∧
      if has_nested_error_detail error'
      then ∃ p, with_debug_detail level s (prefix ++ bs ": " ++ error') error' = [summary; (LevelDebug, p ++ bs ": " ++ error')]
      else with_debug_detail level s (prefix ++ bs ": " ++ error') error' = [summary]) as H.
  { intros level s prefix error' Hl. exists (level, s). split; [done|]. unfold with_debug_detail.
    destruct (has_nested_error_detail error'); [by exists prefix|done]. }
  destruct e; try done; cbn [detailed_error].
  - destruct e as [| |error']; try done. intros [= ->]. cbn_records.
    unfold server_tunnel_connection_dropped_detail_line. rewrite !app_assoc. rewrite <- (app_assoc _ (bs ": ") error). by apply H.
  - intros [= ->]. apply H. by destruct phase, k.
  - intros [= ->]. apply H. by destruct phase, k.
  - intros [= ->]. by apply H.
  - intros [= ->]. by apply H.
  - intros [= ->]. by apply H.
Qed.

Lemma detail_no_trace level summary detail error :
  level ≠ LevelTrace → Forall (λ r, r.1 ≠ LevelTrace) (with_debug_detail level summary detail error).
Proof. intros Hl. unfold with_debug_detail. destruct (has_nested_error_detail error); by repeat constructor. Qed.

Lemma records_no_trace e : (∀ m, e ≠ Emitted LevelTrace m) → Forall (λ r, r.1 ≠ LevelTrace) (records status e).
Proof.
  intros He. destruct e; cbn_records; try (by repeat constructor); try (by apply detail_no_trace).
  - destruct outcome; by repeat constructor.
  - destruct outcome; by repeat constructor.
  - destruct e as [| |error]; [by repeat constructor..|by apply detail_no_trace].
  - apply detail_no_trace. by destruct phase, k.
  - apply detail_no_trace. by destruct phase, k.
  - destruct event; by repeat constructor.
  - destruct role, event; by repeat constructor.
  - apply Forall_singleton. cbn. intros ->. by apply (He message).
Qed.

(** [trace] prints what [debug] prints, and [off] nothing. *)
Theorem trace_prints_debug context e :
  (∀ m, e ≠ Emitted LevelTrace m) →
  printed status LogTrace context e = printed status LogDebug context e ∧ printed status LogOff context e = [].
Proof.
  intros He%records_no_trace. unfold printed. induction He as [|r rs Hr Hrs [IH1 IH2]]; [done|]. rewrite fmap_cons, !filter_cons. split.
  - rewrite !decide_True; [by rewrite IH1|..]; unfold enabled; rewrite emit_level; by destruct r as [[] m].
  - rewrite decide_False; [done|]. unfold enabled. rewrite emit_level. by destruct r as [[] m].
Qed.

(** ** Correlation *)

(** The events that a Server logs of one connection. *)
Definition connection_event (e : LogEvent) : bool :=
  match e with
  | ServerRoute _ _ | ServerRouteRejectedClientHello _ | ServerTunnelConnectionAccepted _ | ServerTunnelConnectionTerminated _ _
  | ServerTunnelConnectionFailed _ | ServerTunnelConnectionUnauthorized _ => true
  | _ => false
  end.
(** The events of a Client. *)
Definition is_client_message (message : bytes) : bool := bool_decide (take 7 message = bs "client ").

(** A message of a connection: of the Server, with the colon of its fields. *)
Definition connection_message (m : bytes) : Prop := is_server_message m = true ∧ ":"%char ∈ m.

Lemma event_line_message event fields :
  is_server_message event = true → fields ≠ [] → connection_message (event_line event fields).
Proof.
  unfold connection_message, is_server_message, event_line. rewrite !bool_decide_eq_true. intros He Hf. destruct fields as [|f fields]; [done|]. split.
  - rewrite take_app_le; [done|]. apply (f_equal length) in He. rewrite length_take in He. change (length (bs "server ")) with 7%nat in He. lia.
  - rewrite elem_of_app. right. by left.
Qed.
Lemma text_message prefix m : connection_message prefix → connection_message (prefix ++ m).
Proof.
  unfold connection_message, is_server_message. rewrite !bool_decide_eq_true, elem_of_app. intros [Hp Hc]. split; [|by left].
  rewrite take_app_le; [done|]. apply (f_equal length) in Hp. rewrite length_take in Hp. change (length (bs "server ")) with 7%nat in Hp. lia.
Qed.
Lemma detail_messages level summary detail error :
  connection_message summary → connection_message detail →
  Forall (λ r, connection_message r.2) (with_debug_detail level summary detail error).
Proof.
  intros. unfold with_debug_detail. destruct (has_nested_error_detail error); rewrite ?Forall_cons, Forall_nil; auto.
Qed.

Lemma connection_records e : connection_event e = true → Forall (λ r, connection_message r.2) (records status e).
Proof.
  assert (∀ m, is_server_message m = true → contains_byte ":"%char m = true → connection_message m) as Hm.
  { intros m H1 H2. split; [done|]. apply dec_stable. intros Hn. apply contains_byte_false in Hn. congruence. }
  destruct e; try done; intros _; cbn_records.
  - apply Forall_singleton. destruct outcome; by apply event_line_message.
  - apply Forall_singleton. destruct error; by apply event_line_message.
  - apply Forall_singleton. by apply text_message, Hm.
  - destruct e as [| |error]; [apply Forall_singleton; by apply text_message, Hm..|].
    apply detail_messages; by apply text_message, Hm.
  - apply Forall_singleton. by apply text_message, Hm.
  - apply Forall_singleton. by apply event_line_message.
Qed.

(** Every record of a Server connection names its generation and its connection: routes of
    Visitors, refused Client hellos, and accepted, closed, dropped, failed and unauthorized Tunnel
    connections, with their details, and failed stream opens, end with the two fields, after the
    colon of the message; and no record of a Client is changed by them. *)
Theorem connection_records_correlated c e r :
  (connection_event e = true → r ∈ records status e →
     ∃ base, (emit (Some c) r).2 = base ++ bs " " ++ correlation c ∧ ":"%char ∈ base ∧ (emit (Some c) r).1 = r.1) ∧
  (∃ base, (server_tunnel_stream_open_failed (Some c)).2 = base ++ bs " " ++ correlation c ∧ ":"%char ∈ base) ∧
  (is_client_message r.2 = true → emit (Some c) r = r).
Proof.
  split; [|split].
  - intros He Hr. pose proof (connection_records e He) as Hall. rewrite Forall_forall in Hall. destruct (Hall r Hr) as [Hs Hc].
    exists r.2. unfold emit. rewrite Hs. assert (contains_byte ":"%char r.2 = true) as ->; [|done].
    apply not_false_is_true. intros Hn%contains_byte_false. done.
  - exists (bs "server Visitor stream open failed:"). split; [done|]. apply dec_stable. intros Hn%contains_byte_false. done.
  - unfold is_client_message. rewrite bool_decide_eq_true. intros Hc. unfold emit, is_server_message.
    by rewrite bool_decide_eq_false_2 by (rewrite Hc; done).
Qed.
End Printed.

(** ** Examples *)

Lemma log_line_roundtrip_witness :
  let fields := [(bs "public-hostname", bs "a.example.com"); (bs "reason", bs "no-active-tunnel-connection")] in
  snd (server_route_event (bs "a.example.com") NoActiveTunnelConnection) = event_line (bs "server route unavailable") fields ∧
  parse_line (event_line (bs "server route unavailable") fields) = Some (bs "server route unavailable", fields).
Proof.
  intros fields. split; [reflexivity|]. apply (log_line_roundtrip (bs "server route unavailable") fields).
  - apply contains_byte_false. reflexivity.
  - assert (∀ c s, contains_byte c s = false → c ∉ s) as H by (intros; by apply contains_byte_false).
    unfold fields, plain_field. rewrite !Forall_cons, Forall_nil. split_and!; try done; apply H; reflexivity.
Defined.

Definition lost : LogEvent := ServerTunnelConnectionTerminated (replicate 2 "a"%char) (LostConnection (bs "connection lost: timed out")).
Definition lost_context : LogContext := mkLogContext (bs "g1") 7.

Lemma info_log_is_brief_witness :
  printed (λ _, []) LogInfo (Some lost_context) lost =
    [(LevelWarn, bs "server tunnel connection dropped: client-identity=6161: timed out server-generation=g1 connection-id=7")] ∧
  printed (λ _, []) LogInfo (Some lost_context) (brief lost) = printed (λ _, []) LogInfo (Some lost_context) lost ∧
  length (printed (λ _, []) LogDebug (Some lost_context) lost) = 2%nat.
Proof.
  split; [vm_compute; reflexivity|]. split; [|vm_compute; reflexivity]. apply (info_log_is_brief (λ _, []) LogInfo). cbn. lia.
Defined.

Example socket_addresses :
  SocketAddr_display (Proxy.SockV4 (127 * 2 ^ 24 + 1) 443) = bs "127.0.0.1:443" ∧
  SocketAddr_display (Proxy.SockV6 1 8080 0 0) = bs "[::1]:8080" ∧
  SocketAddr_display (Proxy.SockV6 (8193 * 2 ^ 112 + 3512 * 2 ^ 96 + 1) 1 0 3) = bs "[2001:db8::1%3]:1" ∧
  SocketAddr_display (Proxy.SockV6 (65535 * 2 ^ 32 + 10 * 2 ^ 24 + 1) 1 0 0) = bs "[::ffff:10.0.0.1]:1".
Proof. split_and!; vm_compute; reflexivity. Qed.
