(* ===== verification/Process.v ===== *)
(** * Process: signals, failures and hints of the command line

    The signal handling of [src/commands/mod.rs], [src/commands/server/mod.rs] and
    [src/commands/client/mod.rs], the flags those commands refuse, how a run ends
    ([src/error_handling.rs]) and the hints on missing material ([src/config_hints.rs]).

    [clap] and the system's signals are inputs.  A signal is delivered to the future that waits
    for it when it arrives; the runtime keeps its handlers installed, so a signal that no future
    waits for is ignored. *)

From Stdlib Require Import String Ascii ZArith Lia.
From stdpp Require Import base strings numbers gmap list.
From S2P Require Import Prelude Text Shutdown Supervision ConfigPrep RuntimeLog.

Open Scope Z_scope.

(** ** Signals *)

Inductive ShutdownSignalEvent := CtrlC | Sigterm | Sigquit.

Definition shutdown_mode_for_first_signal (event : ShutdownSignalEvent) : ShutdownMode :=
  match event with Sigquit => Fast | CtrlC | Sigterm => Graceful end.
Definition should_escalate_to_fast (event : ShutdownSignalEvent) : bool :=
  match event with CtrlC | Sigquit => true | Sigterm => false end.

(** The signals that [wait_for_fast_shutdown_signal] selects; [wait_for_initial_shutdown_signal]
    selects all three. *)
Definition fast_signal (event : ShutdownSignalEvent) : bool := match event with CtrlC | Sigquit => true | Sigterm => false end.

(** [OrderlyShutdown::begin_graceful] and [begin_fast] as one step. *)
Definition begin_once (m : ShutdownMode) (current : option ShutdownMode) : ShutdownTransition * option ShutdownMode :=
  match current, m with
  | None, _ => (Started m, Some m)
  | Some Graceful, Fast => (EscalatedToFast, Some Fast)
  | Some m', _ => (AlreadyStarted m', Some m')
  end.

(** A signal, the failure of the signal handlers, or a shutdown begun by another part of the
    process. *)
Inductive SignalInput :=
| Delivered (event : ShutdownSignalEvent)
| Unavailable (error : bytes)
| BegunElsewhere (m : ShutdownMode).

(** Waiting for the first signal, waiting for a fast one, or no longer waiting. *)
Inductive SignalPlace := AwaitingFirst | AwaitingFast | SignalsOver.

(** *** The Server's signal task *)

Record ServerSignals := mkServerSignals { signal_place : SignalPlace; server_mode : option ShutdownMode; signal_log : list LogEvent }.
Definition server_signals_init : ServerSignals := mkServerSignals AwaitingFirst None [].

Definition first_server_signal (graceful_shutdown_duration : Z) (event : ShutdownSignalEvent) (s : ServerSignals) : ServerSignals :=
  let m := shutdown_mode_for_first_signal event in
  let duration := match m with Graceful => graceful_shutdown_duration | Fast => 0 end in
  mkServerSignals
    (match m with Graceful => if should_escalate_to_fast event then AwaitingFast else SignalsOver | Fast => SignalsOver end)
    (snd (begin_once m (server_mode s)))
    (signal_log s ++ [ServerOrderlyShutdownStarted m duration]).

Definition second_server_signal (event : ShutdownSignalEvent) (s : ServerSignals) : ServerSignals :=
  if should_escalate_to_fast event then
    let '(t, m) := begin_once Fast (server_mode s) in
    mkServerSignals SignalsOver m (signal_log s ++ if bool_decide (t = EscalatedToFast) then [ServerOrderlyShutdownEscalated] else [])
  else mkServerSignals SignalsOver (server_mode s) (signal_log s).

Definition server_signal (graceful_shutdown_duration : Z) (s : ServerSignals) (i : SignalInput) : ServerSignals :=
  match i, signal_place s with
  | BegunElsewhere m, p => mkServerSignals p (snd (begin_once m (server_mode s))) (signal_log s)
  | Delivered event, AwaitingFirst => first_server_signal graceful_shutdown_duration event s
  | Unavailable error, AwaitingFirst =>
      mkServerSignals SignalsOver (snd (begin_once Fast (server_mode s)))
        (signal_log s ++ [Emitted LevelError (bs "server shutdown signal handling unavailable; forcing fast shutdown: " ++ error)])
  | Delivered event, AwaitingFast => if fast_signal event then second_server_signal event s else s
  | Unavailable error, AwaitingFast =>
      mkServerSignals SignalsOver (server_mode s)
        (signal_log s ++ [Warning (bs "server")
           (bs "fast shutdown escalation signal handling unavailable; continuing graceful shutdown: " ++ error)])
  | _, SignalsOver => s
  end.
Definition server_signals (graceful_shutdown_duration : Z) (inputs : list SignalInput) : ServerSignals :=
  foldl (server_signal graceful_shutdown_duration) server_signals_init inputs.

(** *** The Client's two futures *)

(** [escalates] is stored by the first future and read by the second when it is first polled,
    after the first has completed. *)
Record ClientSignals := mkClientSignals { client_signal_place : SignalPlace; escalates : bool; client_signal_log : list LogEvent }.
Definition client_signals_init : ClientSignals := mkClientSignals AwaitingFirst false [].

(** What the futures tell the supervisor. *)
Definition client_signal (s : ClientSignals) (i : SignalInput) : ClientSignals * option ClientAction :=
  match i, client_signal_place s with
  | Delivered event, AwaitingFirst =>
      let escalates := should_escalate_to_fast event in
      (mkClientSignals (if escalates then AwaitingFast else SignalsOver) escalates (client_signal_log s),
       Some (Signal (Some (shutdown_mode_for_first_signal event))))
  | Unavailable error, AwaitingFirst =>
      (mkClientSignals (if escalates s then AwaitingFast else SignalsOver) (escalates s) (client_signal_log s), Some (Signal None))
  | Delivered event, AwaitingFast =>
      if fast_signal event && should_escalate_to_fast event
      then (mkClientSignals SignalsOver (escalates s) (client_signal_log s), Some Escalation)
      else (s, None)
  | Unavailable error, AwaitingFast =>
      (mkClientSignals SignalsOver (escalates s)
         (client_signal_log s ++ [Warning (bs "client")
            (bs "fast shutdown escalation signal handling unavailable; continuing graceful shutdown: " ++ error)]), None)
  | _, _ => (s, None)
  end.
Fixpoint client_signals (s : ClientSignals) (inputs : list SignalInput) : list ClientAction :=
  match inputs with
  | [] => []
  | i :: inputs' => let '(s', a) := client_signal s i in option_list a ++ client_signals s' inputs'
  end.

(** ** How a run ends *)

(** [Box<dyn Error>] as far as it is told apart, [RunError] and [RunTermination]. *)
Inductive BoxError := LoggedRuntimeError | PlainError (message : bytes).
Inductive RunError (K : Type) := RunCli (error : K) | RunLogged | RunOther (message : bytes).
Arguments RunCli {K}.
Arguments RunLogged {K}.
Arguments RunOther {K}.
Inductive RunTermination (K : Type) := ClapExit (error : K) | ExitSuccess | ExitFailure.
Arguments ClapExit {K}.
Arguments ExitSuccess {K}.
Arguments ExitFailure {K}.

Definition classify_runtime_error {K} (error : BoxError) : RunError K :=
  match error with LoggedRuntimeError => RunLogged | PlainError message => RunOther message end.
(** The failure is logged, and its record is the log's. *)
Definition logged_runtime_failure (message : bytes) : LogEvent * BoxError := (Emitted LevelError message, LoggedRuntimeError).

(** The termination and what is written to the standard error. *)
Definition finish_run {K} (r : result (RunError K) unit) : RunTermination K * bytes :=
  match r with
  | Ok _ => (ExitSuccess, [])
  | Err (RunCli error) => (ClapExit error, [])
  | Err RunLogged => (ExitFailure, [])
  | Err (RunOther message) => (ExitFailure, message ++ [u8_of 10])
  end.
(** [finish_run_after]: the standard error is locked only to write. *)
Definition finish_run_after {K} (r : result (RunError K) unit) : RunTermination K * bytes :=
  match r with
  | Ok _ => (ExitSuccess, [])
  | Err (RunCli error) => (ClapExit error, [])
  | Err RunLogged => (ExitFailure, [])
  | Err (RunOther message) => finish_run (Err (RunOther message))
  end.

(** ** Commands *)

(** The flags of the runtime that the material commands refuse. *)
Definition client_forbidden_runtime_flags (server_addresses : list bytes) (backend_address control_address : option bytes) : list bytes :=
  (if bool_decide (server_addresses = []) then [] else [bs "--server-address"]) ++
  (match backend_address with Some _ => [bs "--backend-address"] | None => [] end) ++
  (match control_address with Some _ => [bs "--control-address"] | None => [] end).

Inductive ClientSubcommand := ClientRun | ClientIdentity | ClientPublicCert.
Definition client_refused (sub : ClientSubcommand) (server_addresses : list bytes) (backend_address control_address : option bytes) :
    option bytes :=
  let flags := client_forbidden_runtime_flags server_addresses backend_address control_address in
  let message command := join (bs " and ") flags ++ bs " may be used only with `runewarp client`, not `runewarp client " ++ command ++ bs " ...`" in
  match sub with
  | ClientRun => None
  | ClientIdentity => if bool_decide (flags = []) then None else Some (message (bs "identity"))
  | ClientPublicCert => if bool_decide (flags = []) then None else Some (message (bs "public-cert"))
  end.

(** [server cert] refuses the runtime's flags one by one. *)
Definition server_refused (cert : bool) (hostname control_address : option bytes) : option bytes :=
  if cert then
    match hostname, control_address with
    | Some h, _ =>
        Some (bs "--hostname is only supported for `runewarp server`, not `runewarp server cert ...` (got `" ++ h ++
              bs "`). Use `runewarp server cert init --hostname ...` or `runewarp server cert rotate-ca --hostname ...` for certificate commands.")
    | None, Some a =>
        Some (bs "--control-address is only supported for `runewarp server`, not `runewarp server cert ...` (got `" ++ a ++ bs "`).")
    | None, None => None
    end
  else None.

(** The steps of [server::run] and [client::run] of a role: resolving the configuration, installing
    the logger, preparing and running the runtime; the last two log their failure. *)
Inductive Stage := Resolving | Installing | Preparing | Running.
Definition run_role (outcome : option (Stage * bytes)) : list LogEvent * result BoxError unit :=
  match outcome with
  | None => ([], Ok tt)
  | Some (Resolving, message) | Some (Installing, message) => ([], Err (PlainError message))
  | Some (Preparing, message) | Some (Running, message) =>
      let '(event, error) := logged_runtime_failure message in ([event], Err error)
  end.

(** The process: its termination, its standard error after the run, and its log under a level. *)
Definition run_process {K} (level : LogLevel) (parsed : result K (option (Stage * bytes))) :
    RunTermination K * bytes * list (EventLevel * bytes) :=
  match parsed with
  | Err error => (finish_run_after (Err (RunCli error)), [])
  | Ok outcome =>
      let '(events, r) := run_role outcome in
      (finish_run_after (map_err classify_runtime_error r), events ≫= printed (λ _, []) level None)
  end.

(** ** Hints *)

Definition any_message_starts_with (messages prefixes : list bytes) : bool :=
  existsb (λ message, existsb (λ prefix, bool_decide (take (length prefix) message = prefix)) prefixes) messages.
Definition server_material_missing (messages : list bytes) : bool :=
  any_message_starts_with messages [bs "server.cert-dir directory not found:"; bs "server.cert-dir file not found:"].
Definition client_identity_messages_missing (messages : list bytes) : bool :=
  any_message_starts_with messages [bs "client.identity-dir directory not found:"; bs "client.identity-dir file not found:"].

Definition is_nondefault_config_path (config_path : bytes) (default_config_path : option bytes) : bool :=
  match default_config_path with Some d => negb (bool_decide (d = config_path)) | None => true end.
Definition hint_command (default_config_path : option bytes) (base config_path : bytes) : bytes :=
  if is_nondefault_config_path config_path default_config_path then base ++ bs " --config " ++ config_path else base.

(** An error as its text, the messages of its validation and the selected file. *)
Record ResolutionError := mkResolutionError { error_text : bytes; validation_messages : list bytes; selected_config_path : option bytes }.
Definition wrap_resolution_error (missing : list bytes → bool) (base : bytes) (default_config_path : option bytes) (e : ResolutionError) : bytes :=
  if missing (validation_messages e)
  then error_text e ++ [u8_of 10] ++ bs "Hint: " ++
       match selected_config_path e with Some p => hint_command default_config_path base p | None => base end
  else error_text e.
Definition wrap_server_config_resolution_error : option bytes → ResolutionError → bytes :=
  wrap_resolution_error server_material_missing (bs "runewarp server cert init").
Definition wrap_client_config_resolution_error : option bytes → ResolutionError → bytes :=
  wrap_resolution_error client_identity_messages_missing (bs "runewarp client identity init").

(** ** The one-step view of a shutdown *)

(** A call that no other call interleaves with behaves as [begin_once]. *)
Lemma begin_once_refines s i requested (now : Z) :
  shutdown_inv s → callers s !! i = None →
  ∃ acts s', run_actions exec s (Begin i requested :: acts) = Some s' ∧
    mode s' = snd (begin_once requested (mode s)) ∧ returned s' = fst (begin_once requested (mode s)) :: returned s.
Proof.
  intros [Hst _ _ _ _] Hi. assert (state s = 0 ∨ state s = 1 ∨ state s = 2) as Hs by lia.
  destruct s as [st at_ cs ws rs]. cbn [state callers] in *.
  pose (acts := if st =? 0 then [LoadState i; RecordStart i now; Exchange i; NotifyWaiters i]
                else if st <? target_of requested then [LoadState i; Exchange i; NotifyWaiters i] else [LoadState i]).
  exists acts. unfold acts. destruct Hs as [-> | [-> | ->]], requested; eexists; (split; [|split]);
    try (repeat (progress (cbn -[lookup insert delete fmap]; rewrite ?lookup_insert_eq, ?Hi)); reflexivity); done.
Qed.

(** ** Signals: the two roles agree *)

Section Agreement.
Context (d : Z).

(** No other part of the process begins the shutdown. *)
Definition from_signals (i : SignalInput) : bool := match i with BegunElsewhere _ => false | _ => true end.

Record agree (s : ServerSignals) (cs : ClientSignals) (c : ClientSupervisor) : Prop := {
  agree_mode : server_mode s = client_mode c;
  agree_place :
    match signal_place s with
    | AwaitingFirst => client_signal_place cs = AwaitingFirst ∧ client_place c = ClientSelecting ∧ server_mode s = None ∧ escalates cs = false ∧ escalated c = false
    | AwaitingFast => client_signal_place cs = AwaitingFast ∧ (∃ ok, client_place c = Finishing ok true) ∧ server_mode s = Some Graceful
    | SignalsOver =>
        client_signal_place cs = SignalsOver ∨
        (client_signal_place cs = AwaitingFast ∧ (∃ ok, client_place c = Finishing ok true) ∧ server_mode s = Some Fast ∧ escalated c = false)
    end;
  agree_log : escalated c = true ↔ ServerOrderlyShutdownEscalated ∈ signal_log s
}.

Ltac agreed := eexists; (split; [reflexivity|]); split; cbn; [done|eauto 8|rewrite ?bool_decide_eq_true_2, ?elem_of_app, ?list_elem_of_singleton by done; intuition congruence].

Lemma agree_step s cs c i :
  from_signals i = true → agree s cs c →
  ∃ c', run_actions client_supervisor_exec c (option_list (snd (client_signal cs i))) = Some c' ∧
    agree (server_signal d s i) (fst (client_signal cs i)) c'.
Proof.
  intros Hi [Hm Hp Hl]. destruct s as [[] m log], cs as [place esc clog], c as [mg cp cm cr csr cst acme ec]; cbn in *; subst m.
  - destruct Hp as (-> & -> & -> & -> & ->). destruct i as [[]|error|]; [agreed..|done].
  - destruct Hp as (-> & [ok ->] & ->). destruct i as [[]|error|]; [agreed..|done].
  - destruct Hp as [-> | (-> & [ok ->] & -> & ->)]; (destruct i as [[]|error|]; [agreed..|done]).
Qed.

Lemma agree_run s cs c inputs :
  Forall (λ i, from_signals i = true) inputs → agree s cs c →
  ∃ c' cs', run_actions client_supervisor_exec c (client_signals cs inputs) = Some c' ∧
    agree (foldl (server_signal d) s inputs) cs' c'.
Proof.
  intros Hf. revert s cs c. induction Hf as [|i inputs Hi Hf IH]; intros s cs c Ha; [by exists c, cs|].
  destruct (agree_step s cs c i Hi Ha) as (c1 & Hr & Ha1). cbn [client_signals foldl].
  destruct (client_signal cs i) as [cs1 a]. cbn [fst snd] in *. destruct (IH _ _ _ Ha1) as (c' & cs' & Hr' & Ha').
  exists c', cs'. split; [|done]. rewrite run_actions_app, Hr. exact Hr'.
Qed.

(** *** Which signals make it fast *)

Lemma over_stays m log inputs :
  Forall (λ i, from_signals i = true) inputs →
  foldl (server_signal d) (mkServerSignals SignalsOver m log) inputs = mkServerSignals SignalsOver m log.
Proof. induction 1 as [|[| |] inputs Hi Hf IH]; done. Qed.

(** A second signal that is not [SIGTERM]. *)
Definition second_signal (inputs : list SignalInput) : Prop :=
  ∃ n event rest, inputs = replicate n (Delivered Sigterm) ++ Delivered event :: rest ∧ event ≠ Sigterm.

Lemma awaiting_fast_mode log inputs :
  Forall (λ i, from_signals i = true) inputs →
  let m := server_mode (foldl (server_signal d) (mkServerSignals AwaitingFast (Some Graceful) log) inputs) in
  (m = Some Fast ∧ second_signal inputs) ∨ (m = Some Graceful ∧ ¬ second_signal inputs).
Proof.
  induction 1 as [|i inputs Hi Hf IH]; cbn zeta; cbn [foldl].
  - right. split; [done|]. intros ([|n] & event & rest & ? & _); done.
  - destruct i as [event|error|]; [| |done].
    + destruct event; cbn [server_signal signal_place fast_signal second_server_signal should_escalate_to_fast].
      * left. cbn. rewrite over_stays by done. split; [done|]. by exists 0%nat, CtrlC, inputs.
      * cbn zeta in IH. destruct IH as [[-> (n & event & rest & -> & He)]|[-> Hn]].
        -- left. split; [done|]. by exists (S n), event, rest.
        -- right. split; [done|]. intros ([|n] & event & rest & [= E] & He); [congruence|]. apply Hn. by exists n, event, rest.
      * left. cbn. rewrite over_stays by done. split; [done|]. by exists 0%nat, Sigquit, inputs.
    + right. cbn. rewrite over_stays by done. split; [done|]. intros ([|n] & event & rest & ? & _); done.
Qed.
End Agreement.

(** C35: Signals decide the shutdown of both roles alike.  A Server and a Client that receive the same
    signals are shut down in the same mode and report the same escalation: fast if and only if
    the first is [SIGQUIT], the handlers are unavailable, or the first is [Ctrl-C] and another
    [Ctrl-C] or a [SIGQUIT] follows; and gracefully otherwise, so that after a first [SIGTERM] no
    signal makes the shutdown fast. *)
Theorem signals_decide_shutdown d managed inputs :
  Forall (λ i, from_signals i = true) inputs →
  let s := server_signals d inputs in
  (∃ c, run_actions client_supervisor_exec (client_supervisor_new managed) (client_signals client_signals_init inputs) = Some c ∧
     client_mode c = server_mode s ∧ (escalated c = true ↔ ServerOrderlyShutdownEscalated ∈ signal_log s)) ∧
  match inputs with
  | [] => server_mode s = None
  | Delivered Sigquit :: _ | Unavailable _ :: _ => server_mode s = Some Fast
  | Delivered Sigterm :: _ => server_mode s = Some Graceful
  | Delivered CtrlC :: rest =>
      (server_mode s = Some Fast ∧ second_signal rest) ∨ (server_mode s = Some Graceful ∧ ¬ second_signal rest)
  | BegunElsewhere _ :: _ => True
  end.
Proof.
  intros Hf s. split.
  - destruct (agree_run d server_signals_init client_signals_init (client_supervisor_new managed) inputs Hf) as (c & cs & Hr & [Hm _ Hl]).
    { split; cbn; [done..|]. split; [done|]. intros H. by apply elem_of_nil in H. }
    exists c. split; [done|]. split; [by symmetry|exact Hl].
  - destruct inputs as [|i rest]; [done|]. apply Forall_cons in Hf as [Hi Hf]. unfold s, server_signals. cbn [foldl].
    destruct i as [[]|error|m]; [| | | |done]; cbn [server_signal signal_place server_signals_init].
    + by apply awaiting_fast_mode.
    + unfold first_server_signal. cbn. by rewrite over_stays.
    + unfold first_server_signal. cbn. by rewrite over_stays.
    + by rewrite over_stays.
Qed.

Lemma signals_decide_shutdown_witness :
  let s := server_signals 60 [Delivered Sigterm; Delivered CtrlC; Delivered Sigquit] in
  server_mode s = Some Graceful ∧ signal_log s = [ServerOrderlyShutdownStarted Graceful 60].
Proof.
  split; [|reflexivity].
  apply (signals_decide_shutdown 60 false [Delivered Sigterm; Delivered CtrlC; Delivered Sigquit]). by repeat constructor.
Defined.

(** ** Failures are reported once *)

(** The exit status tells whether the run succeeded, and a failure is reported once.  A failure to
    resolve the configuration or to install the logger is written to the standard error and not
    logged; a failure of the runtime is one record of the log, shown unless the log is off, and
    nothing is written beside it. *)
Theorem failure_reported_once {K} level (parsed : result K (option (Stage * bytes))) :
  let '(termination, stderr, log) := run_process level parsed in
  (termination = ExitSuccess ↔ parsed = Ok None) ∧
  match parsed with
  | Err error => termination = ClapExit error ∧ stderr = [] ∧ log = []
  | Ok None => stderr = [] ∧ log = []
  | Ok (Some ((Resolving | Installing), message)) => termination = ExitFailure ∧ stderr = message ++ [u8_of 10] ∧ log = []
  | Ok (Some ((Preparing | Running), message)) =>
      termination = ExitFailure ∧ stderr = [] ∧
      log = match level with LogOff => [] | _ => [(LevelError, message)] end
  end.
Proof. destruct parsed as [[[[] message]|]|error]; cbn; try done; destruct level; by cbn. Qed.

(** A hint follows the error exactly when a message says that material is missing, and its command
    selects the file of the error unless that is the default. *)
Theorem hint_exact missing base default e :
  let text := wrap_resolution_error missing base default e in
  let hint command := error_text e ++ [u8_of 10] ++ bs "Hint: " ++ command in
  (missing (validation_messages e) = true ↔ text ≠ error_text e) ∧
  (missing (validation_messages e) = true →
   text = hint (match selected_config_path e with
                | Some p => if bool_decide (default = Some p) then base else base ++ bs " --config " ++ p
                | None => base
                end)).
Proof.
  unfold wrap_resolution_error. cbn zeta. destruct (missing (validation_messages e)); [|by split; [split|]]. split.
  - split; [|done]. intros _ E. apply (f_equal length) in E. rewrite !length_app in E. cbn in E. lia.
  - intros _. do 3 f_equal. destruct (selected_config_path e) as [p|]; [|done]. unfold hint_command, is_nondefault_config_path.
    destruct default as [q|]; [|done]. destruct (decide (q = p)) as [->|Hne].
    + by rewrite !bool_decide_eq_true_2.
    + rewrite !bool_decide_eq_false_2 by congruence. done.
Qed.
