(* ===== verification/ClientAcme.v ===== *)
(** * ClientAcme: the certificates a Client manages with ACME

    [src/acme.rs]: the inspection of the cached certificate of a hostname, the lifecycle that
    reports issuances, renewals and failures, and the loop that drives the ACME state.

    The ACME client is a stream of events; PEM and X.509 are parameters.  Times are in
    nanoseconds. *)

From Stdlib Require Import String Ascii ZArith Lia.
From stdpp Require Import base strings numbers sets list.
From S2P Require Import Prelude Text RuntimeLog.

Open Scope Z_scope.

(** ** Inspection *)

Inductive NextDeployment := FirstIssuance | Renewal.
Inductive CachedCertificateInspection :=
| InspectedReady (remaining_validity : bytes) (renewal_due : bool)
| InspectedMissing
| InspectedExpired
| InspectedUnavailable (error : bytes).

Definition second : Z := 10 ^ 9.
Definition minute : Z := 60 * second.
Definition hour : Z := 60 * minute.
Definition day : Z := 24 * hour.

(** [whole_days] and the like truncate. *)
Definition format_remaining_validity (remaining : Z) : bytes :=
  let days := Z.quot remaining day in
  let hours := Z.quot remaining hour in
  let minutes := Z.quot remaining minute in
  if 1 <=? days then show_uint days ++ bs "d"
  else if 1 <=? hours then show_uint hours ++ bs "h"
  else if 1 <=? minutes then show_uint minutes ++ bs "m"
  else show_uint (Z.max (Z.quot remaining second) 0) ++ bs "s".

(** The seconds that [OffsetDateTime::from_unix_timestamp] accepts. *)
Definition MIN_TIMESTAMP : Z := -377705116800.
Definition MAX_TIMESTAMP : Z := 253402300799.

Section Inspect.
(** The first item of [pem_slice_iter], and the validity of a certificate in seconds; errors as text. *)
Context {Der : Type} (first_pem : bytes → option (result bytes Der)) (validity : Der → result bytes (Z * Z)).
Context (out_of_range : bytes).

Definition from_unix_timestamp (t : Z) : result bytes Z :=
  if (MIN_TIMESTAMP <=? t) && (t <=? MAX_TIMESTAMP) then Ok (t * second) else Err (bs "cached cert parse: " ++ out_of_range).

Definition parse_cached_certificate_freshness (pem : bytes) (now : Z) : result bytes (option (bytes * bool)) :=
  certificate ← ok_or (bs "cached cert parse: no certificate PEM found") (first_pem pem);
  certificate ← map_err (λ e, bs "cached cert parse: " ++ e) certificate;
  '(not_before, not_after) ← map_err (λ e, bs "cached cert parse: X509 parsing error: " ++ e) (validity certificate);
  not_before ← from_unix_timestamp not_before;
  not_after ← from_unix_timestamp not_after;
  let remaining := not_after - now in
  if remaining <=? 0 then Ok None
  else
    let validity_window := not_after - not_before in
    let renewal_due := not_after - Z.quot validity_window 3 <=? now in
    Ok (Some (format_remaining_validity remaining, renewal_due)).

Definition inspect_cached_certificate_pem (pem : bytes) (now : Z) : CachedCertificateInspection :=
  match parse_cached_certificate_freshness pem now with
  | Ok (Some (remaining_validity, renewal_due)) => InspectedReady remaining_validity renewal_due
  | Ok None => InspectedExpired
  | Err error => InspectedUnavailable error
  end.

(** [inspect_cached_certificate] on what the cache loads. *)
Definition inspect_cached_certificate (cached : result bytes (option bytes)) (now : Z) : CachedCertificateInspection :=
  match cached with
  | Ok (Some pem) => inspect_cached_certificate_pem pem now
  | Ok None => InspectedMissing
  | Err error => InspectedUnavailable (bs "cert cache load: " ++ error)
  end.
End Inspect.

Definition next_deployment_for_inspection (i : CachedCertificateInspection) : NextDeployment :=
  match i with InspectedMissing => FirstIssuance | _ => Renewal end.

(** [emit_startup_inspection] for one role. *)
Definition startup_inspection (role : AcmeRole) (i : CachedCertificateInspection) : list LogEvent :=
  Acme role <$>
  match i with
  | InspectedReady remaining_validity renewal_due => [CachedCertificateReady remaining_validity renewal_due]
  | InspectedMissing => [FirstIssuanceStarting (bs "no-ready-cached-certificate")]
  | InspectedExpired => [RenewalStarting (bs "expired-cached-certificate")]
  | InspectedUnavailable error => [RecoverableFailure error; RenewalStarting (bs "unreadable-cached-certificate")]
  end.

(** ** The lifecycle *)

(** [EventOk] and the text of an [EventError]. *)
Inductive AcmeStateEvent := DeployedCachedCert | CertCacheStore | AccountCacheStore | DeployedNewCert | AcmeStateError (error : bytes).

Record AcmeLifecycle := mkLifecycle { public_hostname : bytes; next_deployment : NextDeployment }.

(** [AcmeLifecycle::client]: the lifecycle and its log. *)
Definition lifecycle_client (hostname : bytes) (i : CachedCertificateInspection) : AcmeLifecycle * list LogEvent :=
  (mkLifecycle hostname (next_deployment_for_inspection i), startup_inspection (AcmeClient hostname) i).

Definition handle_event (l : AcmeLifecycle) (e : AcmeStateEvent) : AcmeLifecycle * list LogEvent :=
  let emit event := [Acme (AcmeClient (public_hostname l)) event] in
  match e with
  | DeployedCachedCert | CertCacheStore | AccountCacheStore => (l, [])
  | DeployedNewCert =>
      (mkLifecycle (public_hostname l) Renewal,
       emit (match next_deployment l with FirstIssuance => CertificateIssued | Renewal => CertificateRenewed end))
  | AcmeStateError error => (l, emit (RecoverableFailure error))
  end.

(** [run_acme_state] on the events of the state, which ends after them if [ended]: the log, and the
    error it returns. *)
Fixpoint run_acme_state (l : AcmeLifecycle) (events : list AcmeStateEvent) (ended : bool) : list LogEvent * option bytes :=
  match events with
  | [] =>
      if ended
      then ([Acme (AcmeClient (public_hostname l)) ManagerStopped], Some (bs "ACME certificate manager stopped unexpectedly"))
      else ([], None)
  | e :: events' =>
      let '(l', logged) := handle_event l e in
      let '(log, r) := run_acme_state l' events' ended in (logged ++ log, r)
  end.

(** ** Properties *)

(** The remaining validity as its number and its unit. *)
Lemma format_remaining_units remaining :
  0 < remaining →
  ∃ n unit name, format_remaining_validity remaining = show_uint n ++ name ∧ (unit, name) ∈ [(day, bs "d"); (hour, bs "h"); (minute, bs "m"); (second, bs "s")] ∧
    n * unit ≤ remaining < (n + 1) * unit ∧ (unit ≠ second → 1 ≤ n).
Proof.
  intros Hr. assert (∀ unit, 0 < unit → Z.quot remaining unit * unit ≤ remaining < (Z.quot remaining unit + 1) * unit ∧ 0 ≤ Z.quot remaining unit) as H.
  { intros unit Hu. rewrite Z.quot_div_nonneg by lia. pose proof (Z.div_mod remaining unit ltac:(lia)). pose proof (Z.mod_pos_bound remaining unit Hu).
    split; [nia|]. apply Z.div_pos; lia. }
  unfold format_remaining_validity. cbn zeta.
  destruct (H day) as [H1 _], (H hour) as [H2 _], (H minute) as [H3 _], (H second) as [H4 H5];
    try (unfold day, hour, minute, second; lia).
  destruct (Z.leb_spec 1 (Z.quot remaining day)) as [L1|L1]; [|destruct (Z.leb_spec 1 (Z.quot remaining hour)) as [L2|L2];
    [|destruct (Z.leb_spec 1 (Z.quot remaining minute)) as [L3|L3]]].
  - eexists _, day, _. split_and!; [reflexivity|set_solver|lia..|done].
  - eexists _, hour, _. split_and!; [reflexivity|set_solver|lia..|done].
  - eexists _, minute, _. split_and!; [reflexivity|set_solver|lia..|done].
  - eexists _, second, _. split_and!; [reflexivity|set_solver| | |done]; rewrite Z.max_l by done; lia.
Qed.

(** A cached certificate is ready exactly when it parses, its times are in range and it has not
    expired; then renewal is due exactly when at most a third of its validity remains, and the
    reported validity is the number of whole days left or, below one, of hours, minutes or
    seconds. *)
Theorem cached_certificate_fresh {Der} first_pem (validity : Der → result bytes (Z * Z)) out_of_range pem now d not_before not_after :
  first_pem pem = Some (Ok d) → validity d = Ok (not_before, not_after) →
  MIN_TIMESTAMP ≤ not_before ≤ not_after → not_after ≤ MAX_TIMESTAMP →
  match inspect_cached_certificate_pem first_pem validity out_of_range pem now with
  | InspectedReady remaining due =>
      now < not_after * second ∧
      (due = true ↔ 3 * (not_after * second - now) ≤ (not_after - not_before) * second) ∧
      ∃ n unit name, remaining = show_uint n ++ name ∧ (unit, name) ∈ [(day, bs "d"); (hour, bs "h"); (minute, bs "m"); (second, bs "s")] ∧
        n * unit ≤ not_after * second - now < (n + 1) * unit ∧ (unit ≠ second → 1 ≤ n)
  | InspectedExpired => not_after * second ≤ now
  | _ => False
  end.
Proof.
  intros Hp Hv Hb Ha. unfold inspect_cached_certificate_pem, parse_cached_certificate_freshness, from_unix_timestamp.
  rewrite Hp. cbn [ok_or mbind result_bind map_err]. rewrite Hv. cbn [ok_or mbind result_bind map_err].
  assert ((MIN_TIMESTAMP <=? not_before) && (not_before <=? MAX_TIMESTAMP) = true) as -> by lia.
  assert ((MIN_TIMESTAMP <=? not_after) && (not_after <=? MAX_TIMESTAMP) = true) as -> by lia. cbn [mbind result_bind].
  destruct (Z.leb_spec (not_after * second - now) 0) as [Hr|Hr]; [lia|]. split; [lia|]. split.
  - rewrite Z.leb_le. rewrite Z.quot_div_nonneg; [|unfold second; nia|lia].
    assert (∀ a w, a ≤ w / 3 ↔ 3 * a ≤ w) as H3.
    { intros a w. pose proof (Z.div_mod w 3 ltac:(lia)). pose proof (Z.mod_pos_bound w 3 ltac:(lia)). lia. }
    rewrite <- Z.mul_sub_distr_r. specialize (H3 (not_after * second - now) ((not_after - not_before) * second)). lia.
  - by apply format_remaining_units.
Qed.

Definition is_deployment (e : LogEvent) : bool :=
  match e with Acme _ CertificateIssued | Acme _ CertificateRenewed => true | _ => false end.
Definition failure_text (e : LogEvent) : option bytes := match e with Acme _ (RecoverableFailure error) => Some error | _ => None end.
Definition is_new_cert (e : AcmeStateEvent) : bool := match e with DeployedNewCert => true | _ => false end.
Definition state_error_text (e : AcmeStateEvent) : option bytes := match e with AcmeStateError error => Some error | _ => None end.

Lemma run_acme_reports hostname nd events ended :
  let '(log, r) := run_acme_state (mkLifecycle hostname nd) events ended in
  let report e := Acme (AcmeClient hostname) e in
  List.filter is_deployment log =
    match length (List.filter is_new_cert events) with
    | O => []
    | S n => report (match nd with FirstIssuance => CertificateIssued | Renewal => CertificateRenewed end)
             :: replicate n (report CertificateRenewed)
    end ∧
  omap failure_text log = omap state_error_text events ∧
  r = (if ended then Some (bs "ACME certificate manager stopped unexpectedly") else None) ∧
  (report ManagerStopped ∈ log ↔ ended = true).
Proof.
  revert nd. induction events as [|e events IH]; intros nd.
  - destruct ended; cbn; (split; [done|]); (split; [done|]); (split; [done|]).
    + split; [done|by left].
    + split; [by intros ?%elem_of_nil|done].
  - destruct e; cbn [run_acme_state handle_event public_hostname next_deployment]; try (specialize (IH nd); by destruct (run_acme_state _ _ _)).
    + specialize (IH Renewal). destruct (run_acme_state _ _ _) as [log r]. destruct IH as (H1 & H2 & H3 & H4).
      cbn [app List.filter is_new_cert is_deployment omap list_omap state_error_text length]. destruct nd; cbn [is_deployment failure_text];
        rewrite H1, H2; (split; [by destruct (length _)|]); (split; [done|]); (split; [done|]); rewrite elem_of_cons, H4; intuition congruence.
    + specialize (IH nd). destruct (run_acme_state _ _ _) as [log r]. destruct IH as (H1 & H2 & H3 & H4). cbn.
      rewrite H2. (split; [done|]); (split; [done|]); (split; [done|]). rewrite elem_of_cons, H4. intuition congruence.
Qed.

(** The manager of a hostname reports each new certificate once, in order: the first as issued if
    the cache had none and as renewed otherwise, every later one as renewed; it reports every
    error; and it returns only when the ACME state ends, with an error that is logged. *)
Theorem acme_manager_reports hostname i events ended :
  let '(log, r) := run_acme_state (fst (lifecycle_client hostname i)) events ended in
  let report e := Acme (AcmeClient hostname) e in
  List.filter is_deployment log =
    match length (List.filter is_new_cert events) with
    | O => []
    | S n => report (match i with InspectedMissing => CertificateIssued | _ => CertificateRenewed end)
             :: replicate n (report CertificateRenewed)
    end ∧
  omap failure_text log = omap state_error_text events ∧
  r = (if ended then Some (bs "ACME certificate manager stopped unexpectedly") else None) ∧
  (report ManagerStopped ∈ log ↔ ended = true).
Proof.
  pose proof (run_acme_reports hostname (next_deployment_for_inspection i) events ended) as H. cbn [lifecycle_client fst].
  destruct (run_acme_state _ _ _) as [log r]. destruct H as (H1 & H). split; [|exact H]. rewrite H1. by destruct i.
Qed.
