(* ===== verification/ManagedClient.v ===== *)
(** * ManagedClient: applying Control's assignments to a running Client

    The Client's role adapter ([src/client/managed_adapter.rs]) hands each assignment to
    the Address controller over a channel and waits for its answer, while the Managed
    session ([src/managed_session/session.rs], [lifecycle.rs]) goes on reading its
    connection and may drop the wait.  [run_managed_client] of [src/client_runtime.rs]
    runs the two side by side; the machine of this file interleaves the session of
    [Session] with the controller of [AddressController] through that channel. *)

From Stdlib Require Import Ascii ZArith Lia.
From stdpp Require Import base strings numbers gmap list relations.
From S2P Require Import Prelude Names Assignment Sse Capacity ManagedInput Session AddressWorker AddressController.
Import Address Convergence Limits Input Reconcile Lifecycle.

Open Scope Z_scope.

#[export] Instance client_adapter `{SerdeOps} : RoleAdapter ClientManagedInput := {
  parse_input := parse_client_input
}.

(** The messages of the adapter's [ApplyError]s. *)
Definition controller_closed : bytes := bs "address controller closed".
Definition acknowledgment_dropped : bytes := bs "address controller dropped apply acknowledgment".

(** ** The adapter and the controller *)

Section Client.
Context {G : Type} `{EqDecision G}.

(** The [apply] that the session polls: waiting on the [oneshot] of the command with this
    number, or finished. *)
Inductive Waiting : Type := Awaiting (command : nat) | Answered (r : result bytes unit).

(** A command is its place among the commands sent.  [apply_rx] are those in the channel,
    [in_hand] is the one the controller has received and not answered; [sent] and [taken]
    are the addresses of all commands sent and received. *)
Record Client : Type := mkClient {
  controller : System G;
  apply_rx : list (list ServerAddress);
  in_hand : option nat;
  apply_call : option Waiting;
  adapter_live : bool;
  sent : list (list ServerAddress);
  taken : list (list ServerAddress)
}.

Definition client_new : Client := mkClient for_managed [] None None true [] [].

(** [run] owns the receiver: it is dropped when [run] returns. *)
Definition receiver_open (c : Client) : bool :=
  match AddressController.phase (controller c) with Returned _ => false | _ => true end.

(** [apply] up to its first suspension. *)
Definition adapter_apply (i : ClientManagedInput) (c : Client) : Client :=
  let addresses := server_addresses i in
  if receiver_open c then
    mkClient (controller c) (apply_rx c ++ [addresses]) (in_hand c) (Some (Awaiting (length (sent c))))
      (adapter_live c) (sent c ++ [addresses]) (taken c)
  else
    mkClient (controller c) (apply_rx c) (in_hand c) (Some (Answered (Err controller_closed)))
      (adapter_live c) (sent c) (taken c).

(** The session drops the future of [apply], finished or not. *)
Definition drop_apply (c : Client) : Client :=
  mkClient (controller c) (apply_rx c) (in_hand c) None (adapter_live c) (sent c) (taken c).

Definition drop_adapter (c : Client) : Client :=
  mkClient (controller c) (apply_rx c) (in_hand c) None false (sent c) (taken c).

(** [done.send], which nobody may be waiting for any more. *)
Definition answer (command : nat) (r : result bytes unit) (w : option Waiting) : option Waiting :=
  match w with
  | Some (Awaiting k) => if (k =? command)%nat then Some (Answered r) else w
  | _ => w
  end.

(** The receiver's part of an arm of [run]: [recv] takes the oldest command, and yields
    [None] when the adapter is gone and the channel empty. *)
Definition recv_apply (a : action G) (c : Client) : option Client :=
  match a with
  | Apply addresses _ =>
      match apply_rx c with
      | next :: rest =>
          if bool_decide (next = addresses)
          then Some (mkClient (controller c) rest (Some (length (taken c))) (apply_call c) (adapter_live c)
                       (sent c) (taken c ++ [next]))
          else None
      | [] => None
      end
  | AdapterClosed => if negb (adapter_live c) && bool_decide (apply_rx c = []) then Some c else None
  | _ => Some c
  end.

(** What a step of the controller in the phase [p] answers: the acknowledgment after
    [replace_intent], and at the end the commands left in the channel are dropped. *)
Definition send_done (p : Phase) (a : action G) (c : Client) : Client :=
  match a, p with
  | AddStep, Adding [] =>
      match in_hand c with
      | Some command =>
          mkClient (controller c) (apply_rx c) None (answer command (Ok tt) (apply_call c)) (adapter_live c)
            (sent c) (taken c)
      | None => c
      end
  | DrainDone, _ =>
      mkClient (controller c) [] (in_hand c)
        (match apply_call c with Some (Awaiting _) => Some (Answered (Err acknowledgment_dropped)) | w => w end)
        (adapter_live c) (sent c) (taken c)
  | _, _ => c
  end.

Definition with_controller (s : System G) (c : Client) : Client :=
  mkClient s (apply_rx c) (in_hand c) (apply_call c) (adapter_live c) (sent c) (taken c).

Definition adapter_exec (c : Client) (a : action G) : next Client :=
  match recv_apply a c with
  | None => Disabled
  | Some c' =>
      match exec (controller c) a with
      | Steps s' => Steps (send_done (AddressController.phase (controller c)) a (with_controller s' c'))
      | Disabled => Disabled
      | Panics => Panics
      end
  end.

(** The document that [ClientReportedState::fields] makes. *)
Definition role_fields (display : G → bytes) (c : Client) : list (bytes * gmap bytes (list bytes)) :=
  [(bs "servers", match convergence (shared (controller c)) with
                  | Some t => reported_servers display t
                  | None => ∅
                  end)].

(** *** The channel's invariant *)

Definition last_taken (c : Client) : list ServerAddress := default [] (last (taken c)).

(** Between [recv] and the answer. *)
Definition in_apply (p : Phase) : bool := match p with Reviewing _ _ | Adding _ => true | _ => false end.

Record client_inv (c : Client) : Prop := {
  cl_reach : ∃ n, reachable n (controller c);
  cl_managed : is_Some (convergence (shared (controller c)));
  cl_mode : ∀ todo, AddressController.phase (controller c) ≠ Seeding todo;
  cl_fifo : receiver_open c = true → sent c = taken c ++ apply_rx c;
  cl_closed : receiver_open c = false → apply_rx c = [];
  cl_assigned : assigned_in (shared (controller c)) = list_to_set (last_taken c);
  cl_hand : in_hand c = if in_apply (AddressController.phase (controller c)) then Some (pred (length (taken c))) else None;
  cl_some : in_apply (AddressController.phase (controller c)) = true → taken c ≠ [];
  cl_await : ∀ k, apply_call c = Some (Awaiting k) →
    receiver_open c = true ∧ S k = length (sent c) ∧ ((length (taken c) ≤ k)%nat ∨ in_hand c = Some k)
}.

Definition is_returned (p : Phase) : bool := match p with Returned _ => true | _ => false end.
Definition is_seeding (p : Phase) : bool := match p with Seeding _ => true | _ => false end.

(** How the controller's phase moves. *)
Definition phase_moves (a : action G) (p p' : Phase) : Prop :=
  match a with
  | SeedStep => is_seeding p = true
  | Apply addresses existing => p = Selecting ∧ p' = Reviewing addresses existing
  | ReviewStep => in_apply p = true ∧ in_apply p' = true
  | AddStep => ∃ todo, p = Adding todo ∧ p' = match todo with [] => Selecting | _ :: rest => Adding rest end
  | DrainDone => (∃ e, p = Draining e) ∧ ∃ r, p' = Returned r
  | _ => in_apply p' = in_apply p ∧ is_returned p' = is_returned p ∧ is_seeding p' = is_seeding p
  end.

Lemma exec_phase (s s' : System G) a :
  exec s a = Steps s' → phase_moves a (AddressController.phase s) (AddressController.phase s').
Proof.
  intros Hx. destruct a; cbn [exec] in Hx; unfold phase_moves.
  - by destruct (AddressController.phase s) as [[|]| | | | |].
  - destruct (AddressController.phase s), (convergence (shared s)); try done. by destruct (_ && _); simplify_eq.
  - by destruct (AddressController.phase s) as [| |? [|]| | |]; simplify_eq.
  - destruct (AddressController.phase s) as [| | |todo| |]; try done. exists todo. by destruct todo; simplify_eq.
  - destruct (next_completion generation s) as [[r s1]|] eqn:Hc; [|by destruct (AddressController.phase s)].
    apply next_completion_frame in Hc as (Hp & _). unfold completed in Hx.
    destruct (AddressController.phase s) eqn:Ep; simplify_eq; destruct r as [[?|?]|]; simpl; rewrite ?Hp; simpl; rewrite ?Hp; try done.
    all: by destruct first_error; simpl; rewrite ?Hp.
  - by destruct (AddressController.phase s); simplify_eq.
  - destruct (AddressController.phase s); try done. by destruct (AddressController.shutdown s); simplify_eq.
  - destruct (AddressController.phase s); try done. destruct (running s); simplify_eq. eauto.
  - unfold worker_step in Hx. repeat case_match; by simplify_eq.
  - repeat case_match; by simplify_eq.
  - repeat case_match; by simplify_eq.
  - by simplify_eq.
  - by destruct (orderly s); simplify_eq.
  - by destruct (hint_sender _); simplify_eq.
  - by simplify_eq.
Qed.

Lemma review_shared desired a (s : System G) : shared (review desired a s) = shared s.
Proof. unfold review, re_adopt, remove, send_intent. repeat case_match; by simplify_eq. Qed.
Lemma add_shared a (s : System G) : shared (add a s).1 = shared s.
Proof. unfold add, send_intent. repeat case_match; by simplify_eq. Qed.
Lemma add_missing_shared a (s : System G) : shared (add_missing a s) = shared s.
Proof. unfold add_missing. destruct (workers s !! a) as [g|]; [destruct (is_live s g)|]; auto using add_shared. Qed.

(** Only an [Apply] changes the assignment, and none ends the tracking of it. *)
Definition assignment_after (a : action G) (d : gset ServerAddress) : gset ServerAddress :=
  match a with Apply addresses _ => list_to_set addresses | _ => d end.

Lemma exec_assigned (s s' : System G) a :
  exec s a = Steps s' →
  assigned_in (shared s') = assignment_after a (assigned_in (shared s)) ∧
  (is_Some (convergence (shared s)) → is_Some (convergence (shared s'))).
Proof.
  assert (∀ s1 s2 : System G, shared s1 = shared s2 → assigned_in (shared s1) = assigned_in (shared s2) ∧
    (is_Some (convergence (shared s2)) → is_Some (convergence (shared s1)))) as Hsame by (by intros s1 s2 ->).
  intros Hx. destruct a; cbn [exec] in Hx; cbn [assignment_after].
  - destruct (AddressController.phase s) as [[|]| | | | |]; simplify_eq; apply Hsame; simpl; auto using add_shared.
  - destruct (AddressController.phase s), (convergence (shared s)); try done.
    destruct (_ && _); simplify_eq/=. split; [done|]. by eexists.
  - destruct (AddressController.phase s) as [| |? [|]| | |]; simplify_eq; apply Hsame; simpl; auto using review_shared.
  - destruct (AddressController.phase s) as [| | |[|]| |]; simplify_eq; apply Hsame; simpl; auto using add_missing_shared.
  - destruct (next_completion generation s) as [[r s1]|] eqn:Hc; [|by destruct (AddressController.phase s)].
    apply next_completion_frame in Hc as (Hp & Hsh & _). apply Hsame. rewrite <- Hsh.
    destruct (AddressController.phase s); simplify_eq; destruct r as [r|]; try done; unfold completed; by repeat case_match.
  - destruct (AddressController.phase s); simplify_eq. by apply Hsame.
  - destruct (AddressController.phase s); try done. destruct (AddressController.shutdown s); simplify_eq. by apply Hsame.
  - destruct (AddressController.phase s); try done. destruct (running s); simplify_eq. by apply Hsame.
  - unfold worker_step in Hx. destruct (tasks s !! generation) as [w|]; [|done].
    destruct (channels s !! generation) as [ch|]; [|done]. destruct (live ch); [|done].
    destruct (exec_worker _ _ w _ e) as [[w' sh']| |] eqn:Hx'; simplify_eq/=.
    apply exec_worker_assigned in Hx' as [Has Hn]. split; [done|]. intros [t Ht].
    destruct (convergence sh') eqn:E; [by eexists|]. rewrite (proj1 Hn) in Ht by done. done.
  - repeat case_match; simplify_eq; by apply Hsame.
  - repeat case_match; simplify_eq; by apply Hsame.
  - simplify_eq. by apply Hsame.
  - destruct (orderly s); simplify_eq; by apply Hsame.
  - destruct (hint_sender _); simplify_eq; by apply Hsame.
  - simplify_eq. by apply Hsame.
Qed.

Lemma client_new_inv : client_inv client_new.
Proof.
  split; try done.
  exists O. apply reach_managed.
Qed.

Lemma receiver_open_phase c : receiver_open c = negb (is_returned (AddressController.phase (controller c))).
Proof. unfold receiver_open. by destruct (AddressController.phase _). Qed.

(** A step that leaves the channel alone. *)
Lemma client_inv_frame c s' :
  client_inv c → (∃ n, reachable n s') → is_Some (convergence (shared s')) →
  assigned_in (shared s') = assigned_in (shared (controller c)) →
  in_apply (AddressController.phase s') = in_apply (AddressController.phase (controller c)) →
  is_returned (AddressController.phase s') = is_returned (AddressController.phase (controller c)) →
  is_seeding (AddressController.phase s') = false → client_inv (with_controller s' c).
Proof.
  intros [Hn Hm Hseed Hfifo Hclosed Has Hhand Hsome Hawait] Hn' Hm' Has' Hp Hret Hs.
  rewrite !receiver_open_phase in *. split; rewrite ?receiver_open_phase; simpl; rewrite ?Hp, ?Hret, ?Has'; try done.
  intros todo Ht. by rewrite Ht in Hs.
Qed.

(** [recv] takes a command, the answer goes out, and the receiver is dropped. *)
Lemma client_inv_take c s' next rest existing :
  client_inv c → (∃ n, reachable n s') → is_Some (convergence (shared s')) → apply_rx c = next :: rest →
  AddressController.phase (controller c) = Selecting → AddressController.phase s' = Reviewing next existing →
  assigned_in (shared s') = list_to_set next →
  client_inv (mkClient s' rest (Some (length (taken c))) (apply_call c) (adapter_live c) (sent c) (taken c ++ [next])).
Proof.
  intros [_ _ _ Hfifo _ _ Hhand _ Hawait] Hn Hm Hrx Hp Hp' Has. rewrite receiver_open_phase, Hp in *.
  split; rewrite ?receiver_open_phase; unfold last_taken; simpl; rewrite ?Hp'; try done.
  - intros _. rewrite Hfifo, Hrx, <- app_assoc by done. done.
  - rewrite last_snoc. done.
  - simpl. rewrite length_app. simpl. f_equal. lia.
  - intros _. by destruct (taken c).
  - intros k Hk. destruct (Hawait k Hk) as (_ & Hlen & Hor). rewrite Hhand in Hor. destruct Hor as [Hle|]; [|done].
    split_and!; [done..|]. rewrite length_app. simpl. destruct (decide (k = length (taken c))) as [->|]; [by right|left; lia].
Qed.

Lemma client_inv_ack c s' command :
  client_inv c → (∃ n, reachable n s') → is_Some (convergence (shared s')) → in_hand c = Some command →
  AddressController.phase (controller c) = Adding [] → AddressController.phase s' = Selecting →
  assigned_in (shared s') = assigned_in (shared (controller c)) →
  client_inv (mkClient s' (apply_rx c) None (answer command (Ok tt) (apply_call c)) (adapter_live c) (sent c) (taken c)).
Proof.
  intros [_ _ _ Hfifo _ Has0 Hhand _ Hawait] Hn Hm Hc Hp Hp' Has. rewrite receiver_open_phase, Hp in *.
  split; rewrite ?receiver_open_phase; simpl; rewrite ?Hp'; try done; [by rewrite Has|].
  intros k Hk. unfold answer in Hk. destruct (apply_call c) as [[j|r]|]; try done.
  destruct (j =? command)%nat eqn:Hj; [done|]. injection Hk as ->. apply Nat.eqb_neq in Hj.
  destruct (Hawait k) as (_ & Hlen & [Hle|Hin]); [done|..]; [auto|congruence].
Qed.

Lemma client_inv_drain c s' first_error r w :
  client_inv c → (∃ n, reachable n s') → is_Some (convergence (shared s')) →
  AddressController.phase (controller c) = Draining first_error → AddressController.phase s' = Returned r →
  assigned_in (shared s') = assigned_in (shared (controller c)) → (∀ k, w ≠ Some (Awaiting k)) →
  client_inv (mkClient s' [] (in_hand c) w (adapter_live c) (sent c) (taken c)).
Proof.
  intros [_ _ _ _ _ Has0 Hhand _ _] Hn Hm Hp Hp' Has Hw. rewrite Hp in Hhand.
  split; rewrite ?receiver_open_phase; simpl; rewrite ?Hp'; try done; [by rewrite Has|].
  intros k Hk. by destruct (Hw k).
Qed.

(** The step of the controller, as the channel sees it. *)
Lemma client_exec_inv c a c' : client_inv c → adapter_exec c a = Steps c' → client_inv c'.
Proof.
  intros Hinv Hx. pose proof Hinv as [[n Hn] Hm Hseed _ _ _ Hhand _ _]. unfold adapter_exec in Hx.
  destruct (recv_apply a c) as [c1|] eqn:Hr; [|done]. destruct (exec (controller c) a) as [s'| |] eqn:He; simplify_eq.
  pose proof (exec_phase _ _ _ He) as Hp. destruct (exec_assigned _ _ _ He) as [Has' Hm'].
  assert (∃ n, reachable n s') as Hreach by (exists (S n); by eapply reach_step).
  specialize (Hm' Hm).
  assert (is_seeding (AddressController.phase (controller c)) = false) as Hns.
  { destruct (AddressController.phase (controller c)) as [todo| | | | |]; try done. by destruct (Hseed todo). }
  assert (c1 = c → phase_moves (BeginOrderly : action G) (AddressController.phase (controller c)) (AddressController.phase s') →
    assigned_in (shared s') = assigned_in (shared (controller c)) → client_inv (with_controller s' c1)) as Hframe.
  { intros -> (Hpa & Hpr & Hps) Hsame. apply client_inv_frame; try done. congruence. }
  destruct a as [|addresses existing| | |g| | | |g e|g|g| | |x h|x]; cbn [send_done].
  all: try (by injection Hr as <-; apply Hframe).
  - simpl in Hp. congruence.
  - simpl in Hr. destruct (apply_rx c) as [|next rest] eqn:Hrx; [done|]. case_bool_decide as Heq; simplify_eq.
    destruct Hp as [Hp Hp']. by apply (client_inv_take c s' _ rest existing).
  - injection Hr as <-. apply Hframe; [done| |done]. destruct Hp as [Hp Hp']. simpl.
    rewrite Hp, Hp'. by destruct (AddressController.phase _), (AddressController.phase _).
  - injection Hr as <-. destruct Hp as (todo & Hp & Hp'). rewrite Hp in *. simpl in *. destruct todo as [|b todo].
    + rewrite Hhand. by apply client_inv_ack.
    + apply Hframe; [done| |done]. by rewrite Hp'.
  - simpl in Hr. destruct (_ && _); [|done]. by injection Hr as <-; apply Hframe.
  - injection Hr as <-. destruct Hp as [[e Hp] [r Hp']].
    apply (client_inv_drain c s' e r); try done. simpl. by destruct (apply_call c) as [[]|].
Qed.

(** The steps of the session. *)
Lemma adapter_apply_inv i c : client_inv c → apply_call c = None → client_inv (adapter_apply i c).
Proof.
  intros [Hn Hm Hseed Hfifo Hclosed Has Hhand Hsome Hawait] Hw. unfold adapter_apply.
  destruct (receiver_open c) eqn:Ho; split; try done; rewrite ?receiver_open_phase in *; simpl; try done.
  - intros _. by rewrite Hfifo, app_assoc by done.
  - congruence.
  - intros k [= <-]. split_and!; [done|rewrite length_app; simpl; lia|].
    left. rewrite Hfifo, length_app by done. lia.
  - congruence.
  - auto.
Qed.

Lemma drop_apply_inv c : client_inv c → client_inv (drop_apply c).
Proof. by intros []. Qed.
Lemma drop_adapter_inv c : client_inv c → client_inv (drop_adapter c).
Proof. by intros []. Qed.

(** What a step of the controller does to the channel. *)
Inductive channel_step (c c' : Client) : Prop :=
| channel_quiet :
    apply_rx c' = apply_rx c → taken c' = taken c → sent c' = sent c → apply_call c' = apply_call c →
    receiver_open c' = receiver_open c → channel_step c c'
| channel_take next :
    apply_rx c = next :: apply_rx c' → taken c' = taken c ++ [next] → sent c' = sent c →
    apply_call c' = apply_call c → receiver_open c = true → receiver_open c' = true → channel_step c c'
| channel_ack k :
    apply_call c = Some (Awaiting k) → in_hand c = Some k → apply_call c' = Some (Answered (Ok tt)) →
    apply_rx c' = apply_rx c → taken c' = taken c → sent c' = sent c → channel_step c c'
| channel_drop :
    in_hand c = None → apply_rx c' = [] → taken c' = taken c → sent c' = sent c → receiver_open c' = false →
    apply_call c' = match apply_call c with
                    | Some (Awaiting _) => Some (Answered (Err acknowledgment_dropped))
                    | w => w
                    end → channel_step c c'.

Lemma client_exec_channel c a c' : client_inv c → adapter_exec c a = Steps c' → channel_step c c'.
Proof.
  intros Hinv Hx. pose proof Hinv as [_ _ Hseed _ _ _ Hhand _ _]. unfold adapter_exec in Hx.
  destruct (recv_apply a c) as [c1|] eqn:Hr; [|done]. destruct (exec (controller c) a) as [s'| |] eqn:He; simplify_eq.
  pose proof (exec_phase _ _ _ He) as Hp.
  assert (c1 = c → is_returned (AddressController.phase s') = is_returned (AddressController.phase (controller c)) →
    channel_step c (with_controller s' c1)) as Hquiet.
  { intros -> Hret. apply channel_quiet; try done. rewrite !receiver_open_phase. simpl. by rewrite Hret. }
  destruct a as [|addresses existing| | |g| | | |g e|g|g| | |x h|x]; cbn [send_done].
  all: try (injection Hr as <-; apply Hquiet; [done|by destruct Hp as (_ & ? & _)]).
  - simpl in Hp. destruct (AddressController.phase (controller c)) as [todo| | | | |]; try done. by destruct (Hseed todo).
  - simpl in Hr. destruct (apply_rx c) as [|next rest] eqn:Hrx; [done|]. case_bool_decide as Heq; simplify_eq.
    destruct Hp as [Hp Hp']. eapply channel_take; try done; rewrite receiver_open_phase; simpl; by rewrite ?Hp, ?Hp'.
  - injection Hr as <-. destruct Hp as [Hp Hp']. apply Hquiet; [done|].
    by destruct (AddressController.phase (controller c)), (AddressController.phase s').
  - injection Hr as <-. destruct Hp as (todo & Hp & Hp'). rewrite Hp in *. simpl in *. destruct todo as [|b todo].
    + rewrite Hhand. destruct (apply_call c) as [[k|r]|] eqn:Hk; simpl.
      * destruct (k =? pred (length (taken c)))%nat eqn:Heq; [apply Nat.eqb_eq in Heq as ->; by eapply channel_ack|].
        apply channel_quiet; try done. rewrite !receiver_open_phase. simpl. by rewrite Hp', Hp.
      * apply channel_quiet; try done. rewrite !receiver_open_phase. simpl. by rewrite Hp', Hp.
      * apply channel_quiet; try done. rewrite !receiver_open_phase. simpl. by rewrite Hp', Hp.
    + apply Hquiet; [done|]. by rewrite Hp'.
  - simpl in Hr. destruct (_ && _); [|done]. injection Hr as <-. apply Hquiet; [done|by destruct Hp as (_ & ? & _)].
  - injection Hr as <-. destruct Hp as [[e Hp] [r Hp']]. apply channel_drop; try done.
    + by rewrite Hhand, Hp.
    + rewrite receiver_open_phase. simpl. by rewrite Hp'.
Qed.

(** The steps of the session on the adapter, and of the controller. *)
Inductive client_step : Client → Client → Prop :=
| client_starts i c : adapter_live c = true → apply_call c = None → client_step c (adapter_apply i c)
| client_drops c : client_step c (drop_apply c)
| client_closes c : apply_call c = None → client_step c (drop_adapter c)
| client_controls c a c' : adapter_exec c a = Steps c' → client_step c c'.

Definition client_reachable (c : Client) : Prop := rtc client_step client_new c.

Lemma adapter_reachable_inv c : client_reachable c → client_inv c.
Proof.
  unfold client_reachable. generalize client_new_inv. generalize client_new. intros c0 H0 Hr.
  induction Hr as [|x y z Hstep _ IH]; [done|]. apply IH.
  destruct Hstep; eauto using adapter_apply_inv, drop_apply_inv, drop_adapter_inv, client_exec_inv.
Qed.

(** The two steps that answer. *)
Lemma client_exec_answers c a c' k r :
  adapter_exec c a = Steps c' → apply_call c = Some (Awaiting k) → apply_call c' = Some (Answered r) →
  r = Ok tt ∧ AddressController.phase (controller c) = Adding [] ∧ in_hand c = Some k ∧
    controller c' = set_phase Selecting (controller c) ∨
  r = Err acknowledgment_dropped ∧ ∃ res, AddressController.phase (controller c') = Returned res.
Proof.
  intros Hx Hk Hr. unfold adapter_exec in Hx. destruct (recv_apply a c) as [c1|] eqn:Hrc; [|done].
  assert (apply_call c1 = apply_call c) as Hc1.
  { destruct a; simpl in Hrc; simplify_eq; try done; [|by destruct (_ && _); simplify_eq].
    destruct (apply_rx c); [done|]. by case_bool_decide; simplify_eq. }
  destruct (exec (controller c) a) as [s'| |] eqn:He; simplify_eq. pose proof (exec_phase _ _ _ He) as Hp.
  destruct a; cbn [send_done with_controller apply_call] in Hr; try congruence.
  - injection Hrc as <-. destruct Hp as (todo & Hp & Hp'). rewrite Hp in *. cbn [send_done]. simpl in Hr. destruct todo; [|simpl in Hr; congruence].
    left. simpl. destruct (in_hand c) as [j|]; [|simpl in Hr; congruence]. simpl in Hr. rewrite Hk in Hr. simpl in Hr.
    destruct (k =? j)%nat eqn:Hj; [|done]. apply Nat.eqb_eq in Hj as ->. simpl in He. rewrite Hp in He. by simplify_eq.
  - right. simpl in Hr. rewrite Hc1, Hk in Hr. simplify_eq. split; [done|]. by destruct Hp as [_ ?].
Qed.

(** *** The controller alone answers a waiting [apply] *)

Lemma review_run desired existing c :
  AddressController.phase (controller c) = Reviewing desired existing →
  ∃ s', AddressController.phase s' = Adding desired ∧
    run_actions adapter_exec c (replicate (S (length existing)) ReviewStep) = Some (with_controller s' c).
Proof.
  revert c. induction existing as [|a existing IH]; intros c Hp;
    cbn [length replicate run_actions]; unfold adapter_exec at 1; cbn [recv_apply exec]; rewrite Hp; cbn [send_done].
  - by eexists (set_phase (Adding desired) (controller c)).
  - destruct (IH (with_controller (set_phase (Reviewing desired existing) (review desired a (controller c))) c))
      as (s' & Hs' & Hr); [done|]. by exists s'.
Qed.

Lemma add_run todo c command :
  AddressController.phase (controller c) = Adding todo → in_hand c = Some command →
  ∃ s', AddressController.phase s' = Selecting ∧
    run_actions adapter_exec c (replicate (S (length todo)) AddStep) =
    Some (mkClient s' (apply_rx c) None (answer command (Ok tt) (apply_call c)) (adapter_live c) (sent c) (taken c)).
Proof.
  revert c. induction todo as [|a todo IH]; intros c Hp Hh;
    cbn [length replicate run_actions]; unfold adapter_exec at 1; cbn [recv_apply exec]; rewrite Hp; cbn [send_done].
  - cbn [in_hand with_controller]. rewrite Hh. by eexists (set_phase Selecting (controller c)).
  - destruct (IH (with_controller (set_phase (Adding todo) (add_missing a (controller c))) c)) as (s' & Hs' & Hr); [done..|].
    by exists s'.
Qed.

(** The steps of the controller for one command. *)
Definition apply_acts (c : Client) (addresses : list ServerAddress) : list (action G) :=
  let existing := elements (dom (workers (controller c))) in
  Apply addresses existing :: replicate (S (length existing)) ReviewStep ++ replicate (S (length addresses)) AddStep.

Lemma apply_run c next rest :
  client_inv c → AddressController.phase (controller c) = Selecting → apply_rx c = next :: rest →
  ∃ c', run_actions adapter_exec c (apply_acts c next) = Some c' ∧ AddressController.phase (controller c') = Selecting ∧
    apply_rx c' = rest ∧ apply_call c' = answer (length (taken c)) (Ok tt) (apply_call c).
Proof.
  intros [_ [t Ht] _ _ _ _ _ _ _] Hp Hrx. unfold apply_acts. cbn [run_actions]. unfold adapter_exec at 1. cbn [recv_apply exec].
  rewrite Hrx, Hp, Ht, !bool_decide_true by (done || apply NoDup_elements || apply list_to_set_elements_L). cbn [andb send_done].
  set (existing := elements _). match goal with |- context [run_actions adapter_exec ?x] => set (c1 := x) end.
  destruct (review_run next existing c1 eq_refl) as (s1 & Hs1 & Hr1). rewrite run_actions_app, Hr1. cbn [mbind option_bind].
  destruct (add_run next (with_controller s1 c1) (length (taken c))) as (s2 & Hs2 & Hr2); [done..|].
  rewrite Hr2. by eexists.
Qed.

Lemma answers_all queue c k :
  client_inv c → AddressController.phase (controller c) = Selecting → apply_rx c = queue →
  apply_call c = Some (Awaiting k) →
  ∃ acts c', run_actions adapter_exec c acts = Some c' ∧ apply_call c' = Some (Answered (Ok tt)).
Proof.
  revert c. induction queue as [|next rest IH]; intros c Hc Hp Hrx Hw.
  { destruct Hc as [_ _ _ Hfifo _ _ Hhand _ Hawait]. destruct (Hawait k Hw) as (Ho & Hlen & Hk).
    rewrite Hfifo, Hrx, app_nil_r in Hlen by done. rewrite Hhand, Hp in Hk. simpl in Hk. destruct Hk; [lia|done]. }
  destruct (apply_run c next rest Hc Hp Hrx) as (c1 & Hr1 & Hp1 & Hrx1 & Hw1). rewrite Hw in Hw1. simpl in Hw1.
  destruct (k =? length (taken c))%nat; [by exists (apply_acts c next), c1|].
  destruct (IH c1) as (acts & c2 & Hr2 & Hw2); [|done..|].
  - by eapply (run_actions_invariant adapter_exec client_inv), Hr1; [apply client_exec_inv|].
  - exists (apply_acts c next ++ acts), c2. by rewrite run_actions_app, Hr1.
Qed.

End Client.
Arguments Client : clear implicits.

(** ** The session and the controller *)

Section Managed.
Context {G : Type} `{EqDecision G} `{SerdeOps} (limits : ManagedSessionLimits).
Context {R : Type} (next_u64 : R → Z * R).

(** [inputs] are the applies the session started, [acknowledged] the last that finished
    successfully; [orphaned] tells that since then the session has dropped one. *)
Record Managed : Type := mkManaged {
  session : SessionState (I := ClientManagedInput) (R := R);
  client : Client G;
  stopped : bool;
  inputs : list (bytes * ClientManagedInput);
  acknowledged : option (bytes * ClientManagedInput);
  orphaned : bool
}.

Definition managed_new (r : R) : Managed := mkManaged (session_new r) client_new false [] None false.

Inductive managed_event : Type :=
| ConnectFails
| Connects (started now : Z)
| Observes (now : Z) (o : observation)
| Controls (a : action G)
| Stops.

(** [AppliedRevision], which the session keeps across connections. *)
Definition current_applied (st : SessionState (I := ClientManagedInput) (R := R)) : option bytes :=
  match connection st with Some (_, _, s) => applied s | None => session_applied st end.

Definition holds_apply (c : Client G) : bool := match apply_call c with Some _ => true | None => false end.

(** [ApplyFinished] observes the answer. *)
Definition finish_call (o : observation) (m : Managed) : option Managed :=
  match o with
  | ApplyFinished ok =>
      match apply_call (client m) with
      | Some (Answered r) =>
          if Bool.eqb ok (match r with Ok _ => true | Err _ => false end)
          then Some (mkManaged (session m) (drop_apply (client m)) (stopped m) (inputs m)
                       (if ok then last (inputs m) else acknowledged m) (orphaned m && negb ok))
          else None
      | _ => None
      end
  | _ => Some m
  end.

(** The apply that a resumption of the connection starts. *)
Definition started_apply (now : Z) (o : observation) (s s' : State ClientManagedInput) :
    option (QueuedSnapshot ClientManagedInput) :=
  match observe limits true now o s with
  | Running s1 =>
      match Lifecycle.phase s1, Lifecycle.phase s' with
      | Idle, Applying _ => pending (queue s1)
      | _, _ => None
      end
  | _ => None
  end.

Definition start (snapshot : option (QueuedSnapshot ClientManagedInput)) (m : Managed) : Managed :=
  match snapshot with
  | Some q =>
      mkManaged (session m) (adapter_apply (input q) (client m)) (stopped m)
        (inputs m ++ [(revision q, input q)]) (acknowledged m) (orphaned m)
  | None => m
  end.

Definition with_session (st : SessionState) (m : Managed) : Managed :=
  mkManaged st (client m) (stopped m) (inputs m) (acknowledged m) (orphaned m).

(** The connection is over, and with it the [apply] it polls. *)
Definition abandon (m : Managed) : Managed :=
  mkManaged (session m) (drop_apply (client m)) (stopped m) (inputs m) (acknowledged m)
    (orphaned m || holds_apply (client m)).

Definition ends (received : bool) (applied : option bytes) (events : list ManagedSessionEvent) (m : Managed) :
    next Managed :=
  match end_connection next_u64 received applied events (session m) with
  | Some st' => Steps (with_session st' (abandon m))
  | None => Panics
  end.

(** The future of the session and that of the controller, polled in any order. *)
Definition managed_exec (m : Managed) (e : managed_event) : next Managed :=
  let st := session m in
  match e with
  | Controls a =>
      match adapter_exec (client m) a with
      | Steps c => Steps (mkManaged st c (stopped m) (inputs m) (acknowledged m) (orphaned m))
      | Disabled => Disabled
      | Panics => Panics
      end
  | _ =>
      if stopped m then Disabled else
      match e, connection st with
      | Stops, _ =>
          Steps (let m' := abandon m in
                 mkManaged (session m') (client m') true (inputs m') (acknowledged m') (orphaned m'))
      | ConnectFails, None => ends false (session_applied st) [] m
      | Connects started now, None =>
          if started <=? now then
            match Lifecycle.settle now (lifecycle_new limits started (session_applied st)) with
            | Running s =>
                Steps (with_session (mkSession (Some (started, now, s)) (session_applied st) (session_events st)
                                       (reconnect st)) m)
            | Failed _ s => ends (received_valid_snapshot s) (applied s) (events s) m
            | Panicked => Panics
            | NotEnabled => Disabled
            end
          else Disabled
      | Observes now o, Some (started, now0, s) =>
          match finish_call o m with
          | Some m1 =>
              if now0 <=? now then
                match advance limits true now o s with
                | Running s' =>
                    Steps (start (started_apply now o s s')
                             (with_session (mkSession (Some (started, now, s')) (session_applied st)
                                              (session_events st) (reconnect st)) m1))
                | Failed _ s' => ends (received_valid_snapshot s') (applied s') (events s') m1
                | Panicked => Panics
                | NotEnabled => Disabled
                end
              else Disabled
          | None => Disabled
          end
      | _, _ => Disabled
      end
  end.

(** *** What a connection does with its phase *)

Notation conn := (State ClientManagedInput).

(** The phase and the applied revision after an observation. *)
Definition after_observation (o : observation) (p : ConnectionPhase) (applied : option bytes) :
    ConnectionPhase * option bytes :=
  match o, p with
  | ApplyFinished ok, Applying r => (Idle, if ok then Some r else applied)
  | _, _ => (p, applied)
  end.

Definition progress (s : conn) : ConnectionPhase * option bytes := (Lifecycle.phase s, applied s).

Lemma progress_drive now (s : conn) : progress (drive_report now s) = progress s.
Proof. unfold drive_report. repeat case_match; done. Qed.
Lemma progress_schedule now r (s : conn) : progress (schedule_report now r s) = progress s.
Proof. unfold schedule_report. by rewrite progress_drive. Qed.

Definition progress_is (p : ConnectionPhase * option bytes) (x : outcome ClientManagedInput) : Prop :=
  match x with Running s | Failed _ s => progress s = p | _ => True end.

Lemma progress_accept now envelope (s : conn) : progress_is (progress s) (accept_envelope limits now envelope s).
Proof.
  unfold accept_envelope. destruct (_ && _); [apply progress_schedule|].
  destruct (parse_input _ _) as [i|[]]; try done. unfold note_while_applying, note_when_idle. by repeat case_match; simplify_eq.
Qed.

Lemma progress_items now items (s : conn) : progress_is (progress s) (ingest_items limits now items s).
Proof.
  revert s. induction items as [|item items IH]; intros s; [done|]. cbn [ingest_items].
  assert (progress_is (progress s) (ingest_item limits now item s)) as Hi.
  { destruct item as [|event]; cbn [ingest_item]; [done|]. case_bool_decide; [done|].
    destruct (Snapshot.parse_snapshot_event _ _ _); [|done]. destruct (Timing.try_note_valid_snapshot _ _) as [d [|]]; [|done].
    apply (progress_accept now _ (emit _ (set_received d s))). }
  destruct (ingest_item limits now item s) as [s1|e s1| |]; try done. simpl in *. rewrite <- Hi. apply IH.
Qed.

Lemma progress_observe now o (s : conn) :
  progress_is (after_observation o (Lifecycle.phase s) (applied s)) (observe limits true now o s).
Proof.
  destruct o as [ok| |c|r| |]; simpl.
  - unfold on_apply. destruct (Lifecycle.phase s) as [|r]; [done|].
    destruct ok; simpl; [|done]. pose proof (progress_schedule now r (emit (EvApplied r) (with_phase Idle (Some r) s))) as Hs.
    unfold progress in *. simpl in *. done.
  - by destruct (handle_timer now s).
  - destruct c as [[|b bs]| |]; simpl; try done. destruct (Parser.push _ _) as [[p items]|]; [|done].
    apply (progress_items now items (with_parser p _ s)).
  - unfold on_report_finished. destruct (in_flight (report s)); [|done]. destruct r; try done. simpl. by rewrite progress_drive.
  - destruct (spacing_wait (report s)) as [t|]; [|done]. by destruct (t <=? now).
  - unfold note_role_state_changed. destruct (report_revision (report s)); [|done]. simpl. by rewrite progress_drive.
Qed.

(** Settling starts the pending apply, or nothing. *)
Definition settled_from (s s' : conn) : Prop :=
  applied s' = applied s ∧
  (Lifecycle.phase s' = Lifecycle.phase s ∨
   Lifecycle.phase s = Idle ∧ ∃ q, pending (queue s) = Some q ∧ Lifecycle.phase s' = Applying (revision q)).

Lemma settle_loop_from fuel now (s : conn) :
  match settle_loop fuel now s with Running s' | Failed _ s' => settled_from s s' | _ => True end.
Proof.
  revert s. induction fuel as [|fuel IH]; intros s; [done|]. rewrite settle_pass. cbv zeta.
  destruct (drive_report_core now s) as (_ & _ & _ & Hq & Hp & Ha & _).
  assert (settled_from s (drive_report now s)) as Hd by (split; auto).
  destruct (handle_timer _ _); [done|]. rewrite Hp, Hq, Ha. destruct (Lifecycle.phase s) as [|r] eqn:Ep; [|done].
  destruct (take_next_cases (queue s)) as [[-> _]|(next & Hn & _ & ->)]; [done|].
  destruct (matches (applied s) (revision next)).
  - set (s1 := schedule_report _ _ _). specialize (IH s1).
    destruct (schedule_report_core now (revision next) (with_queue (finish_apply (mkQueue None true)) (drive_report now s)))
      as (_ & _ & _ & Hq1 & Hp1 & Ha1 & _). fold s1 in Hq1, Hp1, Ha1. simpl in Hq1, Hp1, Ha1.
    destruct (settle_loop fuel now s1) as [s'|e s'| |]; try done; destruct IH as [IHa [IHp|(_ & q & IHq & _)]];
      [split; [congruence|left; congruence]|by rewrite Hq1 in IHq|split; [congruence|left; congruence]|by rewrite Hq1 in IHq].
  - set (s1 := emit _ _). specialize (IH s1).
    assert (Lifecycle.phase s1 = Applying (revision next)) as Hp1 by done.
    destruct (settle_loop fuel now s1) as [s'|e s'| |]; try done; destruct IH as [IHa [IHp|(Hidle & _)]]; try congruence;
      (split; [done|right; split; [done|exists next; split; [done|congruence]]]).
Qed.

Lemma advance_progress now o (s : conn) :
  match advance limits true now o s with
  | Running s' =>
      applied s' = (after_observation o (Lifecycle.phase s) (applied s)).2 ∧
      (Lifecycle.phase s' = (after_observation o (Lifecycle.phase s) (applied s)).1 ∧ started_apply now o s s' = None ∨
       (after_observation o (Lifecycle.phase s) (applied s)).1 = Idle ∧
         ∃ q, started_apply now o s s' = Some q ∧ Lifecycle.phase s' = Applying (revision q))
  | Failed _ s' => applied s' = (after_observation o (Lifecycle.phase s) (applied s)).2
  | _ => True
  end.
Proof.
  pose proof (progress_observe now o s) as Ho. unfold advance, started_apply.
  destruct (observe limits true now o s) as [s1|e s1| |]; simpl in *; try done; [|by rewrite <- Ho].
  rewrite <- Ho. simpl. pose proof (settle_loop_from 3 now s1) as Hs. fold (Lifecycle.settle now s1) in Hs.
  destruct (Lifecycle.settle now s1) as [s'|e s'| |]; try done; destruct Hs as [Ha Hp]; [|done].
  split; [done|]. destruct Hp as [Hp|(Hi & q & Hq & Hp)].
  - left. split; [done|]. by rewrite Hp; destruct (Lifecycle.phase s1).
  - right. split; [done|]. exists q. by rewrite Hi, Hp.
Qed.

(** *** The invariant *)

Definition addresses_of (x : option (bytes * ClientManagedInput)) : option (list ServerAddress) :=
  (λ x, server_addresses x.2) <$> x.

(** Where the controller is between the acknowledged input and the one under way. *)
Definition in_force (acked : list ServerAddress) (c : Client G) : Prop :=
  match apply_call c with
  | None => apply_rx c = [] ∧ last_taken c = acked
  | Some (Awaiting k) => (length (taken c) ≤ k)%nat → length (taken c) = k ∧ last_taken c = acked
  | Some (Answered (Ok _)) => True
  | Some (Answered (Err _)) => last_taken c = acked
  end.

(** The session in the phase [p] with the applied revision [a] holds an [apply] exactly
    while it is applying, and it is the last it started. *)
Record held_inv (p : ConnectionPhase) (a : option bytes) (m : Managed) : Prop := {
  hi_client : client_inv (client m);
  hi_calls : match p with
             | Idle => apply_call (client m) = None
             | Applying r => is_Some (apply_call (client m)) ∧ fst <$> last (inputs m) = Some r
             end;
  hi_await : ∀ k, apply_call (client m) = Some (Awaiting k) → sent (client m) !! k = addresses_of (last (inputs m));
  hi_ok : ∀ u, apply_call (client m) = Some (Answered (Ok u)) →
    apply_rx (client m) = [] ∧ last (taken (client m)) = addresses_of (last (inputs m));
  hi_err : ∀ e, apply_call (client m) = Some (Answered (Err e)) → receiver_open (client m) = false;
  hi_applied : orphaned m = false → a = fst <$> acknowledged m;
  hi_force : orphaned m = false → in_force (default [] (addresses_of (acknowledged m))) (client m)
}.

Definition session_phase (m : Managed) : ConnectionPhase :=
  if stopped m then Idle
  else match connection (session m) with Some (_, _, s) => Lifecycle.phase s | None => Idle end.

Definition managed_inv (m : Managed) : Prop :=
  session_inv (session m) ∧ held_inv (session_phase m) (current_applied (session m)) m.

Lemma in_force_channel acked c c' :
  client_inv c → (∀ e, apply_call c = Some (Answered (Err e)) → receiver_open c = false) →
  channel_step c c' → in_force acked c → in_force acked c'.
Proof.
  intros [_ _ _ Hfifo Hclosed _ _ _ Hawait] Herr Hs Hf. unfold in_force, last_taken in *.
  destruct Hs as [Hrx Ht _ Hw _|next Hrx Ht _ Hw Ho _|k Hk Hh Hw Hrx Ht _|Hh Hrx Ht _ Ho Hw]; rewrite ?Ht, ?Hw, ?Hrx in *; try done.
  - destruct (apply_call c) as [[k|[u|e]]|]; try done.
    + intros Hle. rewrite length_app in *. simpl in *. destruct (Hawait k eq_refl) as (_ & Hlen & _).
      destruct Hf as [Hf _]; [lia|]. rewrite Hfifo, length_app in Hlen by done. simpl in Hlen. lia.
    + by rewrite (Herr e) in Ho.
    + by destruct Hf.
  - destruct (apply_call c) as [[k|[u|e]]|]; try done; [|by destruct Hf].
    destruct (Hawait k eq_refl) as (_ & _ & [Hle|Hin]); [by apply Hf|congruence].
Qed.

Lemma held_channel p a m c' :
  held_inv p a m → client_inv c' → channel_step (client m) c' →
  held_inv p a (mkManaged (session m) c' (stopped m) (inputs m) (acknowledged m) (orphaned m)).
Proof.
  intros [Hc Hcalls Hawait Hok Herr Happ Hforce] Hc' Hs. pose proof (in_force_channel) as Hf.
  split; simpl; try done; [| | | |by intros Ho; eapply in_force_channel, Hforce]; clear Hf Hforce Happ.
  - destruct p as [|r]; [|destruct Hcalls as [[w Hw] Hlast]; split; [|done]];
      destruct Hs as [_ _ _ Hw' _|next _ _ _ Hw' _ _|k Hk _ Hw' _ _ _|_ _ _ _ _ Hw']; rewrite Hw'; try congruence;
      try (by rewrite Hw; eexists); try (by eexists); [by rewrite Hcalls|rewrite Hw; by destruct w; eexists].
  - intros k Hk. destruct Hs as [_ _ -> Hw _|next _ _ -> Hw _ _|j _ _ Hw _ _ _|_ _ _ _ _ Hw]; rewrite Hw in Hk;
      [by apply Hawait..|done|]. by destruct (apply_call (client m)) as [[]|].
  - intros u Hu. destruct Hs as [-> -> _ Hw _|next Hrx _ _ Hw _ _|k Hk Hh Hw -> -> _|_ -> -> _ _ Hw]; rewrite Hw in Hu.
    + by eapply Hok.
    + destruct (Hok u Hu) as [Hnil _]. congruence.
    + destruct Hc as [_ _ _ Hfifo _ _ Hhand Hsome Haw]. destruct (Haw k Hk) as (Ho & Hlen & _). specialize (Hfifo Ho).
      rewrite Hhand in Hh. destruct (in_apply _); [|done]. injection Hh as Hh. specialize (Hsome eq_refl).
      assert (apply_rx (client m) = []) as Hrx.
      { apply length_zero_iff_nil. rewrite Hfifo, length_app in Hlen. destruct (taken (client m)); simpl in *; [done|lia]. }
      split; [done|]. rewrite last_lookup, Hh, <- (Hawait k Hk), Hfifo, Hrx, app_nil_r. done.
    + split; [done|]. destruct (apply_call (client m)) as [[k|[]]|]; try done. by eapply Hok.
  - intros e He. destruct Hs as [_ _ _ Hw ->|next _ _ _ Hw Ho _|k _ _ Hw _ _ _|_ _ _ _ -> Hw]; rewrite Hw in He; try done.
    + by eapply Herr.
    + by rewrite (Herr e He) in Ho.
Qed.

Lemma held_finish p a m m1 o :
  held_inv p a m → finish_call o m = Some m1 → p ≠ Idle ∨ (∀ ok, o ≠ ApplyFinished ok) →
  held_inv (after_observation o p a).1 (after_observation o p a).2 m1.
Proof.
  intros Hh Hf Hp. destruct o as [ok| | | | |]; try (by injection Hf as <-; destruct p). simpl in Hf.
  destruct p as [|r]; [by destruct Hp as [|Hp]; [|destruct (Hp ok)]|].
  pose proof Hh as [Hc [_ Hlast] _ Hok Herr Happ Hforce].
  destruct (apply_call (client m)) as [[|res]|] eqn:Hw; try done. destruct (Bool.eqb _ _) eqn:Hb; [|done].
  injection Hf as <-. apply Bool.eqb_prop in Hb. split; simpl; try done; [by apply drop_apply_inv|..].
  - intros Ho. destruct ok; [by rewrite Hlast|]. apply Happ. by destruct (orphaned m).
  - intros Ho. unfold in_force, last_taken in *. simpl in *. rewrite Hw in Hforce. destruct res as [u|e]; subst ok.
    + destruct (Hok u eq_refl) as [-> ->]. done.
    + split; [by apply Hc, (Herr e)|]. apply Hforce. by destruct (orphaned m).
Qed.

Lemma held_start a m q : held_inv Idle a m → held_inv (Applying (revision q)) a (start (Some q) m).
Proof.
  intros [Hc Hcalls _ _ _ Happ Hforce]. unfold in_force in Hforce. rewrite Hcalls in Hforce.
  split; unfold start, in_force; simpl; rewrite ?last_snoc; try done; [by apply adapter_apply_inv|..]; unfold adapter_apply;
    destruct (receiver_open (client m)) eqn:Ho; simpl; try done.
  - intros k Hk. injection Hk as <-. by rewrite list_lookup_middle.
  - intros Hor _. destruct (Hforce Hor) as [Hrx Hl]. split; [|done].
    rewrite (cl_fifo _ Hc Ho), Hrx, app_nil_r. done.
  - intros Hor. by destruct (Hforce Hor).
Qed.

Lemma held_abandon p a m : held_inv p a m → held_inv Idle a (abandon m).
Proof.
  intros [Hc Hcalls _ _ _ Happ Hforce]. unfold abandon. split; simpl; try done; [by apply drop_apply_inv|..];
    unfold holds_apply; intros Ho; apply orb_false_iff in Ho as [Ho Hw]; [auto|].
  specialize (Hforce Ho). unfold in_force in *. by destruct (apply_call (client m)).
Qed.

(** [held_inv] does not look at the session. *)
Lemma held_session p a st m : held_inv p a m → held_inv p a (with_session st m).
Proof. by intros []. Qed.

(** *** The machine *)

Lemma finish_frame o m m1 : finish_call o m = Some m1 → session m1 = session m ∧ stopped m1 = stopped m.
Proof.
  destruct o; simpl; try (by intros [= <-]). destruct (apply_call (client m)) as [[]|]; try done.
  destruct (Bool.eqb _ _); [|done]. by intros [= <-].
Qed.

Lemma start_frame x m : session (start x m) = session m ∧ stopped (start x m) = stopped m.
Proof. by destruct x. Qed.

(** Every step is one of the session, one of the controller, or the end of the session. *)
Lemma managed_exec_session m e m' :
  managed_exec m e = Steps m' → session m' = session m ∨ session_step limits true next_u64 (session m) (session m').
Proof.
  assert (∀ received applied events m0, ends received applied events m0 = Steps m' →
    end_connection next_u64 received applied events (session m0) = Some (session m')) as Hends.
  { intros received applied events m0. unfold ends. destruct (end_connection _ _ _ _ _); [|done]. by intros [= <-]. }
  intros Hx. unfold managed_exec in Hx. destruct e as [|started now|now o|a|].
  - destruct (stopped m); [done|]. destruct (connection (session m)) eqn:Hc; [done|]. right.
    eapply connect_failed; [done|]. by apply Hends.
  - destruct (stopped m); [done|]. destruct (connection (session m)) eqn:Hc; [done|].
    destruct (Z.leb_spec started now); [|done]. right.
    destruct (Lifecycle.settle _ _) as [s|e s| |] eqn:Hs; simplify_eq/=; [by econstructor|].
    eapply connected_late; [done..|]. by apply Hends.
  - destruct (stopped m); [done|]. destruct (connection (session m)) as [[[started now0] s]|] eqn:Hc; [|done].
    destruct (finish_call o m) as [m1|] eqn:Hf; [|done]. apply finish_frame in Hf as [Hse _].
    destruct (Z.leb_spec now0 now); [|done]. right.
    destruct (advance _ _ _ _ _) as [s'|e s'| |] eqn:Ha; simplify_eq/=.
    + rewrite (proj1 (start_frame _ _)). by eapply observed.
    + eapply disconnected; [done..|]. apply Hends in Hx. by rewrite Hse in Hx.
  - left. destruct (adapter_exec _ _); by simplify_eq.
  - left. destruct (stopped m); by simplify_eq.
Qed.

Lemma held_ends p a received events m m' :
  held_inv p a m → ends received a events m = Steps m' → stopped m = false →
  held_inv (session_phase m') (current_applied (session m')) m'.
Proof.
  intros Hh He Hst. unfold ends, end_connection in He. destruct (Retry.next_retry _ _) as [[retry policy]|]; [|done].
  simplify_eq/=. unfold session_phase, current_applied. simpl. rewrite Hst. eapply held_session, held_abandon, Hh.
Qed.

Lemma managed_inv_exec m e m' : managed_inv m → managed_exec m e = Steps m' → managed_inv m'.
Proof.
  intros [Hs Hh] Hx. split.
  { destruct (managed_exec_session _ _ _ Hx) as [-> |Hstep]; [done|]. by eapply session_inv_step. }
  unfold managed_exec in Hx. unfold session_phase, current_applied in Hh. destruct e as [|started now|now o|a|].
  - destruct (stopped m) eqn:Hst; [done|]. destruct (connection (session m)); [done|]. by eapply held_ends.
  - destruct (stopped m) eqn:Hst; [done|]. destruct (connection (session m)); [done|]. destruct (started <=? now); [|done].
    pose proof (settle_loop_from 3 now (lifecycle_new limits started (session_applied (session m)))) as Hf.
    fold (Lifecycle.settle now (lifecycle_new (I := ClientManagedInput) limits started (session_applied (session m)))) in Hf.
    destruct (Lifecycle.settle _ _) as [s|e s| |]; simplify_eq/=; destruct Hf as [Ha [Hp|(_ & q & Hq & _)]]; try done; simpl in Ha, Hp.
    + unfold session_phase, current_applied. simpl. rewrite Hst, Hp, Ha. by apply held_session.
    + rewrite Ha in Hx. by eapply held_ends.
  - destruct (stopped m) eqn:Hst; [done|]. destruct (connection (session m)) as [[[started now0] s]|] eqn:Hc; [|done].
    destruct (finish_call o m) as [m1|] eqn:Hf; [|done]. destruct (now0 <=? now); [|done].
    pose proof (advance_progress now o s) as Hp. destruct (finish_frame _ _ _ Hf) as [Hse Hst1].
    assert (held_inv (after_observation o (Lifecycle.phase s) (applied s)).1
              (after_observation o (Lifecycle.phase s) (applied s)).2 m1 ∨ advance limits true now o s = NotEnabled) as [H1|H1].
    { destruct (Lifecycle.phase s) eqn:Ep; [|left; by eapply held_finish; [| |left]].
      destruct o; try (left; eapply held_finish; [done..|right; by intros ? [=]]).
      right. unfold advance. simpl. unfold on_apply. by rewrite Ep. }
    + destruct (advance limits true now o s) as [s'|e s'| |] eqn:Ha; try done.
      * injection Hx as <-. destruct Hp as [Happ Hp]. unfold session_phase, current_applied.
        destruct (start_frame (started_apply now o s s') (with_session (mkSession (Some (started, now, s'))
          (session_applied (session m)) (session_events (session m)) (reconnect (session m))) m1)) as [-> ->].
        simpl. rewrite Hst1, Hst, Happ. destruct Hp as [[-> ->]|(Hi & q & -> & ->)]; [by apply held_session|].
        apply held_start, held_session. by rewrite Hi in H1.
      * rewrite Hp in Hx. eapply held_ends; [done..|congruence].
    + by rewrite H1 in Hx.
  - destruct (adapter_exec (client m) a) as [c'| |] eqn:Hc; simplify_eq. unfold session_phase, current_applied. simpl.
    apply held_channel; [done|..]; [eapply client_exec_inv; [apply Hh|done] | eapply client_exec_channel; [apply Hh|done]].
  - destruct (stopped m); simplify_eq. unfold session_phase, current_applied. simpl.
    destruct (held_abandon _ _ _ Hh). by split.
Qed.

Definition managed_reachable (m : Managed) : Prop :=
  ∃ r es, run_actions managed_exec (managed_new r) es = Some m.

Lemma managed_reachable_inv m : managed_reachable m → managed_inv m.
Proof.
  intros (r & es & Hr). eapply (run_actions_invariant managed_exec managed_inv); [apply managed_inv_exec| |done].
  split; [split; simpl; [done|lia|done]|]. split; try done. apply client_new_inv.
Qed.

(** No step of the composition panics. *)
Lemma managed_never_panics m e : managed_inv m → managed_exec m e ≠ Panics.
Proof.
  intros [Hs _]. assert (∀ received applied events m0, session m0 = session m → ends received applied events m0 ≠ Panics) as Hends.
  { intros received a evs m0 Hm0. unfold ends, end_connection. rewrite Hm0.
    destruct (Retry.next_retry_ok next_u64 (if received then Retry.reset (reconnect (session m)) else reconnect (session m)))
      as (secs & d & p' & _ & Hn & _); [pose proof (si_retry _ Hs); by destruct received; simpl; [lia|]|]. by rewrite Hn. }
  unfold managed_exec. destruct e as [|started now|now o|a|].
  - destruct (stopped m); [done|]. destruct (connection (session m)); [done|]. by apply Hends.
  - destruct (stopped m); [done|]. destruct (connection (session m)); [done|]. destruct (started <=? now); [|done].
    pose proof (settle_settled started (session_applied (session m)) now _
      (lifecycle_new_inv (I := ClientManagedInput) limits started (session_applied (session m)))) as Hset.
    destruct (Lifecycle.settle _ _); try done. by apply Hends.
  - destruct (stopped m); [done|]. destruct (connection (session m)) as [[[started now0] s]|] eqn:Hc; [|done].
    destruct (finish_call o m) as [m1|] eqn:Hf; [|done]. destruct (now0 <=? now); [|done].
    destruct (si_connection _ Hs _ _ _ Hc) as [Hinv _].
    destruct (advance_settled _ _ limits true now o s Hinv) as [Hn|[(e & s1 & _ & Hf' & _)|Hset]].
    + unfold advance. by rewrite Hn.
    + rewrite Hf'. apply Hends. by apply finish_frame in Hf as [-> _].
    + destruct (advance limits true now o s); try done. apply Hends. by apply finish_frame in Hf as [-> _].
  - unfold adapter_exec. destruct (recv_apply a (client m)); [|done].
    destruct (exec (controller (client m)) a) eqn:He; try done. by apply exec_never_panics in He.
  - by destruct (stopped m).
Qed.

(** Without a new input the controller keeps the assignment it has. *)
Definition keeps_channel (m m' : Managed) : Prop :=
  ∃ new, inputs m' = inputs m ++ new ∧
    (new = [] → apply_rx (client m) = [] → apply_rx (client m') = [] ∧ taken (client m') = taken (client m)).

Lemma keeps_same m m' :
  inputs m' = inputs m → apply_rx (client m') = apply_rx (client m) → taken (client m') = taken (client m) →
  keeps_channel m m'.
Proof. intros Hi Hr Ht. exists []. rewrite app_nil_r. split; [done|]. by rewrite Hr. Qed.

Lemma keeps_trans m1 m2 m3 : keeps_channel m1 m2 → keeps_channel m2 m3 → keeps_channel m1 m3.
Proof.
  intros (n1 & H1 & K1) (n2 & H2 & K2). exists (n1 ++ n2). rewrite H2, H1, app_assoc. split; [done|].
  intros [-> ->]%app_nil Hrx. destruct K1 as [Hr1 Ht1]; [done..|]. destruct K2 as [Hr2 Ht2]; [done..|]. split; congruence.
Qed.

Lemma keeps_step m e m' : managed_inv m → managed_exec m e = Steps m' → keeps_channel m m'.
Proof.
  intros [_ Hh] Hx.
  assert (∀ received applied events m0, ends received applied events m0 = Steps m' → keeps_channel m0 m') as Hends.
  { intros received a evs m0. unfold ends. destruct (end_connection _ _ _ _ _); [|done]. intros [= <-]. by apply keeps_same. }
  assert (∀ o m1, finish_call o m = Some m1 → keeps_channel m m1) as Hfin.
  { intros o m1. destruct o; simpl; try (intros [= <-]; by apply keeps_same). destruct (apply_call (client m)) as [[]|]; try done.
    destruct (Bool.eqb _ _); [|done]. intros [= <-]. by apply keeps_same. }
  unfold managed_exec in Hx. destruct e as [|started now|now o|a|].
  - destruct (stopped m), (connection (session m)); try done. by eapply Hends.
  - destruct (stopped m), (connection (session m)), (started <=? now); try done.
    destruct (Lifecycle.settle _ _); simplify_eq/=; [by apply keeps_same|by eapply Hends].
  - destruct (stopped m), (connection (session m)) as [[[started now0] s]|]; try done.
    destruct (finish_call o m) as [m1|] eqn:Hf; [|done]. apply Hfin in Hf.
    destruct (now0 <=? now); [|done]. destruct (advance _ _ _ _ _); simplify_eq/=.
    + eapply keeps_trans; [done|]. destruct (started_apply _ _ _ _); [by eexists [_]|by apply keeps_same].
    + eapply keeps_trans; [done|]. by eapply Hends.
  - destruct (adapter_exec (client m) a) as [c'| |] eqn:Hc; simplify_eq/=. apply client_exec_channel in Hc; [|apply Hh].
    exists []. rewrite app_nil_r. split; [done|]. intros _ Hrx. simpl.
    destruct Hc as [Hrx' Ht _ _ _|next Hno _ _ _ _ _|k _ _ _ Hrx' Ht _|_ Hrx' Ht _ _ _]; split; congruence.
  - destruct (stopped m); simplify_eq. by apply keeps_same.
Qed.

Lemma keeps_run es m m' : managed_inv m → run_actions managed_exec m es = Some m' → managed_inv m' ∧ keeps_channel m m'.
Proof.
  revert m. induction es as [|e es IH]; intros m Hm Hr; simpl in Hr; [simplify_eq; split; [done|by apply keeps_same]|].
  destruct (managed_exec m e) as [m1| |] eqn:He; try done. destruct (IH m1) as [Hm' Hk]; [by eapply managed_inv_exec|done|].
  split; [done|]. eapply keeps_trans; [by eapply keeps_step|done].
Qed.

(** The assignment the controller works to. *)
Definition assignment (m : Managed) : gset ServerAddress := assigned_in (shared (controller (client m))).

Lemma no_input_no_change es m m' :
  managed_inv m → run_actions managed_exec m es = Some m' → apply_rx (client m) = [] → inputs m' = inputs m →
  assignment m' = assignment m.
Proof.
  intros Hm Hr Hrx Hi. destruct (keeps_run es m m' Hm Hr) as [Hm' (new & Hnew & Hk)].
  assert (new = []) as -> by (rewrite Hi in Hnew; by apply (app_inv_head_iff (inputs m)); rewrite app_nil_r).
  destruct Hk as [_ Ht]; [done..|]. unfold assignment. destruct Hm as [_ Hx], Hm' as [_ Hy].
  rewrite (cl_assigned _ (hi_client _ _ _ Hx)), (cl_assigned _ (hi_client _ _ _ Hy)). unfold last_taken. by rewrite Ht.
Qed.

End Managed.

(** ** A small Managed Client *)

Module ToyManaged.
Import ToySession.

(** The data of a snapshot is its revision and the one address it assigns. *)
#[export] Instance address_serde : SerdeOps := {
  from_str_snapshot data := Some (mkRawSnapshot (Some data)
    (Some (JObject [(bs "server_addresses", JArray [JString data])])));
  from_value_tunnels _ := None;
  from_value_addresses := ToySerde.toy_field (bs "server_addresses") (ToySerde.toy_list ToySerde.toy_string)
}.

Definition toy_address (host : string) : ServerAddress := mkServerAddress (bs host) 443.
Definition toy_managed : Managed (G := Z) := managed_new tt.
Definition toy_exec := managed_exec (G := Z) default_session_limits toy_rng.
Definition reads (now : Z) (host : string) : managed_event (G := Z) :=
  Observes now (ChunkArrived (ChunkBytes (toy_snapshot host))).

(** The controller applies an assignment of one address. *)
Definition applies (host : string) (existing : list ServerAddress) : list (managed_event (G := Z)) :=
  Controls <$> Apply [toy_address host] existing :: replicate (S (length existing)) ReviewStep ++ [AddStep; AddStep].

Definition acknowledge_a : list (managed_event (G := Z)) :=
  [Connects 0 0; reads 1 "a.b"] ++ applies "a.b" [] ++ [Observes 2 (ApplyFinished true)].

(** Control publishes another assignment and closes the connection at once; after the
    reconnect it has gone back to the first. *)
Definition interrupt_b : list (managed_event (G := Z)) :=
  [reads 3 "c.d"; Observes 4 (ChunkArrived ChunkEnd)] ++ applies "c.d" [toy_address "a.b"] ++
  [Connects 5 5; reads 6 "a.b"].

Definition toy_after (es : list (managed_event (G := Z))) : Managed := default toy_managed (run_actions toy_exec toy_managed es).

Definition toy_interrupted : list (managed_event (G := Z)) := acknowledge_a ++ interrupt_b.

Lemma toy_managed_ran es :
  (if run_actions toy_exec toy_managed es is Some _ then true else false) = true →
  run_actions toy_exec toy_managed es = Some (toy_after es).
Proof. unfold toy_after. by destruct (run_actions toy_exec toy_managed es). Qed.

(** The adapter and the controller alone: the assignment of [a.b], up to its acknowledgment. *)
Definition toy_waiting : Client Z := adapter_apply (mkClientInput [toy_address "a.b"]) client_new.
Definition toy_applied (n : nat) : Client Z :=
  default toy_waiting (run_actions adapter_exec toy_waiting (take n (apply_acts toy_waiting [toy_address "a.b"]))).

Lemma run_client_reachable acts (c c' : Client Z) :
  client_reachable c → run_actions adapter_exec c acts = Some c' → client_reachable c'.
Proof.
  intros Hc Hr. apply (run_actions_invariant adapter_exec client_reachable acts c); [|done..].
  intros x a y Hx Hs. eapply rtc_r; [done|by eapply client_controls].
Qed.

Lemma toy_applied_reachable n : client_reachable (toy_applied n).
Proof.
  assert (client_reachable toy_waiting) as Hw by (apply rtc_once; by apply client_starts).
  unfold toy_applied. destruct (run_actions adapter_exec toy_waiting _) as [c|] eqn:Hr; [|done].
  by eapply run_client_reachable.
Qed.

End ToyManaged.
Import ToyManaged.

(** ** Properties *)

(** An assignment is acknowledged only when it is in force: when the controller answers
    the [apply] that waits, the assignment it works to is the one that was sent, every
    assigned address has a slot, and every worker that still holds its control maintains
    exactly when its address is in it; the only other answer is the one given when the
    controller has returned. *)
Theorem acknowledged_in_force {G} `{EqDecision G} (c c' : Client G) a k r :
  client_reachable c → adapter_exec c a = Steps c' →
  apply_call c = Some (Awaiting k) → apply_call c' = Some (Answered r) →
  match r with
  | Ok _ => ∃ addresses, sent c !! k = Some addresses ∧
      AddressController.phase (controller c') = Selecting ∧
      assigned_in (shared (controller c')) = list_to_set addresses ∧
      (∀ x, x ∈ addresses → is_Some (workers (controller c') !! x)) ∧
      ∀ x g, workers (controller c') !! x = Some g → is_live (controller c') g = true →
        maintenance_intent (controller c') x = Some Maintain ↔ x ∈ addresses
  | Err e => e = acknowledgment_dropped ∧ ∃ res, AddressController.phase (controller c') = Returned res
  end.
Proof.
  intros Hc%adapter_reachable_inv Hx Hk Hr.
  destruct (client_exec_answers _ _ _ _ _ Hx Hk Hr) as [(-> & Hp & Hh & Hctl)|(-> & Hres)]; [|done].
  destruct Hc as [[n Hn] Hm _ Hfifo _ Has Hhand Hsome Haw]. destruct (Haw k Hk) as (Ho & Hlen & _).
  apply reachable_ctl in Hn as (_ & Hi & _). unfold intent_inv in Hi. rewrite Hp in Hi. destruct Hi as (Hag & _ & Hall).
  assert (sent c !! k = Some (last_taken c)) as Hsent.
  { rewrite Hhand, Hp in Hh. simpl in Hh. injection Hh as <-. rewrite Hfifo, lookup_app_l, <- last_lookup by
      (done || (rewrite Hp in Hsome; specialize (Hsome eq_refl); by destruct (taken c); simpl; [|lia])).
    unfold last_taken. rewrite Hp in Hsome. specialize (Hsome eq_refl).
    destruct (last (taken c)) eqn:El; [done|]. by apply last_None in El. }
  exists (last_taken c). rewrite Has in *. split_and!; [done|..]; rewrite Hctl; simpl; try done.
  - intros x Hx'. destruct (Hall x) as [Hno|?]; [by apply elem_of_list_to_set|by apply elem_of_nil in Hno|done].
  - intros x g Hw Hl. unfold is_live, maintenance_intent in *. simpl in *. rewrite Hw. simpl.
    destruct (channels (controller c) !! g) as [ch|] eqn:Hch; [|done]. simpl.
    specialize (Hag x g ch Hw Hch Hl (not_elem_of_nil x)). rewrite elem_of_list_to_set in Hag.
    rewrite <- Hag. split; congruence.
Qed.

Lemma acknowledged_in_force_witness :
  ∃ c', adapter_exec (toy_applied 3) AddStep = Steps c' ∧ apply_call c' = Some (Answered (Ok tt)) ∧
    assigned_in (shared (controller c')) = {[toy_address "a.b"]}.
Proof.
  assert (∃ c', adapter_exec (toy_applied 3) AddStep = Steps c') as [c' Hx] by (eexists; vm_compute; reflexivity).
  assert (apply_call c' = Some (Answered (Ok tt))) as Hr.
  { assert (match adapter_exec (toy_applied 3) AddStep with Steps c => apply_call c | _ => None end = Some (Answered (Ok tt))) as H
      by (vm_compute; reflexivity). by rewrite Hx in H. }
  exists c'. split; [done|]. split; [done|].
  destruct (acknowledged_in_force (toy_applied 3) c' AddStep 0 (Ok tt)) as (addresses & Hs & _ & Has & _);
    [apply toy_applied_reachable|done|vm_compute; reflexivity|done|].
  rewrite Has. assert (addresses = [toy_address "a.b"]) as ->.
  { assert (sent (toy_applied 3) !! 0%nat = Some [toy_address "a.b"]) as H by (vm_compute; reflexivity). congruence. }
  apply (bool_decide_unpack _). vm_compute. reflexivity.
Defined.

(** An [apply] that waits is answered: while the controller is in its loop, its own
    steps lead to the acknowledgment, however many dropped commands are before it in the
    channel; and once the controller has returned nothing waits. *)
Theorem apply_answered {G} `{EqDecision G} (c : Client G) k :
  client_reachable c → apply_call c = Some (Awaiting k) →
  receiver_open c = true ∧
  (AddressController.phase (controller c) = Selecting →
   ∃ acts c', run_actions adapter_exec c acts = Some c' ∧ apply_call c' = Some (Answered (Ok tt))).
Proof.
  intros Hc%adapter_reachable_inv Hk. split; [by apply (cl_await _ Hc k)|]. intros Hp. by eapply answers_all.
Qed.

Lemma apply_answered_witness :
  ∃ acts c', run_actions adapter_exec toy_waiting acts = Some c' ∧ apply_call c' = Some (Answered (Ok tt)).
Proof.
  apply (apply_answered toy_waiting 0); [|vm_compute; reflexivity..]. apply (toy_applied_reachable 0).
Defined.

(** C7: The Managed Client works to what it reports: the session and the controller,
    interleaved in any way, never panic, and unless the session has lost a connection in the
    middle of an [apply] since the last acknowledgment, the revision it holds as applied is
    the last acknowledged one, and whenever no [apply] is under way the controller's
    assignment is that revision's, which every worker in control follows. *)
Theorem managed_client_in_force {G} `{EqDecision G} `{SerdeOps} {R} (next_u64 : R → Z * R) limits
    (m : Managed (G := G) (R := R)) :
  managed_reachable limits next_u64 m →
  (∀ e, managed_exec limits next_u64 m e ≠ Panics) ∧
  (orphaned m = false →
   current_applied (session m) = fst <$> acknowledged m ∧
   (apply_call (client m) = None →
    assignment m = list_to_set (default [] (addresses_of (acknowledged m))) ∧
    (AddressController.phase (controller (client m)) = Selecting →
     ∀ x g, workers (controller (client m)) !! x = Some g → is_live (controller (client m)) g = true →
       maintenance_intent (controller (client m)) x = Some Maintain ↔ x ∈ assignment m))).
Proof.
  intros Hm%managed_reachable_inv. split; [intros e; by apply managed_never_panics|]. intros Ho.
  destruct Hm as [_ [Hc _ _ _ _ Happ Hforce]]. split; [by apply Happ|]. intros Hw. specialize (Hforce Ho).
  unfold in_force in Hforce. rewrite Hw in Hforce. destruct Hforce as [_ Hl]. split.
  - unfold assignment. by rewrite (cl_assigned _ Hc), Hl.
  - intros Hp x g Hx Hlive. destruct (cl_reach _ Hc) as [n (_ & Hi & _)%reachable_ctl].
    unfold intent_inv in Hi. rewrite Hp in Hi. unfold is_live, maintenance_intent in *. rewrite Hx. simpl.
    destruct (channels (controller (client m)) !! g) as [ch|] eqn:Hch; [|done]. simpl. unfold assignment.
    rewrite <- (Hi x g ch Hx Hch Hlive (not_elem_of_nil x)). split; congruence.
Qed.

Lemma managed_client_in_force_witness :
  current_applied (session (toy_after acknowledge_a)) = Some (bs "a.b") ∧
  assignment (toy_after acknowledge_a) = {[toy_address "a.b"]}.
Proof.
  destruct (managed_client_in_force ToySession.toy_rng default_session_limits (toy_after acknowledge_a)) as (_ & Hin).
  { exists tt, acknowledge_a. apply toy_managed_ran. vm_compute. reflexivity. }
  destruct Hin as [Happ Has]; [vm_compute; reflexivity|]. split.
  - rewrite Happ. vm_compute. reflexivity.
  - destruct Has as [-> _]; [vm_compute; reflexivity|]. apply (bool_decide_unpack _). vm_compute. reflexivity.
Defined.

(** C39: A lost connection breaks that: Control publishes a revision and closes the
    connection while it is being applied; the controller applies it all the same.  After the
    reconnect Control publishes the revision applied before, as in a rollback; the session
    skips it as already applied and reports it, while the controller keeps the addresses of
    the other one until Control publishes a different revision. *)
Theorem interrupted_apply_reported :
  ∃ es m started now s,
    run_actions toy_exec toy_managed es = Some m ∧ connection (session m) = Some (started, now, s) ∧
    last_snapshot (events s) = Some (bs "a.b") ∧ Lifecycle.phase s = Idle ∧ documents s = [(now, bs "a.b")] ∧
    AddressController.phase (controller (client m)) = Selecting ∧ assignment m = {[toy_address "c.d"]} ∧
    ∀ es' m', run_actions toy_exec m es' = Some m' → inputs m' = inputs m → assignment m' = {[toy_address "c.d"]}.
Proof.
  assert (run_actions toy_exec toy_managed toy_interrupted = Some (toy_after toy_interrupted)) as Hr
    by (apply toy_managed_ran; vm_compute; reflexivity).
  assert (assignment (toy_after toy_interrupted) = {[toy_address "c.d"]}) as Has
    by (apply (bool_decide_unpack _); vm_compute; reflexivity).
  exists toy_interrupted, (toy_after toy_interrupted). do 3 eexists. split_and!; [exact Hr|..].
  1-5: vm_compute; reflexivity.
  1: exact Has.
  intros es' m' He Hi. rewrite <- Has.
  eapply no_input_no_change; [|exact He|vm_compute; reflexivity|exact Hi].
  apply (managed_reachable_inv default_session_limits ToySession.toy_rng). by exists tt, toy_interrupted.
Qed.
