(* ===== verification/ServerAcme.v ===== *)
(** * ServerAcme: a Server beside its certificate manager

    [PreparedServer::run_with_shutdown] and [coordinate_server_acme] of [src/startup.rs]: the loop
    of [ServerLoop] runs beside the future that drives the ACME controller, which ends only
    when certificates can no longer be managed.  The result of that future is an input. *)

From Stdlib Require Import Ascii ZArith Lia.
From stdpp Require Import base strings numbers list.
From S2P Require Import Prelude Shutdown ServerLoop Supervision.

Open Scope Z_scope.

Inductive ServerEnd := LoopFailed (e : Failure) | ManagerStopped (message : bytes).

(** In the [select!]; the manager ended first, with the error to return; returned. *)
Inductive AcmePlace :=
| BothRunning
| AwaitingLoop (error : bytes)
| AcmeServerReturned (r : result ServerEnd unit).

(** [with_acme]: the certificate has a manager. *)
Record AcmeServer := mkAcmeServer { with_acme : bool; acme_place : AcmePlace; server_runtime : Runtime }.

Definition acme_server_new (with_acme probe : bool) (now last_id : Z) : AcmeServer :=
  mkAcmeServer with_acme BothRunning (runtime_new probe now last_id).

Definition manager_error (r : result bytes unit) : bytes :=
  match r with Err e => e | Ok _ => bs "ACME certificate manager stopped unexpectedly" end.

Inductive AcmeServerAction :=
| InRuntime (a : RuntimeAction)
| ManagerEnds (r : result bytes unit)
| LoopDone.

Definition polls_loop (s : AcmeServer) (a : RuntimeAction) : bool :=
  match a, acme_place s with
  | (ProcessStarted _ | DrainRequested), _ => true
  | _, (BothRunning | AwaitingLoop _) => true
  | _, AcmeServerReturned _ => false
  end.

(** [ManagerEnds]: [begin_fast], and the loop is awaited. *)
Definition acme_server_exec (duration : Durations) (s : AcmeServer) (a : AcmeServerAction) : next AcmeServer :=
  let at_acme p r := Steps (mkAcmeServer (with_acme s) p r) in
  match a with
  | InRuntime a =>
      if polls_loop s a then
        match runtime_exec duration (server_runtime s) a with
        | Steps r => at_acme (acme_place s) r
        | Disabled => Disabled
        | Panics => Panics
        end
      else Disabled
  | ManagerEnds res =>
      match acme_place s with
      | BothRunning =>
          if with_acme s then
            match runtime_exec duration (server_runtime s) (ProcessStarted Fast) with
            | Steps r => at_acme (AwaitingLoop (manager_error res)) r
            | Disabled => Disabled
            | Panics => Panics
            end
          else Disabled
      | _ => Disabled
      end
  | LoopDone =>
      match phase (loop (server_runtime s)), acme_place s with
      | Returned r, BothRunning => at_acme (AcmeServerReturned (map_err LoopFailed r)) (server_runtime s)
      | Returned _, AwaitingLoop error => at_acme (AcmeServerReturned (Err (ManagerStopped error))) (server_runtime s)
      | _, _ => Disabled
      end
  end.

(** ** Invariant *)

Definition acme_place_inv (s : AcmeServer) : Prop :=
  match acme_place s with
  | BothRunning => True
  | AwaitingLoop _ => with_acme s = true ∧ process_mode (server_runtime s) = Some Fast
  | AcmeServerReturned r => ∃ r0, phase (loop (server_runtime s)) = Returned r0 ∧
      (r = map_err LoopFailed r0 ∨
       ∃ e, r = Err (ManagerStopped e) ∧ with_acme s = true ∧ process_mode (server_runtime s) = Some Fast)
  end.
Definition acme_inv (s : AcmeServer) : Prop := runtime_inv (server_runtime s) ∧ acme_place_inv s.

Lemma acme_inv_step duration s a s' : acme_inv s → acme_server_exec duration s a = Steps s' → acme_inv s'.
Proof.
  intros [Hr Hp] E. unfold acme_place_inv in Hp. destruct a as [a|res|]; cbn [acme_server_exec] in E.
  - destruct (polls_loop s a) eqn:Hpoll; [|done]. destruct (runtime_exec duration (server_runtime s) a) as [r| |] eqn:Er; try done.
    injection E as <-. split; [by eapply runtime_inv_step|]. unfold acme_place_inv. simpl.
    destruct (acme_place s) as [|e|q] eqn:Hpl; [done| |].
    + destruct Hp as [? Hm]. split; [done|]. by eapply runtime_keeps_fast.
    + assert (a = DrainRequested ∨ ∃ m, a = ProcessStarted m) as Hsig
        by (unfold polls_loop in Hpoll; rewrite Hpl in Hpoll; destruct a; eauto; done).
      destruct (signal_step _ _ _ _ Er Hsig) as (-> & Hf & _). destruct Hp as (r0 & ? & [?|(e & ? & ? & ?)]); eauto 10.
  - destruct (acme_place s); try done. destruct (with_acme s) eqn:Hw; [|done].
    destruct (runtime_exec duration (server_runtime s) (ProcessStarted Fast)) as [r| |] eqn:Er; try done.
    injection E as <-. split; [by eapply runtime_inv_step|]. split; [done|]. simpl in *. by injection Er as <-.
  - destruct (phase (loop (server_runtime s))) as [| | | | | | | | |r] eqn:Hph; try done.
    destruct (acme_place s) as [|e|q]; try done; injection E as <-; (split; [done|]); exists r; (split; [done|]);
      [by left|right]. destruct Hp as [? ?]. by exists e.
Qed.

Definition acme_server_reachable (duration : Durations) (s : AcmeServer) : Prop :=
  ∃ with_acme probe now last_id acts,
    run_actions (acme_server_exec duration) (acme_server_new with_acme probe now last_id) acts = Some s.

Lemma acme_server_reachable_inv duration s : acme_server_reachable duration s → acme_inv s.
Proof.
  intros (w & probe & now & last_id & acts & Hr).
  apply (run_actions_invariant (acme_server_exec duration) acme_inv acts (acme_server_new w probe now last_id) s); [| |done].
  - intros ? ? ?. apply acme_inv_step.
  - split; [apply runtime_inv_new|done].
Qed.

(** How far the Server has come, and its own steps. *)
Definition acme_place_rank (p : AcmePlace) : nat :=
  match p with BothRunning => 0 | AwaitingLoop _ => 1 | AcmeServerReturned _ => 2 end.
Definition acme_rank (s : AcmeServer) : nat := (acme_place_rank (acme_place s) + runtime_rank (server_runtime s))%nat.
Definition acme_advancing (a : AcmeServerAction) : bool := match a with InRuntime a => advancing a | _ => true end.

Lemma acme_step_rank duration s a s' :
  acme_server_exec duration s a = Steps s' → ((if acme_advancing a then 1 else 0) + acme_rank s ≤ acme_rank s')%nat.
Proof.
  intros E. unfold acme_rank. destruct a as [a|res|]; cbn [acme_server_exec acme_advancing] in *.
  - destruct (polls_loop s a); [|done]. destruct (runtime_exec duration (server_runtime s) a) as [r| |] eqn:Er; try done.
    injection E as <-. pose proof (runtime_step_rank _ _ _ _ Er). simpl. lia.
  - destruct (acme_place s); try done. destruct (with_acme s); [|done]. injection E as <-. unfold runtime_rank. simpl. lia.
  - destruct (phase (loop (server_runtime s))); try done. destruct (acme_place s); try done; injection E as <-; simpl; lia.
Qed.

Lemma acme_run_rank duration acts s s' :
  run_actions (acme_server_exec duration) s acts = Some s' →
  (length (List.filter acme_advancing acts) + acme_rank s ≤ acme_rank s')%nat.
Proof.
  revert s. induction acts as [|a acts IH]; intros s Hr; [injection Hr as <-; simpl; lia|].
  cbn [run_actions] in Hr. destruct (acme_server_exec duration s a) as [s1| |] eqn:E; try done.
  pose proof (acme_step_rank _ _ _ _ E). specialize (IH s1 Hr). cbn [List.filter].
  destruct (acme_advancing a); simpl in *; lia.
Qed.

Lemma acme_rank_bound s : (acme_rank s ≤ 13)%nat.
Proof.
  unfold acme_rank, runtime_rank. pose proof (rank_bound (phase (loop (server_runtime s)))).
  assert (follow_rank (follow (server_runtime s)) ≤ 2)%nat by (destruct (follow (server_runtime s)); simpl; lia).
  assert (acme_place_rank (acme_place s) ≤ 2)%nat by (destruct (acme_place s); simpl; lia). lia.
Qed.

(** ** Properties *)

(** A Server and its certificate manager end together.  Nothing panics; the Server returns only
    when its loop has returned, with the loop's result unless the manager ended first, and then
    with the manager's error, under a fast shutdown of the whole process; it takes at most
    thirteen steps of its own, accepts apart, and once the manager has ended it has one until
    it has returned, unless its loop flushes. *)
Theorem acme_server_ends duration s :
  acme_server_reachable duration s →
  (∀ a, acme_server_exec duration s a ≠ Panics) ∧
  (∀ r, acme_place s = AcmeServerReturned r → ∃ r0, phase (loop (server_runtime s)) = Returned r0 ∧
     (r = map_err LoopFailed r0 ∨
      ∃ e, r = Err (ManagerStopped e) ∧ with_acme s = true ∧ process_mode (server_runtime s) = Some Fast)) ∧
  (∀ acts s', run_actions (acme_server_exec duration) s acts = Some s' →
     (length (List.filter acme_advancing acts) ≤ 13)%nat) ∧
  (∀ e, acme_place s = AwaitingLoop e →
     (∃ a s', acme_advancing a = true ∧ acme_server_exec duration s a = Steps s') ∨
     (phase (loop (server_runtime s)) = Flushing ∧ may_wait (loop (server_runtime s)))).
Proof.
  intros [Hr Hp]%acme_server_reachable_inv. unfold acme_place_inv in Hp. split_and!.
  - intros [a|res|] E; cbn [acme_server_exec] in E.
    + destruct (polls_loop s a); [|done]. destruct (runtime_exec duration (server_runtime s) a) eqn:Er; try done.
      by eapply runtime_no_panic in Er.
    + by destruct (acme_place s), (with_acme s).
    + by destruct (phase _), (acme_place s).
  - intros r Hpl. by rewrite Hpl in Hp.
  - intros acts s' Hrun. pose proof (acme_run_rank _ _ _ _ Hrun). pose proof (acme_rank_bound s'). lia.
  - intros e Hpl. rewrite Hpl in Hp. destruct Hp as [_ Hm]. destruct (returned (loop (server_runtime s))) eqn:Hret.
    + left. exists LoopDone. unfold returned in Hret. cbn [acme_server_exec]. rewrite Hpl.
      destruct (phase (loop (server_runtime s))); try done. eauto.
    + destruct (runtime_enabled duration (server_runtime s) Hr ltac:(left; congruence) Hret) as [(a & r & Ha & E)|[? Hf]];
        [left|right; auto].
      exists (InRuntime a). cbn [acme_server_exec]. assert (polls_loop s a = true) as ->
        by (unfold polls_loop; rewrite Hpl; by destruct a). rewrite E. eauto.
Qed.

(** The manager ends with an error while the Server accepts. *)
Lemma acme_server_ends_witness :
  ∃ s, acme_server_exec patient (acme_server_new true true 0 0) (ManagerEnds (Err (bs "x"))) = Steps s ∧
    ∃ a s', acme_advancing a = true ∧ acme_server_exec patient s a = Steps s'.
Proof.
  set (s := mkAcmeServer true (AwaitingLoop (bs "x")) (mkRuntime (Some Fast) false AwaitingStart (loop_new true 0 0))).
  assert (acme_server_reachable patient s) as Hre by (by exists true, true, 0, 0, [ManagerEnds (Err (bs "x"))]).
  exists s. split; [done|].
  destruct (proj2 (proj2 (proj2 (acme_server_ends patient s Hre))) (bs "x") eq_refl) as [H|[H _]]; [exact H|done].
Defined.
