(* ===== verification/ClientConnect.v ===== *)
(** * ClientConnect: a Client's connection attempt, from the name to the log

    [Client::connect_internal] ([src/client/mod.rs]) with [with_handshake_timeout]
    ([src/quic.rs]), and what [TunnelAttemptFailure] and [TunnelConnectionEnd]
    ([src/client/tunnel_attempt.rs]) report once the retry delay is known, as events of
    [RuntimeLog].  Sockets, QUIC and the establishment of the Tunnel answer with any value;
    what they answer is classified by [ClientRun]. *)

From Stdlib Require Import Ascii ZArith Lia.
From stdpp Require Import base strings numbers gmap list.
From S2P Require Import Prelude Text Names Framing Follower ClientRun RuntimeLog.
Import Hostname Address.

Open Scope Z_scope.

Section Connect.
Context {E : Type} `{QuicErrors E} (timed_out : E).

(** The answer of a future under a deadline. *)
Inductive Timed := InTime (r : result E unit) | Late.

Definition with_handshake_timeout (answer : Timed) : result E unit :=
  match answer with InTime r => r | Late => Err timed_out end.

(** What the network answers: the local socket, the start of the connection, the handshake, and
    the establishment of the Tunnel. *)
Record Network := mkNetwork {
  binds : bool;
  starts : bool;
  handshake : Timed;
  establishes : result (E + TunnelError) unit
}.

Definition connect_internal (server_name : bytes) (n : Network) : result (ClientConnectError (E := E)) unit :=
  _ ← map_err (λ _, ConnectFailed) (ServerHostname_try_from server_name);
  _ ← reject_if (negb (binds n)) BindFailed;
  _ ← reject_if (negb (starts n)) ConnectFailed;
  _ ← map_err Handshake (with_handshake_timeout (handshake n));
  map_err (λ e, match e with inl e => TunnelTransport e | inr e => TunnelFailed e end) (establishes n).

(** ** Reports *)

(** The socket address that a resolved address stands for. *)
Context (socket : bytes → Proxy.SocketAddr).

(** [TunnelAttemptFailure::report_after_retry_delay] *)
Definition report_attempt (k : AttemptFailureKind) (message : bytes) (delay_secs : Z) : option LogEvent :=
  match k with
  | ResolutionFailure c =>
      Some (ClientTunnelResolutionFailed (phase c) (attempt_kind c) (context_addr c) delay_secs message)
  | UnauthorizedFailure c => Some (ClientTunnelUnauthorized (attempt_kind c) (context_addr c) delay_secs message)
  | TransportFailure c resolved =>
      Some (ClientTunnelConnectFailed (phase c) (attempt_kind c) (context_addr c) (socket resolved) delay_secs message)
  | WrongGenerationFailure | UnclassifiedFailure => None
  end.

Definition report_candidate_after_retry_delay (k : AttemptFailureKind) (message server_address : bytes) (delay_secs : Z) : LogEvent :=
  match k with
  | WrongGenerationFailure => ClientTunnelCandidateRejected server_address delay_secs
  | _ => ClientTunnelCandidateFailed server_address delay_secs message
  end.

(** [TunnelConnectionEnd::report_after_retry_delay]; a clean end has no message. *)
Definition report_end (k : ConnectionEnd) (message : option bytes) (delay_secs : Z) : option LogEvent :=
  match k with
  | CleanEnd c => Some (ClientTunnelClosed (connection_addr c) delay_secs)
  | UnauthorizedEnd c => Some (ClientTunnelUnauthorized InitialAttempt (connection_addr c) delay_secs (default [] message))
  | TransportEnd c => Some (ClientTunnelDisconnected (connection_addr c) delay_secs (default [] message))
  | WithdrawalFailure _ => None
  end.

(** ** Properties *)

Lemma parsed_name_accepted text address :
  ServerAddress_parse text = Ok address → ServerHostname_try_from (sa_hostname address) = Ok (sa_hostname address).
Proof.
  intros [Hc _]%ServerAddress_parse_sound. unfold ServerHostname_try_from.
  by rewrite (proj2 (validate_spec _ _)) by (by rewrite normalize_canonical).
Qed.

(** The failure that the Server, or the network on the way to it, answered. *)
Definition peer_failure (n : Network) : option (E + TunnelError) :=
  if binds n && starts n then
    match with_handshake_timeout (handshake n), establishes n with
    | Err e, _ => Some (inl e)
    | Ok _, Err e => Some e
    | Ok _, Ok _ => None
    end
  else None.

(** An attempt is reported as what it was.  On a resolved address of the configuration, an attempt
    connects exactly when the socket, the handshake within its time and the Tunnel succeed.  Any
    other attempt is retried, never fatal, and logs one event with the address, the attempt and the
    delay: that the identity is refused exactly when the Server answered so, nothing when a
    candidate reached another generation, and a failed connection to that address otherwise. *)
Theorem attempt_reported text address i candidate context r rs n message delay s :
  ServerAddress_parse text = Ok address →
  let connected := map_err StartupConnect (connect_internal (sa_hostname address) n) in
  match (attempt_end i candidate address context (Some (r :: rs)) connected s).2 with
  | ConnectedTo c =>
      c = mkConnectionContext (context_addr context) r ∧
      binds n = true ∧ starts n = true ∧ with_handshake_timeout (handshake n) = Ok tt ∧ establishes n = Ok tt
  | Retryable k =>
      ¬ (binds n = true ∧ starts n = true ∧ with_handshake_timeout (handshake n) = Ok tt ∧ establishes n = Ok tt) ∧
      report_attempt k message delay =
        match peer_failure n with
        | Some (inr WrongGeneration) => None
        | Some (inl e) =>
            if is_tls_access_denied e
            then Some (ClientTunnelUnauthorized (attempt_kind context) (context_addr context) delay message)
            else Some (ClientTunnelConnectFailed (phase context) (attempt_kind context) (context_addr context) (socket r) delay message)
        | _ => Some (ClientTunnelConnectFailed (phase context) (attempt_kind context) (context_addr context) (socket r) delay message)
        end
  | FatalLocalMaterial _ => False
  end.
Proof.
  intros Hp connected. unfold connected, attempt_end, connect_internal, peer_failure. simpl.
  rewrite (parsed_name_accepted _ _ Hp). simpl.
  destruct (binds n); simpl; [|by split; [naive_solver|]]. destruct (starts n); simpl; [|by split; [naive_solver|]].
  destruct (with_handshake_timeout (handshake n)) as [[]|e]; simpl.
  - destruct (establishes n) as [[]|[e|e]]; simpl; [by split_and!| |].
    + split; [naive_solver|]. by destruct (is_tls_access_denied e).
    + split; [naive_solver|]. by destruct e.
  - split; [naive_solver|]. by destruct (is_tls_access_denied e).
Qed.
End Connect.

#[local] Existing Instance QuicToy.toy_errors.

(** A Server that refuses the identity in the handshake. *)
Lemma attempt_reported_witness :
  let refused := QuicToy.TransportCode 305 in
  let network := mkNetwork true true (InTime (Err refused)) (Ok tt) in
  let context := mkAttemptContext Establishing InitialAttempt (bs "edge.test:443") in
  ∃ k, (attempt_end 0 false QuicToy.address context (Some [bs "192.0.2.1"])
          (map_err StartupConnect (connect_internal QuicToy.TimedOut (bs "edge.test") network)) attempts_new).2 = Retryable k ∧
    report_attempt (λ _, Proxy.SockV4 0 443) k (bs "denied") 5 =
      Some (ClientTunnelUnauthorized InitialAttempt (bs "edge.test:443") 5 (bs "denied")).
Proof.
  intros refused network context.
  pose proof (attempt_reported QuicToy.TimedOut (λ _, Proxy.SockV4 0 443) (bs "edge.test:443") QuicToy.address 0 false context
    (bs "192.0.2.1") [] network (bs "denied") 5 attempts_new eq_refl) as Hr.
  exists (UnauthorizedFailure context). split; [vm_compute; reflexivity|]. cbv zeta in Hr.
  change (sa_hostname QuicToy.address) with (bs "edge.test") in Hr.
  match type of Hr with match ?o with _ => _ end => assert (o = Retryable (UnauthorizedFailure context)) as Ho by (vm_compute; reflexivity) end.
  rewrite Ho in Hr. destruct Hr as [_ ->]. vm_compute. reflexivity.
Defined.
